(* ===== verification/_CoqProject ===== *)
-Q . S2P
Prelude.v
Coords.v
Address.v
SheetSpec.v
Token.v
StructuredRef.v
StructuredTheorems.v
Reference.v
ReferenceTheorems.v
SpanTokenizer.v
Parser.v
OwnedTokenizer.v
SpanFacts.v
SpanTheorems.v
ParserTheorems.v
Grammar.v
FormulaTheorems.v
OwnedEquiv.v
IntervalTree.v
Kahn.v
Topo.v
TopoTheorems.v
Geom.v
GeomTheorems.v
SheetRegistry.v
Adjust.v
AdjustTheorems.v
IdSet.v
Proj.v
IdJournal.v
PlanControl.v
Counted.v
Buckets.v
PlanGraph.v
PlanGraphTheorems.v
TarjanFacts.v
TarjanTheorems.v
Avl.v
AvlFacts.v
AvlTheorems.v
AvlRefines.v
ArcEmit.v
ArcEmitFacts.v
ArcEmitTheorems.v
Radix.v
ArcSort.v
ArcSortTheorems.v
ArcSweep.v
ArcSweepFacts.v
ArcSweepEvents.v
ArcSweepTheorems.v
ArcSweepExact.v
ArcTopology.v
ArcTopologyTheorems.v
Schedule.v
ScheduleTheorems.v
PlanSchedule.v
PlanScheduleSort.v
PlanScheduleRuns.v
PlanScheduleTheorems.v
VertexAddr.v
VertexStore.v
VertexFlat.v
VertexStoreTheorems.v
Csr.v
CsrTheorems.v
DeltaEdges.v
DeltaTheorems.v
Relocate.v
RelocateTheorems.v
VirtualMembers.v
VirtualTheorems.v
StructuralRuns.v
BlockShift.v
ChangeLog.v
ChangeLogTheorems.v
ChangeLogGroups.v
