(* ===== verification/Prelude.v ===== *)
(** * Verification of the formualizer core

    formualizer is a spreadsheet engine in Rust.  This development models the
    parts of it that carry its own logic, and proves them correct.  Paths below are
    under [src/crates/].

    ** The parts and how they interact

    A formula text goes through the tokenizer ([formualizer-parse/src/tokenizer.rs]) and
    the parser ([parser.rs], [structured_ref.rs]) to a syntax tree whose references are
    cells, ranges and tables; the coordinates and sheet addresses are those of
    [formualizer-common].  The engine ([formualizer-eval/src/engine]) keeps the
    dependencies of the cells in index structures: intervals of referenced rows and
    columns, a topological order that is maintained under edge insertion, and the
    rectangles and cell covers of the formula authority.

    - [Prelude]: results, machine integers, bytes, characters, the development's
      tactics and hints.
    - [Coords] ([coord.rs]): packed coordinates, column letters, the A1 notation.
    - [Address] ([address.rs], [range.rs]): sheet-scoped addresses, packed sheet cells,
      sheet-name quoting.
    - [SheetSpec] ([parser.rs], [extract_sheet_spec]): the sheet part of references.
    - [Token] ([tokenizer.rs]): tokens, spans, operand classification.
    - [SpanTokenizer] ([SpanTokenizer], [TokenStream]) and [OwnedTokenizer] ([Tokenizer]):
      the two tokenizers; [SpanFacts], [SpanTheorems] and [OwnedEquiv] prove them.
    - [StructuredRef] ([structured_ref.rs]) and [StructuredTheorems]: table specifiers.
    - [Reference] ([ReferenceType] of [parser.rs]) and [ReferenceTheorems]: references in
      the Excel and the OpenFormula dialect.
    - [Parser] ([Parser], [BatchParser]): the Pratt parser; [ParserTheorems] (progress and
      termination), [Grammar] (the precedence grammar and the proof that the parser accepts
      exactly its sentences) and [FormulaTheorems] (what follows for formulas).
    - [IntervalTree] ([engine/interval_tree.rs]): the interval index, with its theorems.
    - [Kahn] and [Topo] ([engine/topo/pk.rs]) and [TopoTheorems]: the dynamic topological
      order over a graph given by the interface [GraphView].
    - [Geom] ([engine/authority/geom.rs]) and [GeomTheorems]: rectangles, canonical
      interval sets, cell covers.
    - [SheetRegistry] ([engine/sheet_registry.rs]): sheet names and ids.
    - [Adjust] ([engine/graph/editor/reference_adjuster.rs], [combine_references] of
      [reference.rs]) and [AdjustTheorems]: references and formulas under the insertion and
      deletion of rows and columns, copying and moving.
    - [IdSet] ([engine/idset.rs]): the bitmap set of vertex ids.
    - [Proj] ([engine/authority/proj.rs]): reference projections; [IdJournal]
      ([engine/authority/history.rs]): the vertex ids that undo and redo revive.
    - [PlanControl] ([engine/authority/plan_control.rs]): cancellation, memory admission and
      the errors of the planner; [Counted]: the monad of code that counts its work, with the
      classes by which each stage names its counters and errors, and the rules of its proofs;
      [Buckets]: counting placement, which the CSR graph and the radix sorts use; [Radix]:
      the byte passes and the comparison sort of both radix sorts, and stable orders.
    - [PlanGraph] ([engine/authority/plan_graph.rs]): the planner's graph kernel;
      [PlanGraphTheorems] proves its CSR graph, [TarjanFacts] and [TarjanTheorems] its
      component search.
    - [ArcEmit] ([engine/authority/arc_emit.rs]): the arcs of that graph; [ArcEmitFacts] is
      about the segment tree they go through, [ArcEmitTheorems] about the two passes.
    - [ArcSort] and [ArcSweep] ([engine/authority/arc_sweep.rs]): the radix sort and the event
      sweep that finds the pieces each image meets; [ArcSortTheorems], [ArcSweepFacts] (columns
      and keys), [ArcSweepEvents] (the cursor), [ArcSweepTheorems] (the passes) and
      [ArcSweepExact] (the whole) prove them.
    - [ArcTopology] ([engine/authority/arc_topology.rs]) and [ArcTopologyTheorems]: sweep,
      emission, graph and components one after the other; its theorem is proved from those of
      the four stages.
    - [Schedule] ([engine/scheduler.rs]) and [ScheduleTheorems]: layers, family runs and
      schedules, and their restriction to a set of vertices.  [PlanSchedule]
      ([engine/authority/plan_schedule.rs]): from the planner's ordered cells to a schedule;
      [PlanScheduleSort] (keys and sorts), [PlanScheduleRuns] (family runs) and
      [PlanScheduleTheorems] prove it.
    - [VertexAddr] ([engine/addr.rs], [engine/vertex.rs]), [VertexStore] ([engine/vertex_store.rs]):
      packed vertex addresses, and the vertex columns in pages; [VertexFlat] is their
      specification as a list of rows, [VertexStoreTheorems] the refinement.
    - [Csr] ([engine/csr_edges.rs]) and [DeltaEdges] ([engine/delta_edges.rs]): the dependency
      edges in compressed rows, and the changes pending on top of them; [CsrTheorems] and
      [DeltaTheorems] prove that they hold a set of edges.
    - [Relocate] ([engine/template/relocate.rs]) and [RelocateTheorems]: formulas moved by an
      offset, and the members of a template.  [VirtualMembers]
      ([engine/graph/virtual_members.rs]) and [VirtualTheorems]: the family members kept as runs
      down a column.  [StructuralRuns] ([engine/graph/structural_runs.rs]): the plan that moves a
      run as a block; [BlockShift] proves it against the rewrite of each member by [Adjust].
    - [ChangeLog] ([engine/graph/editor/change_log.rs]): the log of the graph's edits, with runs of
      rewritten formulas as unexpanded records; [ChangeLogTheorems] proves it against a list of
      rows, [ChangeLogGroups] the invariant of its groups.
    - [Avl] ([engine/authority/avl.rs]): the map over an arena of slots; [AvlFacts] relates the
      arena to a tree, [AvlTheorems] proves the updates, [AvlRefines] that it is a finite map.

    ** Conventions

    A function that returns [Result], or may hit an [assert!], an [unwrap] or an index
    out of bounds, is a [result E A] with [Panic] for the panic.  Mutable state is passed
    through: a method takes the state and gives the new one.  Integers are [Z] with the
    wrap-around of their width written out, and positions in texts and vectors are [nat].
    Texts are the bytes of their UTF-8 encoding: the code slices at ASCII
    delimiters only.  Maps are [gmap]s, and B-tree maps are read in the order of their keys.
    Memory allocation that may fail is an oracle [alloc], and a callback a function on a state
    of its own.  Names are those of the source; a helper that the source writes inline has a name of
    its own, and the manifest's map says which lines it translates.

    ** Fuel

    A loop whose recursion is not structural takes a fuel, and out of fuel is [Panic],
    so that a theorem that excludes [Panic] says that the fuel is enough.  The tokenizers
    take [2 * length + 2] steps for a text ([loop_fuel]: each step consumes a byte or closes
    the token at hand); the parser's loops [2 * tokens + 2]; its recursion goes down on the
    frames that [MAX_PARSE_DEPTH] = 72 leaves; the search of the topological order takes one
    step for every node and edge ([search_fuel]), and the rebuild one for every node.  The
    component search takes a step for every arc and every node ([PlanGraph.search_fuel]);
    the words of an id set have 64 bits.  The recursions of the arena map take a step for every
    slot ([Avl.depth], the height is at most 45), the cover of an interval halves its range
    ([ArcEmit.canonical_loop]).  The merges of the sweep take a step for every column
    ([ArcSweep.skip], [ArcSweep.size_pairs], [ArcSweep.fill_pairs]).  A move of members takes at
    most a step for each of them ([VertexStore.shift_loop]).  The loops of the schedule
    adapter take a cell or more at each step ([PlanSchedule.build]), those of a restriction a
    vertex or a run ([Schedule.keep_loop]).

    ** What the theorems show

    - Parsing: every text is parsed or rejected without a panic; the parser accepts exactly
      the sentences of an unambiguous precedence grammar, and flags exactly the volatile nodes;
      a batch parser with its cache agrees with parsing each formula alone.
    - Tokens: the spans are ordered, disjoint, inside the text and well nested, and tile it;
      best-effort tokenization always ends and agrees with the strict one; the two
      tokenizers agree.
    - References, sheet names and addresses: the text of a printable reference (its theorem says
      which are) is read back; what is read is in bounds, up to the rows of ranges, which are any
      nonzero [u32]s.
    - Coordinates: exact characterisation of the A1 notation, of packed words and of column
      letters; rebasing stays in the grid or fails.
    - Interval index, topological order, geometry: the invariants, and each operation against
      the set of cells, intervals or the graph it stands for.
    - Structural edits: a reference with ordered corners and room on the sheet is adjusted to exactly
      the cells that moved, a formula is adjusted reference by reference, and an insertion is undone
      by a deletion.
    - Formula families: relocation moves the references of a formula and nothing else, or fails exactly
      when one cannot move, and is undone by the opposite offset; the runs are a map of members under any splits and removals; a run that
      moves as a block has for every member the formula that the edit gives it.
    - Change log: unexpanded records cannot be observed, the cap keeps the last events, and the
      events of a group are consecutive.
    - Registry, id set, journal, projections: each refines the map, set, timeline or relation
      it stands for, the registry for up to 2^16 ids.
    - Arena map: under any sequence of updates the arena is a balanced search tree with its
      free slots, and every operation is that of a finite map.
    - Vertex and edge storage: pages, and pages whose rows are dropped, cannot be observed; the
      edge store is a set of edges under any edits, batches, rebuilds and ingests, read both
      ways; rebuilds are amortized over a thousand edits.
    - Planning: the sweep hits exactly the pieces that each image meets; the emitted arcs
      connect the pieces as the hits do; the CSR graph has exactly the given arcs; the components
      are the strongly connected components in reverse topological order.  Each is proved with
      its counted work, on every path of cancellation, allocation failure and memory admission.
      Together: the topology stage classifies the pieces by mutual reading, charges the outputs of
      all earlier stages to each stage, and no stage refuses what the one before it gives.
    - Schedules: the adapter sorts the cells by either of its sorts to the same order, makes a
      layer or a cycle of each group and a run of each family, and orders what the planner's
      layers order; the restriction of a schedule keeps its order and its runs.

    ** What is not modelled

    Display texts of errors, hashing and heap-size estimates, the queries of the syntax
    tree, the printer of whole formulas, and the state of a parser after an error.  The evaluation engine over Arrow columns,
    the built-in functions (floating point), the file backends and the bindings are I/O,
    third-party data structures or numerics.  The graph's own orchestration (its names, tables,
    vertex editor, undo and transactions) runs over the structures above and is not modelled, so
    the plans of block shifts are proved, and not what the graph does with them.  The manifest lists every part with its status. *)
From Stdlib Require Export ZArith Lia Ascii String.
From stdpp Require Export base tactics option list numbers strings gmap sets fin_sets sorting.


(** * Results

    A Rust function that returns [Result<A, E>], may hit an [assert!], an
    [unwrap] on [None] or an index out of range, is a [result E A]: [Panic] is
    the panic.  A loop that runs out of the fuel it is given also yields
    [Panic], so a theorem that a function does not panic says its fuel is
    enough. *)

Inductive result (E A : Type) : Type :=
| Ok (a : A)
| Err (e : E)
| Panic.
Arguments Ok {E A} a.
Arguments Err {E A} e.
Arguments Panic {E A}.

#[export] Instance result_eq_dec `{EqDecision E, EqDecision A} :
  EqDecision (result E A).
Proof. solve_decision. Defined.

#[export] Instance result_ret {E} : MRet (result E) := λ A a, Ok a.
#[export] Instance result_bind {E} : MBind (result E) := λ A B f m,
  match m with Ok a => f a | Err e => Err e | Panic => Panic end.
#[export] Instance result_fmap {E} : FMap (result E) := λ A B f m,
  match m with Ok a => Ok (f a) | Err e => Err e | Panic => Panic end.

(** [map_err], [ok_or] and [assert!]/[expect] of the standard library. *)
Definition map_err {E F A} (f : E → F) (m : result E A) : result F A :=
  match m with Ok a => Ok a | Err e => Err (f e) | Panic => Panic end.

Definition ok_or {E A} (o : option A) (e : E) : result E A :=
  match o with Some a => Ok a | None => Err e end.

Definition expect {E A} (o : option A) : result E A :=
  match o with Some a => Ok a | None => Panic end.

Definition ok {E A} (m : result E A) : option A :=
  match m with Ok a => Some a | _ => None end.

Lemma result_bind_ok {E A B} (f : A → result E B) m b :
  m ≫= f = Ok b ↔ ∃ a, m = Ok a ∧ f a = Ok b.
Proof.
  destruct m as [a|e|]; simpl; split; try done; try by intros (?&?&?).
  - by exists a.
  - by intros (?&[= ->]&?).
Qed.

Lemma result_bind_panic {E A B} (f : A → result E B) m :
  m ≫= f = Panic ↔ m = Panic ∨ ∃ a, m = Ok a ∧ f a = Panic.
Proof.
  destruct m as [a|e|]; simpl; split; try done; try by left.
  - intros; right; by exists a.
  - by intros [?|(?&[= ->]&?)].
  - by intros [?|(?&?&?)].
Qed.

Lemma map_err_ok {E F A} (f : E → F) (m : result E A) a :
  map_err f m = Ok a ↔ m = Ok a.
Proof. destruct m; simpl; split; congruence. Qed.

Lemma expect_ok {E A} (o : option A) a : @expect E A o = Ok a ↔ o = Some a.
Proof. destruct o; simpl; split; congruence. Qed.

(** ** Code that does not panic

    [no_panic] goes through the binds and the branches of a body. *)

Lemma bind_no_panic {E A B} (f : A → result E B) m :
  m ≠ Panic → (∀ a, m = Ok a → f a ≠ Panic) → m ≫= f ≠ Panic.
Proof. intros Hm Hf. destruct m as [a|e|]; [by apply Hf|done|done]. Qed.
Lemma fmap_no_panic {E A B} (f : A → B) (m : result E A) : m ≠ Panic → f <$> m ≠ Panic.
Proof. by destruct m. Qed.
Lemma map_err_no_panic {E F A} (f : E → F) (m : result E A) : m ≠ Panic → map_err f m ≠ Panic.
Proof. by destruct m. Qed.
Lemma ok_or_no_panic {E A} (o : option A) (e : E) : ok_or o e ≠ Panic.
Proof. by destruct o. Qed.

Ltac no_panic_step :=
  match goal with
  | |- Ok _ ≠ Panic => discriminate
  | |- Err _ ≠ Panic => discriminate
  | |- ok_or _ _ ≠ Panic => apply ok_or_no_panic
  | |- (_ ≫= _) ≠ Panic => apply bind_no_panic; [|intros ? ?]
  | |- (_ <$> _) ≠ Panic => apply fmap_no_panic
  | |- map_err _ _ ≠ Panic => apply map_err_no_panic
  | |- match ?x with _ => _ end ≠ Panic => let E := fresh in destruct x eqn:E
  | |- _ ≠ Panic => solve [auto 2 with formualizer]
  end.
Ltac no_panic := repeat no_panic_step.

(** [bind_inv] takes the binds of a successful body apart. *)
Ltac bind_inv :=
  repeat match goal with
  | H : (_ ≫= _) = Ok _ |- _ =>
      let a := fresh "a" in let E := fresh "E" in apply result_bind_ok in H as (a & E & H)
  | a : (_ * _)%type |- _ => destruct a
  | H : Ok _ = Ok _ |- _ => injection H as H; subst
  end.

(** * Automation

    [formualizer] holds the lemmas that close a side condition, [bool_prop]
    turns a boolean test of the code into the proposition it decides. *)

Create HintDb formualizer.
Create Rewrite HintDb bool_prop.
#[export] Hint Rewrite andb_true_iff orb_true_iff negb_true_iff bool_decide_eq_true
  Z.leb_le Z.ltb_lt Z.eqb_eq Z.leb_gt Z.ltb_ge Nat.leb_le Nat.ltb_lt Nat.eqb_eq
  Ascii.eqb_eq andb_false_iff orb_false_iff : bool_prop.

Tactic Notation "bool_prop" := autorewrite with bool_prop.
Tactic Notation "bool_prop" "in" hyp(H) := autorewrite with bool_prop in H.
Tactic Notation "bool_prop" "in" "*" := autorewrite with bool_prop in *.

(** * Lists *)

Lemma elem_if {A} (b : bool) (x p : A) : p ∈ (if b then [x] else []) ↔ b = true ∧ p = x.
Proof.
  destruct b; [rewrite list_elem_of_singleton; tauto|]. split; [by intros ?%elem_of_nil|by intros []].
Qed.

Lemma sorted_filter {A} (R : A → A → Prop) (P : A → Prop) `{∀ x, Decision (P x)} l :
  StronglySorted R l → StronglySorted R (filter P l).
Proof.
  induction 1 as [|x l Hs IH Hall]; [constructor|]. rewrite filter_cons. case_decide; [|done].
  constructor; [done|]. apply Forall_forall. intros y [_ Hy]%list_elem_of_filter.
  rewrite Forall_forall in Hall. by apply Hall.
Qed.

Lemma NoDup_key_inj {A B} (key : A → B) (l : list A) x y :
  NoDup (key <$> l) → x ∈ l → y ∈ l → key x = key y → x = y.
Proof.
  induction l as [|z l IH]; csimpl; [by intros _ ?%elem_of_nil|].
  intros [Hz Hnd]%NoDup_cons [->|Hx]%elem_of_cons [->|Hy]%elem_of_cons E; [done| | |by apply IH].
  - destruct Hz. rewrite E. by apply list_elem_of_fmap_2.
  - destruct Hz. rewrite <- E. by apply list_elem_of_fmap_2.
Qed.

#[export] Hint Resolve sorted_filter : formualizer.

(** ** Vectors

    [v[i]], [v[i] = x] and [&v[a..b]]: an index out of range panics. *)

(** A pass over a list whose every step succeeds. *)
Lemma mapM_ok {E A B} (f : A → result E B) (g : A → B) l : (∀ x, x ∈ l → f x = Ok (g x)) → mapM f l = Ok (g <$> l).
Proof.
  induction l as [|x l IH]; intros H; [done|]. cbn [mapM]. rewrite H by set_solver. cbn [mbind result_bind].
  rewrite IH by set_solver. done.
Qed.

Definition vec_get {E A} (l : list A) (i : nat) : result E A := expect (l !! i).
Definition vec_set {E A} (l : list A) (i : nat) (x : A) : result E (list A) :=
  if (i <? length l)%nat then Ok (<[i := x]> l) else Panic.
Definition vec_slice {E A} (l : list A) (a b : nat) : result E (list A) :=
  if (a <=? b)%nat && (b <=? length l)%nat then Ok (take (b - a) (drop a l)) else Panic.

Lemma vec_get_ok {E A} `{!Inhabited A} (l : list A) i : i < length l → @vec_get E A l i = Ok (l !!! i).
Proof. intros H. unfold vec_get. by rewrite (list_lookup_lookup_total_lt l i H). Qed.
Lemma vec_set_ok {E A} (l : list A) i x : i < length l → @vec_set E A l i x = Ok (<[i := x]> l).
Proof. intros H. unfold vec_set. by rewrite (proj2 (Nat.ltb_lt _ _) H). Qed.
Lemma vec_slice_ok {E A} (l : list A) a b : a ≤ b ≤ length l →
  @vec_slice E A l a b = Ok (take (b - a) (drop a l)).
Proof. intros H. unfold vec_slice. by rewrite (proj2 (Nat.leb_le a b)), (proj2 (Nat.leb_le b _)) by lia. Qed.

Lemma sum_list_insert {A} (f : A → nat) (l : list A) i x y : l !! i = Some x →
  sum_list_with f (<[i := y]> l) + f x = sum_list_with f l + f y.
Proof.
  revert i. induction l as [|z l IH]; intros [|i] H; simplify_eq/=; [lia|]. specialize (IH i H). lia.
Qed.

(** * Machine integers

    [u8], [u16], [u32] and [u64] values are integers of [Z] in the range of
    their width; [usize] positions inside a buffer are [nat]. *)

Declare Scope u32_scope.
Delimit Scope u32_scope with u32.

Definition u32_max : Z := 2 ^ 32 - 1.
Definition u64_max : Z := 2 ^ 64 - 1.
Definition in_u32 (x : Z) : Prop := (0 ≤ x ≤ u32_max)%Z.
Definition in_u64 (x : Z) : Prop := (0 ≤ x ≤ u64_max)%Z.
Definition in_i32 (x : Z) : Prop := (- 2 ^ 31 ≤ x < 2 ^ 31)%Z.
Definition in_i64 (x : Z) : Prop := (- 2 ^ 63 ≤ x < 2 ^ 63)%Z.

(** [x as u32], [x as i32]: truncation to the low 32 bits. *)
Definition as_u32 (x : Z) : Z := (x mod 2 ^ 32)%Z.
Definition as_i32 (x : Z) : Z := ((x + 2 ^ 31) mod 2 ^ 32 - 2 ^ 31)%Z.

Definition checked_sub (a b : Z) : option Z :=
  if decide (b ≤ a)%Z then Some (a - b)%Z else None.
Definition checked_add (a b : Z) : option Z :=
  if decide (a + b ≤ u32_max)%Z then Some (a + b)%Z else None.
Definition checked_mul (a b : Z) : option Z :=
  if decide (a * b ≤ u32_max)%Z then Some (a * b)%Z else None.
Definition saturating_sub (a b : Z) : Z := Z.max 0 (a - b).
Definition saturating_add (a b : Z) : Z := Z.min u32_max (a + b).

Infix "+?" := checked_add (at level 50, left associativity) : u32_scope.
Infix "-?" := checked_sub (at level 50, left associativity) : u32_scope.
Infix "*?" := checked_mul (at level 40, left associativity) : u32_scope.

Lemma checked_add_spec a b c : (a +? b)%u32 = Some c ↔ (c = a + b ∧ c ≤ u32_max)%Z.
Proof. unfold checked_add. case_decide; naive_solver. Qed.
Lemma checked_mul_spec a b c : (a *? b)%u32 = Some c ↔ (c = a * b ∧ c ≤ u32_max)%Z.
Proof. unfold checked_mul. case_decide; naive_solver. Qed.
Lemma checked_sub_spec a b c : (a -? b)%u32 = Some c ↔ (c = a - b ∧ b ≤ a)%Z.
Proof. unfold checked_sub. case_decide; naive_solver. Qed.

(** A sum of [u32]s under the overflow check of a debug build. *)
Definition add_u32 {E} (a b : Z) : result E Z := expect (a +? b)%u32.

Lemma add_u32_ok {E} a b : (a + b ≤ u32_max)%Z → add_u32 (E := E) a b = Ok (a + b)%Z.
Proof. intros H. unfold add_u32, checked_add. by rewrite decide_True. Qed.

(** The difference of [u32]s under the same check. *)
Definition sub_u32 {E} (a b : Z) : result E Z := expect (a -? b)%u32.

Lemma sub_u32_ok {E} a b : (b ≤ a)%Z → sub_u32 (E := E) a b = Ok (a - b)%Z.
Proof. intros H. unfold sub_u32, checked_sub. by rewrite decide_True. Qed.

Lemma as_u32_nat n : (Z.of_nat n ≤ u32_max)%Z → as_u32 (Z.of_nat n) = Z.of_nat n.
Proof. intros Hn. unfold as_u32, u32_max in *. apply Z.mod_small. lia. Qed.

Lemma as_u32_small x : in_u32 x → as_u32 x = x.
Proof. intros H. apply Z.mod_small. unfold in_u32, u32_max in H. lia. Qed.

Lemma as_i32_small x : in_i32 x → as_i32 x = x.
Proof.
  intros H. unfold as_i32, in_i32 in *. rewrite Z.mod_small; lia.
Qed.

(** ** Bit fields: a mask of [w] ones at position [k] selects a quotient. *)

Lemma land_field x w k :
  (0 ≤ w)%Z → (0 ≤ k)%Z →
  Z.land x (Z.shiftl (Z.ones w) k) = Z.shiftl ((x / 2 ^ k) mod 2 ^ w) k.
Proof.
  intros Hw Hk. rewrite <- Z.land_ones, <- Z.shiftr_div_pow2 by lia.
  apply Z.bits_inj'. intros i Hi. rewrite Z.land_spec.
  destruct (Z.lt_ge_cases i k).
  - by rewrite !Z.shiftl_spec_low, andb_false_r by lia.
  - rewrite !Z.shiftl_spec_high, Z.land_spec, Z.shiftr_spec by lia.
    by replace (i - k + k)%Z with i by lia.
Qed.

Lemma land_field_shiftr x w k :
  (0 ≤ w)%Z → (0 ≤ k)%Z →
  Z.shiftr (Z.land x (Z.shiftl (Z.ones w) k)) k = ((x / 2 ^ k) mod 2 ^ w)%Z.
Proof.
  intros Hw Hk. rewrite land_field by lia.
  by rewrite Z.shiftr_shiftl_l, Z.sub_diag, Z.shiftl_0_r by lia.
Qed.

Lemma testbit_high x n i : (0 ≤ x < 2 ^ n)%Z → (0 ≤ n ≤ i)%Z → Z.testbit x i = false.
Proof.
  intros Hx Hi. rewrite <- (Z.mod_small x (2 ^ n)) by lia.
  apply Z.mod_pow2_bits_high; lia.
Qed.

Lemma lor_shiftl_add a b k :
  (0 ≤ k)%Z → (0 ≤ a < 2 ^ k)%Z → Z.lor (Z.shiftl b k) a = (b * 2 ^ k + a)%Z.
Proof.
  intros Hk Ha. rewrite <- Z.shiftl_mul_pow2 by lia.
  rewrite <- Z.add_lor_land.
  replace (Z.land (Z.shiftl b k) a) with 0%Z; [lia|].
  symmetry. apply Z.bits_inj'. intros i Hi. rewrite Z.land_spec, Z.bits_0.
  destruct (Z.lt_ge_cases i k).
  - by rewrite Z.shiftl_spec_low by lia.
  - rewrite (testbit_high a k) by lia. by rewrite andb_false_r.
Qed.

Lemma land_disjoint_zero x w k m :
  (0 ≤ w)%Z → (0 ≤ k)%Z → (0 ≤ x < 2 ^ k)%Z → Z.land x (Z.shiftl m k) = 0%Z.
Proof.
  intros Hw Hk Hx. apply Z.bits_inj'. intros i Hi. rewrite Z.land_spec, Z.bits_0.
  destruct (Z.lt_ge_cases i k).
  - by rewrite Z.shiftl_spec_low, andb_false_r by lia.
  - by rewrite (testbit_high x k) by lia.
Qed.

(** * Bytes and strings

    A [&str] or [String] is the list of its UTF-8 bytes and a [usize] index
    into it is a [nat].  A [char] that is carried in an error value is its
    UTF-8 encoding. *)

Abbreviation byte := ascii (only parsing).
Abbreviation bytes := (list ascii) (only parsing).
Abbreviation char := (list ascii) (only parsing).

Definition str (s : string) : bytes := list_ascii_of_string s.

Definition byte_Z (c : byte) : Z := Z.of_N (N_of_ascii c).
Definition byte_of_Z (z : Z) : byte := ascii_of_N (Z.to_N z).

Definition byte_in (lo hi c : byte) : bool :=
  (byte_Z lo <=? byte_Z c)%Z && (byte_Z c <=? byte_Z hi)%Z.

Definition is_ascii_digit (c : byte) : bool := byte_in "0" "9" c.
Definition is_ascii_uppercase (c : byte) : bool := byte_in "A" "Z" c.
Definition is_ascii_lowercase (c : byte) : bool := byte_in "a" "z" c.
Definition is_ascii_alphabetic (c : byte) : bool :=
  is_ascii_uppercase c || is_ascii_lowercase c.
Definition to_ascii_uppercase (c : byte) : byte :=
  if is_ascii_lowercase c then byte_of_Z (byte_Z c - 32) else c.
Definition to_ascii_lowercase (c : byte) : byte :=
  if is_ascii_uppercase c then byte_of_Z (byte_Z c + 32) else c.

Definition eqb_bytes (a b : bytes) : bool := bool_decide (a = b).
Definition eq_ignore_ascii_case (a b : bytes) : bool :=
  eqb_bytes (to_ascii_lowercase <$> a) (to_ascii_lowercase <$> b).

(** [&s[a..b]] on bytes; the callers' bounds are proved where they matter. *)
Definition slice {A} (l : list A) (a b : nat) : list A := take (b - a) (drop a l).

Definition quote : byte := ascii_of_nat 34.
Definition tab : byte := ascii_of_nat 9.
Definition newline : byte := ascii_of_nat 10.
Definition carriage_return : byte := ascii_of_nat 13.

Definition starts_with (c : byte) (s : bytes) : bool :=
  match s with x :: _ => Ascii.eqb x c | [] => false end.
Definition contains (c : byte) (s : bytes) : bool := existsb (Ascii.eqb c) s.
Definition ends_with (c : byte) (s : bytes) : bool :=
  match last s with Some x => Ascii.eqb x c | None => false end.

Definition byte_at (s : bytes) (i : nat) (c : byte) : bool :=
  match s !! i with Some d => Ascii.eqb d c | None => false end.

(** The longest prefix whose bytes satisfy [p], and the rest: the loop
    [while i < len && p(bytes[i]) { i += 1 }] on the bytes from [i] on. *)
Fixpoint span {A} (p : A → bool) (l : list A) : list A * list A :=
  match l with
  | x :: l' => if p x then let '(a, b) := span p l' in (x :: a, b) else ([], l)
  | [] => ([], [])
  end.

(** [s.chars()]: the scalar values of a well-formed UTF-8 string, each by its
    encoding; the lead byte gives the length. *)
Definition utf8_len (c : byte) : nat :=
  let n := byte_Z c in
  if (n <? 192)%Z then 1 else if (n <? 224)%Z then 2 else if (n <? 240)%Z then 3 else 4.

Fixpoint chars_go (fuel : nat) (s : bytes) : list char :=
  match fuel, s with
  | S fuel, c :: _ => take (utf8_len c) s :: chars_go fuel (drop (utf8_len c) s)
  | _, _ => []
  end.
Definition chars (s : bytes) : list char := chars_go (length s) s.

(** [char::is_whitespace], and [str::trim] on characters. *)
Definition char_is_whitespace (ch : char) : bool :=
  match byte_Z <$> ch with
  | [c] => ((9 <=? c) && (c <=? 13) || (c =? 32))%Z
  | [0xC2%Z; c] => ((c =? 0x85) || (c =? 0xA0))%Z
  | [0xE1%Z; 0x9A%Z; c] => (c =? 0x80)%Z
  | [0xE2%Z; 0x80%Z; c] =>
      ((0x80 <=? c) && (c <=? 0x8A) || (c =? 0xA8) || (c =? 0xA9) || (c =? 0xAF))%Z
  | [0xE2%Z; 0x81%Z; c] => (c =? 0x9F)%Z
  | [0xE3%Z; 0x80%Z; c] => (c =? 0x80)%Z
  | _ => false
  end.
Definition trim_start (s : bytes) : bytes := concat (span char_is_whitespace (chars s)).2.
Definition trim_end (s : bytes) : bytes :=
  concat (reverse (span char_is_whitespace (reverse (chars s))).2).
Definition trim (s : bytes) : bytes := trim_end (trim_start s).

(** [s.find(c)] and the split around it: [s.splitn(2, c)]. *)
Definition split_at (c : byte) (s : bytes) : option (bytes * bytes) :=
  let '(a, b) := span (λ x, negb (Ascii.eqb x c)) s in
  match b with _ :: b => Some (a, b) | [] => None end.

(** [{n}] in a format string and [{n:#x}]: decimal and hexadecimal digits. *)
Definition digit (d : Z) : byte := byte_of_Z (if (d <? 10)%Z then 48 + d else 87 + d).

Fixpoint fmt_radix (radix : Z) (fuel : nat) (n : Z) (acc : bytes) : bytes :=
  match fuel with
  | O => acc
  | S fuel =>
      let acc := digit (n mod radix) :: acc in
      if (n <? radix)%Z then acc else fmt_radix radix fuel (n / radix) acc
  end.
Definition fmt_dec (n : Z) : bytes := fmt_radix 10 20 n [].
Definition fmt_hex (n : Z) : bytes := str "0x" ++ fmt_radix 16 16 n [].

(** [s.parse::<u32>()]: an optional [+], then digits, without overflow. *)
Fixpoint parse_digits (acc : Z) (s : bytes) : option Z :=
  match s with
  | [] => Some acc
  | c :: s =>
      if is_ascii_digit c then
        acc ← (acc *? 10)%u32;
        acc ← (acc +? (byte_Z c - 48))%u32;
        parse_digits acc s
      else None
  end.
Definition parse_u32 (s : bytes) : option Z :=
  match s with
  | [] => None
  | "+"%char :: [] => None
  | "+"%char :: s => parse_digits 0 s
  | s => parse_digits 0 s
  end.

(** ** Facts on bytes *)

(** [byte_cases c] splits a goal on the 256 values of [c]. *)
Ltac byte_cases c := destruct c as [[] [] [] [] [] [] [] []].

Lemma byte_of_Z_byte_Z c : byte_of_Z (byte_Z c) = c.
Proof. unfold byte_of_Z, byte_Z. by rewrite N2Z.id, ascii_N_embedding. Qed.

Lemma byte_Z_byte_of_Z z : (0 ≤ z < 256)%Z → byte_Z (byte_of_Z z) = z.
Proof.
  intros Hz. unfold byte_of_Z, byte_Z. rewrite N_ascii_embedding; lia.
Qed.

Lemma byte_Z_range c : (0 ≤ byte_Z c < 256)%Z.
Proof. pose proof (N_ascii_bounded c). unfold byte_Z. lia. Qed.

Lemma byte_Z_inj c d : byte_Z c = byte_Z d → c = d.
Proof. intros H. by rewrite <- (byte_of_Z_byte_Z c), H, byte_of_Z_byte_Z. Qed.

Lemma is_ascii_digit_spec c : is_ascii_digit c = true ↔ (48 ≤ byte_Z c ≤ 57)%Z.
Proof.
  unfold is_ascii_digit, byte_in. change (byte_Z "0") with 48%Z.
  change (byte_Z "9") with 57%Z. lia.
Qed.

Lemma is_ascii_uppercase_spec c : is_ascii_uppercase c = true ↔ (65 ≤ byte_Z c ≤ 90)%Z.
Proof.
  unfold is_ascii_uppercase, byte_in. change (byte_Z "A") with 65%Z.
  change (byte_Z "Z") with 90%Z. lia.
Qed.

Lemma is_ascii_lowercase_spec c : is_ascii_lowercase c = true ↔ (97 ≤ byte_Z c ≤ 122)%Z.
Proof.
  unfold is_ascii_lowercase, byte_in. change (byte_Z "a") with 97%Z.
  change (byte_Z "z") with 122%Z. lia.
Qed.

Lemma digit_is_digit d : (0 ≤ d < 10)%Z → is_ascii_digit (digit d) = true ∧ byte_Z (digit d) = (48 + d)%Z.
Proof.
  intros Hd. unfold digit. rewrite (proj2 (Z.ltb_lt _ _)) by lia.
  rewrite is_ascii_digit_spec, byte_Z_byte_of_Z by lia. lia.
Qed.

(** ** [span] *)

Lemma span_app {A} (p : A → bool) (l a b : list A) :
  span p l = (a, b) → l = a ++ b.
Proof.
  revert a b. induction l as [|x l IH]; simpl; intros a b; [by intros [= <- <-]|].
  destruct (p x); [|by intros [= <- <-]].
  destruct (span p l) as [a' b']. intros [= <- <-]. simpl. f_equal. by apply IH.
Qed.

Lemma span_prefix {A} (p : A → bool) (l a b : list A) :
  span p l = (a, b) → Forall (λ x, p x = true) a.
Proof.
  revert a b. induction l as [|x l IH]; simpl; intros a b; [by intros [= <- <-]|].
  destruct (p x) eqn:Hx; [|by intros [= <- <-]].
  destruct (span p l) as [a' b']. intros [= <- <-]. by constructor; eauto.
Qed.

Definition head_not {A} (p : A → bool) (l : list A) : Prop :=
  match l with x :: _ => p x = false | [] => True end.

Lemma span_exact {A} (p : A → bool) (a b : list A) :
  Forall (λ x, p x = true) a → head_not p b → span p (a ++ b) = (a, b).
Proof.
  intros Ha Hb. induction Ha as [|x a Hx Ha IH]; simpl.
  - destruct b as [|y b]; simpl in *; [done|by rewrite Hb].
  - by rewrite Hx, IH.
Qed.

(** ** Decimal text *)

Lemma checked_mul_small a b : (a * b ≤ u32_max)%Z → checked_mul a b = Some (a * b)%Z.
Proof. intros. unfold checked_mul. by rewrite decide_True. Qed.
Lemma checked_add_small a b : (a + b ≤ u32_max)%Z → checked_add a b = Some (a + b)%Z.
Proof. intros. unfold checked_add. by rewrite decide_True. Qed.

Lemma parse_digits_cons a d s :
  (0 ≤ d < 10)%Z → (0 ≤ a)%Z → (a * 10 + d ≤ u32_max)%Z →
  parse_digits a (digit d :: s) = parse_digits (a * 10 + d) s.
Proof.
  intros Hd Ha Hb. destruct (digit_is_digit d Hd) as [E1 E2]. simpl.
  rewrite E1, E2, checked_mul_small by lia. simpl.
  rewrite checked_add_small by lia. simpl. f_equal. lia.
Qed.

Lemma parse_fmt_radix fuel n s :
  (0 < fuel)%nat → (0 ≤ n < 10 ^ Z.of_nat fuel)%Z → (n ≤ u32_max)%Z →
  parse_digits 0 (fmt_radix 10 fuel n s) = parse_digits n s.
Proof.
  revert n s. induction fuel as [|fuel IH]; intros n s Hf Hn Hm; [lia|].
  cbn [fmt_radix]. pose proof (Z.mod_pos_bound n 10 ltac:(lia)) as Hmod.
  pose proof (Z.div_mod n 10 ltac:(lia)) as Hdm.
  destruct (Z.ltb_spec n 10).
  - rewrite (Z.mod_small n 10) by lia. rewrite parse_digits_cons by lia. f_equal; lia.
  - rewrite Nat2Z.inj_succ, Z.pow_succ_r in Hn by lia.
    destruct fuel as [|fuel]; [simpl in Hn; lia|].
    rewrite IH; [|lia|split; [apply Z.div_pos; lia|apply Z.div_lt_upper_bound; lia]|lia].
    rewrite parse_digits_cons by lia. f_equal; lia.
Qed.

Lemma fmt_radix_digits fuel n s :
  (0 ≤ n)%Z → Forall (λ c, is_ascii_digit c = true) s →
  Forall (λ c, is_ascii_digit c = true) (fmt_radix 10 fuel n s).
Proof.
  revert n s. induction fuel as [|fuel IH]; intros n s Hn Hs; [done|].
  cbn [fmt_radix]. pose proof (Z.mod_pos_bound n 10 ltac:(lia)) as Hmod.
  assert (Forall (λ c, is_ascii_digit c = true) (digit (n mod 10) :: s)).
  { constructor; [by apply digit_is_digit|done]. }
  destruct (n <? 10)%Z; [done|]. apply IH; [by apply Z.div_pos|done].
Qed.

Lemma fmt_radix_snoc fuel n s : ∃ t, fmt_radix 10 fuel n s = t ++ s ∧ (fuel ≠ O → t ≠ []).
Proof.
  revert n s. induction fuel as [|fuel IH]; intros n s; [by exists []|].
  cbn [fmt_radix]. destruct (n <? 10)%Z.
  - by exists [digit (n mod 10)].
  - destruct (IH (n / 10)%Z (digit (n mod 10) :: s)) as (t & -> & _).
    exists (t ++ [digit (n mod 10)]). rewrite <- app_assoc. split; [done|].
    by destruct t.
Qed.

Lemma parse_u32_digits s :
  Forall (λ c, is_ascii_digit c = true) s → s ≠ [] → parse_u32 s = parse_digits 0 s.
Proof.
  intros Hs Hne. destruct s as [|c s]; [done|]. apply Forall_cons in Hs as [Hc _].
  by byte_cases c.
Qed.

Lemma fmt_dec_digits n : (0 ≤ n)%Z → Forall (λ c, is_ascii_digit c = true) (fmt_dec n).
Proof. intros. by apply fmt_radix_digits. Qed.

Lemma fmt_dec_nonempty n : fmt_dec n ≠ [].
Proof.
  unfold fmt_dec. destruct (fmt_radix_snoc 20 n []) as (t & -> & Ht).
  rewrite app_nil_r. by apply Ht.
Qed.

(** Decimal formatting and parsing of a [u32] round-trip. *)
Lemma parse_u32_fmt_dec n : in_u32 n → parse_u32 (fmt_dec n) = Some n.
Proof.
  intros Hn. unfold in_u32, u32_max in Hn.
  rewrite parse_u32_digits; [|apply fmt_dec_digits; lia|apply fmt_dec_nonempty].
  unfold fmt_dec. by rewrite parse_fmt_radix by (unfold u32_max; lia).
Qed.

Lemma byte_at_app (a : bytes) c d b : byte_at (a ++ c :: b) (length a) d = Ascii.eqb c d.
Proof. unfold byte_at. by rewrite list_lookup_middle. Qed.

#[export] Hint Resolve byte_Z_range byte_Z_inj fmt_dec_digits fmt_dec_nonempty : formualizer.
