(* ===== verification/Coords.v ===== *)
(** Packed grid coordinates and A1 text ([crates/formualizer-common/src/coord.rs]).

    [Coord] and [RelativeCoord] are the two 64-bit packed coordinates; the
    column-letter conversions and the A1 parser follow.  A constructor that
    [assert!]s its bounds is a [result] whose [Panic] is the failed assertion. *)
From S2P Require Import Prelude.

Local Open Scope Z_scope.

(** * Layout *)

Definition ROW_BITS : Z := 20.
Definition COL_BITS : Z := 14.
Definition ROW_MAX : Z := Z.shiftl 1 ROW_BITS - 1.
Definition COL_MAX : Z := Z.shiftl 1 COL_BITS - 1.
Definition ROW_MAX_1BASED : Z := ROW_MAX + 1.
Definition COL_MAX_1BASED : Z := COL_MAX + 1.

Definition ROW_SHIFT : Z := 24.
Definition COL_SHIFT : Z := 10.

Definition ROW_MASK : Z := Z.shiftl ROW_MAX ROW_SHIFT.
Definition COL_MASK : Z := Z.shiftl COL_MAX COL_SHIFT.
Definition RESERVED_HIGH_MASK : Z := 0xFFFFF00000000000.
Definition RESERVED_LOW_MASK : Z := 0x3FF.

Definition ROW_ABS_BIT : Z := 1.
Definition COL_ABS_BIT : Z := Z.shiftl 1 1.

(** [!x] on [u64]. *)
Definition not_u64 (x : Z) : Z := Z.land (Z.lnot x) u64_max.

Definition RELATIVE_RESERVED_LOW_MASK : Z :=
  Z.land RESERVED_LOW_MASK (not_u64 (Z.lor ROW_ABS_BIT COL_ABS_BIT)).

(** * Errors *)

Inductive CoordError : Type :=
| RowOverflow (row : Z)
| ColOverflow (col : Z)
| NegativeRow (row : Z)
| NegativeCol (col : Z)
| ReservedBitsSet (bits : Z).

Inductive A1ParseError : Type :=
| Empty
| MissingColumn
| MissingRow
| InvalidColumnChar (ch : char)
| InvalidRowChar (ch : char)
| TrailingCharacters (rest : bytes)
| ColumnOutOfRange (col : Z)
| RowOutOfRange (row : Z).

#[export] Instance CoordError_eq_dec : EqDecision CoordError.
Proof. solve_decision. Defined.
#[export] Instance A1ParseError_eq_dec : EqDecision A1ParseError.
Proof. solve_decision. Defined.

(** [impl From<CoordError> for A1ParseError]; [row as u32 + 1] in [u32]. *)
Definition A1ParseError_from (value : CoordError) : A1ParseError :=
  match value with
  | RowOverflow row => RowOutOfRange (as_u32 (as_u32 row + 1))
  | ColOverflow col => ColumnOutOfRange (as_u32 (as_u32 col + 1))
  | NegativeRow _ => RowOutOfRange 0
  | NegativeCol _ => ColumnOutOfRange 0
  | ReservedBitsSet bits => TrailingCharacters (str "reserved bits " ++ fmt_hex bits)
  end.

(** * Column letters *)

(** The loop pushes the letters from the last to the first and reverses the
    buffer; here the buffer grows at its front.  A [u32] has at most seven
    letters. *)
Fixpoint column_to_letters_loop (fuel : nat) (col : Z) (buf : bytes) : bytes :=
  match fuel with
  | O => buf
  | S fuel =>
      let rem := col mod 26 in
      let buf := byte_of_Z (65 + rem) :: buf in
      let col := col / 26 in
      if col =? 0 then buf else column_to_letters_loop fuel (col - 1) buf
  end.
Definition column_to_letters (col : Z) : bytes := column_to_letters_loop 8 col [].

Fixpoint letters_to_column_loop (col : Z) (s : bytes) : option Z :=
  match s with
  | [] => Some col
  | byte :: rest =>
      let upper := to_ascii_uppercase byte in
      if negb (is_ascii_uppercase upper) then None else
      let val := byte_Z upper - 65 in
      col ← (col *? 26)%u32;
      col ← (col +? val)%u32;
      col ← (if bool_decide (rest ≠ []) then (col +? 1)%u32 else Some col);
      letters_to_column_loop col rest
  end.
Definition letters_to_column_index (s : bytes) : option Z :=
  if bool_decide (s = []) then None else letters_to_column_loop 0 s.

Definition col_letters_from_1based (col : Z) : result A1ParseError bytes :=
  if (col =? 0) || (COL_MAX_1BASED <? col) then Err (ColumnOutOfRange col)
  else Ok (column_to_letters (col - 1)).

(** [ch.is_ascii_alphabetic()] for a [char]. *)
Definition char_is_ascii_alphabetic (ch : char) : bool :=
  match ch with [c] => is_ascii_alphabetic c | _ => false end.

Definition col_index_from_letters_1based (col : bytes) : result A1ParseError Z :=
  if bool_decide (col = []) then Err MissingColumn else
  match List.find (λ ch, negb (char_is_ascii_alphabetic ch)) (chars col) with
  | Some ch => Err (InvalidColumnChar ch)
  | None =>
      match letters_to_column_index col with
      | Some zero_based =>
          if zero_based <=? COL_MAX then Ok (zero_based + 1)
          else Err (ColumnOutOfRange (as_u32 (zero_based + 1)))
      | None => Err (ColumnOutOfRange (COL_MAX_1BASED + 1))
      end
  end.

(** * The A1 parser

    The index [idx] of the source is the rest of the input that is still to be
    read. *)
Definition parse_a1_components (input : bytes) : result A1ParseError (Z * Z * bool * bool) :=
  if bool_decide (input = []) then Err Empty else
  let col_abs := starts_with "$" input in
  let rest := if col_abs then drop 1 input else input in
  if col_abs && bool_decide (rest = []) then Err MissingColumn else
  let '(col_letters, rest) := span is_ascii_alphabetic rest in
  if bool_decide (col_letters = []) then Err MissingColumn else
  let row_abs := starts_with "$" rest in
  let rest := if row_abs then drop 1 rest else rest in
  if bool_decide (rest = []) then Err MissingRow else
  let '(row_str, tail) := span is_ascii_digit rest in
  if bool_decide (row_str = []) then
    let invalid := default [Ascii.zero] (head (chars rest)) in
    if bool_decide (invalid = [Ascii.zero]) then Err MissingRow else Err (InvalidRowChar invalid)
  else if bool_decide (tail ≠ []) then Err (TrailingCharacters tail)
  else
    col ← col_index_from_letters_1based col_letters;
    if negb (forallb is_ascii_digit row_str) then
      Err (InvalidRowChar (default [] (List.find (λ c, negb (forallb is_ascii_digit c)) (chars row_str))))
    else
    row ← ok_or (parse_u32 row_str) (RowOutOfRange (ROW_MAX_1BASED + 1));
    if (row =? 0) || (ROW_MAX_1BASED <? row) then Err (RowOutOfRange row)
    else Ok (row, col, row_abs, col_abs).

Definition parse_a1_1based (input : bytes) : result A1ParseError (Z * Z * bool * bool) :=
  parse_a1_components input.

(** * [Coord] *)

Module Coord.

Record t : Type := Mk { as_u64 : Z }.

#[global] Instance t_eq_dec : EqDecision t.
Proof. solve_decision. Defined.

Definition INVALID : t := Mk u64_max.
Definition RESERVED_MASK : Z := Z.lor RESERVED_HIGH_MASK RESERVED_LOW_MASK.

Definition new {E} (row col : Z) : result E t :=
  if negb (row <=? ROW_MAX) then Panic
  else if negb (col <=? COL_MAX) then Panic
  else Ok (Mk (Z.lor (Z.shiftl row ROW_SHIFT) (Z.shiftl col COL_SHIFT))).

Definition from_excel {E} (row col : Z) : result E t :=
  new (saturating_sub row 1) (saturating_sub col 1).

Definition try_new (row col : Z) : result CoordError t :=
  if ROW_MAX <? row then Err (RowOverflow row)
  else if COL_MAX <? col then Err (ColOverflow col)
  else new row col.

Definition from_raw (raw : Z) : result CoordError t :=
  if raw =? u64_max then Ok INVALID
  else if negb (Z.land raw RESERVED_MASK =? 0)
  then Err (ReservedBitsSet (Z.land raw RESERVED_MASK))
  else Ok (Mk raw).

Definition row (c : t) : Z := as_u32 (Z.shiftr (Z.land (as_u64 c) ROW_MASK) ROW_SHIFT).
Definition col (c : t) : Z := as_u32 (Z.shiftr (Z.land (as_u64 c) COL_MASK) COL_SHIFT).
Definition is_valid (c : t) : bool := negb (as_u64 c =? u64_max).
Definition normalize (c : t) : t := Mk (Z.land (as_u64 c) (not_u64 RESERVED_MASK)).

Definition try_from_a1 (input : bytes) : result A1ParseError t :=
  '(row, col, _, _) ← parse_a1_components input;
  row0 ← ok_or (row -? 1)%u32 (RowOutOfRange 0);
  col0 ← ok_or (col -? 1)%u32 (ColumnOutOfRange 0);
  map_err A1ParseError_from (try_new row0 col0).

(** [impl TryFrom<(i64, i64)> for Coord]: the casts [as u32] truncate. *)
Definition try_from_i64 (value : Z * Z) : result CoordError t :=
  let '(row, col) := value in
  if row <? 0 then Err (NegativeRow row)
  else if col <? 0 then Err (NegativeCol col)
  else try_new (as_u32 row) (as_u32 col).

End Coord.

(** * [RelativeCoord] *)

Module RelativeCoord.

Record t : Type := Mk { as_u64 : Z }.

#[global] Instance t_eq_dec : EqDecision t.
Proof. solve_decision. Defined.

Definition RESERVED_MASK : Z := Z.lor RESERVED_HIGH_MASK RELATIVE_RESERVED_LOW_MASK.

Definition new {E} (row col : Z) (row_abs col_abs : bool) : result E t :=
  if negb (row <=? ROW_MAX) then Panic
  else if negb (col <=? COL_MAX) then Panic
  else
    let raw := Z.lor (Z.shiftl row ROW_SHIFT) (Z.shiftl col COL_SHIFT) in
    let raw := if row_abs then Z.lor raw ROW_ABS_BIT else raw in
    let raw := if col_abs then Z.lor raw COL_ABS_BIT else raw in
    Ok (Mk raw).

Definition try_new (row col : Z) (row_abs col_abs : bool) : result CoordError t :=
  if ROW_MAX <? row then Err (RowOverflow row)
  else if COL_MAX <? col then Err (ColOverflow col)
  else new row col row_abs col_abs.

Definition from_raw (raw : Z) : result CoordError t :=
  if negb (Z.land raw RESERVED_MASK =? 0)
  then Err (ReservedBitsSet (Z.land raw RESERVED_MASK))
  else Ok (Mk raw).

Definition row (c : t) : Z := as_u32 (Z.shiftr (Z.land (as_u64 c) ROW_MASK) ROW_SHIFT).
Definition col (c : t) : Z := as_u32 (Z.shiftr (Z.land (as_u64 c) COL_MASK) COL_SHIFT).
Definition row_abs (c : t) : bool := negb (Z.land (as_u64 c) ROW_ABS_BIT =? 0).
Definition col_abs (c : t) : bool := negb (Z.land (as_u64 c) COL_ABS_BIT =? 0).

Definition with_row_abs (c : t) (abs : bool) : t :=
  if abs then Mk (Z.lor (as_u64 c) ROW_ABS_BIT)
  else Mk (Z.land (as_u64 c) (not_u64 ROW_ABS_BIT)).
Definition with_col_abs (c : t) (abs : bool) : t :=
  if abs then Mk (Z.lor (as_u64 c) COL_ABS_BIT)
  else Mk (Z.land (as_u64 c) (not_u64 COL_ABS_BIT)).

(** [i32] sums wrap, as in a release build; a wrapped sum is out of the grid
    and [new] panics on it, as the overflow check of a debug build does. *)
Definition shift_i32 (x d : Z) : Z := as_u32 (as_i32 (as_i32 x + d)).

Definition offset {E} (c : t) (drow dcol : Z) : result E t :=
  new (shift_i32 (row c) drow) (shift_i32 (col c) dcol) (row_abs c) (col_abs c).

Definition rebase {E} (c origin target : t) : result E t :=
  let drow := as_i32 (as_i32 (row target) - as_i32 (row origin)) in
  let dcol := as_i32 (as_i32 (col target) - as_i32 (col origin)) in
  let new_row := if row_abs c then row c else shift_i32 (row c) drow in
  let new_col := if col_abs c then col c else shift_i32 (col c) dcol in
  new new_row new_col (row_abs c) (col_abs c).

Definition into_absolute {E} (c : t) : result E Coord.t := Coord.new (row c) (col c).

Definition try_from_a1 (input : bytes) : result A1ParseError t :=
  '(row, col, row_abs, col_abs) ← parse_a1_components input;
  row0 ← ok_or (row -? 1)%u32 (RowOutOfRange 0);
  col0 ← ok_or (col -? 1)%u32 (ColumnOutOfRange 0);
  map_err A1ParseError_from (try_new row0 col0 row_abs col_abs).

(** [impl Display for RelativeCoord]. *)
Definition fmt (c : t) : bytes :=
  (if col_abs c then str "$" else []) ++ column_to_letters (col c) ++
  (if row_abs c then str "$" else []) ++ fmt_dec (row c + 1).

End RelativeCoord.

Definition into_relative {E} (c : Coord.t) : result E RelativeCoord.t :=
  RelativeCoord.new (Coord.row c) (Coord.col c) true true.

Example fmt_b12 : RelativeCoord.fmt <$> (RelativeCoord.try_from_a1 (str "$aB$12")) = Ok (str "$AB$12").
Proof. reflexivity. Qed.
Example a1_bad : RelativeCoord.try_from_a1 (str "XFE1") = Err (ColumnOutOfRange 16385).
Proof. reflexivity. Qed.

(** * Facts *)

(** The fields of a packed pair, with the low ten bits [f]. *)
Definition packed (r c f : Z) : Z := r * 2 ^ 24 + c * 2 ^ 10 + f.

Definition in_grid (r c : Z) : Prop := 0 ≤ r ≤ ROW_MAX ∧ 0 ≤ c ≤ COL_MAX.

Ltac grid_simpl :=
  unfold in_grid, ROW_MAX_1BASED, COL_MAX_1BASED in *;
  change ROW_MAX with 1048575 in *; change COL_MAX with 16383 in *.

Lemma pack_row_col r c : in_grid r c →
  Z.lor (Z.shiftl r ROW_SHIFT) (Z.shiftl c COL_SHIFT) = packed r c 0.
Proof.
  intros H. grid_simpl. unfold ROW_SHIFT, COL_SHIFT, packed.
  rewrite (Z.shiftl_mul_pow2 c) by lia. rewrite lor_shiftl_add by lia. lia.
Qed.

Lemma pack_flag r c f b : in_grid r c → 0 ≤ f < 2 ^ b → 0 ≤ b < 10 →
  Z.lor (packed r c f) (2 ^ b) = packed r c (f + 2 ^ b).
Proof.
  intros H Hf Hb. unfold packed.
  replace (r * 2 ^ 24 + c * 2 ^ 10 + f) with ((r * 2 ^ 14 + c) * 2 ^ 10 + f) by lia.
  assert (2 ^ b * 2 ≤ 2 ^ 10).
  { change (2 ^ b * 2) with (2 ^ b * 2 ^ 1). rewrite <- Z.pow_add_r by lia.
    apply Z.pow_le_mono_r; lia. }
  rewrite <- (lor_shiftl_add f _ 10), <- Z.lor_assoc by lia.
  replace (2 ^ b) with (1 * 2 ^ b) by lia. rewrite <- (Z.shiftl_mul_pow2 1 b) by lia.
  rewrite (Z.lor_comm f), (lor_shiftl_add f 1 b) by lia.
  rewrite lor_shiftl_add, Z.shiftl_mul_pow2 by lia. lia.
Qed.

Lemma packed_row r c f : in_grid r c → 0 ≤ f < 2 ^ 10 →
  as_u32 (Z.shiftr (Z.land (packed r c f) ROW_MASK) ROW_SHIFT) = r.
Proof.
  intros H Hf. grid_simpl. change ROW_MASK with (Z.shiftl (Z.ones 20) 24).
  change ROW_SHIFT with 24. rewrite land_field_shiftr by lia. unfold packed.
  replace ((_ / _) mod _) with r.
  - apply as_u32_small. unfold in_u32, u32_max. lia.
  - Z.div_mod_to_equations. lia.
Qed.

Lemma packed_col r c f : in_grid r c → 0 ≤ f < 2 ^ 10 →
  as_u32 (Z.shiftr (Z.land (packed r c f) COL_MASK) COL_SHIFT) = c.
Proof.
  intros H Hf. grid_simpl. change COL_MASK with (Z.shiftl (Z.ones 14) 10).
  change COL_SHIFT with 10. rewrite land_field_shiftr by lia. unfold packed.
  replace ((_ / _) mod _) with c.
  - apply as_u32_small. unfold in_u32, u32_max. lia.
  - Z.div_mod_to_equations. lia.
Qed.

(** [f] is the value of the two anchor bits. *)
Definition flags (row_abs col_abs : bool) : Z := Z.b2z row_abs + 2 * Z.b2z col_abs.

Lemma packed_row_abs r c ra ca : in_grid r c →
  negb (Z.land (packed r c (flags ra ca)) ROW_ABS_BIT =? 0) = ra.
Proof.
  intros H. grid_simpl. change ROW_ABS_BIT with (Z.ones 1).
  rewrite Z.land_ones by lia. unfold packed.
  replace ((_ + flags ra ca) mod _) with (Z.b2z ra); [by destruct ra|].
  unfold flags. destruct ra, ca; simpl; Z.div_mod_to_equations; lia.
Qed.

Lemma packed_col_abs r c ra ca : in_grid r c →
  negb (Z.land (packed r c (flags ra ca)) COL_ABS_BIT =? 0) = ca.
Proof.
  intros H. grid_simpl. change COL_ABS_BIT with (Z.shiftl (Z.ones 1) 1).
  rewrite land_field by lia. unfold packed.
  replace ((_ / _) mod _) with (Z.b2z ca); [by destruct ca|].
  unfold flags. destruct ra, ca; simpl; Z.div_mod_to_equations; lia.
Qed.

Lemma coord_new_ok {E} r c : in_grid r c → @Coord.new E r c = Ok (Coord.Mk (packed r c 0)).
Proof.
  intros H. unfold Coord.new. rewrite <- pack_row_col by done. grid_simpl.
  by rewrite !(proj2 (Z.leb_le _ _)) by lia.
Qed.

Lemma relative_new_ok {E} r c ra ca : in_grid r c →
  @RelativeCoord.new E r c ra ca = Ok (RelativeCoord.Mk (packed r c (flags ra ca))).
Proof.
  intros H. unfold RelativeCoord.new. rewrite pack_row_col by done.
  pose proof H as [Hr Hc].
  rewrite !(proj2 (Z.leb_le _ _)) by (grid_simpl; lia). simpl. do 2 f_equal.
  change ROW_ABS_BIT with (2 ^ 0). change COL_ABS_BIT with (2 ^ 1).
  destruct ra, ca; rewrite ?pack_flag by (done || lia); done.
Qed.

Lemma relative_new_panic {E} r c ra ca : 0 ≤ r → 0 ≤ c →
  ¬ in_grid r c → @RelativeCoord.new E r c ra ca = Panic.
Proof.
  intros Hr Hc H. unfold RelativeCoord.new, in_grid in *.
  destruct (Z.leb_spec r ROW_MAX), (Z.leb_spec c COL_MAX); simpl; try done. lia.
Qed.

(** A valid packed relative coordinate: the image of [new]. *)
Definition relative_valid (x : RelativeCoord.t) : Prop :=
  ∃ r c ra ca, in_grid r c ∧ x = RelativeCoord.Mk (packed r c (flags ra ca)).

Lemma flags_range ra ca : 0 ≤ flags ra ca < 2 ^ 10.
Proof. by destruct ra, ca. Qed.

Lemma relative_fields r c ra ca : in_grid r c →
  let x := RelativeCoord.Mk (packed r c (flags ra ca)) in
  RelativeCoord.row x = r ∧ RelativeCoord.col x = c ∧
  RelativeCoord.row_abs x = ra ∧ RelativeCoord.col_abs x = ca.
Proof.
  intros H. pose proof (flags_range ra ca).
  unfold RelativeCoord.row, RelativeCoord.col, RelativeCoord.row_abs, RelativeCoord.col_abs.
  cbn [RelativeCoord.as_u64].
  by rewrite packed_row, packed_col, packed_row_abs, packed_col_abs.
Qed.

Lemma relative_reserved_zero x : in_u64 x →
  Z.land x RelativeCoord.RESERVED_MASK = 0 ↔ x / 2 ^ 44 = 0 ∧ (x / 2 ^ 2) mod 2 ^ 8 = 0.
Proof.
  intros Hx. unfold in_u64, u64_max in Hx.
  change RelativeCoord.RESERVED_MASK with
    (Z.lor (Z.shiftl (Z.ones 20) 44) (Z.shiftl (Z.ones 8) 2)).
  rewrite Z.land_lor_distr_r, Z.lor_eq_0_iff, !land_field by lia.
  rewrite !Z.shiftl_mul_pow2, (Z.mod_small (x / 2 ^ 44)) by (Z.div_mod_to_equations; lia).
  lia.
Qed.

Lemma packed_in_u64 r c ra ca : in_grid r c → in_u64 (packed r c (flags ra ca)).
Proof.
  intros H. unfold in_u64, u64_max, packed. pose proof (flags_range ra ca).
  grid_simpl. lia.
Qed.

Lemma relative_from_raw_packed r c ra ca : in_grid r c →
  RelativeCoord.from_raw (packed r c (flags ra ca))
  = Ok (RelativeCoord.Mk (packed r c (flags ra ca))).
Proof.
  intros H. unfold RelativeCoord.from_raw.
  rewrite (proj2 (relative_reserved_zero _ (packed_in_u64 r c ra ca H))); [done|].
  grid_simpl. unfold packed, flags.
  destruct ra, ca; simpl; Z.div_mod_to_equations; lia.
Qed.

Lemma unpack_u64 x : in_u64 x → x / 2 ^ 44 = 0 → (x / 2 ^ 2) mod 2 ^ 8 = 0 →
  ∃ r c ra ca, in_grid r c ∧ x = packed r c (flags ra ca).
Proof.
  intros Hx H1 H2. unfold in_u64, u64_max in Hx.
  exists (x / 2 ^ 24), ((x / 2 ^ 10) mod 2 ^ 14), (x mod 2 =? 1), ((x / 2) mod 2 =? 1).
  grid_simpl. unfold packed, flags.
  destruct (Z.eqb_spec (x mod 2) 1), (Z.eqb_spec ((x / 2) mod 2) 1); simpl;
    Z.div_mod_to_equations; lia.
Qed.

(** [RelativeCoord::from_raw] accepts exactly the words that [new] packs from a row
    and a column of the grid and two anchors, and the accessors give these back. *)
Lemma relative_from_raw_exact raw x : in_u64 raw →
  RelativeCoord.from_raw raw = Ok x ↔
  RelativeCoord.as_u64 x = raw ∧
  ∃ r c ra ca, RelativeCoord.new (E := Empty_set) r c ra ca = Ok x ∧ in_grid r c ∧
    RelativeCoord.row x = r ∧ RelativeCoord.col x = c ∧
    RelativeCoord.row_abs x = ra ∧ RelativeCoord.col_abs x = ca.
Proof.
  intros Hraw. split.
  - unfold RelativeCoord.from_raw. intros Hx.
    destruct (Z.eqb_spec (Z.land raw RelativeCoord.RESERVED_MASK) 0) as [E|]; [|done].
    injection Hx as <-. split; [done|].
    apply relative_reserved_zero in E as [E1 E2]; [|done].
    destruct (unpack_u64 raw Hraw E1 E2) as (r & c & ra & ca & Hg & ->).
    exists r, c, ra, ca. rewrite relative_new_ok by done.
    by destruct (relative_fields r c ra ca Hg) as (?&?&?&?).
  - intros [<- (r & c & ra & ca & Hnew & Hg & _)].
    rewrite relative_new_ok in Hnew by done. injection Hnew as <-.
    by apply relative_from_raw_packed.
Qed.

(** ** Column letters *)

Lemma letter_upper d : 0 ≤ d < 26 →
  let c := byte_of_Z (65 + d) in
  is_ascii_uppercase c = true ∧ to_ascii_uppercase c = c ∧ byte_Z c - 65 = d.
Proof.
  intros Hd c. subst c.
  assert (E : byte_Z (byte_of_Z (65 + d)) = 65 + d) by (apply byte_Z_byte_of_Z; lia).
  assert (L : is_ascii_lowercase (byte_of_Z (65 + d)) = false).
  { apply not_true_iff_false. rewrite is_ascii_lowercase_spec, E. lia. }
  split; [rewrite is_ascii_uppercase_spec, E; lia|].
  unfold to_ascii_uppercase. rewrite L, E. split; [done|lia].
Qed.

Lemma letters_loop_cons a d rest : 0 ≤ d < 26 → 0 ≤ a →
  a * 26 + d + 1 ≤ u32_max →
  letters_to_column_loop a (byte_of_Z (65 + d) :: rest) =
  letters_to_column_loop (if bool_decide (rest ≠ []) then a * 26 + d + 1 else a * 26 + d) rest.
Proof.
  intros Hd Ha Hm. destruct (letter_upper d Hd) as (E1 & E2 & E3).
  cbn [letters_to_column_loop]. rewrite E2, E1, E3. cbn [negb].
  rewrite checked_mul_small by lia. cbn. rewrite checked_add_small by lia. cbn.
  case_bool_decide; [rewrite checked_add_small by lia|]; done.
Qed.

Lemma letters_of_column_loop fuel c s :
  0 ≤ c < 26 ^ Z.of_nat fuel → c + 1 ≤ u32_max → (0 < fuel)%nat →
  letters_to_column_loop 0 (column_to_letters_loop fuel c s) =
  letters_to_column_loop (if bool_decide (s ≠ []) then c + 1 else c) s.
Proof.
  revert c s. induction fuel as [|fuel IH]; intros c s Hc Hm Hf; [lia|].
  cbn [column_to_letters_loop].
  pose proof (Z.mod_pos_bound c 26 ltac:(lia)). pose proof (Z.div_mod c 26 ltac:(lia)).
  destruct (Z.eqb_spec (c / 26) 0) as [E|E].
  - rewrite letters_loop_cons by lia. f_equal. case_bool_decide; lia.
  - rewrite Nat2Z.inj_succ, Z.pow_succ_r in Hc by lia.
    assert (0 < c / 26) by (pose proof (Z.div_pos c 26); lia).
    destruct fuel as [|fuel]; [simpl in Hc; lia|].
    rewrite IH; [|split; [lia|]|lia|lia].
    2:{ assert (c / 26 < 26 ^ Z.of_nat (S fuel)) by (apply Z.div_lt_upper_bound; lia). lia. }
    rewrite bool_decide_eq_true_2 by done.
    rewrite letters_loop_cons by lia. f_equal. case_bool_decide; lia.
Qed.

Lemma column_to_letters_nonempty fuel c s :
  s ≠ [] ∨ fuel ≠ O → column_to_letters_loop fuel c s ≠ [].
Proof.
  revert c s. induction fuel as [|fuel IH]; intros c s H; [naive_solver|].
  cbn [column_to_letters_loop]. destruct (c / 26 =? 0); [done|]. apply IH. by left.
Qed.

Lemma letters_column c : 0 ≤ c < u32_max →
  letters_to_column_index (column_to_letters c) = Some c.
Proof.
  intros Hc. unfold letters_to_column_index, column_to_letters.
  rewrite bool_decide_eq_false_2 by (apply column_to_letters_nonempty; by right).
  rewrite letters_of_column_loop; [done|unfold u32_max in *; lia..].
Qed.

Lemma column_letters_upper fuel c s : 0 ≤ c →
  Forall (λ x, is_ascii_uppercase x = true) s →
  Forall (λ x, is_ascii_uppercase x = true) (column_to_letters_loop fuel c s).
Proof.
  revert c s. induction fuel as [|fuel IH]; intros c s Hc Hs; [done|].
  cbn [column_to_letters_loop].
  pose proof (Z.mod_pos_bound c 26 ltac:(lia)).
  assert (Forall (λ x, is_ascii_uppercase x = true) (byte_of_Z (65 + c mod 26) :: s)).
  { constructor; [by apply letter_upper|done]. }
  destruct (Z.eqb_spec (c / 26) 0); [done|].
  apply IH; [|done]. pose proof (Z.div_pos c 26). lia.
Qed.

Lemma letters_loop_snoc a s t : s ≠ [] → t ≠ [] →
  letters_to_column_loop a (s ++ t) =
  (v ← letters_to_column_loop a s; v ← checked_add v 1; letters_to_column_loop v t).
Proof.
  intros Hs Ht. revert a. induction s as [|x s IH]; [done|]. intros a.
  cbn [app letters_to_column_loop].
  destruct (negb (is_ascii_uppercase (to_ascii_uppercase x))); [done|].
  destruct (checked_mul a 26) as [m|]; [|done]. cbn.
  destruct (checked_add m _) as [v|]; [|done]. cbn.
  rewrite bool_decide_eq_true_2 by (by destruct s, t).
  destruct s as [|y s].
  - rewrite bool_decide_eq_false_2 by naive_solver. done.
  - rewrite bool_decide_eq_true_2 by done.
    destruct (checked_add v 1); [|done]. cbn. apply IH. done.
Qed.

Lemma upper_letter c : is_ascii_uppercase (to_ascii_uppercase c) = true →
  ∃ d, 0 ≤ d < 26 ∧ to_ascii_uppercase c = byte_of_Z (65 + d) ∧
    byte_Z (to_ascii_uppercase c) - 65 = d.
Proof.
  intros H. exists (byte_Z (to_ascii_uppercase c) - 65).
  apply is_ascii_uppercase_spec in H. split; [lia|]. split; [|done].
  replace (65 + _) with (byte_Z (to_ascii_uppercase c)) by lia.
  by rewrite byte_of_Z_byte_Z.
Qed.

(** The letters of a parsed column are its spelling, in upper case. *)
Lemma column_of_letters_loop s v t :
  s ≠ [] → letters_to_column_loop 0 s = Some v →
  0 ≤ v ∧ ∃ k, ∀ fuel,
    column_to_letters_loop (k + fuel) v t = (to_ascii_uppercase <$> s) ++ t ∧
    (k ≤ length s)%nat.
Proof.
  revert v t. induction s as [|x s IH] using rev_ind; intros v t Hne Hs; [done|].
  destruct (decide (s = [])) as [->|Hs0].
  - cbn in Hs. destruct (negb _) eqn:Hu; [done|].
    apply negb_false_iff, upper_letter in Hu as (d & Hd & E1 & E2).
    rewrite E2 in Hs. apply bind_Some in Hs as (m & Hm & Hs). apply checked_mul_spec in Hm as [-> _].
    apply bind_Some in Hs as (w & Hw & Hs). cbn in Hs. injection Hs as ->.
    apply checked_add_spec in Hw as [-> _]. split; [lia|]. exists 1%nat.
    intros fuel. simpl. rewrite Z.mod_small, Z.div_small, E1 by lia. split; [done|lia].
  - rewrite letters_loop_snoc in Hs by done.
    apply bind_Some in Hs as (w & Hw & Hs). apply bind_Some in Hs as (w1 & Hw1 & Hs).
    apply checked_add_spec in Hw1 as [-> _].
    cbn in Hs. destruct (negb _) eqn:Hu; [done|].
    apply negb_false_iff, upper_letter in Hu as (d & Hd & E1 & E2). rewrite E2 in Hs.
    apply bind_Some in Hs as (m & Hm & Hs). apply checked_mul_spec in Hm as [-> _].
    apply bind_Some in Hs as (m & Hm & Hs). apply checked_add_spec in Hm as [-> _].
    injection Hs as <-.
    destruct (IH w (byte_of_Z (65 + d) :: t) Hs0 Hw) as (Hw0 & k & Hk).
    split; [lia|]. exists (S k). intros fuel. cbn [Nat.add column_to_letters_loop].
    replace (((w + 1) * 26 + d) mod 26) with d by (Z.div_mod_to_equations; lia).
    replace (((w + 1) * 26 + d) / 26) with (w + 1) by (Z.div_mod_to_equations; lia).
    destruct (Z.eqb_spec (w + 1) 0); [lia|]. replace (w + 1 - 1) with w by lia.
    destruct (Hk fuel) as [-> Hlen]. rewrite fmap_app, <- app_assoc, length_app. simpl.
    rewrite E1. split; [done|lia].
Qed.

(** More fuel than the digits of the column changes nothing. *)
Lemma column_to_letters_fuel f g v t : 0 ≤ v < 26 ^ Z.of_nat (S f) →
  column_to_letters_loop (S f + g) v t = column_to_letters_loop (S f) v t.
Proof.
  revert v t. induction f as [|f IH]; intros v t Hv; cbn [Nat.add column_to_letters_loop].
  - rewrite Z.div_small by (change (26 ^ Z.of_nat 1) with 26 in Hv; lia). done.
  - destruct (Z.eqb_spec (v / 26) 0) as [|Hne]; [done|]. apply IH.
    rewrite Nat2Z.inj_succ, Z.pow_succ_r in Hv by lia. Z.div_mod_to_equations. lia.
Qed.

Lemma letters_loop_bound c s v : s ≠ [] → letters_to_column_loop c s = Some v → v ≤ u32_max.
Proof.
  revert c. induction s as [|x s IH]; intros c Hne; [done|]. cbn [letters_to_column_loop].
  destruct (negb _); [done|]. intros (m & _ & (w & Hw & (z & Hz & Hs)%bind_Some)%bind_Some)%bind_Some.
  apply checked_add_spec in Hw as [_ Hw]. case_bool_decide as E; [by apply (IH z)|].
  subst s. injection Hz as <-. injection Hs as <-. done.
Qed.

Lemma letters_loop_upper c s :
  letters_to_column_loop c (to_ascii_uppercase <$> s) = letters_to_column_loop c s.
Proof.
  assert (Hup : ∀ b, to_ascii_uppercase (to_ascii_uppercase b) = to_ascii_uppercase b) by (intros b; by byte_cases b).
  revert c. induction s as [|x s IH]; intros c; [done|]. csimpl. cbn [letters_to_column_loop]. rewrite Hup.
  rewrite (bool_decide_ext (to_ascii_uppercase <$> s ≠ []) (s ≠ [])) by (by destruct s).
  destruct (negb _); [done|]. destruct (checked_mul c 26); [|done]. cbn.
  destruct (checked_add _ _); [|done]. cbn. destruct (if bool_decide _ then _ else _); [|done]. cbn. apply IH.
Qed.

(** [letters_to_column_index] and [column_to_letters] are inverse: a text denotes a
    column exactly when it is the letters of the column, in any case. *)
Lemma column_letters_exact c s : 0 ≤ c < u32_max →
  letters_to_column_index s = Some c ↔ to_ascii_uppercase <$> s = column_to_letters c.
Proof.
  intros Hc. split.
  - unfold letters_to_column_index. case_bool_decide as Hs; [done|]. intros Hl.
    destruct (column_of_letters_loop s c [] Hs Hl) as [_ (k & Hk)]. destruct (Hk 8%nat) as [E _].
    rewrite app_nil_r in E. rewrite <- E. unfold column_to_letters.
    rewrite Nat.add_comm. apply column_to_letters_fuel. unfold u32_max in Hc. change (26 ^ Z.of_nat 8) with 208827064576. lia.
  - intros E. rewrite <- (letters_column c) by done. rewrite <- E.
    unfold letters_to_column_index. rewrite letters_loop_upper.
    by rewrite (bool_decide_ext (to_ascii_uppercase <$> s = []) (s = [])) by (by destruct s).
Qed.

Lemma column_letters_exact_witness : letters_to_column_index (str "xFd") = Some 16383.
Proof. apply (column_letters_exact 16383 (str "xFd")); [unfold u32_max; lia|reflexivity]. Defined.

(** ** A1 text *)

Lemma alphabetic_len c : is_ascii_alphabetic c = true → utf8_len c = 1%nat.
Proof.
  unfold is_ascii_alphabetic. rewrite orb_true_iff, is_ascii_uppercase_spec, is_ascii_lowercase_spec.
  intros H. unfold utf8_len. by rewrite (proj2 (Z.ltb_lt _ _)) by lia.
Qed.

Lemma chars_alphabetic s : Forall (λ c, is_ascii_alphabetic c = true) s →
  List.find (λ ch, negb (char_is_ascii_alphabetic ch)) (chars s) = None.
Proof.
  intros H. unfold chars. induction H as [|c s Hc _ IH]; [done|].
  cbn [length chars_go]. rewrite alphabetic_len by done. cbn [take drop List.find].
  cbn [char_is_ascii_alphabetic]. by rewrite Hc.
Qed.

Lemma letters_index_nonneg s v : letters_to_column_index s = Some v → 0 ≤ v.
Proof.
  unfold letters_to_column_index. case_bool_decide; [done|]. intros Hv.
  by destruct (column_of_letters_loop s v []).
Qed.

Lemma col_index_ok s col : Forall (λ c, is_ascii_alphabetic c = true) s → s ≠ [] →
  col_index_from_letters_1based s = Ok col ↔
  letters_to_column_index s = Some (col - 1) ∧ 1 ≤ col ≤ COL_MAX_1BASED.
Proof.
  intros Hs Hne. unfold col_index_from_letters_1based.
  rewrite bool_decide_eq_false_2, chars_alphabetic by done.
  destruct (letters_to_column_index s) as [v|] eqn:Hv; [|naive_solver].
  apply letters_index_nonneg in Hv. unfold COL_MAX_1BASED.
  destruct (Z.leb_spec v COL_MAX); split.
  - intros [= <-]. split; [f_equal|]; lia.
  - intros [[= ->] _]. f_equal. lia.
  - done.
  - intros [[= ->] ?]. lia.
Qed.

Definition anchor (b : bool) : bytes := if b then str "$" else [].

Lemma anchor_split b (s : bytes) : starts_with "$" s = b →
  s = anchor b ++ (if b then drop 1 s else s).
Proof.
  destruct b; [|done]. destruct s as [|c s]; [done|].
  simpl. intros ->%Ascii.eqb_eq. done.
Qed.

Lemma anchor_starts b (s : bytes) : starts_with "$" s = false →
  starts_with "$" (anchor b ++ s) = b ∧
  (if b then drop 1 (anchor b ++ s) else anchor b ++ s) = s.
Proof. by destruct b. Qed.

Lemma head_not_dollar p (s : bytes) : s ≠ [] → Forall (λ c, p c = true) s →
  p "$"%char = false → starts_with "$" s = false.
Proof.
  intros Hne Hs Hp. destruct Hs as [|c s Hc]; [done|]. simpl.
  apply Ascii.eqb_neq. congruence.
Qed.

(** The text of an A1 reference: letters [L], digits [N], two anchors. *)
Definition a1_text (ca : bool) (L : bytes) (ra : bool) (N : bytes) : bytes :=
  anchor ca ++ L ++ anchor ra ++ N.

Definition a1_shape (L N : bytes) : Prop :=
  L ≠ [] ∧ Forall (λ c, is_ascii_alphabetic c = true) L ∧
  N ≠ [] ∧ Forall (λ c, is_ascii_digit c = true) N.

Definition a1_value (L N : bytes) : result A1ParseError (Z * Z) :=
  col ← col_index_from_letters_1based L;
  row ← ok_or (parse_u32 N) (RowOutOfRange (ROW_MAX_1BASED + 1));
  if (row =? 0) || (ROW_MAX_1BASED <? row) then Err (RowOutOfRange row) else Ok (row, col).

Lemma digit_not_alphabetic c : is_ascii_digit c = true → is_ascii_alphabetic c = false.
Proof.
  rewrite is_ascii_digit_spec. intros H. apply not_true_iff_false.
  unfold is_ascii_alphabetic.
  rewrite orb_true_iff, is_ascii_uppercase_spec, is_ascii_lowercase_spec. lia.
Qed.

Lemma parse_a1_text ca L ra N : a1_shape L N →
  parse_a1_components (a1_text ca L ra N) =
  ('(row, col) ← a1_value L N; Ok (row, col, ra, ca)).
Proof.
  intros (HL0 & HL & HN0 & HN). unfold parse_a1_components, a1_text, a1_value.
  assert (EL : starts_with "$" (L ++ anchor ra ++ N) = false).
  { destruct HL as [|c L' Hc]; [done|]. simpl. apply Ascii.eqb_neq. by intros ->. }
  destruct (anchor_starts ca _ EL) as [-> ->].
  rewrite bool_decide_eq_false_2 by (by destruct ca, L).
  rewrite (bool_decide_eq_false_2 (L ++ _ = [])) by (by destruct L).
  rewrite andb_false_r.
  assert (EN : starts_with "$" N = false) by (by apply (head_not_dollar is_ascii_digit)).
  rewrite (span_exact _ L) by
    (done || (destruct ra; [done|]; destruct HN; [done|]; by apply digit_not_alphabetic)).
  rewrite (bool_decide_eq_false_2 (L = [])) by done.
  destruct (anchor_starts ra _ EN) as [-> ->].
  rewrite (bool_decide_eq_false_2 (N = [])) by done.
  rewrite <- (app_nil_r N) at 1. rewrite span_exact by done.
  rewrite (bool_decide_eq_false_2 (N = [])), (bool_decide_eq_false_2 ([] ≠ [])) by congruence.
  rewrite (proj2 (forallb_forall _ N)) by (apply List.Forall_forall; done).
  destruct (col_index_from_letters_1based L); [|done..]. cbn.
  destruct (parse_u32 N); [|done]. cbn. by destruct (_ || _).
Qed.

Lemma span_reassemble (p : byte → bool) (s a b : bytes) : span p s = (a, b) →
  s = a ++ b ∧ Forall (λ c, p c = true) a.
Proof. intros H. split; [by eapply span_app|by eapply span_prefix]. Qed.

Lemma parse_a1_shape s q : parse_a1_components s = Ok q →
  ∃ ca L ra N, s = a1_text ca L ra N ∧ a1_shape L N.
Proof.
  unfold parse_a1_components, a1_text, a1_shape.
  case_bool_decide; [done|]. destruct (starts_with "$" s) eqn:Es.
  all: pose proof (anchor_split _ _ Es) as Hs; cbn beta iota in *.
  all: destruct (_ && _); [done|]; destruct (span is_ascii_alphabetic _) as [L r1] eqn:E1.
  all: apply span_reassemble in E1 as [E1 HL].
  all: case_bool_decide; [done|]; destruct (starts_with "$" r1) eqn:Er.
  all: pose proof (anchor_split _ _ Er) as Hr; cbn beta iota in *.
  all: case_bool_decide; [done|]; destruct (span is_ascii_digit _) as [N tail] eqn:E2.
  all: apply span_reassemble in E2 as [E2 HN].
  all: case_bool_decide; [by case_bool_decide|].
  all: case_bool_decide as Ht; [done|].
  all: subst tail; rewrite app_nil_r in E2; intros _.
  all: match type of Es with _ = ?ca => exists ca end; exists L.
  all: match type of Er with _ = ?ra => exists ra end; exists N; split; [|done].
  all: rewrite Hs; f_equal; rewrite E1; f_equal; rewrite Hr; f_equal; done.
Qed.

Lemma parse_digits_nonneg a s n : 0 ≤ a → parse_digits a s = Some n → 0 ≤ n.
Proof.
  revert a. induction s as [|c s IH]; intros a Ha; simpl; [by intros [= <-]|].
  destruct (is_ascii_digit c) eqn:Hc; [|done]. apply is_ascii_digit_spec in Hc.
  intros (m & Hm & (k & Hk & H)%bind_Some)%bind_Some.
  apply checked_mul_spec in Hm as [-> _]. apply checked_add_spec in Hk as [-> _].
  eapply IH, H. lia.
Qed.

Lemma a1_value_ok L N row col : a1_shape L N →
  a1_value L N = Ok (row, col) ↔
  letters_to_column_index L = Some (col - 1) ∧ 1 ≤ col ≤ COL_MAX_1BASED ∧
  parse_u32 N = Some row ∧ 1 ≤ row ≤ ROW_MAX_1BASED.
Proof.
  intros (HL0 & HL & HN0 & HN). unfold a1_value.
  rewrite result_bind_ok. setoid_rewrite (col_index_ok L) at 1; [|done..].
  rewrite parse_u32_digits by done.
  assert (Hpos : ∀ n, parse_digits 0 N = Some n → 0 ≤ n)
    by (intros; by eapply parse_digits_nonneg).
  split.
  - intros (c & [Hc Hcb] & Hrow). apply result_bind_ok in Hrow as (r & Hr & Hrow).
    destruct (parse_digits 0 N) as [n|]; [|done]. injection Hr as ->.
    destruct (Z.eqb_spec r 0), (Z.ltb_spec ROW_MAX_1BASED r); try done.
    injection Hrow as -> ->. specialize (Hpos _ eq_refl). repeat split; (done || lia).
  - intros (Hc & Hcb & Hr & Hrb). exists col. split; [done|].
    rewrite Hr. cbn. destruct (Z.eqb_spec row 0); [lia|].
    by destruct (Z.ltb_spec ROW_MAX_1BASED row); [lia|].
Qed.

Lemma parse_a1_iff s row col ra ca :
  parse_a1_components s = Ok (row, col, ra, ca) ↔
  ∃ L N, s = a1_text ca L ra N ∧ a1_shape L N ∧
    letters_to_column_index L = Some (col - 1) ∧ 1 ≤ col ≤ COL_MAX_1BASED ∧
    parse_u32 N = Some row ∧ 1 ≤ row ≤ ROW_MAX_1BASED.
Proof.
  split.
  - intros H. destruct (parse_a1_shape _ _ H) as (ca' & L & ra' & N & -> & HS).
    rewrite parse_a1_text in H by done. apply result_bind_ok in H as ([r c] & Hv & H).
    injection H as -> -> -> ->. exists L, N. by apply a1_value_ok in Hv.
  - intros (L & N & -> & HS & Hv). rewrite parse_a1_text by done.
    apply a1_value_ok in Hv; [|done]. by rewrite Hv.
Qed.

(** C35: [parse_a1_components] accepts exactly optional [$], letters, optional [$], digits,
    with a column and a row inside the grid, and yields these and the anchors. *)
Theorem a1_grammar s row col ra ca :
  parse_a1_components s = Ok (row, col, ra, ca) ↔
  ∃ L N, s = a1_text ca L ra N ∧ a1_shape L N ∧
    letters_to_column_index L = Some (col - 1) ∧ 1 ≤ col ≤ COL_MAX_1BASED ∧
    parse_u32 N = Some row ∧ 1 ≤ row ≤ ROW_MAX_1BASED.
Proof. apply parse_a1_iff. Qed.

Lemma relative_try_new_ok r c ra ca : in_grid r c →
  RelativeCoord.try_new r c ra ca = Ok (RelativeCoord.Mk (packed r c (flags ra ca))).
Proof.
  intros H. unfold RelativeCoord.try_new. rewrite relative_new_ok by done.
  grid_simpl. by destruct (Z.ltb_spec 1048575 r), (Z.ltb_spec 16383 c); try lia.
Qed.

Lemma uppercase_alphabetic s : Forall (λ c, is_ascii_uppercase c = true) s →
  Forall (λ c, is_ascii_alphabetic c = true) s.
Proof.
  intros H. eapply Forall_impl; [exact H|].
  intros c Hc. unfold is_ascii_alphabetic. by rewrite Hc.
Qed.

(** Printing a coordinate in A1 style and parsing the text gives the coordinate back. *)
Lemma a1_roundtrip x : relative_valid x →
  RelativeCoord.try_from_a1 (RelativeCoord.fmt x) = Ok x.
Proof.
  intros (r & c & ra & ca & Hg & ->). unfold RelativeCoord.fmt, RelativeCoord.try_from_a1.
  destruct (relative_fields r c ra ca Hg) as (-> & -> & -> & ->).
  assert (E : parse_a1_components
    (a1_text ca (column_to_letters c) ra (fmt_dec (r + 1))) = Ok (r + 1, c + 1, ra, ca)).
  { apply parse_a1_iff. grid_simpl. exists (column_to_letters c), (fmt_dec (r + 1)).
    split; [done|]. split; [repeat split|repeat split; try lia].
    - apply column_to_letters_nonempty. by right.
    - apply uppercase_alphabetic, column_letters_upper; [lia|constructor].
    - apply fmt_dec_nonempty.
    - apply fmt_dec_digits. lia.
    - rewrite letters_column by (unfold u32_max; lia). f_equal; lia.
    - apply parse_u32_fmt_dec. unfold in_u32, u32_max. lia. }
  unfold a1_text, anchor in E. rewrite E. cbn. grid_simpl.
  unfold checked_sub. rewrite !decide_True by lia. cbn.
  rewrite !Z.add_simpl_r. by rewrite relative_try_new_ok.
Qed.

(** ** Moving coordinates *)

Lemma shift_i32_small x d : 0 ≤ x ≤ ROW_MAX → in_i32 d → 0 ≤ x + d → x + d < 2 ^ 31 →
  RelativeCoord.shift_i32 x d = x + d.
Proof.
  intros Hx Hd H0 H1. unfold RelativeCoord.shift_i32. grid_simpl.
  rewrite (as_i32_small x) by (unfold in_i32; lia).
  rewrite as_i32_small by (unfold in_i32; lia).
  apply as_u32_small. unfold in_u32, u32_max. lia.
Qed.

Lemma shift_i32_range x d : 0 ≤ x ≤ ROW_MAX → in_i32 d →
  0 ≤ RelativeCoord.shift_i32 x d ∧
  (RelativeCoord.shift_i32 x d ≤ ROW_MAX → 0 ≤ x + d ∧ RelativeCoord.shift_i32 x d = x + d).
Proof.
  intros Hx Hd. unfold in_i32 in Hd. unfold RelativeCoord.shift_i32, as_u32, as_i32.
  grid_simpl. Z.div_mod_to_equations. lia.
Qed.

(** What [offset] and [rebase] do: the relative axes move by the delta, the
    result keeps the anchors, and leaving the grid panics. *)
Definition moved (r c dr dc : Z) (ra ca : bool) : result Empty_set RelativeCoord.t :=
  if decide (in_grid (r + dr) (c + dc))
  then Ok (RelativeCoord.Mk (packed (r + dr) (c + dc) (flags ra ca)))
  else Panic.

#[export] Instance in_grid_dec r c : Decision (in_grid r c).
Proof. unfold in_grid. apply _. Defined.

Lemma moved_new r c dr dc ra ca :
  in_grid r c → in_i32 dr → in_i32 dc →
  RelativeCoord.new (RelativeCoord.shift_i32 r dr) (RelativeCoord.shift_i32 c dc) ra ca
  = if decide (in_grid (r + dr) (c + dc))
    then @Ok Empty_set _ (RelativeCoord.Mk (packed (r + dr) (c + dc) (flags ra ca)))
    else Panic.
Proof.
  intros Hg Hdr Hdc. case_decide as Hd.
  - rewrite !shift_i32_small by (done || (unfold in_grid in *; grid_simpl; lia)).
    by apply relative_new_ok.
  - assert (Hr : 0 ≤ r ≤ ROW_MAX ∧ 0 ≤ c ≤ ROW_MAX) by (grid_simpl; lia).
    destruct (shift_i32_range r dr), (shift_i32_range c dc); try tauto.
    apply relative_new_panic; [done..|]. contradict Hd. unfold in_grid in *.
    assert (COL_MAX ≤ ROW_MAX) by done. lia.
Qed.

Lemma shift_i32_zero x : 0 ≤ x ≤ ROW_MAX → RelativeCoord.shift_i32 x 0 = x.
Proof.
  intros Hx. rewrite shift_i32_small; [lia|done|unfold in_i32; lia|grid_simpl; lia..].
Qed.

(** [rebase] moves the axes that are not anchored by the distance from the origin to
    the target, keeps the anchors, and panics exactly when that leaves the grid. *)
Lemma rebase_spec x origin target :
  relative_valid x → relative_valid origin → relative_valid target →
  let dr := RelativeCoord.row target - RelativeCoord.row origin in
  let dc := RelativeCoord.col target - RelativeCoord.col origin in
  RelativeCoord.rebase x origin target =
  moved (RelativeCoord.row x) (RelativeCoord.col x)
    (if RelativeCoord.row_abs x then 0 else dr) (if RelativeCoord.col_abs x then 0 else dc)
    (RelativeCoord.row_abs x) (RelativeCoord.col_abs x).
Proof.
  intros (r & c & ra & ca & Hg & ->) (ro & co & rao & cao & Hgo & ->)
    (rt & ct & rat & cat & Hgt & ->).
  unfold RelativeCoord.rebase.
  destruct (relative_fields r c ra ca Hg) as (-> & -> & -> & ->).
  destruct (relative_fields ro co rao cao Hgo) as (-> & -> & _).
  destruct (relative_fields rt ct rat cat Hgt) as (-> & -> & _).
  unfold moved.
  rewrite (as_i32_small rt), (as_i32_small ro), (as_i32_small ct), (as_i32_small co)
    by (unfold in_i32; grid_simpl; lia).
  rewrite (as_i32_small (rt - ro)), (as_i32_small (ct - co)) by (unfold in_i32; grid_simpl; lia).
  rewrite <- moved_new; [|done|destruct ra; unfold in_i32; grid_simpl; lia
                          |destruct ca; unfold in_i32; grid_simpl; lia].
  destruct ra, ca; rewrite ?shift_i32_zero by (grid_simpl; lia); done.
Qed.

Lemma relative_packed_valid r c ra ca : in_grid r c → relative_valid (RelativeCoord.Mk (packed r c (flags ra ca))).
Proof. intros H. exists r, c, ra, ca. by split. Qed.

Lemma relative_from_raw_exact_witness : ∃ x, RelativeCoord.from_raw 0 = Ok x ∧ RelativeCoord.row x = 0.
Proof.
  destruct (proj1 (relative_from_raw_exact 0 (RelativeCoord.Mk 0) ltac:(unfold in_u64, u64_max; lia)) eq_refl)
    as [_ (r & c & ra & ca & _ & _ & Hr & _)].
  exists (RelativeCoord.Mk 0). split; [reflexivity|]. vm_compute. reflexivity.
Defined.

Lemma a1_roundtrip_witness :
  RelativeCoord.try_from_a1 (RelativeCoord.fmt (RelativeCoord.Mk (packed 9 27 (flags true false)))) =
  Ok (RelativeCoord.Mk (packed 9 27 (flags true false))).
Proof. apply a1_roundtrip, relative_packed_valid. grid_simpl. lia. Defined.

Lemma rebase_spec_witness :
  let at_ r c := RelativeCoord.Mk (packed r c (flags true false)) in
  RelativeCoord.rebase (at_ 9 27) (at_ 0 0) (at_ 5 5) = moved 9 27 0 5 true false.
Proof.
  cbv zeta. rewrite rebase_spec by (apply relative_packed_valid; grid_simpl; lia).
  vm_compute. reflexivity.
Defined.
