(* ===== verification/Address.v ===== *)
(** Sheet-scoped addresses ([crates/formualizer-common/src/address.rs] and
    [range.rs]): sheet-name quoting, the packed sheet cell, the sheet locator,
    cell and range references and the 1-based [RangeAddress]. *)
From S2P Require Import Prelude Coords.

Local Open Scope Z_scope.

(** * Sheet names *)

(** [str::to_uppercase] on the characters whose upper case is ASCII text; the
    callers compare the result with ASCII words, so the remaining characters,
    which keep a non-ASCII byte, are left as they are. *)
Definition char_to_uppercase (ch : char) : bytes :=
  match ch with
  | [c] => [to_ascii_uppercase c]
  | [a; b] =>
      if (byte_Z a =? 0xC4) && (byte_Z b =? 0xB1) then str "I"
      else if (byte_Z a =? 0xC5) && (byte_Z b =? 0xBF) then str "S"
      else if (byte_Z a =? 0xC3) && (byte_Z b =? 0x9F) then str "SS"
      else ch
  | [a; b; c] =>
      if (byte_Z a =? 0xEF) && (byte_Z b =? 0xAC) then
        match byte_Z c - 0x80 with
        | 0 => str "FF" | 1 => str "FI" | 2 => str "FL" | 3 => str "FFI"
        | 4 => str "FFL" | 5 => str "ST" | 6 => str "ST" | _ => ch
        end
      else ch
  | _ => ch
  end.
Definition to_uppercase (s : bytes) : bytes := List.concat (char_to_uppercase <$> chars s).

(** The bytes that force quoting. *)
Definition quoting_bytes : bytes :=
  str " !" ++ [ascii_of_nat 34] ++ str "#$%&'()*+,-./:;<=>?@[\]^`{|}~".

Definition a1_sheet_name_needs_quoting (name : bytes) : bool :=
  match name with
  | [] => false
  | c :: _ =>
      is_ascii_digit c
      || existsb (λ b, contains b quoting_bytes) name
      || existsb (eqb_bytes (to_uppercase name))
           [str "TRUE"; str "FALSE"; str "NULL"; str "REF"; str "DIV"; str "NAME";
            str "NUM"; str "VALUE"; str "N/A"]
  end.

(** [name.replace('\'', "''")]. *)
Definition double_quotes (name : bytes) : bytes :=
  flat_map (λ c, if Ascii.eqb c "'" then str "''" else [c]) name.

Definition format_a1_sheet_name (name : bytes) : bytes :=
  if negb (a1_sheet_name_needs_quoting name) then name
  else str "'" ++ double_quotes name ++ str "'".

(** * [PackedSheetCell] *)

Module PackedSheetCell.

Record t : Type := Mk { as_u64 : Z }.

#[global] Instance t_eq_dec : EqDecision t.
Proof. solve_decision. Defined.

Definition ROW_BITS : Z := 20.
Definition COL_BITS : Z := 14.
Definition SHEET_BITS : Z := 16.
Definition COL_SHIFT : Z := ROW_BITS.
Definition SHEET_SHIFT : Z := ROW_BITS + COL_BITS.
Definition ROW_MASK : Z := Z.shiftl 1 ROW_BITS - 1.
Definition COL_MASK : Z := Z.shiftl 1 COL_BITS - 1.
Definition SHEET_MASK : Z := Z.shiftl 1 SHEET_BITS - 1.
Definition MAX_ROW0 : Z := ROW_MASK.
Definition MAX_COL0 : Z := COL_MASK.
Definition USED_BITS : Z := ROW_BITS + COL_BITS + SHEET_BITS.
Definition USED_MASK : Z := Z.shiftl 1 USED_BITS - 1.

Definition try_new (sheet_id row0 col0 : Z) : option t :=
  if (MAX_ROW0 <? row0) || (MAX_COL0 <? col0) then None
  else Some (Mk (Z.lor (Z.lor row0 (Z.shiftl col0 COL_SHIFT)) (Z.shiftl sheet_id SHEET_SHIFT))).

Definition try_from_u64 (raw : Z) : option t :=
  if negb (Z.land raw (not_u64 USED_MASK) =? 0) then None
  else
    let row0 := as_u32 (Z.land raw ROW_MASK) in
    let col0 := as_u32 (Z.land (Z.shiftr raw COL_SHIFT) COL_MASK) in
    if (MAX_ROW0 <? row0) || (MAX_COL0 <? col0) then None else Some (Mk raw).

Definition try_from_excel_1based (sheet_id row col : Z) : option t :=
  row0 ← (row -? 1)%u32;
  col0 ← (col -? 1)%u32;
  try_new sheet_id row0 col0.

Definition sheet_id (p : t) : Z := Z.land (Z.shiftr (as_u64 p) SHEET_SHIFT) SHEET_MASK mod 2 ^ 16.
Definition row0 (p : t) : Z := as_u32 (Z.land (as_u64 p) ROW_MASK).
Definition col0 (p : t) : Z := as_u32 (Z.land (Z.shiftr (as_u64 p) COL_SHIFT) COL_MASK).
Definition to_excel_1based (p : t) : Z * Z * Z := (sheet_id p, row0 p + 1, col0 p + 1).

End PackedSheetCell.

(** * Errors and locators *)

Inductive SheetAddressError : Type :=
| ZeroIndex
| RowOutOfBounds
| ColumnOutOfBounds
| NonSingleCellRange
| RangeOrder
| MismatchedSheets
| MissingSheetName
| UnboundedRange
| CoordErr (e : CoordError)
| ParseErr (e : A1ParseError).

#[export] Instance SheetAddressError_eq_dec : EqDecision SheetAddressError.
Proof. solve_decision. Defined.

Inductive SheetLocator : Type :=
| Current
| Id (id : Z)
| Name (name : bytes).

#[export] Instance SheetLocator_eq_dec : EqDecision SheetLocator.
Proof. solve_decision. Defined.

Definition locator_id (l : SheetLocator) : option Z :=
  match l with Id id => Some id | Current | Name _ => None end.
Definition locator_name (l : SheetLocator) : option bytes :=
  match l with Name name => Some name | Current | Id _ => None end.
Definition locator_is_current (l : SheetLocator) : bool :=
  match l with Current => true | _ => false end.

(** * Bounds and references *)

Record AxisBound : Type := { index : Z; abs : bool }.

#[export] Instance AxisBound_eq_dec : EqDecision AxisBound.
Proof. solve_decision. Defined.

Definition from_excel_1based (index : Z) (abs : bool) : result SheetAddressError AxisBound :=
  index0 ← ok_or (index -? 1)%u32 ZeroIndex;
  Ok {| index := index0; abs := abs |}.
Definition to_excel_1based (b : AxisBound) : Z := index b + 1.

Record SheetCellRef : Type := { cell_sheet : SheetLocator; coord : RelativeCoord.t }.

Definition cell_from_excel (sheet : SheetLocator) (row col : Z) (row_abs col_abs : bool)
  : result SheetAddressError SheetCellRef :=
  row0 ← ok_or (row -? 1)%u32 ZeroIndex;
  col0 ← ok_or (col -? 1)%u32 ZeroIndex;
  coord ← map_err CoordErr (RelativeCoord.try_new row0 col0 row_abs col_abs);
  Ok {| cell_sheet := sheet; coord := coord |}.

Definition cell_try_from_a1 (sheet : SheetLocator) (reference : bytes)
  : result SheetAddressError SheetCellRef :=
  coord ← map_err ParseErr (RelativeCoord.try_from_a1 reference);
  Ok {| cell_sheet := sheet; coord := coord |}.

Record SheetRangeRef : Type := {
  range_sheet : SheetLocator;
  start_row : option AxisBound;
  start_col : option AxisBound;
  end_row : option AxisBound;
  end_col : option AxisBound
}.

(** Both bounds present and out of order. *)
Definition misordered (lo hi : option AxisBound) : bool :=
  match lo, hi with Some l, Some h => index h <? index l | _, _ => false end.

Definition from_parts (sheet : SheetLocator) (sr sc er ec : option AxisBound)
  : result SheetAddressError SheetRangeRef :=
  if misordered sr er then Err RangeOrder
  else if misordered sc ec then Err RangeOrder
  else Ok {| range_sheet := sheet; start_row := sr; start_col := sc;
             end_row := er; end_col := ec |}.

Definition from_cells (s e : SheetCellRef) : result SheetAddressError SheetRangeRef :=
  if bool_decide (cell_sheet s ≠ cell_sheet e) then Err MismatchedSheets
  else
    let bound_row (c : RelativeCoord.t) :=
      {| index := RelativeCoord.row c; abs := RelativeCoord.row_abs c |} in
    let bound_col (c : RelativeCoord.t) :=
      {| index := RelativeCoord.col c; abs := RelativeCoord.col_abs c |} in
    from_parts (cell_sheet s) (Some (bound_row (coord s))) (Some (bound_col (coord s)))
      (Some (bound_row (coord e))) (Some (bound_col (coord e))).

Definition from_excel_rect (sheet : SheetLocator)
  (start_row start_col end_row end_col : Z)
  (start_row_abs start_col_abs end_row_abs end_col_abs : bool)
  : result SheetAddressError SheetRangeRef :=
  sr ← from_excel_1based start_row start_row_abs;
  sc ← from_excel_1based start_col start_col_abs;
  er ← from_excel_1based end_row end_row_abs;
  ec ← from_excel_1based end_col end_col_abs;
  from_parts sheet (Some sr) (Some sc) (Some er) (Some ec).

Inductive SheetRef : Type :=
| SheetCell (c : SheetCellRef)
| SheetRange (r : SheetRangeRef).

(** * [RangeAddress] *)

Module RangeAddress.

Record t : Type := {
  sheet : bytes; start_row : Z; start_col : Z; end_row : Z; end_col : Z
}.

Definition new (sheet : bytes) (start_row start_col end_row end_col : Z) : result bytes t :=
  if (start_row =? 0) || (start_col =? 0) || (end_row =? 0) || (end_col =? 0)
  then Err (str "Row and column indices must be 1-based")
  else if (end_row <? start_row) || (end_col <? start_col)
  then Err (str "Range must be ordered: start <= end")
  else Ok {| sheet := sheet; start_row := start_row; start_col := start_col;
             end_row := end_row; end_col := end_col |}.

Definition width (r : t) : Z := end_col r - start_col r + 1.
Definition height (r : t) : Z := end_row r - start_row r + 1.

Definition to_sheet_range (r : t) : SheetRangeRef :=
  {| Address.range_sheet := Name (sheet r);
     Address.start_row := Some {| index := start_row r - 1; abs := true |};
     Address.start_col := Some {| index := start_col r - 1; abs := true |};
     Address.end_row := Some {| index := end_row r - 1; abs := true |};
     Address.end_col := Some {| index := end_col r - 1; abs := true |} |}.

Definition try_from (value : SheetRangeRef) : result SheetAddressError t :=
  sheet ← ok_or (locator_name (range_sheet value)) MissingSheetName;
  match Address.start_row value, Address.start_col value,
        Address.end_row value, Address.end_col value with
  | Some sr, Some sc, Some er, Some ec =>
      if (index er <? index sr) || (index ec <? index sc) then Err RangeOrder
      else Ok {| sheet := sheet;
                 start_row := to_excel_1based sr; start_col := to_excel_1based sc;
                 end_row := to_excel_1based er; end_col := to_excel_1based ec |}
  | _, _, _, _ => Err UnboundedRange
  end.

End RangeAddress.

Example quote_ex : format_a1_sheet_name (str "It's") = str "'It''s'".
Proof. reflexivity. Qed.
Example packed_ex : PackedSheetCell.to_excel_1based <$> PackedSheetCell.try_from_excel_1based 7 11 9 = Some (7, 11, 9).
Proof. reflexivity. Qed.

(** * Facts *)

Definition in_u16 (x : Z) : Prop := 0 ≤ x < 2 ^ 16.
Definition in_cell (s r c : Z) : Prop := in_u16 s ∧ 0 ≤ r < 2 ^ 20 ∧ 0 ≤ c < 2 ^ 14.
Definition packed_cell (s r c : Z) : Z := s * 2 ^ 34 + c * 2 ^ 20 + r.

Lemma try_new_packed s r c : in_cell s r c →
  PackedSheetCell.try_new s r c = Some (PackedSheetCell.Mk (packed_cell s r c)).
Proof.
  intros (Hs & Hr & Hc). unfold PackedSheetCell.try_new.
  change PackedSheetCell.MAX_ROW0 with (2 ^ 20 - 1).
  change PackedSheetCell.MAX_COL0 with (2 ^ 14 - 1).
  destruct (Z.ltb_spec (2 ^ 20 - 1) r), (Z.ltb_spec (2 ^ 14 - 1) c); try lia. cbn [orb].
  change PackedSheetCell.COL_SHIFT with 20. change PackedSheetCell.SHEET_SHIFT with 34.
  do 2 f_equal. rewrite (Z.lor_comm r), lor_shiftl_add by lia.
  rewrite Z.lor_comm, lor_shiftl_add by lia. unfold packed_cell. lia.
Qed.

Lemma try_new_None s r c : 0 ≤ r → 0 ≤ c → in_u16 s → ¬ in_cell s r c →
  PackedSheetCell.try_new s r c = None.
Proof.
  intros Hr Hc Hs H. unfold PackedSheetCell.try_new.
  change PackedSheetCell.MAX_ROW0 with (2 ^ 20 - 1).
  change PackedSheetCell.MAX_COL0 with (2 ^ 14 - 1).
  destruct (Z.ltb_spec (2 ^ 20 - 1) r), (Z.ltb_spec (2 ^ 14 - 1) c); try done.
  contradict H. unfold in_cell, in_u16 in *. lia.
Qed.

Lemma packed_cell_fields s r c : in_cell s r c →
  let p := PackedSheetCell.Mk (packed_cell s r c) in
  PackedSheetCell.sheet_id p = s ∧ PackedSheetCell.row0 p = r ∧ PackedSheetCell.col0 p = c.
Proof.
  intros (Hs & Hr & Hc) p. unfold in_u16 in *.
  unfold p, PackedSheetCell.sheet_id, PackedSheetCell.row0, PackedSheetCell.col0.
  cbn [PackedSheetCell.as_u64].
  change PackedSheetCell.SHEET_MASK with (Z.ones 16).
  change PackedSheetCell.ROW_MASK with (Z.ones 20).
  change PackedSheetCell.COL_MASK with (Z.ones 14).
  change PackedSheetCell.COL_SHIFT with 20. change PackedSheetCell.SHEET_SHIFT with 34.
  rewrite !Z.land_ones, !Z.shiftr_div_pow2 by lia. unfold packed_cell.
  repeat split; [|rewrite as_u32_small; [|unfold in_u32, u32_max]..];
    Z.div_mod_to_equations; lia.
Qed.

Lemma unused_bits_zero raw : in_u64 raw →
  Z.land raw (not_u64 PackedSheetCell.USED_MASK) = 0 ↔ raw < 2 ^ 50.
Proof.
  intros Hr. unfold in_u64, u64_max in Hr.
  change (not_u64 PackedSheetCell.USED_MASK) with (Z.shiftl (Z.ones 14) 50).
  rewrite land_field, Z.shiftl_mul_pow2 by lia.
  rewrite (Z.mod_small (raw / 2 ^ 50)) by (Z.div_mod_to_equations; lia).
  split; Z.div_mod_to_equations; lia.
Qed.

Lemma unpack_cell raw : in_u64 raw → raw < 2 ^ 50 →
  ∃ s r c, in_cell s r c ∧ raw = packed_cell s r c.
Proof.
  intros H1 H2. unfold in_u64 in H1.
  exists (raw / 2 ^ 34), (raw mod 2 ^ 20), ((raw / 2 ^ 20) mod 2 ^ 14).
  unfold in_cell, in_u16, packed_cell. Z.div_mod_to_equations. lia.
Qed.

(** The public packing of a sheet cell is exact: [try_from_u64] accepts the words that
    [try_new] makes of a sheet id and a cell of the grid and no others, and the accessors
    give these back. *)
Lemma packed_cell_exact raw p : in_u64 raw →
  PackedSheetCell.try_from_u64 raw = Some p ↔
  PackedSheetCell.as_u64 p = raw ∧
  ∃ s r c, in_cell s r c ∧ PackedSheetCell.try_new s r c = Some p ∧
    PackedSheetCell.sheet_id p = s ∧ PackedSheetCell.row0 p = r ∧ PackedSheetCell.col0 p = c.
Proof.
  intros Hraw. unfold PackedSheetCell.try_from_u64.
  destruct (Z.eqb_spec (Z.land raw (not_u64 PackedSheetCell.USED_MASK)) 0) as [E|E].
  - apply unused_bits_zero in E; [|done]. cbn [negb].
    destruct (unpack_cell raw Hraw E) as (s & r & c & Hc & ->).
    destruct (packed_cell_fields s r c Hc) as (F1 & F2 & F3).
    unfold PackedSheetCell.row0, PackedSheetCell.col0 in F2, F3.
    cbn [PackedSheetCell.as_u64] in F2, F3. rewrite F2, F3.
    assert (B : (PackedSheetCell.MAX_ROW0 <? r) || (PackedSheetCell.MAX_COL0 <? c) = false).
    { change PackedSheetCell.MAX_ROW0 with (2 ^ 20 - 1).
      change PackedSheetCell.MAX_COL0 with (2 ^ 14 - 1). unfold in_cell, in_u16 in Hc. lia. }
    rewrite B. split.
    + intros [= <-]. split; [done|]. exists s, r, c.
      rewrite try_new_packed by done. split; [done|]. split; [done|].
      by apply packed_cell_fields.
    + intros [Hp _]. destruct p. simpl in Hp. by subst.
  - split; [done|]. intros [<- (s & r & c & Hc & Hn & _)].
    rewrite try_new_packed in Hn by done. injection Hn as <-.
    exfalso. apply E, unused_bits_zero; [done|]. simpl.
    unfold in_cell, in_u16, packed_cell in *. lia.
Qed.

(** A [RangeAddress] survives the conversion to a sheet range and back, and has at
    least one row and one column. *)
Lemma range_address_roundtrip sheet sr sc er ec r :
  0 ≤ sr → 0 ≤ sc → 0 ≤ er → 0 ≤ ec →
  RangeAddress.new sheet sr sc er ec = Ok r →
  RangeAddress.try_from (RangeAddress.to_sheet_range r) = Ok r ∧
  1 ≤ RangeAddress.width r ∧ 1 ≤ RangeAddress.height r.
Proof.
  intros H1 H2 H3 H4. unfold RangeAddress.new.
  destruct (Z.eqb_spec sr 0), (Z.eqb_spec sc 0), (Z.eqb_spec er 0), (Z.eqb_spec ec 0); try done.
  destruct (Z.ltb_spec er sr), (Z.ltb_spec ec sc); try done. intros Hn; injection Hn as <-.
  unfold RangeAddress.try_from, RangeAddress.to_sheet_range, RangeAddress.width, RangeAddress.height, to_excel_1based.
  cbn. destruct (Z.ltb_spec (er - 1) (sr - 1)), (Z.ltb_spec (ec - 1) (sc - 1)); try lia. cbn.
  rewrite !Z.sub_add. split; [done|lia].
Qed.

Lemma packed_cell_exact_witness : ∃ p, PackedSheetCell.try_from_u64 17179869184 = Some p ∧ PackedSheetCell.as_u64 p = 17179869184.
Proof.
  exists (PackedSheetCell.Mk 17179869184). assert (H : PackedSheetCell.try_from_u64 17179869184 = Some (PackedSheetCell.Mk 17179869184)).
  { vm_compute. reflexivity. }
  split; [exact H|]. apply (packed_cell_exact 17179869184 _); [unfold in_u64, u64_max; lia|exact H].
Defined.

Lemma range_address_roundtrip_witness :
  ∃ r, RangeAddress.new (str "Data") 2 1 5 3 = Ok r ∧ RangeAddress.try_from (RangeAddress.to_sheet_range r) = Ok r.
Proof.
  destruct (RangeAddress.new (str "Data") 2 1 5 3) as [r|e|] eqn:E; [|discriminate E..].
  exists r. split; [reflexivity|]. apply (range_address_roundtrip (str "Data") 2 1 5 3 r); [lia..|exact E].
Defined.
