(* ===== verification/SheetSpec.v ===== *)
(** The sheet part of a reference text ([crates/formualizer-parse/src/parser.rs]):
    reading a sheet name, quoted or bare, the single-sheet and 3D forms, and the
    round trip with the quoting of [Address]. *)
From S2P Require Import Prelude Coords Address.

(** [(SheetSpec, String)] of the source pairs this with the reference part. *)
Inductive SheetSpec : Type :=
| NoSheet
| Single (sheet : bytes)
| SheetSpan (first last : bytes).

#[export] Instance SheetSpec_eq_dec : EqDecision SheetSpec.
Proof. solve_decision. Defined.

(** The scan for the closing quote: the index of the first quote that is not
    doubled, when [s] is the text from index [i] on. *)
Fixpoint quoted_end (s : bytes) (i : nat) : option nat :=
  match s with
  | [] => None
  | c :: s1 =>
      if Ascii.eqb c "'" then
        match s1 with
        | d :: s2 => if Ascii.eqb d "'" then quoted_end s2 (i + 2) else Some i
        | [] => Some i
        end
      else quoted_end s1 (i + 1)
  end.

(** [raw.replace("''", "'")]. *)
Fixpoint halve_quotes (s : bytes) : bytes :=
  match s with
  | [] => []
  | c :: s1 =>
      if Ascii.eqb c "'" then
        match s1 with
        | d :: s2 => if Ascii.eqb d "'" then "'"%char :: halve_quotes s2 else c :: halve_quotes s1
        | [] => [c]
        end
      else c :: halve_quotes s1
  end.

Definition ends_bare_segment (c : byte) : bool :=
  contains c [":"; "!"; "'"; " "; tab; newline; carriage_return]%char.

Definition read_sheet_segment (reference : bytes) (start : nat) : option (bytes * nat * bool) :=
  match drop start reference with
  | [] => None
  | c :: _ =>
      if Ascii.eqb c "'" then
        i ← quoted_end (drop (start + 1) reference) (start + 1);
        Some (halve_quotes (slice reference (start + 1) i), i + 1, true)
      else
        let seg := (span (λ b, negb (ends_bare_segment b)) (drop start reference)).1 in
        if bool_decide (seg = []) then None else Some (seg, start + length seg, false)
  end.

Definition extract_sheet_spec_fallback (reference : bytes) : SheetSpec * bytes :=
  match reference with
  | [] => (NoSheet, reference)
  | c :: tail =>
      let '(a, b) := span (λ x, negb (Ascii.eqb x "!")) tail in
      match b with
      | _ :: ref_part => (Single (c :: a), ref_part)
      | [] => (NoSheet, reference)
      end
  end.

(** [reference[from..].find('!')]. *)
Definition find_bang (s : bytes) : option nat :=
  let '(a, b) := span (λ x, negb (Ascii.eqb x "!")) s in
  match b with _ :: _ => Some (length a) | [] => None end.

Definition extract_sheet_spec (reference : bytes) : SheetSpec * bytes :=
  match read_sheet_segment reference 0 with
  | None => extract_sheet_spec_fallback reference
  | Some (first_name, after_first, _) =>
      let single_or_fallback :=
        if byte_at reference after_first "!" then
          (Single first_name, drop (after_first + 1) reference)
        else extract_sheet_spec_fallback reference in
      if byte_at reference after_first ":" then
        let second_start := after_first + 1 in
        let malformed :=
          if decide (second_start < length reference) then
            match find_bang (drop second_start reference) with
            | Some bang => (SheetSpan first_name [], drop (second_start + bang + 1) reference)
            | None => single_or_fallback
            end
          else single_or_fallback in
        match read_sheet_segment reference second_start with
        | Some (second_name, after_second, _) =>
            if byte_at reference after_second "!" then
              (SheetSpan first_name second_name, drop (after_second + 1) reference)
            else malformed
        | None => malformed
        end
      else single_or_fallback
  end.

Example spec_3d : extract_sheet_spec (str "'a b':Sheet3!A1") = (SheetSpan (str "a b") (str "Sheet3"), str "A1").
Proof. reflexivity. Qed.
Example spec_book : extract_sheet_spec (str "[1]Sheet1!A1") = (Single (str "[1]Sheet1"), str "A1").
Proof. reflexivity. Qed.

(** [format_3d_sheet_prefix]. *)
Definition format_3d_sheet_prefix (first last : bytes) : bytes :=
  format_a1_sheet_name first ++ str ":" ++ format_a1_sheet_name last.

(** * Round trip with the quoting of sheet names *)

Lemma double_quotes_cons c s :
  double_quotes (c :: s) = (if Ascii.eqb c "'" then str "''" else [c]) ++ double_quotes s.
Proof. done. Qed.

Lemma quoted_end_double name t i : starts_with "'" t = false →
  quoted_end (double_quotes name ++ "'"%char :: t) i = Some (i + length (double_quotes name)).
Proof.
  intros Ht. revert i. induction name as [|c name IH]; intros i.
  - simpl. destruct t as [|d t]; [f_equal; lia|]. simpl in Ht. rewrite Ht. f_equal; lia.
  - rewrite double_quotes_cons. destruct (Ascii.eqb_spec c "'") as [->|Hc].
    + simpl. rewrite IH. f_equal. lia.
    + cbn -[Nat.add]. apply Ascii.eqb_neq in Hc. rewrite Hc, IH. f_equal. lia.
Qed.

Lemma halve_double name : halve_quotes (double_quotes name) = name.
Proof.
  induction name as [|c name IH]; [done|]. rewrite double_quotes_cons.
  destruct (Ascii.eqb_spec c "'") as [->|Hc]; [by cbn; rewrite IH|].
  apply Ascii.eqb_neq in Hc. cbn. rewrite Hc. by rewrite IH.
Qed.

Definition no_line_breaks (name : bytes) : Prop :=
  Forall (λ c, contains c [tab; newline; carriage_return] = false) name.

Lemma bare_stop c : ends_bare_segment c = true →
  contains c quoting_bytes = true ∨ contains c [tab; newline; carriage_return] = true.
Proof. byte_cases c; vm_compute; auto. Qed.

Lemma bare_name name : a1_sheet_name_needs_quoting name = false → no_line_breaks name →
  Forall (λ b, negb (ends_bare_segment b) = true) name.
Proof.
  intros Hq Hn. destruct name as [|c name]; [constructor|].
  unfold a1_sheet_name_needs_quoting in Hq. apply orb_false_iff in Hq as [Hq _].
  apply orb_false_iff in Hq as [_ Hq].
  apply List.Forall_forall. intros b Hb. apply negb_true_iff, not_true_iff_false. intros Hs.
  apply bare_stop in Hs as [Hs|Hs].
  - apply not_true_iff_false in Hq. apply Hq, existsb_exists. by exists b.
  - apply (proj1 (List.Forall_forall _ _) Hn) in Hb. by rewrite Hb in Hs.
Qed.

(** The segment reader on a printed name that a separator follows. *)
Lemma read_printed_segment p name sep rest :
  name ≠ [] → no_line_breaks name → ends_bare_segment sep = true → sep ≠ "'"%char →
  read_sheet_segment (p ++ format_a1_sheet_name name ++ sep :: rest) (length p) =
  Some (name, length p + length (format_a1_sheet_name name), a1_sheet_name_needs_quoting name).
Proof.
  intros Hne Hn Hsep Hq. unfold read_sheet_segment, format_a1_sheet_name. rewrite drop_app_length.
  destruct (a1_sheet_name_needs_quoting name) eqn:E; cbn [negb].
  - rewrite <- !app_assoc. cbn [str list_ascii_of_string app]. cbn [Ascii.eqb Bool.eqb andb].
    rewrite <- drop_drop, drop_app_length. cbn [drop].
    rewrite drop_0, quoted_end_double by (by apply Ascii.eqb_neq in Hq). cbn.
    unfold slice. rewrite <- drop_drop, drop_app_length. cbn [drop]. rewrite ?drop_0.
    replace (length p + 1 + length (double_quotes name) - (length p + 1)) with
      (length (double_quotes name)) by lia.
    rewrite take_app_length, halve_double.
    replace (length p + 1 + length (double_quotes name) + 1) with
      (length p + length ("'"%char :: double_quotes name ++ ["'"%char])); [done|].
    cbn [length]. rewrite length_app. cbn. lia.
  - pose proof (bare_name _ E Hn) as Hb. destruct name as [|c name]; [done|].
    cbn [app]. destruct (Ascii.eqb_spec c "'") as [->|_].
    { by apply Forall_cons in Hb as [Hb _]. }
    rewrite (span_exact _ (c :: name) (sep :: rest)) by (done || (simpl; by rewrite Hsep)).
    cbn [fst]. by rewrite bool_decide_eq_false_2.
Qed.

(** A sheet name printed before [!] is read back, whatever it holds apart from tabs
    and line breaks (which are printed bare but end a bare name). *)
Lemma extract_printed_sheet name rest : name ≠ [] → no_line_breaks name →
  extract_sheet_spec (format_a1_sheet_name name ++ "!"%char :: rest) = (Single name, rest).
Proof.
  intros Hne Hn. unfold extract_sheet_spec.
  pose proof (read_printed_segment [] name "!" rest Hne Hn eq_refl ltac:(done)) as H.
  simpl in H. rewrite H. rewrite !byte_at_app. cbn.
  by rewrite <- drop_drop, drop_app_length.
Qed.

(** So is the printed pair of names of a 3D reference. *)
Lemma extract_printed_span first last rest :
  first ≠ [] → no_line_breaks first → last ≠ [] → no_line_breaks last →
  extract_sheet_spec (format_3d_sheet_prefix first last ++ "!"%char :: rest) =
  (SheetSpan first last, rest).
Proof.
  intros Hf Hfn Hl Hln. unfold extract_sheet_spec, format_3d_sheet_prefix.
  rewrite <- !app_assoc. cbn [str list_ascii_of_string app].
  set (tail := format_a1_sheet_name last ++ "!"%char :: rest).
  pose proof (read_printed_segment [] first ":" tail Hf Hfn eq_refl ltac:(done)) as H.
  simpl in H. rewrite H. rewrite !byte_at_app. cbn [Ascii.eqb Bool.eqb andb].
  pose proof (read_printed_segment (format_a1_sheet_name first ++ str ":") last "!" rest
    Hl Hln eq_refl ltac:(done)) as H2.
  rewrite length_app, <- app_assoc in H2. cbn [str list_ascii_of_string length app] in H2.
  fold tail in H2. rewrite H2.
  assert (E : format_a1_sheet_name first ++ ":"%char :: tail =
    ((format_a1_sheet_name first ++ str ":") ++ format_a1_sheet_name last) ++ "!"%char :: rest)
    by (by rewrite <- !app_assoc).
  assert (L : length (format_a1_sheet_name first) + 1 + length (format_a1_sheet_name last) =
    length ((format_a1_sheet_name first ++ str ":") ++ format_a1_sheet_name last))
    by (by rewrite !length_app).
  rewrite E, L, byte_at_app. cbn.
  by rewrite <- drop_drop, drop_app_length.
Qed.

(** A text without [!] has no sheet part. *)
Lemma span_all {A} (p : A → bool) (s : list A) : Forall (λ x, p x = true) s → span p s = (s, []).
Proof. intros H. rewrite <- (app_nil_r s) at 1. by apply span_exact. Qed.

Lemma no_byte (c : byte) s : contains c s = false → Forall (λ x, negb (Ascii.eqb x c) = true) s.
Proof.
  intros H. apply List.Forall_forall. intros x Hx. apply negb_true_iff, Ascii.eqb_neq. intros ->.
  apply not_true_iff_false in H. apply H, existsb_exists. exists c. by rewrite Ascii.eqb_refl.
Qed.

Lemma byte_at_no (c : byte) s i : contains c s = false → byte_at s i c = false.
Proof.
  intros H. unfold byte_at. destruct (s !! i) as [d|] eqn:Hd; [|done].
  apply negb_true_iff. exact (Forall_lookup_1 _ _ _ _ (no_byte _ _ H) Hd).
Qed.

Lemma contains_drop (c : byte) n s : contains c s = false → contains c (drop n s) = false.
Proof.
  revert s. induction n as [|n IH]; intros s H; [by rewrite drop_0|].
  destruct s as [|d s]; [done|]. apply orb_false_iff in H as [_ H]. by apply IH.
Qed.

Lemma extract_no_sheet s : contains "!" s = false → extract_sheet_spec s = (NoSheet, s).
Proof.
  intros H.
  assert (F : extract_sheet_spec_fallback s = (NoSheet, s)).
  { unfold extract_sheet_spec_fallback. destruct s as [|c s]; [done|].
    rewrite span_all; [done|]. apply no_byte. by apply (contains_drop _ 1) in H. }
  unfold extract_sheet_spec. destruct (read_sheet_segment s 0) as [[[n i] q]|]; [|done].
  rewrite (byte_at_no _ _ i H), F. destruct (byte_at s i ":"); [|done].
  assert (M : (if decide (i + 1 < length s) then
     match find_bang (drop (i + 1) s) with
     | Some bang => (SheetSpan n [], drop (i + 1 + bang + 1) s)
     | None => (NoSheet, s)
     end else (NoSheet, s)) = (NoSheet, s)).
  { case_decide; [|done]. unfold find_bang. rewrite span_all; [done|]. by apply no_byte, contains_drop. }
  destruct (read_sheet_segment s (i + 1)) as [[[n2 j] q2]|]; [|done].
  by rewrite (byte_at_no _ _ j H).
Qed.
