(* ===== verification/Token.v ===== *)
(** Tokens and the predicates on their text
    ([crates/formualizer-parse/src/tokenizer.rs], the part the two tokenizers
    share).  Positions are byte offsets into the formula. *)
From S2P Require Import Prelude.

(** [FormulaDialect] of [types.rs]. *)
Inductive FormulaDialect : Type := Excel | OpenFormula.

Inductive TokenType : Type :=
| Literal | Operand | Func | Array | Paren | Sep
| OpPrefix | OpInfix | OpPostfix | Whitespace.

Inductive TokenSubType : Type :=
| NoSub | Text | Number | Logical | Error | Range | Open | Close | Arg | Row.

Inductive Associativity : Type := Left | Right.

#[export] Instance FormulaDialect_eq_dec : EqDecision FormulaDialect.
Proof. solve_decision. Defined.
#[export] Instance TokenType_eq_dec : EqDecision TokenType.
Proof. solve_decision. Defined.
#[export] Instance TokenSubType_eq_dec : EqDecision TokenSubType.
Proof. solve_decision. Defined.

Definition is_type (t u : TokenType) : bool := bool_decide (t = u).
Definition is_sub (t u : TokenSubType) : bool := bool_decide (t = u).

(** A plain [TokenizerError]. *)
Record TokenizerError : Type := { message : bytes; pos : nat }.

#[export] Instance TokenizerError_eq_dec : EqDecision TokenizerError.
Proof. solve_decision. Defined.

(** Is [c] one of the bytes [s]? The [match] on byte constants of the source. *)
Definition one_of (c : byte) (s : string) : bool := contains c (str s).

Definition TOKEN_ENDERS : string := ",;}) +-*/^&=><%@".

Definition is_token_ender (c : byte) : bool := one_of c TOKEN_ENDERS.

Definition is_blank (c : byte) : bool :=
  contains c [" "%char; tab; carriage_return; newline].

Definition ERROR_CODES : list bytes :=
  [str "#GETTING_DATA"; str "#DIV/0!"; str "#VALUE!"; str "#SPILL!"; str "#NAME?";
   str "#NULL!"; str "#CALC!"; str "#NUM!"; str "#REF!"; str "#N/A"].

(** * [str::parse::<f64>]

    Whether the text is a floating-point literal: [inf], [infinity], [nan] in
    any case, or digits with an optional fraction and exponent, after an
    optional sign. *)
Definition drop_sign (s : bytes) : bytes :=
  match s with c :: s' => if one_of c "+-" then s' else s | [] => s end.

Definition exponent_ok (s : bytes) : bool :=
  match s with
  | [] => true
  | c :: s' =>
      one_of c "eE" &&
      (let '(ds, rest) := span is_ascii_digit (drop_sign s') in
       bool_decide (ds ≠ []) && bool_decide (rest = []))
  end.

Definition parse_f64_is_ok (s : bytes) : bool :=
  let s := drop_sign s in
  existsb (eq_ignore_ascii_case s) [str "inf"; str "infinity"; str "nan"] ||
  (let '(int, rest) := span is_ascii_digit s in
   let '(frac, rest) :=
     if starts_with "." rest then span is_ascii_digit (drop 1 rest) else ([], rest) in
   (bool_decide (int ≠ []) || bool_decide (frac ≠ [])) && exponent_ok rest).

(** * Operand classification *)

Definition operand_subtype (value : bytes) : TokenSubType :=
  if starts_with quote value then Text
  else if starts_with "#" value then Error
  else if eq_ignore_ascii_case value (str "TRUE") || eq_ignore_ascii_case value (str "FALSE")
  then Logical
  else if parse_f64_is_ok value then Number
  else Range.

Definition is_cell_reference_like (value : bytes) : bool :=
  let rest := if starts_with "$" value then drop 1 value else value in
  let '(col, rest) := span is_ascii_alphabetic rest in
  if bool_decide (col = []) then false else
  let rest := if starts_with "$" rest then drop 1 rest else rest in
  let '(row, rest) := span is_ascii_digit rest in
  bool_decide (rest = []) && bool_decide (row ≠ []).

(** [value.rsplit_once('!').map_or(value, |(_, part)| part)]. *)
Fixpoint after_last_bang (value : bytes) : bytes :=
  match value with
  | [] => []
  | c :: rest =>
      if contains "!" rest then after_last_bang rest
      else if Ascii.eqb c "!" then rest else value
  end.

Definition reference_value_contains_range_colon (value : bytes) : bool :=
  contains ":" (after_last_bang value).
Definition value_has_structured_reference_bracket (value : bytes) : bool :=
  contains "[" (after_last_bang value).

Definition is_reference_operand_value (value : bytes) : bool :=
  is_sub (operand_subtype value) Range
  && (reference_value_contains_range_colon value || contains "!" value
      || contains "[" value || is_cell_reference_like value).

(** The text from [offset] on, after blanks. *)
Definition skip_blanks (s : bytes) : bytes := (span is_blank s).2.

Definition next_starts_reference_expression (formula : bytes) (offset : nat) : bool :=
  match skip_blanks (drop offset formula) with
  | [] => false
  | c :: _ => one_of c "(['$" || is_ascii_alphabetic c
  end.

Fixpoint sheet_qualifier_scan (in_quote : bool) (s : bytes) : bool :=
  match s with
  | [] => false
  | c :: rest =>
      if Ascii.eqb c "'" then
        match rest with
        | d :: rest' =>
            if in_quote && Ascii.eqb d "'" then sheet_qualifier_scan in_quote rest'
            else sheet_qualifier_scan (negb in_quote) rest
        | [] => sheet_qualifier_scan (negb in_quote) rest
        end
      else if Ascii.eqb c "!" then true
      else if Ascii.eqb c ":" && negb in_quote then false
      else if (one_of c ",;})+-*/^&=><%@" || is_blank c) && negb in_quote then false
      else sheet_qualifier_scan in_quote rest
  end.

Definition next_reference_has_sheet_qualifier (formula : bytes) (offset : nat) : bool :=
  sheet_qualifier_scan false (skip_blanks (drop offset formula)).

(** * [TokenSpan] *)

Module TokenSpan.
Record t : Type := {
  token_type : TokenType; subtype : TokenSubType; start : nat; end_ : nat
}.
#[global] Instance t_eq_dec : EqDecision t.
Proof. solve_decision. Defined.
End TokenSpan.

(** * [Token] *)

Module Token.

Record t : Type := {
  value : bytes; token_type : TokenType; subtype : TokenSubType; start : nat; end_ : nat
}.
#[global] Instance t_eq_dec : EqDecision t.
Proof. solve_decision. Defined.

Definition new_with_span (value : bytes) (token_type : TokenType) (subtype : TokenSubType)
  (start end_ : nat) : t :=
  {| value := value; token_type := token_type; subtype := subtype; start := start; end_ := end_ |}.

Definition new (value : bytes) (token_type : TokenType) (subtype : TokenSubType) : t :=
  new_with_span value token_type subtype 0 0.

Definition from_slice (source : bytes) (token_type : TokenType) (subtype : TokenSubType)
  (start end_ : nat) : t :=
  new_with_span (slice source start end_) token_type subtype start end_.

Definition is_operator (tok : t) : bool :=
  match token_type tok with OpPrefix | OpInfix | OpPostfix => true | _ => false end.

Definition get_precedence (tok : t) : option (Z * Associativity) :=
  let op := if is_type (token_type tok) OpPrefix then str "u" else value tok in
  let op_is s := eqb_bytes op (str s) in
  if op_is "#" then Some (11%Z, Left)
  else if op_is ":" then Some (10%Z, Left)
  else if op_is " " then Some (9%Z, Left)
  else if op_is "," then Some (8%Z, Left)
  else if op_is "%" then Some (7%Z, Left)
  else if op_is "u" then Some (6%Z, Right)
  else if op_is "^" then Some (5%Z, Right)
  else if op_is "*" || op_is "/" then Some (4%Z, Left)
  else if op_is "+" || op_is "-" then Some (3%Z, Left)
  else if op_is "&" then Some (2%Z, Left)
  else if op_is "=" || op_is "<" || op_is ">" || op_is "<=" || op_is ">=" || op_is "<>" then Some (1%Z, Left)
  else None.

Definition make_operand (value : bytes) : t := new value Operand (operand_subtype value).
Definition make_operand_with_span (value : bytes) (start end_ : nat) : t :=
  new_with_span value Operand (operand_subtype value) start end_.
Definition make_operand_from_slice (source : bytes) (start end_ : nat) : t :=
  from_slice source Operand (operand_subtype (slice source start end_)) start end_.

(** The type and subtype of a bracket token by its last byte; the source
    [assert!]s that it is a bracket ([make_subexp_from_slice] does not). *)
Definition subexp_type (last_char : byte) (func : bool) : TokenType :=
  if func then Func
  else if one_of last_char "{}" then Array
  else if one_of last_char "()" then Paren
  else Func.
Definition subexp_subtype (last_char : byte) : TokenSubType :=
  if one_of last_char ")}" then Close else Open.

Definition make_subexp {E} (value : bytes) (func : bool) : result E t :=
  last_char ← expect (last value);
  if negb (one_of last_char "{}()") then Panic
  else Ok (new value (subexp_type last_char func) (subexp_subtype last_char)).
Definition make_subexp_with_span {E} (value : bytes) (func : bool) (start end_ : nat) : result E t :=
  last_char ← expect (last value);
  if negb (one_of last_char "{}()") then Panic
  else Ok (new_with_span value (subexp_type last_char func) (subexp_subtype last_char) start end_).
Definition make_subexp_from_slice {E} (source : bytes) (func : bool) (start end_ : nat) : result E t :=
  last_char ← expect (last (slice source start end_));
  Ok (from_slice source (subexp_type last_char func) (subexp_subtype last_char) start end_).

Definition get_closer (tok : t) : result TokenizerError t :=
  if negb (is_sub (subtype tok) Open) then
    Err {| message := str "Token is not an opener"; pos := 0 |}
  else
    let closer_value := if is_type (token_type tok) Array then str "}" else str ")" in
    make_subexp closer_value (is_type (token_type tok) Func).

Definition make_separator {E} (value : bytes) : result E t :=
  if negb (eqb_bytes value (str ",") || eqb_bytes value (str ";")) then Panic
  else Ok (new value Sep (if eqb_bytes value (str ",") then Arg else Row)).
Definition make_separator_with_span {E} (value : bytes) (start end_ : nat) : result E t :=
  if negb (eqb_bytes value (str ",") || eqb_bytes value (str ";")) then Panic
  else Ok (new_with_span value Sep (if eqb_bytes value (str ",") then Arg else Row) start end_).

End Token.

Example subtype_ex :
  operand_subtype <$> [str "1e5"; str "-.5E-3"; str "Infinity"; str "."; str "A1"; str "true"]
  = [Number; Number; Number; Range; Range; Logical].
Proof. reflexivity. Qed.

(** A test against two bytes. *)
Lemma one_of_two c a b : one_of c (String a (String b EmptyString)) = true → c = a ∨ c = b.
Proof. unfold one_of, contains. simpl. bool_prop. intuition congruence. Qed.
