(* ===== verification/StructuredRef.v ===== *)
(** Structured (table) references
    ([crates/formualizer-parse/src/structured_ref.rs] and the table types of
    [parser.rs]): the specifier between brackets, its parser and its printer.

    An error keeps the place and the text its message is formatted from, one
    constructor for each message.  A parser that moves along its input is a
    function of the input and the index it has reached. *)
From S2P Require Import Prelude.

(** * Data *)

Inductive TableRowSpecifier : Type :=
| CurrentRow | AllRows | DataRows | HeadersRow | TotalsRow | RowIndex (i : Z).

Inductive SpecialItem : Type := Headers | Data | Totals | AllItem | ThisRow.

Inductive TableSpecifier : Type :=
| SpecAll
| SpecData
| SpecHeaders
| SpecTotals
| Row (r : TableRowSpecifier)
| Column (name : bytes)
| ColumnRange (start end_ : bytes)
| SpecItem (item : SpecialItem)
| Combination (specs : list TableSpecifier).

Record TableReference : Type := { table_name : bytes; specifier : option TableSpecifier }.

#[export] Instance SpecialItem_eq_dec : EqDecision SpecialItem.
Proof. solve_decision. Defined.
#[export] Instance TableRowSpecifier_eq_dec : EqDecision TableRowSpecifier.
Proof. solve_decision. Defined.
#[export] Instance TableSpecifier_eq_dec : EqDecision TableSpecifier.
Proof.
  refine (fix go (x y : TableSpecifier) {struct x} : Decision (x = y) :=
    match x, y with
    | Combination xs, Combination ys => cast_if (@list_eq_dec _ go xs ys)
    | Column a, Column b => cast_if (decide (a = b))
    | ColumnRange a b, ColumnRange a' b' => cast_if_and (decide (a = a')) (decide (b = b'))
    | SpecItem a, SpecItem b => cast_if (decide (a = b))
    | Row a, Row b => cast_if (decide (a = b))
    | SpecAll, SpecAll | SpecData, SpecData | SpecHeaders, SpecHeaders | SpecTotals, SpecTotals => left _
    | _, _ => right _
    end); clear go; congruence.
Defined.
#[export] Instance TableReference_eq_dec : EqDecision TableReference.
Proof. solve_decision. Defined.

(** [ParsingError::InvalidReference] of these texts. *)
Inductive SpecError : Type :=
| TrailingContent (offset : nat)
| ExpectedByte (expected : byte) (offset : nat) (found : option byte)
| TrailingEscape
| UnbalancedSpecifier (offset : nat)
| UnexpectedComma (content : bytes)
| DanglingEscape
| StrayClose
| UnbalancedContent
| ExpectedComma (offset : nat) (content : bytes)
| ExpectedItem (offset : nat) (content : bytes)
| ExpectedRangeEnd (offset : nat) (content : bytes)
| TrailingItemEscape (offset : nat)
| UnbalancedItem (offset : nat) (content : bytes)
| EmptyItem
| EmptyColumn
| SpecialInRange (lhs rhs : bytes)
| UnknownSpecial (token : bytes)
| EmptyAfterAt.

(** * Scanning for a closing bracket *)

Inductive close_scan : Type :=
| Closed (i : nat)
| EscapeAtEnd (i : nat)
| Unclosed.

(** The bracket that closes [depth] open ones, when [s] is the text from index
    [i] on; an apostrophe escapes the byte behind it. *)
Fixpoint find_close (s : bytes) (i depth : nat) : close_scan :=
  match s with
  | [] => Unclosed
  | c :: s1 =>
      if Ascii.eqb c "'" then
        match s1 with
        | _ :: s2 => find_close s2 (i + 2) depth
        | [] => EscapeAtEnd i
        end
      else if Ascii.eqb c "[" then find_close s1 (i + 1) (depth + 1)
      else if Ascii.eqb c "]" then
        if (depth - 1 =? 0)%nat then Closed i else find_close s1 (i + 1) (depth - 1)
      else find_close s1 (i + 1) depth
  end.

Definition bump (expected : byte) (s : bytes) (pos : nat) : result SpecError nat :=
  match s !! pos with
  | Some b => if Ascii.eqb b expected then Ok (pos + 1) else Err (ExpectedByte expected pos (Some b))
  | None => Err (ExpectedByte expected pos None)
  end.

Definition find_matching_close (s : bytes) (open_pos : nat) : result SpecError nat :=
  match find_close (drop (open_pos + 1) s) (open_pos + 1) 1 with
  | Closed i => Ok i
  | EscapeAtEnd _ => Err TrailingEscape
  | Unclosed => Err (UnbalancedSpecifier open_pos)
  end.

(** * Names *)

(** The loop of [unescape_name]; on bytes, since an escaped character is kept
    as it is. *)
Fixpoint unescape (s : bytes) : bytes :=
  match s with
  | [] => []
  | c :: s1 =>
      if Ascii.eqb c "'" then
        match s1 with
        | d :: s2 => d :: unescape s2
        | [] => []
        end
      else c :: unescape s1
  end.
Definition unescape_name (s : bytes) : bytes := trim (unescape s).

(** Runs of blanks and tabs to one blank. *)
Fixpoint compact_spaces (prev_space : bool) (s : bytes) : bytes :=
  match s with
  | [] => []
  | c :: s =>
      if Ascii.eqb c " " || Ascii.eqb c tab then
        (if prev_space then [] else [" "%char]) ++ compact_spaces true s
      else c :: compact_spaces false s
  end.

Definition parse_special_token (token : bytes) : result SpecError SpecialItem :=
  let compact := to_ascii_lowercase <$> compact_spaces false token in
  let token_is s := eqb_bytes compact (str s) in
  if token_is "#all" then Ok AllItem
  else if token_is "#headers" then Ok Headers
  else if token_is "#data" then Ok Data
  else if token_is "#totals" then Ok Totals
  else if token_is "#this row" then Ok ThisRow
  else Err (UnknownSpecial token).

Fixpoint balanced_inside (s : bytes) (depth : nat) : bool :=
  match s with
  | [] => (depth =? 1)%nat
  | c :: s1 =>
      if Ascii.eqb c "'" then
        match s1 with
        | _ :: s2 => balanced_inside s2 depth
        | [] => (depth =? 1)%nat
        end
      else if Ascii.eqb c "[" then balanced_inside s1 (depth + 1)
      else if Ascii.eqb c "]" then
        if (depth - 1 =? 0)%nat then false else balanced_inside s1 (depth - 1)
      else balanced_inside s1 depth
  end.

Definition strip_outer_brackets (s : bytes) : option bytes :=
  if (length s <? 2) || negb (starts_with "[" s) || negb (ends_with "]" s) then None
  else
    let inner := slice s 1 (length s - 1) in
    if balanced_inside inner 1 then Some inner else None.

Definition parse_at_shorthand (rest : bytes) : result SpecError TableSpecifier :=
  if bool_decide (rest = []) then Ok (Row CurrentRow)
  else
    let trimmed := trim rest in
    let column := default trimmed (strip_outer_brackets trimmed) in
    if bool_decide (column = []) then Err EmptyAfterAt
    else Ok (Combination [SpecItem ThisRow; Column (unescape_name column)]).

(** * Items of a combination *)

Definition is_item_blank (c : byte) : bool :=
  contains c [" "%char; tab; newline].
Definition skip_ws (s : bytes) (pos : nat) : nat :=
  pos + length (span is_item_blank (drop pos s)).1.

Definition bracketed_token_to_specifier (inner : bytes) : result SpecError TableSpecifier :=
  let trimmed := trim inner in
  if bool_decide (trimmed = []) then Err EmptyItem
  else if starts_with "#" trimmed then SpecItem <$> parse_special_token trimmed
  else if starts_with "@" trimmed then
    let rest := trim (drop 1 trimmed) in
    if bool_decide (rest = []) then Ok (SpecItem ThisRow) else parse_at_shorthand rest
  else Ok (Column (unescape_name trimmed)).

Definition build_column_range (lhs rhs : bytes) : result SpecError TableSpecifier :=
  if bool_decide (lhs = []) || bool_decide (rhs = []) then Err EmptyColumn
  else Ok (ColumnRange (unescape_name lhs) (unescape_name rhs)).

Definition build_column_range_from_tokens (a b : bytes) : result SpecError TableSpecifier :=
  let lhs := trim a in
  let rhs := trim b in
  if bool_decide (lhs = []) || bool_decide (rhs = []) then Err EmptyColumn
  else if starts_with "#" lhs || starts_with "@" lhs || starts_with "#" rhs || starts_with "@" rhs
  then Err (SpecialInRange lhs rhs)
  else Ok (ColumnRange (unescape_name lhs) (unescape_name rhs)).

(** The text inside the bracket at [pos], and the index behind it. *)
Definition parse_bracketed_token (s : bytes) (pos : nat) : result SpecError (bytes * nat) :=
  match find_close (drop (pos + 1) s) (pos + 1) 1 with
  | Closed i => Ok (slice s (pos + 1) i, i + 1)
  | EscapeAtEnd i => Err (TrailingItemEscape i)
  | Unclosed => Err (UnbalancedItem pos s)
  end.

Definition parse_item (s : bytes) (pos : nat) : result SpecError (TableSpecifier * nat) :=
  let pos := skip_ws s pos in
  if negb (byte_at s pos "[") then Err (ExpectedItem pos s)
  else
    '(first, pos) ← parse_bracketed_token s pos;
    let after := skip_ws s pos in
    if byte_at s after ":" then
      let pos := skip_ws s (after + 1) in
      if negb (byte_at s pos "[") then Err (ExpectedRangeEnd pos s)
      else
        '(second, pos) ← parse_bracketed_token s pos;
        spec ← build_column_range_from_tokens first second;
        Ok (spec, pos)
    else
      spec ← bracketed_token_to_specifier first;
      Ok (spec, pos).

Fixpoint parse_items (fuel : nat) (s : bytes) (pos : nat) (items : list TableSpecifier)
  : result SpecError (list TableSpecifier) :=
  match fuel with
  | O => Panic
  | S fuel =>
      '(item, pos) ← parse_item s pos;
      let items := items ++ [item] in
      let pos := skip_ws s pos in
      if (length s <=? pos)%nat then Ok items
      else if byte_at s pos "," then parse_items fuel s (skip_ws s (pos + 1)) items
      else Err (ExpectedComma pos s)
  end.

(** Every item takes a byte at least. *)
Definition parse_combination_or_item (content : bytes) : result SpecError TableSpecifier :=
  let pos := skip_ws content 0 in
  if (length content <=? pos)%nat then Ok SpecAll
  else
    items ← parse_items (S (length content)) content pos [];
    match items with
    | [item] => Ok item
    | _ => Ok (Combination items)
    end.

(** * The content of a specifier *)

Record TopLevelScan : Type := {
  has_top_level_bracket : bool;
  has_top_level_comma : bool;
  top_level_colon : option nat
}.

Fixpoint scan_loop (s : bytes) (i depth : nat) (acc : TopLevelScan) : result SpecError TopLevelScan :=
  match s with
  | [] => if (depth =? 0)%nat then Ok acc else Err UnbalancedContent
  | c :: s1 =>
      if Ascii.eqb c "'" then
        match s1 with
        | _ :: s2 => scan_loop s2 (i + 2) depth acc
        | [] => Err DanglingEscape
        end
      else if Ascii.eqb c "[" then
        scan_loop s1 (i + 1) (depth + 1)
          {| has_top_level_bracket := has_top_level_bracket acc || (depth =? 0)%nat;
             has_top_level_comma := has_top_level_comma acc;
             top_level_colon := top_level_colon acc |}
      else if Ascii.eqb c "]" then
        if (depth =? 0)%nat then Err StrayClose else scan_loop s1 (i + 1) (depth - 1) acc
      else if Ascii.eqb c "," && (depth =? 0)%nat then
        scan_loop s1 (i + 1) depth
          {| has_top_level_bracket := has_top_level_bracket acc;
             has_top_level_comma := true;
             top_level_colon := top_level_colon acc |}
      else if Ascii.eqb c ":" && (depth =? 0)%nat && bool_decide (top_level_colon acc = None) then
        scan_loop s1 (i + 1) depth
          {| has_top_level_bracket := has_top_level_bracket acc;
             has_top_level_comma := has_top_level_comma acc;
             top_level_colon := Some i |}
      else scan_loop s1 (i + 1) depth acc
  end.
Definition scan_top_level (s : bytes) : result SpecError TopLevelScan :=
  scan_loop s 0 0
    {| has_top_level_bracket := false; has_top_level_comma := false; top_level_colon := None |}.

Definition parse_content (content : bytes) : result SpecError TableSpecifier :=
  let trimmed := trim content in
  if bool_decide (trimmed = []) then Ok SpecAll
  else if starts_with "@" trimmed then parse_at_shorthand (trim (drop 1 trimmed))
  else
    scan ← scan_top_level trimmed;
    if has_top_level_bracket scan then parse_combination_or_item trimmed
    else if has_top_level_comma scan then Err (UnexpectedComma trimmed)
    else
      match top_level_colon scan with
      | Some i => build_column_range (trim (take i trimmed)) (trim (drop (i + 1) trimmed))
      | None =>
          if starts_with "#" trimmed then SpecItem <$> parse_special_token trimmed
          else Ok (Column (unescape_name trimmed))
      end.

Definition parse_specifier (s : bytes) (pos : nat) : result SpecError (TableSpecifier * nat) :=
  inner_start ← bump "[" s pos;
  close ← find_matching_close s (inner_start - 1);
  spec ← parse_content (slice s inner_start close);
  Ok (spec, close + 1).

Definition parse_full_specifier (input : bytes) : result SpecError (option TableSpecifier) :=
  if bool_decide (input = []) then Ok None
  else
    '(spec, pos) ← parse_specifier input 0;
    if (pos =? length input)%nat then Ok (Some spec) else Err (TrailingContent pos).

(** * Printing *)

Definition show_row (r : TableRowSpecifier) : bytes :=
  match r with
  | CurrentRow => str "@"
  | AllRows => str "#All"
  | DataRows => str "#Data"
  | HeadersRow => str "#Headers"
  | TotalsRow => str "#Totals"
  | RowIndex i => fmt_dec i
  end.

Definition show_special (item : SpecialItem) : bytes :=
  match item with
  | Headers => str "#Headers"
  | Data => str "#Data"
  | Totals => str "#Totals"
  | AllItem => str "#All"
  | ThisRow => str "@"
  end.

Definition bracketed (s : bytes) : bytes := str "[" ++ s ++ str "]".

(** The parts with [","] between them. *)
Fixpoint comma_separated (parts : list bytes) : bytes :=
  match parts with
  | [] => []
  | [p] => p
  | p :: parts => p ++ str "," ++ comma_separated parts
  end.

Fixpoint show_spec (spec : TableSpecifier) : bytes :=
  match spec with
  | SpecAll => str "#All"
  | SpecData => str "#Data"
  | SpecHeaders => str "#Headers"
  | SpecTotals => str "#Totals"
  | Row r => show_row r
  | Column c => c
  | ColumnRange s e => s ++ str ":" ++ e
  | SpecItem item => show_special item
  | Combination specs =>
      comma_separated
        (List.map (λ spec,
           match spec with
           | ColumnRange s e => bracketed s ++ str ":" ++ bracketed e
           | other => bracketed (show_spec other)
           end) specs)
  end.

(** A table reference, with the names of a column or a column range trimmed. *)
Definition show_table (t : TableReference) : bytes :=
  match specifier t with
  | Some (Column c) => table_name t ++ bracketed (trim c)
  | Some (ColumnRange s e) => table_name t ++ bracketed (trim s ++ str ":" ++ trim e)
  | Some spec => table_name t ++ bracketed (show_spec spec)
  | None => table_name t
  end.

Example spec_combination :
  parse_full_specifier (str "[[#Headers], [Col 1]:[Col'] 2]]") =
  Ok (Some (Combination [SpecItem Headers; ColumnRange (str "Col 1") (str "Col] 2")])).
Proof. vm_compute. reflexivity. Qed.
Example spec_this_row :
  parse_full_specifier (str "[@[Amount]]") =
  Ok (Some (Combination [SpecItem ThisRow; Column (str "Amount")])).
Proof. vm_compute. reflexivity. Qed.
