(* ===== verification/StructuredTheorems.v ===== *)
(** The round trip of structured references: printing a specifier and parsing
    the text. *)
From S2P Require Import Prelude Coords Address SheetSpec StructuredRef.

(** * Characters and [trim] *)

(** A byte string is well-formed when its characters are complete, as those of
    every [&str] are. *)
Definition is_char (ch : char) : Prop :=
  match ch with c :: _ => length ch = utf8_len c | [] => False end.
Definition well_formed (s : bytes) : Prop := Forall is_char (chars s).

Lemma utf8_len_pos c : 0 < utf8_len c.
Proof. unfold utf8_len. repeat case_match; lia. Qed.

Lemma chars_go_fuel f s : length s ≤ f → chars_go f s = chars s.
Proof.
  unfold chars. revert s. cut (∀ n s, length s ≤ n → ∀ f, length s ≤ f → chars_go f s = chars_go n s).
  { intros H s Hf. apply (H (length s) s); lia. }
  induction n as [|n IH]; intros s Hn g Hg; [destruct s, g; simpl in *; (done || lia)|].
  destruct s as [|c s]; [by destruct g|]. destruct g as [|g]; [simpl in *; lia|].
  cbn [chars_go]. pose proof (utf8_len_pos c). simpl in *. f_equal.
  apply IH; rewrite length_drop; simpl; lia.
Qed.

Lemma chars_cons c s : chars (c :: s) = take (utf8_len c) (c :: s) :: chars (drop (utf8_len c) (c :: s)).
Proof.
  unfold chars at 1. cbn [length chars_go]. f_equal. apply chars_go_fuel.
  pose proof (utf8_len_pos c). rewrite length_drop. simpl. lia.
Qed.

Lemma concat_chars s : concat (chars s) = s.
Proof.
  induction s as [s IH] using (induction_ltof1 _ length); unfold ltof in IH.
  destruct s as [|c s]; [done|]. rewrite chars_cons. cbn [concat]. rewrite IH; [apply take_drop|].
  pose proof (utf8_len_pos c). rewrite length_drop. simpl. lia.
Qed.

Lemma chars_char ch t : is_char ch → chars (ch ++ t) = ch :: chars t.
Proof.
  destruct ch as [|c ch]; [done|]. intros Hl. cbn [app]. rewrite chars_cons.
  change (c :: ch ++ t) with ((c :: ch) ++ t). unfold is_char in Hl. rewrite <- Hl.
  by rewrite take_app_length, drop_app_length.
Qed.

Lemma chars_app a b : well_formed a → chars (a ++ b) = chars a ++ chars b.
Proof.
  unfold well_formed. intros H. rewrite <- (concat_chars a) at 1.
  induction H as [|ch cs Hc _ IH]; [done|]. cbn [concat]. rewrite <- app_assoc, chars_char by done.
  by rewrite IH.
Qed.

Lemma well_formed_app a b : well_formed a → well_formed b → well_formed (a ++ b).
Proof. intros Ha Hb. unfold well_formed. rewrite chars_app by done. by apply Forall_app. Qed.

Lemma well_formed_ascii s : Forall (λ c, utf8_len c = 1) s → well_formed s.
Proof.
  induction 1 as [|c s Hc _ IH]; [by constructor|]. unfold well_formed.
  rewrite chars_cons, Hc. constructor; [done|exact IH].
Qed.

(** The first and the last character are no blanks. *)
Definition no_edge_blanks (s : bytes) : Prop :=
  (∀ ch, head (chars s) = Some ch → char_is_whitespace ch = false) ∧
  (∀ ch, last (chars s) = Some ch → char_is_whitespace ch = false).

Lemma span_head_false {A} (p : A → bool) l : (∀ x, head l = Some x → p x = false) → span p l = ([], l).
Proof. destruct l as [|x l]; [done|]. simpl. intros H. by rewrite H. Qed.

Lemma trim_id s : no_edge_blanks s → trim s = s.
Proof.
  intros [Hh Hl]. unfold trim, trim_start, trim_end. rewrite (span_head_false _ (chars s)) by done. cbn [snd].
  rewrite concat_chars, span_head_false; cbn [snd].
  - by rewrite reverse_involutive, concat_chars.
  - intros ch Hc. apply Hl. by rewrite <- head_reverse.
Qed.

(** * Printable specifiers *)

(** A byte with no meaning in a specifier. *)
Definition plain_byte (c : byte) : bool := negb (contains c (str "[]',:")).

(** A name that prints as itself. *)
Record simple (name : bytes) : Prop := {
  simple_nonempty : name ≠ [];
  simple_plain : Forall (λ c, plain_byte c = true) name;
  simple_start : starts_with "#" name = false ∧ starts_with "@" name = false;
  simple_wf : well_formed name;
  simple_edges : no_edge_blanks name
}.

Definition printable_item (spec : TableSpecifier) : Prop :=
  match spec with
  | SpecItem _ => True
  | Column c => simple c
  | ColumnRange s e => simple s ∧ simple e
  | _ => False
  end.

Definition printable_spec (spec : TableSpecifier) : Prop :=
  match spec with
  | Row CurrentRow => True
  | SpecItem item => item ≠ ThisRow
  | Column c => simple c
  | ColumnRange s e => simple s ∧ simple e
  | Combination specs => 2 ≤ length specs ∧ Forall printable_item specs
  | _ => False
  end.

(** ** Scanning plain bytes *)

Lemma plain_neq c d : plain_byte c = true → contains d (str "[]',:") = true → Ascii.eqb c d = false.
Proof.
  intros Hc Hd. apply Ascii.eqb_neq. intros ->. unfold plain_byte in Hc. by rewrite Hd in Hc.
Qed.

Lemma find_close_plain s t i depth : Forall (λ c, plain_byte c = true) s →
  find_close (s ++ t) i depth = find_close t (i + length s) depth.
Proof.
  intros Hs. revert i. induction Hs as [|c s Hc _ IH]; intros i; cbn [app length].
  - by rewrite Nat.add_0_r.
  - cbn [find_close]. rewrite !plain_neq by done. rewrite IH. f_equal. lia.
Qed.

Lemma scan_plain s : ∀ i t depth acc, Forall (λ c, plain_byte c = true) s →
  scan_loop (s ++ t) i depth acc = scan_loop t (i + length s) depth acc.
Proof.
  induction s as [|c s IH]; intros i t depth acc Hs; cbn [app length]; [by rewrite Nat.add_0_r|].
  apply Forall_cons in Hs as [Hc Hs]. cbn [scan_loop]. rewrite !plain_neq by done. cbn [andb].
  rewrite IH by done. f_equal. lia.
Qed.

Lemma unescape_plain s : Forall (λ c, plain_byte c = true) s → unescape s = s.
Proof.
  induction 1 as [|c s Hc _ IH]; [done|]. cbn [unescape]. rewrite plain_neq by done. by rewrite IH.
Qed.

Lemma unescape_name_simple c : simple c → unescape_name c = c.
Proof. intros []. unfold unescape_name. by rewrite unescape_plain, trim_id. Qed.

Lemma slice_middle (a b c : bytes) : slice (a ++ b ++ c) (length a) (length a + length b) = b.
Proof.
  unfold slice. rewrite drop_app_length.
  replace (length a + length b - length a) with (length b) by lia. by rewrite take_app_length.
Qed.

(** A whole specifier around plain or bracketed content. *)
Definition balanced (s : bytes) : Prop :=
  ∀ t i, find_close (s ++ t) i 1 = find_close t (i + length s) 1.

Lemma plain_balanced s : Forall (λ c, plain_byte c = true) s → balanced s.
Proof. intros Hs t i. by apply find_close_plain. Qed.

Lemma app_balanced a b : balanced a → balanced b → balanced (a ++ b).
Proof.
  intros Ha Hb t i. rewrite <- app_assoc, Ha, Hb, length_app. f_equal. lia.
Qed.

Lemma byte_balanced c : contains c (str "[]'") = false → balanced [c].
Proof.
  intros Hc t i. assert (Ascii.eqb c "[" = false ∧ Ascii.eqb c "]" = false ∧ Ascii.eqb c "'" = false)
    as (E1 & E2 & E3) by (cbn in Hc; bool_prop in Hc; rewrite !Ascii.eqb_neq in *; tauto).
  cbn [app find_close]. by rewrite E1, E2, E3.
Qed.

Lemma parse_full_bracketed s spec : balanced s → parse_content s = Ok spec →
  parse_full_specifier (bracketed s) = Ok (Some spec).
Proof.
  intros Hs Hp. unfold parse_full_specifier, bracketed. rewrite bool_decide_eq_false_2 by done.
  unfold parse_specifier, bump. cbn [str list_ascii_of_string app lookup list_lookup].
  cbn [Ascii.eqb Bool.eqb andb Nat.add mbind result_bind].
  unfold find_matching_close. cbn [Nat.sub Nat.add drop]. rewrite drop_0, Hs. cbn [find_close].
  cbn [Ascii.eqb Bool.eqb andb Nat.sub Nat.eqb mbind result_bind].
  pose proof (slice_middle ["["%char] s (str "]")) as E. cbn [length app Nat.add str list_ascii_of_string] in *.
  rewrite E, Hp. cbn [mbind result_bind].
  rewrite length_app. cbn [length]. by rewrite Nat.eqb_refl.
Qed.

(** ** Names *)

Lemma simple_trim c : simple c → trim c = c.
Proof. intros []. by apply trim_id. Qed.

Lemma no_edge_app a m b : well_formed a → a ≠ [] → no_edge_blanks a → well_formed m → b ≠ [] →
  no_edge_blanks b → no_edge_blanks (a ++ m ++ b).
Proof.
  intros Ha Hane [Hha _] Hm Hbne [_ Hlb]. rewrite app_assoc. split.
  - rewrite <- app_assoc, chars_app by done. intros ch H. apply Hha.
    destruct a as [|c a]; [done|]. rewrite chars_cons in *. done.
  - rewrite chars_app by by apply well_formed_app. intros ch H. apply Hlb.
    destruct b as [|c b]; [done|]. rewrite chars_cons in *.
    rewrite last_app_cons in H. done.
Qed.

Lemma ascii_wf c : utf8_len c = 1 → well_formed [c].
Proof. intros. by apply well_formed_ascii; repeat constructor. Qed.

(** A bracket at both ends. *)
Lemma bracketed_edges s : well_formed s → no_edge_blanks (bracketed s).
Proof.
  intros Hs. unfold bracketed. split.
  - rewrite chars_app by by apply ascii_wf. by intros ch [= <-].
  - rewrite chars_app by by apply ascii_wf. rewrite chars_app by done.
    change (chars (str "]")) with [str "]"]. rewrite app_assoc, last_snoc. by intros ch [= <-].
Qed.

Lemma content_column c : simple c → parse_content c = Ok (Column c).
Proof.
  intros Hc. pose proof Hc as []. unfold parse_content. rewrite simple_trim by done.
  rewrite bool_decide_eq_false_2 by done. destruct simple_start0 as [H1 H2]. rewrite H2.
  unfold scan_top_level. rewrite <- (app_nil_r c) at 1. rewrite scan_plain by done. cbn.
  by rewrite H1, unescape_name_simple.
Qed.

Lemma starts_app b a s : a ≠ [] → starts_with b (a ++ s) = starts_with b a.
Proof. by destruct a. Qed.

Lemma content_range s e : simple s → simple e → parse_content (s ++ str ":" ++ e) = Ok (ColumnRange s e).
Proof.
  intros Hs He. pose proof Hs as [Hsn Hsp [Hs1 Hs2] Hsw Hse]. pose proof He as [Hen Hep _ Hew Hee].
  unfold parse_content. rewrite trim_id by (apply no_edge_app; done || by apply ascii_wf).
  rewrite bool_decide_eq_false_2 by by destruct s. rewrite !starts_app by done. rewrite Hs2.
  unfold scan_top_level. rewrite scan_plain by done. cbn [str list_ascii_of_string app scan_loop].
  cbn [Ascii.eqb Bool.eqb andb]. cbn.
  rewrite <- (app_nil_r e), scan_plain, app_nil_r by done. cbn.
  rewrite take_app_length, <- drop_drop, drop_app_length. cbn [drop]. rewrite drop_0, !simple_trim by done.
  unfold build_column_range. rewrite !bool_decide_eq_false_2 by done. cbn [orb].
  by rewrite !unescape_name_simple.
Qed.

Lemma content_special item : item ≠ ThisRow → parse_content (show_special item) = Ok (SpecItem item).
Proof. by destruct item. Qed.

(** ** Items *)

Definition show_part (spec : TableSpecifier) : bytes :=
  match spec with
  | ColumnRange s e => bracketed s ++ str ":" ++ bracketed e
  | other => bracketed (show_spec other)
  end.

Lemma show_combination specs :
  show_spec (Combination specs) = comma_separated (List.map show_part specs).
Proof. done. Qed.

Lemma bracketed_token p x t : balanced x →
  parse_bracketed_token (p ++ bracketed x ++ t) (length p) = Ok (x, length p + length (bracketed x)).
Proof.
  intros Hx. unfold parse_bracketed_token, bracketed. rewrite <- !app_assoc.
  cbn [str list_ascii_of_string app]. rewrite <- drop_drop, drop_app_length. cbn [drop].
  rewrite drop_0, Hx. cbn [find_close Ascii.eqb Bool.eqb andb Nat.sub Nat.eqb].
  unfold slice. rewrite <- drop_drop, drop_app_length. cbn [drop]. rewrite drop_0.
  replace (length p + 1 + length x - (length p + 1)) with (length x) by lia.
  rewrite take_app_length. do 2 f_equal. cbn [length]. rewrite length_app. simpl. lia.
Qed.

Lemma skip_ws_stop p s : (∀ c, head s = Some c → is_item_blank c = false) →
  skip_ws (p ++ s) (length p) = length p.
Proof.
  intros H. unfold skip_ws. rewrite drop_app_length, span_head_false by done. simpl. lia.
Qed.

Lemma token_column c : simple c → bracketed_token_to_specifier c = Ok (Column c).
Proof.
  intros Hc. pose proof Hc as [Hn _ [H1 H2] _ _]. unfold bracketed_token_to_specifier.
  rewrite simple_trim, bool_decide_eq_false_2 by done. by rewrite H1, H2, unescape_name_simple.
Qed.

Lemma token_special item : bracketed_token_to_specifier (show_special item) = Ok (SpecItem item).
Proof. by destruct item. Qed.

Lemma range_tokens s e : simple s → simple e → build_column_range_from_tokens s e = Ok (ColumnRange s e).
Proof.
  intros Hs He. pose proof Hs as [Hn _ [H1 H2] _ _]. pose proof He as [Hn' _ [H1' H2'] _ _].
  unfold build_column_range_from_tokens. rewrite !simple_trim, !bool_decide_eq_false_2 by done.
  cbn [orb]. by rewrite H1, H2, H1', H2', !unescape_name_simple.
Qed.

Lemma special_balanced item : balanced (show_special item).
Proof. apply plain_balanced. destruct item; repeat constructor. Qed.

(** What follows an item: nothing, or the next one behind a comma. *)
Definition item_follows (t : bytes) : Prop := t = [] ∨ head t = Some ","%char.

Lemma follows_not_blank t : item_follows t → ∀ c, head t = Some c → is_item_blank c = false.
Proof. intros [->|Ht] c Hc; [done|]. rewrite Ht in Hc. by injection Hc as <-. Qed.

Lemma byte_at_head p t c : byte_at (p ++ t) (length p) c = starts_with c t.
Proof.
  unfold byte_at. rewrite lookup_app_r, Nat.sub_diag by done. by destruct t.
Qed.

Lemma starts_bracketed x t : starts_with "[" (bracketed x ++ t) = true.
Proof. done. Qed.

Lemma parse_single_item p x spec t : balanced x → bracketed_token_to_specifier x = Ok spec →
  item_follows t →
  parse_item (p ++ bracketed x ++ t) (length p) = Ok (spec, length p + length (bracketed x)).
Proof.
  intros Hx Hspec Ht. unfold parse_item.
  rewrite skip_ws_stop, byte_at_head by (by intros c [= <-]).
  rewrite starts_bracketed. cbn [negb]. rewrite bracketed_token by done. cbn [mbind result_bind].
  rewrite <- length_app, app_assoc, skip_ws_stop by by apply follows_not_blank.
  rewrite byte_at_head.
  assert (starts_with ":" t = false) as -> by (by destruct Ht as [->|Ht]; [|destruct t; simplify_eq/=]).
  rewrite Hspec. cbn [mbind result_bind]. by rewrite length_app.
Qed.

Lemma parse_range_item p a b t : simple a → simple b → item_follows t →
  parse_item (p ++ (bracketed a ++ str ":" ++ bracketed b) ++ t) (length p) =
  Ok (ColumnRange a b, length p + length (bracketed a ++ str ":" ++ bracketed b)).
Proof.
  intros Ha Hb Ht. unfold parse_item. rewrite <- !app_assoc.
  rewrite skip_ws_stop, byte_at_head by (by intros c [= <-]).
  rewrite starts_bracketed. cbn [negb]. set (rest := str ":" ++ bracketed b ++ t).
  rewrite bracketed_token by (apply plain_balanced, Ha). cbn [mbind result_bind].
  rewrite <- length_app, app_assoc, skip_ws_stop by (by intros c [= <-]).
  rewrite byte_at_head. change (starts_with ":" rest) with true. cbv iota.
  assert (E : (p ++ bracketed a) ++ rest = ((p ++ bracketed a) ++ str ":") ++ bracketed b ++ t)
    by (by rewrite <- !app_assoc).
  assert (L : length (p ++ bracketed a) + 1 = length ((p ++ bracketed a) ++ str ":"))
    by (by rewrite (length_app _ (str ":"))).
  rewrite E, L, skip_ws_stop, byte_at_head by (by intros c [= <-]).
  rewrite starts_bracketed. cbn [negb]. rewrite bracketed_token by (apply plain_balanced, Hb). cbn [mbind result_bind].
  rewrite range_tokens by done. cbn [mbind result_bind]. do 2 f_equal. rewrite !length_app. lia.
Qed.

Lemma parse_item_shown p item t : printable_item item → item_follows t →
  parse_item (p ++ show_part item ++ t) (length p) = Ok (item, length p + length (show_part item)).
Proof.
  intros Hi Ht. destruct item; try done.
  - by apply parse_single_item; [apply plain_balanced, Hi|apply token_column|].
  - destruct Hi. by apply parse_range_item.
  - by apply parse_single_item; [apply special_balanced|apply token_special|].
Qed.

Lemma comma_cons x y l : comma_separated (x :: y :: l) = x ++ str "," ++ comma_separated (y :: l).
Proof. done. Qed.

Lemma show_part_nonempty item : ∃ s, show_part item = "["%char :: s.
Proof. destruct item; by eexists. Qed.

Lemma parse_items_shown specs : ∀ fuel p acc, specs ≠ [] → length specs ≤ fuel →
  Forall printable_item specs →
  let s := p ++ comma_separated (List.map show_part specs) in
  parse_items fuel s (length p) acc = Ok (acc ++ specs).
Proof.
  induction specs as [|item specs IH]; intros fuel p acc Hne Hf Hs; [done|].
  destruct fuel as [|fuel]; [simpl in Hf; lia|]. apply Forall_cons in Hs as [Hi Hs].
  cbv zeta. cbn [parse_items]. destruct specs as [|next specs].
  - cbn [List.map comma_separated]. pose proof (parse_item_shown p item [] Hi) as H.
    rewrite app_nil_r in H. rewrite H by by left. cbn [mbind result_bind].
    rewrite <- length_app. pose proof (skip_ws_stop (p ++ show_part item) []) as E.
    rewrite app_nil_r in E. rewrite E by done. by rewrite Nat.leb_refl.
  - cbn [List.map]. rewrite comma_cons. rewrite parse_item_shown by (done || by right).
    cbn [mbind result_bind]. rewrite <- length_app, app_assoc.
    set (tail := comma_separated _). rewrite skip_ws_stop, byte_at_head by (by intros c [= <-]).
    cbn [str list_ascii_of_string app starts_with Ascii.eqb Bool.eqb andb].
    rewrite (proj2 (Nat.leb_gt _ _)) by (rewrite (length_app _ (_ :: _)); simpl; lia).
    assert (E : (p ++ show_part item) ++ ","%char :: tail = ((p ++ show_part item) ++ str ",") ++ tail)
      by (by rewrite <- !app_assoc).
    assert (L : length (p ++ show_part item) + 1 = length ((p ++ show_part item) ++ str ","))
      by (by rewrite (length_app _ (str ","))).
    rewrite E, L, skip_ws_stop.
    + subst tail. change (show_part next :: List.map show_part specs) with (List.map show_part (next :: specs)).
      rewrite IH by (done || (simpl in *; lia)). by rewrite <- app_assoc.
    + subst tail. destruct (show_part_nonempty next) as [s Es].
      destruct specs; cbn [List.map comma_separated]; rewrite Es; by intros c [= <-].
Qed.

(** ** Combinations *)

Lemma part_wf item : printable_item item → ∃ a, show_part item = a ++ str "]" ∧ well_formed a.
Proof.
  intros Hi.
  assert (Hx : ∀ x, well_formed x → ∃ a, bracketed x = a ++ str "]" ∧ well_formed a).
  { intros x Hx. exists (str "[" ++ x). unfold bracketed. rewrite <- app_assoc. split; [done|].
    by apply well_formed_app; [apply ascii_wf|]. }
  destruct item; try done; cbn [show_part show_spec].
  - apply Hx, Hi.
  - destruct Hi as [Hs He]. destruct (Hx start) as (a & Ea & Ha); [apply Hs|].
    destruct (Hx end_) as (b & Eb & Hb); [apply He|]. exists ((a ++ str "]") ++ str ":" ++ b).
    rewrite Ea, Eb, <- !app_assoc. split; [done|].
    by repeat apply well_formed_app; try apply ascii_wf.
  - apply Hx, well_formed_ascii. by destruct item; repeat constructor.
Qed.

Lemma combination_wf specs : specs ≠ [] → Forall printable_item specs →
  ∃ a, comma_separated (List.map show_part specs) = a ++ str "]" ∧ well_formed a.
Proof.
  intros Hne Hs. induction Hs as [|item specs Hi Hs IH]; [done|].
  destruct (part_wf item Hi) as (a & Ea & Ha). destruct specs as [|next specs]; [by exists a|].
  destruct IH as (b & Eb & Hb); [done|]. cbn [List.map] in *. rewrite comma_cons, Ea, Eb.
  exists ((a ++ str "]") ++ str "," ++ b). rewrite <- !app_assoc. split; [done|].
  by repeat apply well_formed_app; try apply ascii_wf.
Qed.

Lemma combination_starts specs : specs ≠ [] →
  ∃ s, comma_separated (List.map show_part specs) = "["%char :: s.
Proof.
  destruct specs as [|item specs]; [done|]. intros _. destruct (show_part_nonempty item) as [s Es].
  destruct specs; cbn [List.map comma_separated]; rewrite Es; by eexists.
Qed.

Lemma combination_edges specs : specs ≠ [] → Forall printable_item specs →
  no_edge_blanks (comma_separated (List.map show_part specs)).
Proof.
  intros Hne Hs. split.
  - destruct (combination_starts specs Hne) as [s ->]. rewrite chars_cons. by intros ch [= <-].
  - destruct (combination_wf specs Hne Hs) as (a & -> & Ha). rewrite chars_app by done.
    change (chars (str "]")) with [str "]"]. rewrite last_snoc. by intros ch [= <-].
Qed.

Lemma scan_bracketed x t i acc : Forall (λ c, plain_byte c = true) x →
  ∃ j acc', scan_loop (bracketed x ++ t) i 0 acc = scan_loop t j 0 acc' ∧
    has_top_level_bracket acc' = true.
Proof.
  intros Hx. unfold bracketed. rewrite <- !app_assoc. cbn [str list_ascii_of_string app scan_loop].
  cbn [Ascii.eqb Bool.eqb andb Nat.eqb]. rewrite scan_plain by done. cbn.
  eexists _, _. split; [done|]. apply orb_true_r.
Qed.

Lemma special_plain item : Forall (λ c, plain_byte c = true) (show_special item).
Proof. destruct item; repeat constructor. Qed.

Lemma scan_part item t i acc : printable_item item →
  ∃ j acc', scan_loop (show_part item ++ t) i 0 acc = scan_loop t j 0 acc' ∧
    has_top_level_bracket acc' = true.
Proof.
  intros Hi. destruct item; try done; cbn [show_part show_spec].
  - apply scan_bracketed, Hi.
  - destruct Hi as [Hs He]. rewrite <- !app_assoc.
    destruct (scan_bracketed start (str ":" ++ bracketed end_ ++ t) i acc) as (j & acc1 & -> & H1);
      [apply Hs|].
    cbn [str list_ascii_of_string app scan_loop Ascii.eqb Bool.eqb andb Nat.eqb].
    destruct (bool_decide _); apply scan_bracketed, He.
  - apply scan_bracketed, special_plain.
Qed.

Lemma scan_combination specs : ∀ i acc, specs ≠ [] → Forall printable_item specs →
  ∃ acc', scan_loop (comma_separated (List.map show_part specs)) i 0 acc = Ok acc' ∧
    has_top_level_bracket acc' = true.
Proof.
  induction specs as [|item specs IH]; intros i acc Hne Hs; [done|]. apply Forall_cons in Hs as [Hi Hs].
  destruct specs as [|next specs].
  - destruct (scan_part item [] i acc Hi) as (j & acc' & E & Hb). rewrite app_nil_r in E.
    cbn [List.map comma_separated]. rewrite E. by exists acc'.
  - cbn [List.map]. rewrite comma_cons.
    destruct (scan_part item (str "," ++ comma_separated (List.map show_part (next :: specs))) i acc Hi)
      as (j & acc' & E & _).
    cbn [List.map] in *. rewrite E. cbn [str list_ascii_of_string app scan_loop Ascii.eqb Bool.eqb andb Nat.eqb].
    by apply IH.
Qed.

Lemma comma_length specs : length specs ≤ length (comma_separated (List.map show_part specs)).
Proof.
  induction specs as [|item specs IH]; [done|]. destruct (show_part_nonempty item) as [s Es].
  destruct specs as [|next specs].
  - cbn [List.map comma_separated]. rewrite Es. simpl. lia.
  - cbn [List.map]. rewrite comma_cons, Es. cbn [app length]. rewrite !length_app. cbn [List.map] in IH.
    simpl in *. lia.
Qed.

Lemma bracketed_balanced x : (∀ t i d, find_close (x ++ t) i (S d) = find_close t (i + length x) (S d)) →
  balanced (bracketed x).
Proof.
  intros Hx t i. unfold bracketed. rewrite <- !app_assoc. cbn [str list_ascii_of_string app find_close].
  cbn [Ascii.eqb Bool.eqb andb Nat.add]. rewrite Hx. cbn. f_equal. rewrite length_app. simpl. lia.
Qed.

Lemma part_balanced item : printable_item item → balanced (show_part item).
Proof.
  assert (Hx : ∀ x, Forall (λ c, plain_byte c = true) x → balanced (bracketed x)).
  { intros x Hx. apply bracketed_balanced. intros. by apply find_close_plain. }
  intros Hi. destruct item; try done; cbn [show_part show_spec].
  - apply Hx, Hi.
  - destruct Hi as [Hs He]. apply app_balanced; [apply Hx, Hs|].
    apply app_balanced; [by apply byte_balanced|apply Hx, He].
  - apply Hx, special_plain.
Qed.

Lemma combination_balanced specs : Forall printable_item specs →
  balanced (comma_separated (List.map show_part specs)).
Proof.
  induction 1 as [|item specs Hi Hs IH]; [by apply plain_balanced|].
  destruct specs as [|next specs]; [by apply part_balanced|]. cbn [List.map] in *. rewrite comma_cons.
  apply app_balanced; [by apply part_balanced|]. by apply app_balanced; [apply byte_balanced|].
Qed.

Lemma content_combination specs : 2 ≤ length specs → Forall printable_item specs →
  parse_content (comma_separated (List.map show_part specs)) = Ok (Combination specs).
Proof.
  intros Hl Hs. assert (Hne : specs ≠ []) by (by destruct specs; simpl in *; [lia|]).
  unfold parse_content. rewrite trim_id by by apply combination_edges.
  destruct (combination_starts specs Hne) as [s Es].
  destruct (scan_combination specs 0
    {| has_top_level_bracket := false; has_top_level_comma := false; top_level_colon := None |} Hne Hs)
    as (scan & Hscan & Hb).
  rewrite bool_decide_eq_false_2 by by rewrite Es.
  assert (starts_with "@" (comma_separated (List.map show_part specs)) = false) as -> by by rewrite Es.
  unfold scan_top_level. rewrite Hscan. cbn [mbind result_bind]. rewrite Hb.
  unfold parse_combination_or_item. pose proof (skip_ws_stop [] (comma_separated (List.map show_part specs))) as H0.
  cbn [app length] in H0. rewrite H0 by (rewrite Es; by intros c [= <-]).
  rewrite (proj2 (Nat.leb_gt _ _)) by (rewrite Es; simpl; lia).
  pose proof (parse_items_shown specs (S (length (comma_separated (List.map show_part specs)))) [] []) as H.
  cbn [app length] in H. rewrite H by (done || apply le_S, comma_length). cbn [mbind result_bind].
  by destruct specs as [|a [|b specs]]; simpl in *; [lia|lia|].
Qed.

(** The printed text of a structured-reference specifier is parsed back to the
    specifier: a column, a range of columns, a special item, the current row, or a
    combination of columns, ranges and items. *)
Lemma specifier_shown spec : printable_spec spec →
  parse_full_specifier (bracketed (show_spec spec)) = Ok (Some spec).
Proof.
  destruct spec as [| | | |[]|c|s e|item|specs]; try done.
  - intros Hc. by apply parse_full_bracketed; [apply plain_balanced, Hc|apply content_column].
  - intros [Hs He]. apply parse_full_bracketed; [|by apply content_range].
    apply app_balanced; [apply plain_balanced, Hs|].
    by apply app_balanced; [apply byte_balanced|apply plain_balanced, He].
  - intros Hi. apply parse_full_bracketed; [apply special_balanced|by apply content_special].
  - intros [Hl Hs]. rewrite show_combination.
    apply parse_full_bracketed; [by apply combination_balanced|by apply content_combination].
Qed.

Lemma simple_letters s : s ≠ [] → Forall (λ c, plain_byte c && (utf8_len c =? 1)
  && negb (char_is_whitespace [c]) && negb (contains c (str "#@")) = true) s → simple s.
Proof.
  intros Hne Hs.
  assert (Hwf : well_formed s).
  { apply well_formed_ascii. eapply Forall_impl; [exact Hs|]. intros c Hc. bool_prop in Hc. tauto. }
  assert (Hch : chars s = (λ c, [c]) <$> s).
  { clear Hne Hwf. induction Hs as [|c s Hc _ IH]; [done|]. bool_prop in Hc.
    rewrite chars_cons. destruct Hc as [[[_ ->] _] _]. by rewrite fmap_cons, <- IH. }
  constructor; [done| | |done|].
  - eapply Forall_impl; [exact Hs|]. intros c Hc. bool_prop in Hc. tauto.
  - destruct Hs as [|c s Hc _]; [done|]. bool_prop in Hc. destruct Hc as [_ Hc].
    cbn in Hc. bool_prop in Hc. simpl. rewrite !Ascii.eqb_neq in *. tauto.
  - unfold no_edge_blanks. rewrite Hch. rewrite Forall_forall in Hs. split; intros ch Hc.
    + destruct s as [|c s]; [done|]. injection Hc as <-. specialize (Hs c ltac:(left)).
      bool_prop in Hs. tauto.
    + rewrite fmap_last in Hc. destruct (last s) as [c|] eqn:E; [|done]. injection Hc as <-.
      apply last_Some in E as [l ->]. specialize (Hs c). bool_prop in Hs.
      rewrite elem_of_app, list_elem_of_singleton in Hs. tauto.
Qed.
