(* ===== verification/Reference.v ===== *)
(** Reference texts ([crates/formualizer-parse/src/parser.rs]): the parsers of
    cell, range, 3D, external and table references in both dialects, and the
    canonical printer.

    An error keeps what its message is formatted from, one constructor for each
    message. *)
From S2P Require Import Prelude Coords Address SheetSpec Token StructuredRef.

Local Open Scope Z_scope.

(** * Data *)

(** A cell, or a range with optional bounds; an index comes with its anchor. *)
Record CellPart : Type := { row : Z; col : Z; row_abs : bool; col_abs : bool }.
Record RangePart : Type := {
  start_row : option Z; start_col : option Z; end_row : option Z; end_col : option Z;
  start_row_abs : bool; start_col_abs : bool; end_row_abs : bool; end_col_abs : bool
}.

Inductive ExternalRefKind : Type :=
| ExternalCell (c : CellPart)
| ExternalRange (r : RangePart).

Record ExternalReference : Type := {
  raw : bytes; book : bytes; ext_sheet : bytes; ext_kind : ExternalRefKind
}.

Inductive ReferenceType : Type :=
| Cell (sheet : option bytes) (c : CellPart)
| Range (sheet : option bytes) (r : RangePart)
| Cell3D (sheet_first sheet_last : bytes) (c : CellPart)
| Range3D (sheet_first sheet_last : bytes) (r : RangePart)
| External (e : ExternalReference)
| Table (t : TableReference)
| NamedRange (name : bytes).

#[export] Instance CellPart_eq_dec : EqDecision CellPart.
Proof. solve_decision. Defined.
#[export] Instance RangePart_eq_dec : EqDecision RangePart.
Proof. solve_decision. Defined.
#[export] Instance ExternalRefKind_eq_dec : EqDecision ExternalRefKind.
Proof. solve_decision. Defined.
#[export] Instance ExternalReference_eq_dec : EqDecision ExternalReference.
Proof. solve_decision. Defined.
#[export] Instance ReferenceType_eq_dec : EqDecision ReferenceType.
Proof. solve_decision. Defined.

(** [ParsingError::InvalidReference] of these texts. *)
Inductive ParsingError : Type :=
| InvalidRangePart (part : bytes)
| InvalidRow (row : bytes)
| InvalidColumn (col : bytes)
| InvalidCell (reference : bytes)
| TwoSheetNames (first last ref_part : bytes)
| MissingTarget (first last : bytes)
| TableTarget (first last ref_part : bytes)
| Invalid3DTarget (ref_part : bytes)
| MissingBracket (reference : bytes)
| MissingTableName (reference : bytes)
| InvalidSpecifier (e : SpecError)
| EmptyOpenFormula
| EmptyComponent
| IncompleteComponent
| UnexpectedBracket (component : bytes)
| MissingCoordinate (component : bytes)
| UnterminatedSheet (sheet : bytes)
| MismatchedSheetNames (sheet end_sheet : bytes)
| UnsupportedOpenFormula (reference : bytes)
| ThreeDUnsupported
| TableUnsupported
| A1Invalid (e : A1ParseError)
| AddressInvalid (e : SheetAddressError).

(** * Rows, columns and their text *)

(** [column_to_number] and [number_to_column]; the lookup table holds the
    letters of the first 702 columns. *)
Definition column_to_number (column : bytes) : result ParsingError Z :=
  map_err (λ _, InvalidColumn column) (col_index_from_letters_1based column).

Definition number_to_column (num : Z) : bytes :=
  if num =? 0 then []
  else if num <=? 702 then column_to_letters (num - 1)
  else default [] (ok (col_letters_from_1based num)).

Definition format_col (col : Z) (abs : bool) : bytes :=
  (if abs then str "$" else []) ++ number_to_column col.
Definition format_row (row : Z) (abs : bool) : bytes :=
  (if abs then str "$" else []) ++ fmt_dec row.

(** * Parsing *)

Definition parse_cell_reference (reference : bytes) : result ParsingError CellPart :=
  map_err (λ _, InvalidCell reference)
    ((λ '(row, col, row_abs, col_abs),
        {| row := row; col := col; row_abs := row_abs; col_abs := col_abs |})
      <$> parse_a1_1based reference).

(** A row number behind its anchor: digits to the end, and not zero. *)
Definition parse_row_tail (part rest : bytes) : result ParsingError Z :=
  let '(digits, tail) := span is_ascii_digit rest in
  if bool_decide (digits = []) || bool_decide (tail ≠ []) then Err (InvalidRangePart part)
  else
    row1 ← ok_or (parse_u32 digits) (InvalidRow digits);
    if row1 =? 0 then Err (InvalidRangePart part) else Ok row1.

(** The column and the row of one end of a range, each with its anchor. *)
Definition parse_range_part_with_abs (part : bytes)
  : result ParsingError (option (Z * bool) * option (Z * bool)) :=
  match parse_a1_1based part with
  | Ok (row, col, row_abs, col_abs) => Ok (Some (col, col_abs), Some (row, row_abs))
  | Panic => Panic
  | Err _ =>
      let anchored := starts_with "$" part in
      let rest := if anchored then drop 1 part else part in
      let '(letters, rest) := span is_ascii_alphabetic rest in
      if bool_decide (letters ≠ []) then
        col1 ← column_to_number letters;
        if bool_decide (rest = []) then Ok (Some (col1, anchored), None)
        else
          let row_abs := starts_with "$" rest in
          let rest := if row_abs then drop 1 rest else rest in
          row1 ← parse_row_tail part rest;
          Ok (Some (col1, anchored), Some (row1, row_abs))
      else
        row1 ← parse_row_tail part (if anchored then drop 1 part else part);
        Ok (None, Some (row1, anchored))
  end.

(** The two ends of [ref_part.splitn(2, ':')] as one range. *)
Definition parse_range_part (start end_ : bytes) : result ParsingError RangePart :=
  '(sc, sr) ← parse_range_part_with_abs start;
  '(ec, er) ← parse_range_part_with_abs end_;
  let index (b : option (Z * bool)) := fst <$> b in
  let anchor (b : option (Z * bool)) := match b with Some (_, abs) => abs | None => false end in
  Ok {| start_row := index sr; start_col := index sc; end_row := index er; end_col := index ec;
        start_row_abs := anchor sr; start_col_abs := anchor sc;
        end_row_abs := anchor er; end_col_abs := anchor ec |}.

Definition parse_3d_reference (first last ref_part : bytes) : result ParsingError ReferenceType :=
  if bool_decide (first = []) || bool_decide (last = []) then Err (TwoSheetNames first last ref_part)
  else if bool_decide (ref_part = []) then Err (MissingTarget first last)
  else if contains "[" ref_part then Err (TableTarget first last ref_part)
  else
    match split_at ":" ref_part with
    | Some (start, end_) => Range3D first last <$> parse_range_part start end_
    | None =>
        map_err (λ _, Invalid3DTarget ref_part)
          (Cell3D first last <$> parse_cell_reference ref_part)
    end.

(** An optional [\[-?digits\]]: whether it was there, and the rest; [None] when
    it is malformed. *)
Definition r1c1_offset (s : bytes) : option (bool * bytes) :=
  if starts_with "[" s then
    let s := drop 1 s in
    let s := if starts_with "-" s then drop 1 s else s in
    let '(digits, s) := span is_ascii_digit s in
    if bool_decide (digits = []) || negb (starts_with "]" s) then None else Some (true, drop 1 s)
  else Some (false, s).

Definition is_r1c1_shape (s : bytes) : bool :=
  if negb (starts_with "R" s) then false else
  let '(row_digits, s) := span is_ascii_digit (drop 1 s) in
  match r1c1_offset s with
  | None => false
  | Some (row_offset, s) =>
      if negb (starts_with "C" s) then false else
      let '(col_digits, s) := span is_ascii_digit (drop 1 s) in
      match r1c1_offset s with
      | None => false
      | Some (col_offset, s) =>
          bool_decide (s = []) &&
          (bool_decide (row_digits ≠ []) || row_offset || bool_decide (col_digits ≠ []) || col_offset)
      end
  end.

Definition parse_table_reference (reference : bytes) : result ParsingError ReferenceType :=
  '(name, rest) ← ok_or (split_at "[" reference) (MissingBracket reference);
  let name := trim name in
  if bool_decide (name = []) then Err (MissingTableName reference)
  else
    spec ← map_err InvalidSpecifier (parse_full_specifier ("["%char :: rest));
    Ok (Table {| table_name := name; specifier := spec |}).

Definition parse_bracketed_structured_reference (reference : bytes) : result ParsingError ReferenceType :=
  spec ← map_err InvalidSpecifier (parse_full_specifier reference);
  match spec with
  | Some (Column name) => Ok (Table {| table_name := name; specifier := Some (SpecItem Data) |})
  | other => Ok (Table {| table_name := []; specifier := other |})
  end.

(** [s.rfind(c)]. *)
Definition rfind (c : byte) (s : bytes) : option nat :=
  match split_at c (reverse s) with
  | Some (a, _) => Some (length s - 1 - length a)%nat
  | None => None
  end.

(** The workbook token, up to the first [\]] behind the last [\[], and the sheet
    name behind it. *)
Definition external_sheet (s : bytes) : option (bytes * bytes) :=
  lb ← rfind "[" s;
  '(a, sheet_name) ← split_at "]" (drop lb s);
  if bool_decide (sheet_name = []) then None
  else Some (take (lb + length a + 1) s, sheet_name).

(** A grid reference with the sheet it is on, or in another workbook. *)
Definition grid_reference (reference : bytes) (sheet : option bytes) (kind : ExternalRefKind)
  : ReferenceType :=
  match s ← sheet; external_sheet s with
  | Some (book_token, sheet_name) =>
      External {| raw := reference; book := book_token; ext_sheet := sheet_name; ext_kind := kind |}
  | None =>
      match kind with
      | ExternalCell c => Cell sheet c
      | ExternalRange r => Range sheet r
      end
  end.

Definition parse_excel_reference (reference : bytes) : result ParsingError ReferenceType :=
  if starts_with "[" reference && ends_with "]" reference && negb (contains "!" reference)
  then parse_bracketed_structured_reference reference
  else
    let '(sheet_spec, ref_part) := extract_sheet_spec reference in
    match sheet_spec with
    | SheetSpan first last => parse_3d_reference first last ref_part
    | NoSheet | Single _ =>
        let sheet := match sheet_spec with Single name => Some name | _ => None end in
        if contains "[" ref_part then
          if is_r1c1_shape ref_part then Ok (NamedRange reference)
          else parse_table_reference ref_part
        else
          match split_at ":" ref_part with
          | Some (start, end_) =>
              (λ r, grid_reference reference sheet (ExternalRange r)) <$> parse_range_part start end_
          | None =>
              match parse_cell_reference ref_part with
              | Ok c => Ok (grid_reference reference sheet (ExternalCell c))
              | Err _ => Ok (NamedRange reference)
              | Panic => Panic
              end
          end
    end.

Definition from_string (reference : bytes) : result ParsingError ReferenceType :=
  parse_excel_reference reference.

(** * OpenFormula references *)

Record OpenFormulaRefPart : Type := { of_sheet : option bytes; of_coord : bytes }.

(** [s.trim_start_matches(c)]. *)
Definition trim_start_matches (c : byte) (s : bytes) : bytes := (span (λ x, Ascii.eqb x c) s).2.

(** The index of the first [.] outside quotes, when [s] is the text from index
    [i] on. *)
Fixpoint openformula_separator (in_quotes : bool) (s : bytes) (i : nat) : option nat :=
  match s with
  | [] => None
  | c :: s1 =>
      if Ascii.eqb c "'" then
        match s1 with
        | d :: s2 =>
            if Ascii.eqb d "'" then openformula_separator in_quotes s2 (i + 2)
            else openformula_separator (negb in_quotes) s1 (i + 1)
        | [] => None
        end
      else if Ascii.eqb c "." && negb in_quotes then Some i
      else openformula_separator in_quotes s1 (i + 1)
  end.
Definition find_openformula_sheet_separator (part : bytes) : option nat :=
  openformula_separator false part 0.

Definition normalise_openformula_sheet (sheet : bytes) : result ParsingError bytes :=
  let without_abs := trim_start_matches "$" (trim sheet) in
  if starts_with "'" without_abs then
    if (length without_abs <? 2)%nat || negb (ends_with "'" without_abs)
    then Err (UnterminatedSheet sheet)
    else Ok (halve_quotes (slice without_abs 1 (length without_abs - 1)))
  else Ok without_abs.

Definition parse_openformula_part (part : bytes) : result ParsingError OpenFormulaRefPart :=
  let trimmed := trim part in
  if bool_decide (trimmed = []) then Err EmptyComponent
  else if eqb_bytes trimmed (str ".") then Err IncompleteComponent
  else if starts_with "[" trimmed then Err (UnexpectedBracket trimmed)
  else
    '(sheet, coord_slice) ←
      (if starts_with "." trimmed then Ok (None, trim (drop 1 trimmed))
       else
         match find_openformula_sheet_separator trimmed with
         | Some dot_idx =>
             let coord_part := trim (drop (dot_idx + 1) trimmed) in
             if bool_decide (coord_part = []) then Err (MissingCoordinate trimmed)
             else
               sheet_name ← normalise_openformula_sheet (trim (take dot_idx trimmed));
               Ok (Some sheet_name, coord_part)
         | None => Ok (None, trimmed)
         end);
    let coord := trim (trim_start_matches "." coord_slice) in
    if bool_decide (coord = []) then Err (MissingCoordinate trimmed)
    else Ok {| of_sheet := sheet; of_coord := coord |}.

(** The sheet of both parts, which must agree when both name one. *)
Definition openformula_sheet (start_sheet : option bytes) (end_part : option OpenFormulaRefPart)
  : result ParsingError (option bytes) :=
  match start_sheet, end_part with
  | Some sheet, Some end_ =>
      match of_sheet end_ with
      | Some end_sheet =>
          if bool_decide (end_sheet = sheet) then Ok (Some sheet)
          else Err (MismatchedSheetNames sheet end_sheet)
      | None => Ok (Some sheet)
      end
  | Some sheet, None => Ok (Some sheet)
  | None, Some end_ => Ok (of_sheet end_)
  | None, None => Ok None
  end.

Definition parse_openformula_reference (reference : bytes) : result ParsingError ReferenceType :=
  if starts_with "[" reference && ends_with "]" reference then
    let inner := slice reference 1 (length reference - 1) in
    if bool_decide (inner = []) then Err EmptyOpenFormula
    else
      let '(start_str, end_str) :=
        match split_at ":" inner with
        | Some (s, e) => (s, Some e)
        | None => (inner, None)
        end in
      start_part ← parse_openformula_part start_str;
      end_part ← match end_str with
                 | Some e => Some <$> parse_openformula_part e
                 | None => Ok None
                 end;
      sheet ← openformula_sheet (of_sheet start_part) end_part;
      let prefix := match sheet with Some name => format_a1_sheet_name name ++ str "!" | None => [] end in
      let suffix := match end_part with Some e => str ":" ++ of_coord e | None => [] end in
      parse_excel_reference (prefix ++ of_coord start_part ++ suffix)
  else Err (UnsupportedOpenFormula reference).

Definition from_string_with_dialect (reference : bytes) (dialect : FormulaDialect)
  : result ParsingError ReferenceType :=
  match dialect with
  | Excel => parse_excel_reference reference
  | OpenFormula =>
      match parse_openformula_reference reference with
      | Err _ => parse_excel_reference reference
      | res => res
      end
  end.

(** * Printing *)

Definition show_cell (c : CellPart) : bytes :=
  format_col (col c) (col_abs c) ++ format_row (row c) (row_abs c).

(** One end of a range. *)
Definition show_range_end (col row : option Z) (col_abs row_abs : bool) : bytes :=
  match col, row with
  | Some col, Some row => format_col col col_abs ++ format_row row row_abs
  | Some col, None => format_col col col_abs
  | None, Some row => format_row row row_abs
  | None, None => []
  end.
Definition show_range (r : RangePart) : bytes :=
  show_range_end (start_col r) (start_row r) (start_col_abs r) (start_row_abs r) ++ str ":" ++
  show_range_end (end_col r) (end_row r) (end_col_abs r) (end_row_abs r).

Definition show_sheet (sheet : option bytes) : bytes :=
  match sheet with Some name => format_a1_sheet_name name ++ str "!" | None => [] end.

(** [impl Display for ReferenceType]. *)
Definition show_reference (r : ReferenceType) : bytes :=
  match r with
  | Cell sheet c => show_sheet sheet ++ show_cell c
  | Range sheet r => show_sheet sheet ++ show_range r
  | Cell3D first last c => format_3d_sheet_prefix first last ++ str "!" ++ show_cell c
  | Range3D first last r => format_3d_sheet_prefix first last ++ str "!" ++ show_range r
  | External e => raw e
  | Table t => show_table t
  | NamedRange name => name
  end.
Definition normalise (r : ReferenceType) : bytes := show_reference r.

Definition to_excel_string (r : ReferenceType) : bytes :=
  match r with
  | Table t =>
      match specifier t with
      | Some spec => table_name t ++ bracketed (show_spec spec)
      | None => table_name t
      end
  | r => show_reference r
  end.

Definition normalise_reference (reference : bytes) : result ParsingError bytes :=
  show_reference <$> from_string reference.

(** * Shared addresses *)

Definition axis_bound_from_1based (bound : option (Z * bool)) : result ParsingError (option AxisBound) :=
  match bound with
  | Some (index, abs) => map_err AddressInvalid (Some <$> from_excel_1based index abs)
  | None => Ok None
  end.

Definition sheet_locator (sheet : option bytes) : SheetLocator :=
  match sheet with Some name => Name name | None => Current end.

Definition parse_excel_sheet_ref (reference : bytes) : result ParsingError SheetRef :=
  let '(spec, ref_part) := extract_sheet_spec reference in
  match spec with
  | SheetSpan _ _ => Err ThreeDUnsupported
  | NoSheet | Single _ =>
      let sheet := match spec with Single name => Some name | _ => None end in
      if contains "[" ref_part then Err TableUnsupported
      else
        match split_at ":" ref_part with
        | Some (start, end_) =>
            '(sc, sr) ← parse_range_part_with_abs start;
            '(ec, er) ← parse_range_part_with_abs end_;
            sc ← axis_bound_from_1based sc;
            sr ← axis_bound_from_1based sr;
            ec ← axis_bound_from_1based ec;
            er ← axis_bound_from_1based er;
            SheetRange <$> map_err AddressInvalid (from_parts (sheet_locator sheet) sr sc er ec)
        | None =>
            '(row, col, row_abs, col_abs) ← map_err A1Invalid (parse_a1_1based ref_part);
            coord ← RelativeCoord.new (row - 1) (col - 1) row_abs col_abs;
            Ok (SheetCell {| cell_sheet := sheet_locator sheet; coord := coord |})
        end
  end.

(** [parse_openformula_sheet_ref] is [parse_excel_sheet_ref]. *)
Definition parse_sheet_ref_with_dialect (reference : bytes) (dialect : FormulaDialect)
  : result ParsingError SheetRef :=
  match dialect with
  | Excel => parse_excel_sheet_ref reference
  | OpenFormula =>
      match parse_excel_sheet_ref reference with
      | Err _ => parse_excel_sheet_ref reference
      | res => res
      end
  end.

(** A bound of a range as a zero-based one; the outer [None] is an early return. *)
Definition lossy_bound (index : option Z) (abs : bool) : option (option AxisBound) :=
  match index with
  | None => Some None
  | Some v => i ← (v -? 1)%u32; Some (Some {| index := i; abs := abs |})
  end.

(** [Panic] is the failed assertion of [RelativeCoord::new]. *)
Definition to_sheet_ref_lossy (r : ReferenceType) : result Empty_set (option SheetRef) :=
  match r with
  | Cell sheet c =>
      match (row c -? 1)%u32, (col c -? 1)%u32 with
      | Some row0, Some col0 =>
          coord ← RelativeCoord.new row0 col0 (row_abs c) (col_abs c);
          Ok (Some (SheetCell {| cell_sheet := sheet_locator sheet; coord := coord |}))
      | _, _ => Ok None
      end
  | Range sheet r =>
      Ok (sr ← lossy_bound (start_row r) (start_row_abs r);
          sc ← lossy_bound (start_col r) (start_col_abs r);
          er ← lossy_bound (end_row r) (end_row_abs r);
          ec ← lossy_bound (end_col r) (end_col_abs r);
          SheetRange <$> ok (from_parts (sheet_locator sheet) sr sc er ec))
  | _ => Ok None
  end.

Example ref_range :
  from_string (str "'It''s'!$A1:B$2") =
  Ok (Range (Some (str "It's"))
        {| start_row := Some 1; start_col := Some 1; end_row := Some 2; end_col := Some 2;
           start_row_abs := false; start_col_abs := true; end_row_abs := true; end_col_abs := false |}).
Proof. vm_compute. reflexivity. Qed.
Example ref_table :
  from_string (str "Sales[[#Headers],[Q1]:[Q4]]") =
  Ok (Table {| table_name := str "Sales";
               specifier := Some (Combination [SpecItem Headers; ColumnRange (str "Q1") (str "Q4")]) |}).
Proof. vm_compute. reflexivity. Qed.
Example ref_openformula :
  from_string_with_dialect (str "[$'My Sheet'.A1:.B2]") OpenFormula = from_string (str "'My Sheet'!A1:B2").
Proof. vm_compute. reflexivity. Qed.
Example ref_external :
  show_reference <$> from_string (str "[1]Sheet1!A1") = Ok (str "[1]Sheet1!A1").
Proof. vm_compute. reflexivity. Qed.
