(* ===== verification/ReferenceTheorems.v ===== *)
(** Reference texts: the round trip of the canonical printer, and the bounds of
    what the parsers accept. *)
From S2P Require Import Prelude Coords Address SheetSpec Token StructuredRef StructuredTheorems Reference.

Local Open Scope Z_scope.

(** * The bytes of a grid reference *)

Definition grid_byte (c : byte) : bool :=
  is_ascii_alphabetic c || is_ascii_digit c || Ascii.eqb c "$".

Abbreviation grid_text := (Forall (λ c, grid_byte c = true)).

Lemma contains_app c (a b : bytes) : contains c (a ++ b) = contains c a || contains c b.
Proof. apply existsb_app. Qed.

Lemma grid_contains c s : grid_text s → grid_byte c = false → contains c s = false.
Proof.
  intros Hs Hc. apply not_true_iff_false. intros (d & Hd & E)%existsb_exists.
  apply Ascii.eqb_eq in E as ->. rewrite List.Forall_forall in Hs. apply Hs in Hd. congruence.
Qed.

Lemma split_at_none c s : contains c s = false → split_at c s = None.
Proof. intros H. unfold split_at. by rewrite span_all by by apply no_byte. Qed.

Lemma split_at_first c a b : contains c a = false → split_at c (a ++ c :: b) = Some (a, b).
Proof.
  intros H. unfold split_at. rewrite span_exact; [done|by apply no_byte|].
  simpl. by rewrite Ascii.eqb_refl.
Qed.

Lemma anchor_grid b : grid_text (anchor b).
Proof. destruct b; repeat constructor. Qed.
Lemma letters_grid s : Forall (λ c, is_ascii_alphabetic c = true) s → grid_text s.
Proof. intros H. apply (Forall_impl _ _ _ H). intros c Hc. unfold grid_byte. by rewrite Hc. Qed.
Lemma digits_grid s : Forall (λ c, is_ascii_digit c = true) s → grid_text s.
Proof.
  intros H. apply (Forall_impl _ _ _ H). intros c Hc. unfold grid_byte. by rewrite Hc, orb_true_r.
Qed.
#[local] Hint Resolve anchor_grid letters_grid digits_grid : formualizer.

(** * Columns and rows *)

Definition valid_col (c : Z) : Prop := 1 ≤ c ≤ COL_MAX_1BASED.
Definition valid_row (r : Z) : Prop := 1 ≤ r ≤ u32_max.

Lemma number_to_column_letters c : valid_col c → number_to_column c = column_to_letters (c - 1).
Proof.
  unfold valid_col. grid_simpl. intros Hc. unfold number_to_column, col_letters_from_1based.
  destruct (Z.eqb_spec c 0); [lia|]. destruct (Z.leb_spec c 702); [done|].
  change COL_MAX_1BASED with 16384. by destruct (Z.ltb_spec 16384 c); [lia|].
Qed.

Lemma column_text c : valid_col c →
  number_to_column c ≠ [] ∧ Forall (λ b, is_ascii_alphabetic b = true) (number_to_column c) ∧
  letters_to_column_index (number_to_column c) = Some (c - 1) ∧
  column_to_number (number_to_column c) = Ok c.
Proof.
  intros Hc. rewrite number_to_column_letters by done. unfold valid_col in Hc.
  assert (HL : Forall (λ b, is_ascii_alphabetic b = true) (column_to_letters (c - 1))).
  { apply uppercase_alphabetic, column_letters_upper; [grid_simpl; lia|constructor]. }
  assert (Hne : column_to_letters (c - 1) ≠ []) by (apply column_to_letters_nonempty; by right).
  assert (Hi : letters_to_column_index (column_to_letters (c - 1)) = Some (c - 1))
    by (apply letters_column; grid_simpl; unfold u32_max; lia).
  split_and!; try done. unfold column_to_number.
  by rewrite (proj2 (col_index_ok _ c HL Hne)) by done.
Qed.

Lemma row_text r : valid_row r → Forall (λ b, is_ascii_digit b = true) (fmt_dec r) ∧
  fmt_dec r ≠ [] ∧ parse_u32 (fmt_dec r) = Some r.
Proof.
  intros Hr. unfold valid_row in Hr. split_and!.
  - apply fmt_dec_digits. lia.
  - apply fmt_dec_nonempty.
  - apply parse_u32_fmt_dec. unfold in_u32. lia.
Qed.

(** * Ends of ranges *)

Lemma parse_a1_total s : parse_a1_components s ≠ Panic.
Proof.
  unfold parse_a1_components, col_index_from_letters_1based. no_panic.
Qed.

Lemma part_both c r ca ra : valid_col c → valid_row r →
  parse_range_part_with_abs (format_col c ca ++ format_row r ra) = Ok (Some (c, ca), Some (r, ra)).
Proof.
  intros Hc Hr. destruct (column_text c Hc) as (HL0 & HL & HLi & HLc).
  destruct (row_text r Hr) as (HN & HN0 & HNr).
  change (format_col c ca ++ format_row r ra) with
    ((anchor ca ++ number_to_column c) ++ anchor ra ++ fmt_dec r).
  rewrite <- app_assoc. fold (a1_text ca (number_to_column c) ra (fmt_dec r)).
  set (L := number_to_column c) in *. set (N := fmt_dec r) in *.
  assert (HS : a1_shape L N) by done.
  unfold parse_range_part_with_abs, parse_a1_1based.
  destruct (parse_a1_components (a1_text ca L ra N)) as [[[[row col] ra'] ca']|e|] eqn:E;
    [|clear E|by apply parse_a1_total in E].
  { rewrite parse_a1_text in E by done. apply result_bind_ok in E as ([r' c'] & Hv & [= <- <- <- <-]).
    apply a1_value_ok in Hv as (Hc' & _ & Hr' & _); [|done].
    rewrite HLi in Hc'. rewrite HNr in Hr'. injection Hc' as Hc'. injection Hr' as ->.
    do 4 f_equal. lia. }
  unfold a1_text. assert (EL : starts_with "$" (L ++ anchor ra ++ N) = false).
  { destruct HL as [|x L' Hx]; [done|]. simpl. apply Ascii.eqb_neq. by intros ->. }
  destruct (anchor_starts ca _ EL) as [-> ->].
  assert (EN : starts_with "$" N = false) by (by apply (head_not_dollar is_ascii_digit)).
  rewrite (span_exact _ L) by
    (done || (destruct ra; [done|]; destruct HN; [done|]; by apply digit_not_alphabetic)).
  rewrite (bool_decide_eq_true_2 (L ≠ [])), HLc by done. cbn [mbind result_bind].
  rewrite (bool_decide_eq_false_2 (_ = [])) by (by destruct ra, N).
  destruct (anchor_starts ra _ EN) as [-> ->].
  unfold parse_row_tail. rewrite span_all by done.
  rewrite (bool_decide_eq_false_2 (N = [])), (bool_decide_eq_false_2 ([] ≠ [])) by congruence.
  cbn [orb]. rewrite HNr. cbn. unfold valid_row in Hr. by destruct (Z.eqb_spec r 0); [lia|].
Qed.

(** A text without digits, or without letters, is no A1 reference. *)
Lemma a1_needs_both s ca L ra N : s = a1_text ca L ra N → a1_shape L N →
  existsb is_ascii_alphabetic s = true ∧ existsb is_ascii_digit s = true.
Proof.
  intros -> (HL0 & HL & HN0 & HN). unfold a1_text. rewrite !existsb_app.
  destruct HL as [|x L Hx]; [done|]. destruct HN as [|y N Hy]; [done|]. simpl.
  rewrite Hx, Hy. by rewrite !orb_true_r.
Qed.

Lemma a1_rejects s : existsb is_ascii_alphabetic s = false ∨ existsb is_ascii_digit s = false →
  ∃ e, parse_a1_components s = Err e.
Proof.
  intros Hs. destruct (parse_a1_components s) as [q|e|] eqn:E; [|by eexists|by apply parse_a1_total in E].
  apply parse_a1_shape in E as (ca & L & ra & N & Es & HS).
  destruct (a1_needs_both _ _ _ _ _ Es HS) as [H1 H2]. rewrite H1, H2 in Hs. by destruct Hs.
Qed.

Lemma forall_existsb (p q : byte → bool) s : Forall (λ c, p c = true) s →
  (∀ c, p c = true → q c = false) → existsb q s = false.
Proof. intros Hs Hq. induction Hs as [|c s Hc _ IH]; [done|]. simpl. by rewrite (Hq c Hc). Qed.

Lemma alphabetic_not_digit c : is_ascii_alphabetic c = true → is_ascii_digit c = false.
Proof.
  intros Hc. apply not_true_iff_false. intros Hd%digit_not_alphabetic. congruence.
Qed.

Lemma part_column c ca : valid_col c →
  parse_range_part_with_abs (format_col c ca) = Ok (Some (c, ca), None).
Proof.
  intros Hc. destruct (column_text c Hc) as (HL0 & HL & _ & HLc).
  change (format_col c ca) with (anchor ca ++ number_to_column c).
  set (L := number_to_column c) in *. unfold parse_range_part_with_abs, parse_a1_1based.
  destruct (a1_rejects (anchor ca ++ L)) as [e ->].
  { right. rewrite existsb_app, (forall_existsb is_ascii_alphabetic _ L) by
      (done || apply alphabetic_not_digit). by destruct ca. }
  assert (EL : starts_with "$" L = false) by (by apply (head_not_dollar is_ascii_alphabetic)).
  destruct (anchor_starts ca _ EL) as [-> ->]. rewrite span_all by done.
  by rewrite (bool_decide_eq_true_2 (L ≠ [])), HLc by done.
Qed.

Lemma part_row r ra : valid_row r →
  parse_range_part_with_abs (format_row r ra) = Ok (None, Some (r, ra)).
Proof.
  intros Hr. destruct (row_text r Hr) as (HN & HN0 & HNr).
  change (format_row r ra) with (anchor ra ++ fmt_dec r).
  set (N := fmt_dec r) in *. unfold parse_range_part_with_abs, parse_a1_1based.
  destruct (a1_rejects (anchor ra ++ N)) as [e ->].
  { left. rewrite existsb_app, (forall_existsb is_ascii_digit _ N) by
      (done || apply digit_not_alphabetic). by destruct ra. }
  assert (EN : starts_with "$" N = false) by (by apply (head_not_dollar is_ascii_digit)).
  destruct (anchor_starts ra _ EN) as [-> ->].
  assert (Es : span is_ascii_alphabetic N = ([], N)).
  { destruct HN as [|x N' Hx]; [done|]. simpl. by rewrite digit_not_alphabetic. }
  rewrite Es. rewrite (bool_decide_eq_false_2 ([] ≠ [])) by congruence. unfold parse_row_tail.
  rewrite span_all by done.
  rewrite (bool_decide_eq_false_2 (N = [])), (bool_decide_eq_false_2 ([] ≠ [])) by congruence.
  cbn [orb]. rewrite HNr. cbn. unfold valid_row in Hr. by destruct (Z.eqb_spec r 0); [lia|].
Qed.

(** * The round trip of grid references *)

Definition valid_cell (c : CellPart) : Prop :=
  1 ≤ row c ≤ ROW_MAX_1BASED ∧ valid_col (col c).

(** An end of a range has a column or a row, and no anchor without an index. *)
Definition valid_end (col row : option Z) (col_abs row_abs : bool) : Prop :=
  match col with Some c => valid_col c | None => col_abs = false end ∧
  match row with Some r => valid_row r | None => row_abs = false end ∧
  (col ≠ None ∨ row ≠ None).

Definition valid_range (r : RangePart) : Prop :=
  valid_end (start_col r) (start_row r) (start_col_abs r) (start_row_abs r) ∧
  valid_end (end_col r) (end_row r) (end_col_abs r) (end_row_abs r).

Definition valid_name (name : bytes) : Prop := name ≠ [] ∧ no_line_breaks name.
Definition valid_sheet (sheet : option bytes) : Prop :=
  match sheet with Some name => valid_name name ∧ contains "[" name = false | None => True end.

(** A table with a specifier, whose text is not taken for an R1C1 offset. *)
Definition valid_table (t : TableReference) : Prop :=
  table_name t ≠ [] ∧ no_edge_blanks (table_name t) ∧ contains "[" (table_name t) = false ∧
  (∃ spec, specifier t = Some spec ∧ printable_spec spec) ∧
  contains "!" (show_table t) = false ∧ is_r1c1_shape (show_table t) = false.

(** The references the printer has a text for that denotes them. *)
Definition printable (r : ReferenceType) : Prop :=
  match r with
  | Cell sheet c => valid_sheet sheet ∧ valid_cell c
  | Range sheet r => valid_sheet sheet ∧ valid_range r
  | Cell3D first last c => valid_name first ∧ valid_name last ∧ valid_cell c
  | Range3D first last r => valid_name first ∧ valid_name last ∧ valid_range r
  | Table t => valid_table t
  | External _ | NamedRange _ => False
  end.

Lemma cell_row_valid r : 1 ≤ r ≤ ROW_MAX_1BASED → valid_row r.
Proof. unfold valid_row. grid_simpl. unfold u32_max. lia. Qed.

Lemma col_grid c ca : valid_col c → grid_text (format_col c ca).
Proof. intros Hc. apply Forall_app. split; [apply (anchor_grid ca)|]. by apply letters_grid, column_text. Qed.
Lemma row_grid r ra : valid_row r → grid_text (format_row r ra).
Proof. intros Hr. apply Forall_app. split; [apply (anchor_grid ra)|]. by apply digits_grid, row_text. Qed.
#[local] Hint Resolve cell_row_valid col_grid row_grid : formualizer.

Lemma cell_grid c : valid_cell c → grid_text (show_cell c).
Proof. intros [Hr Hc]. apply Forall_app. auto with formualizer. Qed.

Lemma end_grid col row ca ra : valid_end col row ca ra → grid_text (show_range_end col row ca ra).
Proof.
  intros (Hc & Hr & _). unfold show_range_end. destruct col, row; auto with formualizer.
  apply Forall_app. auto with formualizer.
Qed.

Lemma part_end col row ca ra : valid_end col row ca ra →
  ∃ c r, parse_range_part_with_abs (show_range_end col row ca ra) = Ok (c, r) ∧
    fst <$> c = col ∧ fst <$> r = row ∧
    match c with Some (_, a) => a | None => false end = ca ∧
    match r with Some (_, a) => a | None => false end = ra.
Proof.
  intros (Hc & Hr & Hsome). unfold show_range_end. destruct col as [c|], row as [r|].
  - rewrite part_both by done. by eexists _, _.
  - rewrite part_column by done. by eexists _, _.
  - rewrite part_row by done. by eexists _, _.
  - by destruct Hsome.
Qed.

Lemma range_part_shown r : valid_range r →
  parse_range_part (show_range_end (start_col r) (start_row r) (start_col_abs r) (start_row_abs r))
    (show_range_end (end_col r) (end_row r) (end_col_abs r) (end_row_abs r)) = Ok r.
Proof.
  intros [Hs He]. unfold parse_range_part.
  destruct (part_end _ _ _ _ Hs) as (c1 & r1 & -> & E1 & E2 & E3 & E4).
  destruct (part_end _ _ _ _ He) as (c2 & r2 & -> & F1 & F2 & F3 & F4).
  cbn. rewrite E1, E2, E3, E4, F1, F2, F3, F4. by destruct r.
Qed.

Lemma cell_shown c : valid_cell c → parse_cell_reference (show_cell c) = Ok c.
Proof.
  intros [Hr Hc]. unfold parse_cell_reference, parse_a1_1based.
  destruct (column_text (col c) Hc) as (HL0 & HL & HLi & _).
  destruct (row_text (row c) (cell_row_valid _ Hr)) as (HN & HN0 & HNr).
  assert (E : parse_a1_components (show_cell c) = Ok (row c, col c, row_abs c, col_abs c)).
  { apply parse_a1_iff. exists (number_to_column (col c)), (fmt_dec (row c)).
    split; [|split; [done|by unfold valid_col in Hc]].
    unfold show_cell, a1_text, format_col. by rewrite <- app_assoc. }
  rewrite E. by destruct c.
Qed.

(** What the target of a reference looks like: grid bytes, and a colon for a
    range. *)
Lemma range_bytes x r : valid_range r → grid_byte x = false → x ≠ ":"%char → contains x (show_range r) = false.
Proof.
  intros [Hs He] Hx Hc. unfold show_range. rewrite !contains_app.
  rewrite !(grid_contains x (show_range_end _ _ _ _)) by (done || by apply end_grid).
  cbn. apply Ascii.eqb_neq in Hc. by rewrite Hc.
Qed.

Lemma range_split r : valid_range r → split_at ":" (show_range r) =
  Some (show_range_end (start_col r) (start_row r) (start_col_abs r) (start_row_abs r),
        show_range_end (end_col r) (end_row r) (end_col_abs r) (end_row_abs r)).
Proof. intros [Hs _]. apply split_at_first. by apply grid_contains; [apply end_grid|]. Qed.

Lemma starts_contains c s : contains c s = false → starts_with c s = false.
Proof.
  destruct s as [|d s]; [done|]. intros [H _]%orb_false_iff. simpl.
  rewrite Ascii.eqb_sym. exact H.
Qed.

(** [parse_excel_reference] behind the sheet part. *)
Definition target (reference : bytes) (sheet : option bytes) (ref_part : bytes)
  : result ParsingError ReferenceType :=
  match split_at ":" ref_part with
  | Some (start, end_) =>
      (λ r, grid_reference reference sheet (ExternalRange r)) <$> parse_range_part start end_
  | None =>
      match parse_cell_reference ref_part with
      | Ok c => Ok (grid_reference reference sheet (ExternalCell c))
      | Err _ => Ok (NamedRange reference)
      | Panic => Panic
      end
  end.

Lemma grid_on_sheet reference sheet kind : valid_sheet sheet →
  grid_reference reference sheet kind =
  match kind with ExternalCell c => Cell sheet c | ExternalRange r => Range sheet r end.
Proof.
  intros Hs. unfold grid_reference. destruct sheet as [name|]; [|done]. simpl in *.
  assert (rfind "[" name = None) as E; [|unfold external_sheet; by rewrite E].
  unfold rfind. rewrite split_at_none; [done|]. destruct Hs as [_ Hs].
  apply not_true_iff_false. intros (d & Hd & E)%existsb_exists. apply not_true_iff_false in Hs.
  apply Hs, existsb_exists. exists d. split; [|done]. by apply list_elem_of_In, elem_of_reverse, list_elem_of_In.
Qed.

Lemma parse_on_sheet sheet part : valid_sheet sheet →
  contains "!" part = false → contains "[" part = false →
  parse_excel_reference (show_sheet sheet ++ part) = target (show_sheet sheet ++ part) sheet part.
Proof.
  intros Hs Hb Hl. unfold parse_excel_reference. destruct sheet as [name|]; simpl in Hs.
  - destruct Hs as [[Hne Hn] _]. cbn [show_sheet].
    rewrite <- app_assoc. cbn [str list_ascii_of_string app].
    rewrite contains_app. cbn [contains existsb Ascii.eqb Bool.eqb andb orb].
    rewrite orb_true_r, andb_false_r, extract_printed_sheet by done. by rewrite Hl.
  - cbn [show_sheet app]. rewrite starts_contains by done. cbn [andb].
    rewrite extract_no_sheet by done. by rewrite Hl.
Qed.

Lemma parse_on_span first last part : valid_name first → valid_name last →
  parse_excel_reference (format_3d_sheet_prefix first last ++ str "!" ++ part) =
  parse_3d_reference first last part.
Proof.
  intros [Hf Hfn] [Hl Hln]. unfold parse_excel_reference. cbn [str list_ascii_of_string app].
  rewrite contains_app. cbn [contains existsb Ascii.eqb Bool.eqb andb orb].
  by rewrite orb_true_r, andb_false_r, extract_printed_span by done.
Qed.

Lemma show_cell_nonempty c : valid_cell c → show_cell c ≠ [].
Proof.
  intros [_ Hc] H. unfold show_cell, format_col in H.
  apply app_eq_nil in H as [H _]. apply app_eq_nil in H as [_ H]. by apply column_text in H.
Qed.

Lemma show_table_spec t spec : specifier t = Some spec → printable_spec spec →
  show_table t = table_name t ++ bracketed (show_spec spec).
Proof.
  intros E Hs. unfold show_table. rewrite E. destruct spec; try done; simpl in Hs.
  - by rewrite simple_trim.
  - by rewrite !simple_trim by apply Hs.
Qed.

Lemma table_shown t : valid_table t → parse_excel_reference (show_table t) = Ok (Table t).
Proof.
  intros (Hne & Hedge & Hl & (spec & E & Hs) & Hb & Hr).
  pose proof (show_table_spec t spec E Hs) as Hshow.
  unfold parse_excel_reference. rewrite extract_no_sheet by done. rewrite Hr.
  assert (starts_with "[" (show_table t) = false) as ->.
  { rewrite Hshow, starts_app by done. by apply starts_contains. }
  assert (contains "[" (show_table t) = true) as ->.
  { rewrite Hshow, contains_app. apply orb_true_r. }
  cbn [andb]. rewrite Hshow. unfold parse_table_reference.
  change (table_name t ++ bracketed (show_spec spec)) with
    (table_name t ++ "["%char :: show_spec spec ++ str "]").
  rewrite split_at_first by done. cbn [ok_or mbind result_bind].
  rewrite trim_id, bool_decide_eq_false_2 by done.
  change ("["%char :: show_spec spec ++ str "]") with (bracketed (show_spec spec)).
  rewrite specifier_shown by done. cbn [map_err mbind result_bind]. rewrite <- E. by destruct t.
Qed.

(** C6: the canonical text of a printable reference is parsed back to the reference.  Printable are:
    - a cell of the grid and a range of which each end has a column of the grid or a nonzero [u32] row,
      or both, and no anchor without an index (rows, columns, anchors and open bounds come back), on no
      sheet, on a sheet, or on a span of sheets.  Sheet names are not empty and have no tab and no line
      break (the printer leaves those unquoted, and the parser ends a bare name at them), and the name of
      a single sheet has no opening bracket, which would name another workbook; any other name, quoted
      where needed, comes back;
    - a table reference whose specifier is a column, a range of columns, a special item other than This
      Row, the current row, or a combination of at least two columns, ranges and items (a bare table and
      the other specifiers are not covered).  Column names are well-formed texts, not empty, without
      blanks at their edges, without brackets, quote, comma or colon, and do not start with a hash or an
      at sign.  The table's name is not empty and has no blanks at its edges and no opening bracket, and
      the text of the reference has no exclamation mark and does not have the shape of an R1C1 offset. *)
Theorem reference_roundtrip r : printable r → from_string (show_reference r) = Ok r.
Proof.
  unfold from_string. destruct r as [s c|s r|f l c|f l r|e|t|n]; cbn [printable show_reference]; try done;
    [..|apply table_shown].
  - intros [Hs Hc]. pose proof (cell_grid c Hc) as Hg.
    rewrite parse_on_sheet by (done || by apply grid_contains). unfold target.
    rewrite split_at_none by by apply grid_contains. by rewrite cell_shown, grid_on_sheet.
  - intros [Hs Hr]. rewrite parse_on_sheet by (done || by apply range_bytes). unfold target.
    rewrite range_split by done. rewrite range_part_shown by done. cbn. by rewrite grid_on_sheet.
  - intros (Hf & Hl & Hc). pose proof (cell_grid c Hc) as Hg. rewrite parse_on_span by done.
    unfold parse_3d_reference. destruct Hf as [Hf _], Hl as [Hl _].
    rewrite !bool_decide_eq_false_2 by (done || by apply show_cell_nonempty). cbn [orb].
    rewrite grid_contains, split_at_none by (done || by apply grid_contains). by rewrite cell_shown.
  - intros (Hf & Hl & Hr). rewrite parse_on_span by done.
    unfold parse_3d_reference. destruct Hf as [Hf _], Hl as [Hl _].
    rewrite (bool_decide_eq_false_2 (f = [])), (bool_decide_eq_false_2 (l = [])) by done.
    rewrite (bool_decide_eq_false_2 (show_range r = [])) by (unfold show_range; by destruct (show_range_end _ _ _ _)).
    cbn [orb]. rewrite range_bytes, range_split by done. by rewrite range_part_shown.
Qed.

(** * What the parsers accept *)

(** ** Structured references terminate *)

Lemma find_close_bounds s : ∀ i depth j, find_close s i depth = Closed j → (i ≤ j < i + length s)%nat.
Proof.
  induction s as [s IH] using (induction_ltof1 _ length); unfold ltof in IH.
  intros i depth j. destruct s as [|c s]; [done|]. cbn [find_close length].
  destruct (Ascii.eqb c "'").
  { destruct s as [|d s]; [done|]. intros H. apply IH in H; simpl in *; lia. }
  destruct (Ascii.eqb c "["); [intros H; apply IH in H; simpl in *; lia|].
  destruct (Ascii.eqb c "]"); [|intros H; apply IH in H; simpl in *; lia].
  destruct (_ =? 0)%nat; [intros [= ->]; lia|]. intros H. apply IH in H; simpl in *; lia.
Qed.

Lemma skip_ws_le s pos : (pos ≤ skip_ws s pos)%nat.
Proof. unfold skip_ws. lia. Qed.

Lemma bracketed_token_progress s pos inner p : parse_bracketed_token s pos = Ok (inner, p) → (pos < p)%nat.
Proof.
  unfold parse_bracketed_token. destruct (find_close _ _ _) as [j| |] eqn:E; [|done..].
  apply find_close_bounds in E. intros [= <- <-]. lia.
Qed.

Lemma parse_item_progress s pos item p : parse_item s pos = Ok (item, p) →
  (pos < p)%nat ∧ (pos < length s)%nat.
Proof.
  unfold parse_item. pose proof (skip_ws_le s pos) as H0. set (q := skip_ws s pos) in *.
  destruct (byte_at s q "[") eqn:Hb; [|done]. cbn [negb].
  assert (q < length s)%nat.
  { unfold byte_at in Hb. destruct (s !! q) eqn:E; [|done]. by apply lookup_lt_Some in E. }
  intros ([first p1] & H1%bracketed_token_progress & H2)%result_bind_ok.
  destruct (byte_at s (skip_ws s p1) ":").
  - pose proof (skip_ws_le s p1). pose proof (skip_ws_le s (skip_ws s p1 + 1)).
    destruct (negb _); [done|].
    apply result_bind_ok in H2 as ([second p2] & Hp%bracketed_token_progress & Hspec).
    apply result_bind_ok in Hspec as (spec & _ & [= _ <-]). lia.
  - apply result_bind_ok in H2 as (spec & _ & [= _ <-]). lia.
Qed.

Lemma special_total t : parse_special_token t ≠ Panic.
Proof. unfold parse_special_token. no_panic. Qed.
Lemma at_shorthand_total t : parse_at_shorthand t ≠ Panic.
Proof. unfold parse_at_shorthand. no_panic. Qed.
#[local] Hint Resolve special_total at_shorthand_total : formualizer.

Lemma parse_item_total s pos : parse_item s pos ≠ Panic.
Proof.
  unfold parse_item, parse_bracketed_token, build_column_range_from_tokens,
    bracketed_token_to_specifier. no_panic; auto with formualizer.
Qed.

Lemma skip_ws_bound s pos : (pos ≤ length s)%nat → (skip_ws s pos ≤ length s)%nat.
Proof.
  intros Hp. unfold skip_ws. destruct (span _ _) as [a b] eqn:E. apply span_app in E.
  apply (f_equal length) in E. rewrite length_drop, length_app in E. simpl. lia.
Qed.

Lemma byte_at_lt s i c : byte_at s i c = true → (i < length s)%nat.
Proof.
  unfold byte_at. destruct (s !! i) eqn:E; [|done]. intros _. by apply lookup_lt_Some in E.
Qed.

Lemma parse_items_total fuel s : ∀ pos items, (pos ≤ length s)%nat → (length s < fuel + pos)%nat →
  parse_items fuel s pos items ≠ Panic.
Proof.
  induction fuel as [|fuel IH]; intros pos items Hl Hf; [lia|]. cbn [parse_items].
  apply bind_no_panic; [apply parse_item_total|]. intros [item p] E.
  apply parse_item_progress in E as [Hp _]. pose proof (skip_ws_le s p).
  destruct (_ <=? _)%nat; [done|]. destruct (byte_at _ _ _) eqn:Hb; [|done].
  apply byte_at_lt in Hb. pose proof (skip_ws_le s (skip_ws s p + 1)).
  apply IH; [apply skip_ws_bound; lia|lia].
Qed.

Lemma scan_loop_total s : ∀ i depth acc, scan_loop s i depth acc ≠ Panic.
Proof.
  induction s as [s IH] using (induction_ltof1 _ length); unfold ltof in IH.
  intros i depth acc. destruct s as [|c s]; [simpl; no_panic|]. cbn [scan_loop].
  repeat match goal with |- (if ?b then _ else _) ≠ Panic => destruct b end;
    try (apply IH; simpl; lia); try done.
  destruct s as [|d s]; [done|]. apply IH. simpl. lia.
Qed.

Lemma combination_total s : parse_combination_or_item s ≠ Panic.
Proof.
  unfold parse_combination_or_item. destruct (_ <=? _)%nat; [done|].
  apply bind_no_panic; [|intros items _; by no_panic].
  pose proof (skip_ws_le s 0). apply parse_items_total; [apply skip_ws_bound; lia|lia].
Qed.

Lemma full_specifier_total s : parse_full_specifier s ≠ Panic.
Proof.
  unfold parse_full_specifier, parse_specifier, bump, find_matching_close, parse_content,
    build_column_range, scan_top_level.
  no_panic; auto using combination_total, scan_loop_total with formualizer.
Qed.

(** ** Indices are in bounds *)

Lemma parse_digits_bound s : ∀ a n, a ≤ u32_max → parse_digits a s = Some n → n ≤ u32_max.
Proof.
  induction s as [|c s IH]; intros a n Ha; simpl; [by intros [= <-]|].
  destruct (is_ascii_digit c); [|done]. intros (m & _ & (k & Hk & H)%bind_Some)%bind_Some.
  apply checked_add_spec in Hk as [_ Hk]. by eapply IH, H.
Qed.

Lemma row_tail_valid part rest r : parse_row_tail part rest = Ok r → valid_row r.
Proof.
  unfold parse_row_tail. destruct (span is_ascii_digit rest) as [ds tail] eqn:E.
  apply span_prefix in E. case_bool_decide as Hd; [done|]. case_bool_decide; [done|]. cbn [orb].
  intros (n & Hn & Hr)%result_bind_ok. rewrite parse_u32_digits in Hn by done.
  destruct (parse_digits 0 ds) as [m|] eqn:Em; [|done]. injection Hn as ->.
  destruct (Z.eqb_spec n 0); [done|]. injection Hr as <-. unfold valid_row.
  pose proof (parse_digits_nonneg _ _ _ (Z.le_refl 0) Em).
  assert (n ≤ u32_max) by (eapply (parse_digits_bound ds 0); [unfold u32_max; lia|done]). lia.
Qed.

Lemma column_to_number_valid s c : Forall (λ b, is_ascii_alphabetic b = true) s → s ≠ [] →
  column_to_number s = Ok c → valid_col c.
Proof. intros Hs Hne H%map_err_ok. by apply col_index_ok in H as [_ H]. Qed.

Lemma a1_in_grid s row col ra ca : parse_a1_components s = Ok (row, col, ra, ca) →
  1 ≤ row ≤ ROW_MAX_1BASED ∧ valid_col col.
Proof. intros H. apply parse_a1_iff in H as (L & N & _ & _ & _ & ? & _ & ?). done. Qed.

(** Both components of an end, and that there is one. *)
Definition valid_part (p : option (Z * bool) * option (Z * bool)) : Prop :=
  match p.1 with Some (c, _) => valid_col c | None => True end ∧
  match p.2 with Some (r, _) => valid_row r | None => True end ∧
  (p.1 ≠ None ∨ p.2 ≠ None).

Lemma range_part_valid part p : parse_range_part_with_abs part = Ok p → valid_part p.
Proof.
  unfold parse_range_part_with_abs, parse_a1_1based.
  destruct (parse_a1_components part) as [[[[row col] ra] ca]|e|] eqn:E; [|clear E|done].
  { apply a1_in_grid in E as [Hr Hc]. intros [= <-]. split_and!; simpl; auto with formualizer. }
  destruct (span is_ascii_alphabetic _) as [L rest] eqn:E. apply span_prefix in E.
  case_bool_decide as HL.
  - intros (c & Hc & Hrow)%result_bind_ok. apply column_to_number_valid in Hc; [|done..].
    case_bool_decide; [injection Hrow as <-; split_and!; simpl; auto|].
    apply result_bind_ok in Hrow as (r & Hr%row_tail_valid & [= <-]). split_and!; simpl; auto.
  - intros (r & Hr%row_tail_valid & [= <-])%result_bind_ok. split_and!; simpl; auto.
Qed.

Lemma range_part_total part : parse_range_part_with_abs part ≠ Panic.
Proof.
  unfold parse_range_part_with_abs, parse_a1_1based, parse_row_tail, column_to_number,
    col_index_from_letters_1based.
  no_panic. by destruct (parse_a1_total part).
Qed.

Lemma range_valid a b r : parse_range_part a b = Ok r → valid_range r.
Proof.
  intros ([sc sr] & (Hc & Hr & Hs)%range_part_valid & H)%result_bind_ok.
  apply result_bind_ok in H as ([ec er] & (Fc & Fr & Fs)%range_part_valid & [= <-]). simpl in *.
  split; split_and!; destruct sc as [[]|], sr as [[]|], ec as [[]|], er as [[]|];
    simpl in *; (done || (left; done) || (right; done) || (by destruct Hs) || by destruct Fs).
Qed.

Lemma cell_valid s c : parse_cell_reference s = Ok c → valid_cell c.
Proof.
  unfold parse_cell_reference, parse_a1_1based. intros H%map_err_ok.
  destruct (parse_a1_components s) as [[[[row col] ra] ca]|e|] eqn:E; [|done..].
  injection H as <-. by apply a1_in_grid in E.
Qed.

Lemma cell_total s : parse_cell_reference s ≠ Panic.
Proof. unfold parse_cell_reference. no_panic. apply parse_a1_total. Qed.
Lemma range_total a b : parse_range_part a b ≠ Panic.
Proof. unfold parse_range_part. no_panic; apply range_part_total. Qed.
#[local] Hint Resolve cell_total range_total full_specifier_total : formualizer.

(** The grid part of a reference is in bounds. *)
Definition in_bounds (r : ReferenceType) : Prop :=
  match r with
  | Cell _ c | Cell3D _ _ c => valid_cell c
  | Range _ r | Range3D _ _ r => valid_range r
  | External e => match ext_kind e with ExternalCell c => valid_cell c | ExternalRange r => valid_range r end
  | Table _ | NamedRange _ => True
  end.

Lemma grid_in_bounds reference sheet kind :
  match kind with ExternalCell c => valid_cell c | ExternalRange r => valid_range r end →
  in_bounds (grid_reference reference sheet kind).
Proof.
  intros H. unfold grid_reference. destruct (_ ≫= _) as [[b n]|]; [done|]. by destruct kind.
Qed.

Definition sound (res : result ParsingError ReferenceType) : Prop :=
  res ≠ Panic ∧ ∀ r, res = Ok r → in_bounds r.

Lemma table_in_bounds s r : parse_table_reference s = Ok r → in_bounds r.
Proof.
  unfold parse_table_reference. intros ([name rest] & _ & H)%result_bind_ok.
  cbv zeta in H. destruct (bool_decide _); [done|].
  by apply result_bind_ok in H as (spec & _ & [= <-]).
Qed.

Lemma excel_sound s : sound (parse_excel_reference s).
Proof.
  split.
  - unfold parse_excel_reference, parse_bracketed_structured_reference, parse_3d_reference,
      parse_table_reference. no_panic; auto with formualizer.
    all: match goal with H : parse_cell_reference ?x = Panic |- _ => by destruct (cell_total x) end.
  - unfold parse_excel_reference. intros r. destruct (_ && _).
    { unfold parse_bracketed_structured_reference. intros (spec & _ & H)%result_bind_ok.
      by destruct spec as [[]|]; injection H as <-. }
    destruct (extract_sheet_spec s) as [spec part]. destruct spec as [|name|first last].
    3: { unfold parse_3d_reference. destruct (_ || _); [done|]. destruct (bool_decide _); [done|].
      destruct (contains _ _); [done|]. destruct (split_at ":" part) as [[a b]|].
      - destruct (parse_range_part a b) eqn:E; [|done..]. intros [= <-]. by apply range_valid in E.
      - intros H%map_err_ok. destruct (parse_cell_reference part) eqn:E; [|done..].
        injection H as <-. by apply cell_valid in E. }
    all: destruct (contains _ _); [destruct (is_r1c1_shape part);
      [by intros [= <-]|apply table_in_bounds]|].
    all: destruct (split_at ":" part) as [[a b]|].
    all: try (destruct (parse_range_part a b) eqn:E; [|done..]; intros [= <-];
      apply grid_in_bounds; by apply range_valid in E).
    all: destruct (parse_cell_reference part) eqn:E; [|by intros [= <-]|done]; intros [= <-];
      apply grid_in_bounds; by apply cell_valid in E.
Qed.

Lemma openformula_sound s : sound (parse_openformula_reference s).
Proof.
  split.
  - unfold parse_openformula_reference, parse_openformula_part, normalise_openformula_sheet,
      openformula_sheet.
    no_panic; try apply excel_sound.
  - unfold parse_openformula_reference. intros r. destruct (_ && _); [|done].
    destruct (bool_decide _); [done|]. destruct (split_at _ _) as [[a b]|].
    all: intros (p & _ & H)%result_bind_ok; apply result_bind_ok in H as (q & _ & H).
    all: apply result_bind_ok in H as (sheet & _ & H); by eapply excel_sound.
Qed.

Lemma cell_new_total (row col : Z) ra ca (E : Type) : 1 ≤ row ≤ ROW_MAX_1BASED → valid_col col →
  RelativeCoord.new (E := E) (row - 1) (col - 1) ra ca ≠ Panic.
Proof.
  intros Hr Hc. unfold valid_col in Hc. rewrite relative_new_ok; [done|]. grid_simpl. lia.
Qed.

Lemma reference_sound s d : sound (from_string_with_dialect s d).
Proof.
  unfold from_string_with_dialect. destruct d; [apply excel_sound|].
  pose proof (openformula_sound s) as H. destruct (parse_openformula_reference s); [done| |done].
  apply excel_sound.
Qed.

(** C8: parsing a reference text terminates without a panic in both dialects.  What it accepts is in
    bounds: a cell is on the grid, also on a span of sheets or in another workbook, and each end of a
    range has a column of the grid, a row, or both, where the row is a nonzero [u32] (not necessarily
    one of the grid: [range_row_beyond_grid]); converting it to a shared address fails no assertion.  The
    direct parser of shared addresses does not panic either. *)
Theorem reference_parse_safe s d :
  match from_string_with_dialect s d with
  | Ok r => in_bounds r ∧ to_sheet_ref_lossy r ≠ Panic
  | Err _ => True
  | Panic => False
  end ∧ parse_sheet_ref_with_dialect s d ≠ Panic.
Proof.
  pose proof (reference_sound s d) as Hs.
  assert (Hp : parse_excel_sheet_ref s ≠ Panic).
  { unfold parse_excel_sheet_ref, axis_bound_from_1based, from_excel_1based, from_parts.
    no_panic; try apply range_part_total; try apply parse_a1_total.
    all: match goal with H : map_err _ _ = Ok _ |- _ =>
      apply map_err_ok, a1_in_grid in H as [??]; by apply cell_new_total end. }
  split.
  - destruct (from_string_with_dialect s d) as [r|e|]; [|done|by destruct Hs].
    assert (Hr : in_bounds r) by (by apply Hs). split; [done|].
    destruct r as [sh c|sh r| | | | |]; try done. destruct Hr as [Hr Hc]. simpl.
    unfold checked_sub. rewrite !decide_True by (unfold valid_col in Hc; lia).
    apply bind_no_panic; [by apply cell_new_total|done].
  - unfold parse_sheet_ref_with_dialect. destruct d; [done|]. by destruct (parse_excel_sheet_ref s).
Qed.

Lemma reference_roundtrip_witness :
  from_string (str "'Q1 report':Sum!$B$7:C") =
  Ok (Range3D (str "Q1 report") (str "Sum")
        {| start_row := Some 7; start_col := Some 2; end_row := None; end_col := Some 3;
           start_row_abs := true; start_col_abs := true; end_row_abs := false; end_col_abs := false |}).
Proof.
  apply (reference_roundtrip (Range3D (str "Q1 report") (str "Sum")
    {| start_row := Some 7; start_col := Some 2; end_row := None; end_col := Some 3;
       start_row_abs := true; start_col_abs := true; end_row_abs := false; end_col_abs := false |})).
  unfold printable, valid_name, valid_range, valid_end, valid_col, valid_row, u32_max. simpl.
  grid_simpl. split_and!; try discriminate; try lia; try (by repeat constructor); auto.
Defined.

(** A range may name a row below the grid, which no cell reference does. *)
Example range_row_beyond_grid :
  from_string (str "A1048577") = Ok (NamedRange (str "A1048577")) ∧
  from_string (str "A1048577:B4294967295") =
  Ok (Range None
        {| start_row := Some 1048577; start_col := Some 1; end_row := Some u32_max; end_col := Some 2;
           start_row_abs := false; start_col_abs := false; end_row_abs := false; end_col_abs := false |}).
Proof. split; vm_compute; reflexivity. Qed.
