(* ===== verification/SpanTokenizer.v ===== *)
(** The span tokenizer ([SpanTokenizer] and [TokenStream] of
    [crates/formualizer-parse/src/tokenizer.rs]).

    A method with [&mut self] is a function on the record of the tokenizer's
    fields; a fallible one returns the state it leaves behind next to its
    result, since best-effort tokenization goes on from that state. *)
From S2P Require Import Prelude Token.

(** * Errors and diagnostics *)

Inductive RecoveryAction : Type :=
| SkippedUnmatchedCloser | UnterminatedStringAction | UnmatchedBracketAction
| InvalidErrorLiteralAction | UnmatchedOpener.

Record TokenDiagnostic : Type := {
  diag_span : TokenSpan.t; diag_message : bytes; recovery : RecoveryAction
}.

Inductive SpanTokenizerErrorKind : Type :=
| NoMatchingOpener | UnmatchedOpening | UnterminatedString
| UnmatchedBracket | MismatchedPair | InvalidErrorLiteral.

Record SpanTokenizerError : Type := {
  kind : SpanTokenizerErrorKind;
  err_pos : nat;
  err_message : bytes;
  span_start : option nat;
  span_end : option nat
}.

Definition to_tokenizer_error (e : SpanTokenizerError) : TokenizerError :=
  {| message := err_message e; pos := err_pos e |}.

(** * State *)

Record SpanTokenizer : Type := {
  formula : bytes;
  spans : list TokenSpan.t;
  token_stack : list TokenSpan.t;  (* the last element is the top *)
  offset : nat;
  token_start : nat;
  token_end : nat;
  dialect : FormulaDialect;
  diagnostics : list TokenDiagnostic
}.

Definition new (formula : bytes) (dialect : FormulaDialect) : SpanTokenizer :=
  {| formula := formula; spans := []; token_stack := []; offset := 0;
     token_start := 0; token_end := 0; dialect := dialect; diagnostics := [] |}.

Definition mk_span (token_type : TokenType) (subtype : TokenSubType) (start end_ : nat) : TokenSpan.t :=
  {| TokenSpan.token_type := token_type; TokenSpan.subtype := subtype;
     TokenSpan.start := start; TokenSpan.end_ := end_ |}.

(** Assignments to the fields. *)
Definition set_spans (v : list TokenSpan.t) (st : SpanTokenizer) : SpanTokenizer :=
  {| formula := formula st; spans := v; token_stack := token_stack st; offset := offset st;
     token_start := token_start st; token_end := token_end st; dialect := dialect st;
     diagnostics := diagnostics st |}.
Definition set_stack (v : list TokenSpan.t) (st : SpanTokenizer) : SpanTokenizer :=
  {| formula := formula st; spans := spans st; token_stack := v; offset := offset st;
     token_start := token_start st; token_end := token_end st; dialect := dialect st;
     diagnostics := diagnostics st |}.
Definition set_offset (v : nat) (st : SpanTokenizer) : SpanTokenizer :=
  {| formula := formula st; spans := spans st; token_stack := token_stack st; offset := v;
     token_start := token_start st; token_end := token_end st; dialect := dialect st;
     diagnostics := diagnostics st |}.
Definition set_token (s e : nat) (st : SpanTokenizer) : SpanTokenizer :=
  {| formula := formula st; spans := spans st; token_stack := token_stack st; offset := offset st;
     token_start := s; token_end := e; dialect := dialect st;
     diagnostics := diagnostics st |}.
Definition push_diagnostic (d : TokenDiagnostic) (st : SpanTokenizer) : SpanTokenizer :=
  {| formula := formula st; spans := spans st; token_stack := token_stack st; offset := offset st;
     token_start := token_start st; token_end := token_end st; dialect := dialect st;
     diagnostics := diagnostics st ++ [d] |}.

Definition current_byte (st : SpanTokenizer) : option byte := formula st !! offset st.
Definition has_token (st : SpanTokenizer) : bool := bool_decide (token_start st < token_end st).
Definition start_token (st : SpanTokenizer) : SpanTokenizer := set_token (offset st) (offset st) st.
Definition extend_token (st : SpanTokenizer) : SpanTokenizer := set_token (token_start st) (offset st) st.

Definition push_span (ty : TokenType) (sub : TokenSubType) (s e : nat) (st : SpanTokenizer) : SpanTokenizer :=
  set_spans (spans st ++ [mk_span ty sub s e]) st.

(** [&self.formula[self.token_start..self.token_end]]. *)
Definition token_text (st : SpanTokenizer) : bytes :=
  slice (formula st) (token_start st) (token_end st).

Definition save_token (st : SpanTokenizer) : SpanTokenizer :=
  if has_token st then
    push_span Operand (operand_subtype (token_text st)) (token_start st) (token_end st) st
  else st.

(** The result of a fallible method and the state it leaves. *)
Definition outcome : Type := SpanTokenizer * result SpanTokenizerError unit.

(** * Scientific notation *)

Fixpoint mantissa_digits (dot_seen : bool) (s : bytes) : bool :=
  match s with
  | [] => true
  | c :: s =>
      if is_ascii_digit c then mantissa_digits dot_seen s
      else if Ascii.eqb c "." && negb dot_seen then mantissa_digits true s
      else false
  end.

(** On the bytes of the current token: digits with at most one dot, then [E]. *)
Definition scientific_base (token_slice : bytes) : bool :=
  match token_slice, last token_slice with
  | first :: _ :: _, Some last =>
      (Ascii.eqb last "E" || Ascii.eqb last "e") && is_ascii_digit first
      && mantissa_digits false (take (length token_slice - 2) (drop 1 token_slice))
  | _, _ => false
  end.

Definition is_scientific_notation_base (st : SpanTokenizer) : bool :=
  has_token st && scientific_base (token_text st).

Definition digit_at (s : bytes) (i : nat) : bool :=
  match s !! i with Some c => is_ascii_digit c | None => false end.

Definition check_scientific_notation (st : SpanTokenizer) : option SpanTokenizer :=
  match current_byte st with
  | Some curr_byte =>
      if one_of curr_byte "+-" && has_token st && is_scientific_notation_base st
         && digit_at (formula st) (offset st + 1)
      then Some (extend_token (set_offset (offset st + 1) st))
      else None
  | None => None
  end.

(** * Looking back *)

Definition prev_non_whitespace (st : SpanTokenizer) : option TokenSpan.t :=
  List.find (λ t, negb (is_type (TokenSpan.token_type t) Whitespace)) (reverse (spans st)).

(** The cases [prev_is_reference_producing] and [should_emit_hash_postfix]
    share; they differ on the text a range operand must have. *)
Definition closes_reference (range_ok : TokenSpan.t → bool) (prev : option TokenSpan.t) : bool :=
  match prev with
  | Some p =>
      match TokenSpan.token_type p with
      | OpPostfix => true
      | Paren | Func | Array => is_sub (TokenSpan.subtype p) Close
      | Operand => is_sub (TokenSpan.subtype p) Range && range_ok p
      | _ => false
      end
  | None => false
  end.

Definition prev_is_reference_producing (st : SpanTokenizer) : bool :=
  closes_reference
    (λ p, is_reference_operand_value (slice (formula st) (TokenSpan.start p) (TokenSpan.end_ p)))
    (prev_non_whitespace st).

Definition should_emit_colon_infix (st : SpanTokenizer) : bool :=
  if has_token st then
    let value := token_text st in
    if ends_with "!" value then false
    else reference_value_contains_range_colon value
         || value_has_structured_reference_bracket value
         || (contains "!" value
             && next_reference_has_sheet_qualifier (formula st) (offset st + 1))
  else prev_is_reference_producing st.

Definition should_emit_hash_postfix (st : SpanTokenizer) : bool :=
  if has_token st then
    if byte_at (formula st) (token_end st - 1) "!" then false
    else is_sub (operand_subtype (token_text st)) Range
  else closes_reference (λ _, true) (prev_non_whitespace st).

Definition emit_infix_operator (s e : nat) (st : SpanTokenizer) : SpanTokenizer :=
  let st := start_token (save_token st) in
  start_token (set_offset e (push_span OpInfix NoSub s e st)).

Definition emit_hash_postfix (st : SpanTokenizer) : SpanTokenizer :=
  let st := start_token (save_token st) in
  let st := push_span OpPostfix NoSub (offset st) (offset st + 1) st in
  start_token (set_offset (offset st + 1) st).

(** * Parsing methods *)

(** The scan for the closing delimiter, on the text from index [i] on: where
    it stops, and whether it stops behind a delimiter that is not doubled. *)
Fixpoint string_loop (delim : byte) (s : bytes) (i : nat) : bool * nat :=
  match s with
  | [] => (false, i)
  | c :: s1 =>
      if Ascii.eqb c delim then
        match s1 with
        | d :: s2 => if Ascii.eqb d delim then string_loop delim s2 (i + 2) else (true, i + 1)
        | [] => (true, i + 1)
        end
      else string_loop delim s1 (i + 1)
  end.

Definition is_dollar_ref (delim : byte) (st : SpanTokenizer) : bool :=
  Ascii.eqb delim "'" && has_token st && (token_end st - token_start st =? 1)
  && byte_at (formula st) (token_start st) "$".
Definition glue_to_token (delim : byte) (st : SpanTokenizer) : bool :=
  Ascii.eqb delim "'" && has_token st && (0 <? token_end st)
  && byte_at (formula st) (token_end st - 1) ":".

Definition parse_string (st : SpanTokenizer) : outcome :=
  match formula st !! offset st with
  | None => (st, Panic)
  | Some delim =>
      if negb (Ascii.eqb delim quote || Ascii.eqb delim "'") then (st, Panic) else
      let dollar := is_dollar_ref delim st in
      let glue := glue_to_token delim st in
      let st :=
        if negb dollar && negb glue && has_token st then start_token (save_token st) else st in
      let string_start := if dollar then token_start st else offset st in
      let '(closed, off) :=
        string_loop delim (drop (offset st + 1) (formula st)) (offset st + 1) in
      let st := set_offset off st in
      if closed then
        if Ascii.eqb delim quote then
          let subtype := operand_subtype (slice (formula st) string_start off) in
          (start_token (push_span Operand subtype string_start off st), Ok tt)
        else (set_token (token_start st) off st, Ok tt)
      else
        (st, Err {| kind := UnterminatedString; err_pos := off;
                    err_message := str "Reached end of formula while parsing string";
                    span_start := Some string_start;
                    span_end := Some (length (formula st)) |})
  end.

(** The scan for the bracket that closes [open_count] open ones. *)
Fixpoint brackets_loop (s : bytes) (i : nat) (open_count : nat) : bool * nat :=
  match s with
  | [] => (false, i)
  | c :: s1 =>
      if Ascii.eqb c "'" then
        match s1 with
        | _ :: s2 => brackets_loop s2 (i + 2) open_count
        | [] => (false, i + 1)
        end
      else if Ascii.eqb c "[" then brackets_loop s1 (i + 1) (open_count + 1)
      else if Ascii.eqb c "]" then
        if (open_count - 1 =? 0)%nat then (true, i + 1)
        else brackets_loop s1 (i + 1) (open_count - 1)
      else brackets_loop s1 (i + 1) open_count
  end.

Definition parse_brackets (st : SpanTokenizer) : outcome :=
  match formula st !! offset st with
  | None => (st, Panic)
  | Some c =>
      if negb (Ascii.eqb c "[") then (st, Panic) else
      let st := if negb (has_token st) then start_token st else st in
      let bracket_start := offset st in
      let '(closed, off) :=
        brackets_loop (drop (offset st + 1) (formula st)) (offset st + 1) 1 in
      let st := set_offset off st in
      if closed then (extend_token st, Ok tt)
      else
        (st, Err {| kind := UnmatchedBracket; err_pos := off;
                    err_message := str "Encountered unmatched '['";
                    span_start := Some bracket_start;
                    span_end := Some (length (formula st)) |})
  end.

(** The first error code the text at [off] starts with. *)
Definition matching_error_code (formula : bytes) (off : nat) : option bytes :=
  List.find (λ code,
    (off + length code <=? length formula)
    && eq_ignore_ascii_case (slice formula off (off + length code)) code) ERROR_CODES.

Definition ends_error_literal (c : byte) : bool :=
  is_token_ender c || is_blank c || one_of c "({['" || Ascii.eqb c quote.

Definition has_sheet_prefix (st : SpanTokenizer) : bool :=
  has_token st && (0 <? token_end st) && byte_at (formula st) (token_end st - 1) "!".

Definition parse_error (st : SpanTokenizer) : outcome :=
  let with_prefix := has_sheet_prefix st in
  if with_prefix && (token_end st - token_start st <=? 1) then
    (st, Err {| kind := InvalidErrorLiteral; err_pos := offset st;
                err_message := str "Empty sheet qualifier before error literal at position "
                                 ++ fmt_dec (Z.of_nat (offset st));
                span_start := Some (token_start st); span_end := Some (offset st) |})
  else
    let st :=
      if with_prefix then start_token st
      else if has_token st then start_token (save_token st)
      else st in
    let error_start := offset st in
    match matching_error_code (formula st) (offset st) with
    | Some err_code =>
        let st := push_span Operand Error error_start (offset st + length err_code) st in
        (start_token (set_offset (offset st + length err_code) st), Ok tt)
    | None =>
        let end_ := offset st + 1 +
          length (span (λ c, negb (ends_error_literal c)) (drop (offset st + 1) (formula st))).1 in
        (st, Err {| kind := InvalidErrorLiteral; err_pos := offset st;
                    err_message := str "Invalid error code at position "
                                     ++ fmt_dec (Z.of_nat (offset st));
                    span_start := Some error_start; span_end := Some end_ |})
    end.

Definition parse_whitespace (st : SpanTokenizer) : outcome :=
  let st := save_token st in
  let ws_start := offset st in
  let blanks := (span is_blank (drop (offset st) (formula st))).1 in
  let contains_intersection_space := contains " " blanks in
  let st := set_offset (offset st + length blanks) st in
  let token_type :=
    if contains_intersection_space && prev_is_reference_producing st
       && next_starts_reference_expression (formula st) (offset st)
    then OpInfix else Whitespace in
  (start_token (push_span token_type NoSub ws_start (offset st) st), Ok tt).

Definition is_two_char_operator (s : bytes) : bool :=
  eqb_bytes s (str ">=") || eqb_bytes s (str "<=") || eqb_bytes s (str "<>").

(** [+] and [-] are infix after an operand, a closing token or a postfix
    operator. *)
Definition sign_type (st : SpanTokenizer) : TokenType :=
  if bool_decide (spans st = []) then OpPrefix
  else
    match prev_non_whitespace st with
    | Some p =>
        if is_sub (TokenSpan.subtype p) Close || is_type (TokenSpan.token_type p) OpPostfix
           || is_type (TokenSpan.token_type p) Operand
        then OpInfix else OpPrefix
    | None => OpPrefix
    end.

Definition parse_operator (st : SpanTokenizer) : outcome :=
  let st := save_token st in
  if (offset st + 1 <? length (formula st))
     && is_two_char_operator (slice (formula st) (offset st) (offset st + 2))
  then
    let st := push_span OpInfix NoSub (offset st) (offset st + 2) st in
    (start_token (set_offset (offset st + 2) st), Ok tt)
  else
    match formula st !! offset st with
    | None => (st, Panic)
    | Some curr_byte =>
        let token_type :=
          if Ascii.eqb curr_byte "@" then OpPrefix
          else if Ascii.eqb curr_byte "%" then OpPostfix
          else if one_of curr_byte "+-" then sign_type st
          else OpInfix in
        let st := push_span token_type NoSub (offset st) (offset st + 1) st in
        (start_token (set_offset (offset st + 1) st), Ok tt)
    end.

Definition parse_opener (st : SpanTokenizer) : outcome :=
  match formula st !! offset st with
  | None => (st, Panic)
  | Some curr_byte =>
      if negb (one_of curr_byte "({") then (st, Panic) else
      let '(st, token) :=
        if Ascii.eqb curr_byte "{" then
          (save_token st, mk_span Array Open (offset st) (offset st + 1))
        else if has_token st then
          (set_token (offset st + 1) (offset st + 1) st,
           mk_span Func Open (token_start st) (offset st + 1))
        else (st, mk_span Paren Open (offset st) (offset st + 1)) in
      let st := set_spans (spans st ++ [token]) st in
      let st := set_stack (token_stack st ++ [token]) st in
      (start_token (set_offset (offset st + 1) st), Ok tt)
  end.

Definition parse_closer (st : SpanTokenizer) : outcome :=
  let st := save_token st in
  match formula st !! offset st with
  | None => (st, Panic)
  | Some curr_byte =>
      if negb (one_of curr_byte ")}") then (st, Panic) else
      match last (token_stack st) with
      | Some open_token =>
          let expected := if is_type (TokenSpan.token_type open_token) Array then "}"%char else ")"%char in
          if negb (Ascii.eqb curr_byte expected) then
            (st, Err {| kind := MismatchedPair; err_pos := offset st;
                        err_message := str "Mismatched ( and { pair";
                        span_start := Some (offset st); span_end := Some (offset st + 1) |})
          else
            let st := set_stack (removelast (token_stack st)) st in
            let st := push_span (TokenSpan.token_type open_token) Close (offset st) (offset st + 1) st in
            (start_token (set_offset (offset st + 1) st), Ok tt)
      | None =>
          (st, Err {| kind := NoMatchingOpener; err_pos := offset st;
                      err_message := str "No matching opener for closer at position "
                                       ++ fmt_dec (Z.of_nat (offset st));
                      span_start := Some (offset st); span_end := Some (offset st + 1) |})
      end
  end.

(** The type of a separator, from the top of the stack and the dialect. *)
Definition separator_type (dialect : FormulaDialect) (top : option TokenType) (curr_byte : byte)
  : TokenType * TokenSubType :=
  let in_function_or_array := match top with Some (Func | Array) => true | _ => false end in
  let in_array := match top with Some Array => true | _ => false end in
  if Ascii.eqb curr_byte "," then
    if in_function_or_array then (Sep, Arg) else (OpInfix, NoSub)
  else if Ascii.eqb curr_byte ";" then
    if in_array then (Sep, Row)
    else if bool_decide (dialect = OpenFormula) && in_function_or_array then (Sep, Arg)
    else if bool_decide (dialect = OpenFormula) then (OpInfix, NoSub)
    else (Sep, Row)
  else (OpInfix, NoSub).

Definition parse_separator (st : SpanTokenizer) : outcome :=
  let st := save_token st in
  match formula st !! offset st with
  | None => (st, Panic)
  | Some curr_byte =>
      if negb (one_of curr_byte ";,") then (st, Panic) else
      let '(token_type, subtype) :=
        separator_type (dialect st) (TokenSpan.token_type <$> last (token_stack st)) curr_byte in
      let st := push_span token_type subtype (offset st) (offset st + 1) st in
      (start_token (set_offset (offset st + 1) st), Ok tt)
  end.

(** * The main loop *)

(** Accumulating a byte into the current token. *)
Definition accumulate (st : SpanTokenizer) : SpanTokenizer :=
  let st := if negb (has_token st) then start_token st else st in
  extend_token (set_offset (offset st + 1) st).

Definition dispatch (curr_byte : byte) (st : SpanTokenizer) : outcome :=
  if Ascii.eqb curr_byte quote || Ascii.eqb curr_byte "'" then parse_string st
  else if Ascii.eqb curr_byte "[" then parse_brackets st
  else if Ascii.eqb curr_byte "#" then
    if should_emit_hash_postfix st then (emit_hash_postfix st, Ok tt) else parse_error st
  else if is_blank curr_byte then parse_whitespace st
  else if Ascii.eqb curr_byte ":" then
    if should_emit_colon_infix st
    then (emit_infix_operator (offset st) (offset st + 1) st, Ok tt)
    else (accumulate st, Ok tt)
  else if one_of curr_byte "+-*/^&=><%@" then parse_operator st
  else if one_of curr_byte "{(" then parse_opener st
  else if one_of curr_byte ")}" then parse_closer st
  else if one_of curr_byte ";," then parse_separator st
  else (accumulate st, Ok tt).

(** One iteration of the loop of [parse_with_recovery]. *)
Definition step (st : SpanTokenizer) : outcome :=
  match check_scientific_notation st with
  | Some st => (st, Ok tt)
  | None =>
      match formula st !! offset st with
      | None => (st, Panic)
      | Some curr_byte =>
          let st :=
            if is_token_ender curr_byte && has_token st then start_token (save_token st) else st in
          dispatch curr_byte st
      end
  end.

Definition recover_span (s e : nat) (msg : bytes) (action : RecoveryAction)
  (st : SpanTokenizer) : SpanTokenizer :=
  let st := push_span Operand NoSub s e st in
  let st := start_token (set_offset e st) in
  push_diagnostic {| diag_span := mk_span Operand NoSub s e; diag_message := msg;
                     recovery := action |} st.

(** The [UnmatchedOpening] case is a [debug_assert!] the callers never reach. *)
Definition recover_from_error (error : SpanTokenizerError) (st : SpanTokenizer) : SpanTokenizer :=
  match kind error with
  | NoMatchingOpener =>
      recover_span (err_pos error) (err_pos error + 1)
        (str "No matching opener for closer at position " ++ fmt_dec (Z.of_nat (err_pos error)))
        SkippedUnmatchedCloser st
  | UnmatchedOpening => st
  | UnterminatedString =>
      recover_span (default (err_pos error) (span_start error)) (length (formula st))
        (str "Reached end of formula while parsing string") UnterminatedStringAction st
  | UnmatchedBracket =>
      recover_span (default (err_pos error) (span_start error))
        (default (length (formula st)) (span_end error))
        (str "Encountered unmatched '['") UnmatchedBracketAction st
  | MismatchedPair =>
      recover_span (err_pos error) (err_pos error + 1)
        (str "Mismatched ( and { pair") SkippedUnmatchedCloser st
  | InvalidErrorLiteral =>
      recover_span (default (err_pos error) (span_start error))
        (default (err_pos error + 1) (span_end error))
        (str "Invalid error code") InvalidErrorLiteralAction st
  end.

Fixpoint parse_loop (fuel : nat) (best_effort : bool) (st : SpanTokenizer) : outcome :=
  if decide (offset st < length (formula st)) then
    match fuel with
    | O => (st, Panic)
    | S fuel =>
        match step st with
        | (st, Ok _) => parse_loop fuel best_effort st
        | (st, Err err) =>
            if best_effort then parse_loop fuel best_effort (recover_from_error err st)
            else (st, Err err)
        | (st, Panic) => (st, Panic)
        end
    end
  else (st, Ok tt).

(** Popping the openers that are left, from the top of the stack. *)
Definition report_opener (st : SpanTokenizer) (open_token : TokenSpan.t) : SpanTokenizer :=
  match List.find (λ span, bool_decide (span = open_token)) (spans st) with
  | Some span =>
      push_diagnostic {| diag_span := span;
                         diag_message := str "Unmatched opening parenthesis or bracket";
                         recovery := UnmatchedOpener |} st
  | None => st
  end.
Definition report_openers (st : SpanTokenizer) : SpanTokenizer :=
  set_stack [] (fold_left report_opener (reverse (token_stack st)) st).

(** The work after the loop. *)
Definition finish (best_effort : bool) (st : SpanTokenizer) : outcome :=
  let st := if has_token st then save_token st else st in
  if bool_decide (token_stack st ≠ []) then
    if best_effort then (report_openers st, Ok tt)
    else
      (st, Err {| kind := UnmatchedOpening; err_pos := offset st;
                  err_message := str "Unmatched opening parenthesis or bracket";
                  span_start := None; span_end := None |})
  else (st, Ok tt).

(** Each iteration advances, save for one that drops an empty sheet prefix. *)
Definition loop_fuel (formula : bytes) : nat := 2 * length formula + 2.

Definition parse_with_recovery (best_effort : bool) (st : SpanTokenizer) : outcome :=
  match formula st with
  | [] => (st, Ok tt)
  | c :: _ =>
      if negb (Ascii.eqb c "=") then
        (push_span Literal NoSub 0 (length (formula st)) st, Ok tt)
      else
        let st := start_token (set_offset 1 st) in
        match parse_loop (loop_fuel (formula st)) best_effort st with
        | (st, Ok _) => finish best_effort st
        | (st, res) => (st, res)
        end
  end.

Definition parse (st : SpanTokenizer) : SpanTokenizer * result TokenizerError unit :=
  let '(st, res) := parse_with_recovery false st in (st, map_err to_tokenizer_error res).

Definition parse_best_effort (st : SpanTokenizer) : SpanTokenizer :=
  (parse_with_recovery true st).1.

Definition tokenize_spans_with_dialect (formula : bytes) (dialect : FormulaDialect)
  : result TokenizerError (list TokenSpan.t) :=
  match parse (new formula dialect) with
  | (st, Ok _) => Ok (spans st)
  | (_, Err e) => Err e
  | (_, Panic) => Panic
  end.

(** * [TokenStream] *)

Module TokenStream.

Record t : Type := {
  source : bytes;
  spans : list TokenSpan.t;
  dialect : FormulaDialect;
  diagnostics : list TokenDiagnostic
}.

Definition new_with_dialect (formula : bytes) (dialect : FormulaDialect) : result TokenizerError t :=
  spans ← tokenize_spans_with_dialect formula dialect;
  Ok {| source := formula; spans := spans; dialect := dialect; diagnostics := [] |}.
Definition new (formula : bytes) : result TokenizerError t := new_with_dialect formula Excel.

Definition new_best_effort_with_dialect (formula : bytes) (dialect : FormulaDialect) : t :=
  let tokenizer := parse_best_effort (SpanTokenizer.new formula dialect) in
  {| source := formula; spans := SpanTokenizer.spans tokenizer; dialect := dialect;
     diagnostics := SpanTokenizer.diagnostics tokenizer |}.
Definition new_best_effort (formula : bytes) : t := new_best_effort_with_dialect formula Excel.

Definition has_errors (ts : t) : bool := negb (bool_decide (diagnostics ts = [])).

Definition invalid_spans (ts : t) : list TokenSpan.t :=
  List.filter (λ span, existsb (λ diag,
    (TokenSpan.start (diag_span diag) =? TokenSpan.start span)%nat
    && (TokenSpan.end_ (diag_span diag) =? TokenSpan.end_ span)%nat
    && is_type (TokenSpan.token_type (diag_span diag)) (TokenSpan.token_type span))
    (diagnostics ts)) (spans ts).

Definition len (ts : t) : nat := length (spans ts).

(** [source.get(start..end)]. *)
Definition text (source : bytes) (s : TokenSpan.t) : option bytes :=
  if decide (TokenSpan.start s ≤ TokenSpan.end_ s ∧ TokenSpan.end_ s ≤ length source)
  then Some (slice source (TokenSpan.start s) (TokenSpan.end_ s)) else None.

Definition get (ts : t) (index : nat) : option (TokenSpan.t * bytes) :=
  span ← spans ts !! index;
  value ← text (source ts) span;
  Some (span, value).

Definition is_whitespace_intersection_span (source : bytes) (span : TokenSpan.t) : bool :=
  is_type (TokenSpan.token_type span) OpInfix &&
  match text source span with
  | Some value => contains " " value && forallb is_blank value
  | None => false
  end.

Definition to_token (source : bytes) (s : TokenSpan.t) : Token.t :=
  let value :=
    if is_whitespace_intersection_span source s then str " "
    else default [] (text source s) in
  Token.new_with_span value (TokenSpan.token_type s) (TokenSpan.subtype s)
    (TokenSpan.start s) (TokenSpan.end_ s).
Definition to_tokens (ts : t) : list Token.t := to_token (source ts) <$> spans ts.

Definition render (ts : t) : bytes :=
  List.concat ((λ s, default [] (text (source ts) s)) <$> spans ts).

Definition render_formula (ts : t) : bytes :=
  if starts_with "=" (source ts) then str "=" ++ render ts else render ts.

End TokenStream.

Definition show_tokens (f : string) : result TokenizerError (list (bytes * TokenType * TokenSubType)) :=
  ts ← TokenStream.new (str f);
  Ok ((λ t, (Token.value t, Token.token_type t, Token.subtype t)) <$> TokenStream.to_tokens ts).

Example tokens_ex : show_tokens "=SUM(A1:B2, -1e-3)%" =
  Ok [(str "SUM(", Func, Open); (str "A1:B2", Operand, Range); (str ",", Sep, Arg);
      (str " ", Whitespace, NoSub); (str "-", OpPrefix, NoSub); (str "1e-3", Operand, Number);
      (str ")", Func, Close); (str "%", OpPostfix, NoSub)].
Proof. vm_compute. reflexivity. Qed.
Example tokens_best_effort : 
  let ts := TokenStream.new_best_effort (str "=!#REF!+(1") in
  TokenStream.render_formula ts = str "=!#REF!+(1" ∧ length (TokenStream.diagnostics ts) = 2.
Proof. vm_compute. split; reflexivity. Qed.
