(* ===== verification/Parser.v ===== *)
(** The expression parser ([Parser], [BatchParser] and the syntax tree of
    [crates/formualizer-parse/src/parser.rs]; error literals of
    [crates/formualizer-common/src/error.rs]).

    The tokens are those of a span stream over its source.  The position is
    threaded through the methods; the two counters of the source, restored on
    every return, are arguments: [call] for [in_call_args_depth], and for
    [depth] the number of frames still allowed, [MAX_PARSE_DEPTH - depth], on
    which the recursion goes down.  A loop takes a fuel it uses once for every
    token. *)
From S2P Require Import Prelude Token SpanTokenizer StructuredRef Reference.

(** * Error literals *)

Inductive ExcelErrorKind : Type :=
| ErrNull | ErrRef | ErrName | ErrValue | ErrDiv | ErrNa | ErrNum | ErrError
| ErrNImpl | ErrSpill | ErrCalc | ErrCirc | ErrCancelled.

Record ExcelError : Type := { error_kind : ExcelErrorKind; error_message : option bytes }.

Definition try_parse (s : bytes) : option ExcelErrorKind :=
  let text := to_ascii_lowercase <$> trim s in
  let text_is t := eqb_bytes text (str t) in
  if text_is "#null!" then Some ErrNull
  else if text_is "#ref!" then Some ErrRef
  else if text_is "#name?" then Some ErrName
  else if text_is "#value!" then Some ErrValue
  else if text_is "#div/0!" then Some ErrDiv
  else if text_is "#n/a" then Some ErrNa
  else if text_is "#num!" then Some ErrNum
  else if text_is "#error!" then Some ErrError
  else if text_is "#n/impl!" then Some ErrNImpl
  else if text_is "#spill!" then Some ErrSpill
  else if text_is "#calc!" then Some ErrCalc
  else if text_is "#circ!" then Some ErrCirc
  else if text_is "#cancelled!" then Some ErrCancelled
  else None.

Definition from_error_string (s : bytes) : ExcelError :=
  match try_parse s with
  | Some kind => {| error_kind := kind; error_message := None |}
  | None => {| error_kind := ErrError; error_message := Some (str "Unknown error code: " ++ s) |}
  end.

(** * Numbers

    [f64] and [str::parse::<f64>], which succeeds on the texts
    [parse_f64_is_ok] describes. *)
Class FloatText : Type := {
  f64 : Type;
  parse_f64 : bytes → option f64;
  parse_f64_ok : ∀ s, is_Some (parse_f64 s) ↔ parse_f64_is_ok s = true
}.

(** * The syntax tree *)

Section parser.
Context {F : FloatText}.

(** The literals the parser makes. *)
Inductive LiteralValue : Type :=
| LitNumber (x : f64)
| LitText (s : bytes)
| LitBoolean (b : bool)
| LitError (e : ExcelError).

Inductive ASTNode : Type :=
| Node (node_type : ASTNodeType) (source_token : option Token.t) (contains_volatile : bool)
with ASTNodeType : Type :=
| Lit (v : LiteralValue)
| Omitted
| Reference (original : bytes) (reference : ReferenceType)
| UnaryOp (op : bytes) (expr : ASTNode)
| BinaryOp (op : bytes) (left right : ASTNode)
| Function (name : bytes) (args : list ASTNode)
| Call (callee : ASTNode) (args : list ASTNode)
| ArrayLit (rows : list (list ASTNode)).

Definition contains_volatile (n : ASTNode) : bool := match n with Node _ _ v => v end.
Definition node_type (n : ASTNode) : ASTNodeType := match n with Node ty _ _ => ty end.
Definition new_node (ty : ASTNodeType) (tok : option Token.t) : ASTNode := Node ty tok false.

(** * Errors *)

Inductive ParserMessage : Type :=
| NoTokens
| UnexpectedToken (position : nat) (token : TokenSpan.t)
| TooDeep
| UnexpectedEnd
| UnexpectedPrimary (token : TokenSpan.t)
| ExpectedClosingParen
| InvalidNumber (value : bytes)
| InvalidReference (value : bytes) (e : ParsingError)
| UnexpectedSubtype (subtype : TokenSubType)
| InvalidFunctionToken
| UnterminatedCall
| ExpectedCallSeparator (token : TokenSpan.t)
| UnterminatedFunction
| ExpectedFunctionSeparator (token : TokenSpan.t)
| UnexpectedInArray (token : TokenSpan.t)
| RaggedArray
| TokenizerMessage (message : bytes).

Record ParserError : Type := { perr_message : ParserMessage; perr_position : option nat }.

Definition perr {A} (m : ParserMessage) (pos : nat) : result ParserError A :=
  Err {| perr_message := m; perr_position := Some pos |}.

(** * Tokens *)

Context (source : bytes) (tokens : list TokenSpan.t) (dialect : FormulaDialect)
  (volatility_classifier : option (bytes → bool)).

Definition is_white (t : TokenSpan.t) : bool := is_type (TokenSpan.token_type t) Whitespace.
Definition is_open (ty : TokenType) (t : TokenSpan.t) : bool :=
  is_type (TokenSpan.token_type t) ty && is_sub (TokenSpan.subtype t) Open.
Definition is_close (ty : TokenType) (t : TokenSpan.t) : bool :=
  is_type (TokenSpan.token_type t) ty && is_sub (TokenSpan.subtype t) Close.
Definition is_arg_sep (t : TokenSpan.t) : bool :=
  is_type (TokenSpan.token_type t) Sep && is_sub (TokenSpan.subtype t) Arg.

Definition skip_whitespace (position : nat) : nat :=
  position + length (span is_white (drop position tokens)).1.

(** [&self.source\[span.start..span.end\]]. *)
Definition span_value (s : TokenSpan.t) : result ParserError bytes :=
  expect (TokenStream.text source s).

Definition semantic_value (ty : TokenType) (value : bytes) : bytes :=
  if is_type ty OpInfix && contains " " value && forallb is_blank value then str " " else value.
Definition semantic_span_value (s : TokenSpan.t) : result ParserError bytes :=
  semantic_value (TokenSpan.token_type s) <$> span_value s.

Definition span_to_token (s : TokenSpan.t) : result ParserError Token.t :=
  value ← semantic_span_value s;
  Ok (Token.new_with_span value (TokenSpan.token_type s) (TokenSpan.subtype s)
        (TokenSpan.start s) (TokenSpan.end_ s)).

(** The precedence of an operator's text. *)
Definition op_precedence (op : bytes) : option (nat * Associativity) :=
  let op_is s := eqb_bytes op (str s) in
  if op_is "#" then Some (11, Left)
  else if op_is ":" then Some (10, Left)
  else if op_is " " then Some (9, Left)
  else if op_is "," then Some (8, Left)
  else if op_is "%" then Some (7, Left)
  else if op_is "u" then Some (6, Right)
  else if op_is "^" then Some (5, Right)
  else if op_is "*" || op_is "/" then Some (4, Left)
  else if op_is "+" || op_is "-" then Some (3, Left)
  else if op_is "&" then Some (2, Left)
  else if op_is "=" || op_is "<" || op_is ">" || op_is "<=" || op_is ">=" || op_is "<>"
  then Some (1, Left)
  else None.

Definition span_precedence (s : TokenSpan.t) : result ParserError (option (nat * Associativity)) :=
  match TokenSpan.token_type s with
  | OpPrefix => Ok (op_precedence (str "u"))
  | OpInfix | OpPostfix => op_precedence <$> semantic_span_value s
  | _ => Ok None
  end.

(** * Operands *)

(** Doubled quotes to single ones, on the text inside the quotes. *)
Fixpoint undouble (q : byte) (s : bytes) : bytes :=
  match s with
  | [] => []
  | c :: s1 =>
      if Ascii.eqb c q then
        match s1 with
        | d :: s2 => if Ascii.eqb d q then c :: undouble q s2 else c :: undouble q s1
        | [] => [c]
        end
      else c :: undouble q s1
  end.
Definition text_value (value : bytes) : bytes :=
  if starts_with quote value && ends_with quote value && (2 <=? length value)%nat
  then undouble quote (slice value 1 (length value - 1))
  else value.

Definition parse_operand (s : TokenSpan.t) (position : nat) : result ParserError ASTNode :=
  value ← span_value s;
  token ← span_to_token s;
  match TokenSpan.subtype s with
  | Number =>
      match parse_f64 value with
      | Some x => Ok (new_node (Lit (LitNumber x)) (Some token))
      | None => perr (InvalidNumber value) position
      end
  | Text => Ok (new_node (Lit (LitText (text_value value))) (Some token))
  | Logical =>
      Ok (new_node (Lit (LitBoolean (eq_ignore_ascii_case value (str "TRUE")))) (Some token))
  | Error => Ok (new_node (Lit (LitError (from_error_string value))) (Some token))
  | Token.Range =>
      match from_string_with_dialect value dialect with
      | Ok reference => Ok (new_node (Reference value reference) (Some token))
      | Err e => perr (InvalidReference value e) position
      | Panic => Panic
      end
  | sub => perr (UnexpectedSubtype sub) position
  end.

(** * Expressions

    [bp call min position] is [parse_bp] in the frames below; [parse_expression]
    is [bp] at 0. *)

Section frame.
Context (bp : nat → nat → nat → result ParserError (ASTNode * nat)).

Definition is_comma (t : TokenSpan.t) : result ParserError bool :=
  value ← span_value t; Ok (eqb_bytes value (str ",")).

(** The two argument loops differ in their separators, their closer and their
    messages. *)
Inductive arg_list : Type := CallArgs | FunctionArgs.

Definition arg_closer (kind : arg_list) : TokenType :=
  match kind with CallArgs => Paren | FunctionArgs => Func end.
Definition arg_separator (kind : arg_list) (t : TokenSpan.t) : result ParserError bool :=
  match kind with
  | FunctionArgs => Ok (is_arg_sep t)
  | CallArgs =>
      if is_arg_sep t then Ok true
      else if is_type (TokenSpan.token_type t) OpInfix then is_comma t
      else Ok false
  end.
Definition unterminated (kind : arg_list) : ParserMessage :=
  match kind with CallArgs => UnterminatedCall | FunctionArgs => UnterminatedFunction end.
Definition expected_separator (kind : arg_list) (t : TokenSpan.t) : ParserMessage :=
  match kind with CallArgs => ExpectedCallSeparator t | FunctionArgs => ExpectedFunctionSeparator t end.

Fixpoint args_loop (fuel : nat) (kind : arg_list) (call : nat) (expecting_argument saw_argument : bool)
  (args : list ASTNode) (position : nat) : result ParserError (list ASTNode * nat) :=
  match fuel with
  | O => Panic
  | S fuel =>
      let position := skip_whitespace position in
      match tokens !! position with
      | None => perr (unterminated kind) position
      | Some token =>
          is_separator ← arg_separator kind token;
          let is_close := is_close (arg_closer kind) token in
          if expecting_argument then
            if is_close then
              Ok (if saw_argument then args ++ [new_node Omitted None] else args, position + 1)
            else if (is_separator : bool) then
              args_loop fuel kind call true true (args ++ [new_node Omitted None]) (position + 1)
            else
              '(arg, position) ← bp call 0 position;
              args_loop fuel kind call false true (args ++ [arg]) position
          else if (is_separator : bool) then
            args_loop fuel kind call true saw_argument args (position + 1)
          else if is_close then Ok (args, position + 1)
          else perr (expected_separator kind token) position
      end
  end.

Definition loop_fuel : nat := 2 * length tokens + 2.

(** [parse_call_arguments] and [parse_function_arguments]: the closer right
    behind the opener ends an empty list. *)
Definition parse_arguments (kind : arg_list) (call : nat) (position : nat)
  : result ParserError (list ASTNode * nat) :=
  let position := skip_whitespace position in
  let closes :=
    match tokens !! position with Some t => is_close (arg_closer kind) t | None => false end in
  if closes then Ok ([], position + 1)
  else
    let call := match kind with CallArgs => call + 1 | FunctionArgs => call end in
    args_loop loop_fuel kind call true false [] position.
Definition parse_call_arguments := parse_arguments CallArgs.
Definition parse_function_arguments := parse_arguments FunctionArgs.

Definition parse_function (func_span : TokenSpan.t) (call position : nat)
  : result ParserError (ASTNode * nat) :=
  func_value ← span_value func_span;
  if bool_decide (func_value = []) then perr InvalidFunctionToken position
  else
    let name := take (length func_value - 1) func_value in
    '(args, position) ← parse_function_arguments call position;
    func_token ← span_to_token func_span;
    let this_is_volatile := match volatility_classifier with Some f => f name | None => false end in
    Ok (Node (Function name args) (Some func_token)
          (this_is_volatile || existsb contains_volatile args), position).

(** A separator that is neither of arguments nor of rows is looked at for ever. *)
Fixpoint array_loop (fuel : nat) (call : nat) (rows : list (list ASTNode)) (current_row : list ASTNode)
  (position : nat) : result ParserError (list (list ASTNode) * nat) :=
  match fuel with
  | O => Panic
  | S fuel =>
      let position := skip_whitespace position in
      match tokens !! position with
      | None => Ok (rows, position)
      | Some token =>
          if is_type (TokenSpan.token_type token) Sep then
            match TokenSpan.subtype token with
            | Arg =>
                '(item, position) ← bp call 0 (position + 1);
                array_loop fuel call rows (current_row ++ [item]) position
            | Token.Row =>
                '(item, position) ← bp call 0 (position + 1);
                array_loop fuel call (rows ++ [current_row]) [item] position
            | _ => array_loop fuel call rows current_row position
            end
          else if is_close Array token then Ok (rows ++ [current_row], position + 1)
          else perr (UnexpectedInArray token) position
      end
  end.

Definition ragged (rows : list (list ASTNode)) : bool :=
  match rows with
  | first :: _ => existsb (λ row, negb (length row =? length first)) rows
  | [] => false
  end.

Definition parse_array (call position : nat) : result ParserError (ASTNode * nat) :=
  let position := skip_whitespace position in
  let items :=
    '(item, position) ← bp call 0 position;
    '(rows, position) ← array_loop loop_fuel call [] [item] position;
    if ragged rows then perr RaggedArray (position - 1)
    else Ok (Node (ArrayLit rows) None (existsb (existsb contains_volatile) rows), position) in
  match tokens !! position with
  | Some t => if is_close Array t then Ok (new_node (ArrayLit []) None, position + 1) else items
  | None => items
  end.

Definition parse_primary (call position : nat) : result ParserError (ASTNode * nat) :=
  let position := skip_whitespace position in
  match tokens !! position with
  | None => perr UnexpectedEnd position
  | Some token =>
      match TokenSpan.token_type token with
      | Operand =>
          node ← parse_operand token (position + 1);
          Ok (node, position + 1)
      | Func => parse_function token call (position + 1)
      | _ =>
          if is_open Paren token then
            '(expr, position) ← bp call 0 (position + 1);
            let position := skip_whitespace position in
            match tokens !! position with
            | Some t => if is_close Paren t then Ok (expr, position + 1)
                        else perr ExpectedClosingParen position
            | None => perr ExpectedClosingParen position
            end
          else if is_open Array token then parse_array call (position + 1)
          else perr (UnexpectedPrimary token) position
      end
  end.

Definition parse_prefix (call position : nat) : result ParserError (ASTNode * nat) :=
  let position := skip_whitespace position in
  match tokens !! position with
  | Some token =>
      if is_type (TokenSpan.token_type token) OpPrefix then
        prec ← span_precedence token;
        let precedence := match prec with Some (p, _) => p | None => 0 end in
        '(expr, position) ← bp call precedence (position + 1);
        op_token ← span_to_token token;
        Ok (Node (UnaryOp (Token.value op_token) expr) (Some op_token) (contains_volatile expr), position)
      else parse_primary call position
  | None => parse_primary call position
  end.

(** The loop of [parse_bp_inner]. *)
Fixpoint bp_loop (fuel : nat) (call min_precedence : nat) (left : ASTNode) (position : nat)
  : result ParserError (ASTNode * nat) :=
  match fuel with
  | O => Panic
  | S fuel =>
      let position := skip_whitespace position in
      match tokens !! position with
      | None => Ok (left, position)
      | Some token =>
          if is_open Paren token then
            '(args, position) ← parse_call_arguments call (position + 1);
            let call_volatile := contains_volatile left || existsb contains_volatile args in
            bp_loop fuel call min_precedence (Node (Call left args) None call_volatile) position
          else
            match TokenSpan.token_type token with
            | OpPostfix =>
                prec ← span_precedence token;
                let precedence := match prec with Some (p, _) => p | None => 0 end in
                if (precedence <? min_precedence)%nat then Ok (left, position)
                else
                  op_token ← span_to_token token;
                  bp_loop fuel call min_precedence
                    (Node (UnaryOp (Token.value op_token) left) (Some op_token) (contains_volatile left))
                    (position + 1)
            | OpInfix =>
                separator ← (if (0 <? call)%nat then is_comma token else Ok false);
                if (separator : bool) then Ok (left, position)
                else
                  prec ← span_precedence token;
                  let '(precedence, associativity) := default (0, Left) prec in
                  if (precedence <? min_precedence)%nat then Ok (left, position)
                  else
                    let next_min := match associativity with Left => precedence + 1 | Right => precedence end in
                    '(rhs, position) ← bp call next_min (position + 1);
                    op_token ← span_to_token token;
                    bp_loop fuel call min_precedence
                      (Node (BinaryOp (Token.value op_token) left rhs) (Some op_token)
                         (contains_volatile left || contains_volatile rhs))
                      position
            | _ => Ok (left, position)
            end
      end
  end.

Definition parse_bp_inner (call min_precedence position : nat) : result ParserError (ASTNode * nat) :=
  '(lhs, position) ← parse_prefix call position;
  bp_loop loop_fuel call min_precedence lhs position.

End frame.

Definition MAX_PARSE_DEPTH : nat := 72.

Fixpoint parse_bp (frames : nat) (call min_precedence position : nat)
  : result ParserError (ASTNode * nat) :=
  match frames with
  | O => perr TooDeep position
  | S frames => parse_bp_inner (parse_bp frames) call min_precedence position
  end.

Definition parse_expression (position : nat) : result ParserError (ASTNode * nat) :=
  parse_bp MAX_PARSE_DEPTH 0 0 position.

Definition no_tokens {A} : result ParserError A :=
  Err {| perr_message := NoTokens; perr_position := None |}.

(** Nothing but blanks may follow. *)
Definition at_end {A} (node : A) (position : nat) : result ParserError A :=
  let position := skip_whitespace position in
  match tokens !! position with
  | Some t => perr (UnexpectedToken position t) position
  | None => Ok node
  end.

Definition parse_tokens : result ParserError ASTNode :=
  if bool_decide (tokens = []) then no_tokens
  else
    let position := skip_whitespace 0 in
    match tokens !! position with
    | None => no_tokens
    | Some t =>
        if is_type (TokenSpan.token_type t) Literal then
          t ← at_end t (position + 1);
          token ← span_to_token t;
          Ok (new_node (Lit (LitText (Token.value token))) (Some token))
        else
          '(ast, position) ← parse_expression position;
          at_end ast position
    end.

End parser.

(** * Entry points *)

Section entry.
Context {F : FloatText}.

(** [impl From<TokenizerError> for ParserError]. *)
Definition to_parser_error (e : TokenizerError) : ParserError :=
  {| perr_message := TokenizerMessage (message e); perr_position := Some (pos e) |}.

Definition parse_with_dialect_and_volatility_classifier (formula : bytes) (dialect : FormulaDialect)
  (classifier : option (bytes → bool)) : result ParserError ASTNode :=
  spans ← map_err to_parser_error (tokenize_spans_with_dialect formula dialect);
  parse_tokens formula spans dialect classifier.

Definition parse_with_volatility_classifier (formula : bytes) (classifier : bytes → bool)
  : result ParserError ASTNode :=
  parse_with_dialect_and_volatility_classifier formula Excel (Some classifier).

Definition parse_with_dialect (formula : bytes) (dialect : FormulaDialect) : result ParserError ASTNode :=
  parse_with_dialect_and_volatility_classifier formula dialect None.

Definition parse (formula : bytes) : result ParserError ASTNode := parse_with_dialect formula Excel.

(** ** [BatchParser] *)

Record BatchParser : Type := {
  include_whitespace : bool;
  batch_classifier : option (bytes → bool);
  token_cache : gmap (list ascii) (list TokenSpan.t);
  batch_dialect : FormulaDialect
}.

Definition build_batch (include_whitespace : bool) (classifier : option (bytes → bool))
  (dialect : FormulaDialect) : BatchParser :=
  {| include_whitespace := include_whitespace; batch_classifier := classifier;
     token_cache := ∅; batch_dialect := dialect |}.

(** The tokens of a formula as the batch parser keeps them. *)
Definition batch_tokens (bp : BatchParser) (formula : bytes) : result ParserError (list TokenSpan.t) :=
  spans ← map_err to_parser_error (tokenize_spans_with_dialect formula (batch_dialect bp));
  Ok (if include_whitespace bp then spans else List.filter (λ t, negb (is_white t)) spans).

Definition batch_parse (bp : BatchParser) (formula : bytes)
  : BatchParser * result ParserError ASTNode :=
  let run spans := parse_tokens formula spans (batch_dialect bp) (batch_classifier bp) in
  match token_cache bp !! formula with
  | Some spans => (bp, run spans)
  | None =>
      match batch_tokens bp formula with
      | Ok spans =>
          ({| include_whitespace := include_whitespace bp; batch_classifier := batch_classifier bp;
              token_cache := <[formula := spans]> (token_cache bp);
              batch_dialect := batch_dialect bp |}, run spans)
      | Err e => (bp, Err e)
      | Panic => (bp, Panic)
      end
  end.

End entry.

(** * Numbers by their text *)

Definition text_f64 (s : bytes) : option bytes := if parse_f64_is_ok s then Some s else None.

#[export] Instance text_floats : FloatText.
Proof.
  refine {| f64 := bytes; parse_f64 := text_f64 |}.
  intros s. unfold text_f64. destruct (parse_f64_is_ok s); [|by split; [intros []|]].
  by split; [|eexists].
Defined.

(** The tree in prefix notation, for the examples. *)
Fixpoint show_node (n : ASTNode) : bytes :=
  let show_list l := List.concat (List.map (λ n, str " " ++ show_node n) l) in
  match node_type n with
  | Lit (LitNumber x) => x
  | Lit (LitText s) => str "'" ++ s
  | Lit (LitBoolean b) => if b then str "TRUE" else str "FALSE"
  | Lit (LitError _) => str "#"
  | Omitted => str "_"
  | Reference original _ => original
  | UnaryOp op e => str "(" ++ op ++ str " " ++ show_node e ++ str ")"
  | BinaryOp op l r => str "(" ++ op ++ str " " ++ show_node l ++ str " " ++ show_node r ++ str ")"
  | Function name args => str "(" ++ name ++ show_list args ++ str ")"
  | Call callee args => str "(call " ++ show_node callee ++ show_list args ++ str ")"
  | ArrayLit rows => str "{" ++ List.concat (List.map (λ row, show_list row ++ str ";") rows) ++ str "}"
  end.

Definition shown (s : string) : result ParserError bytes := show_node <$> parse (str s).

Example parse_precedence : shown "=-2^3^A1%*4 + 1" = Ok (str "(+ (* (^ (- 2) (^ 3 (% A1))) 4) 1)").
Proof. vm_compute. reflexivity. Qed.
Example parse_calls : shown "=LAMBDA(x, x+1)(5, )" = Ok (str "(call (LAMBDA x (+ x 1)) 5 _)").
Proof. vm_compute. reflexivity. Qed.
Example parse_array_ex : shown "={1,2;3,4}" = Ok (str "{ 1 2; 3 4;}").
Proof. vm_compute. reflexivity. Qed.
Example parse_error_ex : shown "=1+" = Err {| perr_message := UnexpectedEnd; perr_position := Some 2 |}.
Proof. vm_compute. reflexivity. Qed.

(** A union in parentheses is read outside of a call's arguments only. *)
Example union_outside_call : shown "=SUM((A1,B1))" = Ok (str "(SUM (, A1 B1))").
Proof. vm_compute. reflexivity. Qed.
Example union_inside_call :
  shown "=LAMBDA(x,x)((A1,B1))" = Err {| perr_message := ExpectedClosingParen; perr_position := Some 8 |}.
Proof. vm_compute. reflexivity. Qed.
