(* ===== verification/OwnedTokenizer.v ===== *)
(** The owning tokenizer ([Tokenizer] of
    [crates/formualizer-parse/src/tokenizer.rs]), which builds tokens with their
    text where the span tokenizer keeps offsets.

    The source repeats the scanning loops of [SpanTokenizer]; the model shares
    them ([string_loop], [brackets_loop], [matching_error_code], ...).  An error
    ends the run and drops the tokenizer, so the fallible methods return the
    next state or the error. *)
From S2P Require Import Prelude Token SpanTokenizer.

Module Tokenizer.

Record t : Type := {
  formula : bytes;
  items : list Token.t;
  token_stack : list Token.t;
  offset : nat;
  token_start : nat;
  token_end : nat;
  dialect : FormulaDialect
}.

Definition make (formula : bytes) (items : list Token.t) (dialect : FormulaDialect) : t :=
  {| formula := formula; items := items; token_stack := []; offset := 0;
     token_start := 0; token_end := 0; dialect := dialect |}.

Definition push (tok : Token.t) (st : t) : t :=
  {| formula := formula st; items := items st ++ [tok]; token_stack := token_stack st;
     offset := offset st; token_start := token_start st; token_end := token_end st;
     dialect := dialect st |}.
Definition set_stack (v : list Token.t) (st : t) : t :=
  {| formula := formula st; items := items st; token_stack := v;
     offset := offset st; token_start := token_start st; token_end := token_end st;
     dialect := dialect st |}.
Definition set_offset (v : nat) (st : t) : t :=
  {| formula := formula st; items := items st; token_stack := token_stack st;
     offset := v; token_start := token_start st; token_end := token_end st;
     dialect := dialect st |}.
Definition set_token (s e : nat) (st : t) : t :=
  {| formula := formula st; items := items st; token_stack := token_stack st;
     offset := offset st; token_start := s; token_end := e; dialect := dialect st |}.

Definition current_byte (st : t) : option byte := formula st !! offset st.
Definition has_token (st : t) : bool := bool_decide (token_start st < token_end st).
Definition start_token (st : t) : t := set_token (offset st) (offset st) st.
Definition extend_token (st : t) : t := set_token (token_start st) (offset st) st.
Definition token_text (st : t) : bytes := slice (formula st) (token_start st) (token_end st).

(** [Token::from_slice(&self.formula, ...)], pushed. *)
Definition push_slice (ty : TokenType) (sub : TokenSubType) (s e : nat) (st : t) : t :=
  push (Token.from_slice (formula st) ty sub s e) st.

Definition save_token (st : t) : t :=
  if has_token st then
    push (Token.make_operand_from_slice (formula st) (token_start st) (token_end st)) st
  else st.

Definition err (message : bytes) (pos : nat) : result TokenizerError t :=
  Err {| Token.message := message; Token.pos := pos |}.

(** ** Scientific notation *)

Definition is_scientific_notation_base (st : t) : bool :=
  has_token st && scientific_base (token_text st).

Definition check_scientific_notation (st : t) : option t :=
  match current_byte st with
  | Some curr_byte =>
      if one_of curr_byte "+-" && has_token st && is_scientific_notation_base st
         && digit_at (formula st) (offset st + 1)
      then Some (extend_token (set_offset (offset st + 1) st))
      else None
  | None => None
  end.

(** ** Looking back *)

Definition prev_non_whitespace (st : t) : option Token.t :=
  List.find (λ t, negb (is_type (Token.token_type t) Whitespace)) (reverse (items st)).

Definition closes_reference (range_ok : Token.t → bool) (prev : option Token.t) : bool :=
  match prev with
  | Some p =>
      match Token.token_type p with
      | OpPostfix => true
      | Paren | Func | Array => is_sub (Token.subtype p) Close
      | Operand => is_sub (Token.subtype p) Range && range_ok p
      | _ => false
      end
  | None => false
  end.

Definition prev_is_reference_producing (st : t) : bool :=
  closes_reference (λ p, is_reference_operand_value (Token.value p)) (prev_non_whitespace st).

Definition should_emit_colon_infix (st : t) : bool :=
  if has_token st then
    let value := token_text st in
    if ends_with "!" value then false
    else reference_value_contains_range_colon value
         || value_has_structured_reference_bracket value
         || (contains "!" value
             && next_reference_has_sheet_qualifier (formula st) (offset st + 1))
  else prev_is_reference_producing st.

(** Unlike [operand_subtype], case-sensitive on [TRUE] and [FALSE]. *)
Definition is_range_text (value : bytes) : bool :=
  negb (starts_with quote value) && negb (starts_with "#" value)
  && negb (eqb_bytes value (str "TRUE")) && negb (eqb_bytes value (str "FALSE"))
  && negb (parse_f64_is_ok value).

Definition should_emit_hash_postfix (st : t) : bool :=
  if has_token st then
    if byte_at (formula st) (token_end st - 1) "!" then false
    else is_range_text (token_text st)
  else closes_reference (λ _, true) (prev_non_whitespace st).

Definition emit_hash_postfix (st : t) : t :=
  let st := start_token (save_token st) in
  let st := push_slice OpPostfix NoSub (offset st) (offset st + 1) st in
  start_token (set_offset (offset st + 1) st).

Definition emit_infix_operator (s e : nat) (st : t) : t :=
  let st := start_token (save_token st) in
  start_token (set_offset e (push_slice OpInfix NoSub s e st)).

(** ** Parsing methods *)

Definition parse_string (st : t) : result TokenizerError t :=
  delim ← expect (formula st !! offset st);
  if negb (Ascii.eqb delim quote || Ascii.eqb delim "'") then Panic else
  let is_dollar_ref :=
    Ascii.eqb delim "'" && has_token st && (token_end st - token_start st =? 1)
    && byte_at (formula st) (token_start st) "$" in
  let glue_to_token :=
    Ascii.eqb delim "'" && has_token st && (0 <? token_end st)
    && byte_at (formula st) (token_end st - 1) ":" in
  let st :=
    if negb is_dollar_ref && negb glue_to_token && has_token st
    then start_token (save_token st) else st in
  let string_start := if is_dollar_ref then token_start st else offset st in
  let '(closed, off) :=
    string_loop delim (drop (offset st + 1) (formula st)) (offset st + 1) in
  let st := set_offset off st in
  if closed then
    if Ascii.eqb delim quote then
      Ok (start_token (push (Token.make_operand_from_slice (formula st) string_start off) st))
    else Ok (set_token (token_start st) off st)
  else err (str "Reached end of formula while parsing string") off.

Definition parse_brackets (st : t) : result TokenizerError t :=
  c ← expect (formula st !! offset st);
  if negb (Ascii.eqb c "[") then Panic else
  let st := if negb (has_token st) then start_token st else st in
  let '(closed, off) :=
    brackets_loop (drop (offset st + 1) (formula st)) (offset st + 1) 1 in
  let st := set_offset off st in
  if closed then Ok (extend_token st)
  else err (str "Encountered unmatched '['") off.

Definition has_sheet_prefix (st : t) : bool :=
  has_token st && (0 <? token_end st) && byte_at (formula st) (token_end st - 1) "!".

Definition parse_error (st : t) : result TokenizerError t :=
  if has_sheet_prefix st && (token_end st - token_start st <=? 1) then
    err (str "Empty sheet qualifier before error literal at position "
           ++ fmt_dec (Z.of_nat (offset st))) (offset st)
  else
    let st :=
      if has_sheet_prefix st then start_token st
      else if has_token st then start_token (save_token st)
      else st in
    match matching_error_code (formula st) (offset st) with
    | Some err_code =>
        let st := push (Token.make_operand_from_slice (formula st) (offset st)
                          (offset st + length err_code)) st in
        Ok (start_token (set_offset (offset st + length err_code) st))
    | None =>
        err (str "Invalid error code at position " ++ fmt_dec (Z.of_nat (offset st))) (offset st)
    end.

Definition parse_whitespace (st : t) : t :=
  let st := save_token st in
  let ws_start := offset st in
  let blanks := (span is_blank (drop (offset st) (formula st))).1 in
  let contains_intersection_space := contains " " blanks in
  let st := set_offset (offset st + length blanks) st in
  let token :=
    if contains_intersection_space && prev_is_reference_producing st
       && next_starts_reference_expression (formula st) (offset st)
    then Token.new_with_span (str " ") OpInfix NoSub ws_start (offset st)
    else Token.from_slice (formula st) Whitespace NoSub ws_start (offset st) in
  start_token (push token st).

Definition sign_type (st : t) : TokenType :=
  if bool_decide (items st = []) then OpPrefix
  else
    match prev_non_whitespace st with
    | Some p =>
        if is_sub (Token.subtype p) Close || is_type (Token.token_type p) OpPostfix
           || is_type (Token.token_type p) Operand
        then OpInfix else OpPrefix
    | None => OpPrefix
    end.

Definition parse_operator (st : t) : result TokenizerError t :=
  let st := save_token st in
  if (offset st + 1 <? length (formula st))
     && is_two_char_operator (slice (formula st) (offset st) (offset st + 2))
  then
    let st := push_slice OpInfix NoSub (offset st) (offset st + 2) st in
    Ok (start_token (set_offset (offset st + 2) st))
  else
    curr_byte ← expect (formula st !! offset st);
    let token_type :=
      if Ascii.eqb curr_byte "@" then OpPrefix
      else if Ascii.eqb curr_byte "%" then OpPostfix
      else if one_of curr_byte "+-" then sign_type st
      else OpInfix in
    let st := push_slice token_type NoSub (offset st) (offset st + 1) st in
    Ok (start_token (set_offset (offset st + 1) st)).

Definition parse_opener (st : t) : result TokenizerError t :=
  curr_byte ← expect (formula st !! offset st);
  if negb (one_of curr_byte "({") then Panic else
  '(st, token) ←
    (if Ascii.eqb curr_byte "{" then
       let st := save_token st in
       token ← Token.make_subexp_from_slice (formula st) false (offset st) (offset st + 1);
       Ok (st, token)
     else if has_token st then
       token ← Token.make_subexp_from_slice (formula st) true (token_start st) (offset st + 1);
       Ok (set_token (offset st + 1) (offset st + 1) st, token)
     else
       token ← Token.make_subexp_from_slice (formula st) false (offset st) (offset st + 1);
       Ok (st, token));
  let st := push token st in
  let st := set_stack (token_stack st ++ [token]) st in
  Ok (start_token (set_offset (offset st + 1) st)).

Definition parse_closer (st : t) : result TokenizerError t :=
  let st := save_token st in
  curr_byte ← expect (formula st !! offset st);
  if negb (one_of curr_byte ")}") then Panic else
  match last (token_stack st) with
  | Some open_token =>
      let st := set_stack (removelast (token_stack st)) st in
      closer ← Token.get_closer open_token;
      if (Ascii.eqb curr_byte "}" && negb (eqb_bytes (Token.value closer) (str "}")))
         || (Ascii.eqb curr_byte ")" && negb (eqb_bytes (Token.value closer) (str ")")))
      then err (str "Mismatched ( and { pair") (offset st)
      else
        let st := push_slice (Token.token_type closer) Close (offset st) (offset st + 1) st in
        Ok (start_token (set_offset (offset st + 1) st))
  | None =>
      err (str "No matching opener for closer at position " ++ fmt_dec (Z.of_nat (offset st)))
        (offset st)
  end.

Definition parse_separator (st : t) : result TokenizerError t :=
  let st := save_token st in
  curr_byte ← expect (formula st !! offset st);
  if negb (one_of curr_byte ";,") then Panic else
  let '(token_type, subtype) :=
    separator_type (dialect st) (Token.token_type <$> last (token_stack st)) curr_byte in
  let st := push_slice token_type subtype (offset st) (offset st + 1) st in
  Ok (start_token (set_offset (offset st + 1) st)).

(** ** The main loop *)

Definition accumulate (st : t) : t :=
  let st := if negb (has_token st) then start_token st else st in
  extend_token (set_offset (offset st + 1) st).

Definition dispatch (curr_byte : byte) (st : t) : result TokenizerError t :=
  if Ascii.eqb curr_byte quote || Ascii.eqb curr_byte "'" then parse_string st
  else if Ascii.eqb curr_byte "[" then parse_brackets st
  else if Ascii.eqb curr_byte "#" then
    if should_emit_hash_postfix st then Ok (emit_hash_postfix st) else parse_error st
  else if is_blank curr_byte then Ok (parse_whitespace st)
  else if Ascii.eqb curr_byte ":" then
    if should_emit_colon_infix st
    then Ok (emit_infix_operator (offset st) (offset st + 1) st)
    else Ok (accumulate st)
  else if one_of curr_byte "+-*/^&=><%@" then parse_operator st
  else if one_of curr_byte "{(" then parse_opener st
  else if one_of curr_byte ")}" then parse_closer st
  else if one_of curr_byte ";," then parse_separator st
  else Ok (accumulate st).

Definition step (st : t) : result TokenizerError t :=
  match check_scientific_notation st with
  | Some st => Ok st
  | None =>
      curr_byte ← expect (formula st !! offset st);
      dispatch curr_byte
        (if is_token_ender curr_byte && has_token st then start_token (save_token st) else st)
  end.

Fixpoint parse_loop (fuel : nat) (st : t) : result TokenizerError t :=
  if decide (offset st < length (formula st)) then
    match fuel with
    | O => Panic
    | S fuel => st ← step st; parse_loop fuel st
    end
  else Ok st.

Definition finish (st : t) : result TokenizerError t :=
  let st := if has_token st then save_token st else st in
  if bool_decide (token_stack st ≠ []) then
    err (str "Unmatched opening parenthesis or bracket") (offset st)
  else Ok st.

Definition parse (st : t) : result TokenizerError t :=
  match formula st with
  | [] => Ok st
  | c :: _ =>
      if negb (Ascii.eqb c "=") then
        Ok (push (Token.new_with_span (formula st) Literal NoSub 0 (length (formula st))) st)
      else
        st ← parse_loop (loop_fuel (formula st)) (start_token (set_offset 1 st));
        finish st
  end.

(** ** Constructors and rendering *)

Definition new_with_dialect (formula : bytes) (dialect : FormulaDialect) : result TokenizerError t :=
  parse (make formula [] dialect).
Definition new (formula : bytes) : result TokenizerError t := new_with_dialect formula Excel.

Definition from_token_stream (stream : TokenStream.t) : t :=
  make (TokenStream.source stream) (TokenStream.to_tokens stream) (TokenStream.dialect stream).

Definition new_best_effort_with_dialect (formula : bytes) (dialect : FormulaDialect) : t :=
  from_token_stream (TokenStream.new_best_effort_with_dialect formula dialect).
Definition new_best_effort (formula : bytes) : t := new_best_effort_with_dialect formula Excel.

Definition render (st : t) : bytes :=
  match items st with
  | [] => []
  | first :: _ =>
      if is_type (Token.token_type first) Literal then Token.value first
      else str "=" ++ List.concat (Token.value <$> items st)
  end.

End Tokenizer.

Example owned_render : 
  Tokenizer.render <$> Tokenizer.new (str "=IF(A1>=10, 'My Sheet'!B2#, {1;2})") =
  Ok (str "=IF(A1>=10, 'My Sheet'!B2#, {1;2})").
Proof. vm_compute. reflexivity. Qed.

(** The two tokenizers differ on a logical literal that is not in upper case. *)
Example hash_after_true :
  Tokenizer.items <$> Tokenizer.new (str "=true#REF!") =
    Ok [Token.make_operand_with_span (str "true") 1 5;
        Token.new_with_span (str "#") OpPostfix NoSub 5 6;
        Token.make_operand_with_span (str "REF!") 6 10] ∧
  TokenStream.to_tokens <$> TokenStream.new (str "=true#REF!") =
    Ok [Token.make_operand_with_span (str "true") 1 5;
        Token.make_operand_with_span (str "#REF!") 5 10].
Proof. vm_compute. split; reflexivity. Qed.
