(* ===== verification/SpanFacts.v ===== *)
(** What the span tokenizer guarantees: it never panics and always ends, its
    spans are ordered and inside the formula, they tile it when no sheet prefix
    is dropped, brackets nest, and best-effort tokenization agrees with the
    strict one. *)
From S2P Require Import Prelude Token SpanTokenizer.

(** * Chains of spans

    [chained R lo ss hi]: the spans are non-empty, in order from [lo] to [hi],
    and [R] relates each end to the next start.  With [R := le] they are
    ordered and disjoint, with [R := eq] they tile [lo .. hi). *)
Fixpoint chained (R : nat → nat → Prop) (lo : nat) (ss : list TokenSpan.t) (hi : nat) : Prop :=
  match ss with
  | [] => R lo hi
  | s :: ss =>
      R lo (TokenSpan.start s) ∧ TokenSpan.start s < TokenSpan.end_ s ∧
      chained R (TokenSpan.end_ s) ss hi
  end.

(** A class for the two relations: a preorder inside [le]. *)
Class ChainRel (R : nat → nat → Prop) : Prop := {
  #[global] chain_preorder :: PreOrder R;
  chain_le a b : R a b → a ≤ b
}.
#[export] Instance chain_le_rel : ChainRel le.
Proof. split; [apply _|done]. Qed.
#[export] Instance chain_eq_rel : ChainRel eq.
Proof. split; [apply _|lia]. Qed.

Section chained.
Context {R : nat → nat → Prop} `{!ChainRel R}.

Lemma chained_trans_r lo ss a b : chained R lo ss a → R a b → chained R lo ss b.
Proof.
  revert lo. induction ss as [|s ss IH]; simpl; intros lo; [by intros ? <-|].
  intros (?&?&?) ?. eauto.
Qed.

Lemma chained_snoc lo ss a s b :
  chained R lo ss a → R a (TokenSpan.start s) → TokenSpan.start s < TokenSpan.end_ s →
  R (TokenSpan.end_ s) b → chained R lo (ss ++ [s]) b.
Proof.
  revert lo. induction ss as [|t ss IH]; simpl; intros lo.
  - intros ? ?. split; [by etrans|done].
  - intros (?&?&?) ???. eauto.
Qed.

Lemma chained_weaken lo ss hi : chained R lo ss hi → chained le lo ss hi.
Proof.
  revert lo. induction ss as [|s ss IH]; simpl; intros lo; [apply chain_le|].
  intros (?%chain_le&?&?). eauto.
Qed.
End chained.

Lemma chained_bounds lo ss hi : chained le lo ss hi → lo ≤ hi ∧
  Forall (λ s, lo ≤ TokenSpan.start s ∧ TokenSpan.start s < TokenSpan.end_ s ∧ TokenSpan.end_ s ≤ hi) ss.
Proof.
  revert lo. induction ss as [|s ss IH]; simpl; intros lo; [by intros; split|].
  intros (?&?&[? Hss]%IH). split; [lia|]. constructor; [lia|].
  eapply Forall_impl; [exact Hss|]. simpl. intros t ?. lia.
Qed.

(** * Nesting of brackets *)

(** The types of the tokens that open a bracket. *)
Definition opener_type (ty : TokenType) : bool :=
  match ty with Array | Func | Paren => true | _ => false end.

(** A token that opens and closes nothing; a separator is one of arguments or
    of rows. *)
Definition plain_sub (ty : TokenType) (sub : TokenSubType) : bool :=
  match sub with
  | Open | Close => false
  | Arg | Row => true
  | _ => negb (is_type ty Sep)
  end.

Definition nest_step (acc : option (list TokenSpan.t)) (s : TokenSpan.t) : option (list TokenSpan.t) :=
  stk ← acc;
  match TokenSpan.subtype s with
  | Open => if opener_type (TokenSpan.token_type s) then Some (stk ++ [s]) else None
  | Close =>
      o ← last stk;
      if decide (TokenSpan.token_type o = TokenSpan.token_type s) then Some (removelast stk)
      else None
  | sub => if plain_sub (TokenSpan.token_type s) sub then Some stk else None
  end.

(** The openers left open by a sequence of spans, [None] when a closer has no
    opener or one of another type, or a separator is neither an argument nor a row
    separator. *)
Definition open_brackets (ss : list TokenSpan.t) : option (list TokenSpan.t) :=
  fold_left nest_step ss (Some []).

Lemma open_brackets_snoc ss s : open_brackets (ss ++ [s]) = nest_step (open_brackets ss) s.
Proof. unfold open_brackets. by rewrite fold_left_app. Qed.

Definition plain (ty : TokenType) (sub : TokenSubType) : Prop := plain_sub ty sub = true.

Lemma nest_plain stk s : plain (TokenSpan.token_type s) (TokenSpan.subtype s) →
  nest_step (Some stk) s = Some stk.
Proof.
  unfold plain, nest_step. intros Hp. destruct (TokenSpan.subtype s); simpl in *; try done; by rewrite Hp.
Qed.

Lemma operand_plain v : plain Operand (operand_subtype v).
Proof. unfold operand_subtype, plain. repeat case_match; done. Qed.

Lemma open_brackets_open ss stk : open_brackets ss = Some stk →
  Forall (λ s, TokenSpan.subtype s = Open ∧ opener_type (TokenSpan.token_type s) = true) stk.
Proof.
  revert stk. induction ss as [|s ss IH] using rev_ind; intros stk; [by intros [= <-]|].
  rewrite open_brackets_snoc. destruct (open_brackets ss) as [stk0|]; [|done].
  specialize (IH _ eq_refl). unfold nest_step. simpl. intros H.
  destruct (TokenSpan.subtype s) eqn:?; simplify_eq/=; try done; try (by case_match; simplify_eq).
  - destruct (opener_type _) eqn:?; simplify_eq. apply Forall_app. by split; [|constructor].
  - destruct (last stk0) eqn:Hl; [|done]. simpl in H. case_decide; [|done].
    injection H as <-. apply last_Some in Hl as [l ->]. rewrite removelast_last.
    by apply Forall_app in IH as [? _].
Qed.

Definition sep_ok (s : TokenSpan.t) : Prop :=
  TokenSpan.token_type s = Sep → TokenSpan.subtype s = Arg ∨ TokenSpan.subtype s = Row.

Lemma open_brackets_seps ss stk : open_brackets ss = Some stk → Forall sep_ok ss.
Proof.
  revert stk. induction ss as [|s ss IH] using rev_ind; intros stk; [by constructor|].
  rewrite open_brackets_snoc. destruct (open_brackets ss) as [stk0|] eqn:E; [|done].
  intros H. apply Forall_app. split; [by eapply IH|]. constructor; [|done]. intros Hty.
  unfold nest_step in H. simpl in H. rewrite Hty in H.
  destruct (TokenSpan.subtype s); simplify_eq/=; auto.
  destruct (last stk0) as [o|] eqn:Hl; [|done]. apply open_brackets_open in E.
  apply last_Some in Hl as [l ->]. apply Forall_app in E as [_ E].
  apply Forall_cons in E as [[_ Ho] _]. simpl in H. case_decide as Ht; [|done]. by rewrite Ht in Ho.
Qed.

(** * Fields of the auxiliary states *)

Create Rewrite HintDb span_fields.

Lemma formula_save st : formula (save_token st) = formula st.
Proof. unfold save_token. by destruct (has_token st). Qed.
Lemma offset_save st : offset (save_token st) = offset st.
Proof. unfold save_token. by destruct (has_token st). Qed.
Lemma token_start_save st : token_start (save_token st) = token_start st.
Proof. unfold save_token. by destruct (has_token st). Qed.
Lemma token_end_save st : token_end (save_token st) = token_end st.
Proof. unfold save_token. by destruct (has_token st). Qed.
Lemma token_stack_save st : token_stack (save_token st) = token_stack st.
Proof. unfold save_token. by destruct (has_token st). Qed.
Lemma dialect_save st : dialect (save_token st) = dialect st.
Proof. unfold save_token. by destruct (has_token st). Qed.
Lemma diagnostics_save st : diagnostics (save_token st) = diagnostics st.
Proof. unfold save_token. by destruct (has_token st). Qed.
#[export] Hint Rewrite formula_save offset_save token_start_save token_end_save
  token_stack_save dialect_save diagnostics_save : span_fields.

(** [fields] computes the fields of a state the methods build. *)
Ltac fields :=
  cbn [start_token extend_token push_span set_spans set_stack set_offset set_token push_diagnostic
       formula spans token_stack offset token_start token_end dialect diagnostics] in *;
  autorewrite with span_fields in *;
  cbn [start_token extend_token push_span set_spans set_stack set_offset set_token push_diagnostic
       formula spans token_stack offset token_start token_end dialect diagnostics] in *.

Lemma has_token_spec st : has_token st = true ↔ token_start st < token_end st.
Proof. unfold has_token. apply bool_decide_eq_true. Qed.
Lemma has_token_false st : has_token st = false ↔ token_end st ≤ token_start st.
Proof. unfold has_token. rewrite bool_decide_eq_false. lia. Qed.

(** * The invariant of the main loop *)

Record inv (R : nat → nat → Prop) (st : SpanTokenizer) : Prop := {
  inv_lo : 1 ≤ token_start st;
  inv_tok : token_start st ≤ token_end st;
  inv_end : token_end st = offset st;
  inv_len : offset st ≤ length (formula st);
  inv_chain : chained R 1 (spans st) (token_start st);
  inv_nest : open_brackets (spans st) = Some (token_stack st)
}.

(** The fields the parsing methods leave alone. *)
Definition same_text (st st' : SpanTokenizer) : Prop :=
  formula st' = formula st ∧ dialect st' = dialect st ∧ diagnostics st' = diagnostics st.

#[export] Instance same_text_preorder : PreOrder same_text.
Proof. unfold same_text. split; [done|]. intros a b c (?&?&?) (?&?&?). repeat split; congruence. Qed.

(** The span [recover_from_error] emits. *)
Definition recover_bounds (e : SpanTokenizerError) (f : bytes) : nat * nat :=
  match kind e with
  | NoMatchingOpener | MismatchedPair => (err_pos e, err_pos e + 1)
  | UnterminatedString => (default (err_pos e) (span_start e), length f)
  | UnmatchedBracket => (default (err_pos e) (span_start e), default (length f) (span_end e))
  | InvalidErrorLiteral => (default (err_pos e) (span_start e), default (err_pos e + 1) (span_end e))
  | UnmatchedOpening => (0, 0)
  end.

(** An error is recoverable: its span lies behind the spans so far, and ends
    behind the offset, or at the offset when a token was pending. *)
Record recoverable (R : nat → nat → Prop) (st st' : SpanTokenizer) (e : SpanTokenizerError) : Prop := {
  rec_kind : kind e ≠ UnmatchedOpening;
  rec_chain : ∃ a, chained R 1 (spans st') a ∧ a ≤ (recover_bounds e (formula st)).1;
  rec_span : (recover_bounds e (formula st)).1 < (recover_bounds e (formula st)).2
             ≤ length (formula st);
  rec_progress : offset st < (recover_bounds e (formula st)).2 ∨
                 offset st = (recover_bounds e (formula st)).2 ∧ has_token st = true;
  rec_nest : open_brackets (spans st') = Some (token_stack st')
}.

Definition good (R : nat → nat → Prop) (st : SpanTokenizer) (o : outcome) : Prop :=
  match o with
  | (st', Ok _) => inv R st' ∧ same_text st st' ∧ offset st < offset st'
  | (st', Err e) => same_text st st' ∧ recoverable R st st' e
  | (_, Panic) => False
  end.

Section methods.
Context {R : nat → nat → Prop} `{!ChainRel R}.

(** Saving the token closes the gap between the chain and the offset. *)
Lemma save_chain st : inv R st → chained R 1 (spans (save_token st)) (offset st).
Proof.
  intros []. unfold save_token. destruct (has_token st) eqn:Ht.
  - apply has_token_spec in Ht. fields.
    eapply chained_snoc; [done|reflexivity|done|simpl]. by rewrite inv_end0.
  - apply has_token_false in Ht. replace (offset st) with (token_start st) by lia. done.
Qed.

Lemma save_nest st : inv R st → open_brackets (spans (save_token st)) = Some (token_stack st).
Proof.
  intros []. unfold save_token. destruct (has_token st); [|done]. fields.
  rewrite open_brackets_snoc, inv_nest0. apply nest_plain, operand_plain.
Qed.

(** The state that most methods end in: the token saved, spans appended up
    to [e], and a new token started there. *)
Lemma restart_good st st' e :
  inv R st → same_text st st' →
  chained R 1 (spans st') e → open_brackets (spans st') = Some (token_stack st') →
  offset st < e ≤ length (formula st) → offset st' = e →
  good R st (start_token st', Ok tt).
Proof.
  intros [] (Hf & Hd & Hg) Hc Hn He Ho. fields. split; [|split; [done|fields; lia]].
  split; fields; rewrite ?Ho, ?Hf; try lia; done.
Qed.

Lemma emit_good st ty sub e : inv R st → plain ty sub → offset st < e ≤ length (formula st) →
  good R st (start_token (set_offset e (push_span ty sub (offset st) e (save_token st))), Ok tt).
Proof.
  intros Hi Hp He. eapply (restart_good _ _ e); [done|by repeat split; fields|fields..|done|done].
  - eapply chained_snoc; [by apply save_chain|reflexivity|simpl; lia|reflexivity].
  - rewrite open_brackets_snoc, save_nest by done. by apply nest_plain.
Qed.

Lemma saved_inv st : inv R st → inv R (start_token (save_token st)).
Proof.
  intros Hi. pose proof (save_chain _ Hi). pose proof (save_nest _ Hi). destruct Hi.
  split; fields; lia || done.
Qed.

(** An [inv] state whose offset has moved and whose token reaches it. *)
Lemma extend_good st off : inv R st → offset st < off ≤ length (formula st) →
  good R st (set_token (token_start st) off (set_offset off st), Ok tt).
Proof.
  intros [] Hoff. split; [|split; [done|fields; lia]]. split; fields; lia || done.
Qed.

Lemma start_idle st : inv R st → has_token st = false → start_token st = st.
Proof.
  intros [] Ht%has_token_false. unfold start_token, set_token. destruct st; simpl in *.
  f_equal; lia.
Qed.

Lemma start_unless st : inv R st →
  (if negb (has_token st) then start_token st else st) = st.
Proof. intros Hi. destruct (has_token st) eqn:Ht; [done|by apply start_idle]. Qed.

Lemma accumulate_good st : inv R st → offset st < length (formula st) →
  good R st (accumulate st, Ok tt).
Proof.
  intros Hi Ho. unfold accumulate. rewrite start_unless by done.
  apply (extend_good st (offset st + 1)); [done|lia].
Qed.

End methods.

(** * The scanning loops *)

Lemma string_loop_bounds delim s i b off : string_loop delim s i = (b, off) →
  i ≤ off ≤ i + length s ∧ (b = true → i < off) ∧ (b = false → off = i + length s).
Proof.
  revert i. induction s as [s IH] using (induction_ltof1 _ (@length _)). unfold ltof in IH.
  intros i. destruct s as [|c s]; simpl in *; [by intros [= <- <-]; lia|].
  repeat case_match; simpl in *.
  all: try (intros [= <- <-]; split; [lia|by split; [lia|]]).
  all: intros H'; apply IH in H' as (G1 & G2 & G3); [|simpl; lia].
  all: split; [lia|split; intros Hb; [apply G2 in Hb|apply G3 in Hb]; lia].
Qed.

Lemma brackets_loop_bounds s i n b off : brackets_loop s i n = (b, off) →
  i ≤ off ≤ i + length s ∧ (b = true → i < off).
Proof.
  revert i n. induction s as [s IH] using (induction_ltof1 _ (@length _)). unfold ltof in IH.
  intros i n. destruct s as [|c s]; simpl in *; [intros [= <- <-]; lia|].
  repeat case_match; simpl in *.
  all: try (intros [= <- <-]; lia).
  all: intros H'; apply IH in H'; simpl in *; lia.
Qed.

Lemma span_length {A} (p : A → bool) (l : list A) : length (span p l).1 ≤ length l.
Proof.
  destruct (span p l) as [a b] eqn:E. apply span_app in E as ->. rewrite length_app. simpl. lia.
Qed.

Lemma matching_error_code_spec f off code : matching_error_code f off = Some code →
  In code ERROR_CODES ∧ off + length code ≤ length f ∧
  eq_ignore_ascii_case (slice f off (off + length code)) code = true.
Proof.
  intros H. apply List.find_some in H as [H1 H2]. apply andb_true_iff in H2 as [H2 H3].
  split; [done|]. split; [by apply Nat.leb_le|done].
Qed.

Lemma error_code_length code : In code ERROR_CODES → 0 < length code.
Proof.
  intros H. assert (Forall (λ c, 0 < length c) ERROR_CODES) as HF by (repeat constructor).
  by eapply List.Forall_forall in HF.
Qed.

(** * Each method is good *)

(** No [#] follows a [!]: no sheet prefix is dropped before an error code. *)
Definition no_bang_hash (f : bytes) : Prop :=
  ∀ i, f !! i = Some "!"%char → f !! S i = Some "#"%char → False.

Definition gap_ok (R : nat → nat → Prop) (f : bytes) : Prop :=
  (∀ a b, a ≤ b → R a b) ∨ no_bang_hash f.

Section methods_good.
Context {R : nat → nat → Prop} `{!ChainRel R}.

Lemma inv_chain_idle st : inv R st → has_token st = false → chained R 1 (spans st) (offset st).
Proof.
  intros [] Ht%has_token_false. by replace (offset st) with (token_start st) by lia.
Qed.

Lemma saved_idle st : has_token (start_token (save_token st)) = false.
Proof. apply has_token_false. fields. done. Qed.

Lemma save_token_idle st : has_token st = false → save_token st = st.
Proof. unfold save_token. by intros ->. Qed.

(** What holds from the saved state holds from the state itself. *)
Lemma good_saved st o : good R (start_token (save_token st)) o → good R st o.
Proof.
  assert (S : same_text st (start_token (save_token st))) by (repeat split; fields; done).
  destruct o as [st' [u|e|]]; simpl; [| |done].
  - intros (Hi & Ht & Ho). split; [done|]. fields. split; [by etrans|done].
  - intros (Ht & [? Hc Hs Hp Hn]). fields. split; [by etrans|]. split; try done.
    destruct Hp as [?|[? Hp]]; [by left|]. by rewrite saved_idle in Hp.
Qed.

(** Recoverable errors whose span starts at the offset or in the token. *)
Lemma error_good st st' e s en :
  inv R st → same_text st st' → recover_bounds e (formula st) = (s, en) →
  kind e ≠ UnmatchedOpening → token_start st ≤ s →
  s < en ≤ length (formula st) → (offset st < en ∨ offset st = en ∧ has_token st = true) →
  spans st' = spans st → token_stack st' = token_stack st →
  good R st (st', Err e).
Proof.
  intros [] Ht Hb Hk Hs Hse Hp Hsp Hst. split; [done|].
  split; rewrite ?Hb, ?Hsp, ?Hst; simpl; try done. by exists (token_start st).
Qed.

Lemma parse_string_good st delim : inv R st → formula st !! offset st = Some delim →
  delim = quote ∨ delim = "'"%char → good R st (parse_string st).
Proof.
  intros Hi Hd Hq. unfold parse_string. rewrite Hd.
  rewrite (proj2 (orb_true_iff _ _)) by (rewrite !Ascii.eqb_eq; tauto). cbn [negb].
  pose proof (lookup_lt_Some _ _ _ Hd) as Hlt.
  set (dollar := is_dollar_ref delim st).
  assert (Hdollar : dollar = true → delim = "'"%char).
  { unfold dollar, is_dollar_ref. bool_prop. tauto. }
  assert (Hglue : glue_to_token delim st = true → delim = "'"%char).
  { unfold glue_to_token. bool_prop. tauto. }
  assert (core : ∀ st1, inv R st1 → formula st1 = formula st → offset st1 = offset st →
    (delim = quote → has_token st1 = false) →
    good R st1
      (let string_start := if dollar then token_start st1 else offset st1 in
       let '(closed, off) :=
         string_loop delim (drop (offset st1 + 1) (formula st1)) (offset st1 + 1) in
       let st2 := set_offset off st1 in
       if closed then
         if Ascii.eqb delim quote then
           (start_token (push_span Operand (operand_subtype (slice (formula st2) string_start off))
              string_start off st2), Ok tt)
         else (set_token (token_start st2) off st2, Ok tt)
       else (st2, Err {| kind := UnterminatedString; err_pos := off;
                  err_message := str "Reached end of formula while parsing string";
                  span_start := Some string_start; span_end := Some (length (formula st2)) |}))).
  { intros st1 Hi1 Hf1 Ho1 Hidle. cbv zeta.
    destruct (string_loop _ _ _) as [closed off] eqn:Hloop.
    rewrite Hf1, Ho1 in Hloop. apply string_loop_bounds in Hloop as (Hb & Hc & Hnc).
    rewrite length_drop in Hb.
    destruct closed.
    - specialize (Hc eq_refl). destruct (Ascii.eqb_spec delim quote) as [->|].
      + assert (dollar = false) as -> by (destruct dollar; [by specialize (Hdollar eq_refl)|done]).
        specialize (Hidle eq_refl).
        eapply (restart_good _ _ off); [done|done|fields..|fields; rewrite Hf1, Ho1; lia|done].
        * eapply chained_snoc; [by apply inv_chain_idle|reflexivity|simpl; lia|reflexivity].
        * rewrite open_brackets_snoc, (inv_nest _ _ Hi1). apply nest_plain, operand_plain.
      + apply (extend_good st1 off); [done|rewrite Hf1, Ho1; lia].
    - eapply (error_good _ _ _ _ (length (formula st1))); [done|done| | | | | |done|done].
      1: unfold recover_bounds; simpl; by rewrite Hf1.
      all: simpl; rewrite ?Hf1, ?Ho1; destruct Hi1; destruct dollar; try done; lia. }
  destruct (negb dollar && negb (glue_to_token delim st) && has_token st) eqn:Hsave.
  - apply good_saved. apply core; fields; auto using saved_inv, saved_idle.
  - apply core; auto. intros ->. destruct (has_token st); [|done].
    destruct dollar; [by specialize (Hdollar eq_refl)|].
    destruct (glue_to_token quote st); [by specialize (Hglue eq_refl)|done].
Qed.

Lemma parse_brackets_good st : inv R st → formula st !! offset st = Some "["%char →
  good R st (parse_brackets st).
Proof.
  intros Hi Hd. unfold parse_brackets. rewrite Hd, start_unless by done. cbn [Ascii.eqb Bool.eqb negb andb].
  pose proof (lookup_lt_Some _ _ _ Hd) as Hlt.
  destruct (brackets_loop _ _ _) as [closed off] eqn:Hloop.
  apply brackets_loop_bounds in Hloop as (Hb & Hc). rewrite length_drop in *. destruct closed.
  - apply (extend_good st off); [done|]. specialize (Hc eq_refl). lia.
  - eapply (error_good _ _ _ (offset st) (length (formula st))); try done; destruct Hi; simpl; lia.
Qed.

Lemma parse_error_good st : inv R st → formula st !! offset st = Some "#"%char →
  gap_ok R (formula st) → good R st (parse_error st).
Proof.
  intros Hi Hd Hgap. unfold parse_error. pose proof (lookup_lt_Some _ _ _ Hd) as Hlt.
  destruct (has_sheet_prefix st && (token_end st - token_start st <=? 1)) eqn:Hempty.
  { apply andb_true_iff in Hempty as [Hp _]. unfold has_sheet_prefix in Hp.
    apply andb_true_iff in Hp as [Hp _]. apply andb_true_iff in Hp as [Hp _].
    eapply (error_good _ _ _ (token_start st) (offset st)); try done; [|by right].
    apply has_token_spec in Hp. destruct Hi. lia. }
  (* the state the literal is read in *)
  set (st1 := if has_sheet_prefix st then start_token st
              else if has_token st then start_token (save_token st) else st).
  assert (H1 : offset st1 = offset st ∧ formula st1 = formula st ∧ same_text st st1 ∧
               open_brackets (spans st1) = Some (token_stack st1) ∧
               (∃ a, chained R 1 (spans st1) a ∧ a ≤ offset st) ∧
               chained R 1 (spans st1) (offset st)).
  { unfold st1. destruct (has_sheet_prefix st) eqn:Hpre; [|destruct (has_token st) eqn:Ht].
    - fields. split_and!; try done; [by destruct Hi|destruct Hi; exists (token_start st); split; [done|lia]|].
      eapply chained_trans_r; [by destruct Hi|]. destruct Hgap as [Hgap|Hno]; [destruct Hi; apply Hgap; lia|].
      exfalso. unfold has_sheet_prefix in Hpre.
      apply andb_true_iff in Hpre as [Hpre Hb]. apply andb_true_iff in Hpre as [_ Hpos].
      apply Nat.ltb_lt in Hpos. unfold byte_at in Hb.
      destruct (formula st !! (token_end st - 1)) as [d|] eqn:Hl; [|done].
      apply Ascii.eqb_eq in Hb as ->. apply (Hno _ Hl).
      destruct Hi. by replace (S (token_end st - 1)) with (offset st) by lia.
    - pose proof (save_chain _ Hi). pose proof (save_nest _ Hi). fields.
      split_and!; try done; [by repeat split; fields|eauto].
    - pose proof (inv_chain_idle _ Hi Ht). pose proof (inv_nest _ _ Hi).
      split_and!; eauto; done. }
  destruct H1 as (Ho1 & Hf1 & Ht1 & Hn1 & Ha1 & Hc1).
  rewrite Ho1, Hf1. destruct (matching_error_code _ _) as [code|] eqn:Hm.
  - apply matching_error_code_spec in Hm as (Hin & Hlen & _). apply error_code_length in Hin.
    eapply (restart_good _ _ (offset st + length code)); [done|done|fields..|lia|fields; by rewrite Ho1].
    + eapply chained_snoc; [done|reflexivity|simpl; lia|reflexivity].
    + rewrite open_brackets_snoc, Hn1. by apply nest_plain.
  - pose proof (span_length (λ c, negb (ends_error_literal c)) (drop (offset st + 1) (formula st))) as Hl.
    rewrite length_drop in Hl. split; [done|]. split; simpl; [done|done|lia|left; lia|done].
Qed.


Lemma parse_whitespace_good st c : inv R st → formula st !! offset st = Some c →
  is_blank c = true → good R st (parse_whitespace st).
Proof.
  intros Hi Hd Hc. unfold parse_whitespace. cbv zeta.
  set (blanks := (span is_blank (drop (offset (save_token st)) (formula (save_token st)))).1).
  assert (Hb : 0 < length blanks ≤ length (formula st) - offset st).
  { unfold blanks. fields. split; [|rewrite <- length_drop; apply span_length].
    rewrite (drop_S _ _ _ Hd). cbn [span]. rewrite Hc. case_match; cbn; lia. }
  match goal with |- good R st (start_token (push_span ?t _ _ _ _), _) => set (ty := t) end.
  assert (Hty : plain ty NoSub) by (unfold ty; by case_match).
  clearbody ty. cbn [offset set_offset]. rewrite offset_save.
  pose proof (lookup_lt_Some _ _ _ Hd).
  exact (emit_good st ty NoSub (offset st + length blanks) Hi Hty ltac:(lia)).
Qed.

Lemma parse_operator_good st c : inv R st → formula st !! offset st = Some c →
  good R st (parse_operator st).
Proof.
  intros Hi Hd. unfold parse_operator. cbv zeta.
  rewrite formula_save, offset_save, Hd. pose proof (lookup_lt_Some _ _ _ Hd).
  destruct (_ && _) eqn:H2; cbn [offset push_span set_spans]; rewrite offset_save.
  - bool_prop in H2. destruct H2 as [H2 _].
    apply (emit_good st OpInfix NoSub (offset st + 2)); done || lia.
  - apply (emit_good st _ NoSub (offset st + 1)); [done| |lia].
    unfold sign_type. by repeat case_match.
Qed.

Lemma parse_opener_good st c : inv R st → formula st !! offset st = Some c →
  one_of c "({" = true → good R st (parse_opener st).
Proof.
  intros Hi Hd Hc. unfold parse_opener. rewrite Hd, Hc. cbn [negb].
  pose proof (lookup_lt_Some _ _ _ Hd).
  destruct (Ascii.eqb c "{"); [|destruct (has_token st) eqn:Ht]; cbv zeta beta iota.
  all: eapply (restart_good _ _ (offset st + 1)); [done|by repeat split; fields|fields..|lia|by fields].
  1,5: eapply chained_snoc; [by apply save_chain || by apply inv_chain_idle|reflexivity|simpl; lia|reflexivity].
  - rewrite open_brackets_snoc, (save_nest _ Hi); done.
  - pose proof (proj1 (has_token_spec _) Ht). destruct Hi.
    eapply chained_snoc; [done|reflexivity|simpl; lia|reflexivity].
  - rewrite open_brackets_snoc, (inv_nest _ _ Hi); done.
  - rewrite open_brackets_snoc, (inv_nest _ _ Hi); done.
Qed.

Lemma parse_closer_good st c : inv R st → formula st !! offset st = Some c →
  one_of c ")}" = true → good R st (parse_closer st).
Proof.
  intros Hi Hd Hc. unfold parse_closer. rewrite formula_save, offset_save, Hd, Hc. cbn [negb].
  pose proof (lookup_lt_Some _ _ _ Hd). rewrite token_stack_save.
  pose proof (save_chain _ Hi) as Hsc. pose proof (save_nest _ Hi) as Hsn.
  assert (Herr : ∀ k m, k = MismatchedPair ∨ k = NoMatchingOpener →
    good R st (save_token st, Err {| kind := k; err_pos := offset st; err_message := m;
      span_start := Some (offset st); span_end := Some (offset st + 1) |})).
  { intros k m Hk. split; [by repeat split; fields|].
    split; destruct Hk as [-> | ->]; simpl; fields; try done; eauto; lia. }
  destruct (last (token_stack st)) as [o|] eqn:Hl; [|apply Herr; auto].
  destruct (negb _) eqn:He; [apply Herr; auto|]. cbv zeta.
  eapply (restart_good _ _ (offset st + 1)); [done|by repeat split; fields|fields..|lia|by fields].
  - eapply chained_snoc; [done|reflexivity|simpl; lia|reflexivity].
  - rewrite open_brackets_snoc, Hsn. unfold nest_step. simpl. rewrite Hl. simpl.
    by rewrite decide_True.
Qed.

Lemma parse_separator_good st c : inv R st → formula st !! offset st = Some c →
  one_of c ";," = true → good R st (parse_separator st).
Proof.
  intros Hi Hd Hc. unfold parse_separator. rewrite formula_save, offset_save, Hd, Hc. cbn [negb].
  pose proof (lookup_lt_Some _ _ _ Hd).
  destruct (separator_type _ _ _) as [ty sub] eqn:Hs. cbn [offset push_span set_spans].
  rewrite offset_save. apply (emit_good st ty sub (offset st + 1)); [done| |lia].
  unfold separator_type in Hs. unfold plain.
  repeat case_match; simplify_eq; done.
Qed.

Lemma hash_postfix_good st : inv R st → offset st < length (formula st) →
  good R st (emit_hash_postfix st, Ok tt).
Proof.
  intros Hi Ho. unfold emit_hash_postfix. cbv zeta. cbn [offset push_span set_spans start_token set_token].
  rewrite offset_save. apply good_saved.
  pose proof (emit_good _ OpPostfix NoSub (offset st + 1) (saved_inv _ Hi)) as G.
  rewrite (save_token_idle _ (saved_idle st)) in G. fields. apply G; done || lia.
Qed.

Lemma infix_good st : inv R st → offset st < length (formula st) →
  good R st (emit_infix_operator (offset st) (offset st + 1) st, Ok tt).
Proof.
  intros Hi Ho. unfold emit_infix_operator. cbv zeta. apply good_saved.
  pose proof (emit_good _ OpInfix NoSub (offset st + 1) (saved_inv _ Hi)) as G.
  rewrite (save_token_idle _ (saved_idle st)) in G. fields. apply G; done || lia.
Qed.
End methods_good.

(** * The loop *)

Lemma one_of_opener c : one_of c "{(" = one_of c "({".
Proof. by byte_cases c. Qed.

Section step_good.
Context {R : nat → nat → Prop} `{!ChainRel R}.

Lemma dispatch_good st c : inv R st → formula st !! offset st = Some c →
  gap_ok R (formula st) → good R st (dispatch c st).
Proof.
  intros Hi Hd Hgap. pose proof (lookup_lt_Some _ _ _ Hd) as Hlt. unfold dispatch.
  destruct (Ascii.eqb c quote || Ascii.eqb c "'") eqn:E.
  { bool_prop in E. by eapply parse_string_good. }
  clear E. destruct (Ascii.eqb_spec c "[") as [->|]; [by apply parse_brackets_good|].
  destruct (Ascii.eqb_spec c "#") as [->|].
  { destruct (should_emit_hash_postfix st); [by apply hash_postfix_good|by apply parse_error_good]. }
  destruct (is_blank c) eqn:?; [by eapply parse_whitespace_good|].
  destruct (Ascii.eqb c ":").
  { destruct (should_emit_colon_infix st); [by apply infix_good|by apply accumulate_good]. }
  destruct (one_of c "+-*/^&=><%@"); [by eapply parse_operator_good|].
  destruct (one_of c "{(") eqn:Ho; [rewrite one_of_opener in Ho; by eapply parse_opener_good|].
  destruct (one_of c ")}") eqn:?; [by eapply parse_closer_good|].
  destruct (one_of c ";,") eqn:?; [by eapply parse_separator_good|].
  by apply accumulate_good.
Qed.

Lemma step_good st : inv R st → offset st < length (formula st) →
  gap_ok R (formula st) → good R st (step st).
Proof.
  intros Hi Hlt Hgap. unfold step.
  destruct (check_scientific_notation st) as [st'|] eqn:Hs.
  - unfold check_scientific_notation in Hs. destruct (current_byte st); [|done].
    destruct (_ && _) eqn:Hb; [|done]. injection Hs as <-.
    apply andb_true_iff in Hb as [_ Hb]. unfold digit_at in Hb.
    destruct (formula st !! (offset st + 1)) eqn:Hl; [|done]. apply lookup_lt_Some in Hl.
    apply (extend_good st (offset st + 1)); [done|lia].
  - destruct (lookup_lt_is_Some_2 (formula st) (offset st) Hlt) as [c Hc]. rewrite Hc.
    destruct (is_token_ender c && has_token st); [|by apply dispatch_good].
    apply good_saved, dispatch_good; fields; auto using saved_inv.
Qed.

Lemma loop_strict fuel st : inv R st → gap_ok R (formula st) →
  length (formula st) - offset st ≤ fuel →
  match parse_loop fuel false st with
  | (st', Ok _) => inv R st' ∧ same_text st st' ∧ offset st' = length (formula st)
  | (_, Err _) => True
  | (_, Panic) => False
  end.
Proof.
  revert st. induction fuel as [|fuel IH]; intros st Hi Hgap Hf; cbn [parse_loop].
  - rewrite decide_False by lia. destruct Hi. split_and!; done || lia.
  - case_decide as Hlt; [|destruct Hi; split_and!; done || lia].
    pose proof (step_good st Hi Hlt Hgap) as G. destruct (step st) as [st' [u|e|]]; simpl in G; [|done..].
    destruct G as (Hi' & Ht & Ho). pose proof Ht as (Hf' & _ & _).
    specialize (IH st' Hi'). rewrite Hf' in IH. specialize (IH Hgap ltac:(lia)).
    destruct (parse_loop fuel false st') as [st2 [u2|e2|]]; [|done..].
    destruct IH as (?&?&?). split_and!; [done| |done]. by etrans.
Qed.
End step_good.

Lemma gap_le f : gap_ok le f.
Proof. by left. Qed.

(** ** Recovery *)

Definition loop_measure (st : SpanTokenizer) : nat :=
  2 * (length (formula st) - offset st) + Nat.b2n (has_token st).

Lemma recover_is_span e st : kind e ≠ UnmatchedOpening → ∃ msg action,
  recover_from_error e st =
  recover_span (recover_bounds e (formula st)).1 (recover_bounds e (formula st)).2 msg action st.
Proof. unfold recover_from_error, recover_bounds. destruct (kind e); intros; eauto; done. Qed.

Lemma recover_inv `{!ChainRel R} st st' e : inv R st → same_text st st' → recoverable R st st' e →
  let st2 := recover_from_error e st' in
  inv le st2 ∧ formula st2 = formula st ∧ dialect st2 = dialect st ∧
  loop_measure st2 < loop_measure st ∧ diagnostics st2 ≠ [].
Proof.
  intros Hi (Hf & Hd & Hg) [Hk (a & Ha & Hs) Hse Hp Hn]. cbv zeta.
  destruct (recover_is_span e st' Hk) as (msg & action & ->). rewrite Hf.
  destruct (recover_bounds e (formula st)) as [s en]. cbn [fst snd] in *.
  pose proof (proj1 (chained_bounds _ _ _ (chained_weaken _ _ _ Ha))) as H1.
  unfold recover_span. split_and!; fields; [|done|done| |by destruct (diagnostics st')].
  - split; fields; [lia|done|done|rewrite Hf; lia| |].
    + eapply chained_snoc; [by eapply chained_weaken|simpl; lia|simpl; lia|reflexivity].
    + rewrite open_brackets_snoc, Hn. by apply nest_plain.
  - unfold loop_measure. fields. rewrite Hf.
    rewrite (proj2 (has_token_false _)) by (fields; done).
    destruct Hp as [Hp|[Hp ->]]; cbn [Nat.b2n]; destruct Hi; lia.
Qed.

Lemma loop_best fuel st : inv le st → loop_measure st ≤ fuel →
  ∃ st', parse_loop fuel true st = (st', Ok tt) ∧ inv le st' ∧
    formula st' = formula st ∧ dialect st' = dialect st ∧
    offset st' = length (formula st) ∧ (diagnostics st ≠ [] → diagnostics st' ≠ []).
Proof.
  revert st. induction fuel as [|fuel IH]; intros st Hi Hf; cbn [parse_loop].
  - rewrite decide_False by (unfold loop_measure in Hf; lia). exists st.
    unfold loop_measure in Hf. destruct Hi. split_and!; done || lia.
  - case_decide as Hlt; [|exists st; destruct Hi; split_and!; done || lia].
    pose proof (step_good st Hi Hlt (gap_le _)) as G.
    destruct (step st) as [st1 [u|e|]]; simpl in G; [| |done].
    + destruct G as (Hi1 & (Hf1 & Hd1 & Hg1) & Ho).
      destruct (IH st1 Hi1) as (st2 & -> & ?&?&?&?&?).
      { unfold loop_measure in *. rewrite Hf1. destruct (has_token st1); cbn [Nat.b2n]; lia. }
      exists st2. rewrite Hf1, Hd1, Hg1 in *. by split_and!.
    + destruct G as [Ht Hr]. destruct (recover_inv st st1 e Hi Ht Hr) as (Hi2 & Hf2 & Hd2 & Hm & Hne).
      destruct (IH _ Hi2 ltac:(lia)) as (st3 & -> & ?&?&?&?&?).
      exists st3. rewrite Hf2, Hd2 in *. split_and!; auto.
Qed.

(** Strict success is best-effort success with the same state; a strict error
    leaves a diagnostic. *)
Lemma loop_agree fuel st : inv le st → loop_measure st ≤ fuel →
  match parse_loop fuel false st with
  | (st', Ok _) => parse_loop fuel true st = (st', Ok tt)
  | (_, Err _) => ∃ st', parse_loop fuel true st = (st', Ok tt) ∧ diagnostics st' ≠ []
  | (_, Panic) => False
  end.
Proof.
  revert st. induction fuel as [|fuel IH]; intros st Hi Hf; cbn [parse_loop].
  - by rewrite decide_False by (unfold loop_measure in Hf; lia).
  - case_decide as Hlt; [|done].
    pose proof (step_good st Hi Hlt (gap_le _)) as G.
    destruct (step st) as [st1 [u|e|]]; simpl in G; [| |done].
    + destruct G as (Hi1 & (Hf1 & _) & Ho). apply IH; [done|].
      unfold loop_measure in *. rewrite Hf1. destruct (has_token st1); cbn [Nat.b2n]; lia.
    + destruct G as [Ht Hr]. destruct (recover_inv st st1 e Hi Ht Hr) as (Hi2 & _ & _ & Hm & Hne).
      destruct (loop_best fuel _ Hi2 ltac:(lia)) as (st3 & -> & ?&?&?&?&?). eauto.
Qed.
