(* ===== verification/SpanTheorems.v ===== *)
(** The contract of the span tokenizer and of [TokenStream], from the lemmas
    on its methods in [SpanFacts]. *)
From S2P Require Import Prelude Token SpanTokenizer SpanFacts.

(** The state in which the main loop starts. *)
Definition loop_start (f : bytes) (d : FormulaDialect) : SpanTokenizer :=
  start_token (set_offset 1 (SpanTokenizer.new f d)).

Lemma loop_start_inv `{!ChainRel R} c f d : inv R (loop_start (c :: f) d).
Proof. split; simpl; lia || done. Qed.

Lemma loop_start_fuel c f d : loop_measure (loop_start (c :: f) d) ≤ loop_fuel (c :: f).
Proof.
  unfold loop_measure, loop_fuel.
  rewrite (proj2 (has_token_false _)) by done. simpl. lia.
Qed.

(** ** The work after the loop *)

(** Every opener left open is one of the spans. *)
Lemma open_brackets_in ss stk : open_brackets ss = Some stk → Forall (.∈ ss) stk.
Proof.
  revert stk. induction ss as [|s ss IH] using rev_ind; intros stk; [by intros [= <-]|].
  rewrite open_brackets_snoc. destruct (open_brackets ss) as [stk0|]; [|done].
  specialize (IH _ eq_refl). intros H.
  assert (Forall (.∈ ss ++ [s]) stk0) as IH'.
  { eapply Forall_impl; [exact IH|]. intros x ?. apply elem_of_app. by left. }
  unfold nest_step in H. simpl in H.
  destruct (TokenSpan.subtype s); simplify_eq/=; try done; try (by case_match; simplify_eq).
  - destruct (opener_type _); simplify_eq. apply Forall_app. split; [done|]. constructor; [|done]. set_solver.
  - destruct (last stk0) eqn:Hl; [|done]. simpl in H. case_decide; [|done].
    injection H as <-. apply last_Some in Hl as [l ->]. rewrite removelast_last.
    by apply Forall_app in IH' as [? _].
Qed.

Lemma report_opener_spans st o : spans (report_opener st o) = spans st.
Proof. unfold report_opener. by case_match. Qed.

Lemma report_opener_diagnostics st o :
  diagnostics st ≠ [] ∨ o ∈ spans st → diagnostics (report_opener st o) ≠ [].
Proof.
  unfold report_opener. destruct (List.find _ _) eqn:Hf; simpl; [by destruct (diagnostics st)|].
  intros [?|Hin]; [done|]. apply list_elem_of_In in Hin.
  pose proof (List.find_none _ _ Hf _ Hin) as Hn. simpl in Hn.
  by rewrite bool_decide_eq_true_2 in Hn.
Qed.

Lemma report_fold os st :
  spans (fold_left report_opener os st) = spans st ∧
  (diagnostics st ≠ [] ∨ os ≠ [] ∧ Forall (.∈ spans st) os →
   diagnostics (fold_left report_opener os st) ≠ []).
Proof.
  revert st. induction os as [|o os IH]; intros st; cbn [fold_left]; [split; [done|by intros [?|[? _]]]|].
  destruct (IH (report_opener st o)) as [-> IHd]. split; [apply report_opener_spans|].
  intros H. apply IHd. left. apply report_opener_diagnostics.
  destruct H as [?|[_ [? _]%Forall_cons]]; auto.
Qed.

Lemma report_openers_spec st : token_stack st ≠ [] → open_brackets (spans st) = Some (token_stack st) →
  spans (report_openers st) = spans st ∧ diagnostics (report_openers st) ≠ [].
Proof.
  intros Hne Hn. unfold report_openers. cbn [spans diagnostics set_stack].
  destruct (report_fold (reverse (token_stack st)) st) as [-> Hd]. split; [done|].
  apply Hd. right. rewrite Forall_reverse. split; [|by apply open_brackets_in].
  intros H. apply Hne. by apply (f_equal reverse) in H; rewrite reverse_involutive in H.
Qed.

(** The state after the loop, and what [finish] makes of it. *)
Lemma finish_spec `{!ChainRel R} st : inv R st → offset st = length (formula st) →
  chained R 1 (spans (save_token st)) (length (formula st)) ∧
  open_brackets (spans (save_token st)) = Some (token_stack st) ∧
  (token_stack st = [] → ∀ best, finish best st = (save_token st, Ok tt)) ∧
  (token_stack st ≠ [] → (∃ e, finish false st = (save_token st, Err e)) ∧
     ∃ st', finish true st = (st', Ok tt) ∧ spans st' = spans (save_token st) ∧ diagnostics st' ≠ []).
Proof.
  intros Hi Ho. pose proof (save_chain _ Hi) as Hc. pose proof (save_nest _ Hi) as Hn.
  rewrite Ho in Hc. split_and!; [done|done|..].
  all: intros Hs; unfold finish.
  all: replace (if has_token st then save_token st else st) with (save_token st)
    by (unfold save_token; by destruct (has_token st)).
  - intros best. by rewrite token_stack_save, bool_decide_eq_false_2 by naive_solver.
  - rewrite token_stack_save, bool_decide_eq_true_2 by done. split; [by eexists|].
    destruct (report_openers_spec (save_token st)) as [??]; fields; [done..|]. by eexists.
Qed.

(** ** The tokenizers as a whole *)

(** Where the spans of a formula start: behind the [=], if there is one. *)
Definition body_start (f : bytes) : nat := if starts_with "=" f then 1 else 0.

Lemma loop_start_run best c f d : starts_with "=" (c :: f) = true →
  parse_with_recovery best (SpanTokenizer.new (c :: f) d) =
  match parse_loop (loop_fuel (c :: f)) best (loop_start (c :: f) d) with
  | (st, Ok _) => finish best st
  | (st, res) => (st, res)
  end.
Proof. intros Hc. cbn [starts_with] in Hc. unfold parse_with_recovery.
  cbn [formula SpanTokenizer.new]. by rewrite Hc. Qed.

(** The formulas that the main loop does not see. *)
Definition literal_spans (f : bytes) : list TokenSpan.t :=
  match f with [] => [] | _ => [mk_span Literal NoSub 0 (length f)] end.

Lemma literal_run best f d : starts_with "=" f = false →
  parse_with_recovery best (SpanTokenizer.new f d) =
  (set_spans (literal_spans f) (SpanTokenizer.new f d), Ok tt).
Proof.
  destruct f as [|c f]; [done|]. unfold parse_with_recovery. cbn [formula SpanTokenizer.new starts_with].
  by intros ->.
Qed.

Lemma literal_chained `{!ChainRel R} f : chained R 0 (literal_spans f) (length f).
Proof. destruct f; simpl; [reflexivity|]. split_and!; [reflexivity|lia|reflexivity]. Qed.

Lemma parse_strict `{!ChainRel R} f d : gap_ok R f →
  match parse_with_recovery false (SpanTokenizer.new f d) with
  | (st, Ok _) => chained R (body_start f) (spans st) (length f) ∧ open_brackets (spans st) = Some [] ∧
                  formula st = f
  | (_, Err _) => True
  | (_, Panic) => False
  end.
Proof.
  intros Hgap. unfold body_start. destruct (starts_with "=" f) eqn:Hs.
  - destruct f as [|c f]; [done|]. rewrite loop_start_run by done.
    pose proof (loop_strict (loop_fuel (c :: f)) _ (loop_start_inv c f d) Hgap) as H.
    simpl formula in H. simpl offset in H. specialize (H ltac:(unfold loop_fuel; lia)).
    destruct (parse_loop _ _ _) as [st [u|e|]]; [|done..].
    destruct H as (Hi & (Hf & _ & _) & Ho). simpl in Hf. rewrite <- Hf in Ho.
    destruct (finish_spec st Hi Ho) as (Hc & Hn & Hnil & Hcons). rewrite Hf in Hc.
    destruct (decide (token_stack st = [])) as [Hst|Hst].
    + rewrite Hnil, Hst in * by done. by fields.
    + by destruct (Hcons Hst) as [[e ->] _].
  - rewrite literal_run by done. split; [apply literal_chained|by destruct f].
Qed.

Lemma parse_best f d :
  ∃ st, parse_with_recovery true (SpanTokenizer.new f d) = (st, Ok tt) ∧
    chained le (body_start f) (spans st) (length f).
Proof.
  unfold body_start. destruct (starts_with "=" f) eqn:Hs.
  - destruct f as [|c f]; [done|]. rewrite loop_start_run by done.
    destruct (loop_best _ _ (loop_start_inv c f d) (loop_start_fuel c f d))
      as (st & -> & Hi & Hf & _ & Ho & _). change (formula (loop_start (c :: f) d)) with (c :: f) in *. rewrite <- Hf in Ho.
    destruct (finish_spec st Hi Ho) as (Hc & Hn & Hnil & Hcons). rewrite Hf in Hc.
    destruct (decide (token_stack st = [])) as [Hst|Hst].
    + rewrite Hnil by done. eauto.
    + destruct (Hcons Hst) as (_ & st' & -> & Hsp & _). exists st'. by rewrite Hsp.
  - rewrite literal_run by done. eexists. split; [done|apply literal_chained].
Qed.

Lemma parse_agree f d :
  match parse_with_recovery false (SpanTokenizer.new f d) with
  | (st, Ok _) => parse_with_recovery true (SpanTokenizer.new f d) = (st, Ok tt) ∧ diagnostics st = []
  | (_, Err _) => diagnostics (parse_with_recovery true (SpanTokenizer.new f d)).1 ≠ []
  | (_, Panic) => False
  end.
Proof.
  destruct (starts_with "=" f) eqn:Hs.
  - destruct f as [|c f]; [done|]. rewrite !loop_start_run by done.
    pose proof (loop_agree _ _ (loop_start_inv c f d) (loop_start_fuel c f d)) as H.
    pose proof (loop_strict (loop_fuel (c :: f)) _ (loop_start_inv c f d) (gap_le _)) as HS.
    simpl formula in HS. simpl offset in HS. specialize (HS ltac:(unfold loop_fuel; lia)).
    destruct (parse_loop _ false _) as [st [u|e|]]; [| |done].
    + rewrite H. destruct HS as (Hi & (Hf & _ & Hg) & Ho). simpl in Hf. rewrite <- Hf in Ho.
      destruct (finish_spec st Hi Ho) as (Hc & Hn & Hnil & Hcons).
      destruct (decide (token_stack st = [])) as [Hst|Hst].
      * rewrite !Hnil by done. split; [done|]. by fields.
      * destruct (Hcons Hst) as ([e ->] & st' & -> & _ & ?). done.
    + destruct H as (st' & HT & Hd). rewrite HT.
      destruct (loop_best _ _ (loop_start_inv c f d) (loop_start_fuel c f d))
        as (st2 & HT2 & Hi & Hf & _ & Ho & _). rewrite HT in HT2. injection HT2 as <-.
      change (formula (loop_start (c :: f) d)) with (c :: f) in *. rewrite <- Hf in Ho.
      destruct (finish_spec st' Hi Ho) as (Hc & Hn & Hnil & Hcons).
      destruct (decide (token_stack st' = [])) as [Hst|Hst].
      * rewrite Hnil by done. simpl. by fields.
      * by destruct (Hcons Hst) as (_ & st3 & -> & _ & ?).
  - by rewrite !literal_run by done.
Qed.

Lemma spans_strict `{!ChainRel R} f d : gap_ok R f →
  match tokenize_spans_with_dialect f d with
  | Ok ss => chained R (body_start f) ss (length f) ∧ open_brackets ss = Some []
  | Err _ => True
  | Panic => False
  end.
Proof.
  intros Hgap. pose proof (parse_strict f d Hgap) as H. unfold tokenize_spans_with_dialect, parse.
  destruct (parse_with_recovery _ _) as [st [u|e|]]; naive_solver.
Qed.

(** C3: the strict tokenizer always returns (no panic, and the fuel of the model
    is enough), and when it succeeds its spans are non-empty, in order, disjoint
    and inside the formula, and every opening bracket is closed by one of its kind. *)
Theorem tokenize_spans_safe f d :
  match tokenize_spans_with_dialect f d with
  | Ok ss => chained le (body_start f) ss (length f) ∧ open_brackets ss = Some []
  | Err _ => True
  | Panic => False
  end.
Proof. apply spans_strict, gap_le. Qed.

(** ** The texts of the spans *)

Lemma text_bounds f lo ss hi : chained le lo ss hi → hi ≤ length f →
  Forall (λ s, TokenStream.text f s = Some (slice f (TokenSpan.start s) (TokenSpan.end_ s))
               ∧ slice f (TokenSpan.start s) (TokenSpan.end_ s) ≠ []) ss.
Proof.
  intros [_ Hss]%chained_bounds Hhi. eapply Forall_impl; [exact Hss|]. intros s Hs. simpl in Hs.
  unfold TokenStream.text. rewrite decide_True by lia. split; [done|].
  intros Hnil%(f_equal (@length _)). unfold slice in Hnil.
  rewrite length_take, length_drop in Hnil. simpl in Hnil. lia.
Qed.

Lemma render_chained f lo ss : chained eq lo ss (length f) →
  List.concat ((λ s, default [] (TokenStream.text f s)) <$> ss) = drop lo f.
Proof.
  revert lo. induction ss as [|s ss IH]; intros lo; cbn [chained fmap list_fmap List.concat].
  - intros ->. by rewrite drop_all.
  - intros (-> & Hlt & Hc). rewrite (IH _ Hc).
    pose proof (proj1 (chained_bounds _ _ _ (chained_weaken _ _ _ Hc))).
    unfold TokenStream.text. rewrite decide_True by lia. simpl.
    replace (drop (TokenSpan.end_ s) f) with
      (drop (TokenSpan.end_ s - TokenSpan.start s) (drop (TokenSpan.start s) f))
      by (rewrite drop_drop; f_equal; lia).
    apply take_drop.
Qed.

(** C32: the tokens of a formula with no [!#] in it (a sheet prefix before an
    error literal, which the tokenizer drops) tile it: rendering them gives the formula back. *)
Theorem render_formula_roundtrip f d ts :
  TokenStream.new_with_dialect f d = Ok ts → no_bang_hash f → TokenStream.render_formula ts = f.
Proof.
  intros Hts Hno. unfold TokenStream.new_with_dialect in Hts.
  pose proof (spans_strict (R := eq) f d (or_intror Hno)) as H.
  destruct (tokenize_spans_with_dialect f d) as [ss|e|]; simplify_eq/=. destruct H as [Hc _].
  unfold TokenStream.render_formula, TokenStream.render. cbn [TokenStream.source TokenStream.spans].
  rewrite (render_chained _ _ _ Hc). unfold body_start.
  destruct f as [|c f]; [done|]. cbn [starts_with]. by destruct (Ascii.eqb_spec c "=") as [->|].
Qed.

(** C33: best-effort tokenization always finishes, and its spans are non-empty, in
    order, disjoint and inside the formula, so that every one of them has a text. *)
Theorem best_effort_total f d :
  let ts := TokenStream.new_best_effort_with_dialect f d in
  (parse_with_recovery true (SpanTokenizer.new f d)).2 = Ok tt ∧
  chained le (body_start f) (TokenStream.spans ts) (length f) ∧
  ∀ i, i < TokenStream.len ts → ∃ s v, TokenStream.get ts i = Some (s, v) ∧ v ≠ [].
Proof.
  cbv zeta. unfold TokenStream.new_best_effort_with_dialect, parse_best_effort.
  destruct (parse_best f d) as (st & -> & Hc). split_and!; [done|done|].
  unfold TokenStream.len, TokenStream.get. cbn. intros i [s Hs]%lookup_lt_is_Some_2. rewrite Hs. cbn.
  destruct (Forall_lookup_1 _ _ _ _ (text_bounds _ _ _ _ Hc ltac:(done)) Hs) as [-> ?]. cbn. eauto.
Qed.

(** C34: best-effort and strict tokenization agree: where the strict one succeeds
    they give the same stream, with no diagnostic, and where it fails the
    best-effort stream has errors. *)
Theorem best_effort_agrees f d :
  match TokenStream.new_with_dialect f d with
  | Ok ts => TokenStream.new_best_effort_with_dialect f d = ts ∧ TokenStream.has_errors ts = false
  | Err _ => TokenStream.has_errors (TokenStream.new_best_effort_with_dialect f d) = true
  | Panic => False
  end.
Proof.
  pose proof (parse_agree f d) as H.
  unfold TokenStream.new_with_dialect, TokenStream.new_best_effort_with_dialect,
    tokenize_spans_with_dialect, parse, parse_best_effort, TokenStream.has_errors in *.
  destruct (parse_with_recovery false _) as [st [u|e|]]; simpl in *; [| |done].
  - destruct H as [-> Hd]. cbn. rewrite Hd. split; [|done]. done.
  - by rewrite bool_decide_eq_false_2.
Qed.

Lemma render_formula_roundtrip_witness :
  ∃ ts, TokenStream.new_with_dialect (str "=SUM(A1, 2)") Excel = Ok ts ∧
    TokenStream.render_formula ts = str "=SUM(A1, 2)".
Proof.
  assert (H : ∃ ts, TokenStream.new_with_dialect (str "=SUM(A1, 2)") Excel = Ok ts)
    by (eexists; vm_compute; reflexivity).
  destruct H as [ts E]. exists ts. split; [exact E|]. apply (render_formula_roundtrip _ _ _ E).
  intros i Hi _. do 11 (destruct i as [|i]; [discriminate Hi|]). discriminate Hi.
Defined.
