(* ===== verification/ParserTheorems.v ===== *)
(** Progress and termination of the expression parser: a parser that succeeds
    has moved on, its loops have fuel enough, and it never panics. *)
From S2P Require Import Prelude Token SpanTokenizer SpanFacts SpanTheorems StructuredRef Reference ReferenceTheorems Parser.

Section grammar.
Context {F : FloatText}.
Context (source : bytes) (tokens : list TokenSpan.t) (dialect : FormulaDialect)
  (classifier : option (bytes → bool)).

#[local] Abbreviation skip := (skip_whitespace tokens).
#[local] Abbreviation parser := (nat → nat → nat → result ParserError (ASTNode * nat)) (only parsing).
#[local] Abbreviation parse_bp := (parse_bp source tokens dialect classifier).
#[local] Abbreviation span_to_token := (span_to_token source).

(** * Positions *)

Lemma skip_le pos : pos ≤ skip pos.
Proof. unfold skip_whitespace. lia. Qed.

(** What is read at a position, behind blanks. *)
Definition peek (pos : nat) : option TokenSpan.t := tokens !! skip pos.

Lemma drop_span_white pos : drop (skip pos) tokens = (span is_white (drop pos tokens)).2.
Proof.
  unfold skip_whitespace. rewrite <- drop_drop.
  destruct (span is_white (drop pos tokens)) as [a b] eqn:E. cbn [fst snd].
  apply span_app in E as ->. by rewrite drop_app_length.
Qed.

Lemma span_idem {A} (p : A → bool) l : span p (span p l).2 = ([], (span p l).2).
Proof.
  induction l as [|x l IH]; [done|]. simpl. destruct (p x) eqn:Hx.
  - destruct (span p l) as [a b]. done.
  - simpl. by rewrite Hx.
Qed.

Lemma skip_idem pos : skip (skip pos) = skip pos.
Proof.
  unfold skip_whitespace at 1. rewrite drop_span_white, span_idem. simpl. lia.
Qed.

Lemma peek_skip pos : peek (skip pos) = peek pos.
Proof. unfold peek. by rewrite skip_idem. Qed.

Lemma peek_lt pos t : peek pos = Some t → skip pos < length tokens.
Proof. apply lookup_lt_Some. Qed.

(** [branches] follows a successful body through its binds and conditionals. *)
Ltac branches :=
  bind_inv;
  repeat (match goal with
    | H : (if ?b then _ else _) = Ok _ |- _ => let E := fresh "B" in destruct b eqn:E
    | H : (let '(_, _) := ?x in _) = Ok _ |- _ => let E := fresh "B" in destruct x eqn:E
    | H : match ?x with _ => _ end = Ok _ |- _ => let E := fresh "B" in destruct x eqn:E
    | H : Err _ = Ok _ |- _ => discriminate H
    | H : perr _ _ = Ok _ |- _ => discriminate H
    | H : Panic = Ok _ |- _ => discriminate H
    end; bind_inv).

(** * Progress *)

(** A parser that succeeds has moved on. *)
Definition advances (bp : parser) : Prop :=
  ∀ c m pos e q, bp c m pos = Ok (e, q) → pos < q.

Section frame.
Context (bp : parser) (Hbp : advances bp).

Lemma args_loop_advances fuel kind c : ∀ exp saw args pos l q,
  args_loop source tokens bp fuel kind c exp saw args pos = Ok (l, q) → pos < q.
Proof using Hbp.
  induction fuel as [|fuel IH]; intros exp saw args pos l q; cbn [args_loop]; [done|].
  pose proof (skip_le pos). destruct (tokens !! skip pos) as [t|]; [|done]. intros Hl. bind_inv.
  destruct exp, (is_close (arg_closer kind) t), a; bind_inv; try lia; try done;
    repeat match goal with
    | H : args_loop _ _ _ _ _ _ _ _ _ _ = Ok _ |- _ => apply IH in H
    | H : bp _ _ _ = Ok _ |- _ => apply Hbp in H
    end; lia.
Qed.

Lemma array_loop_advances fuel c : ∀ rows row pos l q,
  array_loop tokens bp fuel c rows row pos = Ok (l, q) → pos ≤ q.
Proof using Hbp.
  induction fuel as [|fuel IH]; intros rows row pos l q; cbn [array_loop]; [done|].
  pose proof (skip_le pos). destruct (tokens !! skip pos) as [t|]; [|by intros [= _ <-]].
  destruct (is_type _ _); [|destruct (is_close Array t); [intros [= _ <-]; lia|done]].
  destruct (TokenSpan.subtype t); intros Hl; bind_inv;
    repeat match goal with
    | H : array_loop _ _ _ _ _ _ _ = Ok _ |- _ => apply IH in H
    | H : bp _ _ _ = Ok _ |- _ => apply Hbp in H
    end; lia.
Qed.

Lemma arguments_advance kind c pos l q :
  parse_arguments source tokens bp kind c pos = Ok (l, q) → pos < q.
Proof using Hbp.
  unfold parse_arguments. pose proof (skip_le pos). cbv zeta. destruct (match _ with Some _ => _ | _ => _ end).
  - intros [= _ <-]. lia.
  - intros Hl%args_loop_advances. lia.
Qed.

Lemma primary_advances c pos e q :
  parse_primary source tokens dialect classifier bp c pos = Ok (e, q) → pos < q.
Proof using Hbp.
  unfold parse_primary. pose proof (skip_le pos).
  destruct (tokens !! skip pos) as [t|]; [|done]. intros Hp.
  assert (Hf : ∀ p, parse_function source tokens classifier bp t c p = Ok (e, q) → p < q).
  { intros p. unfold parse_function. intros Hf. apply result_bind_ok in Hf as (v & _ & Hf).
    case_bool_decide; [done|]. bind_inv. by eapply arguments_advance. }
  assert (Ha : ∀ p, parse_array tokens bp c p = Ok (e, q) → p < q).
  { intros p. unfold parse_array. pose proof (skip_le p).
    assert (∀ p', p ≤ p' → ('(item, position) ← bp c 0 p';
      '(rows, position) ← array_loop tokens bp (loop_fuel tokens) c [] [item] position;
      if ragged rows then perr RaggedArray (position - 1)
      else Ok (Node (ArrayLit rows) None (existsb (existsb contains_volatile) rows), position))
      = Ok (e, q) → p < q) as Hi.
    { intros p' Hle Hi. bind_inv. destruct (ragged _); [done|]. bind_inv.
      apply array_loop_advances in E0. apply Hbp in E. lia. }
    destruct (tokens !! skip p) as [u|]; [destruct (is_close Array u); [intros [= _ <-]; lia|]|];
      by apply Hi. }
  destruct (TokenSpan.token_type t).
  3: { apply Hf in Hp. lia. }
  2: { bind_inv. lia. }
  all: destruct (is_open Paren t); [|destruct (is_open Array t); [apply Ha in Hp; lia|done]].
  all: bind_inv; apply Hbp in E; pose proof (skip_le n);
    destruct (tokens !! skip n) as [u|]; [destruct (is_close Paren u)|]; bind_inv; done || lia.
Qed.

Lemma prefix_advances c pos e q :
  parse_prefix source tokens dialect classifier bp c pos = Ok (e, q) → pos < q.
Proof using Hbp.
  unfold parse_prefix. pose proof (skip_le pos).
  destruct (tokens !! skip pos) as [t|]; [destruct (is_type _ _)|]; intros Hp.
  - bind_inv. apply Hbp in E0. lia.
  - apply primary_advances in Hp. lia.
  - apply primary_advances in Hp. lia.
Qed.

Lemma bp_loop_advances fuel c m : ∀ lhs pos e q,
  bp_loop source tokens bp fuel c m lhs pos = Ok (e, q) → pos ≤ q.
Proof using Hbp.
  induction fuel as [|fuel IH]; intros lhs pos e q; cbn [bp_loop]; [done|].
  pose proof (skip_le pos). destruct (tokens !! skip pos) as [t|]; [|by intros [= _ <-]].
  destruct (is_open Paren t).
  { intros Hl. bind_inv. apply arguments_advance in E. apply IH in Hl. lia. }
  destruct (TokenSpan.token_type t); intros Hl; branches; try done;
    repeat match goal with
    | H : bp_loop _ _ _ _ _ _ _ _ = Ok _ |- _ => apply IH in H
    | H : bp _ _ _ = Ok _ |- _ => apply Hbp in H
    end; lia.
Qed.

(** ** Enough fuel is enough: the fuel of a loop does not show in its result. *)

Definition enough (fuel pos : nat) : Prop := length tokens < fuel + pos ∧ 0 < fuel.

Lemma enough_loop pos : enough (loop_fuel tokens) pos.
Proof. unfold enough, loop_fuel. lia. Qed.

(** [bp_case] takes the cases of a call in both sides of an equation. *)
Ltac bp_case :=
  match goal with
  | |- (bp ?c ?m ?p ≫= _) = _ =>
      let E := fresh "E" in
      destruct (bp c m p) as [[??]|?|] eqn:E; cbn [mbind result_bind]; [apply Hbp in E|done|done]
  end.

Lemma bp_loop_fuel n1 c m : ∀ n2 lhs pos, enough n1 pos → enough n2 pos →
  bp_loop source tokens bp n1 c m lhs pos = bp_loop source tokens bp n2 c m lhs pos.
Proof using Hbp.
  unfold enough. induction n1 as [|n1 IH]; intros [|n2] lhs pos H1 H2; try lia.
  cbn [bp_loop]. pose proof (skip_le pos). destruct (tokens !! skip pos) as [t|] eqn:Ht; [|done].
  apply peek_lt in Ht. destruct (is_open Paren t).
  { unfold parse_call_arguments. destruct (parse_arguments _ _ _ _ _ _) as [[args q]|e|] eqn:E; [|done..].
    apply arguments_advance in E. cbn [mbind result_bind]. apply IH; lia. }
  destruct (TokenSpan.token_type t); try done.
  - destruct (if 0 <? c then _ else _) as [[]|e|]; try done. cbn [mbind result_bind].
    destruct (span_precedence source t) as [prec|e|]; [|done..]. cbn [mbind result_bind].
    destruct (default _ _) as [p a]. destruct (p <? m); [done|]. bp_case.
    destruct (span_to_token t); [|done..]. cbn [mbind result_bind]. apply IH; lia.
  - destruct (span_precedence source t) as [prec|e|]; [|done..]. cbn [mbind result_bind].
    destruct (_ <? m); [done|]. destruct (span_to_token t); [|done..]. cbn [mbind result_bind].
    apply IH; lia.
Qed.

End frame.

Lemma parse_bp_advances d : advances (parse_bp d).
Proof.
  induction d as [|d IH]; intros c m pos e q; cbn [Parser.parse_bp]; [done|].
  unfold parse_bp_inner. intros H. bind_inv. apply prefix_advances in E; [|done].
  apply bp_loop_advances in H; [lia|done].
Qed.

(** * Termination *)

(** The tokens are spans of the source, and each separator is of a known kind. *)
Definition token_ok (s : TokenSpan.t) : Prop :=
  TokenSpan.start s ≤ TokenSpan.end_ s ∧ TokenSpan.end_ s ≤ length source ∧ sep_ok s.

Section total.
Context (Hok : Forall token_ok tokens).

Lemma seps_ok : Forall sep_ok tokens.
Proof using Hok. eapply Forall_impl; [exact Hok|]. by intros s (_ & _ & H). Qed.

Lemma token_at pos t : tokens !! pos = Some t → token_ok t.
Proof using Hok. intros H. exact (Forall_lookup_1 _ _ _ _ Hok H). Qed.

Lemma span_value_total t : token_ok t → span_value source t ≠ Panic.
Proof.
  intros (H1 & H2 & _). unfold span_value, TokenStream.text. by rewrite decide_True.
Qed.
#[local] Hint Resolve span_value_total : formualizer.

Lemma span_precedence_total t : token_ok t → span_precedence source t ≠ Panic.
Proof.
  intros Ht. unfold span_precedence. destruct (TokenSpan.token_type t); try done.
  all: unfold semantic_span_value; no_panic.
Qed.
Lemma span_to_token_total t : token_ok t → span_to_token t ≠ Panic.
Proof. intros Ht. unfold Parser.span_to_token, semantic_span_value. no_panic. Qed.
Lemma is_comma_total t : token_ok t → is_comma source t ≠ Panic.
Proof. intros Ht. unfold is_comma. no_panic. Qed.
#[local] Hint Resolve span_precedence_total span_to_token_total is_comma_total : formualizer.

Lemma arg_separator_total kind t : token_ok t → arg_separator source kind t ≠ Panic.
Proof. intros Ht. unfold arg_separator. no_panic. Qed.

Lemma parse_operand_total t pos : token_ok t → parse_operand source dialect t pos ≠ Panic.
Proof.
  intros Ht. unfold parse_operand. apply bind_no_panic; [auto with formualizer|]. intros v _.
  apply bind_no_panic; [auto with formualizer|]. intros tok _.
  pose proof (proj1 (reference_sound v dialect)).
  destruct (TokenSpan.subtype t); try done.
  - by destruct (parse_f64 v).
  - by destruct (from_string_with_dialect v dialect).
Qed.
#[local] Hint Resolve arg_separator_total parse_operand_total token_at : formualizer.

Section frame.
Context (bp : parser) (Hbp : advances bp) (Hn : ∀ c m pos, bp c m pos ≠ Panic).

Lemma args_loop_total fuel kind c : ∀ exp saw args pos, enough fuel pos →
  args_loop source tokens bp fuel kind c exp saw args pos ≠ Panic.
Proof using Hbp Hn Hok.
  unfold enough. induction fuel as [|fuel IH]; intros exp saw args pos Hf; [lia|].
  cbn [args_loop]. pose proof (skip_le pos). destruct (tokens !! skip pos) as [t|] eqn:Ht; [|done].
  pose proof (peek_lt _ _ Ht). apply bind_no_panic; [eauto with formualizer|]. intros sep _.
  destruct exp, (is_close _ t), sep; try done; try (apply IH; lia).
  apply bind_no_panic; [done|]. intros [e q] E%Hbp. apply IH; lia.
Qed.

Lemma array_loop_total fuel c : ∀ rows row pos, enough fuel pos →
  array_loop tokens bp fuel c rows row pos ≠ Panic.
Proof using Hbp Hn Hok.
  unfold enough. induction fuel as [|fuel IH]; intros rows row pos Hf; [lia|].
  cbn [array_loop]. pose proof (skip_le pos). destruct (tokens !! skip pos) as [t|] eqn:Ht; [|done].
  pose proof (peek_lt _ _ Ht). destruct (is_type _ Sep) eqn:Hty; [|by destruct (is_close Array t)].
  apply bool_decide_eq_true, (Forall_lookup_1 _ _ _ _ seps_ok Ht) in Hty as [-> | ->].
  all: apply bind_no_panic; [done|]; intros [e q] E%Hbp; apply IH; lia.
Qed.

Lemma arguments_total kind c pos : parse_arguments source tokens bp kind c pos ≠ Panic.
Proof using Hbp Hn Hok.
  unfold parse_arguments. cbv zeta. destruct (match _ with Some _ => _ | _ => _ end); [done|].
  apply args_loop_total, enough_loop.
Qed.

Lemma primary_total c pos : parse_primary source tokens dialect classifier bp c pos ≠ Panic.
Proof using Hbp Hn Hok.
  unfold parse_primary. destruct (tokens !! skip pos) as [t|] eqn:Ht; [|done].
  assert (Hf : parse_function source tokens classifier bp t c (skip pos + 1) ≠ Panic).
  { unfold parse_function. apply bind_no_panic; [eauto with formualizer|]. intros v _.
    case_bool_decide; [done|]. apply bind_no_panic; [apply arguments_total|]. intros [args q] _.
    apply bind_no_panic; [eauto with formualizer|done]. }
  assert (Ha : parse_array tokens bp c (skip pos + 1) ≠ Panic).
  { unfold parse_array. destruct (tokens !! skip (skip pos + 1)) as [u|]; [destruct (is_close Array u); [done|]|].
    all: apply bind_no_panic; [done|]; intros [e q] _.
    all: apply bind_no_panic; [apply array_loop_total, enough_loop|]; intros [rows r] _.
    all: by destruct (ragged rows). }
  assert (Hp : ('(expr, position) ← bp c 0 (skip pos + 1);
    match tokens !! skip position with
    | Some u => if is_close Paren u then Ok (expr, skip position + 1)
                else perr ExpectedClosingParen (skip position)
    | None => perr ExpectedClosingParen (skip position)
    end) ≠ Panic).
  { apply bind_no_panic; [done|]. intros [e q] _.
    by destruct (tokens !! skip q) as [u|]; [destruct (is_close Paren u)|]. }
  destruct (TokenSpan.token_type t); try done.
  2: { apply bind_no_panic; [eauto with formualizer|done]. }
  all: destruct (is_open Paren t); [done|]; by destruct (is_open Array t).
Qed.

Lemma prefix_total c pos : parse_prefix source tokens dialect classifier bp c pos ≠ Panic.
Proof using Hbp Hn Hok.
  unfold parse_prefix. destruct (tokens !! skip pos) as [t|] eqn:Ht; [|apply primary_total].
  destruct (is_type _ _); [|apply primary_total].
  apply bind_no_panic; [eauto with formualizer|]. intros prec _.
  apply bind_no_panic; [done|]. intros [e q] _. apply bind_no_panic; [eauto with formualizer|done].
Qed.

Lemma bp_loop_total fuel c m : ∀ lhs pos, enough fuel pos →
  bp_loop source tokens bp fuel c m lhs pos ≠ Panic.
Proof using Hbp Hn Hok.
  unfold enough. induction fuel as [|fuel IH]; intros lhs pos Hf; [lia|].
  cbn [bp_loop]. pose proof (skip_le pos). destruct (tokens !! skip pos) as [t|] eqn:Ht; [|done].
  pose proof (peek_lt _ _ Ht). destruct (is_open Paren t).
  { apply bind_no_panic; [apply arguments_total|]. intros [args q] E%arguments_advance; [|done].
    apply IH; lia. }
  destruct (TokenSpan.token_type t); try done.
  - apply bind_no_panic; [destruct (0 <? c); [eauto with formualizer|done]|]. intros [] _; [done|].
    apply bind_no_panic; [eauto with formualizer|]. intros prec _. destruct (default _ _) as [p a].
    destruct (p <? m); [done|]. apply bind_no_panic; [done|]. intros [e q] E%Hbp.
    apply bind_no_panic; [eauto with formualizer|]. intros tok _. apply IH; lia.
  - apply bind_no_panic; [eauto with formualizer|]. intros prec _. destruct (_ <? m); [done|].
    apply bind_no_panic; [eauto with formualizer|]. intros tok _. apply IH; lia.
Qed.

End frame.

Lemma parse_bp_total d : ∀ c m pos, parse_bp d c m pos ≠ Panic.
Proof using Hok.
  induction d as [|d IH]; intros c m pos; cbn [Parser.parse_bp]; [done|].
  apply bind_no_panic; [apply prefix_total; [apply parse_bp_advances|done]|]. intros [e q] _.
  apply bp_loop_total; [apply parse_bp_advances|done|apply enough_loop].
Qed.

Lemma parse_tokens_total : parse_tokens source tokens dialect classifier ≠ Panic.
Proof using Hok.
  unfold parse_tokens, no_tokens, at_end. destruct (bool_decide _); [done|].
  destruct (tokens !! skip 0) as [t|] eqn:Ht; [|done]. destruct (is_type _ _).
  - destruct (tokens !! skip (skip 0 + 1)) as [u|]; [done|]. cbn [mbind result_bind].
    apply bind_no_panic; [eauto with formualizer|done].
  - apply bind_no_panic; [apply parse_bp_total|]. intros [e q] _. by destruct (tokens !! skip q).
Qed.

End total.

End grammar.

(** * From the text *)

Lemma tokenized_ok f d spans : tokenize_spans_with_dialect f d = Ok spans → Forall (token_ok f) spans.
Proof.
  intros Ht. pose proof (spans_strict (R := le) f d (gap_le f)) as H. rewrite Ht in H.
  destruct H as [[_ Hb]%chained_bounds Hn]. apply open_brackets_seps in Hn.
  rewrite Forall_forall in *. intros s Hs. specialize (Hb s Hs). specialize (Hn s Hs).
  unfold token_ok. split_and!; [lia..|done].
Qed.

(** C2: parsing a formula always returns, a tree or an error, in either dialect and
    with any volatility classifier: every loop of the parser makes progress, the recursion
    stays within the depth limit, and no slice of the source is out of bounds. *)
Theorem parse_total `{FloatText} f d classifier :
  parse_with_dialect_and_volatility_classifier f d classifier ≠ Panic.
Proof.
  unfold parse_with_dialect_and_volatility_classifier.
  pose proof (spans_strict (R := le) f d (gap_le f)) as Ht.
  apply bind_no_panic; [by destruct (tokenize_spans_with_dialect f d)|].
  intros spans Hs. apply map_err_ok in Hs. eapply parse_tokens_total, tokenized_ok, Hs.
Qed.
