(* ===== verification/Grammar.v ===== *)
(** The precedence grammar of formulas, on the tokens that are not blanks, and
    the proof that the expression parser accepts exactly its sentences.

    The grammar is written as a reader of the language would write it: with
    left recursion for the operators that follow their operand, without
    positions, loops or errors.  Where an operand stops is not left to the order
    of the attempts: the [edge] of a phrase is the lowest level at which its
    right end would have read on, and an operator may follow a phrase only when it
    is not taken at its edge. *)
From S2P Require Import Prelude Token SpanTokenizer SpanFacts SpanTheorems StructuredRef Reference Parser ParserTheorems.

(** The tokens that are not blanks. *)
Definition significant (ts : list TokenSpan.t) : list TokenSpan.t :=
  List.filter (λ t, negb (is_white t)) ts.

Section grammar.
Context {F : FloatText}.
Context (source : bytes) (dialect : FormulaDialect) (classifier : option (bytes → bool)).

(** * Tokens *)

Definition text (t : TokenSpan.t) : bytes := slice source (TokenSpan.start t) (TokenSpan.end_ t).

Definition token_of (t : TokenSpan.t) : Token.t :=
  Token.new_with_span (semantic_value (TokenSpan.token_type t) (text t))
    (TokenSpan.token_type t) (TokenSpan.subtype t) (TokenSpan.start t) (TokenSpan.end_ t).

Definition comma (t : TokenSpan.t) : bool := eqb_bytes (text t) (str ",").

(** The level of an operator behind its operand. *)
Definition power (t : TokenSpan.t) : nat * Associativity :=
  default (0, Left) (op_precedence (semantic_value (TokenSpan.token_type t) (text t))).

(** The level at which the right operand is read. *)
Definition next_level (t : TokenSpan.t) : nat :=
  match power t with (p, Left) => p + 1 | (p, Right) => p end.

(** The token continues a phrase that is read at a level, in [c] calls. *)
Definition binds (c level : nat) (t : TokenSpan.t) : bool :=
  is_open Paren t ||
  match TokenSpan.token_type t with
  | OpPostfix => (level <=? (power t).1)%nat
  | OpInfix => negb ((0 <? c)%nat && comma t) && (level <=? (power t).1)%nat
  | _ => false
  end.

(** The tokens that follow do not continue the phrase. *)
Definition stops (c level : nat) (rest : list TokenSpan.t) : Prop :=
  match rest with t :: _ => binds c level t = false | [] => True end.
Definition stops_edge (c : nat) (edge : option nat) (rest : list TokenSpan.t) : Prop :=
  match edge with Some level => stops c level rest | None => True end.

Definition lower (level : nat) (edge : option nat) : option nat :=
  Some (match edge with Some k => level `min` k | None => level end).

Definition separates (kind : arg_list) (t : TokenSpan.t) : bool :=
  is_arg_sep t ||
  match kind with CallArgs => is_type (TokenSpan.token_type t) OpInfix && comma t | FunctionArgs => false end.

(** * Nodes *)

Definition omitted : ASTNode := new_node Omitted None.
Definition function_node (t : TokenSpan.t) (args : list ASTNode) : ASTNode :=
  let name := take (length (text t) - 1) (text t) in
  Node (Function name args) (Some (token_of t))
    (match classifier with Some f => f name | None => false end || existsb contains_volatile args).
Definition array_node (rows : list (list ASTNode)) : ASTNode :=
  Node (ArrayLit rows) None (existsb (existsb contains_volatile) rows).
Definition call_node (callee : ASTNode) (args : list ASTNode) : ASTNode :=
  Node (Call callee args) None (contains_volatile callee || existsb contains_volatile args).
Definition unary_node (t : TokenSpan.t) (e : ASTNode) : ASTNode :=
  Node (UnaryOp (Token.value (token_of t)) e) (Some (token_of t)) (contains_volatile e).
Definition binary_node (t : TokenSpan.t) (l r : ASTNode) : ASTNode :=
  Node (BinaryOp (Token.value (token_of t)) l r) (Some (token_of t))
    (contains_volatile l || contains_volatile r).

(** * Phrases

    [phrase c level edge ts e cut]: in [c] calls the tokens [ts] are read at a
    level as [e]; [cut] when they end in an array that the end of the tokens cuts off.
    [P] is the phrases with one frame less. *)

Section phrases.
Context (P : nat → nat → option nat → list TokenSpan.t → ASTNode → bool → Prop).

Inductive Slot (kind : arg_list) (c : nat) : list TokenSpan.t → ASTNode → Prop :=
| slot_empty : Slot kind c [] omitted
| slot_filled edge t ts e :
    separates kind t = false → is_close (arg_closer kind) t = false →
    P c 0 edge (t :: ts) e false → Slot kind c (t :: ts) e.

(** What follows a slot. *)
Inductive Slots (kind : arg_list) (c : nat) : list TokenSpan.t → list ASTNode → Prop :=
| slots_close u : is_close (arg_closer kind) u = true → Slots kind c [u] []
| slots_more s ts arg ts' args :
    separates kind s = true → Slot kind c ts arg → Slots kind c ts' args →
    Slots kind c (s :: ts ++ ts') (arg :: args).

(** Behind the opener; no slot at all is no argument, and not an omitted one. *)
Inductive Args (kind : arg_list) (c : nat) : list TokenSpan.t → list ASTNode → Prop :=
| args_none u : is_close (arg_closer kind) u = true → Args kind c [u] []
| args_slots ts arg ts' args :
    let inner := match kind with CallArgs => c + 1 | FunctionArgs => c end in
    Slot kind inner ts arg → Slots kind inner ts' args → length (ts ++ ts') ≠ 1 →
    Args kind c (ts ++ ts') (arg :: args).

Definition push_item (e : ASTNode) (rows : list (list ASTNode)) : list (list ASTNode) :=
  match rows with row :: rows => (e :: row) :: rows | [] => [] end.

(** The row that is cut off is dropped. *)
Inductive Rows (c : nat) : list TokenSpan.t → list (list ASTNode) → bool → Prop :=
| rows_close edge ts e u :
    P c 0 edge ts e false → is_close Array u = true → Rows c (ts ++ [u]) [[e]] false
| rows_cut edge ts e cut : P c 0 edge ts e cut → Rows c ts [] true
| rows_item edge ts e s ts' rows cut :
    P c 0 edge ts e false → is_arg_sep s = true → Rows c ts' rows cut →
    Rows c (ts ++ s :: ts') (push_item e rows) cut
| rows_row edge ts e s ts' rows cut :
    P c 0 edge ts e false → is_type (TokenSpan.token_type s) Sep && is_sub (TokenSpan.subtype s) Token.Row = true →
    Rows c ts' rows cut → Rows c (ts ++ s :: ts') ([e] :: rows) cut.

Inductive Primary (c : nat) : list TokenSpan.t → ASTNode → bool → Prop :=
| primary_operand t e :
    TokenSpan.token_type t = Operand → parse_operand source dialect t 0 = Ok e → Primary c [t] e false
| primary_function t ts args :
    TokenSpan.token_type t = Func → text t ≠ [] → Args FunctionArgs c ts args →
    Primary c (t :: ts) (function_node t args) false
| primary_paren edge t ts e u :
    is_open Paren t = true → P c 0 edge ts e false → is_close Paren u = true →
    Primary c (t :: ts ++ [u]) e false
| primary_array_empty t u :
    is_open Array t = true → is_close Array u = true → Primary c [t; u] (new_node (ArrayLit []) None) false
| primary_array t ts rows cut :
    is_open Array t = true → Rows c ts rows cut → ragged rows = false →
    Primary c (t :: ts) (array_node rows) cut.

Inductive Spine (c level : nat) : option nat → list TokenSpan.t → ASTNode → bool → Prop :=
| spine_primary ts e cut : Primary c ts e cut → Spine c level None ts e cut
| spine_prefix edge t ts e cut :
    TokenSpan.token_type t = OpPrefix → P c 6 edge ts e cut →
    Spine c level (lower 6 edge) (t :: ts) (unary_node t e) cut
| spine_postfix edge ts e t :
    Spine c level edge ts e false → TokenSpan.token_type t = OpPostfix →
    binds c level t = true → stops_edge c edge [t] →
    Spine c level None (ts ++ [t]) (unary_node t e) false
| spine_call edge ts e t ts' args :
    Spine c level edge ts e false → is_open Paren t = true → stops_edge c edge [t] →
    Args CallArgs c ts' args → Spine c level None (ts ++ t :: ts') (call_node e args) false
| spine_infix edge ts e t edge' ts' e' cut :
    Spine c level edge ts e false → TokenSpan.token_type t = OpInfix →
    binds c level t = true → stops_edge c edge [t] →
    P c (next_level t) edge' ts' e' cut →
    Spine c level (lower (next_level t) edge') (ts ++ t :: ts') (binary_node t e e') cut.

End phrases.

Fixpoint phrase (frames : nat) (c level : nat) : option nat → list TokenSpan.t → ASTNode → bool → Prop :=
  match frames with
  | O => λ _ _ _ _, False
  | S frames => Spine (phrase frames) c level
  end.

(** A text that is not a formula is one literal. *)
Inductive Sentence : list TokenSpan.t → ASTNode → Prop :=
| sentence_literal t :
    TokenSpan.token_type t = Literal →
    Sentence [t] (new_node (Lit (LitText (Token.value (token_of t)))) (Some (token_of t)))
| sentence_phrase edge ts e cut : phrase MAX_PARSE_DEPTH 0 0 edge ts e cut → Sentence ts e.

(** * The tokens of a text *)

Context (tokens : list TokenSpan.t) (Hok : Forall (token_ok source) tokens).

#[local] Abbreviation skip := (skip_whitespace tokens).

(** What is left at a position. *)
Definition sig (pos : nat) : list TokenSpan.t := significant (drop pos tokens).

Lemma significant_span l : significant l = significant (span is_white l).2.
Proof.
  induction l as [|t l IH]; [done|]. simpl. destruct (is_white t) eqn:Ht; simpl.
  - rewrite IH. by destruct (span is_white l).
  - by rewrite Ht.
Qed.

Lemma span_rest_white l t l' : (span is_white l).2 = t :: l' → is_white t = false.
Proof.
  revert t l'. induction l as [|u l IH]; intros t l'; simpl; [done|]. destruct (is_white u) eqn:Hu.
  - destruct (span is_white l) as [a b] eqn:E. simpl in *. intros ->. by eapply IH.
  - by intros [= <- _].
Qed.

Lemma sig_peek pos : match tokens !! skip pos with
  | Some t => sig pos = t :: sig (skip pos + 1)
  | None => sig pos = []
  end.
Proof using.
  clear Hok. unfold sig. rewrite significant_span, <- drop_span_white.
  pose proof (drop_span_white tokens pos) as Hd.
  destruct (tokens !! skip pos) as [t|] eqn:Ht.
  - rewrite (drop_S _ _ _ Ht). rewrite (drop_S _ _ _ Ht) in Hd. symmetry in Hd.
    apply span_rest_white in Hd. simpl. rewrite Hd. by rewrite Nat.add_1_r.
  - by rewrite drop_ge by by apply lookup_ge_None.
Qed.

Lemma sig_some pos t : tokens !! skip pos = Some t → sig pos = t :: sig (skip pos + 1).
Proof using. pose proof (sig_peek pos) as H. by intros E; rewrite E in H. Qed.
Lemma sig_none pos : tokens !! skip pos = None → sig pos = [].
Proof using. pose proof (sig_peek pos) as H. by intros E; rewrite E in H. Qed.
Lemma sig_cons pos t rest : sig pos = t :: rest → tokens !! skip pos = Some t ∧ sig (skip pos + 1) = rest.
Proof using. pose proof (sig_peek pos) as H. destruct (tokens !! _); rewrite H; by intros [= -> ->]. Qed.
Lemma sig_nil pos : sig pos = [] → tokens !! skip pos = None.
Proof using. pose proof (sig_peek pos) as H. by destruct (tokens !! _); rewrite H. Qed.
Lemma sig_skip pos : sig (skip pos) = sig pos.
Proof using.
  pose proof (sig_peek (skip pos)) as H. rewrite skip_idem in H. pose proof (sig_peek pos) as H'.
  by destruct (tokens !! _); rewrite H, H'.
Qed.

(** * Reading a token *)

Lemma span_value_text t : token_ok source t → span_value source t = Ok (text t).
Proof using. intros (H1 & H2 & _). unfold span_value, TokenStream.text. by rewrite decide_True. Qed.

Lemma token_of_ok t : token_ok source t → span_to_token source t = Ok (token_of t).
Proof using.
  intros Ht. unfold span_to_token, semantic_span_value. by rewrite span_value_text.
Qed.

Lemma comma_ok t : token_ok source t → is_comma source t = Ok (comma t).
Proof using. intros Ht. unfold is_comma. by rewrite span_value_text. Qed.

Lemma separates_ok kind t : token_ok source t → arg_separator source kind t = Ok (separates kind t).
Proof using.
  intros Ht. unfold arg_separator, separates. destruct kind; [|by rewrite orb_false_r].
  destruct (is_arg_sep t); [done|]. destruct (is_type _ _); [by rewrite comma_ok|done].
Qed.

Lemma power_ok t : token_ok source t →
  TokenSpan.token_type t = OpInfix ∨ TokenSpan.token_type t = OpPostfix →
  ∃ prec, span_precedence source t = Ok prec ∧ default (0, Left) prec = power t ∧
    match prec with Some (p, _) => p | None => 0 end = (power t).1.
Proof using.
  intros Ht Hty. unfold span_precedence, semantic_span_value. rewrite span_value_text by done.
  exists (op_precedence (semantic_value (TokenSpan.token_type t) (text t))). unfold power.
  split; [by destruct Hty as [-> | ->]|]. by destruct (op_precedence _) as [[??]|].
Qed.

Lemma prefix_power t : TokenSpan.token_type t = OpPrefix → span_precedence source t = Ok (Some (6, Right)).
Proof using. intros Ht. unfold span_precedence. by rewrite Ht. Qed.

Lemma token_here pos t : tokens !! skip pos = Some t → token_ok source t.
Proof using Hok. apply token_at, Hok. Qed.

Lemma operand_any t pos e :
  parse_operand source dialect t pos = Ok e ↔ parse_operand source dialect t 0 = Ok e.
Proof using.
  unfold parse_operand. destruct (span_value source t) as [v|?|]; [|done..]. cbn [mbind result_bind].
  destruct (span_to_token source t) as [w|?|]; [|done..]. cbn [mbind result_bind].
  destruct (TokenSpan.subtype t); try done; [by destruct (parse_f64 v)|].
  by destruct (from_string_with_dialect v dialect).
Qed.

(** Closers and separators continue no phrase. *)
Lemma close_stops ty u c level : is_close ty u = true → ty ≠ OpInfix → ty ≠ OpPostfix → binds c level u = false.
Proof using.
  unfold is_close, binds, is_open. rewrite andb_true_iff. unfold is_type, is_sub.
  rewrite !bool_decide_eq_true. intros [Hty Hsub] ??. rewrite Hsub.
  rewrite (bool_decide_eq_false_2 (Close = Open)) by done. rewrite andb_false_r. simpl.
  rewrite Hty. by destruct ty.
Qed.

Lemma closer_stops kind u c level : is_close (arg_closer kind) u = true → binds c level u = false.
Proof using. intros H. apply (close_stops _ _ _ _ H); by destruct kind. Qed.

Lemma sep_type_stops u c level : is_type (TokenSpan.token_type u) Sep = true → binds c level u = false.
Proof using.
  unfold binds, is_open, is_type. intros H%bool_decide_eq_true. rewrite H.
  by rewrite (bool_decide_eq_false_2 (Sep = Paren)).
Qed.

Lemma arg_sep_type u : is_arg_sep u = true → is_type (TokenSpan.token_type u) Sep = true.
Proof using. unfold is_arg_sep. by intros [? _]%andb_true_iff. Qed.

Lemma separator_stops kind u c level : separates kind u = true → (kind = CallArgs → 0 < c) →
  binds c level u = false.
Proof using.
  unfold separates. intros [H|H]%orb_true_iff Hc; [by apply sep_type_stops, arg_sep_type|].
  destruct kind; [|done]. specialize (Hc eq_refl). apply andb_true_iff in H as [Hty Hcm].
  unfold is_type in Hty. apply bool_decide_eq_true in Hty.
  unfold binds, is_open, is_type. rewrite Hty, Hcm.
  rewrite (bool_decide_eq_false_2 (OpInfix = Paren)) by done.
  by rewrite (proj2 (Nat.ltb_lt 0 c) Hc).
Qed.

Lemma close_not_separator kind u : is_close (arg_closer kind) u = true → separates kind u = false.
Proof using.
  unfold is_close, separates, is_arg_sep, is_type. rewrite andb_true_iff. intros [Hty _].
  apply bool_decide_eq_true in Hty. rewrite Hty. by destruct kind.
Qed.

(** Binding at a level is binding at every lower one. *)
Lemma binds_mono c k k' t : binds c k' t = true → k ≤ k' → binds c k t = true.
Proof using.
  unfold binds. destruct (is_open Paren t); [done|]. simpl.
  destruct (TokenSpan.token_type t); try done.
  - rewrite !andb_true_iff, !Nat.leb_le. intros [??] ?. split; [done|lia].
  - rewrite !Nat.leb_le. lia.
Qed.

Lemma stops_mono c k k' rest : stops c k rest → k ≤ k' → stops c k' rest.
Proof using.
  destruct rest as [|t rest]; [done|]. simpl. intros H Hle. destruct (binds c k' t) eqn:E; [|done].
  by rewrite (binds_mono _ _ _ _ E Hle) in H.
Qed.

Lemma stops_lower c k edge rest : stops_edge c (lower k edge) rest ↔ stops c k rest ∧ stops_edge c edge rest.
Proof using.
  unfold lower, stops_edge. destruct edge as [j|]; [|by split; [|intros [? _]]].
  split; [intros H; split; (eapply stops_mono; [exact H|lia])|].
  intros [??]. by destruct (Nat.min_spec k j) as [[_ ->]|[_ ->]].
Qed.

Lemma stops_all c k rest t rest' : rest = t :: rest' → (∀ k, binds c k t = false) →
  stops c k rest ∧ ∀ edge, stops_edge c edge rest.
Proof using. intros -> H. split; [apply H|]. intros [j|]; [apply H|done]. Qed.

(** * The parser accepts the sentences *)

#[local] Abbreviation parser := (nat → nat → nat → result ParserError (ASTNode * nat)) (only parsing).
#[local] Abbreviation phrases := (nat → nat → option nat → list TokenSpan.t → ASTNode → bool → Prop) (only parsing).
#[local] Abbreviation enough := (enough tokens).

(** [bp] reads the phrases of [P]. *)
Definition completes (bp : parser) (P : phrases) : Prop :=
  ∀ c level edge ts e cut pos rest, P c level edge ts e cut → sig pos = ts ++ rest →
    (cut = true → rest = []) → stops c level rest → stops_edge c edge rest →
    ∃ q, bp c level pos = Ok (e, q) ∧ sig q = rest.

(** [at_token H] looks at the first token that [H] says is left, [t]. *)
Ltac at_token H t :=
  let Ht := fresh "Ht" in let Hk := fresh "Hk" in let Hlt := fresh "Hlt" in
  apply sig_cons in H as [Ht H]; rewrite ?Ht; pose proof (token_here _ _ Ht) as Hk;
  pose proof (peek_lt _ _ _ Ht) as Hlt.

Section complete.
Context (bp : parser) (P : phrases).
Context (Hbp : advances bp) (HP : completes bp P).

(** A phrase at level 0 up to a token that continues none. *)
Lemma inner_complete c edge ts e pos u rest :
  P c 0 edge ts e false → sig pos = ts ++ u :: rest → (∀ k, binds c k u = false) →
  ∃ q, bp c 0 pos = Ok (e, q) ∧ sig q = u :: rest ∧ pos < q.
Proof using Hbp HP.
  intros He Hs Hu. destruct (stops_all c 0 (u :: rest) u rest eq_refl Hu) as [H1 H2].
  destruct (HP _ _ _ _ _ _ _ _ He Hs ltac:(done) H1 (H2 _)) as (q & E & ?).
  exists q. split_and!; [done|done|]. by apply Hbp in E.
Qed.

Lemma slot_complete kind c ts arg fuel saw args pos u rest :
  Slot P kind c ts arg → (kind = CallArgs → 0 < c) → sig pos = ts ++ u :: rest → enough fuel pos →
  is_close (arg_closer kind) u = true ∧ (saw = true ∨ ts ≠ []) ∨ separates kind u = true →
  ∃ fuel' q, enough fuel' q ∧ sig q = u :: rest ∧
    args_loop source tokens bp fuel kind c true saw args pos =
    args_loop source tokens bp fuel' kind c false true (args ++ [arg]) q.
Proof using Hbp HP Hok.
  intros Hs Hc. destruct Hs as [|edge t ts e Hsep Hcl He]; intros Hsig Hf Hu.
  - exists fuel, pos. split_and!; [done|done|]. destruct fuel as [|fuel]; [destruct Hf; lia|].
    cbn [args_loop]. simpl in Hsig. at_token Hsig u. rewrite separates_ok by done. cbn [mbind result_bind].
    destruct (is_close (arg_closer kind) u) eqn:Ecl.
    + rewrite (close_not_separator _ _ Ecl) in *. by destruct Hu as [[_ [-> |]]|].
    + destruct Hu as [[? _]|Hu]; [done|]. by rewrite Hu.
  - assert (Hb : ∀ k, binds c k u = false).
    { intros k. destruct Hu as [[? _]|?]; [by eapply closer_stops|by eapply separator_stops]. }
    assert (Hs : sig (skip pos) = (t :: ts) ++ u :: rest) by by rewrite sig_skip.
    destruct (inner_complete _ _ _ _ _ _ _ He Hs Hb) as (q & E & Hq & Hlt').
    simpl in Hsig. destruct fuel as [|fuel]; [destruct Hf; lia|]. cbn [args_loop]. pose proof (skip_le tokens pos).
    at_token Hsig t. exists fuel, q. unfold ParserTheorems.enough in *. split_and!; [lia..|done|].
    rewrite separates_ok, Hsep, Hcl by done. cbn [mbind result_bind]. by rewrite E.
Qed.

Lemma slots_starts kind c ts args : Slots P kind c ts args →
  ∃ u ts', ts = u :: ts' ∧ (is_close (arg_closer kind) u = true ∧ ts' = [] ∨ separates kind u = true).
Proof using. intros [u H|s ts1 arg ts2 args' H _ _]; eauto 6. Qed.

Lemma slots_complete kind c ts args :
  Slots P kind c ts args → (kind = CallArgs → 0 < c) → ∀ fuel pre pos rest,
  sig pos = ts ++ rest → enough fuel pos →
  ∃ q, args_loop source tokens bp fuel kind c false true pre pos = Ok (pre ++ args, q) ∧ sig q = rest.
Proof using Hbp HP Hok.
  intros Hs Hc. induction Hs as [u Hu|s ts arg ts' args Hsep Hslot Hs IH];
    intros [|fuel] pre pos rest Hsig Hf; try (destruct Hf; lia); simpl in Hsig; cbn [args_loop];
    pose proof (skip_le tokens pos).
  - at_token Hsig u. rewrite separates_ok, (close_not_separator _ _ Hu) by done.
    cbn [mbind result_bind]. rewrite Hu, app_nil_r. eauto.
  - at_token Hsig s. rewrite separates_ok, Hsep by done. cbn [mbind result_bind].
    destruct (slots_starts _ _ _ _ Hs) as (u & ts2 & -> & Hu). rewrite <- app_assoc in Hsig. simpl in Hsig.
    unfold ParserTheorems.enough in *.
    destruct (slot_complete kind c ts arg fuel true pre (skip pos + 1) u (ts2 ++ rest))
      as (fuel' & q & Hf' & Hq & ->); try done; [unfold ParserTheorems.enough; lia|tauto|].
    destruct (IH fuel' (pre ++ [arg]) q rest Hq Hf') as (q' & -> & ?).
    exists q'. by rewrite <- app_assoc.
Qed.

Lemma args_complete kind c ts args pos rest :
  Args P kind c ts args → sig pos = ts ++ rest →
  ∃ q, parse_arguments source tokens bp kind c pos = Ok (args, q) ∧ sig q = rest ∧ pos < q.
Proof using Hbp HP Hok.
  intros Ha Hsig. assert (Hgoal : ∃ q, parse_arguments source tokens bp kind c pos = Ok (args, q) ∧ sig q = rest).
  { unfold parse_arguments. destruct Ha as [u Hu|ts arg ts' args inner Hslot Hs Hlen].
    - simpl in Hsig. at_token Hsig u. rewrite Hu. eauto.
    - destruct (slots_starts _ _ _ _ Hs) as (u & ts2 & -> & Hu). rewrite <- app_assoc in Hsig. simpl in Hsig.
      assert (Hi : kind = CallArgs → 0 < inner) by (intros ->; subst inner; simpl; lia).
      destruct (slot_complete kind inner ts arg (loop_fuel tokens) false [] (skip pos) u (ts2 ++ rest))
        as (fuel' & q & Hf' & Hq & E); [done|done|by rewrite sig_skip|apply enough_loop| |].
      { destruct Hu as [[? ->]|?]; [left|by right]. split; [done|right]. by intros ->. }
      destruct (slots_complete kind inner _ _ Hs Hi fuel' ([] ++ [arg]) q rest Hq Hf') as (q' & E' & ?).
      exists q'. split; [|done]. rewrite E' in E. simpl in E.
      assert (Hfirst : ∀ t, tokens !! skip pos = Some t → is_close (arg_closer kind) t = false).
      { intros t Ht. rewrite (sig_some _ _ Ht) in Hsig. destruct Hslot; simpl in Hsig; [|by injection Hsig as -> _].
        injection Hsig as -> _. destruct Hu as [[_ ->]|Hu]; [done|].
        destruct (is_close _ u) eqn:Ecl; [|done]. by rewrite (close_not_separator _ _ Ecl) in Hu. }
      subst inner. destruct (tokens !! skip pos) as [t|]; [|done]. by rewrite (Hfirst t eq_refl). }
  destruct Hgoal as (q & E & ?). exists q. split_and!; [done|done|].
  by eapply arguments_advance in E.
Qed.

(** The row at hand goes before the first of the rows that are left. *)
Definition extend (row : list ASTNode) (rows : list (list ASTNode)) : list (list ASTNode) :=
  match rows with r :: rows => (row ++ r) :: rows | [] => [] end.

Lemma row_sep_type s : is_type (TokenSpan.token_type s) Sep && is_sub (TokenSpan.subtype s) Token.Row = true →
  is_type (TokenSpan.token_type s) Sep = true ∧ TokenSpan.subtype s = Token.Row.
Proof using. unfold is_sub. by intros [? ?%bool_decide_eq_true]%andb_true_iff. Qed.

Lemma arg_sep_sub s : is_arg_sep s = true →
  is_type (TokenSpan.token_type s) Sep = true ∧ TokenSpan.subtype s = Arg.
Proof using. unfold is_arg_sep, is_sub. by intros [? ?%bool_decide_eq_true]%andb_true_iff. Qed.

Lemma rows_complete c ts rows cut : Rows P c ts rows cut → ∀ pos rest,
  sig pos = ts ++ rest → (cut = true → rest = []) →
  ∃ e q, bp c 0 pos = Ok (e, q) ∧ pos < q ∧
    ∀ fuel pre row, enough fuel q → ∃ q',
      array_loop tokens bp fuel c pre (row ++ [e]) q = Ok (pre ++ extend row rows, q') ∧ sig q' = rest.
Proof using Hbp HP.
  intros Hr. induction Hr as [edge ts e u He Hu|edge ts e cut He|edge ts e s ts' rows cut He Hs Hr IH
    |edge ts e s ts' rows cut He Hs Hr IH]; intros pos rest Hsig Hcut.
  2: { assert (rest = []) as -> by auto. rewrite app_nil_r in Hsig.
    destruct (HP c 0 edge ts e cut pos []) as (q & E & Hq); [done|by rewrite app_nil_r|done|done|by destruct edge|].
    exists e, q. split_and!; [done|by apply Hbp in E|]. intros [|fuel] pre row Hf; [destruct Hf; lia|].
    cbn [array_loop]. rewrite (sig_nil _ Hq). simpl. rewrite app_nil_r. exists (skip q). by rewrite sig_skip. }
  all: rewrite <- app_assoc in Hsig; simpl in Hsig.
  - destruct (inner_complete _ _ _ _ _ _ _ He Hsig) as (q & E & Hq & Hlt).
    { intros k. by apply (close_stops Array). }
    exists e, q. split_and!; [done|done|]. intros [|fuel] pre row Hf; [destruct Hf; lia|].
    cbn [array_loop]. apply sig_cons in Hq as [-> ?]. rewrite Hu.
    apply andb_true_iff in Hu as [Hu _]. unfold is_type in *. apply bool_decide_eq_true in Hu. rewrite Hu.
    rewrite bool_decide_eq_false_2 by done. simpl. eauto.
  - apply arg_sep_sub in Hs as [Hty Hsub].
    destruct (inner_complete _ _ _ _ _ _ _ He Hsig (λ k, sep_type_stops _ _ _ Hty)) as (q & E & Hq & Hlt).
    exists e, q. split_and!; [done|done|]. intros [|fuel] pre row Hf; [destruct Hf; lia|].
    cbn [array_loop]. apply sig_cons in Hq as [Hs Hq]. rewrite Hs, Hty, Hsub.
    destruct (IH _ _ Hq Hcut) as (e' & q' & -> & Hlt' & Hl). cbn [mbind result_bind].
    pose proof (skip_le tokens q). apply peek_lt in Hs. unfold ParserTheorems.enough in *.
    destruct (Hl fuel pre (row ++ [e])) as (q2 & -> & ?); [lia|]. exists q2. split; [|done].
    do 2 f_equal. destruct rows; [done|]. simpl. by rewrite <- app_assoc.
  - apply row_sep_type in Hs as [Hty Hsub].
    destruct (inner_complete _ _ _ _ _ _ _ He Hsig (λ k, sep_type_stops _ _ _ Hty)) as (q & E & Hq & Hlt).
    exists e, q. split_and!; [done|done|]. intros [|fuel] pre row Hf; [destruct Hf; lia|].
    cbn [array_loop]. apply sig_cons in Hq as [Hs Hq]. rewrite Hs, Hty, Hsub.
    destruct (IH _ _ Hq Hcut) as (e' & q' & -> & Hlt' & Hl). cbn [mbind result_bind].
    pose proof (skip_le tokens q). apply peek_lt in Hs. unfold ParserTheorems.enough in *.
    destruct (Hl fuel (pre ++ [row ++ [e]]) []) as (q2 & E2 & ?); [lia|]. exists q2. split; [|done].
    simpl in E2. rewrite E2. do 2 f_equal. rewrite <- app_assoc. simpl. by destruct rows.
Qed.

(** An array does not start with its closer. *)
Definition starts_phrase (P : phrases) : Prop :=
  ∀ c level edge u ts e cut, P c level edge (u :: ts) e cut → is_close Array u = false.
Definition no_empty (P : phrases) : Prop :=
  ∀ c level edge e cut, ¬ P c level edge [] e cut.
Context (Hstart : starts_phrase P) (Hne : no_empty P).

Lemma rows_start c u ts rows cut : Rows P c (u :: ts) rows cut → is_close Array u = false.
Proof using Hstart Hne.
  intros H. remember (u :: ts) as l eqn:El.
  destruct H as [edge ts0 e u0 He _|edge ts0 e cut He|edge ts0 e s ts' rows cut He _ _|edge ts0 e s ts' rows cut He _ _];
    destruct ts0 as [|v ts0]; simplify_eq/=; (by eapply Hstart) || by destruct (Hne _ _ _ _ _ He).
Qed.

Lemma primary_complete c ts e cut pos rest :
  Primary P c ts e cut → sig pos = ts ++ rest → (cut = true → rest = []) →
  ∃ q, parse_primary source tokens dialect classifier bp c pos = Ok (e, q) ∧ sig q = rest.
Proof using Hbp HP Hok Hstart Hne.
  intros Hp Hsig Hcut. unfold parse_primary.
  assert (Hopen : ∀ ty t, is_open ty t = true → TokenSpan.token_type t = ty).
  { intros ty t [H%bool_decide_eq_true _]%andb_true_iff. done. }
  destruct Hp as [t e Hty He|t ts args Hty Hne' Ha|edge t ts e u Ho He Hu|t u Ho Hu|t ts rows cut Ho Hr Hrag];
    simpl in Hsig; at_token Hsig t.
  - rewrite Hty. apply (operand_any t (skip pos + 1)) in He as ->. cbn [mbind result_bind]. eauto.
  - rewrite Hty. unfold parse_function. rewrite span_value_text by done. cbn [mbind result_bind].
    rewrite bool_decide_eq_false_2 by done. unfold parse_function_arguments.
    destruct (args_complete FunctionArgs c ts args (skip pos + 1) rest Ha Hsig) as (q & -> & ? & _).
    cbn [mbind result_bind]. rewrite token_of_ok by done. cbn [mbind result_bind]. unfold function_node. eauto.
  - rewrite (Hopen _ _ Ho), Ho. rewrite <- app_assoc in Hsig.
    destruct (inner_complete _ _ _ _ _ _ _ He Hsig) as (q & -> & Hq & _).
    { intros k. by apply (close_stops Paren). }
    cbn [mbind result_bind]. apply sig_cons in Hq as [-> ?]. rewrite Hu. eauto.
  - rewrite (Hopen _ _ Ho). replace (is_open Paren t) with false
      by (unfold is_open, is_type; by rewrite (Hopen _ _ Ho)).
    rewrite Ho. unfold parse_array. apply sig_cons in Hsig as [-> ?]. rewrite Hu. eauto.
  - rewrite (Hopen _ _ Ho). replace (is_open Paren t) with false
      by (unfold is_open, is_type; by rewrite (Hopen _ _ Ho)).
    rewrite Ho. unfold parse_array. cbv zeta.
    assert (Hs : sig (skip (skip pos + 1)) = ts ++ rest) by by rewrite sig_skip.
    destruct (rows_complete _ _ _ _ Hr _ _ Hs Hcut) as (e & q & E & _ & Hl).
    destruct (Hl (loop_fuel tokens) [] [] (enough_loop _ _)) as (q' & El & ?). simpl in El.
    exists q'. split; [|done]. rewrite E. cbn [mbind result_bind]. rewrite El. cbn [mbind result_bind].
    replace (extend [] rows) with rows by by destruct rows. rewrite Hrag.
    destruct (tokens !! skip (skip pos + 1)) as [u|] eqn:Eu; [|done].
    destruct (is_close Array u) eqn:Ecl; [|done]. apply sig_some in Eu. rewrite Hsig in Eu.
    destruct ts as [|v ts].
    + by inversion Hr; subst; try (by destruct (Hne _ _ _ _ _ ltac:(eassumption)));
        match goal with H : _ ++ _ = [] |- _ => by apply app_eq_nil in H as [_ ?] end.
    + injection Eu as -> _. by rewrite (rows_start _ _ _ _ _ Hr) in Ecl.
Qed.

Lemma args_nonempty kind c ts args : Args P kind c ts args → ts ≠ [].
Proof using.
  intros [u H|ts1 arg ts2 args' inner _ Hs _]; [done|].
  destruct (slots_starts _ _ _ _ Hs) as (u & ts' & -> & _). by destruct ts1.
Qed.

Lemma primary_first c ts e cut : Primary P c ts e cut →
  ∃ u ts', ts = u :: ts' ∧ is_type (TokenSpan.token_type u) OpPrefix = false ∧
    is_close Array u = false ∧ is_type (TokenSpan.token_type u) Literal = false.
Proof using.
  intros H. unfold is_close, is_open, is_type in *.
  destruct H as [t e H|t ts args H|edge t ts e u H|t u H|t ts rows cut H];
    eexists _, _; (split; [done|]); try (apply andb_true_iff in H as [H%bool_decide_eq_true Hsub]);
    rewrite H; try done.
  all: split_and!; [done| |done]; unfold is_sub in *; apply bool_decide_eq_true in Hsub; by rewrite Hsub.
Qed.

Lemma spine_first c level edge ts e cut : Spine P c level edge ts e cut →
  ∃ u ts', ts = u :: ts' ∧ is_close Array u = false ∧ is_type (TokenSpan.token_type u) Literal = false.
Proof using.
  induction 1 as [ts e cut (u & ts' & -> & _ & ?)%primary_first|edge t ts e cut Ht _
    |edge ts e t _ (u & ts' & -> & ?)|edge ts e t ts1 args _ (u & ts' & -> & ?)
    |edge ts e t edge' ts1 e' cut _ (u & ts' & -> & ?)]; [eauto| |by eexists _, _..].
  eexists _, _. split; [done|]. unfold is_close, is_type. by rewrite Ht.
Qed.

#[local] Abbreviation loop := (bp_loop source tokens bp (loop_fuel tokens)).

Lemma loop_again n c level e q : loop_fuel tokens = S n → 0 < q →
  bp_loop source tokens bp n c level e q = loop c level e q.
Proof using Hbp.
  intros En Hq. apply bp_loop_fuel; [done|unfold ParserTheorems.enough, loop_fuel in *; lia|apply enough_loop].
Qed.

(** The loop goes on with a token that binds, and only then. *)
Lemma loop_stops c level e q : stops c level (sig q) → loop c level e q = Ok (e, skip q).
Proof using Hok.
  destruct (loop_fuel tokens) as [|n] eqn:En; [by unfold loop_fuel in En; lia|]. cbn [bp_loop].
  destruct (tokens !! skip q) as [t|] eqn:Ht; [|done]. rewrite (sig_some _ _ Ht). simpl. unfold binds.
  pose proof (token_here _ _ Ht) as Hk. intros [-> Hb]%orb_false_iff.
  destruct (TokenSpan.token_type t) eqn:Hty; try done.
  - destruct (power_ok t Hk (or_introl Hty)) as (prec & -> & Hp & _). cbn [mbind result_bind].
    replace (if (0 <? c)%nat then is_comma source t else Ok false) with (Ok (E:=ParserError) ((0 <? c)%nat && comma t))
      by (destruct (0 <? c)%nat; [by rewrite comma_ok|done]).
    cbn [mbind result_bind]. destruct (_ && comma t); [done|]. simpl in Hb. rewrite Hp.
    destruct (power t) as [p a]. simpl in Hb. apply Nat.leb_gt, Nat.ltb_lt in Hb. by rewrite Hb.
  - destruct (power_ok t Hk (or_intror Hty)) as (prec & -> & _ & Hp). cbn [mbind result_bind].
    rewrite Hp. apply Nat.leb_gt, Nat.ltb_lt in Hb. by rewrite Hb.
Qed.

Lemma loop_postfix c level e q t rest : sig q = t :: rest →
  TokenSpan.token_type t = OpPostfix → binds c level t = true →
  loop c level e q = loop c level (unary_node t e) (skip q + 1).
Proof using Hbp Hok.
  intros Hq Hty Hb. destruct (loop_fuel tokens) as [|n] eqn:En; [unfold loop_fuel in En; lia|].
  rewrite <- En, <- (loop_again n c level (unary_node t e)) by (done || lia). rewrite En. cbn [bp_loop]. at_token Hq t.
  assert (Ho : is_open Paren t = false) by (unfold is_open, is_type; by rewrite Hty). rewrite Ho, Hty.
  destruct (power_ok t Hk (or_intror Hty)) as (prec & -> & _ & Hp). cbn [mbind result_bind].
  unfold binds in Hb. rewrite Ho, Hty in Hb. simpl in Hb. apply Nat.leb_le in Hb. rewrite Hp.
  rewrite (proj2 (Nat.ltb_ge _ _) Hb), token_of_ok by done. done.
Qed.

Lemma loop_call c level e q t ts args rest : sig q = t :: ts ++ rest →
  is_open Paren t = true → Args P CallArgs c ts args →
  ∃ q', loop c level e q = loop c level (call_node e args) q' ∧ sig q' = rest.
Proof using Hbp HP Hok.
  intros Hq Ho Ha. destruct (loop_fuel tokens) as [|n] eqn:En; [unfold loop_fuel in En; lia|].
  at_token Hq t. destruct (args_complete _ _ _ _ _ _ Ha Hq) as (q' & E & Hq' & Hlt').
  exists q'. split; [|done]. rewrite <- En, <- (loop_again n c level (call_node e args)) by (done || lia).
  rewrite En. cbn [bp_loop]. rewrite Ht, Ho. unfold parse_call_arguments. by rewrite E.
Qed.

Lemma loop_infix c level e q t edge ts e' cut rest : sig q = t :: ts ++ rest →
  TokenSpan.token_type t = OpInfix → binds c level t = true → P c (next_level t) edge ts e' cut →
  (cut = true → rest = []) → stops c (next_level t) rest → stops_edge c edge rest →
  ∃ q', loop c level e q = loop c level (binary_node t e e') q' ∧ sig q' = rest.
Proof using Hbp HP Hok.
  intros Hq Hty Hb He Hcut Hs1 Hs2. destruct (loop_fuel tokens) as [|n] eqn:En; [unfold loop_fuel in En; lia|].
  at_token Hq t. destruct (HP _ _ _ _ _ _ _ _ He Hq Hcut Hs1 Hs2) as (q' & E & Hq').
  exists q'. split; [|done]. pose proof (Hbp _ _ _ _ _ E).
  rewrite <- En, <- (loop_again n c level (binary_node t e e')) by (done || lia).
  rewrite En. cbn [bp_loop]. rewrite Ht.
  assert (Ho : is_open Paren t = false) by (unfold is_open, is_type; by rewrite Hty). rewrite Ho, Hty.
  unfold binds in Hb. rewrite Ho, Hty in Hb. simpl in Hb. apply andb_true_iff in Hb as [Hc Hb%Nat.leb_le].
  replace (if (0 <? c)%nat then is_comma source t else Ok false) with (Ok (E:=ParserError) ((0 <? c)%nat && comma t))
    by (destruct (0 <? c)%nat; [by rewrite comma_ok|done]).
  cbn [mbind result_bind]. apply negb_true_iff in Hc. rewrite Hc.
  destruct (power_ok t Hk (or_introl Hty)) as (prec & -> & Hp & _). cbn [mbind result_bind]. rewrite Hp.
  unfold next_level in *. destruct (power t) as [p a] eqn:Epw. simpl in Hb. rewrite (proj2 (Nat.ltb_ge _ _) Hb).
  destruct a; rewrite E; cbn [mbind result_bind]; by rewrite token_of_ok by done.
Qed.

Lemma spine_complete c level edge ts e cut : Spine P c level edge ts e cut → ∀ pos rest,
  sig pos = ts ++ rest → (cut = true → rest = []) → stops_edge c edge rest →
  ∃ q, parse_bp_inner source tokens dialect classifier bp c level pos = loop c level e q ∧ sig q = rest.
Proof using Hbp HP Hok Hstart Hne.
  intros Hs. induction Hs as [ts e cut Hp|edge t ts e cut Hty He|edge ts e t Hs IH Hty Hb Hst
    |edge ts e t ts' args Hs IH Ho Hst Ha|edge ts e t edge' ts' e' cut Hs IH Hty Hb Hst He];
    intros pos rest Hsig Hcut Hrest; try (rewrite <- app_assoc in Hsig; simpl in Hsig).
  - assert (Hs : sig (skip pos) = ts ++ rest) by by rewrite sig_skip.
    destruct (primary_complete _ _ _ _ _ _ Hp Hs Hcut) as (q & E & ?). exists q. split; [|done].
    unfold parse_bp_inner, parse_prefix. cbv zeta. destruct (primary_first _ _ _ _ Hp) as (u & ts' & -> & Hu & _).
    simpl in Hsig. apply sig_cons in Hsig as [-> _]. by rewrite Hu, E.
  - apply stops_lower in Hrest as [Hr1 Hr2]. simpl in Hsig. unfold parse_bp_inner, parse_prefix. cbv zeta.
    at_token Hsig t. destruct (HP _ _ _ _ _ _ _ _ He Hsig Hcut Hr1 Hr2) as (q & E & ?).
    exists q. split; [|done]. rewrite (prefix_power t Hty). unfold is_type. rewrite Hty. simpl.
    rewrite E. cbn [mbind result_bind]. by rewrite token_of_ok by done.
  - destruct (IH _ _ Hsig) as (q & -> & Hq); [done|by destruct edge|].
    exists (skip q + 1). split; [by eapply loop_postfix|]. by apply sig_cons in Hq as [_ ?].
  - destruct (IH _ _ Hsig) as (q & -> & Hq); [done|by destruct edge|]. by eapply loop_call.
  - apply stops_lower in Hrest as [Hr1 Hr2].
    destruct (IH _ _ Hsig) as (q & -> & Hq); [done|by destruct edge|]. by eapply loop_infix.
Qed.

End complete.

Lemma phrase_first d c level edge ts e cut : phrase d c level edge ts e cut →
  ∃ u ts', ts = u :: ts' ∧ is_close Array u = false ∧ is_type (TokenSpan.token_type u) Literal = false.
Proof using. destruct d as [|d]; [done|]. apply spine_first. Qed.

Lemma parse_bp_completes d : completes (parse_bp source tokens dialect classifier d) (phrase d).
Proof using Hok.
  induction d as [|d IH]; intros c level edge ts e cut pos rest He Hsig Hcut Hs1 Hs2; [done|].
  assert (Hst : starts_phrase (phrase d)) by by intros ??????? (? & ? & [= <- _] & ? & _)%phrase_first.
  assert (Hne : no_empty (phrase d)) by by intros ????? (? & ? & ? & _)%phrase_first.
  destruct (spine_complete _ _ (parse_bp_advances _ _ _ _ d) IH Hst Hne _ _ _ _ _ _ He _ _ Hsig Hcut Hs2)
    as (q & E & Hq).
  exists (skip q). rewrite sig_skip. split; [|done]. cbn [parse_bp]. rewrite E. apply loop_stops. by rewrite Hq.
Qed.

(** * The parser accepts only sentences *)

(** What [bp] reads is a phrase of [P], and it reads on as long as it can. *)
Definition sounds (bp : parser) (P : phrases) : Prop :=
  ∀ c level pos e q, bp c level pos = Ok (e, q) → ∃ edge ts cut,
    P c level edge ts e cut ∧ sig pos = ts ++ sig q ∧ (cut = true → sig q = []) ∧
    stops c level (sig q) ∧ stops_edge c edge (sig q).

(** [peek_token pos t] looks at the token at [pos], if there is one. *)
Ltac peek_token pos t :=
  let Ht := fresh "Ht" in let Hk := fresh "Hk" in
  destruct (tokens !! skip pos) as [t|] eqn:Ht;
  [pose proof (token_here _ _ Ht) as Hk; pose proof (sig_some _ _ Ht)|pose proof (sig_none _ Ht)].

Section sound.
Context (bp : parser) (P : phrases).
Context (HP : sounds bp P) (Hne : no_empty P).

(** A phrase that something follows is not cut off. *)
Lemma bp_sound c level pos e q : bp c level pos = Ok (e, q) → sig q ≠ [] →
  ∃ edge ts, P c level edge ts e false ∧ sig pos = ts ++ sig q.
Proof using HP.
  intros (edge & ts & cut & ? & ? & Hcut & _)%HP Hq. exists edge, ts.
  destruct cut; [by destruct (Hq (Hcut eq_refl))|done].
Qed.

(** The rest of an argument list, where a slot is expected or not. *)
Definition args_left (kind : arg_list) (c : nat) (expecting saw : bool) (ts : list TokenSpan.t)
  (args : list ASTNode) : Prop :=
  if expecting then
    saw = false ∧ args = [] ∧ (∃ u, ts = [u] ∧ is_close (arg_closer kind) u = true) ∨
    ∃ ts1 arg ts2 args', ts = ts1 ++ ts2 ∧ args = arg :: args' ∧
      Slot P kind c ts1 arg ∧ Slots P kind c ts2 args' ∧ (saw = true ∨ length ts ≠ 1)
  else Slots P kind c ts args.

Lemma slots_length kind c ts args : Slots P kind c ts args → 0 < length ts.
Proof using. intros (? & ? & -> & _)%slots_starts. simpl. lia. Qed.

Lemma args_sound fuel kind c : ∀ expecting saw pre pos l q,
  args_loop source tokens bp fuel kind c expecting saw pre pos = Ok (l, q) →
  (expecting = false → saw = true) →
  ∃ args ts, l = pre ++ args ∧ sig pos = ts ++ sig q ∧ args_left kind c expecting saw ts args.
Proof using HP Hne Hok.
  induction fuel as [|fuel IH]; intros expecting saw pre pos l q; cbn [args_loop]; [done|].
  peek_token pos t; [|done]. rewrite separates_ok by done. cbn [mbind result_bind].
  intros Hl Hsaw. destruct expecting, (is_close (arg_closer kind) t) eqn:Ecl.
  - injection Hl as <- <-. destruct saw.
    + exists [omitted], [t]. split_and!; [done..|]. right. exists [], omitted, [t], [].
      split_and!; [done..|constructor|by constructor|by left].
    + exists [], [t]. rewrite app_nil_r. split_and!; [done..|]. left. eauto.
  - destruct (separates kind t) eqn:Es.
    + apply IH in Hl as (args & ts & -> & Hts & Ha); [|done].
      destruct Ha as [[? _]|(ts1 & arg & ts2 & args' & -> & -> & H1 & H2 & _)]; [done|].
      exists (omitted :: arg :: args'), (t :: ts1 ++ ts2).
      rewrite <- app_assoc, H. split_and!; [done|by rewrite Hts|].
      right. exists [], omitted, (t :: ts1 ++ ts2), (arg :: args').
      split_and!; [done..|constructor|by constructor|]. right. simpl. rewrite length_app.
      apply slots_length in H2. lia.
    + apply result_bind_ok in Hl as ([arg p] & E & Hl).
      apply IH in Hl as (args & ts2 & -> & Hts & Ha); [|done]. simpl in Ha.
      destruct (bp_sound _ _ _ _ _ E) as (edge & ts1 & He & Hsig).
      { rewrite Hts. apply slots_length in Ha. by destruct ts2; [simpl in Ha; lia|]. }
      rewrite sig_skip, H in Hsig. destruct ts1 as [|t' ts1]; [by apply Hne in He|].
      injection Hsig as <- Hsig. exists (arg :: args), (t :: ts1 ++ ts2).
      rewrite <- app_assoc, H, Hsig, Hts. split_and!; [done|simpl; by rewrite <- app_assoc|].
      right. exists (t :: ts1), arg, ts2, args. split_and!; [done..|by econstructor|done|].
      right. simpl. rewrite length_app. apply slots_length in Ha. lia.
  - rewrite (close_not_separator _ _ Ecl) in Hl. injection Hl as <- <-.
    exists [], [t]. rewrite app_nil_r. split_and!; [done..|by constructor].
  - destruct (separates kind t) eqn:Es; [|done]. rewrite (Hsaw eq_refl) in Hl.
    apply IH in Hl as (args & ts & -> & Hts & Ha); [|done].
    destruct Ha as [[? _]|(ts1 & arg & ts2 & args' & -> & -> & H1 & H2 & _)]; [done|].
    exists (arg :: args'), (t :: ts1 ++ ts2). rewrite H, Hts. split_and!; [done..|by constructor].
Qed.

Lemma arguments_sound kind c pos args q :
  parse_arguments source tokens bp kind c pos = Ok (args, q) →
  ∃ ts, Args P kind c ts args ∧ sig pos = ts ++ sig q.
Proof using HP Hne Hok.
  unfold parse_arguments. cbv zeta.
  destruct (match _ with Some _ => _ | _ => _ end) eqn:Ecl.
  - peek_token pos t; [|done]. intros [= <- <-]. exists [t]. split; [by constructor|done].
  - intros (args' & ts & -> & Hts & Ha)%args_sound; [|done]. rewrite sig_skip in Hts. simpl.
    exists ts. split; [|done]. destruct Ha as [(_ & -> & u & -> & Hu)|(ts1 & arg & ts2 & args2 & -> & -> & ? & ? & Hlen)].
    + by constructor.
    + constructor; [done..|]. by destruct Hlen.
Qed.

Lemma rows_sound fuel c : ∀ pre row e0 edge0 ts0 cut0 pos l q,
  P c 0 edge0 ts0 e0 cut0 → (cut0 = true → sig pos = []) →
  array_loop tokens bp fuel c pre (row ++ [e0]) pos = Ok (l, q) →
  ∃ rows ts cut, l = pre ++ extend row rows ∧ Rows P c (ts0 ++ ts) rows cut ∧
    sig pos = ts ++ sig q ∧ (cut = true → sig q = []).
Proof using HP Hok.
  induction fuel as [|fuel IH]; intros pre row e0 edge0 ts0 cut0 pos l q H0 Hcut0; cbn [array_loop]; [done|].
  peek_token pos t.
  2: { intros [= <- <-]. exists [], [], true. simpl. rewrite !app_nil_r, sig_skip.
    split_and!; [done|by econstructor|done..]. }
  destruct cut0; [by rewrite Hcut0 in H by done|].
  destruct (is_type (TokenSpan.token_type t) Sep) eqn:Hty.
  - destruct (TokenSpan.subtype t) eqn:Hsub; try (intros Hl; rewrite <- sig_skip; by eapply IH).
    + intros ([e p] & (edge & ts & cut & He & Hsig & Hcut & _)%HP & Hl)%result_bind_ok.
      destruct (IH _ _ _ _ _ _ _ _ _ He Hcut Hl) as (rows & ts' & cut' & -> & Hr & Hts & ?).
      exists (push_item e0 rows), (t :: ts ++ ts'), cut'. split_and!; [|econstructor; [done| |done]| |done].
      * f_equal. destruct rows; [done|]. simpl. by rewrite <- app_assoc.
      * unfold is_arg_sep, is_sub. by rewrite Hty, Hsub.
      * rewrite H, Hsig, Hts. simpl. by rewrite <- app_assoc.
    + intros ([e p] & (edge & ts & cut & He & Hsig & Hcut & _)%HP & Hl)%result_bind_ok.
      destruct (IH (pre ++ [row ++ [e0]]) [] _ _ _ _ _ _ _ He Hcut Hl) as (rows & ts' & cut' & -> & Hr & Hts & ?).
      exists ([e0] :: rows), (t :: ts ++ ts'), cut'. split_and!; [|apply rows_row with (1 := H0); [|done]| |done].
      * rewrite <- app_assoc. simpl. by destruct rows.
      * unfold is_sub. by rewrite Hty, Hsub.
      * rewrite H, Hsig, Hts. simpl. by rewrite <- app_assoc.
  - destruct (is_close Array t) eqn:Ecl; [|done]. intros [= <- <-].
    exists [[e0]], [t], false. split_and!; [done|by econstructor|done..].
Qed.

Lemma array_sound c pos e q : parse_array tokens bp c pos = Ok (e, q) →
  (∃ u, sig pos = u :: sig q ∧ is_close Array u = true ∧ e = new_node (ArrayLit []) None) ∨
  ∃ ts rows cut, Rows P c ts rows cut ∧ ragged rows = false ∧ e = array_node rows ∧
    sig pos = ts ++ sig q ∧ (cut = true → sig q = []).
Proof using HP Hok.
  unfold parse_array. cbv zeta. intros Ha.
  assert (Hitems : (∃ u, sig pos = u :: sig q ∧ is_close Array u = true ∧ e = new_node (ArrayLit []) None) ∨
    ('(item, position) ← bp c 0 (skip pos);
     '(rows, position) ← array_loop tokens bp (loop_fuel tokens) c [] [item] position;
     if ragged rows then perr RaggedArray (position - 1) else Ok (array_node rows, position)) = Ok (e, q)).
  { peek_token pos u; [destruct (is_close Array u) eqn:Eu|]; [|by right..].
    injection Ha as <- <-. left. eauto. }
  destruct Hitems as [?|Hi]; [by left|right]. clear Ha.
  apply result_bind_ok in Hi as ([item p] & (edge & ts & cut & He & Hsig & Hcut & _)%HP & Hi).
  apply result_bind_ok in Hi as ([rows r] & El & Hi).
  destruct (rows_sound _ _ [] [] _ _ _ _ _ _ _ He Hcut El) as (rows' & ts' & cut' & -> & Hr & Hts & ?).
  replace ([] ++ extend [] rows') with rows' in Hi by by destruct rows'.
  destruct (ragged rows') eqn:Erag; [done|]. injection Hi as <- <-.
  exists (ts ++ ts'), rows', cut'. split_and!; try done. rewrite sig_skip in Hsig.
  by rewrite Hsig, Hts, <- app_assoc.
Qed.

Lemma primary_sound c pos e q :
  parse_primary source tokens dialect classifier bp c pos = Ok (e, q) →
  ∃ ts cut, Primary P c ts e cut ∧ sig pos = ts ++ sig q ∧ (cut = true → sig q = []).
Proof using HP Hne Hok.
  unfold parse_primary. cbv zeta. peek_token pos t; [|done]. intros Hp.
  destruct (TokenSpan.token_type t) eqn:Hty.
  2: { apply result_bind_ok in Hp as (e' & He & [= -> <-]). apply operand_any in He.
    exists [t], false. split_and!; [by constructor|done..]. }
  2: { unfold parse_function in Hp. rewrite span_value_text in Hp by done. cbn [mbind result_bind] in Hp.
    case_bool_decide as Hnil; [done|].
    apply result_bind_ok in Hp as ([args p] & (ts & Ha & Hts)%arguments_sound & Hp).
    rewrite token_of_ok in Hp by done. cbn [mbind result_bind] in Hp. injection Hp as <- <-.
    exists (t :: ts), false. split_and!; [by constructor|by rewrite H, Hts|done]. }
  all: destruct (is_open Paren t) eqn:Eo; [|destruct (is_open Array t) eqn:Ea; [|done]].
  all: try (apply array_sound in Hp as [(u & Hu & Ecl & ->)|(ts & rows & cut & Hr & Hrag & -> & Hts & Hcut)];
    [exists [t; u], false; split_and!; [by constructor|by rewrite H, Hu|done]
    |exists (t :: ts), cut; split_and!; [by constructor|by rewrite H, Hts|done]]).
  all: apply result_bind_ok in Hp as ([e' p] & Ep & Hp); peek_token p u; [|done];
    destruct (is_close Paren u) eqn:Ecl; [|done]; injection Hp as -> <-;
    destruct (bp_sound _ _ _ _ _ Ep) as (edge & ts & He & Hsig); [by rewrite H0|];
    exists (t :: ts ++ [u]), false; split_and!;
    [by econstructor|by rewrite H, Hsig, H0; simpl; rewrite <- app_assoc|done].
Qed.

Lemma prefix_sound c level pos e q :
  parse_prefix source tokens dialect classifier bp c pos = Ok (e, q) →
  ∃ edge ts cut, Spine P c level edge ts e cut ∧ sig pos = ts ++ sig q ∧ (cut = true → sig q = []) ∧
    stops_edge c edge (sig q).
Proof using HP Hne Hok.
  unfold parse_prefix. cbv zeta. intros Hp.
  assert (Hprim : parse_primary source tokens dialect classifier bp c (skip pos) = Ok (e, q) →
    ∃ edge ts cut, Spine P c level edge ts e cut ∧ sig pos = ts ++ sig q ∧ (cut = true → sig q = []) ∧
      stops_edge c edge (sig q)).
  { intros (ts & cut & ? & Hsig & ?)%primary_sound. rewrite sig_skip in Hsig.
    exists None, ts, cut. split_and!; [by constructor|done..]. }
  peek_token pos t; [|by apply Hprim]. destruct (is_type (TokenSpan.token_type t) OpPrefix) eqn:Hty; [|by apply Hprim].
  apply bool_decide_eq_true in Hty. rewrite (prefix_power t Hty) in Hp. cbn [mbind result_bind] in Hp.
  apply result_bind_ok in Hp as ([e' p] & (edge & ts & cut & He & Hsig & Hcut & Hs1 & Hs2)%HP & Hp).
  rewrite token_of_ok in Hp by done. cbn [mbind result_bind] in Hp. injection Hp as <- <-.
  exists (lower 6 edge), (t :: ts), cut.
  split_and!; [by constructor|by rewrite H, Hsig|done|by apply stops_lower].
Qed.

(** The loop extends the phrase at hand. *)
Lemma loop_sound fuel c level : ∀ lhs pos edge ts cut e q,
  Spine P c level edge ts lhs cut → (cut = true → sig pos = []) → stops_edge c edge (sig pos) →
  bp_loop source tokens bp fuel c level lhs pos = Ok (e, q) →
  ∃ edge' ts' cut', Spine P c level edge' (ts ++ ts') e cut' ∧ sig pos = ts' ++ sig q ∧
    (cut' = true → sig q = []) ∧ stops c level (sig q) ∧ stops_edge c edge' (sig q).
Proof using HP Hne Hok.
  induction fuel as [|fuel IH]; intros lhs pos edge ts cut e q Hs Hcut Hst; cbn [bp_loop]; [done|].
  assert (Hstop : stops c level (sig pos) → Ok (lhs, skip pos) = Ok (E:=ParserError) (e, q) →
    ∃ edge' ts' cut', Spine P c level edge' (ts ++ ts') e cut' ∧ sig pos = ts' ++ sig q ∧
    (cut' = true → sig q = []) ∧ stops c level (sig q) ∧ stops_edge c edge' (sig q)).
  { intros Hl [= -> <-]. exists edge, [], cut. by rewrite app_nil_r, sig_skip. }
  assert (Hgo : ∀ lhs' p edge1 ts1 cut1, Spine P c level edge1 (ts ++ ts1) lhs' cut1 →
    sig pos = ts1 ++ sig p → (cut1 = true → sig p = []) → stops_edge c edge1 (sig p) →
    bp_loop source tokens bp fuel c level lhs' p = Ok (e, q) →
    ∃ edge' ts' cut', Spine P c level edge' (ts ++ ts') e cut' ∧ sig pos = ts' ++ sig q ∧
    (cut' = true → sig q = []) ∧ stops c level (sig q) ∧ stops_edge c edge' (sig q)).
  { intros lhs' p edge1 ts1 cut1 H1 H2 H3 H4 H5.
    destruct (IH _ _ _ _ _ _ _ H1 H3 H4 H5) as (edge' & ts' & cut' & ? & Hsig & ?).
    exists edge', (ts1 ++ ts'), cut'. split_and!; try tauto; [by rewrite app_assoc|].
    by rewrite H2, Hsig, <- app_assoc. }
  peek_token pos t; [|apply Hstop; by rewrite H]. rewrite H in *.
  destruct cut; [by discriminate Hcut|]. assert (Hst' : stops_edge c edge [t]) by by destruct edge.
  destruct (is_open Paren t) eqn:Eo.
  { intros ([args p] & (ts1 & Ha & Hts)%arguments_sound & Hl)%result_bind_ok.
    eapply (Hgo _ _ None (t :: ts1) false); [by eapply spine_call|by rewrite Hts|done..|exact Hl]. }
  destruct (TokenSpan.token_type t) eqn:Hty; try (apply Hstop; simpl; unfold binds; by rewrite Eo, Hty).
  - replace (if (0 <? c)%nat then is_comma source t else Ok false) with (Ok (E:=ParserError) ((0 <? c)%nat && comma t))
      by (destruct (0 <? c)%nat; [by rewrite comma_ok|done]).
    cbn [mbind result_bind]. destruct (power_ok t Hk (or_introl Hty)) as (prec & -> & Hpw & _).
    cbn [mbind result_bind]. rewrite Hpw.
    destruct ((0 <? c)%nat && comma t) eqn:Ec; [apply Hstop; simpl; unfold binds; by rewrite Eo, Hty, Ec|].
    destruct (power t) as [p a] eqn:Ep.
    assert (Hb : binds c level t = (level <=? p)%nat) by (unfold binds; by rewrite Eo, Hty, Ec, Ep).
    destruct (p <? level)%nat eqn:El.
    { apply Hstop. simpl. rewrite Hb. apply Nat.ltb_lt in El. by apply Nat.leb_gt. }
    apply Nat.ltb_ge, Nat.leb_le in El.
    intros ([e' r] & (edge' & ts' & cut' & He & Hsig & Hcut' & Hs1 & Hs2)%HP & Hl)%result_bind_ok.
    rewrite token_of_ok in Hl by done. cbn [mbind result_bind] in Hl.
    assert (Hn : match a with Left => p + 1 | Right => p end = next_level t) by (unfold next_level; by rewrite Ep).
    rewrite Hn in *. eapply (Hgo _ _ _ (t :: ts') cut');
      [eapply spine_infix; try done; by rewrite Hb|by rewrite Hsig|done|by apply stops_lower|exact Hl].
  - destruct (power_ok t Hk (or_intror Hty)) as (prec & -> & _ & Hpw). cbn [mbind result_bind]. rewrite Hpw.
    assert (Hb : binds c level t = (level <=? (power t).1)%nat) by (unfold binds; by rewrite Eo, Hty).
    destruct ((power t).1 <? level)%nat eqn:El.
    { apply Hstop. simpl. rewrite Hb. apply Nat.ltb_lt in El. by apply Nat.leb_gt. }
    apply Nat.ltb_ge, Nat.leb_le in El. rewrite token_of_ok by done. cbn [mbind result_bind].
    apply (Hgo _ _ None [t] false); [eapply spine_postfix; try done; by rewrite Hb|done..].
Qed.

Lemma spine_sound c level pos e q :
  parse_bp_inner source tokens dialect classifier bp c level pos = Ok (e, q) →
  ∃ edge ts cut, Spine P c level edge ts e cut ∧ sig pos = ts ++ sig q ∧ (cut = true → sig q = []) ∧
    stops c level (sig q) ∧ stops_edge c edge (sig q).
Proof using HP Hne Hok.
  unfold parse_bp_inner. intros ([lhs p] & Hp & Hl)%result_bind_ok.
  apply (prefix_sound c level) in Hp as (edge & ts & cut & Hs & Hsig & Hcut & Hst).
  destruct (loop_sound _ _ _ _ _ _ _ _ _ _ Hs Hcut Hst Hl) as (edge' & ts' & cut' & ? & Hsig' & ?).
  exists edge', (ts ++ ts'), cut'. by rewrite Hsig, Hsig', <- app_assoc.
Qed.

End sound.

Lemma parse_bp_sounds d : sounds (parse_bp source tokens dialect classifier d) (phrase d).
Proof using Hok.
  induction d as [|d IH]; intros c level pos e q Hp; [done|]. cbn [parse_bp] in Hp.
  eapply spine_sound; [exact IH| |exact Hp]. intros ????? (? & ? & ? & _)%phrase_first. done.
Qed.

Lemma parse_tokens_sentence e :
  parse_tokens source tokens dialect classifier = Ok e ↔ Sentence (significant tokens) e.
Proof using Hok.
  assert (H0 : sig 0 = significant tokens) by done.
  assert (Hend : ∀ {A} (a b : A) pos, at_end tokens a pos = Ok b ↔ a = b ∧ sig pos = []).
  { intros A a b pos. unfold at_end. peek_token pos t; rewrite H; by split; [|intros [? ?]]; intros; simplify_eq. }
  unfold parse_tokens. cbv zeta. split.
  - case_bool_decide; [done|]. destruct (tokens !! skip 0) as [t|] eqn:Ht; [|done].
    pose proof (token_here _ _ Ht) as Hk. pose proof (sig_some _ _ Ht) as Hs. rewrite H0 in Hs.
    destruct (is_type (TokenSpan.token_type t) Literal) eqn:Hty.
    + intros (t' & [<- Hnil]%Hend & Hp)%result_bind_ok. rewrite token_of_ok in Hp by done.
      cbn [mbind result_bind] in Hp. injection Hp as <-. rewrite Hs, Hnil.
      constructor. by apply bool_decide_eq_true in Hty.
    + intros ([e' q] & Hp & [-> Hnil]%Hend)%result_bind_ok.
      apply parse_bp_sounds in Hp as (edge & ts & cut & He & Hsig & _).
      rewrite sig_skip, Hnil, app_nil_r, H0 in Hsig. rewrite Hsig. by econstructor.
  - rewrite <- H0. clear H0. intros Hs. remember (sig 0) as ts eqn:Ets.
    assert (Hn : tokens ≠ []). { intros Hn. unfold sig in Ets. rewrite Hn in Ets. cbn in Ets. subst ts. inversion Hs as [|edge ts' e' cut He]; subst.
      by apply phrase_first in He as (? & ? & ? & _). }
    rewrite bool_decide_eq_false_2 by done. destruct Hs as [t Hty|edge ts e cut He].
    + symmetry in Ets. apply sig_cons in Ets as [Ht Hnil]. rewrite Ht. unfold is_type. rewrite Hty.
      cbn [bool_decide]. rewrite bool_decide_eq_true_2 by done.
      rewrite (proj2 (Hend _ t t _)) by done. cbn [mbind result_bind].
      rewrite token_of_ok by by eapply token_here. done.
    + assert (Hsk : sig (skip 0) = ts ++ []) by by rewrite sig_skip, app_nil_r.
      destruct (parse_bp_completes _ _ _ _ _ _ _ _ _ He Hsk) as (q & E & Hq); [done..|by destruct edge|].
      destruct (phrase_first _ _ _ _ _ _ _ He) as (u & ts' & -> & _ & Hu).
      symmetry in Ets. apply sig_cons in Ets as [-> _]. rewrite Hu. unfold parse_expression. rewrite E.
      cbn [mbind result_bind]. by apply Hend.
Qed.

End grammar.
