(* ===== verification/FormulaTheorems.v ===== *)
(** What parsing a formula gives: exactly the trees of the grammar, with the right
    volatility flags, alone or in a batch. *)
From S2P Require Import Prelude Token SpanTokenizer SpanFacts SpanTheorems StructuredRef Reference Parser ParserTheorems Grammar.

(** * From the text *)

Section text.
Context {F : FloatText}.
Context (dialect : FormulaDialect) (classifier : option (bytes → bool)).

Lemma parsed_tokens f spans : tokenize_spans_with_dialect f dialect = Ok spans →
  parse_with_dialect_and_volatility_classifier f dialect classifier =
  parse_tokens f spans dialect classifier.
Proof. intros Ht. unfold parse_with_dialect_and_volatility_classifier. by rewrite Ht. Qed.

(** C1: the parser accepts exactly the sentences of the precedence grammar, nested in at
    most [MAX_PARSE_DEPTH] frames, and builds their tree; and the grammar is unambiguous, each text
    having one tree at most. *)
Theorem parse_exact f e :
  parse_with_dialect_and_volatility_classifier f dialect classifier = Ok e ↔
  ∃ spans, tokenize_spans_with_dialect f dialect = Ok spans ∧
    Sentence f dialect classifier (significant spans) e ∧
    ∀ e', Sentence f dialect classifier (significant spans) e' → e' = e.
Proof.
  split.
  - intros Hp. pose proof Hp as Ht. unfold parse_with_dialect_and_volatility_classifier in Ht.
    apply result_bind_ok in Ht as (spans & Ht%map_err_ok & He). exists spans.
    pose proof (parse_tokens_sentence f dialect classifier spans (tokenized_ok _ _ _ Ht)) as Hs.
    split_and!; [done|by apply Hs|]. intros e' He'%Hs. congruence.
  - intros (spans & Ht & He & _). rewrite (parsed_tokens _ _ Ht).
    by apply (parse_tokens_sentence f dialect classifier spans (tokenized_ok _ _ _ Ht)).
Qed.

(** * Volatility *)

Definition classified (name : bytes) : bool :=
  match classifier with Some is_volatile => is_volatile name | None => false end.

(** A function that is classified volatile is called somewhere below. *)
Fixpoint volatile (n : ASTNode) : bool :=
  match node_type n with
  | Lit _ | Omitted | Reference _ _ => false
  | UnaryOp _ e => volatile e
  | BinaryOp _ l r => volatile l || volatile r
  | Function name args => classified name || existsb volatile args
  | Call callee args => volatile callee || existsb volatile args
  | ArrayLit rows => existsb (existsb volatile) rows
  end.

(** The flag of every node is right. *)
Fixpoint flags_ok (n : ASTNode) : bool :=
  Bool.eqb (contains_volatile n) (volatile n) &&
  match node_type n with
  | Lit _ | Omitted | Reference _ _ => true
  | UnaryOp _ e => flags_ok e
  | BinaryOp _ l r => flags_ok l && flags_ok r
  | Function _ args => forallb flags_ok args
  | Call callee args => flags_ok callee && forallb flags_ok args
  | ArrayLit rows => forallb (forallb flags_ok) rows
  end.

Lemma flags_ok_flag n : flags_ok n = true → contains_volatile n = volatile n.
Proof. destruct n. cbn [flags_ok]. by intros [?%eqb_prop _]%andb_true_iff. Qed.

Lemma flags_ok_args args : forallb flags_ok args = true → existsb contains_volatile args = existsb volatile args.
Proof.
  induction args as [|n args IH]; [done|]. simpl. intros [Hn Ha]%andb_true_iff.
  by rewrite IH, (flags_ok_flag _ Hn).
Qed.

Lemma flags_ok_rows rows : forallb (forallb flags_ok) rows = true →
  existsb (existsb contains_volatile) rows = existsb (existsb volatile) rows.
Proof.
  induction rows as [|r rows IH]; [done|]. simpl. intros [Hr Ha]%andb_true_iff.
  by rewrite IH, (flags_ok_args _ Hr).
Qed.

Section phrases.
Context (source : bytes) (P : nat → nat → option nat → list TokenSpan.t → ASTNode → bool → Prop).
Context (HP : ∀ c level edge ts e cut, P c level edge ts e cut → flags_ok e = true).

Lemma slots_flags kind c ts args : Slots source P kind c ts args → forallb flags_ok args = true.
Proof using HP.
  induction 1 as [|s ts arg ts' args _ Hs _ IH]; [done|]. simpl. rewrite IH, andb_true_r.
  destruct Hs as [|edge t ts e _ _ He]; [done|]. by eapply HP.
Qed.

Lemma args_flags kind c ts args : Args source P kind c ts args → forallb flags_ok args = true.
Proof using HP.
  intros [|ts1 arg ts2 args' inner Hs Hr _]; [done|]. simpl. rewrite (slots_flags _ _ _ _ Hr), andb_true_r.
  destruct Hs as [|edge t ts1 e _ _ He]; [done|]. by eapply HP.
Qed.

Lemma rows_flags c ts rows cut : Rows P c ts rows cut → forallb (forallb flags_ok) rows = true.
Proof using HP.
  induction 1 as [edge ts e u He _|edge ts e cut He|edge ts e s ts' rows cut He _ _ IH
    |edge ts e s ts' rows cut He _ _ IH]; apply HP in He; simpl; rewrite ?He; try done.
  destruct rows; [done|]. simpl in *. by rewrite He.
Qed.

Lemma primary_flags c ts e cut : Primary source dialect classifier P c ts e cut → flags_ok e = true.
Proof using HP.
  intros [t e' _ Hop|t ts' args _ _ Ha|edge t ts' e' u _ He _|t u _ _|t ts' rows cut' _ Hr _].
  - unfold parse_operand in Hop. destruct (TokenSpan.subtype t); bind_inv; try discriminate;
      repeat match goal with
      | H : match ?x with _ => _ end = Ok _ |- _ => destruct x; try discriminate H
      | H : Ok _ = Ok _ |- _ => injection H as <-
      end; done.
  - apply args_flags in Ha. cbn. rewrite Ha, (flags_ok_args _ Ha), andb_true_r. apply Bool.eqb_reflx.
  - by eapply HP.
  - done.
  - apply rows_flags in Hr. cbn. rewrite Hr, (flags_ok_rows _ Hr), andb_true_r. apply Bool.eqb_reflx.
Qed.

Lemma spine_flags c level edge ts e cut : Spine source dialect classifier P c level edge ts e cut → flags_ok e = true.
Proof using HP.
  induction 1 as [ts e cut He|edge t ts e cut _ He|edge ts e t _ IH|edge ts e t ts' args _ IH _ _ Ha
    |edge ts e t edge' ts' e' cut _ IH _ _ _ He].
  - by eapply primary_flags.
  - apply HP in He. cbn. by rewrite He, (flags_ok_flag _ He), Bool.eqb_reflx.
  - cbn. by rewrite IH, (flags_ok_flag _ IH), Bool.eqb_reflx.
  - apply args_flags in Ha. cbn. by rewrite IH, Ha, (flags_ok_flag _ IH), (flags_ok_args _ Ha), Bool.eqb_reflx.
  - apply HP in He. cbn. by rewrite IH, He, (flags_ok_flag _ IH), (flags_ok_flag _ He), Bool.eqb_reflx.
Qed.
End phrases.

Lemma phrase_flags source d c level edge ts e cut :
  phrase source dialect classifier d c level edge ts e cut → flags_ok e = true.
Proof.
  revert c level edge ts e cut. induction d as [|d IH]; intros c level edge ts e cut; [done|].
  apply spine_flags, IH.
Qed.

(** C7: in the tree of a formula every node, not only the root, is flagged volatile
    exactly when a function that the classifier names is called at or below it. *)
Theorem parse_volatile_exact f e :
  parse_with_dialect_and_volatility_classifier f dialect classifier = Ok e → flags_ok e = true.
Proof.
  unfold parse_with_dialect_and_volatility_classifier. intros (spans & Ht%map_err_ok & He)%result_bind_ok.
  apply (parse_tokens_sentence f dialect classifier spans (tokenized_ok _ _ _ Ht)) in He.
  destruct He as [t _|edge ts e cut He]; [done|by eapply phrase_flags].
Qed.

(** * The batch parser *)

(** The states a batch parser goes through. *)
Inductive batch_reachable (whitespace : bool) : BatchParser → Prop :=
| batch_built : batch_reachable whitespace (build_batch whitespace classifier dialect)
| batch_parsed bp f : batch_reachable whitespace bp → batch_reachable whitespace (batch_parse bp f).1.

(** The cache holds what the tokenizer would give. *)
Definition cache_ok (bp : BatchParser) : Prop :=
  ∀ f spans, token_cache bp !! f = Some spans → batch_tokens bp f = Ok spans.

Lemma batch_parse_state bp f :
  batch_dialect (batch_parse bp f).1 = batch_dialect bp ∧
  batch_classifier (batch_parse bp f).1 = batch_classifier bp ∧
  include_whitespace (batch_parse bp f).1 = include_whitespace bp.
Proof. unfold batch_parse. destruct (token_cache bp !! f); [done|]. by destruct (batch_tokens bp f). Qed.

Lemma batch_tokens_settings bp bp' f :
  batch_dialect bp' = batch_dialect bp → include_whitespace bp' = include_whitespace bp →
  batch_tokens bp' f = batch_tokens bp f.
Proof. unfold batch_tokens. by intros -> ->. Qed.

Lemma batch_cache_ok bp f : cache_ok bp → cache_ok (batch_parse bp f).1.
Proof.
  intros Hc g spans. destruct (batch_parse_state bp f) as (Hd & _ & Hw).
  rewrite (batch_tokens_settings bp _ g Hd Hw). unfold batch_parse.
  destruct (token_cache bp !! f) eqn:Hf; [apply Hc|]. destruct (batch_tokens bp f) eqn:Ht; simpl; [|apply Hc..].
  rewrite lookup_insert_Some. intros [[<- <-]|[_ ?]]; [done|by apply Hc].
Qed.

Lemma batch_reachable_ok w bp : batch_reachable w bp →
  cache_ok bp ∧ batch_dialect bp = dialect ∧ batch_classifier bp = classifier ∧ include_whitespace bp = w.
Proof.
  induction 1 as [|bp f _ (Hc & Hd & Hcl & Hw)].
  - by split_and!.
  - destruct (batch_parse_state bp f) as (-> & -> & ->). split; [by apply batch_cache_ok|done].
Qed.

Lemma significant_idem l : significant (significant l) = significant l.
Proof.
  unfold significant. induction l as [|t l IH]; [done|]. simpl. destruct (is_white t) eqn:E; simpl; [done|].
  by rewrite E, IH.
Qed.

(** C5: whatever was parsed before, and whether or not it keeps the blanks, a batch
    parser returns, and it gives for a formula the tree that parsing it alone gives, and an error
    where that gives an error. *)
Theorem batch_parse_refines w bp f : batch_reachable w bp →
  (batch_parse bp f).2 ≠ Panic ∧ ∀ e, (batch_parse bp f).2 = Ok e ↔
    parse_with_dialect_and_volatility_classifier f dialect classifier = Ok e.
Proof.
  intros (Hc & Hd & Hcl & Hw)%batch_reachable_ok.
  assert (Hr : (batch_parse bp f).2 =
    (spans ← batch_tokens bp f; parse_tokens f spans dialect classifier)).
  { unfold batch_parse. rewrite Hd, Hcl. destruct (token_cache bp !! f) as [spans|] eqn:E.
    - by rewrite (Hc _ _ E).
    - by destruct (batch_tokens bp f). }
  rewrite Hr. unfold batch_tokens, parse_with_dialect_and_volatility_classifier. rewrite Hd, Hw.
  pose proof (spans_strict (R := le) f dialect (gap_le f)) as Htok.
  destruct (tokenize_spans_with_dialect f dialect) as [spans|e|] eqn:Ht; [|by split|done]. clear Htok.
  cbn [map_err mbind result_bind]. apply tokenized_ok in Ht.
  assert (Hk : Forall (token_ok f) (if w then spans else significant spans) ∧
    significant (if w then spans else significant spans) = significant spans).
  { destruct w; [done|]. split; [|apply significant_idem].
    rewrite Forall_forall in *. intros t [Hin _]%list_elem_of_In%List.filter_In. by apply Ht, list_elem_of_In. }
  destruct Hk as [Hk Hs]. split; [by apply parse_tokens_total|]. intros e.
  by rewrite (parse_tokens_sentence f dialect classifier _ Hk), Hs,
    (parse_tokens_sentence f dialect classifier _ Ht).
Qed.

End text.

Lemma parse_volatile_exact_witness : ∃ e,
  parse_with_dialect_and_volatility_classifier (str "=1+SUM(RAND(),A1)") Excel
    (Some (λ name, eqb_bytes name (str "RAND"))) = Ok e ∧
  flags_ok (Some (λ name, eqb_bytes name (str "RAND"))) e = true ∧ contains_volatile e = true.
Proof.
  pose (p := parse_with_dialect_and_volatility_classifier (str "=1+SUM(RAND(),A1)") Excel
    (Some (λ name, eqb_bytes name (str "RAND")))).
  assert (Hv : match p with Ok e => contains_volatile e | _ => false end = true) by (vm_compute; reflexivity).
  fold p. destruct p as [e|?|] eqn:E; [|discriminate Hv..].
  exists e. split; [reflexivity|]. split; [|exact Hv].
  exact (parse_volatile_exact Excel _ _ _ E).
Defined.

Lemma batch_parse_refines_witness :
  let bp := (batch_parse (build_batch false None Excel) (str "=1 + 2")).1 in
  token_cache bp !! str "=1 + 2" ≠ None ∧
  ∀ e, (batch_parse bp (str "=1 + 2")).2 = Ok e ↔ parse_with_dialect (str "=1 + 2") Excel = Ok e.
Proof.
  intros bp. split; [vm_compute; discriminate|].
  apply (batch_parse_refines Excel None false bp (str "=1 + 2")). apply batch_parsed, batch_built.
Defined.
