(* ===== verification/OwnedEquiv.v ===== *)
(** The owning tokenizer computes what the span tokenizer does: its state is a
    function of the span tokenizer's ([owned]), and each method commutes with it. *)
From S2P Require Import Prelude Token SpanTokenizer OwnedTokenizer SpanFacts SpanTheorems.

(** The owning tokenizer's view of a span tokenizer's state. *)
Definition owned (st : SpanTokenizer) : Tokenizer.t :=
  {| Tokenizer.formula := formula st;
     Tokenizer.items := TokenStream.to_token (formula st) <$> spans st;
     Tokenizer.token_stack := TokenStream.to_token (formula st) <$> token_stack st;
     Tokenizer.offset := offset st;
     Tokenizer.token_start := token_start st;
     Tokenizer.token_end := token_end st;
     Tokenizer.dialect := dialect st |}.

Definition agree (o : outcome) : result TokenizerError Tokenizer.t :=
  match o with
  | (st, Ok _) => Ok (owned st)
  | (_, Err e) => Err (to_tokenizer_error e)
  | (_, Panic) => Panic
  end.

(** ** Spans and tokens *)

Lemma to_token_slice f ty sub a b : a < b ≤ length f →
  (ty = OpInfix → ∃ c, f !! a = Some c ∧ is_blank c = false) →
  TokenStream.to_token f (mk_span ty sub a b) = Token.from_slice f ty sub a b.
Proof.
  intros Hab Hty. unfold TokenStream.to_token, TokenStream.is_whitespace_intersection_span, TokenStream.text.
  simpl. rewrite decide_True by lia. simpl. unfold Token.from_slice. f_equal.
  unfold is_type. case_bool_decide as Ht; [|done]. destruct (Hty Ht) as (c & Hc & Hb). simpl.
  unfold slice. rewrite (drop_S _ _ _ Hc). replace (b - a) with (S (b - a - 1)) by lia.
  cbn [take forallb]. by rewrite Hb, andb_false_r.
Qed.

Lemma to_token_operand f sub a b : a < b ≤ length f →
  TokenStream.to_token f (mk_span Operand sub a b) = Token.from_slice f Operand sub a b.
Proof. intros. by apply to_token_slice. Qed.

Lemma find_fmap {A B} (g : A → B) (p : B → bool) (l : list A) :
  List.find p (g <$> l) = g <$> List.find (λ x, p (g x)) l.
Proof. induction l as [|x l IH]; [done|]. cbn. by destruct (p (g x)). Qed.

Lemma prev_owned st :
  Tokenizer.prev_non_whitespace (owned st) =
  TokenStream.to_token (formula st) <$> prev_non_whitespace st.
Proof.
  unfold Tokenizer.prev_non_whitespace, prev_non_whitespace. simpl.
  by rewrite <- fmap_reverse, find_fmap.
Qed.

Lemma prev_in st p : prev_non_whitespace st = Some p → p ∈ spans st.
Proof.
  intros [H _]%List.find_some. by rewrite <- list_elem_of_In, elem_of_reverse in H.
Qed.

Lemma span_in_bounds st p : inv le st → p ∈ spans st →
  TokenSpan.start p < TokenSpan.end_ p ≤ length (formula st).
Proof.
  intros Hi Hp. destruct (chained_bounds _ _ _ (inv_chain _ _ Hi)) as [_ Hb].
  rewrite Forall_forall in Hb. specialize (Hb _ Hp). simpl in Hb.
  destruct Hi. lia.
Qed.

Section commute.
Context (st : SpanTokenizer) (Hi : inv le st).

Lemma owned_has_token : Tokenizer.has_token (owned st) = has_token st.
Proof. done. Qed.

Lemma owned_save : Tokenizer.save_token (owned st) = owned (save_token st).
Proof.
  unfold Tokenizer.save_token, save_token. rewrite owned_has_token.
  destruct (has_token st) eqn:Ht; [|done]. apply has_token_spec in Ht.
  unfold Tokenizer.push, owned. fields. rewrite fmap_app. cbn [fmap list_fmap].
  by rewrite to_token_operand by (destruct Hi; lia).
Qed.

Lemma owned_save_idle :
  (if has_token st then Tokenizer.save_token (owned st) else owned st) = owned (save_token st).
Proof.
  destruct (has_token st) eqn:Ht; [apply owned_save|]. by rewrite save_token_idle.
Qed.

Lemma owned_start_save :
  Tokenizer.start_token (Tokenizer.save_token (owned st)) = owned (start_token (save_token st)).
Proof. by rewrite owned_save. Qed.

Lemma prev_reference_owned :
  Tokenizer.prev_is_reference_producing (owned st) = prev_is_reference_producing st.
Proof.
  unfold Tokenizer.prev_is_reference_producing, prev_is_reference_producing. rewrite prev_owned.
  destruct (prev_non_whitespace st) as [p|] eqn:Hp; [|done].
  apply prev_in, span_in_bounds in Hp; [|done].
  destruct p as [ty sub a b]. unfold Tokenizer.closes_reference, closes_reference. simpl in *.
  pose proof (f_equal Token.value (to_token_operand _ sub _ _ Hp)) as E. simpl in E. unfold mk_span in E.
  destruct ty; try done. by rewrite E.
Qed.

Lemma sign_type_owned : Tokenizer.sign_type (owned st) = sign_type st.
Proof.
  unfold Tokenizer.sign_type, sign_type. rewrite prev_owned. simpl.
  destruct (spans st) eqn:Hs; [done|]. rewrite !bool_decide_eq_false_2 by done.
  by destruct (prev_non_whitespace st).
Qed.

Lemma colon_owned : Tokenizer.should_emit_colon_infix (owned st) = should_emit_colon_infix st.
Proof.
  unfold Tokenizer.should_emit_colon_infix, should_emit_colon_infix.
  by rewrite prev_reference_owned.
Qed.
End commute.

(** Pushing the token of a span commutes. *)
Lemma owned_push st s tok : tok = TokenStream.to_token (formula st) s →
  Tokenizer.push tok (owned st) = owned (set_spans (spans st ++ [s]) st).
Proof.
  intros ->. unfold Tokenizer.push, owned. fields. by rewrite fmap_app.
Qed.

(** So does pushing a slice, when its text is not blank. *)
Lemma owned_push_slice st ty sub a b : a < b ≤ length (formula st) →
  (ty = OpInfix → ∃ c, formula st !! a = Some c ∧ is_blank c = false) →
  Tokenizer.push_slice ty sub a b (owned st) = owned (push_span ty sub a b st).
Proof. intros Hab Hty. apply owned_push. by rewrite to_token_slice. Qed.

Lemma owned_push_operand st a b : a < b ≤ length (formula st) →
  Tokenizer.push (Token.make_operand_from_slice (formula st) a b) (owned st) =
  owned (push_span Operand (operand_subtype (slice (formula st) a b)) a b st).
Proof. intros. by rewrite <- owned_push_slice. Qed.

(** ** Hash postfix *)

(** A spelling of [TRUE] or [FALSE] that is not in upper case. *)
Definition case_variant (w : bytes) : bool :=
  existsb (λ u, eq_ignore_ascii_case w u && negb (eqb_bytes w u)) [str "TRUE"; str "FALSE"].

(** No such spelling stands right before a [#]. *)
Definition no_variant_hash (f : bytes) : Prop :=
  ∀ i j, f !! j = Some "#"%char → case_variant (slice f i j) = false.

Lemma eq_ignore_exact w u : eq_ignore_ascii_case w u && negb (eqb_bytes w u) = false →
  eq_ignore_ascii_case w u = eqb_bytes w u.
Proof.
  unfold eq_ignore_ascii_case, eqb_bytes. intros H.
  destruct (decide (w = u)) as [->|Hne]; [by rewrite !bool_decide_eq_true_2|].
  rewrite (bool_decide_eq_false_2 (w = u)) in * by done. by rewrite andb_true_r in H.
Qed.

Lemma is_range_text_spec v : case_variant v = false →
  Tokenizer.is_range_text v = is_sub (operand_subtype v) Range.
Proof.
  unfold case_variant, Tokenizer.is_range_text, operand_subtype. cbn [existsb].
  destruct (starts_with quote v); [done|]. destruct (starts_with "#" v); [done|].
  rewrite orb_false_r. intros [->%eq_ignore_exact ->%eq_ignore_exact]%orb_false_iff.
  by destruct (eqb_bytes _ _), (eqb_bytes _ _), (parse_f64_is_ok v).
Qed.

Lemma hash_owned st : inv le st → formula st !! offset st = Some "#"%char →
  no_variant_hash (formula st) →
  Tokenizer.should_emit_hash_postfix (owned st) = should_emit_hash_postfix st.
Proof.
  intros Hi Hc Hv. unfold Tokenizer.should_emit_hash_postfix, should_emit_hash_postfix.
  rewrite owned_has_token. destruct (has_token st).
  - change (Tokenizer.token_text (owned st)) with (token_text st).
    cbn [Tokenizer.formula Tokenizer.token_end owned]. destruct (byte_at _ _ _); [done|].
    apply is_range_text_spec. unfold token_text. rewrite (inv_end _ _ Hi). by apply Hv.
  - rewrite prev_owned. destruct (prev_non_whitespace st) as [[[] ? ? ?]|]; done.
Qed.

(** ** The methods *)

Lemma slice_span {A} (p : A → bool) (l a b : list A) i : span p (drop i l) = (a, b) → i ≤ length l →
  slice l i (i + length a) = a ∧ i + length a ≤ length l.
Proof.
  intros H%span_app Hi. unfold slice. replace (i + length a - i) with (length a) by lia.
  rewrite H, take_app_length. split; [done|]. apply (f_equal (@length _)) in H.
  rewrite length_drop, length_app in H. lia.
Qed.

Lemma last_slice {A} (l : list A) a e c : l !! e = Some c → a ≤ e → last (slice l a (e + 1)) = Some c.
Proof.
  intros Hc Ha. pose proof (lookup_lt_Some _ _ _ Hc). unfold slice.
  rewrite last_lookup, length_take, length_drop, lookup_take_lt, lookup_drop by lia.
  rewrite <- Hc. f_equal. lia.
Qed.

Lemma fmap_removelast {A B} (g : A → B) (l : list A) : removelast (g <$> l) = g <$> removelast l.
Proof. induction l as [|x [|y l] IH]; [done..|]. cbn in *. by rewrite IH. Qed.

(** The closer of an opener's token. *)
Lemma get_closer_owned f ty a b : opener_type ty = true →
  Token.get_closer (TokenStream.to_token f {| TokenSpan.token_type := ty; TokenSpan.subtype := Open;
    TokenSpan.start := a; TokenSpan.end_ := b |}) =
  Ok (Token.new (if is_type ty Array then str "}" else str ")") ty Close).
Proof. by destruct ty. Qed.

(** The mismatch test of the two tokenizers. *)
Lemma closer_mismatch c ty : c = "}"%char ∨ c = ")"%char →
  (Ascii.eqb c "}" && negb (eqb_bytes (if is_type ty Array then str "}" else str ")") (str "}")))
  || (Ascii.eqb c ")" && negb (eqb_bytes (if is_type ty Array then str "}" else str ")") (str ")"))) =
  negb (Ascii.eqb c (if is_type ty Array then "}"%char else ")"%char)).
Proof. intros [-> | ->]; by destruct (is_type ty Array). Qed.

(** The fields of an owned state. *)
Ltac owned_fields :=
  cbn [Tokenizer.formula Tokenizer.offset Tokenizer.token_start Tokenizer.token_end
       Tokenizer.dialect Tokenizer.items Tokenizer.token_stack owned].

Section methods_agree.
Context (st : SpanTokenizer) (Hi : inv le st) (c : byte) (Hc : formula st !! offset st = Some c).

Lemma offset_lt : offset st < length (formula st).
Proof. by eapply lookup_lt_Some. Qed.

Lemma flush_owned (b : bool) :
  (if b then Tokenizer.start_token (Tokenizer.save_token (owned st)) else owned st) =
  owned (if b then start_token (save_token st) else st).
Proof. destruct b; [by apply owned_start_save|done]. Qed.

(** The state the pending token may have been flushed in. *)
Lemma flushed (b : bool) : let st1 := if b then start_token (save_token st) else st in
  inv le st1 ∧ formula st1 = formula st ∧ offset st1 = offset st.
Proof. destruct b; cbv zeta; (split; [by try apply saved_inv|by fields]). Qed.

Lemma parse_string_owned : c = quote ∨ c = "'"%char →
  Tokenizer.parse_string (owned st) = agree (parse_string st).
Proof.
  pose proof offset_lt. intros Hq. unfold Tokenizer.parse_string, parse_string.
  owned_fields. rewrite Hc. cbn [expect mbind result_bind].
  rewrite (proj2 (orb_true_iff _ _)) by (rewrite !Ascii.eqb_eq; tauto). cbn [negb].
  rewrite owned_has_token. fold (is_dollar_ref c st) (glue_to_token c st).
  rewrite flush_owned.
  assert (Hdollar : is_dollar_ref c st = true → c ≠ quote).
  { unfold is_dollar_ref. bool_prop. by intros [[[-> _] _] _]. }
  destruct (flushed (negb (is_dollar_ref c st) && negb (glue_to_token c st) && has_token st))
    as (Hi1 & Hf1 & Ho1).
  set (st1 := if negb (is_dollar_ref c st) && _ && _ then start_token _ else st) in *. clearbody st1. owned_fields.
  destruct (string_loop _ _ _) as [[] off] eqn:Hloop; [|done].
  apply string_loop_bounds in Hloop as (Hb & Hoff & _). specialize (Hoff eq_refl).
  rewrite length_drop in Hb.
  destruct (Ascii.eqb_spec c quote) as [->|]; [|done].
  destruct (is_dollar_ref quote st); [by specialize (Hdollar eq_refl)|].
  cbn [agree]. f_equal.
  refine (f_equal Tokenizer.start_token (owned_push_operand (set_offset off st1) (offset st1) off _)).
  rewrite Ho1, Hf1 in *. cbn. rewrite Hf1. lia.
Qed.

Lemma parse_brackets_owned : c = "["%char →
  Tokenizer.parse_brackets (owned st) = agree (parse_brackets st).
Proof.
  intros ->. unfold Tokenizer.parse_brackets, parse_brackets.
  owned_fields. rewrite Hc. cbn [expect mbind result_bind Ascii.eqb Bool.eqb negb].
  rewrite owned_has_token.
  replace (if negb (has_token st) then Tokenizer.start_token (owned st) else owned st)
    with (owned (if negb (has_token st) then start_token st else st)) by by destruct (has_token st).
  owned_fields. by destruct (brackets_loop _ _ _) as [[] off].
Qed.

Lemma parse_error_owned : c = "#"%char →
  Tokenizer.parse_error (owned st) = agree (parse_error st).
Proof.
  pose proof offset_lt. intros ->. unfold Tokenizer.parse_error, parse_error.
  change (Tokenizer.has_sheet_prefix (owned st)) with (has_sheet_prefix st). owned_fields.
  destruct (has_sheet_prefix st && _); [done|]. rewrite owned_has_token.
  replace (if has_sheet_prefix st then Tokenizer.start_token (owned st) else _)
    with (owned (if has_sheet_prefix st then start_token st
                 else if has_token st then start_token (save_token st) else st))
    by (destruct (has_sheet_prefix st); [done|by rewrite flush_owned]).
  set (st1 := if has_sheet_prefix st then _ else _).
  assert (Hf1 : formula st1 = formula st ∧ offset st1 = offset st).
  { unfold st1. by destruct (has_sheet_prefix st), (has_token st); fields. }
  destruct Hf1 as [Hf1 Ho1]. clearbody st1. owned_fields. rewrite Hf1, Ho1.
  destruct (matching_error_code _ _) as [code|] eqn:Hm; [|done].
  apply matching_error_code_spec in Hm as (Hin & Hlen & _). apply error_code_length in Hin.
  cbn [agree]. f_equal. rewrite <- Hf1, owned_push_operand by (rewrite Hf1; lia).
  replace (operand_subtype _) with Error; [done|].
  unfold slice. rewrite Hf1, (drop_S _ _ _ Hc).
  replace (offset st + length code - offset st) with (S (length code - 1)) by lia. done.
Qed.

Lemma parse_operator_owned : is_blank c = false →
  Tokenizer.parse_operator (owned st) = agree (parse_operator st).
Proof.
  intros Hb. pose proof offset_lt. unfold Tokenizer.parse_operator, parse_operator.
  rewrite owned_save by done. owned_fields. rewrite formula_save, offset_save, Hc.
  destruct (_ && _) eqn:H2; cbn [agree expect mbind result_bind].
  - bool_prop in H2. destruct H2 as [H2 _].
    f_equal. rewrite owned_push_slice by (fields; eauto; lia). owned_fields. by fields.
  - f_equal. rewrite sign_type_owned.
    rewrite owned_push_slice by (fields; eauto; lia). owned_fields. by fields.
Qed.

Lemma parse_whitespace_owned : is_blank c = true →
  Ok (Tokenizer.parse_whitespace (owned st)) = agree (parse_whitespace st).
Proof.
  intros Hb. pose proof offset_lt. unfold Tokenizer.parse_whitespace, parse_whitespace.
  rewrite owned_save by done. owned_fields. rewrite formula_save, offset_save.
  destruct (span is_blank (drop (offset st) (formula st))) as [blanks rest] eqn:Hs.
  destruct (slice_span _ _ _ _ _ Hs ltac:(lia)) as [Hsl Hlen]. apply span_prefix in Hs as Hall.
  assert (Hne : 0 < length blanks).
  { rewrite (drop_S _ _ _ Hc) in Hs. cbn [span] in Hs. rewrite Hb in Hs.
    destruct (span is_blank _). injection Hs as <- <-. simpl. lia. }
  cbn [agree fst]. f_equal.
  refine (f_equal Tokenizer.start_token (owned_push (set_offset _ (save_token st)) _ _ _)).
  pose proof (prev_reference_owned _ (saved_inv _ Hi)) as Hprev.
  change (Tokenizer.prev_is_reference_producing (Tokenizer.set_offset ?o (owned ?s)))
    with (Tokenizer.prev_is_reference_producing (owned (start_token (save_token st)))).
  rewrite Hprev. cbn [formula offset set_offset Tokenizer.offset Tokenizer.set_offset].
  change (prev_is_reference_producing (set_offset ?o (save_token st)))
    with (prev_is_reference_producing (start_token (save_token st))).
  change (Tokenizer.formula (Tokenizer.set_offset ?o (owned ?s))) with (formula s).
  rewrite formula_save. destruct (_ && _ && _) eqn:Hx.
  - apply andb_true_iff in Hx as [[Hx _]%andb_true_iff _].
    unfold TokenStream.to_token, TokenStream.is_whitespace_intersection_span, TokenStream.text. simpl.
    rewrite decide_True by lia. rewrite Hsl, Hx.
    rewrite (proj2 (forallb_forall _ _)); [done|]. intros x Hx'. by eapply List.Forall_forall in Hall.
  - by rewrite to_token_slice by (done || lia).
Qed.

Lemma make_subexp_slice {E} func a : a ≤ offset st →
  @Token.make_subexp_from_slice E (formula st) func a (offset st + 1) =
  Ok (Token.from_slice (formula st) (Token.subexp_type c func) (Token.subexp_subtype c) a (offset st + 1)).
Proof.
  intros Ha. unfold Token.make_subexp_from_slice.
  by rewrite (last_slice _ _ _ _ Hc Ha).
Qed.

(** An opener pushed on the tokens and on the stack. *)
Lemma owned_open st1 sp : formula st1 = formula st → offset st1 = offset st →
  TokenSpan.start sp < TokenSpan.end_ sp ≤ length (formula st) → TokenSpan.token_type sp ≠ OpInfix →
  let tok := Token.from_slice (formula st) (TokenSpan.token_type sp) (TokenSpan.subtype sp)
               (TokenSpan.start sp) (TokenSpan.end_ sp) in
  let t := Tokenizer.push tok (owned st1) in
  let t := Tokenizer.set_stack (Tokenizer.token_stack t ++ [tok]) t in
  Tokenizer.start_token (Tokenizer.set_offset (Tokenizer.offset t + 1) t) =
  owned (start_token (set_offset (offset st1 + 1)
    (set_stack (token_stack st1 ++ [sp]) (set_spans (spans st1 ++ [sp]) st1)))).
Proof.
  intros Hf Ho Hb Hty. cbv zeta. destruct sp as [ty sub a b]. simpl in *.
  pose proof (to_token_slice (formula st) ty sub a b Hb ltac:(done)) as E. unfold mk_span in E.
  rewrite <- E, owned_push with (s := {| TokenSpan.token_type := ty; TokenSpan.subtype := sub;
    TokenSpan.start := a; TokenSpan.end_ := b |}) by by rewrite Hf.
  unfold Tokenizer.start_token, Tokenizer.set_offset, Tokenizer.set_token, Tokenizer.set_stack, owned.
  simpl. by rewrite !fmap_app, Hf, Ho.
Qed.

Lemma parse_opener_owned : one_of c "({" = true →
  Tokenizer.parse_opener (owned st) = agree (parse_opener st).
Proof.
  intros Ho. pose proof offset_lt. pose proof (inv_tok _ _ Hi). pose proof (inv_end _ _ Hi).
  unfold Tokenizer.parse_opener, parse_opener.
  owned_fields. rewrite Hc. cbn [expect mbind result_bind]. rewrite Ho. cbn [negb].
  rewrite owned_has_token, owned_save by done. owned_fields. rewrite formula_save, offset_save.
  assert (Hty : c = "{"%char ∨ c = "("%char).
  { apply one_of_two in Ho. tauto. }
  destruct (Ascii.eqb_spec c "{"); [|destruct (has_token st) eqn:Ht].
  all: rewrite make_subexp_slice by lia; cbn [mbind result_bind agree]; f_equal.
  - subst c. apply (owned_open (save_token st) (mk_span Array Open (offset st) (offset st + 1)));
      fields; simpl; done || lia.
  - destruct Hty as [|]; [done|]. subst c. apply has_token_spec in Ht.
    apply (owned_open (set_token _ _ st) (mk_span Func Open (token_start st) (offset st + 1)));
      simpl; done || lia.
  - destruct Hty as [|]; [done|]. subst c.
    apply (owned_open st (mk_span Paren Open (offset st) (offset st + 1))); simpl; done || lia.
Qed.

Lemma top_owned : last (Tokenizer.token_stack (owned st)) =
  TokenStream.to_token (formula st) <$> last (token_stack st).
Proof. apply fmap_last. Qed.

(** The state after [save_token], which the next three methods start from. *)
Lemma saved_facts : ∃ st1, save_token st = st1 ∧ formula st1 !! offset st1 = Some c ∧
  offset st1 < length (formula st1) ∧ token_stack st1 = token_stack st ∧ offset st1 = offset st.
Proof. exists (save_token st). fields. pose proof offset_lt. by split_and!. Qed.

Lemma parse_closer_owned : one_of c ")}" = true →
  Tokenizer.parse_closer (owned st) = agree (parse_closer st).
Proof.
  intros Ho. unfold Tokenizer.parse_closer, parse_closer. rewrite owned_save by done.
  destruct saved_facts as (st1 & -> & Hc1 & Hlt & Hst & _). owned_fields. rewrite Hc1.
  cbn [expect mbind result_bind]. rewrite Ho. cbn [negb].
  rewrite fmap_last. destruct (last (token_stack st1)) as [[ty sub a b]|] eqn:Hl; [|done].
  pose proof (open_brackets_open _ _ (inv_nest _ _ Hi)) as Hop. rewrite <- Hst in Hop.
  apply last_Some in Hl as [l Hl]. rewrite Hl in Hop. apply Forall_app in Hop as [_ Hop].
  apply Forall_cons in Hop as [[Hsub Hty] _]. simpl in Hsub, Hty. subst sub.
  assert (Hcc : c = "}"%char ∨ c = ")"%char).
  { apply one_of_two in Ho. tauto. }
  cbn [fmap option_fmap option_map]. rewrite get_closer_owned by done. cbn [mbind result_bind].
  cbn [TokenSpan.token_type Token.value Token.new Token.new_with_span].
  rewrite closer_mismatch by done. destruct (negb _); [done|]. cbn [agree]. f_equal.
  rewrite fmap_removelast.
  refine (f_equal (λ t, Tokenizer.start_token (Tokenizer.set_offset (Tokenizer.offset t + 1) t))
    (owned_push_slice (set_stack (removelast (token_stack st1)) st1) ty Close
      (offset st1) (offset st1 + 1) _ _)); [cbn; lia|intros ->; done].
Qed.

Lemma parse_separator_owned : one_of c ";," = true →
  Tokenizer.parse_separator (owned st) = agree (parse_separator st).
Proof.
  intros Ho. unfold Tokenizer.parse_separator, parse_separator. rewrite owned_save by done.
  destruct saved_facts as (st1 & -> & Hc1 & Hlt & Hst & _). owned_fields. rewrite Hc1.
  cbn [expect mbind result_bind]. rewrite Ho. cbn [negb]. rewrite fmap_last.
  replace (Token.token_type <$> (_ <$> last (token_stack st1))) with
    (TokenSpan.token_type <$> last (token_stack st1)) by by destruct (last _).
  destruct (separator_type _ _ _) as [ty sub]. cbn [agree]. f_equal.
  rewrite owned_push_slice; [done|lia|]. intros _. exists c. split; [done|].
  by apply one_of_two in Ho as [->| ->].
Qed.

Lemma accumulate_owned : Tokenizer.accumulate (owned st) = owned (accumulate st).
Proof. unfold Tokenizer.accumulate, accumulate. rewrite owned_has_token. by destruct (has_token st). Qed.

Lemma emit_infix_owned : is_blank c = false →
  Tokenizer.emit_infix_operator (offset st) (offset st + 1) (owned st) =
  owned (emit_infix_operator (offset st) (offset st + 1) st).
Proof.
  intros Hb. unfold Tokenizer.emit_infix_operator, emit_infix_operator.
  rewrite owned_start_save by done.
  destruct saved_facts as (st1 & -> & Hc1 & Hlt & _ & <-). cbn.
  rewrite owned_push_slice; [done|cbn; lia|]. intros _. by exists c.
Qed.

Lemma emit_hash_owned : Tokenizer.emit_hash_postfix (owned st) = owned (emit_hash_postfix st).
Proof.
  unfold Tokenizer.emit_hash_postfix, emit_hash_postfix. rewrite owned_start_save by done.
  destruct saved_facts as (st1 & -> & Hc1 & Hlt & _ & _). cbn.
  by rewrite owned_push_slice by (done || cbn; lia).
Qed.

(** ** The loop *)

Lemma dispatch_owned : no_variant_hash (formula st) →
  Tokenizer.dispatch c (owned st) = agree (dispatch c st).
Proof.
  intros Hv. unfold Tokenizer.dispatch, dispatch.
  destruct (Ascii.eqb c quote || Ascii.eqb c "'") eqn:E.
  { bool_prop in E. by apply parse_string_owned. }
  destruct (Ascii.eqb_spec c "["); [by apply parse_brackets_owned|].
  destruct (Ascii.eqb_spec c "#") as [Hh|].
  { rewrite hash_owned by (done || by rewrite <- Hh). destruct (should_emit_hash_postfix st).
    - by rewrite emit_hash_owned.
    - by apply parse_error_owned. }
  destruct (is_blank c) eqn:Hb; [by apply parse_whitespace_owned|].
  destruct (Ascii.eqb c ":").
  { rewrite colon_owned by done. destruct (should_emit_colon_infix st).
    - cbn [agree]. f_equal. by apply emit_infix_owned.
    - cbn [agree]. f_equal. apply accumulate_owned. }
  destruct (one_of c "+-*/^&=><%@"); [by apply parse_operator_owned|].
  rewrite one_of_opener. destruct (one_of c "({") eqn:?; [by apply parse_opener_owned|].
  destruct (one_of c ")}") eqn:?; [by apply parse_closer_owned|].
  destruct (one_of c ";,") eqn:?; [by apply parse_separator_owned|].
  cbn [agree]. f_equal. apply accumulate_owned.
Qed.
End methods_agree.

Lemma step_owned st : inv le st → offset st < length (formula st) → no_variant_hash (formula st) →
  Tokenizer.step (owned st) = agree (step st).
Proof.
  intros Hi Hlt Hv. unfold Tokenizer.step, step.
  destruct (lookup_lt_is_Some_2 (formula st) (offset st) Hlt) as [c Hc].
  replace (Tokenizer.check_scientific_notation (owned st)) with (owned <$> check_scientific_notation st)
    by (unfold Tokenizer.check_scientific_notation, check_scientific_notation;
        change (Tokenizer.current_byte (owned st)) with (current_byte st);
        destruct (current_byte st); [by destruct (_ && _)|done]).
  destruct (check_scientific_notation st); [done|]. cbn [fmap option_fmap option_map].
  owned_fields. rewrite Hc. cbn [expect mbind result_bind]. rewrite owned_has_token.
  rewrite flush_owned by done. destruct (flushed st Hi (is_token_ender c && has_token st)) as (Hi1 & Hf1 & Ho1).
  apply dispatch_owned; [done|by rewrite Hf1, Ho1|by rewrite Hf1].
Qed.

Lemma loop_owned fuel st : inv le st → no_variant_hash (formula st) →
  Tokenizer.parse_loop fuel (owned st) = agree (parse_loop fuel false st).
Proof.
  revert st. induction fuel as [|fuel IH]; intros st Hi Hv; cbn [Tokenizer.parse_loop parse_loop]; owned_fields.
  - by case_decide.
  - case_decide as Hlt; [|done]. rewrite step_owned by done.
    pose proof (step_good st Hi Hlt (gap_le _)) as G.
    destruct (step st) as [st1 [u|e|]]; simpl in G; [|done..].
    destruct G as (Hi1 & (Hf1 & _) & _). apply IH; [done|by rewrite Hf1].
Qed.

Lemma finish_owned st : inv le st → Tokenizer.finish (owned st) = agree (finish false st).
Proof.
  intros Hi. unfold Tokenizer.finish, finish. rewrite owned_has_token, owned_save_idle by done.
  replace (if has_token st then save_token st else st) with (save_token st)
    by (unfold save_token; by destruct (has_token st)).
  owned_fields. by destruct (token_stack (save_token st)).
Qed.

Lemma parse_owned f d : no_variant_hash f →
  Tokenizer.parse (Tokenizer.make f [] d) =
  agree (parse_with_recovery false (SpanTokenizer.new f d)).
Proof.
  intros Hv. destruct (starts_with "=" f) eqn:Hs.
  - destruct f as [|c f]; [done|]. rewrite loop_start_run by done.
    unfold Tokenizer.parse. cbn [Tokenizer.formula Tokenizer.make]. cbn [starts_with] in Hs. rewrite Hs.
    cbn [negb].
    change (Tokenizer.start_token _) with (owned (loop_start (c :: f) d)).
    rewrite loop_owned by (done || by apply loop_start_inv).
    pose proof (loop_strict (loop_fuel (c :: f)) _ (loop_start_inv (R := le) c f d) (gap_le _)) as H.
    simpl formula in H. simpl offset in H. specialize (H ltac:(unfold loop_fuel; lia)).
    destruct (parse_loop _ _ _) as [st [u|e|]]; [|done..]. cbn [agree mbind result_bind].
    destruct H as (Hi & _). by apply finish_owned.
  - rewrite literal_run by done. unfold Tokenizer.parse. cbn [Tokenizer.formula Tokenizer.make].
    destruct f as [|c f]; [done|]. cbn [starts_with] in Hs. rewrite Hs. cbn [negb agree]. f_equal.
    apply (owned_push (SpanTokenizer.new (c :: f) d)).
    rewrite to_token_slice by (done || simpl; lia). unfold Token.from_slice, slice.
    by rewrite drop_0, Nat.sub_0_r, firstn_all.
Qed.

(** C4: the owning tokenizer is the span tokenizer followed by the conversion to
    tokens: same tokens, same errors.  The hypothesis excludes a [true] or [false]
    not in upper case right before a [#], where the two differ ([hash_after_true]). *)
Theorem owned_is_span f d : no_variant_hash f →
  Tokenizer.items <$> Tokenizer.new_with_dialect f d =
  TokenStream.to_tokens <$> TokenStream.new_with_dialect f d.
Proof.
  intros Hv. unfold Tokenizer.new_with_dialect, TokenStream.new_with_dialect,
    tokenize_spans_with_dialect, parse. rewrite parse_owned by done.
  pose proof (parse_strict (R := le) f d (gap_le f)) as H.
  destruct (parse_with_recovery _ _) as [st [[]|e|]]; [|done..]. cbn.
  destruct H as (_ & _ & ->). done.
Qed.

Lemma owned_is_span_witness :
  no_variant_hash (str "=A1#+TRUE") ∧
  Tokenizer.items <$> Tokenizer.new_with_dialect (str "=A1#+TRUE") Excel =
  TokenStream.to_tokens <$> TokenStream.new_with_dialect (str "=A1#+TRUE") Excel.
Proof.
  assert (H : no_variant_hash (str "=A1#+TRUE")).
  { intros i j Hj. destruct j as [|[|[|[|j]]]]; try discriminate Hj.
    - do 4 (destruct i; [reflexivity|]). reflexivity.
    - do 5 (destruct j; [discriminate Hj|]). discriminate Hj. }
  split; [exact H|]. apply (owned_is_span (str "=A1#+TRUE") Excel H).
Defined.
