(* ===== verification/IntervalTree.v ===== *)
(** The interval index ([crates/formualizer-eval/src/engine/interval_tree.rs]).

    A [BTreeMap] is a [gmap] whose entries are iterated in key order, a
    [HashSet] a [gset]; the order in which a hash set is iterated is
    unspecified in the source, and here the order of [elements]. *)
From S2P Require Import Prelude.

(** * [BTreeMap<u32, V>] *)

Definition key_le {V} (a b : Z * V) : Prop := (a.1 ≤ b.1)%Z.
#[export] Instance key_le_dec {V} : RelDecision (@key_le V).
Proof. unfold key_le. solve_decision. Defined.
#[export] Instance key_le_total {V} : Total (@key_le V).
Proof. intros [] []. unfold key_le. simpl. lia. Qed.
#[export] Instance key_le_trans {V} : Transitive (@key_le V).
Proof. intros [] [] []. unfold key_le. simpl. lia. Qed.

(** The entries of a map in key order, and those with a key in a range. *)
Definition entries {V} (m : gmap Z V) : list (Z * V) := merge_sort key_le (map_to_list m).
Definition range {V} (m : gmap Z V) (lo hi : Z) : list (Z * V) :=
  filter (λ kv, (lo ≤ kv.1 ≤ hi)%Z) (entries m).
Definition range_to {V} (m : gmap Z V) (hi : Z) : list (Z * V) :=
  filter (λ kv, (kv.1 ≤ hi)%Z) (entries m).

(** * The tree *)

Section interval_tree.
Context {T : Type} `{Countable T}.

Record IntervalNode : Type := { high : Z; values : gset T }.
Record IntervalTree : Type := { map : gmap Z (list IntervalNode); tree_size : nat }.

Definition new : IntervalTree := {| map := ∅; tree_size := 0 |}.
Definition len (t : IntervalTree) : nat := tree_size t.
Definition is_empty (t : IntervalTree) : bool := (tree_size t =? 0)%nat.

(** [nodes.iter().find(|n| n.high == high)], with its position. *)
Fixpoint find_node (hi : Z) (nodes : list IntervalNode) : option (nat * IntervalNode) :=
  match nodes with
  | [] => None
  | n :: nodes =>
      if (high n =? hi)%Z then Some (0, n)
      else '(i, n) ← find_node hi nodes; Some (S i, n)
  end.

(** [map.entry(low).or_default()]: a missing entry is an empty vector. *)
Definition entry_or_default (t : IntervalTree) (low : Z) : list IntervalNode :=
  default [] (map t !! low).

Definition get_mut (t : IntervalTree) (low hi : Z) : option (gset T) :=
  nodes ← map t !! low;
  '(_, n) ← find_node hi nodes;
  Some (values n).

(** Writing to the vector of an entry. *)
Definition set_entry (t : IntervalTree) (low : Z) (nodes : list IntervalNode) (size : nat)
  : IntervalTree :=
  {| map := <[low := nodes]> (map t); tree_size := size |}.

Definition insert (t : IntervalTree) (low hi : Z) (value : T) : IntervalTree :=
  let nodes := entry_or_default t low in
  match find_node hi nodes with
  | Some (i, n) =>
      set_entry t low (<[i := {| high := high n; values := {[value]} ∪ values n |}]> nodes) (tree_size t)
  | None =>
      set_entry t low (nodes ++ [{| high := hi; values := {[value]} |}]) (tree_size t + 1)
  end.

Definition query (t : IntervalTree) (q_low q_high : Z) : list (Z * Z * gset T) :=
  '(low, nodes) ← range_to (map t) q_high;
  n ← nodes;
  if (q_low <=? high n)%Z then [(low, high n, values n)] else [].

Definition point_values (t : IntervalTree) (point : Z) : option (gset T) :=
  nodes ← map t !! point;
  '(_, n) ← find_node point nodes;
  Some (values n).

(** The events a visitor is shown, and a visit that stops at the first break. *)
Definition visit_events (t : IntervalTree) (q_low q_high : Z) : list (option T) :=
  '(_, nodes) ← range_to (map t) q_high;
  n ← nodes;
  None :: (if (high n <? q_low)%Z then [] else Some <$> elements (values n)).

Fixpoint visit {S} (visitor : S → option T → S * bool) (s : S) (events : list (option T)) : S * bool :=
  match events with
  | [] => (s, true)
  | e :: events =>
      let '(s, continue) := visitor s e in
      if continue then visit visitor s events else (s, false)
  end.

Definition visit_query {S} (t : IntervalTree) (q_low q_high : Z)
  (visitor : S → option T → S * bool) (s : S) : S * bool :=
  visit visitor s (visit_events t q_low q_high).

Definition visit_point_intervals {S} (t : IntervalTree) (q_low q_high : Z)
  (visitor : S → option T → S * bool) (s : S) : S * bool :=
  if (q_high <? q_low)%Z then (s, true)
  else
    visit visitor s
      ('(low, nodes) ← range (map t) q_low q_high;
       n ← nodes;
       if negb (high n =? low)%Z then [] else None :: (Some <$> elements (values n))).

Definition point_interval_stats (t : IntervalTree) (q_low q_high : Z) : nat * nat :=
  if (q_high <? q_low)%Z then (0, 0)
  else
    fold_left (λ '(node_count, value_count) '(low, n),
      if (high n =? low)%Z then (node_count + 1, value_count + size (values n))
      else (node_count, value_count))
      ('(low, nodes) ← range (map t) q_low q_high; n ← nodes; [(low, n)]) (0, 0).

Definition remove (t : IntervalTree) (low hi : Z) (value : T) : IntervalTree * bool :=
  match map t !! low with
  | Some nodes =>
      match find_node hi nodes with
      | Some (i, n) =>
          let removed := bool_decide (value ∈ values n) in
          let vs := values n ∖ {[value]} in
          if removed && bool_decide (vs = ∅) then
            let nodes := List.filter (λ m, negb (high m =? hi)%Z) nodes in
            let t' := {| map := if bool_decide (nodes = []) then delete low (map t)
                                else <[low := nodes]> (map t);
                         tree_size := tree_size t - 1 |} in
            (t', removed)
          else
            (set_entry t low (<[i := {| high := high n; values := vs |}]> nodes) (tree_size t), removed)
      | None => (t, false)
      end
  | None => (t, false)
  end.

(** The nodes of an entry that keep a value. *)
Definition retain_nodes (keep : T → bool) (nodes : list IntervalNode) : list IntervalNode :=
  List.filter (λ n, negb (bool_decide (values n = ∅)))
    ((λ n, {| high := high n; values := filter (λ v, keep v = true) (values n) |}) <$> nodes).

Definition all_nodes (m : gmap Z (list IntervalNode)) : list IntervalNode :=
  '(_, nodes) ← entries m; nodes.

Definition retain_values (keep : T → bool) (t : IntervalTree) : IntervalTree :=
  let m := omap (λ nodes, let nodes := retain_nodes keep nodes in
                          if bool_decide (nodes = []) then None else Some nodes) (map t) in
  {| map := m; tree_size := length (all_nodes m) |}.

(** [entry(low, high).or_insert_with(f)]: the tree, and the set it returns. *)
Definition or_insert_with (t : IntervalTree) (low hi : Z) (f : unit → gset T)
  : result Empty_set (IntervalTree * gset T) :=
  let t :=
    match get_mut t low hi with
    | None =>
        set_entry t low (entry_or_default t low ++ [{| high := hi; values := f tt |}]) (tree_size t + 1)
    | Some _ => t
    end in
  set ← expect (get_mut t low hi);
  Ok (t, set).

(** Writing the set that [get_mut] or [or_insert_with] returned. *)
Definition write_mut (t : IntervalTree) (low hi : Z) (vs : gset T) : IntervalTree :=
  match map t !! low with
  | Some nodes =>
      match find_node hi nodes with
      | Some (i, n) => set_entry t low (<[i := {| high := high n; values := vs |}]> nodes) (tree_size t)
      | None => t
      end
  | None => t
  end.

(** [entry(low, high).or_insert_with(HashSet::new).insert(value)], the way the sheet index adds a vertex. *)
Definition entry_insert (t : IntervalTree) (low hi : Z) (value : T) : result Empty_set IntervalTree :=
  '(t, vs) ← or_insert_with t low hi (λ _, ∅);
  Ok (write_mut t low hi ({[value]} ∪ vs)).

Definition bulk_step (t : IntervalTree) (item : Z * gset T) : IntervalTree :=
  let '(coord, set) := item in
  let nodes := entry_or_default t coord in
  match find_node coord nodes with
  | Some (i, n) =>
      set_entry t coord (<[i := {| high := high n; values := values n ∪ set |}]> nodes) (tree_size t)
  | None =>
      set_entry t coord (nodes ++ [{| high := coord; values := set |}]) (tree_size t + 1)
  end.

Definition bulk_build_points (t : IntervalTree) (items : list (Z * gset T)) : IntervalTree :=
  if negb (is_empty t) then
    fold_left (λ t '(coord, set), fold_left (λ t v, insert t coord coord v) (elements set) t) items t
  else
    fold_left bulk_step (merge_sort key_le items) t.

(** * Entries in key order *)

Section entries.
Context {V : Type}.

Lemma entries_perm (m : gmap Z V) : entries m ≡ₚ map_to_list m.
Proof. apply merge_sort_Permutation. Qed.

Lemma elem_of_entries (m : gmap Z V) k v : (k, v) ∈ entries m ↔ m !! k = Some v.
Proof. by rewrite entries_perm, elem_of_map_to_list. Qed.

Lemma entries_sorted (m : gmap Z V) : StronglySorted key_le (entries m).
Proof. apply Sorted_StronglySorted; [apply _|]. apply (Sorted_merge_sort _). Qed.

Lemma entries_nodup (m : gmap Z V) : NoDup (entries m).*1.
Proof. rewrite entries_perm. apply NoDup_fst_map_to_list. Qed.
End entries.

Lemma all_nodes_perm m : all_nodes m ≡ₚ concat (map_to_list m).*2.
Proof.
  unfold all_nodes. rewrite entries_perm. induction (map_to_list m) as [|[k v] l IH]; [done|].
  cbn. by rewrite IH.
Qed.

Lemma all_nodes_delete m k :
  length (all_nodes m) = length (default [] (m !! k)) + length (all_nodes (delete k m)).
Proof.
  destruct (m !! k) as [v|] eqn:Hk; simpl; [|by rewrite delete_id].
  rewrite <- (insert_delete_id m k v) at 1 by done.
  rewrite !all_nodes_perm, map_to_list_insert by apply lookup_delete_eq.
  cbn. by rewrite length_app.
Qed.

Lemma all_nodes_insert m k v :
  length (all_nodes (<[k := v]> m)) + length (default [] (m !! k)) = length (all_nodes m) + length v.
Proof.
  rewrite (all_nodes_delete m k), (all_nodes_delete (<[k := v]> m) k), lookup_insert_eq. simpl.
  rewrite delete_insert_eq. lia.
Qed.

(** * Nodes of one entry *)

(** The values of the interval that ends at [hi]. *)
Definition vals (nodes : list IntervalNode) (hi : Z) : option (gset T) :=
  '(_, n) ← find_node hi nodes; Some (values n).

Lemma find_node_spec hi nodes i n : find_node hi nodes = Some (i, n) →
  nodes !! i = Some n ∧ high n = hi.
Proof.
  revert i. induction nodes as [|m nodes IH]; simpl; intros i; [done|].
  destruct (Z.eqb_spec (high m) hi); [by intros [= <- <-]|].
  destruct (find_node hi nodes) as [[j n']|]; [|done]. intros [= <- <-]. by apply IH.
Qed.

Lemma vals_find hi nodes : vals nodes hi = match find_node hi nodes with
  | Some (_, n) => Some (values n) | None => None end.
Proof. unfold vals. by destruct (find_node hi nodes) as [[]|]. Qed.

Lemma vals_cons n nodes hi : vals (n :: nodes) hi =
  if (high n =? hi)%Z then Some (values n) else vals nodes hi.
Proof.
  rewrite !vals_find. simpl. destruct (high n =? hi)%Z; [done|]. by destruct (find_node hi nodes) as [[]|].
Qed.

Lemma vals_none nodes hi : vals nodes hi = None ↔ hi ∉ high <$> nodes.
Proof.
  induction nodes as [|n nodes IH]; [set_solver|]. rewrite vals_cons. csimpl.
  destruct (Z.eqb_spec (high n) hi); set_solver.
Qed.

Lemma vals_elem nodes hi s : NoDup (high <$> nodes) →
  (vals nodes hi = Some s ↔ ∃ n, n ∈ nodes ∧ high n = hi ∧ values n = s).
Proof.
  induction nodes as [|n nodes IH]; csimpl; [set_solver|]. intros [Hn Hnd]%NoDup_cons.
  rewrite vals_cons. destruct (Z.eqb_spec (high n) hi) as [<-|Hne].
  - split; [intros [= <-]; exists n; set_solver|].
    intros (n' & [->|Hin]%elem_of_cons & Hh & <-); [done|]. destruct Hn. rewrite <- Hh. set_solver.
  - rewrite IH by done. set_solver.
Qed.

Lemma vals_app nodes n hi : vals (nodes ++ [n]) hi =
  match vals nodes hi with
  | Some s => Some s
  | None => if (high n =? hi)%Z then Some (values n) else None
  end.
Proof.
  induction nodes as [|m nodes IH]; csimpl; [by rewrite vals_cons|].
  rewrite !vals_cons, IH. by destruct (high m =? hi)%Z.
Qed.

Lemma vals_update nodes hi i n n' hi' : find_node hi nodes = Some (i, n) → high n' = hi →
  vals (<[i := n']> nodes) hi' = if (hi =? hi')%Z then Some (values n') else vals nodes hi'.
Proof.
  revert i. induction nodes as [|m nodes IH]; simpl; intros i; [done|].
  destruct (Z.eqb_spec (high m) hi) as [E|E].
  - intros [= <- <-] Hh. simpl. rewrite !vals_cons, Hh, E. by destruct (hi =? hi')%Z.
  - destruct (find_node hi nodes) as [[j n0]|] eqn:Hf; [|done]. intros [= <- <-] Hh. simpl.
    rewrite !vals_cons, (IH j) by done.
    destruct (Z.eqb_spec (high m) hi'), (Z.eqb_spec hi hi'); congruence.
Qed.

Lemma vals_filter nodes hi hi' :
  vals (List.filter (λ m, negb (high m =? hi)%Z) nodes) hi' =
  if (hi =? hi')%Z then None else vals nodes hi'.
Proof.
  induction nodes as [|m nodes IH]; [simpl; by case_match|]. simpl.
  destruct (Z.eqb_spec (high m) hi) as [E|E]; simpl; rewrite ?vals_cons, IH, ?vals_cons;
    destruct (Z.eqb_spec hi hi'), (Z.eqb_spec (high m) hi'); congruence.
Qed.

Lemma highs_update nodes hi i n n' : find_node hi nodes = Some (i, n) → high n' = hi →
  high <$> <[i := n']> nodes = high <$> nodes.
Proof.
  intros [Hi Hh]%find_node_spec Hh'. rewrite list_fmap_insert. apply list_insert_id.
  by rewrite list_lookup_fmap, Hi, Hh'; simpl; rewrite Hh.
Qed.

(** * The invariant *)

(** Every vector is non-empty, with one node for each upper bound, no node is
    empty, and the size is the number of nodes. *)
Record wf (t : IntervalTree) : Prop := {
  wf_nodes low nodes : map t !! low = Some nodes → nodes ≠ [];
  wf_highs low nodes : map t !! low = Some nodes → NoDup (high <$> nodes);
  wf_values low hi s : get_mut t low hi = Some s → s ≠ ∅;
  wf_size : tree_size t = length (all_nodes (map t))
}.

Lemma get_mut_vals t low hi : get_mut t low hi = vals (entry_or_default t low) hi.
Proof. unfold get_mut, entry_or_default. by destruct (map t !! low). Qed.

Lemma get_mut_set_entry t low nodes n l h :
  get_mut (set_entry t low nodes n) l h = if (low =? l)%Z then vals nodes h else get_mut t l h.
Proof.
  rewrite !get_mut_vals. unfold entry_or_default, set_entry. simpl.
  destruct (Z.eqb_spec low l) as [->|?]; [by rewrite lookup_insert_eq|by rewrite lookup_insert_ne].
Qed.

Lemma entry_highs t low : wf t → NoDup (high <$> entry_or_default t low).
Proof.
  intros Ht. unfold entry_or_default. destruct (map t !! low) eqn:E; [|constructor].
  by apply (wf_highs _ Ht _ _ E).
Qed.

(** Writing an entry that keeps the invariant. *)
Lemma set_entry_wf t low nodes n : wf t → nodes ≠ [] → NoDup (high <$> nodes) →
  (∀ hi s, vals nodes hi = Some s → s ≠ ∅) →
  n + length (entry_or_default t low) = tree_size t + length nodes →
  wf (set_entry t low nodes n).
Proof.
  intros Ht Hne Hnd Hvs Hn. split.
  - intros l ns. simpl. destruct (decide (low = l)) as [->|].
    + rewrite lookup_insert_eq. by intros [= <-].
    + rewrite lookup_insert_ne by done. by apply wf_nodes.
  - intros l ns. simpl. destruct (decide (low = l)) as [->|].
    + rewrite lookup_insert_eq. by intros [= <-].
    + rewrite lookup_insert_ne by done. by apply wf_highs.
  - intros l h s. rewrite get_mut_set_entry. destruct (_ =? _)%Z; [apply Hvs|by apply wf_values].
  - simpl. pose proof (all_nodes_insert (map t) low nodes) as E. rewrite <- (wf_size _ Ht) in E.
    unfold entry_or_default in Hn. lia.
Qed.

Lemma new_wf : wf new.
Proof. split; done. Qed.

(** ** [insert] *)

Lemma entry_vals_nonempty t low hi s : wf t → vals (entry_or_default t low) hi = Some s → s ≠ ∅.
Proof. intros Ht. rewrite <- get_mut_vals. by apply wf_values. Qed.

Lemma insert_get t low hi v l h :
  get_mut (insert t low hi v) l h =
  if decide ((l, h) = (low, hi)) then Some ({[v]} ∪ default ∅ (get_mut t low hi)) else get_mut t l h.
Proof.
  unfold insert. destruct (find_node hi (entry_or_default t low)) as [[i n]|] eqn:Hf;
    rewrite get_mut_set_entry; destruct (Z.eqb_spec low l) as [->|Hl]; [| |
    |by rewrite decide_False by congruence].
  - pose proof (find_node_spec _ _ _ _ Hf) as [_ Hh].
    rewrite (vals_update _ _ _ _ _ _ Hf) by done. simpl. destruct (Z.eqb_spec hi h) as [->|].
    + rewrite decide_True by done. by rewrite get_mut_vals, vals_find, Hf.
    + by rewrite decide_False, <- get_mut_vals by congruence.
  - by rewrite decide_False by congruence.
  - rewrite vals_app. simpl. pose proof (vals_find hi (entry_or_default t l)) as Hn. rewrite Hf in Hn.
    rewrite !get_mut_vals. destruct (Z.eqb_spec hi h) as [->|].
    + rewrite decide_True by done. rewrite Hn. simpl. by rewrite union_empty_r_L.
    + rewrite decide_False by congruence. by destruct (vals _ h).
Qed.

Lemma insert_wf t low hi v : wf t → wf (insert t low hi v) ∧
  len (insert t low hi v) = len t + (match get_mut t low hi with Some _ => 0 | None => 1 end).
Proof.
  intros Ht. pose proof (entry_highs t low Ht) as Hnd. rewrite get_mut_vals, vals_find. unfold insert, len.
  destruct (find_node hi (entry_or_default t low)) as [[i n]|] eqn:Hf; (split; [|simpl; lia]).
  - pose proof (find_node_spec _ _ _ _ Hf) as [Hi Hh]. apply set_entry_wf; [done|..].
    + apply lookup_lt_Some in Hi. intros E%(f_equal length). rewrite length_insert in E. simpl in E. lia.
    + by rewrite (highs_update _ _ _ _ _ Hf).
    + intros h s. rewrite (vals_update _ _ _ _ _ _ Hf) by done. simpl.
      destruct (_ =? _)%Z; [|by apply entry_vals_nonempty]. intros [= <-]. set_solver.
    + rewrite length_insert. lia.
  - pose proof (vals_find hi (entry_or_default t low)) as Hn. rewrite Hf in Hn. apply vals_none in Hn.
    apply set_entry_wf; [done|..].
    + by destruct (entry_or_default t low).
    + rewrite fmap_app. csimpl. apply NoDup_app. split_and!; [done|set_solver|apply NoDup_singleton].
    + intros h s. rewrite vals_app. destruct (vals _ h) eqn:E.
      * intros [= <-]. by eapply entry_vals_nonempty.
      * simpl. destruct (_ =? _)%Z; [|done]. intros [= <-]. set_solver.
    + rewrite length_app. simpl. lia.
Qed.

(** ** The entry API *)

Lemma push_node_get t low hi vs n l h : find_node hi (entry_or_default t low) = None →
  get_mut (set_entry t low (entry_or_default t low ++ [{| high := hi; values := vs |}]) n) l h =
  if decide ((l, h) = (low, hi)) then Some vs else get_mut t l h.
Proof.
  intros Hf. pose proof (vals_find hi (entry_or_default t low)) as Hn. rewrite Hf in Hn.
  rewrite get_mut_set_entry, vals_app, get_mut_vals. simpl. destruct (Z.eqb_spec low l) as [->|?];
    [|by rewrite decide_False by congruence]. destruct (Z.eqb_spec hi h) as [->|?].
  - by rewrite decide_True, Hn.
  - rewrite decide_False by congruence. by destruct (vals _ h).
Qed.

Lemma push_node_wf t low hi vs : wf t → find_node hi (entry_or_default t low) = None → vs ≠ ∅ →
  wf (set_entry t low (entry_or_default t low ++ [{| high := hi; values := vs |}]) (tree_size t + 1)).
Proof.
  intros Ht Hf Hvs. pose proof (vals_find hi (entry_or_default t low)) as Hn. rewrite Hf in Hn. apply vals_none in Hn.
  apply set_entry_wf; [done|..].
  - by destruct (entry_or_default t low).
  - rewrite fmap_app. csimpl. apply NoDup_app. split_and!; [by apply entry_highs|set_solver|apply NoDup_singleton].
  - intros h s. rewrite vals_app. destruct (vals _ h) eqn:E.
    + intros [= <-]. by eapply entry_vals_nonempty.
    + simpl. destruct (_ =? _)%Z; [|done]. by intros [= <-].
  - rewrite length_app. simpl. lia.
Qed.

(** Adding to the set of an entry is inserting. *)
Lemma entry_insert_is t low hi v : entry_insert t low hi v = Ok (insert t low hi v).
Proof.
  unfold entry_insert, or_insert_with, insert. rewrite get_mut_vals, vals_find.
  destruct (find_node hi (entry_or_default t low)) as [[i n]|] eqn:Hf.
  - rewrite get_mut_vals, vals_find, Hf. cbn [expect mbind result_bind]. unfold write_mut.
    unfold entry_or_default in *. destruct (map t !! low); [|done]. simpl in *. by rewrite Hf.
  - rewrite push_node_get by done. rewrite decide_True by done. cbn [expect mbind result_bind].
    unfold write_mut, set_entry. cbn [map tree_size]. rewrite lookup_insert_eq.
    assert (Hl : ∀ nodes, find_node hi nodes = None →
      find_node hi (nodes ++ [{| high := hi; values := ∅ |}]) = Some (length nodes, {| high := hi; values := ∅ |})).
    { clear. induction nodes as [|n nodes IH]; simpl; [by rewrite Z.eqb_refl|].
      destruct (high n =? hi)%Z; [done|]. destruct (find_node hi nodes) as [[]|]; [done|]. intros _. by rewrite IH. }
    rewrite Hl by done. cbn [high]. rewrite insert_insert_eq, union_empty_r_L, insert_app_r_alt, Nat.sub_diag by done. done.
Qed.

(** ** [remove] *)

Lemma filter_length hi nodes i n : NoDup (high <$> nodes) → find_node hi nodes = Some (i, n) →
  length (List.filter (λ m, negb (high m =? hi)%Z) nodes) + 1 = length nodes.
Proof.
  revert i. induction nodes as [|m nodes IH]; simpl; intros i; [done|].
  csimpl. intros [Hn Hnd]%NoDup_cons. destruct (Z.eqb_spec (high m) hi) as [E|E]; simpl.
  - intros _. rewrite forallb_filter_id; [lia|]. apply forallb_forall. intros x Hx.
    apply list_elem_of_In in Hx. apply negb_true_iff, Z.eqb_neq. intros E'. destruct Hn.
    rewrite E, <- E'. set_solver.
  - destruct (find_node hi nodes) as [[j n']|] eqn:Hf; [|done]. intros [= <- <-].
    by rewrite <- (IH j Hnd eq_refl).
Qed.

Lemma filter_highs hi nodes : NoDup (high <$> nodes) →
  NoDup (high <$> List.filter (λ m, negb (high m =? hi)%Z) nodes).
Proof.
  induction nodes as [|m nodes IH]; [done|]. csimpl. intros [Hn Hnd]%NoDup_cons.
  destruct (high m =? hi)%Z; csimpl; [by apply IH|]. apply NoDup_cons. split; [|by apply IH].
  intros (x & Hx & Hin)%list_elem_of_fmap. destruct Hn. apply list_elem_of_In, List.filter_In in Hin as [Hin _].
  apply list_elem_of_In in Hin. rewrite Hx. set_solver.
Qed.

(** Deleting an entry: as writing an empty vector, without keeping it. *)
Lemma delete_entry_wf t low n : wf t → n + length (entry_or_default t low) = tree_size t →
  let t' := {| map := delete low (map t); tree_size := n |} in
  wf t' ∧ ∀ l h, get_mut t' l h = if (low =? l)%Z then None else get_mut t l h.
Proof.
  intros Ht Hn. cbv zeta.
  assert (Hget : ∀ l h, get_mut {| map := delete low (map t); tree_size := n |} l h =
                 if (low =? l)%Z then None else get_mut t l h).
  { intros l h. unfold get_mut. simpl.
    destruct (Z.eqb_spec low l) as [->|?]; [by rewrite lookup_delete_eq|by rewrite lookup_delete_ne]. }
  split; [|done]. split.
  - intros l ns. simpl. intros [_ ?]%lookup_delete_Some. by eapply wf_nodes.
  - intros l ns. simpl. intros [_ ?]%lookup_delete_Some. by eapply wf_highs.
  - intros l h s. rewrite Hget. destruct (_ =? _)%Z; [done|by apply wf_values].
  - simpl. pose proof (all_nodes_delete (map t) low) as E. rewrite <- (wf_size _ Ht) in E.
    unfold entry_or_default in Hn. lia.
Qed.

(** What [remove] leaves of an interval. *)
Definition removed_values (s : gset T) (v : T) : option (gset T) :=
  let s := s ∖ {[v]} in if decide (s = ∅) then None else Some s.

(** Dropping the node of an interval, and its entry when it was the last node. *)
Lemma drop_node_spec t low hi i n : wf t → find_node hi (entry_or_default t low) = Some (i, n) →
  let nodes := List.filter (λ m, negb (high m =? hi)%Z) (entry_or_default t low) in
  let t' := {| map := if bool_decide (nodes = []) then delete low (map t) else <[low := nodes]> (map t);
               tree_size := tree_size t - 1 |} in
  wf t' ∧ ∀ l h, get_mut t' l h = if decide ((l, h) = (low, hi)) then None else get_mut t l h.
Proof.
  intros Ht Hf. pose proof (entry_highs t low Ht) as Hnd.
  pose proof (filter_length _ _ _ _ Hnd Hf) as Hlen.
  pose proof (all_nodes_delete (map t) low) as Hsz. rewrite <- (wf_size _ Ht) in Hsz.
  change (default [] (map t !! low)) with (entry_or_default t low) in Hsz.
  pose proof (vals_filter (entry_or_default t low) hi) as Hv. cbv zeta.
  set (nodes := List.filter _ _) in *. case_bool_decide as E.
  - destruct (delete_entry_wf t low (tree_size t - 1) Ht) as [Hwf Hget]; [rewrite E in Hlen; simpl in *; lia|].
    split; [done|]. intros l h. rewrite Hget. destruct (Z.eqb_spec low l) as [->|?];
      [|by rewrite decide_False by congruence]. case_decide as Ed; [done|].
    specialize (Hv h). rewrite E in Hv. rewrite get_mut_vals. destruct (Z.eqb_spec hi h); [congruence|done].
  - fold (set_entry t low nodes (tree_size t - 1)). split.
    + apply set_entry_wf; [done|done|by apply filter_highs| |lia].
      intros h s. rewrite Hv. destruct (_ =? _)%Z; [done|by apply entry_vals_nonempty].
    + intros l h. rewrite get_mut_set_entry, Hv, get_mut_vals.
      destruct (Z.eqb_spec low l) as [->|?]; [|by rewrite decide_False by congruence].
      destruct (Z.eqb_spec hi h) as [->|?]; [by rewrite decide_True|by rewrite decide_False by congruence].
Qed.

(** Writing other non-empty values to the node of an interval. *)
Lemma write_node_spec t low hi i n vs : wf t → find_node hi (entry_or_default t low) = Some (i, n) →
  vs ≠ ∅ →
  let t' := set_entry t low (<[i := {| high := high n; values := vs |}]> (entry_or_default t low)) (tree_size t) in
  wf t' ∧ ∀ l h, get_mut t' l h = if decide ((l, h) = (low, hi)) then Some vs else get_mut t l h.
Proof.
  intros Ht Hf Hvs. pose proof (find_node_spec _ _ _ _ Hf) as [Hi Hh]. cbv zeta.
  pose proof (entry_highs t low Ht) as Hnd. split.
  - apply set_entry_wf; [done| |by rewrite (highs_update _ _ _ _ _ Hf)| |by rewrite length_insert].
    + apply lookup_lt_Some in Hi. intros E%(f_equal length). rewrite length_insert in E. simpl in E. lia.
    + intros h s. rewrite (vals_update _ _ _ _ _ _ Hf) by done. simpl.
      destruct (_ =? _)%Z; [by intros [= <-]|by apply entry_vals_nonempty].
  - intros l h. rewrite get_mut_set_entry, (vals_update _ _ _ _ _ _ Hf), get_mut_vals by done. simpl.
    destruct (Z.eqb_spec low l) as [->|?]; [|by rewrite decide_False by congruence].
    destruct (Z.eqb_spec hi h) as [->|?]; [by rewrite decide_True|by rewrite decide_False by congruence].
Qed.

Lemma remove_spec t low hi v : wf t →
  wf (remove t low hi v).1 ∧
  (remove t low hi v).2 = bool_decide (v ∈ default ∅ (get_mut t low hi)) ∧
  ∀ l h, get_mut (remove t low hi v).1 l h =
    if decide ((l, h) = (low, hi)) then removed_values (default ∅ (get_mut t low hi)) v else get_mut t l h.
Proof.
  intros Ht.
  assert (Hnone : get_mut t low hi = None → ∀ l h, get_mut t l h =
    if decide ((l, h) = (low, hi)) then removed_values (default ∅ (get_mut t low hi)) v else get_mut t l h).
  { intros E l h. case_decide; [|done]. simplify_eq. rewrite E. unfold removed_values. simpl.
    rewrite decide_True by set_solver. done. }
  unfold remove. pose proof (get_mut_vals t low hi) as Hg. rewrite vals_find in Hg.
  unfold entry_or_default in Hg at 1. destruct (map t !! low) as [nodes|] eqn:Hm; simpl in Hg;
    [|rewrite Hg in *; split_and!; [done|by rewrite bool_decide_eq_false_2|by apply Hnone]].
  assert (He : nodes = entry_or_default t low) by (unfold entry_or_default; by rewrite Hm). subst nodes.
  destruct (find_node hi (entry_or_default t low)) as [[i n]|] eqn:Hf;
    [|rewrite Hg in *; split_and!; [done|by rewrite bool_decide_eq_false_2|by apply Hnone]].
  rewrite Hg. simpl. unfold removed_values.
  destruct (bool_decide (v ∈ values n) && bool_decide (values n ∖ {[v]} = ∅)) eqn:E; simpl.
  - apply andb_true_iff in E as [_ E%bool_decide_eq_true]. rewrite decide_True by done.
    destruct (drop_node_spec t low hi i n Ht Hf) as [??]. by split_and!.
  - assert (Hne : values n ∖ {[v]} ≠ ∅).
    { apply andb_false_iff in E as [Hv%bool_decide_eq_false|E%bool_decide_eq_false]; [|done].
      rewrite difference_disjoint_L by set_solver. by eapply wf_values. }
    rewrite decide_False by done. destruct (write_node_spec t low hi i n _ Ht Hf Hne) as [??]. by split_and!.
Qed.

(** ** [query] *)

Lemma elem_of_range_to {V} (m : gmap Z V) hi k v :
  (k, v) ∈ range_to m hi ↔ m !! k = Some v ∧ (k ≤ hi)%Z.
Proof. unfold range_to. rewrite list_elem_of_filter, elem_of_entries. simpl. tauto. Qed.

Lemma get_mut_elem t l h s : wf t → get_mut t l h = Some s ↔
  ∃ nodes n, map t !! l = Some nodes ∧ n ∈ nodes ∧ high n = h ∧ values n = s.
Proof.
  intros Ht. unfold get_mut. destruct (map t !! l) as [nodes|] eqn:Hm; simpl.
  - etrans; [apply (vals_elem _ _ _ (wf_highs _ Ht _ _ Hm))|naive_solver].
  - naive_solver.
Qed.

Lemma elem_of_query t q_low q_high l h s : wf t →
  (l, h, s) ∈ query t q_low q_high ↔
  get_mut t l h = Some s ∧ (l ≤ q_high)%Z ∧ (q_low ≤ h)%Z.
Proof.
  intros Ht. rewrite get_mut_elem by done. unfold query. rewrite list_elem_of_bind. split.
  - intros ([l' nodes] & Hin & [Hm Hl]%elem_of_range_to). rewrite list_elem_of_bind in Hin.
    destruct Hin as (n & Hin & Hn). destruct (Z.leb_spec q_low (high n)); [|by apply elem_of_nil in Hin].
    apply list_elem_of_singleton in Hin. simplify_eq. naive_solver.
  - intros ((nodes & n & Hm & Hn & <- & <-) & Hl & Hh). exists (l, nodes).
    rewrite elem_of_range_to. split; [|done]. apply list_elem_of_bind. exists n. split; [|done].
    rewrite (proj2 (Z.leb_le _ _)) by done. by apply list_elem_of_singleton.
Qed.

Lemma constant_sorted (l : Z) xs : Forall (.= l) xs → StronglySorted Z.le xs.
Proof.
  induction 1 as [|x xs -> Hxs IH]; [constructor|]. constructor; [done|].
  eapply Forall_impl; [exact Hxs|]. intros ? ->. lia.
Qed.

(** Blocks in the order of their keys. *)
Lemma sorted_blocks {V W} (f : Z * V → list W) (key : W → Z) (m : list (Z * V)) :
  (∀ kv x, x ∈ f kv → key x = kv.1) → StronglySorted key_le m →
  StronglySorted Z.le (key <$> (m ≫= f)).
Proof.
  intros Hf. induction 1 as [|kv m Hs IH Hall]; [constructor|]. csimpl. rewrite fmap_app.
  apply StronglySorted_app_2; [|apply (constant_sorted kv.1)|done].
  - intros k1 k2 (x1 & -> & H1)%list_elem_of_fmap (x2 & -> & H2)%list_elem_of_fmap.
    apply list_elem_of_bind in H2 as (kv2 & H2 & Hin).
    rewrite (Hf _ _ H1), (Hf _ _ H2). rewrite Forall_forall in Hall. by apply Hall.
  - apply Forall_forall. intros k (x & -> & Hx)%list_elem_of_fmap. by apply Hf.
Qed.

(** The intervals of a query come in the order of their lower bounds. *)
Lemma query_sorted t q_low q_high :
  StronglySorted Z.le ((λ r : Z * Z * gset T, r.1.1) <$> query t q_low q_high).
Proof.
  unfold query. apply sorted_blocks; [|apply sorted_filter, entries_sorted].
  intros [l nodes] x (n & Hx & _)%list_elem_of_bind.
  destruct (_ <=? _)%Z; [by apply list_elem_of_singleton in Hx as ->|by apply elem_of_nil in Hx].
Qed.

(** No interval comes twice. *)
Lemma query_nodup t q_low q_high : wf t → NoDup (query t q_low q_high).
Proof.
  intros Ht. unfold query. apply NoDup_bind.
  - intros [l1 n1] [l2 n2] y [H1 _]%elem_of_range_to [H2 _]%elem_of_range_to
      (m1 & Hy1 & _)%list_elem_of_bind (m2 & Hy2 & _)%list_elem_of_bind.
    assert (l1 = l2) as ->; [|congruence].
    destruct (_ <=? _)%Z in Hy1; [|by apply elem_of_nil in Hy1].
    destruct (_ <=? _)%Z in Hy2; [|by apply elem_of_nil in Hy2].
    apply list_elem_of_singleton in Hy1, Hy2. congruence.
  - intros [l ns] [Hm _]%elem_of_range_to. pose proof (wf_highs _ Ht _ _ Hm) as Hnd. apply NoDup_bind.
    + intros x1 x2 y Hx1 Hx2 Hy1 Hy2. apply (NoDup_key_inj high ns); try done.
      destruct (_ <=? _)%Z in Hy1; [|by apply elem_of_nil in Hy1].
      destruct (_ <=? _)%Z in Hy2; [|by apply elem_of_nil in Hy2].
      apply list_elem_of_singleton in Hy1, Hy2. congruence.
    + intros x _. destruct (_ <=? _)%Z; [apply NoDup_singleton|constructor].
    + by eapply NoDup_fmap_1.
  - apply NoDup_filter. eapply NoDup_fmap_1, entries_nodup.
Qed.

(** ** [retain_values] *)

(** The values of an interval that satisfy a predicate, if there are any. *)
Definition kept_values (keep : T → bool) (o : option (gset T)) : option (gset T) :=
  s ← o;
  let s := filter (λ v, keep v = true) s in
  if decide (s = ∅) then None else Some s.

Lemma vals_retain keep nodes hi : NoDup (high <$> nodes) →
  vals (retain_nodes keep nodes) hi = kept_values keep (vals nodes hi).
Proof.
  unfold retain_nodes. induction nodes as [|n nodes IH]; csimpl; [done|].
  intros [Hn Hnd]%NoDup_cons. specialize (IH Hnd). rewrite (vals_cons n).
  case_bool_decide as E; simpl.
  - rewrite IH. destruct (Z.eqb_spec (high n) hi) as [<-|]; [|done].
    rewrite (proj2 (vals_none nodes (high n))) by done. simpl. by rewrite decide_True.
  - rewrite vals_cons, IH. simpl. destruct (high n =? hi)%Z; [|done]. simpl. by rewrite decide_False.
Qed.

Lemma retain_highs keep nodes : NoDup (high <$> nodes) → NoDup (high <$> retain_nodes keep nodes).
Proof.
  unfold retain_nodes. induction nodes as [|n nodes IH]; csimpl; [done|].
  intros [Hn Hnd]%NoDup_cons. specialize (IH Hnd). case_bool_decide as E; simpl; [done|].
  csimpl. apply NoDup_cons. split; [|done].
  intros (x & Hx & Hin)%list_elem_of_fmap. apply Hn. apply list_elem_of_In, List.filter_In in Hin as [Hin _].
  apply list_elem_of_In, list_elem_of_fmap in Hin as (y & -> & Hy). simpl in Hx.
  rewrite Hx. by apply list_elem_of_fmap_2.
Qed.

Lemma retain_get t keep l h : wf t →
  get_mut (retain_values keep t) l h = kept_values keep (get_mut t l h).
Proof.
  intros Ht. unfold get_mut. cbn [map retain_values]. rewrite lookup_omap.
  destruct (map t !! l) as [nodes|] eqn:Hm; simpl; [|done].
  pose proof (vals_retain keep nodes h (wf_highs _ Ht _ _ Hm)) as E.
  fold (vals nodes h). rewrite <- E. case_bool_decide as En; [by rewrite En|done].
Qed.

Lemma retain_wf t keep : wf t → wf (retain_values keep t).
Proof.
  intros Ht. assert (Hm : ∀ l ns, map (retain_values keep t) !! l = Some ns → ∃ nodes,
    map t !! l = Some nodes ∧ ns = retain_nodes keep nodes ∧ ns ≠ []).
  { intros l ns. simpl. rewrite lookup_omap. intros (nodes & Hl & E)%bind_Some.
    case_bool_decide; [done|]. simplify_eq. eauto. }
  split.
  - intros l ns (?&?&?&?)%Hm. done.
  - intros l ns (nodes & Hl & -> & _)%Hm. eapply retain_highs, wf_highs; eauto.
  - intros l h s. rewrite retain_get by done. unfold kept_values.
    intros (s' & _ & E)%bind_Some. case_decide; [done|]. by simplify_eq.
  - done.
Qed.

(** * What the tree stores *)

(** The values stored at an interval. *)
Definition stored (t : IntervalTree) (low hi : Z) : gset T := default ∅ (get_mut t low hi).

Lemma stored_insert t low hi v l h x :
  x ∈ stored (insert t low hi v) l h ↔ x ∈ stored t l h ∨ (l, h, x) = (low, hi, v).
Proof.
  unfold stored. rewrite insert_get. case_decide as E; [simplify_eq; set_solver|]. set_solver.
Qed.

Lemma stored_get_mut t l h : wf t → get_mut t l h =
  if decide (stored t l h = ∅) then None else Some (stored t l h).
Proof.
  intros Ht. unfold stored. destruct (get_mut t l h) as [s|] eqn:E; simpl; [|by rewrite decide_True].
  rewrite decide_False; [done|by eapply wf_values].
Qed.

(** The set of an entry: what is stored, or what the function gives, which is then stored. *)
Lemma interval_entry t low hi f : wf t → ∃ t' s, or_insert_with t low hi f = Ok (t', s) ∧
  s = (if decide (stored t low hi = ∅) then f tt else stored t low hi) ∧
  (∀ l h, stored t' l h = if decide ((l, h) = (low, hi)) then s else stored t l h) ∧
  len t' = len t + (if decide (stored t low hi = ∅) then 1 else 0) ∧ (wf t' ↔ s ≠ ∅).
Proof.
  intros Ht. unfold or_insert_with. rewrite stored_get_mut by done. case_decide as E.
  - assert (Hf : find_node hi (entry_or_default t low) = None).
    { pose proof (stored_get_mut t low hi Ht) as Hg. rewrite decide_True, get_mut_vals, vals_find in Hg by done.
      by destruct (find_node _ _) as [[]|]. }
    rewrite push_node_get, decide_True by done. cbn [expect mbind result_bind]. eexists _, _. split; [reflexivity|].
    split_and!; [done| |done|].
    + intros l h. unfold stored. rewrite push_node_get by done. by case_decide.
    + split; [|by apply push_node_wf]. intros Hw. apply (wf_values _ Hw low hi). rewrite push_node_get by done. by rewrite decide_True.
  - rewrite stored_get_mut, decide_False by done. cbn [expect mbind result_bind]. eexists _, _. split; [reflexivity|].
    split_and!; [done| |lia|done]. intros l h. case_decide; [by simplify_eq|done].
Qed.

(** What a visitor of a query is shown, and the set at a point. *)
Lemma interval_visit t q_low q_high x : wf t →
  Some x ∈ visit_events t q_low q_high ↔ ∃ l h, x ∈ stored t l h ∧ (l ≤ q_high)%Z ∧ (q_low ≤ h)%Z.
Proof.
  intros Ht. unfold visit_events. rewrite list_elem_of_bind. split.
  - intros ([l nodes] & (n & Hin & Hn)%list_elem_of_bind & [Hm Hl]%elem_of_range_to).
    apply elem_of_cons in Hin as [?|Hin]; [done|]. destruct (Z.ltb_spec (high n) q_low); [by apply elem_of_nil in Hin|].
    apply list_elem_of_fmap in Hin as (y & [= <-] & Hx%elem_of_elements). exists l, (high n). split; [|lia].
    unfold stored. rewrite (proj2 (get_mut_elem t l (high n) (values n) Ht)); [done|]. by exists nodes, n.
  - intros (l & h & Hx & Hl & Hh). unfold stored in Hx. destruct (get_mut t l h) as [s|] eqn:E; [|set_solver]. simpl in Hx.
    apply get_mut_elem in E as (nodes & n & Hm & Hn & <- & <-); [|done]. exists (l, nodes).
    rewrite elem_of_range_to. split; [|done]. apply list_elem_of_bind. exists n. split; [|done]. right.
    rewrite (proj2 (Z.ltb_ge _ _)) by done. apply list_elem_of_fmap. exists x. split; [done|by apply elem_of_elements].
Qed.

Lemma interval_point t point : wf t →
  point_values t point = if decide (stored t point point = ∅) then None else Some (stored t point point).
Proof. intros Ht. rewrite <- stored_get_mut by done. done. Qed.

(** ** [bulk_build_points] *)

Lemma bulk_step_spec t c set : wf t → set ≠ ∅ →
  wf (bulk_step t (c, set)) ∧
  ∀ l h x, x ∈ stored (bulk_step t (c, set)) l h ↔
    x ∈ stored t l h ∨ ((l, h) = (c, c) ∧ x ∈ set).
Proof.
  intros Ht Hset. pose proof (entry_highs t c Ht) as Hnd. unfold bulk_step.
  destruct (find_node c (entry_or_default t c)) as [[i n]|] eqn:Hf.
  - destruct (write_node_spec t c c i n (values n ∪ set) Ht Hf) as [Hwf Hget]; [set_solver|].
    split; [done|]. intros l h x. unfold stored. rewrite Hget. case_decide as E; [|set_solver].
    simplify_eq. rewrite get_mut_vals, vals_find, Hf. set_solver.
  - pose proof (vals_find c (entry_or_default t c)) as Hn. rewrite Hf in Hn. split.
    + apply vals_none in Hn. apply set_entry_wf; [done|..].
      * by destruct (entry_or_default t c).
      * rewrite fmap_app. csimpl. apply NoDup_app. split_and!; [done|set_solver|apply NoDup_singleton].
      * intros h s. rewrite vals_app. destruct (vals _ h) eqn:E.
        -- intros [= <-]. by eapply entry_vals_nonempty.
        -- simpl. destruct (_ =? _)%Z; [|done]. by intros [= <-].
      * rewrite length_app. simpl. lia.
    + intros l h x. unfold stored. rewrite get_mut_set_entry, !get_mut_vals, vals_app. simpl.
      destruct (Z.eqb_spec c l) as [->|]; [|set_solver].
      destruct (vals (entry_or_default t l) h) eqn:E.
      * destruct (decide (l = h)) as [->|]; [congruence|set_solver].
      * destruct (Z.eqb_spec l h) as [->|]; set_solver.
Qed.

Lemma bulk_fold items t : wf t → Forall (λ i, i.2 ≠ ∅) items →
  wf (fold_left bulk_step items t) ∧
  ∀ l h x, x ∈ stored (fold_left bulk_step items t) l h ↔
    x ∈ stored t l h ∨ (l = h ∧ ∃ set, (l, set) ∈ items ∧ x ∈ set).
Proof.
  revert t. induction items as [|[c set] items IH]; simpl; intros t Ht Hall; [set_solver|].
  apply Forall_cons in Hall as [Hne Hall]. destruct (bulk_step_spec t c set Ht Hne) as [Hw Hs].
  destruct (IH _ Hw Hall) as [Hw' Hs']. split; [done|]. intros l h x. rewrite Hs', Hs.
  set_solver.
Qed.

Lemma insert_fold vs t c : wf t →
  wf (fold_left (λ t v, insert t c c v) vs t) ∧
  ∀ l h x, x ∈ stored (fold_left (λ t v, insert t c c v) vs t) l h ↔
    x ∈ stored t l h ∨ ((l, h) = (c, c) ∧ x ∈ vs).
Proof.
  revert t. induction vs as [|v vs IH]; simpl; intros t Ht; [set_solver|].
  destruct (IH (insert t c c v)) as [Hw Hs]; [by apply insert_wf|]. split; [done|].
  intros l h x. rewrite Hs, stored_insert. set_solver.
Qed.

Lemma incremental_fold (items : list (Z * gset T)) t : wf t →
  let t' := fold_left (λ t '(coord, set), fold_left (λ t v, insert t coord coord v) (elements set) t) items t in
  wf t' ∧ ∀ l h x, x ∈ stored t' l h ↔
    x ∈ stored t l h ∨ (l = h ∧ ∃ set, (l, set) ∈ items ∧ x ∈ set).
Proof.
  revert t. induction items as [|[c set] items IH]; simpl; intros t Ht; [set_solver|].
  destruct (insert_fold (elements set) t c Ht) as [Hw Hs].
  destruct (IH _ Hw) as [Hw' Hs']. split; [done|]. intros l h x. rewrite Hs', Hs, elem_of_elements.
  set_solver.
Qed.

(** [insert] keeps the invariant of the interval index, adds the value to its
    interval and changes nothing else, and counts the interval when it is new. *)
Lemma interval_insert t low hi v : wf t →
  wf (insert t low hi v) ∧
  (∀ l h x, x ∈ stored (insert t low hi v) l h ↔ x ∈ stored t l h ∨ (l, h, x) = (low, hi, v)) ∧
  len (insert t low hi v) = len t + (if decide (stored t low hi = ∅) then 1 else 0).
Proof.
  intros Ht. destruct (insert_wf t low hi v Ht) as [Hw Hl].
  split_and!; [done|apply stored_insert|]. rewrite Hl, stored_get_mut by done. by case_decide.
Qed.

(** [remove] keeps the invariant, takes the value out of its interval and
    nothing else, and reports whether it was there. *)
Lemma interval_remove t low hi v : wf t →
  wf (remove t low hi v).1 ∧
  ((remove t low hi v).2 = true ↔ v ∈ stored t low hi) ∧
  ∀ l h x, x ∈ stored (remove t low hi v).1 l h ↔ x ∈ stored t l h ∧ (l, h, x) ≠ (low, hi, v).
Proof.
  intros Ht. destruct (remove_spec t low hi v Ht) as (Hw & Hb & Hg). split_and!; [done| |].
  - by rewrite Hb, bool_decide_eq_true.
  - intros l h x. unfold stored. rewrite Hg. destruct (decide ((l, h) = (low, hi))) as [E|E];
      [|split; [intros ?; split; [done|congruence]|by intros [? _]]]. simplify_eq.
    unfold removed_values. destruct (decide (_ ∖ _ = ∅)) as [Ee|Ee].
    + simpl. rewrite elem_of_empty. split; [done|]. intros [? Hne].
      assert (x ≠ v) by congruence. set_solver.
    + simpl. rewrite elem_of_difference, elem_of_singleton. naive_solver.
Qed.

(** A query returns, once each and in the order of their lower bounds, exactly the
    stored intervals that meet the queried range, with all their values. *)
Lemma interval_query t q_low q_high : wf t →
  NoDup (query t q_low q_high) ∧
  StronglySorted Z.le ((λ r : Z * Z * gset T, r.1.1) <$> query t q_low q_high) ∧
  ∀ l h s, (l, h, s) ∈ query t q_low q_high ↔
    s = stored t l h ∧ s ≠ ∅ ∧ (l ≤ q_high)%Z ∧ (q_low ≤ h)%Z.
Proof.
  intros Ht. split_and!; [by apply query_nodup|apply query_sorted|].
  intros l h s. rewrite elem_of_query, stored_get_mut by done.
  case_decide; naive_solver.
Qed.

(** Bulk building, incremental or not, stores what inserting the points one by
    one would: the items' values at their points, next to what was there. *)
Lemma interval_bulk_build t items : wf t → Forall (λ i, i.2 ≠ ∅) items ∨ is_empty t = false →
  wf (bulk_build_points t items) ∧
  ∀ l h x, x ∈ stored (bulk_build_points t items) l h ↔
    x ∈ stored t l h ∨ (l = h ∧ ∃ set, (l, set) ∈ items ∧ x ∈ set).
Proof.
  intros Ht Hall. unfold bulk_build_points. destruct (is_empty t); simpl; [|by apply incremental_fold].
  destruct Hall as [Hall|?]; [|done].
  pose proof (merge_sort_Permutation key_le items) as Hp.
  destruct (bulk_fold (merge_sort key_le items) t Ht) as [Hw Hs]; [by rewrite Hp|].
  split; [done|]. intros l h x. rewrite Hs. by setoid_rewrite Hp.
Qed.

(** [retain_values] keeps the values that satisfy the predicate and drops the
    intervals left empty. *)
Lemma interval_retain keep t : wf t →
  wf (retain_values keep t) ∧
  ∀ l h x, x ∈ stored (retain_values keep t) l h ↔ x ∈ stored t l h ∧ keep x = true.
Proof.
  intros Ht. split; [by apply retain_wf|]. intros l h x. unfold stored. rewrite retain_get by done.
  unfold kept_values. destruct (get_mut t l h) as [s|]; simpl; [|set_solver].
  case_decide; set_solver.
Qed.

(** C39: the interval index implements a relation between intervals and values, whose invariant says
    that no interval is kept without a value. On a tree with the invariant: [insert], [remove],
    [retain_values] and [bulk_build_points] (on an empty tree with sets that are not empty, on
    another with any) keep the invariant; [insert] and [remove] add and take out one pair, and
    [remove] reports whether it was there; [retain_values] keeps the values that satisfy the
    predicate; bulk building adds the values of its points; [query] returns, once each and in the
    order of their lower bounds, exactly the intervals with a value that meet the queried range,
    with all their values, the visits of [visit_query] (which a visitor can cut short) show those
    values, and [point_values] gives the set of a point; [len] counts the intervals.
    [or_insert_with] does not panic, returns the set of the interval, or the one of its function,
    which it stores, and keeps the invariant exactly when that set is not empty; adding a value to
    the set it returns for a new empty set, which its callers do, is [insert]. *)
Theorem interval_tree_refines t low hi v q_low q_high keep : wf t →
  (wf (insert t low hi v) ∧
    (∀ l h x, x ∈ stored (insert t low hi v) l h ↔ x ∈ stored t l h ∨ (l, h, x) = (low, hi, v)) ∧
    len (insert t low hi v) = len t + (if decide (stored t low hi = ∅) then 1 else 0)) ∧
  (wf (remove t low hi v).1 ∧ ((remove t low hi v).2 = true ↔ v ∈ stored t low hi) ∧
    ∀ l h x, x ∈ stored (remove t low hi v).1 l h ↔ x ∈ stored t l h ∧ (l, h, x) ≠ (low, hi, v)) ∧
  (wf (retain_values keep t) ∧
    ∀ l h x, x ∈ stored (retain_values keep t) l h ↔ x ∈ stored t l h ∧ keep x = true) ∧
  (NoDup (query t q_low q_high) ∧
    StronglySorted Z.le ((λ r : Z * Z * gset T, r.1.1) <$> query t q_low q_high) ∧
    ∀ l h s, (l, h, s) ∈ query t q_low q_high ↔
      s = stored t l h ∧ s ≠ ∅ ∧ (l ≤ q_high)%Z ∧ (q_low ≤ h)%Z) ∧
  ((∀ x, Some x ∈ visit_events t q_low q_high ↔ ∃ l h, x ∈ stored t l h ∧ (l ≤ q_high)%Z ∧ (q_low ≤ h)%Z) ∧
    point_values t low = if decide (stored t low low = ∅) then None else Some (stored t low low)) ∧
  (∀ items, Forall (λ i, i.2 ≠ ∅) items ∨ is_empty t = false → wf (bulk_build_points t items) ∧
    ∀ l h x, x ∈ stored (bulk_build_points t items) l h ↔
      x ∈ stored t l h ∨ (l = h ∧ ∃ set, (l, set) ∈ items ∧ x ∈ set)) ∧
  (∀ f, ∃ t' s, or_insert_with t low hi f = Ok (t', s) ∧
    s = (if decide (stored t low hi = ∅) then f tt else stored t low hi) ∧
    (∀ l h, stored t' l h = if decide ((l, h) = (low, hi)) then s else stored t l h) ∧
    len t' = len t + (if decide (stored t low hi = ∅) then 1 else 0) ∧ (wf t' ↔ s ≠ ∅)) ∧
  entry_insert t low hi v = Ok (insert t low hi v).
Proof.
  intros Ht. split; [by apply interval_insert|]. split; [by apply interval_remove|].
  split; [by apply interval_retain|]. split; [by apply interval_query|].
  split; [split; [intros x; by apply interval_visit|by apply interval_point]|].
  split; [intros items; by apply interval_bulk_build|]. split; [intros f; by apply interval_entry|apply entry_insert_is].
Qed.

End interval_tree.

(** * The hypotheses hold of trees the operations build *)

Definition sample : @IntervalTree nat _ _ := insert (insert new 2 5 7) 3 3 8.

Lemma sample_wf : wf sample.
Proof. apply insert_wf, insert_wf, new_wf. Qed.

(** An entry whose set stays empty is an interval without a value, which the tree counts and returns. *)
Example empty_entry :
  ('(t, s) ← or_insert_with (T := nat) new 5 5 (λ _, ∅); Ok (len t, query t 5 5)) = Ok (1, [(5%Z, 5%Z, ∅)]).
Proof. vm_compute. reflexivity. Qed.

Lemma interval_bulk_build_witness :
  wf (bulk_build_points sample [(4%Z, {[1; 2]}); (3%Z, {[8]})]).
Proof.
  apply (interval_bulk_build sample); [exact sample_wf|]. apply or_introl.
  repeat constructor; simpl; by intros E%(f_equal size).
Defined.

Lemma interval_tree_refines_witness :
  wf (insert sample 3 3 9) ∧ (2%Z, 5%Z, ({[7]} : gset nat)) ∈ query sample 4 10.
Proof.
  destruct (interval_tree_refines sample 3 3 9 4 10 Nat.even sample_wf) as ((Hi & _) & _ & _ & (_ & _ & Hq) & _).
  split; [exact Hi|]. apply Hq.
  split; [vm_compute; reflexivity|]. split; [by intros E%(f_equal size)|lia].
Defined.
