(* ===== verification/Kahn.v ===== *)
(** Kahn's algorithm as the engine uses it: in-degrees within a set of nodes,
    batches of nodes of in-degree zero, and the decrements their successors get
    ([topo/pk.rs], [scheduler.rs]). *)
From S2P Require Import Prelude.

(** * The graph and its nodes *)

(** [GraphView]: the engine's storage, which the orderer only reads. *)
Class GraphView (N : Type) := {
  successors : N → list N;
  predecessors : N → list N;
  node_exists : N → bool
}.

(** How often a node occurs in a list. *)
Definition mult {A} `{EqDecision A} (l : list A) (x : A) : nat := length (filter (.= x) l).

(** What the storage promises: both views show the same edges. *)
Class GraphLaws (N : Type) `{EqDecision N} (G : GraphView N) : Prop :=
  edges_agree (x y : N) : mult (successors x) y = mult (predecessors y) x.

(** [N: Ord]. *)
Class NodeOrd (N : Type) := {
  node_le : relation N;
  #[global] node_le_dec :: RelDecision node_le;
  #[global] node_le_total :: Total node_le;
  #[global] node_le_order :: PartialOrder node_le
}.
#[export] Instance Z_node_ord : NodeOrd Z.
Proof. refine {| node_le := Z.le |}. Defined.

Section kahn.
Context {N : Type} `{Countable N} {G : GraphView N}.

(** [indeg]: every node of the set, with how many of its predecessors are in it. *)
Definition zero_degrees (nodes : list N) : gmap N nat :=
  list_to_map ((λ n, (n, 0)) <$> nodes).

Definition count_pred (set : gset N) (n : N) (indeg : gmap N nat) (p : N) : gmap N nat :=
  if decide (p ∈ set) then alter S n indeg else indeg.
Definition count_preds (set : gset N) (indeg : gmap N nat) (n : N) : gmap N nat :=
  fold_left (count_pred set n) (predecessors n) indeg.
Definition in_degrees (nodes : list N) : gmap N nat :=
  fold_left (count_preds (list_to_set nodes)) nodes (zero_degrees nodes).

(** The nodes of in-degree zero, in the order of the map (unspecified in the
    source, which sorts them). *)
Definition zero_nodes (indeg : gmap N nat) : list N :=
  (filter (λ kv, kv.2 = 0) (map_to_list indeg)).*1.

(** [*d -= 1; if *d == 0 { zero.push(s) }]: an overflow on 0 panics. *)
Definition decrement (st : gmap N nat * list N) (s : N) : result Empty_set (gmap N nat * list N) :=
  let '(indeg, zero) := st in
  match indeg !! s with
  | Some 0 => Panic
  | Some (S d) => Ok (<[s := d]> indeg, if (d =? 0)%nat then zero ++ [s] else zero)
  | None => Ok (indeg, zero)
  end.

Fixpoint decrement_all (l : list N) (st : gmap N nat * list N)
  : result Empty_set (gmap N nat * list N) :=
  match l with
  | [] => Ok st
  | s :: l => st ← decrement st s; decrement_all l st
  end.

(** * Counting *)

Lemma mult_nil (x : N) : mult [] x = 0.
Proof. done. Qed.
Lemma mult_cons (y : N) l x : mult (y :: l) x = (if decide (y = x) then 1 else 0) + mult l x.
Proof. unfold mult. rewrite filter_cons. by case_decide. Qed.
Lemma mult_app (l1 l2 : list N) x : mult (l1 ++ l2) x = mult l1 x + mult l2 x.
Proof. unfold mult. by rewrite filter_app, length_app. Qed.
Lemma mult_elem (l : list N) x : 0 < mult l x ↔ x ∈ l.
Proof.
  induction l as [|y l IH]; [rewrite mult_nil, elem_of_nil; lia|].
  rewrite mult_cons, elem_of_cons, <- IH. case_decide; subst; [split; [by left|lia]|].
  split; [intros; right; lia|intros [?|?]; [congruence|lia]].
Qed.

(** The predecessors of [s] that are in [S] and not yet out. *)
Definition pending (nodes out : list N) (s : N) : list N :=
  filter (λ p, p ∈ nodes ∧ p ∉ out) (predecessors s).

Lemma decrement_all_spec l indeg zero :
  (∀ s d, indeg !! s = Some d → mult l s ≤ d) →
  ∃ indeg' zero', decrement_all l (indeg, zero) = Ok (indeg', zero') ∧
    (∀ s, indeg' !! s = (λ d, d - mult l s) <$> indeg !! s) ∧
    (∀ s, s ∈ zero' ↔ s ∈ zero ∨ (indeg !! s = Some (mult l s) ∧ 0 < mult l s)) ∧
    (NoDup zero → (∀ s, s ∈ zero → indeg !! s = Some 0) → NoDup zero').
Proof.
  revert indeg zero. induction l as [|x l IH]; intros indeg zero Hle; cbn [decrement_all].
  - exists indeg, zero. split_and!; [done| | |done].
    + intros s. rewrite mult_nil. destruct (indeg !! s) as [d|]; simpl; [|done]. f_equal. lia.
    + intros s. rewrite mult_nil. split; [by left|intros [?|[_ ?]]; [done|lia]].
  - cbn [decrement]. destruct (indeg !! x) as [[|d]|] eqn:Hx; cbn [mbind result_bind].
    + specialize (Hle x 0 Hx). rewrite mult_cons, decide_True in Hle by done. lia.
    + destruct (IH (<[x := d]> indeg) (if (d =? 0)%nat then zero ++ [x] else zero))
        as (indeg' & zero' & -> & Hi & Hz & Hn).
      { intros s e. destruct (decide (x = s)) as [->|].
        - rewrite lookup_insert_eq. intros [= <-]. specialize (Hle s _ Hx).
          rewrite mult_cons, decide_True in Hle by done. lia.
        - rewrite lookup_insert_ne by done. intros Hs%Hle. rewrite mult_cons, decide_False in Hs by done. lia. }
      exists indeg', zero'. split_and!; [done|..].
      * intros s. rewrite Hi, mult_cons. destruct (decide (x = s)) as [->|].
        -- by rewrite lookup_insert_eq, Hx.
        -- by rewrite lookup_insert_ne.
      * intros s. rewrite Hz, mult_cons. specialize (Hle x _ Hx). rewrite mult_cons, decide_True in Hle by done.
        destruct (decide (x = s)) as [->|].
        -- rewrite lookup_insert_eq, Hx. destruct (Nat.eqb_spec d 0); [subst|].
           ++ rewrite elem_of_app, list_elem_of_singleton. 
              split; [intros [[?|?]|?]; [by left|right|right]|]; 
                [split; [f_equal; lia|lia]..|intros [?|?]; auto].
           ++ split; intros [?|[E ?]]; [by left|right|by left|right]; (split; [injection E as E; f_equal; lia|]); [lia|].
              injection E as E. lia.
        -- rewrite lookup_insert_ne by done. destruct (Nat.eqb_spec d 0); [|done].
           rewrite elem_of_app, list_elem_of_singleton. naive_solver.
      * intros Hnd Hzero. apply Hn.
        -- destruct (Nat.eqb_spec d 0); [|done]. apply NoDup_app. split_and!; [done| |apply NoDup_singleton].
           intros s Hs ->%list_elem_of_singleton. specialize (Hzero _ Hs). congruence.
        -- intros s Hs. destruct (decide (x = s)) as [->|].
           ++ rewrite lookup_insert_eq. destruct (Nat.eqb_spec d 0); [by subst|]. specialize (Hzero _ Hs). congruence.
           ++ rewrite lookup_insert_ne by done. destruct (Nat.eqb_spec d 0); [|by apply Hzero].
              apply elem_of_app in Hs as [Hs| ->%list_elem_of_singleton]; [by apply Hzero|done].
    + destruct (IH indeg zero) as (indeg' & zero' & -> & Hi & Hz & Hn).
      { intros s e Hs. specialize (Hle s e Hs). rewrite mult_cons in Hle. lia. }
      exists indeg', zero'. split_and!; [done| |by intros s; rewrite Hz, mult_cons; case_decide; subst; naive_solver|done].
      intros s. rewrite Hi, mult_cons. case_decide; [subst; by rewrite Hx|done].
Qed.

(** * The invariant *)

Record kahn_inv (nodes out : list N) (indeg : gmap N nat) (zero : list N) : Prop := {
  ki_nodup : NoDup out;
  ki_nodes n : n ∈ out → n ∈ nodes;
  ki_degree s : indeg !! s = if decide (s ∈ nodes) then Some (length (pending nodes out s)) else None;
  ki_zero s : s ∈ zero ↔ (s ∈ nodes ∧ s ∉ out ∧ pending nodes out s = []);
  ki_zero_nodup : NoDup zero;
  ki_topo i n p : out !! i = Some n → p ∈ predecessors n → p ∈ nodes → p ∈ take i out
}.

Lemma pending_nil nodes out s : pending nodes out s = [] ↔
  ∀ p, p ∈ predecessors s → p ∈ nodes → p ∈ out.
Proof.
  unfold pending. split.
  - intros E p Hp Hn. destruct (decide (p ∈ out)) as [|Ho]; [done|].
    assert (Hin : p ∈ filter (λ p, p ∈ nodes ∧ p ∉ out) (predecessors s)) by by apply list_elem_of_filter.
    rewrite E in Hin. by apply elem_of_nil in Hin.
  - intros Hall. destruct (filter _ _) as [|p l] eqn:E; [done|].
    assert (Hin : p ∈ filter (λ p, p ∈ nodes ∧ p ∉ out) (predecessors s)) by (rewrite E; left).
    apply list_elem_of_filter in Hin as [[??] ?]. naive_solver.
Qed.

Lemma pending_snoc nodes out b s : b ∈ nodes → b ∉ out →
  length (pending nodes (out ++ [b]) s) + mult (predecessors s) b = length (pending nodes out s).
Proof.
  intros Hb Ho. unfold pending. induction (predecessors s) as [|p l IH]; [done|].
  rewrite !filter_cons, mult_cons. destruct (decide (p = b)) as [->|Hne].
  - rewrite decide_False, decide_True; [simpl; lia|done|set_solver].
  - rewrite (decide_ext _ (p ∈ nodes ∧ p ∉ out)) by set_solver.
    destruct (decide (p ∈ nodes ∧ p ∉ out)); simpl; lia.
Qed.

Lemma pending_batch `{!GraphLaws N G} nodes batch s : ∀ out, NoDup batch → (∀ b, b ∈ batch → b ∈ nodes ∧ b ∉ out) →
  length (pending nodes (out ++ batch) s) + mult (concat (successors <$> batch)) s
  = length (pending nodes out s).
Proof.
  induction batch as [|b batch IH]; intros out Hnd Hin; csimpl.
  - rewrite app_nil_r, mult_nil. lia.
  - apply NoDup_cons in Hnd as [Hb Hnd]. rewrite mult_app, (edges_agree b s), cons_middle, app_assoc.
    destruct (Hin b) as [??]; [by left|].
    rewrite <- (pending_snoc nodes out b s) by done.
    rewrite <- (IH (out ++ [b])); [lia|done|]. intros b' Hb'. destruct (Hin b') as [??]; [by right|]. set_solver.
Qed.

(** One batch: nodes of in-degree zero go out, their successors' degrees drop. *)
Lemma kahn_batch `{!GraphLaws N G} nodes out indeg zero batch rest :
  kahn_inv nodes out indeg zero → zero ≡ₚ batch ++ rest →
  ∃ indeg' zero',
    decrement_all (concat (successors <$> batch)) (indeg, rest) = Ok (indeg', zero') ∧
    kahn_inv nodes (out ++ batch) indeg' zero'.
Proof.
  intros [Hnd Hin Hdeg Hzero Hznd Htopo] Hp.
  rewrite Hp in Hznd. apply NoDup_app in Hznd as (Hbnd & Hdisj & Hrnd).
  assert (Hz : ∀ s, s ∈ batch ++ rest ↔ s ∈ nodes ∧ s ∉ out ∧ pending nodes out s = [])
    by (intros s; by rewrite <- Hp).
  assert (Hb : ∀ b, b ∈ batch → b ∈ nodes ∧ b ∉ out).
  { intros b Hb. destruct (proj1 (Hz b)) as (?&?&?); [set_solver|done]. }
  assert (Hcnt := λ s, pending_batch nodes batch s out Hbnd Hb).
  destruct (decrement_all_spec (concat (successors <$> batch)) indeg rest)
    as (indeg' & zero' & Hrun & Hi' & Hz' & Hn').
  { intros s d. rewrite Hdeg. case_decide; [|done]. intros [= <-]. specialize (Hcnt s). lia. }
  exists indeg', zero'. split; [done|]. split.
  - apply NoDup_app. split_and!; [done| |done]. intros b Ho Hbb. by apply Hb in Hbb as [??].
  - intros n [?|?]%elem_of_app; [by apply Hin|by apply Hb].
  - intros s. rewrite Hi', Hdeg. case_decide; [|done]. simpl. f_equal. specialize (Hcnt s). lia.
  - intros s. rewrite Hz', Hdeg. specialize (Hcnt s). rewrite not_elem_of_app. split.
    + intros [Hr|[E Hm]].
      * destruct (proj1 (Hz s)) as (?&?&Hpe); [set_solver|]. split_and!; [done|done|set_solver|].
        rewrite Hpe in Hcnt. destruct (pending _ (out ++ batch) s); [done|]. simpl in Hcnt. lia.
      * case_decide as Hs; [|done]. injection E as E. split_and!; [done|..].
        -- intros [i Hi]%list_elem_of_lookup. assert (pending nodes out s = []) as Hpe.
           { apply pending_nil. intros p Hps Hpn. pose proof (Htopo _ _ _ Hi Hps Hpn) as Ht.
             eapply elem_of_submseteq, submseteq_take. exact Ht. }
           rewrite Hpe in E. simpl in E. lia.
        -- intros Hbs. destruct (proj1 (Hz s)) as (_&_&Hpe); [set_solver|]. rewrite Hpe in E. simpl in E. lia.
        -- destruct (pending _ (out ++ batch) s); [done|]. simpl in Hcnt. lia.
    + intros (Hs & [Ho Hbs] & Hpe). rewrite Hpe in Hcnt. simpl in Hcnt. rewrite decide_True by done.
      destruct (decide (mult (concat (successors <$> batch)) s = 0)) as [E|E].
      * left. assert (s ∈ batch ++ rest) as Hbr; [|set_solver].
        apply Hz. split_and!; [done|done|]. destruct (pending nodes out s); [done|]. simpl in *; lia.
      * right. split; [f_equal; lia|lia].
  - apply Hn'; [done|]. intros s Hs. destruct (proj1 (Hz s)) as (?&?&Hpe); [set_solver|].
    by rewrite Hdeg, decide_True, Hpe.
  - intros i n p Hl Hpn Hp'. apply lookup_app_Some in Hl as [Hl|[Hlen Hl]].
    + rewrite take_app_le by (apply lookup_lt_Some in Hl; lia). by eapply Htopo.
    + rewrite take_app_ge by done. apply elem_of_app. left.
      apply list_elem_of_lookup_2 in Hl. destruct (proj1 (Hz n)) as (_&_&Hpe); [set_solver|].
      by eapply pending_nil.
Qed.

(** When no node is left and the graph is acyclic, every node is out. *)
Definition acyclic_on (nodes : list N) : Prop :=
  ∃ rank : N → nat, ∀ n p, n ∈ nodes → p ∈ nodes → p ∈ predecessors n → rank p < rank n.

Lemma kahn_done nodes out indeg : kahn_inv nodes out indeg [] → acyclic_on nodes →
  ∀ n, n ∈ nodes → n ∈ out.
Proof.
  intros Hk [rank Hr] n. remember (rank n) as r eqn:Er. revert n Er.
  induction r as [r IH] using lt_wf_ind. intros n -> Hn.
  destruct (decide (n ∈ out)) as [|Ho]; [done|]. exfalso.
  apply (elem_of_nil n), (ki_zero _ _ _ _ Hk). split_and!; [done|done|]. apply pending_nil.
  intros p Hp Hpn. eapply IH; [by eapply Hr|done|done].
Qed.

(** Topological: the predecessors of a node stand before it. *)
Definition topological (nodes out : list N) : Prop :=
  ∀ i n p, out !! i = Some n → p ∈ predecessors n → p ∈ nodes → p ∈ take i out.

(** A topological order of all nodes shows that the graph is acyclic. *)
Lemma topological_acyclic nodes out : NoDup out → (∀ n, n ∈ nodes → n ∈ out) →
  topological nodes out → acyclic_on nodes.
Proof.
  intros Hnd Hall Ht. exists (λ n, default 0 (fst <$> list_find (.= n) out)).
  intros n p Hn Hp Hpn. apply Hall, list_elem_of_lookup in Hn as [i Hi].
  pose proof (Ht _ _ _ Hi Hpn Hp) as Hin. apply list_elem_of_lookup in Hin as [j Hj].
  assert (Hlt : j < i). { apply lookup_lt_Some in Hj. rewrite length_take in Hj. lia. }
  rewrite lookup_take_lt in Hj by done.
  assert (Hf : ∀ k x, out !! k = Some x → list_find (.= x) out = Some (k, x)).
  { intros k x Hk. apply list_find_Some. split_and!; [done|done|].
    intros k' y Hy Hkk ->. pose proof (NoDup_lookup _ _ _ _ Hnd Hy Hk). lia. }
  by rewrite (Hf i n Hi), (Hf j p Hj).
Qed.

(** ** In-degrees *)

Lemma count_preds_lookup set indeg n s :
  count_preds set indeg n !! s =
  if decide (s = n) then (λ d, length (filter (.∈ set) (predecessors n)) + d) <$> indeg !! s
  else indeg !! s.
Proof.
  unfold count_preds. generalize (predecessors n). intros l. revert indeg.
  induction l as [|p l IH]; intros indeg; cbn [fold_left].
  - case_decide; [|done]. by destruct (indeg !! s).
  - rewrite IH, filter_cons. unfold count_pred. destruct (decide (p ∈ set)); [|done].
    destruct (decide (s = n)) as [->|]; [|by rewrite lookup_alter_ne].
    rewrite lookup_alter_eq. destruct (indeg !! n); simpl; [|done]. f_equal. lia.
Qed.

Lemma count_all_lookup set l indeg s : NoDup l →
  fold_left (count_preds set) l indeg !! s =
  if decide (s ∈ l) then (λ d, length (filter (.∈ set) (predecessors s)) + d) <$> indeg !! s
  else indeg !! s.
Proof.
  revert indeg. induction l as [|n l IH]; intros indeg; cbn [fold_left]; [done|].
  intros [Hn Hnd]%NoDup_cons. rewrite IH, count_preds_lookup by done.
  destruct (decide (s = n)) as [->|].
  - rewrite decide_False by done. by rewrite decide_True by left.
  - by rewrite (decide_ext (s ∈ n :: l) (s ∈ l)) by set_solver.
Qed.

Lemma zero_degrees_lookup nodes s : zero_degrees nodes !! s = if decide (s ∈ nodes) then Some 0 else None.
Proof.
  unfold zero_degrees. induction nodes as [|n nodes IH]; csimpl; [done|].
  destruct (decide (n = s)) as [->|].
  - rewrite lookup_insert_eq. by rewrite decide_True by left.
  - rewrite lookup_insert_ne, IH by done. by rewrite (decide_ext (s ∈ n :: nodes) (s ∈ nodes)) by set_solver.
Qed.

Lemma in_degrees_spec nodes s : NoDup nodes →
  in_degrees nodes !! s = if decide (s ∈ nodes) then Some (length (pending nodes [] s)) else None.
Proof.
  intros Hnd. unfold in_degrees. rewrite count_all_lookup, zero_degrees_lookup by done.
  case_decide; [|done]. simpl. f_equal. rewrite Nat.add_0_r. f_equal. unfold pending.
  apply list_filter_iff. intros p. rewrite elem_of_list_to_set. set_solver.
Qed.

Lemma elem_of_zero_nodes indeg s : s ∈ zero_nodes indeg ↔ indeg !! s = Some 0.
Proof.
  unfold zero_nodes. rewrite list_elem_of_fmap. split.
  - intros ([k d] & -> & [E Hin]%list_elem_of_filter). apply elem_of_map_to_list in Hin. simpl in *. by subst.
  - intros Hs. exists (s, 0). split; [done|]. apply list_elem_of_filter. by rewrite elem_of_map_to_list.
Qed.

Lemma zero_nodes_nodup indeg : NoDup (zero_nodes indeg).
Proof.
  unfold zero_nodes. apply NoDup_fmap_2_strong; [|apply NoDup_filter, NoDup_map_to_list].
  intros [k d] [k' d'] [E Hk]%list_elem_of_filter [E' Hk']%list_elem_of_filter. simpl in *. congruence.
Qed.

Lemma kahn_start nodes : NoDup nodes →
  kahn_inv nodes [] (in_degrees nodes) (zero_nodes (in_degrees nodes)).
Proof.
  intros Hnd. split; [constructor|by intros ? ?%elem_of_nil| | |apply zero_nodes_nodup|done].
  - intros s. by apply in_degrees_spec.
  - intros s. rewrite elem_of_zero_nodes, in_degrees_spec by done. case_decide; [|naive_solver].
    destruct (pending nodes [] s); simpl; split; try naive_solver; intros; split_and!; auto using not_elem_of_nil.
Qed.

Lemma kahn_inv_perm nodes out indeg zero zero' : zero ≡ₚ zero' →
  kahn_inv nodes out indeg zero → kahn_inv nodes out indeg zero'.
Proof. intros Hp []. split; try done; [intros s; by rewrite <- Hp|by rewrite <- Hp]. Qed.

(** The nodes out are never more than the nodes. *)
Lemma kahn_length nodes out indeg zero : kahn_inv nodes out indeg zero →
  length out + length zero ≤ length nodes.
Proof.
  intros []. rewrite <- length_app. apply submseteq_length, NoDup_submseteq.
  - apply NoDup_app. split_and!; [done| |done]. intros s ? Hs. by apply ki_zero0 in Hs as (?&?&?).
  - intros s [?|Hs]%elem_of_app; [by auto|]. by apply ki_zero0 in Hs as (?&?&?).
Qed.
End kahn.
