(* ===== verification/Topo.v ===== *)
(** The dynamic topological order
    ([crates/formualizer-eval/src/engine/topo/pk.rs]).

    Scratch buffers are not modelled; the visit budget, the operation counter
    and the positions are.  A [Vec] used as a stack is a list whose head is the
    top. *)
From S2P Require Import Prelude Kahn.

Section topo.
Context {N : Type} `{Countable N} `{!NodeOrd N}.

Record PkStats : Type := { relabeled : nat; dfs_visited : nat }.
Record PkConfig : Type := { visit_budget : Z; compaction_interval_ops : Z }.

Record DynamicTopo : Type := {
  pos : gmap N Z;
  order : list N;
  op_count : Z;
  cfg : PkConfig
}.

Definition default_stats : PkStats := {| relabeled := 0; dfs_visited := 0 |}.
Definition default_config : PkConfig :=
  {| visit_budget := 50000%Z; compaction_interval_ops := 100000%Z |}.

(** [for (i, n) in order.iter().enumerate() { pos.insert(n, i as u32); }]. *)
Fixpoint number_from (i : nat) (order : list N) (pos : gmap N Z) : gmap N Z :=
  match order with
  | [] => pos
  | n :: order => number_from (S i) order (<[n := as_u32 (Z.of_nat i)]> pos)
  end.

Definition new (nodes : list N) (cfg : PkConfig) : DynamicTopo :=
  let order := merge_sort node_le nodes in
  {| pos := number_from 0 order ∅; order := order; op_count := 0%Z; cfg := cfg |}.

Definition set_order (order : list N) (pos : gmap N Z) (t : DynamicTopo) : DynamicTopo :=
  {| pos := pos; order := order; op_count := op_count t; cfg := cfg t |}.

Definition add_missing (n : N) (t : DynamicTopo) : DynamicTopo * Z :=
  let idx := as_u32 (Z.of_nat (length (order t))) in
  (set_order (order t ++ [n]) (<[n := idx]> (pos t)) t, idx).

(** [match self.pos.get(&n) { Some(v) => v, None => self.add_missing(n) }]. *)
Definition position_or_add (n : N) (t : DynamicTopo) : DynamicTopo * Z :=
  match pos t !! n with Some v => (t, v) | None => add_missing n t end.

Definition ensure_nodes (nodes : list N) (t : DynamicTopo) : DynamicTopo :=
  fold_left (λ t n, (position_or_add n t).1) nodes t.

Context {G : GraphView N}.

(** The loop of [rebuild_full]; [zero] holds the vector from its end on. *)
Fixpoint kahn_loop (fuel : nat) (indeg : gmap N nat) (zero out : list N) : result Empty_set (list N) :=
  match zero with
  | [] => Ok out
  | n :: zero =>
      match fuel with
      | O => Panic
      | S fuel =>
          '(indeg, zero) ← decrement_all (successors n) (indeg, zero);
          kahn_loop fuel indeg (merge_sort node_le zero) (out ++ [n])
      end
  end.

Definition rebuild_full (t : DynamicTopo) : result Empty_set DynamicTopo :=
  let nodes := merge_sort node_le (filter (λ n, node_exists n = true) (order t)) in
  let indeg := in_degrees nodes in
  let zero := merge_sort node_le (zero_nodes indeg) in
  out ← kahn_loop (S (length nodes)) indeg zero [];
  let out := if (length out =? length nodes)%nat then out else nodes in
  Ok (set_order out (number_from 0 out ∅) t).

(** The comparison of [compact_ranks] and [layers_for]: by position, then by
    node.  [self.pos[a]] panics on a node without a position; the callers below
    check for one, so the default is never compared. *)
Definition key (pos : gmap N Z) (n : N) : Z := default (-1)%Z (pos !! n).
Definition rank_le (pos : gmap N Z) (a b : N) : Prop :=
  (key pos a < key pos b)%Z ∨ (key pos a = key pos b ∧ node_le a b).
#[export] Instance rank_le_dec pos : RelDecision (rank_le pos).
Proof. intros a b. unfold rank_le. apply _. Defined.

(** Every node of a list has a position. *)
Definition all_placed (t : DynamicTopo) (l : list N) : bool :=
  forallb (λ n, bool_decide (is_Some (pos t !! n))) l.

Definition compact_ranks (t : DynamicTopo) : result Empty_set DynamicTopo :=
  if all_placed t (order t) || (length (order t) <=? 1)%nat then
    let order := merge_sort (rank_le (pos t)) (order t) in
    Ok (set_order order (number_from 0 order ∅) t)
  else Panic.

(** Counting an operation, with a compaction when it is due. *)
Definition count_op (t : DynamicTopo) : result Empty_set DynamicTopo :=
  let t := {| pos := pos t; order := order t; op_count := op_count t + 1; cfg := cfg t |} in
  if (op_count t mod compaction_interval_ops (cfg t) =? 0)%Z then compact_ranks t else Ok t.

Definition remove_edge (x y : N) (t : DynamicTopo) : result Empty_set DynamicTopo := count_op t.

(** [splice_after]: the nodes of [affected], in their order, behind index
    [after_pos] of the nodes that are left. *)
Definition splice_after (after_pos : nat) (affected : list N) (t : DynamicTopo) : DynamicTopo * nat :=
  if bool_decide (affected = []) then (t, 0)
  else
    let block := filter (.∈ affected) (order t) in
    let left := filter (.∉ affected) (order t) in
    let order := if (after_pos <? length left)%nat
                 then take (S after_pos) left ++ block ++ drop (S after_pos) left
                 else left ++ block in
    (set_order order (number_from 0 order (pos t)) t, length affected).

(** ** The search of [try_add_edge] *)

Record search : Type := {
  stack : list N; parent : gmap N N; visited : gset N; affected : list N; visited_cnt : nat
}.

(** A successor is pushed when it stands at or before [px] and is not visited. *)
Definition push_successor (t : DynamicTopo) (px : Z) (u : N) (s : search) (v : N) : search :=
  match pos t !! v with
  | Some ps =>
      if bool_decide (ps ≤ px)%Z && negb (bool_decide (v ∈ visited s)) then
        {| stack := v :: stack s; parent := <[v := u]> (parent s); visited := visited s;
           affected := affected s; visited_cnt := visited_cnt s |}
      else s
  | None => s
  end.
Definition push_successors (t : DynamicTopo) (px : Z) (u : N) (s : search) : search :=
  fold_left (push_successor t px u) (successors u) s.

(** The path from [y] to [cur] along the parents, backwards; it is no longer than
    the nodes visited. *)
Fixpoint path_to (fuel : nat) (parent : gmap N N) (y cur : N) (path : list N)
  : result Empty_set (list N) :=
  if decide (cur = y) then Ok path
  else
    match fuel with
    | O => Panic
    | S fuel => cur ← expect (parent !! cur); path_to fuel parent y cur (cur :: path)
    end.

Inductive search_end : Type :=
| OverBudget
| FoundCycle (path : list N)
| Exhausted (affected : list N) (visited_cnt : nat).

Fixpoint search_loop (fuel : nat) (t : DynamicTopo) (px : Z) (x y : N) (s : search)
  : result Empty_set search_end :=
  match stack s with
  | [] => Ok (Exhausted (affected s) (visited_cnt s))
  | u :: rest =>
      match fuel with
      | O => Panic
      | S fuel =>
          let s := {| stack := rest; parent := parent s; visited := visited s;
                      affected := affected s; visited_cnt := visited_cnt s |} in
          if decide (u ∈ visited s) then search_loop fuel t px x y s
          else
            let s := {| stack := rest; parent := parent s; visited := {[u]} ∪ visited s;
                        affected := affected s; visited_cnt := visited_cnt s + 1 |} in
            if (visit_budget (cfg t) <? Z.of_nat (visited_cnt s))%Z then Ok OverBudget
            else if decide (u = x) then
              FoundCycle <$> path_to (visited_cnt s) (parent s) y x [x]
            else
              let s := {| stack := stack s; parent := parent s; visited := visited s;
                          affected := affected s ++ [u]; visited_cnt := visited_cnt s |} in
              search_loop fuel t px x y (push_successors t px u s)
      end
  end.

(** Every pop is of [y] or of a successor of a visited node. *)
Definition search_fuel (t : DynamicTopo) : nat :=
  2 + sum_list_with (λ u, length (successors u)) (order t).

Definition start_search (y : N) : search :=
  {| stack := [y]; parent := ∅; visited := ∅; affected := []; visited_cnt := 0 |}.

(** [try_add_edge]; an [Err] is a cycle, with its path.  After a rebuild the
    source calls itself, with no bound on the depth: [depth] is the fuel. *)
Fixpoint try_add_edge (depth : nat) (x y : N) (t : DynamicTopo)
  : DynamicTopo * result (list N) PkStats :=
  if decide (x = y) then (t, Err [x; y])
  else
    let '(t, px) := position_or_add x t in
    let '(t, py) := position_or_add y t in
    if bool_decide (px < py)%Z then (t, Ok default_stats)
    else
      match search_loop (search_fuel t) t px x y (start_search y) with
      | Ok (FoundCycle path) => (t, Err path)
      | Ok OverBudget =>
          match depth, rebuild_full t with
          | S depth, Ok t =>
              try_add_edge depth x y
                {| pos := pos t; order := order t; op_count := op_count t + 1; cfg := cfg t |}
          | _, _ => (t, Panic)
          end
      | Ok (Exhausted affected visited_cnt) =>
          let '(t, relabeled) := splice_after (Z.to_nat px) affected t in
          match count_op t with
          | Ok t => (t, Ok {| relabeled := relabeled; dfs_visited := visited_cnt |})
          | _ => (t, Panic)
          end
      | _ => (t, Panic)
      end.

(** The additions of [apply_bulk], up to the first that closes a cycle. *)
Fixpoint add_edges (depth : nat) (adds : list (N * N)) (stats : PkStats) (t : DynamicTopo)
  : DynamicTopo * result (list N) PkStats :=
  match adds with
  | [] => (t, Ok stats)
  | (x, y) :: adds =>
      match try_add_edge depth x y t with
      | (t, Ok s) =>
          add_edges depth adds
            {| relabeled := relabeled stats + relabeled s;
               dfs_visited := dfs_visited stats + dfs_visited s |} t
      | (t, res) => (t, res)
      end
  end.

Fixpoint remove_edges (removes : list (N * N)) (t : DynamicTopo) : result Empty_set DynamicTopo :=
  match removes with
  | [] => Ok t
  | (x, y) :: removes => t ← remove_edge x y t; remove_edges removes t
  end.

Definition apply_bulk (depth : nat) (removes adds : list (N * N)) (t : DynamicTopo)
  : DynamicTopo * result (list N) PkStats :=
  match remove_edges removes t with
  | Ok t => add_edges depth adds default_stats t
  | _ => (t, Panic)
  end.

(** ** [layers_for] *)

Definition layer_width (max_layer_width : option nat) (zero : list N) : nat :=
  match max_layer_width with Some w => min (length zero) w | None => length zero end.

Fixpoint layers_loop (fuel : nat) (t : DynamicTopo) (cap : option nat) (indeg : gmap N nat)
  (zero : list N) (layers : list (list N)) : result Empty_set (list (list N)) :=
  match zero with
  | [] => Ok layers
  | _ =>
      match fuel with
      | O => Panic
      | S fuel =>
          let w := layer_width cap zero in
          let layer := merge_sort (rank_le (pos t)) (take w zero) in
          '(indeg, zero) ← decrement_all (concat (successors <$> layer)) (indeg, drop w zero);
          if all_placed t zero || (length zero <=? 1)%nat then
            layers_loop fuel t cap indeg (merge_sort (rank_le (pos t)) zero) (layers ++ [layer])
          else Panic
      end
  end.

Definition layers_for (subset : list N) (max_layer_width : option nat) (t : DynamicTopo)
  : result Empty_set (list (list N)) :=
  if bool_decide (subset = []) then Ok []
  else
    let indeg := in_degrees subset in
    let zero := zero_nodes indeg in
    if all_placed t zero || (length zero <=? 1)%nat then
      layers_loop (S (length subset)) t max_layer_width indeg (merge_sort (rank_le (pos t)) zero) []
    else Panic.

End topo.

(** ** A graph given by its edges *)

Definition edge_graph (edges : list (Z * Z)) : GraphView Z := {|
  successors x := (filter (λ e, e.1 = x) edges).*2;
  predecessors y := (filter (λ e, e.2 = y) edges).*1;
  node_exists _ := true
|}.

Example rebuild_ex :
  let _ := edge_graph [(3, 1); (1, 2); (4, 2)]%Z in
  order <$> rebuild_full (new [1; 2; 3; 4]%Z default_config) = Ok [3; 1; 4; 2]%Z.
Proof. vm_compute. reflexivity. Qed.
Example splice_ex :
  let _ := edge_graph [(1, 3)]%Z in
  order (try_add_edge 1 2%Z 1%Z (new [1; 2; 3]%Z default_config)).1 = [2; 3; 1]%Z.
Proof. vm_compute. reflexivity. Qed.
