(* ===== verification/TopoTheorems.v ===== *)
(** What the dynamic topological order guarantees: a rebuild orders an acyclic
    graph topologically, layers respect the edges, an edge that closes a cycle
    is reported with the cycle; and where it does not: the splice can break an
    order that was topological. *)
From S2P Require Import Prelude Kahn Topo.

#[export] Instance edge_graph_laws edges : GraphLaws Z (edge_graph edges).
Proof.
  intros x y. simpl. induction edges as [|[a b] edges IH]; [done|].
  rewrite !filter_cons. simpl. destruct (decide (a = x)) as [->|], (decide (b = y)) as [->|]; csimpl;
    rewrite ?mult_cons, ?IH; try done.
  - by rewrite !decide_True.
  - by rewrite decide_False.
  - by rewrite decide_False.
Qed.

Section topo.
Context {N : Type} `{Countable N} `{!NodeOrd N} {G : GraphView N}.

(** ** Numbering *)

Lemma number_from_other i (l : list N) m n : n ∉ l → number_from i l m !! n = m !! n.
Proof.
  revert i m. induction l as [|x l IH]; intros i m Hn; [done|]. cbn [number_from].
  rewrite IH by set_solver. apply lookup_insert_ne. set_solver.
Qed.

Lemma number_from_lookup i (l : list N) m k n : NoDup l → l !! k = Some n →
  number_from i l m !! n = Some (as_u32 (Z.of_nat (i + k))).
Proof.
  revert i m k. induction l as [|x l IH]; intros i m k; [done|]. cbn [number_from].
  intros [Hx Hnd]%NoDup_cons Hk. destruct k as [|k]; simpl in Hk.
  - injection Hk as ->. rewrite number_from_other, lookup_insert_eq by done. by rewrite Nat.add_0_r.
  - rewrite (IH _ _ k) by done. do 2 f_equal. lia.
Qed.

(** The positions are the indices in the order. *)
Record topo_wf (t : DynamicTopo) : Prop := {
  tw_nodup : NoDup (order t);
  tw_length : (Z.of_nat (length (order t)) ≤ u32_max)%Z;
  tw_pos i (n : N) : order t !! i = Some n → pos t !! n = Some (Z.of_nat i);
  tw_dom (n : N) : is_Some (pos t !! n) → n ∈ order t
}.

Lemma numbered_wf (l : list N) m t : NoDup l → (Z.of_nat (length l) ≤ u32_max)%Z →
  (∀ n, is_Some (m !! n) → n ∈ l) →
  topo_wf (set_order l (number_from 0 l m) t).
Proof.
  intros Hnd Hlen Hm. split; simpl; [done|done| |].
  - intros i n Hi. rewrite (number_from_lookup _ _ _ i) by done. f_equal. apply as_u32_small.
    apply lookup_lt_Some in Hi. unfold in_u32. lia.
  - intros n Hn. destruct (decide (n ∈ l)) as [|Hnl]; [done|]. rewrite number_from_other in Hn by done. by apply Hm.
Qed.

(** ** Rebuilding *)

Context `{!GraphLaws N G}.

Lemma kahn_loop_spec nodes fuel indeg zero out : kahn_inv nodes out indeg zero →
  length nodes < fuel + length out →
  ∃ out' indeg', kahn_loop fuel indeg zero out = Ok out' ∧ kahn_inv nodes out' indeg' [].
Proof.
  revert indeg zero out. induction fuel as [|fuel IH]; intros indeg zero out Hk Hf.
  - pose proof (kahn_length _ _ _ _ Hk). lia.
  - destruct zero as [|n zero]; cbn [kahn_loop]; [by exists out, indeg|].
    destruct (kahn_batch nodes out indeg _ [n] zero Hk) as (indeg' & zero' & Hrun & Hk'); [done|].
    simpl in Hrun. rewrite app_nil_r in Hrun. rewrite Hrun. cbn [mbind result_bind].
    apply IH; [|rewrite length_app; simpl; lia].
    eapply kahn_inv_perm; [|exact Hk']. symmetry. apply merge_sort_Permutation.
Qed.

Lemma kahn_run nodes : NoDup nodes →
  ∃ out, kahn_loop (S (length nodes)) (in_degrees nodes) (merge_sort node_le (zero_nodes (in_degrees nodes))) []
         = Ok out ∧ NoDup out ∧ (∀ n, n ∈ out → n ∈ nodes) ∧ topological nodes out ∧
         (acyclic_on nodes → out ≡ₚ nodes).
Proof.
  intros Hnd. pose proof (kahn_start nodes Hnd) as Hk.
  eapply kahn_inv_perm in Hk; [|symmetry; apply (merge_sort_Permutation node_le)].
  destruct (kahn_loop_spec _ (S (length nodes)) _ _ _ Hk) as (out & indeg' & -> & Hk'); [simpl; lia|].
  exists out. pose proof Hk' as []. split_and!; [done|done|done|done|].
  intros Hac. apply NoDup_Permutation; [done|done|]. intros n. split; [auto|by eapply kahn_done].
Qed.

Definition live_nodes (t : @DynamicTopo N _ _) : list N :=
  filter (λ n : N, node_exists n = true) (order t).

(** C30: [rebuild_full] terminates, its order holds exactly the existing nodes, with
    positions that are the indices in it, and when the graph is acyclic on them
    every node stands behind its predecessors. *)
Theorem rebuild_full_topological t : topo_wf t →
  ∃ t', rebuild_full t = Ok t' ∧ topo_wf t' ∧ order t' ≡ₚ live_nodes t ∧
    (acyclic_on (live_nodes t) → topological (live_nodes t) (order t')).
Proof.
  intros [Hnd Hlen _ _]. unfold rebuild_full. fold (live_nodes t).
  set (nodes := merge_sort node_le (live_nodes t)).
  assert (Hp : nodes ≡ₚ live_nodes t) by apply merge_sort_Permutation.
  assert (Hnodes : NoDup nodes) by (rewrite Hp; by apply NoDup_filter).
  assert (Hll : length nodes ≤ length (order t)) by (rewrite Hp; apply length_filter).
  destruct (kahn_run nodes Hnodes) as (out & -> & Hout & Hsub & Ht & Hac). cbn [mbind result_bind].
  set (out' := if (length out =? length nodes)%nat then out else nodes).
  assert (Hp' : out' ≡ₚ nodes).
  { unfold out'. destruct (Nat.eqb_spec (length out) (length nodes)) as [E|]; [|done].
    apply submseteq_length_Permutation; [by apply NoDup_submseteq|lia]. }
  eexists. split_and!; [done| | |].
  - apply numbered_wf; [by rewrite Hp'|rewrite Hp'; lia|]. intros n [? Hn]. by rewrite lookup_empty in Hn.
  - simpl. by rewrite Hp'.
  - intros Ha. simpl. assert (acyclic_on nodes) as Ha'.
    { destruct Ha as [rank Hr]. exists rank. intros n p. rewrite Hp. apply Hr. }
    unfold out'. rewrite (Hac Ha'), Nat.eqb_refl. intros i n p Hi Hpn Hin. apply (Ht i n p Hi Hpn). by rewrite Hp.
Qed.

(** ** Layers *)

(** The predecessors of a node of a layer are in the layers before it. *)
Definition layered (nodes : list N) (layers : list (list N)) : Prop :=
  ∀ i layer n p, layers !! i = Some layer → n ∈ layer → p ∈ predecessors n → p ∈ nodes →
    p ∈ concat (take i layers).

Definition width_ok (cap : option nat) (layer : list N) : Prop :=
  layer ≠ [] ∧ match cap with Some w => length layer ≤ w | None => True end.

Lemma all_placed_spec (t : @DynamicTopo N _ _) l : (∀ n, n ∈ l → is_Some (pos t !! n)) → all_placed t l = true.
Proof.
  intros Hl. unfold all_placed. apply forallb_forall. intros n Hn.
  apply bool_decide_eq_true_2, Hl. by apply list_elem_of_In.
Qed.

Lemma layer_width_spec cap (zero : list N) : zero ≠ [] → cap ≠ Some 0 →
  0 < layer_width cap zero ≤ length zero ∧ match cap with Some w => layer_width cap zero ≤ w | None => True end.
Proof.
  intros Hz Hc. assert (0 < length zero) by (destruct zero; simpl; [done|lia]).
  unfold layer_width. destruct cap as [[|w]|]; [done|lia..].
Qed.

Lemma layers_loop_spec (t : @DynamicTopo N _ _) cap nodes fuel : ∀ indeg zero layers,
  (∀ n, n ∈ nodes → is_Some (pos t !! n)) → cap ≠ Some 0 →
  kahn_inv nodes (concat layers) indeg zero → layered nodes layers → Forall (width_ok cap) layers →
  length nodes < fuel + length (concat layers) →
  ∃ layers' indeg', layers_loop fuel t cap indeg zero layers = Ok layers' ∧
    kahn_inv nodes (concat layers') indeg' [] ∧ layered nodes layers' ∧ Forall (width_ok cap) layers'.
Proof.
  induction fuel as [|fuel IH]; intros indeg zero layers Hpos Hcap Hk Hl Hw Hf.
  { pose proof (kahn_length _ _ _ _ Hk). lia. }
  destruct (decide (zero = [])) as [->|Hz]; [by exists layers, indeg|].
  destruct (layer_width_spec cap zero Hz Hcap) as [Hw1 Hw2].
  replace (layers_loop (S fuel) t cap indeg zero layers) with
    (let layer := merge_sort (rank_le (pos t)) (take (layer_width cap zero) zero) in
     '(indeg, zero) ← decrement_all (concat (successors <$> layer)) (indeg, drop (layer_width cap zero) zero);
     if all_placed t zero || (length zero <=? 1)%nat then
       layers_loop fuel t cap indeg (merge_sort (rank_le (pos t)) zero) (layers ++ [layer])
     else Panic) by by destruct zero.
  cbv zeta. set (layer := merge_sort _ (take _ zero)).
  assert (Hlp : layer ≡ₚ take (layer_width cap zero) zero) by apply merge_sort_Permutation.
  destruct (kahn_batch nodes (concat layers) indeg zero layer (drop (layer_width cap zero) zero) Hk)
    as (indeg' & zero' & -> & Hk'); [by rewrite Hlp, take_drop|]. cbn [mbind result_bind].
  assert (Hcc : concat (layers ++ [layer]) = concat layers ++ layer) by (rewrite concat_app; simpl; by rewrite app_nil_r).
  rewrite all_placed_spec by (intros n Hn; apply Hpos; by apply (ki_zero _ _ _ _ Hk') in Hn as (?&?&?)).
  cbn [orb]. apply IH; [done|done| | | |].
  - rewrite Hcc. eapply kahn_inv_perm; [|exact Hk']. symmetry. apply merge_sort_Permutation.
  - intros i L n p Hi Hn Hp Hpn. apply lookup_app_Some in Hi as [Hi|[Hlen Hi]].
    + rewrite take_app_le by (apply lookup_lt_Some in Hi; lia). by eapply Hl.
    + apply list_lookup_singleton_Some in Hi as [Hi <-]. rewrite take_app_ge by done.
      rewrite concat_app. apply elem_of_app. left.
      assert (n ∈ zero) as Hnz. { rewrite Hlp in Hn. rewrite <- (take_drop (layer_width cap zero) zero). set_solver. }
      apply (ki_zero _ _ _ _ Hk) in Hnz as (_ & _ & Hpe). by eapply pending_nil.
  - apply Forall_app. split; [done|]. constructor; [|done]. split.
    + intros E. rewrite E in Hlp. apply Permutation_nil_l in Hlp. apply (f_equal length) in Hlp.
      rewrite length_take in Hlp. simpl in Hlp. lia.
    + destruct cap; [rewrite Hlp, length_take; lia|done].
  - rewrite Hcc, length_app, Hlp, length_take. lia.
Qed.

(** [layers_for] terminates and returns non-empty layers of at most the given
    width, each node once, every node behind the layers of its predecessors in the
    subset; on an acyclic subset no node is missing. *)
Lemma layers_for_correct (t : @DynamicTopo N _ _) subset cap :
  NoDup subset → (∀ n, n ∈ subset → is_Some (pos t !! n)) → cap ≠ Some 0 →
  ∃ layers, layers_for subset cap t = Ok layers ∧
    NoDup (concat layers) ∧ (∀ n, n ∈ concat layers → n ∈ subset) ∧
    layered subset layers ∧ Forall (width_ok cap) layers ∧
    (acyclic_on subset → concat layers ≡ₚ subset).
Proof.
  intros Hnd Hpos Hcap. unfold layers_for. case_bool_decide as E.
  { exists []. subst. split_and!; [done|constructor|by intros ? ?%elem_of_nil|done|constructor|done]. }
  pose proof (kahn_start subset Hnd) as Hk.
  rewrite all_placed_spec by (intros n Hn; apply Hpos; by apply (ki_zero _ _ _ _ Hk) in Hn as (?&?&?)).
  cbn [orb]. eapply kahn_inv_perm in Hk; [|symmetry; apply (merge_sort_Permutation (rank_le (pos t)))].
  destruct (layers_loop_spec t cap subset (S (length subset)) _ _ [] Hpos Hcap Hk)
    as (layers & indeg' & -> & Hk' & Hl & Hw); [done|constructor|simpl; lia|].
  exists layers. pose proof Hk' as []. split_and!; try done.
  intros Ha. apply NoDup_Permutation; [done|done|]. intros n. split; [auto|by eapply kahn_done].
Qed.


(** ** Compaction *)

#[local] Instance rank_le_trans pos : Transitive (rank_le pos).
Proof.
  intros a b c [Hab|[Hab Hab']] [Hbc|[Hbc Hbc']]; [left; lia..|].
  right. split; [lia|by etrans].
Qed.
#[local] Instance rank_le_total pos : Total (rank_le pos).
Proof.
  intros a b. unfold rank_le. destruct (Z.lt_total (key pos a) (key pos b)) as [?|[E|?]]; [by left; left| |by right; left].
  destruct (total node_le a b); [left|right]; right; by rewrite E.
Qed.
#[local] Instance rank_le_antisym pos : AntiSymm (=) (rank_le pos).
Proof. intros a b [?|[? ?]] [?|[? ?]]; [lia..|]. by apply (anti_symm node_le). Qed.

Lemma order_sorted (t : @DynamicTopo N _ _) : topo_wf t → StronglySorted (rank_le (pos t)) (order t).
Proof.
  intros Ht. pose proof (tw_pos _ Ht) as Hp.
  assert (Hk : ∀ i n, order t !! i = Some n → key (pos t) n = Z.of_nat i).
  { intros i n Hi. unfold key. by rewrite (Hp i n Hi). }
  clear Hp Ht. revert Hk. generalize (pos t). intros m.
  enough (∀ l k, (∀ i n, l !! i = Some n → key m n = Z.of_nat (k + i)) → StronglySorted (rank_le m) l) as E.
  { intros Hk. by apply (E _ 0). }
  induction l as [|n l IH]; intros k Hk; constructor.
  - apply (IH (S k)). intros i x Hi. rewrite (Hk (S i)) by done. f_equal. lia.
  - apply Forall_forall. intros x [i Hi]%list_elem_of_lookup. left.
    rewrite (Hk 0 n), (Hk (S i) x) by done. lia.
Qed.

Lemma compact_ranks_spec (t : @DynamicTopo N _ _) : topo_wf t →
  ∃ t', compact_ranks t = Ok t' ∧ topo_wf t' ∧ order t' = order t.
Proof.
  intros Ht. pose proof Ht as [Hnd Hlen Hp _]. unfold compact_ranks.
  rewrite all_placed_spec by (intros n [i Hi]%list_elem_of_lookup; by rewrite (Hp i n Hi)). cbn [orb].
  replace (merge_sort (rank_le (pos t)) (order t)) with (order t).
  - eexists. split_and!; [done|apply numbered_wf; try done|done]. intros n [? Hn]. by rewrite lookup_empty in Hn.
  - apply (StronglySorted_unique (rank_le (pos t))); [by apply order_sorted| |symmetry; apply merge_sort_Permutation].
    apply Sorted_StronglySorted, Sorted_merge_sort; apply _.
Qed.

Lemma count_op_spec (t : @DynamicTopo N _ _) : topo_wf t →
  ∃ t', count_op t = Ok t' ∧ topo_wf t' ∧ order t' = order t.
Proof.
  intros [Hnd Hlen Hp Hd]. unfold count_op.
  set (t' := {| pos := pos t; order := order t; op_count := op_count t + 1; cfg := cfg t |}).
  assert (Ht' : topo_wf t') by by split. destruct (_ =? _)%Z; [|by exists t'].
  exact (compact_ranks_spec t' Ht').
Qed.

(** ** Splicing *)

Lemma splice_spec (t : @DynamicTopo N _ _) px affected x y : topo_wf t →
  order t !! px = Some x → x ∉ affected → y ∈ affected → y ∈ order t →
  let t' := (splice_after px affected t).1 in
  topo_wf t' ∧ order t' ≡ₚ order t ∧
  ∃ i j, order t' !! i = Some x ∧ order t' !! j = Some y ∧ i < j.
Proof.
  intros Ht Hx Hxa Hy Hyo. pose proof Ht as [Hnd Hlen Hp Hd]. cbv zeta. unfold splice_after.
  rewrite bool_decide_eq_false_2 by (intros ->; by apply elem_of_nil in Hy). cbn [fst].
  set (block := filter (.∈ affected) (order t)). set (left := filter (.∉ affected) (order t)).
  set (l1 := take (S px) left). set (l2 := drop (S px) left).
  assert (Ho : (if (px <? length left)%nat then l1 ++ block ++ l2 else left ++ block) = l1 ++ block ++ l2).
  { destruct (Nat.ltb_spec px (length left)); [done|]. unfold l1, l2. by rewrite take_ge, drop_ge, app_nil_r by lia. }
  rewrite Ho.
  assert (Hperm : l1 ++ block ++ l2 ≡ₚ order t).
  { rewrite (Permutation_app_comm block), app_assoc. unfold l1, l2. rewrite take_drop.
    unfold left, block. rewrite Permutation_app_comm. by apply filter_app_complement. }
  split_and!; [apply numbered_wf; rewrite ?Hperm; try done|done|].
  - intros n Hn. rewrite Hperm. by apply Hd.
  - assert (Hxl : x ∈ l1).
    { unfold l1, left. rewrite <- (take_drop_middle (order t) px x Hx), filter_app, filter_cons_True by done.
      pose proof (length_filter (.∉ affected) (take px (order t))) as Hl. rewrite length_take in Hl.
      rewrite take_app_ge by lia. apply elem_of_app. right.
      destruct (S px - _) eqn:E; [lia|]. simpl. left. }
    assert (Hyl : y ∈ block) by by apply list_elem_of_filter.
    apply list_elem_of_lookup in Hxl as [i Hi]. apply list_elem_of_lookup in Hyl as [j Hj].
    exists i, (length l1 + j). simpl. pose proof (lookup_lt_Some _ _ _ Hi). split_and!; [|..|lia].
    + by rewrite lookup_app_l.
    + rewrite lookup_app_r by lia. replace (length l1 + j - length l1) with j by lia.
      rewrite lookup_app_l; [done|]. by eapply lookup_lt_Some.
Qed.


(** ** The search *)

(** Each node of a path is a successor of the one before it. *)
Fixpoint linked (l : list N) : Prop :=
  match l with
  | a :: (b :: _) as l => b ∈ successors a ∧ linked l
  | _ => True
  end.

Section search.
Context (t : @DynamicTopo N _ _) (px : Z) (x y : N).

(** A successor within the searched positions. *)
Definition within (v : N) : Prop := ∃ p, pos t !! v = Some p ∧ (p ≤ px)%Z.

Record search_inv (s : search) : Prop := {
  si_visited v : v ∈ visited s ↔ v ∈ affected s;
  si_count : visited_cnt s = length (affected s);
  si_nodup : NoDup (affected s);
  si_parent v u : parent s !! v = Some u → v ∈ successors u ∧ u ∈ affected s;
  si_order i v : affected s !! i = Some v → v = y ∨ ∃ u, parent s !! v = Some u ∧ u ∈ take i (affected s);
  si_within v : v ∈ affected s → within v;
  si_stack v : v ∈ stack s → within v ∧ (v = y ∨ is_Some (parent s !! v));
  si_closed u v : u ∈ affected s → v ∈ successors u → within v → v ∈ affected s ∨ v ∈ stack s;
  si_start : y ∈ affected s ∨ y ∈ stack s;
  si_target : x ∉ affected s
}.

Lemma push_list_spec u l s : (∀ v, v ∈ visited s ↔ v ∈ affected s) →
  let s' := fold_left (push_successor t px u) l s in
  visited s' = visited s ∧ affected s' = affected s ∧ visited_cnt s' = visited_cnt s ∧
  (∀ v, v ∈ stack s' ↔ v ∈ stack s ∨ (v ∈ l ∧ within v ∧ v ∉ affected s)) ∧
  length (stack s') ≤ length l + length (stack s) ∧
  (∀ v w, parent s' !! v = Some w → parent s !! v = Some w ∨ (w = u ∧ v ∈ l)) ∧
  (∀ v, v ∈ affected s → parent s' !! v = parent s !! v) ∧
  (∀ v, is_Some (parent s !! v) ∨ (v ∈ l ∧ within v ∧ v ∉ affected s) → is_Some (parent s' !! v)).
Proof.
  revert s. induction l as [|v l IH]; intros s Hv; cbn [fold_left].
  { split_and!; try done; [set_solver|by left|set_solver]. }
  assert (Hpush : push_successor t px u s v = s ∧ ¬ (within v ∧ v ∉ affected s) ∨
    (within v ∧ v ∉ affected s) ∧ push_successor t px u s v =
      {| stack := v :: stack s; parent := <[v := u]> (parent s); visited := visited s;
         affected := affected s; visited_cnt := visited_cnt s |}).
  { unfold push_successor, within. destruct (pos t !! v) as [p|] eqn:Hp; [|left; split; [done|naive_solver]].
    destruct (bool_decide (p ≤ px)%Z) eqn:Hle; simpl.
    - apply bool_decide_eq_true in Hle. case_bool_decide as Hvis; simpl.
      + left. split; [done|]. apply Hv in Hvis. tauto.
      + right. rewrite Hv in Hvis. split; [|done]. eauto.
    - apply bool_decide_eq_false in Hle. left. split; [done|]. intros [(q & [= <-] & ?) _]. done. }
  destruct Hpush as [[-> Hno]|[[Hw Hna] ->]].
  - destruct (IH s Hv) as (H1 & H2 & H3 & H4 & H5 & H6 & H7 & H8). split_and!; try done.
    + intros w. rewrite H4, elem_of_cons. naive_solver.
    + simpl. lia.
    + intros w z Hwz. destruct (H6 w z Hwz) as [?|[??]]; [by left|right; set_solver].
    + intros w [?|([->|?]%elem_of_cons & ?)]; apply H8; [by left|tauto|by right].
  - destruct (IH {| stack := v :: stack s; parent := <[v := u]> (parent s); visited := visited s;
      affected := affected s; visited_cnt := visited_cnt s |} Hv) as (H1 & H2 & H3 & H4 & H5 & H6 & H7 & H8).
    simpl in *. split_and!; try done.
    + intros w. rewrite H4, !elem_of_cons. naive_solver.
    + lia.
    + intros w z Hwz. destruct (H6 w z Hwz) as [Hp|[??]]; [|right; set_solver].
      apply lookup_insert_Some in Hp as [[-> ->]|[? ?]]; [right; set_solver|by left].
    + intros w Hwa. rewrite H7 by done. apply lookup_insert_ne. by intros ->.
    + intros w Hw'. apply H8. destruct (decide (v = w)) as [->|]; [left; by rewrite lookup_insert_eq|].
      destruct Hw' as [?|([->|?]%elem_of_cons & ?)]; [left; by rewrite lookup_insert_ne|done|by right].
Qed.

(** Following the parents leads back to [y]. *)
Lemma path_to_spec s fuel cur rest : search_inv s →
  cur = y ∨ (∃ u, parent s !! cur = Some u ∧ u ∈ take fuel (affected s)) → linked (cur :: rest) →
  ∃ path, path_to fuel (parent s) y cur (cur :: rest) = Ok path ∧ linked path ∧
    head path = Some y ∧ last path = last (cur :: rest).
Proof.
  intros Hs. revert cur rest. induction fuel as [|fuel IH]; intros cur rest Hcur Hl; cbn [path_to].
  - destruct (decide (cur = y)) as [->|]; [by eexists|].
    destruct Hcur as [?|(u & _ & Hu)]; [done|]. simpl in Hu. by apply elem_of_nil in Hu.
  - destruct (decide (cur = y)) as [->|]; [by eexists|].
    destruct Hcur as [?|(u & Hp & Hu)]; [done|]. rewrite Hp. cbn [expect mbind result_bind].
    apply list_elem_of_lookup in Hu as [i Hi].
    pose proof (lookup_lt_Some _ _ _ Hi) as Hlt. rewrite length_take in Hlt.
    rewrite lookup_take_lt in Hi by lia.
    destruct (IH u (cur :: rest)) as (path & -> & Hl' & Hh & Hlast); [| |by exists path].
    + destruct (si_order _ Hs i u Hi) as [?|(w & Hw & Hin)]; [by left|right]. exists w. split; [done|].
      apply elem_of_take in Hin as (k & ? & ?). apply elem_of_take. exists k. split; [done|lia].
    + split; [|done]. by apply (si_parent _ Hs).
Qed.

Lemma start_inv : within y → search_inv (start_search y).
Proof.
  intros Hy. split; simpl; [set_solver|done|constructor| |done|by intros ? ?%elem_of_nil| |
    by intros ? ? ?%elem_of_nil|right; by left|apply not_elem_of_nil].
  - intros v u Hv. by rewrite lookup_empty in Hv.
  - intros v ->%list_elem_of_singleton. auto.
Qed.

(** One visit: a new node [u <> x] from the stack. *)
Lemma visit_inv s u rest : search_inv s → stack s = u :: rest → u ∉ affected s → u ≠ x →
  let s' := push_successors t px u
    {| stack := rest; parent := parent s; visited := {[u]} ∪ visited s;
       affected := affected s ++ [u]; visited_cnt := visited_cnt s + 1 |} in
  search_inv s' ∧ affected s' = affected s ++ [u] ∧
  length (stack s') ≤ length (successors u) + length rest.
Proof.
  intros Hs Hst Hu Hx. cbv zeta. set (s0 := {| stack := rest |}).
  destruct (si_stack _ Hs u) as [Huw Hup]; [rewrite Hst; left|].
  destruct (push_list_spec u (successors u) s0) as (Hv' & Ha' & Hc' & Hst' & Hlen & Hp1 & Hp2 & Hp3).
  { intros v. simpl. rewrite elem_of_union, elem_of_singleton, elem_of_app, list_elem_of_singleton, (si_visited _ Hs). tauto. }
  fold (push_successors t px u s0) in *. set (s' := push_successors t px u s0) in *. simpl in *.
  split; [|split; [done|lia]]. split.
  - intros v. rewrite Hv', Ha'. rewrite elem_of_union, elem_of_singleton, elem_of_app, list_elem_of_singleton, (si_visited _ Hs). tauto.
  - rewrite Hc', Ha', length_app, (si_count _ Hs). simpl. lia.
  - rewrite Ha'. apply NoDup_app. split_and!; [by apply si_nodup| |apply NoDup_singleton].
    by intros v Hv ->%list_elem_of_singleton.
  - intros v w Hvw. rewrite Ha'. destruct (Hp1 v w Hvw) as [Hp|[-> ?]].
    + apply (si_parent _ Hs) in Hp as [??]. set_solver.
    + set_solver.
  - intros i v. rewrite Ha'. intros Hi. assert (v ∈ affected s ++ [u]) as Hva by by eapply list_elem_of_lookup_2.
    rewrite Hp2 by done. apply lookup_app_Some in Hi as [Hi|[Hlen' Hi]].
    + destruct (si_order _ Hs i v Hi) as [?|(w & Hw & Hin)]; [by left|right]. exists w. split; [done|].
      rewrite take_app_le; [done|]. apply lookup_lt_Some in Hi. lia.
    + apply list_lookup_singleton_Some in Hi as [_ <-]. destruct Hup as [?|[w Hw]]; [by left|right].
      exists w. split; [done|]. rewrite take_app_ge by done. apply elem_of_app. left. by apply (si_parent _ Hs) in Hw as [??].
  - intros v. rewrite Ha', elem_of_app, list_elem_of_singleton. intros [?| ->]; [by apply (si_within _ Hs)|done].
  - intros v Hv. apply Hst' in Hv as [Hv|(Hvs & Hw & Hna)].
    + destruct (si_stack _ Hs v) as [? Hvp]; [rewrite Hst; by right|]. split; [done|].
      destruct Hvp as [?|?]; [by left|right; apply Hp3; by left].
    + split; [done|right; apply Hp3; by right].
  - intros w v. rewrite Ha', elem_of_app, list_elem_of_singleton, Hst'. intros Hw Hv Hwi.
    destruct (decide (v ∈ affected s ++ [u])) as [Hin|Hin]; [by left|right].
    destruct Hw as [Hw| ->]; [|by right].
    destruct (si_closed _ Hs w v Hw Hv Hwi) as [?|Hvs]; [set_solver|]. rewrite Hst in Hvs.
    apply elem_of_cons in Hvs as [->|?]; [set_solver|by left].
  - rewrite Ha', elem_of_app, list_elem_of_singleton, Hst'. destruct (si_start _ Hs) as [?|Hy]; [auto|].
    rewrite Hst in Hy. apply elem_of_cons in Hy as [->|?]; auto.
  - rewrite Ha', elem_of_app, list_elem_of_singleton. intros [?| ->]; [by apply (si_target _ Hs)|done].
Qed.

(** Popping a node that was visited before. *)
Lemma skip_inv s u rest : search_inv s → stack s = u :: rest → u ∈ affected s →
  search_inv {| stack := rest; parent := parent s; visited := visited s;
                affected := affected s; visited_cnt := visited_cnt s |}.
Proof.
  intros [] Hst Hu. rewrite Hst in *. split; simpl; try done.
  - intros v Hv. apply si_stack0. by right.
  - intros w v Hw Hv Hwi. destruct (si_closed0 w v Hw Hv Hwi) as [?|[->|?]%elem_of_cons]; auto.
  - destruct si_start0 as [?|[->|?]%elem_of_cons]; auto.
Qed.

(** The successors of the nodes that are not visited yet. *)
Definition degree (u : N) : nat := length (successors u).
Definition unvisited_successors (a : list N) : nat :=
  sum_list_with degree (filter (.∉ a) (order t)).

Lemma unvisited_visit u a : u ∈ order t → NoDup (order t) → u ∉ a →
  unvisited_successors (a ++ [u]) + degree u = unvisited_successors a.
Proof.
  intros Hu Hnd Ha. unfold unvisited_successors.
  assert (Hno : ∀ l : list N, u ∉ l → filter (.∉ a ++ [u]) l = filter (.∉ a) l).
  { induction l as [|v l IH]; [done|]. intros Hv. rewrite !filter_cons, IH by set_solver.
    by rewrite (decide_ext (v ∉ a ++ [u]) (v ∉ a)) by set_solver. }
  apply list_elem_of_split in Hu as (l1 & l2 & E). rewrite E in *.
  apply NoDup_app in Hnd as (_ & Hd & [Hu2 _]%NoDup_cons).
  assert (Hu1 : u ∉ l1) by (intros ?; by eapply Hd; [|left]).
  rewrite !filter_app, !filter_cons, !Hno by done.
  rewrite decide_False, decide_True by set_solver. rewrite !sum_list_with_app. simpl. lia.
Qed.

Definition outcome_ok (s' : search_end) : Prop :=
  match s' with
  | FoundCycle path => linked path ∧ head path = Some y ∧ last path = Some x
  | Exhausted a _ => (a ⊆ order t) ∧ y ∈ a ∧ x ∉ a ∧
      (∀ u v, u ∈ a → v ∈ successors u → within v → v ∈ a)
  | OverBudget => (visit_budget (cfg t) < Z.of_nat (length (order t)))%Z 
  end.

Lemma search_loop_spec fuel s : topo_wf t → x ≠ y → search_inv s →
  length (stack s) + unvisited_successors (affected s) < fuel →
  ∃ e, search_loop fuel t px x y s = Ok e ∧ outcome_ok e.
Proof.
  intros Ht Hxy. revert s. induction fuel as [|fuel IH]; intros s Hs Hf; [lia|]. cbn [search_loop].
  assert (Hin : ∀ v, within v → v ∈ order t) by (intros v (p & Hp & _); by apply (tw_dom _ Ht); eexists).
  destruct (stack s) as [|u rest] eqn:Hst.
  - eexists. split; [done|]. pose proof Hs as []. split_and!; [intros v Hv; by apply Hin, si_within0| |done|].
    + destruct si_start0 as [|Hy]; [done|]. rewrite Hst in Hy. by apply elem_of_nil in Hy.
    + intros w v Hw Hv Hwi. destruct (si_closed0 w v Hw Hv Hwi) as [|Hy]; [done|].
      rewrite Hst in Hy. by apply elem_of_nil in Hy.
  - cbn [visited]. destruct (decide (u ∈ visited s)) as [Hu|Hu]; rewrite (si_visited _ Hs) in Hu.
    { apply IH; [by eapply skip_inv|]. simpl in *. lia. }
    destruct (si_stack _ Hs u) as [Huw Hup]; [rewrite Hst; left|].
    cbn [visited_cnt affected parent stack].
    assert (Hsub : length (affected s ++ [u]) ≤ length (order t)).
    { apply submseteq_length, NoDup_submseteq.
      - apply NoDup_app. split_and!; [by apply si_nodup| |apply NoDup_singleton]. by intros v Hv ->%list_elem_of_singleton.
      - intros v [Hv| ->%list_elem_of_singleton]%elem_of_app; apply Hin; [by apply (si_within _ Hs)|done]. }
    rewrite length_app in Hsub. simpl in Hsub.
    destruct (Z.ltb_spec (visit_budget (cfg t)) (Z.of_nat (visited_cnt s + 1))) as [Hb|_].
    { eexists. split; [done|]. simpl. rewrite (si_count _ Hs) in Hb. lia. }
    destruct (decide (u = x)) as [->|Hux].
    + destruct (path_to_spec s (visited_cnt s + 1) x []) as (path & -> & Hl & Hh & Hla); [done| |done|by eexists].
      destruct Hup as [?|[w Hw]]; [done|]. right. exists w. split; [done|].
      rewrite take_ge by (rewrite (si_count _ Hs); lia). by apply (si_parent _ Hs) in Hw as [??].
    + destruct (visit_inv s u rest Hs Hst Hu Hux) as (Hs' & Ha' & Hlen).
      apply IH; [done|]. rewrite Ha'.
      pose proof (unvisited_visit u (affected s) (Hin _ Huw) (tw_nodup _ Ht) Hu) as E.
      simpl in Hf. unfold degree in E. cbn [stack] in Hlen. lia.
Qed.

End search.

(** ** Adding an edge *)

Definition edge (u v : N) : Prop := v ∈ successors u.

(** [u] stands before [v]. *)
Definition before (l : list N) (u v : N) : Prop :=
  ∃ i j, l !! i = Some u ∧ l !! j = Some v ∧ i < j.

(** The state of an order maintained for the graph: every edge between its nodes
    goes forward, and it is closed under successors. *)
Record maintained (t : @DynamicTopo N _ _) : Prop := {
  mt_wf : topo_wf t;
  mt_closed u v : u ∈ order t → edge u v → v ∈ order t;
  mt_topological : topological (order t) (order t)
}.

Lemma edge_before t u v : maintained t → u ∈ order t → edge u v → before (order t) u v.
Proof.
  intros Ht Hu Huv. pose proof (mt_closed _ Ht _ _ Hu Huv) as Hv.
  apply list_elem_of_lookup in Hv as [j Hj].
  assert (Hp : u ∈ predecessors v).
  { apply mult_elem. rewrite <- (edges_agree u v). by apply mult_elem. }
  pose proof (mt_topological _ Ht j v u Hj Hp Hu) as Hin.
  apply elem_of_take in Hin as (i & Hi & Hlt). by exists i, j.
Qed.

Lemma rtc_before t u v : maintained t → u ∈ order t → rtc edge u v → u = v ∨ before (order t) u v.
Proof.
  intros Ht Hu Huv. induction Huv as [u|u w v Huw Hwv IH]; [by left|right].
  destruct (edge_before t u w Ht Hu Huw) as (i & j & Hi & Hj & Hij).
  destruct IH as [->|(k & l & Hk & Hl & Hkl)]; [by eapply mt_closed|by exists i, j|].
  exists i, l. split_and!; [done|done|].
  pose proof (NoDup_lookup _ _ _ _ (tw_nodup _ (mt_wf _ Ht)) Hj Hk). lia.
Qed.

Lemma position_known t n i : topo_wf t → order t !! i = Some n →
  position_or_add n t = (t, Z.of_nat i).
Proof. intros Ht Hi. unfold position_or_add. by rewrite (tw_pos _ Ht i n Hi). Qed.

(** An exhausted search has not missed a path. *)
Lemma exhausted_no_path t i x y a c : maintained t → order t !! i = Some x →
  outcome_ok t (Z.of_nat i) x y (Exhausted a c) → ¬ rtc edge y x.
Proof.
  intros Ht Hi (Hsub & Hy & Hx & Hcl) Hp. apply Hx. revert Hy.
  induction Hp as [|u w v Huw Hwv IH]; [done|]. intros Hu. apply IH; [done..|].
  apply (Hcl u w Hu Huw). pose proof (mt_closed _ Ht _ _ (Hsub _ Hu) Huw) as Hw.
  destruct (rtc_before t w v Ht Hw Hwv) as [->|(k & l & Hk & Hl & Hkl)].
  - exists (Z.of_nat i). split; [by apply tw_pos; [apply mt_wf|]|done].
  - exists (Z.of_nat k). split; [by apply tw_pos; [apply mt_wf|]|].
    pose proof (NoDup_lookup _ _ _ _ (tw_nodup _ (mt_wf _ Ht)) Hl Hi). lia.
Qed.

Lemma linked_rtc l u v : linked l → head l = Some u → last l = Some v → rtc edge u v.
Proof.
  revert u. induction l as [|a [|b l] IH]; intros u Hl Hh Hla; [done| |].
  - simpl in *. simplify_eq. done.
  - destruct Hl as [Hab Hl]. injection Hh as <-. eapply rtc_l; [exact Hab|]. by apply IH.
Qed.

Lemma filter_nil_excluded (l : list N) : filter (.∉ []) l = l.
Proof. induction l as [|u l IH]; [done|]. rewrite filter_cons_True, IH; [done|]. apply not_elem_of_nil. Qed.

(** C29: on a maintained order, adding an edge terminates without running out of
    budget when the budget covers the nodes.  It is rejected exactly when it closes a
    cycle, with the path from its target back to its source; otherwise the order is a
    permutation of the old one in which the source stands before the target. *)
Theorem try_add_edge_correct t x y depth : maintained t → x ∈ order t → y ∈ order t →
  (Z.of_nat (length (order t)) ≤ visit_budget (cfg t))%Z →
  match try_add_edge depth x y t with
  | (t', Ok _) => topo_wf t' ∧ order t' ≡ₚ order t ∧ before (order t') x y ∧ ¬ rtc edge y x
  | (t', Err path) => t' = t ∧ rtc edge y x ∧
      (x ≠ y → linked path ∧ head path = Some y ∧ last path = Some x)
  | (_, Panic) => False
  end.
Proof.
  intros Ht Hx Hy Hb. pose proof (mt_wf _ Ht) as Hwf.
  assert (Hcase : try_add_edge depth x y t =
    if decide (x = y) then (t, Err [x; y])
    else
      let '(t, px) := position_or_add x t in
      let '(t, py) := position_or_add y t in
      if bool_decide (px < py)%Z then (t, Ok default_stats)
      else
        match search_loop (search_fuel t) t px x y (start_search y) with
        | Ok (FoundCycle path) => (t, Err path)
        | Ok OverBudget =>
            match depth, rebuild_full t with
            | S depth, Ok t => try_add_edge depth x y
                {| pos := pos t; order := order t; op_count := op_count t + 1; cfg := cfg t |}
            | _, _ => (t, Panic)
            end
        | Ok (Exhausted affected visited_cnt) =>
            let '(t, relabeled) := splice_after (Z.to_nat px) affected t in
            match count_op t with
            | Ok t => (t, Ok {| relabeled := relabeled; dfs_visited := visited_cnt |})
            | _ => (t, Panic)
            end
        | _ => (t, Panic)
        end) by by destruct depth.
  rewrite Hcase. clear Hcase. destruct (decide (x = y)) as [->|Hxy].
  { split_and!; [done|done|by intros []]. }
  apply list_elem_of_lookup in Hx as [i Hi]. apply list_elem_of_lookup in Hy as [j Hj].
  rewrite (position_known t x i), (position_known t y j) by done. case_bool_decide as Hlt.
  { split_and!; [done|done|exists i, j; split_and!; [done|done|lia]|]. intros Hp.
    destruct (rtc_before t y x Ht (list_elem_of_lookup_2 _ _ _ Hj) Hp) as [?|(k & l & Hk & Hl & Hkl)]; [congruence|].
    pose proof (NoDup_lookup _ _ _ _ (tw_nodup _ Hwf) Hk Hj).
    pose proof (NoDup_lookup _ _ _ _ (tw_nodup _ Hwf) Hl Hi). lia. }
  assert (Hyw : within t (Z.of_nat i) y) by (exists (Z.of_nat j); split; [by apply tw_pos|lia]).
  destruct (search_loop_spec t (Z.of_nat i) x y (search_fuel t) (start_search y)) as (e & -> & He).
  { done. } { done. } { by apply start_inv. }
  { unfold search_fuel, unvisited_successors. simpl. rewrite filter_nil_excluded.
    change (λ u : N, length (successors u)) with degree. lia. }
  destruct e as [|path|a c]; [simpl in He; lia|..].
  - destruct He as (Hl & Hh & Hla). split_and!; [done|by eapply linked_rtc|done].
  - pose proof (exhausted_no_path t i x y a c Ht Hi He) as Hno. destruct He as (Hsub & Hya & Hxa & _).
    rewrite Nat2Z.id. pose proof (splice_spec t i a x y Hwf Hi Hxa Hya (list_elem_of_lookup_2 _ _ _ Hj)) as Hsp.
    destruct (splice_after i a t) as [t1 r]. simpl in Hsp. destruct Hsp as (Hwf1 & Hp1 & Hbf).
    destruct (count_op_spec t1 Hwf1) as (t2 & -> & Hwf2 & Ho2). rewrite Ho2. by split_and!.
Qed.

End topo.

(** ** Concrete orders *)

Lemma new_topo_wf {N} `{Countable N} `{!NodeOrd N} (nodes : list N) cfg :
  NoDup nodes → (Z.of_nat (length nodes) ≤ u32_max)%Z → topo_wf (Topo.new nodes cfg).
Proof.
  intros Hnd Hl. pose proof (merge_sort_Permutation node_le nodes) as Hp.
  apply (numbered_wf _ ∅ (Topo.new nodes cfg)); [by rewrite Hp|by rewrite Hp|].
  intros n [? Hn]. by rewrite lookup_empty in Hn.
Qed.

Definition three : @DynamicTopo Z _ _ := Topo.new [1; 2; 3]%Z default_config.

Lemma three_wf : topo_wf three.
Proof. apply new_topo_wf; [by repeat constructor; set_solver|done]. Qed.

(** The order 1, 2, 3 is maintained for an edge from 1 to 3. *)
Lemma three_maintained : maintained (G := edge_graph [(1, 3)]%Z) three.
Proof.
  split; [apply three_wf| |].
  - intros u v Hu Huv. unfold edge in Huv. simpl in Huv. rewrite filter_cons in Huv.
    simpl in Huv. case_decide; [|by apply elem_of_nil in Huv].
    apply list_elem_of_singleton in Huv as ->. vm_compute. repeat constructor.
  - intros i n p Hi Hp _. change (order three) with [1; 2; 3]%Z in *.
    destruct i as [|[|[|i]]]; simpl in Hi; simplify_eq; vm_compute in Hp;
      try (by apply elem_of_nil in Hp). vm_compute. set_solver.
Qed.

(** The splice can break the order: with 1, 2, 3 maintained for the edge from 1
    to 3, adding the edge from 2 to 1 succeeds and leaves 3 before 1. *)
Lemma splice_breaks_order :
  let G := edge_graph [(1, 3)]%Z in
  maintained three ∧
  (∃ stats, (try_add_edge 0 2 1 three)%Z.2 = Ok stats) ∧
  before (order (try_add_edge 0 2 1 three)%Z.1) 3%Z 1%Z ∧ edge 1%Z 3%Z.
Proof.
  split_and!; [apply three_maintained|by eexists; vm_compute|exists 1, 2; by vm_compute|vm_compute; left].
Qed.

Definition pair_of (k : Z) : @DynamicTopo Z _ _ := {|
  pos := number_from 0 [1; 2]%Z ∅; order := [1; 2]%Z; op_count := k;
  cfg := {| visit_budget := 0; compaction_interval_ops := 100000 |} |}.

(** The self-call after a rebuild is not bounded: when the budget is spent again
    after the rebuild, no depth of recursion is enough. *)
Lemma try_add_edge_recursion depth k :
  let G := edge_graph [] in (try_add_edge depth 2 1 (pair_of k))%Z.2 = Panic.
Proof.
  cbv zeta. set (G := edge_graph []). revert k.
  assert (Hs : ∀ k, search_loop (search_fuel (pair_of k)) (pair_of k) 1 2%Z 1%Z (start_search 1%Z) = Ok OverBudget)
    by (intros k; reflexivity).
  assert (Hr : ∀ k, rebuild_full (pair_of k) = Ok (pair_of k)) by (intros k; reflexivity).
  induction depth as [|depth IH]; intros k; cbn [try_add_edge].
  all: destruct (decide (2 = 1)%Z); [done|].
  all: change (position_or_add 2%Z (pair_of k)) with (pair_of k, 1%Z).
  all: cbv beta iota; change (position_or_add 1%Z (pair_of k)) with (pair_of k, 0%Z); cbv beta iota.
  all: change (bool_decide (1 < 0)%Z) with false; cbv beta iota; rewrite Hs.
  { done. }
  rewrite Hr. apply (IH (k + 1)%Z).
Qed.

(** ** The hypotheses of the theorems hold *)

Definition small_graph : GraphView Z := edge_graph [(3, 1); (1, 2)]%Z.

Lemma small_acyclic : acyclic_on (G := small_graph) [1; 2; 3]%Z.
Proof.
  exists (λ n, if decide (n = 3)%Z then 0 else if decide (n = 1)%Z then 1 else 2).
  intros n p Hn _ Hp. rewrite !elem_of_cons in Hn.
  destruct Hn as [-> | [-> | [-> | Hn]]]; [..|by apply elem_of_nil in Hn]; vm_compute in Hp.
  - apply list_elem_of_singleton in Hp as ->. vm_compute. lia.
  - apply list_elem_of_singleton in Hp as ->. vm_compute. lia.
  - by apply elem_of_nil in Hp.
Qed.

Lemma rebuild_full_topological_witness :
  ∃ t', rebuild_full (G := small_graph) three = Ok t' ∧ topological (G := small_graph) [1; 2; 3]%Z (order t').
Proof.
  destruct (rebuild_full_topological (G := small_graph) three three_wf) as (t' & H & _ & _ & Ht).
  exists t'. split; [exact H|]. exact (Ht small_acyclic).
Defined.

Lemma layers_for_correct_witness :
  ∃ layers, layers_for (G := small_graph) [2; 1; 3]%Z (Some 1) three = Ok layers ∧ concat layers ≡ₚ [2; 1; 3]%Z.
Proof.
  destruct (layers_for_correct (G := small_graph) three [2; 1; 3]%Z (Some 1))
    as (layers & H & _ & _ & _ & _ & Hp).
  - repeat constructor; set_solver.
  - intros n Hn. rewrite !elem_of_cons in Hn.
    destruct Hn as [-> | [-> | [-> | Hn]]]; [..|by apply elem_of_nil in Hn]; by eexists.
  - discriminate.
  - exists layers. split; [exact H|]. apply Hp. destruct small_acyclic as [rank Hr]. exists rank.
    intros n p Hn Hp'. apply Hr; set_solver.
Defined.

Lemma try_add_edge_correct_witness :
  let G := edge_graph [(1, 3)]%Z in
  match try_add_edge 0 3%Z 1%Z three with (_, Err path) => rtc edge 1%Z 3%Z | _ => False end.
Proof.
  cbv zeta. pose proof (try_add_edge_correct (G := edge_graph [(1, 3)]%Z) three 3%Z 1%Z 0 three_maintained) as H.
  assert (E : (try_add_edge (G := edge_graph [(1, 3)]%Z) 0 3%Z 1%Z three).2 = Err [1; 3]%Z) by (vm_compute; reflexivity).
  destruct (try_add_edge 0 3%Z 1%Z three) as [t' [s|path|]]; [discriminate E| |discriminate E].
  apply H; [vm_compute; repeat constructor..|vm_compute; discriminate].
Defined.
