(* ===== verification/Geom.v ===== *)
(** Rectangles and exact cell covers
    ([crates/formualizer-eval/src/engine/authority/geom.rs]).

    A [BTreeMap<u32, u32>] of intervals is the list of its entries in key
    order.  Coordinates are [u32]s. *)
From S2P Require Import Prelude.

(** * [Rect] *)

Record Rect : Type := { r0 : Z; c0 : Z; r1 : Z; c1 : Z }.
#[export] Instance Rect_eq_dec : EqDecision Rect.
Proof. solve_decision. Defined.

(** [Rect::new], whose [debug_assert!] is [rect_ok]. *)
Definition rect_new (r0 c0 r1 c1 : Z) : Rect := {| r0 := r0; c0 := c0; r1 := r1; c1 := c1 |}.
Definition rect_ok (r : Rect) : Prop :=
  (0 ≤ r0 r ≤ r1 r ∧ r1 r ≤ u32_max ∧ 0 ≤ c0 r ≤ c1 r ∧ c1 r ≤ u32_max)%Z.

Definition cell (r c : Z) : Rect := rect_new r c r c.
Definition is_cell (s : Rect) : bool := (r0 s =? r1 s)%Z && (c0 s =? c1 s)%Z.
Definition height (s : Rect) : Z := (r1 s - r0 s + 1)%Z.
Definition width (s : Rect) : Z := (c1 s - c0 s + 1)%Z.
Definition area (s : Rect) : Z := (height s * width s)%Z.

Definition rect_contains (s : Rect) (r c : Z) : bool :=
  (r0 s <=? r)%Z && (r <=? r1 s)%Z && (c0 s <=? c)%Z && (c <=? c1 s)%Z.
Definition contains_rect (s o : Rect) : bool :=
  (r0 s <=? r0 o)%Z && (r1 o <=? r1 s)%Z && (c0 s <=? c0 o)%Z && (c1 o <=? c1 s)%Z.
Definition intersects (s o : Rect) : bool :=
  (r0 s <=? r1 o)%Z && (r0 o <=? r1 s)%Z && (c0 s <=? c1 o)%Z && (c0 o <=? c1 s)%Z.

Definition intersect (s o : Rect) : option Rect :=
  let r0' := Z.max (r0 s) (r0 o) in
  let r1' := Z.min (r1 s) (r1 o) in
  let c0' := Z.max (c0 s) (c0 o) in
  let c1' := Z.min (c1 s) (c1 o) in
  if (r0' <=? r1')%Z && (c0' <=? c1')%Z then Some (rect_new r0' c0' r1' c1') else None.

(** [Pieces] is an inline array of four: a fifth push is out of bounds. *)
Definition subtract (s q : Rect) : list Rect :=
  match intersect s q with
  | None => [s]
  | Some i =>
      (if (c0 s <? c0 i)%Z then [rect_new (r0 s) (c0 s) (r1 s) (c0 i - 1)] else [])
      ++ (if (c1 i <? c1 s)%Z then [rect_new (r0 s) (c1 i + 1) (r1 s) (c1 s)] else [])
      ++ (if (r0 s <? r0 i)%Z then [rect_new (r0 s) (c0 i) (r0 i - 1) (c1 i)] else [])
      ++ (if (r1 i <? r1 s)%Z then [rect_new (r1 i + 1) (c0 i) (r1 s) (c1 i)] else [])
  end.

Definition subtract_count (s q : Rect) : nat :=
  match intersect s q with
  | None => 1
  | Some i =>
      Nat.b2n (c0 s <? c0 i)%Z + Nat.b2n (c1 i <? c1 s)%Z
      + Nat.b2n (r0 s <? r0 i)%Z + Nat.b2n (r1 i <? r1 s)%Z
  end.

(** * [IntervalSet] *)

Module IntervalSet.

(** The entries [start -> end], in the order of their starts. *)
Abbreviation t := (list (Z * Z)).

(** [BTreeMap::insert] and [BTreeMap::remove]. *)
Definition map_insert (k v : Z) (iv : t) : t :=
  filter (λ p, (p.1 < k)%Z) iv ++ (k, v) :: filter (λ p, (k < p.1)%Z) iv.
Definition map_remove (k : Z) (iv : t) : t := filter (λ p, p.1 ≠ k) iv.

(** [range(..=a).next_back()], [range(..a).next_back()], [range(a..)]. *)
Definition last_upto (a : Z) (iv : t) : option (Z * Z) := last (filter (λ p, (p.1 ≤ a)%Z) iv).
Definition last_below (a : Z) (iv : t) : option (Z * Z) := last (filter (λ p, (p.1 < a)%Z) iv).
Definition from (a : Z) (iv : t) : t := filter (λ p, (a ≤ p.1)%Z) iv.

Definition is_empty (iv : t) : bool := bool_decide (iv = []).

Definition contains (iv : t) (r : Z) : bool :=
  match last_upto r iv with Some (_, e) => (r <=? e)%Z | None => false end.

Definition cell_count (iv : t) : Z := foldr (λ p n, (p.2 - p.1 + 1 + n)%Z) 0%Z iv.

(** The loop of [insert]: the next interval from [a] on that overlaps or
    touches [a..b] is taken out and merged. *)
Fixpoint merge_from (fuel : nat) (a b : Z) (iv : t) : result Empty_set (Z * t) :=
  match head (from a iv) with
  | Some (s, e) =>
      if (s <=? saturating_add b 1)%Z then
        match fuel with
        | O => Panic
        | S fuel => merge_from fuel a (Z.max b e) (map_remove s iv)
        end
      else Ok (b, iv)
  | None => Ok (b, iv)
  end.

Definition insert (a b : Z) (iv : t) : result Empty_set t :=
  let '(a, b) :=
    match last_upto a iv with
    | Some (s, e) => if (a <=? saturating_add e 1)%Z then (s, Z.max b e) else (a, b)
    | None => (a, b)
    end in
  '(b, iv) ← merge_from (length iv) a b iv;
  Ok (map_insert a b iv).

(** The loop of [missing] over the intervals from [cur] on. *)
Fixpoint missing_loop (cur b : Z) (l : t) : list (Z * Z) :=
  match l with
  | [] => [(cur, b)]
  | (s, e) :: l =>
      if (b <? s)%Z then [(cur, b)]
      else
        (if (cur <? s)%Z then [(cur, (s - 1)%Z)] else [])
        ++ (if (b <=? e)%Z then [] else missing_loop (e + 1) b l)
  end.

Definition missing (iv : t) (a b : Z) : list (Z * Z) :=
  match last_upto a iv with
  | Some (_, e) =>
      if (a <=? e)%Z then
        if (b <=? e)%Z then [] else missing_loop (e + 1) b (from (e + 1) iv)
      else missing_loop a b (from a iv)
  | None => missing_loop a b (from a iv)
  end.

Definition remove_hit (a b : Z) (iv : t) (hit : Z * Z) : t :=
  let '(s, e) := hit in
  let iv := map_remove s iv in
  let iv := if (s <? a)%Z then map_insert s (a - 1) iv else iv in
  if (b <? e)%Z then map_insert (b + 1) e iv else iv.

Definition hits (a b : Z) (iv : t) : list (Z * Z) :=
  match last_below a iv with
  | Some (s, e) => if (a <=? e)%Z then [(s, e)] else []
  | None => []
  end ++ filter (λ p, (a ≤ p.1 ≤ b)%Z) iv.

Definition remove (a b : Z) (iv : t) : t := fold_left (remove_hit a b) (hits a b iv) iv.

End IntervalSet.

(** * [Cover] *)

Module Cover.

(** A [BTreeMap] keyed by sheet and column. *)
Abbreviation t := (gmap (Z * Z) IntervalSet.t).

Definition new : t := ∅.
Definition is_empty (cv : t) : bool := bool_decide (cv = ∅).
Definition clear (cv : t) : t := ∅.

Definition contains (cv : t) (sheet row col : Z) : bool :=
  match cv !! (sheet, col) with
  | Some s => IntervalSet.contains s row
  | None => false
  end.

(** The columns [r.c0..=r.c1]. *)
Definition columns (r : Rect) : list Z := seqZ (c0 r) (c1 r - c0 r + 1).

Definition insert_column (sheet : Z) (r : Rect) (cv : t) (c : Z) : result Empty_set t :=
  set ← IntervalSet.insert (r0 r) (r1 r) (default [] (cv !! (sheet, c)));
  Ok (<[(sheet, c) := set]> cv).

Fixpoint fold_columns {A} (f : A → Z → result Empty_set A) (cols : list Z) (acc : A) : result Empty_set A :=
  match cols with
  | [] => Ok acc
  | c :: cols => acc ← f acc c; fold_columns f cols acc
  end.

Definition insert_rect (sheet : Z) (r : Rect) (cv : t) : result Empty_set t :=
  fold_columns (insert_column sheet r) (columns r) cv.

Definition remove_column (sheet : Z) (r : Rect) (cv : t) (c : Z) : t :=
  match cv !! (sheet, c) with
  | Some s =>
      let s := IntervalSet.remove (r0 r) (r1 r) s in
      if IntervalSet.is_empty s then delete (sheet, c) cv else <[(sheet, c) := s]> cv
  | None => cv
  end.
Definition remove_rect (sheet : Z) (r : Rect) (cv : t) : t :=
  fold_left (remove_column sheet r) (columns r) cv.

Definition insert_column_fresh (sheet : Z) (r : Rect) (acc : t * list (Z * Rect)) (c : Z)
  : result Empty_set (t * list (Z * Rect)) :=
  let '(cv, fresh) := acc in
  let set := default [] (cv !! (sheet, c)) in
  let miss := IntervalSet.missing set (r0 r) (r1 r) in
  set ← IntervalSet.insert (r0 r) (r1 r) set;
  Ok (<[(sheet, c) := set]> cv, fresh ++ ((λ '(a, b), (sheet, rect_new a c b c)) <$> miss)).
Definition insert_rect_fresh (sheet : Z) (r : Rect) (cv : t) (fresh : list (Z * Rect))
  : result Empty_set (t * list (Z * Rect)) :=
  fold_columns (insert_column_fresh sheet r) (columns r) (cv, fresh).

Definition missing_in (cv : t) (sheet col a b : Z) : list (Z * Z) :=
  match cv !! (sheet, col) with
  | Some set => IntervalSet.missing set a b
  | None => [(a, b)]
  end.

(** Whether the column [c] of the cover meets the rows of [r]. *)
Definition column_meets (cv : t) (sheet : Z) (r : Rect) (c : Z) : bool :=
  match cv !! (sheet, c) with
  | Some s => (IntervalSet.cell_count (IntervalSet.missing s (r0 r) (r1 r)) <? height r)%Z
  | None => false
  end.
Definition intersects_rect (cv : t) (sheet : Z) (r : Rect) : bool :=
  existsb (column_meets cv sheet r) (columns r).

Definition cell_count (cv : t) : Z :=
  foldr (λ kv n, (IntervalSet.cell_count kv.2 + n)%Z) 0%Z (map_to_list cv).

End Cover.
