(* ===== verification/GeomTheorems.v ===== *)
(** Rectangle subtraction is exact and disjoint; interval sets are canonical
    and their operations are those of sets of rows; covers are sets of cells. *)
From S2P Require Import Prelude Geom.

(** * Rectangles *)

Definition in_rect (s : Rect) (r c : Z) : Prop := rect_contains s r c = true.

Lemma in_rect_spec s r c : in_rect s r c ↔ (r0 s ≤ r ≤ r1 s ∧ c0 s ≤ c ≤ c1 s)%Z.
Proof. unfold in_rect, rect_contains. bool_prop. lia. Qed.

Lemma intersect_spec s q : rect_ok s → rect_ok q →
  match intersect s q with
  | Some i => rect_ok i ∧ ∀ r c, in_rect i r c ↔ in_rect s r c ∧ in_rect q r c
  | None => ∀ r c, in_rect s r c → in_rect q r c → False
  end.
Proof.
  intros Hs Hq. unfold intersect, rect_ok in *.
  destruct (_ <=? _)%Z eqn:E1, (_ <=? _)%Z eqn:E2 in |- *; simpl;
    rewrite ?Z.leb_le, ?Z.leb_gt in *; setoid_rewrite in_rect_spec; simpl; [split|..]; lia.
Qed.

Lemma intersects_spec s q : rect_ok s → rect_ok q →
  intersects s q = true ↔ ∃ r c, in_rect s r c ∧ in_rect q r c.
Proof.
  intros Hs Hq. unfold intersects, rect_ok in *. bool_prop. setoid_rewrite in_rect_spec.
  split; [|intros (r & c & ?); lia].
  intros ?. exists (Z.max (r0 s) (r0 q)), (Z.max (c0 s) (c0 q)). lia.
Qed.

Definition apart_rects (p q : Rect) : Prop := ∀ r c, in_rect p r c → in_rect q r c → False.

(** No cell is in two rectangles of the list. *)
Fixpoint disjoint_rects (l : list Rect) : Prop :=
  match l with
  | [] => True
  | p :: l => Forall (apart_rects p) l ∧ disjoint_rects l
  end.

Section cut.
(** [i], inside [s], is what is cut out. *)
Context (s i : Rect) (Hs : rect_ok s)
  (Hi : (r0 s ≤ r0 i ≤ r1 i ∧ r1 i ≤ r1 s ∧ c0 s ≤ c0 i ≤ c1 i ∧ c1 i ≤ c1 s)%Z).

Definition strips : list Rect :=
  (if (c0 s <? c0 i)%Z then [rect_new (r0 s) (c0 s) (r1 s) (c0 i - 1)] else [])
  ++ (if (c1 i <? c1 s)%Z then [rect_new (r0 s) (c1 i + 1) (r1 s) (c1 s)] else [])
  ++ (if (r0 s <? r0 i)%Z then [rect_new (r0 s) (c0 i) (r0 i - 1) (c1 i)] else [])
  ++ (if (r1 i <? r1 s)%Z then [rect_new (r1 i + 1) (c0 i) (r1 s) (c1 i)] else []).

Lemma strips_ok : Forall rect_ok strips.
Proof.
  apply Forall_forall. intros p. unfold strips, rect_ok in *. rewrite !elem_of_app, !elem_if, !Z.ltb_lt.
  intros [[? ->]|[[? ->]|[[? ->]|[? ->]]]]; simpl; lia.
Qed.

Lemma strips_cells r c : (∃ p, p ∈ strips ∧ in_rect p r c) ↔ in_rect s r c ∧ ¬ in_rect i r c.
Proof.
  setoid_rewrite in_rect_spec. unfold strips. setoid_rewrite elem_of_app. setoid_rewrite elem_of_app.
  setoid_rewrite elem_of_app. setoid_rewrite elem_if. setoid_rewrite Z.ltb_lt. split.
  - intros (p & [[? ->]|[[? ->]|[[? ->]|[? ->]]]] & ?); simpl in *; lia.
  - intros [? Hn]. destruct (Z_lt_dec c (c0 i)); [eexists; split; [left; split; [lia|done]|simpl; lia]|].
    destruct (Z_lt_dec (c1 i) c); [eexists; split; [right; left; split; [lia|done]|simpl; lia]|].
    destruct (Z_lt_dec r (r0 i)); [eexists; split; [right; right; left; split; [lia|done]|simpl; lia]|].
    eexists; split; [right; right; right; split; [lia|done]|simpl; lia].
Qed.

Lemma strips_disjoint : disjoint_rects strips.
Proof.
  unfold strips. destruct (_ <? _)%Z, (_ <? _)%Z, (_ <? _)%Z, (_ <? _)%Z; simpl;
    repeat split; repeat constructor; intros r c; rewrite !in_rect_spec; simpl; lia.
Qed.
End cut.

(** C36: subtracting a rectangle yields at most four proper rectangles (as many as
    [subtract_count] says), no cell is in two of them, and they hold exactly the
    cells of the first rectangle that are not in the second. *)
Theorem subtract_exact s q : rect_ok s → rect_ok q →
  length (subtract s q) = subtract_count s q ∧ length (subtract s q) ≤ 4 ∧
  Forall rect_ok (subtract s q) ∧ disjoint_rects (subtract s q) ∧
  (∀ r c, (∃ p, p ∈ subtract s q ∧ in_rect p r c) ↔ in_rect s r c ∧ ¬ in_rect q r c).
Proof.
  intros Hs Hq. pose proof (intersect_spec s q Hs Hq) as Hi. unfold subtract_count.
  destruct (intersect s q) as [i|] eqn:E.
  - destruct Hi as [Hok Hi].
    assert (Hin : (r0 s ≤ r0 i ≤ r1 i ∧ r1 i ≤ r1 s ∧ c0 s ≤ c0 i ≤ c1 i ∧ c1 i ≤ c1 s)%Z).
    { unfold rect_ok in *. pose proof (proj1 (Hi (r0 i) (c0 i))) as H1. pose proof (proj1 (Hi (r1 i) (c1 i))) as H2.
      rewrite !in_rect_spec in H1, H2. lia. }
    replace (subtract s q) with (strips s i) by (unfold subtract; by rewrite E).
    split_and!; [| |by apply strips_ok|by apply strips_disjoint|].
    + unfold strips. rewrite !length_app. by repeat (destruct (_ <? _)%Z).
    + unfold strips. rewrite !length_app. repeat (destruct (_ <? _)%Z); simpl; lia.
    + intros r c. rewrite strips_cells, Hi by done. tauto.
  - unfold subtract. rewrite E. split_and!; [done|simpl; lia|by constructor|done|].
    intros r c. setoid_rewrite list_elem_of_singleton. naive_solver.
Qed.

Lemma subtract_exact_witness :
  rect_ok (rect_new 2 2 8 6) ∧ length (subtract (rect_new 2 2 8 6) (rect_new 4 3 5 4)) = 4.
Proof.
  assert (H : ∀ a b c d, (0 ≤ a ≤ c ∧ c ≤ 100 ∧ 0 ≤ b ≤ d ∧ d ≤ 100)%Z → rect_ok (rect_new a b c d)).
  { intros. unfold rect_ok, u32_max. simpl. lia. }
  split; [apply H; lia|].
  destruct (subtract_exact (rect_new 2 2 8 6) (rect_new 4 3 5 4)) as [-> _]; [apply H; lia..|reflexivity].
Defined.

(** * Interval sets *)

Section interval_sets.
Import IntervalSet.
Local Open Scope Z_scope.

(** [p] ends at least one row before [q] starts. *)
Definition gap (p q : Z * Z) : Prop := p.2 + 1 < q.1.

(** The entries are proper, in order, disjoint and not adjacent. *)
Record canon (iv : t) : Prop := {
  canon_sorted : StronglySorted gap iv;
  canon_proper : Forall (λ p, 0 ≤ p.1 ≤ p.2 ∧ p.2 ≤ u32_max) iv
}.

(** The rows of the set. *)
Definition covers (iv : t) (r : Z) : Prop := ∃ p, p ∈ iv ∧ p.1 ≤ r ≤ p.2.

Lemma canon_nil : canon [].
Proof. split; constructor. Qed.

Lemma canon_in iv p : canon iv → p ∈ iv → 0 ≤ p.1 ≤ p.2 ∧ p.2 ≤ u32_max.
Proof. intros [_ Hp] Hin. rewrite Forall_forall in Hp. by apply Hp. Qed.

Lemma canon_filter (P : Z * Z → Prop) `{∀ x, Decision (P x)} iv : canon iv → canon (filter P iv).
Proof.
  intros [Hs Hp]. split; [by apply sorted_filter|]. rewrite Forall_forall in Hp.
  apply Forall_forall. intros p [_ Hin]%list_elem_of_filter. by apply Hp.
Qed.

Lemma sorted_apart iv p q : canon iv → p ∈ iv → q ∈ iv → p = q ∨ gap p q ∨ gap q p.
Proof.
  intros [Hs _]. induction Hs as [|x l Hs IH Hall]; [by intros ?%elem_of_nil|].
  rewrite Forall_forall in Hall.
  intros [->|Hp]%elem_of_cons [->|Hq]%elem_of_cons; auto.
Qed.

Lemma last_filter_Some (P : Z * Z → Prop) `{∀ x, Decision (P x)} iv p : canon iv →
  last (filter P iv) = Some p → p ∈ iv ∧ P p ∧ ∀ q, q ∈ iv → P q → q = p ∨ gap q p.
Proof.
  intros Hc Hl. pose proof (canon_sorted _ (canon_filter P iv Hc)) as Hs.
  apply last_Some in Hl as [l Hl].
  assert (Hp : p ∈ filter P iv) by (rewrite Hl; set_solver). apply list_elem_of_filter in Hp as [??].
  split_and!; [done|done|]. intros q Hq HPq.
  assert (Hq' : q ∈ filter P iv) by by apply list_elem_of_filter. rewrite Hl in Hs, Hq'.
  apply elem_of_app in Hq' as [Hq'| ->%list_elem_of_singleton]; [right|by left].
  apply StronglySorted_app in Hs as (Hall & _). apply Hall; [done|by left].
Qed.

Lemma last_filter_None (P : Z * Z → Prop) `{∀ x, Decision (P x)} (iv : t) :
  last (filter P iv) = None → ∀ q, q ∈ iv → ¬ P q.
Proof.
  intros Hl%last_None q Hq HP.
  assert (Hq' : q ∈ filter P iv) by by apply list_elem_of_filter. rewrite Hl in Hq'. by apply elem_of_nil in Hq'.
Qed.

Lemma head_filter_Some (P : Z * Z → Prop) `{∀ x, Decision (P x)} iv p : canon iv →
  head (filter P iv) = Some p → p ∈ iv ∧ P p ∧ ∀ q, q ∈ iv → P q → q = p ∨ gap p q.
Proof.
  intros Hc Hh. pose proof (canon_sorted _ (canon_filter P iv Hc)) as Hs.
  destruct (filter P iv) as [|p' l] eqn:E; [done|]. injection Hh as ->.
  assert (Hp : p ∈ filter P iv) by (rewrite E; left). apply list_elem_of_filter in Hp as [??].
  split_and!; [done|done|]. intros q Hq HPq.
  assert (Hq' : q ∈ filter P iv) by by apply list_elem_of_filter. rewrite E in Hq'.
  inversion_clear Hs as [|? ? _ Hall]. rewrite Forall_forall in Hall.
  apply elem_of_cons in Hq' as [->|?]; [by left|right; by apply Hall].
Qed.

Lemma head_filter_None (P : Z * Z → Prop) `{∀ x, Decision (P x)} (iv : t) :
  head (filter P iv) = None → ∀ q, q ∈ iv → ¬ P q.
Proof.
  intros Hl%head_None q Hq HP.
  assert (Hq' : q ∈ filter P iv) by by apply list_elem_of_filter. rewrite Hl in Hq'. by apply elem_of_nil in Hq'.
Qed.

(** ** Map operations *)

Lemma elem_of_map_insert k v iv p : p ∈ map_insert k v iv ↔ p = (k, v) ∨ (p ∈ iv ∧ p.1 ≠ k).
Proof.
  unfold map_insert. rewrite elem_of_app, elem_of_cons, !list_elem_of_filter.
  split; [intros [[? ?]|[?|[? ?]]]; [right; split; [done|lia]|by left|right; split; [done|lia]]|].
  intros [?|[? ?]]; [auto|]. destruct (Z_lt_dec p.1 k); [by left|right; right; split; [lia|done]].
Qed.

Lemma elem_of_map_remove k iv p : p ∈ map_remove k iv ↔ p ∈ iv ∧ p.1 ≠ k.
Proof. unfold map_remove. rewrite list_elem_of_filter. tauto. Qed.

Lemma map_remove_canon k iv : canon iv → canon (map_remove k iv).
Proof. apply canon_filter. Qed.

Lemma map_insert_canon k v iv : canon iv → 0 ≤ k ≤ v → v ≤ u32_max →
  (∀ p, p ∈ iv → p.1 = k ∨ gap p (k, v) ∨ gap (k, v) p) → canon (map_insert k v iv).
Proof.
  intros Hc Hk Hv Hgap. pose proof (canon_filter (λ p, p.1 < k) iv Hc) as [Hs1 Hp1].
  pose proof (canon_filter (λ p, k < p.1) iv Hc) as [Hs2 Hp2].
  assert (H1 : ∀ p, p ∈ filter (λ p, p.1 < k) iv → gap p (k, v)).
  { intros p [Hlt Hin]%list_elem_of_filter. pose proof (canon_in _ _ Hc Hin).
    destruct (Hgap p Hin) as [?|[?|Hg]]; [lia|done|unfold gap in Hg; simpl in Hg; lia]. }
  assert (H2 : ∀ p, p ∈ filter (λ p, k < p.1) iv → gap (k, v) p).
  { intros p [Hlt Hin]%list_elem_of_filter. pose proof (canon_in _ _ Hc Hin).
    destruct (Hgap p Hin) as [?|[Hg|?]]; [lia|unfold gap in Hg; simpl in Hg; lia|done]. }
  split.
  - apply StronglySorted_app_2; [|done|].
    + intros p q Hp [->|Hq]%elem_of_cons; [by apply H1|].
      specialize (H1 p Hp). specialize (H2 q Hq). unfold gap in *. simpl in *. lia.
    + constructor; [done|]. apply Forall_forall. intros q Hq. by apply H2.
  - apply Forall_app. split; [done|]. constructor; [|done]. simpl. lia.
Qed.

(** ** [contains] *)

Lemma contains_spec iv r : canon iv → contains iv r = true ↔ covers iv r.
Proof.
  intros Hc. unfold contains, last_upto, covers. destruct (last _) as [[s e]|] eqn:E.
  - apply last_filter_Some in E as (Hin & Hs & Hmax); [|done]. simpl in *. rewrite Z.leb_le. split.
    + intros ?. exists (s, e). split; [done|simpl; lia].
    + intros (p & Hp & Hr). destruct (Hmax p Hp) as [->|Hg]; [simpl; lia|simpl in *; lia|].
      unfold gap in Hg. simpl in *. lia.
  - split; [done|]. intros (p & Hp & Hr). destruct (last_filter_None _ _ E p Hp). simpl. lia.
Qed.

(** ** [insert] *)

Lemma merge_from_spec fuel a b iv : canon iv → 0 ≤ a ≤ b → b ≤ u32_max →
  (∀ p, p ∈ iv → p.1 < a → p.2 + 1 < a) → (length iv ≤ fuel)%nat →
  ∃ b' iv', merge_from fuel a b iv = Ok (b', iv') ∧ canon iv' ∧ b ≤ b' ≤ u32_max ∧
    (∀ p, p ∈ iv' → gap p (a, b') ∨ gap (a, b') p) ∧
    (∀ r, covers iv' r ∨ a ≤ r ≤ b' ↔ covers iv r ∨ a ≤ r ≤ b).
Proof.
  revert b iv. induction fuel as [|fuel IH]; intros b iv Hc Hab Hb Hlow Hlen; cbn [merge_from].
  { destruct iv; [|simpl in Hlen; lia]. simpl. exists b, []. split_and!; [done|done|lia|done| |tauto].
    by intros p ?%elem_of_nil. }
  unfold from. destruct (head _) as [[s e]|] eqn:E.
  - apply head_filter_Some in E as (Hin & Hs & Hmin); [|done]. simpl in Hs, Hmin.
    pose proof (canon_in _ _ Hc Hin) as Hse. simpl in Hse. unfold saturating_add.
    destruct (Z.leb_spec s (Z.min u32_max (b + 1))) as [Hle|Hgt].
    + destruct (IH (Z.max b e) (map_remove s iv)) as (b' & iv' & -> & Hc' & Hb' & Hgap & Hcov).
      { by apply map_remove_canon. } { lia. } { lia. }
      { intros p [Hp _]%elem_of_map_remove. by apply Hlow. }
      { enough (length (map_remove s iv) < length iv)%nat by lia.
        unfold map_remove. apply length_filter_lt with (s, e); [done|simpl; lia]. }
      exists b', iv'. split_and!; [done|done|lia|lia|done|]. intros r. rewrite Hcov. split.
      * intros [(p & [Hp _]%elem_of_map_remove & Hr)|Hr]; [left; by exists p|].
        destruct (Z_le_dec r b); [right; lia|]. left. exists (s, e). split; [done|simpl; lia].
      * intros [(p & Hp & Hr)|Hr]; [|right; lia].
        destruct (sorted_apart _ p (s, e) Hc Hp Hin) as [->|Hg].
        -- right. simpl in Hr. lia.
        -- left. exists p. split; [|done]. apply elem_of_map_remove. split; [done|].
           pose proof (canon_in _ _ Hc Hp). unfold gap in Hg. simpl in Hg. lia.
    + exists b, iv. split_and!; [done|done|lia|lia| |done]. intros p Hp.
      destruct (Z_lt_dec p.1 a) as [Hlt|Hge]; [left; unfold gap; simpl; by apply Hlow|right].
      unfold gap. simpl. pose proof (canon_in _ _ Hc Hp).
      destruct (Hmin p Hp) as [->|Hg]; [lia|simpl; lia|]. unfold gap in Hg. simpl in Hg. lia.
  - exists b, iv. split_and!; [done|done|lia|lia| |done]. intros p Hp. left. unfold gap. simpl.
    apply Hlow; [done|]. pose proof (head_filter_None _ _ E p Hp) as Hn. simpl in Hn. lia.
Qed.

Lemma insert_canon_spec a b iv : canon iv → 0 ≤ a ≤ b → b ≤ u32_max →
  ∃ iv', insert a b iv = Ok iv' ∧ canon iv' ∧ ∀ r, covers iv' r ↔ covers iv r ∨ a ≤ r ≤ b.
Proof.
  intros Hc Hab Hb. unfold insert.
  (* the interval that the merge starts from *)
  assert (Hstart : ∃ a' b', match last_upto a iv with
      | Some (s, e) => if a <=? saturating_add e 1 then (s, Z.max b e) else (a, b)
      | None => (a, b)
      end = (a', b') ∧ 0 ≤ a' ≤ b' ∧ b' ≤ u32_max ∧
      (∀ p, p ∈ iv → p.1 < a' → p.2 + 1 < a') ∧
      (∀ r, covers iv r ∨ a' ≤ r ≤ b' ↔ covers iv r ∨ a ≤ r ≤ b)).
  { unfold last_upto. destruct (last _) as [[s e]|] eqn:E.
    - apply last_filter_Some in E as (Hin & Hs & Hmax); [|done]. simpl in Hs, Hmax.
      pose proof (canon_in _ _ Hc Hin) as Hse. simpl in Hse.
      unfold saturating_add. destruct (Z.leb_spec a (Z.min u32_max (e + 1))).
      + exists s, (Z.max b e). split_and!; [done|lia|lia|lia| |].
        * intros p Hp Hlt. destruct (sorted_apart _ p (s, e) Hc Hp Hin) as [->|[Hg|Hg]].
          -- simpl in Hlt. lia.
          -- done.
          -- pose proof (canon_in _ _ Hc Hp). unfold gap in Hg. simpl in Hg. lia.
        * intros r. split; [|intros [?|?]; [by left|right; lia]]. intros [?|Hr]; [by left|].
          destruct (Z_le_dec r e); [left; exists (s, e); split; [done|simpl; lia]|right; lia].
      + exists a, b. split_and!; [done|lia|lia|lia| |done]. intros p Hp Hlt.
        destruct (Hmax p Hp) as [->|Hg]; [lia|simpl; lia|]. unfold gap in Hg. simpl in Hg. lia.
    - exists a, b. split_and!; [done|lia|lia|lia| |done]. intros p Hp Hlt.
      pose proof (last_filter_None _ _ E p Hp) as Hn. simpl in Hn. lia. }
  destruct Hstart as (a' & b' & -> & Ha' & Hb' & Hlow & Heq).
  destruct (merge_from_spec (length iv) a' b' iv Hc Ha' Hb' Hlow) as (b2 & iv' & -> & Hc' & Hb2 & Hgap & Hcov); [done|].
  cbn [mbind result_bind]. eexists. split; [done|]. split.
  - apply map_insert_canon; [done|lia|lia|]. intros p Hp. right. by apply Hgap.
  - intros r. rewrite <- Heq, <- Hcov. unfold covers. setoid_rewrite elem_of_map_insert. split.
    + intros (p & [->|[Hp _]] & Hr); [by right|left; by exists p].
    + intros [(p & Hp & Hr)|Hr]; [|exists (a', b2); split; [by left|done]].
      exists p. split; [right; split; [done|]|done]. pose proof (canon_in _ _ Hc' Hp).
      destruct (Hgap p Hp) as [Hg|Hg]; unfold gap in Hg; simpl in Hg; lia.
Qed.

(** ** [remove] *)

Lemma remove_hit_spec a b iv s e : canon iv → (s, e) ∈ iv → 0 ≤ a ≤ b → b ≤ u32_max → s ≤ b → a ≤ e →
  let iv' := remove_hit a b iv (s, e) in
  canon iv' ∧ (∀ p, p ∈ iv → p ≠ (s, e) → p ∈ iv') ∧
  (∀ r, covers iv' r ↔ covers iv r ∧ ¬ (s ≤ r ≤ e ∧ a ≤ r ≤ b)).
Proof.
  intros Hc Hin Hab Hb Hsb Hae. pose proof (canon_in _ _ Hc Hin) as Hse. simpl in Hse.
  assert (Hother : ∀ p, p ∈ map_remove s iv ↔ p ∈ iv ∧ p ≠ (s, e)).
  { intros p. rewrite elem_of_map_remove. split; intros [Hp Hne]; (split; [done|]); [by intros ->|].
    intros Hps. destruct (sorted_apart _ p (s, e) Hc Hp Hin) as [?|Hg]; [done|].
    pose proof (canon_in _ _ Hc Hp). unfold gap in Hg. simpl in Hg. lia. }
  assert (Hgap : ∀ p, p ∈ map_remove s iv → 0 ≤ p.1 ≤ p.2 ∧ (p.2 + 1 < s ∨ e + 1 < p.1)).
  { intros p Hp. apply Hother in Hp as [Hp Hne]. split; [by apply (canon_in _ _ Hc)|].
    by destruct (sorted_apart _ p (s, e) Hc Hp Hin) as [?|[?|?]]; [|left|right]. }
  set (iv1 := if s <? a then map_insert s (a - 1) (map_remove s iv) else map_remove s iv).
  assert (H1 : ∀ p, p ∈ iv1 ↔ p ∈ map_remove s iv ∨ (s < a ∧ p = (s, a - 1))).
  { intros p. unfold iv1. destruct (Z.ltb_spec s a); [|split; [by left|intros [?|[? _]]; [done|lia]]].
    rewrite elem_of_map_insert. split; [intros [->|[? _]]; auto|intros [Hp|[_ ->]]; auto].
    right. split; [done|]. apply Hgap in Hp as [??]. lia. }
  assert (Hc1 : canon iv1).
  { unfold iv1. destruct (Z.ltb_spec s a); [|by apply map_remove_canon].
    apply map_insert_canon; [by apply map_remove_canon|lia|lia|].
    intros p [? Hp]%Hgap. right. unfold gap. simpl. lia. }
  assert (H2 : ∀ p, p ∈ remove_hit a b iv (s, e) ↔ p ∈ iv1 ∨ (b < e ∧ p = (b + 1, e))).
  { intros p. unfold remove_hit. fold iv1. destruct (Z.ltb_spec b e); [|split; [by left|intros [?|[? _]]; [done|lia]]].
    rewrite elem_of_map_insert. split; [intros [->|[? _]]; auto|intros [Hp|[_ ->]]; auto].
    right. split; [done|]. apply H1 in Hp as [Hp%Hgap|[? ->]]; simpl; lia. }
  cbv zeta. split_and!.
  - unfold remove_hit. fold iv1. destruct (Z.ltb_spec b e); [|done].
    apply map_insert_canon; [done|lia|lia|]. intros p Hp. right. unfold gap. simpl.
    apply H1 in Hp as [Hp%Hgap|[? ->]]; simpl; lia.
  - intros p Hp Hne. apply H2. left. apply H1. left. by apply Hother.
  - intros r. unfold covers. setoid_rewrite H2. setoid_rewrite H1. split.
    + intros (p & [[Hp|[? ->]]|[? ->]] & Hr); simpl in Hr.
      * split; [|apply Hgap in Hp; lia]. apply Hother in Hp as [Hp _]. by exists p.
      * split; [exists (s, e); split; [done|simpl; lia]|lia].
      * split; [exists (s, e); split; [done|simpl; lia]|lia].
    + intros [(p & Hp & Hr) Hn]. destruct (decide (p = (s, e))) as [->|Hne].
      * simpl in Hr. destruct (Z_lt_dec r a).
        -- exists (s, a - 1). split; [left; right; split; [lia|done]|simpl; lia].
        -- exists (b + 1, e). split; [right; split; [lia|done]|simpl; lia].
      * exists p. split; [left; left; by apply Hother|done].
Qed.

Lemma canon_nodup iv : canon iv → NoDup iv.
Proof.
  intros [Hs Hp]. induction Hs as [|p l Hs IH Hall]; [constructor|].
  apply Forall_cons in Hp as [Hpp Hp]. apply NoDup_cons. split; [|by apply IH].
  intros Hin. rewrite Forall_forall in Hall. specialize (Hall p Hin). unfold gap in Hall. lia.
Qed.

Lemma elem_of_hits a b iv p : canon iv → a ≤ b →
  p ∈ hits a b iv ↔ p ∈ iv ∧ p.1 ≤ b ∧ a ≤ p.2.
Proof.
  intros Hc Hab. unfold hits, last_below. rewrite elem_of_app, list_elem_of_filter.
  destruct (last _) as [[s e]|] eqn:E.
  - apply last_filter_Some in E as (Hin & Hs & Hmax); [|done]. simpl in Hs, Hmax.
    assert (Hl : p ∈ (if a <=? e then [(s, e)] else []) ↔ a ≤ e ∧ p = (s, e)) by by rewrite elem_if, Z.leb_le.
    rewrite Hl. split.
    + intros [[? ->]|[? Hp]]; [simpl; split_and!; [done|lia..]|]. pose proof (canon_in _ _ Hc Hp). split_and!; [done|lia..].
    + intros (Hp & ? & ?). destruct (Z_lt_dec p.1 a) as [Hlt|?]; [left|right; split; [lia|done]].
      destruct (Hmax p Hp Hlt) as [->|Hg]; [done|]. unfold gap in Hg. simpl in Hg. lia.
  - split.
    + intros [?%elem_of_nil|[? Hp]]; [done|]. pose proof (canon_in _ _ Hc Hp). split_and!; [done|lia..].
    + intros (Hp & ? & ?). right. split; [|done]. pose proof (last_filter_None _ _ E p Hp) as Hn. simpl in Hn. lia.
Qed.

Lemma hits_nodup a b iv : canon iv → NoDup (hits a b iv).
Proof.
  intros Hc. unfold hits, last_below. apply NoDup_app. split_and!.
  - destruct (last _) as [[s e]|]; [|constructor]. destruct (_ <=? _); [apply NoDup_singleton|constructor].
  - intros p Hp [Hp' _]%list_elem_of_filter. destruct (last _) as [[s e]|] eqn:E; [|by apply elem_of_nil in Hp].
    apply elem_if in Hp as [_ ->]. apply last_filter_Some in E as (_ & Hs & _); [|done]. simpl in *. lia.
  - by apply NoDup_filter, canon_nodup.
Qed.

Lemma remove_fold a b l iv : canon iv → 0 ≤ a ≤ b → b ≤ u32_max → NoDup l →
  (∀ p, p ∈ l → p ∈ iv ∧ p.1 ≤ b ∧ a ≤ p.2) →
  let iv' := fold_left (remove_hit a b) l iv in
  canon iv' ∧ ∀ r, covers iv' r ↔ covers iv r ∧ ¬ (covers l r ∧ a ≤ r ≤ b).
Proof.
  intros Hc Hab Hb. cbv zeta. revert iv Hc. induction l as [|[s e] l IH]; intros iv Hc Hnd Hl; cbn [fold_left].
  - split; [done|]. intros r. split; [|by intros []]. intros ?. split; [done|].
    by intros [(p & ?%elem_of_nil & _) _].
  - apply NoDup_cons in Hnd as [Hn Hnd]. destruct (Hl (s, e)) as (Hin & ? & ?); [left|]. simpl in *.
    destruct (remove_hit_spec a b iv s e) as (Hc' & Hkeep & Hcov); [done..|].
    destruct (IH (remove_hit a b iv (s, e)) Hc' Hnd) as [Hc2 Hcov2].
    { intros p Hp. destruct (Hl p) as (Hp' & ? & ?); [by right|]. split; [|done].
      apply Hkeep; [done|]. by intros ->. }
    split; [done|]. intros r. rewrite Hcov2, Hcov. unfold covers. split.
    + intros [[? Hn1] Hn2]. split; [done|]. intros [(p & [->|Hp]%elem_of_cons & Hr) Hr2]; [by apply Hn1|].
      apply Hn2. split; [by exists p|done].
    + intros [? Hn1]. split; [split; [done|]|].
      * intros [Hr Hr2]. apply Hn1. split; [|done]. exists (s, e). split; [left|done].
      * intros [(p & Hp & Hr) Hr2]. apply Hn1. split; [|done]. exists p. split; [by right|done].
Qed.

Lemma remove_canon_spec a b iv : canon iv → 0 ≤ a ≤ b → b ≤ u32_max →
  canon (remove a b iv) ∧ ∀ r, covers (remove a b iv) r ↔ covers iv r ∧ ¬ (a ≤ r ≤ b).
Proof.
  intros Hc Hab Hb.
  destruct (remove_fold a b (hits a b iv) iv Hc Hab Hb (hits_nodup a b iv Hc)) as [Hc' Hcov].
  { intros p Hp. by apply elem_of_hits in Hp; [|done|lia]. }
  split; [done|]. intros r. unfold remove. rewrite Hcov. split.
  - intros [(p & Hp & Hr) Hn]. split; [by exists p|]. intros ?. apply Hn. split; [|done].
    exists p. split; [|done]. apply elem_of_hits; [done|lia|]. split_and!; [done|lia..].
  - intros [Hin Hn]. split; [done|]. by intros [_ ?].
Qed.

(** ** [missing] *)

Lemma canon_cons p iv : canon (p :: iv) ↔
  canon iv ∧ Forall (gap p) iv ∧ 0 ≤ p.1 ≤ p.2 ∧ p.2 ≤ u32_max.
Proof.
  split.
  - intros [Hs Hp]. inversion_clear Hs. apply Forall_cons in Hp as [? ?]. split; [by split|split; [done|tauto]].
  - intros ([Hs Hp] & ? & ?). split; constructor; tauto || done.
Qed.

Lemma covers_cons p iv r : covers (p :: iv) r ↔ p.1 ≤ r ≤ p.2 ∨ covers iv r.
Proof. unfold covers. setoid_rewrite elem_of_cons. naive_solver. Qed.
Lemma covers_nil r : ¬ covers [] r.
Proof. by intros (p & ?%elem_of_nil & _). Qed.

Lemma missing_loop_spec b l : ∀ cur, canon l → 0 ≤ cur ≤ b → b ≤ u32_max →
  Forall (λ p, cur ≤ p.1) l →
  canon (missing_loop cur b l) ∧ Forall (λ p, cur ≤ p.1) (missing_loop cur b l) ∧
  ∀ r, covers (missing_loop cur b l) r ↔ cur ≤ r ≤ b ∧ ¬ covers l r.
Proof.
  assert (Hone : ∀ cur l, 0 ≤ cur ≤ b → b ≤ u32_max → (∀ r, covers l r → b < r) →
    canon [(cur, b)] ∧ Forall (λ p, cur ≤ p.1) [(cur, b)] ∧
    ∀ r, covers [(cur, b)] r ↔ cur ≤ r ≤ b ∧ ¬ covers l r).
  { intros cur l0 Hcur Hb Hl. split_and!; [apply canon_cons; split_and!; [apply canon_nil|constructor|simpl; lia..]| |].
    - constructor; [simpl; lia|constructor].
    - intros r. rewrite covers_cons. simpl. pose proof (covers_nil r). split; [|intros []; by left].
      intros [?|?]; [|done]. split; [done|]. intros ?%Hl. lia. }
  induction l as [|[s e] l IH]; intros cur Hc Hcur Hb Hlow; cbn [missing_loop].
  { apply Hone; [done..|]. by intros r ?%covers_nil. }
  apply canon_cons in Hc as (Hc & Hgap & Hse & Hemax). simpl in Hse, Hemax.
  apply Forall_cons in Hlow as [Hs _]. simpl in Hs. rewrite Forall_forall in Hgap.
  assert (Hafter : ∀ r, covers l r → e + 1 < r).
  { intros r (p & Hp & Hr). specialize (Hgap p Hp). unfold gap in Hgap. simpl in Hgap. lia. }
  destruct (Z.ltb_spec b s).
  { apply Hone; [done..|]. intros r [Hr|Hr]%covers_cons; [simpl in Hr; lia|]. apply Hafter in Hr. lia. }
  assert (Htail : let out := if b <=? e then [] else missing_loop (e + 1) b l in
    canon out ∧ Forall (λ p, e + 1 ≤ p.1) out ∧ ∀ r, covers out r ↔ e + 1 ≤ r ≤ b ∧ ¬ covers l r).
  { cbv zeta. destruct (Z.leb_spec b e).
    - split_and!; [apply canon_nil|constructor|]. intros r. pose proof (covers_nil r). split; [done|lia].
    - apply IH; [done|lia|lia|]. apply Forall_forall. intros p Hp. specialize (Hgap p Hp).
      unfold gap in Hgap. simpl in Hgap. lia. }
  destruct Htail as (Hco & Hlo & Hcov). set (out := if b <=? e then [] else missing_loop (e + 1) b l) in *.
  assert (Hr : ∀ r, covers ((s, e) :: l) r ↔ s ≤ r ≤ e ∨ covers l r) by (intros r; by rewrite covers_cons).
  destruct (Z.ltb_spec cur s); cbn [app].
  - split_and!.
    + apply canon_cons. split_and!; simpl; [done| |lia..]. rewrite Forall_forall in Hlo. apply Forall_forall.
      intros p Hp. specialize (Hlo p Hp). unfold gap. simpl. lia.
    + constructor; [simpl; lia|]. eapply Forall_impl; [exact Hlo|]. simpl. intros p ?. lia.
    + intros r. rewrite covers_cons, Hcov, Hr. simpl. split.
      * intros [?|[? Hn]]; (split; [lia|]); [intros [?|?%Hafter]; lia|intros [?|?]; [lia|done]].
      * intros [? Hn]. destruct (Z_lt_dec r s); [left; lia|right]. split; [|tauto].
        destruct (Z_le_dec r e); [destruct Hn; left; lia|lia].
  - split_and!; [done| |].
    + eapply Forall_impl; [exact Hlo|]. simpl. intros p ?. lia.
    + intros r. rewrite Hcov, Hr. split; [intros [? Hn]; split; [lia|intros [?|?]; [lia|done]]|].
      intros [? Hn]. split; [|tauto]. destruct (Z_le_dec r e); [destruct Hn; left; lia|lia].
Qed.

Lemma from_spec cur iv : canon iv → canon (from cur iv) ∧ Forall (λ p, cur ≤ p.1) (from cur iv).
Proof.
  intros Hc. split; [by apply canon_filter|]. apply Forall_forall. by intros p [? _]%list_elem_of_filter.
Qed.

(** The rows from [cur] on, when no earlier interval reaches them. *)
Lemma from_covers cur iv r : (∀ p, p ∈ iv → p.1 < cur → p.2 < cur) → cur ≤ r →
  covers (from cur iv) r ↔ covers iv r.
Proof.
  intros Hlow Hr. unfold covers, from. setoid_rewrite list_elem_of_filter. split; [naive_solver|].
  intros (p & Hp & Hpr). exists p. split_and!; [|done|lia|lia]. 
  destruct (Z_lt_dec p.1 cur) as [Hlt|]; [specialize (Hlow p Hp Hlt); lia|lia].
Qed.

Lemma missing_canon_spec a b iv : canon iv → 0 ≤ a ≤ b → b ≤ u32_max →
  canon (missing iv a b) ∧ ∀ r, covers (missing iv a b) r ↔ a ≤ r ≤ b ∧ ¬ covers iv r.
Proof.
  intros Hc Hab Hb.
  assert (Hloop : ∀ cur, a ≤ cur ≤ b → (∀ p, p ∈ iv → p.1 < cur → p.2 < cur) →
    (∀ r, a ≤ r < cur → covers iv r) →
    canon (missing_loop cur b (from cur iv)) ∧
    ∀ r, covers (missing_loop cur b (from cur iv)) r ↔ a ≤ r ≤ b ∧ ¬ covers iv r).
  { intros cur Hcur Hlow Hcov. destruct (from_spec cur iv Hc) as [Hf Hff].
    destruct (missing_loop_spec b (from cur iv) cur Hf) as (H1 & _ & H3); [lia|lia|done|].
    split; [done|]. intros r. rewrite H3. split.
    - intros [? Hn]. split; [lia|]. by rewrite <- (from_covers cur) by (done || lia).
    - intros [? Hn]. destruct (Z_lt_dec r cur); [destruct Hn; apply Hcov; lia|].
      split; [lia|]. by rewrite from_covers by (done || lia). }
  unfold missing, last_upto. destruct (last _) as [[s e]|] eqn:E.
  - apply last_filter_Some in E as (Hin & Hs & Hmax); [|done]. simpl in Hs, Hmax.
    pose proof (canon_in _ _ Hc Hin) as Hse. simpl in Hse.
    assert (Hlow : ∀ cur p, e < cur → (cur ≤ e + 1 ∨ cur ≤ a) → p ∈ iv → p.1 < cur → p.2 < cur).
    { intros cur p Hcur Hor Hp Hlt. destruct (Z_le_dec p.1 a) as [Hle|].
      - destruct (Hmax p Hp Hle) as [->|Hg]; [simpl; lia|]. unfold gap in Hg. simpl in Hg. lia.
      - destruct (sorted_apart _ p (s, e) Hc Hp Hin) as [->|[Hg|Hg]]; [simpl in *; lia|..];
          unfold gap in Hg; simpl in Hg; pose proof (canon_in _ _ Hc Hp); lia. }
    destruct (Z.leb_spec a e); [destruct (Z.leb_spec b e)|].
    + split; [apply canon_nil|]. intros r. pose proof (covers_nil r). split; [done|].
      intros [? Hn]. destruct Hn. exists (s, e). split; [done|simpl; lia].
    + apply Hloop; [lia|intros p; apply Hlow; lia|].
      intros r Hr. exists (s, e). split; [done|simpl; lia].
    + apply Hloop; [lia|intros p; apply Hlow; lia|lia].
  - apply Hloop; [lia| |lia]. intros p Hp Hlt. pose proof (last_filter_None _ _ E p Hp) as Hn. simpl in Hn. lia.
Qed.

(** ** Canonicity *)

Lemma canon_head_le p iv r : canon (p :: iv) → covers (p :: iv) r → p.1 ≤ r.
Proof.
  intros (_ & Hg & ?)%canon_cons [?|(q & Hq & ?)]%covers_cons; [lia|].
  rewrite Forall_forall in Hg. specialize (Hg q Hq). unfold gap in Hg. lia.
Qed.

Lemma canon_head_end p iv : canon (p :: iv) → ¬ covers (p :: iv) (p.2 + 1).
Proof.
  intros (_ & Hg & ?)%canon_cons [?|(q & Hq & ?)]%covers_cons; [lia|].
  rewrite Forall_forall in Hg. specialize (Hg q Hq). unfold gap in Hg. lia.
Qed.

Lemma canon_unique iv1 iv2 : canon iv1 → canon iv2 → (∀ r, covers iv1 r ↔ covers iv2 r) → iv1 = iv2.
Proof.
  revert iv2. induction iv1 as [|[s e] iv1 IH]; intros [|[s' e'] iv2] H1 H2 Heq.
  - done.
  - exfalso. apply (covers_nil s'), Heq, covers_cons. left. apply canon_cons in H2. simpl in *. lia.
  - exfalso. apply (covers_nil s), Heq, covers_cons. left. apply canon_cons in H1. simpl in *. lia.
  - pose proof (proj1 (canon_cons _ _) H1) as (Hc1 & Hg1 & Hp1 & _).
    pose proof (proj1 (canon_cons _ _) H2) as (Hc2 & Hg2 & Hp2 & _). simpl in *.
    assert (s = s') as <-.
    { pose proof (canon_head_le _ _ s' H1) as E1. pose proof (canon_head_le _ _ s H2) as E2. simpl in *.
      rewrite Heq, covers_cons in E1. rewrite <- Heq, covers_cons in E2. simpl in *.
      specialize (E1 ltac:(left; lia)). specialize (E2 ltac:(left; lia)). lia. }
    assert (e = e') as <-.
    { pose proof (canon_head_end _ _ H1) as E1. pose proof (canon_head_end _ _ H2) as E2. simpl in *.
      rewrite Heq, covers_cons in E1. rewrite <- Heq, covers_cons in E2. simpl in *.
      destruct (Z.lt_total e e') as [?|[?|?]]; [|done|]; [destruct E1|destruct E2]; left; lia. }
    f_equal. apply IH; [done|done|]. intros r. specialize (Heq r). rewrite !covers_cons in Heq. simpl in Heq.
    rewrite Forall_forall in Hg1, Hg2. unfold covers in *. split; intros (p & Hp & Hr).
    + destruct (proj1 Heq) as [?|?]; [right; by exists p| |done].
      specialize (Hg1 p Hp). unfold gap in Hg1. simpl in Hg1. lia.
    + destruct (proj2 Heq) as [?|?]; [right; by exists p| |done].
      specialize (Hg2 p Hp). unfold gap in Hg2. simpl in Hg2. lia.
Qed.

End interval_sets.

(** Inserting an interval keeps the set canonical and adds exactly its rows;
    as canonical sets with the same rows are equal, the order and the splitting of
    insertions do not matter. *)
Lemma interval_set_insert a b iv :
  canon iv → (0 ≤ a ≤ b)%Z → (b ≤ u32_max)%Z →
  ∃ iv', IntervalSet.insert a b iv = Ok iv' ∧ canon iv' ∧
    (∀ r, covers iv' r ↔ covers iv r ∨ (a ≤ r ≤ b)%Z) ∧
    (∀ iv2, canon iv2 → (∀ r, covers iv2 r ↔ covers iv r ∨ (a ≤ r ≤ b)%Z) → iv2 = iv').
Proof.
  intros Hc Hab Hb. destruct (insert_canon_spec a b iv Hc Hab Hb) as (iv' & H1 & H2 & H3).
  exists iv'. split_and!; [done..|]. intros iv2 Hc2 Hr2. apply canon_unique; [done|done|].
  intros r. by rewrite H3, Hr2.
Qed.

(** Removing an interval keeps the set canonical and takes exactly its rows away. *)
Lemma interval_set_remove a b iv :
  canon iv → (0 ≤ a ≤ b)%Z → (b ≤ u32_max)%Z →
  canon (IntervalSet.remove a b iv) ∧
  ∀ r, IntervalSet.contains (IntervalSet.remove a b iv) r = true ↔
    IntervalSet.contains iv r = true ∧ ¬ (a ≤ r ≤ b)%Z.
Proof.
  intros Hc Hab Hb. destruct (remove_canon_spec a b iv Hc Hab Hb) as [Hc' Hcov].
  split; [done|]. intros r. by rewrite !contains_spec by done.
Qed.

(** [missing] lists, in order and as maximal intervals, exactly the rows of a range
    that are not in the set. *)
Lemma interval_set_missing a b iv :
  canon iv → (0 ≤ a ≤ b)%Z → (b ≤ u32_max)%Z →
  canon (IntervalSet.missing iv a b) ∧
  ∀ r, covers (IntervalSet.missing iv a b) r ↔
    (a ≤ r ≤ b)%Z ∧ IntervalSet.contains iv r = false.
Proof.
  intros Hc Hab Hb. destruct (missing_canon_spec a b iv Hc Hab Hb) as [Hc' Hcov].
  split; [done|]. intros r. rewrite Hcov, <- contains_spec by done. by rewrite not_true_iff_false.
Qed.

(** An interval set implements the set of its rows.  It stays canonical, so that two
    sets with the same rows are the same; [insert], which ends within its loop, and [remove] add and
    take away exactly the rows of a range; [missing] lists, in order and as maximal
    intervals, the rows of a range that are not in the set. *)
Lemma interval_set_refines a b iv :
  canon iv → (0 ≤ a ≤ b)%Z → (b ≤ u32_max)%Z →
  (∃ iv', IntervalSet.insert a b iv = Ok iv' ∧ canon iv' ∧
    (∀ r, IntervalSet.contains iv' r = true ↔ IntervalSet.contains iv r = true ∨ (a ≤ r ≤ b)%Z) ∧
    ∀ iv2, canon iv2 →
      (∀ r, IntervalSet.contains iv2 r = IntervalSet.contains iv' r) → iv2 = iv') ∧
  (canon (IntervalSet.remove a b iv) ∧
    ∀ r, IntervalSet.contains (IntervalSet.remove a b iv) r = true ↔
      IntervalSet.contains iv r = true ∧ ¬ (a ≤ r ≤ b)%Z) ∧
  (canon (IntervalSet.missing iv a b) ∧
    ∀ r, IntervalSet.contains (IntervalSet.missing iv a b) r = true ↔
      (a ≤ r ≤ b)%Z ∧ IntervalSet.contains iv r = false).
Proof.
  intros Hc Hab Hb. split_and!; try by eapply interval_set_remove.
  - destruct (interval_set_insert a b iv Hc Hab Hb) as (iv' & H1 & H2 & H3 & _).
    exists iv'. split_and!; [done|done| |].
    + intros r. by rewrite !contains_spec, H3 by done.
    + intros iv2 Hc2 Hr2. apply canon_unique; [done|done|]. intros r.
      by rewrite <- !contains_spec, Hr2 by done.
  - by eapply interval_set_missing.
  - destruct (interval_set_missing a b iv Hc Hab Hb) as [Hm Hcov]. intros r.
    by rewrite contains_spec, Hcov by done.
Qed.

(** * Covers *)

Section covers.
Import Cover.

Definition cover_wf (cv : t) : Prop := map_Forall (λ _ s, canon s ∧ s ≠ []) cv.

(** The rows covered in a column. *)
Definition column (cv : t) (sheet c : Z) : IntervalSet.t := default [] (cv !! (sheet, c)).
Definition covered (cv : t) (sheet r c : Z) : Prop := covers (column cv sheet c) r.

Lemma column_canon cv sheet c : cover_wf cv → canon (column cv sheet c).
Proof.
  intros Hw. unfold column. destruct (cv !! (sheet, c)) as [s|] eqn:E; [|apply canon_nil].
  by apply (Hw _ _ E).
Qed.

Lemma cover_contains cv sheet r c : cover_wf cv → contains cv sheet r c = true ↔ covered cv sheet r c.
Proof.
  intros Hw. unfold contains, covered, column. destruct (cv !! (sheet, c)) as [s|] eqn:E; simpl.
  - apply contains_spec. by apply (Hw _ _ E).
  - split; [done|]. by intros ?%covers_nil.
Qed.

Lemma elem_of_columns r c : c ∈ columns r ↔ (c0 r ≤ c ≤ c1 r)%Z.
Proof. unfold columns. rewrite elem_of_seqZ. lia. Qed.

Lemma covers_nonempty iv r : covers iv r → iv ≠ [].
Proof. intros H ->. by apply covers_nil in H. Qed.

(** One column of an insertion. *)
Lemma insert_column_spec sheet r cv c : cover_wf cv → rect_ok r →
  ∃ cv' set, IntervalSet.insert (r0 r) (r1 r) (column cv sheet c) = Ok set ∧
    cv' = <[(sheet, c) := set]> cv ∧ cover_wf cv' ∧
    ∀ sh row col, covered cv' sh row col ↔
      covered cv sh row col ∨ (sh = sheet ∧ col = c ∧ (r0 r ≤ row ≤ r1 r)%Z).
Proof.
  intros Hw Hr. unfold rect_ok in Hr.
  destruct (insert_canon_spec (r0 r) (r1 r) (column cv sheet c)) as (set & Hrun & Hc & Hcov);
    [by apply column_canon|lia|lia|].
  exists (<[(sheet, c) := set]> cv), set. split_and!; [done|done| |].
  - apply map_Forall_insert_2; [|done]. split; [done|]. apply (covers_nonempty _ (r0 r)), Hcov. right. lia.
  - intros sh row col. unfold covered, column in *. destruct (decide ((sh, col) = (sheet, c))) as [[= -> ->]|Hne].
    + rewrite lookup_insert_eq. simpl. rewrite Hcov. tauto.
    + rewrite lookup_insert_ne by congruence. split; [by left|]. intros [?|(-> & -> & _)]; done.
Qed.

Lemma fold_insert sheet r cols cv : cover_wf cv → rect_ok r →
  ∃ cv', fold_columns (insert_column sheet r) cols cv = Ok cv' ∧ cover_wf cv' ∧
    ∀ sh row col, covered cv' sh row col ↔
      covered cv sh row col ∨ (sh = sheet ∧ col ∈ cols ∧ (r0 r ≤ row ≤ r1 r)%Z).
Proof.
  intros Hw Hr. revert cv Hw. induction cols as [|c cols IH]; intros cv Hw; cbn [fold_columns].
  - exists cv. split_and!; [done|done|]. intros sh row col. rewrite elem_of_nil. tauto.
  - destruct (insert_column_spec sheet r cv c Hw Hr) as (cv' & set & Hrun & -> & Hw' & Hcov).
    assert (insert_column sheet r cv c = Ok (<[(sheet, c) := set]> cv)) as ->.
    { unfold insert_column. fold (column cv sheet c). by rewrite Hrun. }
    cbn [mbind result_bind]. destruct (IH _ Hw') as (cv2 & -> & Hw2 & Hcov2). exists cv2.
    split_and!; [done|done|]. intros sh row col. rewrite Hcov2, Hcov, elem_of_cons. tauto.
Qed.

(** [insert_rect] terminates, keeps the cover well-formed and adds exactly the
    cells of the rectangle. *)
Lemma cover_insert_rect sheet r cv : cover_wf cv → rect_ok r →
  ∃ cv', insert_rect sheet r cv = Ok cv' ∧ cover_wf cv' ∧
    ∀ sh row col, contains cv' sh row col = true ↔
      contains cv sh row col = true ∨ (sh = sheet ∧ in_rect r row col).
Proof.
  intros Hw Hr. destruct (fold_insert sheet r (columns r) cv Hw Hr) as (cv' & Hrun & Hw' & Hcov).
  exists cv'. split_and!; [done|done|]. intros sh row col.
  rewrite !cover_contains, Hcov, elem_of_columns, in_rect_spec by done. tauto.
Qed.

Lemma remove_column_spec sheet r cv c : cover_wf cv → rect_ok r →
  cover_wf (remove_column sheet r cv c) ∧
  ∀ sh row col, covered (remove_column sheet r cv c) sh row col ↔
    covered cv sh row col ∧ ¬ (sh = sheet ∧ col = c ∧ (r0 r ≤ row ≤ r1 r)%Z).
Proof.
  intros Hw Hr. unfold rect_ok in Hr. pose proof (column_canon cv sheet c Hw) as Hc.
  destruct (remove_canon_spec (r0 r) (r1 r) (column cv sheet c) Hc) as [Hc' Hcov]; [lia|lia|].
  unfold remove_column. destruct (cv !! (sheet, c)) as [s|] eqn:E.
  - assert (Hs : column cv sheet c = s) by (unfold column; by rewrite E). rewrite Hs in *.
    assert (Hcase : ∀ cv', (∀ sh col, column cv' sh col =
        if decide ((sh, col) = (sheet, c)) then IntervalSet.remove (r0 r) (r1 r) s else column cv sh col) →
      ∀ sh row col, covered cv' sh row col ↔
        covered cv sh row col ∧ ¬ (sh = sheet ∧ col = c ∧ (r0 r ≤ row ≤ r1 r)%Z)).
    { intros cv' Hcv' sh row col. unfold covered. rewrite Hcv'. destruct (decide ((sh, col) = (sheet, c))) as [[= -> ->]|Hne].
      - rewrite Hcov, Hs. tauto.
      - split; [|tauto]. intros ?. split; [done|]. intros (-> & -> & _). done. }
    unfold IntervalSet.is_empty. destruct (bool_decide (IntervalSet.remove (r0 r) (r1 r) s = [])) eqn:Ee.
    + apply bool_decide_eq_true in Ee. split; [by apply map_Forall_delete|]. apply Hcase.
      intros sh col. unfold column. destruct (decide _) as [[= -> ->]|]; [by rewrite lookup_delete_eq, Ee|].
      by rewrite lookup_delete_ne.
    + apply bool_decide_eq_false in Ee. split; [by apply map_Forall_insert_2|]. apply Hcase.
      intros sh col. unfold column. destruct (decide _) as [[= -> ->]|]; [by rewrite lookup_insert_eq|].
      by rewrite lookup_insert_ne.
  - split; [done|]. intros sh row col. split; [|tauto]. intros Hcv. split; [done|].
    intros (-> & -> & _). unfold covered, column in Hcv. rewrite E in Hcv. by apply covers_nil in Hcv.
Qed.

(** [remove_rect] keeps the cover well-formed and takes exactly the cells of the
    rectangle away. *)
Lemma cover_remove_rect sheet r cv : cover_wf cv → rect_ok r →
  cover_wf (remove_rect sheet r cv) ∧
  ∀ sh row col, contains (remove_rect sheet r cv) sh row col = true ↔
    contains cv sh row col = true ∧ ¬ (sh = sheet ∧ in_rect r row col).
Proof.
  intros Hw Hr. unfold remove_rect.
  enough (∀ cols cv, cover_wf cv → cover_wf (fold_left (remove_column sheet r) cols cv) ∧
    ∀ sh row col, covered (fold_left (remove_column sheet r) cols cv) sh row col ↔
      covered cv sh row col ∧ ¬ (sh = sheet ∧ col ∈ cols ∧ (r0 r ≤ row ≤ r1 r)%Z)) as E.
  { destruct (E (columns r) cv Hw) as [Hw' Hcov]. split; [done|]. intros sh row col.
    rewrite !cover_contains, Hcov, elem_of_columns, in_rect_spec by done. tauto. }
  clear cv Hw. induction cols as [|c cols IH]; intros cv Hw; cbn [fold_left].
  - split; [done|]. intros sh row col. rewrite elem_of_nil. tauto.
  - destruct (remove_column_spec sheet r cv c Hw Hr) as [Hw' Hcov]. destruct (IH _ Hw') as [Hw2 Hcov2].
    split; [done|]. intros sh row col. rewrite Hcov2, Hcov, elem_of_cons. tauto.
Qed.

(** ** Fresh cells *)

(** The cells of the rectangles reported as fresh. *)
Definition fresh_cell (fresh : list (Z * Rect)) (sheet r c : Z) : Prop :=
  ∃ q, (sheet, q) ∈ fresh ∧ in_rect q r c.

Lemma fresh_cell_app f1 f2 sheet r c :
  fresh_cell (f1 ++ f2) sheet r c ↔ fresh_cell f1 sheet r c ∨ fresh_cell f2 sheet r c.
Proof. unfold fresh_cell. setoid_rewrite elem_of_app. naive_solver. Qed.

Lemma fresh_cell_column miss sheet c sh row col :
  fresh_cell ((λ '(a, b), (sheet, rect_new a c b c)) <$> miss) sh row col ↔
  sh = sheet ∧ col = c ∧ covers miss row.
Proof.
  unfold fresh_cell, covers. setoid_rewrite list_elem_of_fmap. split.
  - intros (q & ([a b] & [= -> ->] & Hin) & Hr). apply in_rect_spec in Hr. simpl in Hr.
    split_and!; [done|lia|]. exists (a, b). split; [done|simpl; lia].
  - intros (-> & -> & ([a b] & Hin & Hr)). exists (rect_new a c b c). split; [by exists (a, b)|].
    apply in_rect_spec. simpl in *. lia.
Qed.

Lemma fold_fresh sheet r cols cv fresh : NoDup cols → cover_wf cv → rect_ok r →
  ∃ cv' new, fold_columns (insert_column_fresh sheet r) cols (cv, fresh) = Ok (cv', fresh ++ new) ∧
    fold_columns (insert_column sheet r) cols cv = Ok cv' ∧
    ∀ sh row col, fresh_cell new sh row col ↔
      sh = sheet ∧ col ∈ cols ∧ (r0 r ≤ row ≤ r1 r)%Z ∧ ¬ covered cv sh row col.
Proof.
  intros Hnd Hw Hr. revert cv fresh Hw Hnd. induction cols as [|c cols IH]; intros cv fresh Hw Hnd; cbn [fold_columns].
  - exists cv, []. rewrite app_nil_r. split_and!; [done|done|]. intros sh row col.
    split; [by intros (q & ?%elem_of_nil & _)|by intros (_ & ?%elem_of_nil & _)].
  - apply NoDup_cons in Hnd as [Hc Hnd].
    destruct (insert_column_spec sheet r cv c Hw Hr) as (cv' & set & Hrun & -> & Hw' & Hcov).
    pose proof (column_canon cv sheet c Hw) as Hcan. unfold rect_ok in Hr.
    destruct (missing_canon_spec (r0 r) (r1 r) _ Hcan) as [_ Hmiss]; [lia|lia|].
    set (miss := IntervalSet.missing (column cv sheet c) (r0 r) (r1 r)) in *.
    assert (insert_column sheet r cv c = Ok (<[(sheet, c) := set]> cv)) as ->.
    { unfold insert_column. fold (column cv sheet c). by rewrite Hrun. }
    assert (insert_column_fresh sheet r (cv, fresh) c =
      Ok (<[(sheet, c) := set]> cv, fresh ++ ((λ '(a, b), (sheet, rect_new a c b c)) <$> miss))) as ->.
    { unfold insert_column_fresh. fold (column cv sheet c). by rewrite Hrun. }
    cbn [mbind result_bind].
    destruct (IH _ (fresh ++ ((λ '(a, b), (sheet, rect_new a c b c)) <$> miss)) Hw' Hnd) as (cv2 & new & -> & -> & Hnew).
    eexists _, (((λ '(a, b), (sheet, rect_new a c b c)) <$> miss) ++ new). rewrite app_assoc.
    split_and!; [done|done|]. intros sh row col.
    rewrite fresh_cell_app, fresh_cell_column, Hnew, Hmiss, Hcov, elem_of_cons. split.
    + intros [(-> & -> & ? & ?)|(-> & ? & ? & ?)]; [by auto|].
      split; [done|split; [by right|split; [lia|tauto]]].
    + intros (-> & [->|?] & ? & Hn); [left; by auto|right].
      split; [done|split; [done|split; [lia|]]]. intros [?|(_ & -> & _)]; done.
Qed.

(** [insert_rect_fresh] inserts as [insert_rect] does, and appends rectangles that
    hold exactly the cells of the rectangle that were not covered before. *)
Lemma cover_insert_fresh sheet r cv fresh : cover_wf cv → rect_ok r →
  ∃ cv' new, insert_rect_fresh sheet r cv fresh = Ok (cv', fresh ++ new) ∧
    insert_rect sheet r cv = Ok cv' ∧
    ∀ sh row col, fresh_cell new sh row col ↔
      sh = sheet ∧ in_rect r row col ∧ contains cv sh row col = false.
Proof.
  intros Hw Hr. destruct (fold_fresh sheet r (columns r) cv fresh) as (cv' & new & H1 & H2 & H3);
    [apply NoDup_seqZ|done|done|].
  exists cv', new. split_and!; [done|done|]. intros sh row col.
  rewrite H3, elem_of_columns, in_rect_spec, <- not_true_iff_false, cover_contains by done. tauto.
Qed.

(** ** Meeting a rectangle *)

Lemma count_le iv : ∀ a b, canon iv → (∀ p, p ∈ iv → a ≤ p.1 ∧ p.2 ≤ b)%Z → (a ≤ b + 1)%Z →
  (IntervalSet.cell_count iv ≤ b - a + 1)%Z ∧
  (∀ r, (a ≤ r ≤ b)%Z → ¬ covers iv r → IntervalSet.cell_count iv ≤ b - a)%Z.
Proof.
  induction iv as [|[s e] iv IH]; intros a b Hc Hin Hab; [simpl; split; lia|].
  apply canon_cons in Hc as (Hc & Hg & Hse & _). simpl in Hse. rewrite Forall_forall in Hg.
  destruct (Hin (s, e)) as [Hs He]; [left|]. simpl in Hs, He.
  assert (Htail : ∀ p, p ∈ iv → (e + 1 ≤ p.1 ∧ p.2 ≤ b)%Z).
  { intros p Hp. destruct (Hin p) as [_ ?]; [by right|]. specialize (Hg p Hp). unfold gap in Hg. simpl in Hg. lia. }
  destruct (IH (e + 1)%Z b Hc Htail) as [IH1 IH2]; [lia|]. cbn [IntervalSet.cell_count foldr fst snd].
  fold (IntervalSet.cell_count iv). split; [lia|]. intros r Hr Hn. rewrite covers_cons in Hn. simpl in Hn.
  destruct (Z_lt_dec r s); [lia|]. destruct (Z_le_dec r e); [destruct Hn; left; lia|].
  specialize (IH2 r ltac:(lia) ltac:(tauto)). lia.
Qed.

Lemma column_meets_spec cv sheet r c : cover_wf cv → rect_ok r →
  column_meets cv sheet r c = true ↔ ∃ row, (r0 r ≤ row ≤ r1 r)%Z ∧ covered cv sheet row c.
Proof.
  intros Hw Hr. unfold rect_ok in Hr. pose proof (column_canon cv sheet c Hw) as Hcan.
  destruct (missing_canon_spec (r0 r) (r1 r) _ Hcan) as [Hm Hmiss]; [lia|lia|].
  unfold column_meets, covered, column in *. destruct (cv !! (sheet, c)) as [s|]; simpl in *.
  - rewrite Z.ltb_lt. unfold height.
    assert (Hin : ∀ p, p ∈ IntervalSet.missing s (r0 r) (r1 r) → (r0 r ≤ p.1 ∧ p.2 ≤ r1 r)%Z).
    { intros p Hp. pose proof (canon_in _ _ Hm Hp).
      destruct (proj1 (Hmiss p.1)) as [? _]; [by exists p; split; [|lia]|].
      destruct (proj1 (Hmiss p.2)) as [? _]; [by exists p; split; [|lia]|]. lia. }
    destruct (count_le _ _ _ Hm Hin) as [_ Hlt]; [lia|]. split.
    + intros Hcount. destruct (decide (IntervalSet.missing s (r0 r) (r1 r) = [(r0 r, r1 r)])) as [E|Hne].
      { rewrite E in Hcount. simpl in Hcount. lia. }
      destruct (decide (Exists (λ row, IntervalSet.contains s row = true) (seqZ (r0 r) (r1 r - r0 r + 1)))) as [Hex|Hno].
      { apply Exists_exists in Hex as (row & Hrow%elem_of_seqZ & Hcv). exists row.
        split; [lia|by apply contains_spec in Hcv]. }
      exfalso. apply Hne, canon_unique; [done| |].
      * apply canon_cons. split_and!; [apply canon_nil|constructor|simpl; lia..].
      * intros row. rewrite Hmiss, covers_cons. simpl. split; [intros []; by left|].
        intros [?|?%covers_nil]; [|done]. split; [done|]. intros ?. apply Hno, Exists_exists.
        exists row. split; [apply elem_of_seqZ; lia|by apply contains_spec].
    + intros (row & Hrow & Hcv). specialize (Hlt row Hrow). rewrite Hmiss in Hlt.
      specialize (Hlt ltac:(tauto)). lia.
  - split; [done|]. by intros (row & _ & ?%covers_nil).
Qed.

(** [intersects_rect] holds exactly when a cell of the rectangle is covered. *)
Lemma cover_intersects_rect sheet r cv : cover_wf cv → rect_ok r →
  intersects_rect cv sheet r = true ↔
  ∃ row col, in_rect r row col ∧ contains cv sheet row col = true.
Proof.
  intros Hw Hr. unfold intersects_rect. rewrite existsb_exists. split.
  - intros (c & Hc%list_elem_of_In & Hm). apply column_meets_spec in Hm as (row & ? & ?); [|done..].
    apply elem_of_columns in Hc. exists row, c. rewrite in_rect_spec, cover_contains by done. split; [lia|done].
  - intros (row & c & Hin & Hcv). apply in_rect_spec in Hin. apply cover_contains in Hcv; [|done].
    exists c. rewrite <- list_elem_of_In, elem_of_columns. split; [lia|]. apply column_meets_spec; [done..|].
    exists row. split; [lia|done].
Qed.

(** C38: a cell cover implements the set of its cells, sheet by sheet.  [insert_rect], which
    ends, and [remove_rect] keep it well-formed and add and take away exactly the cells of a
    rectangle; [intersects_rect] holds exactly when a cell of the rectangle is covered. *)
Theorem cover_refines sheet r cv : cover_wf cv → rect_ok r →
  (∃ cv', insert_rect sheet r cv = Ok cv' ∧ cover_wf cv' ∧
    ∀ sh row col, contains cv' sh row col = true ↔
      contains cv sh row col = true ∨ (sh = sheet ∧ in_rect r row col)) ∧
  (cover_wf (remove_rect sheet r cv) ∧
    ∀ sh row col, contains (remove_rect sheet r cv) sh row col = true ↔
      contains cv sh row col = true ∧ ¬ (sh = sheet ∧ in_rect r row col)) ∧
  (intersects_rect cv sheet r = true ↔
    ∃ row col, in_rect r row col ∧ contains cv sheet row col = true).
Proof.
  intros Hw Hr. split_and!; try by apply cover_remove_rect.
  - by apply cover_insert_rect.
  - by apply cover_intersects_rect.
Qed.

End covers.

(** * The hypotheses hold *)

Definition sample_set : IntervalSet.t := [(2, 4); (8, 9)]%Z.

Lemma sample_canon : canon sample_set.
Proof.
  split; [|repeat constructor; unfold u32_max; simpl; lia].
  repeat constructor; unfold gap; simpl; lia.
Qed.

Definition sample_cover : Cover.t := {[(0%Z, 1%Z) := sample_set]}.

Lemma sample_cover_wf : cover_wf sample_cover.
Proof. apply map_Forall_singleton. split; [apply sample_canon|done]. Qed.

Lemma sample_rect_ok : rect_ok (rect_new 3 1 6 2).
Proof. unfold rect_ok, u32_max. simpl. lia. Qed.

Lemma cover_insert_fresh_witness :
  ∃ cv' new, Cover.insert_rect_fresh 0 (rect_new 3 1 6 2) sample_cover [] = Ok (cv', [] ++ new) ∧
    fresh_cell new 0 5 1.
Proof.
  destruct (cover_insert_fresh 0 (rect_new 3 1 6 2) sample_cover [] sample_cover_wf sample_rect_ok)
    as (cv' & new & H & _ & Hf).
  exists cv', new. split; [exact H|]. apply Hf. split; [reflexivity|split; reflexivity].
Defined.

Lemma interval_set_refines_witness :
  ∃ iv', IntervalSet.insert 5 7 sample_set = Ok iv' ∧ IntervalSet.contains iv' 6 = true.
Proof.
  destruct (interval_set_refines 5 7 sample_set sample_canon) as ((iv' & H & _ & Hr & _) & _);
    [lia|unfold u32_max; lia|].
  exists iv'. split; [exact H|]. apply Hr. right. lia.
Defined.

Lemma cover_refines_witness :
  ∃ cv', Cover.insert_rect 0 (rect_new 3 1 6 2) sample_cover = Ok cv' ∧ Cover.contains cv' 0 6 2 = true.
Proof.
  destruct (cover_refines 0 (rect_new 3 1 6 2) sample_cover sample_cover_wf sample_rect_ok)
    as ((cv' & H & _ & Hc) & _).
  exists cv'. split; [exact H|]. apply Hc. right. split; reflexivity.
Defined.
