(* ===== verification/SheetRegistry.v ===== *)
(** The sheet registry ([crates/formualizer-eval/src/engine/sheet_registry.rs]): sheet
    names, compared without case, and their ids, which are never given twice.

    The registry keeps three indices; the theorems show that together they are one
    finite map from ids to display names, in which no two names differ only in case. *)
From S2P Require Import Prelude Address Parser.

Local Open Scope Z_scope.

(** [str::to_lowercase]; only the empty text is in lower case empty. *)
Class CaseFold : Type := {
  to_lowercase : bytes → bytes;
  to_lowercase_nil : ∀ s, to_lowercase s = [] ↔ s = []
}.

Section registry.
Context {fold : CaseFold}.

Record SheetRegistry : Type := {
  id_by_name : gmap (list ascii) Z;
  name_by_id : list bytes;
  by_display : gmap (list ascii) Z
}.

Definition new : SheetRegistry := {| id_by_name := ∅; name_by_id := []; by_display := ∅ |}.

(** [self.name_by_id\[id as usize\]]. *)
Definition name_at (r : SheetRegistry) (id : Z) : option bytes := name_by_id r !! Z.to_nat id.

Definition id_for (name : bytes) (r : SheetRegistry) : SheetRegistry * Z :=
  let key := to_lowercase name in
  match id_by_name r !! key with
  | Some id => (r, id)
  | None =>
      let id := Z.of_nat (length (name_by_id r)) mod 2 ^ 16 in
      ({| id_by_name := <[key := id]> (id_by_name r); name_by_id := name_by_id r ++ [name];
          by_display := <[name := id]> (by_display r) |}, id)
  end.

Definition name (r : SheetRegistry) (id : Z) : bytes := default [] (name_at r id).

Definition get_id (r : SheetRegistry) (name : bytes) : option Z :=
  match by_display r !! name with
  | Some id => Some id
  | None => id_by_name r !! to_lowercase name
  end.

Definition resolve_locator (r : SheetRegistry) (locator : SheetLocator) (context_sheet : Z)
  : result ExcelError Z :=
  match locator with
  | Id id => Ok id
  | Current => Ok context_sheet
  | Name name =>
      ok_or (get_id r name)
        {| error_kind := ErrRef; error_message := Some (str "Sheet not found: " ++ name) |}
  end.

Definition active (name : bytes) : bool := negb (bool_decide (name = [])).

Definition active_len (r : SheetRegistry) : nat := length (List.filter active (name_by_id r)).

Definition active_position_by_id (r : SheetRegistry) (id : Z) : option nat :=
  match name_at r id with
  | None | Some [] => None
  | Some _ => Some (length (List.filter active (take (Z.to_nat id + 1) (name_by_id r))))
  end.

Definition active_position (r : SheetRegistry) (name : bytes) : option nat :=
  get_id r name ≫= active_position_by_id r.

Definition active_span_len (r : SheetRegistry) (first last : bytes) : option nat :=
  a ← active_position r first;
  b ← active_position r last;
  Some ((a - b) + (b - a) + 1)%nat.

Definition all_sheets (r : SheetRegistry) : list (Z * bytes) :=
  List.filter (λ '(_, name), active name) (imap (λ i name, (Z.of_nat i mod 2 ^ 16, name)) (name_by_id r)).

Definition value_error (message : bytes) : ExcelError :=
  {| error_kind := ErrValue; error_message := Some message |}.

Definition remove (id : Z) (r : SheetRegistry) : result ExcelError SheetRegistry :=
  match name_at r id with
  | None => Err (value_error (str "Sheet ID does not exist"))
  | Some [] => Ok r
  | Some name =>
      Ok {| id_by_name := delete (to_lowercase name) (id_by_name r);
            name_by_id := <[Z.to_nat id := []]> (name_by_id r);
            by_display := delete name (by_display r) |}
  end.

Definition rename (id : Z) (new_name : bytes) (r : SheetRegistry) : result ExcelError SheetRegistry :=
  match name_at r id with
  | None => Err (value_error (str "Sheet ID does not exist"))
  | Some old_name =>
      let taken :=
        match id_by_name r !! to_lowercase new_name with
        | Some existing_id => negb (existing_id =? id)
        | None => false
        end in
      if taken then Err (value_error (str "Sheet name '" ++ new_name ++ str "' already exists"))
      else
        Ok {| id_by_name := <[to_lowercase new_name := id]> (delete (to_lowercase old_name) (id_by_name r));
              name_by_id := <[Z.to_nat id := new_name]> (name_by_id r);
              by_display := <[new_name := id]> (delete old_name (by_display r)) |}
  end.

(** * The registry as a map *)

(** The sheet [id] is there under the display name [name]. *)
Definition sheet (r : SheetRegistry) (id : Z) (name : bytes) : Prop :=
  0 ≤ id ∧ name_at r id = Some name ∧ name ≠ [].

(** The indices agree with the names: no two sheets have names that differ only in case. *)
Record registry_ok (r : SheetRegistry) : Prop := {
  ok_names : ∀ key id, id_by_name r !! key = Some id ↔ ∃ name, sheet r id name ∧ to_lowercase name = key;
  ok_display : ∀ name id, by_display r !! name = Some id ↔ sheet r id name
}.

Lemma new_ok : registry_ok new.
Proof.
  split; intros; simpl; rewrite lookup_empty; (split; [done|]); unfold sheet, name_at; simpl.
  - intros (n & (_ & H & _) & _). by rewrite lookup_nil in H.
  - intros (_ & H & _). by rewrite lookup_nil in H.
Qed.

Section ok.
Context (r : SheetRegistry) (Hr : registry_ok r).

Lemma sheet_key id n : sheet r id n → id_by_name r !! to_lowercase n = Some id.
Proof using Hr. intros H. apply (ok_names _ Hr). eauto. Qed.

Lemma sheet_fun id n n' : sheet r id n → sheet r id n' → n = n'.
Proof using. unfold sheet. intros (_ & ? & _) (_ & ? & _). congruence. Qed.

Lemma sheet_inj id id' n n' : sheet r id n → sheet r id' n' → to_lowercase n = to_lowercase n' → id = id'.
Proof using Hr. intros H%sheet_key H'%sheet_key E. rewrite E in H. congruence. Qed.

Lemma get_id_sheet n id : get_id r n = Some id ↔ ∃ n', sheet r id n' ∧ to_lowercase n' = to_lowercase n.
Proof using Hr.
  unfold get_id. destruct (by_display r !! n) as [id'|] eqn:E.
  - apply (ok_display _ Hr) in E. split; [intros [= <-]; eauto|]. intros (n' & Hn' & El).
    f_equal. by eapply sheet_inj.
  - apply (ok_names _ Hr).
Qed.

Lemma name_sheet id n : 0 ≤ id → n ≠ [] → name r id = n ↔ sheet r id n.
Proof using.
  unfold name, sheet. intros ? Hn. destruct (name_at r id) as [n'|]; simpl; naive_solver.
Qed.

(** A name goes from all three indices, and comes into them. *)
Lemma erase_ok id old (m : SheetRegistry) : name_at r id = Some old → 0 ≤ id →
  (∀ id' n', sheet m id' n' ↔ sheet r id' n' ∧ id' ≠ id) →
  id_by_name m = delete (to_lowercase old) (id_by_name r) → by_display m = delete old (by_display r) →
  registry_ok m.
Proof using Hr.
  intros Hold Hid Hm Ek Ed.
  assert (Ho : ∀ id' n', sheet r id' n' → to_lowercase n' = to_lowercase old → id' = id).
  { intros id' n' Hs El. apply (sheet_inj _ _ _ old Hs); [|done]. split_and!; [done..|]. intros ->.
    destruct Hs as (_ & _ & Hn). apply Hn, to_lowercase_nil. rewrite El. by apply to_lowercase_nil. }
  split.
  - intros key id'. rewrite Ek, lookup_delete_Some, (ok_names _ Hr). split.
    + intros (Hk & n & Hs & <-). exists n. split; [|done]. apply Hm. split; [done|]. intros ->.
      destruct Hs as (_ & Hs & _). congruence.
    + intros (n & [Hs Hne]%Hm & <-). split; [|eauto]. intros E. by apply Hne, (Ho _ n).
  - intros n id'. rewrite Ed, lookup_delete_Some, (ok_display _ Hr), Hm. split.
    + intros [Hn Hs]. split; [done|]. intros ->. destruct Hs as (_ & Hs & _). congruence.
    + intros [Hs Hne]. split; [|done]. intros ->. by apply Hne, (Ho _ n).
Qed.

Lemma add_ok id n (m : SheetRegistry) :
  (∀ n', ¬ sheet r id n') → (∀ id' n', sheet r id' n' → to_lowercase n' ≠ to_lowercase n) →
  (∀ id' n', sheet m id' n' ↔ (id' = id ∧ n' = n) ∨ sheet r id' n') →
  id_by_name m = <[to_lowercase n := id]> (id_by_name r) → by_display m = <[n := id]> (by_display r) →
  registry_ok m.
Proof using Hr.
  intros Hid Hn Hm Ek Ed. split.
  - intros key id'. rewrite Ek, lookup_insert_Some, (ok_names _ Hr). split.
    + intros [[<- <-]|(Hk & n' & Hs & <-)]; [exists n|exists n']; (split; [|done]); apply Hm; auto.
    + intros (n' & [[-> ->]|Hs]%Hm & <-); [by left|]. right. split; [|eauto]. intros E. by apply (Hn _ _ Hs).
  - intros n' id'. rewrite Ed, lookup_insert_Some, (ok_display _ Hr), Hm. split.
    + intros [[<- <-]|[_ ?]]; auto.
    + intros [[-> ->]|Hs]; [by left|]. right. split; [|done]. intros ->. by apply (Hn _ _ Hs).
Qed.

End ok.

Lemma name_at_write i n r id keys displays :
  name_at {| id_by_name := keys; name_by_id := <[i := n]> (name_by_id r); by_display := displays |} id =
  if decide (Z.to_nat id = i ∧ (i < length (name_by_id r))%nat) then Some n else name_at r id.
Proof.
  unfold name_at. simpl. case_decide as H.
  - destruct H as [-> ?]. by apply list_lookup_insert_eq.
  - destruct (decide (Z.to_nat id = i)) as [E|?]; [|by apply list_lookup_insert_ne].
    rewrite E, list_insert_ge; [done|]. apply Nat.nlt_ge. intros ?. by apply H.
Qed.

Lemma registry_remove_spec r id : registry_ok r → 0 ≤ id →
  match remove id r with
  | Ok m => registry_ok m ∧ ∀ id' n', sheet m id' n' ↔ sheet r id' n' ∧ id' ≠ id
  | Err _ => name_at r id = None
  | Panic => False
  end.
Proof.
  intros Hr Hid. unfold remove. destruct (name_at r id) as [[|c old]|] eqn:E; [| |done].
  - split; [done|]. intros id' n'. split; [|by intros [? _]]. intros Hs. split; [done|]. intros ->.
    destruct Hs as (_ & Hs & ?). congruence.
  - assert (H : ∀ id' n', sheet {| id_by_name := delete (to_lowercase (c :: old)) (id_by_name r);
        name_by_id := <[Z.to_nat id := []]> (name_by_id r);
        by_display := delete (c :: old) (by_display r) |} id' n' ↔ sheet r id' n' ∧ id' ≠ id).
    { intros id' n'. unfold sheet at 1. rewrite name_at_write. apply lookup_lt_Some in E as Hlt.
      case_decide as Hd; unfold sheet; [|split; [intros (?&?&?); split; [done|]; intros ->; tauto|tauto]].
      split; [intros (_ & [= <-] & ?); done|]. intros [[? _] Hne]. destruct Hd as [Hd _]. lia. }
    split; [|exact H]. by eapply erase_ok.
Qed.

Lemma rename_spec r id n : registry_ok r → 0 ≤ id → n ≠ [] →
  match rename id n r with
  | Ok m => registry_ok m ∧ ∀ id' n', sheet m id' n' ↔ (id' = id ∧ n' = n) ∨ (sheet r id' n' ∧ id' ≠ id)
  | Err _ => name_at r id = None ∨ ∃ id' n', id' ≠ id ∧ sheet r id' n' ∧ to_lowercase n' = to_lowercase n
  | Panic => False
  end.
Proof.
  intros Hr Hid Hne. unfold rename. destruct (name_at r id) as [old|] eqn:E; [|by left].
  apply lookup_lt_Some in E as Hlt.
  destruct (match _ with Some _ => _ | _ => _ end) eqn:Et.
  { right. destruct (id_by_name r !! to_lowercase n) as [id'|] eqn:En; [|done].
    apply negb_true_iff, Z.eqb_neq in Et. apply (ok_names _ Hr) in En as (n' & ? & ?). eauto. }
  set (r1 := {| id_by_name := delete (to_lowercase old) (id_by_name r);
                name_by_id := <[Z.to_nat id := []]> (name_by_id r);
                by_display := delete old (by_display r) |}).
  assert (H1 : ∀ id' n', sheet r1 id' n' ↔ sheet r id' n' ∧ id' ≠ id).
  { intros id' n'. unfold sheet at 1. unfold r1. rewrite name_at_write.
    case_decide as Hd; unfold sheet; [|split; [intros (?&?&?); split; [done|]; intros ->; tauto|tauto]].
    split; [intros (_ & [= <-] & ?); done|]. intros [[? _] Hn']. destruct Hd as [Hd _]. lia. }
  assert (Hr1 : registry_ok r1) by by eapply erase_ok.
  match goal with |- registry_ok ?m ∧ _ => assert (H2 : ∀ id' n',
    sheet m id' n' ↔ (id' = id ∧ n' = n) ∨ sheet r1 id' n') end.
  { intros id' n'. rewrite H1. unfold sheet at 1. rewrite name_at_write.
    case_decide as Hd; unfold sheet.
    - destruct Hd as [Hd _]. split; [intros (? & [= <-] & _); left; split; [lia|done]|].
      intros [[-> ->]|[[? _] Hn']]; [done|lia].
    - split; [intros (?&?&?); right; split; [done|]; intros ->; tauto|]. intros [[-> ->]|[? _]]; [tauto|done]. }
  split; [|intros id' n'; by rewrite H2, H1]. eapply (add_ok _ Hr1); [| |exact H2|done..].
  - by intros n' [_ ?]%H1.
  - intros id' n' [Hs Hn']%H1 El. apply (sheet_key _ Hr) in Hs. rewrite El in Hs. rewrite Hs in Et.
    by apply negb_false_iff, Z.eqb_eq in Et.
Qed.

Lemma id_for_spec r n : registry_ok r → n ≠ [] → Z.of_nat (length (name_by_id r)) < 2 ^ 16 →
  let '(m, id) := id_for n r in
  registry_ok m ∧ (∃ n', sheet m id n' ∧ to_lowercase n' = to_lowercase n) ∧
  (m = r ∨ (name_at r id = None ∧ ∀ id' n', sheet m id' n' ↔ (id' = id ∧ n' = n) ∨ sheet r id' n')).
Proof.
  intros Hr Hne Hlen. unfold id_for. destruct (id_by_name r !! to_lowercase n) as [id|] eqn:E.
  - apply (ok_names _ Hr) in E as (n' & ? & ?). split_and!; eauto.
  - rewrite Z.mod_small by lia. set (len := length (name_by_id r)).
    assert (Hnone : name_at r (Z.of_nat len) = None).
    { unfold name_at. rewrite Nat2Z.id. apply lookup_ge_None. subst len. lia. }
    match goal with |- registry_ok ?m ∧ _ => assert (H2 : ∀ id' n',
      sheet m id' n' ↔ (id' = Z.of_nat len ∧ n' = n) ∨ sheet r id' n') end.
    { intros id' n'. unfold sheet, name_at. simpl.
      destruct (decide (Z.to_nat id' < len)%nat); [rewrite lookup_app_l by done|rewrite lookup_app_r by (subst len; lia)].
      - split; [by right|]. intros [[-> ->]|?]; [lia|done].
      - rewrite (lookup_ge_None_2 (name_by_id r)) by (subst len; lia). destruct (Z.to_nat id' - _)%nat eqn:Ei; simpl.
        + split; [intros (? & [= ->] & _); left; split; [subst len; lia|done]|]. intros [[-> ->]|(_ & ? & _)]; [|done].
          split_and!; [lia|done..].
        + split; [intros (_ & ? & _); done|]. intros [[-> ->]|(_ & ? & _)]; [subst len; lia|done]. }
    split_and!; [|exists n; split; [apply H2; by left|done]|by right].
    eapply (add_ok _ Hr); [| |exact H2|done..].
    + intros n' (_ & Hs & _). congruence.
    + intros id' n' Hs El. apply (sheet_key _ Hr) in Hs. congruence.
Qed.

(** * Histories *)

Inductive request : Type := AskId (name : bytes) | Remove (id : Z) | Rename (id : Z) (name : bytes).

(** What a request does to the registry; a refused one changes nothing. *)
Definition serve (q : request) (r : SheetRegistry) : SheetRegistry :=
  match q with
  | AskId name => (id_for name r).1
  | Remove id => match remove id r with Ok m => m | _ => r end
  | Rename id name => match rename id name r with Ok m => m | _ => r end
  end.

(** Ids are not negative and names not empty. *)
Definition sane (q : request) : Prop :=
  match q with AskId n => n ≠ [] | Remove id => 0 ≤ id | Rename id n => 0 ≤ id ∧ n ≠ [] end.

Definition asks_id (q : request) : bool := match q with AskId _ => true | _ => false end.
Definition asked (qs : list request) : nat := length (List.filter asks_id qs).

(** Any requests, of which at most [2^16] ask for an id. *)
Definition history_ok (qs : list request) : Prop := Forall sane qs ∧ Z.of_nat (asked qs) ≤ 2 ^ 16.

Lemma serve_length q r : (length (name_by_id (serve q r)) ≤ length (name_by_id r) + asked [q])%nat.
Proof.
  unfold asked. destruct q as [n|id|id n]; simpl.
  - unfold id_for. destruct (id_by_name r !! _); simpl; [lia|]. rewrite length_app. simpl. lia.
  - unfold remove. destruct (name_at r id) as [[|]|]; simpl; rewrite ?length_insert; lia.
  - unfold rename. destruct (name_at r id) as [old|]; [|lia]. destruct (match _ with Some _ => _ | _ => _ end); simpl;
      rewrite ?length_insert; lia.
Qed.

Lemma serve_ok q r : registry_ok r → sane q → Z.of_nat (length (name_by_id r) + asked [q]) ≤ 2 ^ 16 → registry_ok (serve q r).
Proof.
  intros Hr Hq Hlen. unfold asked in Hlen. destruct q as [n|id|id n]; simpl in *.
  - pose proof (id_for_spec r n Hr Hq ltac:(lia)). destruct (id_for n r). tauto.
  - pose proof (registry_remove_spec r id Hr Hq). destruct (remove id r); [tauto|done|done].
  - pose proof (rename_spec r id n Hr (proj1 Hq) (proj2 Hq)). destruct (rename id n r); [tauto|done|done].
Qed.

Lemma history_registry qs r : registry_ok r → Forall sane qs →
  Z.of_nat (length (name_by_id r) + asked qs) ≤ 2 ^ 16 →
  registry_ok (foldl (λ r q, serve q r) r qs) ∧
  (length (name_by_id (foldl (λ r q, serve q r) r qs)) ≤ length (name_by_id r) + asked qs)%nat.
Proof.
  revert r. induction qs as [|q qs IH]; intros r Hr Hqs Hlen; simpl in *; [split; [done|lia]|].
  apply Forall_cons in Hqs as [Hq Hqs]. pose proof (serve_length q r).
  assert (Ha : asked (q :: qs) = (asked [q] + asked qs)%nat) by (unfold asked; simpl; by destruct (asks_id q)).
  destruct (IH (serve q r)); [apply serve_ok; [done..|lia]|done|lia|]. split; [done|lia].
Qed.

(** A name asked for after [2^16] others gets the id 0, which is another sheet's. *)
Lemma id_wraps r n : Z.of_nat (length (name_by_id r)) = 2 ^ 16 → id_by_name r !! to_lowercase n = None →
  let '(m, id) := id_for n r in id = 0 ∧ get_id m n = Some 0 ∧ name m 0 = name r 0.
Proof.
  intros Hl Hn. unfold id_for. rewrite Hn, Hl. change (2 ^ 16 mod 2 ^ 16) with 0. split_and!; [done| |].
  - unfold get_id. cbn [by_display]. by rewrite lookup_insert_eq.
  - unfold name, name_at. cbn [name_by_id]. by rewrite lookup_app_l by (simpl; lia).
Qed.

(** C17: after any history of requests, of which at most 2^16 ask for the id of a name and in which
    names are not empty, the registry is a finite map from ids to display names in which no two names
    differ only in case: [get_id] finds a name in any case and nothing else, [id_for] (of a non-empty
    name, while fewer than 2^16 ids were given) keeps the id of a known name and gives a new one to
    another, [remove] takes exactly one sheet out, and [rename] to a non-empty name renames exactly one
    sheet or is refused because the id was never given or the name is another sheet's.  Ids are 16 bits
    wide, so that a name after 2^16 others would share the id 0 ([id_wraps]), and the empty name marks
    removed sheets, so that asking for its id registers a sheet that is not listed ([empty_name]). *)
Theorem sheet_registry_refines qs : history_ok qs →
  let r := foldl (λ r q, serve q r) new qs in
  (∀ id id' n n', sheet r id n → sheet r id' n' → to_lowercase n = to_lowercase n' → id = id' ∧ n = n') ∧
  (∀ n id, get_id r n = Some id ↔ ∃ n', sheet r id n' ∧ to_lowercase n' = to_lowercase n) ∧
  (∀ n, n ≠ [] → Z.of_nat (length (name_by_id r)) < 2 ^ 16 →
     let '(m, id) := id_for n r in
     (∃ n', sheet m id n' ∧ to_lowercase n' = to_lowercase n) ∧
     (m = r ∨ (name_at r id = None ∧ ∀ id' n', sheet m id' n' ↔ (id' = id ∧ n' = n) ∨ sheet r id' n'))) ∧
  (∀ id, 0 ≤ id → match remove id r with
     | Ok m => ∀ id' n', sheet m id' n' ↔ sheet r id' n' ∧ id' ≠ id
     | Err _ => name_at r id = None
     | Panic => False
     end) ∧
  (∀ id n, 0 ≤ id → n ≠ [] → match rename id n r with
     | Ok m => ∀ id' n', sheet m id' n' ↔ (id' = id ∧ n' = n) ∨ (sheet r id' n' ∧ id' ≠ id)
     | Err _ => name_at r id = None ∨ ∃ id' n', id' ≠ id ∧ sheet r id' n' ∧ to_lowercase n' = to_lowercase n
     | Panic => False
     end).
Proof.
  intros [Hqs Hlen] r. destruct (history_registry qs new new_ok Hqs) as [Hr _]; [simpl; lia|].
  fold r in Hr. split_and!.
  - intros id id' n n' Hs Hs' El. assert (id = id') as -> by by eapply sheet_inj. split; [done|].
    by eapply sheet_fun.
  - intros n id. by apply get_id_sheet.
  - intros n Hn Hl. pose proof (id_for_spec r n Hr Hn Hl). destruct (id_for n r). tauto.
  - intros id Hid. pose proof (registry_remove_spec r id Hr Hid). destruct (remove id r); [tauto|done..].
  - intros id n Hid Hn. pose proof (rename_spec r id n Hr Hid Hn). destruct (rename id n r); [tauto|done..].
Qed.

End registry.

(** The case fold of ASCII texts. *)
#[export] Instance ascii_fold : CaseFold.
Proof. refine {| to_lowercase := fmap to_ascii_lowercase |}. intros s. by destruct s. Defined.

(** The id of the empty name: found, but not a sheet. *)
Example empty_name :
  let '(r, id) := id_for [] new in get_id r [] = Some id ∧ name r id = [] ∧ all_sheets r = [] ∧ remove id r = Ok r.
Proof. vm_compute. done. Qed.

Lemma sheet_registry_refines_witness :
  let r := foldl (λ r q, serve q r) new [AskId (str "Sheet1"); AskId (str "Data"); Rename 0 (str "Main"); Remove 1] in
  get_id r (str "MAIN") = Some 0 ∧ get_id r (str "data") = None ∧ ∃ n, sheet r 0 n ∧ to_lowercase n = str "main".
Proof.
  intros r. split; [vm_compute; reflexivity|]. split; [vm_compute; reflexivity|].
  destruct (sheet_registry_refines
    [AskId (str "Sheet1"); AskId (str "Data"); Rename 0 (str "Main"); Remove 1]) as (_ & H & _).
  - split; [|unfold asked; simpl; lia]. repeat constructor; simpl; lia || discriminate.
  - apply (H (str "MAIN") 0). vm_compute. reflexivity.
Defined.
