(* ===== verification/Adjust.v ===== *)
(** Reference adjustment ([crates/formualizer-eval/src/engine/graph/editor/reference_adjuster.rs],
    and [CellRef] of [crates/formualizer-eval/src/reference.rs]): what happens to the references of
    a formula when rows or columns are inserted or deleted, when the formula is copied, and when a
    block of cells is moved.

    [u32] and [i32] sums are checked for overflow, as in a debug build: [Panic]. *)
From S2P Require Import Prelude Coords Address StructuredRef Reference Parser SheetRegistry.

Local Open Scope Z_scope.

(** * Operations and policies *)

Inductive AbsShiftPolicy : Type := Track | Pin.
Definition pins (p : AbsShiftPolicy) : bool := match p with Pin => true | Track => false end.

Inductive ShiftOperation : Type :=
| InsertRows (sheet_id before count : Z)
| DeleteRows (sheet_id start count : Z)
| InsertColumns (sheet_id before count : Z)
| DeleteColumns (sheet_id start count : Z).

Record CellRef : Type := { sheet_id : Z; cell_coord : RelativeCoord.t }.

Inductive ReferenceAdjustment : Type :=
| Adjusted (reference : ReferenceType)
| Invalidated.

Section adjust.
Context {F : FloatText} {fold : CaseFold}.

Record ReferenceContext : Type := { formula_sheet_id : Z; sheet_registry : SheetRegistry }.

Definition reference_sheet_id (context : ReferenceContext) (sheet : option bytes) : option Z :=
  match sheet with
  | Some name => get_id (sheet_registry context) name
  | None => Some (formula_sheet_id context)
  end.

(** ** Cells *)

(** [Coord::new] at another row or column, with the same anchors. *)
Definition at_row (row : Z) (c : RelativeCoord.t) : result Empty_set RelativeCoord.t :=
  RelativeCoord.new row (RelativeCoord.col c) (RelativeCoord.row_abs c) (RelativeCoord.col_abs c).
Definition at_col (col : Z) (c : RelativeCoord.t) : result Empty_set RelativeCoord.t :=
  RelativeCoord.new (RelativeCoord.row c) col (RelativeCoord.row_abs c) (RelativeCoord.col_abs c).

(** The coordinate after the operation; [None] when its cell is deleted. *)
Definition adjust_coord (coord : RelativeCoord.t) (op : ShiftOperation) (policy : AbsShiftPolicy)
  : result Empty_set (option RelativeCoord.t) :=
  let row := RelativeCoord.row coord in
  let col := RelativeCoord.col coord in
  match op with
  | InsertRows _ before count =>
      if (pins policy && RelativeCoord.row_abs coord) || (row <? before) then Ok (Some coord)
      else row ← add_u32 row count; Some <$> at_row row coord
  | DeleteRows _ start count =>
      if pins policy && RelativeCoord.row_abs coord then Ok (Some coord)
      else
        limit ← add_u32 start count;
        if (start <=? row) && (row <? limit) then Ok None
        else if limit <=? row then Some <$> at_row (row - count) coord
        else Ok (Some coord)
  | InsertColumns _ before count =>
      if (pins policy && RelativeCoord.col_abs coord) || (col <? before) then Ok (Some coord)
      else col ← add_u32 col count; Some <$> at_col col coord
  | DeleteColumns _ start count =>
      if pins policy && RelativeCoord.col_abs coord then Ok (Some coord)
      else
        limit ← add_u32 start count;
        if (start <=? col) && (col <? limit) then Ok None
        else if limit <=? col then Some <$> at_col (col - count) coord
        else Ok (Some coord)
  end.

Definition op_sheet_id (op : ShiftOperation) : Z :=
  match op with
  | InsertRows sheet _ _ | DeleteRows sheet _ _ | InsertColumns sheet _ _ | DeleteColumns sheet _ _ => sheet
  end.

Definition adjust_cell_ref_with_policy (cell_ref : CellRef) (op : ShiftOperation) (policy : AbsShiftPolicy)
  : result Empty_set (option CellRef) :=
  if sheet_id cell_ref =? op_sheet_id op then
    adjusted ← adjust_coord (cell_coord cell_ref) op policy;
    Ok (match adjusted with
        | Some c => Some {| sheet_id := sheet_id cell_ref; cell_coord := c |}
        | None => None
        end)
  else Ok (Some cell_ref).

Definition adjust_cell_ref (cell_ref : CellRef) (op : ShiftOperation) : result Empty_set (option CellRef) :=
  adjust_cell_ref_with_policy cell_ref op Track.

(** ** Ranges

    The code treats the two axes alike; a pair is the bounds of one axis. *)

Definition adjust_insert (policy : AbsShiftPolicy) (before count : Z) (b : AxisBound) : result Empty_set Z :=
  if pins policy && abs b then Ok (index b)
  else if before <=? index b then add_u32 (index b) count
  else Ok (index b).

Definition adjust_delete (policy : AbsShiftPolicy) (start count : Z) (b : AxisBound) : result Empty_set Z :=
  if pins policy && abs b then Ok (index b)
  else
    limit ← add_u32 start count;
    if limit <=? index b then Ok (index b - count)
    else if start <=? index b then Ok start
    else Ok (index b).

(** [Option::map] with a body that can panic. *)
Definition map_bound {A} (f : A → result Empty_set Z) (b : option A) : result Empty_set (option Z) :=
  match b with Some b => Some <$> f b | None => Ok None end.

(** [None] when the whole range is deleted. *)
Definition delete_axis (policy : AbsShiftPolicy) (start count : Z) (lo hi : option AxisBound)
  : result Empty_set (option (option Z * option Z)) :=
  let each :=
    lo ← map_bound (adjust_delete policy start count) lo;
    hi ← map_bound (adjust_delete policy start count) hi;
    Ok (Some (lo, hi)) in
  match lo, hi with
  | Some range_start, Some range_end =>
      if negb (pins policy) || (negb (abs range_start) && negb (abs range_end)) then
        let range_start := index range_start in
        let range_end := index range_end in
        limit ← add_u32 start count;
        if (range_end <? start) || (limit <=? range_start) then
          let adj_start := if limit <=? range_start then range_start - count else range_start in
          let adj_end := if limit <=? range_end then range_end - count else range_end in
          Ok (Some (Some adj_start, Some adj_end))
        else if (start <=? range_start) && (range_end <? limit) then Ok None
        else
          let adj_start := if range_start <? start then range_start else start in
          let adj_end := if limit <=? range_end then range_end - count else saturating_sub start 1 in
          Ok (Some (Some adj_start, Some adj_end))
      else each
  | _, _ => each
  end.

Definition insert_axis (policy : AbsShiftPolicy) (before count : Z) (lo hi : option AxisBound)
  : result Empty_set (option (option Z * option Z)) :=
  lo ← map_bound (adjust_insert policy before count) lo;
  hi ← map_bound (adjust_insert policy before count) hi;
  Ok (Some (lo, hi)).

Definition keep_axis (lo hi : option AxisBound) : result Empty_set (option (option Z * option Z)) :=
  Ok (Some (index <$> lo, index <$> hi)).

Definition rows_axis (op : ShiftOperation) (policy : AbsShiftPolicy) (lo hi : option AxisBound) :=
  match op with
  | InsertRows _ before count => insert_axis policy before count lo hi
  | DeleteRows _ start count => delete_axis policy start count lo hi
  | _ => keep_axis lo hi
  end.
Definition cols_axis (op : ShiftOperation) (policy : AbsShiftPolicy) (lo hi : option AxisBound) :=
  match op with
  | InsertColumns _ before count => insert_axis policy before count lo hi
  | DeleteColumns _ start count => delete_axis policy start count lo hi
  | _ => keep_axis lo hi
  end.

(** Back to 1-based bounds. *)
Definition next_index : option Z → result Empty_set (option Z) := map_bound (λ i, add_u32 i 1).

(** ** References *)

Definition adjust_reference (reference : ReferenceType) (op : ShiftOperation) (policy : AbsShiftPolicy)
  (context : option ReferenceContext) : result Empty_set ReferenceAdjustment :=
  let elsewhere (sheet : option bytes) :=
    match context with
    | Some context => negb (bool_decide (reference_sheet_id context sheet = Some (op_sheet_id op)))
    | None => false
    end in
  match reference with
  | Cell sheet part =>
      if elsewhere sheet then Ok (Adjusted reference)
      else
        shared ← to_sheet_ref_lossy reference;
        match shared with
        | Some (SheetCell cell) =>
            coord ← RelativeCoord.new (RelativeCoord.row (coord cell)) (RelativeCoord.col (coord cell))
                      (row_abs part) (col_abs part);
            adjusted ← adjust_cell_ref_with_policy {| sheet_id := op_sheet_id op; cell_coord := coord |} op policy;
            match adjusted with
            | None => Ok Invalidated
            | Some adjusted =>
                let c := cell_coord adjusted in
                Ok (Adjusted (Cell sheet
                  {| row := RelativeCoord.row c + 1; col := RelativeCoord.col c + 1;
                     row_abs := row_abs part; col_abs := col_abs part |}))
            end
        | _ => Ok (Adjusted reference)
        end
  | Range sheet part =>
      if elsewhere sheet then Ok (Adjusted reference)
      else
        shared ← to_sheet_ref_lossy reference;
        match shared with
        | Some (SheetRange range) =>
            rows ← rows_axis op policy (Address.start_row range) (Address.end_row range);
            match rows with
            | None => Ok Invalidated
            | Some (sr, er) =>
                cols ← cols_axis op policy (Address.start_col range) (Address.end_col range);
                match cols with
                | None => Ok Invalidated
                | Some (sc, ec) =>
                    sr ← next_index sr;
                    sc ← next_index sc;
                    er ← next_index er;
                    ec ← next_index ec;
                    Ok (Adjusted (Range sheet
                      {| start_row := sr; start_col := sc; end_row := er; end_col := ec;
                         start_row_abs := start_row_abs part; start_col_abs := start_col_abs part;
                         end_row_abs := end_row_abs part; end_col_abs := end_col_abs part |}))
                end
            end
        | _ => Ok (Adjusted reference)
        end
  | _ => Ok (Adjusted reference)
  end.

(** ** Formulas *)

(** The children with their changes, and whether there is one. *)
Definition map_changed {A} (f : A → result Empty_set (option A)) : list A → result Empty_set (list A * bool) :=
  fix go l :=
    match l with
    | [] => Ok ([], false)
    | x :: l =>
        x' ← f x;
        '(l', changed) ← go l;
        Ok (default x x' :: l', match x' with Some _ => true | None => changed end)
    end.

Definition map_rows {A} (f : A → result Empty_set (option A))
  : list (list A) → result Empty_set (list (list A) * bool) :=
  fix go rows :=
    match rows with
    | [] => Ok ([], false)
    | row :: rows =>
        '(row', row_changed) ← map_changed f row;
        '(rows', changed) ← go rows;
        Ok (row' :: rows', row_changed || changed)
    end.

Definition is_changed {A} (x : option A) : bool := match x with Some _ => true | None => false end.

Definition ref_error : ASTNodeType :=
  Lit (LitError {| error_kind := ErrRef; error_message := None |}).

Section inner.
Context (op : ShiftOperation) (policy : AbsShiftPolicy) (context : option ReferenceContext).

Fixpoint adjust_ast_if_changed_inner (ast : ASTNode) : result Empty_set (option ASTNode) :=
  match ast with
  | Node ty _ contains_volatile =>
      let changed (ty : ASTNodeType) := Some (Node ty None contains_volatile) in
      match ty with
      | Parser.Reference _ reference =>
          adjusted ← adjust_reference reference op policy context;
          match adjusted with
          | Adjusted adjusted =>
              if bool_decide (adjusted = reference) then Ok None
              else Ok (changed (Parser.Reference (normalise adjusted) adjusted))
          | Invalidated => Ok (changed ref_error)
          end
      | BinaryOp bin_op lhs rhs =>
          adjusted_left ← adjust_ast_if_changed_inner lhs;
          adjusted_right ← adjust_ast_if_changed_inner rhs;
          if is_changed adjusted_left || is_changed adjusted_right
          then Ok (changed (BinaryOp bin_op (default lhs adjusted_left) (default rhs adjusted_right)))
          else Ok None
      | UnaryOp un_op expr =>
          adjusted ← adjust_ast_if_changed_inner expr;
          match adjusted with
          | Some expr => Ok (changed (UnaryOp un_op expr))
          | None => Ok None
          end
      | Function name args =>
          '(args, args_changed) ← map_changed adjust_ast_if_changed_inner args;
          if (args_changed : bool) then Ok (changed (Function name args)) else Ok None
      | Call callee args =>
          adjusted_callee ← adjust_ast_if_changed_inner callee;
          '(args, args_changed) ← map_changed adjust_ast_if_changed_inner args;
          if is_changed adjusted_callee || args_changed
          then Ok (changed (Call (default callee adjusted_callee) args))
          else Ok None
      | ArrayLit rows =>
          '(rows, rows_changed) ← map_rows adjust_ast_if_changed_inner rows;
          if (rows_changed : bool) then Ok (changed (ArrayLit rows)) else Ok None
      | Lit _ | Omitted => Ok None
      end
  end.

End inner.

Definition adjust_ast_if_changed_with_policy (ast : ASTNode) (op : ShiftOperation) (policy : AbsShiftPolicy)
  : result Empty_set (option ASTNode) := adjust_ast_if_changed_inner op policy None ast.
Definition adjust_ast_if_changed (ast : ASTNode) (op : ShiftOperation) : result Empty_set (option ASTNode) :=
  adjust_ast_if_changed_with_policy ast op Track.
Definition adjust_ast_with_policy (ast : ASTNode) (op : ShiftOperation) (policy : AbsShiftPolicy)
  : result Empty_set ASTNode := default ast <$> adjust_ast_if_changed_inner op policy None ast.
Definition adjust_ast (ast : ASTNode) (op : ShiftOperation) : result Empty_set ASTNode :=
  adjust_ast_with_policy ast op Track.
Definition adjust_ast_if_changed_with_policy_in_context (ast : ASTNode) (op : ShiftOperation)
  (policy : AbsShiftPolicy) (context : ReferenceContext) : result Empty_set (option ASTNode) :=
  adjust_ast_if_changed_inner op policy (Some context) ast.
Definition adjust_ast_if_changed_in_context (ast : ASTNode) (op : ShiftOperation) (context : ReferenceContext)
  : result Empty_set (option ASTNode) := adjust_ast_if_changed_with_policy_in_context ast op Track context.
Definition adjust_ast_with_policy_in_context (ast : ASTNode) (op : ShiftOperation)
  (policy : AbsShiftPolicy) (context : ReferenceContext) : result Empty_set ASTNode :=
  default ast <$> adjust_ast_if_changed_inner op policy (Some context) ast.
Definition adjust_ast_in_context (ast : ASTNode) (op : ShiftOperation) (context : ReferenceContext)
  : result Empty_set ASTNode := adjust_ast_with_policy_in_context ast op Track context.

(** * Copying: [RelativeReferenceAdjuster] *)

(** [(x as i32 + offset).max(0) as u32]. *)
Definition shift_clamped (x offset : Z) : result Empty_set Z :=
  let sum := as_i32 x + offset in
  if bool_decide (- 2 ^ 31 ≤ sum < 2 ^ 31) then Ok (as_u32 (Z.max sum 0)) else Panic.

Record RelativeReferenceAdjuster : Type := { row_offset : Z; col_offset : Z }.

Definition copy_axis (offset : Z) (b : AxisBound) : result Empty_set Z :=
  moved ← (if abs b then Ok (index b) else shift_clamped (index b) offset);
  add_u32 moved 1.

Definition bound_abs (b : option AxisBound) : bool := match b with Some b => abs b | None => false end.

Definition copy_reference (self : RelativeReferenceAdjuster) (reference : ReferenceType)
  : result Empty_set ReferenceType :=
  shared ← to_sheet_ref_lossy reference;
  match reference, shared with
  | Cell sheet _, Some (SheetCell cell) =>
      let c := coord cell in
      new_row0 ← (if RelativeCoord.row_abs c then Ok (RelativeCoord.row c)
                  else shift_clamped (RelativeCoord.row c) (row_offset self));
      new_col0 ← (if RelativeCoord.col_abs c then Ok (RelativeCoord.col c)
                  else shift_clamped (RelativeCoord.col c) (col_offset self));
      row1 ← add_u32 new_row0 1;
      col1 ← add_u32 new_col0 1;
      Ok (Cell sheet {| row := row1; col := col1;
                        row_abs := RelativeCoord.row_abs c; col_abs := RelativeCoord.col_abs c |})
  | Range sheet _, Some (SheetRange range) =>
      sr ← map_bound (copy_axis (row_offset self)) (Address.start_row range);
      sc ← map_bound (copy_axis (col_offset self)) (Address.start_col range);
      er ← map_bound (copy_axis (row_offset self)) (Address.end_row range);
      ec ← map_bound (copy_axis (col_offset self)) (Address.end_col range);
      Ok (Range sheet {| start_row := sr; start_col := sc; end_row := er; end_col := ec;
                         start_row_abs := bound_abs (Address.start_row range);
                         start_col_abs := bound_abs (Address.start_col range);
                         end_row_abs := bound_abs (Address.end_row range);
                         end_col_abs := bound_abs (Address.end_col range) |})
  | _, _ => Ok reference
  end.

(** [iter().map().collect()] with a body that can panic. *)
Definition map_all {A} (f : A → result Empty_set A) : list A → result Empty_set (list A) :=
  fix go l :=
    match l with
    | [] => Ok []
    | x :: l => x ← f x; l ← go l; Ok (x :: l)
    end.

(** Calls and arrays are cloned as they are. *)
Fixpoint adjust_formula (self : RelativeReferenceAdjuster) (ast : ASTNode) : result Empty_set ASTNode :=
  match ast with
  | Node ty source_token contains_volatile =>
      let node ty := Node ty source_token contains_volatile in
      match ty with
      | Parser.Reference original reference =>
          adjusted ← copy_reference self reference; Ok (node (Parser.Reference original adjusted))
      | BinaryOp op lhs rhs =>
          lhs ← adjust_formula self lhs;
          rhs ← adjust_formula self rhs;
          Ok (node (BinaryOp op lhs rhs))
      | UnaryOp op expr => expr ← adjust_formula self expr; Ok (node (UnaryOp op expr))
      | Function name args => args ← map_all (adjust_formula self) args; Ok (node (Function name args))
      | Call _ _ | ArrayLit _ | Lit _ | Omitted => Ok ast
      end
  end.

(** * Moving: [MoveReferenceAdjuster] *)

Record MoveReferenceAdjuster : Type := {
  from_sheet_id : Z; from_sheet_name : bytes;
  from_start_row : Z; from_start_col : Z; from_end_row : Z; from_end_col : Z;
  to_sheet_id : Z; to_sheet_name : bytes;
  move_row_offset : Z; move_col_offset : Z
}.

Section move.
Context (self : MoveReferenceAdjuster) (formula_sheet : Z).

Definition sheet_matches_source (sheet : option bytes) : bool :=
  match sheet with
  | Some name => eqb_bytes name (from_sheet_name self)
  | None => formula_sheet =? from_sheet_id self
  end.

Definition new_sheet (sheet : option bytes) : option bytes :=
  if negb (to_sheet_id self =? from_sheet_id self) then Some (to_sheet_name self) else sheet.

(** A coordinate of the block, 1-based and shifted. *)
Definition moved_row (x : Z) : result Empty_set Z := r ← shift_clamped x (move_row_offset self); add_u32 r 1.
Definition moved_col (x : Z) : result Empty_set Z := c ← shift_clamped x (move_col_offset self); add_u32 c 1.

Definition reference_sheet (reference : ReferenceType) : option bytes :=
  match reference with Cell sheet _ | Range sheet _ => sheet | _ => None end.

Definition move_reference (reference : ReferenceType) : result Empty_set (ReferenceType * bool) :=
  if negb (sheet_matches_source (reference_sheet reference)) then Ok (reference, false)
  else
    shared ← to_sheet_ref_lossy reference;
    match reference, shared with
    | Cell sheet _, Some (SheetCell cell) =>
        let row0 := RelativeCoord.row (coord cell) in
        let col0 := RelativeCoord.col (coord cell) in
        if (row0 <? from_start_row self) || (from_end_row self <? row0)
           || (col0 <? from_start_col self) || (from_end_col self <? col0)
        then Ok (reference, false)
        else
          row1 ← moved_row row0;
          col1 ← moved_col col0;
          Ok (Cell (new_sheet sheet)
                {| row := row1; col := col1; row_abs := RelativeCoord.row_abs (coord cell);
                   col_abs := RelativeCoord.col_abs (coord cell) |}, true)
    | Range sheet _, Some (SheetRange range) =>
        match Address.start_row range, Address.start_col range, Address.end_row range, Address.end_col range with
        | Some sr, Some sc, Some er, Some ec =>
            if (from_start_row self <=? index sr) && (index er <=? from_end_row self)
               && (from_start_col self <=? index sc) && (index ec <=? from_end_col self)
            then
              new_sr ← moved_row (index sr);
              new_er ← moved_row (index er);
              new_sc ← moved_col (index sc);
              new_ec ← moved_col (index ec);
              Ok (Range (new_sheet sheet)
                    {| start_row := Some new_sr; start_col := Some new_sc;
                       end_row := Some new_er; end_col := Some new_ec;
                       start_row_abs := abs sr; start_col_abs := abs sc;
                       end_row_abs := abs er; end_col_abs := abs ec |}, true)
            else Ok (reference, false)
        | _, _, _, _ => Ok (reference, false)
        end
    | _, _ => Ok (reference, false)
    end.

(** The children and whether one changed. *)
Definition move_all {A} (f : A → result Empty_set (A * bool)) : list A → result Empty_set (list A * bool) :=
  fix go l :=
    match l with
    | [] => Ok ([], false)
    | x :: l => '(x, changed) ← f x; '(l, any) ← go l; Ok (x :: l, (changed : bool) || any)
    end.
Definition move_rows {A} (f : A → result Empty_set (A * bool))
  : list (list A) → result Empty_set (list (list A) * bool) :=
  fix go rows :=
    match rows with
    | [] => Ok ([], false)
    | row :: rows =>
        '(row, changed) ← move_all f row; '(rows, any) ← go rows; Ok (row :: rows, (changed : bool) || any)
    end.

(** A call is cloned as it is. *)
Fixpoint adjust_ast_inner (ast : ASTNode) : result Empty_set (ASTNode * bool) :=
  match ast with
  | Node ty source_token contains_volatile =>
      let node ty := Node ty source_token contains_volatile in
      match ty with
      | Parser.Reference original reference =>
          '(adjusted, changed) ← move_reference reference;
          if (changed : bool) then Ok (node (Parser.Reference original adjusted), true) else Ok (ast, false)
      | BinaryOp op lhs rhs =>
          '(l_adj, l_ch) ← adjust_ast_inner lhs;
          '(r_adj, r_ch) ← adjust_ast_inner rhs;
          if (l_ch : bool) || (r_ch : bool) then Ok (node (BinaryOp op l_adj r_adj), true) else Ok (ast, false)
      | UnaryOp op expr =>
          '(e_adj, e_ch) ← adjust_ast_inner expr;
          if (e_ch : bool) then Ok (node (UnaryOp op e_adj), true) else Ok (ast, false)
      | Function name args =>
          '(new_args, any) ← move_all adjust_ast_inner args;
          if (any : bool) then Ok (node (Function name new_args), true) else Ok (ast, false)
      | ArrayLit rows =>
          '(new_rows, any) ← move_rows adjust_ast_inner rows;
          if (any : bool) then Ok (node (ArrayLit new_rows), true) else Ok (ast, false)
      | Call _ _ | Lit _ | Omitted => Ok (ast, false)
      end
  end.

Definition adjust_if_references (formula : ASTNode) : result Empty_set (option ASTNode) :=
  '(adjusted, changed) ← adjust_ast_inner formula;
  Ok (if (changed : bool) then Some adjusted else None).

End move.
End adjust.

(** * Combining references ([combine_references] of [reference.rs]) *)

Definition ref_bounds (r : ReferenceType) : option (option bytes * (Z * Z * Z * Z)) :=
  match r with
  | Cell sheet c => Some (sheet, (row c, col c, row c, col c))
  | Range sheet r =>
      sr ← start_row r; sc ← start_col r; er ← end_row r; ec ← end_col r;
      Some (sheet, (sr, sc, er, ec))
  | _ => None
  end.

Definition ref_err (message : bytes) : ExcelError := {| error_kind := ErrRef; error_message := Some message |}.

Definition combine_references (a b : ReferenceType) : result ExcelError ReferenceType :=
  '(sheet_a, (a_sr, a_sc, a_er, a_ec)) ← ok_or (ref_bounds a) (ref_err (str "Unsupported reference for ':'"));
  '(sheet_b, (b_sr, b_sc, b_er, b_ec)) ← ok_or (ref_bounds b) (ref_err (str "Unsupported reference for ':'"));
  if bool_decide (sheet_a ≠ sheet_b) then Err (ref_err (str "Cannot combine references across sheets"))
  else
    Ok (Range sheet_a
          {| start_row := Some (Z.min a_sr b_sr); start_col := Some (Z.min a_sc b_sc);
             end_row := Some (Z.max a_er b_er); end_col := Some (Z.max a_ec b_ec);
             start_row_abs := false; start_col_abs := false; end_row_abs := false; end_col_abs := false |}).

(** * Examples *)

Definition insert_row_2 := InsertRows 0 1 1.
Definition adjusted_text (text : string) (op : ShiftOperation) : result ParserError bytes :=
  e ← parse (str text);
  match adjust_ast e op with Ok e => Ok (show_node e) | _ => Panic end.

Example adjust_insert_ex : adjusted_text "=SUM(A1:A3)+$B$2" insert_row_2 = Ok (str "(+ (SUM A1:A4) $B$3)").
Proof. vm_compute. reflexivity. Qed.
Example adjust_delete_ex : adjusted_text "=A2+A5" (DeleteRows 0 1 1) = Ok (str "(+ # A4)").
Proof. vm_compute. reflexivity. Qed.

(** A reference in the last rows does not survive an insertion above it. *)
Example insert_at_the_end : adjusted_text "=A1048576" insert_row_2 = Panic.
Proof. vm_compute. reflexivity. Qed.

(** A range with its corners exchanged is not adjusted. *)
Example reversed_range : adjusted_text "=A5:A1" insert_row_2 = Ok (str "A5:A1").
Proof. vm_compute. reflexivity. Qed.

(** The open range of the rows up to 5 grows when row 5 is deleted: it keeps its bound, and
    row 6 takes the place of row 5. *)
Example open_range_end : adjusted_text "=SUM(A:A5)" (DeleteRows 0 4 1) = Ok (str "(SUM A:A5)").
Proof. vm_compute. reflexivity. Qed.

(** A copied formula keeps the references in calls and arrays. *)
Example copy_skips_calls :
  (e ← parse (str "=LAMBDA(x,x)(A1)+A1");
   match adjust_formula {| row_offset := 1; col_offset := 0 |} e with
   | Ok (Node (BinaryOp _ lhs (Node (Parser.Reference _ r) _ _)) _ _) => Ok (show_node lhs, show_reference r)
   | _ => Panic
   end) = Ok (str "(call (LAMBDA x x) A1)", str "A2").
Proof. vm_compute. reflexivity. Qed.
