(* ===== verification/AdjustTheorems.v ===== *)
(** Structural edits and references: an adjusted reference denotes the cells that the
    original denoted, wherever they have moved; an insertion that is undone leaves every formula
    as it was; and the adjustment of a formula is the substitution of its references. *)
From S2P Require Import Prelude Coords Address StructuredRef Reference ReferenceTheorems Parser SheetRegistry Adjust.

Local Open Scope Z_scope.

(** * The movement of cells *)

(** What an operation does to the indices of one axis. *)
Inductive axis_op : Type := AxisInsert (before count : Z) | AxisDelete (start count : Z) | AxisKeep.

Definition rows_op (op : ShiftOperation) : axis_op :=
  match op with
  | InsertRows _ before count => AxisInsert before count
  | DeleteRows _ start count => AxisDelete start count
  | _ => AxisKeep
  end.
Definition cols_op (op : ShiftOperation) : axis_op :=
  match op with
  | InsertColumns _ before count => AxisInsert before count
  | DeleteColumns _ start count => AxisDelete start count
  | _ => AxisKeep
  end.

(** Where an index goes; [None] when it is deleted. *)
Definition index_moved (a : axis_op) (x : Z) : option Z :=
  match a with
  | AxisInsert before count => Some (if x <? before then x else x + count)
  | AxisDelete start count => if x <? start then Some x else if x <? start + count then None else Some (x - count)
  | AxisKeep => Some x
  end.

Definition cell_moved (op : ShiftOperation) (cell : Z * Z) : option (Z * Z) :=
  r ← index_moved (rows_op op) cell.1;
  c ← index_moved (cols_op op) cell.2;
  Some (r, c).

(** The operation is one of [u32]s that do not overflow. *)
Definition axis_ok (a : axis_op) : Prop :=
  match a with
  | AxisInsert x n | AxisDelete x n => 0 ≤ x ∧ 0 ≤ n ∧ x + n ≤ u32_max
  | AxisKeep => True
  end.
Definition op_ok (op : ShiftOperation) : Prop := axis_ok (rows_op op) ∧ axis_ok (cols_op op).

(** An index keeps its place in a bound [max]. *)
Definition room (a : axis_op) (max x : Z) : Prop :=
  match a with AxisInsert before count => before ≤ x → x + count ≤ max | _ => True end.

(** * One axis *)

Definition within (lo hi : option Z) (x : Z) : Prop :=
  (∀ l, lo = Some l → l ≤ x) ∧ (∀ h, hi = Some h → x ≤ h).

(** The code on one axis. *)
Definition axis (a : axis_op) (lo hi : option AxisBound) : result Empty_set (option (option Z * option Z)) :=
  match a with
  | AxisInsert before count => insert_axis Track before count lo hi
  | AxisDelete start count => delete_axis Track start count lo hi
  | AxisKeep => keep_axis lo hi
  end.

Lemma rows_axis_eq op lo hi : rows_axis op Track lo hi = axis (rows_op op) lo hi.
Proof. by destruct op. Qed.
Lemma cols_axis_eq op lo hi : cols_axis op Track lo hi = axis (cols_op op) lo hi.
Proof. by destruct op. Qed.

Definition bound_ok (a : axis_op) (b : option AxisBound) : Prop :=
  match b with Some b => 0 ≤ index b < u32_max ∧ room a (u32_max - 1) (index b) | None => True end.

(** An axis without a lower bound has no upper one. *)
Definition anchored (lo hi : option AxisBound) : Prop := lo = None → hi = None.

Lemma insert_each before count b : bound_ok (AxisInsert before count) b →
  map_bound (adjust_insert Track before count) b =
  Ok ((λ b, if index b <? before then index b else index b + count) <$> b).
Proof.
  destruct b as [b|]; [|done]. simpl. intros [Hb Hr]. unfold adjust_insert. simpl.
  destruct (Z.leb_spec before (index b)), (Z.ltb_spec (index b) before); try lia; [|done].
  rewrite add_u32_ok by lia. done.
Qed.

Lemma delete_each start count b : axis_ok (AxisDelete start count) →
  map_bound (adjust_delete Track start count) b =
  Ok ((λ b, if start + count <=? index b then index b - count
            else if start <=? index b then start else index b) <$> b).
Proof.
  destruct b as [b|]; [|done]. simpl. intros (? & ? & ?). unfold adjust_delete. simpl.
  rewrite add_u32_ok by done. simpl. by repeat case_match.
Qed.

(** What is left of the bounds of an axis. *)
Definition axis_bounds (a : axis_op) (lo hi : option AxisBound) (res : option (option Z * option Z)) : Prop :=
  match res with
  | Some (lo', hi') =>
      (∀ x y, index_moved a x = Some y → within (index <$> lo) (index <$> hi) x ↔ within lo' hi' y) ∧
      (∀ b, lo' = Some b ∨ hi' = Some b → 0 ≤ b < u32_max) ∧
      (∀ l h, lo' = Some l → hi' = Some h → l ≤ h)
  | None => ∀ x, within (index <$> lo) (index <$> hi) x → index_moved a x = None
  end.

Ltac zcases := repeat match goal with
  | |- context [?a <? ?b] => destruct (Z.ltb_spec a b)
  | |- context [?a <=? ?b] => destruct (Z.leb_spec a b)
  | H : context [?a <? ?b] |- _ => destruct (Z.ltb_spec a b)
  | H : context [?a <=? ?b] |- _ => destruct (Z.leb_spec a b)
  end; simpl in *; simplify_eq.

Lemma within_Some l h x : within (Some l) (Some h) x ↔ l ≤ x ≤ h.
Proof. unfold within. naive_solver lia. Qed.
Lemma within_lo l x : within (Some l) None x ↔ l ≤ x.
Proof. unfold within. naive_solver. Qed.
Lemma within_None x : within None None x ↔ True.
Proof. unfold within. naive_solver. Qed.

Lemma axis_spec a lo hi : axis_ok a → bound_ok a lo → bound_ok a hi → anchored lo hi → misordered lo hi = false →
  ∃ res, axis a lo hi = Ok res ∧ axis_bounds a lo hi res.
Proof.
  intros Ha Hlo Hhi Hanch Hord.
  destruct a as [before count|start count|]; cbn [axis].
  - unfold insert_axis. rewrite !insert_each by done. eexists. split; [reflexivity|].
    destruct lo as [l|]; [|rewrite (Hanch eq_refl) in *]; [destruct hi as [h|]|]; simpl in *.
    + apply Z.ltb_ge in Hord. split_and!; [|naive_solver (zcases; lia)|naive_solver (zcases; lia)].
      intros x y Hm. rewrite !within_Some. zcases; lia.
    + split_and!; [|naive_solver (zcases; lia)|naive_solver]. intros x y Hm. rewrite !within_lo. zcases; lia.
    + split_and!; [|naive_solver..]. intros x y _. by rewrite !within_None.
  - destruct Ha as (Hs & Hc & Hl). unfold delete_axis. rewrite !delete_each by done.
    destruct lo as [l|]; [|rewrite (Hanch eq_refl) in *]; [destruct hi as [h|]|].
    + cbn [pins negb orb]. rewrite add_u32_ok by done. cbn [mbind result_bind].
      apply Z.ltb_ge in Hord. simpl in Hlo, Hhi.
      destruct (_ || _) eqn:E1; [|destruct (_ && _) eqn:E2]; (eexists; split; [reflexivity|]); simpl;
        apply orb_true_iff in E1 || (apply orb_false_iff in E1 as [?%Z.ltb_ge ?%Z.leb_gt]).
      * split_and!.
        -- intros x y Hm. rewrite !within_Some. rewrite Z.ltb_lt, Z.leb_le in E1. zcases; lia.
        -- rewrite Z.ltb_lt, Z.leb_le in E1. intros b Hb. zcases; naive_solver lia.
        -- rewrite Z.ltb_lt, Z.leb_le in E1. intros x y Hx Hy. zcases; lia.
      * apply andb_true_iff in E2 as [?%Z.leb_le ?%Z.ltb_lt]. intros x. rewrite within_Some. intros ?. zcases; lia || done.
      * apply andb_false_iff in E2. rewrite Z.leb_gt, Z.ltb_ge in E2. unfold saturating_sub. split_and!.
        -- intros x y Hm. rewrite !within_Some. zcases; lia.
        -- intros b Hb. zcases; naive_solver lia.
        -- intros x y Hx Hy. zcases; lia.
    + eexists. split; [reflexivity|]. simpl in *.
      split_and!; [|intros b Hb; zcases; naive_solver lia|naive_solver].
      intros x y Hm. rewrite !within_lo. zcases; lia.
    + eexists. split; [reflexivity|]. split_and!; [|naive_solver..]. intros x y _. by rewrite !within_None.
  - eexists. split; [reflexivity|]. simpl. split_and!.
    + by intros x y [= <-].
    + destruct lo, hi; simpl in *; naive_solver lia.
    + destruct lo, hi; simpl in *; try done. apply Z.ltb_ge in Hord. naive_solver lia.
Qed.

(** * References *)

Section references.
Context {F : FloatText} {fold : CaseFold}.

(** The cells a reference denotes, by row and column from 0. *)
Definition covers (r : ReferenceType) (cell : Z * Z) : Prop :=
  match r with
  | Cell _ p => cell = (row p - 1, col p - 1)
  | Range _ p =>
      within (Z.pred <$> start_row p) (Z.pred <$> end_row p) cell.1 ∧
      within (Z.pred <$> start_col p) (Z.pred <$> end_col p) cell.2
  | _ => False
  end.

Definition valid_index (a : axis_op) (b : option Z) : Prop :=
  match b with Some x => 1 ≤ x ≤ u32_max ∧ room a (u32_max - 1) (x - 1) | None => True end.
Definition ordered (lo hi : option Z) : Prop :=
  (∀ l h, lo = Some l → hi = Some h → l ≤ h) ∧ (lo = None → hi = None).

(** Cells and ranges that the parser makes, with their corners in order, with room for an
    insertion, and with a lower bound where there is an upper one. *)
Definition adjustable (op : ShiftOperation) (r : ReferenceType) : Prop :=
  match r with
  | Cell _ p =>
      in_grid (row p - 1) (col p - 1) ∧
      room (rows_op op) ROW_MAX (row p - 1) ∧ room (cols_op op) COL_MAX (col p - 1)
  | Range _ p =>
      valid_index (rows_op op) (start_row p) ∧ valid_index (rows_op op) (end_row p) ∧
      valid_index (cols_op op) (start_col p) ∧ valid_index (cols_op op) (end_col p) ∧
      ordered (start_row p) (end_row p) ∧ ordered (start_col p) (end_col p)
  | _ => False
  end.

#[local] Abbreviation coord_of r c ra ca := (RelativeCoord.Mk (packed r c (flags ra ca))).

Lemma adjust_coord_spec op r c ra ca : in_grid r c → op_ok op →
  room (rows_op op) ROW_MAX r → room (cols_op op) COL_MAX c →
  match cell_moved op (r, c) with
  | Some (r', c') => in_grid r' c' ∧ adjust_coord (coord_of r c ra ca) op Track = Ok (Some (coord_of r' c' ra ca))
  | None => adjust_coord (coord_of r c ra ca) op Track = Ok None
  end.
Proof.
  intros Hg [Hr Hc] Hrr Hrc. pose proof (relative_fields r c ra ca Hg) as (Er & Ec & Era & Eca).
  assert (Hnew : ∀ r' c', in_grid r' c' →
    RelativeCoord.new (E := Empty_set) r' c' ra ca = Ok (coord_of r' c' ra ca)) by (intros; by apply relative_new_ok).
  assert (ROW_MAX ≤ u32_max ∧ COL_MAX ≤ u32_max) as [??] by by vm_compute.
  destruct op as [s b n|s b n|s b n|s b n]; unfold adjust_coord, at_row, at_col; rewrite ?Er, ?Ec, ?Era, ?Eca;
    cbn [pins andb orb]; cbn in Hr, Hc, Hrr, Hrc; unfold cell_moved;
    cbn [rows_op cols_op index_moved fst snd mbind option_bind].
  - destruct (Z.ltb_spec r b); [done|]. unfold in_grid in *.
    rewrite add_u32_ok by lia. cbn [mbind result_bind].
    rewrite Hnew by (unfold in_grid; lia). split; [lia|done].
  - rewrite add_u32_ok by lia. cbn [mbind result_bind]. unfold in_grid in *.
    destruct (Z.ltb_spec r b), (Z.ltb_spec r (b + n)), (Z.leb_spec b r), (Z.leb_spec (b + n) r);
      try lia; cbn [andb mbind option_bind]; try done. rewrite Hnew by (unfold in_grid; lia). split; [lia|done].
  - destruct (Z.ltb_spec c b); [done|]. unfold in_grid in *.
    rewrite add_u32_ok by lia. cbn [mbind result_bind].
    rewrite Hnew by (unfold in_grid; lia). split; [lia|done].
  - rewrite add_u32_ok by lia. cbn [mbind result_bind]. unfold in_grid in *.
    destruct (Z.ltb_spec c b), (Z.ltb_spec c (b + n)), (Z.leb_spec b c), (Z.leb_spec (b + n) c);
      try lia; cbn [andb mbind option_bind]; try done. rewrite Hnew by (unfold in_grid; lia). split; [lia|done].
Qed.

Lemma checked_pred x : 1 ≤ x → (x -? 1)%u32 = Some (x - 1).
Proof. intros H. unfold checked_sub. by rewrite decide_True by lia. Qed.

(** A reference to a cell. *)
Lemma adjust_cell op sheet p ctx : op_ok op → adjustable op (Cell sheet p) →
  match ctx with Some ctx => reference_sheet_id ctx sheet = Some (op_sheet_id op) | None => True end →
  adjust_reference (Cell sheet p) op Track ctx =
  Ok (match cell_moved op (row p - 1, col p - 1) with
      | Some (r', c') => Adjusted (Cell sheet {| row := r' + 1; col := c' + 1; row_abs := row_abs p; col_abs := col_abs p |})
      | None => Invalidated
      end).
Proof.
  intros Hop (Hg & Hr & Hc) Hctx. unfold adjust_reference, to_sheet_ref_lossy.
  replace (match ctx with Some _ => _ | None => false end) with false
    by (destruct ctx as [ctx|]; [by rewrite bool_decide_eq_true_2|done]).
  pose proof Hg as Hg'. unfold in_grid in Hg'. rewrite !checked_pred by lia. rewrite !relative_new_ok by done. cbn [mbind result_bind coord].
  destruct (relative_fields _ _ (row_abs p) (col_abs p) Hg) as (-> & -> & _). rewrite relative_new_ok by done. cbn [mbind result_bind].
  unfold adjust_cell_ref_with_policy. cbn [sheet_id cell_coord]. rewrite Z.eqb_refl.
  pose proof (adjust_coord_spec op _ _ (row_abs p) (col_abs p) Hg Hop Hr Hc) as H.
  destruct (cell_moved _ _) as [[r' c']|]; [destruct H as [Hg2 ->]|rewrite H; done].
  cbn [mbind result_bind cell_coord].
  by destruct (relative_fields _ _ (row_abs p) (col_abs p) Hg2) as (-> & -> & _).
Qed.

(** The bounds of a range, from 0. *)
Definition axis_bound (x : option Z) (a : bool) : option AxisBound :=
  (λ x, {| index := x - 1; abs := a |}) <$> x.

Lemma lossy_bound_ok a x ab : valid_index a x → lossy_bound x ab = Some (axis_bound x ab).
Proof. destruct x as [x|]; [|done]. intros [Hx _]. unfold lossy_bound. by rewrite checked_pred by lia. Qed.

Lemma valid_bound a x ab : valid_index a x → bound_ok a (axis_bound x ab).
Proof. destruct x as [x|]; [|done]. simpl. intros [Hx Hr]. split; [lia|done]. Qed.

Lemma ordered_bounds lo hi a b : ordered lo hi →
  misordered (axis_bound lo a) (axis_bound hi b) = false ∧ anchored (axis_bound lo a) (axis_bound hi b).
Proof.
  intros [H1 H2]. unfold anchored. destruct lo as [l|], hi as [h|]; simpl; try done.
  - split; [|done]. specialize (H1 l h eq_refl eq_refl). apply Z.ltb_ge. lia.
  - specialize (H2 eq_refl). done.
Qed.

Lemma index_bound x a : index <$> axis_bound x a = Z.pred <$> x.
Proof. by destruct x. Qed.

Lemma next_index_ok b : (∀ x, b = Some x → 0 ≤ x < u32_max) → next_index b = Ok (Z.succ <$> b).
Proof.
  destruct b as [x|]; [|done]. intros H. specialize (H x eq_refl). unfold next_index, map_bound.
  by rewrite add_u32_ok by lia.
Qed.

(** The two axes of a range after an operation. *)
Definition adjusted_range (sheet : option bytes) (p : RangePart) (rows cols : option (option Z * option Z))
  : ReferenceAdjustment :=
  match rows, cols with
  | Some (sr, er), Some (sc, ec) =>
      Adjusted (Range sheet
        {| start_row := Z.succ <$> sr; start_col := Z.succ <$> sc; end_row := Z.succ <$> er; end_col := Z.succ <$> ec;
           start_row_abs := start_row_abs p; start_col_abs := start_col_abs p;
           end_row_abs := end_row_abs p; end_col_abs := end_col_abs p |})
  | _, _ => Invalidated
  end.

Lemma adjust_range op sheet p ctx : op_ok op → adjustable op (Range sheet p) →
  match ctx with Some ctx => reference_sheet_id ctx sheet = Some (op_sheet_id op) | None => True end →
  let rows_lo := axis_bound (start_row p) (start_row_abs p) in
  let rows_hi := axis_bound (end_row p) (end_row_abs p) in
  let cols_lo := axis_bound (start_col p) (start_col_abs p) in
  let cols_hi := axis_bound (end_col p) (end_col_abs p) in
  ∃ rows cols, axis (rows_op op) rows_lo rows_hi = Ok rows ∧ axis_bounds (rows_op op) rows_lo rows_hi rows ∧
    axis (cols_op op) cols_lo cols_hi = Ok cols ∧ axis_bounds (cols_op op) cols_lo cols_hi cols ∧
    adjust_reference (Range sheet p) op Track ctx = Ok (adjusted_range sheet p rows cols).
Proof.
  intros [Hor Hoc] (Hsr & Her & Hsc & Hec & Ho1 & Ho2) Hctx rows_lo rows_hi cols_lo cols_hi.
  destruct (ordered_bounds _ _ (start_row_abs p) (end_row_abs p) Ho1) as [Hm1 Ha1].
  destruct (ordered_bounds _ _ (start_col_abs p) (end_col_abs p) Ho2) as [Hm2 Ha2].
  destruct (axis_spec (rows_op op) rows_lo rows_hi) as (rows & Er & Hr); [done|by apply valid_bound..|done|done|].
  destruct (axis_spec (cols_op op) cols_lo cols_hi) as (cols & Ec & Hc); [done|by apply valid_bound..|done|done|].
  exists rows, cols. split_and!; try done. unfold adjust_reference, to_sheet_ref_lossy.
  replace (match ctx with Some _ => _ | None => false end) with false
    by (destruct ctx as [ctx|]; [by rewrite bool_decide_eq_true_2|done]).
  rewrite (lossy_bound_ok _ _ _ Hsr), (lossy_bound_ok _ _ _ Hsc), (lossy_bound_ok _ _ _ Her), (lossy_bound_ok _ _ _ Hec).
  cbn [mbind option_bind result_bind]. unfold from_parts. rewrite Hm1, Hm2. cbn -[rows_axis cols_axis].
  rewrite rows_axis_eq, cols_axis_eq. fold rows_lo rows_hi cols_lo cols_hi. rewrite Er. cbn [mbind result_bind].
  destruct rows as [[sr er]|]; [|done]. rewrite Ec. cbn [mbind result_bind]. destruct cols as [[sc ec]|]; [|done].
  destruct Hr as (_ & Hr & _), Hc as (_ & Hc & _).
  rewrite !next_index_ok by (intros; subst; auto). done.
Qed.

Lemma within_succ lo hi x : within (Z.pred <$> (Z.succ <$> lo)) (Z.pred <$> (Z.succ <$> hi)) x ↔ within lo hi x.
Proof. destruct lo, hi; simpl; rewrite ?Z.pred_succ; done. Qed.

Lemma index_moved_inj a x y z : axis_ok a → index_moved a x = Some z → index_moved a y = Some z → x = y.
Proof. destruct a; simpl; intros Ha Hx Hy; zcases; lia. Qed.

Lemma cell_moved_inj op p q r : op_ok op → cell_moved op p = Some r → cell_moved op q = Some r → p = q.
Proof.
  intros [Hr Hc] (x & Ex & (y & Ey & [= <-])%bind_Some)%bind_Some (x' & Ex' & (y' & Ey' & [= <- <-])%bind_Some)%bind_Some.
  apply (index_moved_inj _ _ _ _ Hr Ex) in Ex'. apply (index_moved_inj _ _ _ _ Hc Ey) in Ey'.
  by destruct p, q; simpl in *; subst.
Qed.

(** C9: inserting or deleting rows or columns on a sheet adjusts an adjustable reference to that sheet
    so that it denotes the same cells as before, where they are now: a cell that survives was denoted
    before if and only if it is denoted after, and a reference becomes invalid only if no cell it denotes
    survives.  Anchors play no part, the code does not panic, and a reference to another sheet stays as
    it is.  The operation's own [u32] sum does not overflow.  Adjustable are a cell of the grid that an
    insertion does not push off the grid, and a range whose bounds are nonzero [u32]s that an insertion
    does not push past the largest one, whose corners are in order, and which has a lower bound on an
    axis where it has an upper one.  Outside of these the code panics or is not exact
    ([insert_at_the_end], [reversed_range], [open_range_end] in [Adjust]). *)
Theorem adjust_reference_exact op r ctx sheet : op_ok op → adjustable op r →
  (sheet = match r with Cell sheet _ | Range sheet _ => reference_sheet_id ctx sheet | _ => None end) →
  (sheet = Some (op_sheet_id op) →
   match adjust_reference r op Track (Some ctx) with
   | Ok (Adjusted r') => ∀ cell cell', cell_moved op cell = Some cell' → covers r cell ↔ covers r' cell'
   | Ok Invalidated => ∀ cell, covers r cell → cell_moved op cell = None
   | _ => False
   end) ∧
  (sheet ≠ Some (op_sheet_id op) → adjust_reference r op Track (Some ctx) = Ok (Adjusted r)).
Proof.
  intros Hop Hadj Hsheet. split; intros Hs.
  2: { destruct r; simpl in Hsheet; try done; unfold adjust_reference; rewrite <- Hsheet, bool_decide_eq_false_2 by done; done. }
  rewrite Hsheet in Hs. destruct r as [name p|name p| | | | |]; try done.
  - rewrite (adjust_cell op name p (Some ctx)) by done.
    destruct (cell_moved op (row p - 1, col p - 1)) as [[r' c']|] eqn:E.
    + intros [x y] [x' y'] Hm. simpl. rewrite !Z.add_simpl_r. split; [intros [= -> ->]; congruence|].
      intros [= -> ->]. by apply (cell_moved_inj op _ _ (r', c')).
    + simpl. by intros cell ->.
  - destruct (adjust_range op name p (Some ctx) Hop Hadj Hs) as (rows & cols & _ & Hr & _ & Hc & ->).
    unfold axis_bounds in *. destruct rows as [[sr er]|], cols as [[sc ec]|]; simpl.
    + destruct Hr as [Hr _], Hc as [Hc _]. intros [x y] [x' y'] (r' & Er & (c' & Ec & [= <- <-])%bind_Some)%bind_Some.
      simpl in *. rewrite !within_succ, <- (Hr _ _ Er), <- (Hc _ _ Ec), !index_bound. done.
    + intros [x y] [_ Hy]. simpl in Hy. rewrite <- !(index_bound _ false) in Hy. unfold cell_moved. simpl.
      destruct (index_moved (rows_op op) x); [|done]. simpl. rewrite !index_bound in *. by rewrite Hc.
    + intros [x y] [Hx _]. simpl in Hx. unfold cell_moved. simpl. rewrite !index_bound in Hr. by rewrite Hr.
    + intros [x y] [Hx _]. simpl in Hx. unfold cell_moved. simpl. rewrite !index_bound in Hr. by rewrite Hr.
Qed.

(** * Undoing an insertion *)

(** The deletion that takes the inserted rows or columns out again. *)
Definition undo_of (op : ShiftOperation) : option ShiftOperation :=
  match op with
  | InsertRows s before count => Some (DeleteRows s before count)
  | InsertColumns s before count => Some (DeleteColumns s before count)
  | _ => None
  end.

Inductive undoes : axis_op → axis_op → Prop :=
| undoes_insert before count : undoes (AxisInsert before count) (AxisDelete before count)
| undoes_keep : undoes AxisKeep AxisKeep.

Lemma undo_axes op op' : undo_of op = Some op' →
  undoes (rows_op op) (rows_op op') ∧ undoes (cols_op op) (cols_op op') ∧ op_sheet_id op' = op_sheet_id op.
Proof. destruct op; intros [= <-]; simpl; split_and!; constructor || done. Qed.

Lemma undo_op_ok op op' : undo_of op = Some op' → op_ok op → op_ok op'.
Proof. by destruct op; intros [= <-]. Qed.

Lemma undo_axis A A' x y a b : undoes A A' → axis_ok A → valid_index A x → valid_index A y → ordered x y →
  ∃ x' y', axis A (axis_bound x a) (axis_bound y b) = Ok (Some (Z.pred <$> x', Z.pred <$> y')) ∧
    axis A' (axis_bound x' a) (axis_bound y' b) = Ok (Some (Z.pred <$> x, Z.pred <$> y)) ∧
    valid_index A' x' ∧ valid_index A' y' ∧ ordered x' y'.
Proof.
  intros Hu HA Hx Hy Ho. pose proof (valid_bound _ _ a Hx) as Bx. pose proof (valid_bound _ _ b Hy) as By.
  destruct Hu as [before count|].
  2: { exists x, y. simpl. unfold keep_axis. by rewrite !index_bound. }
  destruct HA as (? & ? & ?).
  set (up z := (if z - 1 <? before then z else z + count)). exists (up <$> x), (up <$> y). cbn [axis].
  unfold insert_axis. rewrite !insert_each by done. cbn [mbind result_bind].
  assert (Hup : ∀ z c, (λ b, if index b <? before then index b else index b + count) <$> axis_bound z c = Z.pred <$> (up <$> z)).
  { intros [z|] c; [|done]. simpl. unfold up. f_equal. case_match; lia. }
  rewrite !Hup. split; [done|].
  assert (Hv : ∀ z, valid_index (AxisInsert before count) z → valid_index (AxisDelete before count) (up <$> z)).
  { intros [z|]; [|done]. simpl. unfold up. intros [??]. split; [|done]. zcases; lia. }
  split_and!; [|by apply Hv..|].
  - unfold delete_axis. rewrite !delete_each by done.
    destruct Ho as [Ho Hn].
    destruct x as [x|]; [|rewrite (Hn eq_refl) in *]; [destruct y as [y|]|]; simpl; unfold up; [| |done].
    + specialize (Ho _ _ eq_refl eq_refl). rewrite add_u32_ok by done. simpl in Hx, Hy. cbn [mbind result_bind].
      zcases; try lia; do 2 f_equal; f_equal; f_equal; lia.
    + do 3 f_equal. zcases; f_equal; lia.
  - destruct Ho as [Ho Hn]. split; [|by intros Hx'%fmap_None; rewrite (Hn Hx')].
    intros l h (x1 & -> & ->)%fmap_Some (y1 & -> & ->)%fmap_Some.
    specialize (Ho _ _ eq_refl eq_refl). unfold up. zcases; lia.
Qed.

Lemma pred_succ_map (x : option Z) : Z.succ <$> (Z.pred <$> x) = x.
Proof. destruct x; [|done]. simpl. by rewrite Z.succ_pred. Qed.

(** The sheet is the operation's, or the reference is out of its reach. *)
Definition in_reach (ctx : option ReferenceContext) (op : ShiftOperation) (sheet : option bytes) : bool :=
  match ctx with
  | Some ctx => bool_decide (reference_sheet_id ctx sheet = Some (op_sheet_id op))
  | None => true
  end.

(** The references an insertion can carry along: those out of its reach, and those with room. *)
Definition has_room (ctx : option ReferenceContext) (op : ShiftOperation) (r : ReferenceType) : Prop :=
  match r with
  | Cell sheet _ | Range sheet _ => in_reach ctx op sheet = true → adjustable op r
  | _ => True
  end.

Lemma reach_ctx ctx op sheet : in_reach ctx op sheet = true →
  match ctx with Some ctx => reference_sheet_id ctx sheet = Some (op_sheet_id op) | None => True end.
Proof. destruct ctx; [|done]. by intros H%bool_decide_eq_true. Qed.

Lemma out_of_reach ctx op sheet r policy :
  in_reach ctx op sheet = false → match r with Cell s _ | Range s _ => s = sheet | _ => False end →
  adjust_reference r op policy ctx = Ok (Adjusted r).
Proof.
  destruct ctx as [ctx|]; [|done]. intros H%bool_decide_eq_false. unfold adjust_reference.
  destruct r; try done; intros ->; by rewrite bool_decide_eq_false_2.
Qed.

Lemma reference_undo ctx op op' r : undo_of op = Some op' → op_ok op → has_room ctx op r →
  ∃ r', adjust_reference r op Track ctx = Ok (Adjusted r') ∧ adjust_reference r' op' Track ctx = Ok (Adjusted r).
Proof.
  intros Hu Hop Hr. pose proof (undo_op_ok _ _ Hu Hop) as Hop'. destruct (undo_axes _ _ Hu) as (Ur & Uc & Us).
  destruct r as [name p|name p| | | | |]; try (eexists; by split).
  all: destruct (in_reach ctx op name) eqn:Hreach;
    [|eexists; split; [by apply (out_of_reach _ _ name)|apply (out_of_reach _ _ name); [|done];
      unfold in_reach in *; by destruct ctx; rewrite ?Us]].
  all: specialize (Hr Hreach); pose proof (reach_ctx _ _ _ Hreach) as Hctx.
  all: assert (Hctx' : match ctx with Some ctx => reference_sheet_id ctx name = Some (op_sheet_id op') | None => True end)
    by (by destruct ctx; rewrite ?Us).
  - rewrite (adjust_cell op name p ctx) by done. destruct Hr as (Hg & Hr & Hc). pose proof Hop as [Hok1 Hok2].
    assert (∃ r1 c1, cell_moved op (row p - 1, col p - 1) = Some (r1, c1) ∧ in_grid r1 c1 ∧
      cell_moved op' (r1, c1) = Some (row p - 1, col p - 1)) as (r1 & c1 & -> & Hg1 & Em).
    { unfold cell_moved, in_grid in *. destruct op; try discriminate Hu; injection Hu as <-; simpl in *; (eexists _, _; split; [reflexivity|]);
        (split; [zcases; lia|]); simpl; zcases; try lia; do 2 f_equal; lia. }
    eexists. split; [reflexivity|].
    assert (Hroom : ∀ max x, room (rows_op op') max x ∧ room (cols_op op') max x)
      by (destruct op; try discriminate Hu; injection Hu as <-; done).
    rewrite (adjust_cell op' name _ ctx Hop'); [|simpl; rewrite !Z.add_simpl_r; split; [done|split; apply Hroom]|done].
    simpl. rewrite !Z.add_simpl_r, Em. simpl. rewrite !Z.sub_simpl_r. by destruct p.
  - pose proof Hr as (Hsr & Her & Hsc & Hec & Ho1 & Ho2). pose proof Hop as [Hok1 Hok2].
    destruct (undo_axis _ _ _ _ (start_row_abs p) (end_row_abs p) Ur Hok1 Hsr Her Ho1) as (x1 & y1 & Ex & Ex' & ? & ? & ?).
    destruct (undo_axis _ _ _ _ (start_col_abs p) (end_col_abs p) Uc Hok2 Hsc Hec Ho2) as (x2 & y2 & Ey & Ey' & ? & ? & ?).
    destruct (adjust_range op name p ctx Hop Hr Hctx) as (rows & cols & Er & _ & Ec & _ & ->).
    rewrite Ex in Er. injection Er as <-. rewrite Ey in Ec. injection Ec as <-. simpl. rewrite !pred_succ_map.
    eexists. split; [reflexivity|].
    match goal with |- adjust_reference (Range name ?q) _ _ _ = _ =>
      destruct (adjust_range op' name q ctx Hop') as (rows & cols & Er & _ & Ec & _ & ->); [by split_and!|done|] end.
    simpl in Er, Ec. rewrite Ex' in Er. injection Er as <-. rewrite Ey' in Ec. injection Ec as <-. simpl.
    rewrite !pred_succ_map. by destruct p.
Qed.

(** * Formulas *)

(** Induction on a formula with its lists of arguments and rows. *)
Section ast_ind.
Context (P : ASTNode → Prop).
Context (Hlit : ∀ v tok b, P (Node (Lit v) tok b)) (Homit : ∀ tok b, P (Node Omitted tok b)).
Context (Href : ∀ o r tok b, P (Node (Parser.Reference o r) tok b)).
Context (Hun : ∀ op e tok b, P e → P (Node (UnaryOp op e) tok b)).
Context (Hbin : ∀ op l r tok b, P l → P r → P (Node (BinaryOp op l r) tok b)).
Context (Hfun : ∀ name args tok b, Forall P args → P (Node (Function name args) tok b)).
Context (Hcall : ∀ callee args tok b, P callee → Forall P args → P (Node (Call callee args) tok b)).
Context (Harr : ∀ rows tok b, Forall (Forall P) rows → P (Node (ArrayLit rows) tok b)).

Fixpoint ast_ind (e : ASTNode) : P e :=
  let list := fix list (l : list ASTNode) : Forall P l :=
    match l with [] => Forall_nil_2 P | e :: l => Forall_cons_2 P e l (ast_ind e) (list l) end in
  match e with
  | Node ty tok b =>
      match ty with
      | Lit v => Hlit v tok b
      | Omitted => Homit tok b
      | Parser.Reference o r => Href o r tok b
      | UnaryOp op e => Hun op e tok b (ast_ind e)
      | BinaryOp op l r => Hbin op l r tok b (ast_ind l) (ast_ind r)
      | Function name args => Hfun name args tok b (list args)
      | Call callee args => Hcall callee args tok b (ast_ind callee) (list args)
      | ArrayLit rows =>
          Harr rows tok b
            ((fix rows_ind (rows : Datatypes.list (Datatypes.list ASTNode)) : Forall (Forall P) rows :=
                match rows with
                | [] => Forall_nil_2 _
                | row :: rows => Forall_cons_2 _ row rows (list row) (rows_ind rows)
                end) rows)
      end
  end.
End ast_ind.

(** A formula with its references replaced, but for the texts and tokens it was read from. *)
Fixpoint substitute (f : ReferenceType → ReferenceAdjustment) (e : ASTNode) : ASTNode :=
  match e with
  | Node ty _ b =>
      let node ty := Node ty None b in
      match ty with
      | Parser.Reference _ r =>
          match f r with
          | Adjusted r => node (Parser.Reference (show_reference r) r)
          | Invalidated => node ref_error
          end
      | UnaryOp op e => node (UnaryOp op (substitute f e))
      | BinaryOp op l r => node (BinaryOp op (substitute f l) (substitute f r))
      | Function name args => node (Function name (List.map (substitute f) args))
      | Call callee args => node (Call (substitute f callee) (List.map (substitute f) args))
      | ArrayLit rows => node (ArrayLit (List.map (List.map (substitute f)) rows))
      | Lit _ | Omitted => node ty
      end
  end.

(** A formula without the texts and tokens it was read from. *)
Definition erase : ASTNode → ASTNode := substitute Adjusted.

Fixpoint references (e : ASTNode) : list ReferenceType :=
  match node_type e with
  | Parser.Reference _ r => [r]
  | UnaryOp _ e => references e
  | BinaryOp _ l r => references l ++ references r
  | Function _ args => List.concat (List.map references args)
  | Call callee args => references callee ++ List.concat (List.map references args)
  | ArrayLit rows => List.concat (List.map (λ row, List.concat (List.map references row)) rows)
  | Lit _ | Omitted => []
  end.

Section substitution.
Context (op : ShiftOperation) (policy : AbsShiftPolicy) (ctx : option ReferenceContext).

#[local] Abbreviation inner := (adjust_ast_if_changed_inner op policy ctx).

(** The adjustment of a reference, where the code does not panic. *)
Definition adjustment (r : ReferenceType) : ReferenceAdjustment :=
  match adjust_reference r op policy ctx with Ok a => a | _ => Adjusted r end.

Definition adjusts (r : ReferenceType) : Prop := ∃ a, adjust_reference r op policy ctx = Ok a.

(** The flag tells whether two things differ. *)
Definition differ {A} (changed : bool) (x y : A) : Prop := if changed then x ≠ y else x = y.

(** What the code makes of a formula: nothing if nothing changes, and the substitution otherwise. *)
Definition adjusted_as (e : ASTNode) : Prop :=
  ∃ x, inner e = Ok x ∧ erase (default e x) = substitute adjustment e ∧
    differ (is_changed x) (substitute adjustment e) (erase e).

Lemma differ_cons {A} c1 c2 (x x' : A) l l' : differ c1 x x' → differ c2 l l' → differ (c1 || c2) (x :: l) (x' :: l').
Proof.
  unfold differ. destruct c1, c2; simpl; intros Hx Hl; try (intros [= ? ?]; done). by subst.
Qed.

Lemma map_changed_spec args : Forall adjusted_as args → ∃ args' ch, map_changed inner args = Ok (args', ch) ∧
  List.map erase args' = List.map (substitute adjustment) args ∧
  differ ch (List.map (substitute adjustment) args) (List.map erase args).
Proof.
  induction 1 as [|e args (x & Ex & Hx & Hc) _ (args' & ch & E & Ea & Ec)]; [by exists [], false|].
  simpl. rewrite Ex. cbn [mbind result_bind]. rewrite E. cbn [mbind result_bind].
  eexists _, _. split; [reflexivity|]. simpl. rewrite Hx, Ea. split; [done|].
  pose proof (differ_cons _ _ _ _ _ _ Hc Ec) as H. by destruct x.
Qed.

Lemma map_rows_spec rows : Forall (Forall adjusted_as) rows → ∃ rows' ch, map_rows inner rows = Ok (rows', ch) ∧
  List.map (List.map erase) rows' = List.map (List.map (substitute adjustment)) rows ∧
  differ ch (List.map (List.map (substitute adjustment)) rows) (List.map (List.map erase) rows).
Proof.
  induction 1 as [|row rows (row' & c1 & E1 & Ea1 & Ec1)%map_changed_spec _ (rows' & c2 & E2 & Ea2 & Ec2)];
    [by exists [], false|].
  simpl. rewrite E1. cbn [mbind result_bind]. rewrite E2. cbn [mbind result_bind].
  eexists _, _. split; [reflexivity|]. simpl. rewrite Ea1, Ea2. split; [done|]. by apply differ_cons.
Qed.

Lemma inner_spec e : Forall adjusts (references e) → adjusted_as e.
Proof.
  induction e as [v tok b|tok b|o r tok b|u e tok b IH|u l r tok b IHl IHr|name args tok b IH
    |callee args tok b IHc IH|rows tok b IH] using ast_ind; intros Hr.
  - by exists None.
  - by exists None.
  - apply Forall_cons in Hr as [[a Ha] _]. unfold adjusted_as. simpl. unfold adjustment. rewrite Ha. cbn [mbind result_bind].
    destruct a as [r'|].
    + case_bool_decide as Heq; [subst; by exists None|]. eexists. split; [done|]. simpl. split; [done|]. by intros [= _ ?].
    + eexists. split; [done|]. split; [done|]. by intros [=].
  - destruct (IH Hr) as (x & Ex & Hx & Hc). unfold adjusted_as. simpl. rewrite Ex. cbn [mbind result_bind].
    destruct x as [e'|]; simpl in *; (eexists; split; [done|]); simpl; unfold erase in *; simpl.
    + rewrite Hx. split; [done|]. by intros [= ?].
    + by rewrite Hx.
  - simpl in Hr. apply Forall_app in Hr as [Hl Hr].
    destruct (IHl Hl) as (x & Ex & Hx & Hcx), (IHr Hr) as (y & Ey & Hy & Hcy).
    unfold adjusted_as. simpl. rewrite Ex. cbn [mbind result_bind]. rewrite Ey. cbn [mbind result_bind].
    destruct x as [x|], y as [y|]; simpl in *; (eexists; split; [done|]); simpl; unfold erase in *; simpl;
      rewrite ?Hx, ?Hy; (split; [done|]); try done; intros Hn; injection Hn; naive_solver.
  - simpl in Hr. assert (HF : Forall adjusted_as args).
    { clear -IH Hr. induction IH as [|e args He _ IHa]; [done|]. simpl in Hr. apply Forall_app in Hr as [? ?]. auto. }
    destruct (map_changed_spec _ HF) as (args' & ch & E & Ea & Ec). unfold adjusted_as. simpl. rewrite E.
    cbn [mbind result_bind]. destruct ch; simpl in Ec; (eexists; split; [done|]); simpl; unfold erase in *; simpl.
    + rewrite Ea. split; [done|]. by intros [= ?].
    + by rewrite Ec.
  - simpl in Hr. apply Forall_app in Hr as [Hc Hr]. assert (HF : Forall adjusted_as args).
    { clear -IH Hr. induction IH as [|e args He _ IHa]; [done|]. simpl in Hr. apply Forall_app in Hr as [? ?]. auto. }
    destruct (IHc Hc) as (x & Ex & Hx & Hcx), (map_changed_spec _ HF) as (args' & ch & E & Ea & Ec).
    unfold adjusted_as. simpl. rewrite Ex. cbn [mbind result_bind]. rewrite E. cbn [mbind result_bind].
    destruct x as [x|], ch; simpl in *; (eexists; split; [done|]); simpl; unfold erase in *; simpl;
      rewrite ?Hx, ?Ea, ?Ec; (split; [done|]); try done; intros Hn; injection Hn; naive_solver.
  - simpl in Hr. assert (HF : Forall (Forall adjusted_as) rows).
    { clear -IH Hr. induction IH as [|row rows He _ IHa]; [done|]. simpl in Hr. apply Forall_app in Hr as [Hrow Hr].
      constructor; [|auto]. clear -He Hrow. induction He as [|e args He _ IHa]; [done|].
      simpl in Hrow. apply Forall_app in Hrow as [? ?]. auto. }
    destruct (map_rows_spec _ HF) as (rows' & ch & E & Ea & Ec). unfold adjusted_as. simpl. rewrite E.
    cbn [mbind result_bind]. destruct ch; simpl in Ec; (eexists; split; [done|]); simpl; unfold erase in *; simpl.
    + rewrite Ea. split; [done|]. by intros [= ?].
    + by rewrite Ec.
Qed.

End substitution.

(** ** Substitutions *)

Lemma Forall_concat {A B} (Q : B → Prop) (f : A → list B) l :
  Forall Q (List.concat (List.map f l)) ↔ Forall (λ x, Forall Q (f x)) l.
Proof. induction l as [|x l IH]; simpl; [by split; constructor|]. by rewrite Forall_app, Forall_cons, IH. Qed.

(** A statement about the references of a formula, part by part. *)
Lemma references_ind (Q : ReferenceType → Prop) (R : ASTNode → Prop) :
  (∀ v tok b, R (Node (Lit v) tok b)) → (∀ tok b, R (Node Omitted tok b)) →
  (∀ o r tok b, Q r → R (Node (Parser.Reference o r) tok b)) →
  (∀ u e tok b, R e → R (Node (UnaryOp u e) tok b)) →
  (∀ u l r tok b, R l → R r → R (Node (BinaryOp u l r) tok b)) →
  (∀ name args tok b, Forall R args → R (Node (Function name args) tok b)) →
  (∀ callee args tok b, R callee → Forall R args → R (Node (Call callee args) tok b)) →
  (∀ rows tok b, Forall (Forall R) rows → R (Node (ArrayLit rows) tok b)) →
  ∀ e, Forall Q (references e) → R e.
Proof.
  intros H1 H2 H3 H4 H5 H6 H7 H8 e.
  assert (HF : ∀ l, Forall (λ e, Forall Q (references e) → R e) l → Forall (λ e, Forall Q (references e)) l → Forall R l).
  { intros l Hl Hq. induction Hl; [constructor|]. apply Forall_cons in Hq as [??]. constructor; auto. }
  induction e as [v tok b|tok b|o r tok b|u e tok b IH|u l r tok b IHl IHr|name args tok b IH
    |callee args tok b IHc IH|rows tok b IH] using ast_ind; simpl; intros Hq; auto.
  - apply Forall_cons in Hq as [? _]. auto.
  - apply Forall_app in Hq as [? ?]. auto.
  - rewrite Forall_concat in Hq. auto.
  - rewrite Forall_app, Forall_concat in Hq. destruct Hq. auto.
  - rewrite Forall_concat in Hq. apply H8. induction IH as [|row rows Hrow _ IHrows]; [constructor|].
    apply Forall_cons in Hq as [Hr Hq]. rewrite Forall_concat in Hr. constructor; auto.
Qed.

Ltac map_eq := rewrite ?List.map_map; apply List.map_ext_Forall; eapply Forall_impl; [eassumption|].


Lemma substitute_erase f e : substitute f (erase e) = substitute f e.
Proof.
  unfold erase. induction e as [v tok b|tok b|o r tok b|u e tok b IH|u l r tok b IHl IHr|name args tok b IH
    |callee args tok b IHc IH|rows tok b IH] using ast_ind; simpl; rewrite ?IH, ?IHl, ?IHr, ?IHc; try done;
    do 2 f_equal; map_eq; try done.
  intros row Hrow. simpl. map_eq. done.
Qed.

(** What undoes the adjustment of every reference undoes that of the formula. *)
Lemma substitute_undo f g e :
  Forall (λ r, ∃ r', f r = Adjusted r' ∧ g r' = Adjusted r) (references e) → substitute g (substitute f e) = erase e.
Proof.
  unfold erase. revert e. apply references_ind; simpl; try done.
  - intros o r tok b (r' & -> & Hg). simpl. by rewrite Hg.
  - by intros u e tok b ->.
  - by intros u l r tok b -> ->.
  - intros name args tok b Ha. do 2 f_equal. by map_eq.
  - intros callee args tok b -> Ha. do 2 f_equal. by map_eq.
  - intros rows tok b Hr. do 2 f_equal. map_eq. intros row Hrow. simpl. by map_eq.
Qed.

Lemma references_substitute (Q : ReferenceType → Prop) f e :
  Forall (λ r, ∃ r', f r = Adjusted r' ∧ Q r') (references e) → Forall Q (references (substitute f e)).
Proof.
  revert e. apply references_ind; simpl; try (by constructor).
  - intros o r tok b (r' & -> & Hg). by constructor.
  - done.
  - intros u l r tok b ??. by apply Forall_app.
  - intros name args tok b Ha. by rewrite List.map_map, Forall_concat.
  - intros callee args tok b ? Ha. by rewrite Forall_app, List.map_map, Forall_concat.
  - intros rows tok b Hr. rewrite List.map_map, Forall_concat. eapply Forall_impl; [exact Hr|].
    intros row Hrow. by rewrite List.map_map, Forall_concat.
Qed.

Lemma references_erase (Q : ReferenceType → Prop) e : Forall Q (references (erase e)) → Forall Q (references e).
Proof.
  unfold erase. induction e as [v tok b|tok b|o r tok b|u e tok b IH|u l r tok b IHl IHr|name args tok b IH
    |callee args tok b IHc IH|rows tok b IH] using ast_ind; simpl; try done.
  - rewrite !Forall_app. tauto.
  - rewrite List.map_map, !Forall_concat. induction IH; rewrite ?Forall_cons; [done|tauto].
  - rewrite List.map_map, !Forall_app, !Forall_concat. intros [Hc Ha]. split; [auto|].
    clear Hc. induction IH; rewrite ?Forall_cons in *; [done|tauto].
  - rewrite List.map_map, !Forall_concat. induction IH as [|row rows Hrow _ IHrows]; [done|].
    rewrite !Forall_cons, List.map_map, !Forall_concat. intros [Hr Hrs]. split; [|auto].
    clear -Hrow Hr. induction Hrow; rewrite ?Forall_cons in *; [done|tauto].
Qed.

(** C18: adjusting a formula, under either anchor policy and with or without sheet bindings,
    replaces each reference by its adjustment (a [#REF!] literal where it is invalid) and leaves
    everything else as it is, up to source texts and tokens; and the code reports a change
    exactly when some reference changes. *)
Theorem adjust_ast_substitutes op policy ctx e : Forall (adjusts op policy ctx) (references e) →
  match adjust_ast_if_changed_inner op policy ctx e with
  | Ok None => substitute (adjustment op policy ctx) e = erase e
  | Ok (Some e') => erase e' = substitute (adjustment op policy ctx) e ∧ erase e' ≠ erase e
  | _ => False
  end.
Proof.
  intros ([e'|] & -> & He & Hd)%inner_spec; simpl in *; [|done]. split; [done|]. by rewrite He.
Qed.

Lemma adjust_in_context_spec op ctx e : Forall (adjusts op Track (Some ctx)) (references e) →
  ∃ e', adjust_ast_in_context e op ctx = Ok e' ∧ erase e' = substitute (adjustment op Track (Some ctx)) e.
Proof.
  intros (x & Ex & He & _)%inner_spec. exists (default e x).
  unfold adjust_ast_in_context, adjust_ast_with_policy_in_context. by rewrite Ex.
Qed.

(** C10: inserting rows or columns and deleting them again leaves every formula as it was, up to source
    texts and tokens, provided that the insertion's own [u32] sum does not overflow and that each cell
    and range of the formula on the edited sheet is adjustable in the sense of the theorem above: the
    insertion pushes no cell off the grid and no bound of a range past the largest [u32], the corners of
    a range are in order, and a range has a lower bound on an axis where it has an upper one.  References
    of other kinds and to other sheets are not constrained. *)
Theorem insert_delete_formula op op' ctx e : undo_of op = Some op' → op_ok op →
  Forall (has_room (Some ctx) op) (references e) →
  ∃ e1 e2, adjust_ast_in_context e op ctx = Ok e1 ∧ adjust_ast_in_context e1 op' ctx = Ok e2 ∧ erase e2 = erase e.
Proof.
  intros Hu Hop Hroom.
  assert (HF : Forall (λ r, ∃ r', adjust_reference r op Track (Some ctx) = Ok (Adjusted r') ∧
      adjust_reference r' op' Track (Some ctx) = Ok (Adjusted r)) (references e)).
  { eapply Forall_impl; [exact Hroom|]. intros r Hr. by apply reference_undo. }
  destruct (adjust_in_context_spec op ctx e) as (e1 & E1 & He1).
  { eapply Forall_impl; [exact HF|]. intros r (r' & ? & _). by eexists. }
  assert (HQ : Forall (adjusts op' Track (Some ctx)) (references e1)).
  { apply references_erase. rewrite He1. apply references_substitute. eapply Forall_impl; [exact HF|].
    intros r (r' & E & E'). exists r'. unfold adjustment. rewrite E. split; [done|]. by eexists. }
  destruct (adjust_in_context_spec op' ctx e1 HQ) as (e2 & E2 & He2).
  exists e1, e2. split_and!; [done..|]. rewrite He2, <- substitute_erase, He1. apply substitute_undo.
  eapply Forall_impl; [exact HF|]. intros r (r' & E & E'). exists r'. unfold adjustment. by rewrite E, E'.
Qed.

End references.

(** * Witnesses *)

Definition sample_context : ReferenceContext :=
  {| formula_sheet_id := 0; sheet_registry := foldl (λ r q, serve q r) new [AskId (str "Sheet1"); AskId (str "Data")] |}.
Definition sample_range : ReferenceType :=
  Range (Some (str "data"))
    {| start_row := Some 2; start_col := Some 1; end_row := Some 9; end_col := Some 2;
       start_row_abs := false; start_col_abs := true; end_row_abs := true; end_col_abs := false |}.

Lemma sample_adjustable count : 0 ≤ count ≤ 1000 → op_ok (DeleteRows 1 4 count) ∧ op_ok (InsertRows 1 4 count) ∧
  adjustable (DeleteRows 1 4 count) sample_range ∧ adjustable (InsertRows 1 4 count) sample_range.
Proof.
  intros Hc. unfold op_ok, adjustable, ordered, sample_range. simpl. unfold u32_max. split_and!; try done; try lia; naive_solver lia.
Qed.

Lemma adjust_reference_exact_witness :
  adjust_reference sample_range (DeleteRows 1 4 3) Track (Some sample_context) =
    Ok (Adjusted (Range (Some (str "data"))
      {| start_row := Some 2; start_col := Some 1; end_row := Some 6; end_col := Some 2;
         start_row_abs := false; start_col_abs := true; end_row_abs := true; end_col_abs := false |})) ∧
  match adjust_reference sample_range (DeleteRows 1 4 3) Track (Some sample_context) with
  | Ok (Adjusted r') => ∀ cell cell', cell_moved (DeleteRows 1 4 3) cell = Some cell' → covers sample_range cell ↔ covers r' cell'
  | _ => False
  end.
Proof.
  split; [vm_compute; reflexivity|].
  destruct (sample_adjustable 3) as (Hop & _ & Hadj & _); [lia|].
  assert (Hs : Some 1 = reference_sheet_id sample_context (Some (str "data"))) by (vm_compute; reflexivity).
  pose proof (proj1 (adjust_reference_exact (DeleteRows 1 4 3) sample_range sample_context (Some 1) Hop Hadj Hs) eq_refl) as H.
  assert (Hc : match adjust_reference sample_range (DeleteRows 1 4 3) Track (Some sample_context) with
    | Ok (Adjusted _) => true | _ => false end = true) by (vm_compute; reflexivity).
  destruct (adjust_reference _ _ _ _) as [[r'|]|e|]; [exact H|discriminate Hc|destruct H..].
Defined.

Definition sample_formula : ASTNode :=
  Node (Function (str "SUM") [Node (Parser.Reference (str "Data!$A2:B$9") sample_range) None false]) None false.

Lemma adjust_ast_substitutes_witness :
  match adjust_ast_if_changed_inner (DeleteRows 1 4 3) Track (Some sample_context) sample_formula with
  | Ok (Some e') => erase e' = substitute (adjustment (DeleteRows 1 4 3) Track (Some sample_context)) sample_formula
  | _ => False
  end.
Proof.
  assert (H : Forall (adjusts (DeleteRows 1 4 3) Track (Some sample_context)) (references sample_formula)).
  { constructor; [|constructor]. eexists. vm_compute. reflexivity. }
  assert (Hc : match adjust_ast_if_changed_inner (DeleteRows 1 4 3) Track (Some sample_context) sample_formula with
    | Ok (Some _) => true | _ => false end = true) by (vm_compute; reflexivity).
  pose proof (adjust_ast_substitutes (DeleteRows 1 4 3) Track (Some sample_context) sample_formula H) as H'.
  destruct (adjust_ast_if_changed_inner _ _ _ _) as [[e'|]|e|]; [exact (proj1 H')|discriminate Hc|destruct H'..].
Defined.

Lemma insert_delete_formula_witness : ∃ e1 e2,
  adjust_ast_in_context sample_formula (InsertRows 1 4 3) sample_context = Ok e1 ∧
  adjust_ast_in_context e1 (DeleteRows 1 4 3) sample_context = Ok e2 ∧ erase e2 = erase sample_formula.
Proof.
  destruct (sample_adjustable 3) as (_ & Hop & _ & Hadj); [lia|].
  apply (insert_delete_formula (InsertRows 1 4 3) (DeleteRows 1 4 3) sample_context sample_formula); [reflexivity|exact Hop|].
  constructor; [|constructor]. intros _. exact Hadj.
Defined.
