(* ===== verification/IdSet.v ===== *)
(** [engine/idset.rs]: the set of vertex ids as a bitmap of 64-bit words, with the range of
    the words that may hold bits, and the proof that it implements a finite set. *)
From S2P Require Import Prelude Coords.
Local Open Scope Z_scope.

(** * The bitmap *)

Record DenseIdSet : Type := {
  words : list Z;
  len : nat;
  lo : nat;
  hi : nat
}.

#[export] Instance DenseIdSet_eq_dec : EqDecision DenseIdSet.
Proof. solve_decision. Defined.

Definition default : DenseIdSet := {| words := []; len := 0; lo := 0; hi := 0 |}.

Definition is_empty (s : DenseIdSet) : bool := (len s =? 0)%nat.

(** [(id.0 as usize >> 6, id.0 & 63)] and [word >> b & 1 == 1]. *)
Definition word_of (id : Z) : nat := Z.to_nat (Z.shiftr id 6).
Definition bit_of (id : Z) : Z := Z.land id 63.
Definition bit_set (word b : Z) : bool := Z.land (Z.shiftr word b) 1 =? 1.

Definition contains (s : DenseIdSet) (id : Z) : bool :=
  match words s !! word_of id with
  | Some word => bit_set word (bit_of id)
  | None => false
  end.

Definition next_power_of_two (n : nat) : nat := (2 ^ Nat.log2_up n)%nat.

Definition grow (w : nat) (ws : list Z) : list Z :=
  if (length ws <=? w)%nat then resize (next_power_of_two (w + 1) `max` 16) 0 ws else ws.

Definition insert (s : DenseIdSet) (id : Z) : result Empty_set (DenseIdSet * bool) :=
  let w := word_of id in
  let b := bit_of id in
  let ws := grow w (words s) in
  word ← expect (ws !! w);
  if bit_set word b
  then Ok ({| words := ws; len := len s; lo := lo s; hi := hi s |}, false)
  else
    let ws := <[w := Z.lor word (Z.shiftl 1 b)]> ws in
    let '(l, h) := if (len s =? 0)%nat then (w, w) else (lo s `min` w, hi s `max` w)%nat in
    Ok ({| words := ws; len := S (len s); lo := l; hi := h |}, true).

(** [self.len -= 1] overflows on 0. *)
Definition remove (s : DenseIdSet) (id : Z) : result Empty_set (DenseIdSet * bool) :=
  let w := word_of id in
  let b := bit_of id in
  match words s !! w with
  | None => Ok (s, false)
  | Some word =>
      if negb (bit_set word b) then Ok (s, false)
      else
        let ws := <[w := Z.land word (not_u64 (Z.shiftl 1 b))]> (words s) in
        match len s with
        | O => Panic
        | S n => Ok ({| words := ws; len := n; lo := lo s; hi := hi s |}, true)
        end
  end.

Fixpoint extend (s : DenseIdSet) (ids : list Z) : result Empty_set DenseIdSet :=
  match ids with
  | [] => Ok s
  | id :: ids => '(s, _) ← insert s id; extend s ids
  end.

(** [&self.words[lo..=hi]]. *)
Definition slice (a b : nat) (ws : list Z) : result Empty_set (list Z) :=
  if (a <=? b + 1)%nat && (b <? length ws)%nat then Ok (take (b + 1 - a) (drop a ws)) else Panic.

Definition clear (s : DenseIdSet) : result Empty_set DenseIdSet :=
  ws ← (if negb (len s =? 0)%nat
        then range ← slice (lo s) (hi s) (words s);
             Ok (take (lo s) (words s) ++ replicate (length range) 0 ++ drop (hi s + 1) (words s))
        else Ok (words s));
  Ok {| words := ws; len := 0; lo := lo s; hi := hi s |}.

Fixpoint pos_trailing_zeros (p : positive) : nat :=
  match p with xO p => S (pos_trailing_zeros p) | _ => 0 end.
Definition trailing_zeros (w : Z) : Z :=
  match w with Zpos p => Z.of_nat (pos_trailing_zeros p) | _ => 64 end.

(** The bits of a word: [w &= w - 1] takes the lowest one out. *)
Fixpoint bits (fuel : nat) (w : Z) : result Empty_set (list Z) :=
  if w =? 0 then Ok []
  else match fuel with
       | O => Panic
       | S fuel => rest ← bits fuel (Z.land w (w - 1)); Ok (trailing_zeros w :: rest)
       end.

(** [VertexId((((base + i) as u32) << 6) | b)]. *)
Definition id_at (i : nat) (b : Z) : Z := Z.lor (as_u32 (Z.shiftl (as_u32 (Z.of_nat i)) 6)) b.

Fixpoint iter_words (i : nat) (ws : list Z) : result Empty_set (list Z) :=
  match ws with
  | [] => Ok []
  | w :: ws => bs ← bits 64 w; rest ← iter_words (S i) ws; Ok ((id_at i <$> bs) ++ rest)
  end.

Definition iter (s : DenseIdSet) : result Empty_set (list Z) :=
  ws ← (if (len s =? 0)%nat then Ok [] else slice (lo s) (hi s) (words s));
  iter_words (lo s) ws.

Definition shrink_if_empty (s : DenseIdSet) : DenseIdSet :=
  if (len s =? 0)%nat && (2 ^ 16 <? Z.of_nat (length (words s)))
  then {| words := []; len := len s; lo := lo s; hi := hi s |} else s.

Example across_words :
  (s ← extend default [70; 3; 64; 3; 200];
   '(s, gone) ← remove s 64;
   ids ← iter s;
   Ok (gone, ids, len s, contains s 64, contains s 200)) = Ok (true, [3; 70; 200], 3%nat, false, true).
Proof. vm_compute. reflexivity. Qed.

(** * Bits *)

#[local] Ltac Zify.zify_post_hook ::= Z.to_euclidean_division_equations.

Definition word_ok (w : Z) : Prop := 0 ≤ w < 2 ^ 64.

Lemma bit_set_spec w b : 0 ≤ b → bit_set w b = Z.testbit w b.
Proof.
  intros Hb. unfold bit_set. rewrite (Z.land_ones _ 1), <- Z.bit0_mod, Z.shiftr_spec by lia.
  rewrite Z.add_0_l. by destruct (Z.testbit w b).
Qed.

Lemma testbit_one_shl b i : 0 ≤ b → 0 ≤ i → Z.testbit (Z.shiftl 1 b) i = bool_decide (i = b).
Proof.
  intros Hb Hi. rewrite Z.shiftl_1_l. case_bool_decide as E; [subst; by apply Z.pow2_bits_true|].
  apply Z.pow2_bits_false. lia.
Qed.

Lemma word_ok_bits w : 0 ≤ w → word_ok w ↔ ∀ i, 64 ≤ i → Z.testbit w i = false.
Proof. intros Hw. unfold word_ok. rewrite <- Z.bounded_iff_bits_nonneg by lia. lia. Qed.

Lemma testbit_set w b i : 0 ≤ b → 0 ≤ i →
  Z.testbit (Z.lor w (Z.shiftl 1 b)) i = Z.testbit w i || bool_decide (i = b).
Proof. intros. by rewrite Z.lor_spec, testbit_one_shl. Qed.

Lemma testbit_unset w b i : 0 ≤ b < 64 → 0 ≤ i < 64 →
  Z.testbit (Z.land w (not_u64 (Z.shiftl 1 b))) i = Z.testbit w i && negb (bool_decide (i = b)).
Proof.
  intros Hb Hi. unfold not_u64. rewrite !Z.land_spec, Z.lnot_spec, testbit_one_shl by lia.
  change u64_max with (Z.ones 64). rewrite Z.ones_spec_low by lia. by rewrite andb_true_r.
Qed.

Lemma word_ok_set w b : word_ok w → 0 ≤ b < 64 → word_ok (Z.lor w (Z.shiftl 1 b)).
Proof.
  intros Hw Hb. assert (0 ≤ Z.lor w (Z.shiftl 1 b)).
  { apply Z.lor_nonneg. split; [apply Hw|]. apply Z.shiftl_nonneg. lia. }
  apply word_ok_bits; [done|]. intros i Hi. rewrite testbit_set by lia.
  rewrite bool_decide_eq_false_2, orb_false_r by lia. apply (testbit_high w 64); unfold word_ok in *; lia.
Qed.

Lemma word_ok_land w x : word_ok w → word_ok (Z.land w x).
Proof.
  intros Hw. apply word_ok_bits; [apply Z.land_nonneg; left; apply Hw|].
  intros i Hi. rewrite Z.land_spec, (testbit_high w 64); [done|apply Hw|lia].
Qed.

(** ** The words and bits of ids *)

Lemma word_of_div id : word_of id = Z.to_nat (id / 64).
Proof. unfold word_of. by rewrite Z.shiftr_div_pow2 by lia. Qed.
Lemma bit_of_mod id : bit_of id = id mod 64.
Proof. unfold bit_of. by rewrite (Z.land_ones _ 6) by lia. Qed.
Lemma bit_of_range id : 0 ≤ bit_of id < 64.
Proof. rewrite bit_of_mod. lia. Qed.
Lemma word_of_small id : in_u32 id → Z.of_nat (word_of id) < 2 ^ 26.
Proof.
  intros Hid. rewrite word_of_div. unfold in_u32, u32_max in Hid. rewrite Z2Nat.id; lia.
Qed.

Lemma same_id x y : in_u32 x → in_u32 y → word_of x = word_of y → bit_of x = bit_of y → x = y.
Proof. unfold in_u32. rewrite !word_of_div, !bit_of_mod. intros. lia. Qed.

Lemma id_at_spec i b : Z.of_nat i < 2 ^ 26 → 0 ≤ b < 64 →
  id_at i b = 64 * Z.of_nat i + b ∧ in_u32 (id_at i b) ∧ word_of (id_at i b) = i ∧ bit_of (id_at i b) = b.
Proof.
  intros Hi Hb.
  assert (id_at i b = 64 * Z.of_nat i + b) as E.
  { unfold id_at. rewrite (as_u32_small (Z.of_nat i)) by (unfold in_u32, u32_max; lia).
    rewrite as_u32_small by (rewrite Z.shiftl_mul_pow2 by lia; unfold in_u32, u32_max; lia).
    rewrite lor_shiftl_add by lia. lia. }
  rewrite word_of_div, bit_of_mod. unfold in_u32, u32_max. split; [done|]. rewrite E. split; [|split]; lia.
Qed.

(** The bit of an id in a vector of words. *)
Definition has (ws : list Z) (id : Z) : bool :=
  match ws !! word_of id with Some w => Z.testbit w (bit_of id) | None => false end.

Lemma contains_has s id : contains s id = has (words s) id.
Proof.
  unfold contains, has. destruct (words s !! word_of id); [|done].
  apply bit_set_spec. by destruct (bit_of_range id).
Qed.

Lemma grow_length w ws : (w < length (grow w ws))%nat.
Proof.
  unfold grow. destruct (Nat.leb_spec (length ws) w) as [E|E]; [|lia].
  rewrite length_resize. unfold next_power_of_two.
  pose proof (Nat.log2_log2_up_spec (w + 1) ltac:(lia)). lia.
Qed.

Lemma grow_keeps w ws : (length ws ≤ length (grow w ws))%nat.
Proof. pose proof (grow_length w ws). unfold grow in *. destruct (Nat.leb_spec (length ws) w); lia. Qed.

Lemma grow_bound w ws : Z.of_nat w < 2 ^ 26 → Z.of_nat (length ws) ≤ 2 ^ 26 →
  Z.of_nat (length (grow w ws)) ≤ 2 ^ 26.
Proof.
  intros Hw Hl. unfold grow. destruct (length ws <=? w)%nat; [|done]. rewrite length_resize.
  rewrite Nat2Z.inj_max. apply Z.max_lub; [|lia]. unfold next_power_of_two. rewrite Nat2Z.inj_pow.
  apply Z.pow_le_mono_r; [lia|]. apply (Nat2Z.inj_le _ 26), Nat.log2_up_le_pow2; [lia|].
  apply Nat2Z.inj_le. rewrite Nat2Z.inj_pow. lia.
Qed.

Lemma grow_lookup w ws i x : grow w ws !! i = Some x → ws !! i = Some x ∨ (ws !! i = None ∧ x = 0).
Proof.
  unfold grow. destruct (Nat.leb_spec (length ws) w) as [E|E]; [|by left]. intros H.
  assert (Hlen : (length ws ≤ next_power_of_two (w + 1) `max` 16)%nat).
  { unfold next_power_of_two. pose proof (Nat.log2_log2_up_spec (w + 1) ltac:(lia)). lia. }
  destruct (decide (i < length ws)%nat) as [Hi|Hi].
  - left. by rewrite lookup_resize in H by (apply lookup_lt_Some in H; rewrite length_resize in H; lia).
  - right. split; [apply lookup_ge_None; lia|].
    rewrite lookup_resize_new in H; [by injection H|lia|].
    apply lookup_lt_Some in H. by rewrite length_resize in H.
Qed.

Lemma grow_has w ws id : has (grow w ws) id = has ws id.
Proof.
  unfold has. destruct (grow w ws !! word_of id) as [x|] eqn:E.
  - destruct (grow_lookup _ _ _ _ E) as [->|[-> ->]]; [done|]. apply Z.testbit_0_l.
  - destruct (ws !! word_of id) eqn:E2; [|done]. exfalso. apply lookup_lt_Some in E2.
    apply lookup_ge_None in E. pose proof (grow_keeps w ws). lia.
Qed.

Lemma grow_ok w ws : Forall word_ok ws → Forall word_ok (grow w ws).
Proof.
  rewrite !Forall_lookup. intros Hok i x H.
  destruct (grow_lookup _ _ _ _ H) as [?|[_ ->]]; [by eapply Hok|]. unfold word_ok. lia.
Qed.

Lemma set_has ws id word id' : in_u32 id → in_u32 id' → ws !! word_of id = Some word →
  has (<[word_of id := Z.lor word (Z.shiftl 1 (bit_of id))]> ws) id' = has ws id' || bool_decide (id' = id).
Proof.
  intros Hid Hid' Hw. unfold has. pose proof (bit_of_range id). pose proof (bit_of_range id').
  destruct (decide (word_of id' = word_of id)) as [E|E].
  - rewrite E, list_lookup_insert_eq, Hw by (by eapply lookup_lt_Some). rewrite testbit_set by lia.
    f_equal. apply bool_decide_ext. split; [by intros; apply same_id|congruence].
  - rewrite list_lookup_insert_ne by done. rewrite (bool_decide_eq_false_2 (id' = id)) by congruence.
    by rewrite orb_false_r.
Qed.

Lemma unset_has ws id word id' : in_u32 id → in_u32 id' → ws !! word_of id = Some word →
  has (<[word_of id := Z.land word (not_u64 (Z.shiftl 1 (bit_of id)))]> ws) id' =
    has ws id' && negb (bool_decide (id' = id)).
Proof.
  intros Hid Hid' Hw. unfold has. pose proof (bit_of_range id). pose proof (bit_of_range id').
  destruct (decide (word_of id' = word_of id)) as [E|E].
  - rewrite E, list_lookup_insert_eq, Hw by (by eapply lookup_lt_Some). rewrite testbit_unset by lia.
    do 2 f_equal. apply bool_decide_ext. split; [by intros; apply same_id|congruence].
  - rewrite list_lookup_insert_ne by done. rewrite (bool_decide_eq_false_2 (id' = id)) by congruence.
    by rewrite andb_true_r.
Qed.

(** * The set a bitmap stands for *)

(** [repr s X]: the bits are the ids of [X], [len] counts them, and they all lie in the
    words [lo..=hi]. *)
Record repr (s : DenseIdSet) (X : gset Z) : Prop := {
  repr_words : Forall word_ok (words s);
  repr_length : Z.of_nat (length (words s)) ≤ 2 ^ 26;
  repr_u32 : ∀ id, id ∈ X → in_u32 id;
  repr_bits : ∀ id, in_u32 id → has (words s) id = bool_decide (id ∈ X);
  repr_len : len s = size X;
  repr_range : X ≠ ∅ → (lo s ≤ hi s < length (words s))%nat;
  repr_inside : ∀ id, id ∈ X → (lo s ≤ word_of id ≤ hi s)%nat
}.

Lemma default_repr : repr default ∅.
Proof. split; try done; set_solver. Qed.

Lemma repr_len_zero s X : repr s X → (len s =? 0)%nat = bool_decide (X = ∅).
Proof.
  intros R. rewrite (repr_len _ _ R). case_bool_decide as E; [by subst|].
  apply Nat.eqb_neq. by intros ?%size_empty_inv%leibniz_equiv.
Qed.

Lemma insert_refines s X id : repr s X → in_u32 id →
  ∃ s', insert s id = Ok (s', bool_decide (id ∉ X)) ∧ repr s' ({[id]} ∪ X).
Proof.
  intros R Hid. unfold insert. pose proof (word_of_small id Hid) as Hsmall.
  pose proof (grow_length (word_of id) (words s)) as Hg.
  pose proof (grow_bound _ _ Hsmall (repr_length _ _ R)) as Hgb.
  pose proof (grow_ok (word_of id) _ (repr_words _ _ R)) as Hok.
  destruct (grow (word_of id) (words s) !! word_of id) as [word|] eqn:Hw; [|apply lookup_ge_None in Hw; lia].
  cbn [expect mbind result_bind]. pose proof (bit_of_range id) as Hb.
  assert (bit_set word (bit_of id) = bool_decide (id ∈ X)) as ->.
  { rewrite bit_set_spec, <- (repr_bits _ _ R id Hid), <- (grow_has (word_of id)) by lia. unfold has. by rewrite Hw. }
  case_bool_decide as Hin.
  - eexists. rewrite bool_decide_eq_false_2 by (by intros H; apply H). split; [done|].
    replace ({[id]} ∪ X) with X by set_solver. destruct R as [? ? ? Hbits ? Hr ?]. split; simpl; try done.
    + intros i Hi. rewrite grow_has. by apply Hbits.
    + intros Hne. specialize (Hr Hne). pose proof (grow_keeps (word_of id) (words s)). lia.
  - rewrite (repr_len_zero s X R), (bool_decide_eq_true_2 (id ∉ X)) by done.
    destruct (if bool_decide (X = ∅) then _ else _) as [l h] eqn:Elh. eexists. split; [done|].
    pose proof Hok as Hok2. rewrite Forall_lookup in Hok2. pose proof (Hok2 _ _ Hw) as Hwok.
    assert (Hlh : ∀ x, x ∈ {[id]} ∪ X → (l ≤ word_of x ≤ h)%nat).
    { intros x [->%elem_of_singleton|Hx]%elem_of_union; case_bool_decide as E; simplify_eq; try lia; try set_solver.
      pose proof (repr_inside _ _ R x Hx). lia. }
    split; simpl.
    + apply Forall_insert; [done|by apply word_ok_set].
    + by rewrite length_insert.
    + intros x [->%elem_of_singleton|?]%elem_of_union; [done|by eapply repr_u32].
    + intros x Hx. rewrite (set_has _ id word x) by done. rewrite grow_has, (repr_bits _ _ R) by done.
      rewrite <- bool_decide_or. apply bool_decide_ext. set_solver.
    + rewrite (repr_len _ _ R), size_union, size_singleton by set_solver. done.
    + intros _. rewrite length_insert. case_bool_decide as E; simplify_eq; [lia|].
      destruct (repr_range _ _ R E). pose proof (grow_keeps (word_of id) (words s)). lia.
    + exact Hlh.
Qed.

Lemma remove_refines s X id : repr s X → in_u32 id →
  ∃ s', remove s id = Ok (s', bool_decide (id ∈ X)) ∧ repr s' (X ∖ {[id]}).
Proof.
  intros R Hid. unfold remove. pose proof (bit_of_range id) as Hb.
  pose proof (repr_bits _ _ R id Hid) as Hbit. unfold has in Hbit.
  destruct (words s !! word_of id) as [word|] eqn:Hw.
  - rewrite bit_set_spec, Hbit by lia. case_bool_decide as Hin; simpl.
    + pose proof (repr_len _ _ R) as Hlen.
      assert (size X = S (size (X ∖ {[id]}))) as HX.
      { replace X with ({[id]} ∪ X ∖ {[id]}) at 1 by (apply union_difference_singleton_L_eq || (apply set_eq; intros x;
          destruct (decide (x = id)); set_solver)). rewrite size_union, size_singleton by set_solver. done. }
      destruct (len s) as [|n] eqn:En; [lia|]. eexists. split; [done|].
      pose proof (repr_words _ _ R) as Hok. rewrite Forall_lookup in Hok. pose proof (Hok _ _ Hw) as Hwok.
      split; simpl.
      * apply Forall_insert; [apply R|by apply word_ok_land].
      * rewrite length_insert. apply R.
      * intros x Hx. apply (repr_u32 _ _ R). set_solver.
      * intros x Hx. rewrite (unset_has _ id word x), (repr_bits _ _ R) by done.
        rewrite <- bool_decide_not, <- bool_decide_and. apply bool_decide_ext. set_solver.
      * lia.
      * intros _. rewrite length_insert. apply (repr_range _ _ R). set_solver.
      * intros x Hx. apply (repr_inside _ _ R). set_solver.
    + exists s. split; [done|]. by replace (X ∖ {[id]}) with X by set_solver.
  - symmetry in Hbit. exists s. rewrite Hbit. split; [done|]. apply bool_decide_eq_false in Hbit.
    by replace (X ∖ {[id]}) with X by set_solver.
Qed.

Lemma extend_refines ids s X : repr s X → Forall in_u32 ids →
  ∃ s', extend s ids = Ok s' ∧ repr s' (X ∪ list_to_set ids).
Proof.
  intros R Hall. revert s X R. induction Hall as [|id ids Hid Hall IH]; intros s X R; simpl.
  - exists s. split; [done|]. by rewrite union_empty_r_L.
  - destruct (insert_refines s X id R Hid) as (s1 & -> & R1). cbn [mbind result_bind].
    destruct (IH _ _ R1) as (s2 & -> & R2). exists s2. split; [done|].
    by replace (X ∪ ({[id]} ∪ list_to_set ids)) with ({[id]} ∪ X ∪ list_to_set ids) by set_solver.
Qed.

(** ** Clearing *)

Lemma slice_ok a b ws : (a ≤ b < length ws)%nat → slice a b ws = Ok (take (b + 1 - a) (drop a ws)).
Proof.
  intros H. unfold slice. by rewrite (proj2 (Nat.leb_le _ _)), (proj2 (Nat.ltb_lt _ _)) by lia.
Qed.

Lemma clear_refines s X : repr s X → ∃ s', clear s = Ok s' ∧ repr s' ∅.
Proof.
  intros R. unfold clear. rewrite (repr_len_zero s X R). case_bool_decide as E; cbn [negb].
  - subst X. eexists. split; [done|]. destruct R as [? ? ? ? Hlen ? ?]. by split.
  - destruct (repr_range _ _ R E) as [Hl Hh]. rewrite slice_ok by lia. cbn [mbind result_bind].
    set (ws := take (lo s) (words s) ++ replicate _ 0 ++ drop (hi s + 1) (words s)). eexists. split; [done|].
    assert (Hlen : length ws = length (words s)).
    { unfold ws. rewrite !length_app, length_replicate, !length_take, !length_drop. lia. }
    assert (Hws : ∀ i w, ws !! i = Some w → w = 0 ∨ words s !! i = Some w ∧ ¬ (lo s ≤ i ≤ hi s)%nat).
    { unfold ws. intros i w. rewrite !lookup_app_Some, lookup_replicate, !length_take, !length_drop, length_replicate, lookup_drop.
      intros [[H ?]%lookup_take_Some|[Hi [[-> _]|[Hi2 H]]]]; [right; split; [done|lia]|by left|].
      right. revert H. match goal with |- words s !! ?k = _ → _ => replace k with i by lia end. split; [done|lia]. }
    split; try done; simpl.
    + apply Forall_lookup. intros i w [->|[Hi _]]%Hws; [unfold word_ok; lia|].
      pose proof (repr_words _ _ R) as Hok. rewrite Forall_lookup in Hok. by eapply Hok.
    + rewrite Hlen. apply R.
    + intros id Hid. rewrite bool_decide_eq_false_2 by set_solver. unfold has.
      destruct (ws !! word_of id) as [w|] eqn:Hw; [|done]. destruct (Hws _ _ Hw) as [->|[Hw2 Hout]]; [apply Z.testbit_0_l|].
      pose proof (repr_bits _ _ R id Hid) as Hb. unfold has in Hb. rewrite Hw2 in Hb. rewrite Hb.
      apply bool_decide_eq_false. intros Hin. by pose proof (repr_inside _ _ R _ Hin).
Qed.

Lemma shrink_refines s X : repr s X → repr (shrink_if_empty s) X.
Proof.
  intros R. unfold shrink_if_empty. rewrite (repr_len_zero s X R). case_bool_decide as E; [|done].
  destruct (_ <? _); [|done]. subst X. by destruct R; split.
Qed.

(** ** Iteration *)

Lemma trailing_zeros_spec w : 0 < w →
  ∃ k, 0 ≤ trailing_zeros w ∧ w = (2 * k + 1) * 2 ^ trailing_zeros w.
Proof.
  destruct w as [|p|p]; [lia| |lia]. intros _. cbn [trailing_zeros].
  induction p as [p IH|p IH|]; cbn [pos_trailing_zeros].
  - exists (Z.pos p). lia.
  - destruct IH as (k & Hn & E). exists k. split; [lia|].
    rewrite Nat2Z.inj_succ, Z.pow_succ_r by lia. lia.
  - exists 0. lia.
Qed.

(** Taking the lowest bit out. *)
Lemma lowest_bit w : 0 < w → let b := trailing_zeros w in
  0 ≤ b ∧ Z.testbit w b = true ∧ (∀ i, i < b → Z.testbit w i = false) ∧
  ∀ i, 0 ≤ i → Z.testbit (Z.land w (w - 1)) i = Z.testbit w i && negb (bool_decide (i = b)).
Proof.
  intros Hw b. destruct (trailing_zeros_spec w Hw) as (k & Hb & E). fold b in Hb, E.
  assert (Hlow : ∀ i, i < b → Z.testbit w i = false).
  { intros i Hi. destruct (Z.neg_nonneg_cases i) as [|H0]; [by apply Z.testbit_neg_r|].
    rewrite E. by apply Z.mul_pow2_bits_low. }
  assert (Hbit : Z.testbit w b = true).
  { rewrite E, Z.mul_pow2_bits, Z.sub_diag by lia. apply Z.testbit_odd_0. }
  split_and!; [done|done|done|]. intros i Hi. rewrite Z.land_spec.
  destruct (Z.lt_trichotomy i b) as [Hlt|[->|Hgt]].
  - by rewrite Hlow.
  - rewrite Hbit, bool_decide_eq_true_2 by done. cbn [andb negb].
    rewrite E. replace ((2 * k + 1) * 2 ^ b - 1) with (k * 2 ^ (b + 1) + (2 ^ b - 1))
      by (rewrite Z.pow_add_r by lia; lia).
    rewrite Z.testbit_eqb, Z.eqb_neq by lia.
    rewrite Z.pow_add_r by lia. replace (k * (2 ^ b * 2 ^ 1) + (2 ^ b - 1)) with (2 ^ b - 1 + (2 * k) * 2 ^ b) by lia.
    rewrite Z.div_add by lia. rewrite Z.div_small by lia. lia.
  - rewrite (bool_decide_eq_false_2 (i = b)), andb_true_r by lia.
    assert (Z.testbit (w - 1) i = Z.testbit w i) as ->; [|by destruct (Z.testbit w i)].
    assert (H2 : ∀ r, 0 ≤ r < 2 ^ (b + 1) → Z.testbit (r + k * 2 ^ (b + 1)) i = Z.testbit k (i - (b + 1))).
    { intros r Hr. assert (∃ m, 0 ≤ m ∧ i = m + (b + 1)) as (m & Hm & ->) by (exists (i - (b + 1)); lia).
      rewrite <- Z.div_pow2_bits, Z.div_add, Z.div_small by lia. f_equal. lia. }
    assert (0 < 2 ^ b) by lia.
    replace (w - 1) with (2 ^ b - 1 + k * 2 ^ (b + 1)) by (rewrite Z.pow_add_r by lia; lia).
    rewrite H2 by (rewrite Z.pow_add_r by lia; lia).
    replace w with (2 ^ b + k * 2 ^ (b + 1)) by (rewrite Z.pow_add_r by lia; lia).
    by rewrite H2 by (rewrite Z.pow_add_r by lia; lia).
Qed.

(** Strictly increasing. *)
Abbreviation increasing := (StronglySorted Z.lt).

Lemma bits_spec fuel : ∀ k w, word_ok w → 0 ≤ k → 64 ≤ Z.of_nat fuel + k →
  (∀ i, i < k → Z.testbit w i = false) →
  ∃ l, bits fuel w = Ok l ∧ increasing l ∧ ∀ b, b ∈ l ↔ 0 ≤ b ∧ Z.testbit w b = true.
Proof.
  induction fuel as [|fuel IH]; intros k w Hw Hk Hf Hlow; cbn [bits].
  - assert (w = 0) as ->.
    { apply Z.bits_inj_0. intros i. destruct (Z.lt_ge_cases i k); [by apply Hlow|].
      apply (testbit_high w 64); unfold word_ok in Hw; lia. }
    exists []. split_and!; [done|constructor|]. intros b. rewrite Z.testbit_0_l, elem_of_nil. naive_solver.
  - destruct (Z.eqb_spec w 0) as [->|Hne].
    { exists []. split_and!; [done|constructor|]. intros b. rewrite Z.testbit_0_l, elem_of_nil. naive_solver. }
    destruct (lowest_bit w) as (Hb & Hbit & Hmin & Hrest); [unfold word_ok in Hw; lia|].
    set (b := trailing_zeros w) in *.
    assert (k ≤ b) by (destruct (Z.le_gt_cases k b); [done|by rewrite Hlow in Hbit]).
    destruct (IH (b + 1) (Z.land w (w - 1))) as (l & Hl & Hs & Hin); [by apply word_ok_land|lia|lia| |].
    { intros i Hi. destruct (Z.neg_nonneg_cases i); [by apply Z.testbit_neg_r|]. rewrite Hrest by done.
      case_bool_decide; [by rewrite andb_false_r|]. rewrite Hmin by lia. done. }
    exists (b :: l). rewrite Hl. split; [done|]. split.
    + constructor; [done|]. apply Forall_forall. intros x [Hx Hxb]%Hin.
      rewrite Hrest in Hxb by done. apply andb_true_iff in Hxb as [Hxb Hxne].
      apply negb_true_iff, bool_decide_eq_false in Hxne. destruct (Z.lt_trichotomy x b) as [?|[?|?]]; [|done|done].
      by rewrite Hmin in Hxb.
    + intros x. rewrite elem_of_cons, Hin. split.
      * intros [->|[Hx Hxb]]; [done|]. rewrite Hrest in Hxb by done. by apply andb_true_iff in Hxb as [? _].
      * intros [Hx Hxb]. destruct (decide (x = b)); [by left|right]. split; [done|].
        by rewrite Hrest, Hxb, bool_decide_eq_false_2.
Qed.

Lemma increasing_app l1 l2 : increasing l1 → increasing l2 → (∀ x y, x ∈ l1 → y ∈ l2 → x < y) →
  increasing (l1 ++ l2).
Proof.
  intros H1 H2 H. induction H1 as [|x l1 Hs IH Hall]; [done|]. simpl. constructor.
  - apply IH. intros. apply H; [by right|done].
  - apply Forall_app. split; [done|]. apply Forall_forall. intros y Hy. apply H; [left|done].
Qed.

Lemma iter_words_spec ws : ∀ i, Forall word_ok ws → Z.of_nat (i + length ws) ≤ 2 ^ 26 →
  ∃ l, iter_words i ws = Ok l ∧ increasing l ∧
    ∀ x, x ∈ l ↔ ∃ j w, ws !! j = Some w ∧ in_u32 x ∧ word_of x = (i + j)%nat ∧ Z.testbit w (bit_of x) = true.
Proof.
  induction ws as [|w ws IH]; intros i Hok Hlen; cbn [iter_words].
  - exists []. split_and!; [done|constructor|]. intros x. rewrite elem_of_nil. split; [done|].
    by intros (j & w & ? & _).
  - apply Forall_cons in Hok as [Hw Hok]. cbn [length] in Hlen.
    destruct (bits_spec 64 0 w) as (bs & -> & Hbs & Hin); [done|lia|lia|intros; by apply Z.testbit_neg_r|].
    destruct (IH (S i) Hok) as (l & -> & Hl & Hlin); [lia|]. cbn [mbind result_bind]. eexists. split; [done|].
    assert (Hb64 : ∀ b, b ∈ bs → 0 ≤ b < 64).
    { intros b [Hb0 Hb]%Hin. split; [done|]. destruct (Z.lt_ge_cases b 64); [done|].
      rewrite (testbit_high w 64) in Hb; [done|apply Hw|lia]. }
    assert (Hi : Z.of_nat i < 2 ^ 26) by lia.
    split.
    + apply increasing_app; [|done|].
      * clear -Hbs Hb64 Hi. induction Hbs as [|b bs Hs IH Hall]; [constructor|]. csimpl. constructor.
        { apply IH. intros. apply Hb64. by right. }
        apply Forall_fmap, Forall_forall. intros y Hy. simpl. rewrite Forall_forall in Hall.
        destruct (id_at_spec i b Hi) as [-> _]; [apply Hb64; left|].
        destruct (id_at_spec i y Hi) as [-> _]; [apply Hb64; by right|]. specialize (Hall y Hy). lia.
      * intros x y (b & -> & Hb)%list_elem_of_fmap (j & w' & Hj & Hy32 & Hyw & _)%Hlin.
        destruct (id_at_spec i b Hi (Hb64 _ Hb)) as (-> & _). specialize (Hb64 _ Hb).
        rewrite word_of_div in Hyw. unfold in_u32 in Hy32. lia.
    + intros x. rewrite elem_of_app, Hlin, list_elem_of_fmap. split.
      * intros [(b & -> & Hb)|(j & w' & Hj & ? & ? & ?)].
        { destruct (id_at_spec i b Hi (Hb64 _ Hb)) as (_ & H32 & -> & ->). apply Hin in Hb as [_ Hb].
          exists 0%nat, w. split_and!; [done|done|lia|done]. }
        exists (S j), w'. split_and!; [done|done|lia|done].
      * intros ([|j] & w' & Hj & H32 & Hx & Hb); simpl in Hj.
        { left. injection Hj as ->. exists (bit_of x). pose proof (bit_of_range x) as Hr.
          destruct (id_at_spec i (bit_of x) Hi Hr) as (_ & H32' & Hw' & Hb').
          split; [apply same_id; [done|done|lia|done]|]. apply Hin. split; [lia|done]. }
        right. exists j, w'. split_and!; [done|done|lia|done].
Qed.

Lemma iter_refines s X : repr s X → ∃ l, iter s = Ok l ∧ increasing l ∧ ∀ x, x ∈ l ↔ x ∈ X.
Proof.
  intros R. unfold iter. rewrite (repr_len_zero s X R). case_bool_decide as E.
  - subst. exists []. split_and!; [done|constructor|set_solver].
  - destruct (repr_range _ _ R E) as [Hl Hh]. rewrite slice_ok by lia. cbn [mbind result_bind].
    pose proof (repr_length _ _ R) as Hlen.
    destruct (iter_words_spec (take (hi s + 1 - lo s) (drop (lo s) (words s))) (lo s)) as (l & -> & Hs & Hin).
    { apply Forall_take, Forall_drop, R. }
    { rewrite length_take, length_drop. lia. }
    exists l. split_and!; [done|done|]. intros x. rewrite Hin. split.
    + intros (j & w & Hj & H32 & Hw & Hb). apply lookup_take_Some in Hj as [Hj _]. rewrite lookup_drop in Hj.
      pose proof (repr_bits _ _ R x H32) as Hbit. unfold has in Hbit. rewrite Hw, Hj, Hb in Hbit.
      symmetry in Hbit. by apply bool_decide_eq_true in Hbit.
    + intros Hx. pose proof (repr_inside _ _ R x Hx) as Hr. pose proof (repr_u32 _ _ R x Hx) as H32.
      pose proof (repr_bits _ _ R x H32) as Hbit. unfold has in Hbit. rewrite bool_decide_eq_true_2 in Hbit by done.
      destruct (words s !! word_of x) as [w|] eqn:Hw; [|done].
      exists (word_of x - lo s)%nat, w. split_and!; [|done|lia|done].
      apply lookup_take_Some. rewrite lookup_drop. split; [by replace (lo s + (word_of x - lo s))%nat with (word_of x) by lia|lia].
Qed.

(** * The contract *)

(** C40: the bitmap implements a finite set of ids.  No operation panics on a bitmap that
    stands for a set; [insert] and [remove] change the set by one id and say whether it did;
    [contains] and [len] are membership and size; [iter] gives the ids in increasing order;
    [extend], [clear] and [shrink_if_empty] do what they say. *)
Theorem dense_id_set_refines s X id ids :
  repr s X → in_u32 id → Forall in_u32 ids →
  contains s id = bool_decide (id ∈ X) ∧ len s = size X ∧ is_empty s = bool_decide (X = ∅) ∧
  (∃ s', insert s id = Ok (s', bool_decide (id ∉ X)) ∧ repr s' ({[id]} ∪ X)) ∧
  (∃ s', remove s id = Ok (s', bool_decide (id ∈ X)) ∧ repr s' (X ∖ {[id]})) ∧
  (∃ s', extend s ids = Ok s' ∧ repr s' (X ∪ list_to_set ids)) ∧
  (∃ s', clear s = Ok s' ∧ repr s' ∅) ∧
  repr (shrink_if_empty s) X ∧
  (∃ l, iter s = Ok l ∧ StronglySorted Z.lt l ∧ ∀ x, x ∈ l ↔ x ∈ X).
Proof.
  intros R Hid Hids. rewrite contains_has, (repr_bits _ _ R) by done.
  split_and!; [done|apply R|by apply repr_len_zero|by apply insert_refines|by apply remove_refines
    |by apply extend_refines|by eapply clear_refines|by apply shrink_refines|by apply iter_refines].
Qed.

Lemma dense_id_set_refines_witness :
  ∃ s', insert default 70 = Ok (s', true) ∧ repr s' ({[70]} ∪ ∅).
Proof.
  exact (proj1 (proj2 (proj2 (proj2 (dense_id_set_refines default ∅ 70 [] default_repr
    ltac:(unfold in_u32, u32_max; lia) (Forall_nil_2 in_u32)))))).
Defined.
