(* ===== verification/Proj.v ===== *)
(** [engine/authority/proj.rs]: what a reference of a formula reads, as a function of the
    cell that holds the formula, with the exact image and inverse image of a rectangle of
    cells. *)
From S2P Require Import Prelude Geom GeomTheorems.
Local Open Scope Z_scope.

(** Last row and column of the grid, 0-based ([geom.rs]). *)
Definition MAX_ROW : Z := 1048575.
Definition MAX_COL : Z := 16383.

(** * One axis *)

Inductive Bound : Type := Rel (k : Z) | Abs (v : Z) | Open.
#[export] Instance Bound_eq_dec : EqDecision Bound.
Proof. solve_decision. Defined.

Record AxisMap : Type := { lo : Bound; hi : Bound }.
#[export] Instance AxisMap_eq_dec : EqDecision AxisMap.
Proof. solve_decision. Defined.

Inductive End : Type := Var (k : Z) | Const (v : Z).

(** [i64::MIN / 4] and [i64::MAX / 4]. *)
Definition NEG : Z := - 2 ^ 63 ÷ 4.
Definition POS : Z := (2 ^ 63 - 1) ÷ 4.

Definition point (b : Bound) : AxisMap := {| lo := b; hi := b |}.
Definition fixed (l h : Z) : AxisMap := {| lo := Abs l; hi := Abs h |}.

Definition ends (m : AxisMap) (max : Z) : End * End :=
  (match lo m with Rel k => Var k | Abs v => Const v | Open => Const 0 end,
   match hi m with Rel k => Var k | Abs v => Const v | Open => Const max end).

Definition end_at (x : Z) (e : End) : Z := match e with Var k => x + k | Const v => v end.

Definition window (m : AxisMap) (x max : Z) : Z * Z :=
  let '(l, h) := ends m max in (end_at x l, end_at x h).

Definition bound_open (b : Bound) : bool := match b with Open => true | _ => false end.
Definition bound_rel (b : Bound) : bool := match b with Rel _ => true | _ => false end.
Definition is_open (m : AxisMap) : bool := bound_open (lo m) || bound_open (hi m).
Definition is_fixed (m : AxisMap) : bool := negb (bound_rel (lo m)) && negb (bound_rel (hi m)).

Definition invert (m : AxisMap) (d0 d1 q0 q1 max : Z) : option (Z * Z) :=
  '(a, b) ← match ends m max with
             | (Const a, Const b) => if (a <=? q1) && (q0 <=? b) then Some (NEG, POS) else None
             | (Var a, Const b) => if b <? q0 then None else Some (NEG, q1 - a)
             | (Const a, Var b) => if q1 <? a then None else Some (q0 - b, POS)
             | (Var a, Var b) => Some (q0 - b, q1 - a)
             end;
  let l := Z.max a d0 in
  let h := Z.min b d1 in
  if l <=? h then Some (as_u32 l, as_u32 h) else None.

Definition forward (m : AxisMap) (x0 x1 max : Z) : option (Z * Z) :=
  let l := Z.max (window m x0 max).1 0 in
  let h := Z.min (window m x1 max).2 max in
  if l <=? h then Some (as_u32 l, as_u32 h) else None.

(** * A reference *)

Record RefProj : Type := { sheet : Z; rows : AxisMap; cols : AxisMap }.
#[export] Instance RefProj_eq_dec : EqDecision RefProj.
Proof. solve_decision. Defined.

Definition instantiate (p : RefProj) (row col : Z) : option Rect :=
  let '(r0, r1) := window (rows p) row MAX_ROW in
  let '(c0, c1) := window (cols p) col MAX_COL in
  if (0 <=? r0) && (0 <=? c0) && (r0 <=? r1) && (c0 <=? c1) && (r1 <=? MAX_ROW) && (c1 <=? MAX_COL)
  then Some (rect_new (as_u32 r0) (as_u32 c0) (as_u32 r1) (as_u32 c1)) else None.

Definition proj_invert (p : RefProj) (dep q : Rect) : option Rect :=
  '(a, b) ← invert (rows p) (r0 dep) (r1 dep) (r0 q) (r1 q) MAX_ROW;
  '(c, d) ← invert (cols p) (c0 dep) (c1 dep) (c0 q) (c1 q) MAX_COL;
  Some (rect_new a c b d).

Definition proj_forward (p : RefProj) (dep : Rect) : option Rect :=
  '(a, b) ← forward (rows p) (r0 dep) (r1 dep) MAX_ROW;
  '(c, d) ← forward (cols p) (c0 dep) (c1 dep) MAX_COL;
  Some (rect_new a c b d).

(** [=SUM(A1:A2)] filled down column B from row 3: the cells that read A4, and what the
    column reads. *)
Example running_sum :
  let p := {| sheet := 0; rows := {| lo := Rel (-2); hi := Rel (-1) |}; cols := point (Rel (-1)) |} in
  let dep := rect_new 2 1 9 1 in
  (instantiate p 2 1, proj_invert p dep (rect_new 3 0 3 0), proj_forward p dep) =
    (Some (rect_new 0 0 1 0), Some (rect_new 4 1 5 1), Some (rect_new 0 0 8 0)).
Proof. reflexivity. Qed.

(** * Exactness *)

(** The constants of a bound are in the range of their type. *)
Definition bound_ok (b : Bound) : Prop :=
  match b with Rel k => in_i32 k | Abs v => in_u32 v | Open => True end.
Definition axis_ok (m : AxisMap) : Prop := bound_ok (lo m) ∧ bound_ok (hi m).
Definition proj_ok (p : RefProj) : Prop := axis_ok (rows p) ∧ axis_ok (cols p).

(** [window] gives an interval of the axis at every coordinate of the domain. *)
Definition axis_valid (m : AxisMap) (d0 d1 max : Z) : Prop :=
  ∀ x, d0 ≤ x ≤ d1 → 0 ≤ (window m x max).1 ≤ (window m x max).2 ∧ (window m x max).2 ≤ max.

Lemma invert_exact m d0 d1 q0 q1 max : axis_ok m → 0 ≤ d0 ≤ d1 → d1 ≤ u32_max →
  in_u32 q0 → in_u32 q1 →
  match invert m d0 d1 q0 q1 max with
  | Some (a, b) => d0 ≤ a ≤ b ∧ b ≤ d1 ∧
      ∀ x, a ≤ x ≤ b ↔ d0 ≤ x ≤ d1 ∧ (window m x max).1 ≤ q1 ∧ q0 ≤ (window m x max).2
  | None => ∀ x, d0 ≤ x ≤ d1 → (window m x max).1 ≤ q1 → q0 ≤ (window m x max).2 → False
  end.
Proof.
  intros [Hl Hh] Hd Hd1 Hq0 Hq1. unfold invert, window, ends.
  change NEG with (- 2 ^ 61). change POS with (2 ^ 61 - 1).
  assert (Hcast : ∀ x, d0 ≤ x ≤ d1 → as_u32 x = x) by (intros; apply as_u32_small; unfold in_u32; lia).
  unfold in_u32, in_i32, u32_max in *.
  destruct (lo m) as [k|v|], (hi m) as [k'|v'|]; simpl in *; unfold in_u32, in_i32, u32_max in *;
    repeat (case_match; simplify_eq/=); bool_prop in *; rewrite ?Z.ltb_ge, ?Z.leb_gt in *;
    rewrite ?Hcast by lia; try (intros; lia); (split; [lia|split; [lia|]]; intros; lia).
Qed.

Lemma forward_exact m x0 x1 max : axis_ok m → 0 ≤ x0 ≤ x1 → x1 ≤ u32_max → in_u32 max →
  (∀ x, x0 ≤ x ≤ x1 → (window m x max).1 ≤ (window m x max).2) →
  match forward m x0 x1 max with
  | Some (a, b) => ∀ y, a ≤ y ≤ b ↔
      0 ≤ y ≤ max ∧ ∃ x, x0 ≤ x ≤ x1 ∧ (window m x max).1 ≤ y ≤ (window m x max).2
  | None => ∀ x y, x0 ≤ x ≤ x1 → (window m x max).1 ≤ y ≤ (window m x max).2 → 0 ≤ y ≤ max → False
  end.
Proof.
  intros [Hl Hh] Hx Hx1 Hmax Hv. unfold forward.
  assert (Hmono : ∀ x, x0 ≤ x ≤ x1 → (window m x0 max).1 ≤ (window m x max).1 ∧
    (window m x max).2 ≤ (window m x1 max).2).
  { intros x ?. unfold window, ends. destruct (lo m), (hi m); simpl; lia. }
  destruct (Z.leb_spec (Z.max (window m x0 max).1 0) (Z.min (window m x1 max).2 max)) as [E|E];
    [|intros x y Hxx ? ?; specialize (Hmono x Hxx); lia].
  assert (Hcast : ∀ y, 0 ≤ y ≤ max → as_u32 y = y) by (intros; apply as_u32_small; unfold in_u32 in *; lia).
  rewrite !Hcast by lia. intros y. split.
  - intros Hy. split; [lia|].
    destruct (Z.le_gt_cases y (window m x0 max).2); [exists x0; lia|].
    destruct (Z.le_gt_cases (window m x1 max).1 y); [exists x1; lia|].
    destruct (lo m) as [k|v|] eqn:El; unfold window, ends in *; rewrite El in *; simpl in *; try lia.
    exists (y - k). split; [lia|]. specialize (Hv (y - k) ltac:(lia)). lia.
  - intros (Hy & x & Hxx & ?). specialize (Hmono x Hxx). lia.
Qed.

(** ** References *)

Lemma instantiate_valid p dep : rect_ok dep →
  (∀ r c, in_rect dep r c → is_Some (instantiate p r c)) →
  axis_valid (rows p) (r0 dep) (r1 dep) MAX_ROW ∧ axis_valid (cols p) (c0 dep) (c1 dep) MAX_COL.
Proof.
  unfold rect_ok. intros Hd Hall. split.
  - intros x Hx. destruct (Hall x (c0 dep)) as [i Hi]; [apply in_rect_spec; lia|].
    unfold instantiate in Hi. destruct (window (rows p) x MAX_ROW), (window (cols p) (c0 dep) MAX_COL).
    case_match eqn:E; [|done]. bool_prop in E. simpl. lia.
  - intros x Hx. destruct (Hall (r0 dep) x) as [i Hi]; [apply in_rect_spec; lia|].
    unfold instantiate in Hi. destruct (window (rows p) (r0 dep) MAX_ROW), (window (cols p) x MAX_COL).
    case_match eqn:E; [|done]. bool_prop in E. simpl. lia.
Qed.

Lemma instantiate_window p r c i : instantiate p r c = Some i → ∀ y z, in_rect i y z ↔
  (window (rows p) r MAX_ROW).1 ≤ y ≤ (window (rows p) r MAX_ROW).2 ∧
  (window (cols p) c MAX_COL).1 ≤ z ≤ (window (cols p) c MAX_COL).2.
Proof.
  unfold instantiate. destruct (window (rows p) r MAX_ROW) as [a b], (window (cols p) c MAX_COL) as [a' b'].
  case_match eqn:E; [|done]. bool_prop in E. intros [= <-] y z. rewrite in_rect_spec. simpl.
  unfold MAX_ROW, MAX_COL in *. rewrite !as_u32_small by (unfold in_u32, u32_max; lia). done.
Qed.

Lemma forward_defined m d0 d1 max : d0 ≤ d1 → axis_valid m d0 d1 max → is_Some (forward m d0 d1 max).
Proof.
  intros Hdd Hv. pose proof (Hv d0 ltac:(lia)). pose proof (Hv d1 ltac:(lia)). unfold forward. cbv zeta.
  destruct (Z.leb_spec (Z.max (window m d0 max).1 0) (Z.min (window m d1 max).2 max)); [by eexists|].
  unfold window, ends in *. destruct m as [[] []]; simpl in *; lia.
Qed.

Section images.
Context (p : RefProj) (dep q : Rect).
Hypothesis Hp : proj_ok p.
Hypothesis Hd : rect_ok dep.
Hypothesis Hq : rect_ok q.
Hypothesis Hall : ∀ r c, in_rect dep r c → is_Some (instantiate p r c).

(** A reference meets the query when its windows do. *)
Lemma instantiate_meets r c i : in_rect dep r c → instantiate p r c = Some i →
  (∃ y z, in_rect i y z ∧ in_rect q y z) ↔
  (window (rows p) r MAX_ROW).1 ≤ r1 q ∧ r0 q ≤ (window (rows p) r MAX_ROW).2 ∧
  (window (cols p) c MAX_COL).1 ≤ c1 q ∧ c0 q ≤ (window (cols p) c MAX_COL).2.
Proof using Hd Hq Hall.
  destruct (instantiate_valid p dep Hd Hall) as [Hvr Hvc]. unfold rect_ok in *.
  intros Hrc Hi. apply in_rect_spec in Hrc. specialize (Hvr r ltac:(lia)). specialize (Hvc c ltac:(lia)).
  setoid_rewrite (instantiate_window p r c i Hi). setoid_rewrite in_rect_spec. split; [intros (y & z & ?); lia|].
  intros ?. exists (Z.max (window (rows p) r MAX_ROW).1 (r0 q)), (Z.max (window (cols p) c MAX_COL).1 (c0 q)). lia.
Qed.

Lemma invert_rect :
  match proj_invert p dep q with
  | Some d => rect_ok d ∧ ∀ r c, in_rect d r c ↔
      in_rect dep r c ∧ ∃ i, instantiate p r c = Some i ∧ ∃ y z, in_rect i y z ∧ in_rect q y z
  | None => ∀ r c i y z, in_rect dep r c → instantiate p r c = Some i → in_rect i y z → in_rect q y z → False
  end.
Proof using Hp Hd Hq Hall.
  pose proof instantiate_meets as Hmeet. destruct Hp as [Hrok Hcok]. unfold rect_ok in Hd, Hq.
  pose proof (invert_exact (rows p) (r0 dep) (r1 dep) (r0 q) (r1 q) MAX_ROW Hrok) as Hir.
  pose proof (invert_exact (cols p) (c0 dep) (c1 dep) (c0 q) (c1 q) MAX_COL Hcok) as Hic.
  unfold in_u32 in *. specialize (Hir ltac:(lia) ltac:(lia) ltac:(lia) ltac:(lia)).
  specialize (Hic ltac:(lia) ltac:(lia) ltac:(lia) ltac:(lia)).
  unfold proj_invert. destruct (invert (rows p) _ _ _ _ _) as [[a b]|]; cbn [mbind option_bind].
  2:{ intros r c i y z Hrc Hi Hy Hz. apply in_rect_spec in Hrc as Hr.
      destruct (proj1 (Hmeet r c i Hrc Hi)) as (? & ? & ? & ?); [by exists y, z|]. by apply (Hir r); [lia|..]. }
  destruct (invert (cols p) _ _ _ _ _) as [[a' b']|]; cbn [mbind option_bind].
  2:{ intros r c i y z Hrc Hi Hy Hz. apply in_rect_spec in Hrc as Hr.
      destruct (proj1 (Hmeet r c i Hrc Hi)) as (? & ? & ? & ?); [by exists y, z|]. by apply (Hic c); [lia|..]. }
  split; [unfold rect_ok; simpl; lia|]. intros r c. rewrite (in_rect_spec (rect_new _ _ _ _)). simpl.
  destruct Hir as (_ & _ & Hir), Hic as (_ & _ & Hic). rewrite Hir, Hic. split.
  - intros [(? & ? & ?) (? & ? & ?)]. assert (Hrc : in_rect dep r c) by (apply in_rect_spec; lia).
    split; [done|]. destruct (Hall r c Hrc) as [i Hi]. exists i. split; [done|]. by apply (Hmeet r c i Hrc Hi).
  - intros (Hrc & i & Hi & Hm). apply (Hmeet r c i Hrc Hi) in Hm. apply in_rect_spec in Hrc. lia.
Qed.

Lemma forward_rect :
  ∃ f, proj_forward p dep = Some f ∧ ∀ y z, in_rect f y z ↔
    ∃ r c i, in_rect dep r c ∧ instantiate p r c = Some i ∧ in_rect i y z.
Proof using Hp Hd Hall.
  destruct (instantiate_valid p dep Hd Hall) as [Hvr Hvc]. destruct Hp as [Hrok Hcok]. unfold rect_ok in Hd.
  pose proof (forward_exact (rows p) (r0 dep) (r1 dep) MAX_ROW Hrok) as Hfr.
  pose proof (forward_exact (cols p) (c0 dep) (c1 dep) MAX_COL Hcok) as Hfc.
  unfold in_u32 in *.
  specialize (Hfr ltac:(lia) ltac:(lia) ltac:(unfold MAX_ROW, u32_max; lia) ltac:(intros; by apply Hvr)).
  specialize (Hfc ltac:(lia) ltac:(lia) ltac:(unfold MAX_COL, u32_max; lia) ltac:(intros; by apply Hvc)).
  unfold proj_forward. destruct (forward_defined (rows p) (r0 dep) (r1 dep) MAX_ROW) as [[a b] Ea]; [lia|done|].
  destruct (forward_defined (cols p) (c0 dep) (c1 dep) MAX_COL) as [[a' b'] Ec]; [lia|done|].
  rewrite Ea in *. rewrite Ec in *. cbn [mbind option_bind]. eexists. split; [done|]. intros y z.
  rewrite (in_rect_spec (rect_new _ _ _ _)). simpl. rewrite Hfr, Hfc. split.
  - intros [(Hy & r & Hr & Hw) (Hz & c & Hc & Hw')]. assert (Hrc : in_rect dep r c) by (apply in_rect_spec; lia).
    destruct (Hall r c Hrc) as [i Hi]. exists r, c, i. split_and!; [done|done|]. by apply (instantiate_window p r c i Hi).
  - intros (r & c & i & Hrc & Hi & Hin). apply (instantiate_window p r c i Hi) in Hin as [Hy Hz].
    apply in_rect_spec in Hrc. specialize (Hvr r ltac:(lia)). specialize (Hvc c ltac:(lia)).
    split; (split; [lia|]); [exists r|exists c]; lia.
Qed.

End images.

(** C37: the images of a reference are exact.  Where a reference is inside the grid at every
    cell of a rectangle of formulas, [invert] gives exactly the formulas whose reference
    meets the queried rectangle, as one rectangle or nothing, and [forward] gives exactly
    the cells that some formula of the rectangle reads. *)
Theorem proj_images_exact p dep q :
  proj_ok p → rect_ok dep → rect_ok q →
  (∀ r c, in_rect dep r c → is_Some (instantiate p r c)) →
  (match proj_invert p dep q with
   | Some d => rect_ok d ∧ ∀ r c, in_rect d r c ↔
       in_rect dep r c ∧ ∃ i, instantiate p r c = Some i ∧ ∃ y z, in_rect i y z ∧ in_rect q y z
   | None => ∀ r c i y z, in_rect dep r c → instantiate p r c = Some i → in_rect i y z → in_rect q y z → False
   end) ∧
  (∃ f, proj_forward p dep = Some f ∧ ∀ y z, in_rect f y z ↔
     ∃ r c i, in_rect dep r c ∧ instantiate p r c = Some i ∧ in_rect i y z).
Proof. intros Hp Hd Hq Hall. split; [by apply invert_rect|by apply forward_rect]. Qed.

(** The running sum above. *)
Definition sample_proj : RefProj :=
  {| sheet := 0; rows := {| lo := Rel (-2); hi := Rel (-1) |}; cols := point (Rel (-1)) |}.

Lemma sample_instantiates r c : in_rect (rect_new 2 1 9 1) r c → is_Some (instantiate sample_proj r c).
Proof.
  rewrite in_rect_spec. simpl. intros ?. unfold instantiate, sample_proj, window. simpl.
  unfold MAX_ROW, MAX_COL. by repeat match goal with
  | |- context [?a <=? ?b] => rewrite (proj2 (Z.leb_le a b)) by lia
  end.
Qed.

Lemma proj_images_exact_witness :
  ∃ f, proj_forward sample_proj (rect_new 2 1 9 1) = Some f ∧ in_rect f 8 0.
Proof.
  destruct (proj_images_exact sample_proj (rect_new 2 1 9 1) (rect_new 3 0 3 0)) as (_ & f & Hf & Hc).
  - repeat split; simpl; unfold in_i32; lia.
  - unfold rect_ok, u32_max; simpl; lia.
  - unfold rect_ok, u32_max; simpl; lia.
  - exact sample_instantiates.
  - exists f. split; [exact Hf|]. apply Hc. exists 9, 1, (rect_new 7 0 8 0). split_and!; reflexivity.
Defined.
