(* ===== verification/IdJournal.v ===== *)
(** [engine/authority/history.rs]: the vertices removed per cell, so that undo and redo
    revive the vertex of the step they replay. *)
From S2P Require Import Prelude.

(** [Cell]: sheet, row and column; [Vid]. *)
Abbreviation Cell := (Z * Z * Z)%type (only parsing).
Abbreviation Vid := Z (only parsing).

Inductive Replay : Type := Forward | Undo | Redo.
#[export] Instance Replay_eq_dec : EqDecision Replay.
Proof. solve_decision. Defined.

(** [past] and [future] are stacks with their top last. *)
Record IdHistory : Type := { past : list Vid; future : list Vid }.
#[export] Instance IdHistory_eq_dec : EqDecision IdHistory.
Proof. solve_decision. Defined.

Definition no_history : IdHistory := {| past := []; future := [] |}.

Record IdJournal : Type := { mode : Replay; hist : gmap Cell IdHistory }.

Definition new : IdJournal := {| mode := Forward; hist := ∅ |}.

Definition set_mode (m : Replay) (j : IdJournal) : IdJournal := {| mode := m; hist := hist j |}.

Definition retired (cell : Cell) (id : Vid) (j : IdJournal) : IdJournal :=
  let h := default no_history (hist j !! cell) in
  let h := match mode j with
           | Forward | Redo => {| past := past h ++ [id]; future := future h |}
           | Undo => {| past := past h; future := future h ++ [id] |}
           end in
  {| mode := mode j; hist := <[cell := h]> (hist j) |}.

(** [Vec::pop]. *)
Definition pop (l : list Vid) : option Vid * list Vid := (last l, take (length l - 1) l).

(** The entry is dropped when both its stacks are empty. *)
Definition put (cell : Cell) (h : IdHistory) (j : IdJournal) : IdJournal :=
  {| mode := mode j;
     hist := if decide (h = no_history) then delete cell (hist j) else <[cell := h]> (hist j) |}.

Definition created (cell : Cell) (j : IdJournal) : IdJournal * option Vid :=
  if decide (hist j = ∅) then (j, None)
  else match hist j !! cell with
       | None => (j, None)
       | Some h =>
           let '(id, h) := match mode j with
                           | Forward => (None, {| past := past h; future := [] |})
                           | Undo => let '(id, p) := pop (past h) in (id, {| past := p; future := future h |})
                           | Redo => let '(id, f) := pop (future h) in (id, {| past := past h; future := f |})
                           end in
           (put cell h j, id)
       end.

Definition forget (cell : Cell) (id : Vid) (j : IdJournal) : IdJournal :=
  match hist j !! cell with
  | None => j
  | Some h =>
      let h := match mode j with
               | Undo => if decide (last (past h) = Some id)
                         then {| past := (pop (past h)).2; future := future h |} else h
               | Forward | Redo => if decide (last (future h) = Some id)
                                   then {| past := past h; future := (pop (future h)).2 |} else h
               end in
      put cell h j
  end.

Definition pending (j : IdJournal) : nat :=
  map_fold (λ _ h n, length (past h) + length (future h) + n) 0 (hist j).

(** * Facts *)

Definition history (j : IdJournal) (cell : Cell) : IdHistory := default no_history (hist j !! cell).

Lemma history_put cell h j c : history (put cell h j) c = if decide (c = cell) then h else history j c.
Proof.
  unfold history, put. simpl. destruct (decide (h = no_history)) as [->|], (decide (c = cell)) as [->|].
  - by rewrite lookup_delete_eq.
  - by rewrite lookup_delete_ne.
  - by rewrite lookup_insert_eq.
  - by rewrite lookup_insert_ne.
Qed.

Lemma pop_snoc l x : pop (l ++ [x]) = (Some x, l).
Proof.
  unfold pop. rewrite last_snoc, length_app, take_app_le by (simpl; lia). f_equal. apply take_ge. simpl. lia.
Qed.

(** [created] reads a missing entry as an empty one. *)
Lemma created_spec cell j : ∃ j' id, created cell j = (j', id) ∧ mode j' = mode j ∧
  (∀ c, c ≠ cell → history j' c = history j c) ∧
  match mode j with
  | Forward => id = None ∧ history j' cell = {| past := past (history j cell); future := [] |}
  | Undo => (id, past (history j' cell)) = pop (past (history j cell)) ∧ future (history j' cell) = future (history j cell)
  | Redo => (id, future (history j' cell)) = pop (future (history j cell)) ∧ past (history j' cell) = past (history j cell)
  end.
Proof.
  unfold created. destruct (decide (hist j = ∅)) as [E|_].
  { exists j, None. split_and!; [done..|]. unfold history. rewrite E, lookup_empty. by destruct (mode j). }
  destruct (hist j !! cell) as [h|] eqn:E.
  2:{ exists j, None. split_and!; [done..|]. unfold history. rewrite E. by destruct (mode j). }
  assert (Hh : history j cell = h) by (unfold history; by rewrite E).
  destruct (mode j) eqn:Em; [|destruct (pop (past h)) as [id p] eqn:Ep|destruct (pop (future h)) as [id p] eqn:Ep];
    eexists _, _; (split; [done|]); simpl; rewrite ?Hh;
    (split; [done|]); (split; [intros c Hc; by rewrite history_put, decide_False|]);
    rewrite history_put, decide_True by done; simpl; by rewrite ?Ep.
Qed.

Lemma retired_spec cell id j :
  mode (retired cell id j) = mode j ∧
  (∀ c, c ≠ cell → history (retired cell id j) c = history j c) ∧
  history (retired cell id j) cell =
    match mode j with
    | Undo => {| past := past (history j cell); future := future (history j cell) ++ [id] |}
    | _ => {| past := past (history j cell) ++ [id]; future := future (history j cell) |}
    end.
Proof.
  split_and!; [done| |].
  - intros c Hc. unfold history. simpl. by rewrite lookup_insert_ne.
  - unfold history. simpl. rewrite lookup_insert_eq. by destruct (mode j).
Qed.

(** A vertex that is revived by other means is dropped as [created] would. *)
Lemma forget_created cell j j' id : mode j ≠ Forward → created cell j = (j', Some id) → forget cell id j = j'.
Proof.
  unfold created, forget. intros Hm. destruct (decide _); [done|]. destruct (hist j !! cell) as [h|]; [|done].
  destruct (mode j); [done| |]; unfold pop; intros [= <- Hl]; by rewrite Hl, decide_True.
Qed.

(** * Replay *)

(** One step of the history at a cell: the vertex it holds goes away, if any, and the one
    it is to hold is created, if any. *)
Definition replay_step (m : Replay) (cell : Cell) (old new : option Vid) (j : IdJournal)
  : IdJournal * option Vid :=
  let j := set_mode m j in
  let j := match old with Some id => retired cell id j | None => j end in
  match new with Some _ => created cell j | None => (j, None) end.

(** [on_timeline j cell tl i]: the journal knows the vertices that the cell held before and
    after the [i]-th state of the timeline [tl]; below them there may be ids that no
    replay reaches. *)
Definition on_timeline (j : IdJournal) (cell : Cell) (tl : list (option Vid)) (i : nat) : Prop :=
  suffix (omap id (take i tl)) (past (history j cell)) ∧
  suffix (reverse (omap id (drop (S i) tl))) (future (history j cell)).

Lemma history_set_mode m j c : history (set_mode m j) c = history j c.
Proof. done. Qed.

(** What the journal remembers of a state. *)
Lemma omap_snoc (l : list (option Vid)) s : omap id (l ++ [s]) = omap id l ++ option_list s.
Proof. rewrite omap_app. by destruct s. Qed.

Lemma reverse_omap_cons (l : list (option Vid)) s :
  reverse (omap id (s :: l)) = reverse (omap id l) ++ option_list s.
Proof. destruct s; csimpl; [by rewrite reverse_cons|by rewrite app_nil_r]. Qed.

Lemma suffix_snoc_option {A} (l k : list A) (o : option A) : suffix l k → suffix (l ++ option_list o) (k ++ option_list o).
Proof. intros [k' ->]. exists k'. by rewrite app_assoc. Qed.

(** The vertex that goes away. *)
Lemma retire_step m cell old j : let j' := match old with Some id => retired cell id (set_mode m j) | None => set_mode m j end in
  mode j' = m ∧ (∀ c, c ≠ cell → history j' c = history j c) ∧
  history j' cell = match m with
    | Undo => {| past := past (history j cell); future := future (history j cell) ++ option_list old |}
    | _ => {| past := past (history j cell) ++ option_list old; future := future (history j cell) |}
    end.
Proof.
  destruct old as [v|]; simpl.
  - pose proof (retired_spec cell v (set_mode m j)) as (H1 & H2 & H3). simpl in *. split_and!; [done|done|].
    rewrite H3. by destruct m.
  - split_and!; [done|done|]. rewrite history_set_mode, !app_nil_r. by destruct m, (history j cell).
Qed.

Lemma pop_suffix l k (x : Vid) id p : suffix (l ++ [x]) k → (id, p) = pop k → id = Some x ∧ suffix l p.
Proof. intros [k' ->]. rewrite app_assoc, pop_snoc. intros [= -> ->]. split; [done|by exists k']. Qed.

Section timeline.
Context (j : IdJournal) (cell : Cell) (tl : list (option Vid)) (i : nat) (s : option Vid).
Hypothesis Hs : tl !! i = Some s.
Hypothesis Htl : on_timeline j cell tl i.

Lemma forward_step new : ∃ j', replay_step Forward cell s new j = (j', None) ∧
  on_timeline j' cell (take (S i) tl ++ [new]) (S i) ∧ ∀ c, c ≠ cell → history j' c = history j c.
Proof using Hs Htl.
  destruct Htl as [Hp _]. pose proof (lookup_lt_Some _ _ _ Hs) as Hi.
  pose proof (retire_step Forward cell s j) as (Hm & Ho & Hc). unfold replay_step.
  set (j1 := match s with Some id => _ | None => _ end) in *.
  assert (Hpast : suffix (omap id (take (S i) tl)) (past (history j1 cell))).
  { rewrite Hc. simpl. erewrite take_S_r by done. rewrite omap_snoc. by apply suffix_snoc_option. }
  assert (Hon : ∀ j', past (history j' cell) = past (history j1 cell) → on_timeline j' cell (take (S i) tl ++ [new]) (S i)).
  { intros j' E. split; [by rewrite take_app_le, take_take, Nat.min_id, E by (rewrite length_take; lia)|].
    rewrite drop_ge by (rewrite length_app, length_take; cbn [length]; lia). eexists. by rewrite app_nil_r. }
  destruct new as [w|]; [|exists j1; split_and!; [done|by apply Hon|done]].
  destruct (created_spec cell j1) as (j' & r & -> & _ & Ho' & Hcr). rewrite Hm in Hcr. destruct Hcr as [-> Hcr].
  exists j'. split_and!; [done|by apply Hon; rewrite Hcr|]. intros c Hcc. by rewrite Ho', Ho.
Qed.

Lemma undo_step k s' : i = S k → tl !! k = Some s' → ∃ j', replay_step Undo cell s s' j = (j', s') ∧
  on_timeline j' cell tl k ∧ ∀ c, c ≠ cell → history j' c = history j c.
Proof using Hs Htl.
  intros -> Hs'. destruct Htl as [Hp Hf]. pose proof (retire_step Undo cell s j) as (Hm & Ho & Hc). unfold replay_step.
  set (j1 := match s with Some id => _ | None => _ end) in *.
  erewrite take_S_r in Hp by done. rewrite omap_snoc in Hp.
  assert (Hfut : suffix (reverse (omap id (drop (S k) tl))) (future (history j1 cell))).
  { rewrite Hc. rewrite (drop_S _ _ _ Hs), reverse_omap_cons. by apply suffix_snoc_option. }
  destruct s' as [w|]; simpl in Hp.
  - destruct (created_spec cell j1) as (j' & r & -> & _ & Ho' & Hcr). rewrite Hm in Hcr. destruct Hcr as [Hpop Hfu].
    rewrite Hc in Hpop. simpl in Hpop. apply (pop_suffix _ _ _ _ _ Hp) in Hpop as [-> Hp'].
    exists j'. split_and!; [done|split; [done|by rewrite Hfu]|]. intros c Hcc. by rewrite Ho', Ho.
  - exists j1. rewrite app_nil_r in Hp. split_and!; [done|split; [by rewrite Hc|done]|done].
Qed.

Lemma redo_step s' : tl !! S i = Some s' → ∃ j', replay_step Redo cell s s' j = (j', s') ∧
  on_timeline j' cell tl (S i) ∧ ∀ c, c ≠ cell → history j' c = history j c.
Proof using Hs Htl.
  intros Hs'. destruct Htl as [Hp Hf]. pose proof (retire_step Redo cell s j) as (Hm & Ho & Hc). unfold replay_step.
  set (j1 := match s with Some id => _ | None => _ end) in *.
  rewrite (drop_S _ _ _ Hs'), reverse_omap_cons in Hf.
  assert (Hpast : suffix (omap id (take (S i) tl)) (past (history j1 cell))).
  { rewrite Hc. simpl. erewrite take_S_r by done. rewrite omap_snoc. by apply suffix_snoc_option. }
  destruct s' as [w|]; cbn [option_list] in Hf; rewrite ?app_nil_r in Hf.
  - destruct (created_spec cell j1) as (j' & r & -> & _ & Ho' & Hcr). rewrite Hm in Hcr. destruct Hcr as [Hpop Hpa].
    rewrite Hc in Hpop. simpl in Hpop. apply (pop_suffix _ _ _ _ _ Hf) in Hpop as [-> Hf'].
    exists j'. split_and!; [done|split; [by rewrite Hpa|done]|]. intros c Hcc. by rewrite Ho', Ho.
  - exists j1. split_and!; [done|split; [done|by rewrite Hc]|done].
Qed.

End timeline.

(** Undo and redo revive the vertex of the step they replay.  When the journal of a cell is
    on a timeline of what the cell held, a forward step creates a new vertex and cuts the
    timeline behind it; an undo gives back exactly the vertex of the state before, a redo
    that of the state after, for any interleaving of steps; other cells keep their
    history. *)
Lemma journal_replays j cell tl i s : tl !! i = Some s → on_timeline j cell tl i →
  (∀ new, ∃ j', replay_step Forward cell s new j = (j', None) ∧
     on_timeline j' cell (take (S i) tl ++ [new]) (S i) ∧ ∀ c, c ≠ cell → history j' c = history j c) ∧
  (∀ k s', i = S k → tl !! k = Some s' → ∃ j', replay_step Undo cell s s' j = (j', s') ∧
     on_timeline j' cell tl k ∧ ∀ c, c ≠ cell → history j' c = history j c) ∧
  (∀ s', tl !! S i = Some s' → ∃ j', replay_step Redo cell s s' j = (j', s') ∧
     on_timeline j' cell tl (S i) ∧ ∀ c, c ≠ cell → history j' c = history j c).
Proof.
  intros Hs Htl. split_and!; [by apply forward_step|by intros; eapply undo_step|by apply redo_step].
Qed.

(** Vertex 1 is replaced by 2, which goes away; then everything is undone. *)
Definition sample_journal : IdJournal :=
  let step m old new j := (replay_step m (0, 4, 2)%Z old new j).1 in
  step Undo None (Some 2%Z) (step Forward (Some 2%Z) None (step Forward (Some 1%Z) (Some 2%Z) IdJournal.new)).

Lemma journal_replays_witness :
  ∃ j', replay_step Undo (0, 4, 2)%Z (Some 2%Z) (Some 1%Z) sample_journal = (j', Some 1%Z).
Proof.
  destruct (journal_replays sample_journal (0, 4, 2)%Z [Some 1; Some 2; None]%Z 1 (Some 2%Z)) as (_ & Hu & _).
  - reflexivity.
  - split; vm_compute; by exists [].
  - destruct (Hu 0 (Some 1%Z) eq_refl eq_refl) as (j' & H & _). exists j'. exact H.
Defined.
