(* ===== verification/PlanControl.v ===== *)
(** The planner's control and its counted scratch memory
    ([engine/authority/plan_control.rs], the errors of [store.rs] and [identity.rs], and the
    helper functions that each planning stage has). *)
From S2P Require Import Prelude.
Local Open Scope Z_scope.

(** * Errors *)

Inductive IdError : Type :=
| Exhausted (requested next limit : Z)
| Conflict (message : bytes).

Inductive AuthorityError : Type :=
| Admission (resource : bytes) (needed limit : Z)
| Identity (e : IdError)
| Alloc
| Unsupported (operation : bytes)
| Stale.

#[export] Instance IdError_eq_dec : EqDecision IdError.
Proof. solve_decision. Defined.
#[export] Instance AuthorityError_eq_dec : EqDecision AuthorityError.
Proof. solve_decision. Defined.

(** * Counted scratch memory

    A reservation may fail: [alloc k b] says whether the allocator serves the [k]-th
    reservation of a call, of [b] bytes. *)

Definition bytes_of (size : Z) (n : Z) : result AuthorityError Z :=
  if n * size <=? u64_max then Ok (n * size) else Err Alloc.
Definition add (a b : Z) : result AuthorityError Z :=
  if a + b <=? u64_max then Ok (a + b) else Err Alloc.
Definition admit_scratch (needed : Z) (limit : option Z) : result AuthorityError unit :=
  match limit with
  | Some l => if l <? needed then Err (Admission (str "scratch") needed l) else Ok ()
  | None => Ok ()
  end.
Definition reserve (alloc : nat → Z → bool) (k : nat) (size n : Z) : result AuthorityError unit :=
  if alloc k (n * size) then Ok () else Err Alloc.

Definition remaining (limit : option Z) (held : Z) : result AuthorityError (option Z) :=
  match limit with
  | None => Ok None
  | Some l => if held <=? l then Ok (Some (l - held)) else Err (Admission (str "scratch") held l)
  end.

(** A rejection: the allocator, or a peak beyond the limit. *)
Definition rejected (limit : option Z) (needed : Z) (e : AuthorityError) : Prop :=
  e = Alloc ∨ ∃ l, limit = Some l ∧ (l < needed) ∧ e = Admission (str "scratch") needed l.

Lemma admit_rejects limit needed :
  admit_scratch needed limit = Ok () ∧ (∀ l, limit = Some l → (needed ≤ l)) ∨
  ∃ e, admit_scratch needed limit = Err e ∧ rejected limit needed e.
Proof.
  unfold admit_scratch. destruct limit as [l|]; [|by left].
  destruct (Z.ltb_spec l needed); [right|left; split; [done|]; by intros ? [= <-]].
  eexists. split; [done|]. right. by exists l.
Qed.

(** A rejection at some peak. *)
Definition refused (limit : option Z) (e : AuthorityError) : Prop := ∃ needed, rejected limit needed e.

Lemma refused_alloc limit : refused limit Alloc.
Proof. exists 0. by left. Qed.
#[export] Hint Resolve refused_alloc : formualizer.

(** Memory arithmetic that gives a value of [P] or is refused. *)
Definition yields {A} (limit : option Z) (r : result AuthorityError A) (P : A → Prop) : Prop :=
  match r with Ok a => P a | Err e => refused limit e | Panic => False end.

Lemma yields_bind {A B} limit (r : result AuthorityError A) (f : A → result AuthorityError B) P Q :
  yields limit r P → (∀ a, P a → yields limit (f a) Q) → yields limit (r ≫= f) Q.
Proof. destruct r as [a|e|]; intros Hr Hf; [by apply Hf|done|done]. Qed.

Lemma bytes_of_yields limit size n : yields limit (bytes_of size n) (λ x, x = n * size).
Proof. unfold bytes_of. destruct (_ <=? _); [done|apply refused_alloc]. Qed.
Lemma add_yields limit a b : yields limit (add a b) (λ x, x = a + b).
Proof. unfold add. destruct (_ <=? _); [done|apply refused_alloc]. Qed.
Lemma reserve_yields limit alloc k size n : yields limit (reserve alloc k size n) (λ _, True).
Proof. unfold reserve. destruct (alloc _ _); [done|apply refused_alloc]. Qed.
Lemma admit_yields limit needed : yields limit (admit_scratch needed limit) (λ _, ∀ l, limit = Some l → needed ≤ l).
Proof. destruct (admit_rejects limit needed) as [[-> Hl]|(e & -> & He)]; [done|by exists needed]. Qed.
#[export] Hint Resolve bytes_of_yields add_yields reserve_yields admit_yields : formualizer.

(** * [PlanControl]

    The callback is a function of its captured state [S] that may fail with an error [X] of
    the caller.  The counters do not reach [2 ^ 64]: each tick is an executed operation. *)

Section control.
Context {S X : Type} (checkpoint : S → Z → X + S).

Record PlanControl : Type := { total : Z; pending : Z; state : S }.

Definition flush (c : PlanControl) : result X PlanControl :=
  match checkpoint (state c) (pending c) with
  | inl x => Err x
  | inr s => Ok {| total := total c; pending := 0; state := s |}
  end.

Definition new (s : S) : result X PlanControl := flush {| total := 0; pending := 0; state := s |}.

Definition tick (c : PlanControl) : result X PlanControl :=
  let c := {| total := total c + 1; pending := pending c + 1; state := state c |} in
  if pending c =? 4096 then flush c else Ok c.

(** A batch takes at least one unit, [fuel] is the number of units. *)
Fixpoint charge_loop (fuel : nat) (units : Z) (c : PlanControl) : result X PlanControl :=
  if units =? 0 then Ok c
  else match fuel with
       | O => Panic
       | Datatypes.S fuel =>
           let batch := Z.min units (4096 - pending c) in
           let c := {| total := total c + batch; pending := pending c + batch; state := state c |} in
           c ← (if pending c =? 4096 then flush c else Ok c);
           charge_loop fuel (units - batch) c
       end.
Definition charge (units : Z) (c : PlanControl) : result X PlanControl :=
  charge_loop (Z.to_nat units) units c.

(** ** What the callback sees *)

(** Fewer than a batch of operations is unreported. *)
Definition control_ok (c : PlanControl) : Prop := 0 ≤ pending c < 4096.

(** An error of the caller, at a delta of at most a batch. *)
Definition raised (x : X) : Prop := ∃ s k, 0 ≤ k ≤ 4096 ∧ checkpoint s k = inl x.

(** A step of the control charges [n] units or fails as the callback does. *)
Definition charges (n : Z) (c : PlanControl) (r : result X PlanControl) : Prop :=
  match r with
  | Ok c' => control_ok c' ∧ total c' = total c + n
  | Err x => raised x
  | Panic => False
  end.

Lemma flush_charges c : 0 ≤ pending c ≤ 4096 → charges 0 c (flush c).
Proof.
  intros Hc. unfold flush, charges, control_ok. destruct (checkpoint _ _) as [x|s] eqn:E; [by exists (state c), (pending c)|].
  simpl. lia.
Qed.

Lemma tick_charges c : control_ok c → charges 1 c (tick c).
Proof.
  intros Hc. unfold control_ok in Hc. unfold tick. cbn [pending].
  destruct (Z.eqb_spec (pending c + 1) 4096) as [E|E]; [|split; [unfold control_ok; simpl; lia|done]].
  match goal with |- context [flush ?c'] => pose proof (flush_charges c') as H end.
  simpl in H. specialize (H ltac:(lia)). unfold charges in *. destruct (flush _); [|done..]. simpl in H. split; [apply H|lia].
Qed.

Lemma charge_loop_charges fuel : ∀ units c, control_ok c → 0 ≤ units ≤ Z.of_nat fuel →
  charges units c (charge_loop fuel units c).
Proof.
  induction fuel as [|fuel IH]; intros units c Hc Hu; cbn [charge_loop].
  - rewrite (proj2 (Z.eqb_eq units 0)) by lia. split; [done|lia].
  - destruct (Z.eqb_spec units 0) as [->|Hne]; [split; [done|lia]|]. unfold control_ok in Hc. cbv zeta.
    set (batch := Z.min units (4096 - pending c)).
    set (c1 := {| total := _; pending := pending c + batch; state := _ |}).
    assert (charges 0 c1 (if pending c1 =? 4096 then flush c1 else Ok c1)) as H1.
    { destruct (Z.eqb_spec (pending c1) 4096); [apply flush_charges|split; [unfold control_ok|]]; simpl in *; lia. }
    destruct (if _ =? _ then _ else _) as [c2|x|]; [|done..]. destruct H1 as [Hok Ht]. cbn [mbind result_bind].
    specialize (IH (units - batch) c2 Hok ltac:(lia)). unfold charges in *.
    destruct (charge_loop _ _ _); [|done..]. split; [apply IH|]. simpl in Ht. lia.
Qed.

Lemma charge_charges units c : control_ok c → 0 ≤ units → charges units c (charge units c).
Proof. intros Hc Hu. apply charge_loop_charges; [done|lia]. Qed.

End control.
Arguments PlanControl S : clear implicits.
