(* ===== verification/Counted.v ===== *)
(** Code of the planner that counts its work and can be cancelled: a monad over the work
    counters and [PlanControl], and the rules by which such code is proved.

    The stages differ in their counters ([Work]) and their errors ([From], the trait [From] of
    the source: an error of a step becomes an error of the stage). *)
From S2P Require Import Prelude PlanControl.

(** * Counters and errors *)

Class Work (W : Type) : Type := { no_work : W; add_work : W → W → W; work_total : W → Z }.

Arguments add_work : simpl never.
Arguments no_work : simpl never.
Arguments work_total : simpl never.

Class WorkLaws (W : Type) `{Work W} : Prop := {
  add_work_assoc (a b c : W) : add_work a (add_work b c) = add_work (add_work a b) c;
  add_work_comm (a b : W) : add_work a b = add_work b a;
  add_no_work (a : W) : add_work a no_work = a;
  work_total_add (a b : W) : work_total (add_work a b) = (work_total a + work_total b)%Z
}.

Lemma no_work_add `{WorkLaws W} (a : W) : add_work no_work a = a.
Proof. by rewrite add_work_comm, add_no_work. Qed.

Lemma total_no_work `{WorkLaws W} : work_total (no_work : W) = 0%Z.
Proof. pose proof (work_total_add no_work no_work) as H1. rewrite add_no_work in H1. lia. Qed.

Class From (X E : Type) : Type := from_error : X → E.

(** * Counted code *)

Section counted.
Context {S X : Type} (checkpoint : S → Z → X + S).
Context {Er W : Type} `{From X Er}.

Record Meter : Type := { work : W; control : PlanControl S }.

Definition counted (A : Type) : Type := Meter → result Er (Meter * A).
#[export] Instance counted_ret : MRet counted := λ A a mt, Ok (mt, a).
#[export] Instance counted_bind : MBind counted := λ A B f m mt, '(mt, a) ← m mt; f a mt.

(** [?] on a result that does not touch the counters. *)
Definition lift {A} (r : result Er A) : counted A := λ mt, a ← r; Ok (mt, a).
Definition tick_control : counted () := λ mt,
  c ← map_err from_error (tick checkpoint (control mt)); Ok ({| work := work mt; control := c |}, ()).
Definition charge_control (units : Z) : counted () := λ mt,
  c ← map_err from_error (charge checkpoint units (control mt)); Ok ({| work := work mt; control := c |}, ()).
Definition flush_control : counted () := λ mt,
  c ← map_err from_error (flush checkpoint (control mt)); Ok ({| work := work mt; control := c |}, ()).

Definition add_count (f : W → W) : counted () := λ mt, Ok ({| work := f (work mt); control := control mt |}, ()).
Definition get_work : counted W := λ mt, Ok (mt, work mt).

(** [work.field += 1; control.tick()?]. *)
Definition count (f : W → W) : counted () := λ mt,
  tick_control {| work := f (work mt); control := control mt |}.

(** [work.field += n; control.charge(n)?]. *)
Definition count_units (f : W → W) (units : Z) : counted () := λ mt,
  charge_control units {| work := f (work mt); control := control mt |}.

(** [for _ in 0..len { work.initialize += 1; control.tick()?; out.push(value) }]. *)
Fixpoint fill {A} (f : W → W) (out : list A) (len : nat) (value : A) : counted (list A) :=
  match len with
  | O => mret out
  | Datatypes.S len => _ ← count f; fill f (out ++ [value]) len value
  end.

End counted.
Arguments counted S Er W A : clear implicits.
Arguments Meter S W : clear implicits.

(** * Rules *)

Section rules.
Context {S X : Type} (checkpoint : S → Z → X + S).
Context {Er W : Type} `{From X Er} `{WorkLaws W}.
Abbreviation counted := (counted S Er W).

(** The errors of the callback are among [errs]. *)
Class Cancels (errs : Er → Prop) : Prop := cancels x : raised checkpoint x → errs (from_error x).

(** [runs errs m Q]: [m] does not panic; it ends in a result and a cost that satisfy [Q],
    with every counted operation charged to the control, or in an error of [errs]. *)
Definition runs {A} (errs : Er → Prop) (m : counted A) (Q : A → W → Prop) : Prop :=
  ∀ mt, control_ok (control mt) →
    match m mt with
    | Ok (mt', a) => control_ok (control mt') ∧
        (total (control mt') - total (control mt) = work_total (work mt') - work_total (work mt))%Z ∧
        ∃ w, work mt' = add_work (work mt) w ∧ Q a w
    | Err e => errs e
    | Panic => False
    end.

Lemma runs_ret {A} errs (a : A) (Q : A → W → Prop) : Q a no_work → runs errs (mret a) Q.
Proof. intros HQ mt Hm. simpl. split_and!; [done|lia|]. exists no_work. by rewrite add_no_work. Qed.

Lemma runs_bind {A B} errs (m : counted A) (f : A → counted B) Q1 Q2 :
  runs errs m Q1 → (∀ a w1, Q1 a w1 → runs errs (f a) (λ b w2, Q2 b (add_work w1 w2))) → runs errs (m ≫= f) Q2.
Proof.
  intros Hm Hf mt Hc. specialize (Hm mt Hc). unfold mbind, counted_bind.
  destruct (m mt) as [[mt1 a]|e|]; cbn [mbind result_bind]; [|done|done].
  destruct Hm as (Hc1 & Ht1 & w1 & Hw1 & Hq1). specialize (Hf a w1 Hq1 mt1 Hc1).
  destruct (f a mt1) as [[mt2 b]|e|]; [|done|done]. destruct Hf as (Hc2 & Ht2 & w2 & Hw2 & Hq2).
  split_and!; [done|lia|]. exists (add_work w1 w2). by rewrite Hw2, Hw1, add_work_assoc.
Qed.

Lemma runs_conseq {A} (errs1 errs2 : Er → Prop) (m : counted A) (Q1 Q2 : A → W → Prop) :
  runs errs1 m Q1 → (∀ e, errs1 e → errs2 e) → (∀ a w, Q1 a w → Q2 a w) → runs errs2 m Q2.
Proof.
  intros Hm Hb HQ mt Hc. specialize (Hm mt Hc). destruct (m mt) as [[mt1 a]|e|]; [|by apply Hb|done].
  destruct Hm as (? & ? & w & ? & ?). split_and!; [done|done|]. exists w. auto.
Qed.

Lemma runs_weaken {A} errs (m : counted A) (Q1 Q2 : A → W → Prop) :
  runs errs m Q1 → (∀ a w, Q1 a w → Q2 a w) → runs errs m Q2.
Proof. intros Hm HQ. by eapply runs_conseq. Qed.

Lemma runs_lift {A B} errs (r : result Er A) (f : A → counted B) a Q :
  r = Ok a → runs errs (f a) Q → runs errs (lift r ≫= f) Q.
Proof. intros -> Hf mt Hc. by apply Hf. Qed.

Lemma runs_lift_tail {A} errs (r : result Er A) (Q : A → W → Prop) a :
  r = Ok a → Q a no_work → runs errs (lift r) Q.
Proof. intros -> HQ. by apply runs_ret. Qed.

(** A step that may fail. *)
Lemma runs_lift_err {A B} (errs : Er → Prop) (r : result Er A) (f : A → counted B) Q :
  match r with Ok a => runs errs (f a) Q | Err e => errs e | Panic => False end → runs errs (lift r ≫= f) Q.
Proof. destruct r; intros Hr mt Hc; [by apply Hr|done|done]. Qed.

(** Memory arithmetic inside counted code. *)
Lemma runs_yields {A B} (errs : Er → Prop) limit (inj : AuthorityError → Er) (r : result AuthorityError A) (f : A → counted B) P Q :
  (∀ e, refused limit e → errs (inj e)) → yields limit r P → (∀ a, P a → runs errs (f a) Q) → runs errs (lift (map_err inj r) ≫= f) Q.
Proof. intros Hinj Hr Hf. apply runs_lift_err. destruct r as [a|e|]; cbn in *; [by apply Hf|by apply Hinj|done]. Qed.

Lemma runs_count {B} errs `{!Cancels errs} f c (k : () → counted B) Q :
  (∀ w, f w = add_work w c) → work_total c = 1%Z →
  runs errs (k ()) (λ b w, Q b (add_work c w)) → runs errs (count checkpoint f ≫= k) Q.
Proof.
  intros Hf Hc Hk. apply runs_bind with (λ _ w, w = c).
  - intros mt Hm. unfold count, tick_control. cbn [work control].
    pose proof (tick_charges checkpoint (control mt) Hm) as Ht. unfold charges in Ht.
    destruct (tick _ _) as [c'|x|]; cbn [map_err mbind result_bind]; [|by apply cancels|done].
    destruct Ht as [Hok Ht]. cbn [work control]. rewrite Hf, work_total_add. split_and!; [done|lia|]. by exists c.
  - by intros [] w1 ->.
Qed.

Lemma runs_units {B} errs `{!Cancels errs} f c n (k : () → counted B) Q :
  (∀ w, f w = add_work w c) → work_total c = n → (0 ≤ n)%Z →
  runs errs (k ()) (λ b w, Q b (add_work c w)) → runs errs (count_units checkpoint f n ≫= k) Q.
Proof.
  intros Hf Hc Hn Hk. apply runs_bind with (λ _ w, w = c).
  - intros mt Hm. unfold count_units, charge_control. cbn [work control].
    pose proof (charge_charges checkpoint n (control mt) Hm Hn) as Ht. unfold charges in Ht.
    destruct (charge _ _ _) as [c'|x|]; cbn [map_err mbind result_bind]; [|by apply cancels|done].
    destruct Ht as [Hok Ht]. cbn [work control]. rewrite Hf, work_total_add. split_and!; [done|lia|]. by exists c.
  - by intros [] w1 ->.
Qed.

Lemma runs_flush {A} errs `{!Cancels errs} (a : A) (Q : A → W → Prop) :
  Q a no_work → runs errs (_ ← flush_control checkpoint; mret a) Q.
Proof.
  intros HQ mt Hm. unfold mbind, counted_bind, flush_control.
  pose proof (flush_charges checkpoint (control mt)) as Hf. unfold charges, control_ok in *.
  destruct (flush _ _) as [c|x|]; cbn [map_err mbind result_bind]; [|apply cancels, Hf; lia|by destruct Hf; lia].
  destruct Hf as [Hok Ht]; [lia|]. simpl. split; [done|]. split; [lia|]. exists no_work. by rewrite add_no_work.
Qed.

Lemma runs_fill {A} errs `{!Cancels errs} f c len : (∀ w, f w = add_work w c) → work_total c = 1%Z → ∀ (out : list A) value,
  runs errs (fill checkpoint f out len value) (λ r w, r = out ++ replicate len value ∧ w = Nat.iter len (add_work c) no_work).
Proof.
  intros Hf Hc. induction len as [|len IH]; intros out value; cbn [fill].
  - apply runs_ret. by rewrite app_nil_r.
  - apply (runs_count _ _ c); [done|done|]. eapply runs_weaken; [apply IH|]. cbn beta. intros r w [-> ->].
    by rewrite <- app_assoc.
Qed.

(** ** Code that looks at its counters

    [runs_at errs w0 m Q]: the same from the counters [w0]. *)
Definition runs_at {A} (errs : Er → Prop) (w0 : W) (m : counted A) (Q : A → W → Prop) : Prop :=
  ∀ mt, control_ok (control mt) → work mt = w0 →
    match m mt with
    | Ok (mt', a) => control_ok (control mt') ∧
        (total (control mt') - total (control mt) = work_total (work mt') - work_total (work mt))%Z ∧
        ∃ w, work mt' = add_work (work mt) w ∧ Q a w
    | Err e => errs e
    | Panic => False
    end.

Lemma runs_at_runs {A} errs w0 (m : counted A) Q : runs errs m Q → runs_at errs w0 m Q.
Proof. intros Hm mt Hc _. exact (Hm mt Hc). Qed.

Lemma runs_of_at {A} errs (m : counted A) Q : (∀ w0, runs_at errs w0 m Q) → runs errs m Q.
Proof. intros Hm mt Hc. exact (Hm (work mt) mt Hc eq_refl). Qed.

Lemma runs_at_weaken {A} errs w0 (m : counted A) (Q1 Q2 : A → W → Prop) :
  runs_at errs w0 m Q1 → (∀ a w, Q1 a w → Q2 a w) → runs_at errs w0 m Q2.
Proof.
  intros Hm HQ mt Hc Hw. specialize (Hm mt Hc Hw). destruct (m mt) as [[mt1 a]|e|]; [|done..].
  destruct Hm as (? & ? & w & ? & ?). split_and!; [done|done|]. exists w. auto.
Qed.

Lemma runs_at_bind {A B} errs w0 (m : counted A) (f : A → counted B) Q1 Q2 :
  runs_at errs w0 m Q1 → (∀ a w1, Q1 a w1 → runs_at errs (add_work w0 w1) (f a) (λ b w2, Q2 b (add_work w1 w2))) →
  runs_at errs w0 (m ≫= f) Q2.
Proof.
  intros Hm Hf mt Hc Hw0. specialize (Hm mt Hc Hw0). unfold mbind, counted_bind.
  destruct (m mt) as [[mt1 a]|e|]; cbn [mbind result_bind]; [|done|done].
  destruct Hm as (Hc1 & Ht1 & w1 & Hw1 & Hq1). rewrite Hw0 in Hw1. specialize (Hf a w1 Hq1 mt1 Hc1 Hw1).
  destruct (f a mt1) as [[mt2 b]|e|]; [|done|done]. destruct Hf as (Hc2 & Ht2 & w2 & Hw2 & Hq2).
  split_and!; [done|lia|]. exists (add_work w1 w2). by rewrite Hw2, Hw1, Hw0, add_work_assoc.
Qed.

Lemma runs_at_get_work {A} errs w0 (f : W → counted A) Q : runs_at errs w0 (f w0) Q → runs_at errs w0 (get_work ≫= f) Q.
Proof. intros Hf mt Hc Hw. unfold mbind, counted_bind, get_work. cbn [mbind result_bind]. subst w0. exact (Hf mt Hc eq_refl). Qed.

Lemma runs_at_lift_err {A B} (errs : Er → Prop) w0 (r : result Er A) (f : A → counted B) Q :
  match r with Ok a => runs_at errs w0 (f a) Q | Err e => errs e | Panic => False end → runs_at errs w0 (lift r ≫= f) Q.
Proof. destruct r; intros Hr mt Hc Hw; [exact (Hr mt Hc Hw)|done|done]. Qed.

Lemma runs_at_lift {A B} errs w0 (r : result Er A) (f : A → counted B) a Q :
  r = Ok a → runs_at errs w0 (f a) Q → runs_at errs w0 (lift r ≫= f) Q.
Proof. intros -> Hf mt Hc. exact (Hf mt Hc). Qed.

Lemma runs_at_count {B} errs `{!Cancels errs} w0 f c (k : () → counted B) Q :
  (∀ w, f w = add_work w c) → work_total c = 1%Z →
  runs_at errs (add_work w0 c) (k ()) (λ b w, Q b (add_work c w)) → runs_at errs w0 (count checkpoint f ≫= k) Q.
Proof.
  intros Hf Hc Hk. apply runs_at_bind with (λ _ w, w = c); [|by intros [] w1 ->].
  intros mt Hm _. unfold count, tick_control. cbn [work control].
  pose proof (tick_charges checkpoint (control mt) Hm) as Ht. unfold charges in Ht.
  destruct (tick _ _) as [c'|x|]; cbn [map_err mbind result_bind]; [|by apply cancels|done].
  destruct Ht as [Hok Ht]. cbn [work control]. rewrite Hf, work_total_add. split_and!; [done|lia|]. by exists c.
Qed.

End rules.
Arguments Cancels {S X} checkpoint {Er _} errs.
