(* ===== verification/Buckets.v ===== *)
(** Counting placement: the lists of values by key, where each starts, and the invariant of a
    pass that puts each value behind the earlier ones of its key.  The CSR graph and the radix
    sort are built this way. *)
From S2P Require Import Prelude.

Lemma filter_none {A} (P : A → Prop) `{∀ x, Decision (P x)} (l : list A) : (∀ x, x ∈ l → ¬ P x) → filter P l = [].
Proof.
  induction l as [|x l IH]; intros HP; [done|]. rewrite filter_cons_False by (apply HP; by left). apply IH. intros y Hy. apply HP. by right.
Qed.

Lemma filter_every {A} (P : A → Prop) `{∀ x, Decision (P x)} (l : list A) : (∀ x, x ∈ l → P x) → filter P l = l.
Proof.
  induction l as [|x l IH]; intros HP; [done|]. rewrite filter_cons_True by (apply HP; by left). f_equal. apply IH.
  intros y Hy. apply HP. by right.
Qed.

Lemma filter_ext_elem {A} (P Q : A → Prop) `{∀ x, Decision (P x)} `{∀ x, Decision (Q x)} (l : list A) :
  (∀ x, x ∈ l → P x ↔ Q x) → filter P l = filter Q l.
Proof.
  induction l as [|x l IH]; intros HPQ; [done|]. rewrite !filter_cons, IH by (intros y Hy; apply HPQ; by right).
  pose proof (HPQ x ltac:(by left)). repeat case_decide; tauto.
Qed.

Section buckets.
Context {A : Type}.
Implicit Types (arcs : list (nat * A)).

(** The values of a key, in their order. *)
Definition adj arcs (i : nat) : list A := (filter (λ a, a.1 = i) arcs).*2.

(** Where they start. *)
Definition start arcs (i : nat) : nat := length (filter (λ a, a.1 < i) arcs).

Lemma adj_cons a arcs i : adj (a :: arcs) i = if decide (a.1 = i) then a.2 :: adj arcs i else adj arcs i.
Proof. unfold adj. rewrite filter_cons. by case_decide. Qed.

Lemma adj_snoc arcs a i : adj (arcs ++ [a]) i = adj arcs i ++ (if decide (a.1 = i) then [a.2] else []).
Proof. unfold adj. rewrite filter_app, fmap_app, filter_cons, filter_nil. by case_decide. Qed.

Lemma adj_app l1 l2 i : adj (l1 ++ l2) i = adj l1 i ++ adj l2 i.
Proof. unfold adj. by rewrite filter_app, fmap_app. Qed.

Lemma elem_of_adj arcs i x : x ∈ adj arcs i ↔ (i, x) ∈ arcs.
Proof.
  unfold adj. rewrite list_elem_of_fmap. setoid_rewrite list_elem_of_filter. split.
  - by intros ([j y] & -> & <- & Hy).
  - intros Hx. by exists (i, x).
Qed.

Lemma start_succ arcs i : start arcs (S i) = start arcs i + length (adj arcs i).
Proof.
  unfold start, adj. rewrite length_fmap. induction arcs as [|[a b] arcs IH]; [done|].
  rewrite !filter_cons. repeat case_decide; simpl in *; lia.
Qed.

Lemma start_zero arcs : start arcs 0 = 0.
Proof. unfold start. induction arcs as [|[a b] arcs IH]; [done|]. rewrite filter_cons. case_decide; simpl in *; [lia|done]. Qed.

Lemma start_mono arcs i j : i ≤ j → start arcs i ≤ start arcs j.
Proof. induction 1 as [|j _ IH]; [done|]. rewrite start_succ. lia. Qed.

Lemma start_all n arcs : Forall (λ a, a.1 < n) arcs → start arcs n = length arcs.
Proof.
  unfold start. induction 1 as [|[a b] arcs Ha _ IH]; [done|]. rewrite filter_cons, decide_True by done. simpl. lia.
Qed.

(** The slot of the next value of key [i] is in range. *)
Lemma slot_lt n arcs i j : Forall (λ a, a.1 < n) arcs → i < n → j < length (adj arcs i) → start arcs i + j < length arcs.
Proof.
  intros Hok Hi Hj. rewrite <- (start_all n arcs) by done.
  pose proof (start_mono arcs (S i) n ltac:(lia)) as Hm. rewrite start_succ in Hm. lia.
Qed.

Lemma slots_disjoint arcs i j i' j' : j < length (adj arcs i) → j' < length (adj arcs i') →
  start arcs i + j = start arcs i' + j' → i = i' ∧ j = j'.
Proof.
  intros Hj Hj' E. destruct (Nat.lt_trichotomy i i') as [Hlt|[->|Hlt]]; [|lia|].
  - pose proof (start_mono arcs (S i) i' ltac:(lia)) as Hm. rewrite start_succ in Hm. lia.
  - pose proof (start_mono arcs (S i') i ltac:(lia)) as Hm. rewrite start_succ in Hm. lia.
Qed.

(** The values of [done] are in place. *)
Definition filled arcs (done : list (nat * A)) (n : nat) (out : list A) (cursor : list nat) : Prop :=
  length out = length arcs ∧ length cursor = n ∧
  (∀ i, i < n → cursor !!! i = start arcs i + length (adj done i)) ∧
  (∀ i j x, i < n → adj done i !! j = Some x → out !! (start arcs i + j) = Some x).

(** One value is put in its slot. *)
Lemma filled_step arcs dn key x todo n out cursor : arcs = dn ++ (key, x) :: todo → Forall (λ a, a.1 < n) arcs →
  filled arcs dn n out cursor →
  key < n ∧ cursor !!! key < length out ∧
  filled arcs (dn ++ [(key, x)]) n (<[cursor !!! key := x]> out) (<[key := cursor !!! key + 1]> cursor).
Proof.
  intros Harcs Hok (Hlt & Hlc & Hcur & Htg).
  assert (Hkey : key < n).
  { rewrite Harcs in Hok. apply Forall_app in Hok as [_ Hok]. by apply Forall_cons in Hok as [? _]. }
  assert (Hslot : length (adj dn key) < length (adj arcs key)).
  { rewrite Harcs, adj_app, adj_cons, decide_True, length_app by done. simpl. lia. }
  assert (Hpos : start arcs key + length (adj dn key) < length out) by (rewrite Hlt; by apply (slot_lt n)).
  rewrite Hcur by done. split; [done|]. split; [done|].
  split; [by rewrite length_insert|]. split; [by rewrite length_insert|]. split.
  - intros i Hi. rewrite adj_snoc, length_app. cbn [fst snd]. destruct (decide (key = i)) as [->|Hne].
    { rewrite list_lookup_total_insert_eq by lia. simpl. lia. }
    rewrite list_lookup_total_insert_ne, Hcur by done. simpl. lia.
  - intros i j y Hi. rewrite adj_snoc. cbn [fst snd]. rewrite lookup_app_Some.
    assert (Hle : ∀ i, length (adj dn i) ≤ length (adj arcs i)) by (intros i'; rewrite Harcs, adj_app, length_app; lia).
    intros [Hx|[Hj Hx]].
    + rewrite list_lookup_insert_ne; [by apply Htg|]. apply lookup_lt_Some in Hx. intros E. specialize (Hle i).
      destruct (slots_disjoint arcs key (length (adj dn key)) i j) as [E1 E2]; [lia|lia|lia|]. subst i. lia.
    + destruct (decide (key = i)) as [<-|]; [|done]. apply list_lookup_singleton_Some in Hx as [Hj0 <-].
      replace j with (length (adj dn key)) by lia. by apply list_lookup_insert_eq.
Qed.

(** At the end the slots of a key hold its values. *)
Lemma filled_slice n arcs out cursor i : filled arcs arcs n out cursor → Forall (λ a, a.1 < n) arcs → i < n →
  take (length (adj arcs i)) (drop (start arcs i) out) = adj arcs i.
Proof.
  intros (Hlt & _ & _ & Htg) Hok Hi.
  pose proof (start_mono arcs (S i) n ltac:(lia)) as Hm. rewrite start_succ, (start_all n) in Hm by done.
  apply list_eq_same_length with (length (adj arcs i)); [done|rewrite length_take, length_drop; lia|].
  intros j x y Hj Hx Hy. apply lookup_take_Some in Hx as [Hx _]. rewrite lookup_drop in Hx.
  rewrite (Htg i j y Hi Hy) in Hx. congruence.
Qed.

(** The whole output: the values of each key in turn. *)
Lemma filled_concat n arcs out cursor : filled arcs arcs n out cursor → Forall (λ a, a.1 < n) arcs →
  out = concat (adj arcs <$> seq 0 n).
Proof.
  intros Hf Hok. assert (H : ∀ m, m ≤ n → take (start arcs m) out = concat (adj arcs <$> seq 0 m)).
  { induction m as [|m IH]; intros Hm; [by rewrite start_zero|].
    rewrite seq_S, fmap_app, concat_app, <- IH, start_succ, <- take_take_drop by lia. cbn [fmap list_fmap concat].
    rewrite app_nil_r. f_equal. apply (filled_slice n arcs out cursor); [done|done|lia]. }
  rewrite <- (H n), (start_all n) by done. destruct Hf as (Hl & _). by rewrite take_ge by lia.
Qed.

End buckets.
