(* ===== verification/PlanGraph.v ===== *)
(** [engine/authority/plan_graph.rs]: the graph kernel of the planner.  A CSR graph is built
    from arcs and its strongly connected components are found by an iterative Tarjan
    search, with every operation counted, memory admitted before it is allocated, and a
    callback that may cancel the work.

    A vector that is used as a stack has its top first; the sentinel [NONE] is [None]. *)
From S2P Require Import Prelude PlanControl Counted.

Record GraphWork : Type := { initialize : Z; vertices : Z; edges : Z; dfs_steps : Z; popped : Z }.

Definition total_work (w : GraphWork) : Z :=
  (initialize w + vertices w + edges w + dfs_steps w + popped w)%Z.

#[export] Instance graph_work : Work GraphWork := {|
  no_work := {| initialize := 0; vertices := 0; edges := 0; dfs_steps := 0; popped := 0 |};
  add_work a b := {| initialize := initialize a + initialize b; vertices := vertices a + vertices b;
    edges := edges a + edges b; dfs_steps := dfs_steps a + dfs_steps b; popped := popped a + popped b |};
  work_total := total_work
|}.

Inductive GraphError (X : Type) : Type :=
| Authority (e : AuthorityError)
| Runtime (e : X)
| InvalidEndpoint.
Arguments Authority {X}.
Arguments Runtime {X}.
Arguments InvalidEndpoint {X}.

#[export] Instance runtime_error {X} : From X (GraphError X) := Runtime.

(** * The graph and its components *)

Record PlanGraph : Type := { offsets : list nat; targets : list nat; gwork : GraphWork; gpeak : Z }.

Definition node_count (g : PlanGraph) : nat := length (offsets g) - 1.

Definition successors {E} (g : PlanGraph) (node : nat) : result E (list nat) :=
  a ← vec_get (offsets g) node;
  b ← vec_get (offsets g) (node + 1);
  vec_slice (targets g) a b.

Record Components : Type := {
  component_of : list (option nat);
  cmembers : list nat;
  coffsets : list nat;
  cwork : GraphWork;
  cpeak : Z
}.

Definition component_count (c : Components) : nat := length (coffsets c) - 1.

Definition members {E} (c : Components) (component : nat) : result E (list nat) :=
  a ← vec_get (coffsets c) component;
  b ← vec_get (coffsets c) (component + 1);
  vec_slice (cmembers c) a b.

(** * Counted operations *)

Section graph.
Context {S X : Type} (checkpoint : S → Z → X + S) (alloc : nat → Z → bool).

Abbreviation counted := (counted S (GraphError X) GraphWork).
Abbreviation count := (count checkpoint).
Abbreviation flush_control := (flush_control checkpoint).

Definition count_initialize (w : GraphWork) : GraphWork :=
  {| initialize := initialize w + 1; vertices := vertices w; edges := edges w; dfs_steps := dfs_steps w; popped := popped w |}.
Definition count_vertex (w : GraphWork) : GraphWork :=
  {| initialize := initialize w; vertices := vertices w + 1; edges := edges w; dfs_steps := dfs_steps w; popped := popped w |}.
Definition count_edge (w : GraphWork) : GraphWork :=
  {| initialize := initialize w; vertices := vertices w; edges := edges w + 1; dfs_steps := dfs_steps w; popped := popped w |}.
Definition count_dfs (w : GraphWork) : GraphWork :=
  {| initialize := initialize w; vertices := vertices w; edges := edges w; dfs_steps := dfs_steps w + 1; popped := popped w |}.
Definition count_member (w : GraphWork) : GraphWork :=
  {| initialize := initialize w; vertices := vertices w; edges := edges w; dfs_steps := dfs_steps w; popped := popped w + 1 |}.

(** [fill(&mut out, len, value, ..)]. *)
Definition fill {A} (out : list A) (len : nat) (value : A) : counted (list A) :=
  Counted.fill checkpoint count_initialize out len value.

(** [size_of::<usize>()]. *)
Definition USIZE : Z := 8.

(** * Building *)

Fixpoint count_arcs (nodes : nat) (arcs : list (nat * nat)) (offsets : list nat) : counted (list nat) :=
  match arcs with
  | [] => mret offsets
  | (from, to) :: arcs =>
      _ ← count count_edge;
      if (nodes <=? from)%nat || (nodes <=? to)%nat then lift (Err InvalidEndpoint)
      else
        d ← lift (vec_get offsets (from + 1));
        offsets ← lift (vec_set offsets (from + 1) (d + 1));
        count_arcs nodes arcs offsets
  end.

(** [for (node, position) in cursor.iter_mut().enumerate()]. *)
Fixpoint place_nodes (nodes : list nat) (offsets cursor : list nat) : counted (list nat * list nat) :=
  match nodes with
  | [] => mret (offsets, cursor)
  | node :: nodes =>
      _ ← count count_vertex;
      position ← lift (vec_get offsets node);
      cursor ← lift (vec_set cursor node position);
      d ← lift (vec_get offsets (node + 1));
      offsets ← lift (vec_set offsets (node + 1) (d + position));
      place_nodes nodes offsets cursor
  end.

Fixpoint place_arcs (arcs : list (nat * nat)) (targets cursor : list nat) : counted (list nat * list nat) :=
  match arcs with
  | [] => mret (targets, cursor)
  | (from, to) :: arcs =>
      _ ← count count_edge;
      position ← lift (vec_get cursor from);
      targets ← lift (vec_set targets position to);
      cursor ← lift (vec_set cursor from (position + 1));
      place_arcs arcs targets cursor
  end.

Definition build_counted (nodes : nat) (arcs : list (nat * nat)) : counted (list nat * list nat) :=
  offsets ← fill [] (nodes + 1) 0;
  targets ← fill [] (length arcs) 0;
  cursor ← fill [] nodes 0;
  offsets ← count_arcs nodes arcs offsets;
  '(offsets, cursor) ← place_nodes (seq 0 nodes) offsets cursor;
  '(targets, cursor) ← place_arcs arcs targets cursor;
  _ ← flush_control;
  mret (offsets, targets).

Definition checked_inc (n : nat) : result AuthorityError Z :=
  if (Z.of_nat n + 1 <=? u64_max)%Z then Ok (Z.of_nat n + 1)%Z else Err Alloc.

(** [heap_bytes] of the graph; its vectors are full. *)
Definition graph_heap (g : PlanGraph) : Z := (Z.of_nat (length (offsets g) + length (targets g)) * 8)%Z.

Definition build_controlled (nodes : nat) (arcs : list (nat * nat)) (scratch_limit : option Z) (s : S)
  : result (GraphError X) (PlanGraph * S) :=
  ctl ← map_err Runtime (new checkpoint s);
  peak ← map_err Authority (
    offset_len ← checked_inc nodes;
    offset_bytes ← bytes_of USIZE offset_len;
    arc_bytes ← bytes_of USIZE (Z.of_nat (length arcs));
    node_bytes ← bytes_of USIZE (Z.of_nat nodes);
    rest ← add arc_bytes node_bytes;
    peak ← add offset_bytes rest;
    _ ← admit_scratch peak scratch_limit;
    _ ← reserve alloc 0 USIZE offset_len;
    _ ← reserve alloc 1 USIZE (Z.of_nat (length arcs));
    _ ← reserve alloc 2 USIZE (Z.of_nat nodes);
    Ok peak);
  '(mt, (offsets, targets)) ← build_counted nodes arcs {| work := no_work; control := ctl |};
  Ok ({| offsets := offsets; targets := targets; gwork := work mt; gpeak := peak |}, state (control mt)).

(** * Components *)

(** The vectors of the search. *)
Record Search : Type := {
  comp : list (option nat);
  out_members : list nat;
  out_offsets : list nat;
  index : list (option nat);
  low : list nat;
  next_arc : list nat;
  active : list nat;
  dfs : list nat;
  serial : nat
}.

(** [index[v] = serial; low[v] = serial; serial += 1; active.push(v); dfs.push(v)]. *)
Definition discover (v : nat) (t : Search) : result (GraphError X) Search :=
  index' ← vec_set (index t) v (Some (serial t));
  low' ← vec_set (low t) v (serial t);
  Ok {| comp := comp t; out_members := out_members t; out_offsets := out_offsets t;
        index := index'; low := low'; next_arc := next_arc t;
        active := v :: active t; dfs := v :: dfs t; serial := Datatypes.S (serial t) |}.

(** [low[v] = low[v].min(x)]. *)
Definition lower (v x : nat) (t : Search) : result (GraphError X) Search :=
  l ← vec_get (low t) v;
  low' ← vec_set (low t) v (l `min` x);
  Ok {| comp := comp t; out_members := out_members t; out_offsets := out_offsets t;
        index := index t; low := low'; next_arc := next_arc t;
        active := active t; dfs := dfs t; serial := serial t |}.

(** [next_arc[v] += 1]. *)
Definition advance (v : nat) (t : Search) : result (GraphError X) Search :=
  a ← vec_get (next_arc t) v;
  next ← vec_set (next_arc t) v (a + 1);
  Ok {| comp := comp t; out_members := out_members t; out_offsets := out_offsets t;
        index := index t; low := low t; next_arc := next;
        active := active t; dfs := dfs t; serial := serial t |}.

(** The arc to [to] is followed from [node]. *)
Definition follow (node to : nat) (t : Search) : result (GraphError X) Search :=
  t ← advance node t;
  i ← vec_get (index t) to;
  match i with
  | None => discover to t
  | Some i =>
      c ← vec_get (comp t) to;
      match c with None => lower node i t | Some _ => Ok t end
  end.

(** The members of the component of [node] are popped off the active stack. *)
Fixpoint pop_members (node component : nat) (stack : list nat) (comp : list (option nat)) (members : list nat)
  : counted (list nat * list (option nat) * list nat) :=
  _ ← count count_member;
  match stack with
  | [] => lift Panic
  | member :: stack =>
      comp ← lift (vec_set comp member (Some component));
      let members := members ++ [member] in
      if (member =? node)%nat then mret (stack, comp, members)
      else pop_members node component stack comp members
  end.

(** [node] is exhausted: [dfs.pop()], its component if it is a root, its parent's [low]. *)
Definition finish (node : nat) (t : Search) : counted Search :=
  l ← lift (vec_get (low t) node);
  i ← lift (vec_get (index t) node);
  t ← (if decide (Some l = i) then
         '(stack, comp', members) ← pop_members node (length (out_offsets t) - 1) (active t) (comp t) (out_members t);
         mret {| comp := comp'; out_members := members; out_offsets := out_offsets t ++ [length members];
                 index := index t; low := low t; next_arc := next_arc t;
                 active := stack; dfs := tail (dfs t); serial := serial t |}
       else mret {| comp := comp t; out_members := out_members t; out_offsets := out_offsets t;
                    index := index t; low := low t; next_arc := next_arc t;
                    active := active t; dfs := tail (dfs t); serial := serial t |});
  match dfs t with
  | parent :: _ => l ← lift (vec_get (low t) node); lift (lower parent l t)
  | [] => mret t
  end.

(** [while let Some(&node) = dfs.last()]. *)
Fixpoint search_loop (g : PlanGraph) (fuel : nat) (t : Search) : counted Search :=
  match dfs t with
  | [] => mret t
  | node :: _ =>
      match fuel with
      | O => lift Panic
      | Datatypes.S fuel =>
          _ ← count count_dfs;
          neighbors ← lift (successors g node);
          next ← lift (vec_get (next_arc t) node);
          if (next <? length neighbors)%nat then
            _ ← count count_edge;
            to ← lift (vec_get neighbors next);
            t ← lift (follow node to t);
            search_loop g fuel t
          else
            t ← finish node t;
            search_loop g fuel t
      end
  end.

(** A step follows an arc or finishes a node. *)
Definition search_fuel (g : PlanGraph) : nat := length (targets g) + node_count g.

Fixpoint roots (g : PlanGraph) (nodes : list nat) (t : Search) : counted Search :=
  match nodes with
  | [] => mret t
  | root :: nodes =>
      _ ← count count_vertex;
      i ← lift (vec_get (index t) root);
      match i with
      | Some _ => roots g nodes t
      | None =>
          t ← lift (discover root t);
          t ← search_loop g (search_fuel g) t;
          roots g nodes t
      end
  end.

Definition components_counted (g : PlanGraph) : counted Search :=
  let n := node_count g in
  comp ← fill [] n None;
  index ← fill [] n None;
  low ← fill [] n 0;
  next_arc ← fill [] n 0;
  offsets ← fill [] 1 0;
  t ← roots g (seq 0 n)
    {| comp := comp; out_members := []; out_offsets := offsets; index := index; low := low;
       next_arc := next_arc; active := []; dfs := []; serial := 0 |};
  _ ← flush_control;
  mret t.

(** [n.checked_mul(7)] of a [u64]. *)
Definition mul_u64 (a b : Z) : result AuthorityError Z :=
  if (a * b <=? u64_max)%Z then Ok (a * b)%Z else Err Alloc.

Definition reserve_all (sizes : list Z) : result AuthorityError () :=
  foldl (λ r '(k, n), _ ← r; reserve alloc k USIZE n) (Ok ()) (imap pair sizes).

Definition components_controlled (g : PlanGraph) (scratch_limit : option Z) (s : S)
  : result (GraphError X) (Components * S) :=
  ctl ← map_err Runtime (new checkpoint s);
  let n := Z.of_nat (node_count g) in
  peak ← map_err Authority (
    offsets_len ← checked_inc (node_count g);
    node_bytes ← bytes_of USIZE n;
    seven ← mul_u64 node_bytes 7;
    offset_bytes ← bytes_of USIZE offsets_len;
    peak ← add seven offset_bytes;
    _ ← admit_scratch peak scratch_limit;
    _ ← reserve_all [n; n; offsets_len; n; n; n; n; n]%Z;
    Ok peak);
  '(mt, t) ← components_counted g {| work := no_work; control := ctl |};
  Ok ({| component_of := comp t; cmembers := out_members t; coffsets := out_offsets t;
         cwork := work mt; cpeak := peak |}, state (control mt)).

End graph.

(** ** Examples *)

(** A cycle of 1 and 2, read by 0, which reads 3: the reader's component comes last. *)
Definition never (s : ()) (k : Z) : Empty_set + () := inr ().

Example small_components :
  ('(g, _) ← build_controlled never (λ _ _, true) 4 [(0, 1); (1, 2); (2, 1); (0, 3); (2, 2)] None ();
   '(c, _) ← components_controlled never (λ _ _, true) g None ();
   a ← members c 0; b ← members c 2;
   Ok (component_of c, component_count c, a, b, work_total (cwork c)))
  = Ok ([Some 2; Some 0; Some 0; Some 1], 3, [2; 1], [0], 39%Z).
Proof. vm_compute. reflexivity. Qed.
