(* ===== verification/PlanGraphTheorems.v ===== *)
(** The graph kernel's building step: rules for counted code, and the proof that the CSR
    graph has exactly the given arcs. *)
From S2P Require Import Prelude PlanControl Counted Buckets PlanGraph.

(** * Counting *)

#[export] Instance graph_work_laws : WorkLaws GraphWork.
Proof.
  split; unfold add_work, no_work, work_total, graph_work.
  - intros a b c. cbn. f_equal; lia.
  - intros a b. cbn. f_equal; lia.
  - intros []. cbn. f_equal; lia.
  - intros a b. cbn. unfold total_work. cbn. lia.
Qed.

(** The cost of [i] initialisations, [v] vertices, [e] arcs, [d] search steps, [p] pops. *)
Definition cost (i v e d p : nat) : GraphWork :=
  {| initialize := Z.of_nat i; vertices := Z.of_nat v; edges := Z.of_nat e; dfs_steps := Z.of_nat d; popped := Z.of_nat p |}.

Lemma cost_add i v e d p i' v' e' d' p' :
  add_work (cost i v e d p) (cost i' v' e' d' p') = cost (i + i') (v + v') (e + e') (d + d') (p + p').
Proof. unfold add_work, cost. simpl. f_equal; lia. Qed.

Section errors.
Context {S X : Type} (checkpoint : S → Z → X + S).

(** A failing graph operation: the callback raised the error, or, only when [bad], an
    endpoint is out of range. *)
Definition graph_errs (bad : Prop) (e : GraphError X) : Prop :=
  match e with Runtime x => raised checkpoint x | InvalidEndpoint => bad | Authority _ => False end.

#[export] Instance graph_errs_cancels bad : Cancels checkpoint (graph_errs bad).
Proof. by intros x. Qed.

Lemma graph_errs_weaken (bad1 bad2 : Prop) e : (bad1 → bad2) → graph_errs bad1 e → graph_errs bad2 e.
Proof. destruct e; simpl; tauto. Qed.

End errors.

Ltac gw := first [done | (unfold add_work, graph_work, cost, count_initialize, count_vertex, count_edge, count_dfs, count_member, no_work;
  intros; simpl; f_equal; lia)].

(** One counted operation of each kind. *)
Ltac run_initialize := apply (runs_count _ _ _ (cost 1 0 0 0 0)); [gw|done|].
Ltac run_vertex := apply (runs_count _ _ _ (cost 0 1 0 0 0)); [gw|done|].
Ltac run_edge := apply (runs_count _ _ _ (cost 0 0 1 0 0)); [gw|done|].
Ltac run_dfs := apply (runs_count _ _ _ (cost 0 0 0 1 0)); [gw|done|].
Ltac run_member := apply (runs_count _ _ _ (cost 0 0 0 0 1)); [gw|done|].

(** * Arcs *)

Definition arcs_ok (n : nat) (arcs : list (nat * nat)) : Prop := Forall (λ a, a.1 < n ∧ a.2 < n) arcs.

Lemma arcs_ok_keys n arcs : arcs_ok n arcs → Forall (λ a, a.1 < n) arcs.
Proof. intros H. eapply Forall_impl; [exact H|]. by intros a []. Qed.
#[export] Hint Resolve arcs_ok_keys : formualizer.

(** [graph_of g n arcs]: the graph has [n] nodes and these arcs. *)
Record graph_of (g : PlanGraph) (n : nat) (arcs : list (nat * nat)) : Prop := {
  graph_nodes : length (offsets g) = S n;
  graph_arcs : arcs_ok n arcs;
  graph_targets : length (targets g) = length arcs;
  graph_successors : ∀ E i, i < n → @successors E g i = Ok (adj arcs i)
}.

Lemma graph_node_count g n arcs : graph_of g n arcs → node_count g = n.
Proof. intros G. unfold node_count. rewrite (graph_nodes _ _ _ G). lia. Qed.

(** * Building *)

Section build.
Context {S X : Type} (checkpoint : S → Z → X + S).
Abbreviation runs bad := (runs (graph_errs checkpoint bad)).
Abbreviation count_arcs := (count_arcs checkpoint).
Abbreviation place_nodes := (place_nodes checkpoint).
Abbreviation place_arcs := (place_arcs checkpoint).
Abbreviation fill := (fill checkpoint).

Lemma runs_graph_fill {A} bad len : ∀ (out : list A) value,
  runs bad (fill out len value) (λ r w, r = out ++ replicate len value ∧ w = cost len 0 0 0 0).
Proof.
  intros out value. unfold PlanGraph.fill. eapply runs_weaken; [apply (Counted.runs_fill _ _ _ (cost 1 0 0 0 0)); [gw|done]|].
  cbn beta. intros r w [-> ->]. split; [done|]. induction len as [|len IH]; [done|]. by rewrite Nat.iter_succ, IH, cost_add.
Qed.

(** [bad]: an arc leaves the graph. *)
Lemma runs_count_arcs n arcs : ∀ offs, length offs = Datatypes.S n →
  runs (¬ arcs_ok n arcs) (count_arcs n arcs offs) (λ offs' w,
    arcs_ok n arcs ∧ length offs' = Datatypes.S n ∧ offs' !!! 0 = offs !!! 0 ∧
    (∀ i, offs' !!! Datatypes.S i = offs !!! Datatypes.S i + length (adj arcs i)) ∧
    w = cost 0 0 (length arcs) 0 0).
Proof.
  induction arcs as [|[from to] arcs IH]; intros offs Hlen; cbn [PlanGraph.count_arcs].
  - apply runs_ret. split_and!; [constructor|done|done|intros; unfold adj; simpl; lia|done].
  - run_edge. destruct ((n <=? from) || (n <=? to)) eqn:E; rewrite ?orb_true_iff, ?orb_false_iff, ?Nat.leb_le, ?Nat.leb_gt in E.
    { intros mt Hc Hok. apply Forall_cons in Hok as [Hok _]. simpl in Hok. lia. }
    eapply runs_lift; [apply vec_get_ok; lia|]. eapply runs_lift; [apply vec_set_ok; lia|].
    eapply runs_conseq; [apply IH; by rewrite length_insert| |]; simpl.
    { intros e. apply graph_errs_weaken. intros Hn Hok. apply Hn. by apply Forall_cons in Hok as [_ ?]. }
    intros offs' w (Hok & Hl & H0 & Hi & ->). split_and!; [by constructor|done| | |by rewrite cost_add].
    + by rewrite H0, list_lookup_total_insert_ne by lia.
    + intros i. rewrite Hi, adj_cons. cbn [fst snd]. destruct (decide (from = i)) as [->|Hne].
      { rewrite Nat.add_1_r, list_lookup_total_insert_eq by lia. simpl. lia. }
      by rewrite list_lookup_total_insert_ne by lia.
Qed.

(** After node [k], the offsets up to [k] are the starts and the others are counts. *)
Definition placed (arcs : list (nat * nat)) (n k : nat) (offs cursor : list nat) : Prop :=
  length offs = Datatypes.S n ∧ length cursor = n ∧
  (∀ i, i ≤ k → offs !!! i = start arcs i) ∧
  (∀ i, k ≤ i < n → offs !!! Datatypes.S i = length (adj arcs i)) ∧
  (∀ i, i < k → cursor !!! i = start arcs i).

Lemma runs_place_nodes bad arcs n m : ∀ k offs cursor, k + m = n → placed arcs n k offs cursor →
  runs bad (place_nodes (seq k m) offs cursor) (λ r w, placed arcs n n r.1 r.2 ∧ w = cost 0 m 0 0 0).
Proof.
  induction m as [|m IH]; intros k offs cursor Hk (Hlo & Hlc & Hoff & Hcnt & Hcur); cbn [seq PlanGraph.place_nodes].
  - apply runs_ret. rewrite Nat.add_0_r in Hk. subst. done.
  - run_vertex. eapply runs_lift; [apply vec_get_ok; lia|]. eapply runs_lift; [apply vec_set_ok; lia|].
    eapply runs_lift; [apply vec_get_ok; lia|]. eapply runs_lift; [apply vec_set_ok; lia|].
    eapply runs_weaken; [apply (IH (Datatypes.S k)); [lia|]|].
    + split_and!; [by rewrite length_insert|by rewrite length_insert| | |].
      * intros i Hi. rewrite Nat.add_1_r. destruct (decide (i = Datatypes.S k)) as [->|Hne].
        { rewrite list_lookup_total_insert_eq by lia. rewrite Hcnt, Hoff, start_succ by lia. lia. }
        rewrite list_lookup_total_insert_ne by lia. apply Hoff. lia.
      * intros i Hi. rewrite list_lookup_total_insert_ne by lia. apply Hcnt. lia.
      * intros i Hi. destruct (decide (i = k)) as [->|Hne].
        { rewrite list_lookup_total_insert_eq by lia. by apply Hoff. }
        rewrite list_lookup_total_insert_ne by lia. apply Hcur. lia.
    + simpl. intros r w [Hp ->]. by rewrite cost_add.
Qed.

Lemma runs_place_arcs bad arcs n todo : ∀ done targets cursor, arcs = done ++ todo → arcs_ok n arcs →
  filled arcs done n targets cursor →
  runs bad (place_arcs todo targets cursor) (λ r w, filled arcs arcs n r.1 r.2 ∧ w = cost 0 0 (length todo) 0 0).
Proof.
  induction todo as [|[from to] todo IH]; intros dn targets cursor Harcs Hok Hf; cbn [PlanGraph.place_arcs].
  - apply runs_ret. rewrite app_nil_r in Harcs. by subst.
  - run_edge. destruct (filled_step _ _ _ _ _ _ _ _ Harcs (arcs_ok_keys _ _ Hok) Hf) as (Hfrom & Hpos & Hf').
    pose proof Hf as (_ & Hlc & _).
    eapply runs_lift; [apply vec_get_ok; lia|]. eapply runs_lift; [by apply vec_set_ok|]. eapply runs_lift; [apply vec_set_ok; lia|].
    eapply runs_weaken; [apply (IH (dn ++ [(from, to)])); [by rewrite <- app_assoc|done|done]|].
    simpl. intros r w [Hp ->]. by rewrite cost_add.
Qed.

Lemma filled_graph n arcs offs targets cursor w pk : arcs_ok n arcs → length offs = Datatypes.S n →
  (∀ i, i ≤ n → offs !!! i = start arcs i) → filled arcs arcs n targets cursor →
  graph_of {| offsets := offs; targets := targets; gwork := w; gpeak := pk |} n arcs.
Proof.
  intros Hok Hl Hoff Hf. pose proof Hf as (Hlt & _). split; simpl; [done|done|done|]. intros E i Hi.
  unfold successors. simpl. rewrite !vec_get_ok by lia. cbn [mbind result_bind].
  rewrite !Hoff, Nat.add_1_r, start_succ by lia.
  pose proof (start_mono arcs (Datatypes.S i) n ltac:(lia)) as Hm.
  rewrite start_succ, (start_all n) in Hm by auto with formualizer.
  rewrite vec_slice_ok by lia. f_equal. replace (_ + _ - _) with (length (adj arcs i)) by lia.
  by apply (filled_slice n arcs targets cursor), Hi; auto with formualizer.
Qed.

Lemma runs_build n arcs : runs (¬ arcs_ok n arcs) (build_counted checkpoint n arcs) (λ r w,
  (∀ pk w', graph_of {| offsets := r.1; targets := r.2; gwork := w'; gpeak := pk |} n arcs) ∧
  w = cost (n + 1 + length arcs + n) n (2 * length arcs) 0 0).
Proof.
  unfold build_counted. eapply runs_bind; [apply runs_graph_fill|]. simpl. intros offs w1 [-> ->].
  eapply runs_bind; [apply runs_graph_fill|]. simpl. intros tgs w2 [-> ->].
  eapply runs_bind; [apply runs_graph_fill|]. simpl. intros cur w3 [-> ->].
  eapply runs_bind; [apply runs_count_arcs; rewrite length_replicate; lia|].
  intros offs w4 (Hok & Hlo & H0 & Hdeg & ->).
  assert (Hz : ∀ i, replicate (n + 1) 0 !!! i = 0).
  { intros i. rewrite list_lookup_total_alt. destruct (replicate _ _ !! i) eqn:E; [|done].
    by apply lookup_replicate in E as [-> _]. }
  eapply runs_bind; [apply (runs_place_nodes _ arcs n n 0); [lia|]|].
  { split_and!; [done|by rewrite length_replicate| | |lia].
    - intros i Hi. replace i with 0 by lia. by rewrite H0, Hz, start_zero.
    - intros i Hi. by rewrite Hdeg, Hz. }
  intros [offs' cur'] w5 [(Hlo' & Hlc' & Hoff' & _ & Hcur') ->]. simpl in *.
  eapply runs_bind; [apply (runs_place_arcs _ arcs n arcs []); [done|done|]|].
  { split_and!; [by rewrite length_replicate|done| |by intros i j x _].
    intros i Hi. rewrite Hcur' by done. unfold adj. simpl. lia. }
  intros [tg' cur2] w6 [Hf ->]. simpl in *. refine (runs_flush checkpoint _ _ _ _). simpl. split.
  - intros pk w'. eapply filled_graph; [done..|exact Hf].
  - rewrite add_no_work, !cost_add. f_equal; lia.
Qed.

End build.

(** ** Memory *)

Ltac scratch_step :=
  match goal with
  | |- context [map_err _ ((if ?b then _ else _) ≫= _)] => destruct b eqn:?; cbn [mbind result_bind map_err]
  end.

Section memory.
Context {S X : Type} (checkpoint : S → Z → X + S) (alloc : nat → Z → bool).

Lemma build_result n arcs limit s :
  match build_controlled checkpoint alloc n arcs limit s with
  | Ok (g, s') => graph_of g n arcs ∧
      gwork g = cost (2 * n + length arcs + 1) n (2 * length arcs) 0 0 ∧
      gpeak g = (8 * Z.of_nat (2 * n + length arcs + 1))%Z ∧
      ∀ l, limit = Some l → (gpeak g ≤ l)%Z
  | Err InvalidEndpoint => ¬ arcs_ok n arcs
  | Err (Runtime x) => raised checkpoint x
  | Err (Authority e) => rejected limit (8 * Z.of_nat (2 * n + length arcs + 1)) e
  | Panic => False
  end.
Proof.
  unfold build_controlled. pose proof (flush_charges checkpoint {| total := 0; pending := 0; state := s |}) as Hnew.
  specialize (Hnew ltac:(simpl; lia)). unfold new. destruct (flush _ _) as [ctl|x|]; [|done|done].
  destruct Hnew as [Hctl _]. cbn [map_err mbind result_bind].
  unfold checked_inc, bytes_of, add, reserve, USIZE.
  do 6 (scratch_step; [|by left]).
  assert (Hpk : ((Z.of_nat n + 1) * 8 + (Z.of_nat (length arcs) * 8 + Z.of_nat n * 8) =
    8 * Z.of_nat (2 * n + length arcs + 1))%Z) by lia.
  rewrite Hpk. destruct (admit_rejects limit (8 * Z.of_nat (2 * n + length arcs + 1))) as [[Ha Hlim]|(e & Ha & He)]; rewrite Ha; [|done].
  cbn [mbind result_bind map_err]. do 3 (scratch_step; [|by left]). cbn [map_err mbind result_bind].
  pose proof (runs_build checkpoint n arcs {| work := no_work; control := ctl |} Hctl) as Hrun.
  destruct (build_counted _ _ _ _) as [[mt [offs tgs]]|[]|]; cbn [mbind result_bind]; try done.
  destruct Hrun as (_ & _ & w & Hw & Hg & ->). simpl in *. rewrite no_work_add in Hw. split_and!.
  - apply Hg.
  - rewrite Hw. f_equal; lia.
  - done.
  - done.
Qed.

(** C26: the CSR graph has exactly the given arcs.  Building never panics; when it succeeds,
    the successors of every node are its arcs' targets in their order, and the counted work
    is linear.  Otherwise an endpoint is out of range, the callback raised the error, the
    allocator failed, or the peak memory is over the limit. *)
Theorem plan_graph_exact n arcs limit s :
  match build_controlled checkpoint alloc n arcs limit s with
  | Ok (g, s') => graph_of g n arcs ∧
      gwork g = cost (2 * n + length arcs + 1) n (2 * length arcs) 0 0 ∧
      gpeak g = (8 * Z.of_nat (2 * n + length arcs + 1))%Z ∧
      ∀ l, limit = Some l → (gpeak g ≤ l)%Z
  | Err InvalidEndpoint => ¬ arcs_ok n arcs
  | Err (Runtime x) => raised checkpoint x
  | Err (Authority e) => rejected limit (8 * Z.of_nat (2 * n + length arcs + 1)) e
  | Panic => False
  end.
Proof. apply build_result. Qed.

End memory.
