(* ===== verification/TarjanFacts.v ===== *)
(** The invariant of the component search of [PlanGraph], and its steps: discovering a node,
    following an arc, finishing a node that is the root of its component or is not. *)
From S2P Require Import Prelude PlanControl Counted Buckets PlanGraph PlanGraphTheorems.

Section tarjan.
Context (n : nat) (arcs : list (nat * nat)).

Definition edge (u w : nat) : Prop := w ∈ adj arcs u.
Abbreviation reach := (rtc edge).

Lemma adj_edge u j w : adj arcs u !! j = Some w → edge u w.
Proof. apply list_elem_of_lookup_2. Qed.

(** The order of discovery. *)
Definition num (idx : nat → option nat) (u : nat) : nat := default 0 (idx u).
Definition later (idx : nat → option nat) (u w : nat) : Prop := num idx w < num idx u.

(** [idx], [cmp], [lw] and [na] are the entries of [index], [component_of], [low] and
    [next_arc].  A node is white when it has no index, gray when it is on the [dfs] stack;
    a node is active when it has an index and no component. *)
Record inv (idx cmp : nat → option nat) (lw na : nat → nat) (active dfs : list nat) (serial : nat) : Prop := {
  inv_idx u i : idx u = Some i → u < n ∧ i < serial;
  inv_inj u w i : idx u = Some i → idx w = Some i → u = w;
  inv_cmp u k : cmp u = Some k → is_Some (idx u);
  inv_active u : u ∈ active ↔ is_Some (idx u) ∧ cmp u = None;
  inv_asort : StronglySorted (later idx) active;
  inv_dsort : StronglySorted (later idx) dfs;
  inv_dfs u : u ∈ dfs → u ∈ active;
  (* an active node reaches the later ones, and a gray one that is not later *)
  inv_up u w : u ∈ active → w ∈ active → num idx u ≤ num idx w → reach u w;
  inv_gray u : u ∈ active → ∃ g, g ∈ dfs ∧ num idx g ≤ num idx u ∧ reach u g;
  (* the arcs that were followed *)
  inv_arcs v j w : j < na v → adj arcs v !! j = Some w → is_Some (idx w);
  inv_na v : na v ≤ length (adj arcs v);
  inv_black v : is_Some (idx v) → v ∉ dfs → na v = length (adj arcs v);
  inv_white v : idx v = None → na v = 0;
  (* the components so far *)
  inv_closed u w k : cmp u = Some k → edge u w → ∃ k', cmp w = Some k' ∧ k' ≤ k;
  inv_scc u w k : cmp u = Some k → cmp w = Some k → reach u w;
  (* [low] of a gray node is the index of an active node it reaches, and bounds the indices
     that the arcs of the nodes above it lead to *)
  inv_low v : v ∈ dfs → lw v ≤ num idx v ∧ ∃ w, w ∈ active ∧ num idx w = lw v ∧ reach v w;
  inv_seg v u j w : v ∈ dfs → u ∈ active → num idx v ≤ num idx u →
    (∀ g, g ∈ dfs → num idx g ≤ num idx u → num idx g ≤ num idx v) →
    j < na u → adj arcs u !! j = Some w → w ∈ active → lw v ≤ num idx w
}.

Lemma num_some idx u i : idx u = Some i → num idx u = i.
Proof. unfold num. by intros ->. Qed.

Lemma later_in idx l u w : StronglySorted (later idx) (u :: l) → w ∈ l → num idx w < num idx u.
Proof. intros [_ H]%StronglySorted_inv Hw. rewrite Forall_forall in H. by apply H. Qed.

Lemma later_nodup idx l : StronglySorted (later idx) l → NoDup l.
Proof.
  induction 1 as [|u l Hs IH Hall]; constructor; [|done]. intros Hu.
  rewrite Forall_forall in Hall. specialize (Hall u Hu). unfold later in Hall. lia.
Qed.

Section facts.
Context {idx cmp : nat → option nat} {lw na : nat → nat} {active dfs : list nat} {serial : nat}.
Hypothesis I : inv idx cmp lw na active dfs serial.

Lemma active_index u : u ∈ active → ∃ i, idx u = Some i ∧ cmp u = None ∧ i < serial ∧ u < n.
Proof using I.
  intros [[i Hi] Hc]%(inv_active _ _ _ _ _ _ _ I). exists i.
  destruct (inv_idx _ _ _ _ _ _ _ I _ _ Hi). done.
Qed.

Lemma active_inj u w : u ∈ active → w ∈ active → num idx u = num idx w → u = w.
Proof using I.
  intros (i & Hi & _)%active_index (k & Hk & _)%active_index. rewrite (num_some _ _ _ Hi), (num_some _ _ _ Hk).
  intros ->. by eapply inv_inj.
Qed.

(** With no gray node, no node is active. *)
Lemma no_gray : dfs = [] → active = [].
Proof using I.
  intros E. destruct active as [|u l] eqn:Ea; [done|].
  destruct (inv_gray _ _ _ _ _ _ _ I u) as (g & Hg & _); [left|]. rewrite E in Hg. by apply elem_of_nil in Hg.
Qed.

(** * Discovering a node *)

Lemma inv_discover v (idx' : nat → option nat) (lw' : nat → nat) :
  idx v = None → v < n → (∀ u, u ∈ active → reach u v) →
  (∀ u, idx' u = if decide (u = v) then Some serial else idx u) →
  (∀ u, lw' u = if decide (u = v) then serial else lw u) →
  inv idx' cmp lw' na (v :: active) (v :: dfs) (S serial).
Proof using I.
  intros Hv Hn Hreach Hidx Hlw.
  assert (Hnv : num idx' v = serial) by (unfold num; rewrite Hidx, decide_True by done; done).
  assert (Hno : ∀ u, u ∈ active → u ≠ v).
  { intros u (i & Hi & _)%active_index ->. congruence. }
  assert (Hnum : ∀ u, u ∈ active → num idx' u = num idx u ∧ num idx u < serial).
  { intros u Hu. specialize (Hno u Hu). apply active_index in Hu as (i & Hi & _ & Hlt & _).
    unfold num. rewrite Hidx, decide_False, Hi by done. done. }
  assert (Hdfs : ∀ u, u ∈ dfs → u ∈ active) by apply I.
  assert (Hsort : ∀ l, (∀ u, u ∈ l → u ∈ active) → StronglySorted (later idx) l → StronglySorted (later idx') l).
  { intros l Hl Hs. induction Hs as [|u l Hs IH Hall]; [constructor|]. constructor.
    - apply IH. intros. apply Hl. by right.
    - rewrite Forall_forall in *. intros w Hw. specialize (Hall w Hw). unfold later in *.
      rewrite (proj1 (Hnum u (Hl u ltac:(left)))), (proj1 (Hnum w (Hl w ltac:(by right)))). done. }
  assert (Hmono : ∀ u, is_Some (idx u) → is_Some (idx' u)) by (intros u Hu; rewrite Hidx; by case_decide).
  split.
  - intros u i. rewrite Hidx. case_decide as E; [intros [= <-]; subst; split; [done|lia]|].
    intros ?%(inv_idx _ _ _ _ _ _ _ I). lia.
  - intros u w i. rewrite !Hidx. repeat case_decide; subst; intros Hu Hw; simplify_eq; try done.
    + apply (inv_idx _ _ _ _ _ _ _ I) in Hw. lia.
    + apply (inv_idx _ _ _ _ _ _ _ I) in Hu. lia.
    + by eapply inv_inj.
  - intros u k Hu. by apply Hmono, (inv_cmp _ _ _ _ _ _ _ I u k).
  - intros u. rewrite elem_of_cons, (inv_active _ _ _ _ _ _ _ I), Hidx. case_decide as E.
    + subst. split; [|by left]. intros _. split; [by eexists|]. destruct (cmp v) as [k|] eqn:Ec; [|done].
      destruct (inv_cmp _ _ _ _ _ _ _ I v k Ec). congruence.
    + split; [intros [?|?]; done|by right].
  - constructor; [apply Hsort; [done|apply I]|]. apply Forall_forall. intros u Hu. unfold later. rewrite Hnv.
    destruct (Hnum u Hu). lia.
  - constructor; [apply Hsort; [done|apply I]|]. apply Forall_forall. intros u Hu%Hdfs. unfold later. rewrite Hnv.
    destruct (Hnum u Hu). lia.
  - intros u [->|Hu]%elem_of_cons; [left|right; by apply Hdfs].
  - intros u w [->|Hu]%elem_of_cons [->|Hw]%elem_of_cons Hle; [constructor| |by apply Hreach|].
    + destruct (Hnum w Hw). lia.
    + apply (inv_up _ _ _ _ _ _ _ I); [done..|]. destruct (Hnum u Hu), (Hnum w Hw). lia.
  - intros u [->|Hu]%elem_of_cons; [exists v; split; [left|split; [done|constructor]]|].
    destruct (inv_gray _ _ _ _ _ _ _ I u Hu) as (g & Hg & Hle & Hr). exists g. split; [by right|].
    split; [|done]. destruct (Hnum u Hu), (Hnum g (Hdfs g Hg)). lia.
  - intros u j w Hj Hw. by apply Hmono, (inv_arcs _ _ _ _ _ _ _ I u j w).
  - apply I.
  - intros u Hu Hnd. apply not_elem_of_cons in Hnd as [Hne Hnd]. rewrite Hidx, decide_False in Hu by done.
    by apply (inv_black _ _ _ _ _ _ _ I).
  - intros u Hu. rewrite Hidx in Hu. case_decide; [done|]. by apply (inv_white _ _ _ _ _ _ _ I).
  - apply I.
  - apply I.
  - intros u [->|Hu]%elem_of_cons; rewrite Hlw.
    + rewrite decide_True, Hnv by done. split; [done|]. exists v. split; [left|split; [done|constructor]].
    + rewrite decide_False by (apply Hno; auto). destruct (inv_low _ _ _ _ _ _ _ I u Hu) as (Hle & w & Hw & Hwn & Hr).
      rewrite (proj1 (Hnum u (Hdfs u Hu))). split; [done|]. exists w. rewrite (proj1 (Hnum w Hw)). split; [by right|done].
  - intros g u j w Hg [->|Hu]%elem_of_cons Hle Htop Hj Hw Hact.
    { rewrite (inv_white _ _ _ _ _ _ _ I v Hv) in Hj. lia. }
    apply elem_of_cons in Hg as [->|Hg]; [destruct (Hnum u Hu); lia|].
    apply elem_of_cons in Hact as [->|Hact].
    { destruct (inv_arcs _ _ _ _ _ _ _ I u j v Hj Hw). congruence. }
    rewrite Hlw, decide_False, (proj1 (Hnum w Hact)) by (apply Hno; auto).
    apply (inv_seg _ _ _ _ _ _ _ I g u j w); [done|done| |..|done|done|done].
    + destruct (Hnum u Hu), (Hnum g (Hdfs g Hg)). lia.
    + intros g' Hg' Hle'. specialize (Htop g' ltac:(by right)).
      destruct (Hnum u Hu), (Hnum g (Hdfs g Hg)), (Hnum g' (Hdfs g' Hg')). lia.
Qed.

(** * Following an arc to a node that has an index *)

Lemma inv_advance p w (lw' na' : nat → nat) :
  p ∈ dfs → adj arcs p !! na p = Some w → is_Some (idx w) →
  (∀ u, na' u = if decide (u = p) then S (na p) else na u) →
  (∀ u, lw' u = if decide (u = p) then match cmp w with Some _ => lw p | None => lw p `min` num idx w end else lw u) →
  inv idx cmp lw' na' active dfs serial.
Proof using I.
  intros Hp Hw Hiw Hna Hlw. pose proof (inv_dfs _ _ _ _ _ _ _ I p Hp) as Hpa.
  assert (Hle : ∀ u, lw' u ≤ lw u).
  { intros u. rewrite Hlw. case_decide; [subst|done]. destruct (cmp w); lia. }
  destruct I. split; try done.
  - intros v j x Hj Hx. rewrite Hna in Hj. case_decide; subst; [|by eapply inv_arcs0].
    destruct (decide (j = na p)) as [->|]; [congruence|]. eapply inv_arcs0; [|done]. lia.
  - intros v. rewrite Hna. case_decide; subst; [|done]. by apply lookup_lt_Some in Hw.
  - intros v Hv Hnd. rewrite Hna, decide_False by (by intros ->). by apply inv_black0.
  - intros v Hv. rewrite Hna. case_decide; subst; [|by apply inv_white0].
    apply inv_active0 in Hpa as [[? ?] _]. congruence.
  - intros v Hv. destruct (inv_low0 v Hv) as (Hlv & x & Hx & Hxn & Hr). split; [specialize (Hle v); lia|].
    rewrite Hlw. case_decide as E; [subst v|by exists x]. destruct (cmp w) eqn:Ec; [by exists x|].
    destruct (Nat.min_spec (lw p) (num idx w)) as [[_ ->]|[_ ->]]; [by exists x|].
    exists w. split; [by apply inv_active0|]. split; [done|]. apply rtc_once. by eapply adj_edge.
  - intros v u j x Hv Hu Hvu Htop Hj Hx Hxa. rewrite Hna in Hj.
    destruct (decide (u = p ∧ j = na p)) as [[-> ->]|Hold].
    + assert (v = p) as ->. { apply active_inj; [by apply inv_dfs0|done|]. specialize (Htop p Hp). lia. }
      replace x with w in * by congruence. rewrite Hlw, decide_True by done.
      destruct (cmp w) eqn:Ec; [|lia]. apply inv_active0 in Hxa as [_ ?]. congruence.
    + etransitivity; [apply Hle|]. apply (inv_seg0 v u j x); try done. case_decide; [subst|done].
      destruct (decide (j = na p)); [exfalso; apply Hold; by split|lia].
Qed.

(** * Finishing the node on top of the stack *)

Context (p : nat) (rest : list nat).
Hypothesis Hdfs : dfs = p :: rest.
Hypothesis Hdone : na p = length (adj arcs p).

Lemma top_gray : p ∈ dfs ∧ p ∈ active.
Proof using I Hdfs. split; [rewrite Hdfs; left|]. apply (inv_dfs _ _ _ _ _ _ _ I). rewrite Hdfs. left. Qed.

Lemma top_latest g : g ∈ dfs → num idx g ≤ num idx p ∧ (g ∈ rest → num idx g < num idx p).
Proof using I Hdfs Hdone.
  pose proof (inv_dsort _ _ _ _ _ _ _ I) as Hs. rewrite Hdfs in Hs |- *.
  intros [->|Hg]%elem_of_cons; [|pose proof (later_in _ _ _ _ Hs Hg); lia].
  split; [done|]. by apply later_in.
Qed.

(** An arc from a node that is not before the top leads to an active node, whose index
    [low] of the top bounds, or into a component. *)
Lemma seg_arc u w : u ∈ active → num idx p ≤ num idx u → edge u w →
  (w ∈ active ∧ lw p ≤ num idx w) ∨ is_Some (cmp w).
Proof using I Hdfs Hdone.
  intros Hu Hpu [j Hj]%list_elem_of_lookup. destruct top_gray as [Hp Hpa].
  assert (Hfull : na u = length (adj arcs u)).
  { destruct (decide (u = p)) as [->|Hne]; [done|]. apply (inv_black _ _ _ _ _ _ _ I).
    - by apply (inv_active _ _ _ _ _ _ _ I) in Hu as [? _].
    - intros Hud. destruct (top_latest u Hud). destruct Hne. apply active_inj; [done|done|lia]. }
  assert (Hju : j < na u) by (rewrite Hfull; by apply lookup_lt_Some in Hj).
  pose proof (inv_arcs _ _ _ _ _ _ _ I u j w Hju Hj) as Hw.
  destruct (cmp w) eqn:Ec; [right; by eexists|left]. assert (Hwa : w ∈ active) by (by apply I).
  split; [done|]. apply (inv_seg _ _ _ _ _ _ _ I p u j w); try done. intros g Hg _. by apply top_latest.
Qed.

(** ** A node that is not a root: its parent takes over *)

Lemma inv_finish (lw' : nat → nat) : lw p < num idx p →
  (∀ u, lw' u = if decide (head rest = Some u) then lw u `min` lw p else lw u) →
  inv idx cmp lw' na active rest serial ∧ rest ≠ [].
Proof using I Hdfs Hdone.
  intros Hlt Hlw. destruct top_gray as [Hp Hpa].
  destruct (inv_low _ _ _ _ _ _ _ I p Hp) as (_ & x & Hx & Hxn & Hpx).
  destruct (inv_gray _ _ _ _ _ _ _ I x Hx) as (gx & Hgx & Hgxn & Hxgx).
  assert (Hgrest : ∀ g, g ∈ dfs → num idx g < num idx p → g ∈ rest).
  { intros g. rewrite Hdfs. intros [->|?]%elem_of_cons; [lia|done]. }
  assert (Hgxr : gx ∈ rest) by (apply Hgrest; [done|lia]).
  assert (Hsub : ∀ g, g ∈ rest → g ∈ dfs) by (intros; rewrite Hdfs; by right).
  assert (Hle : ∀ u, lw' u ≤ lw u) by (intros u; rewrite Hlw; case_decide; lia).
  assert (Hhead : ∀ q, head rest = Some q → q ∈ rest ∧ ∀ g, g ∈ rest → num idx g ≤ num idx q).
  { intros q Hq. destruct rest as [|q' l]; [done|]. injection Hq as ->. split; [left|].
    pose proof (inv_dsort _ _ _ _ _ _ _ I) as Hs. rewrite Hdfs in Hs. apply StronglySorted_inv in Hs as [Hs _].
    intros g [->|Hg]%elem_of_cons; [done|]. pose proof (later_in _ _ _ _ Hs Hg). lia. }
  pose proof top_latest as Htop. pose proof seg_arc as Hseg. pose proof active_inj as Hinj.
  split; [|by intros ->; apply elem_of_nil in Hgxr]. destruct I. split; try done.
  - rewrite Hdfs in inv_dsort0. by apply StronglySorted_inv in inv_dsort0 as [? _].
  - intros u Hu. by apply inv_dfs0, Hsub.
  - intros u Hu. destruct (inv_gray0 u Hu) as (g & Hg & Hgn & Hr).
    destruct (decide (g = p)) as [->|Hne]; [|exists g; rewrite Hdfs in Hg; apply elem_of_cons in Hg as [?|?]; done].
    exists gx. split; [done|]. split; [lia|]. by trans p; [|trans x].
  - intros u Hu Hnd. destruct (decide (u = p)) as [->|Hne]; [done|]. apply inv_black0; [done|].
    rewrite Hdfs, elem_of_cons. naive_solver.
  - intros v Hv. destruct (inv_low0 v (Hsub v Hv)) as (Hlv & w & Hw & Hwn & Hr).
    split; [specialize (Hle v); lia|]. rewrite Hlw. case_decide as E; [|by exists w].
    destruct (Nat.min_spec (lw v) (lw p)) as [[_ ->]|[_ ->]]; [by exists w|]. exists x. split; [done|]. split; [done|].
    trans p; [|done]. apply inv_up0; [by apply inv_dfs0, Hsub|done|]. by apply Htop, Hsub.
  - intros v u j w Hv Hu Hvu Hmax Hj Hw Hwa.
    destruct (Nat.le_gt_cases (num idx p) (num idx u)) as [Hpu|Hpu].
    + destruct (Hseg u w Hu Hpu) as [[_ Hlp]|[k Hk]]; [by eapply adj_edge| |apply inv_active0 in Hwa as [_ ?]; congruence].
      destruct (head rest) as [q|] eqn:Eq; [|destruct rest; [by apply elem_of_nil in Hv|done]].
      destruct (Hhead q eq_refl) as [Hq Hqmax].
      assert (v = q) as ->.
      { apply Hinj; [by apply inv_dfs0, Hsub..|]. specialize (Hqmax v Hv).
        destruct (Htop q (Hsub q Hq)) as [Hqp _]. specialize (Hmax q Hq). lia. }
      rewrite Hlw, decide_True by done. lia.
    + etransitivity; [apply Hle|]. apply (inv_seg0 v u j w); try done; [by apply Hsub|].
      intros g. rewrite Hdfs. intros [->|Hg]%elem_of_cons; [lia|by apply Hmax].
Qed.

(** ** The root of a component *)

Lemma sorted_split (l1 l2 : list nat) x : StronglySorted (later idx) (l1 ++ x :: l2) →
  (∀ u, u ∈ l1 → num idx x < num idx u) ∧ (∀ u, u ∈ l2 → num idx u < num idx x).
Proof.
  induction l1 as [|y l1 IH]; simpl; intros [Hs Hall]%StronglySorted_inv; rewrite Forall_forall in Hall.
  - split; [by intros u ?%elem_of_nil|done].
  - destruct (IH Hs) as [H1 H2]. split; [|done]. intros u [->|Hu]%elem_of_cons; [|by apply H1].
    apply Hall. rewrite elem_of_app, elem_of_cons. auto.
Qed.

Section root.
Context (above below : list nat).
Hypothesis Hroot : lw p = num idx p.
Hypothesis Hact : active = above ++ p :: below.

Lemma root_split :
  (∀ u, u ∈ above ++ [p] ↔ u ∈ active ∧ num idx p ≤ num idx u) ∧
  (∀ u, u ∈ below ↔ u ∈ active ∧ num idx u < num idx p).
Proof using I Hact Hdone Hroot.
  pose proof (inv_asort _ _ _ _ _ _ _ I) as Hs. rewrite Hact in Hs. apply sorted_split in Hs as [Ha Hb].
  rewrite Hact. setoid_rewrite elem_of_app. setoid_rewrite elem_of_cons. setoid_rewrite elem_of_nil. split.
  - intros u. split; [intros [Hu|[->|[]]]|intros [[Hu|[->|Hu]] Hle]]; auto.
    + split; [by left|]. specialize (Ha u Hu). lia.
    + specialize (Hb u Hu). lia.
  - intros u. split; [intros Hu; split; auto|intros [[Hu|[->|Hu]] Hlt]]; auto; [specialize (Ha u Hu); lia|lia].
Qed.

(** Whatever the segment reaches is in the segment or in an earlier component. *)
Lemma root_closed u w : reach u w → u ∈ above ++ [p] → w ∈ above ++ [p] ∨ is_Some (cmp w).
Proof using I Hdfs Hdone Hroot Hact.
  intros Hr Hu. refine (rtc_ind_r (λ w, w ∈ above ++ [p] ∨ is_Some (cmp w)) u _ _ w Hr); [by left|].
  intros x y _ Hxy [Hx|[k Hk]].
  - apply root_split in Hx as [Hx Hxp]. destruct (seg_arc x y Hx Hxp Hxy) as [[Hy Hle]|?]; [left|by right].
    apply root_split. split; [done|lia].
  - right. destruct (inv_closed _ _ _ _ _ _ _ I x y k Hk Hxy) as (k' & ? & _). by eexists.
Qed.

Lemma root_strong u w : u ∈ above ++ [p] → w ∈ above ++ [p] → reach u w.
Proof using I Hdfs Hdone Hroot Hact.
  intros Hu Hw. destruct top_gray as [Hp Hpa]. apply root_split in Hw as [Hwa Hwp].
  trans p; [|by apply (inv_up _ _ _ _ _ _ _ I)].
  pose proof Hu as Hu2. apply root_split in Hu2 as [Hua Hup].
  destruct (inv_gray _ _ _ _ _ _ _ I u Hua) as (g & Hg & Hgn & Hr).
  destruct (root_closed u g Hr Hu) as [[Hga Hgp]%root_split|[k Hk]].
  - replace p with g; [done|]. apply active_inj; [done|done|]. destruct (top_latest g Hg). lia.
  - apply (inv_dfs _ _ _ _ _ _ _ I), (inv_active _ _ _ _ _ _ _ I) in Hg as [_ Hg]. congruence.
Qed.

Lemma inv_root k (cmp' : nat → option nat) (lw' : nat → nat) :
  (∀ u k', cmp u = Some k' → k' < k) →
  (∀ u, cmp' u = if decide (u ∈ above ++ [p]) then Some k else cmp u) →
  (∀ u, lw' u = if decide (head rest = Some u) then lw u `min` lw p else lw u) →
  inv idx cmp' lw' na below rest serial.
Proof using I Hdfs Hdone Hroot Hact.
  intros Hk Hcmp Hlw. destruct root_split as [Hseg Hbelow]. destruct top_gray as [Hp Hpa].
  assert (Hsub : ∀ g, g ∈ rest → g ∈ dfs ∧ num idx g < num idx p).
  { intros g Hg. assert (g ∈ dfs) by (rewrite Hdfs; by right). split; [done|]. by apply top_latest. }
  assert (Hlw' : ∀ u, u ∈ rest → lw' u = lw u).
  { intros u Hu. rewrite Hlw. case_decide; [|done]. destruct (Hsub u Hu) as [Hud Hun].
    destruct (inv_low _ _ _ _ _ _ _ I u Hud) as [Hlu _]. lia. }
  assert (Hrest : ∀ g, g ∈ dfs → num idx g < num idx p → g ∈ rest).
  { intros g. rewrite Hdfs. intros [->|?]%elem_of_cons; [lia|done]. }
  assert (Hold : ∀ u x, cmp u = Some x → cmp' u = Some x).
  { intros u x Hu. rewrite Hcmp, decide_False; [done|]. intros [Hua _]%Hseg.
    apply (inv_active _ _ _ _ _ _ _ I) in Hua as [_ ?]. congruence. }
  pose proof root_closed as Hclosed. pose proof root_strong as Hstrong. destruct I. split; try done.
  - intros u x. rewrite Hcmp. case_decide as E; [|by apply inv_cmp0].
    intros _. apply Hseg in E as [E _]. by apply inv_active0 in E as [? _].
  - intros u. rewrite Hbelow, inv_active0, Hcmp. case_decide as E.
    + apply Hseg in E as [_ E]. split; [lia|by intros [_ ?]].
    + split; [by intros [? _]|]. intros Hu. split; [done|]. destruct (Nat.le_gt_cases (num idx p) (num idx u)); [|done].
      destruct E. apply Hseg. split; [by apply inv_active0|done].
  - rewrite Hact in inv_asort0. apply StronglySorted_app_1_r in inv_asort0.
    by apply StronglySorted_inv in inv_asort0 as [? _].
  - rewrite Hdfs in inv_dsort0. by apply StronglySorted_inv in inv_dsort0 as [? _].
  - intros u [Hu Hun]%Hsub. apply Hbelow. split; [by apply inv_dfs0|done].
  - intros u w [Hu _]%Hbelow [Hw _]%Hbelow. by apply inv_up0.
  - intros u [Hu Hun]%Hbelow. destruct (inv_gray0 u Hu) as (g & Hg & Hgn & Hr). exists g.
    split; [apply Hrest; [done|lia]|done].
  - intros u Hu Hnd. destruct (decide (u = p)) as [->|Hne]; [done|]. apply inv_black0; [done|].
    rewrite Hdfs, elem_of_cons. naive_solver.
  - intros u w x. rewrite Hcmp. case_decide as E; intros [= <-] Huw || intros Hu Huw.
    + destruct (Hclosed u w (rtc_once _ _ Huw) E) as [Hw|[y Hy]].
      * exists k. by rewrite Hcmp, decide_True.
      * exists y. split; [by apply Hold|]. specialize (Hk w y Hy). lia.
    + destruct (inv_closed0 u w x Hu Huw) as (y & Hy & Hyx). exists y. split; [by apply Hold|done].
  - intros u w x. rewrite !Hcmp. repeat case_decide; intros Hu Hw; simplify_eq; try by eapply inv_scc0.
    + by apply Hstrong.
    + specialize (Hk w x Hw). lia.
    + specialize (Hk u x Hu). lia.
  - intros v Hv. rewrite (Hlw' v Hv). destruct (Hsub v Hv) as [Hvd Hvn].
    destruct (inv_low0 v Hvd) as (Hlv & x & Hx & Hxn & Hr). split; [done|]. exists x.
    split; [|done]. apply Hbelow. split; [done|lia].
  - intros v u j w Hv [Hu Hun]%Hbelow Hvu Hmax Hj Hw [Hwa _]%Hbelow. rewrite (Hlw' v Hv).
    apply (inv_seg0 v u j w); try done; [by apply Hsub|]. intros g Hg Hgu. apply Hmax; [|done]. apply Hrest; [done|lia].
Qed.

End root.
End facts.

(** ** The entries may be read in any way *)

Lemma inv_ext idx cmp lw na active dfs serial idx' cmp' lw' na' :
  inv idx cmp lw na active dfs serial →
  (∀ u, idx' u = idx u) → (∀ u, cmp' u = cmp u) → (∀ u, lw' u = lw u) → (∀ u, na' u = na u) →
  inv idx' cmp' lw' na' active dfs serial.
Proof.
  intros I Hi Hc Hl Hn. assert (Hnum : ∀ u, num idx' u = num idx u) by (intros; unfold num; by rewrite Hi).
  assert (Hs : ∀ l, StronglySorted (later idx) l → StronglySorted (later idx') l).
  { intros l. induction 1 as [|u l Hs IH Hall]; constructor; [done|]. eapply Forall_impl; [done|].
    intros w. unfold later. by rewrite !Hnum. }
  destruct I. split; intros *; rewrite ?Hi, ?Hc, ?Hl, ?Hn, ?Hnum; eauto.
  - intros Hu. destruct (inv_gray0 u Hu) as (q & Hq & Hqn & Hr). exists q. by rewrite Hnum.
  - intros Hv. destruct (inv_low0 v Hv) as (Hle & w & Hw & Hwn & Hr). split; [done|]. exists w. by rewrite Hnum.
  - intros Hv Hu Hvu Hmax. apply inv_seg0; try done. intros q Hq. specialize (Hmax q Hq). by rewrite !Hnum in Hmax.
Qed.

(** ** The start *)

Lemma inv_start : inv (λ _, None) (λ _, None) (λ _, 0) (λ _, 0) [] [] 0.
Proof.
  split; try done; try constructor; intros; try lia; try (exfalso; set_solver).
Qed.

End tarjan.
