(* ===== verification/TarjanTheorems.v ===== *)
(** The component search of [PlanGraph] ends, without a panic, in the strongly connected
    components of the graph, numbered in reverse topological order, in linear work. *)
From S2P Require Import Prelude PlanControl Counted Buckets PlanGraph PlanGraphTheorems TarjanFacts.

(** * Vectors *)

Lemma insert_total {A} `{!Inhabited A} (l : list A) i x u : i < length l →
  <[i := x]> l !!! u = if decide (u = i) then x else l !!! u.
Proof.
  intros Hi. rewrite list_lookup_total_insert. destruct (decide (u = i)) as [->|].
  - by rewrite decide_True.
  - by rewrite decide_False by (by intros [-> _]).
Qed.

Lemma total_some {A} (l : list (option A)) u x : l !!! u = Some x → u < length l.
Proof.
  rewrite list_lookup_total_alt. destruct (l !! u) eqn:E; [by intros _; eapply lookup_lt_Some|done].
Qed.

Definition seen {A} (o : option A) : nat := match o with Some _ => 1 | None => 0 end.

Lemma seen_le {A} (l : list (option A)) : sum_list_with seen l ≤ length l.
Proof. induction l as [|[] l IH]; simpl; lia. Qed.

Lemma sum_le_arcs (arcs : list (nat * nat)) (l : list nat) : (∀ i, l !!! i ≤ length (adj arcs i)) → sum_list l ≤ start arcs (length l).
Proof.
  induction l as [|x l IH] using rev_ind; intros H; [simpl; lia|].
  rewrite length_app, Nat.add_1_r, start_succ, sum_list_with_app. cbn [sum_list_with]. unfold id at 2.
  assert (Hx : x ≤ length (adj arcs (length l))) by (specialize (H (length l)); by rewrite list_lookup_total_middle in H).
  assert (sum_list l ≤ start arcs (length l)); [apply IH|lia].
  intros i. destruct (decide (i < length l)) as [Hi|Hi].
  - specialize (H i). by rewrite lookup_total_app_l in H by done.
  - rewrite list_lookup_total_alt, lookup_ge_None_2 by lia. simpl. lia.
Qed.

Lemma snoc_not_nil {A} (l : list A) x : l ++ [x] ≠ [].
Proof. by destruct l. Qed.

Lemma all_seen {A} (l : list (option A)) : (∀ u, u < length l → is_Some (l !!! u)) → sum_list_with seen l = length l.
Proof.
  induction l as [|o l IH]; intros H; [done|]. cbn. rewrite IH; [|intros u Hu; apply (H (S u)); simpl; lia].
  destruct (H 0) as [x Hx]; [simpl; lia|]. cbn in Hx. by subst.
Qed.

Lemma sum_full (arcs : list (nat * nat)) (l : list nat) : (∀ i, i < length l → l !!! i = length (adj arcs i)) → sum_list l = start arcs (length l).
Proof.
  induction l as [|x l IH] using rev_ind; intros H; [by rewrite start_zero|].
  rewrite length_app, Nat.add_1_r, start_succ, sum_list_with_app. cbn [sum_list_with]. unfold id at 2.
  rewrite length_app in H. cbn in H. specialize (IH ltac:(intros i Hi; rewrite <- (H i), lookup_total_app_l by lia; done)).
  specialize (H (length l) ltac:(lia)). rewrite list_lookup_total_middle in H by done. lia.
Qed.

Section search.
Context {S X : Type} (checkpoint : S → Z → X + S).
Context (g : PlanGraph) (n : nat) (arcs : list (nat * nat)).
Hypothesis G : graph_of g n arcs.
Abbreviation runs bad := (runs (graph_errs checkpoint bad)).
Abbreviation Search := PlanGraph.Search.

(** * The state of the search *)

Definition inv_of (t : Search) : Prop :=
  inv n arcs (λ u, index t !!! u) (λ u, comp t !!! u) (λ u, low t !!! u) (λ u, next_arc t !!! u)
    (active t) (dfs t) (serial t).

(** The components found so far, and where they are in the output. *)
Definition output (t : Search) (comps : list (list nat)) : Prop :=
  out_members t = concat comps ∧
  out_offsets t = (λ k, length (concat (take k comps))) <$> seq 0 (Datatypes.S (length comps)) ∧
  (∀ u k, comp t !!! u = Some k ↔ ∃ c, comps !! k = Some c ∧ u ∈ c) ∧
  NoDup (concat comps) ∧ Forall (λ c, c ≠ []) comps.

(** [p] nodes are finished. *)
Record good (t : Search) (comps : list (list nat)) (p : nat) : Prop := {
  good_comp : length (comp t) = n;
  good_index : length (index t) = n;
  good_low : length (low t) = n;
  good_next : length (next_arc t) = n;
  good_inv : inv_of t;
  good_output : output t comps;
  good_seen : sum_list_with seen (index t) = serial t;
  good_done : serial t = p + length (dfs t)
}.

(** What a state has cost. *)
Definition spent (t : Search) (p : nat) : GraphWork :=
  cost 0 0 (sum_list (next_arc t)) (sum_list (next_arc t) + p) (length (out_members t)).

Lemma good_bounds t comps p : good t comps p → sum_list (next_arc t) ≤ length arcs ∧ p ≤ n.
Proof using G.
  intros T. split.
  - rewrite <- (start_all n arcs), <- (good_next _ _ _ T) by apply arcs_ok_keys, G. apply sum_le_arcs, (good_inv _ _ _ T).
  - pose proof (seen_le (index t)). rewrite (good_seen _ _ _ T), (good_index _ _ _ T), (good_done _ _ _ T) in *. lia.
Qed.

Lemma adj_range v w : w ∈ adj arcs v → w < n.
Proof using G.
  unfold adj. intros ([a b] & -> & [_ Hin]%list_elem_of_filter)%list_elem_of_fmap.
  pose proof (graph_arcs _ _ _ G) as Hok. unfold arcs_ok in Hok. rewrite Forall_forall in Hok. by apply (Hok (a, b)).
Qed.

Lemma gray_range t comps p v rest : good t comps p → dfs t = v :: rest → v < n ∧ ∃ i, index t !!! v = Some i.
Proof using G.
  intros T Hd. pose proof (good_inv _ _ _ T) as I. destruct (active_index _ _ I v) as (i & Hi & _ & _ & Hv).
  - apply (inv_dfs _ _ _ _ _ _ _ _ _ I). rewrite Hd. left.
  - split; [done|by exists i].
Qed.

(** ** Discovering a node *)

Lemma discover_good t comps p v : good t comps p → v < n → index t !!! v = None →
  (∀ u, u ∈ active t → rtc (edge arcs) u v) →
  ∃ t', discover (X := X) v t = Ok t' ∧ good t' comps p ∧ dfs t' = v :: dfs t ∧ next_arc t' = next_arc t ∧
    out_members t' = out_members t ∧ index t' = <[v := Some (serial t)]> (index t) ∧
    low t' = <[v := serial t]> (low t) ∧ comp t' = comp t.
Proof using G.
  intros [Hc Hi Hl Hn I Hout Hseen Hdone] Hv Hnone Hreach. unfold discover.
  rewrite !vec_set_ok by lia. cbn [mbind result_bind]. eexists. split; [done|]. split; [|done].
  split; simpl; rewrite ?length_insert; try done.
  - unfold inv_of. cbn. eapply inv_discover; [exact I|done|done|done|by intros; cbn beta; rewrite insert_total by lia..].
  - pose proof (sum_list_insert seen (index t) v None (Some (serial t))) as Hs. simpl in Hs.
    rewrite (list_lookup_lookup_total_lt _ v), Hnone in Hs by lia. specialize (Hs eq_refl). lia.
  - lia.
Qed.

(** ** Following an arc *)

Lemma sum_next v t : v < length (next_arc t) →
  sum_list (<[v := next_arc t !!! v + 1]> (next_arc t)) = Datatypes.S (sum_list (next_arc t)).
Proof.
  intros Hv. pose proof (sum_list_insert id (next_arc t) v (next_arc t !!! v) (next_arc t !!! v + 1)) as Hs.
  rewrite (list_lookup_lookup_total_lt _ v) in Hs by lia. specialize (Hs eq_refl). unfold id in Hs at 2 4. lia.
Qed.

(** [next_arc[v] += 1] and [low[v] = low[v].min(l)], when the node at hand is seen. *)
Lemma advance_good t comps p v w low' : good t comps p → v ∈ dfs t →
  adj arcs v !! (next_arc t !!! v) = Some w → is_Some (index t !!! w) →
  length low' = n →
  (∀ u, low' !!! u = if decide (u = v) then match comp t !!! w with
      Some _ => low t !!! v | None => (low t !!! v) `min` num (λ u, index t !!! u) w end else low t !!! u) →
  good {| comp := comp t; out_members := out_members t; out_offsets := out_offsets t;
          index := index t; low := low'; next_arc := <[v := next_arc t !!! v + 1]> (next_arc t);
          active := active t; dfs := dfs t; serial := serial t |} comps p ∧
  sum_list (<[v := next_arc t !!! v + 1]> (next_arc t)) = Datatypes.S (sum_list (next_arc t)).
Proof using G.
  intros [Hc Hi Hl Hn I Hout Hseen Hdone] Hv Hw Hseenw Hlen Hlow.
  assert (Hvn : v < n).
  { destruct (active_index _ _ I v) as (i & _ & _ & _ & ?); [by apply (inv_dfs _ _ _ _ _ _ _ _ _ I)|done]. }
  split; [|apply sum_next; lia]. split; simpl; rewrite ?length_insert; try done.
  unfold inv_of. cbn. eapply (inv_advance _ _ I v w); [exact Hv|exact Hw|exact Hseenw| |exact Hlow].
  intros u. cbn beta. rewrite insert_total, Nat.add_1_r by lia. done.
Qed.

Lemma follow_good t comps p v rest w : good t comps p → dfs t = v :: rest →
  adj arcs v !! (next_arc t !!! v) = Some w →
  ∃ t', follow (X := X) v w t = Ok t' ∧ good t' comps p ∧
    sum_list (next_arc t') = Datatypes.S (sum_list (next_arc t)) ∧ out_members t' = out_members t ∧
    (∀ u, is_Some (index t !!! u) → is_Some (index t' !!! u)).
Proof using G.
  intros T Hd Hw. destruct (gray_range _ _ _ _ _ T Hd) as [Hvn (iv & Hiv)].
  assert (Hwn : w < n) by (eapply adj_range, list_elem_of_lookup_2; done).
  pose proof T as [Hc Hi Hl Hn I _ _ _]. unfold follow, advance.
  rewrite vec_get_ok by lia. cbn [mbind result_bind]. rewrite vec_set_ok by lia. cbn [mbind result_bind index].
  rewrite (vec_get_ok (index t) w) by lia. cbn [mbind result_bind].
  assert (Hvd : v ∈ dfs t) by (rewrite Hd; left).
  destruct (index t !!! w) as [iw|] eqn:Hiw.
  - cbn [comp]. rewrite vec_get_ok by lia. cbn [mbind result_bind].
    destruct (comp t !!! w) as [k|] eqn:Hcw.
    + destruct (advance_good t comps p v w (low t) T Hvd Hw) as [T' Hs]; [by rewrite Hiw|done| |].
      { intros u. rewrite Hcw. by case_decide; subst. }
      eexists. split; [done|]. split; [exact T'|]. cbn. split; [exact Hs|done].
    + unfold lower. cbn [low]. rewrite vec_get_ok by lia. cbn [mbind result_bind]. rewrite vec_set_ok by lia.
      cbn [mbind result_bind].
      destruct (advance_good t comps p v w (<[v := (low t !!! v) `min` iw]> (low t)) T Hvd Hw) as [T' Hs];
        [by rewrite Hiw|by rewrite length_insert| |].
      { intros u. rewrite insert_total, Hcw by lia. unfold num. by rewrite Hiw. }
      eexists. split; [done|]. split; [exact T'|]. cbn. split; [exact Hs|done].
  - destruct (discover_good t comps p w T Hwn Hiw) as (t1 & Hrun & T1 & Hd1 & Hn1 & Hm1 & Hi1 & Hl1 & Hc1).
    { intros u Hu. trans v; [|by apply rtc_once, (adj_edge _ _ _ _ Hw)].
      destruct (inv_gray _ _ _ _ _ _ _ _ _ I u Hu) as (gu & Hgu & Hgn & Hr). trans gu; [done|].
      apply (inv_up _ _ _ _ _ _ _ _ _ I); [by apply (inv_dfs _ _ _ _ _ _ _ _ _ I)..|].
      pose proof (inv_dsort _ _ _ _ _ _ _ _ _ I) as Hs. rewrite Hd in Hs, Hgu.
      apply elem_of_cons in Hgu as [->|Hgu]; [done|]. pose proof (later_in _ _ _ _ Hs Hgu). lia. }
    unfold discover in *. cbn [index low comp out_members out_offsets next_arc active dfs serial].
    rewrite vec_set_ok in Hrun |- * by lia. cbn [mbind result_bind] in Hrun |- *.
    rewrite vec_set_ok in Hrun |- * by lia. cbn [mbind result_bind] in Hrun |- *. injection Hrun as Hrun.
    destruct (advance_good t1 comps p v w (low t1) T1) as [T' Hs].
    + rewrite Hd1. by right.
    + by rewrite Hn1.
    + rewrite Hi1, insert_total, decide_True by lia. by eexists.
    + apply T1.
    + intros u. case_decide as E; [subst u|done]. destruct (comp t1 !!! w); [done|].
      unfold num. rewrite Hi1, Hl1, !insert_total by lia. destruct (decide (v = w)) as [->|_]; [congruence|].
      rewrite decide_True by done. cbn.
      destruct (inv_low _ _ _ _ _ _ _ _ _ I v Hvd) as [Hlv _]. cbn beta in Hlv. unfold num in Hlv. rewrite Hiv in Hlv. cbn in Hlv.
      destruct (inv_idx _ _ _ _ _ _ _ _ _ I v iv Hiv). lia.
    + eexists. split; [done|]. rewrite <- Hrun in T', Hs. cbn in T', Hs. split; [exact T'|]. cbn. split; [exact Hs|]. split; [done|].
      intros u Hu. rewrite insert_total by lia. by case_decide.
Qed.

(** ** Finishing a node *)

Lemma runs_pop v k below : ∀ above comp0 members0, v ∉ above →
  (∀ u, u ∈ above ++ [v] → u < length comp0) →
  runs False (pop_members checkpoint v k (above ++ v :: below) comp0 members0) (λ r w,
    r.1.1 = below ∧ length r.1.2 = length comp0 ∧
    (∀ u, r.1.2 !!! u = if decide (u ∈ above ++ [v]) then Some k else comp0 !!! u) ∧
    r.2 = members0 ++ above ++ [v] ∧ w = cost 0 0 0 0 (length above + 1)).
Proof using G.
  intros above. induction above as [|a above IH]; intros comp0 members0 Hv Hlen; cbn [app PlanGraph.pop_members].
  - run_member. eapply runs_lift; [apply vec_set_ok, Hlen; left|]. rewrite (proj2 (Nat.eqb_eq v v)) by done.
    apply runs_ret. cbn. split_and!; [done|by rewrite length_insert| |done|by rewrite add_no_work].
    intros u. rewrite insert_total by (apply Hlen; left). apply decide_ext. set_solver.
  - apply not_elem_of_cons in Hv as [Hva Hv].
    run_member. eapply runs_lift; [apply vec_set_ok, Hlen; left|]. rewrite (proj2 (Nat.eqb_neq a v)) by done.
    eapply runs_weaken; [apply IH; [done|]|].
    + intros u Hu. rewrite length_insert. apply Hlen. by right.
    + intros [[b c] m] w. cbn. rewrite length_insert. intros (-> & -> & Hc & -> & ->).
      split_and!; [done|done| |by rewrite <- app_assoc|by rewrite cost_add].
      intros u. rewrite Hc, insert_total by (apply Hlen; left).
      destruct (decide (u ∈ above ++ [v])), (decide (u = a)), (decide (u ∈ a :: above ++ [v])); try done; set_solver.
Qed.

Lemma output_push t comps c (comp' : list (option nat)) : output t comps → NoDup c → c ≠ [] →
  (∀ u, u ∈ c → comp t !!! u = None) →
  (∀ u, comp' !!! u = if decide (u ∈ c) then Some (length comps) else comp t !!! u) →
  concat (comps ++ [c]) = out_members t ++ c ∧
  out_offsets t ++ [length (out_members t ++ c)] =
    (λ k, length (concat (take k (comps ++ [c])))) <$> seq 0 (Datatypes.S (length (comps ++ [c]))) ∧
  (∀ u k, comp' !!! u = Some k ↔ ∃ c', (comps ++ [c]) !! k = Some c' ∧ u ∈ c') ∧
  NoDup (concat (comps ++ [c])) ∧ Forall (λ c, c ≠ []) (comps ++ [c]).
Proof using G.
  intros (Hm & Ho & Hc & Hnd & Hne) Hndc Hcne Hnone Hcomp'.
  assert (Hcat : concat (comps ++ [c]) = out_members t ++ c) by (rewrite concat_app, Hm; simpl; by rewrite app_nil_r).
  split_and!; [done| | | |].
  - replace (length (comps ++ [c])) with (Datatypes.S (length comps)) by (rewrite length_app; simpl; lia).
    rewrite (seq_S (Datatypes.S _)), fmap_app. f_equal.
    + rewrite Ho. apply list_fmap_ext. intros i k Hk.
      apply lookup_seq in Hk as [-> Hk]. rewrite take_app_le by lia. done.
    + simpl. rewrite take_ge by (rewrite length_app; simpl; lia). by rewrite Hcat.
  - intros u k. rewrite Hcomp'. case_decide as E.
    + split.
      * intros [= <-]. exists c. split; [by apply list_lookup_middle|done].
      * intros (c' & [Hk|[Hk Hk']]%lookup_app_Some & Hu).
        { exfalso. specialize (Hnone u E). assert (comp t !!! u = Some k) by (apply Hc; by exists c'). congruence. }
        apply list_lookup_singleton_Some in Hk' as [Hk' _]. f_equal. lia.
    + rewrite Hc. split.
      * intros (c' & Hk & Hu). exists c'. split; [by apply lookup_app_l_Some|done].
      * intros (c' & [Hk|[_ Hk']]%lookup_app_Some & Hu); [by exists c'|].
        by apply list_lookup_singleton_Some in Hk' as [_ <-].
  - rewrite Hcat. apply NoDup_app. split; [by rewrite Hm|]. split; [|done].
    intros u Hu Huc. rewrite Hm in Hu. apply list_elem_of_In, in_concat in Hu as (c' & Hin%list_elem_of_In & Hu%list_elem_of_In).
    apply list_elem_of_lookup in Hin as [k Hk]. specialize (Hnone u Huc).
    assert (comp t !!! u = Some k) by (apply Hc; by exists c'). congruence.
  - apply Forall_app. split; [done|]. by constructor.
Qed.

(** The parent's [low], after the node has left the stack. *)
Lemma runs_parent t v rest : length (low t) = n → dfs t = rest → (∀ u, u ∈ rest → u < n) → v < n →
  runs False (match dfs t with
              | parent :: _ => l ← lift (vec_get (low t) v); lift (lower parent l t)
              | [] => mret t
              end : counted S (GraphError X) GraphWork Search) (λ t' w, w = no_work ∧ length (low t') = n ∧
    (∀ u, low t' !!! u = if decide (head rest = Some u) then (low t !!! u) `min` (low t !!! v) else low t !!! u) ∧
    t' = {| comp := comp t; out_members := out_members t; out_offsets := out_offsets t; index := index t;
            low := low t'; next_arc := next_arc t; active := active t; dfs := dfs t; serial := serial t |}).
Proof using G.
  intros Hl Hd Hr Hv. rewrite Hd. destruct rest as [|q rest].
  - apply runs_ret. split_and!; [done|done|done|destruct t; simpl in *; by subst].
  - assert (Hq : q < n) by (apply Hr; left).
    eapply runs_lift; [apply vec_get_ok; lia|]. unfold lower. rewrite vec_get_ok by lia. cbn [mbind result_bind].
    rewrite vec_set_ok by lia. cbn [mbind result_bind]. eapply runs_lift_tail; [done|]. cbn.
    rewrite length_insert, Hd. split_and!; [done|done| |done].
    intros u. rewrite insert_total by lia. destruct (decide (u = q)) as [->|Hne]; [by rewrite decide_True|].
    by rewrite decide_False by congruence.
Qed.

Lemma finish_good t comps p v rest : good t comps p → dfs t = v :: rest →
  next_arc t !!! v = length (adj arcs v) →
  runs False (finish checkpoint v t) (λ t' w, ∃ comps' m, good t' comps' (Datatypes.S p) ∧
    next_arc t' = next_arc t ∧ index t' = index t ∧
    length (out_members t') = length (out_members t) + m ∧ w = cost 0 0 0 0 m).
Proof using G.
  intros T Hd Hdone. destruct (gray_range _ _ _ _ _ T Hd) as [Hvn (iv & Hiv)].
  pose proof T as [Hc Hi Hl Hn I Hout Hseen Hp].
  assert (Hrange : ∀ u, u ∈ active t → u < n).
  { intros u Hu. by destruct (active_index _ _ I u Hu) as (? & _ & _ & _ & ?). }
  assert (Hrest : ∀ u, u ∈ rest → u < n).
  { intros u Hu. apply Hrange, (inv_dfs _ _ _ _ _ _ _ _ _ I). rewrite Hd. by right. }
  assert (Hva : v ∈ active t) by (apply (inv_dfs _ _ _ _ _ _ _ _ _ I); rewrite Hd; left).
  unfold finish. eapply runs_lift; [apply vec_get_ok; lia|]. eapply runs_lift; [apply vec_get_ok; lia|].
  rewrite Hiv. assert (Hnum : num (λ u, index t !!! u) v = iv) by (unfold num; by rewrite Hiv).
  destruct (inv_low _ _ _ _ _ _ _ _ _ I v) as [Hle _]; [rewrite Hd; left|]. cbn beta in Hle. rewrite Hnum in Hle.
  rewrite Hd in Hp. simpl in Hp.
  destruct (decide (Some (low t !!! v) = Some iv)) as [[= Heq]|Hne].
  - destruct (list_elem_of_split_l _ _ Hva) as (above & below & Hact & Hnv).
    assert (Hk : length (out_offsets t) - 1 = length comps).
    { destruct Hout as (_ & -> & _). rewrite length_fmap, length_seq. lia. }
    rewrite Hk, Hact.
    assert (Hab : ∀ u, u ∈ above ++ [v] → u ∈ active t) by (intros u; rewrite Hact; set_solver).
    assert (Hndc : NoDup (above ++ [v])).
    { pose proof (later_nodup _ _ (inv_asort _ _ _ _ _ _ _ _ _ I)) as Hnd. rewrite Hact, cons_middle, app_assoc in Hnd.
      by apply NoDup_app in Hnd as [? _]. }
    assert (Hnone : ∀ u, u ∈ above ++ [v] → comp t !!! u = None).
    { intros u Hu%Hab. by apply (inv_active _ _ _ _ _ _ _ _ _ I) in Hu as [_ ?]. }
    eapply runs_bind with (Q1 := λ t1 w, w = cost 0 0 0 0 (length above + 1) ∧
      ∃ comp', length comp' = n ∧ (∀ u, comp' !!! u = if decide (u ∈ above ++ [v]) then Some (length comps) else comp t !!! u) ∧
      t1 = {| comp := comp'; out_members := out_members t ++ above ++ [v];
              out_offsets := out_offsets t ++ [length (out_members t ++ above ++ [v])];
              index := index t; low := low t; next_arc := next_arc t; active := below; dfs := rest; serial := serial t |}).
    { eapply runs_bind; [apply runs_pop; [done|]|].
      - intros u Hu. rewrite Hc. by apply Hrange, Hab.
      - intros [[stack comp'] members] w. cbn. intros (-> & Hlc & Hcomp' & -> & ->). apply runs_ret.
        rewrite add_no_work, Hd. split; [done|]. exists comp'. split_and!; [lia|done|done]. }
    intros t1 w1 (-> & comp' & Hlc & Hcomp' & ->).
    destruct (output_push t comps (above ++ [v]) comp' Hout Hndc (snoc_not_nil above v) Hnone Hcomp') as (Hm & Ho & Hcc & Hnd & Hne).
    eapply runs_weaken; [apply (runs_parent _ v rest); cbn; done|].
    intros t' w (-> & Hll & Hlow & ->). cbn in Hlow, Hll |- *. exists (comps ++ [above ++ [v]]), (length above + 1).
    rewrite add_no_work. refine (conj _ (conj eq_refl (conj eq_refl (conj _ eq_refl)))); [|rewrite !length_app; simpl; lia].
    split; cbn; try done; [|lia].
    unfold inv_of. cbn.
    eapply (inv_root _ _ I v rest Hd Hdone above below); [cbn beta; congruence|done| |exact Hcomp'|exact Hlow].
    intros u k Hu. destruct Hout as (_ & _ & Hcm & _). apply Hcm in Hu as (c & Hin & _). by apply lookup_lt_Some in Hin.
  - assert (Hlt : low t !!! v < iv) by (assert (low t !!! v ≠ iv) by congruence; lia).
    apply runs_bind with (λ t1 w, w = no_work ∧ t1 = {| comp := comp t; out_members := out_members t; out_offsets := out_offsets t;
      index := index t; low := low t; next_arc := next_arc t; active := active t; dfs := rest; serial := serial t |}).
    { apply runs_ret. by rewrite Hd. }
    intros t1 w1 [-> ->]. eapply runs_weaken; [apply (runs_parent _ v rest); cbn; done|].
    intros t' w (-> & Hll & Hlow & ->). cbn in Hlow, Hll |- *. exists comps, 0.
    refine (conj _ (conj eq_refl (conj eq_refl (conj _ eq_refl)))); [|lia]. split; cbn; try done; [|lia].
    unfold inv_of. cbn. eapply (inv_finish _ _ I v rest Hd Hdone); [cbn beta; rewrite Hnum; done|exact Hlow].
Qed.

(** * The loops *)

(** Work left: arcs to follow and nodes to finish. *)
Definition left_over (t : Search) (p : nat) : nat := (length arcs - sum_list (next_arc t)) + (n - p).

Lemma runs_search fuel : ∀ t comps p, good t comps p → left_over t p ≤ fuel →
  runs False (search_loop checkpoint g fuel t) (λ t' w, ∃ comps' p', good t' comps' p' ∧ dfs t' = [] ∧
    (∀ u, is_Some (index t !!! u) → is_Some (index t' !!! u)) ∧ add_work (spent t p) w = spent t' p').
Proof using G.
  induction fuel as [|fuel IH]; intros t comps p T Hf; cbn [search_loop]; destruct (dfs t) as [|v rest] eqn:Hd.
  1,3: apply runs_ret; exists comps, p; by rewrite add_no_work.
  - destruct (good_bounds _ _ _ T) as [Hb1 Hb2]. unfold left_over in Hf.
    pose proof (seen_le (index t)) as Hs. rewrite (good_seen _ _ _ T), (good_index _ _ _ T), (good_done _ _ _ T), Hd in Hs.
    simpl in Hs. lia.
  - destruct (gray_range _ _ _ _ _ T Hd) as [Hvn _]. run_dfs.
    eapply runs_lift; [by apply (graph_successors _ _ _ G)|].
    eapply runs_lift; [apply vec_get_ok; rewrite (good_next _ _ _ T); lia|].
    destruct (Nat.ltb_spec (next_arc t !!! v) (length (adj arcs v))) as [Hj|Hj].
    + run_edge. destruct (lookup_lt_is_Some_2 _ _ Hj) as [w Hw].
      eapply runs_lift; [unfold vec_get; by rewrite Hw|].
      destruct (follow_good t comps p v rest w T Hd Hw) as (t' & Hrun & T' & Hsum & Hm & Hmono).
      eapply runs_lift; [exact Hrun|]. destruct (good_bounds _ _ _ T') as [Hb1 Hb2].
      eapply runs_weaken; [apply (IH t' comps p T'); unfold left_over in *; lia|].
      cbn. intros t2 w2 (comps2 & p2 & T2 & Hd2 & Hmono2 & Hcost). exists comps2, p2.
      split; [done|]. split; [done|]. split; [auto|]. rewrite <- Hcost, !add_work_assoc. f_equal. unfold spent.
      rewrite Hsum, Hm, !cost_add. f_equal; lia.
    + assert (Hdone : next_arc t !!! v = length (adj arcs v)).
      { pose proof (inv_na _ _ _ _ _ _ _ _ _ (good_inv _ _ _ T) v). cbn in *. lia. }
      eapply runs_bind; [by apply (finish_good t comps p v rest)|].
      cbn. intros t' w1 (comps' & m & T' & Hn' & Hi' & Hm' & ->). destruct (good_bounds _ _ _ T') as [Hb1 Hb2].
      eapply runs_weaken; [apply (IH t' comps' (Datatypes.S p) T'); unfold left_over in *; rewrite Hn' in *; lia|].
      cbn. intros t2 w2 (comps2 & p2 & T2 & Hd2 & Hmono2 & Hcost). exists comps2, p2. rewrite Hi' in Hmono2.
      split; [done|]. split; [done|]. split; [done|]. rewrite <- Hcost, !add_work_assoc. f_equal. unfold spent.
      rewrite Hn', Hm', !cost_add. f_equal; lia.
Qed.

Lemma runs_roots m : ∀ k t comps p, k + m = n → good t comps p → dfs t = [] →
  (∀ u, u < k → is_Some (index t !!! u)) →
  runs False (roots checkpoint g (seq k m) t) (λ t' w, ∃ comps' p', good t' comps' p' ∧ dfs t' = [] ∧
    (∀ u, u < n → is_Some (index t' !!! u)) ∧ add_work (spent t p) w = add_work (spent t' p') (cost 0 m 0 0 0)).
Proof using G.
  induction m as [|m IH]; intros k t comps p Hk T Hd Hseen; cbn [seq roots].
  - apply runs_ret. exists comps, p. rewrite Nat.add_0_r in Hk. subst. change (cost 0 0 0 0 0) with no_work. done.
  - run_vertex. eapply runs_lift; [apply vec_get_ok; rewrite (good_index _ _ _ T); lia|].
    destruct (index t !!! k) as [i|] eqn:Hi.
    + eapply runs_weaken; [apply (IH (Datatypes.S k) t comps p); [lia|done|done|]|].
      * intros u Hu. destruct (decide (u = k)) as [->|]; [by rewrite Hi|]. apply Hseen. lia.
      * cbn. intros t' w (comps' & p' & T' & Hd' & Hs' & Hc). exists comps', p'. split; [done|]. split; [done|]. split; [done|].
        rewrite add_work_assoc, (add_work_comm (spent t p)), <- add_work_assoc, Hc. unfold spent. rewrite !cost_add. f_equal; lia.
    + destruct (discover_good t comps p k T) as (t1 & Hrun & T1 & Hd1 & Hn1 & Hm1 & Hi1 & _ & _); [lia|done| |].
      { pose proof (no_gray _ _ (good_inv _ _ _ T) Hd) as ->. by intros u ?%elem_of_nil. }
      eapply runs_lift; [exact Hrun|]. destruct (good_bounds _ _ _ T1) as [Hb1 Hb2].
      eapply runs_bind; [apply (runs_search (search_fuel g) t1 comps p T1)|].
      { unfold left_over, search_fuel. rewrite (graph_targets _ _ _ G), (graph_node_count _ _ _ G). lia. }
      cbn. intros t2 w2 (comps2 & p2 & T2 & Hd2 & Hmono2 & Hcost).
      eapply runs_weaken; [apply (IH (Datatypes.S k) t2 comps2 p2); [lia|done|done|]|].
      * intros u Hu. apply Hmono2. rewrite Hi1, insert_total by (rewrite (good_index _ _ _ T); lia).
        case_decide; [done|]. apply Hseen. lia.
      * cbn. intros t' w (comps' & p' & T' & Hd' & Hs' & Hc). exists comps', p'. split; [done|]. split; [done|]. split; [done|].
        assert (Hsp : spent t1 p = spent t p) by (unfold spent; by rewrite Hn1, Hm1).
        rewrite Hsp in Hcost.
        rewrite add_work_assoc, (add_work_comm (spent t p)), <- add_work_assoc, (add_work_assoc (spent t p)), Hcost, Hc.
        unfold spent. rewrite !cost_add. f_equal; lia.
Qed.

(** * The search as a whole *)

(** At the end every node has a component. *)
Lemma all_components t comps p u : good t comps p → dfs t = [] → is_Some (index t !!! u) → ∃ k, comp t !!! u = Some k.
Proof using G.
  intros T Hd Hu. destruct (comp t !!! u) as [k|] eqn:E; [by exists k|]. exfalso.
  assert (Ha : u ∈ active t) by (apply (inv_active _ _ _ _ _ _ _ _ _ (good_inv _ _ _ T)); done).
  rewrite (no_gray _ _ (good_inv _ _ _ T) Hd) in Ha. by apply elem_of_nil in Ha.
Qed.

Lemma out_length t comps p : good t comps p → dfs t = [] → (∀ u, u < n → is_Some (index t !!! u)) →
  length (out_members t) = n.
Proof using G.
  intros T Hd Hseen. destruct (good_output _ _ _ T) as (Hm & _ & Hc & Hnd & _). rewrite Hm.
  assert (Hp : concat comps ≡ₚ seq 0 n); [|by rewrite Hp, length_seq]. apply NoDup_Permutation; [done|apply NoDup_seq|].
  intros u. rewrite elem_of_seq. split.
  - intros (c & Hin%list_elem_of_In & Hu%list_elem_of_In)%list_elem_of_In%in_concat.
    apply list_elem_of_lookup in Hin as [k Hk]. assert (Hcu : comp t !!! u = Some k) by (apply Hc; by exists c).
    apply total_some in Hcu. rewrite (good_comp _ _ _ T) in Hcu. lia.
  - intros [_ Hu]. destruct (all_components t comps p u T Hd (Hseen u Hu)) as [k Hk].
    apply Hc in Hk as (c & Hk & Huc). apply list_elem_of_In, in_concat. exists c.
    split; [apply list_elem_of_In; by eapply list_elem_of_lookup_2|by apply list_elem_of_In].
Qed.

Definition start_search : Search :=
  {| comp := replicate n None; out_members := []; out_offsets := [0]; index := replicate n None;
     low := replicate n 0; next_arc := replicate n 0; active := []; dfs := []; serial := 0 |}.

Lemma total_replicate {A} `{!Inhabited A} m u (x : A) : x = inhabitant → replicate m x !!! u = x.
Proof using Type.
  intros ->. rewrite list_lookup_total_alt. destruct (replicate _ _ !! u) eqn:E; [|done].
  by apply lookup_replicate in E as [-> _].
Qed.

Lemma start_good : good start_search [] 0.
Proof using G.
  split; cbn; rewrite ?length_replicate; try done.
  - unfold inv_of. cbn. eapply inv_ext; [apply (inv_start n arcs)|intros u; cbn beta..].
    all: by apply total_replicate.
  - split; [done|]. split; [done|]. split; [|split; constructor]. intros u k. cbn.
    rewrite (total_replicate n u None) by done. split; [done|]. by intros (c & ? & _).
  - clear. induction n; [done|]. done.
Qed.

Lemma runs_components : runs False (components_counted checkpoint g) (λ t w, ∃ comps,
  good t comps n ∧ dfs t = [] ∧ (∀ u, u < n → is_Some (index t !!! u)) ∧
  w = cost (4 * n + 1) n (length arcs) (n + length arcs) n).
Proof using G.
  unfold components_counted. rewrite (graph_node_count _ _ _ G).
  eapply runs_bind; [apply runs_graph_fill|]. cbn beta. intros c w1 [-> ->]. eapply runs_bind; [apply runs_graph_fill|]. cbn beta. intros i w2 [-> ->].
  eapply runs_bind; [apply runs_graph_fill|]. cbn beta. intros l w3 [-> ->]. eapply runs_bind; [apply runs_graph_fill|]. cbn beta. intros a w4 [-> ->].
  eapply runs_bind; [apply runs_graph_fill|]. cbn beta. intros o w5 [-> ->].
  eapply runs_bind; [apply (runs_roots n 0 start_search [] 0); [done|apply start_good|done|lia]|].
  cbn beta. intros t w6 (comps & p & T & Hd & Hseen & Hcost). refine (runs_flush checkpoint _ _ _ _).
  pose proof (good_done _ _ _ T) as Hp. rewrite Hd, Nat.add_0_r in Hp.
  assert (Hn : sum_list_with seen (index t) = n).
  { transitivity (length (index t)); [|apply T]. apply all_seen. intros u Hu. apply Hseen. by rewrite (good_index _ _ _ T) in Hu. }
  rewrite (good_seen _ _ _ T) in Hn. assert (p = n) as -> by lia.
  assert (Hsum : sum_list (next_arc t) = length arcs).
  { rewrite <- (start_all n arcs), <- (good_next _ _ _ T) by apply arcs_ok_keys, G. apply sum_full.
    intros u Hu. rewrite (good_next _ _ _ T) in Hu. apply (inv_black _ _ _ _ _ _ _ _ _ (good_inv _ _ _ T)); [by apply Hseen|].
    rewrite Hd. by intros ?%elem_of_nil. }
  assert (Hmem : length (out_members t) = n).
  { by apply (out_length t comps n). }
  exists comps. split; [done|]. split; [done|]. split; [done|].
  unfold spent in Hcost. cbn in Hcost. rewrite Hsum, Hmem in Hcost.
  replace (sum_list (replicate n 0)) with 0 in Hcost by (clear; induction n; done).
  change (cost 0 0 0 (0 + 0) 0) with no_work in Hcost. rewrite no_work_add in Hcost. rewrite Hcost, !add_no_work, !cost_add.
  f_equal; lia.
Qed.

(** ** What is returned *)

Lemma members_of E t comps k w pk : output t comps → k < length comps →
  members (E := E) {| component_of := comp t; cmembers := out_members t; coffsets := out_offsets t; cwork := w; cpeak := pk |} k =
    Ok (comps !!! k).
Proof using G.
  intros (Hm & Ho & _) Hk. unfold members. cbn. rewrite Hm, Ho.
  assert (Hoff : ∀ i, i ≤ length comps → ((λ k, length (concat (take k comps))) <$> seq 0 (Datatypes.S (length comps))) !! i =
    Some (length (concat (take i comps)))).
  { intros i Hi. rewrite list_lookup_fmap, lookup_seq_lt by lia. done. }
  unfold vec_get. rewrite !Hoff by lia. cbn [expect mbind result_bind].
  destruct (lookup_lt_is_Some_2 comps k Hk) as [c Hc]. rewrite (list_lookup_total_correct _ _ _ Hc).
  rewrite Nat.add_1_r, (take_S_r _ _ _ Hc), concat_app. cbn [concat]. rewrite app_nil_r, length_app.
  assert (Hcat : concat comps = concat (take k comps) ++ c ++ concat (drop (Datatypes.S k) comps)).
  { rewrite <- (take_drop_middle comps k c Hc) at 1. by rewrite concat_app. }
  rewrite vec_slice_ok by (rewrite Hcat, !length_app; lia). f_equal.
  rewrite Hcat, drop_app_length. rewrite take_app_le by lia. apply take_ge. lia.
Qed.

(** A successful search, as a decomposition of the graph. *)
Definition decomposition (c : Components) : Prop :=
  (∀ u, u < n → ∃ k, component_of c !! u = Some (Some k) ∧ k < component_count c) ∧
  (∀ E k, k < component_count c → ∃ l, @members E c k = Ok l ∧ l ≠ [] ∧ NoDup l ∧
    ∀ u, u ∈ l ↔ component_of c !! u = Some (Some k)) ∧
  (∀ u w, u < n → w < n → component_of c !! u = component_of c !! w ↔
    rtc (edge arcs) u w ∧ rtc (edge arcs) w u) ∧
  (∀ u w k k', edge arcs u w → component_of c !! u = Some (Some k) →
    component_of c !! w = Some (Some k') → k' ≤ k).

Lemma some_total {A} (l : list (option A)) u x : l !! u = Some (Some x) ↔ l !!! u = Some x.
Proof using Type.
  split; [apply list_lookup_total_correct|]. intros H. rewrite list_lookup_lookup_total_lt; [by rewrite H|].
  by eapply total_some.
Qed.

Lemma comp_down t u w k : inv_of t → rtc (edge arcs) u w → comp t !!! u = Some k → ∃ k', comp t !!! w = Some k' ∧ k' ≤ k.
Proof using Type.
  intros I Hr. revert k. induction Hr as [u|u v w He _ IH]; intros k Hk; [by exists k|].
  destruct (inv_closed _ _ _ _ _ _ _ _ _ I u v k Hk He) as (k1 & Hk1 & Hle). destruct (IH k1 Hk1) as (k2 & ? & ?).
  exists k2. split; [done|lia].
Qed.

Lemma NoDup_concat_elem (ls : list (list nat)) l : NoDup (concat ls) → l ∈ ls → NoDup l.
Proof using Type.
  intros Hnd (i & Hi)%list_elem_of_lookup. rewrite <- (take_drop_middle _ _ _ Hi), concat_app in Hnd. cbn in Hnd.
  apply NoDup_app in Hnd as (_ & _ & Hnd). by apply NoDup_app in Hnd as [? _].
Qed.

Lemma search_decomposition t comps w pk : good t comps n → dfs t = [] → (∀ u, u < n → is_Some (index t !!! u)) →
  decomposition {| component_of := comp t; cmembers := out_members t; coffsets := out_offsets t; cwork := w; cpeak := pk |}.
Proof using G.
  intros T Hd Hseen. pose proof (good_inv _ _ _ T) as I. pose proof (good_output _ _ _ T) as Hout.
  pose proof Hout as (_ & Ho & Hc & Hnd & Hne).
  assert (Hcnt : length (out_offsets t) - 1 = length comps) by (rewrite Ho, length_fmap, length_seq; lia).
  unfold decomposition, component_count. cbn [component_of coffsets]. rewrite Hcnt. split_and!.
  - intros u Hu. destruct (all_components t comps n u T Hd (Hseen u Hu)) as [k Hk]. exists k. rewrite some_total. split; [done|].
    apply Hc in Hk as (c & Hk & _). by eapply lookup_lt_Some.
  - intros E k Hk. exists (comps !!! k). destruct (lookup_lt_is_Some_2 comps k Hk) as [c Hck].
    rewrite (list_lookup_total_correct _ _ _ Hck). split; [rewrite <- (list_lookup_total_correct _ _ _ Hck); by apply members_of|].
    assert (Hin : c ∈ comps) by by eapply list_elem_of_lookup_2.
    split; [rewrite Forall_forall in Hne; by apply Hne|]. split; [by eapply NoDup_concat_elem|].
    intros u. rewrite some_total, Hc. split; [by exists c|]. intros (c' & Hc' & Hu). by simplify_eq.
  - intros u w' Hu Hw.
    destruct (all_components t comps n u T Hd (Hseen u Hu)) as [k Hk], (all_components t comps n w' T Hd (Hseen w' Hw)) as [k' Hk'].
    rewrite (proj2 (some_total _ u k) Hk), (proj2 (some_total _ w' k') Hk'). split.
    + intros [= <-]. split; eapply (inv_scc _ _ _ _ _ _ _ _ _ I); done.
    + intros [H1 H2]. destruct (comp_down t u w' k I H1 Hk) as (a & Ha & ?), (comp_down t w' u k' I H2 Hk') as (b & Hb & ?).
      rewrite Hk' in Ha. rewrite Hk in Hb. injection Ha as <-. injection Hb as <-. do 2 f_equal. lia.
  - intros u w' k k' He. rewrite !some_total. intros Hk Hk'.
    destruct (inv_closed _ _ _ _ _ _ _ _ _ I u w' k Hk He) as (a & Ha & Hle). cbn in Ha. simplify_eq. congruence.
Qed.

End search.

Section components.
Context {S X : Type} (checkpoint : S → Z → X + S) (alloc : nat → Z → bool).

Lemma reserve_all_rejects sizes : reserve_all alloc sizes = Ok () ∨ reserve_all alloc sizes = Err Alloc.
Proof.
  unfold reserve_all. generalize (imap pair sizes). intros l. induction l as [|[k z] l IH] using rev_ind; [by left|].
  rewrite foldl_app. cbn [foldl]. destruct IH as [-> | ->]; cbn [mbind result_bind]; [|by right].
  unfold reserve. destruct (alloc _ _); auto.
Qed.

Lemma components_result g n arcs limit s : graph_of g n arcs →
  match components_controlled checkpoint alloc g limit s with
  | Ok (c, s') => decomposition n arcs c ∧
      cwork c = cost (4 * n + 1) n (length arcs) (n + length arcs) n ∧
      cpeak c = (8 * Z.of_nat (8 * n + 1))%Z ∧ (∀ l, limit = Some l → (cpeak c ≤ l)%Z) ∧
      length (component_of c) = n
  | Err InvalidEndpoint => False
  | Err (Runtime x) => raised checkpoint x
  | Err (Authority e) => rejected limit (8 * Z.of_nat (8 * n + 1)) e
  | Panic => False
  end.
Proof.
  intros G. unfold components_controlled. pose proof (flush_charges checkpoint {| total := 0; pending := 0; state := s |}) as Hnew.
  specialize (Hnew ltac:(simpl; lia)). unfold new. destruct (flush _ _) as [ctl|x|]; [|done|done].
  destruct Hnew as [Hctl _]. cbn [map_err mbind result_bind]. rewrite (graph_node_count _ _ _ G).
  unfold checked_inc, bytes_of, mul_u64, add, USIZE.
  do 5 (scratch_step; [|by left]).
  assert (Hpk : (Z.of_nat n * 8 * 7 + (Z.of_nat n + 1) * 8 = 8 * Z.of_nat (8 * n + 1))%Z) by lia.
  rewrite Hpk. destruct (admit_rejects limit (8 * Z.of_nat (8 * n + 1))) as [[Ha Hlim]|(e & Ha & He)]; rewrite Ha; [|done].
  cbn [mbind result_bind map_err]. destruct (reserve_all_rejects [Z.of_nat n; Z.of_nat n; Z.of_nat n + 1; Z.of_nat n; Z.of_nat n; Z.of_nat n; Z.of_nat n; Z.of_nat n]%Z) as [Hr|Hr];
    rewrite Hr; cbn [map_err mbind result_bind]; [|by left].
  pose proof (runs_components checkpoint g n arcs G {| work := no_work; control := ctl |} Hctl) as Hrun.
  destruct (components_counted _ _ _) as [[mt t]|[]|]; cbn [mbind result_bind]; try done.
  destruct Hrun as (_ & _ & w & Hw & comps & T & Hd & Hseen & ->). cbn [work cwork cpeak] in *. rewrite no_work_add in Hw.
  split_and!; [by apply (search_decomposition g n arcs G t comps)|done..|by apply (good_comp _ _ _ _ _ T)].
Qed.

(** C25: the components are the strongly connected components of the graph.  The search,
    which is iterative, always ends and never panics.  When it succeeds, every node has one
    component, whose members are listed once each; two nodes share a component exactly when
    each reaches the other; every arc leads to the same or an earlier component, so the
    numbering is a reverse topological order; and the counted work is linear.  Otherwise the
    callback raised the error, the allocator failed, or the peak memory is over the limit. *)
Theorem plan_components_scc g n arcs limit s : graph_of g n arcs →
  match components_controlled checkpoint alloc g limit s with
  | Ok (c, s') => decomposition n arcs c ∧
      cwork c = cost (4 * n + 1) n (length arcs) (n + length arcs) n ∧
      cpeak c = (8 * Z.of_nat (8 * n + 1))%Z ∧ ∀ l, limit = Some l → (cpeak c ≤ l)%Z
  | Err InvalidEndpoint => False
  | Err (Runtime x) => raised checkpoint x
  | Err (Authority e) => rejected limit (8 * Z.of_nat (8 * n + 1)) e
  | Panic => False
  end.
Proof.
  intros G. pose proof (components_result g n arcs limit s G) as H.
  destruct (components_controlled _ _ _ _ _) as [[c s']|e|]; [|done..]. by destruct H as (? & ? & ? & ? & _).
Qed.

End components.

(** A cycle of 1 and 2, read by 0, which reads 3. *)
Definition small_arcs : list (nat * nat) := [(0, 1); (1, 2); (2, 1); (0, 3); (2, 2)].
Definition small_graph : PlanGraph :=
  {| offsets := [0; 2; 3; 5; 5]; targets := [1; 3; 2; 1; 2]; gwork := no_work; gpeak := 0 |}.

Lemma small_graph_of : graph_of small_graph 4 small_arcs.
Proof.
  split; [done| |done|].
  - unfold arcs_ok, small_arcs. repeat constructor.
  - intros E i Hi. do 4 (destruct i as [|i]; [done|]). lia.
Qed.

Example plan_components_scc_witness :
  ∃ c, components_controlled never (λ _ _, true) small_graph None () = Ok (c, ()) ∧ component_count c = 3 ∧
    decomposition 4 small_arcs c.
Proof.
  pose proof (plan_components_scc never (λ _ _, true) small_graph 4 small_arcs None () small_graph_of) as H.
  destruct (components_controlled never (λ _ _, true) small_graph None ()) as [[c []]|e|] eqn:E; [|vm_compute in E; done..].
  exists c. split; [done|]. split; [|by destruct H]. vm_compute in E. injection E as <-. reflexivity.
Defined.
