(* ===== verification/Avl.v ===== *)
(** [engine/authority/avl.rs]: an ordered map in an arena of nodes, balanced as an AVL tree,
    with a free list and a counter replica of its slots.

    A [u32] node id and the [u64] keys are integers; a [Vec] of nodes with its capacity is the
    pair of [nodes] and [cap], and [reserve_exact] grows the capacity to what is asked for.  The
    [debug_assert]s are panics.  Recursion takes a fuel of one more than the slots. *)
From S2P Require Import Prelude.
Open Scope Z_scope.

Definition NIL : Z := 2 ^ 32 - 1.

Definition grown (cap need : nat) : nat :=
  if (need <=? cap)%nat then cap else (need `max` (cap + cap `div` 2))%nat.

Inductive ReserveError : Type := reserve_error.

Record Node : Type := { key : Z; val : Z; left : Z; right : Z; height : Z }.

Record AvlMap : Type := {
  nodes : list Node;
  root : Z;
  free : Z;
  nfree : nat;
  len : nat;
  cap : nat
}.

(** * The replica of the slots *)

Record SlabShadow : Type := { slots : nat; sfree : nat; scap : nat }.
#[export] Instance SlabShadow_eq_dec : EqDecision SlabShadow.
Proof. solve_decision. Defined.

Definition shadow_alloc (s : SlabShadow) : SlabShadow :=
  if (0 <? sfree s)%nat then {| slots := slots s; sfree := sfree s - 1; scap := scap s |}
  else {| slots := slots s + 1; sfree := sfree s; scap := grown (scap s) (slots s + 1) |}.

Definition shadow_release (s : SlabShadow) : SlabShadow :=
  {| slots := slots s; sfree := sfree s + 1; scap := scap s |}.

Definition growth_from (s start : SlabShadow) : nat := (slots s - scap start)%nat.

Definition new : AvlMap := {| nodes := []; root := NIL; free := NIL; nfree := 0; len := 0; cap := 0 |}.

Definition is_empty (m : AvlMap) : bool := (len m =? 0)%nat.

Definition shadow (m : AvlMap) : SlabShadow :=
  {| slots := length (nodes m); sfree := nfree m; scap := cap m |}.

(** [Vec::reserve_exact] on the capacity of a vector of length [n]. *)
Definition reserve_exact (n cap additional : nat) : nat := (cap `max` (n + additional))%nat.

Definition with_cap (c : nat) (m : AvlMap) : AvlMap :=
  {| nodes := nodes m; root := root m; free := free m; nfree := nfree m; len := len m; cap := c |}.

(** [alloc] says whether the allocator gives the capacity. *)
Definition try_reserve_slots (alloc : nat → bool) (c : nat) (m : AvlMap) : result ReserveError AvlMap :=
  if (cap m <? c)%nat then
    let c' := reserve_exact (length (nodes m)) (cap m) (c - length (nodes m)) in
    if alloc c' then Ok (with_cap c' m) else Err reserve_error
  else Ok m.

(** * Nodes *)

Definition with_nodes (ns : list Node) (m : AvlMap) : AvlMap :=
  {| nodes := ns; root := root m; free := free m; nfree := nfree m; len := len m; cap := cap m |}.

(** [x as u8]. *)
Definition as_u8 (x : Z) : Z := x mod 2 ^ 8.

Definition node {E} (ns : list Node) (n : Z) : result E Node := vec_get ns (Z.to_nat n).
Definition set_node {E} (ns : list Node) (n : Z) (f : Node → Node) : result E (list Node) :=
  nd ← node ns n; vec_set ns (Z.to_nat n) (f nd).

Definition set_left (l : Z) (nd : Node) : Node :=
  {| key := key nd; val := val nd; left := l; right := right nd; height := height nd |}.
Definition set_right (r : Z) (nd : Node) : Node :=
  {| key := key nd; val := val nd; left := left nd; right := r; height := height nd |}.
Definition set_height (h : Z) (nd : Node) : Node :=
  {| key := key nd; val := val nd; left := left nd; right := right nd; height := h |}.
Definition set_val (v : Z) (nd : Node) : Node :=
  {| key := key nd; val := v; left := left nd; right := right nd; height := height nd |}.

Section balance.
Context {E : Type}.
Abbreviation result := (result E).

Definition h (ns : list Node) (n : Z) : result Z :=
  if n =? NIL then Ok 0 else nd ← node ns n; Ok (height nd).

Definition fix_height (ns : list Node) (n : Z) : result (list Node) :=
  nd ← node ns n;
  hl ← h ns (left nd);
  hr ← h ns (right nd);
  set_node ns n (set_height (as_u8 (1 + Z.max hl hr))).

Definition rot_right (ns : list Node) (n : Z) : result (list Node * Z) :=
  nd ← node ns n;
  let l := left nd in
  ld ← node ns l;
  ns ← set_node ns n (set_left (right ld));
  ns ← set_node ns l (set_right n);
  ns ← fix_height ns n;
  ns ← fix_height ns l;
  Ok (ns, l).

Definition rot_left (ns : list Node) (n : Z) : result (list Node * Z) :=
  nd ← node ns n;
  let r := right nd in
  rd ← node ns r;
  ns ← set_node ns n (set_right (left rd));
  ns ← set_node ns r (set_left n);
  ns ← fix_height ns n;
  ns ← fix_height ns r;
  Ok (ns, r).

Definition balance (ns : list Node) (n : Z) : result (list Node * Z) :=
  ns ← fix_height ns n;
  nd ← node ns n;
  let '(l, r) := (left nd, right nd) in
  hl ← h ns l;
  hr ← h ns r;
  let bf := hl - hr in
  if 1 <? bf then
    ld ← node ns l;
    hll ← h ns (left ld);
    hlr ← h ns (right ld);
    ns ← (if hll <? hlr then '(ns, nl) ← rot_left ns l; set_node ns n (set_left nl) else Ok ns);
    rot_right ns n
  else if bf <? -1 then
    rd ← node ns r;
    hrl ← h ns (left rd);
    hrr ← h ns (right rd);
    ns ← (if hrr <? hrl then '(ns, nr) ← rot_right ns r; set_node ns n (set_right nr) else Ok ns);
    rot_left ns n
  else Ok (ns, n).

(** * Insertion *)

Definition alloc (m : AvlMap) (k v : Z) : result (AvlMap * Z) :=
  let nd := {| key := k; val := v; left := NIL; right := NIL; height := 1 |} in
  if negb (free m =? NIL) then
    let id := free m in
    fd ← node (nodes m) id;
    match nfree m with
    | O => Panic
    | S nf =>
        ns ← vec_set (nodes m) (Z.to_nat id) nd;
        Ok ({| nodes := ns; root := root m; free := left fd; nfree := nf; len := len m; cap := cap m |}, id)
    end
  else if (length (nodes m) <? cap m)%nat
  then Ok (with_nodes (nodes m ++ [nd]) m, as_u32 (Z.of_nat (length (nodes m))))
  else Panic.

Definition release (m : AvlMap) (id : Z) : result AvlMap :=
  ns ← set_node (nodes m) id (set_left (free m));
  Ok {| nodes := ns; root := root m; free := id; nfree := S (nfree m); len := len m; cap := cap m |}.

Fixpoint insert_at (fuel : nat) (m : AvlMap) (n : Z) (k v : Z) : result (AvlMap * Z) :=
  match fuel with
  | O => Panic
  | S fuel =>
      if n =? NIL then alloc m k v
      else
        nd ← node (nodes m) n;
        if key nd =? k then Panic
        else
          ns ← (if k <? key nd then
                  '(m, nl) ← insert_at fuel m (left nd) k v;
                  ns ← set_node (nodes m) n (set_left nl); Ok (with_nodes ns m)
                else
                  '(m, nr) ← insert_at fuel m (right nd) k v;
                  ns ← set_node (nodes m) n (set_right nr); Ok (with_nodes ns m));
          '(ns', n) ← balance (nodes ns) n;
          Ok (with_nodes ns' ns, n)
  end.

Definition depth (m : AvlMap) : nat := S (length (nodes m)).

Definition insert (m : AvlMap) (k v : Z) : result AvlMap :=
  let m := if (length (nodes m) =? cap m)%nat && (free m =? NIL) then
             let c := grown (cap m) (length (nodes m) + 1) in
             with_cap (reserve_exact (length (nodes m)) (cap m) (c - length (nodes m))) m
           else m in
  '(m, n) ← insert_at (depth m) m (root m) k v;
  Ok {| nodes := nodes m; root := n; free := free m; nfree := nfree m; len := S (len m); cap := cap m |}.

(** * Removal *)

Fixpoint take_min (fuel : nat) (ns : list Node) (n : Z) : result (list Node * (Z * Z)) :=
  match fuel with
  | O => Panic
  | S fuel =>
      nd ← node ns n;
      if left nd =? NIL then Ok (ns, (right nd, n))
      else
        '(ns, (nl, mn)) ← take_min fuel ns (left nd);
        ns ← set_node ns n (set_left nl);
        '(ns, n) ← balance ns n;
        Ok (ns, (n, mn))
  end.

(** The result of [remove_at] and what it stores in [out]. *)
Fixpoint remove_at (fuel : nat) (m : AvlMap) (n : Z) (k : Z) : result (AvlMap * Z * option Z) :=
  match fuel with
  | O => Panic
  | S fuel =>
      if n =? NIL then Ok (m, NIL, None)
      else
        nd ← node (nodes m) n;
        if k <? key nd then
          '(m, nl, out) ← remove_at fuel m (left nd) k;
          ns ← set_node (nodes m) n (set_left nl);
          '(ns, n) ← balance ns n;
          Ok (with_nodes ns m, n, out)
        else if key nd <? k then
          '(m, nr, out) ← remove_at fuel m (right nd) k;
          ns ← set_node (nodes m) n (set_right nr);
          '(ns, n) ← balance ns n;
          Ok (with_nodes ns m, n, out)
        else
          let '(l, r) := (left nd, right nd) in
          if (l =? NIL) || (r =? NIL) then
            m ← release m n;
            Ok (m, if l =? NIL then r else l, Some (val nd))
          else
            '(ns, (nr, succ)) ← take_min fuel (nodes m) r;
            ns ← set_node ns succ (set_right nr);
            ns ← set_node ns succ (set_left l);
            m ← release (with_nodes ns m) n;
            '(ns, n) ← balance (nodes m) succ;
            Ok (with_nodes ns m, n, Some (val nd))
  end.

Definition remove (m : AvlMap) (k : Z) : result (AvlMap * option Z) :=
  '(m, n, out) ← remove_at (depth m) m (root m) k;
  len ← match out with
        | None => Ok (len m)
        | Some _ => match len m with O => Panic | S len => Ok len end
        end;
  Ok ({| nodes := nodes m; root := n; free := free m; nfree := nfree m; len := len; cap := cap m |}, out).

(** * Lookup *)

Fixpoint get_loop (fuel : nat) (ns : list Node) (n k : Z) : result (option Z) :=
  match fuel with
  | O => Panic
  | S fuel =>
      if n =? NIL then Ok None
      else
        nd ← node ns n;
        if k =? key nd then Ok (Some (val nd))
        else get_loop fuel ns (if k <? key nd then left nd else right nd) k
  end.
Definition get (m : AvlMap) (k : Z) : result (option Z) := get_loop (depth m) (nodes m) (root m) k.

Fixpoint set_loop (fuel : nat) (ns : list Node) (n k v : Z) : result (list Node * bool) :=
  match fuel with
  | O => Panic
  | S fuel =>
      if n =? NIL then Ok (ns, false)
      else
        nd ← node ns n;
        if k =? key nd then ns ← set_node ns n (set_val v); Ok (ns, true)
        else set_loop fuel ns (if k <? key nd then left nd else right nd) k v
  end.
Definition set (m : AvlMap) (k v : Z) : result (AvlMap * bool) :=
  '(ns, b) ← set_loop (depth m) (nodes m) (root m) k v; Ok (with_nodes ns m, b).

(** The greatest entry up to a key, and the number of nodes looked at. *)
Fixpoint pred_loop (fuel : nat) (ns : list Node) (n k : Z) (best : option (Z * Z)) (work : nat)
  : result (option (Z * Z) * nat) :=
  if n =? NIL then Ok (best, work)
  else match fuel with
  | O => Panic
  | S fuel =>
      nd ← node ns n;
      if key nd <=? k then pred_loop fuel ns (right nd) k (Some (key nd, val nd)) (S work)
      else pred_loop fuel ns (left nd) k best (S work)
  end.
Definition pred_counted (m : AvlMap) (k : Z) (work : nat) : result (option (Z * Z) * nat) :=
  pred_loop (depth m) (nodes m) (root m) k None work.
Definition pred (m : AvlMap) (k : Z) : result (option (Z * Z)) :=
  '(best, _) ← pred_counted m k 0; Ok best.

Fixpoint succ_loop (fuel : nat) (ns : list Node) (n k : Z) (best : option (Z * Z)) : result (option (Z * Z)) :=
  match fuel with
  | O => Panic
  | S fuel =>
      if n =? NIL then Ok best
      else
        nd ← node ns n;
        if k <=? key nd then succ_loop fuel ns (left nd) k (Some (key nd, val nd))
        else succ_loop fuel ns (right nd) k best
  end.
Definition succ (m : AvlMap) (k : Z) : result (option (Z * Z)) :=
  succ_loop (depth m) (nodes m) (root m) k None.

(** ** Ranges *)

(** [stack], an array of 64 ids of which [top] are in use, is the list of these, top first. *)
Definition push (n : Z) (stack : list Z) : result (list Z) :=
  if (length stack <? 64)%nat then Ok (n :: stack) else Panic.

(** [while n != NIL]. *)
Fixpoint descend (fuel : nat) (ns : list Node) (lo n : Z) (stack : list Z) (work : nat) : result (list Z * nat) :=
  if n =? NIL then Ok (stack, work)
  else match fuel with
  | O => Panic
  | S fuel =>
      nd ← node ns n;
      if key nd <? lo then descend fuel ns lo (right nd) stack (S work)
      else
        stack ← push n stack;
        descend fuel ns lo (left nd) stack (S work)
  end.

Fixpoint visit_loop {S} (visit : S → Z → Z → S) (fuel : nat) (ns : list Node) (lo hi n : Z)
  (stack : list Z) (work : nat) (s : S) : result (S * nat) :=
  match fuel with
  | O => Panic
  | Datatypes.S fuel =>
      '(stack, work) ← descend (Datatypes.S (length ns)) ns lo n stack work;
      match stack with
      | [] => Ok (s, work)
      | n :: stack =>
          nd ← node ns n;
          if hi <? key nd then Ok (s, Datatypes.S work)
          else visit_loop visit fuel ns lo hi (right nd) stack (Datatypes.S work) (visit s (key nd) (val nd))
      end
  end.

Definition range_visit_counted {S} (m : AvlMap) (lo hi : Z) (work : nat) (visit : S → Z → Z → S) (s : S) :
  result (S * nat) :=
  visit_loop visit (depth m) (nodes m) lo hi (root m) [] work s.

Definition range_visit {S} (m : AvlMap) (lo hi : Z) (visit : S → Z → Z → S) (s : S) : result S :=
  '(s, _) ← range_visit_counted m lo hi 0 visit s; Ok s.

Definition range (m : AvlMap) (lo hi : Z) (out : list (Z * Z)) : result (list (Z * Z)) :=
  range_visit m lo hi (λ out k v, out ++ [(k, v)]) out.

Definition height_of (m : AvlMap) : result Z := x ← h (nodes m) (root m); Ok (as_u32 x).

End balance.

(** * The structural check *)

(** The texts of the errors are not kept. *)
Inductive CheckError : Type :=
| OrderViolated (k : Z)
| Unbalanced (k : Z)
| StaleHeight (k : Z)
| BadLength (len reachable : nat)
| SlotAccounting.

Definition beyond (k : Z) (lo hi : option Z) : bool :=
  match lo with Some l => k <=? l | None => false end || match hi with Some u => u <=? k | None => false end.

Fixpoint walk (fuel : nat) (ns : list Node) (n : Z) (lo hi : option Z) : result CheckError (Z * nat) :=
  match fuel with
  | O => Panic
  | S fuel =>
      if n =? NIL then Ok (0, 0%nat)
      else
        nd ← node ns n;
        if beyond (key nd) lo hi then Err (OrderViolated (key nd))
        else
          '(hl, cl) ← walk fuel ns (left nd) lo (Some (key nd));
          '(hr, cr) ← walk fuel ns (right nd) (Some (key nd)) hi;
          if 1 <? Z.abs (hl - hr) then Err (Unbalanced (key nd))
          else
            let x := 1 + Z.max hl hr in
            if negb (x =? height nd) then Err (StaleHeight (key nd))
            else Ok (x, (cl + cr + 1)%nat)
  end.

Definition check (m : AvlMap) : result CheckError () :=
  '(_, n) ← walk (depth m) (nodes m) (root m) None None;
  if negb (n =? len m)%nat then Err (BadLength (len m) n)
  else if negb (length (nodes m) =? len m + nfree m)%nat then Err SlotAccounting
  else Ok ().

(** ** Examples *)

Definition inserted (ks : list Z) : result Empty_set AvlMap :=
  foldl (λ r k, m ← r; insert m k (10 * k)) (Ok new) ks.

(** Ascending keys are balanced; removal of the root takes its successor, whose slot is its own,
    and the freed slot is used again. *)
Example small_avl :
  (m ← inserted [1; 2; 3; 4; 5; 6; 7];
   '(m, a) ← remove m 4;
   m ← insert m 9 90;
   es ← range m 2 9 [];
   p ← pred m 4;
   q ← succ m 4;
   x ← height_of m;
   Ok (a, es, p, q, x, shadow m))
  = Ok (Some 40, [(2, 20); (3, 30); (5, 50); (6, 60); (7, 70); (9, 90)], Some (3, 30), Some (5, 50), 3,
        {| slots := 7; sfree := 0; scap := 9 |}).
Proof. vm_compute. reflexivity. Qed.
