(* ===== verification/AvlFacts.v ===== *)
(** Trees in the arena of [Avl]: the tree a node stands for, rotations and rebalancing, and
    the number of nodes a height needs. *)
From S2P Require Import Prelude Avl.
Open Scope Z_scope.

Create HintDb avl.

Inductive tree : Type := Leaf | T (id : Z) (l : tree) (k v : Z) (r : tree).

Definition root_of (t : tree) : Z := match t with Leaf => NIL | T i _ _ _ _ => i end.

Fixpoint ht (t : tree) : nat :=
  match t with Leaf => 0 | T _ l _ _ r => S (ht l `max` ht r) end.

Fixpoint ids (t : tree) : list Z :=
  match t with Leaf => [] | T i l _ _ r => i :: ids l ++ ids r end.

(** The entries in key order. *)
Fixpoint entries (t : tree) : list (Z * Z) :=
  match t with Leaf => [] | T _ l k v r => entries l ++ (k, v) :: entries r end.

(** The heights of siblings differ by one at most. *)
Fixpoint balanced (t : tree) : Prop :=
  match t with
  | Leaf => True
  | T _ l _ _ r => balanced l ∧ balanced r ∧ (ht l ≤ S (ht r))%nat ∧ (ht r ≤ S (ht l))%nat
  end.

(** ** The arena *)

(** The node [i] of the arena. *)
Definition at_id (ns : list Node) (i : Z) (nd : Node) : Prop := 0 ≤ i < NIL ∧ ns !! Z.to_nat i = Some nd.

Definition entry_node (k v l r : Z) (x : nat) : Node :=
  {| key := k; val := v; left := l; right := r; height := Z.of_nat x |}.

(** The tree is stored in the arena, with its heights. *)
Fixpoint rep (ns : list Node) (t : tree) : Prop :=
  match t with
  | Leaf => True
  | T i l k v r => at_id ns i (entry_node k v (root_of l) (root_of r) (ht t)) ∧ rep ns l ∧ rep ns r
  end.

(** The nodes outside [X] are the same in both arenas. *)
Definition same_but (X : list Z) (ns ns' : list Node) : Prop :=
  length ns' = length ns ∧ ∀ j, 0 ≤ j → j ∉ X → ns' !! Z.to_nat j = ns !! Z.to_nat j.

Lemma same_but_refl X ns : same_but X ns ns.
Proof. done. Qed.

Lemma same_but_trans X1 X2 ns1 ns2 ns3 : same_but X1 ns1 ns2 → same_but X2 ns2 ns3 → same_but (X1 ++ X2) ns1 ns3.
Proof.
  intros [L1 H1] [L2 H2]. split; [congruence|]. intros j Hj [? ?]%not_elem_of_app. by rewrite H2, H1.
Qed.

Lemma same_but_mono X1 X2 ns1 ns2 : same_but X1 ns1 ns2 → X1 ⊆ X2 → same_but X2 ns1 ns2.
Proof. intros [L H] Hs. split; [done|]. intros j Hj Hn. apply H; [done|]. intros ?. by apply Hn, Hs. Qed.

Lemma at_id_range ns i nd : at_id ns i nd → (Z.to_nat i < length ns)%nat.
Proof. intros [_ H]. by eapply lookup_lt_Some. Qed.

Lemma at_id_frame X ns ns' i nd : same_but X ns ns' → at_id ns i nd → i ∉ X → at_id ns' i nd.
Proof. intros [_ H] [Hi Hn] Hni. split; [done|]. by rewrite H by (done || lia). Qed.

Lemma rep_frame X ns ns' t : same_but X ns ns' → rep ns t → (∀ j, j ∈ ids t → j ∉ X) → rep ns' t.
Proof.
  intros Hs. induction t as [|i l IHl k v r IHr]; [done|]. simpl. intros (Hi & Hl & Hr) Hd. split_and!.
  - eapply at_id_frame; [done..|]. apply Hd. by left.
  - apply IHl; [done|]. intros j Hj. apply Hd. right. apply elem_of_app. by left.
  - apply IHr; [done|]. intros j Hj. apply Hd. right. apply elem_of_app. by right.
Qed.

Lemma root_range ns t : rep ns t → t = Leaf ∧ root_of t = NIL ∨ 0 ≤ root_of t < NIL ∧ root_of t ∈ ids t.
Proof. destruct t as [|i l k v r]; [by left|]. intros [[Hi _] _]. right. split; [done|]. left. Qed.

Lemma root_nil ns t : rep ns t → root_of t = NIL → t = Leaf.
Proof. intros H E. destruct (root_range ns t H) as [[? _]|[? _]]; [done|lia]. Qed.

(** ** Trees apart from some nodes *)

(** None of these nodes is in the tree. *)
Definition fresh (X : list Z) (t : tree) : Prop := ∀ j, j ∈ ids t → j ∉ X.

Lemma fresh_sub X Y t : fresh X t → Y ⊆ X → fresh Y t.
Proof. intros H Hs j Hj Hy. by eapply H, Hs. Qed.

Lemma rep_fresh X ns ns' t : same_but X ns ns' → rep ns t → fresh X t → rep ns' t.
Proof. apply rep_frame. Qed.

Lemma at_id_other i j ns ns' nd : same_but [i] ns ns' → at_id ns j nd → j ≠ i → at_id ns' j nd.
Proof. intros H Hj Hne. eapply at_id_frame; [done..|]. by rewrite list_elem_of_singleton. Qed.

Lemma fresh_l i j t : fresh [i; j] t → fresh [i] t.
Proof. intros H. eapply fresh_sub; [done|]. intros x ->%list_elem_of_singleton. left. Qed.
Lemma fresh_r i j t : fresh [i; j] t → fresh [j] t.
Proof. intros H. eapply fresh_sub; [done|]. intros x ->%list_elem_of_singleton. right. left. Qed.
#[export] Hint Resolve fresh_l fresh_r : avl.

(** Membership and duplicates in lists of ids, taken apart. *)
Ltac apart :=
  repeat match goal with
  | H : NoDup (_ :: _) |- _ => apply NoDup_cons in H as [? H]
  | H : NoDup (_ ++ _) |- _ => apply NoDup_app in H as (? & ? & H)
  end;
  repeat match goal with
  | H : ?P |- _ =>
      match type of P with Prop => idtac end;
      lazymatch P with
      | context [@elem_of] => fail | fresh _ _ => fail | NoDup _ => fail | _ ≠ _ => fail | _ => clear H
      end
  end;
  repeat match goal with
  | |- NoDup (_ :: _) => apply NoDup_cons; split
  | |- NoDup (_ ++ _) => apply NoDup_app; split; [|split]
  end;
  unfold fresh in *; first [assumption | set_solver].

Section ops.
Context {E : Type}.
Abbreviation result := (result E).

Lemma node_ok ns i nd : at_id ns i nd → @node E ns i = Ok nd.
Proof. intros [_ H]. unfold node, vec_get. by rewrite H. Qed.

Lemma set_node_ok ns i f nd : at_id ns i nd →
  ∃ ns', @set_node E ns i f = Ok ns' ∧ at_id ns' i (f nd) ∧ same_but [i] ns ns'.
Proof.
  intros H. unfold set_node. rewrite (node_ok ns i nd H). cbn [mbind result_bind].
  pose proof (at_id_range _ _ _ H) as Hr. rewrite vec_set_ok by done. eexists. split; [done|]. split; [|split].
  - destruct H. split; [done|]. by apply list_lookup_insert_eq.
  - by rewrite length_insert.
  - intros j Hj Hn. rewrite list_lookup_insert_ne; [done|]. intros Hij. apply Hn, list_elem_of_singleton.
    destruct H as [? _]. lia.
Qed.

Lemma h_ok ns t : rep ns t → @h E ns (root_of t) = Ok (Z.of_nat (ht t)).
Proof.
  intros H. unfold h. destruct t as [|i l k v r]; [done|]. destruct H as [H _]. cbn [root_of].
  rewrite (proj2 (Z.eqb_neq i NIL)) by (destruct H; lia). by rewrite (node_ok _ _ _ H).
Qed.

Lemma fix_height_ok ns i k v l r x : at_id ns i {| key := k; val := v; left := root_of l; right := root_of r; height := x |} →
  rep ns l → rep ns r → (ht l < 100)%nat → (ht r < 100)%nat →
  ∃ ns', @fix_height E ns i = Ok ns' ∧ at_id ns' i (entry_node k v (root_of l) (root_of r) (S (ht l `max` ht r))) ∧
    same_but [i] ns ns'.
Proof.
  intros Hi Hl Hr Bl Br. unfold fix_height. rewrite (node_ok _ _ _ Hi). cbn [mbind result_bind left right].
  rewrite (h_ok _ _ Hl), (h_ok _ _ Hr). cbn [mbind result_bind].
  destruct (set_node_ok ns i (set_height (as_u8 (1 + Z.max (Z.of_nat (ht l)) (Z.of_nat (ht r))))) _ Hi) as (ns' & Hs & H' & Hf).
  exists ns'. split; [done|]. split; [|done]. unfold set_height, as_u8 in H'. cbn in H'. rewrite Z.mod_small in H' by lia.
  unfold entry_node. by replace (Z.of_nat (S (ht l `max` ht r))) with (1 + Z.max (Z.of_nat (ht l)) (Z.of_nat (ht r))) by lia.
Qed.

(** ** Rotations *)

Ltac frame := first [eassumption | solve [eapply at_id_other; [eassumption|frame|auto]] |
  solve [eapply rep_fresh; [eassumption|frame|eauto with avl]]].

Lemma two_writes i j ns ns1 ns2 : same_but [i] ns ns1 → same_but [j] ns1 ns2 → same_but [i; j] ns ns2.
Proof. apply (same_but_trans [i] [j]). Qed.

Lemma rot_right_ok ns n nk nv l lk lv ll lr r x y :
  at_id ns n {| key := nk; val := nv; left := l; right := root_of r; height := x |} →
  at_id ns l {| key := lk; val := lv; left := root_of ll; right := root_of lr; height := y |} →
  rep ns ll → rep ns lr → rep ns r → n ≠ l → fresh [n; l] ll → fresh [n; l] lr → fresh [n; l] r →
  (ht ll < 90)%nat → (ht lr < 90)%nat → (ht r < 90)%nat →
  ∃ ns', @rot_right E ns n = Ok (ns', l) ∧ rep ns' (T l ll lk lv (T n lr nk nv r)) ∧ same_but [n; l] ns ns'.
Proof.
  intros Hn Hl Hll Hlr Hr Hne Fll Flr Fr Bll Blr Br. unfold rot_right.
  rewrite (node_ok _ _ _ Hn). cbn [mbind result_bind left]. rewrite (node_ok _ _ _ Hl). cbn [mbind result_bind right].
  destruct (set_node_ok ns n (set_left (root_of lr)) _ Hn) as (ns1 & -> & Hn1 & F1). cbn [mbind result_bind].
  assert (Hl1 := at_id_other _ _ _ _ _ F1 Hl (not_eq_sym Hne)).
  destruct (set_node_ok ns1 l (set_right n) _ Hl1) as (ns2 & -> & Hl2 & F2). cbn [mbind result_bind].
  assert (Hn2 := at_id_other _ _ _ _ _ F2 Hn1 Hne). unfold set_left, set_right in Hn2, Hl2. cbn in Hn2, Hl2.
  destruct (fix_height_ok ns2 n nk nv lr r x Hn2) as (ns3 & -> & Hn3 & F3); [frame|frame|lia|lia|]. cbn [mbind result_bind].
  assert (Hl3 := at_id_other _ _ _ _ _ F3 Hl2 (not_eq_sym Hne)).
  assert (Hlr3 : rep ns3 lr) by frame. assert (Hr3 : rep ns3 r) by frame. assert (Hll3 : rep ns3 ll) by frame.
  destruct (fix_height_ok ns3 l lk lv ll (T n lr nk nv r) y) as (ns4 & -> & Hl4 & F4); [done|done|done|lia|simpl; lia|].
  cbn [mbind result_bind]. exists ns4. split; [done|]. split.
  - cbn [rep]. split; [exact Hl4|]. split; [frame|]. split; [|split; frame]. frame.
  - pose proof (two_writes _ _ _ _ _ F1 F2) as G1. pose proof (two_writes _ _ _ _ _ F3 F4) as G2.
    eapply same_but_mono; [by eapply same_but_trans|]. set_solver.
Qed.

Lemma rot_left_ok ns n nk nv r rk rv l rl rr x y :
  at_id ns n {| key := nk; val := nv; left := root_of l; right := r; height := x |} →
  at_id ns r {| key := rk; val := rv; left := root_of rl; right := root_of rr; height := y |} →
  rep ns rl → rep ns rr → rep ns l → n ≠ r → fresh [n; r] rl → fresh [n; r] rr → fresh [n; r] l →
  (ht rl < 90)%nat → (ht rr < 90)%nat → (ht l < 90)%nat →
  ∃ ns', @rot_left E ns n = Ok (ns', r) ∧ rep ns' (T r (T n l nk nv rl) rk rv rr) ∧ same_but [n; r] ns ns'.
Proof.
  intros Hn Hr Hrl Hrr Hl Hne Frl Frr Fl Brl Brr Bl. unfold rot_left.
  rewrite (node_ok _ _ _ Hn). cbn [mbind result_bind right]. rewrite (node_ok _ _ _ Hr). cbn [mbind result_bind left].
  destruct (set_node_ok ns n (set_right (root_of rl)) _ Hn) as (ns1 & -> & Hn1 & F1). cbn [mbind result_bind].
  assert (Hr1 := at_id_other _ _ _ _ _ F1 Hr (not_eq_sym Hne)).
  destruct (set_node_ok ns1 r (set_left n) _ Hr1) as (ns2 & -> & Hr2 & F2). cbn [mbind result_bind].
  assert (Hn2 := at_id_other _ _ _ _ _ F2 Hn1 Hne). unfold set_left, set_right in Hn2, Hr2. cbn in Hn2, Hr2.
  destruct (fix_height_ok ns2 n nk nv l rl x Hn2) as (ns3 & -> & Hn3 & F3); [frame|frame|lia|lia|]. cbn [mbind result_bind].
  assert (Hr3 := at_id_other _ _ _ _ _ F3 Hr2 (not_eq_sym Hne)).
  assert (Hrl3 : rep ns3 rl) by frame. assert (Hl3 : rep ns3 l) by frame. assert (Hrr3 : rep ns3 rr) by frame.
  destruct (fix_height_ok ns3 r rk rv (T n l nk nv rl) rr y) as (ns4 & -> & Hr4 & F4); [done|done|done|simpl; lia|lia|].
  cbn [mbind result_bind]. exists ns4. split; [done|]. split.
  - cbn [rep]. split; [exact Hr4|]. split; [|frame]. split; [|split; frame]. frame.
  - pose proof (two_writes _ _ _ _ _ F1 F2) as G1. pose proof (two_writes _ _ _ _ _ F3 F4) as G2.
    eapply same_but_mono; [by eapply same_but_trans|]. set_solver.
Qed.

(** ** Rebalancing *)

(** The tree [t] in [ns'] is made of the node [i] and the trees [l] and [r] of [ns]. *)
Record rebuilt (ns : list Node) (i : Z) (l : tree) (k v : Z) (r : tree) (ns' : list Node) (t : tree) : Prop := {
  reb_rep : rep ns' t;
  reb_ids : ids t ≡ₚ i :: ids l ++ ids r;
  reb_entries : entries t = entries l ++ (k, v) :: entries r;
  reb_balanced : balanced t;
  reb_height : (ht l `max` ht r ≤ ht t ≤ S (ht l `max` ht r))%nat;
  reb_same : (ht l ≤ S (ht r))%nat → (ht r ≤ S (ht l))%nat → ht t = S (ht l `max` ht r);
  reb_frame : same_but (i :: ids l ++ ids r) ns ns'
}.

Lemma heavy_left_ok ns i k v li ll lk lv lr r x :
  at_id ns i {| key := k; val := v; left := li; right := root_of r; height := x |} →
  rep ns (T li ll lk lv lr) → rep ns r → NoDup (i :: (li :: ids ll ++ ids lr) ++ ids r) →
  balanced (T li ll lk lv lr) → balanced r → S (ht ll `max` ht lr) = S (S (ht r)) → (ht r < 80)%nat →
  ∃ ns' t, (ld ← node ns li;
    hll ← h ns (left ld);
    hlr ← h ns (right ld);
    ns ← (if hll <? hlr then '(ns, nl) ← rot_left ns li; set_node ns i (set_left nl) else Ok ns);
    rot_right ns i) = @Ok E _ (ns', root_of t) ∧ rebuilt ns i (T li ll lk lv lr) k v r ns' t.
Proof.
  intros Hi (Hl & Hll & Hlr) Hr Hnd (Bll & Blr & Hb1 & Hb2) Br Hh Hm.
  rewrite (node_ok _ _ _ Hl). cbn [mbind result_bind entry_node left right].
  rewrite (h_ok _ _ Hll), (h_ok _ _ Hlr). cbn [mbind result_bind].
  destruct (Z.ltb_spec (Z.of_nat (ht ll)) (Z.of_nat (ht lr))) as [Hlt|Hge].
  - destruct lr as [|mi ml mk mv mr]; [simpl in *; lia|]. destruct Hlr as (Hmi & Hml & Hmr). cbn [ids] in Hnd.
    destruct Blr as (Bml & Bmr & Hb3 & Hb4). cbn [ht] in *.
    destruct (rot_left_ok ns li lk lv mi mk mv ll ml mr _ _ Hl Hmi) as (ns1 & -> & (Hm1 & (Hl1 & Hll1 & Hml1) & Hmr1) & F1);
      [done..|apart|apart|apart|apart|lia|lia|lia|]. cbn [mbind result_bind].
    assert (Hi1 : at_id ns1 i _) by (eapply at_id_frame; [done|exact Hi|apart]).
    assert (Hr1 : rep ns1 r) by (eapply rep_fresh; [done|done|apart]).
    destruct (set_node_ok ns1 i (set_left mi) _ Hi1) as (ns2 & -> & Hi2 & F2). cbn [mbind result_bind].
    assert (Hm2 : at_id ns2 mi _) by (eapply at_id_other; [done|exact Hm1|apart]).
    destruct (rot_right_ok ns2 i k v mi mk mv (T li ll lk lv ml) mr r _ _ Hi2 Hm2)
      as (ns3 & -> & Hrep & F3); [| | |apart|apart|apart|apart|simpl; lia..|].
    { eapply rep_fresh; [done|by split_and!|apart]. }
    { eapply rep_fresh; [done|done|apart]. }
    { eapply rep_fresh; [done|done|apart]. }
    eexists ns3, (T mi _ mk mv _). split; [done|]. split; [exact Hrep| | |..]; cbn [ids entries balanced ht].
    + solve_Permutation.
    + repeat (rewrite <- app_assoc; cbn [app]). done.
    + split_and!; try done; simpl; lia.
    + lia.
    + lia.
    + eapply same_but_mono; [eapply same_but_trans; [eapply same_but_trans|]; done|]. set_solver.
  - cbn [mbind result_bind].
    destruct (rot_right_ok ns i k v li lk lv ll lr r _ _ Hi Hl) as (ns3 & -> & Hrep & F3); [done..|apart|apart|apart|apart|lia|lia|lia|].
    eexists ns3, (T li _ lk lv _). split; [done|]. split; [exact Hrep| | |..]; cbn [ids entries balanced ht].
    + solve_Permutation.
    + repeat (rewrite <- app_assoc; cbn [app]). done.
    + split_and!; try done; simpl; lia.
    + simpl. lia.
    + simpl. lia.
    + eapply same_but_mono; [done|]. set_solver.
Qed.

Lemma heavy_right_ok ns i k v ri rl rk rv rr l x :
  at_id ns i {| key := k; val := v; left := root_of l; right := ri; height := x |} →
  rep ns (T ri rl rk rv rr) → rep ns l → NoDup (i :: ids l ++ ri :: ids rl ++ ids rr) →
  balanced (T ri rl rk rv rr) → balanced l → S (ht rl `max` ht rr) = S (S (ht l)) → (ht l < 80)%nat →
  ∃ ns' t, (rd ← node ns ri;
    hrl ← h ns (left rd);
    hrr ← h ns (right rd);
    ns ← (if hrr <? hrl then '(ns, nr) ← rot_right ns ri; set_node ns i (set_right nr) else Ok ns);
    rot_left ns i) = @Ok E _ (ns', root_of t) ∧ rebuilt ns i l k v (T ri rl rk rv rr) ns' t.
Proof.
  intros Hi (Hr & Hrl & Hrr) Hl Hnd (Brl & Brr & Hb1 & Hb2) Bl Hh Hm.
  rewrite (node_ok _ _ _ Hr). cbn [mbind result_bind entry_node left right].
  rewrite (h_ok _ _ Hrl), (h_ok _ _ Hrr). cbn [mbind result_bind].
  destruct (Z.ltb_spec (Z.of_nat (ht rr)) (Z.of_nat (ht rl))) as [Hlt|Hge].
  - destruct rl as [|mi ml mk mv mr]; [simpl in *; lia|]. destruct Hrl as (Hmi & Hml & Hmr). cbn [ids] in Hnd.
    destruct Brl as (Bml & Bmr & Hb3 & Hb4). cbn [ht] in *.
    destruct (rot_right_ok ns ri rk rv mi mk mv ml mr rr _ _ Hr Hmi) as (ns1 & -> & (Hm1 & Hml1 & (Hr1 & Hmr1 & Hrr1)) & F1);
      [done..|apart|apart|apart|apart|lia|lia|lia|]. cbn [mbind result_bind].
    assert (Hi1 : at_id ns1 i _) by (eapply at_id_frame; [done|exact Hi|apart]).
    assert (Hl1 : rep ns1 l) by (eapply rep_fresh; [done|done|apart]).
    destruct (set_node_ok ns1 i (set_right mi) _ Hi1) as (ns2 & -> & Hi2 & F2). cbn [mbind result_bind].
    assert (Hm2 : at_id ns2 mi _) by (eapply at_id_other; [done|exact Hm1|apart]).
    destruct (rot_left_ok ns2 i k v mi mk mv l ml (T ri mr rk rv rr) _ _ Hi2 Hm2)
      as (ns3 & -> & Hrep & F3); [| | |apart|apart|apart|apart|simpl; lia..|].
    { eapply rep_fresh; [done|done|apart]. }
    { eapply rep_fresh; [done|by split_and!|apart]. }
    { eapply rep_fresh; [done|done|apart]. }
    eexists ns3, (T mi _ mk mv _). split; [done|]. split; [exact Hrep| | |..]; cbn [ids entries balanced ht].
    + solve_Permutation.
    + repeat (rewrite <- app_assoc; cbn [app]). done.
    + split_and!; try done; simpl; lia.
    + lia.
    + lia.
    + eapply same_but_mono; [eapply same_but_trans; [eapply same_but_trans|]; done|]. set_solver.
  - cbn [mbind result_bind].
    destruct (rot_left_ok ns i k v ri rk rv l rl rr _ _ Hi Hr) as (ns3 & -> & Hrep & F3); [done..|apart|apart|apart|apart|lia|lia|lia|].
    eexists ns3, (T ri _ rk rv _). split; [done|]. split; [exact Hrep| | |..]; cbn [ids entries balanced ht].
    + solve_Permutation.
    + repeat (rewrite <- app_assoc; cbn [app]). done.
    + split_and!; try done; simpl; lia.
    + simpl. lia.
    + simpl. lia.
    + eapply same_but_mono; [done|]. set_solver.
Qed.

Lemma rebuilt_frame ns ns1 i l k v r ns' t : same_but [i] ns ns1 → rebuilt ns1 i l k v r ns' t → rebuilt ns i l k v r ns' t.
Proof.
  intros F []. split; try done. eapply same_but_mono; [by eapply same_but_trans|]. set_solver.
Qed.

(** The heights of [l] and [r] may differ by two. *)
Lemma balance_ok ns i k v l r x :
  at_id ns i {| key := k; val := v; left := root_of l; right := root_of r; height := x |} →
  rep ns l → rep ns r → NoDup (i :: ids l ++ ids r) → balanced l → balanced r →
  (ht l ≤ S (S (ht r)))%nat → (ht r ≤ S (S (ht l)))%nat → (ht l < 80)%nat → (ht r < 80)%nat →
  ∃ ns' t, @balance E ns i = Ok (ns', root_of t) ∧ rebuilt ns i l k v r ns' t.
Proof.
  intros Hi Hl Hr Hnd Bl Br H1 H2 Ml Mr. unfold balance.
  destruct (fix_height_ok ns i k v l r x Hi) as (ns1 & -> & Hi1 & F); [done|done|lia|lia|]. cbn [mbind result_bind].
  assert (Hl1 : rep ns1 l) by (eapply rep_fresh; [done|done|apart]).
  assert (Hr1 : rep ns1 r) by (eapply rep_fresh; [done|done|apart]).
  rewrite (node_ok _ _ _ Hi1). cbn [mbind result_bind entry_node left right].
  rewrite (h_ok _ _ Hl1), (h_ok _ _ Hr1). cbn [mbind result_bind].
  destruct (Z.ltb_spec 1 (Z.of_nat (ht l) - Z.of_nat (ht r))) as [Hbf|Hbf].
  { destruct l as [|li ll lk lv lr]; [simpl in *; lia|].
    edestruct (heavy_left_ok ns1 i k v) as (ns' & t & Hrun & R); [exact Hi1|exact Hl1|done|exact Hnd|done|done|simpl in *; lia|lia|].
    exists ns', t. split; [exact Hrun|by eapply rebuilt_frame]. }
  destruct (Z.ltb_spec (Z.of_nat (ht l) - Z.of_nat (ht r)) (-1)) as [Hbf2|Hbf2].
  { destruct r as [|ri rl rk rv rr]; [simpl in *; lia|].
    edestruct (heavy_right_ok ns1 i k v) as (ns' & t & Hrun & R); [exact Hi1|exact Hr1|done|exact Hnd|done|done|simpl in *; lia|lia|].
    exists ns', t. split; [exact Hrun|by eapply rebuilt_frame]. }
  exists ns1, (T i l k v r). split; [done|]. apply rebuilt_frame with ns1; [done|].
  split; simpl; [done|done|done|split_and!; [done|done|lia|lia]|lia|lia|apply same_but_refl].
Qed.

End ops.

(** * Heights *)

(** The least numbers of nodes of a balanced tree of height [h] and of height [h + 1]. *)
Fixpoint least (h : nat) : Z * Z :=
  match h with O => (0, 1) | S h => let '(a, b) := least h in (b, a + b + 1) end.

Definition size (t : tree) : nat := length (entries t).

Lemma size_T i l k v r : size (T i l k v r) = (size l + size r + 1)%nat.
Proof. unfold size. simpl. rewrite length_app. simpl. lia. Qed.

Lemma size_ids t : length (ids t) = size t.
Proof. induction t as [|i l IHl k v r IHr]; [done|]. rewrite size_T. simpl. rewrite length_app. lia. Qed.

Lemma least_S h : (least (S h)).1 = (least h).2.
Proof. cbn [least]. by destruct (least h). Qed.
Lemma least_SS h : (least (S (S h))).1 = (least h).1 + (least (S h)).1 + 1.
Proof. rewrite !least_S. cbn [least]. by destruct (least h). Qed.

Lemma least_step h : 0 ≤ (least h).1 ≤ (least (S h)).1.
Proof.
  induction h as [|h IH]; [simpl; lia|]. rewrite least_SS. lia.
Qed.
Lemma least_mono h h' : (h ≤ h')%nat → (least h).1 ≤ (least h').1.
Proof. induction 1 as [|h' _ IH]; [done|]. pose proof (least_step h'). lia. Qed.

Lemma least_size t : balanced t → (least (ht t)).1 ≤ Z.of_nat (size t).
Proof.
  induction t as [|i l IHl k v r IHr]; [done|]. intros (Bl & Br & H1 & H2). specialize (IHl Bl). specialize (IHr Br).
  rewrite size_T. cbn [ht]. destruct (Nat.max_spec (ht l) (ht r)) as [[Hlt ->]|[Hle ->]].
  - assert (E : ht r = S (ht l)) by lia. rewrite E in IHr |- *. rewrite least_SS. lia.
  - destruct (ht l) as [|hl] eqn:E; [simpl; lia|]. rewrite least_SS.
    pose proof (least_mono hl (ht r) ltac:(lia)). lia.
Qed.

(** A balanced tree whose ids are below [NIL] has a height below 46. *)
Lemma height_bound t : balanced t → Z.of_nat (size t) ≤ 2 ^ 32 - 1 → (ht t ≤ 45)%nat.
Proof.
  intros B Hs. destruct (decide (ht t ≤ 45)%nat) as [?|Hn]; [done|]. exfalso.
  pose proof (least_size t B). pose proof (least_mono 46 (ht t) ltac:(lia)) as Hm.
  assert (least 46 = (4807526975, 7778742048)) as E by (vm_compute; reflexivity).
  rewrite E in Hm. cbn [fst] in Hm. lia.
Qed.

Lemma ht_size t : (ht t ≤ size t)%nat.
Proof. induction t as [|i l IHl k v r IHr]; [simpl; lia|]. rewrite size_T. simpl. lia. Qed.
