(* ===== verification/AvlTheorems.v ===== *)
(** The arena map of [Avl] refines a finite map: insertion, removal, lookups and range visits,
    with the slots that [SlabShadow] predicts. *)
From S2P Require Import Prelude Avl AvlFacts.
Open Scope Z_scope.

Abbreviation E := Empty_set (only parsing).

(** * Lists of entries around a key *)

Abbreviation below k := (Forall (λ e : Z * Z, e.1 < k)).
Abbreviation above k := (Forall (λ e : Z * Z, k < e.1)).

Lemma split_below (el er xs ys : list (Z * Z)) e k : el ++ e :: er = xs ++ ys → Forall (λ e, e.1 ≤ k) xs → k < e.1 →
  ∃ ys', el = xs ++ ys' ∧ ys = ys' ++ e :: er.
Proof.
  intros [(z & -> & ->)|(z & -> & Hz)]%app_eq_inv Hxs He; [by exists z|].
  destruct z as [|z' z]; simpl in Hz.
  - exists []. by rewrite !app_nil_r, <- Hz.
  - injection Hz as <- _. apply Forall_app in Hxs as [_ Hxs]. apply Forall_cons in Hxs as [? _]. lia.
Qed.

Lemma split_above (el er xs ys : list (Z * Z)) e k : el ++ e :: er = xs ++ ys → Forall (λ e, k ≤ e.1) ys → e.1 < k →
  ∃ xs', xs = el ++ e :: xs' ∧ er = xs' ++ ys.
Proof.
  intros [(z & -> & ->)|(z & -> & Hz)]%app_eq_inv Hys He.
  - apply Forall_app in Hys as [_ Hys]. apply Forall_cons in Hys as [? _]. lia.
  - destruct z as [|z' z]; simpl in Hz; [|injection Hz as <- ->; by exists z].
    subst ys. apply Forall_cons in Hys as [? _]. lia.
Qed.

Lemma above_none k v (xs ys : list (Z * Z)) : ¬ above k (xs ++ (k, v) :: ys).
Proof. intros [_ [H _]%Forall_cons]%Forall_app. simpl in H. lia. Qed.

Lemma split_mid (el er xs mid ys : list (Z * Z)) k v : el ++ (k, v) :: er = xs ++ mid ++ ys → below k xs → above k ys →
  (mid = [] ∨ ∃ v, mid = [(k, v)]) → xs = el ∧ mid = [(k, v)] ∧ ys = er.
Proof.
  intros [(z & -> & Hz)|(z & -> & Hz)]%app_eq_inv Hx Hy Hm.
  - destruct Hm as [->|[v' ->]]; simpl in Hz; [rewrite Hz in Hy; by apply above_none in Hy|].
    destruct z as [|e z]; simplify_eq/=; [by rewrite app_nil_r|by apply above_none in Hy].
  - destruct z as [|e z]; simplify_eq/=; [|apply Forall_app in Hx as [_ [Hx _]%Forall_cons]; simpl in Hx; lia].
    destruct Hm as [->|[v' ->]]; simplify_eq/=; [by apply (above_none k v []) in Hy|by rewrite app_nil_r].
Qed.

(** * Changes of the arena *)

(** Apart from the node [i], the old nodes are the same. *)
Definition agree (i : Z) (ns ns' : list Node) : Prop :=
  ∀ j, 0 ≤ j → j ≠ i → (Z.to_nat j < length ns)%nat → ns' !! Z.to_nat j = ns !! Z.to_nat j.

Lemma at_id_agree i ns ns' j nd : agree i ns ns' → at_id ns j nd → j ≠ i → at_id ns' j nd.
Proof. intros Ha H Hne. pose proof (at_id_range _ _ _ H). destruct H. split; [done|]. rewrite Ha; [done|lia|done..]. Qed.

Lemma rep_agree i ns ns' t : agree i ns ns' → rep ns t → i ∉ ids t → rep ns' t.
Proof.
  intros Ha. induction t as [|j l IHl k v r IHr]; [done|]. simpl. intros (Hi & Hl & Hr) Hni.
  split_and!; [eapply at_id_agree; [done..|]|apply IHl|apply IHr]; set_solver.
Qed.

Lemma root_not_nil ns i l k v r : rep ns (T i l k v r) → (i =? NIL) = false.
Proof. intros [[? _] _]. apply Z.eqb_neq. lia. Qed.

(** * Insertion *)

Section insertion.
Context (m m1 : AvlMap) (i k v : Z).
Hypothesis Halloc : alloc (E := E) m k v = Ok (m1, i).
Hypothesis Hnew : at_id (nodes m1) i (entry_node k v NIL NIL 1).
Hypothesis Hold : agree i (nodes m) (nodes m1).

(** The node [i] is inserted into [t]. *)
Record inserted_as (xs ys : list (Z * Z)) (t : tree) (ns' : list Node) (t' : tree) : Prop := {
  ins_rep : rep ns' t';
  ins_ids : ids t' ≡ₚ i :: ids t;
  ins_entries : entries t' = xs ++ (k, v) :: ys;
  ins_balanced : balanced t';
  ins_height : (ht t ≤ ht t' ≤ S (ht t))%nat;
  ins_frame : same_but (i :: ids t) (nodes m1) ns'
}.

(** A subtree of the node [j] has taken the new node. *)
Lemma insert_step j l r k0 v0 l' r' xs ys ns1 f :
  (ids l' ++ ids r' ≡ₚ i :: ids l ++ ids r) → rep ns1 l' → rep ns1 r' → NoDup (i :: j :: ids l ++ ids r) →
  at_id ns1 j (entry_node k0 v0 (root_of l) (root_of r) (S (ht l `max` ht r))) →
  f (entry_node k0 v0 (root_of l) (root_of r) (S (ht l `max` ht r))) =
    entry_node k0 v0 (root_of l') (root_of r') (S (ht l `max` ht r)) →
  balanced (T j l k0 v0 r) → balanced l' → balanced r' → (ht l ≤ ht l' ≤ S (ht l))%nat → (ht r ≤ ht r' ≤ S (ht r))%nat →
  (ht l' = ht l ∨ ht r' = ht r)%nat → (ht l < 70)%nat → (ht r < 70)%nat →
  entries l' ++ (k0, v0) :: entries r' = xs ++ (k, v) :: ys → same_but (i :: ids l ++ ids r) (nodes m1) ns1 →
  ∃ ns' t', (ns ← (ns ← set_node ns1 j f; Ok (with_nodes ns (with_nodes ns1 m1)));
    '(ns', n) ← balance (nodes ns) j; Ok (with_nodes ns' ns, n)) = @Ok E _ (with_nodes ns' m1, root_of t') ∧
    inserted_as xs ys (T j l k0 v0 r) ns' t'.
Proof.
  intros Hp Hl Hr Hnd Hj Hf (_ & _ & Hb1 & Hb2) Bl Br Hhl Hhr Hsame Ml Mr Hent F1.
  destruct (set_node_ok (E := E) ns1 j f _ Hj) as (ns2 & -> & Hj2 & F2). cbn [mbind result_bind nodes with_nodes]. rewrite Hf in Hj2.
  assert (Hnd' : NoDup (j :: ids l' ++ ids r')).
  { rewrite Hp. assert (i :: j :: ids l ++ ids r ≡ₚ j :: i :: ids l ++ ids r) as <- by constructor. done. }
  assert (Hl2 : rep ns2 l') by (eapply rep_fresh; [done|done|apart]).
  assert (Hr2 : rep ns2 r') by (eapply rep_fresh; [done|done|apart]).
  destruct (balance_ok (E := E) ns2 j k0 v0 l' r' _ Hj2) as (ns3 & t' & -> & R); [done|done|done|done|done|lia|lia|lia|lia|].
  cbn [mbind result_bind]. exists ns3, t'. split; [done|]. destruct R. split.
  - done.
  - rewrite reb_ids, Hp. simpl. constructor.
  - congruence.
  - done.
  - simpl. destruct (decide (ht l' ≤ S (ht r') ∧ ht r' ≤ S (ht l')))%nat as [[? ?]|Hn]; [rewrite reb_same by done; lia|lia].
  - eapply same_but_mono; [eapply same_but_trans; [eapply same_but_trans|]; done|].
    assert (Hin : ∀ x, x ∈ ids l' ++ ids r' → x ∈ i :: ids l ++ ids r) by (intros x; by rewrite Hp). set_solver.
Qed.

Lemma insert_at_ok t : ∀ fuel xs ys, rep (nodes m) t → balanced t → NoDup (i :: ids t) → entries t = xs ++ ys →
  below k xs → above k ys → (ht t < fuel)%nat → (ht t < 70)%nat →
  ∃ ns' t', insert_at fuel m (root_of t) k v = @Ok E _ (with_nodes ns' m1, root_of t') ∧ inserted_as xs ys t ns' t'.
Proof.
  induction t as [|j l IHl k0 v0 r IHr]; intros [|fuel] xs ys Hrep Hbal Hnd Hent Hxs Hys Hf Hm; try (simpl in Hf; lia).
  - cbn [insert_at root_of]. rewrite Z.eqb_refl, Halloc. exists (nodes m1), (T i Leaf k v Leaf).
    split; [by destruct m1|]. symmetry in Hent. apply app_eq_nil in Hent as [-> ->]. split; simpl; [done|done|done|auto|lia|done].
  - cbn [insert_at root_of]. rewrite (root_not_nil _ _ _ _ _ _ Hrep). pose proof Hrep as (Hj & Hl & Hr).
    rewrite (node_ok _ _ _ Hj). cbn [mbind result_bind entry_node key left right].
    cbn [ids] in Hnd. assert (Hji : j ≠ i) by apart. pose proof Hbal as (Bl & Br & _). cbn [ht entries] in *.
    destruct (Z.eqb_spec k0 k) as [->|Hne].
    { exfalso. assert (Hin : (k, v0) ∈ xs ++ ys) by (rewrite <- Hent; set_solver).
      rewrite Forall_forall in Hxs, Hys. apply elem_of_app in Hin as [H|H]; [specialize (Hxs _ H)|specialize (Hys _ H)]; simpl in *; lia. }
    destruct (Z.ltb_spec k k0) as [Hlt|Hge].
    + destruct (split_below _ _ _ _ (k0, v0) k Hent) as (ys' & El & ->); [eapply Forall_impl; [done|simpl; lia]|done|]. apply Forall_app in Hys as [Hys' _].
      destruct (IHl fuel xs ys' Hl Bl ltac:(apart) El Hxs Hys' ltac:(lia) ltac:(lia)) as (ns1 & l' & -> & []).
      cbn [mbind result_bind nodes with_nodes].
      apply (insert_step j l r k0 v0 l' r); try done; try lia.
      * rewrite ins_ids0. solve_Permutation.
      * eapply rep_fresh; [exact ins_frame0|apply (rep_agree i (nodes m)); [done|done|apart]|apart].
      * eapply at_id_frame; [exact ins_frame0|by eapply at_id_agree|apart].
      * rewrite ins_entries0. by rewrite <- app_assoc.
      * eapply same_but_mono; [exact ins_frame0|set_solver].
    + destruct (split_above _ _ _ _ (k0, v0) k Hent) as (xs' & -> & Er); [eapply Forall_impl; [done|simpl; lia]|simpl; lia|].
      apply Forall_app in Hxs as [_ [_ Hxs']%Forall_cons].
      destruct (IHr fuel xs' ys Hr Br ltac:(apart) Er Hxs' Hys ltac:(lia) ltac:(lia)) as (ns1 & r' & -> & []).
      cbn [mbind result_bind nodes with_nodes].
      apply (insert_step j l r k0 v0 l r'); try done; try lia.
      * rewrite ins_ids0. solve_Permutation.
      * eapply rep_fresh; [exact ins_frame0|apply (rep_agree i (nodes m)); [done|done|apart]|apart].
      * eapply at_id_frame; [exact ins_frame0|by eapply at_id_agree|apart].
      * rewrite ins_entries0. by rewrite <- app_assoc.
      * eapply same_but_mono; [exact ins_frame0|set_solver].
Qed.

End insertion.

(** * The free list and the state *)

(** The free slots, chained by [left]. *)
Fixpoint chain (ns : list Node) (f : Z) (fl : list Z) : Prop :=
  match fl with
  | [] => f = NIL
  | i :: fl => f = i ∧ ∃ nd, at_id ns i nd ∧ chain ns (left nd) fl
  end.

Lemma chain_frame X ns ns' fl : same_but X ns ns' → (∀ j, j ∈ fl → j ∉ X) → ∀ f, chain ns f fl → chain ns' f fl.
Proof.
  intros Hs. induction fl as [|i fl IH]; intros Hd f; [done|]. simpl. intros (-> & nd & Hi & Hc). split; [done|].
  exists nd. split; [eapply at_id_frame; [done|done|apply Hd; left]|]. apply IH; [|done]. intros j Hj. apply Hd. by right.
Qed.

Lemma chain_agree i ns ns' fl : agree i ns ns' → i ∉ fl → ∀ f, chain ns f fl → chain ns' f fl.
Proof.
  intros Ha. induction fl as [|j fl IH]; intros Hd f; [done|]. simpl. intros (-> & nd & Hj & Hc). split; [done|].
  apply not_elem_of_cons in Hd as [? ?]. exists nd. split; [by eapply at_id_agree|]. by apply IH.
Qed.

Definition key_lt (a b : Z * Z) : Prop := a.1 < b.1.

Definition all_slots (ns : list Node) : list Z := Z.of_nat <$> seq 0 (length ns).

(** The tree [t] and the free slots [fl] share the arena. *)
Record arena (m : AvlMap) (t : tree) (fl : list Z) : Prop := {
  arena_rep : rep (nodes m) t;
  arena_root : root m = root_of t;
  arena_balanced : balanced t;
  arena_sorted : StronglySorted key_lt (entries t);
  arena_chain : chain (nodes m) (free m) fl;
  arena_slots : ids t ++ fl ≡ₚ all_slots (nodes m);
  arena_nfree : nfree m = length fl;
  arena_len : len m = size t;
  arena_ids : Z.of_nat (length (nodes m)) ≤ NIL;
  arena_cap : (length (nodes m) ≤ cap m)%nat
}.

Lemma slots_nodup m t fl : arena m t fl → NoDup (ids t ++ fl).
Proof. intros A. rewrite (arena_slots _ _ _ A). apply NoDup_fmap; [apply _|apply NoDup_seq]. Qed.

Lemma arena_length m t fl : arena m t fl → length (nodes m) = (size t + length fl)%nat.
Proof.
  intros A. pose proof (Permutation_length (arena_slots _ _ _ A)) as H.
  unfold all_slots in H. rewrite length_app, length_fmap, length_seq, size_ids in H. lia.
Qed.

Lemma arena_height m t fl : arena m t fl → (ht t ≤ 45)%nat ∧ (ht t < depth m)%nat.
Proof.
  intros A. pose proof (arena_length _ _ _ A) as Hl. pose proof (arena_ids _ _ _ A). unfold NIL, depth in *. split.
  - apply height_bound; [apply A|lia].
  - pose proof (ht_size t). lia.
Qed.

Lemma all_slots_snoc ns nd : all_slots (ns ++ [nd]) = all_slots ns ++ [Z.of_nat (length ns)].
Proof. unfold all_slots. by rewrite length_app, Nat.add_1_r, seq_S, fmap_app. Qed.

Lemma all_slots_length ns ns' : length ns = length ns' → all_slots ns = all_slots ns'.
Proof. unfold all_slots. by intros ->. Qed.

Lemma elem_of_slots ns j : j ∈ all_slots ns ↔ 0 ≤ j < Z.of_nat (length ns).
Proof.
  unfold all_slots. rewrite list_elem_of_fmap. split.
  - intros (x & -> & Hx%elem_of_seq). lia.
  - intros Hj. exists (Z.to_nat j). rewrite elem_of_seq. lia.
Qed.

(** ** Allocation *)

(** A new slot needs capacity, and an id below [NIL]. *)
Lemma alloc_ok m t fl k v : arena m t fl →
  (free m = NIL → (length (nodes m) < cap m)%nat ∧ Z.of_nat (length (nodes m)) < NIL) →
  ∃ m1 i fl', alloc m k v = @Ok E _ (m1, i) ∧ at_id (nodes m1) i (entry_node k v NIL NIL 1) ∧
    agree i (nodes m) (nodes m1) ∧ (i ∉ ids t) ∧ chain (nodes m1) (free m1) fl' ∧
    (i :: ids t ++ fl' ≡ₚ all_slots (nodes m1)) ∧ NoDup (i :: ids t ++ fl') ∧
    nfree m1 = length fl' ∧ len m1 = len m ∧ shadow m1 = shadow_alloc (shadow m) ∧
    Z.of_nat (length (nodes m1)) ≤ NIL ∧ (length (nodes m1) ≤ cap m1)%nat.
Proof.
  intros A Hroom. pose proof (slots_nodup _ _ _ A) as Hnd. pose proof (arena_slots _ _ _ A) as Hs.
  pose proof (arena_chain _ _ _ A) as Hc. pose proof (arena_nfree _ _ _ A) as Hf. pose proof (arena_ids _ _ _ A) as Hi.
  pose proof (arena_cap _ _ _ A) as Hcap. unfold alloc.
  destruct fl as [|i fl]; simpl in Hc.
  - rewrite Hc, Z.eqb_refl. cbn [negb]. destruct (Hroom Hc) as [Hlt Hid]. rewrite (proj2 (Nat.ltb_lt _ _)) by done.
    assert (Hu : as_u32 (Z.of_nat (length (nodes m))) = Z.of_nat (length (nodes m))).
    { apply as_u32_small. unfold in_u32, u32_max, NIL in *. lia. }
    rewrite Hu. eexists _, _, []. split; [done|]. cbn [nodes with_nodes free nfree len].
    rewrite app_nil_r in Hs |- *. rewrite app_nil_r in Hnd.
    assert (Hni : Z.of_nat (length (nodes m)) ∉ ids t) by (rewrite Hs, elem_of_slots; lia).
    split_and!.
    + split; [lia|]. rewrite Nat2Z.id. by apply list_lookup_middle.
    + intros j Hj Hne Hlt'. by apply lookup_app_l.
    + done.
    + done.
    + rewrite all_slots_snoc, Hs. apply Permutation_cons_append.
    + by constructor.
    + done.
    + done.
    + unfold shadow, shadow_alloc, grown. cbn. rewrite Hf, length_app. cbn. by rewrite (proj2 (Nat.leb_le _ _)) by lia.
    + rewrite length_app. cbn. lia.
    + rewrite length_app. cbn. lia.
  - destruct Hc as (-> & nd & Hnd' & Hc). pose proof Hnd' as [[H0 H1] _]. rewrite (proj2 (Z.eqb_neq i NIL)) by lia. cbn [negb].
    rewrite (node_ok _ _ _ Hnd'). cbn [mbind result_bind]. rewrite Hf. cbn [length].
    rewrite vec_set_ok by (by eapply at_id_range). cbn [mbind result_bind].
    eexists _, i, fl. split; [done|]. cbn [nodes free nfree len cap].
    assert (Hp : i :: ids t ++ fl ≡ₚ ids t ++ i :: fl) by solve_Permutation.
    assert (Hag : agree i (nodes m) (<[Z.to_nat i := {| key := k; val := v; left := NIL; right := NIL; height := 1 |}]> (nodes m))).
    { intros j Hj Hne _. rewrite list_lookup_insert_ne; [done|]. lia. }
    split_and!.
    + split; [done|]. apply list_lookup_insert_eq. by eapply at_id_range.
    + done.
    + rewrite <- Hp in Hnd. apart.
    + eapply chain_agree; [done| |done]. rewrite <- Hp in Hnd. apart.
    + rewrite Hp, Hs. unfold all_slots. by rewrite length_insert.
    + by rewrite Hp.
    + done.
    + done.
    + unfold shadow, shadow_alloc. cbn. rewrite length_insert, Hf. cbn. by rewrite Nat.sub_0_r.
    + by rewrite length_insert.
    + by rewrite length_insert.
Qed.

(** The capacity grows when no slot is left. *)
Lemma arena_with_cap m t fl c : arena m t fl → (cap m ≤ c)%nat → arena (with_cap c m) t fl.
Proof. intros [] Hc. split; simpl; try done. lia. Qed.

Definition ready (m : AvlMap) : AvlMap :=
  if (length (nodes m) =? cap m)%nat && (free m =? NIL) then
    let c := grown (cap m) (length (nodes m) + 1) in
    with_cap (reserve_exact (length (nodes m)) (cap m) (c - length (nodes m))) m
  else m.

Lemma ready_ok m t fl : arena m t fl → arena (ready m) t fl ∧ nodes (ready m) = nodes m ∧ root (ready m) = root m ∧
  free (ready m) = free m ∧ len (ready m) = len m ∧
  (free m = NIL → (length (nodes m) < cap (ready m))%nat) ∧
  shadow_alloc (shadow (ready m)) = shadow_alloc (shadow m).
Proof.
  intros A. unfold ready. destruct (Nat.eqb_spec (length (nodes m)) (cap m)) as [Hl|Hl], (Z.eqb_spec (free m) NIL) as [Hf|Hf]; cbn [andb].
  2-4: split_and!; try done; intros; pose proof (arena_cap _ _ _ A); lia.
  set (c := grown _ _). assert (Hc : (cap m < c)%nat).
  { unfold c, grown. rewrite (proj2 (Nat.leb_gt _ _)) by lia. lia. }
  assert (Hr : reserve_exact (length (nodes m)) (cap m) (c - length (nodes m)) = c) by (unfold reserve_exact; lia).
  rewrite Hr. split_and!; try done.
  - apply arena_with_cap; [done|lia].
  - intros _. simpl. lia.
  - assert (Hfl : fl = []).
    { destruct fl as [|i fl]; [done|]. pose proof (arena_chain _ _ _ A) as (E & nd & [[? ?] _] & _). lia. }
    unfold shadow_alloc, shadow. cbn. rewrite (arena_nfree _ _ _ A), Hfl. cbn. f_equal.
    fold c. unfold grown. by rewrite (proj2 (Nat.leb_le _ _)) by lia.
Qed.

(** ** Insertion *)

(** The entries around a key. *)
Lemma split_at k es : StronglySorted key_lt es → ∃ xs mid ys, es = xs ++ mid ++ ys ∧ below k xs ∧ above k ys ∧
  (mid = [] ∨ ∃ v, mid = [(k, v)]).
Proof.
  induction 1 as [|[k0 v0] es Hs IH Hall]; [exists [], [], []; split_and!; [done|done|done|by left]|].
  destruct (Z.lt_trichotomy k0 k) as [Hlt|[->|Hgt]].
  - destruct IH as (xs & mid & ys & -> & Hx & Hy & Hm). exists ((k0, v0) :: xs), mid, ys. split_and!; [done|by constructor|done|done].
  - exists [], [(k, v0)], es. split; [done|]. split; [done|]. split; [|right; by exists v0].
    eapply Forall_impl; [done|]. by intros [].
  - exists [], [], ((k0, v0) :: es). split; [done|]. split; [done|]. split; [|by left]. constructor; [done|].
    eapply Forall_impl; [done|]. intros [k1 v1] H. unfold key_lt in H. simpl in *. lia.
Qed.

Lemma split_nil k (es xs mid ys : list (Z * Z)) : es = xs ++ mid ++ ys → (mid = [] ∨ ∃ v, mid = [(k, v)]) → k ∉ es.*1 → mid = [].
Proof.
  intros -> [?|[v ->]] Hk; [done|]. destruct Hk. rewrite !fmap_app. set_solver.
Qed.

Lemma sorted_insert k v xs ys : StronglySorted key_lt (xs ++ ys) → below k xs → above k ys →
  StronglySorted key_lt (xs ++ (k, v) :: ys).
Proof.
  intros (Hc & Hx & Hy)%StronglySorted_app Bx Ay. rewrite Forall_forall in Bx. apply StronglySorted_app.
  split_and!; [|done|apply StronglySorted_cons; split; [by eapply Forall_impl|done]].
  intros a b Ha [->|Hb]%elem_of_cons; [by apply Bx|]. by apply Hc.
Qed.

Lemma depth_with_cap m c : depth (with_cap c m) = depth m.
Proof. done. Qed.

Lemma insert_ok m t fl k v : arena m t fl → k ∉ (entries t).*1 → Z.of_nat (len m) < NIL →
  ∃ m' t' fl' xs ys, insert m k v = @Ok E _ m' ∧ arena m' t' fl' ∧ shadow m' = shadow_alloc (shadow m) ∧
    entries t = xs ++ ys ∧ entries t' = xs ++ (k, v) :: ys.
Proof.
  intros A0 Hk Hroom. unfold insert. fold (ready m). cbv zeta.
  destruct (ready_ok _ _ _ A0) as (A & Hns & Hrt & Hfr & Hlen & Hcap & Hsh). rewrite (arena_root _ _ _ A).
  destruct (arena_height _ _ _ A) as [Hh Hd].
  destruct (split_at k _ (arena_sorted _ _ _ A)) as (xs & mid & ys & Hent & Hx & Hy & Hm).
  rewrite (split_nil k _ xs mid ys Hent Hm Hk) in Hent. cbn [app] in Hent.
  destruct (alloc_ok _ _ _ k v A) as (m1 & i & fl' & Hrun & Hi & Hag & Hni & Hc & Hs & Hnd & Hf & Hl & Hsh1 & Hid & Hcp).
  { rewrite Hfr, Hns. intros Hnil. split; [by apply Hcap|]. rewrite <- Hns, (arena_length _ _ _ A).
    assert (fl = []) as ->; [|simpl; rewrite <- (arena_len _ _ _ A), Hlen; lia].
    destruct fl as [|j fl]; [done|]. pose proof (arena_chain _ _ _ A) as (Hfj & nd & [[? ?] _] & _). rewrite Hfr, Hnil in Hfj. lia. }
  assert (Hndt : NoDup (i :: ids t)) by apart.
  destruct (insert_at_ok (ready m) m1 i k v Hrun Hi Hag t (depth (ready m)) xs ys) as (ns' & t' & -> & I);
    [apply A|apply A|done|done|done|done|done|lia|]. cbn [mbind result_bind].
  destruct I as [Hrep Hids He Hb _ Hframe]. eexists _, t', fl', xs, ys. split; [done|].
  assert (Hln : length ns' = length (nodes m1)) by apply Hframe.
  split; [|split_and!; [|done|done]].
  - split; cbn [nodes root free nfree len cap with_nodes]; try done.
    + rewrite He. apply sorted_insert; [|done|done]. rewrite <- Hent. apply A.
    + eapply chain_frame; [exact Hframe| |exact Hc]. intros j Hj.
      rewrite app_comm_cons in Hnd. apply NoDup_app in Hnd as (_ & Hnd & _). intros Hj'. by apply (Hnd j).
    + rewrite Hids. cbn [app]. rewrite Hs. by rewrite (all_slots_length ns' (nodes m1)).
    + rewrite Hl, (arena_len _ _ _ A). unfold size. rewrite He, Hent, !length_app. simpl. lia.
    + by rewrite Hln.
    + by rewrite Hln.
  - rewrite <- Hsh, <- Hsh1. unfold shadow. cbn. by rewrite Hln.
Qed.

(** * Removal *)

(** The least node [s] is detached from [t]. *)
Record detached (ns : list Node) (t : tree) (ns' : list Node) (t' : tree) (s ks vs : Z) : Prop := {
  det_rep : rep ns' t';
  det_node : ∃ a b x, at_id ns' s {| key := ks; val := vs; left := a; right := b; height := x |};
  det_entries : entries t = (ks, vs) :: entries t';
  det_ids : ids t ≡ₚ s :: ids t';
  det_balanced : balanced t';
  det_height : (ht t' ≤ ht t ≤ S (ht t'))%nat;
  det_frame : same_but (ids t) ns ns'
}.

Lemma take_min_ok t : ∀ ns fuel, rep ns t → t ≠ Leaf → balanced t → NoDup (ids t) → (ht t ≤ fuel)%nat → (ht t < 70)%nat →
  ∃ ns' t' s ks vs, take_min fuel ns (root_of t) = @Ok E _ (ns', (root_of t', s)) ∧ detached ns t ns' t' s ks vs.
Proof.
  induction t as [|i l IHl k v r _]; intros ns [|fuel] Hrep Hne Hbal Hnd Hf Hm; [done|done|simpl in Hf; lia|].
  clear Hne. destruct Hrep as (Hi & Hl & Hr), Hbal as (Bl & Br & Hb1 & Hb2). cbn [take_min root_of].
  rewrite (node_ok _ _ _ Hi). cbn [mbind result_bind entry_node left right].
  destruct (root_range _ _ Hl) as [[-> HL]|[HL HLin]].
  - rewrite HL, Z.eqb_refl. exists ns, r, i, k, v. split; [done|]. cbn [ht] in *.
    split; [done|by eexists _, _, _|done|done|done|simpl; lia|apply same_but_refl].
  - rewrite (proj2 (Z.eqb_neq _ _)) by lia. cbn [ht ids] in *.
    destruct (IHl ns fuel Hl) as (ns1 & l' & s & ks & vs & -> & []); [intros ->; simpl in HL; lia|done|apart|lia|lia|]. cbn [mbind result_bind].
    assert (Hi1 : at_id ns1 i _) by (eapply at_id_frame; [exact det_frame0|exact Hi|apart]).
    destruct (set_node_ok (E := E) ns1 i (set_left (root_of l')) _ Hi1) as (ns2 & -> & Hi2 & F2). cbn [mbind result_bind].
    assert (Hsub : ∀ x, x ∈ ids l' ∨ x = s ↔ x ∈ ids l) by (intros x; rewrite det_ids0; set_solver).
    assert (Hnd2 : NoDup (s :: i :: ids l' ++ ids r)).
    { assert (s :: i :: ids l' ++ ids r ≡ₚ i :: ids l ++ ids r) as ->; [rewrite det_ids0; solve_Permutation|done]. }
    assert (Hl2 : rep ns2 l') by (eapply rep_fresh; [done|done|apart]).
    assert (Hr2 : rep ns2 r) by (eapply rep_fresh; [exact F2|eapply rep_fresh; [exact det_frame0|done|apart]|apart]).
    destruct (balance_ok (E := E) ns2 i k v l' r _ Hi2 Hl2 Hr2) as (ns3 & t' & -> & []); [apart|done|done|lia|lia|lia|lia|].
    cbn [mbind result_bind]. exists ns3, t', s, ks, vs. split; [done|]. split; cbn [ht ids entries].
    + done.
    + destruct det_node0 as (a & b & x & Hs). exists a, b, x. eapply at_id_frame; [exact reb_frame| |apart].
      eapply at_id_other; [done|done|apart].
    + by rewrite det_entries0, reb_entries.
    + rewrite det_ids0, reb_ids. solve_Permutation.
    + done.
    + destruct (decide (ht l' ≤ S (ht r) ∧ ht r ≤ S (ht l')))%nat as [[? ?]|Hn]; [rewrite reb_same by done; lia|lia].
    + eapply same_but_mono; [eapply same_but_trans; [eapply same_but_trans|]; done|].
      intros x. rewrite !elem_of_app, !elem_of_cons, !elem_of_app. specialize (Hsub x). set_solver.
Qed.

(** Nothing is freed, or one node is, and becomes the head of the free list. *)
Definition freed (m : AvlMap) (X : list Z) (mid : list (Z * Z)) (m' : AvlMap) (X' : list Z) : Prop :=
  match mid with
  | [] => m' = with_nodes (nodes m') m ∧ X' ≡ₚ X
  | _ => ∃ d nd, m' = {| nodes := nodes m'; root := root m; free := d; nfree := S (nfree m); len := len m; cap := cap m |} ∧
           (X ≡ₚ d :: X') ∧ at_id (nodes m') d nd ∧ left nd = free m
  end.

(** The entries [mid] between [xs] and [ys] are removed. *)
Record removed (m : AvlMap) (t : tree) (xs mid ys : list (Z * Z)) (m' : AvlMap) (t' : tree) : Prop := {
  rem_rep : rep (nodes m') t';
  rem_entries : entries t' = xs ++ ys;
  rem_balanced : balanced t';
  rem_height : (ht t' ≤ ht t ≤ S (ht t'))%nat;
  rem_frame : same_but (ids t) (nodes m) (nodes m');
  rem_freed : freed m (ids t) mid m' (ids t')
}.

(** Nodes that are still in use may be written. *)
Lemma freed_frame m X mid m1 X' ns' Y Y' : freed m X mid m1 X' → same_but Y (nodes m1) ns' → Y' ≡ₚ X' → NoDup X → Y ⊆ X' →
  freed m X mid (with_nodes ns' m1) Y'.
Proof.
  intros Hf F Hp Hnd Hsub. unfold freed in *. destruct mid as [|e mid].
  - destruct Hf as [-> Hx]. split; [done|]. by rewrite Hp, Hx.
  - destruct Hf as (d & nd & -> & Hx & Hd & Hl). exists d, nd. split; [done|]. split; [by rewrite Hp, Hx|]. split; [|done].
    cbn [nodes with_nodes] in *. eapply at_id_frame; [done|done|]. rewrite Hx in Hnd. apply NoDup_cons in Hnd as [Hnd _].
    intros Hy. by apply Hnd, Hsub.
Qed.

Lemma freed_sub m X mid m' X' : freed m X mid m' X' → NoDup X → X' ⊆ X ∧ NoDup X'.
Proof.
  unfold freed. destruct mid; intros Hf Hnd.
  - destruct Hf as [_ Hp]. rewrite Hp. done.
  - destruct Hf as (d & nd & _ & Hp & _). rewrite Hp in Hnd |- *. apply NoDup_cons in Hnd as [_ ?]. split; [set_solver|done].
Qed.

Lemma freed_perm m X mid m' X' Y Y' : freed m X mid m' X' → X ≡ₚ Y → X' ≡ₚ Y' → freed m Y mid m' Y'.
Proof.
  unfold freed. destruct mid; intros Hf H1 H2.
  - by rewrite <- H1, <- H2.
  - destruct Hf as (d & nd & ? & ? & ? & ?). exists d, nd. by rewrite <- H1, <- H2.
Qed.

Lemma freed_add m X mid m' X' Z : freed m X mid m' X' → freed m (Z ++ X) mid m' (Z ++ X').
Proof.
  unfold freed. destruct mid; intros Hf.
  - destruct Hf as [? Hp]. by rewrite Hp.
  - destruct Hf as (d & nd & ? & Hp & ? & ?). exists d, nd. rewrite Hp. split_and!; [done|solve_Permutation|done..].
Qed.

Lemma remove_step m j l r k0 v0 l' r' xs mid ys m1 f (out : option Z) :
  rep (nodes m1) l' → rep (nodes m1) r' → NoDup (j :: ids l ++ ids r) →
  at_id (nodes m1) j (entry_node k0 v0 (root_of l) (root_of r) (S (ht l `max` ht r))) →
  f (entry_node k0 v0 (root_of l) (root_of r) (S (ht l `max` ht r))) =
    entry_node k0 v0 (root_of l') (root_of r') (S (ht l `max` ht r)) →
  balanced (T j l k0 v0 r) → balanced l' → balanced r' → (ht l' ≤ ht l ≤ S (ht l'))%nat → (ht r' ≤ ht r ≤ S (ht r'))%nat →
  (ht l' = ht l ∨ ht r' = ht r)%nat → (ht l < 70)%nat → (ht r < 70)%nat →
  entries l' ++ (k0, v0) :: entries r' = xs ++ ys → same_but (ids l ++ ids r) (nodes m) (nodes m1) →
  freed m (ids l ++ ids r) mid m1 (ids l' ++ ids r') →
  ∃ m' t', (ns ← set_node (nodes m1) j f; '(ns, n) ← balance ns j; Ok (with_nodes ns m1, n, out)) =
    @Ok E _ (m', root_of t', out) ∧ removed m (T j l k0 v0 r) xs mid ys m' t'.
Proof.
  intros Hl Hr Hnd Hj Hf (_ & _ & Hb1 & Hb2) Bl Br Hhl Hhr Hsame Ml Mr Hent F1 Hfr.
  destruct (set_node_ok (E := E) (nodes m1) j f _ Hj) as (ns2 & -> & Hj2 & F2). cbn [mbind result_bind]. rewrite Hf in Hj2.
  pose proof Hnd as [Hnj Hndlr]%NoDup_cons. destruct (freed_sub _ _ _ _ _ Hfr Hndlr) as [Hsub Hnd'].
  assert (Hnd2 : NoDup (j :: ids l' ++ ids r')) by (apply NoDup_cons; split; [intros H; by apply Hnj, Hsub|done]).
  assert (Hl2 : rep ns2 l') by (eapply rep_fresh; [done|done|apart]).
  assert (Hr2 : rep ns2 r') by (eapply rep_fresh; [done|done|apart]).
  destruct (balance_ok (E := E) ns2 j k0 v0 l' r' _ Hj2 Hl2 Hr2 Hnd2) as (ns3 & t' & -> & []); [done|done|lia|lia|lia|lia|].
  cbn [mbind result_bind]. exists (with_nodes ns3 m1), t'. split; [done|]. split; cbn [nodes with_nodes ids ht].
  - done.
  - congruence.
  - done.
  - destruct (decide (ht l' ≤ S (ht r') ∧ ht r' ≤ S (ht l')))%nat as [[? ?]|Hn]; [rewrite reb_same by done; lia|lia].
  - eapply same_but_mono; [eapply same_but_trans; [eapply same_but_trans|]; done|]. clear - Hsub. set_solver.
  - eapply freed_frame; [apply (freed_add _ _ _ _ _ [j] Hfr)| |by rewrite reb_ids|done|].
    + eapply same_but_trans; done.
    + clear. set_solver.
Qed.

Lemma release_ok m i nd : at_id (nodes m) i nd → ∃ m', release m i = @Ok E _ m' ∧
  m' = {| nodes := nodes m'; root := root m; free := i; nfree := S (nfree m); len := len m; cap := cap m |} ∧
  at_id (nodes m') i (set_left (free m) nd) ∧ same_but [i] (nodes m) (nodes m').
Proof.
  intros Hi. unfold release. destruct (set_node_ok (E := E) (nodes m) i (set_left (free m)) nd Hi) as (ns & -> & Hi' & F).
  cbn [mbind result_bind]. by eexists.
Qed.

(** A node with at most one child is replaced by it. *)
Lemma remove_thin_ok m i l k v r : rep (nodes m) (T i l k v r) → balanced (T i l k v r) → NoDup (i :: ids l ++ ids r) →
  l = Leaf ∨ r = Leaf → ∃ m' t', (m ← release m i;
    Ok (m, if root_of l =? NIL then root_of r else root_of l, Some v)) = @Ok E _ (m', root_of t', Some v) ∧
  removed m (T i l k v r) (entries l) [(k, v)] (entries r) m' t'.
Proof.
  intros (Hi & Hl & Hr) (Bl & Br & Hb1 & Hb2) Hnd Hleaf.
  destruct (release_ok _ _ _ Hi) as (m' & -> & Hm' & Hi' & F). cbn [mbind result_bind].
  assert (Hl' : rep (nodes m') l) by (eapply rep_fresh; [done|done|apart]).
  assert (Hr' : rep (nodes m') r) by (eapply rep_fresh; [done|done|apart]).
  assert (Hfr : freed m (i :: ids l ++ ids r) [(k, v)] m' (ids l ++ ids r)) by (exists i; eexists; split_and!; [done|done|done|done]).
  assert (Ft : same_but (i :: ids l ++ ids r) (nodes m) (nodes m')).
  { eapply same_but_mono; [exact F|]. clear. set_solver. }
  destruct Hleaf as [-> | ->].
  - exists m', r. split; [done|]. split; simpl in *; try done; lia.
  - exists m', l. split.
    { destruct (root_range _ _ Hl) as [[-> HL]|[HL _]]; [done|]. by rewrite (proj2 (Z.eqb_neq _ _)) by lia. }
    rewrite app_nil_r in *. split; simpl in *; rewrite ?app_nil_r; try done; lia.
Qed.

(** A node with two children is replaced by its successor. *)
Lemma remove_full_ok m i l k v r fuel : rep (nodes m) (T i l k v r) → balanced (T i l k v r) → NoDup (i :: ids l ++ ids r) →
  r ≠ Leaf → (ht r ≤ fuel)%nat → (ht l < 70)%nat → (ht r < 70)%nat → ∃ m' t',
  ('(ns, (nr, succ)) ← take_min fuel (nodes m) (root_of r);
   ns ← set_node ns succ (set_right nr);
   ns ← set_node ns succ (set_left (root_of l));
   m ← release (with_nodes ns m) i;
   '(ns, n) ← balance (nodes m) succ;
   Ok (with_nodes ns m, n, Some v)) = @Ok E _ (m', root_of t', Some v) ∧
  removed m (T i l k v r) (entries l) [(k, v)] (entries r) m' t'.
Proof.
  intros (Hi & Hl & Hr) (Bl & Br & Hb1 & Hb2) Hnd Hne Hf Ml Mr.
  destruct (take_min_ok r (nodes m) fuel Hr Hne Br) as (ns1 & r' & s & ks & vs & -> & []); [apart|done|done|].
  cbn [mbind result_bind]. destruct det_node0 as (a & b & x & Hs).
  assert (Hin : ∀ y, y ∈ ids r ↔ y = s ∨ y ∈ ids r') by (intros y; by rewrite det_ids0, elem_of_cons).
  assert (Hnd1 : NoDup (i :: s :: ids l ++ ids r')).
  { assert (i :: s :: ids l ++ ids r' ≡ₚ i :: ids l ++ ids r) as ->; [rewrite det_ids0; solve_Permutation|done]. }
  assert (Hi1 : at_id ns1 i _) by (eapply at_id_frame; [exact det_frame0|exact Hi|apart]).
  assert (Hl1 : rep ns1 l) by (eapply rep_fresh; [exact det_frame0|done|apart]).
  destruct (set_node_ok (E := E) ns1 s (set_right (root_of r')) _ Hs) as (ns2 & -> & Hs2 & F2). cbn [mbind result_bind].
  destruct (set_node_ok (E := E) ns2 s (set_left (root_of l)) _ Hs2) as (ns3 & -> & Hs3 & F3). cbn [mbind result_bind].
  assert (Hi3 : at_id ns3 i _) by (eapply at_id_other; [exact F3|eapply at_id_other; [exact F2|exact Hi1|apart]|apart]).
  destruct (release_ok (with_nodes ns3 m) i _ Hi3) as (m4 & -> & Hm4 & Hi4 & F4). cbn [mbind result_bind].
  cbn [nodes with_nodes root free nfree len cap] in Hm4, F4, Hi4.
  assert (Hs4 : at_id (nodes m4) s _) by (eapply at_id_other; [exact F4|exact Hs3|apart]).
  assert (Hl4 : rep (nodes m4) l).
  { eapply rep_fresh; [exact F4|eapply rep_fresh; [exact F3|eapply rep_fresh; [exact F2|exact Hl1|]|]|]; apart. }
  assert (Hr4 : rep (nodes m4) r').
  { eapply rep_fresh; [exact F4|eapply rep_fresh; [exact F3|eapply rep_fresh; [exact F2|exact det_rep0|]|]|]; apart. }
  destruct (balance_ok (E := E) (nodes m4) s ks vs l r' _ Hs4 Hl4 Hr4) as (ns5 & t' & -> & []); [apart|done|done|lia|lia|lia|lia|].
  cbn [mbind result_bind]. exists (with_nodes ns5 m4), t'. split; [done|]. split; cbn [nodes with_nodes ids ht].
  - done.
  - by rewrite reb_entries, det_entries0.
  - done.
  - destruct (decide (ht l ≤ S (ht r') ∧ ht r' ≤ S (ht l)))%nat as [[? ?]|Hn]; [rewrite reb_same by done; lia|lia].
  - eapply same_but_mono; [eapply same_but_trans; [eapply same_but_trans; [eapply same_but_trans; [eapply same_but_trans|]|]|]; done|].
    clear - Hin. intros y. rewrite !elem_of_app, !elem_of_cons, !elem_of_app, Hin, !elem_of_nil. tauto.
  - eexists i, _. split; [rewrite Hm4; done|]. split; [|split].
    + rewrite reb_ids, det_ids0. solve_Permutation.
    + cbn [nodes with_nodes]. eapply at_id_frame; [exact reb_frame|exact Hi4|apart].
    + done.
Qed.

Lemma remove_at_ok k t : ∀ m fuel xs mid ys, rep (nodes m) t → balanced t → NoDup (ids t) → entries t = xs ++ mid ++ ys →
  below k xs → above k ys → (mid = [] ∨ ∃ v, mid = [(k, v)]) → (ht t < fuel)%nat → (ht t < 70)%nat →
  ∃ m' t', remove_at fuel m (root_of t) k = @Ok E _ (m', root_of t', snd <$> head mid) ∧ removed m t xs mid ys m' t'.
Proof.
  induction t as [|j l IHl k0 v0 r IHr]; intros m [|fuel] xs mid ys Hrep Hbal Hnd Hent Hx Hy Hm Hf Hh; try (simpl in Hf; lia).
  - cbn [remove_at root_of]. rewrite Z.eqb_refl. symmetry in Hent. apply app_eq_nil in Hent as [-> Hent].
    apply app_eq_nil in Hent as [-> ->]. exists m, Leaf. split; [done|]. split; simpl; [done|done|done|lia|apply same_but_refl|].
    by destruct m.
  - cbn [remove_at root_of]. rewrite (root_not_nil _ _ _ _ _ _ Hrep). pose proof Hrep as (Hj & Hl & Hr). pose proof Hbal as (Bl & Br & _).
    rewrite (node_ok _ _ _ Hj). cbn [mbind result_bind entry_node key left right val ht entries ids] in *.
    assert (Hmid : Forall (λ e : Z * Z, e.1 = k) mid) by (destruct Hm as [-> |[v ->]]; by repeat constructor).
    destruct (Z.ltb_spec k k0) as [Hlt|Hge].
    { rewrite app_assoc in Hent. destruct (split_below _ _ _ _ (k0, v0) k Hent) as (ys' & El & ->); [|done|].
      { apply Forall_app. split; [eapply Forall_impl; [exact Hx|]|eapply Forall_impl; [exact Hmid|]]; simpl; lia. }
      rewrite <- app_assoc in El. apply Forall_app in Hy as [Hy' _].
      destruct (IHl m fuel xs mid ys' Hl Bl ltac:(apart) El Hx Hy' Hm ltac:(lia) ltac:(lia)) as (m1 & l' & -> & []).
      cbn [mbind result_bind]. apply (remove_step m j l r k0 v0 l' r); try done; try lia.
      - eapply rep_fresh; [exact rem_frame0|done|apart].
      - eapply at_id_frame; [exact rem_frame0|done|apart].
      - rewrite rem_entries0. by rewrite <- app_assoc.
      - eapply same_but_mono; [exact rem_frame0|]. clear. set_solver.
      - eapply freed_perm; [apply (freed_add _ _ _ _ _ (ids r) rem_freed0)|apply Permutation_app_comm..]. }
    destruct (Z.ltb_spec k0 k) as [Hlt|Hge2].
    {       destruct (split_above _ _ _ _ (k0, v0) k Hent) as (xs' & -> & Er); [|done|].
      { apply Forall_app. split; [eapply Forall_impl; [exact Hmid|]|eapply Forall_impl; [exact Hy|]]; simpl; lia. }
      apply Forall_app in Hx as [_ [_ Hx']%Forall_cons].
      destruct (IHr m fuel xs' mid ys Hr Br ltac:(apart) Er Hx' Hy Hm ltac:(lia) ltac:(lia)) as (m1 & r' & -> & []).
      cbn [mbind result_bind]. apply (remove_step m j l r k0 v0 l r'); try done; try lia.
      - eapply rep_fresh; [exact rem_frame0|done|apart].
      - eapply at_id_frame; [exact rem_frame0|done|apart].
      - rewrite rem_entries0. by rewrite <- app_assoc.
      - eapply same_but_mono; [exact rem_frame0|]. clear. set_solver.
      - apply (freed_add _ _ _ _ _ (ids l) rem_freed0). }
    assert (k0 = k) as -> by lia.
    destruct (split_mid _ _ _ _ _ _ _ Hent Hx Hy Hm) as (-> & -> & ->). cbn [head fmap option_fmap option_map snd].
    destruct (root_range _ _ Hl) as [[El HL]|[HL _]].
    { rewrite HL, Z.eqb_refl. cbn [orb]. pose proof (remove_thin_ok m j l k v0 r Hrep Hbal Hnd (or_introl El)) as H.
      by rewrite HL, Z.eqb_refl in H. }
    rewrite (proj2 (Z.eqb_neq (root_of l) NIL)) by lia. cbn [orb].
    destruct (root_range _ _ Hr) as [[Er HR]|[HR Hin]].
    { rewrite HR, Z.eqb_refl. pose proof (remove_thin_ok m j l k v0 r Hrep Hbal Hnd (or_intror Er)) as H.
      by rewrite (proj2 (Z.eqb_neq (root_of l) NIL)) in H by lia. }
    rewrite (proj2 (Z.eqb_neq (root_of r) NIL)) by lia.
    apply remove_full_ok; [done..|intros ->; simpl in HR; lia|lia|lia|lia].
Qed.

(** What a removal leaves: the free list may have one more slot. *)
Lemma arena_removed m t fl xs mid ys m1 t' n : arena m t fl → entries t = xs ++ mid ++ ys →
  removed m t xs mid ys m1 t' →
  n = (size t - length mid)%nat →
  ∃ fl', arena {| nodes := nodes m1; root := root_of t'; free := free m1; nfree := nfree m1; len := n; cap := cap m1 |} t' fl'.
Proof.
  intros A Hent [] ->. pose proof (slots_nodup _ _ _ A) as Hnd. pose proof rem_frame0 as [Hlen _].
  assert (Hsort : StronglySorted key_lt (entries t')).
  { rewrite rem_entries0. pose proof (arena_sorted _ _ _ A) as Hs. rewrite Hent in Hs.
    apply StronglySorted_app in Hs as (H1 & H2 & [_ [_ H3]]%StronglySorted_app). apply StronglySorted_app.
    split_and!; [|done|done]. intros a b Ha Hb. apply H1; [done|]. set_solver. }
  assert (Hsz : size t' = (size t - length mid)%nat).
  { unfold size. rewrite rem_entries0, Hent, !length_app. lia. }
  assert (Hc : chain (nodes m1) (free m) fl).
  { eapply chain_frame; [exact rem_frame0| |apply A]. intros j Hj Ht. apply NoDup_app in Hnd as (_ & Hnd & _). by apply (Hnd j). }
  unfold freed in rem_freed0. destruct mid as [|e mid].
  - destruct rem_freed0 as [Hm Hp]. exists fl. rewrite Hm in *. cbn [nodes with_nodes] in *.
    split; cbn [nodes root free nfree len cap with_nodes]; try done; rewrite ?Hlen; try apply A.
    rewrite Hp, (arena_slots _ _ _ A). by rewrite (all_slots_length (nodes m1) (nodes m)).
  - destruct rem_freed0 as (d & nd & Hm & Hp & Hd & Hl). exists (d :: fl).
    assert (Hdf : at_id (nodes m1) d nd) by done. rewrite Hm. rewrite Hm in Hlen. cbn [nodes] in Hlen.
    split; cbn [nodes root free nfree len cap]; try done; rewrite ?Hlen; try apply A.
    + simpl. split; [done|]. exists nd. by rewrite Hl.
    + rewrite (all_slots_length (nodes m1) (nodes m)), <- (arena_slots _ _ _ A), Hp by done. solve_Permutation.
    + simpl. by rewrite (arena_nfree _ _ _ A).
Qed.

Lemma remove_ok m t fl k : arena m t fl →
  ∃ m' t' fl' xs mid ys, remove m k = @Ok E _ (m', snd <$> head mid) ∧ arena m' t' fl' ∧
    entries t = xs ++ mid ++ ys ∧ entries t' = xs ++ ys ∧ below k xs ∧ above k ys ∧ (mid = [] ∨ ∃ v, mid = [(k, v)]) ∧
    shadow m' = if decide (mid = []) then shadow m else shadow_release (shadow m).
Proof.
  intros A. destruct (split_at k _ (arena_sorted _ _ _ A)) as (xs & mid & ys & Hent & Hx & Hy & Hm).
  destruct (arena_height _ _ _ A) as [Hh Hd]. pose proof (slots_nodup _ _ _ A) as Hnd.
  unfold remove. rewrite (arena_root _ _ _ A).
  destruct (remove_at_ok k t m (depth m) xs mid ys) as (m1 & t' & -> & R);
    [apply A|apply A|by apply NoDup_app in Hnd as [? _]|done|done|done|done|done|lia|]. cbn [mbind result_bind].
  assert (Hlen : len m1 = len m ∧ cap m1 = cap m ∧ nfree m1 = if decide (mid = []) then nfree m else S (nfree m)).
  { pose proof (rem_freed _ _ _ _ _ _ _ R) as Hf. unfold freed in Hf. destruct mid as [|e mid].
    - by destruct Hf as [-> _].
    - by destruct Hf as (d & nd & -> & _). }
  destruct Hlen as (Hlen & Hcap & Hnf). rewrite Hlen.
  assert (Hpos : len m = size t) by apply A.
  assert (Hml : (length mid ≤ 1)%nat) by (destruct Hm as [->|[v ->]]; simpl; lia).
  assert (Hsz : size t = (length xs + length mid + length ys)%nat) by (unfold size; rewrite Hent, !length_app; lia).
  assert (Hsh : shadow {| nodes := nodes m1; root := root_of t'; free := free m1; nfree := nfree m1; len := 0; cap := cap m1 |} =
    if decide (mid = []) then shadow m else shadow_release (shadow m)).
  { destruct R as [_ _ _ _ [Hln _] _]. unfold shadow, shadow_release. cbn. rewrite Hln, Hcap, Hnf.
    case_decide; [done|]. by rewrite Nat.add_1_r. }
  destruct (arena_removed _ _ _ _ _ _ m1 t' (size t - length mid) A Hent R eq_refl) as [fl' A'].
  exists {| nodes := nodes m1; root := root_of t'; free := free m1; nfree := nfree m1; len := size t - length mid; cap := cap m1 |}.
  exists t', fl', xs, mid, ys. split; [|split_and!; [done|done|apply R|done|done|done|exact Hsh]].
  rewrite Hpos. destruct Hm as [->|[v ->]]; cbn [head fmap option_fmap option_map mbind result_bind length snd].
  - by rewrite Nat.sub_0_r.
  - simpl in Hsz. destruct (size t) as [|sz]; [lia|]. cbn [mbind result_bind]. by rewrite Nat.sub_1_r.
Qed.

(** * Lookup *)

Lemma sorted_node (el er : list (Z * Z)) e : StronglySorted key_lt (el ++ e :: er) →
  StronglySorted key_lt el ∧ StronglySorted key_lt er ∧ Forall (λ a, a.1 < e.1) el ∧ Forall (λ b, e.1 < b.1) er ∧
  StronglySorted key_lt (e :: er).
Proof.
  intros (H & Hl & Hr)%StronglySorted_app. pose proof Hr as [Her Hs]%StronglySorted_cons. split_and!; try done.
  apply Forall_forall. intros a Ha. apply (H a e); [done|left].
Qed.

Lemma get_loop_ok ns k t : ∀ fuel, rep ns t → StronglySorted key_lt (entries t) → (ht t < fuel)%nat →
  ∃ o, get_loop fuel ns (root_of t) k = @Ok E _ o ∧ ∀ v, o = Some v ↔ (k, v) ∈ entries t.
Proof.
  induction t as [|i l IHl k0 v0 r IHr]; intros [|fuel] Hrep Hs Hf; try (simpl in Hf; lia); cbn [get_loop root_of entries ht] in *.
  - rewrite Z.eqb_refl. exists None. split; [done|]. intros v. by rewrite elem_of_nil.
  - rewrite (root_not_nil _ _ _ _ _ _ Hrep). destruct Hrep as (Hi & Hl & Hr). rewrite (node_ok _ _ _ Hi).
    cbn [mbind result_bind entry_node key val left right].
    apply sorted_node in Hs as (Hsl & Hsr & Hbl & Hbr & _). rewrite Forall_forall in Hbl, Hbr.
    destruct (Z.eqb_spec k k0) as [->|Hne].
    { exists (Some v0). split; [done|]. intros v. rewrite elem_of_app, elem_of_cons. split; [intros [= ->]; auto|].
      intros [H|[[= ->]|H]]; [specialize (Hbl _ H)|done|specialize (Hbr _ H)]; simpl in *; lia. }
    destruct (Z.ltb_spec k k0).
    + destruct (IHl fuel Hl Hsl ltac:(lia)) as (o & -> & Ho). exists o. split; [done|]. intros v. rewrite Ho, elem_of_app, elem_of_cons.
      split; [auto|]. intros [H'|[[= -> ->]|H']]; [done|lia|]. specialize (Hbr _ H'). simpl in *. lia.
    + destruct (IHr fuel Hr Hsr ltac:(lia)) as (o & -> & Ho). exists o. split; [done|]. intros v. rewrite Ho, elem_of_app, elem_of_cons.
      split; [auto|]. intros [H'|[[= -> ->]|H']]; [|lia|done]. specialize (Hbl _ H'). simpl in *. lia.
Qed.

(** The last entry up to a key, and the first from a key on. *)
Lemma filter_out (P : Z * Z → Prop) `{∀ e, Decision (P e)} (l : list (Z * Z)) : Forall (λ e, ¬ P e) l → filter P l = [].
Proof. induction 1 as [|e l He _ IH]; [done|]. by rewrite filter_cons, decide_False. Qed.
Lemma filter_all (P : Z * Z → Prop) `{∀ e, Decision (P e)} (l : list (Z * Z)) : Forall P l → filter P l = l.
Proof. induction 1 as [|e l He _ IH]; [done|]. rewrite filter_cons, decide_True by done. by rewrite IH. Qed.

Lemma last_snoc_or {A} (l : list A) e x : last (l ++ e :: x) = match last x with Some y => Some y | None => Some e end.
Proof.
  destruct x as [|y x _] using rev_ind; [by rewrite last_snoc|].
  change (e :: x ++ [y]) with ((e :: x) ++ [y]). by rewrite app_assoc, !last_snoc.
Qed.

Lemma pred_loop_ok ns k t : ∀ fuel best work, rep ns t → StronglySorted key_lt (entries t) → (ht t ≤ fuel)%nat →
  ∃ w, pred_loop fuel ns (root_of t) k best work =
    @Ok E _ (match last (filter (λ e, e.1 ≤ k) (entries t)) with Some e => Some e | None => best end, (work + w)%nat) ∧ (w ≤ ht t)%nat.
Proof.
  induction t as [|i l IHl k0 v0 r IHr]; intros [|fuel] best work Hrep Hs Hf; try (simpl in Hf; lia); cbn [pred_loop root_of entries ht] in *.
  1,2: exists 0%nat; rewrite Z.eqb_refl, Nat.add_0_r; split; [done|lia].
  rewrite (root_not_nil _ _ _ _ _ _ Hrep). destruct Hrep as (Hi & Hl & Hr). rewrite (node_ok _ _ _ Hi).
  cbn [mbind result_bind entry_node key val left right].
  apply sorted_node in Hs as (Hsl & Hsr & Hbl & Hbr & _). rewrite filter_app, filter_cons. cbn [fst].
  destruct (Z.leb_spec k0 k).
  - destruct (IHr fuel (Some (k0, v0)) (S work) Hr Hsr ltac:(lia)) as (w & -> & Hw). exists (S w). split; [|lia].
    rewrite decide_True, last_snoc_or by done. rewrite Nat.add_succ_r, Nat.add_succ_l. by destruct (last (filter _ (entries r))).
  - destruct (IHl fuel best (S work) Hl Hsl ltac:(lia)) as (w & -> & Hw). exists (S w). split; [|lia].
    rewrite decide_False, (filter_out _ (entries r)) by first [lia | eapply Forall_impl; [exact Hbr|simpl; lia]].
    by rewrite app_nil_r, Nat.add_succ_r.
Qed.

Lemma succ_loop_ok ns k t : ∀ fuel best, rep ns t → StronglySorted key_lt (entries t) → (ht t < fuel)%nat →
  succ_loop fuel ns (root_of t) k best =
    @Ok E _ (match head (filter (λ e, k ≤ e.1) (entries t)) with Some e => Some e | None => best end).
Proof.
  induction t as [|i l IHl k0 v0 r IHr]; intros [|fuel] best Hrep Hs Hf; try (simpl in Hf; lia); cbn [succ_loop root_of entries ht] in *.
  - by rewrite Z.eqb_refl.
  - rewrite (root_not_nil _ _ _ _ _ _ Hrep). destruct Hrep as (Hi & Hl & Hr). rewrite (node_ok _ _ _ Hi).
    cbn [mbind result_bind entry_node key val left right].
    apply sorted_node in Hs as (Hsl & Hsr & Hbl & Hbr & _). rewrite filter_app, filter_cons. cbn [fst].
    destruct (Z.leb_spec k k0).
    + rewrite (IHl fuel) by (done || lia). rewrite decide_True by done. by destruct (filter _ (entries l)).
    + rewrite (IHr fuel) by (done || lia). rewrite decide_False by lia.
      rewrite (filter_out _ (entries l)); [done|]. eapply Forall_impl; [exact Hbl|simpl; lia].
Qed.

(** ** Replacing a value *)

Fixpoint set_tree (k v : Z) (t : tree) : tree :=
  match t with
  | Leaf => Leaf
  | T i l k0 v0 r =>
      if k =? k0 then T i l k0 v r
      else if k <? k0 then T i (set_tree k v l) k0 v0 r else T i l k0 v0 (set_tree k v r)
  end.

Lemma set_tree_shape k v t : root_of (set_tree k v t) = root_of t ∧ ids (set_tree k v t) = ids t ∧ ht (set_tree k v t) = ht t.
Proof.
  induction t as [|i l (_ & Il & Hl) k0 v0 r (_ & Ir & Hr)]; [done|]. cbn [set_tree].
  destruct (k =? k0); [done|]. destruct (k <? k0); cbn [root_of ids ht]; split_and!; congruence.
Qed.

Lemma set_tree_balanced k v t : balanced t → balanced (set_tree k v t).
Proof.
  induction t as [|i l IHl k0 v0 r IHr]; [done|]. intros (Bl & Br & H1 & H2). cbn [set_tree].
  destruct (set_tree_shape k v l) as (_ & _ & El), (set_tree_shape k v r) as (_ & _ & Er).
  destruct (k =? k0); [done|]. destruct (k <? k0); cbn [balanced]; rewrite ?El, ?Er; auto.
Qed.

Definition put (k v : Z) (e : Z * Z) : Z * Z := if e.1 =? k then (k, v) else e.

Lemma put_other k v (l : list (Z * Z)) : Forall (λ e, e.1 ≠ k) l → put k v <$> l = l.
Proof.
  induction 1 as [|e l He _ IH]; [done|]. cbn. rewrite IH. unfold put at 1. by rewrite (proj2 (Z.eqb_neq _ _) He).
Qed.

Lemma set_tree_entries k v t : StronglySorted key_lt (entries t) → entries (set_tree k v t) = put k v <$> entries t.
Proof.
  induction t as [|i l IHl k0 v0 r IHr]; [done|]. cbn [entries]. intros (Hsl & Hsr & Hbl & Hbr & _)%sorted_node.
  rewrite fmap_app, fmap_cons. cbn [set_tree]. unfold put at 2. cbn [fst] in *.
  destruct (Z.eqb_spec k k0) as [->|Hne].
  - rewrite Z.eqb_refl, !put_other by (eapply Forall_impl; [eassumption|simpl; lia]). done.
  - rewrite (proj2 (Z.eqb_neq k0 k)) by lia. destruct (Z.ltb_spec k k0); cbn [entries].
    + rewrite IHl by done. rewrite (put_other k v (entries r)) by (eapply Forall_impl; [eassumption|simpl; lia]). done.
    + rewrite IHr by done. rewrite (put_other k v (entries l)) by (eapply Forall_impl; [eassumption|simpl; lia]). done.
Qed.

Lemma set_loop_ok ns k v t : ∀ fuel, rep ns t → StronglySorted key_lt (entries t) → NoDup (ids t) → (ht t < fuel)%nat →
  ∃ ns', set_loop fuel ns (root_of t) k v = @Ok E _ (ns', bool_decide (k ∈ (entries t).*1)) ∧
    rep ns' (set_tree k v t) ∧ same_but (ids t) ns ns'.
Proof.
  induction t as [|i l IHl k0 v0 r IHr]; intros [|fuel] Hrep Hs Hnd Hf; try (simpl in Hf; lia); cbn [set_loop root_of].
  - rewrite Z.eqb_refl. exists ns. split; [done|]. split; [done|apply same_but_refl].
  - rewrite (root_not_nil _ _ _ _ _ _ Hrep). destruct Hrep as (Hi & Hl & Hr). cbn [entries ht ids] in Hs, Hf, Hnd.
    rewrite (node_ok _ _ _ Hi). cbn [mbind result_bind entry_node key val left right set_tree entries ids].
    apply sorted_node in Hs as (Hsl & Hsr & Hbl & Hbr & _). rewrite Forall_forall in Hbl, Hbr. cbn [fst] in *.
    rewrite fmap_app, fmap_cons. cbn [fst].
    destruct (set_tree_shape k v l) as (Rl & _ & El), (set_tree_shape k v r) as (Rr & _ & Er).
    destruct (Z.eqb_spec k k0) as [->|Hne]; [|destruct (Z.ltb_spec k k0)].
    + destruct (set_node_ok (E := E) ns i (set_val v) _ Hi) as (ns' & -> & Hi' & F). cbn [mbind result_bind].
      exists ns'. rewrite bool_decide_true by set_solver. split; [done|]. split.
      * split; [exact Hi'|]. split; (eapply rep_fresh; [done|done|apart]).
      * eapply same_but_mono; [done|]. clear. set_solver.
    + destruct (IHl fuel Hl Hsl ltac:(apart) ltac:(lia)) as (ns' & -> & Hl' & F). exists ns'. split.
      * do 2 f_equal. apply bool_decide_ext. rewrite elem_of_app, elem_of_cons. split; [auto|].
        intros [?|[?|([a b] & -> & Hin)%list_elem_of_fmap]]; [done|lia|]. specialize (Hbr _ Hin). simpl in *. lia.
      * split; [|eapply same_but_mono; [done|clear; set_solver]]. split; [|split; [done|eapply rep_fresh; [done|done|apart]]].
        cbn [ht]. rewrite Rl, El. eapply at_id_frame; [done|exact Hi|apart].
    + destruct (IHr fuel Hr Hsr ltac:(apart) ltac:(lia)) as (ns' & -> & Hr' & F). exists ns'. split.
      * do 2 f_equal. apply bool_decide_ext. rewrite elem_of_app, elem_of_cons. split; [auto|].
        intros [([a b] & -> & Hin)%list_elem_of_fmap|[?|?]]; [|lia|done]. specialize (Hbl _ Hin). simpl in *. lia.
      * split; [|eapply same_but_mono; [done|clear; set_solver]]. split; [|split; [eapply rep_fresh; [done|done|apart]|done]].
        cbn [ht]. rewrite Rr, Er. eapply at_id_frame; [done|exact Hi|apart].
Qed.
