(* ===== verification/AvlRefines.v ===== *)
(** The range visits and the structural check of [Avl], and the refinement: the arena map is
    a finite map from keys to values. *)
From S2P Require Import Prelude Avl AvlFacts AvlTheorems.
Open Scope Z_scope.

(** * Ranges *)

(** The entries that a stack of trees still has to give: of each tree its root and what is
    right of it. *)
Definition after (t : tree) : list (Z * Z) :=
  match t with Leaf => [] | T _ _ k v r => (k, v) :: entries r end.
Definition remaining (st : list tree) : list (Z * Z) := concat (after <$> st).

(** The stack has room for the trees below it. *)
Fixpoint fits (st : list tree) : Prop :=
  match st with [] => True | t :: st => (length st + ht t ≤ 64)%nat ∧ fits st end.

Definition stored (ns : list Node) (t : tree) : Prop :=
  rep ns t ∧ StronglySorted key_lt (entries t) ∧ (ht t ≤ length ns)%nat.

Definition stack_ok (ns : list Node) (st : list tree) : Prop := Forall (λ t, stored ns t ∧ t ≠ Leaf) st ∧ fits st.

Lemma stored_node ns i l k v r : stored ns (T i l k v r) → stored ns l ∧ stored ns r ∧
  at_id ns i (entry_node k v (root_of l) (root_of r) (ht (T i l k v r))) ∧
  Forall (λ a, a.1 < k) (entries l) ∧ Forall (λ b, k < b.1) (entries r).
Proof.
  intros ((Hi & Hl & Hr) & (Hsl & Hsr & Hbl & Hbr & _)%sorted_node & Hh). cbn [ht] in Hh.
  unfold stored. split; [split_and!; [done|done|lia]|]. split; [split_and!; [done|done|lia]|]. done.
Qed.

Lemma descend_ok ns lo t : ∀ fuel st work, stored ns t → (ht t ≤ fuel)%nat →
  stack_ok ns st → (length st + ht t ≤ 64)%nat →
  ∃ st' w, descend fuel ns lo (root_of t) (root_of <$> st) work = @Ok E _ (root_of <$> (st' ++ st), w) ∧
    stack_ok ns (st' ++ st) ∧ remaining (st' ++ st) = filter (λ e, lo ≤ e.1) (entries t) ++ remaining st.
Proof.
  induction t as [|i l IHl k0 v0 r IHr]; intros [|fuel] st work Hst Hf Hok Hroom; try (simpl in Hf; lia);
    cbn [descend root_of entries] in *.
  1,2: exists [], work; by rewrite Z.eqb_refl.
  rewrite (root_not_nil _ _ _ _ _ _ (proj1 Hst)). pose proof (stored_node _ _ _ _ _ _ Hst) as (Hl & Hr & Hi & Hbl & Hbr).
  rewrite (node_ok _ _ _ Hi). cbn [mbind result_bind entry_node key left right ht] in *. rewrite filter_app, filter_cons. cbn [fst].
  destruct (Z.ltb_spec k0 lo).
  - rewrite decide_False, (filter_out _ (entries l)) by first [lia | eapply Forall_impl; [exact Hbl|simpl; lia]].
    apply IHr; [done|lia|done|lia].
  - unfold push. rewrite length_fmap, (proj2 (Nat.ltb_lt (length st) 64)) by lia. cbn [mbind result_bind].
    assert (Hok' : stack_ok ns (T i l k0 v0 r :: st)) by (destruct Hok; split; [by constructor|done]).
    destruct (IHl fuel (T i l k0 v0 r :: st) (S work) Hl ltac:(lia) Hok') as (st' & w & Hrun & Hok2 & Hrem); [simpl; lia|].
    exists (st' ++ [T i l k0 v0 r]), w. rewrite <- app_assoc. cbn [app]. split; [exact Hrun|]. split; [done|]. rewrite Hrem.
    rewrite decide_True, (filter_all _ (entries r)) by first [lia | eapply Forall_impl; [exact Hbr|simpl; lia]].
    by rewrite <- app_assoc.
Qed.

Lemma visit_loop_ok {S : Type} (visit : S → Z → Z → S) ns lo hi : ∀ fuel t st work s,
  stored ns t → stack_ok ns st → (length st + ht t ≤ 64)%nat →
  StronglySorted key_lt (filter (λ e, lo ≤ e.1) (entries t) ++ remaining st) → Forall (λ e, lo ≤ e.1) (remaining st) →
  (length (entries t) + length (remaining st) < fuel)%nat →
  ∃ w, visit_loop visit fuel ns lo hi (root_of t) (root_of <$> st) work s =
    @Ok E _ (foldl (λ s e, visit s e.1 e.2) s (filter (λ e, e.1 ≤ hi) (filter (λ e, lo ≤ e.1) (entries t) ++ remaining st)), w).
Proof.
  induction fuel as [|fuel IH]; intros t st work s Hst Hok Hroom Hsort Hlo Hf; [lia|]. cbn [visit_loop].
  destruct (descend_ok ns lo t (Datatypes.S (length ns)) st work Hst) as (st' & w & -> & Hok' & Hrem); [destruct Hst as (_ & _ & ?); lia|done..|].
  cbn [mbind result_bind]. rewrite <- Hrem in Hsort |- *.
  assert (Hlo' : Forall (λ e, lo ≤ e.1) (remaining (st' ++ st))).
  { rewrite Hrem. apply Forall_app. split; [|done]. apply Forall_forall. by intros e [? _]%list_elem_of_filter. }
  assert (Hlen : (length (remaining (st' ++ st)) ≤ length (entries t) + length (remaining st))%nat).
  { rewrite Hrem, length_app. pose proof (length_filter (λ e : Z * Z, lo ≤ e.1) (entries t)). lia. }
  destruct (st' ++ st) as [|t1 st1]; [by exists w|]. destruct Hok' as [[[Ht1 Hne] Hst1]%Forall_cons [Hfit Hfits]].
  destruct t1 as [|i l k v r]; [done|]. pose proof (stored_node _ _ _ _ _ _ Ht1) as (_ & Hr & Hi & _ & Hbr).
  cbn [fmap list_fmap root_of]. rewrite (node_ok _ _ _ Hi). cbn [mbind result_bind entry_node key val right].
  change (remaining (T i l k v r :: st1)) with ((k, v) :: entries r ++ remaining st1) in *.
  apply StronglySorted_cons in Hsort as [Hk Hsort]. apply Forall_cons in Hlo' as [Hlk Hlo'].
  rewrite filter_cons. cbn [fst]. destruct (Z.ltb_spec hi k).
  - exists (Datatypes.S w). rewrite decide_False, filter_out; [done| |lia]. eapply Forall_impl; [exact Hk|]. unfold key_lt. simpl. lia.
  - rewrite decide_True by lia. cbn [foldl fst snd].
    pose proof Hlo' as [Hlr Hl1]%Forall_app.
    assert (Hfr : filter (λ e, lo ≤ e.1) (entries r) = entries r) by (by apply filter_all).
    destruct (IH r st1 (Datatypes.S w) (visit s k v) Hr) as (w' & ->).
    + by split.
    + cbn [ht] in Hfit. lia.
    + by rewrite Hfr.
    + done.
    + cbn [length] in Hlen. rewrite length_app in Hlen. lia.
    + exists w'. by rewrite Hfr.
Qed.

(** * The structural check *)

Lemma walk_ok ns t : ∀ fuel lo hi, rep ns t → balanced t → StronglySorted key_lt (entries t) →
  Forall (λ e, beyond e.1 lo hi = false) (entries t) → (ht t < fuel)%nat →
  walk fuel ns (root_of t) lo hi = Ok (Z.of_nat (ht t), size t).
Proof.
  induction t as [|i l IHl k v r IHr]; intros [|fuel] lo hi Hrep Hbal Hs Hb Hf; try (simpl in Hf; lia); cbn [walk root_of].
  - by rewrite Z.eqb_refl.
  - rewrite (root_not_nil _ _ _ _ _ _ Hrep). destruct Hrep as (Hi & Hl & Hr), Hbal as (Bl & Br & H1 & H2).
    rewrite (node_ok _ _ _ Hi). cbn [mbind result_bind entry_node key left right height ht entries] in *.
    apply sorted_node in Hs as (Hsl & Hsr & Hbl & Hbr & _). apply Forall_app in Hb as [Hb1 [Hb2 Hb3]%Forall_cons]. cbn [fst] in Hb2.
    rewrite Hb2, (IHl fuel), (IHr fuel); [|done|done|done| |lia|done|done|done| |lia]; cbn [mbind result_bind].
    + rewrite (proj2 (Z.ltb_ge _ _)) by lia. replace (1 + Z.max (Z.of_nat (ht l)) (Z.of_nat (ht r))) with (Z.of_nat (S (ht l `max` ht r))) by lia.
      rewrite Z.eqb_refl. cbn [negb]. by rewrite size_T.
    + apply Forall_forall. intros e He. rewrite Forall_forall in Hbr, Hb3. specialize (Hbr _ He). specialize (Hb3 _ He).
      unfold beyond in *. cbn [fst] in *. apply orb_false_iff in Hb3 as [_ ->]. apply orb_false_iff. split; [lia|done].
    + apply Forall_forall. intros e He. rewrite Forall_forall in Hbl, Hb1. specialize (Hbl _ He). specialize (Hb1 _ He).
      unfold beyond in *. cbn [fst] in *. apply orb_false_iff in Hb1 as [-> _]. apply orb_false_iff. split; [done|lia].
Qed.

(** * Refinement *)

(** The map [M] that the state stands for. *)
Definition represents (m : AvlMap) (M : gmap Z Z) : Prop :=
  ∃ t fl, arena m t fl ∧ ∀ k v, M !! k = Some v ↔ (k, v) ∈ entries t.

(** An entry of [M] whose key satisfies [P] and comes before all others in the order [R]. *)
Definition best (R : Z → Z → Prop) (M : gmap Z Z) (P : Z → Prop) (o : option (Z * Z)) : Prop :=
  match o with
  | Some (k, v) => M !! k = Some v ∧ P k ∧ ∀ k' v', M !! k' = Some v' → P k' → R k k'
  | None => ∀ k v, M !! k = Some v → ¬ P k
  end.

Lemma sorted_keys es : StronglySorted key_lt es → NoDup es.*1.
Proof.
  induction 1 as [|e es _ IH Hall]; constructor; [|done]. intros (e' & He & Hin)%list_elem_of_fmap.
  rewrite Forall_forall in Hall. specialize (Hall _ Hin). unfold key_lt in Hall. lia.
Qed.

Lemma entries_map t (M : gmap Z Z) : StronglySorted key_lt (entries t) → (∀ k v, M !! k = Some v ↔ (k, v) ∈ entries t) →
  M = list_to_map (entries t).
Proof.
  intros Hs HM. apply map_eq. intros k. apply option_eq. intros v. rewrite HM.
  by rewrite elem_of_list_to_map by by apply sorted_keys.
Qed.

Lemma size_of (M : gmap Z Z) t : StronglySorted key_lt (entries t) → (∀ k v, M !! k = Some v ↔ (k, v) ∈ entries t) → base.size M = size t.
Proof. intros Hs HM. rewrite (entries_map t M Hs HM). by apply map_size_list_to_map, sorted_keys. Qed.

Lemma key_none (M : gmap Z Z) t k : (∀ k v, M !! k = Some v ↔ (k, v) ∈ entries t) → M !! k = None ↔ k ∉ (entries t).*1.
Proof.
  intros HM. rewrite eq_None_not_Some. split; intros Hn H; apply Hn.
  - apply list_elem_of_fmap in H as ([a v] & -> & Hin). exists v. by apply HM.
  - destruct H as [v Hv]. apply list_elem_of_fmap. exists (k, v). split; [done|by apply HM].
Qed.

Lemma sorted_last es : StronglySorted key_lt es →
  match last es with Some e => e ∈ es ∧ ∀ e', e' ∈ es → e'.1 ≤ e.1 | None => es = [] end.
Proof.
  destruct es as [|e es _] using rev_ind; [done|]. rewrite last_snoc. intros (H & _ & _)%StronglySorted_app. split; [set_solver|].
  intros e' [Hin| ->%list_elem_of_singleton]%elem_of_app; [|done]. assert (Hlt : key_lt e' e) by (apply H; [done|left]). unfold key_lt in Hlt. lia.
Qed.

Lemma sorted_head es : StronglySorted key_lt es →
  match head es with Some e => e ∈ es ∧ ∀ e', e' ∈ es → e.1 ≤ e'.1 | None => es = [] end.
Proof.
  destruct 1 as [|e es _ Hall]; [done|]. split; [left|]. rewrite Forall_forall in Hall.
  intros e' [->|Hin]%elem_of_cons; [done|]. specialize (Hall _ Hin). unfold key_lt in Hall. lia.
Qed.

Lemma best_filter (R : Z → Z → Prop) (P : Z → Prop) `{∀ k, Decision (P k)} (M : gmap Z Z) t o :
  (∀ k v, M !! k = Some v ↔ (k, v) ∈ entries t) →
  match o with
  | Some e => e ∈ filter (λ e : Z * Z, P e.1) (entries t) ∧ ∀ e', e' ∈ filter (λ e : Z * Z, P e.1) (entries t) → R e.1 e'.1
  | None => filter (λ e : Z * Z, P e.1) (entries t) = []
  end → best R M P o.
Proof.
  intros HM. unfold best. destruct o as [[k v]|].
  - intros [[Hp Hin]%list_elem_of_filter Hall]. split; [by apply HM|]. split; [done|]. intros k' v' Hk' Hp'.
    apply (Hall (k', v')). apply list_elem_of_filter. split; [done|by apply HM].
  - intros E k v Hk Hp. assert (Hin : (k, v) ∈ filter (λ e : Z * Z, P e.1) (entries t)).
    { apply list_elem_of_filter. split; [done|by apply HM]. }
    rewrite E in Hin. by apply elem_of_nil in Hin.
Qed.

Lemma insert_at_dup m k v t : ∀ fuel, rep (nodes m) t → StronglySorted key_lt (entries t) → k ∈ (entries t).*1 →
  insert_at fuel m (root_of t) k v = @Panic E _.
Proof.
  induction t as [|i l IHl k0 v0 r IHr]; intros [|fuel] Hrep Hs Hk; try done; [by apply elem_of_nil in Hk|].
  cbn [insert_at root_of]. rewrite (root_not_nil _ _ _ _ _ _ Hrep). destruct Hrep as (Hi & Hl & Hr). rewrite (node_ok _ _ _ Hi).
  cbn [mbind result_bind entry_node key left right entries] in *. destruct (Z.eqb_spec k0 k) as [|Hne]; [done|].
  apply sorted_node in Hs as (Hsl & Hsr & Hbl & Hbr & _). rewrite Forall_forall in Hbl, Hbr.
  rewrite fmap_app, fmap_cons, elem_of_app, elem_of_cons in Hk. destruct (Z.ltb_spec k k0).
  - rewrite IHl; [done|done|done|]. destruct Hk as [?|[Hk|([a b] & -> & Hin)%list_elem_of_fmap]]; [done|simpl in Hk; lia|].
    specialize (Hbr _ Hin). simpl in *. lia.
  - rewrite IHr; [done|done|done|]. destruct Hk as [([a b] & -> & Hin)%list_elem_of_fmap|[Hk|?]]; [|simpl in Hk; lia|done].
    specialize (Hbl _ Hin). simpl in *. lia.
Qed.

Lemma insert_dup m t fl k v : arena m t fl → k ∈ (entries t).*1 → insert m k v = @Panic E _.
Proof.
  intros A Hk. unfold insert. fold (ready m). cbv zeta.
  destruct (ready_ok _ _ _ A) as (A' & _). rewrite (arena_root _ _ _ A').
  rewrite insert_at_dup with (t := t); [done|apply A'|apply A'|done].
Qed.

Section operations.
Context (m : AvlMap) (M : gmap Z Z) (t : tree) (fl : list Z).
Hypothesis A : arena m t fl.
Hypothesis HM : ∀ k v, M !! k = Some v ↔ (k, v) ∈ entries t.

Lemma insert_represents k v : M !! k = None → Z.of_nat (len m) < NIL →
  ∃ m', insert m k v = @Ok E _ m' ∧ represents m' (<[k := v]> M) ∧ shadow m' = shadow_alloc (shadow m).
Proof.
  intros Hk Hroom. destruct (insert_ok m t fl k v A) as (m' & t' & fl' & xs & ys & Hrun & A' & Hsh & He & He');
    [by apply (key_none M)|done|]. exists m'. split; [done|]. split; [|done]. exists t', fl'. split; [done|].
  intros k' v'. rewrite lookup_insert_Some, He', HM, He, !elem_of_app, elem_of_cons. split.
  - intros [[-> ->]|[_ [?|?]]]; auto.
  - intros [H|[[= -> ->]|H]]; [|auto|]; (right; split; [intros ->|auto]).
    all: assert (M !! k' = Some v') by (apply HM; rewrite He, elem_of_app; auto); congruence.
Qed.

Lemma remove_represents k : ∃ m', remove m k = @Ok E _ (m', M !! k) ∧ represents m' (delete k M) ∧
  shadow m' = if decide (M !! k = None) then shadow m else shadow_release (shadow m).
Proof.
  destruct (remove_ok m t fl k A) as (m' & t' & fl' & xs & mid & ys & Hrun & A' & He & He' & Hx & Hy & Hm & Hsh).
  rewrite Forall_forall in Hx, Hy.
  assert (Hkv : ∀ v, M !! k = Some v ↔ (k, v) ∈ mid).
  { intros v. rewrite HM, He, !elem_of_app. split; [|auto].
    intros [H|[?|H]]; [specialize (Hx _ H)|done|specialize (Hy _ H)]; simpl in *; lia. }
  assert (Hlk : M !! k = snd <$> head mid).
  { destruct Hm as [->|[v ->]]; simpl; [|by apply Hkv; left].
    apply eq_None_not_Some. intros [v Hv]. apply Hkv in Hv. by apply elem_of_nil in Hv. }
  exists m'. rewrite Hlk. split; [done|]. split.
  - exists t', fl'. split; [done|]. intros k' v'. rewrite lookup_delete_Some, HM, He, He', !elem_of_app.
    assert (Hmk : (k', v') ∈ mid → k' = k) by (destruct Hm as [->|[v ->]]; set_solver).
    split; [intros [Hne [?|[?|?]]]; auto; by destruct Hne; symmetry; auto|].
    intros [H|H]; (split; [|auto]); intros <-; [specialize (Hx _ H)|specialize (Hy _ H)]; simpl in *; lia.
  - rewrite Hsh. apply decide_ext. destruct Hm as [->|[v ->]]; done.
Qed.

Lemma get_represents k : get m k = @Ok E _ (M !! k).
Proof.
  destruct (arena_height _ _ _ A) as [_ Hd]. unfold get. rewrite (arena_root _ _ _ A).
  destruct (get_loop_ok (nodes m) k t (depth m)) as (o & -> & Ho); [apply A|apply A|done|]. f_equal.
  apply option_eq. intros v. by rewrite Ho, HM.
Qed.

Lemma set_represents k v : ∃ m', set m k v = @Ok E _ (m', bool_decide (is_Some (M !! k))) ∧
  represents m' (if decide (is_Some (M !! k)) then <[k := v]> M else M) ∧ shadow m' = shadow m.
Proof.
  destruct (arena_height _ _ _ A) as [_ Hd]. pose proof (slots_nodup _ _ _ A) as Hnd. pose proof (arena_sorted _ _ _ A) as Hs.
  unfold set. rewrite (arena_root _ _ _ A).
  destruct (set_loop_ok (nodes m) k v t (depth m)) as (ns' & -> & Hrep & F); [apply A|done|by apply NoDup_app in Hnd as [? _]|done|].
  cbn [mbind result_bind]. destruct (set_tree_shape k v t) as (Sr & Si & Sh). pose proof F as [Hlen _].
  exists (with_nodes ns' m). split; [|split].
  - do 2 f_equal. apply bool_decide_ext. rewrite <- not_eq_None_Some, (key_none M t k HM).
    split; [by intros ? []|]. intros H. destruct (decide (k ∈ (entries t).*1)); [done|by destruct H].
  - exists (set_tree k v t), fl. pose proof (set_tree_entries k v t Hs) as Hent. split.
    + split; cbn [nodes root free nfree len cap with_nodes]; rewrite ?Hlen, ?Si; try apply A; try done.
      * by rewrite Sr, (arena_root _ _ _ A).
      * by apply set_tree_balanced, A.
      * rewrite Hent. clear - Hs. induction Hs as [|e es _ IH Hall]; [constructor|]. cbn. constructor; [done|].
        apply Forall_fmap. eapply Forall_impl; [exact Hall|]. intros e'. unfold key_lt, put. cbn. repeat case_match; simpl; lia.
      * eapply chain_frame; [exact F| |apply A]. intros j Hj Ht. apply NoDup_app in Hnd as (_ & Hnd & _). by apply (Hnd j).
      * rewrite (arena_slots _ _ _ A). by rewrite (all_slots_length ns' (nodes m)).
      * rewrite (arena_len _ _ _ A). unfold size. by rewrite Hent, length_fmap.
    + intros k' v'. rewrite Hent, list_elem_of_fmap. destruct (decide (is_Some (M !! k))) as [[v0 Hv0]|Hn].
      * rewrite lookup_insert_Some, HM. split.
        { intros [[-> ->]|[Hne Hin]]; [exists (k', v0); unfold put; rewrite Z.eqb_refl; split; [done|by apply HM]|].
          exists (k', v'). unfold put. cbn [fst]. by rewrite (proj2 (Z.eqb_neq _ _)) by done. }
        { intros ([a b] & E & Hin). unfold put in E. cbn [fst] in E. destruct (Z.eqb_spec a k); simplify_eq; [auto|by right]. }
      * assert (Hnk : ∀ b, (k, b) ∉ entries t) by (intros b Hb; apply Hn; exists b; by apply HM). rewrite HM. split.
        { intros Hin. exists (k', v'). split; [|done]. unfold put. cbn [fst]. destruct (Z.eqb_spec k' k) as [->|]; [by apply Hnk in Hin|done]. }
        { intros ([a b] & E & Hin). unfold put in E. cbn [fst] in E. destruct (Z.eqb_spec a k) as [->|]; [by apply Hnk in Hin|by simplify_eq]. }
  - unfold shadow. cbn. by rewrite Hlen.
Qed.

Lemma pred_represents k work : ∃ o w, pred_counted m k work = @Ok E _ (o, (work + w)%nat) ∧ (w ≤ 45)%nat ∧
  best (λ a b, b ≤ a) M (λ a, a ≤ k) o.
Proof.
  destruct (arena_height _ _ _ A) as [Hh Hd]. pose proof (arena_sorted _ _ _ A) as Hs. unfold pred_counted. rewrite (arena_root _ _ _ A).
  destruct (pred_loop_ok (nodes m) k t (depth m) None work) as (w & -> & Hw); [apply A|done|lia|].
  eexists _, w. split; [done|]. split; [lia|]. apply (best_filter _ _ M t _ HM).
  pose proof (sorted_last _ (sorted_filter _ (λ e : Z * Z, e.1 ≤ k) _ Hs)) as H. by destruct (last (filter _ (entries t))).
Qed.

Lemma succ_represents k : ∃ o, succ m k = @Ok E _ o ∧ best (λ a b, a ≤ b) M (λ a, k ≤ a) o.
Proof.
  destruct (arena_height _ _ _ A) as [Hh Hd]. pose proof (arena_sorted _ _ _ A) as Hs. unfold succ. rewrite (arena_root _ _ _ A).
  rewrite (succ_loop_ok (nodes m) k t (depth m) None) by (done || apply A).
  eexists. split; [done|]. apply (best_filter _ _ M t _ HM).
  pose proof (sorted_head _ (sorted_filter _ (λ e : Z * Z, k ≤ e.1) _ Hs)) as H. by destruct (head (filter _ (entries t))).
Qed.

Lemma range_represents {S} lo hi (visit : S → Z → Z → S) s : ∃ es, range_visit m lo hi visit s =
    @Ok E _ (foldl (λ s e, visit s e.1 e.2) s es) ∧ StronglySorted key_lt es ∧
  ∀ k v, (k, v) ∈ es ↔ M !! k = Some v ∧ lo ≤ k ≤ hi.
Proof.
  destruct (arena_height _ _ _ A) as [Hh Hd]. pose proof (arena_sorted _ _ _ A) as Hs. pose proof (arena_length _ _ _ A) as Hl.
  unfold range_visit, range_visit_counted. rewrite (arena_root _ _ _ A).
  destruct (visit_loop_ok visit (nodes m) lo hi (depth m) t [] 0 s) as (w & Hrun).
  - split_and!; [apply A|done|]. unfold depth in Hd. lia.
  - by split.
  - simpl. lia.
  - change (remaining []) with (@nil (Z * Z)). rewrite app_nil_r. by apply sorted_filter.
  - done.
  - change (remaining []) with (@nil (Z * Z)). unfold depth, size in *. simpl. lia.
  - change (root_of <$> []) with (@nil Z) in Hrun. rewrite Hrun. cbn [mbind result_bind].
    change (remaining []) with (@nil (Z * Z)). rewrite app_nil_r. eexists. split; [done|]. split; [by do 2 apply sorted_filter|].
    intros k v. rewrite !list_elem_of_filter, HM. simpl. tauto.
Qed.

Lemma check_represents : check m = Ok ().
Proof.
  destruct (arena_height _ _ _ A) as [Hh Hd]. pose proof (arena_length _ _ _ A) as Hl. unfold check. rewrite (arena_root _ _ _ A).
  rewrite (walk_ok (nodes m) t (depth m) None None); [|apply A|apply A|apply A|by apply Forall_forall|done].
  cbn [mbind result_bind]. rewrite (arena_len _ _ _ A), Nat.eqb_refl. cbn [negb]. rewrite (arena_nfree _ _ _ A), <- Hl, Nat.eqb_refl. done.
Qed.

Lemma reserve_represents alloc c : match try_reserve_slots alloc c m with
  | Ok m' => represents m' M ∧ (c ≤ cap m')%nat ∧ length (nodes m') = length (nodes m) ∧ nfree m' = nfree m
  | Err _ => (cap m < c)%nat ∧ ∃ c', alloc c' = false
  | Panic => False
  end.
Proof.
  pose proof (arena_cap _ _ _ A) as Hc. unfold try_reserve_slots. destruct (Nat.ltb_spec (cap m) c); [|split; [by exists t, fl|done]].
  destruct (alloc _) eqn:E; [|split; [done|by eexists]].
  split; [exists t, fl; split; [apply arena_with_cap; [done|unfold reserve_exact; lia]|done]|].
  split; [cbn; unfold reserve_exact; lia|done].
Qed.

End operations.

Lemma represents_new : represents new ∅.
Proof.
  exists Leaf, []. split; [|intros k v; rewrite lookup_empty, elem_of_nil; done].
  split; simpl; first [done | constructor].
Qed.

(** C11: the arena map refines a finite map.  The new map is empty.  Inserting a new key, while
    an id is left, adds it, and inserting a present key panics; removal deletes a key and
    returns its value; [get] and [set] read and replace it; [pred] gives the greatest entry up
    to a key, after looking at 45 nodes at most, and [succ] the least entry from a key on; a
    range visit gives exactly the entries in the range, in key order, within its fixed stack.
    No operation panics or runs on.  The slots and the capacity are those the counter replica
    predicts, and the structural check succeeds. *)
Theorem avl_refines m M : represents m M →
  represents new ∅ ∧ len m = base.size M ∧ check m = Ok () ∧
  (∀ k v, M !! k = None → Z.of_nat (len m) < NIL →
    ∃ m', insert m k v = @Ok E _ m' ∧ represents m' (<[k := v]> M) ∧ shadow m' = shadow_alloc (shadow m)) ∧
  (∀ k v, is_Some (M !! k) → insert m k v = @Panic E _) ∧
  (∀ k, ∃ m', remove m k = @Ok E _ (m', M !! k) ∧ represents m' (delete k M) ∧
    shadow m' = if decide (M !! k = None) then shadow m else shadow_release (shadow m)) ∧
  (∀ k, get m k = @Ok E _ (M !! k)) ∧
  (∀ k v, ∃ m', set m k v = @Ok E _ (m', bool_decide (is_Some (M !! k))) ∧
    represents m' (if decide (is_Some (M !! k)) then <[k := v]> M else M) ∧ shadow m' = shadow m) ∧
  (∀ k work, ∃ o w, pred_counted m k work = @Ok E _ (o, (work + w)%nat) ∧ (w ≤ 45)%nat ∧
    best (λ a b, b ≤ a) M (λ a, a ≤ k) o) ∧
  (∀ k, ∃ o, succ m k = @Ok E _ o ∧ best (λ a b, a ≤ b) M (λ a, k ≤ a) o) ∧
  (∀ S lo hi (visit : S → Z → Z → S) s, ∃ es, range_visit m lo hi visit s =
      @Ok E _ (foldl (λ s e, visit s e.1 e.2) s es) ∧ StronglySorted key_lt es ∧
    ∀ k v, (k, v) ∈ es ↔ M !! k = Some v ∧ lo ≤ k ≤ hi) ∧
  (∀ alloc c, match try_reserve_slots alloc c m with
    | Ok m' => represents m' M ∧ (c ≤ cap m')%nat ∧ length (nodes m') = length (nodes m) ∧ nfree m' = nfree m
    | Err _ => (cap m < c)%nat ∧ ∃ c', alloc c' = false
    | Panic => False
    end).
Proof.
  intros (t & fl & A & HM). split; [apply represents_new|].
  split; [rewrite (arena_len _ _ _ A); symmetry; apply size_of; [apply A|done]|].
  split; [by eapply check_represents|]. split; [by eapply insert_represents|].
  split. { intros k v [v' Hv]. eapply insert_dup; [done|]. apply list_elem_of_fmap. exists (k, v'). split; [done|by apply HM]. }
  split; [by eapply remove_represents|]. split; [by eapply get_represents|]. split; [by eapply set_represents|].
  split; [by eapply pred_represents|]. split; [by eapply succ_represents|].
  split; [intros S; by eapply range_represents|]. by eapply reserve_represents.
Qed.

Example avl_refines_witness : ∃ m1 m2, insert new 7 70 = @Ok E _ m1 ∧ remove m1 7 = @Ok E _ (m2, Some 70) ∧
  represents m2 ∅ ∧ shadow m2 = {| slots := 1; sfree := 1; scap := 1 |}.
Proof.
  destruct (avl_refines new ∅ represents_new) as (_ & _ & _ & Hins & _).
  destruct (Hins 7 70) as (m1 & H1 & R1 & S1); [done|reflexivity|].
  destruct (avl_refines m1 _ R1) as (_ & _ & _ & _ & _ & Hrem & _). destruct (Hrem 7) as (m2 & H2 & R2 & S2).
  exists m1, m2. rewrite lookup_insert_eq in H2. split; [done|]. split; [done|]. split.
  - rewrite delete_insert_id in R2 by done. done.
  - rewrite S2, S1. reflexivity.
Defined.
