(* ===== verification/ArcEmit.v ===== *)
(** [engine/authority/arc_emit.rs]: the arcs of the planner's graph.  The pieces of a column
    are nodes; a reader hits an interval of them.  A short interval gives an arc from every
    piece; a long one goes through the nodes of a segment tree over the column, of which
    logarithmically many cover it.

    The sentinel [usize::MAX] of [bases] is [None]; the capacity of a vector that is reserved
    exactly and filled is its length. *)
From S2P Require Import Prelude PlanControl Counted.

Record Column : Type := { col_start : nat; col_end : nat }.
Record Hit : Type := { hit_reader : nat; hit_column : nat; hit_start : nat; hit_end : nat }.
Record PairWitness : Type := { witness_hit : nat; precedent : nat }.

Record EmitWork : Type := {
  e_initialize : Z; e_columns : Z; e_hits : Z; e_pairwise : Z; e_canonical : Z; e_structural : Z
}.

Definition emit_total (w : EmitWork) : Z :=
  (e_initialize w + e_columns w + e_hits w + e_pairwise w + e_canonical w + e_structural w)%Z.

#[export] Instance emit_work : Work EmitWork := {|
  no_work := {| e_initialize := 0; e_columns := 0; e_hits := 0; e_pairwise := 0; e_canonical := 0; e_structural := 0 |};
  add_work a b := {| e_initialize := e_initialize a + e_initialize b; e_columns := e_columns a + e_columns b;
    e_hits := e_hits a + e_hits b; e_pairwise := e_pairwise a + e_pairwise b;
    e_canonical := e_canonical a + e_canonical b; e_structural := e_structural a + e_structural b |};
  work_total := emit_total
|}.

Inductive EmitError (X : Type) : Type :=
| EmitAuthority (e : AuthorityError)
| EmitRuntime (e : X)
| EmitInvalidInput
| SuperLinearWork (charged limit : Z) (work : EmitWork).
Arguments EmitAuthority {X}.
Arguments EmitRuntime {X}.
Arguments EmitInvalidInput {X}.
Arguments SuperLinearWork {X}.

#[export] Instance emit_runtime {X} : From X (EmitError X) := EmitRuntime.

Record Emission : Type := {
  emitted_nodes : nat;
  arcs : list (nat * nat);
  pair_witnesses : list PairWitness;
  selfdep : list Z;
  reader_arcs : Z;
  structural_arcs : Z;
  aux_nodes : Z;
  equivalent_hits : Z;
  charged : Z;
  emission_work : EmitWork;
  emission_peak : Z
}.

Definition emission_heap (e : Emission) : Z :=
  (Z.of_nat (length (arcs e)) * 16 + Z.of_nat (length (pair_witnesses e)) * 16 + Z.of_nat (length (selfdep e)))%Z.

(** [n.checked_add(m)], [n.checked_mul(2)] and [n.checked_sub(1)] of a [usize]. *)
Definition usize_add (n m : nat) : result AuthorityError nat :=
  if (Z.of_nat n + Z.of_nat m <=? u64_max)%Z then Ok (n + m) else Err Alloc.
Definition tree_size (n : nat) : result AuthorityError nat :=
  if (Z.of_nat n * 2 <=? u64_max)%Z then
    match n * 2 with O => Err Alloc | S k => Ok k end
  else Err Alloc.

Definition bit_length (n : nat) : nat := match n with O => 0 | _ => S (Nat.log2 n) end.
Definition threshold (n : nat) : nat := 2 * bit_length n.

Section emit.
Context {S X : Type} (checkpoint : S → Z → X + S) (alloc : nat → Z → bool).

Abbreviation counted := (counted S (EmitError X) EmitWork).
Abbreviation count := (count checkpoint).

Definition more_initialize (w : EmitWork) : EmitWork :=
  {| e_initialize := e_initialize w + 1; e_columns := e_columns w; e_hits := e_hits w;
     e_pairwise := e_pairwise w; e_canonical := e_canonical w; e_structural := e_structural w |}.
Definition more_columns (w : EmitWork) : EmitWork :=
  {| e_initialize := e_initialize w; e_columns := e_columns w + 1; e_hits := e_hits w;
     e_pairwise := e_pairwise w; e_canonical := e_canonical w; e_structural := e_structural w |}.
Definition more_hits (w : EmitWork) : EmitWork :=
  {| e_initialize := e_initialize w; e_columns := e_columns w; e_hits := e_hits w + 1;
     e_pairwise := e_pairwise w; e_canonical := e_canonical w; e_structural := e_structural w |}.
Definition more_pairwise (w : EmitWork) : EmitWork :=
  {| e_initialize := e_initialize w; e_columns := e_columns w; e_hits := e_hits w;
     e_pairwise := e_pairwise w + 1; e_canonical := e_canonical w; e_structural := e_structural w |}.
Definition more_canonical (w : EmitWork) : EmitWork :=
  {| e_initialize := e_initialize w; e_columns := e_columns w; e_hits := e_hits w;
     e_pairwise := e_pairwise w; e_canonical := e_canonical w + 1; e_structural := e_structural w |}.
Definition more_structural (w : EmitWork) : EmitWork :=
  {| e_initialize := e_initialize w; e_columns := e_columns w; e_hits := e_hits w;
     e_pairwise := e_pairwise w; e_canonical := e_canonical w; e_structural := e_structural w + 1 |}.

(** [?] on a result of the authority. *)
Definition authority {A} (r : result AuthorityError A) : counted A := lift (map_err EmitAuthority r).

Definition charge (used n : Z) (limit : option Z) : counted Z :=
  used ← authority (add used n);
  match limit with
  | Some l => if (l <? used)%Z then w ← get_work; lift (Err (SuperLinearWork used l w)) else mret used
  | None => mret used
  end.

(** ** The segment tree *)

(** [while lo < hi], with the nodes it emits. *)
Fixpoint canonical_loop (fuel lo hi : nat) : counted (list nat) :=
  if (lo <? hi)%nat then
    match fuel with
    | O => lift Panic
    | Datatypes.S fuel =>
        _ ← count more_canonical;
        let '(a, lo) := if Nat.odd lo then ([lo], lo + 1) else ([], lo) in
        let '(b, hi) := if Nat.odd hi then ([hi - 1], hi - 1) else ([], hi) in
        rest ← canonical_loop fuel (lo / 2) (hi / 2);
        mret (a ++ b ++ rest)
    end
  else mret [].

Definition canonical (lo hi n : nat) : counted (list nat) :=
  if (lo =? 0)%nat && (hi =? n)%nat then _ ← count more_canonical; mret [1]
  else canonical_loop (hi + n) (lo + n) (hi + n).

(** ** The input *)

Fixpoint check_columns (real : nat) (columns : list Column) (previous : nat) : counted nat :=
  match columns with
  | [] => mret previous
  | col :: columns =>
      _ ← count more_columns;
      if negb (col_start col =? previous)%nat || (col_end col <=? col_start col)%nat || (real <? col_end col)%nat
      then lift (Err EmitInvalidInput)
      else check_columns real columns (col_end col)
  end.

(** ** The sizing pass *)

Record Sizes : Type := {
  bases : list (option nat);
  nodes : nat;
  s_reader : Z;
  s_structural : Z;
  s_aux : Z;
  witnesses : nat;
  s_hits : Z;
  s_charged : Z
}.

(** [for precedent in hit.start..hit.end]. *)
Fixpoint size_pairs (arc_limit : option Z) (reader : nat) (precedents : list nat) (s : Sizes) : counted Sizes :=
  match precedents with
  | [] => mret s
  | p :: precedents =>
      _ ← count more_pairwise;
      if negb (p =? reader)%nat then
        r ← authority (add (s_reader s) 1);
        c ← charge (s_charged s) 1 arc_limit;
        size_pairs arc_limit reader precedents
          {| bases := bases s; nodes := nodes s; s_reader := r; s_structural := s_structural s; s_aux := s_aux s;
             witnesses := witnesses s; s_hits := s_hits s; s_charged := c |}
      else size_pairs arc_limit reader precedents s
  end.

(** The first long hit of a column reserves its tree. *)
Definition size_tree (arc_limit : option Z) (column n : nat) (s : Sizes) : counted Sizes :=
  b ← lift (vec_get (bases s) column);
  match b with
  | Some _ => mret s
  | None =>
      t ← authority (tree_size n);
      bs ← lift (vec_set (bases s) column (Some (nodes s)));
      nodes' ← authority (usize_add (nodes s) t);
      aux ← authority (add (s_aux s) (Z.of_nat t));
      arcs ← authority (add (Z.of_nat (t - 1)) (Z.of_nat n));
      structural ← authority (add (s_structural s) arcs);
      cost ← authority (add (Z.of_nat t) arcs);
      c ← charge (s_charged s) cost arc_limit;
      mret {| bases := bs; nodes := nodes'; s_reader := s_reader s; s_structural := structural; s_aux := aux;
              witnesses := witnesses s; s_hits := s_hits s; s_charged := c |}
  end.

Definition hit_in (real : nat) (hit : Hit) (col : Column) : bool :=
  (hit_reader hit <? real)%nat && (col_start col <=? hit_start hit)%nat && (hit_end hit <=? col_end col)%nat &&
  (hit_start hit <=? hit_end hit)%nat.

Definition size_hit (real : nat) (columns : list Column) (arc_limit : option Z) (hit : Hit) (s : Sizes) : counted Sizes :=
  _ ← count more_hits;
  match columns !! hit_column hit with
  | None => lift (Err EmitInvalidInput)
  | Some col =>
      if negb (hit_in real hit col) then lift (Err EmitInvalidInput)
      else
        let n := col_end col - col_start col in
        let k := hit_end hit - hit_start hit in
        h ← authority (add (s_hits s) (Z.of_nat k));
        let s := {| bases := bases s; nodes := nodes s; s_reader := s_reader s; s_structural := s_structural s;
                    s_aux := s_aux s; witnesses := witnesses s; s_hits := h; s_charged := s_charged s |} in
        if (k <=? threshold n)%nat then
          w ← authority (usize_add (witnesses s) k);
          size_pairs arc_limit (hit_reader hit) (seq (hit_start hit) k)
            {| bases := bases s; nodes := nodes s; s_reader := s_reader s; s_structural := s_structural s;
               s_aux := s_aux s; witnesses := w; s_hits := s_hits s; s_charged := s_charged s |}
        else
          s ← size_tree arc_limit (hit_column hit) n s;
          cover ← canonical (hit_start hit - col_start col) (hit_end hit - col_start col) n;
          let count := Z.of_nat (length cover) in
          r ← authority (add (s_reader s) count);
          c ← charge (s_charged s) count arc_limit;
          mret {| bases := bases s; nodes := nodes s; s_reader := r; s_structural := s_structural s; s_aux := s_aux s;
                  witnesses := witnesses s; s_hits := s_hits s; s_charged := c |}
  end.

Fixpoint size_hits (real : nat) (columns : list Column) (arc_limit : option Z) (hits : list Hit) (s : Sizes) : counted Sizes :=
  match hits with
  | [] => mret s
  | hit :: hits => s ← size_hit real columns arc_limit hit s; size_hits real columns arc_limit hits s
  end.

(** ** The filling pass *)

Record Filling : Type := { f_arcs : list (nat * nat); f_witnesses : list PairWitness; f_selfdep : list Z }.

Fixpoint fill_pairs (id reader : nat) (precedents : list nat) (f : Filling) : counted Filling :=
  match precedents with
  | [] => mret f
  | p :: precedents =>
      _ ← count more_pairwise;
      fill_pairs id reader precedents
        {| f_arcs := if negb (p =? reader)%nat then f_arcs f ++ [(p, reader)] else f_arcs f;
           f_witnesses := f_witnesses f ++ [{| witness_hit := id; precedent := p |}];
           f_selfdep := f_selfdep f |}
  end.

Definition fill_hit (columns : list Column) (bases : list (option nat)) (id : nat) (hit : Hit) (f : Filling) : counted Filling :=
  _ ← count more_hits;
  col ← lift (vec_get columns (hit_column hit));
  sd ← lift (if (hit_start hit <=? hit_reader hit)%nat && (hit_reader hit <? hit_end hit)%nat
             then vec_set (f_selfdep f) (hit_reader hit) 1%Z else Ok (f_selfdep f));
  let f := {| f_arcs := f_arcs f; f_witnesses := f_witnesses f; f_selfdep := sd |} in
  let n := col_end col - col_start col in
  if (hit_end hit - hit_start hit <=? threshold n)%nat then
    fill_pairs id (hit_reader hit) (seq (hit_start hit) (hit_end hit - hit_start hit)) f
  else
    b ← lift (vec_get bases (hit_column hit));
    base ← lift (expect b);
    cover ← canonical (hit_start hit - col_start col) (hit_end hit - col_start col) n;
    mret {| f_arcs := f_arcs f ++ ((λ node, (base + node - 1, hit_reader hit)) <$> cover);
            f_witnesses := f_witnesses f; f_selfdep := f_selfdep f |}.

Fixpoint fill_hits (columns : list Column) (bases : list (option nat)) (id : nat) (hits : list Hit) (f : Filling) : counted Filling :=
  match hits with
  | [] => mret f
  | hit :: hits => f ← fill_hit columns bases id hit f; fill_hits columns bases (id + 1) hits f
  end.

(** Arcs that are pushed one by one, with a count each. *)
Fixpoint push_arcs (new : list (nat * nat)) (arcs : list (nat * nat)) : counted (list (nat * nat)) :=
  match new with
  | [] => mret arcs
  | a :: new => _ ← count more_structural; push_arcs new (arcs ++ [a])
  end.

Fixpoint fill_trees (trees : list (Column * option nat)) (arcs : list (nat * nat)) : counted (list (nat * nat)) :=
  match trees with
  | [] => mret arcs
  | (col, base) :: trees =>
      _ ← count more_columns;
      match base with
      | None => fill_trees trees arcs
      | Some base =>
          let n := col_end col - col_start col in
          arcs ← push_arcs ((λ node, (base + node - 1, base + node / 2 - 1)) <$> seq 2 (2 * n - 2)) arcs;
          arcs ← push_arcs ((λ offset, (col_start col + offset, base + n + offset - 1)) <$> seq 0 n) arcs;
          fill_trees trees arcs
      end
  end.

(** ** The emission *)

Definition emit_counted (real : nat) (columns : list Column) (hits : list Hit) (scratch_limit arc_limit : option Z)
  : counted (Sizes * Filling * list (nat * nat) * Z) :=
  previous ← check_columns real columns 0;
  if negb (previous =? real)%nat then lift (Err EmitInvalidInput)
  else
    temporary ← authority (bytes_of 8 (Z.of_nat (length columns)));
    _ ← authority (admit_scratch temporary scratch_limit);
    _ ← authority (reserve alloc 0 8 (Z.of_nat (length columns)));
    bases' ← fill checkpoint more_initialize [] (length columns) None;
    s ← size_hits real columns arc_limit hits
      {| bases := bases'; nodes := real; s_reader := 0; s_structural := 0; s_aux := 0; witnesses := 0; s_hits := 0; s_charged := 0 |};
    arc_count ← authority (add (s_reader s) (s_structural s));
    a ← authority (bytes_of 16 arc_count);
    w ← authority (bytes_of 16 (Z.of_nat (witnesses s)));
    d ← authority (bytes_of 1 (Z.of_nat real));
    wd ← authority (add w d);
    awd ← authority (add a wd);
    peak ← authority (add temporary awd);
    _ ← authority (admit_scratch peak scratch_limit);
    _ ← authority (reserve alloc 1 16 arc_count);
    _ ← authority (reserve alloc 2 16 (Z.of_nat (witnesses s)));
    _ ← authority (reserve alloc 3 1 (Z.of_nat real));
    selfdep ← fill checkpoint more_initialize [] real 0%Z;
    f ← fill_hits columns (bases s) 0 hits {| f_arcs := []; f_witnesses := []; f_selfdep := selfdep |};
    arcs ← fill_trees (zip columns (bases s)) (f_arcs f);
    if negb (Z.of_nat (length arcs) =? arc_count)%Z || negb (length (f_witnesses f) =? witnesses s)%nat then lift Panic
    else
      _ ← flush_control checkpoint;
      mret (s, f, arcs, peak).

Definition emit_controlled (real : nat) (columns : list Column) (hits : list Hit) (scratch_limit arc_limit : option Z) (s : S)
  : result (EmitError X) (Emission * S) :=
  ctl ← map_err EmitRuntime (new checkpoint s);
  '(mt, (sizes, f, arcs, peak)) ← emit_counted real columns hits scratch_limit arc_limit {| work := no_work; control := ctl |};
  Ok ({| emitted_nodes := nodes sizes; arcs := arcs; pair_witnesses := f_witnesses f; selfdep := f_selfdep f;
         reader_arcs := s_reader sizes; structural_arcs := s_structural sizes; aux_nodes := s_aux sizes;
         equivalent_hits := s_hits sizes; charged := s_charged sizes; emission_work := work mt; emission_peak := peak |},
      state (control mt)).

End emit.

(** ** Examples *)

Definition never (s : ()) (k : Z) : Empty_set + () := inr ().

(** Eleven pieces, of which reader 10 hits nine through four nodes of the tree. *)
Example small_emission :
  ('(e, _) ← emit_controlled never (λ _ _, true) 11 [{| col_start := 0; col_end := 10 |}; {| col_start := 10; col_end := 11 |}]
     [{| hit_reader := 10; hit_column := 0; hit_start := 0; hit_end := 9 |};
      {| hit_reader := 0; hit_column := 1; hit_start := 10; hit_end := 11 |}] None None ();
   Ok (emitted_nodes e, take 4 (arcs e), length (arcs e), selfdep e, charged e))
  = Ok (30, [(28, 10); (15, 10); (18, 10); (13, 10)], 33, replicate 11 0%Z, 52%Z).
Proof. vm_compute. reflexivity. Qed.
