(* ===== verification/ArcEmitFacts.v ===== *)
(** The segment tree of [ArcEmit]: a piece is below a node of the cover of an interval exactly
    when it is in the interval. *)
From S2P Require Import Prelude PlanControl Counted ArcEmit.

Lemma usize_add_yields limit n m : yields limit (usize_add n m) (λ x, x = n + m).
Proof. unfold usize_add. destruct (_ <=? _)%Z; [done|apply refused_alloc]. Qed.

(** * The cover of an interval *)

(** The nodes that [canonical] emits. *)
Fixpoint cover_loop (fuel lo hi : nat) : list nat :=
  if (lo <? hi)%nat then
    match fuel with
    | O => []
    | S fuel =>
        let '(a, lo) := if Nat.odd lo then ([lo], lo + 1) else ([], lo) in
        let '(b, hi) := if Nat.odd hi then ([hi - 1], hi - 1) else ([], hi) in
        a ++ b ++ cover_loop fuel (lo / 2) (hi / 2)
    end
  else [].

Definition cover (lo hi n : nat) : list nat :=
  if (lo =? 0)%nat && (hi =? n)%nat then [1] else cover_loop (hi + n) (lo + n) (hi + n).

(** [x] is [i] levels below [v]. *)
Definition below (v i x : nat) : Prop := x / 2 ^ i = v.

Lemma below_range v i x : below v i x ↔ v * 2 ^ i ≤ x < (v + 1) * 2 ^ i.
Proof.
  unfold below. pose proof (Nat.pow_nonzero 2 i ltac:(done)) as Hp. split.
  - intros <-. pose proof (Nat.div_mod_eq x (2 ^ i)). pose proof (Nat.mod_upper_bound x (2 ^ i) Hp). nia.
  - intros [H1 H2]. symmetry. apply (Nat.div_unique x (2 ^ i) v (x - v * 2 ^ i)); nia.
Qed.

Lemma below_ends v i : below v i (v * 2 ^ i) ∧ below v i ((v + 1) * 2 ^ i - 1).
Proof. pose proof (Nat.pow_nonzero 2 i ltac:(done)) as Hp. rewrite !below_range. nia. Qed.

Lemma below_half v i x : below v i x → below (v / 2) (S i) x.
Proof. unfold below. intros <-. rewrite Nat.pow_succ_r', Nat.mul_comm, Nat.Div0.div_div. done. Qed.

Lemma odd_half x : x = 2 * (x / 2) + (if Nat.odd x then 1 else 0).
Proof. rewrite <- Nat.div2_div. pose proof (Nat.div2_odd x) as H. unfold Nat.b2n in H. exact H. Qed.

Lemma log2_half x : 2 ≤ x → S (Nat.log2 (x / 2)) = Nat.log2 x.
Proof.
  intros Hx. pose proof (odd_half x) as Ho. assert (0 < x / 2) by (apply Nat.div_str_pos; lia).
  destruct (Nat.odd x); [|rewrite Nat.add_0_r in Ho]; rewrite Ho at 2; by rewrite ?Nat.log2_succ_double, ?Nat.log2_double.
Qed.

(** One round: the range of the next level and what is taken out of it. *)
Lemma round lo hi y : lo < hi →
  lo ≤ y < hi ↔ (Nat.odd lo = true ∧ y = lo) ∨ (Nat.odd hi = true ∧ y = hi - 1) ∨
    (if Nat.odd lo then lo + 1 else lo) / 2 ≤ y / 2 < (if Nat.odd hi then hi - 1 else hi) / 2.
Proof.
  intros Hlt. pose proof (odd_half lo) as Hl. pose proof (odd_half hi) as Hh. pose proof (odd_half y) as Hy.
  pose proof (odd_half (lo + 1)) as Hl1. pose proof (odd_half (hi - 1)) as Hh1.
  destruct (Nat.odd lo) eqn:El, (Nat.odd hi) eqn:Eh.
  all: destruct (Nat.odd y), (Nat.odd (lo + 1)), (Nat.odd (hi - 1)); lia || intuition lia.
Qed.

(** At level [j], exactly the positions whose node is in the range are below a node of the
    cover, each at that node's level. *)
Lemma cover_levels fuel : ∀ lo hi, hi ≤ fuel → ∃ lv : list (nat * nat), cover_loop fuel lo hi = lv.*2 ∧
  ∀ y, lo ≤ y < hi ↔ ∃ e, e ∈ lv ∧ below e.2 e.1 y.
Proof.
  induction fuel as [|fuel IH]; intros lo hi Hf; cbn [cover_loop].
  { rewrite (proj2 (Nat.ltb_ge lo hi)) by lia. exists []. split; [done|]. intros y. split; [lia|]. by intros (? & ?%elem_of_nil & _). }
  destruct (Nat.ltb_spec lo hi) as [Hlt|Hge].
  2:{ exists []. split; [done|]. intros y. split; [lia|]. by intros (? & ?%elem_of_nil & _). }
  set (lo' := if Nat.odd lo then lo + 1 else lo). set (hi' := if Nat.odd hi then hi - 1 else hi).
  destruct (IH (lo' / 2) (hi' / 2)) as (lv & Hlv & Hspec).
  { assert (hi' / 2 < hi); [|lia]. apply Nat.Div0.div_lt_upper_bound. unfold hi'. destruct (Nat.odd hi); lia. }
  exists ((if Nat.odd lo then [(0, lo)] else []) ++ (if Nat.odd hi then [(0, hi - 1)] else []) ++ ((λ e, (S e.1, e.2)) <$> lv)).
  split.
  - rewrite !fmap_app, <- list_fmap_compose. unfold lo', hi' in Hlv. change (snd ∘ (λ e : nat * nat, (S e.1, e.2))) with (@snd nat nat).
    by destruct (Nat.odd lo), (Nat.odd hi); cbn [fmap list_fmap snd]; rewrite <- Hlv.
  - intros y. rewrite (round lo hi y Hlt). fold lo' hi'. rewrite (Hspec (y / 2)).
    assert (H0 : ∀ v z, below v 0 z ↔ z = v) by (intros; unfold below; by rewrite Nat.pow_0_r, Nat.div_1_r).
    assert (HS : ∀ e, below e.2 (S e.1) y ↔ below e.2 e.1 (y / 2)).
    { intros e. unfold below. by rewrite Nat.pow_succ_r', Nat.Div0.div_div. }
    split.
    + intros [[Ho ->]|[[Ho ->]|(e & He & Hb)]].
      * exists (0, lo). rewrite Ho. split; [left|by apply H0].
      * exists (0, hi - 1). rewrite Ho. split; [apply elem_of_app; right; left|by apply H0].
      * exists (S e.1, e.2). split; [|by apply (proj2 (HS e))]. apply elem_of_app. right. apply elem_of_app. right.
        apply list_elem_of_fmap. by exists e.
    + intros (e & [He|[He|He]%elem_of_app]%elem_of_app & Hb).
      * destruct (Nat.odd lo) eqn:Eo; [|by apply elem_of_nil in He]. apply list_elem_of_singleton in He as ->.
        apply (proj1 (H0 _ _)) in Hb. left. split; [done|exact Hb].
      * destruct (Nat.odd hi) eqn:Eo; [|by apply elem_of_nil in He]. apply list_elem_of_singleton in He as ->.
        apply (proj1 (H0 _ _)) in Hb. right. left. split; [done|exact Hb].
      * apply list_elem_of_fmap in He as (e' & -> & He'). right. right. exists e'. split; [done|]. by apply (proj1 (HS e')).
Qed.

(** One round takes at most two nodes and halves the range. *)
Lemma round_bounds lo hi : 1 ≤ lo → lo < hi →
  let p := if Nat.odd lo then ([lo], lo + 1) else ([], lo) in
  let q := if Nat.odd hi then ([hi - 1], hi - 1) else ([], hi) in
  length p.1 ≤ 1 ∧ 1 ≤ p.2 / 2 ∧ length q.1 ≤ 1 ∧ q.2 / 2 < hi ∧ S (Nat.log2 (q.2 / 2)) ≤ Nat.log2 hi.
Proof.
  intros Hlo Hlt p q. rewrite <- (log2_half hi) by lia. assert (hi / 2 < hi) by (apply Nat.Div0.div_lt_upper_bound; lia).
  assert (Hq : length q.1 ≤ 1 ∧ q.2 / 2 ≤ hi / 2).
  { unfold q. destruct (Nat.odd hi); cbn [fst snd length]; (split; [lia|]); apply Nat.Div0.div_le_mono; lia. }
  pose proof (Nat.log2_le_mono (q.2 / 2) (hi / 2) ltac:(lia)).
  assert (Hp : length p.1 ≤ 1 ∧ 1 ≤ p.2 / 2); [|lia].
  unfold p. pose proof (odd_half lo). destruct (Nat.odd lo); cbn [fst snd length]; (split; [lia|]); apply Nat.div_le_lower_bound; lia.
Qed.

Lemma cover_loop_length fuel : ∀ lo hi, 1 ≤ lo → length (cover_loop fuel lo hi) ≤ 2 * Nat.log2 hi.
Proof.
  induction fuel as [|fuel IH]; intros lo hi Hlo; cbn [cover_loop]; destruct (Nat.ltb_spec lo hi) as [Hlt|]; try (simpl; lia).
  pose proof (round_bounds lo hi Hlo Hlt) as Hb. cbv zeta in Hb.
  destruct (if Nat.odd lo then _ else _) as [a lo'], (if Nat.odd hi then _ else _) as [b hi']. cbn [fst snd] in Hb.
  specialize (IH (lo' / 2) (hi' / 2) ltac:(lia)). rewrite !length_app. lia.
Qed.

Lemma bit_length_log2 n : 0 < n → bit_length n = Nat.log2 (2 * n).
Proof. intros Hn. rewrite Nat.log2_double by done. unfold bit_length. by destruct n; [lia|]. Qed.

(** A cover has logarithmically many nodes. *)
Lemma cover_length lo hi n : lo ≤ hi ≤ n → 0 < n → length (cover lo hi n) ≤ threshold n.
Proof.
  intros Hr Hn. unfold cover, threshold. rewrite bit_length_log2 by done. case_match.
  - rewrite Nat.log2_double by done. simpl. lia.
  - pose proof (cover_loop_length (hi + n) (lo + n) (hi + n) ltac:(lia)).
    pose proof (Nat.log2_le_mono (hi + n) (2 * n) ltac:(lia)). lia.
Qed.

(** The leaves of the tree of [n] pieces are [n], ..., [2 n - 1]. *)
Lemma cover_loop_exact lo hi n x : lo ≤ hi ≤ n → n ≤ x < 2 * n →
  (∃ v, v ∈ cover_loop (hi + n) (lo + n) (hi + n) ∧ ∃ i, below v i x) ↔ lo + n ≤ x < hi + n.
Proof.
  intros Hr Hx. destruct (cover_levels (hi + n) (lo + n) (hi + n) ltac:(done)) as (lv & -> & Hspec). rewrite Hspec.
  split; [|intros ([i v] & He & Hb); exists v; split; [by apply (list_elem_of_fmap_2 snd) in He|by exists i]].
  intros (v & ([k v'] & -> & He)%list_elem_of_fmap & i & Hb). exists (k, v'). split; [done|]. cbn [fst snd] in *.
  pose proof (Nat.pow_nonzero 2 k ltac:(done)) as Hk. apply below_range in Hb.
  pose proof (proj2 (Hspec (v' * 2 ^ k)) (ex_intro _ _ (conj He (proj1 (below_ends v' k))))) as Hlow.
  pose proof (proj2 (Hspec ((v' + 1) * 2 ^ k - 1)) (ex_intro _ _ (conj He (proj2 (below_ends v' k))))) as Hhigh.
  destruct (Nat.lt_trichotomy i k) as [Hlt|[->|Hgt]]; [|by apply below_range|].
  - assert (Hp : 2 * 2 ^ i ≤ 2 ^ k) by (rewrite <- Nat.pow_succ_r'; apply Nat.pow_le_mono_r; lia). nia.
  - assert (Hp : 2 * 2 ^ k ≤ 2 ^ i) by (rewrite <- Nat.pow_succ_r'; apply Nat.pow_le_mono_r; lia). nia.
Qed.

Lemma cover_exact lo hi n x : lo ≤ hi ≤ n → n ≤ x < 2 * n →
  (∃ v, v ∈ cover lo hi n ∧ ∃ i, below v i x) ↔ lo + n ≤ x < hi + n.
Proof.
  intros Hr Hx. unfold cover. destruct ((lo =? 0) && (hi =? n)) eqn:E; [|by apply cover_loop_exact].
  apply andb_true_iff in E as [->%Nat.eqb_eq ->%Nat.eqb_eq]. split; [lia|]. intros _. exists 1. split; [by left|].
  exists (Nat.log2 x). apply below_range. pose proof (Nat.log2_spec x ltac:(lia)) as Hl. rewrite Nat.pow_succ_r' in Hl. lia.
Qed.

(** The nodes of a cover are nodes of the tree. *)
Lemma cover_nodes lo hi n v : lo ≤ hi ≤ n → 0 < n → v ∈ cover lo hi n → 1 ≤ v < 2 * n.
Proof.
  intros Hr Hn. unfold cover. case_match; [intros ->%list_elem_of_singleton; lia|].
  destruct (cover_levels (hi + n) (lo + n) (hi + n) ltac:(done)) as (lv & -> & Hspec).
  intros ([k v'] & -> & He)%list_elem_of_fmap. cbn [snd]. pose proof (Nat.pow_nonzero 2 k ltac:(done)) as Hk.
  pose proof (proj2 (Hspec (v' * 2 ^ k)) (ex_intro _ _ (conj He (proj1 (below_ends v' k))))) as Hlow. nia.
Qed.

(** * The arcs *)

Definition pieces (col : Column) : nat := col_end col - col_start col.

(** The columns are the pieces [previous], ..., [real - 1], cut in nonempty intervals. *)
Fixpoint partition (previous : nat) (columns : list Column) (real : nat) : Prop :=
  match columns with
  | [] => previous = real
  | col :: columns =>
      col_start col = previous ∧ col_start col < col_end col ∧ col_end col ≤ real ∧ partition (col_end col) columns real
  end.

Lemma partition_bounds columns real : ∀ previous c col, partition previous columns real → columns !! c = Some col →
  previous ≤ col_start col < col_end col ∧ col_end col ≤ real.
Proof.
  induction columns as [|col0 columns IH]; intros previous c col; [done|]. intros (<- & Hlt & Hle & Hp).
  destruct c as [|c]; cbn; [intros [= <-]; lia|]. intros Hc. specialize (IH _ _ _ Hp Hc). lia.
Qed.

Lemma partition_index columns real : ∀ previous c c' col col' u, partition previous columns real →
  columns !! c = Some col → columns !! c' = Some col' → col_start col ≤ u < col_end col → col_start col' ≤ u < col_end col' → c = c'.
Proof.
  induction columns as [|col0 columns IH]; intros previous c c' col col' u; [done|]. intros (<- & Hlt & Hle & Hp).
  destruct c as [|c], c' as [|c']; cbn; intros Hc Hc' Hu Hu'; simplify_eq; [done| | |f_equal; by eapply (IH _ c c')].
  - pose proof (partition_bounds _ _ _ _ _ Hp Hc'). lia.
  - pose proof (partition_bounds _ _ _ _ _ Hp Hc). lia.
Qed.

(** [u] is read by [w]. *)
Definition covers (hits : list Hit) (u w : nat) : Prop :=
  ∃ hit, hit ∈ hits ∧ hit_reader hit = w ∧ hit_start hit ≤ u < hit_end hit.

Section arcs.
Context (real : nat) (columns : list Column) (hits : list Hit) (bases : list (option nat)) (nodes : nat).

Definition hit_ok (hit : Hit) : Prop := ∃ col, columns !! hit_column hit = Some col ∧ hit_in real hit col = true.

(** A hit that goes through the tree. *)
Definition long (col : Column) (hit : Hit) : bool := negb (hit_end hit - hit_start hit <=? threshold (pieces col))%nat.

Definition tree_of (c : nat) (col : Column) (b : nat) : Prop := columns !! c = Some col ∧ bases !! c = Some (Some b).

Record trees_ok : Prop := {
  trees_length : length bases = length columns;
  trees_range c col b : tree_of c col b → real ≤ b ∧ b + (2 * pieces col - 1) ≤ nodes;
  trees_apart c c' col col' b b' : tree_of c col b → tree_of c' col' b' → c ≠ c' →
    b + (2 * pieces col - 1) ≤ b' ∨ b' + (2 * pieces col' - 1) ≤ b;
  trees_needed hit col : hit ∈ hits → columns !! hit_column hit = Some col → long col hit = true →
    ∃ b, bases !! hit_column hit = Some (Some b)
}.

Inductive arc : nat → nat → Prop :=
| arc_pair hit col u : hit ∈ hits → columns !! hit_column hit = Some col → long col hit = false →
    hit_start hit ≤ u < hit_end hit → u ≠ hit_reader hit → arc u (hit_reader hit)
| arc_cover hit col b v : hit ∈ hits → tree_of (hit_column hit) col b → long col hit = true →
    v ∈ cover (hit_start hit - col_start col) (hit_end hit - col_start col) (pieces col) → arc (b + v - 1) (hit_reader hit)
| arc_parent c col b v : tree_of c col b → 2 ≤ v < 2 * pieces col → arc (b + v - 1) (b + v / 2 - 1)
| arc_leaf c col b j : tree_of c col b → j < pieces col → arc (col_start col + j) (b + pieces col + j - 1).

Context (Hpart : partition 0 columns real) (Hhits : Forall hit_ok hits) (Htrees : trees_ok).

Lemma hit_bounds hit : hit ∈ hits → ∃ col, columns !! hit_column hit = Some col ∧ hit_reader hit < real ∧
  col_start col ≤ hit_start hit ≤ hit_end hit ∧ hit_end hit ≤ col_end col ∧ col_end col ≤ real ∧ 0 < pieces col.
Proof.
  intros Hin. rewrite Forall_forall in Hhits. destruct (Hhits _ Hin) as (col & Hc & Hok). exists col. split; [done|].
  pose proof (partition_bounds _ _ _ _ _ Hpart Hc). unfold pieces. unfold hit_in in Hok.
  rewrite !andb_true_iff, Nat.ltb_lt, !Nat.leb_le in Hok. lia.
Qed.

Lemma tree_bounds c col b : tree_of c col b → col_start col < col_end col ∧ col_end col ≤ real ∧ 0 < pieces col ∧
  real ≤ b ∧ b + (2 * pieces col - 1) ≤ nodes.
Proof.
  intros Ht. pose proof Ht as [Hc _]. pose proof (partition_bounds _ _ _ _ _ Hpart Hc).
  pose proof (trees_range Htrees _ _ _ Ht). unfold pieces in *. lia.
Qed.

Lemma tree_unique c c' col col' b b' v v' : tree_of c col b → tree_of c' col' b' → 1 ≤ v < 2 * pieces col →
  1 ≤ v' < 2 * pieces col' → b + v - 1 = b' + v' - 1 → c = c' ∧ col = col' ∧ b = b' ∧ v = v'.
Proof.
  intros Ht Ht' Hv Hv' E. destruct (decide (c = c')) as [->|Hne].
  - destruct Ht as [Hc Hb], Ht' as [Hc' Hb']. simplify_eq. split_and!; [done|done|done|lia].
  - destruct (trees_apart Htrees _ _ _ _ _ _ Ht Ht' Hne); lia.
Qed.

(** What a path from the piece [u] to [x] means: a piece is read in the end, and a node of a
    tree is above a piece that is. *)
Definition stands (u x : nat) : Prop :=
  (x < real → rtc (covers hits) u x) ∧
  (∀ c col b v, tree_of c col b → 1 ≤ v < 2 * pieces col → x = b + v - 1 →
    ∃ j i, j < pieces col ∧ below v i (pieces col + j) ∧ rtc (covers hits) u (col_start col + j)).

Lemma stands_step u x y : u < real → stands u x → arc x y → stands u y.
Proof.
  intros Hu [Hreal Htree] Ha. destruct Ha as [hit col x Hin Hc Hl Hx Hne|hit col b v Hin Ht Hl Hv|c col b v Ht Hv|c col b j Ht Hj].
  - destruct (hit_bounds hit Hin) as (col' & Hc' & Hb). split.
    + intros _. eapply rtc_r; [apply Hreal; lia|]. by exists hit.
    + intros c' col2 b v Ht Hv E. pose proof (tree_bounds _ _ _ Ht). lia.
  - destruct (hit_bounds hit Hin) as (col' & Hc' & Hb). pose proof (tree_bounds _ _ _ Ht) as Hbt. pose proof Ht as [Hc _].
    rewrite Hc in Hc'. injection Hc' as <-.
    assert (Hrange : hit_start hit - col_start col ≤ hit_end hit - col_start col ≤ pieces col) by (unfold pieces; lia).
    pose proof (cover_nodes _ _ _ _ Hrange ltac:(lia) Hv) as Hvn. split.
    + intros _. destruct (Htree _ _ _ v Ht Hvn eq_refl) as (j & i & Hj & Hbelow & Hr). eapply rtc_r; [exact Hr|].
      exists hit. split; [done|]. split; [done|].
      assert (hit_start hit - col_start col + pieces col ≤ pieces col + j < hit_end hit - col_start col + pieces col); [|lia].
      apply cover_exact; [done|lia|]. exists v. split; [done|]. by exists i.
    + intros c' col2 b2 v2 Ht2 Hv2 E. pose proof (tree_bounds _ _ _ Ht2). lia.
  - pose proof (tree_bounds _ _ _ Ht) as Hb. assert (Hv2 : 1 ≤ v / 2 < 2 * pieces col).
    { split; [apply Nat.div_le_lower_bound; lia|]. apply Nat.Div0.div_lt_upper_bound. lia. }
    split; [lia|]. intros c' col' b' v' Ht' Hv' E.
    destruct (tree_unique _ _ _ _ _ _ _ _ Ht Ht' Hv2 Hv' E) as (-> & -> & -> & <-).
    destruct (Htree _ _ _ v Ht ltac:(lia) eq_refl) as (j & i & Hj & Hbelow & Hr). exists j, (S i). split; [done|]. split; [by apply below_half|done].
  - pose proof (tree_bounds _ _ _ Ht) as Hb. split; [lia|]. intros c' col' b' v' Ht' Hv' E.
    destruct (tree_unique _ _ _ _ _ _ (pieces col + j) v' Ht Ht' ltac:(lia) Hv' ltac:(lia)) as (-> & -> & -> & <-).
    exists j, 0. split; [done|]. split; [unfold below; by rewrite Nat.pow_0_r, Nat.div_1_r|]. apply Hreal. unfold pieces in *. lia.
Qed.

Lemma arcs_sound u x : u < real → rtc arc u x → stands u x.
Proof.
  intros Hu Hr. revert x Hr. apply rtc_ind_r; [|intros x y _ Ha IH; by eapply stands_step].
  split; [done|]. intros c col b v Ht Hv E. pose proof (tree_bounds _ _ _ Ht). lia.
Qed.

Lemma climb c col b i : ∀ v x, tree_of c col b → 1 ≤ v → x < 2 * pieces col → below v i x → rtc arc (b + x - 1) (b + v - 1).
Proof.
  induction i as [|i IH]; intros v x Ht Hv Hx Hb.
  - unfold below in Hb. rewrite Nat.pow_0_r, Nat.div_1_r in Hb. by subst.
  - assert (H2 : 2 ≤ x).
    { apply below_range in Hb. rewrite Nat.pow_succ_r' in Hb. pose proof (Nat.pow_nonzero 2 i ltac:(done)). nia. }
    eapply rtc_l; [by apply (arc_parent c col b x)|]. apply IH; [done|done| |].
    + apply Nat.Div0.div_lt_upper_bound. lia.
    + unfold below in *. by rewrite Nat.Div0.div_div, <- Nat.pow_succ_r'.
Qed.

Lemma arcs_complete u w : covers hits u w → rtc arc u w.
Proof.
  intros (hit & Hin & <- & Hu). destruct (hit_bounds hit Hin) as (col & Hc & Hb).
  destruct (long col hit) eqn:Hl.
  - destruct (trees_needed Htrees hit col Hin Hc Hl) as [b Hbase]. assert (Ht : tree_of (hit_column hit) col b) by done.
    set (j := u - col_start col). assert (Hj : j < pieces col) by (unfold j, pieces; lia).
    destruct (proj2 (cover_exact (hit_start hit - col_start col) (hit_end hit - col_start col) (pieces col) (pieces col + j)
      ltac:(unfold pieces; lia) ltac:(lia)) ltac:(unfold j; lia)) as (v & Hv & i & Hi).
    assert (1 ≤ v < 2 * pieces col) by (eapply cover_nodes; [| |exact Hv]; unfold pieces in *; lia).
    replace u with (col_start col + j) by (unfold j; lia).
    eapply rtc_l; [by apply (arc_leaf (hit_column hit) col b j)|]. eapply rtc_r; [|by eapply (arc_cover hit col b v)].
    replace (b + pieces col + j - 1) with (b + (pieces col + j) - 1) by lia. eapply climb; [done|lia|lia|exact Hi].
  - destruct (decide (u = hit_reader hit)) as [->|Hne]; [done|]. apply rtc_once. by eapply arc_pair.
Qed.

(** Among the pieces, the arcs reach what the hits do. *)
Lemma arcs_reach u w : u < real → w < real → rtc arc u w ↔ rtc (covers hits) u w.
Proof.
  intros Hu Hw. split.
  - intros Hr. by apply (arcs_sound u w Hu Hr).
  - induction 1 as [|u v w Hc _ IH]; [done|]. trans v; [by apply arcs_complete|].
    apply IH; [|done]. destruct Hc as (hit & Hin & <- & _). by destruct (hit_bounds hit Hin) as (? & _ & ? & _).
Qed.

Lemma arc_range x y : real ≤ nodes → arc x y → x < nodes ∧ y < nodes.
Proof.
  intros Hle. destruct 1 as [hit col x Hin Hc Hl Hx Hne|hit col b v Hin Ht Hl Hv|c col b v Ht Hv|c col b j Ht Hj].
  - destruct (hit_bounds hit Hin) as (col' & Hc' & Hb). rewrite Hc in Hc'. injection Hc' as <-. lia.
  - destruct (hit_bounds hit Hin) as (col' & Hc' & Hb). pose proof (tree_bounds _ _ _ Ht). pose proof Ht as [Hc _].
    rewrite Hc in Hc'. injection Hc' as <-.
    assert (1 ≤ v < 2 * pieces col) by (eapply cover_nodes; [| |exact Hv]; unfold pieces in *; lia). lia.
  - pose proof (tree_bounds _ _ _ Ht). assert (v / 2 < 2 * pieces col) by (apply Nat.Div0.div_lt_upper_bound; lia). lia.
  - pose proof (tree_bounds _ _ _ Ht). unfold pieces in *. lia.
Qed.

End arcs.
