(* ===== verification/ArcEmitTheorems.v ===== *)
(** The emission of [ArcEmit]: the sizing pass reserves disjoint trees and counts what the
    filling pass pushes, so the arcs are exactly those of [ArcEmitFacts.arc]. *)
From S2P Require Import Prelude PlanControl Counted Buckets PlanGraphTheorems TarjanFacts ArcEmit ArcEmitFacts.

(** * Counting *)

#[export] Instance emit_work_laws : WorkLaws EmitWork.
Proof.
  split; unfold add_work, no_work, work_total, emit_work.
  - intros a b c. cbn. f_equal; lia.
  - intros a b. cbn. f_equal; lia.
  - intros []. cbn. f_equal; lia.
  - intros a b. cbn. unfold emit_total. cbn. lia.
Qed.

Definition spent (i c h p k s : nat) : EmitWork :=
  {| e_initialize := Z.of_nat i; e_columns := Z.of_nat c; e_hits := Z.of_nat h; e_pairwise := Z.of_nat p;
     e_canonical := Z.of_nat k; e_structural := Z.of_nat s |}.

Lemma spent_add i c h p k s i' c' h' p' k' s' :
  add_work (spent i c h p k s) (spent i' c' h' p' k' s') = spent (i + i') (c + c') (h + h') (p + p') (k + k') (s + s').
Proof. unfold add_work, spent. simpl. f_equal; lia. Qed.

Ltac ew := first [done | (unfold add_work, emit_work, spent, more_initialize, more_columns, more_hits, more_pairwise,
  more_canonical, more_structural, no_work; intros; simpl; f_equal; lia)].

Ltac run_columns := apply (runs_count _ _ _ (spent 0 1 0 0 0 0)); [ew|done|].
Ltac run_hits := apply (runs_count _ _ _ (spent 0 0 1 0 0 0)); [ew|done|].
Ltac run_pairwise := apply (runs_count _ _ _ (spent 0 0 0 1 0 0)); [ew|done|].
Ltac run_canonical := apply (runs_count _ _ _ (spent 0 0 0 0 1 0)); [ew|done|].
Ltac run_structural := apply (runs_count _ _ _ (spent 0 0 0 0 0 1)); [ew|done|].

(** The arc budget, when it is a budget. *)
Definition within (limit : option Z) (c : Z) : Prop := ∀ l, limit = Some l → (0 ≤ l)%Z → (c ≤ l)%Z.

Section steps.
Context {S X : Type} (checkpoint : S → Z → X + S) (scratch arc_limit : option Z) (bad : Prop).

(** A failing emission: the input is [bad], or the caller or one of the limits stopped it. *)
Definition emit_errs (e : EmitError X) : Prop :=
  match e with
  | EmitAuthority e => refused scratch e
  | EmitRuntime x => raised checkpoint x
  | EmitInvalidInput => bad
  | SuperLinearWork c l _ => arc_limit = Some l ∧ (l < c)%Z
  end.

#[export] Instance emit_errs_cancels : Cancels checkpoint emit_errs.
Proof. by intros x. Qed.

Abbreviation runs := (runs (S := S) emit_errs).

Lemma runs_authority {A B} (r : result AuthorityError A) (f : A → counted S (EmitError X) EmitWork B) P Q :
  yields scratch r P → (∀ a, P a → runs (f a) Q) → runs (authority r ≫= f) Q.
Proof. by apply runs_yields. Qed.

Lemma runs_add {A} a b (f : Z → counted S (EmitError X) EmitWork A) Q :
  runs (f (a + b)%Z) Q → runs (authority (add a b) ≫= f) Q.
Proof. intros Hf. eapply runs_authority; [apply add_yields|]. by intros _ ->. Qed.

Lemma runs_usize_add {A} a b (f : nat → counted S (EmitError X) EmitWork A) Q :
  runs (f (a + b)) Q → runs (authority (usize_add a b) ≫= f) Q.
Proof. intros Hf. eapply runs_authority; [apply usize_add_yields|]. by intros _ ->. Qed.

Lemma runs_tree_size {A} n (f : nat → counted S (EmitError X) EmitWork A) Q : 0 < n →
  runs (f (2 * n - 1)) Q → runs (authority (tree_size n) ≫= f) Q.
Proof.
  intros Hn Hf. apply (runs_authority _ _ (λ t, t = 2 * n - 1)); [|by intros _ ->]. unfold tree_size.
  destruct (_ <=? _)%Z; [|apply refused_alloc]. replace (n * 2) with (1 + (2 * n - 1)) by lia. done.
Qed.

Lemma runs_bytes {A} size n (f : Z → counted S (EmitError X) EmitWork A) Q :
  runs (f (n * size)%Z) Q → runs (authority (bytes_of size n) ≫= f) Q.
Proof. intros Hf. eapply runs_authority; [apply bytes_of_yields|]. by intros _ ->. Qed.

Lemma runs_reserve {A} alloc k size n (f : () → counted S (EmitError X) EmitWork A) Q :
  runs (f ()) Q → runs (authority (reserve alloc k size n) ≫= f) Q.
Proof. intros Hf. eapply runs_authority; [apply reserve_yields|]. by intros []. Qed.

Lemma runs_admit {A} needed (f : () → counted S (EmitError X) EmitWork A) Q :
  ((∀ l, scratch = Some l → (needed ≤ l)%Z) → runs (f ()) Q) → runs (authority (admit_scratch needed scratch) ≫= f) Q.
Proof. intros Hf. eapply runs_authority; [apply admit_yields|]. by intros []. Qed.

Lemma runs_charge {A} used n (f : Z → counted S (EmitError X) EmitWork A) Q :
  (within arc_limit (used + n) → runs (f (used + n)%Z) Q) → runs (charge used n arc_limit ≫= f) Q.
Proof.
  intros Hf. eapply (runs_bind _ _ _ (λ u w, u = (used + n)%Z ∧ within arc_limit u ∧ w = no_work)).
  - unfold charge. apply runs_add. unfold within. destruct arc_limit as [l|] eqn:El; [|by apply runs_ret].
    destruct (Z.ltb_spec l (used + n)); [intros mt Hc; simpl; split; done|]. apply runs_ret. split_and!; [done| |done]. by intros ? [= <-].
  - intros u w (-> & Hw & ->). eapply runs_weaken; [by apply Hf|]. intros a w. by rewrite no_work_add.
Qed.

(** * The cover *)

Lemma runs_canonical_loop fuel : ∀ lo hi, 1 ≤ lo → hi ≤ fuel →
  runs (canonical_loop checkpoint fuel lo hi) (λ r w, r = cover_loop fuel lo hi ∧ ∃ k, k ≤ Nat.log2 hi ∧ w = spent 0 0 0 0 k 0).
Proof.
  induction fuel as [|fuel IH]; intros lo hi Hlo Hhi; cbn [canonical_loop cover_loop].
  { rewrite (proj2 (Nat.ltb_ge lo hi)) by lia. apply runs_ret. split; [done|]. exists 0. split; [lia|done]. }
  destruct (Nat.ltb_spec lo hi) as [Hlt|Hge]; [|apply runs_ret; split; [done|]; exists 0; split; [lia|done]].
  run_canonical. pose proof (round_bounds lo hi Hlo Hlt) as Hb. cbv zeta in Hb.
  destruct (if Nat.odd lo then _ else _) as [a lo'], (if Nat.odd hi then _ else _) as [b hi']. cbn [fst snd] in Hb.
  eapply runs_bind; [apply (IH (lo' / 2) (hi' / 2)); lia|].
  cbn beta. intros rest w (-> & k & Hk & ->). apply runs_ret. split; [done|]. exists (Datatypes.S k).
  rewrite add_no_work, spent_add. split; [lia|done].
Qed.

Lemma runs_canonical lo hi n : lo ≤ hi ≤ n → 0 < n →
  runs (canonical checkpoint lo hi n) (λ r w, r = cover lo hi n ∧ ∃ k, k ≤ bit_length n ∧ w = spent 0 0 0 0 k 0).
Proof.
  intros Hr Hn. rewrite bit_length_log2 by done. unfold canonical, cover. destruct (_ && _).
  - run_canonical. apply runs_ret. split; [done|]. exists 1. rewrite Nat.log2_double by done. split; [lia|done].
  - eapply runs_weaken; [apply runs_canonical_loop; lia|]. intros r w (-> & k & Hk & ->). split; [done|]. exists k.
    pose proof (Nat.log2_le_mono (hi + n) (2 * n) ltac:(lia)). split; [lia|done].
Qed.

(** * The columns *)

Lemma runs_check_columns real columns : ∀ previous, (¬ partition previous columns real → bad) →
  runs (check_columns checkpoint real columns previous) (λ r w,
    (partition previous columns real ↔ r = real) ∧ w = spent 0 (length columns) 0 0 0 0).
Proof.
  induction columns as [|col columns IH]; intros previous Hbad; cbn [check_columns].
  - by apply runs_ret.
  - run_columns. destruct (_ || _) eqn:E.
    { intros mt Hc. apply Hbad. intros (He & Hl & Hle & _).
      rewrite !orb_true_iff, negb_true_iff, Nat.eqb_neq, Nat.leb_le, Nat.ltb_lt in E. lia. }
    rewrite !orb_false_iff, negb_false_iff, Nat.eqb_eq, Nat.leb_gt, Nat.ltb_ge in E. destruct E as [[Hs Hl] Hle].
    eapply runs_weaken; [apply IH; intros Hn; apply Hbad; by intros (_ & _ & _ & ?)|].
    cbn beta. intros r w [Hr ->]. rewrite spent_add. split; [|done]. cbn [partition]. rewrite <- Hr. tauto.
Qed.

End steps.

(** * The sizing pass *)

Definition precedents (hit : Hit) : list nat := seq (hit_start hit) (hit_end hit - hit_start hit).

Definition hit_length (hit : Hit) : nat := hit_end hit - hit_start hit.

(** The arcs and the witnesses of a hit, and the nodes and arcs of a tree. *)
Definition hit_count (columns : list Column) (hit : Hit) : nat :=
  match columns !! hit_column hit with
  | Some col =>
      if long col hit
      then length (cover (hit_start hit - col_start col) (hit_end hit - col_start col) (pieces col))
      else length (filter (λ p, p ≠ hit_reader hit) (precedents hit))
  | None => 0
  end.
Definition hit_pairs (columns : list Column) (hit : Hit) : nat :=
  match columns !! hit_column hit with
  | Some col => if long col hit then 0 else hit_end hit - hit_start hit
  | None => 0
  end.
Definition hit_levels (columns : list Column) (hit : Hit) : nat :=
  match columns !! hit_column hit with
  | Some col => if long col hit then bit_length (pieces col) else 0
  | None => 0
  end.
Definition tree_nodes (tree : Column * option nat) : nat :=
  match tree.2 with Some _ => 2 * pieces tree.1 - 1 | None => 0 end.
Definition tree_count (tree : Column * option nat) : nat :=
  match tree.2 with Some _ => 2 * pieces tree.1 - 2 + pieces tree.1 | None => 0 end.

Section sizing.
Context {S X : Type} (checkpoint : S → Z → X + S) (scratch arc_limit : option Z) (bad : Prop).
Context (real : nat) (columns : list Column) (Hpart : partition 0 columns real).
Abbreviation runs := (runs (S := S) (emit_errs checkpoint scratch arc_limit bad)).

(** The state of the sizing pass after the hits [dn]: the trees and the arcs counted. *)
Record sized (dn : list Hit) (s : Sizes) : Prop := {
  sized_ok : Forall (hit_ok real columns) dn;
  sized_trees : trees_ok real columns dn (bases s) (nodes s);
  sized_aux : s_aux s = Z.of_nat (sum_list_with tree_nodes (zip columns (bases s)));
  sized_nodes : nodes s = real + sum_list_with tree_nodes (zip columns (bases s));
  sized_reader : s_reader s = Z.of_nat (sum_list_with (hit_count columns) dn);
  sized_structural : s_structural s = Z.of_nat (sum_list_with tree_count (zip columns (bases s)));
  sized_charged : s_charged s = (s_reader s + s_structural s + s_aux s)%Z;
  sized_limit : within arc_limit (s_charged s)
}.

(** Every tree is needed. *)
Definition used (dn : list Hit) (bs : list (option nat)) : Prop := ∀ c b, bs !! c = Some (Some b) →
  ∃ hit col, hit ∈ dn ∧ hit_column hit = c ∧ columns !! c = Some col ∧ long col hit = true.

(** [n] arcs more from pieces to a reader. *)
Definition more_arcs (n : nat) (s : Sizes) : Sizes :=
  {| bases := bases s; nodes := nodes s; s_reader := s_reader s + Z.of_nat n; s_structural := s_structural s; s_aux := s_aux s;
     witnesses := witnesses s; s_hits := s_hits s; s_charged := s_charged s + Z.of_nat n |}.

Lemma runs_size_pairs reader ps : ∀ s, within arc_limit (s_charged s) →
  runs (size_pairs checkpoint arc_limit reader ps s) (λ s' w,
    s' = more_arcs (length (filter (λ p, p ≠ reader) ps)) s ∧ within arc_limit (s_charged s') ∧ w = spent 0 0 0 (length ps) 0 0).
Proof.
  induction ps as [|p ps IH]; intros s Hs; cbn [size_pairs].
  - apply runs_ret. unfold more_arcs. rewrite filter_nil. simpl. rewrite !Z.add_0_r. by destruct s.
  - run_pairwise. rewrite filter_cons. destruct (Nat.eqb_spec p reader) as [->|Hne]; cbn [negb].
    + rewrite decide_False by tauto. eapply runs_weaken; [by apply IH|]. intros s' w (-> & ? & ->). by rewrite spent_add.
    + rewrite decide_True by done. apply runs_add. apply runs_charge. intros Hw. eapply runs_weaken; [by apply IH|].
      cbn beta. intros s' w (-> & Hl & ->). rewrite spent_add. split_and!; [|done|done].
      unfold more_arcs. cbn [length s_reader s_charged bases nodes s_structural s_aux witnesses s_hits]. f_equal; lia.
Qed.

(** A hit's arcs, once its column has a tree if it needs one. *)
Lemma sized_hit dn hit s s' : sized dn s → hit_ok real columns hit →
  (∀ col, columns !! hit_column hit = Some col → long col hit = true → ∃ b, bases s !! hit_column hit = Some (Some b)) →
  bases s' = bases s → nodes s' = nodes s → s_structural s' = s_structural s → s_aux s' = s_aux s →
  s_reader s' = (s_reader s + Z.of_nat (hit_count columns hit))%Z →
  s_charged s' = (s_charged s + Z.of_nat (hit_count columns hit))%Z → within arc_limit (s_charged s') →
  sized (dn ++ [hit]) s'.
Proof.
  intros Hs Hok Hneed Hb Hn Hst Ha Hr Hch Hl. pose proof (sized_trees _ _ Hs) as Ht.
  destruct Hs. split; rewrite ?Hb, ?Hn, ?Hst, ?Ha; rewrite ?sum_list_with_app; cbn [sum_list_with]; [| |done|done|lia|done|lia|done].
  - apply Forall_app. by rewrite Forall_singleton.
  - split; [apply Ht..|]. intros h col [Hh| ->%list_elem_of_singleton]%elem_of_app; [by apply (trees_needed _ _ _ _ _ Ht)|apply Hneed].
Qed.

(** A new tree, behind the others. *)
Lemma sized_tree dn s s' c col : sized dn s → columns !! c = Some col → bases s !! c = Some None →
  bases s' = <[c := Some (nodes s)]> (bases s) → nodes s' = nodes s + (2 * pieces col - 1) →
  s_reader s' = s_reader s → s_aux s' = (s_aux s + Z.of_nat (2 * pieces col - 1))%Z →
  s_structural s' = (s_structural s + Z.of_nat (2 * pieces col - 2 + pieces col))%Z →
  s_charged s' = (s_charged s + Z.of_nat (2 * pieces col - 1) + Z.of_nat (2 * pieces col - 2 + pieces col))%Z →
  within arc_limit (s_charged s') → sized dn s'.
Proof.
  intros Hs Hc Hnone Hb Hn Hr Ha Hst Hch Hl. pose proof (sized_trees _ _ Hs) as Ht. destruct Hs.
  assert (Hz : zip columns (bases s') = <[c := (col, Some (nodes s))]> (zip columns (bases s))).
  { rewrite Hb, <- (list_insert_id columns c col) at 1 by done. by rewrite insert_zip_with. }
  assert (Hzc : zip columns (bases s) !! c = Some (col, None)) by (apply lookup_zip_with_Some; eauto).
  pose proof (sum_list_insert tree_nodes _ c _ (col, Some (nodes s)) Hzc) as Hsn.
  pose proof (sum_list_insert tree_count _ c _ (col, Some (nodes s)) Hzc) as Hsc.
  rewrite <- Hz in Hsn, Hsc. change (tree_nodes (col, None)) with 0 in Hsn. change (tree_count (col, None)) with 0 in Hsc.
  change (tree_nodes (col, Some (nodes s))) with (2 * pieces col - 1) in Hsn.
  change (tree_count (col, Some (nodes s))) with (2 * pieces col - 2 + pieces col) in Hsc.
  pose proof (lookup_lt_Some _ _ _ Hnone) as Hlt.
  assert (Htree : ∀ c' col' b, tree_of columns (bases s') c' col' b →
    c' = c ∧ col' = col ∧ b = nodes s ∨ c' ≠ c ∧ tree_of columns (bases s) c' col' b).
  { intros c' col' b [Hc' Hb']. rewrite Hb in Hb'. destruct (decide (c' = c)) as [->|Hne].
    - rewrite list_lookup_insert_eq in Hb' by done. left. simplify_eq. done.
    - rewrite list_lookup_insert_ne in Hb' by done. right. done. }
  split; [done| |lia|lia|lia|lia|lia|done]. split.
  - rewrite Hb, length_insert. apply Ht.
  - intros c' col' b [(-> & -> & ->)|[_ Hb']]%Htree; [lia|]. pose proof (trees_range _ _ _ _ _ Ht _ _ _ Hb'). lia.
  - intros c1 c2 col1 col2 b1 b2 [(-> & -> & ->)|[Hne1 Hb1]]%Htree [(-> & -> & ->)|[Hne2 Hb2]]%Htree Hne; [done| | |].
    + pose proof (trees_range _ _ _ _ _ Ht _ _ _ Hb2). lia.
    + pose proof (trees_range _ _ _ _ _ Ht _ _ _ Hb1). lia.
    + by apply (trees_apart _ _ _ _ _ Ht c1 c2).
  - intros hit col' Hin Hcol Hlong. destruct (trees_needed _ _ _ _ _ Ht hit col' Hin Hcol Hlong) as [b Hbase]. rewrite Hb.
    destruct (decide (hit_column hit = c)) as [->|Hne]; [by eexists; apply list_lookup_insert_eq|].
    exists b. by rewrite list_lookup_insert_ne.
Qed.

Lemma runs_size_tree dn s c col : sized dn s → columns !! c = Some col →
  runs (size_tree arc_limit c (pieces col) s) (λ s' w, sized dn s' ∧ (∃ b, bases s' !! c = Some (Some b)) ∧
    (∀ c' b, c' ≠ c → bases s' !! c' = Some (Some b) → bases s !! c' = Some (Some b)) ∧
    s_hits s' = s_hits s ∧ witnesses s' = witnesses s ∧ w = no_work).
Proof.
  intros Hs Hc. pose proof (trees_length _ _ _ _ _ (sized_trees _ _ Hs)) as Hlen. pose proof (lookup_lt_Some _ _ _ Hc) as Hlt.
  pose proof (partition_bounds _ _ _ _ _ Hpart Hc) as Hcol.
  destruct (lookup_lt_is_Some_2 (bases s) c ltac:(lia)) as [b Hb].
  unfold size_tree. eapply runs_lift; [unfold vec_get; by rewrite Hb|]. destruct b as [b|].
  { apply runs_ret. split_and!; [done|by exists b|done|done|done|done]. }
  apply runs_tree_size; [unfold pieces; lia|]. eapply runs_lift; [apply vec_set_ok; lia|].
  apply runs_usize_add, runs_add, runs_add, runs_add, runs_add. apply runs_charge. intros Hl. apply runs_ret.
  split; [|split; [|split; [|done]]]; cbn [bases].
  - eapply (sized_tree dn s _ c col Hs Hc Hb); try done; cbn [s_aux s_structural s_charged]; unfold pieces in *; lia.
  - eexists. apply list_lookup_insert_eq. lia.
  - intros c' b Hne. by rewrite list_lookup_insert_ne.
Qed.

Lemma used_snoc dn hit bs : used dn bs → used (dn ++ [hit]) bs.
Proof. intros Hu c b Hb. destruct (Hu c b Hb) as (h & col & ? & ?). exists h, col. rewrite elem_of_app. auto. Qed.

Lemma runs_size_hit dn hit s : (¬ hit_ok real columns hit → bad) → sized dn s → used dn (bases s) →
  runs (size_hit checkpoint real columns arc_limit hit s) (λ s' w,
    sized (dn ++ [hit]) s' ∧ used (dn ++ [hit]) (bases s') ∧
    s_hits s' = (s_hits s + Z.of_nat (hit_length hit))%Z ∧ witnesses s' = witnesses s + hit_pairs columns hit ∧
    ∃ k, k ≤ hit_levels columns hit ∧ w = spent 0 0 1 (hit_pairs columns hit) k 0).
Proof.
  intros Hbad Hs Hu. unfold size_hit. run_hits. destruct (columns !! hit_column hit) as [col|] eqn:Hc.
  2:{ intros mt Hm. apply Hbad. intros (col & Hc' & _). congruence. }
  destruct (hit_in real hit col) eqn:Hin; cbn [negb]; [|intros mt Hm; apply Hbad; intros (col' & Hc' & Hin'); congruence].
  assert (Hok : hit_ok real columns hit) by by exists col.
  apply runs_add. change (col_end col - col_start col) with (pieces col).
  destruct (hit_end hit - hit_start hit <=? threshold (pieces col)) eqn:Hk.
  - assert (Hl : long col hit = false) by (unfold long; by rewrite Hk).
    assert (Hp : hit_pairs columns hit = hit_end hit - hit_start hit) by (unfold hit_pairs; by rewrite Hc, Hl).
    apply runs_usize_add. eapply runs_weaken; [apply runs_size_pairs, Hs|]. cbn beta. intros s' w (-> & Hw & ->).
    assert (Hn : length (filter (λ p, p ≠ hit_reader hit) (seq (hit_start hit) (hit_end hit - hit_start hit))) = hit_count columns hit)
      by (unfold hit_count; by rewrite Hc, Hl).
    rewrite Hn in *. split; [|split; [|split; [done|split; [by rewrite Hp|]]]].
    + eapply sized_hit; try done. intros col' Hc' Hl'. congruence.
    + by apply used_snoc.
    + exists 0. split; [lia|]. by rewrite length_seq, spent_add, Hp.
  - assert (Hl : long col hit = true) by (unfold long; by rewrite Hk).
    assert (Hp : hit_pairs columns hit = 0) by (unfold hit_pairs; by rewrite Hc, Hl).
    set (s0 := {| bases := bases s; nodes := _; s_reader := _; s_structural := _; s_aux := _; witnesses := _; s_hits := _; s_charged := _ |}).
    assert (Hs0 : sized dn s0) by (destruct Hs; by split).
    eapply runs_bind; [by apply runs_size_tree|]. cbn beta. intros s1 w1 (Hs1 & Hbase & Hkeep & Hh1 & Hw1 & ->).
    destruct (hit_bounds real columns [hit] Hpart ltac:(by apply Forall_singleton) hit ltac:(by left)) as (col' & Hc' & Hb).
    rewrite Hc in Hc'. injection Hc' as <-.
    eapply runs_bind; [apply runs_canonical; unfold pieces in *; lia|]. cbn beta. intros cov w2 (-> & k & Hk' & ->).
    assert (Hn : length (cover (hit_start hit - col_start col) (hit_end hit - col_start col) (pieces col)) = hit_count columns hit)
      by (unfold hit_count; by rewrite Hc, Hl).
    rewrite Hn. apply runs_add, runs_charge. intros Hlim. apply runs_ret. cbn [bases s_hits witnesses].
    split; [|split; [|split; [by rewrite Hh1|split; [rewrite Hw1, Hp; simpl; lia|]]]].
    + eapply (sized_hit dn hit s1); try done.
    + intros c b Hcb. destruct (decide (c = hit_column hit)) as [->|Hne].
      * exists hit, col. rewrite elem_of_app, list_elem_of_singleton. auto.
      * by apply (used_snoc dn hit (bases s) Hu c b), Hkeep.
    + exists k. split; [unfold hit_levels; by rewrite Hc, Hl|]. rewrite no_work_add, add_no_work, spent_add, Hp. done.
Qed.

Lemma runs_size_hits hits : ∀ dn s, (¬ Forall (hit_ok real columns) hits → bad) → sized dn s → used dn (bases s) →
  runs (size_hits checkpoint real columns arc_limit hits s) (λ s' w,
    sized (dn ++ hits) s' ∧ used (dn ++ hits) (bases s') ∧
    s_hits s' = (s_hits s + Z.of_nat (sum_list_with hit_length hits))%Z ∧
    witnesses s' = witnesses s + sum_list_with (hit_pairs columns) hits ∧
    ∃ k, k ≤ sum_list_with (hit_levels columns) hits ∧ w = spent 0 0 (length hits) (sum_list_with (hit_pairs columns) hits) k 0).
Proof.
  induction hits as [|hit hits IH]; intros dn s Hbad Hs Hu; cbn [size_hits sum_list_with].
  - apply runs_ret. rewrite app_nil_r. split_and!; [done|done|lia|lia|by exists 0].
  - eapply runs_bind; [apply (runs_size_hit dn); [|done|done]|].
    { intros Hn. apply Hbad. rewrite Forall_cons. tauto. }
    cbn beta. intros s1 w1 (Hs1 & Hu1 & Hh & Hw & k & Hk & ->). eapply runs_weaken; [apply (IH (dn ++ [hit])); [|done|done]|].
    { intros Hn. apply Hbad. rewrite Forall_cons. tauto. }
    cbn beta. rewrite <- app_assoc. intros s2 w2 (Hs2 & Hu2 & Hh2 & Hw2 & k2 & Hk2 & ->). cbn [app] in *.
    split; [done|]. split; [done|]. split; [lia|]. split; [lia|]. exists (k + k2). split; [lia|]. by rewrite spent_add.
Qed.

End sizing.

(** * The filling pass *)

Section filling_lists.
Context (columns : list Column) (bases : list (option nat)).

Definition hit_arcs (hit : Hit) : list (nat * nat) :=
  match columns !! hit_column hit with
  | Some col =>
      if long col hit then
        match bases !! hit_column hit with
        | Some (Some base) =>
            (λ node, (base + node - 1, hit_reader hit)) <$>
              cover (hit_start hit - col_start col) (hit_end hit - col_start col) (pieces col)
        | _ => []
        end
      else (λ p, (p, hit_reader hit)) <$> filter (λ p, p ≠ hit_reader hit) (precedents hit)
  | None => []
  end.

Definition hit_witnesses (id : nat) (hit : Hit) : list PairWitness :=
  match columns !! hit_column hit with
  | Some col => if long col hit then [] else (λ p, {| witness_hit := id; precedent := p |}) <$> precedents hit
  | None => []
  end.

Fixpoint all_witnesses (id : nat) (hits : list Hit) : list PairWitness :=
  match hits with
  | [] => []
  | hit :: hits => hit_witnesses id hit ++ all_witnesses (id + 1) hits
  end.

Definition mark (hit : Hit) (sd : list Z) : list Z :=
  if (hit_start hit <=? hit_reader hit)%nat && (hit_reader hit <? hit_end hit)%nat then <[hit_reader hit := 1%Z]> sd else sd.

Definition parent_arcs (col : Column) (base : nat) : list (nat * nat) :=
  (λ node, (base + node - 1, base + node / 2 - 1)) <$> seq 2 (2 * pieces col - 2).
Definition leaf_arcs (col : Column) (base : nat) : list (nat * nat) :=
  (λ offset, (col_start col + offset, base + pieces col + offset - 1)) <$> seq 0 (pieces col).
Definition tree_arcs (tree : Column * option nat) : list (nat * nat) :=
  match tree.2 with Some base => parent_arcs tree.1 base ++ leaf_arcs tree.1 base | None => [] end.

Lemma length_tree_arcs tree : length (tree_arcs tree) = tree_count tree.
Proof.
  destruct tree as [col [base|]]; unfold tree_arcs, tree_count, parent_arcs, leaf_arcs; cbn [fst snd]; [|done].
  by rewrite length_app, !length_fmap, !length_seq.
Qed.

Lemma length_all_witnesses hits : ∀ id, length (all_witnesses id hits) = sum_list_with (hit_pairs columns) hits.
Proof.
  induction hits as [|hit hits IH]; intros id; cbn [all_witnesses sum_list_with]; [done|].
  rewrite length_app, IH. f_equal. unfold hit_witnesses, hit_pairs. destruct (columns !! _) as [col|]; [|done].
  destruct (long col hit); [done|]. unfold precedents. by rewrite length_fmap, length_seq.
Qed.

(** [selfdep] after the marks. *)
Lemma marks_lookup hits sd u : u < length sd → (∀ hit, hit ∈ hits → hit_reader hit < length sd) →
  ∀ v, foldl (flip mark) sd hits !! u = Some v → (v = 1%Z ∧ covers hits u u) ∨ (sd !! u = Some v ∧ ¬ covers hits u u).
Proof.
  revert sd. induction hits as [|hit hits IH]; intros sd Hu Hr v; cbn [foldl].
  { intros Hv. right. split; [done|]. by intros (h & ?%elem_of_nil & _). }
  assert (Hlen : length (flip mark sd hit) = length sd) by (unfold flip, mark; case_match; by rewrite ?length_insert).
  intros Hv. destruct (IH (flip mark sd hit)) with (v := v) as [[-> Hc]|[Hs Hc]].
  - by rewrite Hlen.
  - intros h Hh. rewrite Hlen. apply Hr. by right.
  - done.
  - left. split; [done|]. destruct Hc as (h & Hh & ?). exists h. split; [by right|done].
  - unfold flip, mark in Hs. destruct (_ && _) eqn:E.
    + rewrite andb_true_iff, Nat.leb_le, Nat.ltb_lt in E. destruct (decide (u = hit_reader hit)) as [->|Hne].
      * rewrite list_lookup_insert_eq in Hs by done. left. split; [congruence|]. exists hit. split; [by left|]. split; [done|lia].
      * rewrite list_lookup_insert_ne in Hs by done. right. split; [done|]. intros (h & [->|Hh]%elem_of_cons & Hrd & Hc'); [done|].
        apply Hc. by exists h.
    + right. split; [done|]. intros (h & [->|Hh]%elem_of_cons & Hrd & Hc'); [|apply Hc; by exists h].
      rewrite andb_false_iff, Nat.leb_gt, Nat.ltb_ge in E. lia.
Qed.

Lemma length_marks hits : ∀ sd, length (foldl (flip mark) sd hits) = length sd.
Proof.
  induction hits as [|hit hits IH]; intros sd; cbn [foldl]; [done|]. rewrite IH. unfold flip, mark. case_match; by rewrite ?length_insert.
Qed.

End filling_lists.

Section filling.
Context {S X : Type} (checkpoint : S → Z → X + S) (scratch arc_limit : option Z) (bad : Prop).
Context (real : nat) (columns : list Column) (bases : list (option nat)) (nodes : nat).
Context (Hpart : partition 0 columns real).
Abbreviation runs := (runs (S := S) (emit_errs checkpoint scratch arc_limit bad)).

Lemma runs_fill_pairs id reader ps : ∀ f,
  runs (fill_pairs checkpoint id reader ps f) (λ f' w,
    f_arcs f' = f_arcs f ++ ((λ p, (p, reader)) <$> filter (λ p, p ≠ reader) ps) ∧
    f_witnesses f' = f_witnesses f ++ ((λ p, {| witness_hit := id; precedent := p |}) <$> ps) ∧
    f_selfdep f' = f_selfdep f ∧ w = spent 0 0 0 (length ps) 0 0).
Proof.
  induction ps as [|p ps IH]; intros f; cbn [fill_pairs].
  - apply runs_ret. by rewrite filter_nil, !app_nil_r.
  - run_pairwise. eapply runs_weaken; [apply IH|]. cbn beta. cbn [f_arcs f_witnesses f_selfdep].
    intros f' w (-> & -> & -> & ->). rewrite spent_add, filter_cons, <- app_assoc. split; [|done].
    destruct (Nat.eqb_spec p reader) as [->|Hne]; cbn [negb].
    + by rewrite decide_False by tauto.
    + rewrite decide_True by done. by rewrite <- app_assoc.
Qed.

Lemma runs_fill_hit hits hit id f : trees_ok real columns hits bases nodes → hit ∈ hits → hit_ok real columns hit →
  length (f_selfdep f) = real →
  runs (fill_hit checkpoint columns bases id hit f) (λ f' w,
    f_arcs f' = f_arcs f ++ hit_arcs columns bases hit ∧ f_witnesses f' = f_witnesses f ++ hit_witnesses columns id hit ∧
    f_selfdep f' = mark hit (f_selfdep f) ∧ length (hit_arcs columns bases hit) = hit_count columns hit ∧
    ∃ k, k ≤ hit_levels columns hit ∧ w = spent 0 0 1 (hit_pairs columns hit) k 0).
Proof.
  intros Ht Hin Hok Hsd. destruct (hit_bounds real columns [hit] Hpart ltac:(by apply Forall_singleton) hit ltac:(by left)) as (col & Hc & Hb).
  unfold fill_hit. run_hits. eapply runs_lift; [unfold vec_get; by rewrite Hc|].
  eapply (runs_lift _ _ _ (mark hit (f_selfdep f))).
  { unfold mark. destruct (_ && _); [|done]. apply vec_set_ok. lia. }
  unfold hit_arcs, hit_witnesses, hit_count, hit_pairs, hit_levels. rewrite Hc.
  change (col_end col - col_start col) with (pieces col).
  destruct (hit_end hit - hit_start hit <=? threshold (pieces col)) eqn:Hk.
  - replace (long col hit) with false by (unfold long; by rewrite Hk).
    eapply runs_weaken; [apply runs_fill_pairs|]. cbn beta. cbn [f_arcs f_witnesses f_selfdep].
    intros f' w (-> & -> & -> & ->). rewrite spent_add, length_fmap, length_seq. split_and!; [done..|by exists 0].
  - assert (Hl : long col hit = true) by (unfold long; by rewrite Hk). rewrite Hl.
    destruct (trees_needed _ _ _ _ _ Ht hit col Hin Hc Hl) as [b Hbase]. rewrite Hbase.
    eapply runs_lift; [unfold vec_get; by rewrite Hbase|]. eapply runs_lift; [done|].
    eapply runs_bind; [apply runs_canonical; unfold pieces in *; lia|]. cbn beta. intros cov w (-> & k & Hk' & ->).
    apply runs_ret. cbn [f_arcs f_witnesses f_selfdep]. rewrite app_nil_r, length_fmap, add_no_work, spent_add. split_and!; [done..|by exists k].
Qed.

Lemma runs_fill_hits all hits : ∀ id f, trees_ok real columns all bases nodes → (∀ hit, hit ∈ hits → hit ∈ all) →
  Forall (hit_ok real columns) hits → length (f_selfdep f) = real →
  runs (fill_hits checkpoint columns bases id hits f) (λ f' w,
    f_arcs f' = f_arcs f ++ concat (hit_arcs columns bases <$> hits) ∧
    f_witnesses f' = f_witnesses f ++ all_witnesses columns id hits ∧
    f_selfdep f' = foldl (flip mark) (f_selfdep f) hits ∧
    length (concat (hit_arcs columns bases <$> hits)) = sum_list_with (hit_count columns) hits ∧
    ∃ k, k ≤ sum_list_with (hit_levels columns) hits ∧ w = spent 0 0 (length hits) (sum_list_with (hit_pairs columns) hits) k 0).
Proof.
  induction hits as [|hit hits IH]; intros id f Ht Hsub Hok Hsd; cbn [fill_hits all_witnesses sum_list_with foldl fmap list_fmap concat].
  - apply runs_ret. rewrite !app_nil_r. split_and!; [done..|by exists 0].
  - apply Forall_cons in Hok as [Hok Hoks].
    eapply runs_bind; [apply (runs_fill_hit all); [done|apply Hsub; by left|done|done]|].
    cbn beta. intros f1 w1 (Ha & Hw & Hs & Hl & k & Hk & ->).
    eapply runs_weaken; [apply IH; [done|intros; apply Hsub; by right|done|]|].
    { rewrite Hs. unfold mark. case_match; by rewrite ?length_insert. }
    cbn beta. intros f2 w2 (Ha2 & Hw2 & Hs2 & Hl2 & k2 & Hk2 & ->). rewrite Ha2, Hw2, Hs2, Ha, Hw, Hs, length_app, <- !app_assoc, spent_add.
    split; [done|]. split; [done|]. split; [done|]. split; [by rewrite Hl, <- Hl2|]. exists (k + k2). split; [lia|done].
Qed.

Lemma runs_push_arcs new : ∀ arcs,
  runs (push_arcs checkpoint new arcs) (λ r w, r = arcs ++ new ∧ w = spent 0 0 0 0 0 (length new)).
Proof.
  induction new as [|a new IH]; intros arcs; cbn [push_arcs].
  - apply runs_ret. by rewrite app_nil_r.
  - run_structural. eapply runs_weaken; [apply IH|]. cbn beta. intros r w [-> ->]. by rewrite spent_add, <- app_assoc.
Qed.

Lemma runs_fill_trees trees : ∀ arcs,
  runs (fill_trees checkpoint trees arcs) (λ r w, r = arcs ++ concat (tree_arcs <$> trees) ∧
    w = spent 0 (length trees) 0 0 0 (sum_list_with tree_count trees)).
Proof.
  induction trees as [|[col [base|]] trees IH]; intros arcs; cbn [fill_trees fmap list_fmap concat sum_list_with].
  - apply runs_ret. by rewrite app_nil_r.
  - run_columns. eapply runs_bind; [apply runs_push_arcs|]. cbn beta. intros a1 w1 [-> ->].
    eapply runs_bind; [apply runs_push_arcs|]. cbn beta. intros a2 w2 [-> ->].
    eapply runs_weaken; [apply IH|]. cbn beta. intros r w [-> ->]. rewrite !spent_add.
    rewrite <- (length_tree_arcs (col, Some base)). change (tree_arcs (col, Some base)) with (parent_arcs col base ++ leaf_arcs col base). cbn [fst snd]. unfold parent_arcs, leaf_arcs, pieces.
    rewrite length_app, <- !app_assoc. split; [done|]. f_equal; cbn [length]; lia.
  - run_columns. eapply runs_weaken; [apply IH|]. cbn beta. intros r w [-> ->]. by rewrite spent_add.
Qed.

End filling.

(** ** What is pushed *)

Lemma elem_of_concat {A} (x : A) ls : x ∈ concat ls ↔ ∃ l, x ∈ l ∧ l ∈ ls.
Proof.
  induction ls as [|l ls IH]; cbn [concat].
  - split; [by intros ?%elem_of_nil|]. by intros (l & _ & ?%elem_of_nil).
  - rewrite elem_of_app, IH. split.
    + intros [Hx|(k & Hx & Hk)]; [exists l; split; [done|left]|exists k; split; [done|by right]].
    + intros (k & Hx & [->|Hk]%elem_of_cons); [by left|right; by exists k].
Qed.

Section pushed.
Context (real : nat) (columns : list Column) (hits : list Hit) (bases : list (option nat)) (nodes : nat).

Definition all_arcs : list (nat * nat) :=
  concat (hit_arcs columns bases <$> hits) ++ concat (tree_arcs <$> zip columns bases).

Lemma elem_of_hit_arcs hit x y : hit ∈ hits → (x, y) ∈ hit_arcs columns bases hit → arc columns hits bases x y.
Proof.
  intros Hin. unfold hit_arcs. destruct (columns !! hit_column hit) as [col|] eqn:Hc; [|by intros ?%elem_of_nil].
  destruct (long col hit) eqn:Hl.
  - destruct (bases !! hit_column hit) as [[b|]|] eqn:Hb; [|by intros ?%elem_of_nil..].
    intros (v & [= -> ->] & Hv)%list_elem_of_fmap. by apply (arc_cover _ _ _ hit col b v).
  - intros (u & [= -> ->] & [Hne Hu]%list_elem_of_filter)%list_elem_of_fmap. apply elem_of_seq in Hu.
    apply (arc_pair _ _ _ hit col u); [done..|lia|done].
Qed.

Lemma elem_of_tree_arcs tree x y : tree ∈ zip columns bases → (x, y) ∈ tree_arcs tree → arc columns hits bases x y.
Proof.
  intros (c & (col & base & -> & Hc & Hb)%lookup_zip_with_Some)%list_elem_of_lookup_1. unfold tree_arcs. cbn [fst snd].
  destruct base as [b|]; [|by intros ?%elem_of_nil]. unfold parent_arcs, leaf_arcs.
  intros [(v & [= -> ->] & Hv%elem_of_seq)%list_elem_of_fmap|(j & [= -> ->] & Hj%elem_of_seq)%list_elem_of_fmap]%elem_of_app.
  - apply (arc_parent _ _ _ c col b v); [done|lia].
  - apply (arc_leaf _ _ _ c col b j); [done|lia].
Qed.

Lemma elem_of_all_arcs x y : (x, y) ∈ all_arcs ↔ arc columns hits bases x y.
Proof.
  unfold all_arcs. split.
  - intros [(l & Hxy & (hit & -> & Hh)%list_elem_of_fmap)%elem_of_concat|
            (l & Hxy & (tree & -> & Ht)%list_elem_of_fmap)%elem_of_concat]%elem_of_app.
    + by eapply elem_of_hit_arcs.
    + by eapply elem_of_tree_arcs.
  - assert (Hhit : ∀ hit, hit ∈ hits → (x, y) ∈ hit_arcs columns bases hit → (x, y) ∈ all_arcs).
    { intros hit Hh Hxy. apply elem_of_app. left. apply elem_of_concat. eexists. split; [exact Hxy|]. by apply list_elem_of_fmap_2. }
    assert (Htree : ∀ c col b, tree_of columns bases c col b → (x, y) ∈ parent_arcs col b ++ leaf_arcs col b → (x, y) ∈ all_arcs).
    { intros c col b [Hc Hb] Hxy. apply elem_of_app. right. apply elem_of_concat. exists (tree_arcs (col, Some b)).
      split; [done|]. apply list_elem_of_fmap_2. apply (list_elem_of_lookup_2 _ c). apply lookup_zip_with_Some. eauto. }
    destruct 1 as [hit col u Hin Hc Hl Hu Hne|hit col b v Hin Ht Hl Hv|c col b v Ht Hv|c col b j Ht Hj].
    + apply (Hhit hit Hin). unfold hit_arcs. rewrite Hc, Hl. apply list_elem_of_fmap. exists u. split; [done|].
      apply list_elem_of_filter. split; [done|]. apply elem_of_seq. lia.
    + apply (Hhit hit Hin). destruct Ht as [Hc Hb]. unfold hit_arcs. rewrite Hc, Hl, Hb. apply list_elem_of_fmap. by exists v.
    + apply (Htree _ _ _ Ht). apply elem_of_app. left. apply list_elem_of_fmap. exists v. split; [done|]. apply elem_of_seq. lia.
    + apply (Htree _ _ _ Ht). apply elem_of_app. right. apply list_elem_of_fmap. exists j. split; [done|]. apply elem_of_seq. lia.
Qed.

End pushed.

(** * The emission *)

Definition input_ok (real : nat) (columns : list Column) (hits : list Hit) : Prop :=
  partition 0 columns real ∧ Forall (hit_ok real columns) hits.

(** The largest number of arcs that a hit of a column gives. *)
Definition hit_bound (columns : list Column) (hit : Hit) : nat :=
  match columns !! hit_column hit with Some col => Nat.min (hit_length hit) (threshold (pieces col)) | None => 0 end.

(** What a reader may rely on: the arcs connect the pieces as the hits do. *)
Record emitted (real : nat) (columns : list Column) (hits : list Hit) (e : Emission) : Prop := {
  emitted_input : input_ok real columns hits;
  emitted_arcs : arcs_ok (emitted_nodes e) (arcs e);
  emitted_real : real ≤ emitted_nodes e;
  emitted_reach u w : u < real → w < real → rtc (edge (arcs e)) u w ↔ rtc (covers hits) u w;
  emitted_selfdep u : u < real → (covers hits u u ∧ selfdep e !! u = Some 1%Z) ∨ (¬ covers hits u u ∧ selfdep e !! u = Some 0%Z);
  emitted_witnesses : pair_witnesses e = all_witnesses columns 0 hits
}.

(** The counters that the caller adds up. *)
Record accounted (real : nat) (columns : list Column) (hits : list Hit) (scratch arc_limit : option Z) (e : Emission) : Prop := {
  accounted_arcs : Z.of_nat (length (arcs e)) = (reader_arcs e + structural_arcs e)%Z;
  accounted_nodes : Z.of_nat (emitted_nodes e) = (Z.of_nat real + aux_nodes e)%Z;
  accounted_charged : charged e = (reader_arcs e + structural_arcs e + aux_nodes e)%Z;
  accounted_limit : within arc_limit (charged e);
  accounted_hits : equivalent_hits e = Z.of_nat (sum_list_with hit_length hits);
  accounted_readers : (reader_arcs e ≤ Z.of_nat (sum_list_with (hit_bound columns) hits))%Z;
  accounted_peak : emission_peak e = (8 * Z.of_nat (length columns) + emission_heap e)%Z;
  accounted_scratch l : scratch = Some l → (emission_peak e ≤ l)%Z;
  accounted_work : ∃ k, k ≤ 2 * sum_list_with (hit_levels columns) hits ∧
    emission_work e = spent (length columns + real) (2 * length columns) (2 * length hits) (2 * length (pair_witnesses e)) k
      (Z.to_nat (structural_arcs e))
}.

Lemma hit_count_bound real columns hit : partition 0 columns real → hit_ok real columns hit →
  hit_count columns hit ≤ hit_bound columns hit.
Proof.
  intros Hpart Hok. destruct (hit_bounds real columns [hit] Hpart ltac:(by apply Forall_singleton) hit ltac:(by left)) as (col & Hc & Hb).
  unfold hit_count, hit_bound, hit_length. rewrite Hc. destruct (long col hit) eqn:Hl.
  - apply negb_true_iff, Nat.leb_gt in Hl.
    pose proof (cover_length (hit_start hit - col_start col) (hit_end hit - col_start col) (pieces col) ltac:(unfold pieces; lia) ltac:(lia)). lia.
  - apply negb_false_iff, Nat.leb_le in Hl. pose proof (length_filter (λ p, p ≠ hit_reader hit) (precedents hit)) as Hf.
    unfold precedents in *. rewrite length_seq in Hf. lia.
Qed.

Lemma sum_list_with_mono {A} (f g : A → nat) l : (∀ x, x ∈ l → f x ≤ g x) → sum_list_with f l ≤ sum_list_with g l.
Proof.
  induction l as [|x l IH]; intros Hfg; cbn; [done|]. pose proof (Hfg x ltac:(by left)). specialize (IH ltac:(intros; apply Hfg; by right)). lia.
Qed.

Section exact.
Context {S X : Type} (checkpoint : S → Z → X + S) (alloc : nat → Z → bool).
Context (real : nat) (columns : list Column) (hits : list Hit) (scratch arc_limit : option Z).
Abbreviation errs := (emit_errs checkpoint scratch arc_limit (¬ input_ok real columns hits)).

Lemma no_trees : sized arc_limit real columns []
  {| bases := replicate (length columns) None; nodes := real; s_reader := 0; s_structural := 0; s_aux := 0; witnesses := 0;
     s_hits := 0; s_charged := 0 |}.
Proof.
  assert (Hnone : ∀ c b, replicate (length columns) (@None nat) !! c = Some (Some b) → False).
  { intros c b [E _]%lookup_replicate. done. }
  assert (Hsum : ∀ f : Column * option nat → nat, (∀ col, f (col, None) = 0) →
    sum_list_with f (zip columns (replicate (length columns) None)) = 0).
  { intros f Hf. clear Hnone. induction columns as [|col cols IH]; cbn; [done|]. by rewrite Hf, IH. }
  split; cbn [bases nodes s_reader s_structural s_aux s_charged sum_list_with]; rewrite ?Hsum by done; try done; [|by intros ? _].
  split; [by rewrite length_replicate|by intros c col b [_ ?%Hnone]|by intros ? ? ? ? ? ? [_ ?%Hnone]|by intros ? ? ?%elem_of_nil].
Qed.

(** The two passes agree, and the arcs are those of [ArcEmitFacts]. *)
Lemma finish_emission s f arcs : input_ok real columns hits → sized arc_limit real columns hits s →
  f_arcs f = concat (hit_arcs columns (bases s) <$> hits) → f_witnesses f = all_witnesses columns 0 hits →
  f_selfdep f = foldl (flip mark) (replicate real 0%Z) hits → arcs = f_arcs f ++ concat (tree_arcs <$> zip columns (bases s)) →
  ∀ w p, emitted real columns hits {| emitted_nodes := nodes s; arcs := arcs; pair_witnesses := f_witnesses f; selfdep := f_selfdep f;
    reader_arcs := s_reader s; structural_arcs := s_structural s; aux_nodes := s_aux s; equivalent_hits := s_hits s;
    charged := s_charged s; emission_work := w; emission_peak := p |}.
Proof.
  intros Hin Hs Hfa Hfw Hfs -> w p. pose proof Hin as [Hpart Hok]. pose proof (sized_trees _ _ _ _ _ Hs) as Ht.
  pose proof (sized_nodes _ _ _ _ _ Hs) as Hn.
  assert (Harc : ∀ x y, (x, y) ∈ f_arcs f ++ concat (tree_arcs <$> zip columns (bases s)) ↔ arc columns hits (bases s) x y).
  { intros x y. rewrite Hfa. apply (elem_of_all_arcs columns hits (bases s)). }
  split; cbn [emitted_nodes ArcEmit.arcs pair_witnesses selfdep]; [done| |lia| | |done].
  - apply Forall_forall. intros [x y] Hxy%Harc. by eapply arc_range; [exact Hpart|exact Hok|exact Ht|lia|].
  - intros u v Hu Hv. rewrite <- (arcs_reach real columns hits (bases s) (nodes s) Hpart Hok Ht u v Hu Hv).
    assert (Hedge : ∀ x y, edge (f_arcs f ++ concat (tree_arcs <$> zip columns (bases s))) x y ↔ arc columns hits (bases s) x y).
    { intros x y. unfold edge. by rewrite elem_of_adj. }
    split; apply rtc_subrel; intros x y; by apply Hedge.
  - intros u Hu. assert (Hlen : length (f_selfdep f) = real) by by rewrite Hfs, length_marks, length_replicate.
    destruct (lookup_lt_is_Some_2 (f_selfdep f) u ltac:(lia)) as [v Hv]. rewrite Hv. rewrite Hfs in Hv.
    destruct (marks_lookup hits (replicate real 0%Z) u) with (v := v) as [[-> Hc]|[Hz Hc]]; [by rewrite length_replicate| |done|by left|].
    { intros hit Hh. rewrite length_replicate. by destruct (hit_bounds real columns hits Hpart Hok hit Hh) as (_ & _ & ? & _). }
    right. apply lookup_replicate in Hz as [-> _]. done.
Qed.

Lemma length_concat_trees trees : length (concat (tree_arcs <$> trees)) = sum_list_with tree_count trees.
Proof. induction trees as [|tree trees IH]; [done|]. cbn. by rewrite length_app, IH, length_tree_arcs. Qed.

Lemma iter_initialize n : Nat.iter n (add_work (spent 1 0 0 0 0 0)) no_work = spent n 0 0 0 0 0.
Proof. induction n as [|n IH]; [done|]. by rewrite Nat.iter_succ, IH, spent_add. Qed.

Lemma runs_fill_values {A} n (value : A) :
  runs errs (fill checkpoint more_initialize [] n value) (λ r w, r = replicate n value ∧ w = spent n 0 0 0 0 0).
Proof.
  eapply runs_weaken; [apply (Counted.runs_fill _ _ _ (spent 1 0 0 0 0 0)); [ew|done]|]. cbn beta. intros r w [-> ->]. split; [done|apply iter_initialize].
Qed.

(** The record that [emit_controlled] builds. *)
Definition emission_of (s : Sizes) (f : Filling) (arcs : list (nat * nat)) (peak : Z) (w : EmitWork) : Emission :=
  {| emitted_nodes := nodes s; arcs := arcs; pair_witnesses := f_witnesses f; selfdep := f_selfdep f;
     reader_arcs := s_reader s; structural_arcs := s_structural s; aux_nodes := s_aux s; equivalent_hits := s_hits s;
     charged := s_charged s; emission_work := w; emission_peak := peak |}.

Lemma runs_emit : runs errs (emit_counted checkpoint alloc real columns hits scratch arc_limit)
  (λ r w, let '(s, f, arcs, peak) := r in
    emitted real columns hits (emission_of s f arcs peak w) ∧ accounted real columns hits scratch arc_limit (emission_of s f arcs peak w)).
Proof.
  unfold emit_counted. eapply runs_bind; [apply runs_check_columns; intros Hn [Hp _]; done|].
  cbn beta. intros previous w1 [Hprev ->]. destruct (Nat.eqb_spec previous real) as [->|Hne]; cbn [negb].
  2:{ intros mt Hm [Hp _]. by apply Hne, Hprev. }
  assert (Hpart : partition 0 columns real) by by apply Hprev. clear Hprev.
  apply runs_bytes, runs_admit. intros _. apply runs_reserve.
  eapply runs_bind; [apply runs_fill_values|]. cbn beta. intros bs w2 [-> ->].
  eapply runs_bind; [apply (runs_size_hits _ _ _ _ _ _ Hpart hits [])|].
  { by intros Hn [_ Hok]. }
  { apply no_trees. }
  { by intros c b [E _]%lookup_replicate. }
  cbn beta. intros s w3 (Hs & _ & Hh & Hw & k1 & Hk1 & ->). pose proof (sized_ok _ _ _ _ _ Hs) as Hok. cbn [app] in Hs, Hok.
  apply runs_add, runs_bytes, runs_bytes, runs_bytes, runs_add, runs_add, runs_add, runs_admit. intros Hscratch.
  do 3 apply runs_reserve. eapply runs_bind; [apply runs_fill_values|]. cbn beta. intros sd w4 [-> ->].
  eapply runs_bind; [apply (runs_fill_hits _ _ _ _ real columns (bases s) (nodes s) Hpart hits hits 0); [apply Hs|done|done|apply length_replicate]|].
  cbn beta. cbn [f_arcs f_witnesses f_selfdep app]. intros f w5 (Hfa & Hfw & Hfs & Hfl & k2 & Hk2 & ->).
  eapply runs_bind; [apply runs_fill_trees|]. cbn beta. intros arcs w6 [Harcs ->].
  assert (Hac : Z.of_nat (length arcs) = (s_reader s + s_structural s)%Z).
  { rewrite Harcs, Hfa, length_app, length_concat_trees, Hfl. destruct Hs. lia. }
  assert (Hwc : length (f_witnesses f) = witnesses s) by by rewrite Hfw, length_all_witnesses, Hw.
  rewrite Hwc, Nat.eqb_refl, (proj2 (Z.eqb_eq _ _) Hac). cbn [negb orb].
  refine (runs_flush checkpoint _ _ _ _). split; [by apply finish_emission|].
  assert (Hsd : length (f_selfdep f) = real) by by rewrite Hfs, length_marks, length_replicate.
  pose proof (sized_structural _ _ _ _ _ Hs) as Hst.
  split; unfold emission_of, emission_heap;
    cbn [ArcEmit.arcs reader_arcs structural_arcs emitted_nodes aux_nodes charged equivalent_hits emission_peak pair_witnesses selfdep emission_work].
  - done.
  - rewrite (sized_nodes _ _ _ _ _ Hs), (sized_aux _ _ _ _ _ Hs). lia.
  - apply Hs.
  - apply Hs.
  - by rewrite Hh.
  - rewrite (sized_reader _ _ _ _ _ Hs). apply inj_le, sum_list_with_mono. intros hit Hin.
    apply (hit_count_bound real); [done|]. rewrite Forall_forall in Hok. by apply Hok.
  - rewrite Hwc, Hsd. lia.
  - intros l Hl. apply Hscratch in Hl. done.
  - exists (k1 + k2). split; [lia|]. rewrite Hwc, Hst, Nat2Z.id, add_no_work, !spent_add. f_equal; rewrite ?Hw, ?length_zip_with; simpl;
      rewrite ?(trees_length _ _ _ _ _ (sized_trees _ _ _ _ _ Hs)); lia.
Qed.

Lemma emit_result s :
  match emit_controlled checkpoint alloc real columns hits scratch arc_limit s with
  | Ok (e, _) => emitted real columns hits e ∧ accounted real columns hits scratch arc_limit e
  | Err e => emit_errs checkpoint scratch arc_limit (¬ input_ok real columns hits) e
  | Panic => False
  end.
Proof.
  unfold emit_controlled. pose proof (flush_charges checkpoint {| total := 0; pending := 0; state := s |}) as Hnew.
  specialize (Hnew ltac:(simpl; lia)). unfold new. destruct (flush _ _) as [ctl|x|]; [|done|done].
  destruct Hnew as [Hctl _]. cbn [map_err mbind result_bind].
  pose proof (runs_emit {| work := no_work; control := ctl |} Hctl) as Hrun.
  destruct (emit_counted _ _ _ _ _ _ _ _) as [[mt [[[sizes f] arcs] peak]]|e|]; cbn [mbind result_bind]; [|done|done].
  destruct Hrun as (_ & _ & w & Hw & Hq). cbn [work] in Hw. rewrite no_work_add in Hw. by rewrite Hw.
Qed.

(** C27: the arcs of the planner's graph.  The emission never panics, and the sizing pass and
    the filling pass agree.  When it succeeds, the input was well formed, the arcs stay in the
    graph, one piece reaches another through them exactly when a chain of hits leads from one
    to the other, the readers of themselves are marked, every hit gives at most
    logarithmically many arcs, and the counters, the memory and the limits are as stated.
    Otherwise the input was not well formed, or the caller, the allocator or a limit stopped it. *)
Theorem emit_exact s :
  match emit_controlled checkpoint alloc real columns hits scratch arc_limit s with
  | Ok (e, _) => emitted real columns hits e ∧ accounted real columns hits scratch arc_limit e
  | Err e => emit_errs checkpoint scratch arc_limit (¬ input_ok real columns hits) e
  | Panic => False
  end.
Proof. apply emit_result. Qed.

End exact.
