(* ===== verification/Radix.v ===== *)
(** Stable sorting by 64-bit keys: the parts of a byte pass (histogram, prefix sums, scatter) and
    the comparison sort of the standard library, over any elements.  The sweep sorts its events
    with them ([ArcSort]), the schedule adapter its entries ([PlanSchedule]). *)
From S2P Require Import Prelude Buckets.

Section sorts.
Context {A : Type}.

Section pass.
Context (digit : A → nat).

(** [counts] after [for k in keys.iter()]. *)
Fixpoint histogram {E} (keys : list A) (counts : list nat) : result E (list nat) :=
  match keys with
  | [] => Ok counts
  | k :: keys =>
      n ← vec_get counts (digit k);
      counts ← vec_set counts (digit k) (n + 1);
      histogram keys counts
  end.

Fixpoint scatter {E} (keys : list A) (counts : list nat) (temp : list A) : result E (list A) :=
  match keys with
  | [] => Ok temp
  | k :: keys =>
      n ← vec_get counts (digit k);
      temp ← vec_set temp n k;
      counts ← vec_set counts (digit k) (n + 1);
      scatter keys counts temp
  end.
End pass.

(** [for c in &mut counts]. *)
Fixpoint positions (counts : list nat) (pos : nat) : list nat :=
  match counts with
  | [] => []
  | n :: counts => pos :: positions counts (pos + n)
  end.

(** [sort_by_key] of the standard library, which is stable, by the order [leb] of the keys. *)
Section comparison.
Context (leb : A → A → bool).
Fixpoint insert_by (k : A) (keys : list A) : list A :=
  match keys with
  | [] => [k]
  | x :: keys => if leb k x then k :: x :: keys else x :: insert_by k keys
  end.
Fixpoint sort_by (keys : list A) : list A :=
  match keys with
  | [] => []
  | k :: keys => insert_by k (sort_by keys)
  end.

Lemma insert_by_perm k l : insert_by k l ≡ₚ k :: l.
Proof. induction l as [|x l IH]; cbn [insert_by]; [done|]. destruct (leb k x); [done|]. rewrite IH. apply Permutation_swap. Qed.

Lemma sort_by_perm l : sort_by l ≡ₚ l.
Proof. induction l as [|k l IH]; cbn [sort_by]; [done|]. by rewrite insert_by_perm, IH. Qed.
End comparison.

(** * Stable orders *)

Section stable.
Context (f : A → Z).

Definition ordered (l : list A) : Prop := StronglySorted (λ a b, (f a ≤ f b)%Z) l.

(** [l'] is [l] in the order of [f], with equal keys in the order of [l]. *)
Definition stable (l l' : list A) : Prop := ordered l' ∧ ∀ v, filter (λ k, f k = v) l' = filter (λ k, f k = v) l.

Lemma stable_filter (P : A → Prop) `{∀ k, Decision (P k)} v l l' : stable l l' → (∀ k, P k → f k = v) → filter P l' = filter P l.
Proof.
  intros [_ Hs] HP. assert (Hf : ∀ m : list A, filter P m = filter P (filter (λ k, f k = v) m)).
  { intros l0. rewrite list_filter_filter_l; [done|]. intros k Hk. by apply HP. }
  by rewrite (Hf l'), Hs, <- Hf.
Qed.

Lemma stable_elem l l' k : stable l l' → k ∈ l' ↔ k ∈ l.
Proof.
  intros [_ Hs]. assert (H : ∀ m : list A, k ∈ m ↔ k ∈ filter (λ k', f k' = f k) m) by (intros m; rewrite list_elem_of_filter; tauto).
  by rewrite (H l'), Hs, <- H.
Qed.

Lemma ordered_unique l1 : ∀ l2, ordered l1 → ordered l2 → (∀ v, filter (λ k, f k = v) l1 = filter (λ k, f k = v) l2) → l1 = l2.
Proof.
  induction l1 as [|x l1 IH]; intros [|y l2] H1 H2 Hs; [done| | |].
  - specialize (Hs (f y)). rewrite filter_cons_True in Hs by done. done.
  - specialize (Hs (f x)). rewrite filter_cons_True in Hs by done. done.
  - apply StronglySorted_inv in H1 as [H1 Hx], H2 as [H2 Hy]. rewrite Forall_forall in Hx, Hy.
    assert (Hin : ∀ k, k ∈ x :: l1 ↔ k ∈ y :: l2).
    { intros k. assert (H : ∀ m : list A, k ∈ m ↔ k ∈ filter (λ k', f k' = f k) m) by (intros m; rewrite list_elem_of_filter; tauto).
      by rewrite (H (x :: l1)), Hs, <- H. }
    assert (Hxy : f x = f y).
    { pose proof (proj1 (Hin x) ltac:(by left)) as [->|Hx2]%elem_of_cons; [done|].
      pose proof (proj2 (Hin y) ltac:(by left)) as [->|Hy1]%elem_of_cons; [done|]. specialize (Hx _ Hy1). specialize (Hy _ Hx2). lia. }
    assert (E : x = y).
    { specialize (Hs (f x)). rewrite !filter_cons_True in Hs by done. by injection Hs. }
    subst y. f_equal. apply IH; [done|done|]. intros v. specialize (Hs v). rewrite !filter_cons in Hs. case_decide; [by injection Hs|done].
Qed.

Lemma stable_unique l l1 l2 : stable l l1 → stable l l2 → l1 = l2.
Proof. intros [H1 Hs1] [H2 Hs2]. apply ordered_unique; [done|done|]. intros v. by rewrite Hs1, Hs2. Qed.

(** ** The comparison sort *)

Context (leb : A → A → bool) (Hleb : ∀ a b, leb a b = (f a <=? f b)%Z).

Lemma insert_by_stable k l l' : stable l l' → stable (k :: l) (insert_by leb k l').
Proof using Hleb.
  intros [Ho Hs]. split.
  - clear Hs. unfold ordered in *. induction l' as [|y l' IH]; cbn [insert_by]; [by repeat constructor|].
    apply StronglySorted_inv in Ho as [Ho Hy]. rewrite Hleb. destruct (Z.leb_spec (f k) (f y)) as [Hle|Hgt].
    + constructor; [by constructor|]. constructor; [done|]. eapply Forall_impl; [exact Hy|]. cbn. lia.
    + constructor; [by apply IH|]. rewrite insert_by_perm. constructor; [lia|done].
  - intros v. rewrite filter_cons, <- Hs. clear Hs. induction l' as [|y l' IH]; cbn [insert_by].
    + rewrite filter_cons. done.
    + apply StronglySorted_inv in Ho as [Ho Hy]. specialize (IH Ho). rewrite Hleb. destruct (Z.leb_spec (f k) (f y)) as [Hle|Hgt].
      * by rewrite filter_cons.
      * rewrite !(filter_cons _ y), IH. repeat case_decide; try done. lia.
Qed.

Lemma sort_by_stable l : stable l (sort_by leb l).
Proof using Hleb. induction l as [|k l IH]; cbn [sort_by]; [split; [constructor|done]|by apply insert_by_stable]. Qed.

End stable.

Lemma stable_perm f l l' : stable f l l' → l' ≡ₚ l.
Proof.
  intros Hst. rewrite (stable_unique f l l' (sort_by (λ a b, f a <=? f b)%Z l)); [apply sort_by_perm|done|by apply sort_by_stable].
Qed.

(** Only the keys of the list matter. *)
Lemma stable_ext f g l l' : (∀ k, k ∈ l → f k = g k) → stable f l l' → stable g l l'.
Proof.
  intros Hfg Hst. assert (Hfg' : ∀ k, k ∈ l' → f k = g k) by (intros k Hk; by apply Hfg, (stable_elem f l l' k Hst)).
  assert (Hfil : ∀ m : list A, (∀ k, k ∈ m → f k = g k) → ∀ v, filter (λ k, g k = v) m = filter (λ k, f k = v) m).
  { induction m as [|k m IH]; intros Hm v; [done|]. rewrite !filter_cons, (Hm k), IH by (set_solver). done. }
  split; [|intros v; rewrite !Hfil by done; apply Hst]. destruct Hst as [Ho _]. unfold ordered in *. clear Hfil.
  induction Ho as [|k m Ho IH Hk]; constructor; [apply IH; set_solver|]. apply Forall_forall. intros k' Hk'.
  rewrite Forall_forall in Hk. rewrite <- !Hfg' by set_solver. by apply Hk.
Qed.

(** A permutation in strict order is the sorted list. *)
Lemma strict_stable f l l' : l' ≡ₚ l → StronglySorted (λ a b, (f a < f b)%Z) l' → stable f l l'.
Proof.
  intros Hp Hs. split.
  { clear Hp. unfold ordered. induction Hs as [|x l' Hs IH Hx]; constructor; [done|]. eapply Forall_impl; [exact Hx|]. cbn. lia. }
  intros v.
  assert (Hone : length (filter (λ k, f k = v) l') ≤ 1).
  { clear Hp. induction Hs as [|x l' Hs IH Hx]; [cbn; lia|]. rewrite filter_cons. case_decide as E; [|done]. cbn.
    rewrite filter_none; [cbn; lia|]. rewrite Forall_forall in Hx. intros y Hy%Hx. lia. }
  assert (Hpf : filter (λ k, f k = v) l' ≡ₚ filter (λ k, f k = v) l) by by rewrite Hp.
  destruct (filter _ l') as [|x [|]] eqn:E; cbn in Hone; [by apply Permutation_nil_l in Hpf| |lia].
  by apply Permutation_singleton_l in Hpf.
Qed.

(** * One byte pass *)

Section bytes_pass.
Context (digit : A → nat) (Hdigit : ∀ k, digit k < 256).

(** The elements by their byte. *)
Definition by_digit (keys : list A) : list (nat * A) := (λ k, (digit k, k)) <$> keys.
Definition buckets (keys : list A) (m : nat) : list A := concat ((λ d, filter (λ k, digit k = d) keys) <$> seq 0 m).

Lemma by_digit_ok keys : Forall (λ a, a.1 < 256) (by_digit keys).
Proof using Hdigit. by apply Forall_fmap, Forall_true. Qed.

Lemma adj_by_digit keys d : adj (by_digit keys) d = filter (λ k, digit k = d) keys.
Proof using Type. induction keys as [|k keys IH]; [done|]. unfold by_digit in *. cbn [fmap list_fmap]. by rewrite adj_cons, IH, filter_cons. Qed.

Lemma histogram_ok {E} keys : ∀ counts, length counts = 256 → ∃ counts',
  histogram (E := E) digit keys counts = Ok counts' ∧ length counts' = 256 ∧
  ∀ d, d < 256 → counts' !!! d = counts !!! d + length (adj (by_digit keys) d).
Proof using Hdigit.
  induction keys as [|k keys IH]; intros counts Hl; cbn [histogram].
  - exists counts. split; [done|]. split; [done|]. intros d _. unfold adj. simpl. lia.
  - pose proof (Hdigit k) as Hd. rewrite vec_get_ok by lia. cbn [mbind result_bind]. rewrite vec_set_ok by lia. cbn [mbind result_bind].
    destruct (IH (<[digit k := counts !!! digit k + 1]> counts)) as (counts' & -> & Hl' & Hc); [by rewrite length_insert|].
    exists counts'. split; [done|]. split; [done|]. intros d Hdd. rewrite Hc by done. unfold by_digit. cbn [fmap list_fmap].
    rewrite adj_cons. cbn [fst snd]. destruct (decide (digit k = d)) as [->|Hne].
    + rewrite list_lookup_total_insert_eq by lia. simpl. lia.
    + by rewrite list_lookup_total_insert_ne by done.
Qed.

Lemma positions_ok (arcs : list (nat * A)) n : ∀ counts m, length counts = n →
  (∀ i, i < n → counts !!! i = length (adj arcs (m + i))) →
  length (positions counts (start arcs m)) = n ∧ ∀ i, i < n → positions counts (start arcs m) !!! i = start arcs (m + i).
Proof using Type.
  induction n as [|n IH]; intros [|c counts] m Hl Hc; try done; [by split; [|lia]|]. cbn [positions].
  injection Hl as Hl. pose proof (Hc 0 ltac:(lia)) as Hc0. rewrite Nat.add_0_r in Hc0. change (c = length (adj arcs m)) in Hc0.
  replace (start arcs m + c) with (start arcs (Datatypes.S m)) by (rewrite start_succ; lia).
  destruct (IH counts (Datatypes.S m) Hl) as [Hlen Hi].
  { intros i Hi. specialize (Hc (Datatypes.S i) ltac:(lia)). rewrite Nat.add_succ_comm. exact Hc. }
  split; [cbn; lia|]. intros [|i] Hlt; [by rewrite Nat.add_0_r|]. rewrite <- Nat.add_succ_comm. apply Hi. lia.
Qed.

Lemma scatter_ok {E} keys todo : ∀ dn counts temp, keys = dn ++ todo →
  filled (by_digit keys) (by_digit dn) 256 temp counts →
  ∃ temp' counts', scatter (E := E) digit todo counts temp = Ok temp' ∧
    filled (by_digit keys) (by_digit keys) 256 temp' counts'.
Proof using Hdigit.
  induction todo as [|k todo IH]; intros dn counts temp Hk Hf; cbn [scatter].
  - exists temp, counts. rewrite app_nil_r in Hk. by subst.
  - assert (Ha : by_digit keys = by_digit dn ++ (digit k, k) :: by_digit todo) by (rewrite Hk; unfold by_digit; by rewrite fmap_app).
    destruct (filled_step _ _ _ _ _ _ _ _ Ha (by_digit_ok keys) Hf) as (Hd & Hpos & Hf').
    pose proof Hf as (_ & Hlc & _). rewrite vec_get_ok by lia. cbn [mbind result_bind].
    rewrite (vec_set_ok temp) by exact Hpos. cbn [mbind result_bind]. rewrite vec_set_ok by lia. cbn [mbind result_bind].
    apply (IH (dn ++ [k])); [by rewrite <- app_assoc|]. unfold by_digit. rewrite fmap_app. exact Hf'.
Qed.

(** The two halves of a pass: the buckets one after the other. *)
Lemma scattered {E} keys temp : length temp = length keys → ∃ counts,
  histogram (E := E) digit keys (replicate 256 0) = Ok counts ∧
  scatter (E := E) digit keys (positions counts 0) temp = Ok (buckets keys 256) ∧ length (buckets keys 256) = length keys.
Proof using Hdigit.
  intros Hl. destruct (histogram_ok (E := E) keys (replicate 256 0) (length_replicate _ _)) as (counts & Hh & Hlc & Hc).
  exists counts. split; [done|].
  destruct (positions_ok (by_digit keys) 256 counts 0 Hlc) as [Hlp Hp].
  { intros i Hi. rewrite Hc by done. by rewrite lookup_total_replicate_2. }
  rewrite start_zero in Hlp, Hp.
  destruct (scatter_ok (E := E) keys keys [] (positions counts 0) temp eq_refl) as (temp' & counts' & -> & Hf).
  { split; [unfold by_digit; by rewrite length_fmap|]. split; [done|]. split; [|by intros i j x _].
    intros i Hi. rewrite Hp by done. unfold adj. simpl. lia. }
  assert (Hout : temp' = buckets keys 256).
  { rewrite (filled_concat _ _ _ _ Hf (by_digit_ok keys)). unfold buckets. f_equal. apply list_fmap_ext. intros i d _. apply adj_by_digit. }
  rewrite <- Hout. split; [done|]. destruct Hf as (-> & _). unfold by_digit. by rewrite length_fmap.
Qed.

Lemma buckets_succ keys m : buckets keys (Datatypes.S m) = buckets keys m ++ filter (λ k, digit k = m) keys.
Proof using Type. unfold buckets. rewrite seq_S, fmap_app, concat_app. cbn. by rewrite app_nil_r. Qed.

Lemma buckets_elem keys m k : k ∈ buckets keys m ↔ k ∈ keys ∧ digit k < m.
Proof using Type.
  induction m as [|m IH]; [split; [by intros ?%elem_of_nil|intros [_ ?]; lia]|].
  rewrite buckets_succ, elem_of_app, list_elem_of_filter, IH. split; [intuition lia|].
  intros [Hk Hd]. destruct (decide (digit k = m)) as [->|Hne]; [by right|left; split; [done|lia]].
Qed.

Lemma buckets_filter keys m (P : A → Prop) `{∀ k, Decision (P k)} d : (∀ k, P k → digit k = d) → d < m →
  filter P (buckets keys m) = filter P keys.
Proof using Type.
  intros HP. induction m as [|m IH]; [lia|]. intros Hd. rewrite buckets_succ, filter_app. destruct (decide (d = m)) as [->|Hne].
  - rewrite (list_filter_filter_l _ _ keys) by done.
    replace (filter P (buckets keys m)) with (@nil A); [done|]. symmetry. apply filter_none.
    intros k Hk HPk. apply buckets_elem in Hk as [_ Hk]. specialize (HP k HPk). lia.
  - rewrite IH by lia. replace (filter P (filter _ keys)) with (@nil A); [apply app_nil_r|]. symmetry. apply filter_none.
    intros k Hk HPk. apply list_elem_of_filter in Hk as [Hk _]. specialize (HP k HPk). lia.
Qed.

Lemma buckets_ext (digit' : A → nat) keys m : (∀ k, k ∈ keys → digit k = digit' k) → buckets keys m = concat ((λ d, filter (λ k, digit' k = d) keys) <$> seq 0 m).
Proof using Type. intros E. unfold buckets. f_equal. apply list_fmap_ext. intros i d _. apply filter_ext_elem. intros k Hk. by rewrite E. Qed.

(** One bucket with everything. *)
Lemma buckets_one keys d : d < 256 → (∀ k, k ∈ keys → digit k = d) → buckets keys 256 = keys.
Proof using Type.
  intros Hlt Hkeys. assert (Hb : ∀ m, buckets keys m = if decide (d < m) then keys else []); [|by rewrite Hb, decide_True].
  induction m as [|m IH]; [done|]. rewrite buckets_succ, IH. repeat case_decide; try lia.
  - rewrite filter_none, app_nil_r; [done|]. intros k Hk E. rewrite (Hkeys k Hk) in E. lia.
  - apply filter_every. intros k Hk. rewrite (Hkeys k Hk). lia.
  - apply filter_none. intros k Hk E. rewrite (Hkeys k Hk) in E. lia.
Qed.
End bytes_pass.

(** * The bytes of a key *)

Section bytes.
Context (key : A → Z).

Definition byte (s : Z) (k : A) : nat := Z.to_nat ((key k / 2 ^ s) mod 256).
Definition low (s : Z) (k : A) : Z := (key k mod 2 ^ s)%Z.

Lemma byte_lt s k : byte s k < 256.
Proof. unfold byte. pose proof (Z.mod_pos_bound (key k / 2 ^ s) 256). lia. Qed.

Lemma low_bound s k : (0 ≤ s)%Z → (0 ≤ low s k < 2 ^ s)%Z.
Proof. intros Hs. apply Z.mod_pos_bound, Z.pow_pos_nonneg; lia. Qed.

Lemma low_step s k : (0 ≤ s)%Z → low (s + 8) k = (Z.of_nat (byte s k) * 2 ^ s + low s k)%Z.
Proof.
  intros Hs. unfold low, byte. rewrite Z.pow_add_r by lia. change (2 ^ 8)%Z with 256%Z.
  pose proof (Z.pow_pos_nonneg 2 s). rewrite Z.rem_mul_r by lia. pose proof (Z.mod_pos_bound (key k / 2 ^ s) 256). lia.
Qed.

(** Two keys with the same bits below [s + 8] have the same byte at [s]. *)
Lemma low_byte s k k' : (0 ≤ s)%Z → low (s + 8) k = low (s + 8) k' → byte s k = byte s k' ∧ low s k = low s k'.
Proof.
  intros Hs. rewrite !low_step by done. pose proof (low_bound s k Hs). pose proof (low_bound s k' Hs). intros E.
  assert (Z.of_nat (byte s k) = Z.of_nat (byte s k')) by nia. split; [lia|nia].
Qed.

Lemma low_le s k k' : (0 ≤ s)%Z → byte s k < byte s k' ∨ byte s k = byte s k' ∧ (low s k ≤ low s k')%Z →
  (low (s + 8) k ≤ low (s + 8) k')%Z.
Proof.
  intros Hs. rewrite !low_step by done. pose proof (low_bound s k Hs). pose proof (low_bound s k' Hs).
  intros [Hlt|[-> Hle]]; [|lia]. nia.
Qed.

Lemma buckets_ordered s keys m : (0 ≤ s)%Z → ordered (low s) keys → ordered (low (s + 8)) (buckets (byte s) keys m).
Proof.
  intros Hs Ho. induction m as [|m IH]; [constructor|]. rewrite buckets_succ. apply StronglySorted_app. split_and!; [|done|].
  - intros x y [_ Hx]%buckets_elem [Hy _]%list_elem_of_filter. apply low_le; [done|]. left. lia.
  - unfold ordered in *. clear IH. induction Ho as [|x l Ho IH Hx]; [constructor|]. rewrite filter_cons. case_decide as Hd; [|done].
    constructor; [done|]. apply Forall_forall. intros y [Hy Hyl]%list_elem_of_filter. rewrite Forall_forall in Hx.
    apply low_le; [done|]. right. split; [lia|by apply Hx].
Qed.

Lemma pass_stable s orig keys : (0 ≤ s)%Z → stable (low s) orig keys → stable (low (s + 8)) orig (buckets (byte s) keys 256).
Proof.
  intros Hs Hst. split; [apply buckets_ordered; [done|apply Hst]|]. intros v.
  destruct (filter (λ k, low (s + 8) k = v) (orig ++ buckets (byte s) keys 256)) as [|k0 l] eqn:E.
  - rewrite filter_app in E. by apply app_eq_nil in E as [-> ->].
  - assert (Hk0 : low (s + 8) k0 = v).
    { assert (Hin : k0 ∈ filter (λ k, low (s + 8) k = v) (orig ++ buckets (byte s) keys 256)) by (rewrite E; by left).
      by apply list_elem_of_filter in Hin as [? _]. }
    rewrite (buckets_filter (byte s) keys 256 _ (byte s k0)).
    + apply (stable_filter (low s) _ (low s k0) orig keys Hst). intros k Hk. apply (low_byte s k k0); [done|by rewrite Hk0].
    + intros k Hk. apply (low_byte s k k0); [done|by rewrite Hk0].
    + apply byte_lt.
Qed.

(** A skipped pass: the byte is the same in every key. *)
Lemma skip_stable s orig keys : (0 ≤ s)%Z → (∀ k k', k ∈ keys → k' ∈ keys → byte s k = byte s k') →
  stable (low s) orig keys → stable (low (s + 8)) orig keys.
Proof.
  intros Hs Hd Hst. replace keys with (buckets (byte s) keys 256) at 1; [by apply pass_stable|].
  destruct keys as [|k0 keys]; [apply (buckets_one _ _ 0); [lia|by intros k ?%elem_of_nil]|].
  apply (buckets_one _ _ (byte s k0)); [apply byte_lt|]. intros k Hk. apply Hd; [done|by left].
Qed.

(** Before the first pass nothing is ordered, after the last everything. *)
Lemma low_start l : stable (low 0) l l.
Proof.
  assert (Hz : ∀ k, low 0 k = 0%Z) by (intros k; unfold low; apply Z.mod_1_r). split; [|done].
  unfold ordered. induction l as [|x l IH]; constructor; [done|]. apply Forall_true. intros k'. by rewrite !Hz.
Qed.

Lemma low_end n l l' : Forall (λ k, (0 ≤ key k < 2 ^ n)%Z) l → stable (low n) l l' → stable key l l'.
Proof. intros Hk. apply stable_ext. intros k Hin. rewrite Forall_forall in Hk. apply Z.mod_small. by apply Hk. Qed.

(** [differs]: where it has no bits, all the keys have those of the first. *)
Lemma differs_bits keys first sh : ∀ d,
  Z.land (Z.shiftr (foldl (λ d k, Z.lor d (Z.lxor (key k) first)) d keys) sh) 255 = 0%Z →
  Z.land (Z.shiftr d sh) 255 = 0%Z ∧ ∀ k, k ∈ keys → Z.land (Z.shiftr (key k) sh) 255 = Z.land (Z.shiftr first sh) 255.
Proof.
  induction keys as [|k keys IH]; intros d; cbn [foldl]; [intros ->; split; [done|by intros ? ?%elem_of_nil]|].
  intros [Hd Hk]%IH. rewrite Z.shiftr_lor, Z.land_lor_distr_l in Hd. apply Z.lor_eq_0_iff in Hd as [Hd Hx]. split; [done|].
  intros k' [->|Hk']%elem_of_cons; [|by apply Hk]. apply Z.lxor_eq. rewrite <- Hx, Z.shiftr_lxor.
  apply Z.bits_inj'. intros n _. rewrite Z.lxor_spec, !Z.land_spec, Z.lxor_spec.
  by destruct (Z.testbit (Z.shiftr (key k) sh) n), (Z.testbit (Z.shiftr first sh) n), (Z.testbit 255 n).
Qed.
End bytes.
End sorts.
