(* ===== verification/ArcSort.v ===== *)
(** The sort of [engine/authority/arc_sweep.rs]: eight stable byte passes over 64-bit keys, or
    one comparison sort of a few keys.  It is the stable sort by the keys. *)
From S2P Require Import Prelude PlanControl Counted Radix.

Record SweepWork : Type := {
  w_input : Z; w_initialize : Z; w_sort : Z; w_columns : Z; w_pairs : Z; w_keys : Z
}.

Definition sweep_total (w : SweepWork) : Z :=
  (w_input w + w_initialize w + w_sort w + w_columns w + w_pairs w + w_keys w)%Z.

#[export] Instance sweep_work : Work SweepWork := {|
  no_work := {| w_input := 0; w_initialize := 0; w_sort := 0; w_columns := 0; w_pairs := 0; w_keys := 0 |};
  add_work a b := {| w_input := w_input a + w_input b; w_initialize := w_initialize a + w_initialize b;
    w_sort := w_sort a + w_sort b; w_columns := w_columns a + w_columns b; w_pairs := w_pairs a + w_pairs b;
    w_keys := w_keys a + w_keys b |};
  work_total := sweep_total
|}.

Inductive SweepError (X : Type) : Type :=
| SweepAuthority (e : AuthorityError)
| SweepRuntime (e : X)
| SweepInvalidInput
| DiscoveryLimit (needed limit : Z) (work : SweepWork).
Arguments SweepAuthority {X}.
Arguments SweepRuntime {X}.
Arguments SweepInvalidInput {X}.
Arguments DiscoveryLimit {X}.

#[export] Instance sweep_runtime {X} : From X (SweepError X) := SweepRuntime.

Record Key : Type := { key : Z; payload : nat }.
#[export] Instance Key_eq_dec : EqDecision Key.
Proof. solve_decision. Defined.
#[export] Instance Key_inhabited : Inhabited Key := populate {| key := 0; payload := 0 |}.

(** [Key::default()]. *)
Definition no_key : Key := {| key := 0; payload := 0 |}.

Definition SMALL_SORT : nat := 32.

(** * One pass *)

Definition digit (shift : Z) (k : Key) : nat := Z.to_nat (Z.land (Z.shiftr (key k) shift) 255).

(** [keys.copy_from_slice(&temp[..keys.len()])]: the keys and the temporary buffer. *)
Definition pass {E} (shift : Z) (keys temp : list Key) : result E (list Key * list Key) :=
  counts ← histogram (digit shift) keys (replicate 256 0);
  temp ← scatter (digit shift) keys (positions counts 0) temp;
  keys ← vec_slice temp 0 (length keys);
  Ok (keys, temp).

(** * The sort *)

(** [keys.sort_by_key(|k| k.key)]. *)
Definition sort_by_key (keys : list Key) : list Key := sort_by (λ a b, (key a <=? key b)%Z) keys.

(** [keys.iter().fold(0, |d, k| d | (k.key ^ first))]. *)
Definition differs (keys : list Key) (first : Z) : Z := foldl (λ d k, Z.lor d (Z.lxor (key k) first)) 0%Z keys.

(** [(0..64).step_by(8)]. *)
Definition shifts : list Z := [0; 8; 16; 24; 32; 40; 48; 56]%Z.

Section sort.
Context {S X : Type} (checkpoint : S → Z → X + S).
Abbreviation counted := (counted S (SweepError X) SweepWork).

Definition more_sort (n : Z) (w : SweepWork) : SweepWork :=
  {| w_input := w_input w; w_initialize := w_initialize w; w_sort := w_sort w + n; w_columns := w_columns w;
     w_pairs := w_pairs w; w_keys := w_keys w |}.

Fixpoint passes (small : bool) (diff : Z) (shifts : list Z) (keys temp : list Key) : counted (list Key * list Key) :=
  match shifts with
  | [] => mret (keys, temp)
  | shift :: shifts =>
      let units := (512 + 3 * Z.of_nat (length keys))%Z in
      _ ← count_units checkpoint (more_sort units) units;
      if small || (Z.land (Z.shiftr diff shift) 255 =? 0)%Z then passes small diff shifts keys temp
      else
        '(keys, temp) ← lift (pass shift keys temp);
        passes small diff shifts keys temp
  end.

Definition sort (keys temp : list Key) : counted (list Key) :=
  match keys with
  | [] => mret keys
  | first :: _ =>
      let diff := differs keys (key first) in
      let small := (length keys <=? SMALL_SORT)%nat in
      '(keys, _) ← passes small diff shifts keys temp;
      mret (if small then sort_by_key keys else keys)
  end.

End sort.

Example small_pass : pass (E := Empty_set) 8 [{| key := 769; payload := 0 |}; {| key := 258; payload := 1 |}; {| key := 770; payload := 2 |}]
    (replicate 3 no_key)
  = Ok ([{| key := 258; payload := 1 |}; {| key := 769; payload := 0 |}; {| key := 770; payload := 2 |}],
        [{| key := 258; payload := 1 |}; {| key := 769; payload := 0 |}; {| key := 770; payload := 2 |}]).
Proof. vm_compute. reflexivity. Qed.
