(* ===== verification/ArcSortTheorems.v ===== *)
(** The sort of [ArcSort] is the stable sort by the keys, on both of its paths. *)
From S2P Require Import Prelude PlanControl Counted Buckets Radix ArcSort.

(** * The two sorts *)

Lemma sort_by_key_stable l : stable key l (sort_by_key l).
Proof. by apply sort_by_stable. Qed.

Lemma sort_by_key_perm l : sort_by_key l ≡ₚ l.
Proof. apply sort_by_perm. Qed.

Lemma digit_byte shift k : (0 ≤ shift)%Z → digit shift k = byte key shift k.
Proof. intros Hs. unfold digit. change 255%Z with (Z.ones 8). by rewrite Z.land_ones, Z.shiftr_div_pow2. Qed.

Lemma digit_lt shift k : (0 ≤ shift)%Z → digit shift k < 256.
Proof. intros Hs. rewrite digit_byte by done. apply byte_lt. Qed.

Lemma pass_ok {E} shift keys temp : (0 ≤ shift)%Z → length temp = length keys →
  let out := buckets (byte key shift) keys 256 in length out = length keys ∧ pass (E := E) shift keys temp = Ok (out, out).
Proof.
  intros Hs Hl out. unfold pass. destruct (scattered (E := E) (digit shift) (λ k, digit_lt shift k Hs) keys temp Hl) as (counts & -> & Hsc & Hlen).
  cbn [mbind result_bind]. rewrite Hsc. cbn [mbind result_bind].
  assert (Hout : buckets (digit shift) keys 256 = out).
  { apply buckets_ext. intros k _. by apply digit_byte. }
  rewrite Hout in *. rewrite vec_slice_ok by lia. cbn [mbind result_bind]. rewrite drop_0, Nat.sub_0_r, take_ge by lia. done.
Qed.

(** * Counting *)

#[export] Instance sweep_work_laws : WorkLaws SweepWork.
Proof.
  split; unfold add_work, no_work, work_total, sweep_work.
  - intros a b c. cbn. f_equal; lia.
  - intros a b. cbn. f_equal; lia.
  - intros []. cbn. f_equal; lia.
  - intros a b. cbn. unfold sweep_total. cbn. lia.
Qed.

Definition swept (i z s c p k : nat) : SweepWork :=
  {| w_input := Z.of_nat i; w_initialize := Z.of_nat z; w_sort := Z.of_nat s; w_columns := Z.of_nat c; w_pairs := Z.of_nat p;
     w_keys := Z.of_nat k |}.

Lemma swept_add i z s c p k i' z' s' c' p' k' :
  add_work (swept i z s c p k) (swept i' z' s' c' p' k') = swept (i + i') (z + z') (s + s') (c + c') (p + p') (k + k').
Proof. unfold add_work, swept. simpl. f_equal; lia. Qed.

Lemma total_swept i z s c p k : work_total (swept i z s c p k) = Z.of_nat (i + z + s + c + p + k).
Proof. change (sweep_total (swept i z s c p k) = Z.of_nat (i + z + s + c + p + k)). unfold sweep_total, swept. simpl. lia. Qed.

(** * The sort *)

Lemma differs_digit keys first sh : (0 ≤ sh)%Z → Z.land (Z.shiftr (differs keys first) sh) 255 = 0%Z →
  ∀ k k', k ∈ keys → k' ∈ keys → byte key sh k = byte key sh k'.
Proof. intros Hs [_ Hd]%(differs_bits key) k k' Hk Hk'. rewrite <- !digit_byte by done. unfold digit. by rewrite (Hd k Hk), (Hd k' Hk'). Qed.

Fixpoint steps (s : Z) (todo : list Z) : Prop :=
  match todo with [] => True | x :: todo => x = s ∧ steps (s + 8) todo end.

Section sorting.
Context {S X : Type} (checkpoint : S → Z → X + S) (errs : SweepError X → Prop) `{!Cancels checkpoint errs}.
Abbreviation runs := (runs (S := S) errs).

Definition sort_units (n : nat) : nat := 512 + 3 * n.

Lemma runs_pass {B} n (k : () → counted S (SweepError X) SweepWork B) Q :
  runs (k ()) (λ b w, Q b (add_work (swept 0 0 (sort_units n) 0 0 0) w)) →
  runs (count_units checkpoint (more_sort (512 + 3 * Z.of_nat n)) (512 + 3 * Z.of_nat n) ≫= k) Q.
Proof.
  apply (runs_units _ _ _ (swept 0 0 (sort_units n) 0 0 0)); [|rewrite total_swept; unfold sort_units; lia|lia].
  intros w. unfold more_sort, swept, add_work, sweep_work, sort_units. cbn [w_input w_initialize w_sort w_columns w_pairs w_keys]. f_equal; lia.
Qed.

Lemma runs_passes_small diff todo keys temp :
  runs (passes checkpoint true diff todo keys temp) (λ r w, r.1 = keys ∧ w = swept 0 0 (length todo * sort_units (length keys)) 0 0 0).
Proof.
  induction todo as [|sh todo IH]; cbn [passes]; [by apply runs_ret|].
  apply runs_pass. eapply runs_weaken; [apply IH|]. cbn beta. intros r w [-> ->]. by rewrite swept_add.
Qed.

Lemma runs_passes orig diff : (∀ sh, (0 ≤ sh)%Z → Z.land (Z.shiftr diff sh) 255 = 0%Z → ∀ k k', k ∈ orig → k' ∈ orig → byte key sh k = byte key sh k') →
  ∀ todo s keys temp, (0 ≤ s)%Z → steps s todo → length keys = length orig → length temp = length keys → stable (low key s) orig keys →
  runs (passes checkpoint false diff todo keys temp) (λ r w,
    stable (low key (s + 8 * Z.of_nat (length todo))) orig r.1 ∧ w = swept 0 0 (length todo * sort_units (length orig)) 0 0 0).
Proof.
  intros Hdiff. induction todo as [|sh todo IH]; intros s keys temp Hs Hsteps Hk Ht Hst; cbn [passes].
  { apply runs_ret. rewrite Z.mul_0_r, Z.add_0_r. done. }
  destruct Hsteps as [-> Hsteps]. apply runs_pass. cbn [orb]. rewrite Hk.
  replace (s + 8 * Z.of_nat (length (s :: todo)))%Z with (s + 8 + 8 * Z.of_nat (length todo))%Z by (cbn; lia).
  destruct (Z.eqb_spec (Z.land (Z.shiftr diff s) 255) 0) as [Hz|Hnz].
  - eapply runs_weaken; [apply (IH (s + 8)%Z keys temp); [lia|done|done|done|]|].
    { apply skip_stable; [done| |done]. intros k k' Hk1 Hk2. apply Hdiff; [done|done|by apply (stable_elem (low key s) orig keys _ Hst)..]. }
    cbn beta. intros r w [Hr ->]. by rewrite swept_add.
  - destruct (pass_ok (E := SweepError X) s keys temp Hs Ht) as [Hlen Hpass]. eapply runs_lift; [exact Hpass|].
    eapply runs_weaken; [apply (IH (s + 8)%Z); [lia|done|lia|done|by apply pass_stable]|].
    cbn beta. intros r w [Hr ->]. by rewrite swept_add.
Qed.

Definition sort_cost (n : nat) : nat := match n with O => 0 | _ => 8 * sort_units n end.

(** The sort is the stable comparison sort, for 64-bit keys. *)
Lemma runs_sort keys temp : Forall (λ k, in_u64 (key k)) keys → length temp = length keys →
  runs (sort checkpoint keys temp) (λ r w, r = sort_by_key keys ∧ w = swept 0 0 (sort_cost (length keys)) 0 0 0).
Proof.
  intros Hu Ht. unfold sort. destruct keys as [|first keys0]; [by apply runs_ret|].
  set (keys := first :: keys0) in *. change (sort_cost (length keys)) with (8 * sort_units (length keys)).
  destruct (length keys <=? SMALL_SORT)%nat eqn:Hsmall.
  - eapply runs_bind; [apply runs_passes_small|]. cbn beta. intros [r t] w [E ->]. cbn [fst] in E. subst r.
    apply runs_ret. rewrite add_no_work. done.
  - eapply runs_bind; [apply (runs_passes keys (differs keys (key first))) with (s := 0%Z); [|done|done|done|done|apply low_start]|].
    + intros sh Hs Hz. by apply (differs_digit keys (key first)).
    + cbn beta. intros [r t] w [Hst ->]. cbn [fst] in Hst. apply runs_ret. rewrite add_no_work. split; [|done].
      change (0 + 8 * Z.of_nat (length shifts))%Z with 64%Z in Hst.
      apply (stable_unique key keys); [|apply sort_by_key_stable]. apply (low_end key 64); [|done].
      eapply Forall_impl; [exact Hu|]. cbn beta. unfold in_u64, u64_max. lia.
Qed.

End sorting.
