(* ===== verification/ArcSweep.v ===== *)
(** [engine/authority/arc_sweep.rs]: which pieces each reader's image meets.  The pieces are
    in the order of sheet, column and row; an event sweep over every column turns the rows of
    an image into the interval of the pieces that they touch.

    The sentinel [usize::MAX] of [current] is [None]. *)
From S2P Require Import Prelude Geom Proj PlanControl Counted ArcEmit ArcSort.

Record Slice : Type := { s_sheet : Z; s_col : Z; s_r0 : Z; s_r1 : Z }.
Record Probe : Type := { q_reader : nat; q_sheet : Z; q_image : Rect }.

Record Sweep : Type := {
  columns : list Column;
  hits : list Hit;
  probes : list nat;
  sweep_work : SweepWork;
  sweep_peak : Z
}.

Definition sweep_heap (s : Sweep) : Z :=
  (Z.of_nat (length (columns s)) * 16 + Z.of_nat (length (hits s)) * 32 + Z.of_nat (length (probes s)) * 8)%Z.

Definition colkey (sheet col : Z) : Z := Z.lor (Z.shiftl sheet 14) col.
Definition event_key (column : nat) (row kind : Z) : Z :=
  Z.lor (Z.lor (Z.shiftl (Z.of_nat column) 22) (Z.shiftl row 2)) kind.

(** [checked_mul(2)] of a [u64] and of a [usize]. *)
Definition twice (n : Z) : result AuthorityError Z := if (n * 2 <=? u64_max)%Z then Ok (n * 2)%Z else Err Alloc.

(** The tests of the input. *)
Definition slice_bad (s : Slice) : bool :=
  (MAX_COL <? s_col s)%Z || (s_r1 s <? s_r0 s)%Z || (MAX_ROW <? s_r1 s)%Z.
Definition slice_key (s : Slice) : Z := colkey (s_sheet s) (s_col s).
Definition unsorted (p s : Slice) : bool :=
  (slice_key s <? slice_key p)%Z || ((slice_key s =? slice_key p)%Z && (s_r0 s <=? s_r1 p)%Z).
Definition probe_bad (n : nat) (q : Probe) : bool :=
  (n <=? q_reader q)%nat || (r1 (q_image q) <? r0 (q_image q))%Z || (c1 (q_image q) <? c0 (q_image q))%Z ||
  (MAX_ROW <? r1 (q_image q))%Z || (MAX_COL <? c1 (q_image q))%Z.

Section sweep.
Context {S X : Type} (checkpoint : S → Z → X + S) (alloc : nat → Z → bool).
Abbreviation counted := (counted S (SweepError X) SweepWork).
Abbreviation count := (count checkpoint).
Abbreviation count_units := (count_units checkpoint).

Definition more_input (w : SweepWork) : SweepWork :=
  {| w_input := w_input w + 1; w_initialize := w_initialize w; w_sort := w_sort w; w_columns := w_columns w;
     w_pairs := w_pairs w; w_keys := w_keys w |}.
Definition more_initialize (w : SweepWork) : SweepWork :=
  {| w_input := w_input w; w_initialize := w_initialize w + 1; w_sort := w_sort w; w_columns := w_columns w;
     w_pairs := w_pairs w; w_keys := w_keys w |}.
Definition more_columns (w : SweepWork) : SweepWork :=
  {| w_input := w_input w; w_initialize := w_initialize w; w_sort := w_sort w; w_columns := w_columns w + 1;
     w_pairs := w_pairs w; w_keys := w_keys w |}.
Definition more_pairs (w : SweepWork) : SweepWork :=
  {| w_input := w_input w; w_initialize := w_initialize w; w_sort := w_sort w; w_columns := w_columns w;
     w_pairs := w_pairs w + 1; w_keys := w_keys w |}.
Definition more_keys (n : Z) (w : SweepWork) : SweepWork :=
  {| w_input := w_input w; w_initialize := w_initialize w; w_sort := w_sort w; w_columns := w_columns w;
     w_pairs := w_pairs w; w_keys := w_keys w + n |}.

Definition authority {A} (r : result AuthorityError A) : counted A := lift (map_err SweepAuthority r).

(** ** The input *)

Fixpoint check_slices (slices : list Slice) (previous : option Slice) (columns : nat) : counted nat :=
  match slices with
  | [] => mret columns
  | s :: slices =>
      _ ← count more_input;
      if slice_bad s then lift (Err SweepInvalidInput)
      else match previous with
           | Some p =>
               if unsorted p s then lift (Err SweepInvalidInput)
               else check_slices slices (Some s) (if negb (slice_key s =? slice_key p)%Z then columns + 1 else columns)
           | None => check_slices slices (Some s) (columns + 1)
           end
  end.

Fixpoint check_probes (n : nat) (probes : list Probe) : counted () :=
  match probes with
  | [] => mret ()
  | q :: probes =>
      _ ← count more_input;
      if probe_bad n q then lift (Err SweepInvalidInput) else check_probes n probes
  end.

(** [cols.last_mut().expect(..).end = i + 1]. *)
Definition extend_last (i : nat) (cols : list Column) : result (SweepError X) (list Column) :=
  match last cols with
  | Some col => vec_set cols (length cols - 1) {| col_start := col_start col; col_end := i + 1 |}
  | None => Panic
  end.

(** The columns and their keys. *)
Fixpoint group (i : nat) (slices : list Slice) (cc : list Z) (cols : list Column) : counted (list Z * list Column) :=
  match slices with
  | [] => mret (cc, cols)
  | s :: slices =>
      _ ← count more_input;
      if negb (bool_decide (last cc = Some (slice_key s)))
      then group (i + 1) slices (cc ++ [slice_key s]) (cols ++ [{| col_start := i; col_end := i + 1 |}])
      else
        cols ← lift (extend_last i cols);
        group (i + 1) slices cc cols
  end.

(** The probes by their first column, and the buffer of the sort. *)
Fixpoint start_keys (i : nat) (probes : list Probe) (starts temp : list Key) : counted (list Key * list Key) :=
  match probes with
  | [] => mret (starts, temp)
  | q :: probes =>
      _ ← count more_input;
      _ ← count more_initialize;
      start_keys (i + 1) probes (starts ++ [{| key := colkey (q_sheet q) (c0 (q_image q)); payload := i |}]) (temp ++ [no_key])
  end.

(** ** The two merges of probes and columns *)

(** [while ptr < cc.len() && cc[ptr] < k.key]. *)
Fixpoint skip (fuel : nat) (cc : list Z) (k : Z) (ptr : nat) : counted nat :=
  if (ptr <? length cc)%nat then
    match fuel with
    | O => lift Panic
    | Datatypes.S fuel =>
        c ← lift (vec_get cc ptr);
        if (c <? k)%Z then _ ← count more_columns; skip fuel cc k (ptr + 1) else mret ptr
    end
  else mret ptr.

(** [while c < cc.len() && cc[c] <= end] of the sizing merge. *)
Fixpoint size_pairs (fuel : nat) (cc : list Z) (limit : option Z) (stop : Z) (c pairs : nat) : counted nat :=
  if (c <? length cc)%nat then
    match fuel with
    | O => lift Panic
    | Datatypes.S fuel =>
        x ← lift (vec_get cc c);
        if (x <=? stop)%Z then
          _ ← count more_pairs;
          w ← get_work;
          _ ← lift (match limit with
                    | Some l => if (l <? w_pairs w)%Z then Err (DiscoveryLimit (w_pairs w) l w) else Ok ()
                    | None => Ok ()
                    end);
          pairs ← authority (usize_add pairs 1);
          size_pairs fuel cc limit stop (c + 1) pairs
        else mret pairs
    end
  else mret pairs.

Definition probe_of (probes : list Probe) (k : Key) : result (SweepError X) Probe := vec_get probes (payload k).
Definition stop_of (q : Probe) : Z := colkey (q_sheet q) (c1 (q_image q)).

Fixpoint size_merge (cc : list Z) (probes : list Probe) (limit : option Z) (starts : list Key) (ptr pairs : nat) : counted nat :=
  match starts with
  | [] => mret pairs
  | k :: starts =>
      _ ← count more_input;
      ptr ← skip (length cc) cc (key k) ptr;
      q ← lift (probe_of probes k);
      pairs ← size_pairs (length cc) cc limit (stop_of q) ptr pairs;
      size_merge cc probes limit starts ptr pairs
  end.

(** The hits, the probe of each, and the events. *)
Record Found : Type := { f_hits : list Hit; f_ids : list nat; f_keys : list Key }.

Fixpoint fill_pairs (fuel : nat) (cc : list Z) (q : Probe) (probe c : nat) (f : Found) : counted Found :=
  if (c <? length cc)%nat then
    match fuel with
    | O => lift Panic
    | Datatypes.S fuel =>
        x ← lift (vec_get cc c);
        if (x <=? stop_of q)%Z then
          _ ← count more_pairs;
          let id := length (f_hits f) in
          let f := {| f_hits := f_hits f ++ [{| hit_reader := q_reader q; hit_column := c; hit_start := 0; hit_end := 0 |}];
                      f_ids := f_ids f ++ [probe];
                      f_keys := f_keys f ++ [{| key := event_key c (r0 (q_image q)) 1; payload := id |};
                                             {| key := event_key c (r1 (q_image q)) 2; payload := id |}] |} in
          _ ← count_units (more_keys 2) 2;
          fill_pairs fuel cc q probe (c + 1) f
        else mret f
    end
  else mret f.

Fixpoint fill_merge (cc : list Z) (probes : list Probe) (starts : list Key) (ptr : nat) (f : Found) : counted Found :=
  match starts with
  | [] => mret f
  | k :: starts =>
      _ ← count more_input;
      ptr ← skip (length cc) cc (key k) ptr;
      q ← lift (probe_of probes k);
      f ← fill_pairs (length cc) cc q (payload k) ptr f;
      fill_merge cc probes starts ptr f
  end.

(** ** The events *)

Fixpoint piece_keys (column : nat) (slices : list Slice) (keys : list Key) : counted (list Key) :=
  match slices with
  | [] => mret keys
  | s :: slices =>
      _ ← count_units (more_keys 2) 2;
      piece_keys column slices (keys ++ [{| key := event_key column (s_r0 s) 0; payload := 0 |};
                                         {| key := event_key column (s_r1 s) 3; payload := 0 |}])
  end.

Fixpoint column_keys (slices : list Slice) (column : nat) (cols : list Column) (keys : list Key) : counted (list Key) :=
  match cols with
  | [] => mret keys
  | col :: cols =>
      _ ← count more_columns;
      pieces ← lift (vec_slice slices (col_start col) (col_end col));
      keys ← piece_keys column pieces keys;
      column_keys slices (column + 1) cols keys
  end.

(** The column at hand, and the pieces that have started and ended in it. *)
Record Cursor : Type := { current : option nat; started : nat; ended : nat }.

Definition column_of (k : Key) : nat := Z.to_nat (Z.shiftr (key k) 22).
Definition kind_of (k : Key) : Z := Z.land (key k) 3.

Definition event (cols : list Column) (k : Key) (cur : Cursor) (hits : list Hit) : result (SweepError X) (Cursor * list Hit) :=
  cur ← (if negb (bool_decide (Some (column_of k) = current cur))
         then col ← vec_get cols (column_of k);
              Ok {| current := Some (column_of k); started := col_start col; ended := col_start col |}
         else Ok cur);
  if (kind_of k =? 0)%Z then Ok ({| current := current cur; started := started cur + 1; ended := ended cur |}, hits)
  else if (kind_of k =? 1)%Z then
    h ← vec_get hits (payload k);
    hits ← vec_set hits (payload k)
      {| hit_reader := hit_reader h; hit_column := hit_column h; hit_start := ended cur; hit_end := hit_end h |};
    Ok (cur, hits)
  else if (kind_of k =? 2)%Z then
    h ← vec_get hits (payload k);
    hits ← vec_set hits (payload k)
      {| hit_reader := hit_reader h; hit_column := hit_column h; hit_start := hit_start h; hit_end := started cur |};
    Ok (cur, hits)
  else Ok ({| current := current cur; started := started cur; ended := ended cur + 1 |}, hits).

Fixpoint events (cols : list Column) (keys : list Key) (cur : Cursor) (hits : list Hit) : counted (list Hit) :=
  match keys with
  | [] => mret hits
  | k :: keys =>
      _ ← count (more_keys 1);
      '(cur, hits) ← lift (event cols k cur hits);
      events cols keys cur hits
  end.

(** ** The sweep *)

(** The memory of the columns and the probes' keys, and that of the hits and the events. *)
Definition phase1_bytes (columns probes : nat) : result AuthorityError Z :=
  c ← bytes_of 16 (Z.of_nat columns);
  k ← bytes_of 8 (Z.of_nat columns);
  ck ← add c k;
  p ← bytes_of 16 (Z.of_nat probes);
  pp ← twice p;
  add ck pp.

Definition phase2_bytes (phase1 : Z) (pairs : nat) (key_count : Z) : result AuthorityError Z :=
  h ← bytes_of 32 (Z.of_nat pairs);
  i ← bytes_of 8 (Z.of_nat pairs);
  hi ← add h i;
  k ← bytes_of 16 key_count;
  kk ← twice k;
  hk ← add hi kk;
  add phase1 hk.

Definition sweep_counted (slices : list Slice) (probes : list Probe) (limit discovery_limit : option Z)
  : counted (list Column * list Hit * list nat * Z) :=
  if (u32_max <? Z.of_nat (length slices))%Z then lift (Err SweepInvalidInput)
  else
    columns ← check_slices slices None 0;
    _ ← check_probes (length slices) probes;
    phase1 ← authority (phase1_bytes columns (length probes));
    _ ← authority (admit_scratch phase1 limit);
    _ ← authority (reserve alloc 0 16 (Z.of_nat columns));
    _ ← authority (reserve alloc 1 8 (Z.of_nat columns));
    _ ← authority (reserve alloc 2 16 (Z.of_nat (length probes)));
    _ ← authority (reserve alloc 3 16 (Z.of_nat (length probes)));
    '(cc, cols) ← group 0 slices [] [];
    '(starts, start_temp) ← start_keys 0 probes [] [];
    starts ← sort checkpoint starts start_temp;
    pairs ← size_merge cc probes discovery_limit starts 0 0;
    sum ← authority (usize_add (length slices) pairs);
    key_count ← authority (twice (Z.of_nat sum));
    phase2 ← authority (phase2_bytes phase1 pairs key_count);
    _ ← authority (admit_scratch phase2 limit);
    _ ← authority (reserve alloc 4 32 (Z.of_nat pairs));
    _ ← authority (reserve alloc 5 8 (Z.of_nat pairs));
    _ ← authority (reserve alloc 6 16 key_count);
    _ ← authority (reserve alloc 7 16 key_count);
    keys ← column_keys slices 0 cols [];
    f ← fill_merge cc probes starts 0 {| f_hits := []; f_ids := []; f_keys := keys |};
    temp ← fill checkpoint more_initialize [] (Z.to_nat key_count) no_key;
    keys ← sort checkpoint (f_keys f) temp;
    hits ← events cols keys {| current := None; started := 0; ended := 0 |} (f_hits f);
    _ ← flush_control checkpoint;
    mret (cols, hits, f_ids f, phase2).

Definition sweep_controlled (slices : list Slice) (probes : list Probe) (limit discovery_limit : option Z) (s : S)
  : result (SweepError X) (Sweep * S) :=
  ctl ← map_err SweepRuntime (new checkpoint s);
  '(mt, (cols, hits, ids, peak)) ← sweep_counted slices probes limit discovery_limit {| work := no_work; control := ctl |};
  Ok ({| columns := cols; hits := hits; probes := ids; sweep_work := work mt; sweep_peak := peak |}, state (control mt)).

End sweep.

(** ** Examples *)

Definition piece (col r0 r1 : Z) : Slice := {| s_sheet := 0; s_col := col; s_r0 := r0; s_r1 := r1 |}.

(** The image of the second probe meets the last two pieces of column 1 and the piece of
    column 2; the first one meets nothing in column 1. *)
Definition small_slices : list Slice := [piece 1 0 1; piece 1 3 3; piece 1 5 9; piece 2 4 4].
Definition small_probes : list Probe :=
  [{| q_reader := 3; q_sheet := 0; q_image := {| r0 := 2; c0 := 1; r1 := 2; c1 := 1 |} |};
   {| q_reader := 0; q_sheet := 0; q_image := {| r0 := 3; c0 := 0; r1 := 5; c1 := 7 |} |}].

Example small_sweep :
  ('(sw, _) ← sweep_controlled never (λ _ _, true) small_slices small_probes None None ();
   Ok (columns sw, hits sw, probes sw))
  = Ok ([{| col_start := 0; col_end := 3 |}; {| col_start := 3; col_end := 4 |}],
        [{| hit_reader := 0; hit_column := 0; hit_start := 1; hit_end := 3 |};
         {| hit_reader := 0; hit_column := 1; hit_start := 3; hit_end := 4 |};
         {| hit_reader := 3; hit_column := 0; hit_start := 1; hit_end := 1 |}], [1; 1; 0]).
Proof. vm_compute. reflexivity. Qed.
