(* ===== verification/ArcSweepFacts.v ===== *)
(** What the sweep of [ArcSweep] is about: columns of pieces, the columns of a probe, and what
    an image meets. *)
From S2P Require Import Prelude Geom Proj Counted Buckets ArcEmit ArcEmitFacts Radix ArcSort ArcSortTheorems ArcSweep.

(** * Prefixes of ordered lists *)

(** A test that holds of a prefix holds of as many values as it selects. *)
Lemma prefix_count {A} (P : A → Prop) `{∀ x, Decision (P x)} (l : list A) :
  (∀ i j x y, i ≤ j → l !! i = Some x → l !! j = Some y → P y → P x) →
  ∀ i x, l !! i = Some x → P x ↔ i < length (filter P l).
Proof.
  induction l as [|z l IH]; intros Hmono i x Hx; [done|]. rewrite filter_cons. case_decide as Hz.
  - destruct i as [|i]; cbn in Hx; [simplify_eq; cbn; split; [lia|done]|].
    assert (Hm : ∀ i j x y, i ≤ j → l !! i = Some x → l !! j = Some y → P y → P x).
    { intros a b y w Hab. apply (Hmono (Datatypes.S a) (Datatypes.S b)). lia. }
    rewrite (IH Hm i x Hx). cbn. lia.
  - assert (Hnone : ∀ y, y ∈ z :: l → ¬ P y).
    { intros y [j Hy]%list_elem_of_lookup_1 HPy. apply Hz. by apply (Hmono 0 j z y ltac:(lia) eq_refl Hy). }
    rewrite filter_none by (intros y Hy; apply Hnone; by right). cbn. split; [|lia]. intros HP. by destruct (Hnone x (list_elem_of_lookup_2 _ _ _ Hx)).
Qed.

Definition increasing (cc : list Z) : Prop := StronglySorted Z.lt cc.

Lemma increasing_lookup cc i j x y : increasing cc → i < j → cc !! i = Some x → cc !! j = Some y → (x < y)%Z.
Proof.
  intros Hs. revert i j. induction Hs as [|z cc Hs IH Hz]; intros i j Hij Hx Hy; [done|].
  destruct j as [|j]; [lia|]. destruct i as [|i]; cbn in Hx, Hy; [|apply (IH i j); [lia|done|done]].
  injection Hx as <-. rewrite Forall_forall in Hz. by apply Hz, (list_elem_of_lookup_2 _ j).
Qed.

Lemma increasing_le cc i j x y : increasing cc → i ≤ j → cc !! i = Some x → cc !! j = Some y → (x ≤ y)%Z.
Proof.
  intros Hs Hij Hx Hy. destruct (decide (i = j)) as [->|Hne]; [simplify_eq; lia|].
  pose proof (increasing_lookup cc i j x y Hs ltac:(lia) Hx Hy). lia.
Qed.

(** The columns before a key, and those up to it. *)
Definition lower (cc : list Z) (k : Z) : nat := length (filter (λ c, (c < k)%Z) cc).
Definition upper (cc : list Z) (k : Z) : nat := length (filter (λ c, (c ≤ k)%Z) cc).

Lemma lower_spec cc k i x : increasing cc → cc !! i = Some x → (x < k)%Z ↔ i < lower cc k.
Proof.
  intros Hs Hx. refine (prefix_count _ cc _ i x Hx). intros a b y z Hab Hy Hz. pose proof (increasing_le cc a b y z Hs Hab Hy Hz). lia.
Qed.

Lemma upper_spec cc k i x : increasing cc → cc !! i = Some x → (x ≤ k)%Z ↔ i < upper cc k.
Proof.
  intros Hs Hx. refine (prefix_count _ cc _ i x Hx). intros a b y z Hab Hy Hz. pose proof (increasing_le cc a b y z Hs Hab Hy Hz). lia.
Qed.

Lemma lower_length cc k : lower cc k ≤ length cc.
Proof. apply length_filter. Qed.
Lemma upper_length cc k : upper cc k ≤ length cc.
Proof. apply length_filter. Qed.

Lemma lower_mono cc k k' : (k ≤ k')%Z → lower cc k ≤ lower cc k'.
Proof.
  intros Hk. unfold lower. induction cc as [|c cc IH]; [done|]. rewrite !filter_cons. repeat case_decide; cbn; lia.
Qed.

(** * Keys *)

Definition slice_typed (s : Slice) : Prop := (0 ≤ s_sheet s < 2 ^ 16 ∧ 0 ≤ s_col s ∧ 0 ≤ s_r0 s)%Z.
Definition probe_typed (q : Probe) : Prop := (0 ≤ q_sheet q < 2 ^ 16 ∧ 0 ≤ c0 (q_image q) ∧ 0 ≤ r0 (q_image q))%Z.

Definition slice_ok (s : Slice) : Prop := (s_col s ≤ MAX_COL ∧ s_r0 s ≤ s_r1 s ≤ MAX_ROW)%Z.
Definition probe_ok (n : nat) (q : Probe) : Prop :=
  q_reader q < n ∧ (r0 (q_image q) ≤ r1 (q_image q) ≤ MAX_ROW ∧ c0 (q_image q) ≤ c1 (q_image q) ≤ MAX_COL)%Z.

Lemma slice_bad_spec s : slice_bad s = false ↔ slice_ok s.
Proof. unfold slice_bad, slice_ok. rewrite !orb_false_iff, !Z.ltb_ge. lia. Qed.
Lemma probe_bad_spec n q : probe_bad n q = false ↔ probe_ok n q.
Proof. unfold probe_bad, probe_ok. rewrite !orb_false_iff, Nat.leb_gt, !Z.ltb_ge. lia. Qed.

Lemma colkey_value sheet col : (0 ≤ col ≤ MAX_COL)%Z → colkey sheet col = (sheet * 2 ^ 14 + col)%Z.
Proof. intros Hc. unfold colkey. apply lor_shiftl_add; [lia|]. unfold MAX_COL in Hc. lia. Qed.

Lemma event_key_value column row kind : (0 ≤ row ≤ MAX_ROW)%Z → (0 ≤ kind < 4)%Z →
  event_key column row kind = (Z.of_nat column * 2 ^ 22 + row * 4 + kind)%Z.
Proof.
  intros Hr Hk. unfold event_key, MAX_ROW in *. rewrite <- Z.lor_assoc, (lor_shiftl_add kind row 2) by lia.
  rewrite lor_shiftl_add by lia. lia.
Qed.

(** What a probe's image meets. *)
Definition meets (q : Probe) (s : Slice) : Prop :=
  q_sheet q = s_sheet s ∧ (c0 (q_image q) ≤ s_col s ≤ c1 (q_image q))%Z ∧
  (s_r0 s ≤ r1 (q_image q) ∧ r0 (q_image q) ≤ s_r1 s)%Z.

(** The piece's column is one of the probe's. *)
Definition start_of (q : Probe) : Z := colkey (q_sheet q) (c0 (q_image q)).

Lemma key_range n q s : probe_typed q → probe_ok n q → slice_typed s → slice_ok s →
  (start_of q ≤ slice_key s ≤ stop_of q)%Z ↔ q_sheet q = s_sheet s ∧ (c0 (q_image q) ≤ s_col s ≤ c1 (q_image q))%Z.
Proof.
  intros (Hqs & Hqc & _) (_ & _ & Hqo) (Hss & Hsc & _) (Hso & _). unfold start_of, stop_of, slice_key.
  rewrite !colkey_value by lia. unfold MAX_COL in *. lia.
Qed.

(** * Columns *)

(** The order of the input: sheet, column, row, without overlap. *)
Definition before (p s : Slice) : Prop :=
  (s_r0 s ≤ s_r1 s)%Z ∧ ((slice_key p < slice_key s)%Z ∨ slice_key p = slice_key s ∧ (s_r1 p < s_r0 s)%Z).

#[export] Instance before_trans : Transitive before.
Proof. intros p s t [Hs Hps] [Ht Hst]. split; [done|]. lia. Qed.

Lemma unsorted_spec p s : slice_ok s → unsorted p s = false ↔ before p s.
Proof.
  intros (_ & Hs & _). unfold unsorted, before. rewrite orb_false_iff, andb_false_iff, Z.ltb_ge, Z.eqb_neq, Z.leb_gt. lia.
Qed.

(** What each column holds. *)
Record grouped (dn : list Slice) (cc : list Z) (cols : list Column) : Prop := {
  grouped_partition : partition 0 cols (length dn);
  grouped_length : length cc = length cols;
  grouped_increasing : increasing cc;
  grouped_keys c col x u s : cols !! c = Some col → cc !! c = Some x → col_start col ≤ u < col_end col → dn !! u = Some s →
    slice_key s = x;
  grouped_last : last cc = slice_key <$> last dn
}.

Lemma partition_app cols1 cols2 real : ∀ previous,
  partition previous (cols1 ++ cols2) real ↔ ∃ m, partition previous cols1 m ∧ partition m cols2 real ∧ previous ≤ m ≤ real.
Proof.
  induction cols1 as [|col cols1 IH]; intros previous; cbn [app partition].
  - split; [|by intros (m & -> & ? & _)]. intros Hp. exists previous. split; [done|]. split; [done|]. split; [done|].
    clear -Hp. revert previous Hp. induction cols2 as [|col cols2 IH]; intros previous; cbn [partition]; [lia|].
    intros (<- & ? & ? & ?%IH). lia.
  - rewrite IH. split.
    + intros (<- & Hlt & Hle & m & Hp1 & Hp2 & Hm). exists m. split_and!; try done; lia.
    + intros (m & (<- & Hlt & Hle & Hp1) & Hp2 & Hm). split_and!; try done; [lia|]. exists m. split_and!; try done; lia.
Qed.

Lemma partition_find cols real : ∀ previous u, partition previous cols real → previous ≤ u < real →
  ∃ c col, cols !! c = Some col ∧ col_start col ≤ u < col_end col.
Proof.
  induction cols as [|col cols IH]; intros previous u; cbn [partition]; [lia|]. intros (<- & Hlt & Hle & Hp) Hu.
  destruct (decide (u < col_end col)) as [|Hge]; [by exists 0, col; split; [|lia]|].
  destruct (IH _ u Hp ltac:(lia)) as (c & col' & Hc & Hu'). by exists (S c), col'.
Qed.

Lemma increasing_last cc x y : increasing cc → last cc = Some x → y ∈ cc → (y ≤ x)%Z.
Proof.
  intros Hs Hl [i Hy]%list_elem_of_lookup_1. rewrite last_lookup in Hl. pose proof (lookup_lt_Some _ _ _ Hy).
  by apply (increasing_le cc i (pred (length cc)) y x Hs ltac:(lia)).
Qed.

Lemma grouped_nil : grouped [] [] [].
Proof. split; try done. constructor. Qed.

Lemma grouped_new dn cc cols s : grouped dn cc cols → (∀ p, last dn = Some p → (slice_key p < slice_key s)%Z) →
  grouped (dn ++ [s]) (cc ++ [slice_key s]) (cols ++ [{| col_start := length dn; col_end := length dn + 1 |}]).
Proof.
  intros G Hlt. split.
  - rewrite length_app. cbn [length]. apply partition_app. exists (length dn). split; [apply G|]. split; [|lia].
    cbn [partition col_start col_end]. lia.
  - by rewrite !length_app, (grouped_length _ _ _ G).
  - apply StronglySorted_app. split_and!; [|apply G|by repeat constructor].
    intros y z Hy ->%list_elem_of_singleton. pose proof (grouped_last _ _ _ G) as Hlast. destruct (last dn) as [p|] eqn:E.
    + pose proof (increasing_last cc _ y (grouped_increasing _ _ _ G) Hlast Hy). specialize (Hlt p eq_refl). lia.
    + cbn in Hlast. apply last_None in Hlast as ->. by apply elem_of_nil in Hy.
  - intros c col x u t Hc Hx Hu Ht. pose proof (grouped_length _ _ _ G) as Hlen.
    apply lookup_app_Some in Hc as [Hc|[Hge Hc]].
    + pose proof (partition_bounds _ _ _ _ _ (grouped_partition _ _ _ G) Hc). pose proof (lookup_lt_Some _ _ _ Hc).
      rewrite lookup_app_l in Hx by lia. rewrite lookup_app_l in Ht by lia. by apply (grouped_keys _ _ _ G c col x u t).
    + apply list_lookup_singleton_Some in Hc as [Hc0 <-]. cbn [col_start col_end] in Hu. replace u with (length dn) in Ht by lia.
      rewrite lookup_app_r, Nat.sub_diag in Ht by lia. rewrite lookup_app_r in Hx by lia. replace (c - length cc) with 0 in Hx by lia.
      cbn in Hx, Ht. congruence.
  - by rewrite !last_snoc.
Qed.

Lemma grouped_extend dn cc cols col s : grouped dn cc (cols ++ [col]) → last cc = Some (slice_key s) →
  grouped (dn ++ [s]) cc (cols ++ [{| col_start := col_start col; col_end := length dn + 1 |}]).
Proof.
  intros G Hlast. pose proof (grouped_length _ _ _ G) as Hlen. rewrite length_app in Hlen. cbn [length] in Hlen.
  pose proof (proj1 (partition_app _ _ _ _) (grouped_partition _ _ _ G)) as (m & Hp & (Hm & Hlt & Hle & Hend) & Hmle).
  cbn [partition] in Hend. split.
  - rewrite length_app. cbn [length]. apply partition_app. exists m. split; [done|]. split; [cbn [partition col_start col_end]; lia|lia].
  - by rewrite length_app.
  - apply G.
  - intros c col' x u t Hc Hx Hu Ht. apply lookup_app_Some in Hc as [Hc|[Hge Hc]].
    + pose proof (partition_bounds _ _ _ _ _ Hp Hc). rewrite lookup_app_l in Ht by lia.
      apply (grouped_keys _ _ _ G c col' x u t); [by apply lookup_app_l_Some|done|done|done].
    + apply list_lookup_singleton_Some in Hc as [Hc0 <-]. cbn [col_start col_end] in Hu. rewrite last_lookup in Hlast.
      replace (pred (length cc)) with c in Hlast by lia. rewrite Hx in Hlast. injection Hlast as ->.
      apply lookup_app_Some in Ht as [Ht|[Hu2 Ht]].
      * pose proof (lookup_lt_Some _ _ _ Ht). apply (grouped_keys _ _ _ G c col (slice_key s) u t); [|done|lia|done].
        rewrite lookup_app_r by lia. by replace (c - length cols) with 0 by lia.
      * by apply list_lookup_singleton_Some in Ht as [_ <-].
  - by rewrite last_snoc.
Qed.

Section column.
Context (slices : list Slice) (cc : list Z) (cols : list Column).
Context (G : grouped slices cc cols) (Hsorted : StronglySorted before slices) (Hok : Forall slice_ok slices).

(** The pieces of a column. *)
Definition col_slices (col : Column) : list Slice := take (col_end col - col_start col) (drop (col_start col) slices).

Lemma col_slices_lookup col i s : col_slices col !! i = Some s → i < col_end col - col_start col ∧ slices !! (col_start col + i) = Some s.
Proof. unfold col_slices. intros [Hs Hi]%lookup_take_Some. by rewrite lookup_drop in Hs. Qed.

Lemma before_lookup i j s t : i < j → slices !! i = Some s → slices !! j = Some t → before s t.
Proof.
  clear G Hok. revert i j. induction Hsorted as [|z l Hs IH Hz]; intros i j Hij Hi Hj; [done|]. destruct j as [|j]; [lia|].
  destruct i as [|i]; cbn in Hi, Hj; [|apply (IH Hs i j); [lia|done|done]].
  injection Hi as <-. rewrite Forall_forall in Hz. by apply Hz, (list_elem_of_lookup_2 _ j).
Qed.

(** The rows of a column go down. *)
Lemma col_slices_rows c col i j s t : cols !! c = Some col → i ≤ j → col_slices col !! i = Some s → col_slices col !! j = Some t →
  (s_r0 s ≤ s_r0 t ∧ s_r1 s ≤ s_r1 t)%Z.
Proof.
  intros Hc Hij [Hi Hs]%col_slices_lookup [Hj Ht]%col_slices_lookup. destruct (decide (i = j)) as [->|Hne]; [simplify_eq; lia|].
  destruct (before_lookup (col_start col + i) (col_start col + j) s t ltac:(lia) Hs Ht) as [Hlt Hb].
  destruct (lookup_lt_is_Some_2 cc c) as [x Hx]; [rewrite (grouped_length _ _ _ G); by eapply lookup_lt_Some|].
  assert (Hks : slice_key s = x) by (eapply (grouped_keys _ _ _ G); [exact Hc|exact Hx| |exact Hs]; lia).
  assert (Hkt : slice_key t = x) by (eapply (grouped_keys _ _ _ G); [exact Hc|exact Hx| |exact Ht]; lia).
  rewrite Forall_forall in Hok. destruct (Hok s (list_elem_of_lookup_2 _ _ _ Hs)) as (_ & Hrs & _). lia.
Qed.

(** A downward closed test of the rows selects the first pieces of a column. *)
Lemma col_prefix (P : Slice → Prop) `{∀ s, Decision (P s)} c col u s : cols !! c = Some col →
  (∀ s t, (s_r0 s ≤ s_r0 t)%Z → (s_r1 s ≤ s_r1 t)%Z → P t → P s) → col_start col ≤ u < col_end col → slices !! u = Some s →
  P s ↔ u < col_start col + length (filter P (col_slices col)).
Proof.
  intros Hc Hdown Hu Hs. assert (Hi : col_slices col !! (u - col_start col) = Some s).
  { unfold col_slices. rewrite lookup_take_lt, lookup_drop by lia. by replace (col_start col + (u - col_start col)) with u by lia. }
  rewrite (prefix_count P (col_slices col)); [|
    intros i j x y Hij Hx Hy; destruct (col_slices_rows c col i j x y Hc Hij Hx Hy); by apply Hdown|exact Hi]. lia.
Qed.

End column.
