(* ===== verification/ArcSweepEvents.v ===== *)
(** The event sweep of [ArcSweep]: at each event of a hit, the cursor has counted the pieces
    of the column that ended before it, or started up to it. *)
From S2P Require Import Prelude Geom Proj Counted Buckets ArcEmit ArcEmitFacts Radix ArcSort ArcSortTheorems ArcSweep ArcSweepFacts.

#[export] Instance Column_inhabited : Inhabited Column := populate {| col_start := 0; col_end := 0 |}.

(** * Events *)

Lemma event_key_decode column row kind i : (0 ≤ row ≤ MAX_ROW)%Z → (0 ≤ kind < 4)%Z →
  column_of {| key := event_key column row kind; payload := i |} = column ∧
  kind_of {| key := event_key column row kind; payload := i |} = kind.
Proof.
  intros Hr Hk. unfold column_of, kind_of. cbn [key]. rewrite event_key_value by done. unfold MAX_ROW in Hr. split.
  - rewrite Z.shiftr_div_pow2 by lia. rewrite <- (Z.div_unique _ _ (Z.of_nat column) (row * 4 + kind)); lia.
  - change 3%Z with (Z.ones 2). rewrite Z.land_ones by lia. symmetry. apply (Z.mod_unique _ _ (Z.of_nat column * 2 ^ 20 + row)); lia.
Qed.

Lemma column_of_mono k k' : (key k ≤ key k')%Z → column_of k ≤ column_of k'.
Proof.
  intros Hk. unfold column_of. rewrite !Z.shiftr_div_pow2 by lia. pose proof (Z.div_le_mono (key k) (key k') (2 ^ 22) ltac:(lia) Hk). lia.
Qed.

(** Events of one kind in the column of [e], and those before [e]. *)
Definition same (kd : Z) (e k : Key) : Prop := kind_of k = kd ∧ column_of k = column_of e.
Definition seen (kd : Z) (e : Key) (l : list Key) : nat := length (filter (λ k, same kd e k) l).
Definition seen_before (kd : Z) (e : Key) (l : list Key) : nat := length (filter (λ k, same kd e k ∧ (key k < key e)%Z) l).

#[export] Instance same_dec kd e k : Decision (same kd e k).
Proof. unfold same. apply _. Defined.

Section events.
Context (cols : list Column) (l : list Key) (hits0 : list Hit).
Context (Hordered : ordered key l) (Hcols : ∀ k, k ∈ l → column_of k < length cols).
Context (Hids : ∀ k, k ∈ l → kind_of k = 1%Z ∨ kind_of k = 2%Z → payload k < length hits0).
Context (Hone : ∀ k k', k ∈ l → k' ∈ l → kind_of k = kind_of k' → kind_of k = 1%Z ∨ kind_of k = 2%Z → payload k = payload k' → k = k').

Definition base (k : Key) : nat := col_start (cols !!! column_of k).

(** An event of a hit has seen what is before it. *)
Lemma seen_prefix kd dn e todo : l = dn ++ e :: todo → kind_of e ≠ kd → seen kd e dn = seen_before kd e l.
Proof.
  intros Hl Hkd. unfold seen, seen_before. rewrite Hl in Hordered. apply StronglySorted_app in Hordered as (Hle & _ & Hr).
  apply StronglySorted_inv in Hr as [_ Hr]. rewrite Forall_forall in Hr. rewrite Hl, filter_app, (filter_none _ (e :: todo)), app_nil_r.
  - f_equal. apply filter_ext_elem. intros k Hk. specialize (Hle k e Hk ltac:(by left)). split; [|tauto]. intros Hs. split; [done|].
    assert (key k ≠ key e); [|lia]. intros E. destruct Hs as [Hs _]. apply Hkd. rewrite <- Hs. unfold kind_of. by rewrite E.
  - intros k [->|Hk]%elem_of_cons [_ Hlt]; [lia|]. specialize (Hr k Hk). lia.
Qed.

(** After the events [dn]. *)
Definition cursor_ok (dn : list Key) (cur : Cursor) : Prop :=
  match current cur with
  | None => dn = []
  | Some c => ∃ e, last dn = Some e ∧ column_of e = c ∧ started cur = base e + seen 0 e dn ∧ ended cur = base e + seen 3 e dn
  end.

Definition hits_ok (dn : list Key) (hits : list Hit) : Prop :=
  length hits = length hits0 ∧
  ∀ i h, hits !! i = Some h → ∃ h0, hits0 !! i = Some h0 ∧ hit_reader h = hit_reader h0 ∧ hit_column h = hit_column h0 ∧
    (∀ e, e ∈ dn → payload e = i → kind_of e = 1%Z → hit_start h = base e + seen_before 3 e l) ∧
    (∀ e, e ∈ dn → payload e = i → kind_of e = 2%Z → hit_end h = base e + seen_before 0 e l).

(** The cursor of the column of the next event. *)
Definition enter (e : Key) (cur : Cursor) : Cursor :=
  if bool_decide (Some (column_of e) = current cur) then cur
  else {| current := Some (column_of e); started := base e; ended := base e |}.

Lemma enter_ok dn e todo cur : l = dn ++ e :: todo → cursor_ok dn cur →
  current (enter e cur) = Some (column_of e) ∧ started (enter e cur) = base e + seen 0 e dn ∧ ended (enter e cur) = base e + seen 3 e dn.
Proof.
  intros Hl Hc. unfold enter, cursor_ok in *. destruct (current cur) as [c|] eqn:Ec.
  - destruct Hc as (p & Hp & <- & Hs & He). case_bool_decide as E.
    + injection E as E. unfold seen, base, same in *. by rewrite E.
    + assert (Hnone : ∀ kd, seen kd e dn = 0); [|cbn; rewrite !Hnone; split_and!; [done|lia|lia]].
      intros kd. unfold seen. rewrite filter_none; [done|]. intros k Hk [_ Hcol]. apply E. f_equal.
      rewrite Hl in Hordered. apply StronglySorted_app in Hordered as (Hle & Hdn & _).
      apply last_Some in Hp as [dn' ->]. apply StronglySorted_app in Hdn as (Hle' & _ & _).
      pose proof (column_of_mono p e (Hle p e ltac:(set_solver) ltac:(by left))).
      assert (column_of k ≤ column_of p); [|lia].
      apply elem_of_app in Hk as [Hk| ->%list_elem_of_singleton]; [|done]. apply column_of_mono, Hle'; [done|by left].
  - subst dn. rewrite bool_decide_eq_false_2 by done. unfold seen. rewrite !filter_nil. cbn. split; [done|lia].
Qed.

Lemma event_eq {X} dn e todo cur hits : l = dn ++ e :: todo →
  event (X := X) cols e cur hits =
  let cur := enter e cur in
  if (kind_of e =? 0)%Z then Ok ({| current := current cur; started := started cur + 1; ended := ended cur |}, hits)
  else if (kind_of e =? 1)%Z then
    h ← vec_get hits (payload e);
    hits ← vec_set hits (payload e)
      {| hit_reader := hit_reader h; hit_column := hit_column h; hit_start := ended cur; hit_end := hit_end h |};
    Ok (cur, hits)
  else if (kind_of e =? 2)%Z then
    h ← vec_get hits (payload e);
    hits ← vec_set hits (payload e)
      {| hit_reader := hit_reader h; hit_column := hit_column h; hit_start := hit_start h; hit_end := started cur |};
    Ok (cur, hits)
  else Ok ({| current := current cur; started := started cur; ended := ended cur + 1 |}, hits).
Proof.
  intros Hl. unfold event, enter. case_bool_decide as E; cbn [negb]; [done|].
  rewrite (vec_get_ok cols) by (apply Hcols; rewrite Hl; set_solver). done.
Qed.

Lemma seen_snoc kd e dn : seen kd e (dn ++ [e]) = seen kd e dn + (if decide (kind_of e = kd) then 1 else 0).
Proof.
  unfold seen. rewrite filter_app, length_app, filter_cons, filter_nil. unfold same. repeat case_decide; cbn; tauto || lia.
Qed.

(** The cursor after an event. *)
Lemma cursor_step dn e todo cur cur' : l = dn ++ e :: todo → cursor_ok dn cur → current cur' = Some (column_of e) →
  started cur' = started (enter e cur) + (if decide (kind_of e = 0%Z) then 1 else 0) →
  ended cur' = ended (enter e cur) + (if decide (kind_of e = 3%Z) then 1 else 0) → cursor_ok (dn ++ [e]) cur'.
Proof.
  intros Hl Hc Hcur Hs He. destruct (enter_ok dn e todo cur Hl Hc) as (_ & Hs0 & He0). unfold cursor_ok. rewrite Hcur.
  exists e. rewrite last_snoc, !seen_snoc. split_and!; [done|done|lia|lia].
Qed.

(** A write of a hit's end, by its event. *)
Lemma hits_step dn e todo hits h h' : l = dn ++ e :: todo → hits_ok dn hits → hits !! payload e = Some h →
  hit_reader h' = hit_reader h → hit_column h' = hit_column h →
  (kind_of e = 1%Z ∧ hit_start h' = base e + seen_before 3 e l ∧ hit_end h' = hit_end h) ∨
  (kind_of e = 2%Z ∧ hit_end h' = base e + seen_before 0 e l ∧ hit_start h' = hit_start h) →
  hits_ok (dn ++ [e]) (<[payload e := h']> hits).
Proof.
  intros Hl [Hlen Hok] Hh Hr Hcol Hw. split; [by rewrite length_insert|]. intros i g Hg.
  assert (Hin : ∀ k, k ∈ dn ∨ k = e → k ∈ l) by (intros k Hk; rewrite Hl; set_solver).
  destruct (decide (i = payload e)) as [->|Hne].
  - rewrite list_lookup_insert_eq in Hg by (by eapply lookup_lt_Some). injection Hg as <-.
    destruct (Hok _ _ Hh) as (h0 & Hh0 & Hr0 & Hc0 & Hlo & Hhi). exists h0. rewrite Hr, Hcol. split_and!; try done.
    + intros k [Hk| ->%list_elem_of_singleton]%elem_of_app Hp Hk1; [|destruct Hw as [(_ & ? & _)|(? & _)]; [done|lia]].
      destruct Hw as [(He & Hs & _)|(_ & _ & ->)]; [|by apply Hlo]. by rewrite (Hone k e ltac:(auto) ltac:(auto) ltac:(congruence) ltac:(auto) Hp).
    + intros k [Hk| ->%list_elem_of_singleton]%elem_of_app Hp Hk2; [|destruct Hw as [(? & _)|(_ & ? & _)]; [lia|done]].
      destruct Hw as [(_ & _ & ->)|(He & Hs & _)]; [by apply Hhi|]. by rewrite (Hone k e ltac:(auto) ltac:(auto) ltac:(congruence) ltac:(auto) Hp).
  - rewrite list_lookup_insert_ne in Hg by done. destruct (Hok _ _ Hg) as (h0 & Hh0 & Hr0 & Hc0 & Hlo & Hhi). exists h0.
    split_and!; try done; intros k [Hk| ->%list_elem_of_singleton]%elem_of_app Hp; first [by apply Hlo|by apply Hhi|done|lia|congruence].
Qed.

Lemma hits_skip dn e hits : hits_ok dn hits → kind_of e ≠ 1%Z → kind_of e ≠ 2%Z → hits_ok (dn ++ [e]) hits.
Proof.
  intros [Hlen Hok] H1 H2. split; [done|]. intros i h Hh. destruct (Hok i h Hh) as (h0 & Hh0 & Hr0 & Hc0 & Hlo & Hhi). exists h0.
  split_and!; try done; intros k [Hk| ->%list_elem_of_singleton]%elem_of_app Hp; first [by apply Hlo|by apply Hhi|done|lia|congruence].
Qed.

Lemma event_ok {X} dn e todo cur hits : l = dn ++ e :: todo → cursor_ok dn cur → hits_ok dn hits →
  (0 ≤ kind_of e < 4)%Z →
  ∃ cur' hits', event (X := X) cols e cur hits = Ok (cur', hits') ∧ cursor_ok (dn ++ [e]) cur' ∧ hits_ok (dn ++ [e]) hits'.
Proof.
  intros Hl Hc Hh Hk. rewrite (event_eq dn e todo cur hits Hl). cbv zeta. destruct (enter_ok dn e todo cur Hl Hc) as (Hcur & Hs & He).
  assert (Hin : e ∈ l) by (rewrite Hl; set_solver).
  destruct (Z.eqb_spec (kind_of e) 0) as [E0|N0]; [|destruct (Z.eqb_spec (kind_of e) 1) as [E1|N1];
    [|destruct (Z.eqb_spec (kind_of e) 2) as [E2|N2]]].
  - eexists _, _. split; [done|]. split; [|apply hits_skip; [done|lia|lia]].
    apply (cursor_step dn e todo cur); cbn; [done|done|done|by rewrite decide_True|by rewrite decide_False by lia].
  - destruct (lookup_lt_is_Some_2 hits (payload e)) as [h Hhe]; [destruct Hh as [-> _]; apply Hids; [done|by left]|].
    unfold vec_get. rewrite Hhe. cbn [expect mbind result_bind]. rewrite vec_set_ok by (by eapply lookup_lt_Some). cbn [mbind result_bind].
    eexists _, _. split; [done|]. split.
    + apply (cursor_step dn e todo cur); [done|done|done|rewrite decide_False by lia; lia|rewrite decide_False by lia; lia].
    + apply (hits_step dn e todo hits h); try done. left. split; [done|]. cbn. rewrite He, (seen_prefix 3 dn e todo) by (done || lia). done.
  - destruct (lookup_lt_is_Some_2 hits (payload e)) as [h Hhe]; [destruct Hh as [-> _]; apply Hids; [done|by right]|].
    unfold vec_get. rewrite Hhe. cbn [expect mbind result_bind]. rewrite vec_set_ok by (by eapply lookup_lt_Some). cbn [mbind result_bind].
    eexists _, _. split; [done|]. split.
    + apply (cursor_step dn e todo cur); [done|done|done|rewrite decide_False by lia; lia|rewrite decide_False by lia; lia].
    + apply (hits_step dn e todo hits h); try done. right. split; [done|]. cbn. rewrite Hs, (seen_prefix 0 dn e todo) by (done || lia). done.
  - eexists _, _. split; [done|]. split; [|apply hits_skip; [done|lia|lia]].
    apply (cursor_step dn e todo cur); cbn; [done|done|done|by rewrite decide_False by lia|by rewrite decide_True by lia].
Qed.

End events.
