(* ===== verification/ArcSweepTheorems.v ===== *)
(** The sweep of [ArcSweep] finds for every probe exactly the pieces that its image meets. *)
From S2P Require Import Prelude Geom Proj PlanControl Counted Buckets ArcEmit ArcEmitFacts Radix ArcSort ArcSortTheorems ArcSweep ArcSweepFacts ArcSweepEvents.

#[export] Instance Probe_inhabited : Inhabited Probe :=
  populate {| q_reader := 0; q_sheet := 0; q_image := rect_new 0 0 0 0 |}.

Ltac sw := first [done | (unfold add_work, sweep_work, swept, more_input, more_initialize, more_columns, more_pairs, more_keys, no_work;
  intros; simpl; f_equal; lia)].

Ltac run_input := apply (runs_count _ _ _ (swept 1 0 0 0 0 0)); [sw|done|].
Ltac run_initialize := apply (runs_count _ _ _ (swept 0 1 0 0 0 0)); [sw|done|].
Ltac run_columns := apply (runs_count _ _ _ (swept 0 0 0 1 0 0)); [sw|done|].
Ltac run_pairs := apply (runs_count _ _ _ (swept 0 0 0 0 1 0)); [sw|done|].
Ltac run_key := apply (runs_count _ _ _ (swept 0 0 0 0 0 1)); [sw|done|].
Ltac run_keys := apply (runs_units _ _ _ (swept 0 0 0 0 0 2)); [sw|done|lia|].

(** The number of columns of a sorted input. *)
Fixpoint column_count (previous : option Slice) (slices : list Slice) : nat :=
  match slices with
  | [] => 0
  | s :: slices =>
      (if bool_decide (slice_key <$> previous = Some (slice_key s)) then 0 else 1) + column_count (Some s) slices
  end.

Section input.
Context {S X : Type} (checkpoint : S → Z → X + S) (scratch discovery : option Z) (bad : Prop).

(** A failing sweep: the input is [bad], or the caller or one of the limits stopped it. *)
Definition sweep_errs (e : SweepError X) : Prop :=
  match e with
  | SweepAuthority e => refused scratch e
  | SweepRuntime x => raised checkpoint x
  | SweepInvalidInput => bad
  | DiscoveryLimit needed l _ => discovery = Some l ∧ (l < needed)%Z
  end.

#[export] Instance sweep_errs_cancels : Cancels checkpoint sweep_errs.
Proof. by intros x. Qed.

Abbreviation runs := (runs (S := S) sweep_errs).

Lemma runs_sweep_authority {A B} (r : result AuthorityError A) (f : A → counted S (SweepError X) SweepWork B) P Q :
  yields scratch r P → (∀ a, P a → runs (f a) Q) → runs (authority r ≫= f) Q.
Proof. by apply runs_yields. Qed.

Lemma runs_check_slices slices : ∀ previous n, Forall slice_ok (option_list previous) →
  (¬ (Forall slice_ok slices ∧ Sorted before (option_list previous ++ slices)) → bad) →
  runs (check_slices checkpoint slices previous n) (λ r w,
    Forall slice_ok slices ∧ Sorted before (option_list previous ++ slices) ∧ r = n + column_count previous slices ∧
    w = swept (length slices) 0 0 0 0 0).
Proof.
  induction slices as [|s slices IH]; intros previous n Hp Hbad; cbn [check_slices column_count].
  { apply runs_ret. split; [done|]. split; [destruct previous; repeat constructor|]. split; [lia|done]. }
  run_input. destruct (slice_bad s) eqn:Hb.
  { intros mt Hm. apply Hbad. intros [Hok _]. apply Forall_cons in Hok as [Hok _]. apply slice_bad_spec in Hok. congruence. }
  apply slice_bad_spec in Hb.
  assert (Hnext : ∀ m, (Sorted before (option_list previous ++ s :: slices) ↔ Sorted before (s :: slices)) →
    m = n + (if bool_decide (slice_key <$> previous = Some (slice_key s)) then 0 else 1) →
    runs (check_slices checkpoint slices (Some s) m) (λ r w, Forall slice_ok (s :: slices) ∧
      Sorted before (option_list previous ++ s :: slices) ∧ r = n + ((if bool_decide (slice_key <$> previous = Some (slice_key s)) then 0 else 1)
        + column_count (Some s) slices) ∧ add_work (swept 1 0 0 0 0 0) w = swept (length (s :: slices)) 0 0 0 0 0)).
  { intros m Hiff ->. eapply runs_weaken; [apply IH; [by apply (Forall_singleton slice_ok s)|]|].
    - intros Hn. apply Hbad. rewrite Forall_cons, Hiff. intros [[_ ?] ?]. by apply Hn.
    - cbn beta. cbn [option_list app]. intros r w (Hok & Hs & -> & ->). rewrite Forall_cons, Hiff, swept_add. split_and!; [done|done|done|lia|done]. }
  destruct previous as [p|]; [destruct (unsorted p s) eqn:Hu|].
  - intros mt Hm. apply Hbad. intros [_ Hs]. apply Sorted_inv in Hs as [_ Hs]. apply HdRel_inv in Hs.
    apply (unsorted_spec p s Hb) in Hs. congruence.
  - apply (unsorted_spec p s Hb) in Hu. apply Hnext.
    + cbn [option_list app]. split; [by intros [? _]%Sorted_inv|]. intros Hs. by constructor; [|constructor].
    + cbn [fmap option_fmap option_map]. destruct (Z.eqb_spec (slice_key s) (slice_key p)) as [E|E]; cbn [negb].
      * rewrite bool_decide_eq_true_2 by by rewrite E. lia.
      * rewrite bool_decide_eq_false_2 by congruence. lia.
  - apply Hnext; [done|]. by rewrite bool_decide_eq_false_2.
Qed.

Lemma runs_check_probes n probes : (¬ Forall (probe_ok n) probes → bad) →
  runs (check_probes checkpoint n probes) (λ _ w, Forall (probe_ok n) probes ∧ w = swept (length probes) 0 0 0 0 0).
Proof.
  induction probes as [|q probes IH]; intros Hbad; cbn [check_probes]; [by apply runs_ret|].
  run_input. destruct (probe_bad n q) eqn:Hb.
  { intros mt Hm. apply Hbad. intros Hok. apply Forall_cons in Hok as [Hok _]. apply probe_bad_spec in Hok. congruence. }
  apply probe_bad_spec in Hb. eapply runs_weaken; [apply IH; intros Hn; apply Hbad; by intros [_ ?]%Forall_cons|].
  cbn beta. intros _ w [Hok ->]. rewrite swept_add. split; [by constructor|done].
Qed.

Lemma runs_group slices : ∀ dn cc cols, grouped dn cc cols → Sorted before (option_list (last dn) ++ slices) →
  runs (group checkpoint (length dn) slices cc cols) (λ r w,
    grouped (dn ++ slices) r.1 r.2 ∧ length r.2 = length cols + column_count (last dn) slices ∧ w = swept (length slices) 0 0 0 0 0).
Proof.
  induction slices as [|s slices IH]; intros dn cc cols G Hs; cbn [group column_count].
  { apply runs_ret. rewrite app_nil_r. split_and!; [done|cbn; lia|done]. }
  run_input. rewrite <- (grouped_last _ _ _ G).
  assert (Hlast : last (dn ++ [s]) = Some s) by apply last_snoc.
  assert (Hs' : Sorted before (option_list (last (dn ++ [s])) ++ slices)).
  { rewrite Hlast. destruct (last dn); [by apply Sorted_inv in Hs as [? _]|done]. }
  assert (Hlen : length dn + 1 = length (dn ++ [s])) by (rewrite length_app; cbn; lia).
  case_bool_decide as E; cbn [negb].
  - destruct cols as [|col cols _] using rev_ind.
    { exfalso. pose proof (grouped_length _ _ _ G) as Hl. cbn in Hl. apply length_zero_iff_nil in Hl as ->. done. }
    eapply runs_lift.
    { unfold extend_last. rewrite last_snoc. apply vec_set_ok. rewrite length_app. cbn. lia. }
    replace (length (cols ++ [col]) - 1) with (length cols + 0) by (rewrite length_app; cbn; lia).
    rewrite insert_app_r. cbn [insert list_insert]. rewrite Hlen.
    eapply runs_weaken; [apply (IH (dn ++ [s])); [|done]|].
    + rewrite <- Hlen. apply grouped_extend; [done|]. exact E.
    + cbn beta. intros r w (Hg & Hl & ->). rewrite <- app_assoc in Hg. rewrite swept_add. split_and!; [done| |done].
      rewrite Hl, Hlast, !length_app. cbn. lia.
  - rewrite Hlen. eapply runs_weaken; [apply (IH (dn ++ [s])); [|done]|].
    + rewrite <- Hlen. apply grouped_new; [done|]. intros p Hp. rewrite Hp in Hs. apply Sorted_inv in Hs as [_ Hs%HdRel_inv].
      rewrite (grouped_last _ _ _ G), Hp in E. destruct Hs as [_ [?|[Hk _]]]; [done|]. exfalso. apply E. cbn. by rewrite Hk.
    + cbn beta. intros r w (Hg & Hl & ->). rewrite <- app_assoc in Hg. rewrite swept_add. split_and!; [done| |done].
      rewrite Hl, Hlast, length_app. cbn. lia.
Qed.

(** The keys of the probes, and a buffer of their number. *)
Definition start_key (i : nat) (q : Probe) : Key := {| key := start_of q; payload := i |}.

Lemma runs_start_keys probes : ∀ i starts temp,
  runs (start_keys checkpoint i probes starts temp) (λ r w,
    r.1 = starts ++ imap (λ j q, start_key (i + j) q) probes ∧ length r.2 = length temp + length probes ∧
    w = swept (length probes) (length probes) 0 0 0 0).
Proof.
  induction probes as [|q probes IH]; intros i starts temp; cbn [start_keys].
  { apply runs_ret. rewrite app_nil_r. split_and!; [done|cbn; lia|done]. }
  run_input. run_initialize. eapply runs_weaken; [apply IH|]. cbn beta. intros r w (-> & Hl & ->).
  rewrite !swept_add, <- app_assoc, imap_cons, Nat.add_0_r. split_and!; [|rewrite Hl, length_app; cbn; lia|done].
  f_equal. cbn [app]. f_equal. apply imap_ext. intros j q' _. cbn. f_equal. lia.
Qed.

(** * The merges *)

Lemma runs_skip cc k fuel : ∀ ptr, increasing cc → ptr ≤ lower cc k → length cc ≤ ptr + fuel →
  runs (skip checkpoint fuel cc k ptr) (λ r w, r = lower cc k ∧ w = swept 0 0 0 (lower cc k - ptr) 0 0).
Proof.
  induction fuel as [|fuel IH]; intros ptr Hs Hptr Hf; cbn [skip]; pose proof (lower_length cc k).
  { rewrite (proj2 (Nat.ltb_ge _ _)) by lia. apply runs_ret. replace (lower cc k - ptr) with 0 by lia. split; [lia|done]. }
  destruct (Nat.ltb_spec ptr (length cc)) as [Hlt|Hge].
  2:{ apply runs_ret. replace (lower cc k - ptr) with 0 by lia. split; [lia|done]. }
  destruct (lookup_lt_is_Some_2 cc ptr Hlt) as [x Hx]. eapply runs_lift; [unfold vec_get; by rewrite Hx|].
  pose proof (lower_spec cc k ptr x Hs Hx) as Hspec. destruct (Z.ltb_spec x k) as [Hxk|Hxk].
  - run_columns. eapply runs_weaken; [apply IH; [done|lia|lia]|]. cbn beta. intros r w [-> ->]. rewrite swept_add.
    split; [done|]. f_equal. lia.
  - apply runs_ret. replace (lower cc k - ptr) with 0 by lia. split; [lia|done].
Qed.

(** The columns of a probe, and the pairs of a probe and a column in the order of the probes' keys. *)
Definition probe_columns (cc : list Z) (q : Probe) : list nat :=
  seq (lower cc (start_of q)) (upper cc (stop_of q) - lower cc (start_of q)).
Definition incidences (cc : list Z) (probes : list Probe) (starts : list Key) : list (nat * nat) :=
  concat ((λ k, (λ c, (payload k, c)) <$> probe_columns cc (probes !!! payload k)) <$> starts).

Lemma incidences_cons cc probes k starts : incidences cc probes (k :: starts) =
  ((λ c, (payload k, c)) <$> probe_columns cc (probes !!! payload k)) ++ incidences cc probes starts.
Proof. done. Qed.

(** The keys are those of the probes. *)
Definition key_ok (probes : list Probe) (k : Key) : Prop := ∃ q, probes !! payload k = Some q ∧ key k = start_of q.

Definition fits (n : nat) : Prop := ∀ l, discovery = Some l → (0 ≤ l)%Z → (Z.of_nat n ≤ l)%Z.

Lemma runs_sweep_sizes cc stop fuel : ∀ c pairs w0, increasing cc → length cc ≤ c + fuel → w_pairs w0 = Z.of_nat pairs → fits pairs →
  runs_at sweep_errs w0 (size_pairs checkpoint fuel cc discovery stop c pairs) (λ r w,
    r = pairs + (upper cc stop - c) ∧ fits r ∧ w = swept 0 0 0 0 (upper cc stop - c) 0).
Proof.
  induction fuel as [|fuel IH]; intros c pairs w0 Hs Hf Hw0 Hfit; cbn [size_pairs]; pose proof (upper_length cc stop).
  { rewrite (proj2 (Nat.ltb_ge _ _)) by lia. apply runs_at_runs, runs_ret. replace (upper cc stop - c) with 0 by lia.
    rewrite Nat.add_0_r. done. }
  destruct (Nat.ltb_spec c (length cc)) as [Hlt|Hge].
  2:{ apply runs_at_runs, runs_ret. replace (upper cc stop - c) with 0 by lia. rewrite Nat.add_0_r. done. }
  destruct (lookup_lt_is_Some_2 cc c Hlt) as [x Hx]. eapply runs_at_lift; [unfold vec_get; by rewrite Hx|].
  pose proof (upper_spec cc stop c x Hs Hx) as Hspec. destruct (Z.leb_spec x stop) as [Hxk|Hxk].
  2:{ apply runs_at_runs, runs_ret. replace (upper cc stop - c) with 0 by lia. rewrite Nat.add_0_r. done. }
  apply (runs_at_count _ _ _ _ (swept 0 0 0 0 1 0)); [sw|done|]. apply runs_at_get_work.
  assert (Hw1 : w_pairs (add_work w0 (swept 0 0 0 0 1 0)) = Z.of_nat (pairs + 1)).
  { change (w_pairs w0 + 1 = Z.of_nat (pairs + 1))%Z. lia. }
  assert (Hrest : fits (pairs + 1) → runs_at sweep_errs (add_work w0 (swept 0 0 0 0 1 0))
      (pairs0 ← authority (usize_add pairs 1); size_pairs checkpoint fuel cc discovery stop (c + 1) pairs0)
      (λ r w, r = pairs + (upper cc stop - c) ∧ fits r ∧ add_work (swept 0 0 0 0 1 0) w = swept 0 0 0 0 (upper cc stop - c) 0)).
  { intros Hfit1. apply runs_at_lift_err. pose proof (usize_add_yields scratch pairs 1) as Hy.
    destruct (usize_add pairs 1) as [p|e|]; cbn in Hy |- *; [|done|done]. subst p.
    eapply runs_at_weaken; [apply IH; [done|lia|done|done]|]. cbn beta. intros r w (-> & Hr & ->). rewrite swept_add.
    split_and!; [lia|done|]. f_equal. lia. }
  apply runs_at_lift_err. unfold fits in *. destruct discovery as [l|] eqn:Hd; [|by apply Hrest].
  destruct (Z.ltb_spec l (w_pairs (add_work w0 (swept 0 0 0 0 1 0)))) as [Hlim|Hlim]; [cbn; split; [exact Hd|exact Hlim]|].
  apply Hrest. intros l' [= <-] _. lia.
Qed.

Lemma runs_size_merge cc probes starts : ∀ ptr pairs w0, increasing cc → ordered key starts → Forall (key_ok probes) starts →
  (∀ k, k ∈ starts → ptr ≤ lower cc (key k)) → ptr ≤ length cc → w_pairs w0 = Z.of_nat pairs → fits pairs →
  runs_at sweep_errs w0 (size_merge checkpoint cc probes discovery starts ptr pairs) (λ r w,
    r = pairs + length (incidences cc probes starts) ∧ fits r ∧
    ∃ n, n ≤ length cc - ptr ∧ w = swept (length starts) 0 0 n (length (incidences cc probes starts)) 0).
Proof.
  induction starts as [|k starts IH]; intros ptr pairs w0 Hs Ho Hk Hptr Hlen Hw0 Hfit; cbn [size_merge].
  { apply runs_at_runs, runs_ret. split_and!; [cbn; lia|done|]. exists 0. split; [lia|done]. }
  apply (runs_at_count _ _ _ _ (swept 1 0 0 0 0 0)); [sw|done|].
  pose proof (Hptr k ltac:(by left)) as Hptrk. pose proof (lower_length cc (key k)) as Hlow.
  eapply runs_at_bind; [apply runs_at_runs, runs_skip; [done|done|lia]|]. cbn beta. intros ptr' w1 [-> ->].
  apply Forall_cons in Hk as [(q & Hq & Hkq) Hks]. eapply runs_at_lift; [unfold probe_of, vec_get; by rewrite Hq|].
  eapply runs_at_bind; [apply (runs_sweep_sizes cc (stop_of q)); [done|lia| |done]|].
  { change (w_pairs w0 + 0 + 0 = Z.of_nat pairs)%Z. lia. }
  cbn beta. intros pairs' w2 (-> & Hfit' & ->).
  apply StronglySorted_inv in Ho as [Ho Hle]. rewrite Forall_forall in Hle.
  eapply runs_at_weaken; [apply IH; [done|done|done| |done| |done]|].
  - intros k' Hk'. apply lower_mono. by apply Hle.
  - change (w_pairs w0 + 0 + 0 + Z.of_nat (upper cc (stop_of q) - lower cc (key k)) =
      Z.of_nat (pairs + (upper cc (stop_of q) - lower cc (key k))))%Z. lia.
  - cbn beta. intros r w (-> & Hr & n & Hn & ->). rewrite incidences_cons, length_app, length_fmap.
    unfold probe_columns. rewrite length_seq, (list_lookup_total_correct _ _ _ Hq), <- Hkq. rewrite !swept_add.
    split; [lia|]. split; [done|]. exists (lower cc (key k) - ptr + n). split; [lia|]. f_equal; cbn; lia.
Qed.

(** What the filling merge adds for the pairs. *)
Definition blank (probes : list Probe) (pr : nat * nat) : Hit :=
  {| hit_reader := q_reader (probes !!! pr.1); hit_column := pr.2; hit_start := 0; hit_end := 0 |}.
Definition low_key (probes : list Probe) (id : nat) (pr : nat * nat) : Key :=
  {| key := event_key pr.2 (r0 (q_image (probes !!! pr.1))) 1; payload := id |}.
Definition high_key (probes : list Probe) (id : nat) (pr : nat * nat) : Key :=
  {| key := event_key pr.2 (r1 (q_image (probes !!! pr.1))) 2; payload := id |}.
Fixpoint query_keys (probes : list Probe) (id : nat) (pairs : list (nat * nat)) : list Key :=
  match pairs with
  | [] => []
  | pr :: pairs => low_key probes id pr :: high_key probes id pr :: query_keys probes (id + 1) pairs
  end.
Definition extended (probes : list Probe) (f : Found) (pairs : list (nat * nat)) : Found :=
  {| f_hits := f_hits f ++ (blank probes <$> pairs); f_ids := f_ids f ++ pairs.*1;
     f_keys := f_keys f ++ query_keys probes (length (f_hits f)) pairs |}.

Lemma query_keys_app probes a b : ∀ id, query_keys probes id (a ++ b) = query_keys probes id a ++ query_keys probes (id + length a) b.
Proof.
  induction a as [|pr a IH]; intros id; cbn [app query_keys length]; [by rewrite Nat.add_0_r|]. rewrite IH. do 4 f_equal. lia.
Qed.

Lemma extended_nil probes f : extended probes f [] = f.
Proof. unfold extended. destruct f. cbn. by rewrite !app_nil_r. Qed.

Lemma extended_app probes f a b : extended probes (extended probes f a) b = extended probes f (a ++ b).
Proof. unfold extended. cbn. by rewrite !fmap_app, query_keys_app, !app_assoc, length_app, length_fmap. Qed.

Lemma runs_sweep_fills cc probes q probe fuel : probes !! probe = Some q → increasing cc → ∀ c f, length cc ≤ c + fuel →
  runs (fill_pairs checkpoint fuel cc q probe c f) (λ r w,
    r = extended probes f ((λ c, (probe, c)) <$> seq c (upper cc (stop_of q) - c)) ∧
    w = swept 0 0 0 0 (upper cc (stop_of q) - c) (2 * (upper cc (stop_of q) - c))).
Proof.
  intros Hq Hs. assert (Hstop : ∀ c f, upper cc (stop_of q) ≤ c → runs (mret f) (λ r w,
      r = extended probes f ((λ c, (probe, c)) <$> seq c (upper cc (stop_of q) - c)) ∧
      w = swept 0 0 0 0 (upper cc (stop_of q) - c) (2 * (upper cc (stop_of q) - c)))).
  { intros c f Hc. apply runs_ret. replace (upper cc (stop_of q) - c) with 0 by lia. cbn. by rewrite extended_nil. }
  induction fuel as [|fuel IH]; intros c f Hf; cbn [fill_pairs]; pose proof (upper_length cc (stop_of q)).
  { rewrite (proj2 (Nat.ltb_ge _ _)) by lia. apply Hstop. lia. }
  destruct (Nat.ltb_spec c (length cc)) as [Hlt|Hge]; [|apply Hstop; lia].
  destruct (lookup_lt_is_Some_2 cc c Hlt) as [x Hx]. eapply runs_lift; [unfold vec_get; by rewrite Hx|].
  pose proof (upper_spec cc (stop_of q) c x Hs Hx) as Hspec. destruct (Z.leb_spec x (stop_of q)) as [Hxk|Hxk]; [|apply Hstop; lia].
  run_pairs. cbv zeta. run_keys. eapply runs_weaken; [apply IH; lia|]. cbn beta. intros r w [-> ->]. rewrite !swept_add. split; [|f_equal; lia].
  replace (upper cc (stop_of q) - c) with (Datatypes.S (upper cc (stop_of q) - (c + 1))) by lia. cbn [seq fmap list_fmap].
  rewrite Nat.add_1_r. change (?a :: ?l) with ([a] ++ l). rewrite <- extended_app. f_equal. unfold extended, blank, low_key, high_key.
  cbn [fmap list_fmap query_keys fst snd]. unfold low_key, high_key. cbn [fst snd]. by rewrite (list_lookup_total_correct _ _ _ Hq).
Qed.

Lemma runs_fill_merge cc probes starts : ∀ ptr f, increasing cc → ordered key starts → Forall (key_ok probes) starts →
  (∀ k, k ∈ starts → ptr ≤ lower cc (key k)) → ptr ≤ length cc →
  runs (fill_merge checkpoint cc probes starts ptr f) (λ r w, r = extended probes f (incidences cc probes starts) ∧
    ∃ n, n ≤ length cc - ptr ∧
      w = swept (length starts) 0 0 n (length (incidences cc probes starts)) (2 * length (incidences cc probes starts))).
Proof.
  induction starts as [|k starts IH]; intros ptr f Hs Ho Hk Hptr Hlen; cbn [fill_merge].
  { apply runs_ret. split; [by rewrite extended_nil|]. exists 0. split; [lia|done]. }
  run_input. pose proof (Hptr k ltac:(by left)) as Hptrk. pose proof (lower_length cc (key k)) as Hlow.
  eapply runs_bind; [apply runs_skip; [done|done|lia]|]. cbn beta. intros ptr' w1 [-> ->].
  apply Forall_cons in Hk as [(q & Hq & Hkq) Hks]. eapply runs_lift; [unfold probe_of, vec_get; by rewrite Hq|].
  eapply runs_bind; [apply (runs_sweep_fills cc probes q (payload k)); [done|done|lia]|]. cbn beta. intros f' w2 [-> ->].
  apply StronglySorted_inv in Ho as [Ho Hle]. rewrite Forall_forall in Hle.
  eapply runs_weaken; [apply IH; [done|done|done| |done]|].
  - intros k' Hk'. apply lower_mono. by apply Hle.
  - cbn beta. intros r w (-> & n & Hn & ->). rewrite incidences_cons, extended_app, !length_app, !length_fmap.
    unfold probe_columns. rewrite length_seq, (list_lookup_total_correct _ _ _ Hq), <- Hkq, !swept_add.
    split; [done|]. exists (lower cc (key k) - ptr + n). split; [lia|]. f_equal; cbn; lia.
Qed.

(** ** The pieces' events *)

Definition start_event (c : nat) (s : Slice) : Key := {| key := event_key c (s_r0 s) 0; payload := 0 |}.
Definition end_event (c : nat) (s : Slice) : Key := {| key := event_key c (s_r1 s) 3; payload := 0 |}.
Fixpoint slice_keys (c : nat) (slices : list Slice) : list Key :=
  match slices with
  | [] => []
  | s :: slices => start_event c s :: end_event c s :: slice_keys c slices
  end.
Fixpoint all_keys (slices : list Slice) (c : nat) (cols : list Column) : list Key :=
  match cols with
  | [] => []
  | col :: cols => slice_keys c (col_slices slices col) ++ all_keys slices (c + 1) cols
  end.

Lemma runs_piece_keys c slices : ∀ keys,
  runs (piece_keys checkpoint c slices keys) (λ r w, r = keys ++ slice_keys c slices ∧ w = swept 0 0 0 0 0 (2 * length slices)).
Proof.
  induction slices as [|s slices IH]; intros keys; cbn [piece_keys slice_keys].
  { apply runs_ret. by rewrite app_nil_r. }
  run_keys. eapply runs_weaken; [apply IH|]. cbn beta. intros r w [-> ->]. rewrite <- app_assoc, swept_add. split; [done|].
  f_equal. cbn. lia.
Qed.

Lemma runs_column_keys slices cols : ∀ previous c keys, partition previous cols (length slices) →
  runs (column_keys checkpoint slices c cols keys) (λ r w,
    r = keys ++ all_keys slices c cols ∧ w = swept 0 0 0 (length cols) 0 (2 * (length slices - previous))).
Proof.
  induction cols as [|col cols IH]; intros previous c keys; cbn [column_keys all_keys partition].
  { intros ->. apply runs_ret. rewrite app_nil_r, Nat.sub_diag. done. }
  intros (Hst & Hlt & Hle & Hp). run_columns. eapply runs_lift; [apply vec_slice_ok; lia|].
  eapply runs_bind; [apply runs_piece_keys|]. cbn beta. intros r1 w1 [-> ->].
  eapply runs_weaken; [by apply IH|]. cbn beta. intros r w [-> ->]. rewrite <- app_assoc, !swept_add. split; [done|].
  assert (Hend : ∀ p cs, partition p cs (length slices) → p ≤ length slices).
  { intros p cs. revert p. induction cs as [|c0 cs IHc]; intros p; cbn; [lia|]. intros (<- & ? & ? & ?). lia. }
  pose proof (Hend _ _ Hp). rewrite length_take, length_drop. f_equal; cbn; lia.
Qed.

(** ** The event loop *)

Lemma runs_events cols l hits0 (Hordered : ordered key l) (Hcols : ∀ k, k ∈ l → column_of k < length cols)
  (Hids : ∀ k, k ∈ l → kind_of k = 1%Z ∨ kind_of k = 2%Z → payload k < length hits0)
  (Hone : ∀ k k', k ∈ l → k' ∈ l → kind_of k = kind_of k' → kind_of k = 1%Z ∨ kind_of k = 2%Z → payload k = payload k' → k = k') todo :
  ∀ dn cur hits, l = dn ++ todo → cursor_ok cols dn cur → hits_ok cols l hits0 dn hits →
  runs (events checkpoint cols todo cur hits) (λ r w, hits_ok cols l hits0 l r ∧ w = swept 0 0 0 0 0 (length todo)).
Proof.
  induction todo as [|e todo IH]; intros dn cur hits Hl Hc Hh; cbn [events].
  { apply runs_ret. rewrite app_nil_r in Hl. by subst. }
  run_key. assert (Hk : (0 ≤ kind_of e < 4)%Z).
  { unfold kind_of. change 3%Z with (Z.ones 2). rewrite Z.land_ones by lia. apply Z.mod_pos_bound. lia. }
  destruct (event_ok (X := X) cols l hits0 Hordered Hcols Hids Hone dn e todo cur hits Hl Hc Hh Hk) as (cur' & hits' & He & Hc' & Hh').
  eapply runs_lift; [exact He|]. eapply runs_weaken; [apply (IH (dn ++ [e])); [by rewrite <- app_assoc|done|done]|].
  cbn beta. intros r w [Hr ->]. by rewrite swept_add.
Qed.

End input.
