(* ===== verification/ArcSweepExact.v ===== *)
(** The result of the sweep of [ArcSweep]: the hits of the sorted events are the intervals of
    pieces that the images meet, and the property of the whole stage. *)
From S2P Require Import Prelude Geom Proj PlanControl Counted Buckets ArcEmit ArcEmitFacts Radix ArcSort ArcSortTheorems ArcSweep ArcSweepFacts ArcSweepEvents ArcSweepTheorems.

Lemma elem_of_query_keys probes pairs k : ∀ id, k ∈ query_keys probes id pairs ↔
  ∃ i pr, pairs !! i = Some pr ∧ (k = low_key probes (id + i) pr ∨ k = high_key probes (id + i) pr).
Proof.
  induction pairs as [|pr pairs IH]; intros id; cbn [query_keys].
  - split; [by intros ?%elem_of_nil|by intros (? & ? & ? & _)].
  - rewrite !elem_of_cons, IH. split.
    + intros [->|[->|(i & pr' & Hi & Hk)]]; [exists 0, pr|exists 0, pr|exists (S i), pr'].
      * rewrite Nat.add_0_r. auto.
      * rewrite Nat.add_0_r. auto.
      * replace (id + S i) with (id + 1 + i) by lia. auto.
    + intros ([|i] & pr' & Hi & Hk); cbn in Hi.
      * injection Hi as <-. rewrite Nat.add_0_r in Hk. tauto.
      * right. right. exists i, pr'. replace (id + 1 + i) with (id + S i) by lia. auto.
Qed.

Lemma length_query_keys probes pairs : ∀ id, length (query_keys probes id pairs) = 2 * length pairs.
Proof. induction pairs as [|pr pairs IH]; intros id; cbn [query_keys length]; [done|]. rewrite IH. lia. Qed.

Lemma length_slice_keys c ss : length (slice_keys c ss) = 2 * length ss.
Proof. induction ss as [|s ss IH]; cbn [slice_keys length]; [done|]. rewrite IH. lia. Qed.

Lemma elem_of_slice_keys c ss k : k ∈ slice_keys c ss ↔ ∃ s, s ∈ ss ∧ (k = start_event c s ∨ k = end_event c s).
Proof.
  induction ss as [|s ss IH]; cbn [slice_keys].
  - split; [by intros ?%elem_of_nil|by intros (? & ?%elem_of_nil & _)].
  - rewrite !elem_of_cons, IH. split.
    + intros [->|[->|(t & Ht & Hk)]]; [exists s|exists s|exists t]; rewrite elem_of_cons; auto.
    + intros (t & [->|Ht]%elem_of_cons & Hk); [tauto|]. right. right. by exists t.
Qed.

Section result.
Context (slices : list Slice) (probes : list Probe) (cc : list Z) (cols : list Column).
Context (Hlen : (Z.of_nat (length slices) ≤ u32_max)%Z).
Context (Hst : Forall slice_typed slices) (Hpt : Forall probe_typed probes).
Context (Hok : Forall slice_ok slices) (Hpok : Forall (probe_ok (length slices)) probes).
Context (Hsorted : StronglySorted before slices) (G : grouped slices cc cols).

Abbreviation starts := (sort_by_key (imap start_key probes)).
Abbreviation pairs := (incidences cc probes starts).
Abbreviation keys0 := (all_keys slices 0 cols ++ query_keys probes 0 pairs).
Abbreviation hits0 := (blank probes <$> pairs).

Lemma col_slices_elem col s : s ∈ col_slices slices col → s ∈ slices.
Proof. intros [i Hi]%list_elem_of_lookup_1. apply col_slices_lookup in Hi as [_ Hi]. by eapply list_elem_of_lookup_2. Qed.

Lemma slice_row s : s ∈ slices → (0 ≤ s_r0 s ≤ MAX_ROW ∧ 0 ≤ s_r1 s ≤ MAX_ROW)%Z.
Proof.
  intros Hs. rewrite Forall_forall in Hst, Hok. destruct (Hst s Hs) as (_ & _ & ?), (Hok s Hs) as (_ & ? & ?). lia.
Qed.

Lemma probe_row i q : probes !! i = Some q → (0 ≤ r0 (q_image q) ≤ MAX_ROW ∧ 0 ≤ r1 (q_image q) ≤ MAX_ROW)%Z.
Proof.
  intros Hq%list_elem_of_lookup_2. rewrite Forall_forall in Hpt, Hpok. destruct (Hpt q Hq) as (_ & _ & ?), (Hpok q Hq) as (_ & ? & _). lia.
Qed.

Lemma elem_of_all_keys k cs : ∀ c0, k ∈ all_keys slices c0 cs →
  ∃ c s, c0 ≤ c < c0 + length cs ∧ s ∈ slices ∧ (k = start_event c s ∨ k = end_event c s).
Proof.
  induction cs as [|col cs IH]; intros c0; cbn [all_keys]; [by intros ?%elem_of_nil|].
  intros [(s & Hs%col_slices_elem & Hk)%elem_of_slice_keys|(c & s & Hc & Hs & Hk)%IH]%elem_of_app.
  - exists c0, s. cbn. split; [lia|done].
  - exists c, s. cbn. split; [lia|done].
Qed.

(** ** The pairs *)

Lemma starts_ok : ordered key starts ∧ Forall (key_ok probes) starts ∧ Forall (λ k, in_u64 (key k)) starts.
Proof.
  split; [apply sort_by_key_stable|]. assert (Hall : ∀ k, k ∈ starts → ∃ i q, probes !! i = Some q ∧ k = start_key i q).
  { intros k Hk. rewrite sort_by_key_perm in Hk. apply elem_of_lookup_imap_1 in Hk as (i & q & -> & Hq). by exists i, q. }
  split; apply Forall_forall; intros k (i & q & Hq & ->)%Hall; [by exists q|]. unfold start_key, start_of. cbn [key].
  rewrite Forall_forall in Hpt, Hpok. apply list_elem_of_lookup_2 in Hq. destruct (Hpt q Hq) as (? & ? & _), (Hpok q Hq) as (_ & _ & ?).
  rewrite colkey_value by lia. unfold in_u64, u64_max, MAX_COL in *. lia.
Qed.

Lemma elem_of_pairs i c : (i, c) ∈ pairs ↔ ∃ q, probes !! i = Some q ∧ lower cc (start_of q) ≤ c < upper cc (stop_of q).
Proof.
  unfold incidences. split.
  - induction starts_ok as (_ & Hk & _). intros Hin. rewrite Forall_forall in Hk.
    assert (Hex : ∃ k, k ∈ starts ∧ (i, c) ∈ (λ c, (payload k, c)) <$> probe_columns cc (probes !!! payload k)).
    { clear Hk. induction starts as [|k ks IH]; cbn in Hin; [by apply elem_of_nil in Hin|].
      apply elem_of_app in Hin as [Hin|Hin]; [exists k; split; [by left|done]|]. destruct (IH Hin) as (k' & ? & ?). exists k'. split; [by right|done]. }
    destruct Hex as (k & Hks & (c' & [= -> ->] & Hc)%list_elem_of_fmap). destruct (Hk k Hks) as (q & Hq & _). exists q. split; [done|].
    rewrite (list_lookup_total_correct _ _ _ Hq) in Hc. unfold probe_columns in Hc. apply elem_of_seq in Hc. lia.
  - intros (q & Hq & Hc). assert (Hk : start_key i q ∈ starts).
    { rewrite sort_by_key_perm. apply elem_of_lookup_imap. by exists i, q. }
    assert (Hin : (i, c) ∈ (λ c, (payload (start_key i q), c)) <$> probe_columns cc (probes !!! payload (start_key i q))).
    { cbn. apply list_elem_of_fmap. exists c. split; [done|]. rewrite (list_lookup_total_correct _ _ _ Hq). unfold probe_columns.
      apply elem_of_seq. lia. }
    clear -Hk Hin. induction starts as [|k ks IH]; [by apply elem_of_nil in Hk|]. cbn. apply elem_of_app.
    apply elem_of_cons in Hk as [<-|Hk]; [by left|right; by apply IH].
Qed.

Lemma pairs_lookup id pr : pairs !! id = Some pr → ∃ q, probes !! pr.1 = Some q ∧ pr.2 < length cols.
Proof.
  destruct pr as [i c]. intros (q & Hq & Hc)%list_elem_of_lookup_2%elem_of_pairs. exists q. split; [done|]. cbn.
  rewrite <- (grouped_length _ _ _ G). pose proof (upper_length cc (stop_of q)). lia.
Qed.

(** ** The events *)

Inductive is_event : Key → Prop :=
| event_start c s : c < length cols → s ∈ slices → is_event (start_event c s)
| event_end c s : c < length cols → s ∈ slices → is_event (end_event c s)
| event_low id pr : pairs !! id = Some pr → is_event (low_key probes id pr)
| event_high id pr : pairs !! id = Some pr → is_event (high_key probes id pr).

Lemma keys_events k : k ∈ sort_by_key keys0 → is_event k.
Proof.
  rewrite sort_by_key_perm. intros [(c & s & Hc & Hs & [->| ->])%elem_of_all_keys|(id & pr & Hid & [->| ->])%elem_of_query_keys]%elem_of_app.
  - apply event_start; [lia|done].
  - apply event_end; [lia|done].
  - by apply event_low.
  - by apply event_high.
Qed.

(** The column and the kind of an event. *)
Lemma decode_slice c s : s ∈ slices → column_of (start_event c s) = c ∧ kind_of (start_event c s) = 0%Z ∧
  column_of (end_event c s) = c ∧ kind_of (end_event c s) = 3%Z.
Proof.
  intros Hs%slice_row. unfold start_event, end_event. destruct (event_key_decode c (s_r0 s) 0 0), (event_key_decode c (s_r1 s) 3 0); lia || done.
Qed.

Lemma decode_query id pr : pairs !! id = Some pr → column_of (low_key probes id pr) = pr.2 ∧ kind_of (low_key probes id pr) = 1%Z ∧
  column_of (high_key probes id pr) = pr.2 ∧ kind_of (high_key probes id pr) = 2%Z.
Proof.
  intros (q & Hq & _)%pairs_lookup. unfold low_key, high_key. rewrite (list_lookup_total_correct _ _ _ Hq). apply probe_row in Hq.
  destruct (event_key_decode pr.2 (r0 (q_image q)) 1 id), (event_key_decode pr.2 (r1 (q_image q)) 2 id); lia || done.
Qed.

Lemma events_columns k : k ∈ sort_by_key keys0 → column_of k < length cols.
Proof.
  intros [c s Hc Hs|c s Hc Hs|id pr Hid|id pr Hid]%keys_events.
  - by destruct (decode_slice c s Hs) as (-> & _).
  - by destruct (decode_slice c s Hs) as (_ & _ & -> & _).
  - destruct (decode_query id pr Hid) as (-> & _). by destruct (pairs_lookup id pr Hid) as (_ & _ & ?).
  - destruct (decode_query id pr Hid) as (_ & _ & -> & _). by destruct (pairs_lookup id pr Hid) as (_ & _ & ?).
Qed.

(** An event of a hit is that of its pair. *)
Lemma query_event k : k ∈ sort_by_key keys0 → kind_of k = 1%Z ∨ kind_of k = 2%Z → ∃ pr, pairs !! payload k = Some pr ∧
  k = if decide (kind_of k = 1%Z) then low_key probes (payload k) pr else high_key probes (payload k) pr.
Proof.
  intros [c s Hc Hs|c s Hc Hs|id pr Hid|id pr Hid]%keys_events Hk.
  - destruct (decode_slice c s Hs) as (_ & E & _). lia.
  - destruct (decode_slice c s Hs) as (_ & _ & _ & E). lia.
  - destruct (decode_query id pr Hid) as (_ & -> & _). by exists pr.
  - destruct (decode_query id pr Hid) as (_ & _ & _ & ->). by exists pr.
Qed.

Lemma events_ids k : k ∈ sort_by_key keys0 → kind_of k = 1%Z ∨ kind_of k = 2%Z → payload k < length hits0.
Proof. intros Hin Hk. destruct (query_event k Hin Hk) as (pr & Hpr & _). rewrite length_fmap. by eapply lookup_lt_Some. Qed.

Lemma events_one k k' : k ∈ sort_by_key keys0 → k' ∈ sort_by_key keys0 → kind_of k = kind_of k' →
  kind_of k = 1%Z ∨ kind_of k = 2%Z → payload k = payload k' → k = k'.
Proof.
  intros Hin Hin' Hkd Hk Hp. destruct (query_event k Hin Hk) as (pr & Hpr & ->).
  destruct (query_event k' Hin' ltac:(by rewrite <- Hkd)) as (pr' & Hpr' & ->).
  rewrite <- Hkd, <- Hp. rewrite <- Hp in Hpr'. by rewrite Hpr in Hpr'; injection Hpr' as <-.
Qed.

Lemma events_u64 : Forall (λ k, in_u64 (key k)) keys0.
Proof.
  apply Forall_forall. intros k Hk. assert (Hev : is_event k) by (apply keys_events; by rewrite sort_by_key_perm).
  assert (Hcols : (Z.of_nat (length cols) ≤ u32_max)%Z).
  { assert (Hle : ∀ p cs, partition p cs (length slices) → p + length cs ≤ length slices).
    { intros p cs. revert p. induction cs as [|c0 cs IHc]; intros p; cbn; [lia|]. intros (<- & ? & ? & ?%IHc). lia. }
    pose proof (Hle 0 cols (grouped_partition _ _ _ G)). lia. }
  assert (Hrange : ∀ c row kind, c < length cols → (0 ≤ row ≤ MAX_ROW)%Z → (0 ≤ kind < 4)%Z → in_u64 (event_key c row kind)).
  { intros c row kind Hc Hr Hkd. rewrite event_key_value by done. unfold in_u64, u64_max, u32_max, MAX_ROW in *. lia. }
  destruct Hev as [c s Hc Hs|c s Hc Hs|id pr Hid|id pr Hid]; cbn [key start_event end_event low_key high_key].
  - apply Hrange; [done|by apply slice_row|lia].
  - apply Hrange; [done|by apply slice_row|lia].
  - destruct (pairs_lookup id pr Hid) as (q & Hq & Hc). rewrite (list_lookup_total_correct _ _ _ Hq). apply Hrange; [done|by apply (probe_row pr.1)|lia].
  - destruct (pairs_lookup id pr Hid) as (q & Hq & Hc). rewrite (list_lookup_total_correct _ _ _ Hq). apply Hrange; [done|by apply (probe_row pr.1)|lia].
Qed.

(** ** Counting pieces by their events *)

Definition piece_event (kd : Z) (c : nat) (s : Slice) : Key := if (kd =? 0)%Z then start_event c s else end_event c s.

Lemma count_slice_keys kd e c ss : kd = 0%Z ∨ kd = 3%Z → (∀ s, s ∈ ss → s ∈ slices) →
  seen_before kd e (slice_keys c ss) =
  if decide (c = column_of e) then length (filter (λ s, (key (piece_event kd c s) < key e)%Z) ss) else 0.
Proof.
  intros Hkd. induction ss as [|s ss IH]; intros Hss; cbn [slice_keys]; [by case_decide|].
  assert (Hs : s ∈ slices) by (apply Hss; by left). specialize (IH ltac:(intros t Ht; apply Hss; by right)).
  destruct (decode_slice c s Hs) as (Hcs & Hks & Hce & Hke).
  assert (H1 : same kd e (start_event c s) ↔ kd = 0%Z ∧ c = column_of e) by (unfold same; rewrite Hks, Hcs; intuition congruence).
  assert (H2 : same kd e (end_event c s) ↔ kd = 3%Z ∧ c = column_of e) by (unfold same; rewrite Hke, Hce; intuition congruence).
  unfold seen_before in *. rewrite !filter_cons. unfold piece_event in *.
  destruct Hkd as [-> | ->]; cbn [Z.eqb] in *; repeat case_decide; cbn [length]; rewrite ?IH; try done; try tauto; exfalso; intuition lia.
Qed.

Lemma count_all_keys kd e cs : kd = 0%Z ∨ kd = 3%Z → ∀ c0,
  seen_before kd e (all_keys slices c0 cs) =
  match cs !! (column_of e - c0) with
  | Some col => if decide (c0 ≤ column_of e) then length (filter (λ s, (key (piece_event kd (column_of e) s) < key e)%Z) (col_slices slices col)) else 0
  | None => 0
  end.
Proof.
  intros Hkd. induction cs as [|col cs IH]; intros c0; cbn [all_keys]; [done|].
  assert (Happ : ∀ a b, seen_before kd e (a ++ b) = seen_before kd e a + seen_before kd e b).
  { intros a b. unfold seen_before. by rewrite filter_app, length_app. }
  rewrite Happ, count_slice_keys, IH by (done || apply col_slices_elem).
  destruct (decide (c0 = column_of e)) as [E|Hne].
  - rewrite <- E, Nat.sub_diag. cbn [lookup list_lookup]. rewrite decide_True by done.
    destruct (cs !! (c0 - (c0 + 1))); [rewrite decide_False by lia|]; lia.
  - destruct (decide (c0 ≤ column_of e)) as [Hle|Hgt].
    + replace (column_of e - c0) with (S (column_of e - (c0 + 1))) by lia. cbn [lookup list_lookup].
      destruct (cs !! (column_of e - (c0 + 1))); [|done]. by rewrite decide_True by lia.
    + replace (column_of e - c0) with 0 by lia. cbn [lookup list_lookup].
      destruct (cs !! (column_of e - (c0 + 1))); [|done]. by rewrite decide_False by lia.
Qed.

Lemma count_events kd e col : kd = 0%Z ∨ kd = 3%Z → cols !! column_of e = Some col →
  seen_before kd e (sort_by_key keys0) = length (filter (λ s, (key (piece_event kd (column_of e) s) < key e)%Z) (col_slices slices col)).
Proof.
  intros Hkd Hcol. unfold seen_before at 1. rewrite sort_by_key_perm, filter_app, length_app.
  rewrite (filter_none _ (query_keys _ _ _)).
  - cbn [length]. rewrite Nat.add_0_r. pose proof (count_all_keys kd e cols Hkd 0) as Hc. unfold seen_before in Hc. rewrite Hc.
    rewrite Nat.sub_0_r, Hcol. by rewrite decide_True by lia.
  - intros k (id & pr & Hid & Hk)%elem_of_query_keys [[Hkk _] _]. destruct (decode_query id pr Hid) as (_ & H1 & _ & H2).
    destruct Hk as [-> | ->]; cbn [Nat.add] in Hkk; lia.
Qed.

(** ** The hits *)

Section hits.
Context (hits : list Hit) (Hhits : hits_ok cols (sort_by_key keys0) hits0 (sort_by_key keys0) hits).

Lemma hit_counts id h pr q col : hits !! id = Some h → pairs !! id = Some pr → probes !! pr.1 = Some q → cols !! pr.2 = Some col →
  hit_reader h = q_reader q ∧ hit_column h = pr.2 ∧
  hit_start h = col_start col + length (filter (λ s, (s_r1 s < r0 (q_image q))%Z) (col_slices slices col)) ∧
  hit_end h = col_start col + length (filter (λ s, (s_r0 s ≤ r1 (q_image q))%Z) (col_slices slices col)).
Proof.
  intros Hh Hpr Hq Hcol. destruct Hhits as [_ Hi]. destruct (Hi id h Hh) as (h0 & Hh0 & -> & -> & Hlo & Hhi).
  rewrite list_lookup_fmap, Hpr in Hh0. injection Hh0 as <-. unfold blank. cbn [hit_reader hit_column].
  rewrite (list_lookup_total_correct _ _ _ Hq). split; [done|]. split; [done|].
  destruct (decode_query id pr Hpr) as (Hc1 & Hk1 & Hc2 & Hk2).
  assert (Hin : low_key probes id pr ∈ sort_by_key keys0 ∧ high_key probes id pr ∈ sort_by_key keys0).
  { rewrite sort_by_key_perm, !elem_of_app, !elem_of_query_keys. split; right; exists id, pr; auto. }
  assert (Hbase : ∀ k, column_of k = pr.2 → base cols k = col_start col).
  { intros k Hk. unfold base. by rewrite Hk, (list_lookup_total_correct _ _ _ Hcol). }
  pose proof (probe_row pr.1 q Hq) as [Hr0 Hr1]. split.
  - rewrite (Hlo (low_key probes id pr)), Hbase by (done || apply Hin). f_equal.
    rewrite (count_events 3 _ col) by (rewrite ?Hc1; auto). rewrite Hc1. f_equal. apply filter_ext_elem. intros s Hs%col_slices_elem.
    apply slice_row in Hs. unfold piece_event, end_event, low_key. cbn [Z.eqb key]. rewrite (list_lookup_total_correct _ _ _ Hq).
    rewrite !event_key_value by lia. lia.
  - rewrite (Hhi (high_key probes id pr)), Hbase by (done || apply Hin). f_equal.
    rewrite (count_events 0 _ col) by (rewrite ?Hc2; auto). rewrite Hc2. f_equal. apply filter_ext_elem. intros s Hs%col_slices_elem.
    apply slice_row in Hs. unfold piece_event, start_event, high_key. cbn [Z.eqb key]. rewrite (list_lookup_total_correct _ _ _ Hq).
    rewrite !event_key_value by lia. lia.
Qed.

(** The column's key is in the probe's range exactly when the pieces' columns are. *)
Lemma column_in_range q c col u s : q ∈ probes → cols !! c = Some col → col_start col ≤ u < col_end col → slices !! u = Some s →
  lower cc (start_of q) ≤ c < upper cc (stop_of q) ↔ q_sheet q = s_sheet s ∧ (c0 (q_image q) ≤ s_col s ≤ c1 (q_image q))%Z.
Proof.
  intros Hq Hc Hu Hs. rewrite Forall_forall in Hst, Hok. rewrite Forall_forall in Hpt, Hpok. pose proof (list_elem_of_lookup_2 _ _ _ Hs) as Hsin.
  rewrite <- (key_range (length slices) q s) by auto.
  destruct (lookup_lt_is_Some_2 cc c) as [x Hx]; [rewrite (grouped_length _ _ _ G); by eapply lookup_lt_Some|].
  rewrite (grouped_keys _ _ _ G c col x u s Hc Hx Hu Hs).
  pose proof (lower_spec cc (start_of q) c x (grouped_increasing _ _ _ G) Hx).
  pose proof (upper_spec cc (stop_of q) c x (grouped_increasing _ _ _ G) Hx). lia.
Qed.

Lemma hit_interval id h pr q col u s : hits !! id = Some h → pairs !! id = Some pr → probes !! pr.1 = Some q → cols !! pr.2 = Some col →
  slices !! u = Some s → hit_start h ≤ u < hit_end h ↔ col_start col ≤ u < col_end col ∧ meets q s.
Proof.
  intros Hh Hpr Hq Hcol Hs. destruct (hit_counts id h pr q col Hh Hpr Hq Hcol) as (_ & _ & -> & ->).
  pose proof (length_filter (λ s, (s_r0 s ≤ r1 (q_image q))%Z) (col_slices slices col)) as Hle. unfold col_slices in Hle at 2.
  rewrite length_take in Hle. destruct (decide (col_start col ≤ u < col_end col)) as [Hu|Hu]; [|split; [lia|intros [? _]; lia]].
  pose proof (col_prefix slices cc cols G Hsorted Hok (λ s, (s_r1 s < r0 (q_image q))%Z) pr.2 col u s Hcol ltac:(cbn; intros; lia) Hu Hs) as Hlow.
  pose proof (col_prefix slices cc cols G Hsorted Hok (λ s, (s_r0 s ≤ r1 (q_image q))%Z) pr.2 col u s Hcol ltac:(cbn; intros; lia) Hu Hs) as Hhigh.
  assert (Hrange : q_sheet q = s_sheet s ∧ (c0 (q_image q) ≤ s_col s ≤ c1 (q_image q))%Z).
  { apply (column_in_range q pr.2 col u s); [by eapply list_elem_of_lookup_2|done..|]. destruct pr as [i c].
    apply list_elem_of_lookup_2, elem_of_pairs in Hpr as (q' & Hq' & Hc). cbn in Hq. by rewrite Hq in Hq'; injection Hq' as <-. }
  unfold meets. cbn beta in *. lia.
Qed.

Lemma hits_length : length hits = length pairs.
Proof. destruct Hhits as [-> _]. by rewrite length_fmap. Qed.

(** Every hit comes from a pair. *)
Lemma hit_pair id h : hits !! id = Some h → ∃ pr q col, pairs !! id = Some pr ∧ probes !! pr.1 = Some q ∧ cols !! pr.2 = Some col.
Proof.
  intros Hh. destruct (lookup_lt_is_Some_2 pairs id) as [pr Hpr]; [rewrite <- hits_length; by eapply lookup_lt_Some|].
  destruct (pairs_lookup id pr Hpr) as (q & Hq & Hc). destruct (lookup_lt_is_Some_2 cols pr.2 Hc) as [col Hcol]. by exists pr, q, col.
Qed.

Lemma hits_fit : Forall (hit_ok (length slices) cols) hits.
Proof.
  apply Forall_lookup. intros id h Hh. destruct (hit_pair id h Hh) as (pr & q & col & Hpr & Hq & Hcol).
  destruct (hit_counts id h pr q col Hh Hpr Hq Hcol) as (Hr & Hc & Hs & He). exists col. rewrite Hc. split; [done|].
  unfold hit_in. rewrite !andb_true_iff, Nat.ltb_lt, !Nat.leb_le, Hr, Hs, He.
  pose proof (partition_bounds _ _ _ _ _ (grouped_partition _ _ _ G) Hcol).
  pose proof (length_filter (λ s, (s_r0 s ≤ r1 (q_image q))%Z) (col_slices slices col)) as Hle. unfold col_slices in Hle at 2.
  rewrite length_take in Hle. rewrite Forall_forall in Hpok. destruct (Hpok q (list_elem_of_lookup_2 _ _ _ Hq)) as (Hrd & Himg & _).
  assert (Hmono : length (filter (λ s, (s_r1 s < r0 (q_image q))%Z) (col_slices slices col)) ≤
    length (filter (λ s, (s_r0 s ≤ r1 (q_image q))%Z) (col_slices slices col))); [|lia].
  assert (Hrows : ∀ s, s ∈ col_slices slices col → (s_r0 s ≤ s_r1 s)%Z).
  { intros s Hs'%col_slices_elem. rewrite Forall_forall in Hok. destruct (Hok s Hs') as (_ & ? & _). lia. }
  clear -Hrows Himg. induction (col_slices slices col) as [|s ss IH]; [done|]. specialize (IH ltac:(intros t Ht; apply Hrows; by right)).
  pose proof (Hrows s ltac:(by left)). rewrite !filter_cons. repeat case_decide; cbn; lia.
Qed.

End hits.
End result.

(** * The stage *)

Definition sweep_input (slices : list Slice) (probes : list Probe) : Prop :=
  (Z.of_nat (length slices) ≤ u32_max)%Z ∧ Forall slice_ok slices ∧ StronglySorted before slices ∧
  Forall (probe_ok (length slices)) probes.

Definition typed (slices : list Slice) (probes : list Probe) : Prop := Forall slice_typed slices ∧ Forall probe_typed probes.

(** [w] reads the piece [u] through one of its probes. *)
Definition reads (slices : list Slice) (probes : list Probe) (u w : nat) : Prop :=
  ∃ q s, q ∈ probes ∧ q_reader q = w ∧ slices !! u = Some s ∧ meets q s.

(** The columns are those of the pieces, and each hit has exactly what its probe meets there. *)
Record found (slices : list Slice) (probes : list Probe) (columns : list Column) (hits : list Hit) (ids : list nat) : Prop := {
  found_columns : partition 0 columns (length slices);
  found_same u v s t : slices !! u = Some s → slices !! v = Some t →
    (∃ c col, columns !! c = Some col ∧ col_start col ≤ u < col_end col ∧ col_start col ≤ v < col_end col) ↔ slice_key s = slice_key t;
  found_hits : Forall (hit_ok (length slices) columns) hits;
  found_ids : length ids = length hits;
  found_exact id h i : hits !! id = Some h → ids !! id = Some i → ∃ q col, probes !! i = Some q ∧ columns !! hit_column h = Some col ∧
    hit_reader h = q_reader q ∧
    ∀ u s, slices !! u = Some s → hit_start h ≤ u < hit_end h ↔ col_start col ≤ u < col_end col ∧ meets q s;
  found_all i q u s : probes !! i = Some q → slices !! u = Some s → meets q s →
    ∃ id h, hits !! id = Some h ∧ ids !! id = Some i ∧ hit_start h ≤ u < hit_end h
}.

(** The hits cover what the probes read. *)
Lemma found_covers slices probes columns hits ids u w : found slices probes columns hits ids → u < length slices →
  covers hits u w ↔ reads slices probes u w.
Proof.
  intros F Hu. destruct (lookup_lt_is_Some_2 slices u Hu) as [s Hs]. split.
  - intros (h & [id Hh]%list_elem_of_lookup_1 & <- & Hc). destruct (lookup_lt_is_Some_2 ids id) as [i Hi].
    { rewrite (found_ids _ _ _ _ _ F). by eapply lookup_lt_Some. }
    destruct (found_exact _ _ _ _ _ F id h i Hh Hi) as (q & col & Hq & _ & Hr & Hex). exists q, s.
    split; [by eapply list_elem_of_lookup_2|]. split; [done|]. split; [done|]. by apply (Hex u s Hs).
  - intros (q & s' & [i Hq]%list_elem_of_lookup_1 & <- & Hs' & Hm). rewrite Hs in Hs'. injection Hs' as <-.
    destruct (found_all _ _ _ _ _ F i q u s Hq Hs Hm) as (id & h & Hh & Hi & Hc).
    destruct (found_exact _ _ _ _ _ F id h i Hh Hi) as (q' & col & Hq' & _ & Hr & _). rewrite Hq in Hq'. injection Hq' as <-.
    exists h. split; [by eapply list_elem_of_lookup_2|]. done.
Qed.

Lemma sweep_found slices probes cc cols hits : sweep_input slices probes → typed slices probes → grouped slices cc cols →
  let pairs := incidences cc probes (sort_by_key (imap start_key probes)) in
  let l := sort_by_key (all_keys slices 0 cols ++ query_keys probes 0 pairs) in
  hits_ok cols l (blank probes <$> pairs) l hits → found slices probes cols hits pairs.*1.
Proof.
  intros (Hlen & Hok & Hsorted & Hpok) [Hst Hpt] G pairs l Hhits.
  assert (Hids : ∀ id i, pairs.*1 !! id = Some i → ∃ pr, pairs !! id = Some pr ∧ pr.1 = i).
  { intros id i Hi. rewrite list_lookup_fmap in Hi. destruct (pairs !! id) as [pr|]; [|done]. exists pr. split; [done|]. by injection Hi. }
  split.
  - apply G.
  - intros u v s t Hs Ht. assert (Hkey : ∀ w x c col, slices !! w = Some x → cols !! c = Some col → col_start col ≤ w < col_end col → cc !! c = Some (slice_key x)).
    { intros w x c col Hw Hc Hin. destruct (lookup_lt_is_Some_2 cc c) as [y Hy]; [rewrite (grouped_length _ _ _ G); by eapply lookup_lt_Some|].
      by rewrite (grouped_keys _ _ _ G c col y w x Hc Hy Hin Hw). }
    split; [intros (c & col & Hc & Hu & Hv); pose proof (Hkey u s c col Hs Hc Hu); pose proof (Hkey v t c col Ht Hc Hv); congruence|].
    intros E. destruct (partition_find cols _ 0 u (grouped_partition _ _ _ G)) as (c & col & Hc & Hu); [split; [lia|by eapply lookup_lt_Some]|].
    destruct (partition_find cols _ 0 v (grouped_partition _ _ _ G)) as (d & col' & Hd & Hv); [split; [lia|by eapply lookup_lt_Some]|].
    pose proof (Hkey u s c col Hs Hc Hu) as Hcx. pose proof (Hkey v t d col' Ht Hd Hv) as Hdx. rewrite <- E in Hdx.
    destruct (Nat.lt_trichotomy c d) as [Hlt|[->|Hlt]].
    + pose proof (increasing_lookup cc c d _ _ (grouped_increasing _ _ _ G) Hlt Hcx Hdx). lia.
    + rewrite Hc in Hd. injection Hd as <-. by exists d, col.
    + pose proof (increasing_lookup cc d c _ _ (grouped_increasing _ _ _ G) Hlt Hdx Hcx). lia.
  - by apply (hits_fit slices probes cc cols).
  - rewrite length_fmap. symmetry. by apply (hits_length slices probes cc cols).
  - intros id h i Hh (pr & Hpr & <-)%Hids. destruct (hit_pair slices probes cc cols) with (hits := hits) (id := id) (h := h) as (pr' & q & col & Hpr' & Hq & Hcol); [done..|].
    fold pairs in Hpr'. rewrite Hpr in Hpr'. injection Hpr' as <-. exists q, col. split; [done|].
    destruct (hit_counts slices probes cc cols) with (hits := hits) (id := id) (h := h) (pr := pr) (q := q) (col := col) as (Hr & Hc & _); [done..|].
    rewrite Hc. split; [done|]. split; [done|]. intros u s Hs.
    by apply (hit_interval slices probes cc cols) with (hits := hits) (id := id) (pr := pr).
  - intros i q u s Hq Hs Hm.
    destruct (partition_find cols _ 0 u (grouped_partition _ _ _ G)) as (c & col & Hc & Hu); [split; [lia|by eapply lookup_lt_Some]|].
    assert (Hin : (i, c) ∈ pairs).
    { apply elem_of_pairs with (slices := slices); [done..|]. exists q. split; [done|].
      apply (column_in_range slices probes cc cols) with (col := col) (u := u) (s := s); try done; [by eapply list_elem_of_lookup_2|].
      destruct Hm as (? & ? & _). done. }
    apply list_elem_of_lookup_1 in Hin as [id Hid]. destruct (lookup_lt_is_Some_2 hits id) as [h Hh].
    { rewrite (hits_length slices probes cc cols hits Hhits). by eapply lookup_lt_Some. }
    exists id, h. split; [done|]. split; [by rewrite list_lookup_fmap, Hid|].
    apply (hit_interval slices probes cc cols) with (hits := hits) (id := id) (pr := (i, c)) (q := q) (col := col) (s := s); done.
Qed.

(** The memory and the counted work of a sweep over [n] pieces and [m] probes. *)
Record swept_within (n m : nat) (limit discovery : option Z) (columns : list Column) (hits : list Hit) (peak : Z) (w : SweepWork) : Prop := {
  within_discovery : fits discovery (length hits);
  within_peak : peak = Z.of_nat (24 * length columns + 32 * m + 40 * length hits + 64 * (n + length hits));
  within_limit l : limit = Some l → (peak ≤ l)%Z;
  within_work : ∃ k, k ≤ 3 * length columns ∧
    w = swept (2 * n + 4 * m) (m + 2 * (n + length hits)) (sort_cost m + sort_cost (2 * (n + length hits))) k (2 * length hits)
      (4 * (n + length hits))
}.

Section stage.
Context {S X : Type} (checkpoint : S → Z → X + S) (alloc : nat → Z → bool).
Context (slices : list Slice) (probes : list Probe) (limit discovery : option Z) (Htyped : typed slices probes).
Abbreviation errs := (sweep_errs checkpoint limit discovery (¬ sweep_input slices probes)).

Lemma twice_yields n : yields limit (twice n) (λ x, x = (n * 2)%Z).
Proof. unfold twice. destruct (_ <=? _)%Z; [done|apply refused_alloc]. Qed.

Lemma phase1_yields c m : yields limit (phase1_bytes c m) (λ x, x = Z.of_nat (24 * c + 32 * m)).
Proof.
  unfold phase1_bytes. eapply yields_bind; [apply bytes_of_yields|]. intros a ->. eapply yields_bind; [apply bytes_of_yields|]. intros b ->.
  eapply yields_bind; [apply add_yields|]. intros ab ->. eapply yields_bind; [apply bytes_of_yields|]. intros d ->.
  eapply yields_bind; [apply twice_yields|]. intros e ->. pose proof (add_yields limit (Z.of_nat c * 16 + Z.of_nat c * 8) (Z.of_nat m * 16 * 2)) as Hy.
  destruct (add _ _); cbn in *; [lia|done|done].
Qed.

Lemma phase2_yields p1 p kc : yields limit (phase2_bytes p1 p kc) (λ x, x = (p1 + (40 * Z.of_nat p + 32 * kc))%Z).
Proof.
  unfold phase2_bytes. eapply yields_bind; [apply bytes_of_yields|]. intros a ->. eapply yields_bind; [apply bytes_of_yields|]. intros b ->.
  eapply yields_bind; [apply add_yields|]. intros ab ->. eapply yields_bind; [apply bytes_of_yields|]. intros d ->.
  eapply yields_bind; [apply twice_yields|]. intros e ->. eapply yields_bind; [apply add_yields|]. intros f ->.
  pose proof (add_yields limit p1 (Z.of_nat p * 32 + Z.of_nat p * 8 + kc * 16 * 2)) as Hy. destruct (add _ _); cbn in *; [lia|done|done].
Qed.

Lemma runs_at_authority {A B} w0 (r : result AuthorityError A) (f : A → counted S (SweepError X) SweepWork B) P Q :
  yields limit r P → (∀ a, P a → runs_at errs w0 (f a) Q) → runs_at errs w0 (authority r ≫= f) Q.
Proof. intros Hr Hf. apply runs_at_lift_err. destruct r as [a|e|]; cbn in *; [by apply Hf|done|done]. Qed.

Lemma length_all_keys cs : ∀ previous c, partition previous cs (length slices) →
  length (all_keys slices c cs) = 2 * (length slices - previous) ∧ previous ≤ length slices.
Proof.
  induction cs as [|col cs IH]; intros previous c; cbn [all_keys partition]; [intros ->; cbn; lia|].
  intros (Hst & Hlt & Hle & Hp). destruct (IH _ (c + 1) Hp) as [Hl Hle']. rewrite length_app, length_slice_keys, Hl.
  unfold col_slices. rewrite length_take, length_drop. lia.
Qed.

Lemma iter_swept n : Nat.iter n (add_work (swept 0 1 0 0 0 0)) no_work = swept 0 n 0 0 0 0.
Proof. induction n as [|n IH]; [done|]. by rewrite Nat.iter_succ, IH, swept_add. Qed.

(** The events of the second half: the hits of the pairs. *)
Lemma runs_second cc cols starts p1 : sweep_input slices probes → grouped slices cc cols →
  starts = sort_by_key (imap start_key probes) → p1 = Z.of_nat (24 * length cols + 32 * length probes) →
  runs errs (
    sum ← authority (usize_add (length slices) (length (incidences cc probes starts)));
    key_count ← authority (twice (Z.of_nat sum));
    phase2 ← authority (phase2_bytes p1 (length (incidences cc probes starts)) key_count);
    _ ← authority (admit_scratch phase2 limit);
    _ ← authority (reserve alloc 4 32 (Z.of_nat (length (incidences cc probes starts))));
    _ ← authority (reserve alloc 5 8 (Z.of_nat (length (incidences cc probes starts))));
    _ ← authority (reserve alloc 6 16 key_count);
    _ ← authority (reserve alloc 7 16 key_count);
    keys ← column_keys checkpoint slices 0 cols [];
    f ← fill_merge checkpoint cc probes starts 0 {| f_hits := []; f_ids := []; f_keys := keys |};
    temp ← fill checkpoint more_initialize [] (Z.to_nat key_count) no_key;
    keys ← sort checkpoint (f_keys f) temp;
    hits ← events checkpoint cols keys {| current := None; started := 0; ended := 0 |} (f_hits f);
    _ ← flush_control checkpoint;
    mret (cols, hits, f_ids f, phase2)) (λ r w,
    let '(cols', hits, ids, peak) := r in cols' = cols ∧ found slices probes cols hits ids ∧ length hits = length (incidences cc probes starts) ∧
      peak = Z.of_nat (24 * length cols + 32 * length probes + 40 * length hits + 64 * (length slices + length hits)) ∧
      (∀ l, limit = Some l → (peak ≤ l)%Z) ∧
      ∃ k, k ≤ 2 * length cols ∧ w = swept (length probes) (2 * (length slices + length hits)) (sort_cost (2 * (length slices + length hits))) k
        (length hits) (4 * (length slices + length hits))).
Proof.
  intros Hin G -> ->. pose proof Hin as (Hlen & Hok & Hsorted & Hpok). pose proof Htyped as [Hst Hpt].
  set (pairs := incidences cc probes (sort_by_key (imap start_key probes))) in *.
  eapply (runs_sweep_authority checkpoint limit discovery); [apply usize_add_yields|]. intros sum ->.
  eapply (runs_sweep_authority checkpoint limit discovery); [apply twice_yields|]. intros kc ->.
  eapply (runs_sweep_authority checkpoint limit discovery); [apply phase2_yields|]. intros p2 ->.
  eapply (runs_sweep_authority checkpoint limit discovery); [apply admit_yields|]. intros [] Hlim.
  do 4 (eapply (runs_sweep_authority checkpoint limit discovery); [apply reserve_yields|]; intros [] _).
  eapply runs_bind; [apply (runs_column_keys checkpoint limit discovery _ slices cols 0 0), G|]. cbn beta. intros keys w1 [-> ->]. cbn [app].
  destruct (starts_ok slices probes Hpt Hpok) as (Ho & Hk & _).
  eapply runs_bind; [apply (runs_fill_merge checkpoint limit discovery); [apply G|done|done|lia|lia]|]. cbn beta.
  intros f w2 (-> & n2 & Hn2 & ->). fold pairs. unfold extended. cbn [f_hits f_ids f_keys app length].
  eapply runs_bind; [apply (runs_fill _ _ _ (swept 0 1 0 0 0 0)); [sw|done]|]. cbn beta. intros temp w3 [-> ->]. rewrite iter_swept. cbn [app].
  assert (Hkl : length (all_keys slices 0 cols ++ query_keys probes 0 pairs) = 2 * (length slices + length pairs)).
  { rewrite length_app, length_query_keys. destruct (length_all_keys cols 0 0 (grouped_partition _ _ _ G)) as [-> _]. lia. }
  replace (Z.to_nat (Z.of_nat (length slices + length pairs) * 2)) with (2 * (length slices + length pairs)) by lia.
  eapply runs_bind; [apply runs_sort; [apply _|by apply (events_u64 slices probes cc cols)|by rewrite length_replicate, Hkl]|]. cbn beta. intros keys w4 [-> ->].
  eapply runs_bind; [apply (runs_events checkpoint limit discovery _ cols (sort_by_key (all_keys slices 0 cols ++ query_keys probes 0 pairs)) (blank probes <$> pairs)) with (dn := []); [apply sort_by_key_stable|
    by apply (events_columns slices probes cc)|by apply (events_ids slices probes cc cols)|by apply (events_one slices probes cc cols)|done|done|]|].
  { split; [done|]. intros i h Hh. exists h. split_and!; [done..|by intros e ?%elem_of_nil|by intros e ?%elem_of_nil]. }
  cbn beta. intros hits w5 [Hhits ->]. refine (runs_flush checkpoint _ _ _ _).
  pose proof (hits_length slices probes cc cols hits Hhits) as Hhl. fold pairs in Hhl. rewrite Hhl.
  rewrite (Permutation_length (sort_by_key_perm _)), Hkl.
  split; [done|]. split; [by apply (sweep_found slices probes cc cols hits)|]. split; [done|]. split; [lia|].
  split; [intros l Hl; apply Hlim in Hl; lia|]. exists (length cols + n2). rewrite (grouped_length _ _ _ G) in Hn2. split; [lia|].
  rewrite add_no_work, !swept_add. rewrite (Permutation_length (sort_by_key_perm _)), length_imap. f_equal; lia.
Qed.

Lemma runs_sweep : runs_at errs no_work (sweep_counted checkpoint alloc slices probes limit discovery) (λ r w,
  let '(cols, hits, ids, peak) := r in sweep_input slices probes ∧ found slices probes cols hits ids ∧
    swept_within (length slices) (length probes) limit discovery cols hits peak w).
Proof.
  unfold sweep_counted. destruct (Z.ltb_spec u32_max (Z.of_nat (length slices))) as [Hbig|Hlen].
  { intros mt Hm _ (Hl & _). lia. }
  eapply runs_at_bind; [apply runs_at_runs, (runs_check_slices checkpoint limit discovery _ slices None 0)|].
  { constructor. }
  { intros Hn (_ & Hok & Hs & _). apply Hn. split; [done|]. by apply StronglySorted_Sorted. }
  cbn beta. cbn [option_list app]. intros columns w1 (Hok & Hsorted & Hcols & ->). apply Sorted_StronglySorted in Hsorted; [|apply _].
  eapply runs_at_bind; [apply runs_at_runs, (runs_check_probes checkpoint limit discovery _ (length slices) probes)|].
  { by intros Hn (_ & _ & _ & Hp). }
  cbn beta. intros _ w2 (Hpok & ->). assert (Hin : sweep_input slices probes) by done.
  eapply runs_at_authority; [apply phase1_yields|]. intros p1 ->. eapply runs_at_authority; [apply admit_yields|]. intros [] _.
  do 4 (eapply runs_at_authority; [apply reserve_yields|]; intros [] _).
  eapply runs_at_bind; [apply runs_at_runs, (runs_group checkpoint limit discovery _ slices [] [] [] grouped_nil)|].
  { by apply StronglySorted_Sorted. }
  cbn beta. intros [cc cols] w3 (G & Hcl & ->). cbn [fst snd app] in G, Hcl. cbn in Hcl. rewrite Nat.add_0_l in Hcols.
  eapply runs_at_bind; [apply runs_at_runs, (runs_start_keys checkpoint limit discovery _ probes 0 [] [])|].
  cbn beta. intros [starts temp] w4 (Hstarts & Htemp & ->). cbn [fst snd app length] in Hstarts, Htemp.
  change (starts = imap start_key probes) in Hstarts. subst starts.
  destruct (starts_ok slices probes (proj2 Htyped) Hpok) as (Ho & Hk & Hu). rewrite sort_by_key_perm in Hu.
  eapply runs_at_bind; [apply runs_at_runs, runs_sort; [apply _|done|by rewrite Htemp, length_imap]|]. cbn beta. intros starts w5 [-> ->].
  eapply runs_at_bind; [apply (runs_size_merge checkpoint limit discovery); [apply G|done|done|lia|lia|done|by intros l _]|].
  cbn beta. intros pairs w6 (-> & Hfit & n & Hn & ->). rewrite Nat.add_0_l in *. apply runs_at_runs.
  eapply runs_weaken; [apply runs_second; [done|done|done|by rewrite Hcols, Hcl]|]. cbn beta.
  intros [[[cols' hits] ids] peak] w (-> & F & Hd & Hp & Hl & k & Hk' & ->). split; [done|]. split; [done|]. split; [by rewrite Hd|lia|done|].
  rewrite !swept_add. exists (n + k). rewrite (grouped_length _ _ _ G) in Hn. split; [lia|].
  rewrite (Permutation_length (sort_by_key_perm _)), length_imap. 
  pose proof (Permutation_length (sort_by_key_perm (imap start_key probes))) as Hpl. rewrite length_imap in Hpl.
  f_equal; lia.
Qed.

Lemma sweep_result s :
  match sweep_controlled checkpoint alloc slices probes limit discovery s with
  | Ok (sw, _) => sweep_input slices probes ∧ found slices probes (columns sw) (hits sw) (ArcSweep.probes sw) ∧
      swept_within (length slices) (length probes) limit discovery (columns sw) (hits sw) (sweep_peak sw) (ArcSweep.sweep_work sw)
  | Err e => errs e
  | Panic => False
  end.
Proof.
  unfold sweep_controlled. pose proof (flush_charges checkpoint {| total := 0; pending := 0; state := s |}) as Hnew.
  specialize (Hnew ltac:(simpl; lia)). unfold new. destruct (flush _ _) as [ctl|x|]; [|done|done].
  destruct Hnew as [Hctl _]. cbn [map_err mbind result_bind].
  pose proof (runs_sweep {| work := no_work; control := ctl |} Hctl eq_refl) as Hrun.
  destruct (sweep_counted _ _ _ _ _ _ _) as [[mt [[[cols hs] ids] peak]]|e|]; cbn [mbind result_bind]; [|done|done].
  destruct Hrun as (_ & _ & w & Hw & Hq). cbn [work] in Hw. rewrite no_work_add in Hw. by rewrite Hw.
Qed.

(** C28: the sweep never panics.  When it succeeds, the input was well formed, the columns are
    those of the pieces, the hits of each probe are exactly the pieces its image meets in each
    column, so that a piece is hit by a reader exactly when it reads it, and the discovery
    limit, the memory and the counted work, linear in the input and the pairs of a probe and a
    column, are as stated.  Otherwise the input was not well formed, or the caller, the
    allocator or a limit stopped it. *)
Theorem sweep_exact s :
  match sweep_controlled checkpoint alloc slices probes limit discovery s with
  | Ok (sw, _) => sweep_input slices probes ∧ found slices probes (columns sw) (hits sw) (ArcSweep.probes sw) ∧
      (∀ u w, u < length slices → covers (hits sw) u w ↔ reads slices probes u w) ∧
      swept_within (length slices) (length probes) limit discovery (columns sw) (hits sw) (sweep_peak sw) (ArcSweep.sweep_work sw)
  | Err e => sweep_errs checkpoint limit discovery (¬ sweep_input slices probes) e
  | Panic => False
  end.
Proof.
  pose proof (sweep_result s) as H. destruct (sweep_controlled _ _ _ _ _ _ _) as [[sw s']|e|]; [|done..].
  destruct H as (Hin & F & W). split; [done|]. split; [done|]. split; [|done]. intros u w Hu. by eapply found_covers.
Qed.

End stage.

Lemma small_typed : typed small_slices small_probes.
Proof. by repeat first [split | constructor]. Qed.

Lemma sweep_exact_witness : typed small_slices small_probes ∧
  ∃ sw s, sweep_controlled never (λ _ _, true) small_slices small_probes None None () = Ok (sw, s) ∧
    found small_slices small_probes (columns sw) (hits sw) (ArcSweep.probes sw).
Proof.
  split; [apply small_typed|]. pose proof (sweep_exact never (λ _ _, true) small_slices small_probes None None small_typed ()) as H.
  destruct (sweep_controlled never (λ _ _, true) small_slices small_probes None None ()) as [[sw s]|e|] eqn:E; [|vm_compute in E; discriminate..].
  exists sw, s. split; [reflexivity|]. apply H.
Defined.
