(* ===== verification/ArcTopology.v ===== *)
(** [engine/authority/arc_topology.rs]: the sweep, the emission, the graph and its components,
    one after the other under one memory limit and one callback.

    [alloc t k b] says whether the allocator serves the [k]-th reservation of stage [t]. *)
From S2P Require Import Prelude PlanControl Counted PlanGraph ArcEmit ArcSort ArcSweep.

Inductive TopologyError (X : Type) : Type :=
| TopologyAuthority (e : AuthorityError)
| TopologySweep (e : SweepError X)
| TopologyEmit (e : EmitError X)
| TopologyGraph (e : GraphError X)
| InvalidWitness.
Arguments TopologyAuthority {X}.
Arguments TopologySweep {X}.
Arguments TopologyEmit {X}.
Arguments TopologyGraph {X}.
Arguments InvalidWitness {X}.

Record Topology : Type := {
  sweep : Sweep;
  emission : Emission;
  graph : PlanGraph.PlanGraph;
  components : Components;
  topology_peak : Z
}.

Definition total_work (t : Topology) : Z :=
  (sweep_total (ArcSweep.sweep_work (sweep t)) + emit_total (emission_work (emission t)) + PlanGraph.total_work (gwork (graph t)) +
   PlanGraph.total_work (cwork (components t)))%Z.

(** [Components::heap_bytes]: its vectors are reserved for one entry per node, and one more offset. *)
Definition components_heap (c : Components) : Z := (Z.of_nat (3 * length (component_of c) + 1) * 8)%Z.

Definition topology_heap (t : Topology) : Z :=
  (sweep_heap (sweep t) + emission_heap (emission t) + graph_heap (graph t) + components_heap (components t))%Z.

Section topology.
Context {S X : Type} (checkpoint : S → Z → X + S) (alloc : nat → nat → Z → bool).

Definition topology_controlled (slices : list Slice) (probes : list Probe) (scratch_limit arc_limit discovery_limit : option Z) (s : S)
  : result (TopologyError X) (Topology * S) :=
  '(sw, s) ← map_err TopologySweep (sweep_controlled checkpoint (alloc 0) slices probes scratch_limit discovery_limit s);
  let peak := sweep_peak sw in
  let held := sweep_heap sw in
  limit ← map_err TopologyAuthority (remaining scratch_limit held);
  '(em, s) ← map_err TopologyEmit (emit_controlled checkpoint (alloc 1) (length slices) (columns sw) (hits sw) limit arc_limit s);
  p ← map_err TopologyAuthority (add held (emission_peak em));
  let peak := Z.max peak p in
  held ← map_err TopologyAuthority (add held (emission_heap em));
  limit ← map_err TopologyAuthority (remaining scratch_limit held);
  '(g, s) ← map_err TopologyGraph (build_controlled checkpoint (alloc 2) (emitted_nodes em) (arcs em) limit s);
  p ← map_err TopologyAuthority (add held (gpeak g));
  let peak := Z.max peak p in
  held ← map_err TopologyAuthority (add held (graph_heap g));
  limit ← map_err TopologyAuthority (remaining scratch_limit held);
  '(c, s) ← map_err TopologyGraph (components_controlled checkpoint (alloc 3) g limit s);
  p ← map_err TopologyAuthority (add held (cpeak c));
  let peak := Z.max peak p in
  Ok ({| sweep := sw; emission := em; graph := g; components := c; topology_peak := peak |}, s).

End topology.

(** ** Examples *)

(** Piece 0 reads pieces 1 and 3, which reads piece 0: the two are one component. *)
Definition cyclic_slices : list Slice := [piece 1 0 1; piece 1 3 3; piece 1 5 9; piece 2 4 4].
Definition cyclic_probes : list Probe :=
  [{| q_reader := 0; q_sheet := 0; q_image := Geom.rect_new 3 1 4 2 |};
   {| q_reader := 3; q_sheet := 0; q_image := Geom.rect_new 0 1 0 1 |}].

Example small_topology :
  ('(t, _) ← topology_controlled ArcEmit.never (λ _ _ _, true) cyclic_slices cyclic_probes None None None ();
   Ok (component_of (components t), selfdep (emission t)))
  = Ok ([Some 0; Some 1; Some 2; Some 0], [0; 0; 0; 0]%Z).
Proof. vm_compute. reflexivity. Qed.
