(* ===== verification/ArcTopologyTheorems.v ===== *)
(** The stage of [ArcTopology]: its components are those of the relation "reads" between
    pieces. *)
From S2P Require Import Prelude Geom PlanControl Counted Buckets PlanGraph PlanGraphTheorems TarjanFacts TarjanTheorems ArcEmit ArcEmitFacts ArcEmitTheorems Radix ArcSort ArcSortTheorems ArcSweep ArcSweepFacts ArcSweepTheorems ArcSweepExact ArcTopology.

(** What the planner reads off the components. *)
Record classified (slices : list Slice) (probes : list Probe) (t : Topology) : Prop := {
  classified_piece u : u < length slices → ∃ k, component_of (components t) !! u = Some (Some k) ∧ k < component_count (components t);
  classified_scc u w : u < length slices → w < length slices →
    component_of (components t) !! u = component_of (components t) !! w ↔
    rtc (reads slices probes) u w ∧ rtc (reads slices probes) w u;
  classified_order u w k k' : u < length slices → reads slices probes u w → component_of (components t) !! u = Some (Some k) →
    component_of (components t) !! w = Some (Some k') → k' ≤ k;
  classified_self u : u < length slices → selfdep (emission t) !! u = Some 1%Z ↔ reads slices probes u u
}.

(** What the stages, for [n] pieces and [m] probes, report to need, and the most that is live: what a
    stage needs on top of the outputs of the stages before it, which are still there. *)
Record charged (n m : nat) (t : Topology) : Prop := {
  charged_sweep : sweep_peak (sweep t) =
    Z.of_nat (24 * length (columns (sweep t)) + 32 * m + 40 * length (hits (sweep t)) + 64 * (n + length (hits (sweep t))));
  charged_emission : emission_peak (emission t) = (8 * Z.of_nat (length (columns (sweep t))) + emission_heap (emission t))%Z;
  charged_graph : gpeak (graph t) = (8 * Z.of_nat (2 * emitted_nodes (emission t) + length (arcs (emission t)) + 1))%Z;
  charged_components : cpeak (components t) = (8 * Z.of_nat (8 * emitted_nodes (emission t) + 1))%Z;
  charged_peak : topology_peak t = Z.max (sweep_peak (sweep t)) (Z.max (sweep_heap (sweep t) + emission_peak (emission t))
    (Z.max (sweep_heap (sweep t) + emission_heap (emission t) + gpeak (graph t))
           (sweep_heap (sweep t) + emission_heap (emission t) + graph_heap (graph t) + cpeak (components t))));
  charged_outputs : (topology_heap t ≤ topology_peak t)%Z
}.

(** The relation on pieces stays on pieces. *)
Lemma reads_reader slices probes u w : Forall (probe_ok (length slices)) probes → reads slices probes u w → u < length slices ∧ w < length slices.
Proof.
  intros Hok (q & s & Hq & <- & Hs & _). rewrite Forall_forall in Hok. destruct (Hok q Hq) as [Hr _]. split; [by eapply lookup_lt_Some|done].
Qed.

Lemma rtc_reads slices probes hits u w : Forall (probe_ok (length slices)) probes → u < length slices →
  (∀ u w, u < length slices → covers hits u w ↔ reads slices probes u w) →
  (∀ u w, covers hits u w → w < length slices) → rtc (covers hits) u w ↔ rtc (reads slices probes) u w.
Proof.
  intros Hok Hu Hiff Hlt. split.
  - intros Hr. induction Hr as [|u v w Huv _ IH]; [done|]. eapply rtc_l; [by apply Hiff|]. apply IH. by eapply Hlt.
  - intros Hr. induction Hr as [|u v w Huv _ IH]; [done|]. eapply rtc_l; [by apply Hiff|]. apply IH. by destruct (reads_reader _ _ _ _ Hok Huv).
Qed.

(** Components go down along every path. *)
Lemma decomposition_down n arcs c u w k k' : decomposition n arcs c → arcs_ok n arcs → rtc (edge arcs) u w → u < n →
  component_of c !! u = Some (Some k) → component_of c !! w = Some (Some k') → k' ≤ k.
Proof.
  intros (Hall & _ & _ & Hdown) Hok Hr. revert k. induction Hr as [u|u v w Huv _ IH]; intros k Hu Hk Hk'; [by simplify_eq|].
  assert (Hv : v < n).
  { unfold edge in Huv. rewrite elem_of_adj in Huv. unfold arcs_ok in Hok. rewrite Forall_forall in Hok. by destruct (Hok _ Huv). }
  destruct (Hall v Hv) as (k'' & Hk'' & _). specialize (IH k'' Hv Hk'' Hk'). specialize (Hdown u v k k'' Huv Hk Hk''). lia.
Qed.

Lemma stages_classified slices probes t : sweep_input slices probes →
  found slices probes (columns (sweep t)) (hits (sweep t)) (ArcSweep.probes (sweep t)) →
  emitted (length slices) (columns (sweep t)) (hits (sweep t)) (emission t) →
  decomposition (emitted_nodes (emission t)) (arcs (emission t)) (components t) → classified slices probes t.
Proof.
  intros (_ & _ & _ & Hok) F M D. pose proof D as (Hall & _ & Hscc & Hdown). pose proof (emitted_real _ _ _ _ M) as Hreal.
  assert (Hiff : ∀ u w, u < length slices → covers (hits (sweep t)) u w ↔ reads slices probes u w) by (intros; by eapply found_covers).
  assert (Hlt : ∀ u w, covers (hits (sweep t)) u w → w < length slices).
  { intros u w (h & Hh & <- & _). destruct (hit_bounds _ _ _ (found_columns _ _ _ _ _ F) (found_hits _ _ _ _ _ F) h Hh) as (_ & _ & ? & _). done. }
  assert (Hreach : ∀ u w, u < length slices → w < length slices →
    rtc (edge (arcs (emission t))) u w ↔ rtc (reads slices probes) u w).
  { intros u w Hu Hw. rewrite (emitted_reach _ _ _ _ M u w Hu Hw). by apply rtc_reads. }
  split.
  - intros u Hu. apply Hall. lia.
  - intros u w Hu Hw. rewrite (Hscc u w ltac:(lia) ltac:(lia)), !Hreach by done. done.
  - intros u w k k' Hu Hr Hk Hk'. pose proof (reads_reader _ _ _ _ Hok Hr) as [_ Hw].
    apply (decomposition_down _ _ _ u w k k' D (emitted_arcs _ _ _ _ M)); [|lia|done|done]. apply Hreach; [done|done|by apply rtc_once].
  - intros u Hu. rewrite <- Hiff by done. destruct (emitted_selfdep _ _ _ _ M u Hu) as [[Hc ->]|[Hc ->]]; [done|]. by split.
Qed.

Section topology.
Context {S X : Type} (checkpoint : S → Z → X + S) (alloc : nat → nat → Z → bool).
Context (slices : list Slice) (probes : list Probe) (scratch arc_limit discovery : option Z) (Htyped : typed slices probes).

(** What is left of the limit when [held] bytes are live. *)
Definition left (held : Z) : option Z := (λ l, l - held)%Z <$> scratch.

(** An error of the stage. *)
Definition topology_errs (e : TopologyError X) : Prop :=
  match e with
  | TopologyAuthority e => refused scratch e
  | TopologySweep e => sweep_errs checkpoint scratch discovery (¬ sweep_input slices probes) e
  | TopologyEmit (EmitAuthority e) => ∃ held, refused (left held) e
  | TopologyEmit (EmitRuntime x) => raised checkpoint x
  | TopologyEmit (SuperLinearWork c l _) => arc_limit = Some l ∧ (l < c)%Z
  | TopologyGraph (Authority e) => ∃ held, refused (left held) e
  | TopologyGraph (Runtime x) => raised checkpoint x
  | _ => False
  end.

Lemma remaining_yields held : yields scratch (remaining scratch held) (λ r, r = left held ∧ ∀ l, scratch = Some l → (held ≤ l)%Z).
Proof.
  unfold remaining, left. destruct scratch as [l|] eqn:E; [|done]. destruct (Z.leb_spec held l); [by split; [|intros l' [= <-]]|].
  exists held. right. by exists l.
Qed.

(** What a finished stage promises. *)
Definition topology_ok (r : Topology * S) : Prop :=
  let t := r.1 in
  sweep_input slices probes ∧
  found slices probes (columns (sweep t)) (hits (sweep t)) (ArcSweep.probes (sweep t)) ∧
  emitted (length slices) (columns (sweep t)) (hits (sweep t)) (emission t) ∧
  graph_of (graph t) (emitted_nodes (emission t)) (arcs (emission t)) ∧
  decomposition (emitted_nodes (emission t)) (arcs (emission t)) (components t) ∧
  classified slices probes t ∧
  charged (length slices) (length probes) t ∧
  ∀ l, scratch = Some l → (topology_peak t ≤ l)%Z.

Definition topology_post (r : result (TopologyError X) (Topology * S)) : Prop :=
  match r with Ok a => topology_ok a | Err e => topology_errs e | Panic => False end.

Lemma topology_authority {A} (r : result AuthorityError A) (f : A → result (TopologyError X) (Topology * S)) P :
  yields scratch r P → (∀ a, P a → topology_post (f a)) → topology_post (map_err TopologyAuthority r ≫= f).
Proof. destruct r as [a|e|]; cbn; auto. Qed.

Lemma topology_run s : topology_post (topology_controlled checkpoint alloc slices probes scratch arc_limit discovery s).
Proof.
  unfold topology_controlled.
  pose proof (sweep_result checkpoint (alloc 0) slices probes scratch discovery Htyped s) as H.
  destruct (sweep_controlled _ _ _ _ _ _ _) as [[sw s1]|e|]; [|done..]. destruct H as (Hin & F & W). cbn [map_err mbind result_bind].
  pose proof (within_limit _ _ _ _ _ _ _ _ W) as Hsw.
  eapply topology_authority; [apply remaining_yields|]. intros l1 [El1 Hl1].
  pose proof (emit_result checkpoint (alloc 1) (length slices) (columns sw) (hits sw) l1 arc_limit s1) as H.
  destruct (emit_controlled _ _ _ _ _ _ _ _) as [[em s2]|e|]; [| |done].
  2: { subst l1. destruct e; cbn in *; eauto. apply H. split; apply F. }
  destruct H as [M C]. cbn [map_err mbind result_bind]. pose proof (accounted_scratch _ _ _ _ _ _ C) as Hem.
  do 2 (eapply topology_authority; [apply add_yields|]; intros ? ->). eapply topology_authority; [apply remaining_yields|]. intros l2 [El2 Hl2].
  pose proof (build_result checkpoint (alloc 2) (emitted_nodes em) (arcs em) l2 s2) as H.
  destruct (build_controlled _ _ _ _ _ _) as [[g s3]|e|]; [| |done].
  2: { subst. destruct e; cbn in *; [by eexists; eexists|done|]. apply H. apply M. }
  destruct H as (G & _ & Hgp & Hg). cbn [map_err mbind result_bind].
  do 2 (eapply topology_authority; [apply add_yields|]; intros ? ->). eapply topology_authority; [apply remaining_yields|]. intros l3 [El3 Hl3].
  pose proof (components_result checkpoint (alloc 3) g _ _ l3 s3 G) as H.
  destruct (components_controlled _ _ _ _ _) as [[c s4]|e|]; [| |done].
  2: { subst. destruct e; cbn in *; [by eexists; eexists|done|done]. }
  destruct H as (D & _ & Hcp & Hc & Hn). cbn [map_err mbind result_bind].
  eapply topology_authority; [apply add_yields|]; intros ? ->. cbn [topology_post].
  split_and!; cbn; [done..|by apply stages_classified| |].
  { split; cbn; [by apply (within_peak _ _ _ _ _ _ _ _ W)|by apply (accounted_peak _ _ _ _ _ _ C)|done|done|lia|].
    unfold topology_heap, components_heap. cbn. rewrite Hn, Hcp. lia. }
  intros l Hl.
  unfold left in *. rewrite Hl in El1, El2, El3. subst l1 l2 l3.
  specialize (Hl1 l Hl). specialize (Hl2 l Hl). specialize (Hl3 l Hl).
  specialize (Hsw l Hl). specialize (Hem _ eq_refl). specialize (Hg _ eq_refl). specialize (Hc _ eq_refl). lia.
Qed.

(** C22: the whole topology stage, on pieces and probes whose numbers fit their types.  It never panics.  When it succeeds, the input was well
    formed, and the components of its graph classify the pieces: two pieces share a component
    exactly when each reads the other through a chain of probes, the components are numbered
    against the chains, and the readers of themselves are marked.  Its peak is the largest of what
    each of the four stages needs (given exactly by the sizes of the input and of the outputs) plus
    the outputs of all the stages before it, so every output is charged as long as it is live; the
    outputs together are not more than the peak, and the peak is under the limit.  The later stages
    never see an input they reject: what the sweep finds is an input of the emission, and what the
    emission gives is a graph.  Otherwise the input was not well formed, or the caller, the allocator
    or a limit stopped it. *)
Theorem topology_exact s :
  match topology_controlled checkpoint alloc slices probes scratch arc_limit discovery s with
  | Ok (t, _) => sweep_input slices probes ∧
      found slices probes (columns (sweep t)) (hits (sweep t)) (ArcSweep.probes (sweep t)) ∧
      emitted (length slices) (columns (sweep t)) (hits (sweep t)) (emission t) ∧
      graph_of (graph t) (emitted_nodes (emission t)) (arcs (emission t)) ∧
      decomposition (emitted_nodes (emission t)) (arcs (emission t)) (components t) ∧
      classified slices probes t ∧
      charged (length slices) (length probes) t ∧
      ∀ l, scratch = Some l → (topology_peak t ≤ l)%Z
  | Err e => topology_errs e
  | Panic => False
  end.
Proof.
  pose proof (topology_run s) as H. by destruct (topology_controlled _ _ _ _ _ _ _ _) as [[t s']|e|].
Qed.
End topology.

Lemma cyclic_typed : typed cyclic_slices cyclic_probes.
Proof. by repeat first [split | constructor]. Qed.

Lemma topology_exact_witness : typed cyclic_slices cyclic_probes ∧
  ∃ t s, topology_controlled never (λ _ _ _, true) cyclic_slices cyclic_probes None None None () = Ok (t, s) ∧
    classified cyclic_slices cyclic_probes t.
Proof.
  split; [apply cyclic_typed|].
  pose proof (topology_exact never (λ _ _ _, true) cyclic_slices cyclic_probes None None None cyclic_typed ()) as H.
  destruct (topology_controlled never (λ _ _ _, true) cyclic_slices cyclic_probes None None None ()) as [[t s]|e|] eqn:E;
    [|vm_compute in E; discriminate..].
  exists t, s. split; [reflexivity|]. apply H.
Defined.
