(* ===== verification/Schedule.v ===== *)
(** [Layer] and [Schedule] of [engine/scheduler.rs]: the order in which the executor evaluates
    vertices.  Family runs are index ranges of a layer's vertices, [u32] sums of them are
    checked for overflow, as in a debug build: [Panic]. *)
From S2P Require Import Prelude Coords IdSet.

Abbreviation VertexId := Z (only parsing).

Record LayerRun : Type := { r_start : Z; r_len : Z; r_sheet : Z; r_col : Z; r_row0 : Z; r_owner : Z }.
Record Layer : Type := { vertices : list VertexId; runs : list LayerRun; sequential : bool }.

#[export] Instance LayerRun_eq_dec : EqDecision LayerRun.
Proof. solve_decision. Defined.
#[export] Instance Layer_eq_dec : EqDecision Layer.
Proof. solve_decision. Defined.

Definition new (vs : list VertexId) : Layer := {| vertices := vs; runs := []; sequential := false |}.

Definition sub_usize (a b : nat) : result Empty_set nat := if (b <=? a)%nat then Ok (a - b) else Panic.

(** [partition_point] of the standard library, on a slice that is partitioned by [p]. *)
Fixpoint partition_point {A} (p : A → result Empty_set bool) (l : list A) : result Empty_set nat :=
  match l with
  | [] => Ok 0
  | x :: l => b ← p x; if b : bool then n ← partition_point p l; Ok (n + 1) else Ok 0
  end.

(** * [Layer::sub_layer] *)

Definition run_end (r : LayerRun) : result Empty_set nat := Z.to_nat <$> add_u32 (r_start r) (r_len r).

Definition clip (lo hi : nat) (r : LayerRun) : result Empty_set LayerRun :=
  let s := Z.to_nat (r_start r) `max` lo in
  stop ← run_end r;
  let e := stop `min` hi in
  start ← sub_usize s lo;
  len ← sub_usize e s;
  skipped ← sub_usize s (Z.to_nat (r_start r));
  row0 ← add_u32 (r_row0 r) (as_u32 (Z.of_nat skipped));
  Ok {| r_start := as_u32 (Z.of_nat start); r_len := as_u32 (Z.of_nat len); r_sheet := r_sheet r; r_col := r_col r;
        r_row0 := row0; r_owner := r_owner r |}.

(** [take_while(..).map(..)]. *)
Fixpoint clip_while (lo hi : nat) (rs : list LayerRun) : result Empty_set (list LayerRun) :=
  match rs with
  | [] => Ok []
  | r :: rs =>
      if (Z.to_nat (r_start r) <? hi)%nat then r ← clip lo hi r; rs ← clip_while lo hi rs; Ok (r :: rs) else Ok []
  end.

Definition ends_before (lo : nat) (r : LayerRun) : result Empty_set bool := stop ← run_end r; Ok (stop <=? lo)%nat.

Definition sub_layer (l : Layer) (lo hi : nat) : result Empty_set Layer :=
  first ← partition_point (ends_before lo) (runs l);
  runs ← clip_while lo hi (drop first (runs l));
  vertices ← vec_slice (vertices l) lo hi;
  Ok {| vertices := vertices; runs := runs; sequential := sequential l |}.

(** * [Schedule] *)

Inductive ScheduleUnit : Type := LayerUnit (i : Z) | CycleUnit (i : Z).

Record Schedule : Type := { units : list ScheduleUnit; cycles : list (list VertexId); layers : list Layer }.

(** [debug_assert!(cycles.is_empty())]. *)
Definition from_parts (ls : list Layer) (cs : list (list VertexId)) : result Empty_set Schedule :=
  if bool_decide (cs = [])
  then Ok {| units := (λ i, LayerUnit (Z.of_nat i)) <$> seq 0 (Z.to_nat (as_u32 (Z.of_nat (length ls)))); cycles := cs; layers := ls |}
  else Panic.

Definition unit_layer (s : Schedule) (i : Z) : result Empty_set Layer := vec_get (layers s) (Z.to_nat i).
Definition unit_cycle (s : Schedule) (i : Z) : result Empty_set (list VertexId) := vec_get (cycles s) (Z.to_nat i).

(** * [Schedule::restrict] *)

(** [if let Some(r) = open.take().filter(|r| r.len >= 2) { runs.push(r) }]. *)
Definition close (open : option LayerRun) (rs : list LayerRun) : list LayerRun :=
  match open with
  | Some r => if (2 <=? r_len r)%Z then rs ++ [r] else rs
  | None => rs
  end.

Record Members : Type := { m_vertices : list VertexId; m_runs : list LayerRun; m_open : option LayerRun }.

(** A kept member of a run. *)
Definition keep_member (run : LayerRun) (k : nat) (v : VertexId) (m : Members) : result Empty_set Members :=
  row ← add_u32 (r_row0 run) (as_u32 (Z.of_nat k));
  let fresh := {| r_start := as_u32 (Z.of_nat (length (m_vertices m))); r_len := 1; r_sheet := r_sheet run; r_col := r_col run;
                  r_row0 := row; r_owner := r_owner run |} in
  let opened := {| m_vertices := m_vertices m ++ [v]; m_runs := close (m_open m) (m_runs m); m_open := Some fresh |} in
  match m_open m with
  | Some r =>
      stop ← add_u32 (r_row0 r) (r_len r);
      if (stop =? row)%Z then
        len ← add_u32 (r_len r) 1;
        Ok {| m_vertices := m_vertices m ++ [v]; m_runs := m_runs m;
              m_open := Some {| r_start := r_start r; r_len := len; r_sheet := r_sheet r; r_col := r_col r;
                                r_row0 := r_row0 r; r_owner := r_owner r |} |}
      else Ok opened
  | None => Ok opened
  end.

Fixpoint keep_members (keep : DenseIdSet) (run : LayerRun) (k : nat) (vs : list VertexId) (m : Members) : result Empty_set Members :=
  match vs with
  | [] => Ok m
  | v :: vs =>
      m ← (if contains keep v then keep_member run k v m
           else Ok {| m_vertices := m_vertices m; m_runs := close (m_open m) (m_runs m); m_open := None |});
      keep_members keep run (k + 1) vs m
  end.

(** A step takes a vertex or a run. *)
Fixpoint keep_loop (fuel : nat) (keep : DenseIdSet) (l : Layer) (next_run idx : nat) (vs : list VertexId) (rs : list LayerRun)
  : result Empty_set (list VertexId * list LayerRun) :=
  if negb (idx <? length (vertices l))%nat then Ok (vs, rs)
  else match fuel with
       | O => Panic
       | S fuel =>
           let vertex :=
             v ← vec_get (vertices l) idx;
             keep_loop fuel keep l next_run (idx + 1) (if contains keep v then vs ++ [v] else vs) rs in
           match runs l !! next_run with
           | Some run =>
               if (Z.to_nat (r_start run) =? idx)%nat then
                 let stop := idx + Z.to_nat (r_len run) in
                 members ← vec_slice (vertices l) idx stop;
                 m ← keep_members keep run 0 members {| m_vertices := vs; m_runs := rs; m_open := None |};
                 keep_loop fuel keep l (next_run + 1) stop (m_vertices m) (close (m_open m) (m_runs m))
               else vertex
           | None => vertex
           end
       end.

Definition keep_layer (keep : DenseIdSet) (l : Layer) : result Empty_set Layer :=
  '(vs, rs) ← keep_loop (length (vertices l) + length (runs l)) keep l 0 0 [] [];
  Ok {| vertices := vs; runs := rs; sequential := sequential l |}.

Definition push_layer (s : Schedule) (l : Layer) : Schedule :=
  {| units := units s ++ [LayerUnit (as_u32 (Z.of_nat (length (layers s))))]; cycles := cycles s; layers := layers s ++ [l] |}.
Definition push_cycle (s : Schedule) (c : list VertexId) : Schedule :=
  {| units := units s ++ [CycleUnit (as_u32 (Z.of_nat (length (cycles s))))]; cycles := cycles s ++ [c]; layers := layers s |}.

Fixpoint restrict_units (keep : DenseIdSet) (s : Schedule) (us : list ScheduleUnit) (out : Schedule) (kept : nat)
  : result Empty_set (option (Schedule * nat)) :=
  match us with
  | [] => Ok (Some (out, kept))
  | LayerUnit i :: us =>
      layer ← unit_layer s i;
      layer ← keep_layer keep layer;
      match vertices layer with
      | [] => restrict_units keep s us out kept
      | _ => restrict_units keep s us (push_layer out layer) (kept + length (vertices layer))
      end
  | CycleUnit i :: us =>
      cycle ← unit_cycle s i;
      let n := length (filter (λ v, contains keep v) cycle) in
      if (n =? 0)%nat then restrict_units keep s us out kept
      else if negb (n =? length cycle)%nat then Ok None
      else restrict_units keep s us (push_cycle out cycle) (kept + n)
  end.

Definition restrict (s : Schedule) (keep : DenseIdSet) : result Empty_set (option (Schedule * nat)) :=
  restrict_units keep s (units s) {| units := []; cycles := []; layers := [] |} 0.

(** ** Examples *)

Definition sample_run : LayerRun := {| r_start := 1; r_len := 5; r_sheet := 0; r_col := 2; r_row0 := 10; r_owner := 7 |}.
Definition sample_schedule : Schedule :=
  {| units := [LayerUnit 0; CycleUnit 0; LayerUnit 1]; cycles := [[20; 21]];
     layers := [{| vertices := [1; 2; 3; 4; 5; 6; 7]; runs := [sample_run]; sequential := false |}; new [30; 31]] |}%Z.

(** The run of rows 10 to 14 loses row 12. *)
Example small_restrict :
  (keep ← extend default [1; 2; 3; 5; 6; 7; 20; 21]%Z; restrict sample_schedule keep)
  = Ok (Some ({| units := [LayerUnit 0; CycleUnit 0]; cycles := [[20; 21]%Z];
       layers := [{| vertices := [1; 2; 3; 5; 6; 7]%Z;
         runs := [{| r_start := 1; r_len := 2; r_sheet := 0; r_col := 2; r_row0 := 10; r_owner := 7 |};
                  {| r_start := 3; r_len := 2; r_sheet := 0; r_col := 2; r_row0 := 13; r_owner := 7 |}]; sequential := false |}] |}, 8)).
Proof. vm_compute. reflexivity. Qed.

Example small_restrict_none : (keep ← extend default [1; 20]%Z; restrict sample_schedule keep) = Ok None.
Proof. vm_compute. reflexivity. Qed.

Example small_sub_layer :
  sub_layer {| vertices := [1; 2; 3; 4; 5; 6; 7]%Z; runs := [sample_run]; sequential := false |} 2 5
  = Ok {| vertices := [3; 4; 5]%Z; runs := [{| r_start := 0; r_len := 3; r_sheet := 0; r_col := 2; r_row0 := 11; r_owner := 7 |}];
          sequential := false |}.
Proof. vm_compute. reflexivity. Qed.
