(* ===== verification/ScheduleTheorems.v ===== *)
(** The parts of a schedule: a layer cut to an interval of its vertices, and a schedule
    restricted to a set of vertices. *)
From S2P Require Import Prelude Coords IdSet Buckets Schedule.

(** * Layers *)

Definition run_stop (r : LayerRun) : Z := (r_start r + r_len r)%Z.

(** A run covers rows of a column, at positions of the layer. *)
Definition run_ok (n : nat) (r : LayerRun) : Prop :=
  (0 ≤ r_start r ∧ 1 ≤ r_len r ∧ run_stop r ≤ Z.of_nat n ∧ 0 ≤ r_row0 r ∧ r_row0 r + r_len r ≤ u32_max)%Z.

Definition runs_ok (n : nat) (rs : list LayerRun) : Prop :=
  StronglySorted (λ a b, (run_stop a ≤ r_start b)%Z) rs ∧ Forall (run_ok n) rs.

Definition layer_ok (l : Layer) : Prop := (Z.of_nat (length (vertices l)) ≤ u32_max)%Z ∧ runs_ok (length (vertices l)) (runs l).

Lemma runs_ok_snoc n m rs r : runs_ok n rs → (Z.of_nat n ≤ r_start r)%Z → run_ok m r → n ≤ m → runs_ok m (rs ++ [r]).
Proof.
  intros [Hs Hf] Hn Hr Hm. split.
  - apply StronglySorted_app. split_and!; [|done|by repeat constructor]. intros a b Ha ->%list_elem_of_singleton.
    rewrite Forall_forall in Hf. destruct (Hf a Ha) as (_ & _ & ? & _). lia.
  - apply Forall_app. split; [|by constructor]. eapply Forall_impl; [exact Hf|]. unfold run_ok. cbn. lia.
Qed.

Lemma runs_ok_weaken n m rs : runs_ok n rs → n ≤ m → runs_ok m rs.
Proof. intros [Hs Hf] Hm. split; [done|]. eapply Forall_impl; [exact Hf|]. unfold run_ok. cbn. lia. Qed.

Lemma sub_usize_ok a b : b ≤ a → sub_usize a b = Ok (a - b).
Proof. intros H. unfold sub_usize. by rewrite (proj2 (Nat.leb_le _ _)) by done. Qed.

(** * [sub_layer] *)

Definition clipped (lo hi : nat) (r : LayerRun) : LayerRun :=
  let s := Z.max (r_start r) (Z.of_nat lo) in
  {| r_start := s - Z.of_nat lo; r_len := Z.min (run_stop r) (Z.of_nat hi) - s; r_sheet := r_sheet r; r_col := r_col r;
     r_row0 := r_row0 r + (s - r_start r); r_owner := r_owner r |}%Z.

Definition touches (lo hi : nat) (r : LayerRun) : Prop := (Z.of_nat lo < run_stop r ∧ r_start r < Z.of_nat hi)%Z.
#[export] Instance touches_dec lo hi r : Decision (touches lo hi r).
Proof. unfold touches. apply _. Defined.

Section sub_layer.
Context (l : Layer) (Hl : layer_ok l) (lo hi : nat) (Hlo : lo ≤ hi) (Hhi : hi ≤ length (vertices l)).

Lemma run_end_ok r : run_ok (length (vertices l)) r → run_end r = Ok (Z.to_nat (run_stop r)).
Proof.
  destruct Hl as [Hn _]. unfold run_ok, run_stop. intros Hr. unfold run_end. rewrite add_u32_ok by lia. done.
Qed.

Lemma clip_ok r : run_ok (length (vertices l)) r → touches lo hi r → clip lo hi r = Ok (clipped lo hi r).
Proof.
  intros Hr Ht. pose proof Hl as [Hn _]. pose proof (run_end_ok r Hr) as He. unfold run_ok, touches in *. unfold clip. rewrite He. cbn [mbind result_bind].
  unfold run_stop in *. rewrite sub_usize_ok by lia. cbn [mbind result_bind]. rewrite sub_usize_ok by lia. cbn [mbind result_bind].
  rewrite sub_usize_ok by lia. cbn [mbind result_bind]. rewrite !as_u32_nat by lia. rewrite add_u32_ok by lia. cbn [mbind result_bind].
  unfold clipped, run_stop. do 2 f_equal; lia.
Qed.

Lemma clipped_ok r : lo < hi → run_ok (length (vertices l)) r → touches lo hi r → run_ok (hi - lo) (clipped lo hi r).
Proof. unfold run_ok, touches, clipped, run_stop. cbn. lia. Qed.

Lemma clip_while_ok rs : runs_ok (length (vertices l)) rs → Forall (λ r, (Z.of_nat lo < run_stop r)%Z) rs →
  clip_while lo hi rs = Ok (clipped lo hi <$> filter (touches lo hi) rs).
Proof.
  intros [Hs Hf] Hb. induction rs as [|r rs IH]; cbn [clip_while]; [done|].
  apply StronglySorted_inv in Hs as [Hs Hr]. apply Forall_cons in Hf as [Hrok Hf], Hb as [Hrb Hb]. specialize (IH Hs Hf Hb).
  rewrite filter_cons. destruct (Nat.ltb_spec (Z.to_nat (r_start r)) hi) as [Hlt|Hge].
  - assert (Ht : touches lo hi r) by (unfold touches; destruct Hrok; lia). rewrite clip_ok by done. cbn [mbind result_bind]. rewrite IH.
    cbn [mbind result_bind]. by rewrite decide_True.
  - rewrite decide_False by (unfold touches; destruct Hrok; lia). rewrite filter_none; [done|]. intros r' Hin [_ Ht].
    rewrite Forall_forall in Hr. specialize (Hr r' Hin). destruct Hrok as (? & ? & _). unfold run_stop in Hr. lia.
Qed.

Lemma first_ok rs : runs_ok (length (vertices l)) rs → ∃ first, partition_point (ends_before lo) rs = Ok first ∧
  Forall (λ r, (Z.of_nat lo < run_stop r)%Z) (drop first rs) ∧ filter (touches lo hi) (drop first rs) = filter (touches lo hi) rs.
Proof.
  intros [Hs Hf]. induction rs as [|r rs IH]; cbn [partition_point]; [by exists 0|].
  pose proof Hs as [Hs' Hr]%StronglySorted_inv. pose proof Hf as [Hrok Hf']%Forall_cons. 
  assert (ends_before lo r = Ok (Z.to_nat (run_stop r) <=? lo)%nat) as -> by (unfold ends_before; by rewrite run_end_ok).
  cbn [mbind result_bind]. destruct (Nat.leb_spec (Z.to_nat (run_stop r)) lo) as [Hle|Hgt].
  - destruct (IH Hs' Hf') as (first & -> & Hd & He). cbn [mbind result_bind]. exists (first + 1). split; [done|]. rewrite Nat.add_1_r. cbn [drop].
    split; [done|]. rewrite filter_cons, decide_False; [done|]. unfold touches. destruct Hrok as (? & ? & _). unfold run_stop in *. lia.
  - exists 0. split; [done|]. split; [|done]. constructor; [lia|]. rewrite Forall_forall in Hr, Hf'. apply Forall_forall. intros r' Hin.
    specialize (Hr r' Hin). destruct (Hf' r' Hin) as (_ & ? & _). unfold run_stop in *. lia.
Qed.

Lemma sub_layer_result : sub_layer l lo hi = Ok {| vertices := take (hi - lo) (drop lo (vertices l));
    runs := clipped lo hi <$> filter (touches lo hi) (runs l); sequential := sequential l |}.
Proof.
  unfold sub_layer. destruct Hl as [Hn Hr]. destruct (first_ok (runs l) Hr) as (first & -> & Hd & He). cbn [mbind result_bind].
  rewrite clip_while_ok; [|destruct Hr; split; [|by apply Forall_drop]; apply (StronglySorted_app_1_r _ (take first (runs l))); by rewrite take_drop|done]. cbn [mbind result_bind].
  rewrite vec_slice_ok by lia. cbn [mbind result_bind]. by rewrite He.
Qed.
End sub_layer.

(** * The members of a layer that are kept *)

Section keep.
Context (keep : DenseIdSet) (vs : list VertexId).

Definition kept (v : VertexId) : Prop := contains keep v.
Definition kept_at (p : nat) : Prop := ∃ v, vs !! p = Some v ∧ kept v.

(** Where a position goes. *)
Definition rank (p : nat) : nat := length (filter kept (take p vs)).

(** Kept positions of a run without a gap, from the first one. *)
Record segment (r : LayerRun) (a b : nat) : Prop := {
  segment_range : Z.to_nat (r_start r) ≤ a ∧ a < b ∧ b ≤ Z.to_nat (run_stop r);
  segment_kept p : a ≤ p < b → kept_at p;
  segment_first : a = Z.to_nat (r_start r) ∨ ¬ kept_at (a - 1)
}.

Definition segment_run (r : LayerRun) (a b : nat) : LayerRun :=
  {| r_start := Z.of_nat (rank a); r_len := Z.of_nat (b - a); r_sheet := r_sheet r; r_col := r_col r;
     r_row0 := r_row0 r + (Z.of_nat a - r_start r); r_owner := r_owner r |}%Z.

(** The runs that are left of [r] before position [q]: its maximal segments of two or more. *)
Definition left_of (r : LayerRun) (q : nat) (x : LayerRun) : Prop :=
  ∃ a b, a + 2 ≤ b ∧ b < q ∧ segment r a b ∧ (b = Z.to_nat (run_stop r) ∨ ¬ kept_at b) ∧ x = segment_run r a b.

Lemma rank_succ p v : vs !! p = Some v → rank (S p) = rank p + (if decide (kept v) then 1 else 0).
Proof.
  intros Hv. unfold rank. rewrite (take_S_r _ _ _ Hv), filter_app, length_app, filter_cons, filter_nil. by case_decide.
Qed.

Lemma rank_kept p : kept_at p → rank (S p) = rank p + 1.
Proof. intros (v & Hv & Hk). rewrite (rank_succ _ _ Hv). by rewrite decide_True. Qed.

Lemma rank_mono p q : p ≤ q → rank p ≤ rank q.
Proof.
  induction 1 as [|q _ IH]; [done|]. destruct (vs !! q) as [v|] eqn:E; [rewrite (rank_succ _ _ E); lia|].
  unfold rank in *. apply lookup_ge_None in E. rewrite (take_ge _ (S q)), (take_ge _ q) in * by lia. done.
Qed.

Lemma rank_segment r a b : segment r a b → rank b = rank a + (b - a).
Proof.
  intros [Hr Hk _]. assert (H : ∀ n, a + n ≤ b → rank (a + n) = rank a + n).
  { induction n as [|n IH]; intros Hn; [by rewrite !Nat.add_0_r|]. rewrite Nat.add_succ_r, rank_kept by (apply Hk; lia). rewrite IH; lia. }
  replace b with (a + (b - a)) at 1 by lia. apply H. lia.
Qed.

Lemma rank_le p : rank p ≤ p.
Proof. unfold rank. pose proof (length_filter kept (take p vs)). rewrite length_take in *. lia. Qed.

Lemma segment_extend r a p : segment r a p → kept_at p → S p ≤ Z.to_nat (run_stop r) → segment r a (S p).
Proof.
  intros [Hr Hk Hf] Hp Hle. split; [lia| |done]. intros q Hq. destruct (decide (q = p)) as [->|]; [done|]. apply Hk. lia.
Qed.

(** Two segments that end at the same place are the same. *)
Lemma segment_unique r a a' b : segment r a b → segment r a' b → a = a'.
Proof.
  assert (H : ∀ a a', segment r a b → segment r a' b → a ≤ a').
  { clear. intros a a' [Hr Hk Hf] [Hr' Hk' Hf']. destruct (decide (a ≤ a')) as [|Hlt]; [done|]. destruct Hf as [E|Hn]; [lia|].
    destruct Hn. apply Hk'. lia. }
  intros H1 H2. pose proof (H _ _ H1 H2). pose proof (H _ _ H2 H1). lia.
Qed.

Section run.
Context (r : LayerRun) (Hrun : run_ok (length vs) r) (Hlen : (Z.of_nat (length vs) ≤ u32_max)%Z) (rs0 : list LayerRun).
Abbreviation first := (Z.to_nat (r_start r)).
Abbreviation stop := (Z.to_nat (run_stop r)).

(** The members before position [p] are done. *)
Definition members_ok (p : nat) (m : Members) : Prop :=
  m_vertices m = filter kept (take p vs) ∧ (∀ x, x ∈ m_runs m ↔ x ∈ rs0 ∨ left_of r p x) ∧
  match m_open m with
  | Some o => ∃ a, segment r a p ∧ o = segment_run r a p ∧ runs_ok (rank a) (m_runs m)
  | None => (p = first ∨ ¬ kept_at (p - 1)) ∧ runs_ok (rank p) (m_runs m)
  end.

Lemma segment_run_ok a b : segment r a b → run_ok (rank b) (segment_run r a b).
Proof.
  intros Hs. pose proof (rank_segment _ _ _ Hs). destruct Hs as [Hr _ _]. unfold run_ok, segment_run, run_stop in *. cbn. lia.
Qed.

Lemma close_ok p m : members_ok p m → p ≤ stop → p = stop ∨ ¬ kept_at p →
  (∀ x, x ∈ close (m_open m) (m_runs m) ↔ x ∈ rs0 ∨ left_of r (p + 1) x) ∧ runs_ok (rank p) (close (m_open m) (m_runs m)).
Proof.
  intros (_ & Hm & Ho) Hp Hend. assert (Hsplit : ∀ x, left_of r (p + 1) x ↔ left_of r p x ∨ ∃ a, a + 2 ≤ p ∧ segment r a p ∧ x = segment_run r a p).
  { intros x. split.
    - intros (a & b & Hab & Hb & Hs & He & Hx). destruct (decide (b = p)) as [->|]; [right; eauto|left]. exists a, b. split_and!; try done. lia.
    - intros [(a & b & Hab & Hb & Hs & He & Hx)|(a & Hab & Hs & Hx)]; [exists a, b|exists a, p]; split_and!; try done; lia. }
  destruct (m_open m) as [o|]; cbn [close].
  - destruct Ho as (a & Hs & -> & Hr). pose proof (segment_range _ _ _ Hs) as Hrange.
    destruct (Z.leb_spec 2 (r_len (segment_run r a p))) as [H2|H2]; cbn [segment_run r_len] in H2.
    + split.
      * intros x. rewrite elem_of_app, list_elem_of_singleton, Hm, Hsplit. split; [intros [[?|?]| ->]; eauto|].
        { right. right. exists a. split; [lia|done]. }
        intros [?|[?|(a' & _ & Hs' & ->)]]; [auto|auto|]. by rewrite (segment_unique _ _ _ _ Hs Hs') in *; right.
      * apply (runs_ok_snoc (rank a)); [done|done|by apply segment_run_ok|]. apply rank_mono. lia.
    + split; [|apply (runs_ok_weaken (rank a)); [done|apply rank_mono; lia]]. intros x. rewrite Hm, Hsplit. split; [naive_solver|].
      intros [?|[?|(a' & Ha' & Hs' & _)]]; [auto|auto|]. rewrite (segment_unique _ _ _ _ Hs Hs') in *. lia.
  - destruct Ho as [Hn Hr]. split; [|done]. intros x. rewrite Hm, Hsplit. split; [naive_solver|].
    intros [?|[?|(a & Ha & [Hrg Hk _] & _)]]; [auto|auto|]. destruct Hn as [->|Hn]; [lia|]. destruct Hn. apply Hk. lia.
Qed.

(** Nothing ends before a kept position. *)
Lemma left_of_kept p x : kept_at p → p < stop → left_of r (p + 1) x ↔ left_of r p x.
Proof.
  intros Hk Hp. split; intros (a & b & Hab & Hb & Hs & He & Hx); exists a, b; split_and!; try done; [|lia].
  destruct (decide (b = p)) as [->|]; [|lia]. by destruct He as [->|He]; [lia|].
Qed.

Lemma keep_member_ok p v m : first ≤ p < stop → vs !! p = Some v → kept v → members_ok p m →
  ∃ m', keep_member r (p - first) v m = Ok m' ∧ members_ok (p + 1) m'.
Proof.
  intros Hp Hv Hk Hm. pose proof Hrun as (H0 & H1 & H2 & H3 & H4). unfold run_stop in *.
  assert (Hkp : kept_at p) by by exists v. pose proof Hm as (Hvs & Hrs & Ho).
  assert (Hl : length (m_vertices m) = rank p) by by rewrite Hvs. pose proof (rank_le p) as Hrk. pose proof (lookup_lt_Some _ _ _ Hv) as Hlt.
  assert (Hnext : m_vertices m ++ [v] = filter kept (take (p + 1) vs)).
  { rewrite Nat.add_1_r, (take_S_r _ _ _ Hv), filter_app, filter_cons_True, filter_nil, Hvs by done. done. }
  assert (Hrs' : ∀ x, x ∈ m_runs m ↔ x ∈ rs0 ∨ left_of r (p + 1) x) by (intros x; by rewrite Hrs, left_of_kept by (done || unfold run_stop; lia)).
  unfold keep_member. rewrite !as_u32_nat by lia. rewrite add_u32_ok by lia. cbn [mbind result_bind]. destruct (m_open m) as [o|].
  - destruct Ho as (a & Hs & -> & Hr). pose proof (segment_range _ _ _ Hs) as Hrange. unfold run_stop in Hrange.
    cbn [segment_run r_row0 r_len r_start r_sheet r_col r_owner]. rewrite (add_u32_ok (E := Empty_set) (_ + _)) by lia. cbn [mbind result_bind].
    rewrite (proj2 (Z.eqb_eq _ _)) by lia. rewrite add_u32_ok by lia. cbn [mbind result_bind]. eexists. split; [done|].
    split; [done|]. split; [done|]. cbn [m_open m_runs]. exists a. split_and!; [|unfold segment_run; f_equal; lia|done].
    rewrite Nat.add_1_r. apply segment_extend; [done|done|unfold run_stop; lia].
  - destruct Ho as [Hn Hr]. eexists. split; [done|]. split; [done|]. split; [done|]. cbn [m_open m_runs]. exists p. split_and!; [|unfold segment_run; f_equal; lia|done].
    split; [unfold run_stop; lia| |done]. intros q Hq. by replace q with p by lia.
Qed.

Lemma keep_members_ok todo : ∀ p m, first ≤ p → p + length todo = stop → todo = take (length todo) (drop p vs) → members_ok p m →
  ∃ m', keep_members keep r (p - first) todo m = Ok m' ∧ members_ok stop m'.
Proof.
  induction todo as [|v todo IH]; intros p m Hp Hl Ht Hm; cbn [keep_members length] in *.
  { exists m. split; [done|]. by replace stop with p by lia. }
  assert (Hv : vs !! p = Some v).
  { rewrite <- (Nat.add_0_r p), <- lookup_drop, <- (lookup_take_lt _ (S (length todo))) by lia. by rewrite <- Ht. }
  assert (Ht' : todo = take (length todo) (drop (p + 1) vs)).
  { rewrite (drop_S _ _ _ Hv) in Ht. cbn in Ht. injection Ht as Ht. by rewrite Nat.add_1_r. }
  assert (Hstep : ∃ m', (if contains keep v then keep_member r (p - first) v m
      else Ok {| m_vertices := m_vertices m; m_runs := close (m_open m) (m_runs m); m_open := None |}) = Ok m' ∧ members_ok (p + 1) m').
  { destruct (contains keep v) eqn:E; [apply keep_member_ok; [lia|done|by unfold kept; rewrite E|done]|].
    assert (Hn : ¬ kept_at p) by (intros (w & Hw & Hk); simplify_eq; unfold kept in Hk; by rewrite E in Hk).
    destruct (close_ok p m Hm ltac:(lia) (or_intror Hn)) as [Hrs Hr]. eexists. split; [done|]. split; [|split; [done|]].
    - cbn. rewrite Nat.add_1_r, (take_S_r _ _ _ Hv), filter_app, filter_cons_False, filter_nil, app_nil_r by (unfold kept; rewrite E; by intros []). apply Hm.
    - cbn. split; [right; by rewrite Nat.add_sub|]. apply (runs_ok_weaken (rank p)); [done|apply rank_mono; lia]. }
  destruct Hstep as (m1 & -> & Hm1). cbn [mbind result_bind]. replace (p - first + 1) with (p + 1 - first) by lia.
  apply IH; [lia|lia|done|done].
Qed.
End run.

(** What is left of a run. *)
Definition run_left (r x : LayerRun) : Prop :=
  ∃ a b, a + 2 ≤ b ∧ segment r a b ∧ (b = Z.to_nat (run_stop r) ∨ ¬ kept_at b) ∧ x = segment_run r a b.

Lemma left_of_end r x : left_of r (Z.to_nat (run_stop r) + 1) x ↔ run_left r x.
Proof.
  split; intros (a & b & Hab & H); [exists a, b; tauto|]. destruct H as (Hs & H). exists a, b. pose proof (segment_range _ _ _ Hs).
  split_and!; [done|lia|done|tauto|tauto].
Qed.

(** The vertices before [idx] and the runs before [nr] are done. *)
Record loop_ok (rs : list LayerRun) (nr idx : nat) (ovs : list VertexId) (ors : list LayerRun) : Prop := {
  loop_vertices : ovs = filter kept (take idx vs);
  loop_runs x : x ∈ ors ↔ ∃ r, r ∈ take nr rs ∧ run_left r x;
  loop_order : runs_ok (rank idx) ors;
  loop_next r : r ∈ drop nr rs → idx ≤ Z.to_nat (r_start r);
  loop_range : idx ≤ length vs
}.

Lemma loop_vertex rs nr idx ovs ors v : loop_ok rs nr idx ovs ors → vs !! idx = Some v → (∀ r, r ∈ drop nr rs → idx < Z.to_nat (r_start r)) →
  loop_ok rs nr (idx + 1) (if contains keep v then ovs ++ [v] else ovs) ors.
Proof.
  intros [Hv Hr Ho Hn Hi] Hx Hnext. split.
  - rewrite Nat.add_1_r, (take_S_r _ _ _ Hx), filter_app, Hv, filter_cons, filter_nil. unfold kept.
    destruct (contains keep v); [by rewrite decide_True|]. by rewrite decide_False, app_nil_r by (by intros []).
  - done.
  - eapply runs_ok_weaken; [done|]. apply rank_mono. lia.
  - intros r Hin. specialize (Hnext r Hin). lia.
  - apply lookup_lt_Some in Hx. lia.
Qed.

Lemma loop_run rs nr idx ovs ors r : (Z.of_nat (length vs) ≤ u32_max)%Z → runs_ok (length vs) rs → loop_ok rs nr idx ovs ors → rs !! nr = Some r → Z.to_nat (r_start r) = idx →
  idx + Z.to_nat (r_len r) ≤ length vs ∧ ∃ m,
    keep_members keep r 0 (take (Z.to_nat (r_len r)) (drop idx vs)) {| m_vertices := ovs; m_runs := ors; m_open := None |} = Ok m ∧
    loop_ok rs (nr + 1) (idx + Z.to_nat (r_len r)) (m_vertices m) (close (m_open m) (m_runs m)).
Proof.
  intros Hlen [Hsorted Hall] [Hv Hr Ho Hn Hi] Hx Hidx. rewrite Forall_forall in Hall. pose proof (Hall r (list_elem_of_lookup_2 _ _ _ Hx)) as Hrun.
  pose proof Hrun as (H0 & H1 & H2 & _). assert (Hstop : Z.to_nat (run_stop r) = idx + Z.to_nat (r_len r)) by (unfold run_stop; lia).
  split; [lia|].
  destruct (keep_members_ok r Hrun Hlen ors (take (Z.to_nat (r_len r)) (drop idx vs)) idx {| m_vertices := ovs; m_runs := ors; m_open := None |})
    as (m & Hk & Hm).
  { lia. } { rewrite length_take, length_drop. lia. } { rewrite length_take, length_drop. f_equal. lia. }
  { split; [done|]. split; [|split; [by left|done]]. intros x. split; [by left|]. intros [?|(a & b & Hab & Hb & Hs & _)]; [done|].
    pose proof (segment_range _ _ _ Hs). lia. }
  exists m. rewrite Hidx, Nat.sub_diag in Hk. split; [done|]. destruct (close_ok r Hrun ors _ m Hm ltac:(done) (or_introl eq_refl)) as [Hc Hc'].
  rewrite Hstop in *. split; [apply Hm| |done| |lia].
  - intros x. rewrite Hc, <- Hstop, left_of_end, Hr, Nat.add_1_r, (take_S_r _ _ _ Hx). setoid_rewrite elem_of_app.
    setoid_rewrite list_elem_of_singleton. naive_solver.
  - intros r' Hin. rewrite Nat.add_1_r in Hin. rewrite <- (take_drop_middle _ _ _ Hx) in Hsorted.
    apply StronglySorted_app_1_r, StronglySorted_inv in Hsorted as [_ Hs]. rewrite Forall_forall in Hs. specialize (Hs r' Hin).
    unfold run_stop in *. lia.
Qed.

Lemma keep_loop_ok l fuel : vs = vertices l → layer_ok l → ∀ nr idx ovs ors, length vs - idx ≤ fuel → loop_ok (runs l) nr idx ovs ors →
  ∃ ovs' ors' nr', keep_loop fuel keep l nr idx ovs ors = Ok (ovs', ors') ∧ loop_ok (runs l) nr' (length vs) ovs' ors'.
Proof.
  intros Evs [Hlen Hruns]. rewrite <- Evs in Hlen, Hruns. induction fuel as [|fuel IH]; intros nr idx ovs ors Hf Hl; cbn [keep_loop]; rewrite <- Evs;
    pose proof (loop_range _ _ _ _ _ Hl) as Hi; destruct (Nat.ltb_spec idx (length vs)) as [Hlt|Hge]; cbn [negb]; try lia;
    try (exists ovs, ors, nr; split; [done|by replace (length vs) with idx by lia]).
  destruct (lookup_lt_is_Some_2 vs idx Hlt) as [v Hv].
  assert (Hvertex : (∀ r, r ∈ drop nr (runs l) → idx < Z.to_nat (r_start r)) → ∃ ovs' ors' nr',
    (v ← vec_get vs idx; keep_loop fuel keep l nr (idx + 1) (if contains keep v then ovs ++ [v] else ovs) ors) = Ok (ovs', ors') ∧
    loop_ok (runs l) nr' (length vs) ovs' ors').
  { intros Hnext. unfold vec_get. rewrite Hv. cbn [expect mbind result_bind]. apply IH; [lia|]. by apply loop_vertex. }
  destruct (runs l !! nr) as [r|] eqn:Hr.
  - destruct (Nat.eqb_spec (Z.to_nat (r_start r)) idx) as [He|Hne].
    + destruct (loop_run _ _ _ _ _ _ Hlen Hruns Hl Hr He) as (Hle & m & Hm & Hl'). rewrite vec_slice_ok by lia. cbn [mbind result_bind].
      replace (idx + Z.to_nat (r_len r) - idx) with (Z.to_nat (r_len r)) by lia. rewrite Hm. cbn [mbind result_bind].
      apply IH; [|done]. destruct Hruns as [_ Ha]. rewrite Forall_forall in Ha. destruct (Ha r (list_elem_of_lookup_2 _ _ _ Hr)) as (_ & ? & _). lia.
    + apply Hvertex. intros r' Hin. rewrite (drop_S _ _ _ Hr) in Hin.
      assert (Hfirst : idx < Z.to_nat (r_start r)).
      { pose proof (loop_next _ _ _ _ _ Hl r ltac:(rewrite (drop_S _ _ _ Hr); by left)). lia. }
      apply elem_of_cons in Hin as [->|Hin]; [done|]. destruct Hruns as [Hs Ha]. rewrite <- (take_drop_middle _ _ _ Hr) in Hs.
      apply StronglySorted_app_1_r, StronglySorted_inv in Hs as [_ Hs]. rewrite Forall_forall in Hs, Ha. specialize (Hs r' Hin).
      destruct (Ha r (list_elem_of_lookup_2 _ _ _ Hr)) as (? & ? & _). unfold run_stop in *. lia.
  - apply Hvertex. apply lookup_ge_None in Hr. rewrite drop_ge by done. by intros r ?%elem_of_nil.
Qed.
End keep.

(** A layer with only the kept vertices. *)
Record layer_kept (keep : DenseIdSet) (l l' : Layer) : Prop := {
  kept_vertices : vertices l' = filter (kept keep) (vertices l);
  kept_runs x : x ∈ runs l' ↔ ∃ r, r ∈ runs l ∧ run_left keep (vertices l) r x;
  kept_sequential : sequential l' = sequential l
}.

Lemma keep_layer_ok keep l : layer_ok l → ∃ l', keep_layer keep l = Ok l' ∧ layer_ok l' ∧ layer_kept keep l l'.
Proof.
  intros Hl. unfold keep_layer.
  destruct (keep_loop_ok keep (vertices l) l (length (vertices l) + length (runs l)) eq_refl Hl 0 0 [] []) as (ovs & ors & nr & -> & [Hv Hr Ho Hn _]).
  { lia. }
  { split; [done| | |lia|lia]. - intros x. split; [by intros ?%elem_of_nil|]. by intros (r & ?%elem_of_nil & _). - by repeat constructor. }
  cbn [mbind result_bind]. eexists. split; [done|]. rewrite take_ge in Hv by done. split.
  - destruct Hl as [Hlen _]. unfold layer_ok. cbn. rewrite Hv. pose proof (length_filter (kept keep) (vertices l)). split; [lia|].
    unfold rank in Ho. by rewrite take_ge in Ho.
  - split; [done| |done]. cbn. intros x. rewrite Hr. split; intros (r & Hin & Hx); exists r; (split; [|done]).
    + rewrite <- (take_drop nr (runs l)). by apply elem_of_app; left.
    + rewrite <- (take_drop nr (runs l)) in Hin. apply elem_of_app in Hin as [?|Hin]; [done|]. pose proof (Hn r Hin) as Hge.
      destruct Hx as (a & b & _ & Hs & _). pose proof (segment_range _ _ _ _ _ Hs) as Hrg. destruct Hl as [_ [_ Ha]]. rewrite Forall_forall in Ha.
      assert (Hin' : r ∈ runs l) by (rewrite <- (take_drop nr (runs l)); by apply elem_of_app; right).
      destruct (Ha r Hin') as (_ & _ & ? & _). lia.
Qed.

(** * Schedules *)

(** The walk of a schedule: layers and cycles in the order of the units. *)
Abbreviation Step := (Layer + list VertexId)%type.

Definition unit_step (s : Schedule) (u : ScheduleUnit) : option Step :=
  match u with
  | LayerUnit i => inl <$> layers s !! Z.to_nat i
  | CycleUnit i => inr <$> cycles s !! Z.to_nat i
  end.
Definition steps (s : Schedule) : list Step := omap (unit_step s) (units s).
Definition content (st : Step) : list VertexId := match st with inl l => vertices l | inr c => c end.
Definition walk (s : Schedule) : list VertexId := steps s ≫= content.

Definition step_layer (st : Step) : option Layer := match st with inl l => Some l | inr _ => None end.
Definition step_cycle (st : Step) : option (list VertexId) := match st with inl _ => None | inr c => Some c end.

Record schedule_ok (s : Schedule) : Prop := {
  ok_units : Forall (λ u, is_Some (unit_step s u)) (units s);
  ok_layers : Forall layer_ok (layers s);
  ok_length : (Z.of_nat (length (units s)) ≤ u32_max)%Z
}.

(** The layers and the cycles are those of the units, in their order. *)
Definition canonical (s : Schedule) : Prop := layers s = omap step_layer (steps s) ∧ cycles s = omap step_cycle (steps s).

(** No vertex comes before one that it depends on, [dep]; a cycle is left to its own order. *)
Definition step_orders (dep : VertexId → VertexId → Prop) (st : Step) : Prop :=
  match st with
  | inl l => if sequential l then ∀ i j u w, i ≤ j → vertices l !! i = Some u → vertices l !! j = Some w → ¬ dep u w
             else ∀ u w, u ∈ vertices l → w ∈ vertices l → ¬ dep u w
  | inr _ => True
  end.
Definition orders (dep : VertexId → VertexId → Prop) (ss : list Step) : Prop :=
  StronglySorted (λ a b, ∀ u w, u ∈ content a → w ∈ content b → ¬ dep u w) ss ∧ Forall (step_orders dep) ss.

(** The steps with only the kept vertices: cycles are kept whole or not at all. *)
Inductive steps_kept (keep : DenseIdSet) : list Step → list Step → Prop :=
| kept_nil : steps_kept keep [] []
| kept_layer l l' ss ss' : layer_kept keep l l' → vertices l' ≠ [] → steps_kept keep ss ss' → steps_kept keep (inl l :: ss) (inl l' :: ss')
| kept_no_layer l ss ss' : filter (kept keep) (vertices l) = [] → steps_kept keep ss ss' → steps_kept keep (inl l :: ss) ss'
| kept_cycle c ss ss' : c ≠ [] → filter (kept keep) c = c → steps_kept keep ss ss' → steps_kept keep (inr c :: ss) (inr c :: ss')
| kept_no_cycle c ss ss' : filter (kept keep) c = [] → steps_kept keep ss ss' → steps_kept keep (inr c :: ss) ss'.

Lemma steps_kept_walk keep ss ss' : steps_kept keep ss ss' → ss' ≫= content = filter (kept keep) (ss ≫= content).
Proof.
  induction 1 as [|l l' ss ss' Hl Hne _ IH|l ss ss' Hl _ IH|c ss ss' Hne Hc _ IH|c ss ss' Hc _ IH]; cbn [mbind list_bind content]; [done|..];
    rewrite filter_app, IH; [by rewrite (kept_vertices _ _ _ Hl)|by rewrite Hl|by rewrite Hc|by rewrite Hc].
Qed.

(** A filter keeps the order of positions. *)
Lemma filter_lookup_le {A} (P : A → Prop) `{∀ x, Decision (P x)} (l : list A) : ∀ i j x y, i ≤ j →
  filter P l !! i = Some x → filter P l !! j = Some y → ∃ a b, a ≤ b ∧ l !! a = Some x ∧ l !! b = Some y.
Proof.
  induction l as [|z l IH]; intros i j x y Hij; [done|]. rewrite filter_cons. case_decide as Hz.
  - destruct i as [|i], j as [|j]; cbn; [intros [= <-] [= <-]; by exists 0, 0| |lia|].
    + intros [= <-] [_ [b Hb]%list_elem_of_lookup]%list_elem_of_lookup_2%list_elem_of_filter. exists 0, (S b). split; [lia|done].
    + intros Hx Hy. destruct (IH i j x y ltac:(lia) Hx Hy) as (a & b & Hab & Ha & Hb). exists (S a), (S b). split; [lia|done].
  - intros Hx Hy. destruct (IH i j x y Hij Hx Hy) as (a & b & Hab & Ha & Hb). exists (S a), (S b). split; [lia|done].
Qed.

Lemma layer_kept_orders keep dep l l' : layer_kept keep l l' → step_orders dep (inl l) → step_orders dep (inl l').
Proof.
  intros [Hv _ Hs]. cbn. rewrite Hs, Hv. destruct (sequential l).
  - intros H i j u w Hij Hi Hj. destruct (filter_lookup_le _ _ _ _ _ _ Hij Hi Hj) as (a & b & Hab & Ha & Hb). by apply (H a b).
  - intros H u w [_ Hu]%list_elem_of_filter [_ Hw]%list_elem_of_filter. by apply H.
Qed.

Lemma steps_kept_content keep ss ss' st' u : steps_kept keep ss ss' → st' ∈ ss' → u ∈ content st' → ∃ st, st ∈ ss ∧ u ∈ content st.
Proof.
  intros Hk Hst Hu. assert (Hw : u ∈ ss' ≫= content) by (apply list_elem_of_bind; by exists st').
  rewrite (steps_kept_walk _ _ _ Hk) in Hw. apply list_elem_of_filter in Hw as [_ Hw]. apply list_elem_of_bind in Hw as (st & ? & ?). by exists st.
Qed.

Lemma steps_kept_orders keep dep ss ss' : steps_kept keep ss ss' → orders dep ss → orders dep ss'.
Proof.
  induction 1 as [|l l' ss ss' Hl Hne Hk IH|l ss ss' Hl Hk IH|c ss ss' Hne Hc Hk IH|c ss ss' Hc Hk IH]; intros [Ho Hf]; [done|..];
    apply StronglySorted_inv in Ho as [Ho Hh]; apply Forall_cons in Hf as [Hf0 Hf]; destruct (IH (conj Ho Hf)) as [Ho' Hf']; try by split.
  - split; [|constructor; [by eapply layer_kept_orders|done]]. constructor; [done|]. apply Forall_forall. intros st' Hin u w Hu Hw.
    rewrite Forall_forall in Hh. destruct (steps_kept_content _ _ _ _ _ Hk Hin Hw) as (st & Hst & Hw'). cbn [content] in Hu.
    rewrite (kept_vertices _ _ _ Hl) in Hu. apply list_elem_of_filter in Hu as [_ Hu]. by apply (Hh st).
  - split; [|by constructor]. constructor; [done|]. apply Forall_forall. intros st' Hin u w Hu Hw.
    rewrite Forall_forall in Hh. destruct (steps_kept_content _ _ _ _ _ Hk Hin Hw) as (st & Hst & Hw'). by apply (Hh st).
Qed.

(** The schedule of layers only. *)
Lemma from_parts_ok ls : (Z.of_nat (length ls) ≤ u32_max)%Z → ∃ s, from_parts ls [] = Ok s ∧ steps s = inl <$> ls ∧ canonical s.
Proof.
  intros Hl. unfold from_parts. rewrite bool_decide_true, as_u32_nat, Nat2Z.id by done. eexists. split; [done|].
  assert (H : ∀ us cs pre post, layers {| units := us; cycles := cs; layers := pre ++ post |} = pre ++ post →
    omap (unit_step {| units := us; cycles := cs; layers := pre ++ post |}) ((λ i, LayerUnit (Z.of_nat i)) <$> seq (length pre) (length post)) = inl <$> post).
  { intros us cs pre post _. revert pre. induction post as [|l post IH]; intros pre; [done|]. cbn [length seq fmap list_fmap omap list_omap].
    cbn [unit_step layers]. rewrite Nat2Z.id, list_lookup_middle by done. cbn [fmap option_fmap option_map]. f_equal.
    specialize (IH (pre ++ [l])). rewrite length_app, Nat.add_1_r, <- app_assoc in IH. exact IH. }
  assert (Hs : steps {| units := (λ i, LayerUnit (Z.of_nat i)) <$> seq 0 (length ls); cycles := []; layers := ls |} = inl <$> ls).
  { exact (H _ _ [] ls eq_refl). }
  split; [done|]. unfold canonical. rewrite Hs. cbn [layers cycles]. clear H Hs Hl. induction ls as [|l ls [IH1 IH2]]; [done|]. cbn. by rewrite <- IH1, <- IH2.
Qed.

(** ** Building the restricted schedule *)

Lemma filter_all_length {A} (P : A → Prop) `{∀ x, Decision (P x)} (l : list A) : length (filter P l) = length l → filter P l = l.
Proof.
  induction l as [|x l IH]; [done|]. rewrite filter_cons. pose proof (length_filter P l). case_decide; cbn; [|lia].
  intros [= Hl]. by rewrite IH.
Qed.

Lemma steps_app us us' cs ls : steps {| units := us ++ us'; cycles := cs; layers := ls |} =
  steps {| units := us; cycles := cs; layers := ls |} ++ steps {| units := us'; cycles := cs; layers := ls |}.
Proof. unfold steps. cbn. rewrite omap_app. done. Qed.

(** More layers or cycles behind the ones in use change nothing. *)
Lemma steps_extend us cs ls cs' ls' : Forall (λ u, is_Some (unit_step {| units := us; cycles := cs; layers := ls |} u)) us →
  steps {| units := us; cycles := cs ++ cs'; layers := ls ++ ls' |} = steps {| units := us; cycles := cs; layers := ls |} ∧
  Forall (λ u, is_Some (unit_step {| units := us; cycles := cs ++ cs'; layers := ls ++ ls' |} u)) us.
Proof.
  assert (H : ∀ us0 us1 us2, Forall (λ u, is_Some (unit_step {| units := us0; cycles := cs; layers := ls |} u)) us2 →
    omap (unit_step {| units := us1; cycles := cs ++ cs'; layers := ls ++ ls' |}) us2 = omap (unit_step {| units := us0; cycles := cs; layers := ls |}) us2 ∧
    Forall (λ u, is_Some (unit_step {| units := us1; cycles := cs ++ cs'; layers := ls ++ ls' |} u)) us2).
  { intros us0 us1 us2. induction 1 as [|u us2 Hu _ [IH1 IH2]]; [done|]. assert (E : ∀ st,
      unit_step {| units := us0; cycles := cs; layers := ls |} u = Some st → unit_step {| units := us1; cycles := cs ++ cs'; layers := ls ++ ls' |} u = Some st).
    { intros st. destruct u as [i|i]; cbn; intros (x & Hx & ->)%fmap_Some; by rewrite (lookup_app_l_Some _ _ _ _ Hx). }
    destruct Hu as [st Hst]. split; [|constructor; [exists st; by apply E|done]]. cbn [omap list_omap]. by rewrite Hst, (E st Hst), IH1. }
  intros Hus. by apply H.
Qed.

Record partial_ok (n : nat) (out : Schedule) (done : list Step) : Prop := {
  partial_units : Forall (λ u, is_Some (unit_step out u)) (units out);
  partial_layers : Forall layer_ok (layers out);
  partial_count : length (units out) ≤ n ∧ length (layers out) ≤ n ∧ length (cycles out) ≤ n;
  partial_steps : steps out = done;
  partial_canonical : canonical out
}.

Lemma push_layer_ok n out dn l : (Z.of_nat n < u32_max)%Z → partial_ok n out dn → layer_ok l → partial_ok (n + 1) (push_layer out l) (dn ++ [inl l]).
Proof.
  intros Hn [Hu Hl Hc Hs Hcan] Hok. destruct out as [us cs ls]. cbn in Hu, Hl, Hc. unfold push_layer. cbn. rewrite as_u32_nat by lia.
  destruct (steps_extend us cs ls [] [l] Hu) as [He Hu']. rewrite app_nil_r in He, Hu'.
  assert (Hst : steps {| units := us ++ [LayerUnit (Z.of_nat (length ls))]; cycles := cs; layers := ls ++ [l] |} = dn ++ [inl l]).
  { rewrite steps_app, He, Hs. f_equal. unfold steps. cbn. by rewrite Nat2Z.id, list_lookup_middle by done. }
  split.
  - cbn. apply Forall_app. split; [done|]. constructor; [|done]. cbn. rewrite Nat2Z.id, list_lookup_middle by done. by eexists.
  - cbn. apply Forall_app. split; [done|by constructor].
  - cbn. rewrite !length_app. cbn. lia.
  - done.
  - destruct Hcan as [Hc1 Hc2]. unfold canonical. rewrite Hst. cbn. rewrite !omap_app, Hs in *. cbn in *. by rewrite Hc1, Hc2, app_nil_r.
Qed.

Lemma push_cycle_ok n out dn c : (Z.of_nat n < u32_max)%Z → partial_ok n out dn → partial_ok (n + 1) (push_cycle out c) (dn ++ [inr c]).
Proof.
  intros Hn [Hu Hl Hc Hs Hcan]. destruct out as [us cs ls]. cbn in Hu, Hl, Hc. unfold push_cycle. cbn. rewrite as_u32_nat by lia.
  destruct (steps_extend us cs ls [c] [] Hu) as [He Hu']. rewrite app_nil_r in He, Hu'.
  assert (Hst : steps {| units := us ++ [CycleUnit (Z.of_nat (length cs))]; cycles := cs ++ [c]; layers := ls |} = dn ++ [inr c]).
  { rewrite steps_app, He, Hs. f_equal. unfold steps. cbn. by rewrite Nat2Z.id, list_lookup_middle by done. }
  split.
  - cbn. apply Forall_app. split; [done|]. constructor; [|done]. cbn. rewrite Nat2Z.id, list_lookup_middle by done. by eexists.
  - done.
  - cbn. rewrite !length_app. cbn. lia.
  - done.
  - destruct Hcan as [Hc1 Hc2]. unfold canonical. rewrite Hst. cbn. rewrite !omap_app, Hs in *. cbn in *. by rewrite Hc1, Hc2, app_nil_r.
Qed.

(** What [restrict] gives for the steps [ss], behind those of [done]. *)
Definition restrict_post (keep : DenseIdSet) (ss dn : list Step) (n0 n : nat) (r : result Empty_set (option (Schedule * nat))) : Prop :=
  match r with
  | Ok (Some (out, k)) => ∃ ss', steps_kept keep ss ss' ∧ partial_ok n out (dn ++ ss') ∧ k = n0 + length (ss' ≫= content)
  | Ok None => ∃ c u w, inr c ∈ ss ∧ u ∈ c ∧ kept keep u ∧ w ∈ c ∧ ¬ kept keep w
  | _ => False
  end.

Lemma restrict_post_skip keep st ss dn n0 n r : (∀ ss', steps_kept keep ss ss' → steps_kept keep (st :: ss) ss') →
  restrict_post keep ss dn n0 n r → restrict_post keep (st :: ss) dn n0 n r.
Proof.
  intros Hk. destruct r as [[[out k]|]| |]; cbn; [|..|done]; [|intros (c & u & w & Hc & H); exists c, u, w; split; [by right|done]|done].
  intros (ss' & Hs & H). exists ss'. split; [by apply Hk|done].
Qed.

Lemma restrict_post_push keep st st' ss dn n0 n r : (∀ ss', steps_kept keep ss ss' → steps_kept keep (st :: ss) (st' :: ss')) →
  restrict_post keep ss (dn ++ [st']) (n0 + length (content st')) n r → restrict_post keep (st :: ss) dn n0 n r.
Proof.
  intros Hk. destruct r as [[[out k]|]| |]; cbn; [|..|done]; [|intros (c & u & w & Hc & H); exists c, u, w; split; [by right|done]|done].
  intros (ss' & Hs & Hp & ->). exists (st' :: ss'). split; [by apply Hk|]. split; [by rewrite <- app_assoc in Hp|].
  cbn. rewrite length_app. lia.
Qed.

Lemma partial_ok_weaken n m out dn : partial_ok n out dn → n ≤ m → partial_ok m out dn.
Proof. intros [Hu Hl Hc Hs Hcan] Hle. split; [done|done|lia|done|done]. Qed.

Lemma restrict_units_ok keep s us : Forall layer_ok (layers s) → ∀ out kept n dn, Forall (λ u, is_Some (unit_step s u)) us →
  partial_ok n out dn → (Z.of_nat (n + length us) ≤ u32_max)%Z →
  restrict_post keep (omap (unit_step s) us) dn kept (n + length us) (restrict_units keep s us out kept).
Proof.
  intros Hls. induction us as [|u us IH]; intros out k n dn Hus Hp Hn; cbn [restrict_units].
  { cbn. exists []. rewrite app_nil_r, !Nat.add_0_r. split; [constructor|done]. }
  apply Forall_cons in Hus as [[st Hst] Hus]. cbn [omap list_omap length] in *. rewrite Hst. replace (n + S (length us)) with (n + 1 + length us) in * by lia.
  destruct u as [i|i]; cbn [unit_step] in Hst; apply fmap_Some in Hst as (x & Hx & ->).
  - unfold unit_layer, vec_get. rewrite Hx. cbn [expect mbind result_bind]. rewrite Forall_forall in Hls.
    destruct (keep_layer_ok keep x (Hls x (list_elem_of_lookup_2 _ _ _ Hx))) as (l' & -> & Hl' & Hk). cbn [mbind result_bind].
    destruct (vertices l') as [|v vs] eqn:E.
    + apply restrict_post_skip; [intros ss'; apply kept_no_layer; by rewrite <- (kept_vertices _ _ _ Hk)|].
      apply IH; [done|by apply (partial_ok_weaken n); [|lia]|done].
    + rewrite <- E. apply (restrict_post_push keep (inl x) (inl l')); [intros ss'; apply kept_layer; [done|by rewrite E]|].
      apply IH; [done|by apply push_layer_ok; [lia| |]|done].
  - unfold unit_cycle, vec_get. rewrite Hx. cbn [expect mbind result_bind]. change (filter (λ v, contains keep v) x) with (filter (kept keep) x).
    destruct (Nat.eqb_spec (length (filter (kept keep) x)) 0) as [H0|H0].
    + apply restrict_post_skip; [intros ss'; apply kept_no_cycle; by apply nil_length_inv|].
      apply IH; [done|by apply (partial_ok_weaken n); [|lia]|done].
    + destruct (Nat.eqb_spec (length (filter (kept keep) x)) (length x)) as [H1|H1]; cbn [negb].
      * pose proof (filter_all_length _ _ H1) as Hall.
        rewrite H1. apply (restrict_post_push keep (inr x) (inr x)); [intros ss'; apply kept_cycle; [by intros ->|done]|].
        apply IH; [done|by apply push_cycle_ok; [lia|]|done].
      * destruct (filter (kept keep) x) as [|u us'] eqn:E; [done|].
        assert (Hu : u ∈ filter (kept keep) x) by (rewrite E; by left). apply list_elem_of_filter in Hu as [Hku Hu].
        destruct (decide (Exists (λ w, ¬ kept keep w) x)) as [(w & Hw & Hkw)%Exists_exists|Hno].
        { cbn. exists x, u, w. split; [by left|done]. }
        destruct H1. rewrite <- E, filter_every; [done|]. intros w Hw. destruct (decide (kept keep w)) as [|Hkw]; [done|].
        destruct Hno. apply Exists_exists. by exists w.
Qed.

Lemma restrict_result s keep : schedule_ok s →
  match restrict s keep with
  | Ok (Some (s', n)) => schedule_ok s' ∧ canonical s' ∧ steps_kept keep (steps s) (steps s') ∧ n = length (walk s')
  | Ok None => ∃ c u w, inr c ∈ steps s ∧ u ∈ c ∧ kept keep u ∧ w ∈ c ∧ ¬ kept keep w
  | _ => False
  end.
Proof.
  intros [Hu Hl Hn]. pose proof (restrict_units_ok keep s (units s) Hl {| units := []; cycles := []; layers := [] |} 0 0 [] Hu) as H.
  unfold restrict. assert (Hp : partial_ok 0 {| units := []; cycles := []; layers := [] |} []) by (split; cbn; (done || by constructor || lia)).
  specialize (H Hp Hn). destruct (restrict_units _ _ _ _ _) as [[[s' n]|]| |]; cbn in H; [|done..].
  destruct H as (ss' & Hk & [Hu' Hl' Hc' Hs' Hcan'] & ->). unfold walk. rewrite Hs'. split; [split; [done|done|lia]|done].
Qed.

(** C24: the restriction of a schedule to the kept vertices, as the engine reuses a plan.  It
    never panics.  Its walk is the walk of the schedule without the other vertices, and its
    count is right; each layer keeps its kept vertices in order, and its runs are exactly the
    maximal stretches of two or more kept members of the runs of the layer, at the rows they
    had; cycles are kept whole, and a cycle that is kept in part gives no schedule.  Any
    dependency that the schedule orders is ordered by the restriction. *)
Theorem restrict_exact s keep : schedule_ok s →
  match restrict s keep with
  | Ok (Some (s', n)) => schedule_ok s' ∧ canonical s' ∧ steps_kept keep (steps s) (steps s') ∧
      walk s' = filter (kept keep) (walk s) ∧ n = length (walk s') ∧
      (∀ dep, orders dep (steps s) → orders dep (steps s'))
  | Ok None => ∃ c u w, inr c ∈ steps s ∧ u ∈ c ∧ kept keep u ∧ w ∈ c ∧ ¬ kept keep w
  | _ => False
  end.
Proof.
  intros Hs. pose proof (restrict_result s keep Hs) as H. destruct (restrict s keep) as [[[s' n]|]| |]; [|done..].
  destruct H as (Hok & Hcan & Hk & Hn). split; [done|]. split; [done|]. split; [done|]. split; [by apply steps_kept_walk|].
  split; [done|]. intros dep. by apply (steps_kept_orders keep).
Qed.

Lemma sample_ok : schedule_ok sample_schedule.
Proof.
  split; [repeat constructor; by eexists|repeat constructor; cbn; unfold run_stop, u32_max; cbn; try lia|done].
Qed.

Lemma restrict_exact_witness : schedule_ok sample_schedule ∧
  ∃ s' n, restrict sample_schedule {| words := [3145966%Z]; len := 8; lo := 0; hi := 0 |} = Ok (Some (s', n)) ∧
    walk s' = filter (kept {| words := [3145966%Z]; len := 8; lo := 0; hi := 0 |}) (walk sample_schedule).
Proof.
  split; [apply sample_ok|].
  pose proof (restrict_exact sample_schedule {| words := [3145966%Z]; len := 8; lo := 0; hi := 0 |} sample_ok) as H.
  destruct (restrict sample_schedule {| words := [3145966%Z]; len := 8; lo := 0; hi := 0 |}) as [[[s' n]|]| |] eqn:E;
    [|vm_compute in E; discriminate..].
  exists s', n. split; [reflexivity|]. apply H.
Defined.
