(* ===== verification/PlanSchedule.v ===== *)
(** [engine/authority/plan_schedule.rs]: the adapter from the planner's ordered cells to the
    executor's [Schedule].  The cells are sorted by layer, group and position, the groups become
    layers and cycles, and the cells of a family in consecutive rows become runs.

    [alloc k b] says whether the allocator serves the [k]-th reservation; [translate] is the
    read-only callback that resolves a cell; [debug] is [cfg!(debug_assertions)].  The sizes are
    those of the 64-bit layout.  The only counter is that of the control; the counter of the
    monad mirrors it. *)
From S2P Require Import Prelude PlanControl Counted Radix Schedule.

(** [OrderedCell] of [planner.rs]. *)
Record OrderedCell : Type := {
  c_sheet : Z; c_row : Z; c_col : Z; c_id : Z; c_owner : Z; c_layer : Z; c_cycle : option Z; c_chain : bool
}.
Record Entry : Type := { cell : OrderedCell; vertex : Z }.

#[export] Instance OrderedCell_eq_dec : EqDecision OrderedCell.
Proof. solve_decision. Defined.
#[export] Instance Entry_eq_dec : EqDecision Entry.
Proof. solve_decision. Defined.

Inductive ScheduleError (X : Type) : Type :=
| ScheduleAuthority (e : AuthorityError)
| ScheduleRuntime (x : X).
Arguments ScheduleAuthority {X}.
Arguments ScheduleRuntime {X}.
#[export] Instance schedule_runtime {X} : From X (ScheduleError X) := ScheduleRuntime.

#[export] Instance units_work : Work Z := {| no_work := 0%Z; add_work := Z.add; work_total := id |}.

(** * Keys *)

Abbreviation Group := (Z * option Z * bool)%type.
Definition group (e : Entry) : Group := (c_layer (cell e), c_cycle (cell e), c_chain (cell e)).

Definition member_key (e : Entry) : Z :=
  match c_cycle (cell e) with
  | Some _ => vertex e
  | None => Z.lor (Z.lor (Z.shiftl (c_sheet (cell e)) 44) (Z.shiftl (c_col (cell e)) 24)) (c_row (cell e))
  end.
Definition cycle_key (e : Entry) : Z := match c_cycle (cell e) with Some c => c | None => 0%Z end.
Definition is_cyclic (e : Entry) : bool := match c_cycle (cell e) with Some _ => true | None => false end.
Definition kind_key (e : Entry) : Z := Z.lor (Z.b2z (is_cyclic e)) (Z.shiftl (Z.b2z (c_chain (cell e))) 1).

(** Four keys, least significant first. *)
Definition keys (e : Entry) : list Z := [member_key e; cycle_key e; kind_key e; c_layer (cell e)].
Definition order_key (e : Entry) : list Z := reverse (keys e).

(** [self.keys()[pass / 8]] with [pass < 32]. *)
Definition key_at (q : nat) (e : Entry) : Z := nth q (keys e) 0%Z.
Definition shift_of (pass : nat) : Z := Z.of_nat ((pass mod 8) * 8).
Definition digit (pass : nat) (e : Entry) : nat := Z.to_nat (Z.land (Z.shiftr (key_at (pass / 8) e) (shift_of pass)) 255).

(** The order of arrays. *)
Fixpoint lex_lt (a b : list Z) : bool :=
  match a, b with
  | x :: a, y :: b => (x <? y)%Z || ((x =? y)%Z && lex_lt a b)
  | [], _ :: _ => true
  | _, [] => false
  end.
Definition lex_le (a b : list Z) : bool := negb (lex_lt b a).

(** * Family runs *)

(** [u16::MAX]. *)
Definition SYMBOL_SHEET : Z := 65535.

(** [j - i] at the end of the inner loop, from [k]. *)
Fixpoint run_tail {E} (first : OrderedCell) (k : nat) (l : list Entry) : result E nat :=
  match l with
  | [] => Ok k
  | e :: l =>
      let c := cell e in
      if negb (c_owner c =? c_owner first)%Z || negb (c_sheet c =? c_sheet first)%Z || negb (c_col c =? c_col first)%Z then Ok k
      else
        row ← add_u32 (c_row first) (as_u32 (Z.of_nat k));
        if negb (c_row c =? row)%Z then Ok k else run_tail first (k + 1) l
  end.

(** The runs that are visited, as [(start, len)]. *)
Fixpoint family_visits {E} (fuel : nat) (i : nat) (l : list Entry) : result E (list (nat * nat)) :=
  match l with
  | [] => Ok []
  | e :: rest =>
      match fuel with
      | O => Panic
      | S fuel =>
          k ← run_tail (cell e) 1 rest;
          visits ← family_visits fuel (i + k) (drop k l);
          Ok (if (2 <=? k)%nat && negb (c_sheet (cell e) =? SYMBOL_SHEET)%Z then (i, k) :: visits else visits)
      end
  end.
Definition for_each_family_run {E} (l : list Entry) : result E (list (nat * nat)) := family_visits (length l) 0 l.

Definition family_run {E} (l : list Entry) (visit : nat * nat) : result E LayerRun :=
  e ← vec_get l visit.1;
  let c := cell e in
  Ok {| r_start := as_u32 (Z.of_nat visit.1); r_len := as_u32 (Z.of_nat visit.2); r_sheet := c_sheet c; r_col := c_col c;
        r_row0 := c_row c; r_owner := c_owner c |}.

Fixpoint family_pushes {E} (l : list Entry) (visits : list (nat * nat)) (rs : list LayerRun) : result E (list LayerRun) :=
  match visits with
  | [] => Ok rs
  | visit :: visits => r ← family_run l visit; family_pushes l visits (rs ++ [r])
  end.

Definition family_runs (alloc : nat → Z → bool) (k : nat) (l : list Entry) : result AuthorityError (list LayerRun) :=
  visits ← for_each_family_run l;
  _ ← reserve alloc k 24 (Z.of_nat (length visits));
  visits ← for_each_family_run l;
  family_pushes l visits [].

(** * The sort *)

Definition RUN_SORT_MIN : nat := 4096.

Definition exact (c : OrderedCell) : bool :=
  (c_row c <? Z.shiftl 1 24)%Z && (c_col c <? Z.shiftl 1 20)%Z && bool_decide (c_cycle c = None).

(** [j - i] at the end of the inner loop of [run_sorted]. *)
Fixpoint exact_tail {E} (c : OrderedCell) (k : nat) (l : list Entry) : result E nat :=
  match l with
  | [] => Ok k
  | e :: l =>
      let d := cell e in
      if negb (exact d) || negb (c_layer d =? c_layer c)%Z || negb (eqb (c_chain d) (c_chain c)) || negb (c_sheet d =? c_sheet c)%Z
         || negb (c_col d =? c_col c)%Z then Ok k
      else
        row ← add_u32 (c_row c) (as_u32 (Z.of_nat k));
        if negb (c_row d =? row)%Z then Ok k else exact_tail c (k + 1) l
  end.

Definition run_key (l : list Entry) (run : nat * nat) : list Z := match l !! run.1 with Some e => order_key e | None => [] end.

(** [out.windows(2).any(..)]. *)
Fixpoint out_of_order (l : list Entry) : bool :=
  match l with
  | a :: (b :: _) as rest => negb (lex_lt (order_key a) (order_key b)) || out_of_order rest
  | _ => false
  end.

Section schedule.
Context {S X : Type} (checkpoint : S → Z → X + S) (alloc : nat → Z → bool) (debug : bool).
Abbreviation counted := (counted S (ScheduleError X) Z).

Definition tick : counted () := count checkpoint (λ w, (w + 1)%Z).
Definition charge (n : Z) : counted () := count_units checkpoint (λ w, (w + n)%Z) n.
Definition authority {A} (r : result AuthorityError A) : counted A := lift (map_err ScheduleAuthority r).

(** One pass: the entries and the temporary buffer, exchanged. *)
Definition radix_pass (pass : nat) (l temp : list Entry) : result (ScheduleError X) (list Entry * list Entry) :=
  hist ← histogram (digit pass) l (replicate 256 0);
  temp ← scatter (digit pass) l (positions hist 0) temp;
  Ok (temp, l).

(** [differs[k] |= keys[k] ^ first[k]]. *)
Definition differs (q : nat) (l : list Entry) (first : Z) : Z := foldl (λ d e, Z.lor d (Z.lxor (key_at q e) first)) 0%Z l.

Fixpoint radix_passes (orig : list Entry) (first : Entry) (passes : list nat) (l temp : list Entry) : counted (list Entry) :=
  match passes with
  | [] => mret l
  | pass :: passes =>
      if (Z.land (Z.shiftr (differs (pass / 8) orig (key_at (pass / 8) first)) (shift_of pass)) 255 =? 0)%Z
      then radix_passes orig first passes l temp
      else
        _ ← charge (512 + 2 * Z.of_nat (length orig));
        '(l, temp) ← lift (radix_pass pass l temp);
        radix_passes orig first passes l temp
  end.

Definition radix_sort (k : nat) (l : list Entry) : counted (list Entry) :=
  _ ← authority (reserve alloc k 56 (Z.of_nat (length l)));
  match l with
  | first :: _ :: _ =>
      _ ← charge (Z.of_nat (length l));
      radix_passes l first (seq 0 32) l l
  | _ => mret l
  end.

(** The run table, unless it has no room for the next run. *)
Fixpoint collect_runs (fuel capacity : nat) (i : nat) (l : list Entry) (runs : list (nat * nat)) : counted (option (list (nat * nat))) :=
  match l with
  | [] => mret (Some runs)
  | e :: rest =>
      match fuel with
      | O => lift Panic
      | Datatypes.S fuel =>
          k ← lift (if exact (cell e) then exact_tail (cell e) 1 rest else Ok 1);
          if (length runs =? capacity)%nat then _ ← charge (Z.of_nat (i + k)); mret None
          else collect_runs fuel capacity (i + k) (drop k l) (runs ++ [(i, k)])
      end
  end.

Fixpoint expand (l : list Entry) (runs : list (nat * nat)) (out : list Entry) : result (ScheduleError X) (list Entry) :=
  match runs with
  | [] => Ok out
  | (start, len) :: runs => es ← vec_slice l start (start + len); expand l runs (out ++ es)
  end.

Definition run_sorted (l : list Entry) : counted (option (list Entry)) :=
  let n := length l in
  if (n <? RUN_SORT_MIN)%nat then mret None
  else
    _ ← authority (reserve alloc 1 16 (Z.of_nat (n / 8 + 1)));
    runs ← collect_runs n (n / 8 + 1) 0 l [];
    match runs with
    | None => mret None
    | Some runs =>
        _ ← charge (Z.of_nat n);
        let runs := sort_by (λ a b, lex_le (run_key l a) (run_key l b)) runs in
        _ ← charge (Z.of_nat (length runs) * 20);
        _ ← authority (reserve alloc 2 56 (Z.of_nat n));
        out ← lift (expand l runs []);
        _ ← charge (Z.of_nat n);
        mret (if out_of_order out then None else Some out)
    end.

(** The assertion of a debug build. *)
Definition same_entry (a b : Entry) : bool :=
  (vertex a =? vertex b)%Z && bool_decide (keys a = keys b) && (c_id (cell a) =? c_id (cell b))%Z.
Definition same_order (a b : list Entry) : bool :=
  (length a =? length b)%nat && forallb (λ p, same_entry p.1 p.2) (zip a b).

Definition sort_entries (l : list Entry) : counted (list Entry) :=
  sorted ← run_sorted l;
  match sorted with
  | Some sorted =>
      if debug then check ← radix_sort 3 l; if same_order check sorted then mret sorted else lift Panic
      else mret sorted
  | None => radix_sort 3 l
  end.

(** * The schedule *)

Context (translate : OrderedCell → X + Z).

Fixpoint translate_cells (cells : list OrderedCell) (l : list Entry) : counted (list Entry) :=
  match cells with
  | [] => mret l
  | c :: cells =>
      _ ← tick;
      v ← lift (match translate c with inl x => Err (ScheduleRuntime x) | inr v => Ok v end);
      translate_cells cells (l ++ [{| cell := c; vertex := v |}])
  end.

Fixpoint count_groups (l : list Entry) (previous : option Group) (layers cycles : nat) : counted (nat * nat) :=
  match l with
  | [] => mret (layers, cycles)
  | e :: l =>
      _ ← tick;
      if bool_decide (previous = Some (group e)) then count_groups l previous layers cycles
      else if is_cyclic e then count_groups l (Some (group e)) layers (cycles + 1)
      else count_groups l (Some (group e)) (layers + 1) cycles
  end.

(** [end - start] at the end of the inner loop. *)
Fixpoint group_tail (g : Group) (k : nat) (l : list Entry) : nat :=
  match l with
  | [] => k
  | e :: l => if bool_decide (group e = g) then group_tail g (k + 1) l else k
  end.

Fixpoint count_runs (fuel : nat) (l : list Entry) (runs : nat) : counted nat :=
  match l with
  | [] => mret runs
  | e :: rest =>
      match fuel with
      | O => lift Panic
      | Datatypes.S fuel =>
          let k := group_tail (group e) 1 rest in
          visits ← (if is_cyclic e then mret [] else lift (for_each_family_run (take k l)));
          _ ← tick;
          count_runs fuel (drop k l) (runs + length visits)
      end
  end.

(** The same with a tick for every comparison. *)
Fixpoint scan_group (g : Group) (k : nat) (l : list Entry) : counted nat :=
  match l with
  | [] => mret k
  | e :: l => _ ← tick; if bool_decide (group e = g) then scan_group g (k + 1) l else mret k
  end.

Fixpoint push_vertices (l : list Entry) (vs : list Z) : counted (list Z) :=
  match l with
  | [] => mret vs
  | e :: l => _ ← tick; push_vertices l (vs ++ [vertex e])
  end.

(** [k] is the next reservation. *)
Fixpoint build (fuel k : nat) (l : list Entry) (out : Schedule) : counted Schedule :=
  match l with
  | [] => mret out
  | e :: rest =>
      match fuel with
      | O => lift Panic
      | Datatypes.S fuel =>
          _ ← tick;
          n ← scan_group (group e) 1 rest;
          _ ← authority (reserve alloc k 4 (Z.of_nat n));
          vs ← push_vertices (take n l) [];
          if is_cyclic e then build fuel (k + 2) (drop n l) (push_cycle out vs)
          else
            rs ← authority (family_runs alloc (k + 1) (take n l));
            build fuel (k + 2) (drop n l) (push_layer out {| vertices := vs; runs := rs; sequential := c_chain (cell e) |})
      end
  end.

Record ExecutablePlan : Type := { schedule : Schedule; entries : list Entry; plan_work : Z; plan_peak : Z }.

(** [ExecutablePlan::heap_bytes]; the reservations are exact. *)
Definition heap_bytes (p : ExecutablePlan) : Z :=
  (Z.of_nat (length (entries p)) * 56 + Z.of_nat (length (units (schedule p))) * 8 + Z.of_nat (length (layers (schedule p))) * 56 +
   Z.of_nat (length (cycles (schedule p))) * 24 +
   Z.of_nat (sum_list_with (λ l, length (vertices l) * 4 + length (runs l) * 24)%nat (layers (schedule p))) +
   Z.of_nat (sum_list_with (λ c, length c * 4)%nat (cycles (schedule p))))%Z.

Definition sorting_bytes (n : nat) (held : Z) : result AuthorityError Z :=
  a ← bytes_of 56 (Z.of_nat n);
  b ← bytes_of 56 (Z.of_nat n);
  ab ← add a b;
  table ← (if (RUN_SORT_MIN <=? n)%nat then bytes_of 16 (Z.of_nat (n / 8 + 1)) else Ok 0%Z);
  all ← add ab table;
  add held all.

Definition output_bytes (n layers cycles runs : nat) (groups : Z) : result AuthorityError Z :=
  a ← bytes_of 56 (Z.of_nat n);
  b ← bytes_of 4 (Z.of_nat n);
  ab ← add a b;
  us ← bytes_of 8 groups;
  ls ← bytes_of 56 (Z.of_nat layers);
  cs ← bytes_of 24 (Z.of_nat cycles);
  lcs ← add ls cs;
  rs ← bytes_of 24 (Z.of_nat runs);
  lrs ← add lcs rs;
  out ← add us lrs;
  add ab out.

Definition fits_u32 (n : nat) : result AuthorityError () := if (Z.of_nat n <=? u32_max)%Z then Ok () else Err Alloc.

Definition schedule_counted (cells : list OrderedCell) (held : Z) (limit : option Z) : counted (Schedule * list Entry * Z) :=
  let n := length cells in
  sorting ← authority (sorting_bytes n held);
  _ ← authority (admit_scratch sorting limit);
  _ ← authority (reserve alloc 0 56 (Z.of_nat n));
  l ← translate_cells cells [];
  l ← sort_entries l;
  '(ls, cs) ← count_groups l None 0 0;
  rs ← count_runs n l 0;
  _ ← authority (fits_u32 ls);
  _ ← authority (fits_u32 cs);
  groups ← authority (add (Z.of_nat ls) (Z.of_nat cs));
  output ← authority (output_bytes n ls cs rs groups);
  simultaneous ← authority (add held output);
  _ ← authority (admit_scratch simultaneous limit);
  _ ← authority (reserve alloc 4 8 groups);
  _ ← authority (reserve alloc 5 56 (Z.of_nat ls));
  _ ← authority (reserve alloc 6 24 (Z.of_nat cs));
  out ← build n 7 l {| units := []; cycles := []; layers := [] |};
  _ ← flush_control checkpoint;
  mret (out, l, Z.max sorting simultaneous).

Definition schedule_plan (cells : list OrderedCell) (held : Z) (limit : option Z) (s : S)
  : result (ScheduleError X) (ExecutablePlan * S) :=
  c ← map_err ScheduleRuntime (PlanControl.new checkpoint s);
  '(mt, (out, l, peak)) ← schedule_counted cells held limit {| work := 0%Z; control := c |};
  Ok ({| schedule := out; entries := l; plan_work := total (control mt); plan_peak := peak |}, state (control mt)).

End schedule.

(** ** Examples *)

Definition plan_cell (id row : Z) (layer : Z) (cycle : option Z) : OrderedCell :=
  {| c_sheet := 0; c_row := row; c_col := 0; c_id := id; c_owner := 9; c_layer := layer; c_cycle := cycle; c_chain := false |}.

(** Rows 1 and 2 of a family, then a cell two layers above, and a cycle in between. *)
Definition sample_cells : list OrderedCell :=
  [plan_cell 40 4 7 None; plan_cell 20 2 5 None; plan_cell 31 9 6 (Some 3%Z); plan_cell 10 1 5 None; plan_cell 30 8 6 (Some 3%Z)].

Definition never (_ : ()) (_ : Z) : False + () := inr ().
Definition translate_id (c : OrderedCell) : False + Z := inr (c_id c).

Example small_schedule :
  ('(p, _) ← schedule_plan never (λ _ _, true) true translate_id sample_cells 0 None ();
   Ok (schedule p))
  = Ok {| units := [LayerUnit 0; CycleUnit 0; LayerUnit 1]; cycles := [[30; 31]%Z];
          layers := [{| vertices := [10; 20]%Z; runs := [{| r_start := 0; r_len := 2; r_sheet := 0; r_col := 0; r_row0 := 1; r_owner := 9 |}];
                        sequential := false |};
                     {| vertices := [40]%Z; runs := []; sequential := false |}] |}.
Proof. vm_compute. reflexivity. Qed.
