(* ===== verification/PlanScheduleSort.v ===== *)
(** The sort of [PlanSchedule]: on each of its paths the entries are in the stable order of
    layer, kind, cycle and position, read as one number of 256 bits. *)
From S2P Require Import Prelude PlanControl Counted Buckets Radix Schedule PlanSchedule.

(** * Keys *)

Record cell_typed (c : OrderedCell) : Prop := {
  typed_sheet : (0 ≤ c_sheet c < 2 ^ 16)%Z;
  typed_row : (0 ≤ c_row c < u32_max)%Z;
  typed_col : in_u32 (c_col c);
  typed_layer : in_u64 (c_layer c);
  typed_cycle k : c_cycle c = Some k → in_u64 k
}.
Definition entry_typed (e : Entry) : Prop := cell_typed (cell e) ∧ in_u32 (vertex e).

Lemma lor_bound a b n : (0 ≤ n)%Z → (0 ≤ a < 2 ^ n)%Z → (0 ≤ b < 2 ^ n)%Z → (0 ≤ Z.lor a b < 2 ^ n)%Z.
Proof.
  intros Hn Ha Hb. split; [apply Z.lor_nonneg; lia|]. assert (E : Z.lor a b = (Z.lor a b mod 2 ^ n)%Z).
  { apply Z.bits_inj'. intros i Hi. destruct (Z.lt_ge_cases i n).
    - by rewrite Z.mod_pow2_bits_low by lia.
    - rewrite Z.mod_pow2_bits_high, Z.lor_spec by lia. by rewrite !(testbit_high _ n) by lia. }
  rewrite E. apply Z.mod_pos_bound. lia.
Qed.

Lemma member_key_bound e : entry_typed e → (0 ≤ member_key e < 2 ^ 64)%Z.
Proof.
  intros [[Hs Hr Hc _ _] Hv]. unfold member_key, in_u32, u32_max in *. destruct (c_cycle (cell e)); [lia|].
  rewrite !Z.shiftl_mul_pow2 by lia. repeat apply lor_bound; lia.
Qed.

Lemma kind_key_value e : kind_key e = (Z.b2z (is_cyclic e) + 2 * Z.b2z (c_chain (cell e)))%Z.
Proof. unfold kind_key. by destruct (is_cyclic e), (c_chain (cell e)). Qed.

Lemma key_at_bound q e : entry_typed e → (0 ≤ key_at q e < 2 ^ 64)%Z.
Proof.
  intros He. pose proof (member_key_bound e He) as Hm. destruct He as [[_ _ _ Hl Hc] _]. unfold in_u64, u64_max in *.
  unfold key_at, keys. destruct q as [|[|[|[|q]]]]; cbn [nth]; [done| | |lia|destruct q; lia].
  - unfold cycle_key. destruct (c_cycle (cell e)) as [k|]; [specialize (Hc k eq_refl); lia|lia].
  - rewrite kind_key_value. destruct (is_cyclic e), (c_chain (cell e)); cbn; lia.
Qed.

(** The keys as one number. *)
Definition order_value (e : Entry) : Z :=
  (key_at 0 e + 2 ^ 64 * (key_at 1 e + 2 ^ 64 * (key_at 2 e + 2 ^ 64 * key_at 3 e)))%Z.

Lemma order_value_bound e : entry_typed e → (0 ≤ order_value e < 2 ^ 256)%Z.
Proof.
  intros He. pose proof (key_at_bound 0 e He). pose proof (key_at_bound 1 e He). pose proof (key_at_bound 2 e He). pose proof (key_at_bound 3 e He).
  unfold order_value. lia.
Qed.

Lemma byte_below k r s : (0 ≤ s)%Z → (s + 8 ≤ 64)%Z → (((k + 2 ^ 64 * r) / 2 ^ s) mod 256 = (k / 2 ^ s) mod 256)%Z.
Proof.
  intros Hs Hs8. assert (E : (2 ^ 64 * r = (2 ^ (56 - s) * r * 256) * 2 ^ s)%Z).
  { replace (2 ^ 64)%Z with (2 ^ (56 - s) * 2 ^ 8 * 2 ^ s)%Z by (rewrite <- !Z.pow_add_r by lia; f_equal; lia). lia. }
  rewrite E, Z.div_add by lia. by rewrite Z.mod_add by lia.
Qed.

Lemma byte_above l k r n s : (0 ≤ n)%Z → (0 ≤ s)%Z → (s + 8 ≤ 64)%Z → (0 ≤ l < 2 ^ n)%Z →
  (((l + 2 ^ n * (k + 2 ^ 64 * r)) / 2 ^ (n + s)) mod 256 = (k / 2 ^ s) mod 256)%Z.
Proof.
  intros Hn Hs Hs8 Hl. pose proof (Z.pow_pos_nonneg 2 s). rewrite Z.pow_add_r, <- Z.div_div by lia. rewrite (Z.mul_comm (2 ^ n)), Z.div_add, (Z.div_small l) by lia.
  by rewrite Z.add_0_l, byte_below.
Qed.

Lemma entry_digit_lt pass e : digit pass e < 256.
Proof. unfold digit. change 255%Z with (Z.ones 8). rewrite Z.land_ones by lia. pose proof (Z.mod_pos_bound (Z.shiftr (key_at (pass / 8) e) (shift_of pass)) (2 ^ 8)). lia. Qed.

Lemma entry_digit_byte pass e : entry_typed e → pass < 32 → digit pass e = byte order_value (8 * Z.of_nat pass) e.
Proof.
  intros He Hp. unfold digit, byte. change 255%Z with (Z.ones 8). rewrite Z.land_ones, Z.shiftr_div_pow2 by (unfold shift_of; lia).
  change (2 ^ 8)%Z with 256%Z. f_equal. pose proof (key_at_bound 0 e He). pose proof (key_at_bound 1 e He). pose proof (key_at_bound 2 e He).
  assert (Hq : pass / 8 < 4) by (apply Nat.Div0.div_lt_upper_bound; lia). pose proof (Nat.mod_upper_bound pass 8 ltac:(lia)) as Hr.
  assert (E : (8 * Z.of_nat pass = 64 * Z.of_nat (pass / 8) + shift_of pass)%Z).
  { unfold shift_of. pose proof (Nat.div_mod_eq pass 8). lia. }
  rewrite E. assert (Hs : (0 ≤ shift_of pass ∧ shift_of pass + 8 ≤ 64)%Z) by (unfold shift_of; lia). clear E. destruct Hs as [Hs Hs8].
  unfold order_value. destruct (pass / 8) as [|[|[|[|q]]]]; [..|lia].
  - by rewrite byte_below.
  - rewrite <- (byte_above (key_at 0 e) (key_at 1 e) (key_at 2 e + 2 ^ 64 * key_at 3 e) 64) by lia. done.
  - rewrite <- (byte_above (key_at 0 e + 2 ^ 64 * key_at 1 e) (key_at 2 e) (key_at 3 e) 128) by lia.
    change (64 * Z.of_nat 2)%Z with 128%Z. do 2 f_equal. lia.
  - rewrite <- (byte_above (key_at 0 e + 2 ^ 64 * (key_at 1 e + 2 ^ 64 * key_at 2 e)) (key_at 3 e) 0 192) by lia.
    change (64 * Z.of_nat 3)%Z with 192%Z. do 2 f_equal. lia.
Qed.

(** The order of the arrays is that of the numbers. *)
Lemma lex_lt_value a b : entry_typed a → entry_typed b → lex_lt (order_key a) (order_key b) = (order_value a <? order_value b)%Z.
Proof.
  intros Ha Hb. pose proof (λ q, key_at_bound q a Ha) as Ka. pose proof (λ q, key_at_bound q b Hb) as Kb.
  change (order_key a) with [key_at 3 a; key_at 2 a; key_at 1 a; key_at 0 a]. change (order_key b) with [key_at 3 b; key_at 2 b; key_at 1 b; key_at 0 b].
  unfold order_value. pose proof (Ka 0). pose proof (Ka 1). pose proof (Ka 2). pose proof (Kb 0). pose proof (Kb 1). pose proof (Kb 2). clear Ka Kb.
  generalize dependent (key_at 0 a). generalize dependent (key_at 0 b). generalize dependent (key_at 1 a). generalize dependent (key_at 1 b).
  generalize dependent (key_at 2 a). generalize dependent (key_at 2 b). generalize (key_at 3 a), (key_at 3 b). intros. cbn [lex_lt].
  apply eq_true_iff_eq. rewrite !orb_true_iff, !andb_true_iff, !orb_true_iff, !andb_true_iff, !orb_true_iff, !andb_true_iff, !orb_true_iff, !andb_true_iff, !Z.ltb_lt, !Z.eqb_eq.
  split; [intros; intuition lia|]. intros Hlt. lia.
Qed.

(** * Counting *)

#[export] Instance units_work_laws : WorkLaws Z.
Proof. split; unfold add_work, no_work, work_total, units_work, id; lia. Qed.

Definition sorted_as (l l' : list Entry) : Prop := stable order_value l l'.

Lemma sorted_short l : length l ≤ 1 → sorted_as l l.
Proof.
  intros Hl. split; [|done]. unfold ordered. destruct l as [|e [|e' l]]; [constructor|by constructor; constructor|cbn in Hl; lia].
Qed.

Section sorting.
Context {S X : Type} (checkpoint : S → Z → X + S) (alloc : nat → Z → bool) (debug : bool) (limit : option Z).
Context (errs : ScheduleError X → Prop) `{!Cancels checkpoint errs} (Hauth : ∀ e, refused limit e → errs (ScheduleAuthority e)).
Abbreviation runs := (Counted.runs (S := S) errs).

Lemma runs_tick {B} (k : () → counted S (ScheduleError X) Z B) Q : runs (k ()) (λ b w, Q b (1 + w)%Z) → runs (tick checkpoint ≫= k) Q.
Proof. intros Hk. eapply (runs_count checkpoint errs _ 1%Z); [done|done|exact Hk]. Qed.

Lemma runs_plan_charge {B} n (k : () → counted S (ScheduleError X) Z B) Q : (0 ≤ n)%Z → runs (k ()) (λ b w, Q b (n + w)%Z) → runs (charge checkpoint n ≫= k) Q.
Proof. intros Hn Hk. eapply (runs_units checkpoint errs _ n n); [done|done|done|exact Hk]. Qed.

Lemma runs_plan_authority {A B} (r : result AuthorityError A) (f : A → counted S (ScheduleError X) Z B) P Q :
  yields limit r P → (∀ a, P a → runs (f a) Q) → runs (authority r ≫= f) Q.
Proof. apply (runs_yields errs limit ScheduleAuthority), Hauth. Qed.

(** ** The radix sort *)

Lemma radix_pass_ok pass l temp : pass < 32 → Forall entry_typed l → length temp = length l →
  let out := buckets (byte order_value (8 * Z.of_nat pass)) l 256 in
  length out = length l ∧ radix_pass (X := X) pass l temp = Ok (out, l).
Proof.
  intros Hp Ht Hl out. unfold radix_pass. destruct (scattered (E := ScheduleError X) (digit pass) (entry_digit_lt pass) l temp Hl) as (counts & -> & Hsc & Hlen).
  cbn [mbind result_bind]. rewrite Hsc. cbn [mbind result_bind].
  assert (Hout : buckets (digit pass) l 256 = out).
  { apply buckets_ext. intros e He. rewrite Forall_forall in Ht. apply entry_digit_byte; [by apply Ht|done]. }
  by rewrite Hout in *.
Qed.

(** A pass that is skipped: its byte is the same in every entry. *)
Lemma differs_byte pass orig first : pass < 32 → Forall entry_typed orig →
  Z.land (Z.shiftr (differs (pass / 8) orig (key_at (pass / 8) first)) (shift_of pass)) 255 = 0%Z →
  ∀ e e', e ∈ orig → e' ∈ orig → byte order_value (8 * Z.of_nat pass) e = byte order_value (8 * Z.of_nat pass) e'.
Proof.
  intros Hp Ht [_ Hd]%(differs_bits (key_at (pass / 8))) e e' He He'. rewrite Forall_forall in Ht.
  rewrite <- !entry_digit_byte by (done || by apply Ht). unfold digit. by rewrite (Hd e He), (Hd e' He').
Qed.

Lemma runs_radix_passes orig first n : Forall entry_typed orig → ∀ p l temp, p + n = 32 → length l = length orig → length temp = length l →
  stable (low order_value (8 * Z.of_nat p)) orig l →
  runs (radix_passes checkpoint orig first (seq p n) l temp) (λ r w,
    stable (low order_value 256) orig r ∧ (0 ≤ w ≤ Z.of_nat n * (512 + 2 * Z.of_nat (length orig)))%Z).
Proof.
  intros Ht. induction n as [|n IH]; intros p l temp Hp Hl Htemp Hst; cbn [seq radix_passes].
  { apply runs_ret. replace p with 32 in Hst by lia. done. }
  assert (Hnext : (8 * Z.of_nat p + 8 = 8 * Z.of_nat (Datatypes.S p))%Z) by lia.
  destruct (Z.eqb_spec (Z.land (Z.shiftr (differs (p / 8) orig (key_at (p / 8) first)) (shift_of p)) 255) 0) as [Hz|Hnz].
  - eapply runs_weaken; [apply IH; [lia|done|done|]|cbn beta; intros r w [Hr Hw]; split; [done|lia]].
    rewrite <- Hnext. apply skip_stable; [lia| |done]. intros e e' He He'.
    apply (differs_byte p orig first); [lia|done|done|by apply (stable_elem _ _ _ _ Hst)..].
  - apply runs_plan_charge; [lia|].
    assert (Htl : Forall entry_typed l).
    { apply Forall_forall. intros e He. apply (stable_elem _ _ _ _ Hst) in He. rewrite Forall_forall in Ht. by apply Ht. }
    destruct (radix_pass_ok p l temp ltac:(lia) Htl Htemp) as [Hlen Hpass]. eapply runs_lift; [exact Hpass|].
    eapply runs_weaken; [apply IH; [lia|lia|lia|rewrite <- Hnext; by apply pass_stable; [lia|]]|].
    cbn beta. intros r w [Hr Hw]. split; [done|lia].
Qed.

Definition radix_cost (n : nat) : Z := (Z.of_nat n + 32 * (512 + 2 * Z.of_nat n))%Z.

Lemma runs_radix_sort k l : Forall entry_typed l →
  runs (radix_sort checkpoint alloc k l) (λ r w, sorted_as l r ∧ (0 ≤ w ≤ radix_cost (length l))%Z).
Proof.
  intros Ht. unfold radix_sort, radix_cost. eapply runs_plan_authority; [apply reserve_yields|]. intros [] _.
  destruct l as [|first [|second l]]; [apply runs_ret; split; [by apply sorted_short; cbn; lia|unfold no_work, units_work; lia]..|].
  apply runs_plan_charge; [lia|]. set (orig := first :: second :: l) in *.
  eapply runs_weaken; [apply (runs_radix_passes orig first 32 Ht 0); [done|done|done|apply low_start]|].
  cbn beta. intros r w [Hr Hw]. split; [|lia]. apply (low_end order_value 256); [|done]. eapply Forall_impl; [exact Ht|]. apply order_value_bound.
Qed.

(** ** The run sort *)

(** The entries of the runs, in the order of the table. *)
Definition slices (l : list Entry) (rs : list (nat * nat)) : list Entry := rs ≫= λ r, take r.2 (drop r.1 l).

Lemma exact_tail_ok {E} c l : (0 ≤ c_row c)%Z → ∀ k, (c_row c + Z.of_nat k ≤ 2 ^ 24)%Z → ∃ k',
  exact_tail (E := E) c k l = Ok k' ∧ k ≤ k' ≤ k + length l.
Proof.
  intros Hc. induction l as [|e l IH]; intros k Hk; cbn [exact_tail length]; [exists k; split; [done|lia]|].
  destruct (exact (cell e)) eqn:He; cbn [negb orb]; [|exists k; split; [done|lia]].
  destruct (_ || _ || _ || _) eqn:Ht; [exists k; split; [done|lia]|]. rewrite as_u32_nat by (unfold u32_max; lia).
  rewrite add_u32_ok by (unfold u32_max; lia). cbn [mbind result_bind].
  destruct (Z.eqb_spec (c_row (cell e)) (c_row c + Z.of_nat k)) as [Hr|Hr]; cbn [negb]; [|exists k; split; [done|lia]].
  destruct (IH (k + 1)) as (k' & -> & Hk'); [|exists k'; split; [done|lia]].
  unfold exact in He. apply andb_prop in He as [[He _]%andb_prop _]. rewrite Z.shiftl_mul_pow2 in He by lia. lia.
Qed.

Lemma runs_collect orig capacity fuel : Forall entry_typed orig → ∀ i l rs, l = drop i orig → length l ≤ fuel → i + length l = length orig →
  Forall (λ r, r.1 + r.2 ≤ length orig) rs → slices orig rs = take i orig → length rs ≤ capacity →
  runs (collect_runs checkpoint fuel capacity i l rs) (λ r w, match r with
    | Some rs => w = 0%Z ∧ Forall (λ r, r.1 + r.2 ≤ length orig) rs ∧ slices orig rs = orig ∧ length rs ≤ capacity
    | None => (0 ≤ w ≤ Z.of_nat (length orig))%Z
    end).
Proof.
  intros Ht. induction fuel as [|fuel IH]; intros i l rs Hl Hf Hlen Hb Hs Hc; destruct l as [|e rest]; cbn [collect_runs length] in *; try lia.
  1-2: apply runs_ret; rewrite take_ge in Hs by lia; done.
  assert (He : entry_typed e).
  { rewrite Forall_forall in Ht. apply Ht. rewrite <- (take_drop i orig). apply elem_of_app. right. rewrite <- Hl. by left. }
  assert (Hk : ∃ k, (if exact (cell e) then exact_tail (cell e) 1 rest else Ok 1) = Ok (E := ScheduleError X) k ∧ 1 ≤ k ≤ 1 + length rest).
  { destruct (exact (cell e)) eqn:Hx; [|exists 1; split; [done|lia]]. apply exact_tail_ok; [apply He|].
    unfold exact in Hx. apply andb_prop in Hx as [[Hx _]%andb_prop _]. rewrite Z.shiftl_mul_pow2 in Hx by lia. lia. }
  destruct Hk as (k & Hk & Hk1). eapply runs_lift; [exact Hk|].
  destruct (Nat.eqb_spec (length rs) capacity) as [Hcap|Hcap].
  - apply runs_plan_charge; [lia|]. apply runs_ret. unfold no_work, units_work. lia.
  - eapply runs_weaken; [apply IH|done].
    + by rewrite Hl, drop_drop.
    + rewrite length_drop. cbn. lia.
    + rewrite length_drop. cbn. lia.
    + apply Forall_app. split; [done|]. constructor; [cbn; lia|done].
    + unfold slices in *. rewrite bind_app, Hs. cbn. rewrite app_nil_r. by rewrite take_take_drop.
    + rewrite length_app. cbn. lia.
Qed.

Lemma expand_ok l rs : Forall (λ r, r.1 + r.2 ≤ length l) rs → ∀ out, expand (X := X) l rs out = Ok (out ++ slices l rs).
Proof.
  induction 1 as [|[a n] rs Hr _ IH]; intros out; cbn [expand]; [by rewrite app_nil_r|]. cbn in Hr.
  rewrite vec_slice_ok by lia. cbn [mbind result_bind]. rewrite IH. unfold slices. cbn. rewrite <- app_assoc. by rewrite Nat.add_comm, Nat.add_sub.
Qed.

Lemma out_of_order_sorted l : Forall entry_typed l → out_of_order l = false → StronglySorted (λ a b, (order_value a < order_value b)%Z) l.
Proof.
  intros Ht Ho. apply Sorted_StronglySorted; [intros a b c; lia|]. induction Ht as [|a l Ha Ht IH]; [constructor|].
  destruct l as [|b l]; [by repeat constructor|]. apply Forall_cons in Ht as [Hb Ht']. cbn [out_of_order] in Ho.
  apply orb_false_elim in Ho as [Hab Ho]. constructor; [by apply IH|]. constructor. rewrite lex_lt_value in Hab by done. lia.
Qed.

Definition run_cost (n : nat) : Z := (2 * Z.of_nat n + 20 * Z.of_nat (n / 8 + 1))%Z.

Lemma runs_run_sorted l : Forall entry_typed l →
  runs (run_sorted checkpoint alloc l) (λ r w, (0 ≤ w ≤ run_cost (length l))%Z ∧ ∀ out, r = Some out → sorted_as l out).
Proof.
  intros Ht. unfold run_sorted, run_cost. destruct (Nat.ltb_spec (length l) RUN_SORT_MIN) as [Hs|Hbig].
  { apply runs_ret. split; [unfold no_work, units_work; lia|by intros]. }
  eapply runs_plan_authority; [apply reserve_yields|]. intros [] _.
  eapply runs_bind; [apply (runs_collect l (length l / 8 + 1) (length l) Ht 0 l []); (done || lia || by constructor || cbn; lia)|].
  cbn beta. intros [rs|] w1; [|intros Hw; apply runs_ret; split; [unfold add_work, no_work, units_work in *; lia|by intros]].
  intros (-> & Hb & Hsl & Hcap). set (rs' := sort_by _ rs).
  assert (Hp : rs' ≡ₚ rs) by apply sort_by_perm.
  apply runs_plan_charge; [lia|]. apply runs_plan_charge; [lia|]. eapply runs_plan_authority; [apply reserve_yields|]. intros [] _.
  eapply runs_lift; [apply expand_ok; by rewrite Hp|]. cbn [app]. apply runs_plan_charge; [lia|]. apply runs_ret.
  pose proof (Permutation_length Hp) as Hpl. split; [unfold add_work, no_work, units_work in *; lia|].
  intros out. destruct (out_of_order _) eqn:Ho; [done|]. intros [= <-]. assert (Hpo : slices l rs' ≡ₚ l).
  { rewrite <- Hsl at 2. unfold slices. by rewrite Hp. }
  apply strict_stable; [done|]. apply out_of_order_sorted; [by rewrite Hpo|done].
Qed.

Lemma same_order_refl l : same_order l l = true.
Proof.
  unfold same_order. rewrite Nat.eqb_refl. cbn [andb]. induction l as [|e l IH]; [done|]. cbn [zip zip_with forallb fst snd]. rewrite IH.
  unfold same_entry. by rewrite !Z.eqb_refl, bool_decide_true.
Qed.

Definition sort_cost (n : nat) : Z := (run_cost n + radix_cost n)%Z.

(** The assertion of the debug build holds. *)
Lemma runs_sort_entries l : Forall entry_typed l →
  runs (sort_entries checkpoint alloc debug l) (λ r w, sorted_as l r ∧ (0 ≤ w ≤ sort_cost (length l))%Z).
Proof.
  intros Ht. unfold sort_entries, sort_cost. eapply runs_bind; [by apply runs_run_sorted|]. cbn beta. intros r w1 [Hw1 Hr].
  destruct r as [out|]; [|eapply runs_weaken; [by apply runs_radix_sort|]; cbn beta; intros r w [? ?]; split; [done|unfold add_work, units_work; lia]].
  specialize (Hr out eq_refl). destruct debug.
  - eapply runs_bind; [by apply runs_radix_sort|]. cbn beta. intros check w2 [Hc Hw2].
    rewrite (stable_unique _ _ _ _ Hc Hr), same_order_refl. apply runs_ret. split; [done|unfold add_work, no_work, units_work; lia].
  - apply runs_ret. split; [done|]. unfold add_work, no_work, units_work, radix_cost in *. lia.
Qed.
End sorting.
