(* ===== verification/PlanScheduleRuns.v ===== *)
(** The family runs of [PlanSchedule]: the maximal stretches of two or more cells of one family
    in consecutive rows of a column. *)
From S2P Require Import Prelude PlanControl Counted Buckets Radix Schedule ScheduleTheorems PlanSchedule PlanScheduleSort.

(** The next cell of the family. *)
Definition follows (e e' : Entry) : Prop :=
  c_owner (cell e') = c_owner (cell e) ∧ c_sheet (cell e') = c_sheet (cell e) ∧ c_col (cell e') = c_col (cell e) ∧
  c_row (cell e') = (c_row (cell e) + 1)%Z.

Section families.
Context (l : list Entry).

Definition link (i : nat) : Prop := ∃ e e', l !! i = Some e ∧ l !! (i + 1) = Some e' ∧ follows e e'.

Record family (a b : nat) : Prop := {
  family_range : a < b ≤ length l;
  family_linked i : a ≤ i → i + 1 < b → link i;
  family_first : a = 0 ∨ ¬ link (a - 1);
  family_last : b = length l ∨ ¬ link (b - 1)
}.

Definition run_of (e : Entry) (a k : nat) : LayerRun :=
  {| r_start := Z.of_nat a; r_len := Z.of_nat k; r_sheet := c_sheet (cell e); r_col := c_col (cell e); r_row0 := c_row (cell e);
     r_owner := c_owner (cell e) |}.

(** The runs of a layer are exactly its families of two or more grid cells. *)
Definition family_of (rs : list LayerRun) : Prop :=
  runs_ok (length l) rs ∧
  ∀ r, r ∈ rs ↔ ∃ a k e, 2 ≤ k ∧ family a (a + k) ∧ l !! a = Some e ∧ c_sheet (cell e) ≠ SYMBOL_SHEET ∧ r = run_of e a k.

Context (Ht : Forall entry_typed l) (Hlen : (Z.of_nat (length l) ≤ u32_max)%Z).

Lemma linked_row a b e : (∀ i, a ≤ i → i + 1 < b → link i) → l !! a = Some e → ∀ k e', a + k < b → l !! (a + k) = Some e' →
  c_owner (cell e') = c_owner (cell e) ∧ c_sheet (cell e') = c_sheet (cell e) ∧ c_col (cell e') = c_col (cell e) ∧
  c_row (cell e') = (c_row (cell e) + Z.of_nat k)%Z.
Proof.
  intros Hl He k. induction k as [|k IH]; intros e' Hk He'.
  - rewrite Nat.add_0_r, He in He'. injection He' as <-. rewrite Z.add_0_r. done.
  - destruct (Hl (a + k) ltac:(lia) ltac:(lia)) as (e1 & e2 & H1 & H2 & F1 & F2 & F3 & F4).
    replace (a + k + 1) with (a + S k) in H2 by lia. rewrite He' in H2. injection H2 as <-.
    destruct (IH e1 ltac:(lia) H1) as (G1 & G2 & G3 & G4). rewrite F1, F2, F3, F4, G1, G2, G3, G4. split_and!; [done..|lia].
Qed.

Lemma run_tail_ok a e : l !! a = Some e → ∀ rest k, 1 ≤ k → a + k + length rest = length l → rest = drop (a + k) l →
  (∀ i, a ≤ i → i + 1 < a + k → link i) →
  ∃ k', (∀ E, run_tail (E := E) (cell e) k rest = Ok k') ∧ 1 ≤ k' ≤ k + length rest ∧
    (∀ i, a ≤ i → i + 1 < a + k' → link i) ∧ (a + k' = length l ∨ ¬ link (a + k' - 1)).
Proof.
  intros Ha rest. induction rest as [|d rest IH]; intros k Hk Hl Hr Hlink; cbn [run_tail length] in *.
  { exists k. split; [done|]. split; [lia|]. split; [done|left; lia]. }
  assert (Hd : l !! (a + k) = Some d) by (rewrite <- (Nat.add_0_r (a + k)), <- lookup_drop, <- Hr; done).
  destruct (lookup_lt_is_Some_2 l (a + k - 1) ltac:(lia)) as [p Hp].
  assert (Hp' : l !! (a + (k - 1)) = Some p) by by replace (a + (k - 1)) with (a + k - 1) by lia.
  destruct (linked_row a (a + k) e Hlink Ha (k - 1) p ltac:(lia) Hp') as (P1 & P2 & P3 & P4).
  assert (Hrow : (c_row (cell p) < u32_max)%Z) by (rewrite Forall_forall in Ht; apply (Ht p), list_elem_of_lookup_2 with (a + k - 1); exact Hp).
  assert (Hlast : ¬ follows p d → ∃ k', (∀ E, Ok (E := E) k = Ok k') ∧ 1 ≤ k' ≤ k + S (length rest) ∧ (∀ i, a ≤ i → i + 1 < a + k' → link i) ∧
    (a + k' = length l ∨ ¬ link (a + k' - 1))).
  { intros Hn. exists k. split; [done|]. split; [lia|]. split; [done|]. right. intros (x & y & Hx & Hy & Hf).
    replace (a + k - 1 + 1) with (a + k) in Hy by lia. rewrite Hp in Hx. rewrite Hd in Hy. by simplify_eq. }
  destruct (Z.eqb_spec (c_owner (cell d)) (c_owner (cell e))) as [E1|E1]; cbn [negb orb]; [|apply Hlast; intros (? & _); congruence].
  destruct (Z.eqb_spec (c_sheet (cell d)) (c_sheet (cell e))) as [E2|E2]; cbn [negb orb]; [|apply Hlast; intros (_ & ? & _); congruence].
  destruct (Z.eqb_spec (c_col (cell d)) (c_col (cell e))) as [E3|E3]; cbn [negb orb]; [|apply Hlast; intros (_ & _ & ? & _); congruence].
  rewrite as_u32_nat by lia. unfold add_u32, checked_add. rewrite decide_True by lia. cbn [expect mbind result_bind].
  destruct (Z.eqb_spec (c_row (cell d)) (c_row (cell e) + Z.of_nat k)) as [E4|E4]; cbn [negb]; [|apply Hlast; intros (_ & _ & _ & ?); lia].
  destruct (IH (k + 1)) as (k' & Hk' & Hb & Hl' & He').
  - lia.
  - lia.
  - rewrite (drop_S _ _ _ Hd) in Hr. injection Hr as Hr. rewrite Hr. f_equal. lia.
  - intros i Hi Hi2. destruct (decide (i + 1 < a + k)) as [|Hge]; [by apply Hlink|]. replace i with (a + k - 1) by lia.
    exists p, d. split; [done|]. split; [by replace (a + k - 1 + 1) with (a + k) by lia|]. unfold follows. split_and!; [congruence..|lia].
  - exists k'. split; [done|]. split; [lia|done].
Qed.

(** The visited families. *)
Definition visited (v : nat * nat) : Prop :=
  2 ≤ v.2 ∧ family v.1 (v.1 + v.2) ∧ ∃ e, l !! v.1 = Some e ∧ c_sheet (cell e) ≠ SYMBOL_SHEET.

Lemma family_visits_ok fuel : ∀ i rest, length rest ≤ fuel → i + length rest = length l → rest = drop i l → i = 0 ∨ ¬ link (i - 1) →
  ∃ visits, (∀ E, family_visits (E := E) fuel i rest = Ok visits) ∧ (∀ v, v ∈ visits ↔ i ≤ v.1 ∧ visited v) ∧
    StronglySorted (λ x y, x.1 + x.2 ≤ y.1) visits.
Proof.
  induction fuel as [|fuel IH]; intros i rest Hf Hl Hr Hi; destruct rest as [|e rest]; cbn [family_visits length] in *; try lia.
  1-2: exists []; split; [done|]; split; [|constructor]; intros v; split; [by intros ?%elem_of_nil|intros (? & _ & Hv & _); destruct (family_range _ _ Hv); lia].
  assert (He : l !! i = Some e) by (rewrite <- (Nat.add_0_r i), <- lookup_drop, <- Hr; done).
  assert (Hr' : rest = drop (i + 1) l) by (rewrite (drop_S _ _ _ He) in Hr; injection Hr as Hr; rewrite Hr; f_equal; lia).
  destruct (run_tail_ok i e He rest 1 ltac:(lia) ltac:(lia) Hr' ltac:(lia)) as (k & Hk & Hb & Hlink & Hend).
  destruct (IH (i + k) (drop k (e :: rest))) as (visits & Hv & Hiff & Hs).
  { rewrite length_drop. cbn. lia. } { rewrite length_drop. cbn. lia. } { by rewrite Hr, drop_drop. }
  { destruct Hend as [Hend|Hend]; [|by right]. destruct (decide (i + k = 0)); [by left|right]. intros (x & y & _ & Hy & _). apply lookup_lt_Some in Hy. lia. }
  assert (Hfam : family i (i + k)) by (split; [lia|done|done|done]).
  assert (Hmine : ∀ a k', i ≤ a < i + k → family a (a + k') → a = i ∧ k' = k).
  { intros a k' Ha [Hrg Hli [H0|H0] Hla]; [|].
    - assert (a = i) as -> by lia. split; [done|]. destruct (Nat.lt_trichotomy k k') as [Hlt|[->|Hlt]]; [|done|].
      + destruct Hend as [|Hend]; [lia|]. destruct Hend. apply Hli; lia.
      + destruct Hla as [|Hla]; [lia|]. destruct Hla. apply Hlink; lia.
    - assert (a = i) as ->. { destruct (decide (a = i)) as [|Hne]; [done|]. destruct H0. apply Hlink; lia. }
      split; [done|]. destruct (Nat.lt_trichotomy k k') as [Hlt|[->|Hlt]]; [|done|].
      + destruct Hend as [|Hend]; [lia|]. destruct Hend. apply Hli; lia.
      + destruct Hla as [|Hla]; [lia|]. destruct Hla. apply Hlink; lia. }
  exists (if (2 <=? k)%nat && negb (c_sheet (cell e) =? SYMBOL_SHEET)%Z then (i, k) :: visits else visits).
  split; [intros E; by rewrite Hk; cbn [mbind result_bind]; rewrite Hv|].
  assert (Hsplit : ∀ v, i ≤ v.1 ∧ visited v ↔ (v = (i, k) ∧ 2 ≤ k ∧ c_sheet (cell e) ≠ SYMBOL_SHEET) ∨ v ∈ visits).
  { intros [a k']. rewrite Hiff. cbn [fst snd]. unfold visited. cbn [fst snd]. split.
    - intros (Ha & H2 & Hf' & x & Hx & Hsym). destruct (decide (a < i + k)) as [Hlt|Hge].
      + destruct (Hmine a k' ltac:(lia) Hf') as [-> ->]. left. rewrite He in Hx. by simplify_eq.
      + right. split; [lia|]. eauto.
    - intros [([= -> ->] & H2 & Hsym)|(Ha & Hrest)]; [split; [done|]; eauto|]. split; [lia|done]. }
  destruct (Nat.leb_spec 2 k) as [H2|H2]; cbn [andb]; [destruct (Z.eqb_spec (c_sheet (cell e)) SYMBOL_SHEET) as [Hsym|Hsym]; cbn [negb]|].
  - split; [|done]. intros v. rewrite Hsplit. split; [by right|]. by intros [(_ & _ & ?)|?].
  - split; [intros v; rewrite Hsplit, elem_of_cons; naive_solver|]. constructor; [done|]. apply Forall_forall. intros v [Hv1 _]%Hiff. cbn. done.
  - split; [|done]. intros v. rewrite Hsplit. split; [by right|]. intros [(_ & ? & _)|?]; [lia|done].
Qed.

Lemma for_each_ok : ∃ visits, (∀ E, for_each_family_run (E := E) l = Ok visits) ∧ (∀ v, v ∈ visits ↔ visited v) ∧
  StronglySorted (λ x y, x.1 + x.2 ≤ y.1) visits.
Proof.
  destruct (family_visits_ok (length l) 0 l) as (visits & Hv & Hiff & Hs); [lia|lia|done|by left|]. exists visits. split; [done|].
  split; [|done]. intros v. rewrite Hiff. split; [by intros [_ ?]|]. split; [lia|done].
Qed.

Lemma family_run_ok {E} v : visited v → ∃ e, l !! v.1 = Some e ∧ c_sheet (cell e) ≠ SYMBOL_SHEET ∧ family_run (E := E) l v = Ok (run_of e v.1 v.2).
Proof.
  intros (_ & Hf & e & He & Hs). exists e. split; [done|]. split; [done|]. unfold family_run, vec_get. rewrite He. cbn [expect mbind result_bind].
  destruct (family_range _ _ Hf). by rewrite !as_u32_nat by lia.
Qed.

Lemma family_pushes_ok visits : Forall visited visits → ∀ rs0 : list LayerRun, ∃ rs, (∀ E, family_pushes (E := E) l visits rs0 = Ok (rs0 ++ rs)) ∧
  length rs = length visits ∧ Forall2 (λ v r, ∃ e, l !! v.1 = Some e ∧ c_sheet (cell e) ≠ SYMBOL_SHEET ∧ r = run_of e v.1 v.2) visits rs.
Proof.
  induction 1 as [|v visits Hv _ IH]; intros rs0; cbn [family_pushes]; [exists []; by rewrite app_nil_r|].
  destruct (family_run_ok (E := Empty_set) v Hv) as (e & He & Hs & _). destruct (IH (rs0 ++ [run_of e v.1 v.2])) as (rs & Hrs & Hl & Hf).
  exists (run_of e v.1 v.2 :: rs). split.
  - intros E. destruct (family_run_ok (E := E) v Hv) as (e' & He' & _ & ->). cbn [mbind result_bind]. rewrite He in He'. injection He' as <-.
    by rewrite Hrs, <- app_assoc.
  - split; [cbn; lia|]. constructor; [by exists e|done].
Qed.

(** A family is a run in range. *)
Lemma visited_run_ok v e : visited v → l !! v.1 = Some e → run_ok (length l) (run_of e v.1 v.2).
Proof.
  intros (H2 & Hf & _) He. pose proof (family_range _ _ Hf) as Hr.
  destruct (lookup_lt_is_Some_2 l (v.1 + (v.2 - 1)) ltac:(lia)) as [d Hd].
  destruct (linked_row v.1 (v.1 + v.2) e (family_linked _ _ Hf) He (v.2 - 1) d ltac:(lia) Hd) as (_ & _ & _ & Hrow).
  rewrite Forall_forall in Ht. destruct (Ht d (list_elem_of_lookup_2 _ _ _ Hd)) as [Hd1 _].
  destruct (Ht e (list_elem_of_lookup_2 _ _ _ He)) as [He1 _]. pose proof (typed_row _ Hd1). pose proof (typed_row _ He1).
  unfold run_ok, run_of, run_stop. cbn. lia.
Qed.

(** The number of runs of a layer. *)
Definition run_count : nat := match for_each_family_run (E := Empty_set) l with Ok visits => length visits | _ => 0 end.

Lemma for_each_count {E} : ∃ visits, for_each_family_run (E := E) l = Ok visits ∧ length visits = run_count.
Proof. destruct for_each_ok as (visits & Hv & _). exists visits. split; [done|]. unfold run_count. by rewrite Hv. Qed.

Lemma family_runs_ok alloc k limit : yields limit (family_runs alloc k l) (λ rs, family_of rs ∧ length rs = run_count).
Proof.
  unfold family_runs. destruct for_each_ok as (visits & Hv & Hiff & Hs). rewrite Hv. cbn [mbind result_bind].
  eapply yields_bind; [apply reserve_yields|]. intros [] _. cbn [mbind result_bind].
  destruct (family_pushes_ok visits) with (rs0 := @nil LayerRun) as (rs & Hrs & Hl & Hf).
  { apply Forall_forall. intros v. apply Hiff. }
  rewrite Hrs. cbn [yields app]. split; [|unfold run_count; by rewrite Hv]. split.
  - assert (Hok : Forall visited visits) by (apply Forall_forall; intros v; apply Hiff). clear Hv Hiff Hl Hrs. split.
    + induction Hf as [|v r visits rs (e & He & _ & ->) Hf IH]; [constructor|]. apply StronglySorted_inv in Hs as [Hs Hh].
      apply Forall_cons in Hok as [_ Hok]. constructor; [by apply IH|]. apply Forall_forall. intros r' Hr'.
      apply list_elem_of_lookup in Hr' as [i Hr']. destruct (Forall2_lookup_r _ _ _ _ _ Hf Hr') as (v' & Hv'%list_elem_of_lookup_2 & e' & _ & _ & ->).
      rewrite Forall_forall in Hh. specialize (Hh v' Hv'). unfold run_stop, run_of. cbn. lia.
    + clear Hs. induction Hf as [|v r visits rs (e & He & _ & ->) Hf IH]; [constructor|]. apply Forall_cons in Hok as [Hv Hok].
      constructor; [by apply visited_run_ok|by apply IH].
  - intros r. split.
    + intros [i Hr]%list_elem_of_lookup. destruct (Forall2_lookup_r _ _ _ _ _ Hf Hr) as (v & Hv'%list_elem_of_lookup_2 & e & He & Hsym & ->). apply Hiff in Hv' as (H2 & Hf' & _).
      exists v.1, v.2, e. done.
    + intros (a & k' & e & H2 & Hf' & He & Hsym & ->). assert (Hin : (a, k') ∈ visits) by (apply Hiff; split; [done|split; [done|by exists e]]).
      apply list_elem_of_lookup in Hin as [i Hin].
      destruct (Forall2_lookup_l _ _ _ _ _ Hf Hin) as (r & Hr%list_elem_of_lookup_2 & e' & He' & _ & ->). cbn in He', Hr. rewrite He in He'. by injection He' as <-.
Qed.
End families.
