(* ===== verification/PlanScheduleTheorems.v ===== *)
(** The schedule of [PlanSchedule]: the groups of the sorted entries, their layers and cycles,
    and the property of the whole adapter. *)
From S2P Require Import Prelude PlanControl Counted Buckets Radix Schedule ScheduleTheorems PlanSchedule PlanScheduleSort PlanScheduleRuns.

(** * Groups *)

Definition headed (g : Group) (l : list Entry) : Prop := match l with [] => False | e :: _ => group e = g end.

#[export] Instance headed_dec g l : Decision (headed g l).
Proof. destruct l as [|e l]; [apply _|]. change (Decision (group e = g)). apply _. Defined.

(** The entries split into their maximal groups. *)
Inductive segmented : list Entry → list (list Entry) → Prop :=
| segmented_nil : segmented [] []
| segmented_cons e es rest segs : Forall (λ d, group d = group e) es → ¬ headed (group e) rest → segmented rest segs →
    segmented (e :: es ++ rest) ((e :: es) :: segs).

Lemma segmented_exists l : ∃ segs, segmented l segs.
Proof.
  induction l as [|e l (segs & Hs)]; [exists []; constructor|]. destruct (decide (headed (group e) l)) as [Hh|Hh].
  - destruct Hs as [|e' es rest segs Hf Hn Hs]; [done|]. cbn in Hh. exists ((e :: e' :: es) :: segs).
    apply (segmented_cons e (e' :: es)); [|by rewrite <- Hh|done]. constructor; [done|]. by rewrite <- Hh.
  - exists ([e] :: segs). by apply (segmented_cons e []).
Qed.

Lemma segmented_concat l segs : segmented l segs → concat segs = l.
Proof. induction 1 as [|e es rest segs _ _ _ IH]; [done|]. cbn. by rewrite IH. Qed.

Lemma segmented_length l segs : segmented l segs → length segs ≤ length l.
Proof. induction 1; cbn [length] in *; rewrite ?length_app; lia. Qed.

Lemma group_tail_ok g es rest : Forall (λ d, group d = g) es → ¬ headed g rest → ∀ k, group_tail g k (es ++ rest) = k + length es.
Proof.
  induction 1 as [|d es Hd _ IH]; intros Hn k; cbn [group_tail app length].
  - destruct rest as [|e rest]; cbn [group_tail]; [lia|]. rewrite bool_decide_false by done. lia.
  - rewrite bool_decide_true by done. rewrite IH by done. lia.
Qed.

(** ** The order of the groups *)

Definition group_value (e : Entry) : Z := (key_at 1 e + 2 ^ 64 * (key_at 2 e + 2 ^ 64 * key_at 3 e))%Z.

Lemma order_value_group e : order_value e = (member_key e + 2 ^ 64 * group_value e)%Z.
Proof. done. Qed.

Lemma group_value_le a b : entry_typed a → entry_typed b → (order_value a ≤ order_value b)%Z → (group_value a ≤ group_value b)%Z.
Proof. intros Ha Hb. pose proof (member_key_bound a Ha). pose proof (member_key_bound b Hb). rewrite !order_value_group. lia. Qed.

Lemma group_value_eq a b : entry_typed a → entry_typed b → group_value a = group_value b ↔ group a = group b.
Proof.
  intros Ha Hb. pose proof (key_at_bound 1 a Ha). pose proof (key_at_bound 1 b Hb). pose proof (key_at_bound 2 a Ha). pose proof (key_at_bound 2 b Hb).
  unfold group_value. split.
  - intros E. assert (E3 : key_at 3 a = key_at 3 b) by lia. assert (E2 : key_at 2 a = key_at 2 b) by lia.
    assert (E1 : key_at 1 a = key_at 1 b) by lia. clear -E1 E2 E3. cbn in E1, E2, E3. rewrite !kind_key_value in E2.
    unfold group, cycle_key, is_cyclic in *. destruct (c_chain (cell a)), (c_chain (cell b)), (c_cycle (cell a)), (c_cycle (cell b)); cbn in E2; (lia || congruence).
  - unfold group. intros [= E1 E2 E3]. unfold key_at. cbn. by rewrite !kind_key_value, E1, E3; unfold cycle_key, is_cyclic; rewrite E2.
Qed.

Lemma layer_le a b : entry_typed a → entry_typed b → (group_value a ≤ group_value b)%Z → (c_layer (cell a) ≤ c_layer (cell b))%Z.
Proof.
  intros Ha Hb. pose proof (key_at_bound 1 a Ha). pose proof (key_at_bound 1 b Hb). pose proof (key_at_bound 2 a Ha). pose proof (key_at_bound 2 b Hb).
  unfold group_value. change (key_at 3 a) with (c_layer (cell a)). change (key_at 3 b) with (c_layer (cell b)). lia.
Qed.

Lemma elem_of_segments (t : list Entry) b segs : t ∈ segs → b ∈ t → b ∈ concat segs.
Proof.
  induction segs as [|s segs IH]; [by intros ?%elem_of_nil|]. cbn. rewrite elem_of_cons, elem_of_app. intros [->|Ht] Hb; [by left|right; by apply IH].
Qed.

(** In sorted entries a group is in one place. *)
Lemma segmented_apart l segs : segmented l segs → Forall entry_typed l → ordered order_value l →
  StronglySorted (λ s t, ∀ a b, a ∈ s → b ∈ t → (group_value a < group_value b)%Z) segs.
Proof.
  induction 1 as [|e es rest segs Hf Hn Hs IH]; intros Ht Ho; [constructor|].
  change (e :: es ++ rest) with ((e :: es) ++ rest) in *. apply Forall_app in Ht as [Ht Ht']. unfold ordered in Ho.
  apply StronglySorted_app in Ho as (Hle & _ & Ho'). constructor; [by apply IH|].
  assert (Hall : ∀ a b, a ∈ e :: es → b ∈ rest → (group_value a < group_value b)%Z).
  { intros a b Ha Hb. rewrite Forall_forall in Ht, Ht', Hf. assert (Ga : group a = group e) by (apply elem_of_cons in Ha as [->|Ha]; [done|by apply Hf]).
    destruct rest as [|h rest]; [by apply elem_of_nil in Hb|]. cbn in Hn.
    assert (Hh : h ∈ h :: rest) by by left. pose proof (group_value_le a h (Ht a Ha) (Ht' h Hh) (Hle a h Ha Hh)) as H1.
    assert (H2 : group_value a ≠ group_value h) by (rewrite group_value_eq by auto; congruence).
    assert (H3 : (group_value h ≤ group_value b)%Z); [|lia]. apply elem_of_cons in Hb as [->|Hb]; [lia|].
    apply StronglySorted_inv in Ho' as [_ Hh']. rewrite Forall_forall in Hh'. apply group_value_le; [by apply Ht'|by apply Ht'; right|by apply Hh']. }
  apply Forall_forall. intros t Htin a b Ha Hb. apply Hall; [done|]. rewrite <- (segmented_concat _ _ Hs). by apply (elem_of_segments t).
Qed.

(** * The steps *)

(** The step of a group. *)
Definition step_of (es : list Entry) (st : Step) : Prop :=
  match es with
  | [] => False
  | e :: _ =>
      if is_cyclic e then st = inr (vertex <$> es)
      else ∃ rs, st = inl {| vertices := vertex <$> es; runs := rs; sequential := c_chain (cell e) |} ∧ family_of es rs
  end.

(** The entries, cut into the steps of the schedule. *)
Definition grouped (l : list Entry) (ss : list Step) : Prop := ∃ segs, segmented l segs ∧ Forall2 step_of segs ss.

Lemma step_content es st : step_of es st → content st = vertex <$> es.
Proof. destruct es as [|e es]; [done|]. unfold step_of. destruct (is_cyclic e); [by intros ->|]. by intros (rs & -> & _). Qed.

Lemma steps_content segs ss : Forall2 step_of segs ss → ss ≫= content = vertex <$> concat segs.
Proof.
  induction 1 as [|es st segs ss Hst _ IH]; [done|]. cbn [mbind list_bind concat]. by rewrite IH, (step_content _ _ Hst), fmap_app.
Qed.

(** [f] is evaluated before [e]: in an earlier layer, in the same cycle, or in an earlier row of
    a chain. *)
Definition comes_before (f e : Entry) : Prop :=
  (c_layer (cell f) < c_layer (cell e))%Z ∨
  group f = group e ∧ (is_cyclic e = true ∨ c_chain (cell e) = true ∧ (member_key f < member_key e)%Z).

Lemma segmented_groups l segs : segmented l segs → Forall (λ s, ∀ a b, a ∈ s → b ∈ s → group a = group b) segs.
Proof.
  induction 1 as [|e es rest segs Hf _ _ IH]; constructor; [|done]. rewrite Forall_forall in Hf.
  assert (H : ∀ a, a ∈ e :: es → group a = group e) by (intros a [->|Ha]%elem_of_cons; [done|by apply Hf]).
  intros a b Ha Hb. by rewrite (H a), (H b).
Qed.

Lemma group_cyclic a b : group a = group b → is_cyclic a = is_cyclic b ∧ c_chain (cell a) = c_chain (cell b) ∧ c_layer (cell a) = c_layer (cell b).
Proof. unfold group, is_cyclic. by intros [= -> -> ->]. Qed.

Lemma step_of_orders dep es st : Forall entry_typed es → ordered order_value es → (∀ a b, a ∈ es → b ∈ es → group a = group b) →
  (∀ e f, e ∈ es → f ∈ es → dep (vertex e) (vertex f) → comes_before f e) → step_of es st → step_orders dep st.
Proof.
  intros Ht Ho Hg Hdep. destruct es as [|e0 es]; [done|]. set (l := e0 :: es) in *. unfold step_of. cbn [l].
  destruct (is_cyclic e0) eqn:Hc; [by intros ->|]. intros (rs & -> & _). cbn [step_orders sequential vertices]. fold l.
  assert (H0 : ∀ e, e ∈ l → is_cyclic e = false ∧ c_chain (cell e) = c_chain (cell e0) ∧ c_layer (cell e) = c_layer (cell e0)).
  { intros e He. destruct (group_cyclic e e0 (Hg e e0 He ltac:(by left))) as (-> & ? & ?). done. }
  destruct (c_chain (cell e0)) eqn:Hch.
  - intros i j u w Hij Hu Hw Huw. apply list_lookup_fmap_Some in Hu as (e & -> & He), Hw as (f & -> & Hf).
    pose proof (list_elem_of_lookup_2 _ _ _ He) as Hel. pose proof (list_elem_of_lookup_2 _ _ _ Hf) as Hfl.
    destruct (H0 e Hel) as (Ce & _ & Le), (H0 f Hfl) as (_ & _ & Lf).
    destruct (Hdep e f Hel Hfl Huw) as [Hlt|(G & [Hcy|[_ Hlt]])]; [lia|congruence|].
    destruct (decide (i = j)) as [->|Hne]; [rewrite He in Hf; injection Hf as <-; lia|].
    assert (Hle : (order_value e ≤ order_value f)%Z).
    { unfold ordered in Ho. rewrite <- (take_drop_middle l i e He) in Ho. apply StronglySorted_app_1_r, StronglySorted_inv in Ho as [_ Ho].
      rewrite Forall_forall in Ho. apply Ho. apply list_elem_of_lookup_2 with (j - S i). rewrite lookup_drop. rewrite <- Hf. f_equal. lia. }
    rewrite !order_value_group in Hle. rewrite Forall_forall in Ht. apply group_value_eq in G; [lia|by apply Ht|by apply Ht].
  - intros u w Hu Hw Huw. apply list_elem_of_fmap in Hu as (e & -> & He), Hw as (f & -> & Hf).
    destruct (H0 e He) as (Ce & Che & Le), (H0 f Hf) as (_ & _ & Lf).
    destruct (Hdep e f He Hf Huw) as [Hlt|(_ & [Hcy|[Hch' _]])]; [lia|congruence|congruence].
Qed.

Lemma grouped_orders dep l ss : Forall entry_typed l → ordered order_value l → grouped l ss →
  (∀ e f, e ∈ l → f ∈ l → dep (vertex e) (vertex f) → comes_before f e) → orders dep ss.
Proof.
  intros Ht Ho (segs & Hs & Hf) Hdep. pose proof (segmented_apart _ _ Hs Ht Ho) as Hap. pose proof (segmented_groups _ _ Hs) as Hg.
  rewrite <- (segmented_concat _ _ Hs) in *. clear Hs l. induction Hf as [|es st segs ss Hst Hf IH]; [split; constructor|].
  apply StronglySorted_inv in Hap as [Hap Hh]. apply Forall_cons in Hg as [Hg0 Hg]. cbn [concat] in *. apply Forall_app in Ht as [Ht0 Ht].
  unfold ordered in Ho. apply StronglySorted_app in Ho as (_ & Ho0 & Ho).
  destruct IH as [Hss Hall]; try done; [intros e f He Hf'; apply Hdep; apply elem_of_app; by right|]. split.
  - constructor; [done|]. apply Forall_forall. intros st' Hin u w Hu Hw Huw. apply list_elem_of_lookup in Hin as [i Hi].
    destruct (Forall2_lookup_r _ _ _ _ _ Hf Hi) as (es' & Hes' & Hst'). apply list_elem_of_lookup_2 in Hes'.
    rewrite (step_content _ _ Hst) in Hu. rewrite (step_content _ _ Hst') in Hw.
    apply list_elem_of_fmap in Hu as (e & -> & He), Hw as (f & -> & Hf'). rewrite Forall_forall in Hh. specialize (Hh _ Hes' e f He Hf').
    assert (Hfin : f ∈ concat segs) by by apply (elem_of_segments es'). rewrite Forall_forall in Ht0, Ht.
    destruct (Hdep e f) as [Hlt|(G & _)]; [by apply elem_of_app; left|by apply elem_of_app; right|done| |].
    + pose proof (layer_le e f (Ht0 e He) (Ht f Hfin)). lia.
    + apply group_value_eq in G; [lia|by apply Ht|by apply Ht0].
  - constructor; [|done]. apply (step_of_orders dep es); [done|done|done| |done]. intros e f He Hf'. apply Hdep; apply elem_of_app; by left.
Qed.

(** * Counting and building *)

Definition cyclic_group (es : list Entry) : bool := match es with e :: _ => is_cyclic e | [] => false end.
Definition cycle_count (segs : list (list Entry)) : nat := sum_list_with (λ es, if cyclic_group es then 1 else 0) segs.
Definition layer_count (segs : list (list Entry)) : nat := sum_list_with (λ es, if cyclic_group es then 0 else 1) segs.
Definition run_total (segs : list (list Entry)) : nat := sum_list_with (λ es, if cyclic_group es then 0 else run_count es) segs.

Section stage.
Context {S X : Type} (checkpoint : S → Z → X + S) (alloc : nat → Z → bool) (debug : bool) (limit : option Z).
Context (translate : OrderedCell → X + Z) (cells : list OrderedCell).

Definition schedule_errs (e : ScheduleError X) : Prop :=
  match e with
  | ScheduleAuthority e => refused limit e
  | ScheduleRuntime x => raised checkpoint x ∨ ∃ c, c ∈ cells ∧ translate c = inl x
  end.

#[export] Instance schedule_errs_cancels : Cancels checkpoint schedule_errs.
Proof. intros x Hx. by left. Qed.

Lemma schedule_errs_authority e : refused limit e → schedule_errs (ScheduleAuthority e).
Proof. done. Qed.

Abbreviation runs := (Counted.runs (S := S) schedule_errs).

(** The cells with their vertices. *)
Definition translated (cs : list OrderedCell) (l : list Entry) : Prop := Forall2 (λ c e, cell e = c ∧ translate c = inr (vertex e)) cs l.

Lemma runs_translate cs : (∀ c, c ∈ cs → c ∈ cells) → ∀ l0,
  runs (translate_cells checkpoint translate cs l0) (λ r w, ∃ l, r = l0 ++ l ∧ translated cs l ∧ w = Z.of_nat (length cs)).
Proof.
  induction cs as [|c cs IH]; intros Hcs l0; cbn [translate_cells]; [apply runs_ret; exists []; rewrite app_nil_r; by repeat constructor|].
  apply runs_tick; [apply _|]. apply runs_lift_err. destruct (translate c) as [x|v] eqn:Hv.
  { right. exists c. split; [apply Hcs; by left|done]. }
  eapply runs_weaken; [apply IH; intros d Hd; apply Hcs; by right|]. cbn beta. intros r w (l & -> & Hl & ->).
  exists ({| cell := c; vertex := v |} :: l). split; [by rewrite <- app_assoc|]. split; [by constructor|cbn; lia].
Qed.

Lemma runs_count_tail g es : Forall (λ d, group d = g) es → ∀ rest ls cs Q,
  runs (count_groups checkpoint rest (Some g) ls cs) (λ r w, Q r (Z.of_nat (length es) + w)%Z) →
  runs (count_groups checkpoint (es ++ rest) (Some g) ls cs) Q.
Proof.
  induction 1 as [|d es Hd _ IH]; intros rest ls cs Q Hk; cbn [app count_groups].
  - eapply runs_weaken; [exact Hk|]. cbn beta. intros r w. cbn. by rewrite Z.add_0_l.
  - apply runs_tick; [apply _|]. rewrite bool_decide_true by congruence. apply IH. eapply runs_weaken; [exact Hk|]. cbn beta. intros r w.
    cbn [length]. by replace (1 + (Z.of_nat (length es) + w))%Z with (Z.of_nat (Datatypes.S (length es)) + w)%Z by lia.
Qed.

Lemma runs_count_groups l segs : segmented l segs → ∀ previous ls cs, (∀ g, previous = Some g → ¬ headed g l) →
  runs (count_groups checkpoint l previous ls cs) (λ r w, r = (ls + layer_count segs, cs + cycle_count segs) ∧ w = Z.of_nat (length l)).
Proof.
  induction 1 as [|e es rest segs Hf Hn Hs IH]; intros previous ls cs Hp; cbn [count_groups].
  { apply runs_ret. by rewrite !Nat.add_0_r. }
  apply runs_tick; [apply _|]. rewrite bool_decide_false by (intros ->; by apply (Hp (group e))).
  unfold layer_count, cycle_count in *. cbn [sum_list_with cyclic_group].
  destruct (is_cyclic e); apply (runs_count_tail (group e)); try done; (eapply runs_weaken; [apply IH; by intros g [= <-]|]);
    cbn beta; intros r w [-> ->]; (split; [f_equal; lia|cbn [length]; rewrite length_app; lia]).
Qed.

Lemma runs_count_runs l segs : segmented l segs → Forall entry_typed l → (Z.of_nat (length l) ≤ u32_max)%Z → ∀ fuel r0, length l ≤ fuel →
  runs (count_runs checkpoint fuel l r0) (λ r w, r = r0 + run_total segs ∧ w = Z.of_nat (length segs)).
Proof.
  induction 1 as [|e es rest segs Hf Hn Hs IH]; intros Ht Hlen fuel r0 Hfuel; destruct fuel as [|fuel]; cbn [count_runs length] in *; try lia.
  1-2: apply runs_ret; by rewrite Nat.add_0_r.
  rewrite length_app in *. rewrite (group_tail_ok _ es rest Hf Hn). change (e :: es ++ rest) with ((e :: es) ++ rest) in *.
  rewrite take_app_length', drop_app_length' by done. apply Forall_app in Ht as [Ht Ht'].
  assert (Hvisits : runs (if is_cyclic e then mret [] else lift (for_each_family_run (e :: es)))
    (λ v w, length v = (if is_cyclic e then 0 else run_count (e :: es)) ∧ w = 0%Z)).
  { destruct (is_cyclic e); [by apply runs_ret|].
    destruct (for_each_count (e :: es) Ht ltac:(cbn; lia) (E := ScheduleError X)) as (v & Hv & Hl). by eapply runs_lift_tail. }
  eapply runs_bind; [exact Hvisits|]. cbn beta. intros v w1 [Hv ->]. apply runs_tick; [apply _|].
  eapply runs_weaken; [apply IH; [done|lia|lia]|]. cbn beta. intros r w [-> ->]. unfold run_total. cbn [sum_list_with cyclic_group].
  rewrite Hv. split; [lia|]. unfold add_work, units_work. cbn [length]. lia.
Qed.

Lemma runs_scan g es : Forall (λ d, group d = g) es → ∀ rest k, ¬ headed g rest →
  runs (scan_group checkpoint g k (es ++ rest)) (λ r w, r = k + length es ∧ (0 ≤ w ≤ Z.of_nat (length es) + 1)%Z).
Proof.
  induction 1 as [|d es Hd _ IH]; intros rest k Hn; cbn [app scan_group length].
  - destruct rest as [|e rest]; cbn [scan_group]; [apply runs_ret; unfold no_work, units_work; lia|]. apply runs_tick; [apply _|].
    rewrite bool_decide_false by done. apply runs_ret. unfold no_work, units_work; lia.
  - apply runs_tick; [apply _|]. rewrite bool_decide_true by done. eapply runs_weaken; [by apply IH|]. cbn beta. intros r w [-> Hw]. lia.
Qed.

Lemma runs_push l : ∀ vs, runs (push_vertices checkpoint l vs) (λ r w, r = vs ++ (vertex <$> l) ∧ w = Z.of_nat (length l)).
Proof.
  induction l as [|e l IH]; intros vs; cbn [push_vertices]; [apply runs_ret; by rewrite app_nil_r|]. apply runs_tick; [apply _|].
  eapply runs_weaken; [apply IH|]. cbn beta. intros r w [-> ->]. rewrite <- app_assoc. split; [done|cbn [length]; lia].
Qed.

Definition step_runs (st : Step) : nat := match st with inl ly => length (Schedule.runs ly) | inr _ => 0 end.

Lemma runs_build_schedule l segs : segmented l segs → Forall entry_typed l → (Z.of_nat (length l) ≤ u32_max)%Z → ∀ fuel k n out dn,
  length l ≤ fuel → partial_ok n out dn → (Z.of_nat (n + length segs) ≤ u32_max)%Z →
  runs (build checkpoint alloc fuel k l out) (λ r w, ∃ ss, Forall2 step_of segs ss ∧ partial_ok (n + length segs) r (dn ++ ss) ∧
    sum_list_with step_runs ss = run_total segs ∧ (0 ≤ w ≤ 3 * Z.of_nat (length l))%Z).
Proof.
  induction 1 as [|e es rest segs Hf Hn Hs IH]; intros Ht Hlen fuel k n out dn Hfuel Hp Hcap; destruct fuel as [|fuel]; cbn [build length] in *; try lia.
  1-2: apply runs_ret; exists []; rewrite app_nil_r, Nat.add_0_r; (split; [constructor|]); (split; [done|]); (split; [done|]); unfold no_work, units_work; cbn; lia.
  rewrite length_app in *. apply runs_tick; [apply _|]. eapply runs_bind; [by apply runs_scan|]. cbn beta. intros m w1 [-> Hw1].
  eapply (runs_plan_authority limit _ schedule_errs_authority); [apply reserve_yields|]. intros [] _.
  change (e :: es ++ rest) with ((e :: es) ++ rest) in *. rewrite take_app_length', drop_app_length' by done. apply Forall_app in Ht as [Ht Ht'].
  eapply runs_bind; [apply runs_push|]. cbn beta. intros vs w2 [-> ->]. cbn [app length].
  replace (n + Datatypes.S (length segs)) with (n + 1 + length segs) in * by lia. unfold run_total in *. cbn [sum_list_with cyclic_group].
  destruct (is_cyclic e) eqn:Hc.
  - eapply runs_weaken; [apply (IH Ht' ltac:(lia) fuel _ (n + 1) _ (dn ++ [inr (vertex <$> e :: es)])); [lia|apply push_cycle_ok; [lia|done]|lia]|].
    cbn beta. intros r w (ss & Hss & Hr & Hsum & Hw). exists (inr (vertex <$> e :: es) :: ss).
    split; [constructor; [by unfold step_of; rewrite Hc|done]|]. split; [by rewrite <- app_assoc in Hr|]. split; [done|].
    unfold add_work, units_work. lia.
  - eapply (runs_plan_authority limit _ schedule_errs_authority); [apply (family_runs_ok (e :: es)); [done|cbn; lia]|]. intros rs [Hrs Hcount].
    set (ly := {| vertices := _; Schedule.runs := rs; sequential := _ |}).
    assert (Hly : layer_ok ly) by (unfold layer_ok; cbn [ly vertices Schedule.runs]; rewrite length_fmap; split; [cbn; lia|apply Hrs]).
    eapply runs_weaken; [apply (IH Ht' ltac:(lia) fuel _ (n + 1) _ (dn ++ [inl ly])); [lia|by apply push_layer_ok; [lia| |]|lia]|].
    cbn beta. intros r w (ss & Hss & Hr & Hsum & Hw). exists (inl ly :: ss).
    split; [constructor; [unfold step_of; rewrite Hc; by exists rs|done]|]. split; [by rewrite <- app_assoc in Hr|].
    split; [cbn; lia|]. unfold add_work, units_work. lia.
Qed.

(** ** Memory *)

Definition table_bytes (n : nat) : Z := if (RUN_SORT_MIN <=? n)%nat then (16 * Z.of_nat (n / 8 + 1))%Z else 0%Z.

Lemma sorting_yields n held : yields limit (sorting_bytes n held) (λ x, x = held + 112 * Z.of_nat n + table_bytes n)%Z.
Proof.
  unfold sorting_bytes. do 2 (eapply yields_bind; [apply bytes_of_yields|]; intros ? ->). eapply yields_bind; [apply add_yields|]. intros ? ->.
  eapply (yields_bind _ _ _ (λ x, x = table_bytes n)); [unfold table_bytes; destruct (RUN_SORT_MIN <=? n)%nat; [|done]|].
  { pose proof (bytes_of_yields limit 16 (Z.of_nat (n / 8 + 1))) as H. unfold yields in *. destruct (bytes_of _ _); [lia|done..]. }
  intros ? ->. eapply yields_bind; [apply add_yields|]. intros ? ->.
  match goal with |- yields _ (add ?a ?b) _ => pose proof (add_yields limit a b) as H; unfold yields in *; destruct (add a b); [unfold table_bytes in *; lia|done..] end.
Qed.

Lemma output_yields n ls cs rs groups :
  yields limit (output_bytes n ls cs rs groups) (λ x, x = 60 * Z.of_nat n + 8 * groups + 56 * Z.of_nat ls + 24 * Z.of_nat cs + 24 * Z.of_nat rs)%Z.
Proof.
  unfold output_bytes.
  repeat (eapply yields_bind; [first [apply bytes_of_yields|apply add_yields]|]; intros ? ->).
  match goal with |- yields _ (add ?a ?b) _ => pose proof (add_yields limit a b) as H; unfold yields in *; destruct (add a b); [lia|done..] end.
Qed.

Lemma fits_u32_yields n : yields limit (fits_u32 n) (λ _, True).
Proof. unfold fits_u32. destruct (_ <=? _)%Z; [done|apply refused_alloc]. Qed.

(** ** The output is what was measured *)

Lemma steps_counts segs ss : Forall2 step_of segs ss →
  length (omap step_layer ss) = layer_count segs ∧ length (omap step_cycle ss) = cycle_count segs ∧ layer_count segs + cycle_count segs = length segs.
Proof.
  unfold layer_count, cycle_count. induction 1 as [|es st segs ss Hst _ (IH1 & IH2 & IH3)]; [done|]. cbn [omap list_omap sum_list_with length].
  destruct es as [|e es]; [done|]. unfold step_of, cyclic_group in *. destruct (is_cyclic e); [subst st|destruct Hst as (rs & -> & _)]; cbn; lia.
Qed.

Lemma steps_bytes segs ss : Forall2 step_of segs ss →
  sum_list_with (λ l, length (vertices l) * 4 + length (Schedule.runs l) * 24) (omap step_layer ss) + sum_list_with (λ c, length c * 4) (omap step_cycle ss) =
  4 * length (concat segs) + 24 * sum_list_with step_runs ss.
Proof.
  induction 1 as [|es st segs ss Hst _ IH]; [done|]. cbn [omap list_omap sum_list_with concat]. rewrite length_app.
  destruct es as [|e es]; [done|]. unfold step_of in Hst.
  destruct (is_cyclic e); [subst st|destruct Hst as (rs & -> & _)]; cbn [step_layer step_cycle sum_list_with step_runs vertices Schedule.runs]; rewrite length_fmap; lia.
Qed.

Lemma steps_units s : Forall (λ u, is_Some (unit_step s u)) (units s) → length (units s) = length (steps s).
Proof. unfold steps. generalize (unit_step s). intros f. induction 1 as [|u us [st Hst] _ IH]; [done|]. cbn. rewrite Hst. cbn. by rewrite IH. Qed.

(** What the adapter promises. *)
Record planned (held : Z) (p : ExecutablePlan) : Prop := {
  planned_entries : ∃ l, translated cells l ∧ stable order_value l (entries p);
  planned_grouped : grouped (entries p) (steps (schedule p));
  planned_schedule : schedule_ok (schedule p);
  planned_canonical : canonical (schedule p);
  planned_walk : walk (schedule p) = vertex <$> entries p;
  planned_orders dep : (∀ e f, e ∈ entries p → f ∈ entries p → dep (vertex e) (vertex f) → comes_before f e) → orders dep (steps (schedule p));
  planned_peak : plan_peak p = Z.max (held + 112 * Z.of_nat (length cells) + table_bytes (length cells)) (held + heap_bytes p);
  planned_limit m : limit = Some m → (plan_peak p ≤ m)%Z;
  planned_work : (0 ≤ plan_work p ≤ 6 * Z.of_nat (length cells) + sort_cost (length cells))%Z
}.

Lemma translated_typed l : Forall cell_typed cells → Forall (λ c, ∀ v, translate c = inr v → in_u32 v) cells → translated cells l → Forall entry_typed l ∧ length l = length cells.
Proof.
  intros Ht Hv Hl. split; [|symmetry; by eapply Forall2_length]. unfold translated in Hl. revert Ht Hv. induction Hl as [|c e cs l [<- Hc] _ IH]; intros Ht Hv; [constructor|].
  apply Forall_cons in Ht as [Ht0 Ht], Hv as [Hv0 Hv]. constructor; [split; [done|by apply Hv0]|by apply IH].
Qed.

Context (held : Z) (Htyped : Forall cell_typed cells) (Hvertex : Forall (λ c, ∀ v, translate c = inr v → in_u32 v) cells).
Context (Hlen : (Z.of_nat (length cells) ≤ u32_max)%Z).

Lemma runs_schedule : runs (schedule_counted checkpoint alloc debug translate cells held limit) (λ r w, ∀ wk, wk = w → 
  planned held {| schedule := r.1.1; entries := r.1.2; plan_work := wk; plan_peak := r.2 |}).
Proof.
  unfold schedule_counted. eapply (runs_plan_authority limit _ schedule_errs_authority); [apply sorting_yields|]. intros ? ->.
  eapply (runs_plan_authority limit _ schedule_errs_authority); [apply admit_yields|]. intros [] Hlim1.
  eapply (runs_plan_authority limit _ schedule_errs_authority); [apply reserve_yields|]. intros [] _.
  eapply runs_bind; [by apply runs_translate|]. cbn beta. intros l0 w1 (l & -> & Hl & ->). cbn [app].
  destruct (translated_typed l Htyped Hvertex Hl) as [Ht Hll].
  eapply runs_bind; [apply (runs_sort_entries checkpoint alloc debug limit _ schedule_errs_authority l Ht)|]. cbn beta. intros sl w2 [Hst Hw2].
  assert (Hin : ∀ e, e ∈ sl ↔ e ∈ l) by (intros e; by apply (stable_elem order_value)).
  assert (Hts : Forall entry_typed sl) by (apply Forall_forall; intros e He%Hin; rewrite Forall_forall in Ht; by apply Ht).
  pose proof (Permutation_length (stable_perm _ _ _ Hst)) as Hsl.
  destruct (segmented_exists sl) as [segs Hsegs]. pose proof (segmented_concat _ _ Hsegs) as Hcat.
  pose proof (segmented_length _ _ Hsegs) as Hsegl.
  eapply runs_bind; [by apply (runs_count_groups sl segs Hsegs)|]. cbn beta. intros [lc cc] w3 [[= -> ->] ->].
  eapply runs_bind; [apply (runs_count_runs sl segs Hsegs Hts); lia|]. cbn beta. intros rc w4 [-> ->].
  do 2 (eapply (runs_plan_authority limit _ schedule_errs_authority); [apply fits_u32_yields|]; intros [] _).
  eapply (runs_plan_authority limit _ schedule_errs_authority); [apply add_yields|]. intros ? ->.
  eapply (runs_plan_authority limit _ schedule_errs_authority); [apply output_yields|]. intros ? ->.
  eapply (runs_plan_authority limit _ schedule_errs_authority); [apply add_yields|]. intros ? ->.
  eapply (runs_plan_authority limit _ schedule_errs_authority); [apply admit_yields|]. intros [] Hlim2.
  do 3 (eapply (runs_plan_authority limit _ schedule_errs_authority); [apply reserve_yields|]; intros [] _).
  eapply runs_bind; [apply (runs_build_schedule sl segs Hsegs Hts ltac:(lia) (length cells) 7 0 _ []); [lia|by repeat constructor|lia]|].
  cbn beta. intros out w5 (ss & Hss & [Pu Pl Pc Ps Pcan] & Hruns & Hw5). refine (runs_flush checkpoint _ _ _ _).
  cbn [app] in Ps. cbn [fst snd]. intros wk ->. assert (Hheap : ∀ wk pk, heap_bytes {| schedule := out; entries := sl; plan_work := wk; plan_peak := pk |} =
      (60 * Z.of_nat (length cells) + 8 * (Z.of_nat (layer_count segs) + Z.of_nat (cycle_count segs)) + 56 * Z.of_nat (layer_count segs) +
       24 * Z.of_nat (cycle_count segs) + 24 * Z.of_nat (run_total segs))%Z).
  { intros wk pk. unfold heap_bytes. cbn [schedule entries]. rewrite (steps_units out Pu), Ps. destruct Pcan as [Pc1 Pc2]. rewrite Pc1, Pc2, Ps.
    destruct (steps_counts _ _ Hss) as (-> & -> & Hsum). pose proof (steps_bytes _ _ Hss) as Hb. rewrite Hruns, Hcat in Hb.
    rewrite <- (Forall2_length _ _ _ Hss). lia. }
  split; cbn [schedule entries plan_work plan_peak].
  - by exists l.
  - exists segs. split; [done|]. by rewrite Ps.
  - split; [done|done|]. lia.
  - done.
  - unfold walk. rewrite Ps, (steps_content _ _ Hss). by rewrite Hcat.
  - intros dep. apply grouped_orders; [done|apply Hst|]. exists segs. by rewrite Ps.
  - rewrite Hheap, Z2Nat.id || rewrite Hheap. f_equal; lia.
  - intros m Hm. specialize (Hlim1 m Hm). specialize (Hlim2 m Hm). lia.
  - unfold add_work, no_work, units_work in *. rewrite Hll in Hw2. lia.
Qed.

Lemma schedule_result s :
  match schedule_plan checkpoint alloc debug translate cells held limit s with
  | Ok (p, _) => planned held p
  | Err e => schedule_errs e
  | Panic => False
  end.
Proof.
  unfold schedule_plan. pose proof (flush_charges checkpoint {| total := 0; pending := 0; state := s |}) as Hnew.
  specialize (Hnew ltac:(simpl; lia)). unfold PlanControl.new. destruct (flush _ _) as [ctl|x|]; [|by left|done].
  destruct Hnew as [Hctl Htot]. cbn [map_err mbind result_bind].
  pose proof (runs_schedule {| work := 0%Z; control := ctl |} Hctl) as Hrun.
  destruct (schedule_counted _ _ _ _ _ _ _) as [[mt [[out l] peak]]|e|]; cbn [mbind result_bind]; [|done|done].
  destruct Hrun as (_ & Htotal & w & Hw & Hq). apply Hq. cbn [work control] in *. unfold work_total, add_work, units_work, id in *. cbn in *. lia.
Qed.

(** C23: the executor's schedule of an ordered plan.  The adapter never panics, whichever of its
    sorts runs, and the assertion of a debug build that they agree holds.  When it succeeds,
    its entries are the translated cells in the stable order of layer, kind, cycle and position;
    the schedule has one layer or cycle for each group, in that order, and in each layer a run
    for exactly the families of two or more cells in consecutive rows; whatever the planner's
    layers, cycles and chains order is ordered; the peak it reports is that of the sort or of
    its actual output, within the limit; and its work is linear.  Otherwise the caller, the
    allocator or the limit stopped it. *)
Theorem schedule_exact s :
  match schedule_plan checkpoint alloc debug translate cells held limit s with
  | Ok (p, _) =>
      (∃ l, translated cells l ∧ stable order_value l (entries p)) ∧
      grouped (entries p) (steps (schedule p)) ∧ schedule_ok (schedule p) ∧ canonical (schedule p) ∧
      walk (schedule p) = vertex <$> entries p ∧
      (∀ dep, (∀ e f, e ∈ entries p → f ∈ entries p → dep (vertex e) (vertex f) → comes_before f e) → orders dep (steps (schedule p))) ∧
      plan_peak p = Z.max (held + 112 * Z.of_nat (length cells) + table_bytes (length cells)) (held + heap_bytes p) ∧
      (∀ m, limit = Some m → (plan_peak p ≤ m)%Z) ∧
      (0 ≤ plan_work p ≤ 6 * Z.of_nat (length cells) + sort_cost (length cells))%Z
  | Err e => schedule_errs e
  | Panic => False
  end.
Proof. pose proof (schedule_result s) as H. destruct (schedule_plan _ _ _ _ _ _ _ _) as [[p s']|e|]; [|done..]. by destruct H. Qed.
End stage.

Lemma sample_typed : Forall cell_typed sample_cells ∧ Forall (λ c, ∀ v, translate_id c = inr v → in_u32 v) sample_cells.
Proof.
  assert (Hcell : ∀ id row layer cycle, (0 ≤ row < u32_max)%Z → in_u64 layer → (∀ k, cycle = Some k → in_u64 k) → cell_typed (plan_cell id row layer cycle)).
  { intros id row layer cycle Hr Hl Hc. split; cbn; [lia|done|unfold in_u32, u32_max; lia|done|done]. }
  split; unfold sample_cells; rewrite !Forall_cons; split_and!; try apply Forall_nil_2;
    try (apply Hcell; [unfold u32_max; lia|unfold in_u64, u64_max; lia|]; intros k [=]; unfold in_u64, u64_max; lia);
    unfold translate_id, in_u32, u32_max; intros v [= <-]; cbn; lia.
Qed.

Lemma schedule_exact_witness : Forall cell_typed sample_cells ∧ Forall (λ c, ∀ v, translate_id c = inr v → in_u32 v) sample_cells ∧
  (Z.of_nat (length sample_cells) ≤ u32_max)%Z ∧
  ∃ p s, schedule_plan never (λ _ _, true) true translate_id sample_cells 0 None () = Ok (p, s) ∧
    grouped (entries p) (steps (schedule p)) ∧ walk (schedule p) = [10; 20; 30; 31; 40]%Z.
Proof.
  split; [apply sample_typed|]. split; [apply sample_typed|]. assert (Hlen : (Z.of_nat (length sample_cells) ≤ u32_max)%Z) by (vm_compute; discriminate).
  split; [exact Hlen|].
  pose proof (schedule_exact never (λ _ _, true) true None translate_id sample_cells 0 (proj1 sample_typed) (proj2 sample_typed) Hlen ()) as H.
  destruct (schedule_plan never (λ _ _, true) true translate_id sample_cells 0 None ()) as [[p s]|e|] eqn:E; [|vm_compute in E; discriminate..].
  exists p, s. split; [reflexivity|]. split; [apply H|]. vm_compute in E. injection E as <- <-. vm_compute. reflexivity.
Defined.
