(* ===== verification/VertexAddr.v ===== *)
(** Vertex addresses ([engine/addr.rs]) and vertex kinds ([engine/vertex.rs]): a grid position or
    a symbol identity in one 64-bit word, and the order in which edge lists are kept. *)
From S2P Require Import Prelude Coords.
Local Open Scope Z_scope.

(** * Addresses

    [GridAddr] is a [Coord], [SymbolAddr] an allocation index. *)

Abbreviation GridAddr := Coord.t (only parsing).
Abbreviation SymbolAddr := Z (only parsing).

Definition RESERVED_HIGH_MASK : Z := 0xFFFFF00000000000.
Definition SYMBOL_TAG : Z := Z.shiftl 1 63.
Definition SYMBOL_PAYLOAD_MASK : Z := not_u64 RESERVED_HIGH_MASK.

(** [impl Ord for GridAddr]. *)
Definition grid_cmp (a b : GridAddr) : comparison :=
  match Coord.row a ?= Coord.row b with Eq => Coord.col a ?= Coord.col b | c => c end.

Record VertexAddr : Type := Mk { as_u64 : Z }.

#[export] Instance VertexAddr_eq_dec : EqDecision VertexAddr.
Proof. solve_decision. Defined.

Definition INVALID : VertexAddr := Mk u64_max.
Definition grid (addr : GridAddr) : VertexAddr := Mk (Coord.as_u64 addr).
Definition symbol (addr : SymbolAddr) : VertexAddr := Mk (Z.lor SYMBOL_TAG addr).

Definition is_symbol (a : VertexAddr) : bool := Z.land (as_u64 a) RESERVED_HIGH_MASK =? SYMBOL_TAG.
Definition is_grid (a : VertexAddr) : bool := Z.land (as_u64 a) RESERVED_HIGH_MASK =? 0.

(** [from_raw(raw).unwrap_or_else(|_| AbsCoord::new(0, 0))]. *)
Definition unsafe_coord_from_raw (raw : Z) : GridAddr :=
  match Coord.from_raw raw with
  | Ok c => c
  | _ => Coord.Mk (Z.lor (Z.shiftl 0 ROW_SHIFT) (Z.shiftl 0 COL_SHIFT))
  end.

Definition as_grid (a : VertexAddr) : option GridAddr :=
  if Z.land (as_u64 a) RESERVED_HIGH_MASK =? 0 then Some (unsafe_coord_from_raw (as_u64 a)) else None.

Definition as_symbol (a : VertexAddr) : option SymbolAddr :=
  if Z.land (as_u64 a) RESERVED_HIGH_MASK =? SYMBOL_TAG
  then Some (as_u32 (Z.land (as_u64 a) SYMBOL_PAYLOAD_MASK)) else None.

Definition order_key (a : VertexAddr) : Z * Z :=
  match as_grid a, as_symbol a with
  | Some g, _ => (Coord.row g, Coord.col g)
  | _, Some s => (u32_max, s)
  | _, _ => (u32_max, u32_max)
  end.

Definition default_addr {E} : result E VertexAddr := grid <$> Coord.new 0 0.

(** * Vertex kinds *)

Inductive VertexKind : Type :=
| Empty | Cell | FormulaScalar | FormulaArray | NamedScalar | NamedArray | InfiniteRange | Range
| External | Table.

#[export] Instance VertexKind_eq_dec : EqDecision VertexKind.
Proof. solve_decision. Defined.

Definition from_tag (tag : Z) : VertexKind :=
  match tag with
  | 0 => Empty | 1 => Cell | 2 => FormulaScalar | 3 => FormulaArray | 4 => NamedScalar
  | 5 => NamedArray | 6 => InfiniteRange | 7 => Range | 8 => External | 9 => Table
  | _ => Empty
  end.

Definition to_tag (k : VertexKind) : Z :=
  match k with
  | Empty => 0 | Cell => 1 | FormulaScalar => 2 | FormulaArray => 3 | NamedScalar => 4
  | NamedArray => 5 | InfiniteRange => 6 | Range => 7 | External => 8 | Table => 9
  end.

Lemma from_to_tag k : from_tag (to_tag k) = k.
Proof. by destruct k. Qed.

Lemma to_tag_range k : 0 ≤ to_tag k < 256.
Proof. by destruct k. Qed.

(** * Facts *)

(** The address of a grid position. *)
Definition at_grid (r c : Z) : VertexAddr := grid (Coord.Mk (packed r c 0)).

Lemma high_bits x : 0 ≤ x → Z.land x RESERVED_HIGH_MASK = Z.shiftl ((x / 2 ^ 44) mod 2 ^ 20) 44.
Proof. intros H. change RESERVED_HIGH_MASK with (Z.shiftl (Z.ones 20) 44). by rewrite land_field by lia. Qed.

Lemma packed_small r c : in_grid r c → 0 ≤ packed r c 0 < 2 ^ 44.
Proof. intros H. unfold packed. grid_simpl. lia. Qed.

Lemma high_small x : 0 ≤ x < 2 ^ 44 → Z.land x RESERVED_HIGH_MASK = 0.
Proof. intros H. rewrite high_bits by lia. by rewrite (Z.div_small x) by lia. Qed.

Lemma symbol_sum s : in_u32 s → as_u64 (symbol s) = 2 ^ 63 + s.
Proof.
  intros H. unfold in_u32, u32_max in H. unfold symbol. cbn [as_u64].
  unfold SYMBOL_TAG. rewrite lor_shiftl_add by lia. lia.
Qed.

Lemma high_symbol s : in_u32 s → Z.land (as_u64 (symbol s)) RESERVED_HIGH_MASK = SYMBOL_TAG.
Proof.
  intros H. rewrite symbol_sum by done. unfold in_u32, u32_max in H. rewrite high_bits by lia.
  change SYMBOL_TAG with (Z.shiftl (2 ^ 19) 44). f_equal. Z.div_mod_to_equations. lia.
Qed.

Lemma coord_from_raw_packed r c : in_grid r c → Coord.from_raw (packed r c 0) = Ok (Coord.Mk (packed r c 0)).
Proof.
  intros H. pose proof (packed_small r c H) as Hs. unfold Coord.from_raw.
  destruct (Z.eqb_spec (packed r c 0) u64_max); [unfold u64_max in *; lia|].
  replace (Z.land (packed r c 0) Coord.RESERVED_MASK) with 0; [done|].
  change Coord.RESERVED_MASK with (Z.lor RESERVED_HIGH_MASK (Z.ones 10)).
  rewrite Z.land_lor_distr_r, high_small, Z.lor_0_l, Z.land_ones by lia.
  unfold packed in *. grid_simpl. Z.div_mod_to_equations. lia.
Qed.

Lemma as_grid_at r c : in_grid r c → as_grid (at_grid r c) = Some (Coord.Mk (packed r c 0)).
Proof.
  intros H. unfold as_grid, at_grid, grid, unsafe_coord_from_raw. cbn [as_u64 Coord.as_u64].
  by rewrite high_small, coord_from_raw_packed by (done || by apply packed_small).
Qed.

Lemma as_symbol_at r c : in_grid r c → as_symbol (at_grid r c) = None.
Proof.
  intros H. unfold as_symbol, at_grid, grid. cbn [as_u64 Coord.as_u64].
  by rewrite high_small by by apply packed_small.
Qed.

Lemma as_grid_symbol s : in_u32 s → as_grid (symbol s) = None.
Proof. intros H. unfold as_grid. by rewrite high_symbol. Qed.

Lemma as_symbol_symbol s : in_u32 s → as_symbol (symbol s) = Some s.
Proof.
  intros H. unfold as_symbol. rewrite high_symbol by done. rewrite Z.eqb_refl. f_equal.
  change SYMBOL_PAYLOAD_MASK with (Z.ones 44). rewrite Z.land_ones, symbol_sum by (done || lia).
  unfold in_u32, u32_max in H. unfold as_u32. Z.div_mod_to_equations. lia.
Qed.

Lemma coord_row r c : in_grid r c → Coord.row (Coord.Mk (packed r c 0)) = r.
Proof. intros H. unfold Coord.row. cbn [Coord.as_u64]. by rewrite packed_row by (done || lia). Qed.

Lemma coord_col r c : in_grid r c → Coord.col (Coord.Mk (packed r c 0)) = c.
Proof. intros H. unfold Coord.col. cbn [Coord.as_u64]. by rewrite packed_col by (done || lia). Qed.

Lemma order_key_grid r c : in_grid r c → order_key (at_grid r c) = (r, c).
Proof. intros H. unfold order_key. by rewrite as_grid_at, coord_row, coord_col. Qed.

Lemma order_key_symbol s : in_u32 s → order_key (symbol s) = (u32_max, s).
Proof. intros H. unfold order_key. by rewrite as_grid_symbol, as_symbol_symbol. Qed.

Lemma coord_new_at {E} r c : in_grid r c → grid <$> @Coord.new E r c = Ok (at_grid r c).
Proof. intros H. by rewrite coord_new_ok. Qed.

(** * The address space *)

(** An address of the graph: a position of the grid, or a symbol. *)
Inductive addr_valid : VertexAddr → Prop :=
| valid_grid r c : in_grid r c → addr_valid (at_grid r c)
| valid_symbol s : in_u32 s → addr_valid (symbol s).

(** Grid positions and symbols decode to what they were made of, each only as its own kind, and
    [order_key] orders the grid by row and column, before every symbol. *)
Lemma vertex_addr_exact r c s : in_grid r c → in_u32 s →
  as_grid (at_grid r c) = Some (Coord.Mk (packed r c 0)) ∧ as_symbol (at_grid r c) = None ∧
  as_grid (symbol s) = None ∧ as_symbol (symbol s) = Some s ∧
  order_key (at_grid r c) = (r, c) ∧ order_key (symbol s) = (u32_max, s) ∧ r < u32_max.
Proof.
  intros H Hs. split_and!; auto using as_grid_at, as_symbol_at, as_grid_symbol, as_symbol_symbol,
    order_key_grid, order_key_symbol. grid_simpl. unfold u32_max. lia.
Qed.

(** The order key of a valid address determines it. *)
Lemma order_key_inj a b : addr_valid a → addr_valid b → order_key a = order_key b → a = b.
Proof.
  intros [r c H|s H] [r' c' H'|s' H'];
    rewrite ?order_key_grid, ?order_key_symbol by done; intros E; simplify_eq; try done;
    grid_simpl; unfold u32_max in *; lia.
Qed.

Example invalid_is_neither : as_grid INVALID = None ∧ as_symbol INVALID = None.
Proof. done. Qed.
Example default_is_a1 : @default_addr Empty_set = Ok (at_grid 0 0).
Proof. done. Qed.
