(* ===== verification/VertexStore.v ===== *)
(** The vertex columns ([engine/vertex_store.rs]): one row per vertex, kept in pages of 1024 rows,
    and pages without rows, whose vertices are the virtual members of one formula family.  The
    flag bytes are atomics in the source; here one thread writes them.  Capacities are left out. *)
From S2P Require Import Prelude Coords VertexAddr.

Abbreviation VertexId := Z (only parsing).

Definition FIRST_NORMAL_VERTEX : Z := 1024.
Definition VIRTUAL_FLAG : Z := 0x20.
Definition MAX_VERTEX_ID : Z := 2 ^ 31 - 1.

Inductive VertexBatchAllocationError : Type := IdExhausted | ReservedIdsMismatch.

#[export] Instance VertexBatchAllocationError_eq_dec : EqDecision VertexBatchAllocationError.
Proof. solve_decision. Defined.

Definition COLD_PAGE_BITS : nat := 10.
Definition COLD_PAGE : nat := Nat.shiftl 1 COLD_PAGE_BITS.
Definition COLD_MASK : nat := COLD_PAGE - 1.

(** [idx >> COLD_PAGE_BITS] and [idx & COLD_MASK]. *)
Definition page_of (idx : nat) : nat := Nat.shiftr idx COLD_PAGE_BITS.
Definition off_of (idx : nat) : nat := Nat.land idx COLD_MASK.

(** * Pages *)

Record ColdCols : Type := {
  coords : list VertexAddr;
  sheet_kinds : list Z;
  value_refs : list Z;
  edge_offsets : list Z
}.

Record VirtualSpan : Type := {
  s_start : Z; s_len : Z; s_sheet : Z; s_col : Z; s_row0 : Z; s_edge_offset : Z
}.

Inductive ColdPage : Type :=
| Dense (c : ColdCols)
| Virtual (spans : list VirtualSpan).

Definition with_capacity : ColdCols :=
  {| coords := []; sheet_kinds := []; value_refs := []; edge_offsets := [] |}.

(** The four [push]es on the columns of a page. *)
Definition push_cols (c : ColdCols) (addr : VertexAddr) (sheet_kind value_ref edge_offset : Z) : ColdCols :=
  {| coords := coords c ++ [addr]; sheet_kinds := sheet_kinds c ++ [sheet_kind];
     value_refs := value_refs c ++ [value_ref]; edge_offsets := edge_offsets c ++ [edge_offset] |}.

(** [c.coords[off] = x] and the like. *)
Definition set_coords {E} (c : ColdCols) (off : nat) (x : VertexAddr) : result E ColdCols :=
  v ← vec_set (coords c) off x;
  Ok {| coords := v; sheet_kinds := sheet_kinds c; value_refs := value_refs c; edge_offsets := edge_offsets c |}.
Definition set_sheet_kinds {E} (c : ColdCols) (off : nat) (x : Z) : result E ColdCols :=
  v ← vec_set (sheet_kinds c) off x;
  Ok {| coords := coords c; sheet_kinds := v; value_refs := value_refs c; edge_offsets := edge_offsets c |}.
Definition set_value_refs {E} (c : ColdCols) (off : nat) (x : Z) : result E ColdCols :=
  v ← vec_set (value_refs c) off x;
  Ok {| coords := coords c; sheet_kinds := sheet_kinds c; value_refs := v; edge_offsets := edge_offsets c |}.
Definition set_edge_offsets {E} (c : ColdCols) (off : nat) (x : Z) : result E ColdCols :=
  v ← vec_set (edge_offsets c) off x;
  Ok {| coords := coords c; sheet_kinds := sheet_kinds c; value_refs := value_refs c; edge_offsets := v |}.

(** [spans.iter().find(..).expect("a virtual page's spans cover it")]. *)
Fixpoint find_span {E} (spans : list VirtualSpan) (off : Z) : result E VirtualSpan :=
  match spans with
  | [] => Panic
  | s :: spans =>
      if (s_start s <=? off)%Z
      then stop ← add_u32 (s_start s) (s_len s); if (off <? stop)%Z then Ok s else find_span spans off
      else find_span spans off
  end.

Definition span {E} (spans : list VirtualSpan) (off : nat) : result E VirtualSpan :=
  find_span spans (as_u32 (Z.of_nat off)).

Definition formula_kind (sheet : Z) : Z :=
  Z.lor (Z.shiftl sheet 16) (Z.shiftl (to_tag FormulaScalar) 8).

Definition page_addr {E} (p : ColdPage) (off : nat) : result E VertexAddr :=
  match p with
  | Dense c => vec_get (coords c) off
  | Virtual spans =>
      s ← span spans off;
      row ← add_u32 (s_row0 s) (as_u32 (Z.of_nat off) - s_start s);
      grid <$> Coord.new row (s_col s)
  end.

Definition page_sheet_kind {E} (p : ColdPage) (off : nat) : result E Z :=
  match p with
  | Dense c => vec_get (sheet_kinds c) off
  | Virtual spans => s ← span spans off; Ok (formula_kind (s_sheet s))
  end.

Definition page_value_ref {E} (p : ColdPage) (off : nat) : result E Z :=
  match p with
  | Dense c => vec_get (value_refs c) off
  | Virtual _ => Ok 0%Z
  end.

Definition page_edge_offset {E} (p : ColdPage) (off : nat) : result E Z :=
  match p with
  | Dense c => vec_get (edge_offsets c) off
  | Virtual spans => s_edge_offset <$> span spans off
  end.

(** * The store *)

Record VertexStore : Type := {
  pages : list ColdPage;
  flag_bytes : list Z;
  len : nat;
  dirty_cleared : bool
}.

Definition new : VertexStore := {| pages := []; flag_bytes := []; len := 0; dirty_cleared := false |}.

Definition is_empty (st : VertexStore) : bool := (len st =? 0)%nat.

Definition with_pages (st : VertexStore) (ps : list ColdPage) : VertexStore :=
  {| pages := ps; flag_bytes := flag_bytes st; len := len st; dirty_cleared := dirty_cleared st |}.
Definition with_flags (st : VertexStore) (fs : list Z) (cleared : bool) : VertexStore :=
  {| pages := pages st; flag_bytes := fs; len := len st; dirty_cleared := cleared |}.

Definition reserve (st : VertexStore) (additional : nat) : VertexStore :=
  if (additional =? 0)%nat then st
  else
    let page := page_of (len st) in
    match pages st !! page with
    | Some (Dense _) => st
    | _ => if (page =? length (pages st))%nat then with_pages st (pages st ++ [Dense with_capacity]) else st
    end.

Definition push_row {E} (st : VertexStore) (addr : VertexAddr) (sheet flags : Z) : result E VertexStore :=
  let page := page_of (len st) in
  let ps := if (page =? length (pages st))%nat then pages st ++ [Dense with_capacity] else pages st in
  p ← vec_get ps page;
  match p with
  | Virtual _ => Panic
  | Dense c =>
      ps ← vec_set ps page (Dense (push_cols c addr (Z.shiftl sheet 16) 0 0));
      Ok {| pages := ps; flag_bytes := flag_bytes st ++ [flags]; len := len st + 1;
            dirty_cleared := dirty_cleared st |}
  end.

Definition allocate {E} (st : VertexStore) (addr : VertexAddr) (sheet flags : Z)
  : result E (VertexStore * VertexId) :=
  id ← add_u32 (as_u32 (Z.of_nat (len st))) FIRST_NORMAL_VERTEX;
  if (id <=? MAX_VERTEX_ID)%Z then st ← push_row st addr sheet flags; Ok (st, id) else Panic.

Fixpoint push_rows {E} (st : VertexStore) (vertices : list (VertexAddr * Z * Z)) : result E VertexStore :=
  match vertices with
  | [] => Ok st
  | (addr, sheet, flags) :: vertices => st ← push_row st addr sheet flags; push_rows st vertices
  end.

Definition u32_try_from (n : nat) : result VertexBatchAllocationError Z :=
  if (Z.of_nat n <=? u32_max)%Z then Ok (Z.of_nat n) else Err IdExhausted.

Definition try_allocate_batch (st : VertexStore) (vertices : list (VertexAddr * Z * Z))
  (expected_ids : list VertexId) : result VertexBatchAllocationError (VertexStore * list VertexId) :=
  if negb (length vertices =? length expected_ids)%nat then Err ReservedIdsMismatch
  else
    l ← u32_try_from (len st);
    start ← ok_or (l +? FIRST_NORMAL_VERTEX)%u32 IdExhausted;
    count ← u32_try_from (length vertices);
    _ ← (if (count =? 0)%Z then Ok ()
         else
           last ← ok_or (start +? (count - 1))%u32 IdExhausted;
           if (MAX_VERTEX_ID <? last)%Z then Err IdExhausted else Ok ());
    let ids := (λ offset, (start + Z.of_nat offset)%Z) <$> seq 0 (Z.to_nat count) in
    if bool_decide (ids = expected_ids)
    then st ← push_rows (reserve st (length vertices)) vertices; Ok (st, ids)
    else Err ReservedIdsMismatch.

Fixpoint allocate_all {E} (st : VertexStore) (vertices : list (VertexAddr * Z * Z))
  : result E (VertexStore * list VertexId) :=
  match vertices with
  | [] => Ok (st, [])
  | (addr, sheet, flags) :: vertices =>
      '(st, id) ← allocate st addr sheet flags;
      '(st, ids) ← allocate_all st vertices;
      Ok (st, id :: ids)
  end.

Definition allocate_prevalidated_batch {E} (st : VertexStore) (vertices : list (VertexAddr * Z * Z))
  : result E VertexStore :=
  fst <$> allocate_all (reserve st (length vertices)) vertices.

Definition allocate_contiguous {E} (st : VertexStore) (sheet : Z) (addrs : list VertexAddr) (flags : Z)
  : result E (VertexStore * list VertexId) :=
  match addrs with
  | [] => Ok (st, [])
  | _ => allocate_all (reserve st (length addrs)) ((λ a, (a, sheet, flags)) <$> addrs)
  end.

Definition vertex_id_to_index (st : VertexStore) (id : VertexId) : option nat :=
  if (id <? FIRST_NORMAL_VERTEX)%Z then None
  else
    let idx := Z.to_nat (id - FIRST_NORMAL_VERTEX) in
    if (len st <=? idx)%nat then None else Some idx.

(** ** Virtual pages *)

Fixpoint densify_rows {E} (p : ColdPage) (offs : list nat) (c : ColdCols) : result E ColdCols :=
  match offs with
  | [] => Ok c
  | off :: offs =>
      addr ← page_addr p off;
      sheet_kind ← page_sheet_kind p off;
      edge_offset ← page_edge_offset p off;
      densify_rows p offs (push_cols c addr sheet_kind 0 edge_offset)
  end.

Definition densify_page {E} (st : VertexStore) (page : nat) : result E VertexStore :=
  p ← vec_get (pages st) page;
  match p with
  | Dense _ => Ok st
  | Virtual spans =>
      c ← densify_rows (Virtual spans) (seq 0 COLD_PAGE) with_capacity;
      ps ← vec_set (pages st) page (Dense c);
      Ok (with_pages st ps)
  end.

(** [let (c, off) = self.dense_mut(idx)], and a write to [c]. *)
Definition dense_mut {E} (st : VertexStore) (idx : nat) (write : ColdCols → nat → result E ColdCols)
  : result E VertexStore :=
  st ← densify_page st (page_of idx);
  p ← vec_get (pages st) (page_of idx);
  match p with
  | Virtual _ => Panic
  | Dense c =>
      c ← write c (off_of idx);
      ps ← vec_set (pages st) (page_of idx) (Dense c);
      Ok (with_pages st ps)
  end.

Fixpoint densify_pages {E} (st : VertexStore) (todo : list nat) : result E VertexStore :=
  match todo with
  | [] => Ok st
  | page :: todo => st ← densify_page st page; densify_pages st todo
  end.

Definition ensure_dense {E} (st : VertexStore) (first : VertexId) (n : Z) : result E VertexStore :=
  match vertex_id_to_index st first with
  | None => Ok st
  | Some a =>
      if (a + Z.to_nat n =? 0)%nat then Panic
      else
        let b := (a + Z.to_nat n - 1) `min` (len st - 1) in
        densify_pages st (seq (page_of a) (S (page_of b) - page_of a))
  end.

(** [(0..COLD_PAGE).all(..)]: the rows of [c] are those of one formula column. *)
Fixpoint exact_rows {E} (c : ColdCols) (formula page_row0 col edges : Z) (offs : list nat) : result E bool :=
  match offs with
  | [] => Ok true
  | off :: offs =>
      a ← vec_get (coords c) off;
      row ← add_u32 page_row0 (as_u32 (Z.of_nat off));
      g ← Coord.new row col;
      if negb (bool_decide (a = grid g)) then Ok false
      else
        k ← vec_get (sheet_kinds c) off;
        if negb (k =? formula)%Z then Ok false
        else
          v ← vec_get (value_refs c) off;
          if negb (v =? 0)%Z then Ok false
          else
            e ← vec_get (edge_offsets c) off;
            if negb (e =? edges)%Z then Ok false else exact_rows c formula page_row0 col edges offs
  end.

Definition virtualize_page {E} (st : VertexStore) (a : nat) (sheet col row0 : Z) (page : nat)
  : result E (VertexStore * nat) :=
  p ← vec_get (pages st) page;
  match p with
  | Virtual _ => Ok (st, 0)
  | Dense c =>
      if negb (length (coords c) =? COLD_PAGE)%nat then Ok (st, 0)
      else
        let base := Nat.shiftl page COLD_PAGE_BITS in
        page_row0 ← add_u32 row0 (as_u32 (Z.of_nat (base - a)));
        edges ← vec_get (edge_offsets c) 0;
        exact ← exact_rows c (formula_kind sheet) page_row0 col edges (seq 0 COLD_PAGE);
        if exact : bool
        then
          ps ← vec_set (pages st) page
            (Virtual [{| s_start := 0; s_len := Z.of_nat COLD_PAGE; s_sheet := sheet; s_col := col;
                         s_row0 := page_row0; s_edge_offset := edges |}]);
          Ok (with_pages st ps, 1)
        else Ok (st, 0)
  end.

Fixpoint virtualize_pages {E} (st : VertexStore) (a : nat) (sheet col row0 : Z) (todo : list nat)
  : result E (VertexStore * nat) :=
  match todo with
  | [] => Ok (st, 0)
  | page :: todo =>
      '(st, n) ← virtualize_page st a sheet col row0 page;
      '(st, m) ← virtualize_pages st a sheet col row0 todo;
      Ok (st, n + m)
  end.

Definition virtualize_member_span {E} (st : VertexStore) (first : VertexId) (n sheet col row0 : Z)
  : result E (VertexStore * nat) :=
  match vertex_id_to_index st first with
  | None => Ok (st, 0)
  | Some a =>
      let stop := a + Z.to_nat n in
      if (len st <? stop)%nat then Ok (st, 0)
      else
        let first_page := (a + (COLD_PAGE - 1)) / COLD_PAGE in
        virtualize_pages st a sheet col row0 (seq first_page (page_of stop - first_page))
  end.

(** ** Moving members *)

Definition add_i64 {E} (a b : Z) : result E Z :=
  if decide (- 2 ^ 63 ≤ a + b < 2 ^ 63)%Z then Ok (a + b)%Z else Panic.

Definition shift {E} (dr dc : Z) (g : GridAddr) : result E GridAddr :=
  row ← add_i64 (Coord.row g) dr;
  col ← add_i64 (Coord.col g) dc;
  Coord.new (as_u32 row) (as_u32 col).

Definition shift_span {E} (dr dc : Z) (sp : VirtualSpan) : result E VirtualSpan :=
  g ← Coord.new (s_row0 sp) (s_col sp);
  g ← shift dr dc g;
  Ok {| s_start := s_start sp; s_len := s_len sp; s_sheet := s_sheet sp; s_col := Coord.col g;
        s_row0 := Coord.row g; s_edge_offset := s_edge_offset sp |}.

Fixpoint shift_spans {E} (dr dc : Z) (spans : list VirtualSpan) : result E (list VirtualSpan) :=
  match spans with
  | [] => Ok []
  | sp :: spans => sp ← shift_span dr dc sp; spans ← shift_spans dr dc spans; Ok (sp :: spans)
  end.

Fixpoint shift_rows {E} (dr dc : Z) (c : ColdCols) (offs : list nat) : result E ColdCols :=
  match offs with
  | [] => Ok c
  | off :: offs =>
      a ← vec_get (coords c) off;
      match as_grid a with
      | Some g => g ← shift dr dc g; c ← set_coords c off (grid g); shift_rows dr dc c offs
      | None => shift_rows dr dc c offs
      end
  end.

(** The part of a page from [idx] up to [hi]. *)
Definition shift_page {E} (st : VertexStore) (dr dc : Z) (idx hi : nat) : result E VertexStore :=
  let page := page_of idx in
  let page_start := Nat.shiftl page COLD_PAGE_BITS in
  let whole := (idx =? page_start)%nat && (hi =? page_start + COLD_PAGE)%nat in
  p ← vec_get (pages st) page;
  let dense :=
    st ← densify_page st page;
    p ← vec_get (pages st) page;
    match p with
    | Virtual _ => Panic
    | Dense c =>
        c ← shift_rows dr dc c (seq (idx - page_start) (hi - page_start - (idx - page_start)));
        ps ← vec_set (pages st) page (Dense c);
        Ok (with_pages st ps)
    end in
  match p with
  | Virtual spans =>
      if whole
      then spans ← shift_spans dr dc spans; ps ← vec_set (pages st) page (Virtual spans); Ok (with_pages st ps)
      else dense
  | Dense _ => dense
  end.

(** [while idx < end]: every round moves to the next page. *)
Fixpoint shift_loop {E} (fuel : nat) (st : VertexStore) (dr dc : Z) (idx stop : nat) : result E VertexStore :=
  match fuel with
  | O => Panic
  | S fuel =>
      if (idx <? stop)%nat
      then
        let hi := stop `min` (Nat.shiftl (page_of idx) COLD_PAGE_BITS + COLD_PAGE) in
        st ← shift_page st dr dc idx hi;
        shift_loop fuel st dr dc hi stop
      else Ok st
  end.

Definition shift_member_addrs {E} (st : VertexStore) (first : VertexId) (n dr dc : Z) : result E VertexStore :=
  match vertex_id_to_index st first with
  | None => Ok st
  | Some a =>
      let stop := (a + Z.to_nat n) `min` len st in
      shift_loop (S (stop - a)) st dr dc a stop
  end.

(** ** Reading *)

Definition page {E} (st : VertexStore) (idx : nat) : result E ColdPage := vec_get (pages st) (page_of idx).

Definition addr {E} (st : VertexStore) (id : VertexId) : result E VertexAddr :=
  match vertex_id_to_index st id with
  | Some idx => p ← page st idx; page_addr p (off_of idx)
  | None => Ok INVALID
  end.

Definition grid_addr {E} (st : VertexStore) (id : VertexId) : result E (option GridAddr) :=
  as_grid <$> addr st id.

Definition sheet_id {E} (st : VertexStore) (id : VertexId) : result E Z :=
  match vertex_id_to_index st id with
  | Some idx =>
      p ← page st idx; k ← page_sheet_kind p (off_of idx); Ok (Z.shiftr k 16 mod 2 ^ 16)%Z
  | None => Ok 0%Z
  end.

Definition kind {E} (st : VertexStore) (id : VertexId) : result E VertexKind :=
  match vertex_id_to_index st id with
  | Some idx =>
      p ← page st idx; k ← page_sheet_kind p (off_of idx); Ok (from_tag (Z.land (Z.shiftr k 8) 0xFF))
  | None => Ok Empty
  end.

Definition value_ref {E} (st : VertexStore) (id : VertexId) : result E Z :=
  match vertex_id_to_index st id with
  | Some idx => p ← page st idx; page_value_ref p (off_of idx)
  | None => Ok 0%Z
  end.

Definition edge_offset {E} (st : VertexStore) (id : VertexId) : result E Z :=
  match vertex_id_to_index st id with
  | Some idx => p ← page st idx; page_edge_offset p (off_of idx)
  | None => Ok 0%Z
  end.

Definition flags {E} (st : VertexStore) (id : VertexId) : result E Z :=
  match vertex_id_to_index st id with
  | Some idx => vec_get (flag_bytes st) idx
  | None => Ok 0%Z
  end.

Definition has_flag {E} (bit : Z) (st : VertexStore) (id : VertexId) : result E bool :=
  f ← flags st id; Ok (negb (Z.land f bit =? 0)%Z).

Definition is_dirty {E} : VertexStore → VertexId → result E bool := has_flag 0x01.
Definition is_volatile {E} : VertexStore → VertexId → result E bool := has_flag 0x02.
Definition is_deleted {E} : VertexStore → VertexId → result E bool := has_flag 0x04.
Definition is_dynamic {E} : VertexStore → VertexId → result E bool := has_flag 0x08.
Definition reads_range {E} : VertexStore → VertexId → result E bool := has_flag 0x10.
Definition is_virtual {E} : VertexStore → VertexId → result E bool := has_flag VIRTUAL_FLAG.

Definition dirty_ever_cleared (st : VertexStore) : bool := dirty_cleared st.

Definition vertex_exists (st : VertexStore) (id : VertexId) : bool := bool_decide (is_Some (vertex_id_to_index st id)).

Definition vertex_exists_active {E} (st : VertexStore) (id : VertexId) : result E bool :=
  match vertex_id_to_index st id with Some _ => negb <$> is_deleted st id | None => Ok false end.

Definition all_vertices (st : VertexStore) : list VertexId :=
  (λ i, as_u32 (Z.of_nat i) + FIRST_NORMAL_VERTEX)%Z <$> seq 0 (len st).

Definition is_virtual_page (p : ColdPage) : bool := match p with Virtual _ => true | Dense _ => false end.
Definition virtual_pages (st : VertexStore) : nat := length (filter (λ p, is_virtual_page p = true) (pages st)).

(** ** Writing *)

(** [debug_assert!(!self.is_virtual(id))]. *)
Definition not_virtual {E} (st : VertexStore) (id : VertexId) : result E () :=
  v ← is_virtual st id; if v : bool then Panic else Ok ().

Definition set_kind {E} (st : VertexStore) (id : VertexId) (k : VertexKind) : result E VertexStore :=
  _ ← not_virtual st id;
  match vertex_id_to_index st id with
  | None => Ok st
  | Some idx =>
      dense_mut st idx (λ c off,
        old ← vec_get (sheet_kinds c) off;
        set_sheet_kinds c off (Z.lor (Z.land old 0xFFFF0000) (Z.shiftl (to_tag k) 8)))
  end.

Definition set_value_ref {E} (st : VertexStore) (id : VertexId) (v : Z) : result E VertexStore :=
  match vertex_id_to_index st id with
  | None => Ok st
  | Some idx => dense_mut st idx (λ c off, set_value_refs c off v)
  end.

Definition set_edge_offset {E} (st : VertexStore) (id : VertexId) (offset : Z) : result E VertexStore :=
  match vertex_id_to_index st id with
  | None => Ok st
  | Some idx =>
      p ← page st idx;
      old ← page_edge_offset p (off_of idx);
      if (old =? offset)%Z then Ok st else dense_mut st idx (λ c off, set_edge_offsets c off offset)
  end.

Definition set_addr {E} (st : VertexStore) (id : VertexId) (a : VertexAddr) : result E VertexStore :=
  _ ← not_virtual st id;
  match vertex_id_to_index st id with
  | None => Ok st
  | Some idx => dense_mut st idx (λ c off, set_coords c off a)
  end.

(** [fetch_or(bit)] or [fetch_and(!bit)] on a [u8]. *)
Definition put_flag (bit : Z) (on : bool) (f : Z) : Z :=
  if on then Z.lor f bit else Z.land f (Z.lxor 0xFF bit).

Definition write_flag {E} (bit : Z) (st : VertexStore) (id : VertexId) (on : bool) : result E VertexStore :=
  match vertex_id_to_index st id with
  | None => Ok st
  | Some idx =>
      f ← vec_get (flag_bytes st) idx;
      fs ← vec_set (flag_bytes st) idx (put_flag bit on f);
      Ok (with_flags st fs (dirty_cleared st))
  end.

Definition set_dirty {E} (st : VertexStore) (id : VertexId) (dirty : bool) : result E VertexStore :=
  if (id <? FIRST_NORMAL_VERTEX)%Z then Ok st
  else
    let idx := Z.to_nat (id - FIRST_NORMAL_VERTEX) in
    if (length (flag_bytes st) <=? idx)%nat then Ok st
    else
      before ← vec_get (flag_bytes st) idx;
      fs ← vec_set (flag_bytes st) idx (put_flag 0x01 dirty before);
      Ok (with_flags st fs (dirty_cleared st || negb dirty && negb (Z.land before 0x01 =? 0)%Z)).

Definition set_volatile {E} (st : VertexStore) (id : VertexId) (on : bool) : result E VertexStore :=
  if (id <? FIRST_NORMAL_VERTEX)%Z then Ok st else write_flag 0x02 st id on.
Definition set_dynamic {E} (st : VertexStore) (id : VertexId) (on : bool) : result E VertexStore :=
  if (id <? FIRST_NORMAL_VERTEX)%Z then Ok st else write_flag 0x08 st id on.
Definition set_reads_range {E} (st : VertexStore) (id : VertexId) (on : bool) : result E VertexStore :=
  if (id <? FIRST_NORMAL_VERTEX)%Z then Ok st else write_flag 0x10 st id on.
Definition set_virtual {E} : VertexStore → VertexId → bool → result E VertexStore := write_flag VIRTUAL_FLAG.

Definition mark_deleted {E} (st : VertexStore) (id : VertexId) (deleted : bool) : result E VertexStore :=
  _ ← not_virtual st id; write_flag 0x04 st id deleted.
