(* ===== verification/VertexFlat.v ===== *)
(** What the vertex columns promise ([engine/vertex_store.rs]): a growing list of rows, without
    pages, and how a paged store represents it. *)
From S2P Require Import Prelude Coords VertexAddr VertexStore.

(** * The specification *)

Record Row : Type := {
  r_addr : VertexAddr; r_sheet : Z; r_kind : VertexKind; r_value : Z; r_edges : Z; r_flags : Z
}.

Record Flat : Type := { rows : list Row; cleared : bool }.

#[export] Instance in_grid_dec r c : Decision (in_grid r c).
Proof. unfold in_grid. apply _. Defined.

Definition fresh_row (v : VertexAddr * Z * Z) : Row :=
  {| r_addr := v.1.1; r_sheet := v.1.2; r_kind := Empty; r_value := 0; r_edges := 0; r_flags := v.2 |}.

Definition sheet_ok (v : VertexAddr * Z * Z) : bool := bool_decide (0 ≤ v.1.2 < 2 ^ 16)%Z.

Definition flat_index (fl : Flat) (id : VertexId) : option nat :=
  if decide (FIRST_NORMAL_VERTEX ≤ id)%Z
  then let i := Z.to_nat (id - FIRST_NORMAL_VERTEX) in if decide (i < length (rows fl)) then Some i else None
  else None.

Definition flat_row (fl : Flat) (id : VertexId) : option Row := flat_index fl id ≫= (rows fl !!.).

(** The ids of the next [n] vertices, while there are enough. *)
Definition next_ids (fl : Flat) (n : nat) : list VertexId :=
  (λ i, FIRST_NORMAL_VERTEX + Z.of_nat (length (rows fl) + i))%Z <$> seq 0 n.
Definition fits (fl : Flat) (n : nat) : bool :=
  bool_decide (FIRST_NORMAL_VERTEX + Z.of_nat (length (rows fl) + n) ≤ MAX_VERTEX_ID + 1)%Z.

Definition appended (fl : Flat) (vs : list (VertexAddr * Z * Z)) : Flat :=
  {| rows := rows fl ++ (fresh_row <$> vs); cleared := cleared fl |}.

(** [f] on the rows [lo..hi]. *)
Definition map_range (lo hi : nat) (f : Row → Row) (rs : list Row) : list Row :=
  imap (λ i r, if decide (lo ≤ i < hi) then f r else r) rs.

Definition at_id (fl : Flat) (id : VertexId) (f : Row → Row) : Flat :=
  match flat_index fl id with
  | Some i => {| rows := alter f i (rows fl); cleared := cleared fl |}
  | None => fl
  end.

Definition with_addr (a : VertexAddr) (r : Row) : Row :=
  {| r_addr := a; r_sheet := r_sheet r; r_kind := r_kind r; r_value := r_value r; r_edges := r_edges r; r_flags := r_flags r |}.
Definition with_kind (k : VertexKind) (r : Row) : Row :=
  {| r_addr := r_addr r; r_sheet := r_sheet r; r_kind := k; r_value := r_value r; r_edges := r_edges r; r_flags := r_flags r |}.
Definition with_value (v : Z) (r : Row) : Row :=
  {| r_addr := r_addr r; r_sheet := r_sheet r; r_kind := r_kind r; r_value := v; r_edges := r_edges r; r_flags := r_flags r |}.
Definition with_edges (e : Z) (r : Row) : Row :=
  {| r_addr := r_addr r; r_sheet := r_sheet r; r_kind := r_kind r; r_value := r_value r; r_edges := e; r_flags := r_flags r |}.
Definition with_flag (bit : Z) (on : bool) (r : Row) : Row :=
  {| r_addr := r_addr r; r_sheet := r_sheet r; r_kind := r_kind r; r_value := r_value r; r_edges := r_edges r;
     r_flags := put_flag bit on (r_flags r) |}.

Definition row_flag (bit : Z) (r : Row) : bool := negb (Z.land (r_flags r) bit =? 0)%Z.
Definition virtual_at (fl : Flat) (id : VertexId) : bool :=
  match flat_row fl id with Some r => row_flag VIRTUAL_FLAG r | None => false end.

(** A row moved by [dr] rows and [dc] columns, if it stays on the grid. *)
Definition moves (dr dc : Z) (r : Row) : bool :=
  match as_grid (r_addr r) with
  | Some g => bool_decide (in_grid (Coord.row g + dr) (Coord.col g + dc))
  | None => true
  end.
Definition moved (dr dc : Z) (r : Row) : Row :=
  match as_grid (r_addr r) with
  | Some g => with_addr (at_grid (Coord.row g + dr) (Coord.col g + dc)) r
  | None => r
  end.

(** * Operations, and both machines *)

Inductive Op : Type :=
| Allocate (addr : VertexAddr) (sheet flags : Z)
| TryAllocateBatch (vs : list (VertexAddr * Z * Z)) (expected_ids : list VertexId)
| AllocatePrevalidated (vs : list (VertexAddr * Z * Z))
| AllocateContiguous (sheet : Z) (addrs : list VertexAddr) (flags : Z)
| Reserve (additional : nat)
| EnsureDense (first : VertexId) (n : Z)
| Virtualize (first : VertexId) (n sheet col row0 : Z)
| Shift (first : VertexId) (n dr dc : Z)
| SetKind (id : VertexId) (k : VertexKind)
| SetValueRef (id : VertexId) (v : Z)
| SetEdgeOffset (id : VertexId) (e : Z)
| SetAddr (id : VertexId) (a : VertexAddr)
| SetDirty (id : VertexId) (on : bool)
| SetVolatile (id : VertexId) (on : bool)
| SetDynamic (id : VertexId) (on : bool)
| SetReadsRange (id : VertexId) (on : bool)
| SetVirtual (id : VertexId) (on : bool)
| MarkDeleted (id : VertexId) (on : bool).

Inductive Outcome : Type := Done | Ids (ids : list VertexId) | Failed (e : VertexBatchAllocationError).

(** The store's operations. *)
Definition step (st : VertexStore) (op : Op) : result Empty_set (VertexStore * Outcome) :=
  let done (m : result Empty_set VertexStore) := (λ st, (st, Done)) <$> m in
  match op with
  | Allocate a sheet f => '(st, id) ← allocate st a sheet f; Ok (st, Ids [id])
  | TryAllocateBatch vs ids =>
      match try_allocate_batch st vs ids with
      | Ok (st, ids) => Ok (st, Ids ids)
      | Err e => Ok (st, Failed e)
      | Panic => Panic
      end
  | AllocatePrevalidated vs => done (allocate_prevalidated_batch st vs)
  | AllocateContiguous sheet addrs f => '(st, ids) ← allocate_contiguous st sheet addrs f; Ok (st, Ids ids)
  | Reserve n => Ok (reserve st n, Done)
  | EnsureDense first n => done (ensure_dense st first n)
  | Virtualize first n sheet col row0 => '(st, _) ← virtualize_member_span st first n sheet col row0; Ok (st, Done)
  | Shift first n dr dc => done (shift_member_addrs st first n dr dc)
  | SetKind id k => done (set_kind st id k)
  | SetValueRef id v => done (set_value_ref st id v)
  | SetEdgeOffset id e => done (set_edge_offset st id e)
  | SetAddr id a => done (set_addr st id a)
  | SetDirty id on => done (set_dirty st id on)
  | SetVolatile id on => done (set_volatile st id on)
  | SetDynamic id on => done (set_dynamic st id on)
  | SetReadsRange id on => done (set_reads_range st id on)
  | SetVirtual id on => done (set_virtual st id on)
  | MarkDeleted id on => done (mark_deleted st id on)
  end.

(** The same on rows; [None] is a call that breaks the store's contract (ids or the grid exhausted,
    a virtual member changed in place, a sheet that is not 16 bits wide). *)
Definition flat_step (fl : Flat) (op : Op) : option (Flat * Outcome) :=
  match op with
  | Allocate a sheet f =>
      if sheet_ok (a, sheet, f) && fits fl 1 then Some (appended fl [(a, sheet, f)], Ids (next_ids fl 1)) else None
  | TryAllocateBatch vs ids =>
      if negb (forallb sheet_ok vs) then None
      else if negb (length vs =? length ids)%nat then Some (fl, Failed ReservedIdsMismatch)
      else if negb (fits fl (length vs)) then Some (fl, Failed IdExhausted)
      else if bool_decide (next_ids fl (length vs) = ids) then Some (appended fl vs, Ids ids)
      else Some (fl, Failed ReservedIdsMismatch)
  | AllocatePrevalidated vs => if forallb sheet_ok vs && fits fl (length vs) then Some (appended fl vs, Done) else None
  | AllocateContiguous sheet addrs f =>
      let vs := (λ a, (a, sheet, f)) <$> addrs in
      if forallb sheet_ok vs && fits fl (length vs) then Some (appended fl vs, Ids (next_ids fl (length vs))) else None
  | Reserve _ => Some (fl, Done)
  | EnsureDense first n =>
      match flat_index fl first with
      | Some a => if (a + Z.to_nat n =? 0)%nat then None else Some (fl, Done)
      | None => Some (fl, Done)
      end
  | Virtualize _ n sheet col row0 =>
      if bool_decide (in_grid row0 col ∧ 0 ≤ n ∧ row0 + n ≤ ROW_MAX + 1 ∧ 0 ≤ sheet < 2 ^ 16)%Z
      then Some (fl, Done) else None
  | Shift first n dr dc =>
      match flat_index fl first with
      | Some a =>
          let hi := a + Z.to_nat n in
          if forallb (moves dr dc) (take (hi - a) (drop a (rows fl)))
          then Some ({| rows := map_range a hi (moved dr dc) (rows fl); cleared := cleared fl |}, Done) else None
      | None => Some (fl, Done)
      end
  | SetKind id k => if virtual_at fl id then None else Some (at_id fl id (with_kind k), Done)
  | SetValueRef id v => Some (at_id fl id (with_value v), Done)
  | SetEdgeOffset id e => Some (at_id fl id (with_edges e), Done)
  | SetAddr id a => if virtual_at fl id then None else Some (at_id fl id (with_addr a), Done)
  | SetDirty id on =>
      let lost := match flat_row fl id with Some r => negb on && row_flag 0x01 r | None => false end in
      Some ({| rows := rows (at_id fl id (with_flag 0x01 on)); cleared := cleared fl || lost |}, Done)
  | SetVolatile id on => Some (at_id fl id (with_flag 0x02 on), Done)
  | SetDynamic id on => Some (at_id fl id (with_flag 0x08 on), Done)
  | SetReadsRange id on => Some (at_id fl id (with_flag 0x10 on), Done)
  | SetVirtual id on => Some (at_id fl id (with_flag VIRTUAL_FLAG on), Done)
  | MarkDeleted id on => if virtual_at fl id then None else Some (at_id fl id (with_flag 0x04 on), Done)
  end.

Fixpoint run (st : VertexStore) (ops : list Op) : result Empty_set (VertexStore * list Outcome) :=
  match ops with
  | [] => Ok (st, [])
  | op :: ops => '(st, o) ← step st op; '(st, os) ← run st ops; Ok (st, o :: os)
  end.

Fixpoint flat_run (fl : Flat) (ops : list Op) : option (Flat * list Outcome) :=
  match ops with
  | [] => Some (fl, [])
  | op :: ops => '(fl, o) ← flat_step fl op; '(fl, os) ← flat_run fl ops; Some (fl, o :: os)
  end.

(** * Rows of a page *)

Lemma split_idx idx : idx = COLD_PAGE * page_of idx + off_of idx ∧ off_of idx < COLD_PAGE.
Proof.
  unfold page_of, off_of, COLD_MASK, COLD_PAGE. rewrite Nat.shiftr_div_pow2, Nat.shiftl_mul_pow2, Nat.mul_1_l.
  rewrite <- (Nat.ones_equiv COLD_PAGE_BITS : Nat.ones COLD_PAGE_BITS = _) at 1 2.
  rewrite Nat.land_ones. pose proof (Nat.pow_nonzero 2 COLD_PAGE_BITS ltac:(lia)).
  split; [by apply Nat.div_mod|by apply Nat.mod_upper_bound].
Qed.

Lemma COLD_PAGE_Z : Z.of_nat COLD_PAGE = 1024%Z.
Proof. done. Qed.

Lemma shift_page_start page : Nat.shiftl page COLD_PAGE_BITS = COLD_PAGE * page.
Proof. unfold COLD_PAGE. rewrite !Nat.shiftl_mul_pow2. lia. Qed.

#[global] Opaque COLD_PAGE page_of off_of.

Lemma page_of_lt idx n : idx < COLD_PAGE * n → page_of idx < n.
Proof. pose proof (split_idx idx). nia. Qed.

Lemma page_of_unique idx page off : idx = COLD_PAGE * page + off → off < COLD_PAGE → page_of idx = page ∧ off_of idx = off.
Proof. pose proof (split_idx idx). intros. assert (page_of idx = page) by nia. split; [done|]. subst page. lia. Qed.

Definition page_rows (i : nat) (rs : list Row) : list Row := take COLD_PAGE (drop (COLD_PAGE * i) rs).

Lemma page_rows_lookup i rs off : off < COLD_PAGE → page_rows i rs !! off = rs !! (COLD_PAGE * i + off).
Proof. intros H. unfold page_rows. by rewrite lookup_take_lt, lookup_drop. Qed.

Lemma page_rows_at idx rs : page_rows (page_of idx) rs !! off_of idx = rs !! idx.
Proof. pose proof (split_idx idx). rewrite page_rows_lookup by lia. f_equal. lia. Qed.

Lemma page_rows_length i rs : length (page_rows i rs) = COLD_PAGE `min` (length rs - COLD_PAGE * i).
Proof. unfold page_rows. by rewrite length_take, length_drop. Qed.

Lemma page_rows_ext i rs rs' : length rs = length rs' →
  (∀ off, off < COLD_PAGE → rs !! (COLD_PAGE * i + off) = rs' !! (COLD_PAGE * i + off)) → page_rows i rs = page_rows i rs'.
Proof.
  intros Hl H. apply list_eq. intros off. destruct (decide (off < COLD_PAGE)) as [Ho|Ho].
  - rewrite !page_rows_lookup by done. by apply H.
  - rewrite !lookup_ge_None_2; rewrite ?page_rows_length; lia || done.
Qed.

Lemma map_range_length lo hi f rs : length (map_range lo hi f rs) = length rs.
Proof. apply length_imap. Qed.

Lemma map_range_lookup lo hi f rs i :
  map_range lo hi f rs !! i = (if decide (lo ≤ i < hi) then f <$> rs !! i else rs !! i).
Proof. unfold map_range. rewrite list_lookup_imap. by case_decide; destruct (rs !! i). Qed.

Lemma map_range_page lo hi f rs i :
  page_rows i (map_range lo hi f rs) = map_range (lo - COLD_PAGE * i) (hi - COLD_PAGE * i) f (page_rows i rs).
Proof.
  apply list_eq. intros off. rewrite map_range_lookup. destruct (decide (off < COLD_PAGE)) as [Ho|Ho].
  - rewrite !page_rows_lookup, map_range_lookup by done. by repeat case_decide; try lia.
  - rewrite !(lookup_ge_None_2 (page_rows _ _)); [by case_decide|..]; rewrite page_rows_length; lia.
Qed.

Lemma map_range_outside lo hi f rs i : COLD_PAGE * S i ≤ lo ∨ hi ≤ COLD_PAGE * i →
  page_rows i (map_range lo hi f rs) = page_rows i rs.
Proof.
  intros H. apply page_rows_ext; [apply map_range_length|]. intros off Ho.
  rewrite map_range_lookup, decide_False; [done|]. lia.
Qed.

(** * What a page holds *)

Definition sheet_kind_of (r : Row) : Z := Z.lor (Z.shiftl (r_sheet r) 16) (Z.shiftl (to_tag (r_kind r)) 8).

Definition cols_of (rs : list Row) : ColdCols :=
  {| coords := r_addr <$> rs; sheet_kinds := sheet_kind_of <$> rs; value_refs := r_value <$> rs;
     edge_offsets := r_edges <$> rs |}.

(** The rows of the members of one formula column, from [row0]. *)
Definition member (sheet col row0 edges : Z) (off : nat) (r : Row) : Prop :=
  r_addr r = at_grid (row0 + Z.of_nat off) col ∧ r_sheet r = sheet ∧ r_kind r = FormulaScalar ∧
  r_value r = 0%Z ∧ r_edges r = edges.

Definition whole_page (sheet col row0 edges : Z) : VirtualSpan :=
  {| s_start := 0; s_len := Z.of_nat COLD_PAGE; s_sheet := sheet; s_col := col; s_row0 := row0; s_edge_offset := edges |}.

Inductive page_ok : ColdPage → list Row → Prop :=
| dense_ok rs : page_ok (Dense (cols_of rs)) rs
| virtual_ok sheet col row0 edges rs :
    length rs = COLD_PAGE → in_grid row0 col → (row0 + Z.of_nat COLD_PAGE ≤ ROW_MAX + 1)%Z →
    (∀ off r, rs !! off = Some r → member sheet col row0 edges off r) →
    page_ok (Virtual [whole_page sheet col row0 edges]) rs.

Definition row_ok (r : Row) : Prop := (0 ≤ r_sheet r < 2 ^ 16)%Z.

(** A paged store that holds the rows of [fl]. *)
Record Rep (st : VertexStore) (fl : Flat) : Prop := {
  rep_len : length (rows fl) = len st;
  rep_flags : flag_bytes st = r_flags <$> rows fl;
  rep_cleared : dirty_cleared st = cleared fl;
  rep_cover : len st ≤ COLD_PAGE * length (pages st);
  rep_pages i p : pages st !! i = Some p → page_ok p (page_rows i (rows fl));
  rep_rows : Forall row_ok (rows fl);
  rep_bound : (FIRST_NORMAL_VERTEX + Z.of_nat (len st) ≤ MAX_VERTEX_ID + 1)%Z
}.

Lemma rep_new : Rep new {| rows := []; cleared := false |}.
Proof. split; simpl; done || lia. Qed.

Lemma off_u32 off : off < COLD_PAGE → as_u32 (Z.of_nat off) = Z.of_nat off.
Proof. intros H. pose proof COLD_PAGE_Z. apply as_u32_nat. unfold u32_max. lia. Qed.

Lemma span_whole {E} sheet col row0 edges off : off < COLD_PAGE →
  @span E [whole_page sheet col row0 edges] off = Ok (whole_page sheet col row0 edges).
Proof.
  intros H. pose proof COLD_PAGE_Z as HC. unfold span, find_span. cbn [s_start s_len whole_page].
  rewrite off_u32, (proj2 (Z.leb_le 0 _)), add_u32_ok by (done || unfold u32_max; lia). simpl.
  rewrite Z.add_0_l. destruct (Z.ltb_spec (Z.of_nat off) (Z.of_nat COLD_PAGE)); [done|lia].
Qed.

Section read.
Context {E : Type} {p : ColdPage} {rs : list Row} (Hp : page_ok p rs) {off : nat} {r : Row} (Hr : rs !! off = Some r).

Lemma page_reads :
  @page_addr E p off = Ok (r_addr r) ∧ @page_sheet_kind E p off = Ok (sheet_kind_of r) ∧
  @page_value_ref E p off = Ok (r_value r) ∧ @page_edge_offset E p off = Ok (r_edges r).
Proof using Hp Hr.
  destruct Hp as [rs|sheet col row0 edges rs Hlen Hg Hrow Hm].
  - unfold page_addr, page_sheet_kind, page_value_ref, page_edge_offset, vec_get, cols_of. cbn [coords sheet_kinds value_refs edge_offsets].
    by rewrite !list_lookup_fmap, Hr.
  - pose proof (lookup_lt_Some _ _ _ Hr) as Ho. rewrite Hlen in Ho.
    destruct (Hm _ _ Hr) as (Ha & Hs & Hk & Hv & He). pose proof COLD_PAGE_Z.
    unfold page_addr, page_sheet_kind, page_value_ref, page_edge_offset. rewrite !span_whole by done. simpl.
    rewrite off_u32, Z.sub_0_r, add_u32_ok by (done || grid_simpl; unfold u32_max; lia). simpl.
    rewrite coord_new_at by (grid_simpl; lia). unfold formula_kind, sheet_kind_of. by rewrite Ha, Hs, Hk, Hv, He.
Qed.
End read.

Lemma push_cols_of rs r : push_cols (cols_of rs) (r_addr r) (sheet_kind_of r) (r_value r) (r_edges r) = cols_of (rs ++ [r]).
Proof. unfold push_cols, cols_of. by rewrite !fmap_app. Qed.

(** Rebuilding the rows of a virtual page gives its rows. *)
Lemma densify_rows_ok {E} spans rs : page_ok (Virtual spans) rs → ∀ todo dn, rs = dn ++ todo →
  @densify_rows E (Virtual spans) (seq (length dn) (length todo)) (cols_of dn) = Ok (cols_of rs).
Proof.
  intros Hp. induction todo as [|r todo IH]; intros dn E0; cbn [densify_rows length seq].
  - by rewrite E0, app_nil_r.
  - assert (Hr : rs !! length dn = Some r) by (by rewrite E0, list_lookup_middle).
    destruct (page_reads (E := E) Hp Hr) as (Ha & Hk & _ & He).
    rewrite Ha. cbn [mbind result_bind]. rewrite Hk. cbn [mbind result_bind]. rewrite He. cbn [mbind result_bind].
    assert (Hv : 0%Z = r_value r).
    { inversion Hp as [|????? ? ? ? Hm]; subst. by destruct (Hm _ _ Hr) as (?&?&?&?&?). }
    rewrite Hv, push_cols_of. specialize (IH (dn ++ [r])). rewrite length_app, Nat.add_1_r in IH.
    apply IH. by rewrite <- app_assoc.
Qed.
