(* ===== verification/VertexStoreTheorems.v ===== *)
(** The paged vertex columns implement the list of rows of [VertexFlat]: pages, and pages without
    rows, cannot be observed. *)
From S2P Require Import Prelude Coords VertexAddr VertexStore VertexFlat.

(** * Ranges of rows *)

Definition keeps (f : Row → Row) : Prop := ∀ r, r_flags (f r) = r_flags r ∧ r_sheet (f r) = r_sheet r.

Lemma map_range_comp lo mid hi f rs : lo ≤ mid ≤ hi → map_range mid hi f (map_range lo mid f rs) = map_range lo hi f rs.
Proof. intros H. apply list_eq. intros i. rewrite !map_range_lookup. by repeat case_decide; try lia. Qed.

Lemma map_range_empty lo hi f rs : hi ≤ lo → map_range lo hi f rs = rs.
Proof. intros H. apply list_eq. intros i. rewrite map_range_lookup. case_decide; [lia|done]. Qed.

Lemma map_range_beyond lo hi f rs : map_range lo hi f rs = map_range lo (hi `min` length rs) f rs.
Proof.
  apply list_eq. intros i. rewrite !map_range_lookup. repeat case_decide; try done; [|lia].
  rewrite lookup_ge_None_2 by lia. done.
Qed.

Lemma map_range_same {A} (g : Row → A) lo hi f rs : (∀ r, g (f r) = g r) → g <$> map_range lo hi f rs = g <$> rs.
Proof.
  intros H. apply list_eq. intros i. rewrite !list_lookup_fmap, map_range_lookup.
  case_decide; [|done]. destruct (rs !! i); simpl; by rewrite ?H.
Qed.

Lemma map_range_one {A} (g : Row → A) i f rs r : rs !! i = Some r →
  g <$> map_range i (S i) f rs = <[i := g (f r)]> (g <$> rs).
Proof.
  intros Hr. apply list_eq. intros j. rewrite list_lookup_fmap, map_range_lookup.
  destruct (decide (i = j)) as [->|Hj].
  - rewrite decide_True by lia. rewrite list_lookup_insert_eq; [by rewrite Hr|].
    rewrite length_fmap. by eapply lookup_lt_Some.
  - rewrite decide_False by lia. by rewrite list_lookup_insert_ne, list_lookup_fmap.
Qed.

Lemma alter_range i f rs : alter f i rs = map_range i (S i) f rs.
Proof.
  apply list_eq. intros j. rewrite map_range_lookup. destruct (decide (i = j)) as [->|Hj].
  - by rewrite list_lookup_alter_eq, decide_True by lia.
  - by rewrite list_lookup_alter_ne, decide_False by (done || lia).
Qed.

Lemma map_range_Forall (P : Row → Prop) lo hi f rs : (∀ r, P r → P (f r)) → Forall P rs → Forall P (map_range lo hi f rs).
Proof.
  intros Hf H. apply Forall_lookup. intros i r. rewrite map_range_lookup. rewrite Forall_lookup in H.
  case_decide; [|by apply H]. intros (r' & Hr & ->)%fmap_Some. apply Hf. by eapply H.
Qed.

(** * Writing pages *)

Section rep.
Context {E : Type}.
Implicit Types (st : VertexStore) (fl : Flat) (i : nat) (id : VertexId).

Definition with_rows fl (rs : list Row) : Flat := {| rows := rs; cleared := cleared fl |}.

Lemma rep_page st fl i : Rep st fl → i < length (pages st) → ∃ p, pages st !! i = Some p ∧ page_ok p (page_rows i (rows fl)).
Proof. intros HR Hi. destruct (lookup_lt_is_Some_2 (pages st) i Hi) as [p Hp]. exists p. split; [done|]. by apply (rep_pages _ _ HR). Qed.

Lemma rep_write st fl i p lo hi f : Rep st fl → i < length (pages st) → keeps f →
  COLD_PAGE * i ≤ lo → hi ≤ COLD_PAGE * S i →
  page_ok p (map_range (lo - COLD_PAGE * i) (hi - COLD_PAGE * i) f (page_rows i (rows fl))) →
  Rep (with_pages st (<[i := p]> (pages st))) (with_rows fl (map_range lo hi f (rows fl))).
Proof.
  intros HR Hi Hf Hlo Hhi Hp. destruct HR as [Hlen Hfl Hcl Hcov Hpg Hrow Hb]. split; cbn [rows cleared with_rows pages flag_bytes len dirty_cleared with_pages]; try done.
  - by rewrite map_range_length.
  - rewrite map_range_same; [done|]. intros r. apply Hf.
  - by rewrite length_insert.
  - intros j q. destruct (decide (i = j)) as [<-|Hj].
    + rewrite list_lookup_insert_eq by done. intros [= <-]. by rewrite map_range_page.
    + rewrite list_lookup_insert_ne by done. rewrite map_range_outside by nia. apply Hpg.
  - apply map_range_Forall; [|done]. intros r. unfold row_ok. by rewrite (proj2 (Hf r)).
Qed.

Lemma rep_same st fl i p : Rep st fl → i < length (pages st) → page_ok p (page_rows i (rows fl)) →
  Rep (with_pages st (<[i := p]> (pages st))) fl.
Proof.
  intros HR Hi Hp. assert (Hk : keeps id) by done.
  pose proof (rep_write st fl i p (COLD_PAGE * i) (COLD_PAGE * i) id HR Hi Hk) as H.
  rewrite !map_range_empty in H by lia. destruct fl. apply H; [lia..|done].
Qed.

(** [densify_page] changes no row. *)
Lemma densify_page_ok st fl i : Rep st fl → i < length (pages st) → ∃ st', @densify_page E st i = Ok st' ∧ Rep st' fl ∧
  length (pages st') = length (pages st) ∧ pages st' !! i = Some (Dense (cols_of (page_rows i (rows fl)))).
Proof.
  intros HR Hi. destruct (rep_page st fl i HR Hi) as (p & Hp & Hok). unfold densify_page, vec_get. rewrite Hp. simpl.
  remember (page_rows i (rows fl)) as rs0 eqn:Ers. destruct Hok as [rs|sheet col row0 edges rs Hlen Hg Hrow Hm]; [by exists st|].
  pose proof (virtual_ok _ _ _ _ _ Hlen Hg Hrow Hm) as Hv.
  pose proof (densify_rows_ok (E := E) _ _ Hv rs [] eq_refl) as Hd. rewrite Hlen in Hd. cbn [length] in Hd.
  change (cols_of []) with with_capacity in Hd. rewrite Hd. cbn [mbind result_bind].
  rewrite vec_set_ok by done. cbn [mbind result_bind]. eexists. split_and!; [done| | |].
  - apply rep_same; [done..|]. rewrite <- Ers. constructor.
  - cbn [with_pages pages]. by rewrite length_insert.
  - cbn [with_pages pages]. by rewrite list_lookup_insert_eq.
Qed.

Lemma index_ok st fl id : Rep st fl → vertex_id_to_index st id = flat_index fl id.
Proof.
  intros HR. unfold vertex_id_to_index, flat_index. rewrite (rep_len _ _ HR).
  destruct (Z.ltb_spec id FIRST_NORMAL_VERTEX); case_decide; try lia; [done|].
  destruct (Nat.leb_spec (len st) (Z.to_nat (id - FIRST_NORMAL_VERTEX))); case_decide; lia || done.
Qed.

Lemma flat_index_lt fl id idx : flat_index fl id = Some idx → idx < length (rows fl).
Proof. unfold flat_index. repeat case_decide; naive_solver. Qed.

Lemma page_exists st fl idx : Rep st fl → idx < length (rows fl) → page_of idx < length (pages st).
Proof. intros HR Hi. apply page_of_lt. pose proof (rep_len _ _ HR). pose proof (rep_cover _ _ HR). lia. Qed.

(** A write through [dense_mut] changes one row. *)
Lemma dense_mut_ok st fl idx (write : ColdCols → nat → result E ColdCols) f :
  Rep st fl → idx < length (rows fl) → keeps f →
  (∀ rs off r, Forall row_ok rs → rs !! off = Some r → write (cols_of rs) off = Ok (cols_of (map_range off (S off) f rs))) →
  ∃ st', dense_mut st idx write = Ok st' ∧ Rep st' (with_rows fl (map_range idx (S idx) f (rows fl))).
Proof.
  intros HR Hi Hf Hw. pose proof (page_exists _ _ _ HR Hi) as Hp.
  destruct (densify_page_ok st fl (page_of idx) HR Hp) as (st1 & E1 & HR1 & Hl1 & Hp1).
  unfold dense_mut. rewrite E1. cbn [mbind result_bind]. unfold vec_get. rewrite Hp1. cbn [expect mbind result_bind].
  destruct (lookup_lt_is_Some_2 _ _ Hi) as [r Hr]. pose proof (split_idx idx) as [Hidx Hoff].
  rewrite (Hw _ _ r); [| |by rewrite page_rows_at].
  2:{ unfold page_rows. apply Forall_take, Forall_drop, (rep_rows _ _ HR). }
  cbn [mbind result_bind]. rewrite vec_set_ok by lia. cbn [mbind result_bind].
  eexists. split; [done|]. apply rep_write; [done|lia|done|lia|lia|].
  replace (idx - _) with (off_of idx) by lia. replace (S idx - _) with (S (off_of idx)) by lia. constructor.
Qed.

Lemma densify_pages_ok st fl todo : Rep st fl → Forall (λ i, i < length (pages st)) todo →
  ∃ st', @densify_pages E st todo = Ok st' ∧ Rep st' fl.
Proof.
  revert st. induction todo as [|i todo IH]; intros st HR Ht; simpl; [by exists st|]. apply Forall_cons in Ht as [Hi Ht].
  destruct (densify_page_ok st fl i HR Hi) as (st1 & E1 & HR1 & Hl1 & _). rewrite E1. simpl.
  apply IH; [done|]. by rewrite Hl1.
Qed.

Lemma ensure_dense_ok st fl first n : Rep st fl → (∀ a, flat_index fl first = Some a → a + Z.to_nat n ≠ 0) →
  ∃ st', @ensure_dense E st first n = Ok st' ∧ Rep st' fl.
Proof.
  intros HR Hn. unfold ensure_dense. rewrite (index_ok st fl) by done.
  destruct (flat_index fl first) as [a|] eqn:Ea; [|by exists st]. specialize (Hn a eq_refl).
  rewrite (proj2 (Nat.eqb_neq _ _) Hn). apply densify_pages_ok; [done|].
  pose proof (flat_index_lt _ _ _ Ea) as Ha. pose proof (rep_len _ _ HR).
  set (b := (a + Z.to_nat n - 1) `min` (len st - 1)).
  assert (Hb : page_of b < length (pages st)) by (apply (page_exists st fl); [done|lia]).
  apply Forall_forall. intros i Hi%elem_of_seq. lia.
Qed.

(** ** Rows of the columns of a page *)

Lemma set_coords_ok rs off r a : rs !! off = Some r →
  @set_coords E (cols_of rs) off a = Ok (cols_of (map_range off (S off) (with_addr a) rs)).
Proof.
  intros Hr. pose proof (lookup_lt_Some _ _ _ Hr). unfold set_coords, cols_of. cbn [coords sheet_kinds value_refs edge_offsets].
  rewrite vec_set_ok by by rewrite length_fmap. simpl. rewrite (map_range_one r_addr off _ rs r) by done.
  by rewrite !map_range_same.
Qed.

Lemma set_values_ok rs off r v : rs !! off = Some r →
  @set_value_refs E (cols_of rs) off v = Ok (cols_of (map_range off (S off) (with_value v) rs)).
Proof.
  intros Hr. pose proof (lookup_lt_Some _ _ _ Hr). unfold set_value_refs, cols_of. cbn [coords sheet_kinds value_refs edge_offsets].
  rewrite vec_set_ok by by rewrite length_fmap. simpl. rewrite (map_range_one r_value off _ rs r) by done.
  by rewrite !map_range_same.
Qed.

Lemma set_edges_ok rs off r e : rs !! off = Some r →
  @set_edge_offsets E (cols_of rs) off e = Ok (cols_of (map_range off (S off) (with_edges e) rs)).
Proof.
  intros Hr. pose proof (lookup_lt_Some _ _ _ Hr). unfold set_edge_offsets, cols_of. cbn [coords sheet_kinds value_refs edge_offsets].
  rewrite vec_set_ok by by rewrite length_fmap. simpl. rewrite (map_range_one r_edges off _ rs r) by done.
  by rewrite !map_range_same.
Qed.

Lemma sheet_kind_sum r : row_ok r → sheet_kind_of r = (r_sheet r * 2 ^ 16 + to_tag (r_kind r) * 2 ^ 8)%Z.
Proof.
  intros H. pose proof (to_tag_range (r_kind r)). unfold sheet_kind_of.
  rewrite (Z.shiftl_mul_pow2 (to_tag _)) by lia. rewrite lor_shiftl_add by lia. lia.
Qed.

Lemma sheet_bits r : row_ok r → Z.land (sheet_kind_of r) 0xFFFF0000 = Z.shiftl (r_sheet r) 16.
Proof.
  intros H. change 0xFFFF0000%Z with (Z.shiftl (Z.ones 16) 16). rewrite land_field by lia. f_equal.
  rewrite sheet_kind_sum by done. pose proof (to_tag_range (r_kind r)). unfold row_ok in H. Z.div_mod_to_equations. lia.
Qed.

Lemma set_kinds_ok rs off r k : Forall row_ok rs → rs !! off = Some r →
  (old ← vec_get (sheet_kinds (cols_of rs)) off;
   @set_sheet_kinds E (cols_of rs) off (Z.lor (Z.land old 0xFFFF0000) (Z.shiftl (to_tag k) 8)))
  = Ok (cols_of (map_range off (S off) (with_kind k) rs)).
Proof.
  intros Hrs Hr. pose proof (lookup_lt_Some _ _ _ Hr). rewrite Forall_lookup in Hrs.
  unfold set_sheet_kinds, vec_get, cols_of. cbn [coords sheet_kinds value_refs edge_offsets].
  rewrite list_lookup_fmap, Hr. cbn [expect mbind result_bind fmap option_fmap option_map].
  rewrite sheet_bits by by eapply Hrs. rewrite vec_set_ok by by rewrite length_fmap. simpl.
  rewrite (map_range_one sheet_kind_of off _ rs r) by done. by rewrite !map_range_same.
Qed.

(** ** Setters of the cold columns *)

Lemma at_id_some fl id idx f : flat_index fl id = Some idx →
  at_id fl id f = with_rows fl (map_range idx (S idx) f (rows fl)).
Proof. intros H. unfold at_id. by rewrite H, alter_range. Qed.
Lemma at_id_none fl id f : flat_index fl id = None → at_id fl id f = fl.
Proof. intros H. unfold at_id. by rewrite H. Qed.

Lemma cold_write_ok st fl id (write : ColdCols → nat → result E ColdCols) f : Rep st fl → keeps f →
  (∀ rs off r, Forall row_ok rs → rs !! off = Some r → write (cols_of rs) off = Ok (cols_of (map_range off (S off) f rs))) →
  ∃ st', match vertex_id_to_index st id with None => Ok st | Some idx => dense_mut st idx write end = Ok st' ∧
         Rep st' (at_id fl id f).
Proof.
  intros HR Hf Hw. rewrite (index_ok st fl) by done. destruct (flat_index fl id) as [idx|] eqn:Ei.
  - rewrite (at_id_some _ _ _ _ Ei). apply dense_mut_ok; [done|by eapply flat_index_lt|done..].
  - rewrite at_id_none by done. by exists st.
Qed.

Lemma flag_bytes_at st fl idx r : Rep st fl → rows fl !! idx = Some r → @vec_get E _ (flag_bytes st) idx = Ok (r_flags r).
Proof. intros HR Hr. unfold vec_get. by rewrite (rep_flags _ _ HR), list_lookup_fmap, Hr. Qed.

Lemma flags_ok st fl id : Rep st fl → @flags E st id = Ok (match flat_row fl id with Some r => r_flags r | None => 0%Z end).
Proof.
  intros HR. unfold flags, flat_row. rewrite (index_ok st fl) by done.
  destruct (flat_index fl id) as [idx|] eqn:Ei; simpl; [|done].
  destruct (lookup_lt_is_Some_2 _ _ (flat_index_lt _ _ _ Ei)) as [r Hr]. by rewrite Hr, (flag_bytes_at st fl idx r).
Qed.

Lemma has_flag_ok st fl id bit : Rep st fl →
  @has_flag E bit st id = Ok (match flat_row fl id with Some r => row_flag bit r | None => false end).
Proof.
  intros HR. unfold has_flag. rewrite (flags_ok st fl) by done. simpl. by destruct (flat_row fl id).
Qed.

Lemma not_virtual_ok st fl id : Rep st fl → virtual_at fl id = false → @not_virtual E st id = Ok ().
Proof. intros HR Hv. unfold not_virtual, is_virtual. rewrite (has_flag_ok st fl) by done. simpl. unfold virtual_at in Hv. by rewrite Hv. Qed.

Lemma set_kind_ok st fl id k : Rep st fl → virtual_at fl id = false →
  ∃ st', @set_kind E st id k = Ok st' ∧ Rep st' (at_id fl id (with_kind k)).
Proof.
  intros HR Hv. unfold set_kind. rewrite (not_virtual_ok st fl) by done. cbn [mbind result_bind].
  apply (cold_write_ok st fl id (λ c off, old ← vec_get (sheet_kinds c) off; set_sheet_kinds c off _)); [done|done|].
  intros rs off r Hrs Hr. by apply set_kinds_ok with r.
Qed.

Lemma set_value_ref_ok st fl id v : Rep st fl →
  ∃ st', @set_value_ref E st id v = Ok st' ∧ Rep st' (at_id fl id (with_value v)).
Proof.
  intros HR. apply (cold_write_ok st fl id (λ c off, set_value_refs c off v)); [done|done|].
  intros rs off r _ Hr. by apply set_values_ok with r.
Qed.

Lemma set_addr_ok st fl id a : Rep st fl → virtual_at fl id = false →
  ∃ st', @set_addr E st id a = Ok st' ∧ Rep st' (at_id fl id (with_addr a)).
Proof.
  intros HR Hv. unfold set_addr. rewrite (not_virtual_ok st fl) by done. cbn [mbind result_bind].
  apply (cold_write_ok st fl id (λ c off, set_coords c off a)); [done|done|].
  intros rs off r _ Hr. by apply set_coords_ok with r.
Qed.

(** ** Reads *)

Lemma read_page st fl id idx : Rep st fl → flat_index fl id = Some idx →
  ∃ p r, @page E st idx = Ok p ∧ flat_row fl id = Some r ∧ rows fl !! idx = Some r ∧
         page_addr p (off_of idx) = @Ok E _ (r_addr r) ∧ page_sheet_kind p (off_of idx) = @Ok E _ (sheet_kind_of r) ∧
         page_value_ref p (off_of idx) = @Ok E _ (r_value r) ∧ page_edge_offset p (off_of idx) = @Ok E _ (r_edges r).
Proof.
  intros HR Hi. pose proof (flat_index_lt _ _ _ Hi) as Hlt. destruct (lookup_lt_is_Some_2 _ _ Hlt) as [r Hr].
  destruct (rep_page st fl _ HR (page_exists _ _ _ HR Hlt)) as (p & Hp & Hok).
  exists p, r. unfold page, vec_get, flat_row. rewrite Hp, Hi. simpl. split_and!; try done;
    apply (page_reads Hok); by rewrite page_rows_at.
Qed.

Lemma set_edge_offset_ok st fl id e : Rep st fl →
  ∃ st', @set_edge_offset E st id e = Ok st' ∧ Rep st' (at_id fl id (with_edges e)).
Proof.
  intros HR. unfold set_edge_offset. rewrite (index_ok st fl) by done.
  destruct (flat_index fl id) as [idx|] eqn:Ei; [|exists st; by rewrite at_id_none].
  destruct (read_page st fl id idx HR Ei) as (p & r & Hp & _ & Hr & _ & _ & _ & He). rewrite Hp. cbn [mbind result_bind].
  rewrite He. cbn [mbind result_bind]. rewrite (at_id_some _ _ _ _ Ei). destruct (Z.eqb_spec (r_edges r) e) as [<-|Hne].
  - exists st. split; [done|]. replace (map_range _ _ _ _) with (rows fl); [by destruct fl|].
    apply list_eq. intros i. rewrite map_range_lookup. case_decide; [|done].
    assert (i = idx) as -> by lia. rewrite Hr. by destruct r.
  - apply dense_mut_ok; [done|by eapply flat_index_lt|done|].
    intros rs off r' _ Hr'. by apply set_edges_ok with r'.
Qed.

(** ** Flags *)

Lemma page_ok_flags p rs lo hi bit on : page_ok p rs → page_ok p (map_range lo hi (with_flag bit on) rs).
Proof.
  intros [rs'|sheet col row0 edges rs' Hlen Hg Hrow Hm].
  - replace (cols_of rs') with (cols_of (map_range lo hi (with_flag bit on) rs')); [constructor|].
    unfold cols_of. by rewrite !map_range_same.
  - constructor; [by rewrite map_range_length|done..|]. intros off r. rewrite map_range_lookup.
    case_decide; [|by apply Hm]. intros (r' & Hr & ->)%fmap_Some. exact (Hm off r' Hr).
Qed.

Lemma rep_with_flags st fl idx bit on c : Rep st fl → idx < length (rows fl) →
  Rep (with_flags st (r_flags <$> map_range idx (S idx) (with_flag bit on) (rows fl)) c)
      {| rows := map_range idx (S idx) (with_flag bit on) (rows fl); cleared := c |}.
Proof.
  intros HR Hi. destruct HR as [Hlen Hfl Hcl Hcov Hpg Hrow Hb].
  split; cbn [rows cleared pages flag_bytes len dirty_cleared with_flags]; try done.
  - by rewrite map_range_length.
  - intros i p Hp. rewrite map_range_page. apply page_ok_flags. by apply Hpg.
  - by apply map_range_Forall.
Qed.

Lemma write_flag_ok st fl id bit on : Rep st fl →
  ∃ st', @write_flag E bit st id on = Ok st' ∧ Rep st' (at_id fl id (with_flag bit on)).
Proof.
  intros HR. unfold write_flag. rewrite (index_ok st fl) by done.
  destruct (flat_index fl id) as [idx|] eqn:Ei; [|exists st; by rewrite at_id_none].
  pose proof (flat_index_lt _ _ _ Ei) as Hi. destruct (lookup_lt_is_Some_2 _ _ Hi) as [r Hr].
  rewrite (flag_bytes_at st fl idx r) by done. cbn [mbind result_bind].
  rewrite vec_set_ok by by rewrite (rep_flags _ _ HR), length_fmap. cbn [mbind result_bind].
  eexists. split; [done|]. rewrite (at_id_some _ _ _ _ Ei), (rep_flags _ _ HR), (rep_cleared _ _ HR).
  pose proof (rep_with_flags st fl idx bit on (cleared fl) HR Hi) as H.
  by rewrite (map_range_one r_flags idx _ _ r) in H.
Qed.

Lemma guarded_flag_ok st fl id bit on : Rep st fl →
  ∃ st', (if (id <? FIRST_NORMAL_VERTEX)%Z then Ok st else @write_flag E bit st id on) = Ok st' ∧
         Rep st' (at_id fl id (with_flag bit on)).
Proof.
  intros HR. destruct (Z.ltb_spec id FIRST_NORMAL_VERTEX) as [Hid|Hid]; [|by apply write_flag_ok].
  exists st. rewrite at_id_none; [done|]. unfold flat_index. rewrite decide_False; [done|lia].
Qed.

Lemma set_dirty_ok st fl id on : Rep st fl →
  ∃ st', @set_dirty E st id on = Ok st' ∧
    Rep st' {| rows := rows (at_id fl id (with_flag 0x01 on));
               cleared := cleared fl || match flat_row fl id with Some r => negb on && row_flag 0x01 r | None => false end |}.
Proof.
  intros HR. pose proof (index_ok st fl id HR) as Hidx. unfold vertex_id_to_index in Hidx. unfold set_dirty, flat_row.
  assert (Hsame : Rep st {| rows := rows fl; cleared := cleared fl || false |})
    by (rewrite orb_false_r; by destruct fl).
  destruct (Z.ltb_spec id FIRST_NORMAL_VERTEX); [exists st; by rewrite <- Hidx, at_id_none|].
  assert (Hl : length (flag_bytes st) = len st) by (by rewrite (rep_flags _ _ HR), length_fmap, (rep_len _ _ HR)).
  rewrite Hl. destruct (Nat.leb_spec (len st) (Z.to_nat (id - FIRST_NORMAL_VERTEX))); [exists st; by rewrite <- Hidx, at_id_none|].
  symmetry in Hidx. pose proof (flat_index_lt _ _ _ Hidx) as Hi. destruct (lookup_lt_is_Some_2 _ _ Hi) as [r Hr].
  rewrite (flag_bytes_at st fl _ r) by done. cbn [mbind result_bind]. rewrite vec_set_ok by lia. cbn [mbind result_bind].
  eexists. split; [done|]. rewrite Hidx, (at_id_some _ _ _ _ Hidx), (rep_flags _ _ HR), (rep_cleared _ _ HR).
  cbn [mbind option_bind rows with_rows]. rewrite Hr.
  pose proof (rep_with_flags st fl _ 0x01 on (cleared fl || negb on && row_flag 0x01 r) HR Hi) as H1.
  by rewrite (map_range_one r_flags _ _ _ r) in H1.
Qed.

Lemma mark_deleted_ok st fl id on : Rep st fl → virtual_at fl id = false →
  ∃ st', @mark_deleted E st id on = Ok st' ∧ Rep st' (at_id fl id (with_flag 0x04 on)).
Proof.
  intros HR Hv. unfold mark_deleted. rewrite (not_virtual_ok st fl) by done. cbn [mbind result_bind].
  by apply write_flag_ok.
Qed.

(** ** Allocation *)

Lemma page_rows_app i rs r : length rs < COLD_PAGE * S i → COLD_PAGE * i ≤ length rs → page_rows i (rs ++ [r]) = page_rows i rs ++ [r].
Proof.
  intros H1 H2. unfold page_rows. rewrite drop_app_le by lia.
  rewrite take_ge, (take_ge (drop _ rs)); [done|..]; rewrite ?length_app, ?length_drop; simpl; lia.
Qed.

Lemma page_rows_app_ne i rs r : length rs < COLD_PAGE * i ∨ COLD_PAGE * S i ≤ length rs → page_rows i (rs ++ [r]) = page_rows i rs.
Proof.
  intros H. unfold page_rows. destruct H.
  - rewrite !drop_ge; [done|lia|rewrite length_app; simpl; lia].
  - rewrite drop_app_le by lia. rewrite take_app_le; [done|]. rewrite length_drop. lia.
Qed.

(** A page of nothing behind the last page. *)
Lemma rep_extend st fl : Rep st fl → length (pages st) = page_of (len st) →
  Rep (with_pages st (pages st ++ [Dense with_capacity])) fl.
Proof.
  intros [Hlen Hfl Hcl Hcov Hpg Hrow Hb] Hp. pose proof (split_idx (len st)) as [Hs _].
  split; cbn [pages flag_bytes len dirty_cleared with_pages]; try done.
  - rewrite length_app. simpl. nia.
  - intros i p [Hl|[Hi Hl]]%lookup_app_Some; [by apply Hpg|]. apply list_lookup_singleton_Some in Hl as [Hi0 <-].
    assert (i = page_of (len st)) as -> by lia.
    replace (page_rows _ _) with ([] : list Row); [exact (dense_ok [])|].
    symmetry. apply nil_length_inv. rewrite page_rows_length. lia.
Qed.

Lemma reserve_ok st fl n : Rep st fl → Rep (reserve st n) fl.
Proof.
  intros HR. unfold reserve. destruct (n =? 0)%nat; [done|]. destruct (pages st !! page_of (len st)) as [[]|] eqn:Ep; try done.
  all: destruct (Nat.eqb_spec (page_of (len st)) (length (pages st))); [by apply rep_extend|done].
Qed.

Lemma push_page_ok st fl v : Rep st fl → page_of (len st) < length (pages st) → sheet_ok v = true → fits fl 1 = true →
  ∃ c, pages st !! page_of (len st) = Some (Dense c) ∧
    Rep {| pages := <[page_of (len st) := Dense (push_cols c v.1.1 (Z.shiftl v.1.2 16) 0 0)]> (pages st);
           flag_bytes := flag_bytes st ++ [v.2]; len := len st + 1; dirty_cleared := dirty_cleared st |} (appended fl [v]).
Proof.
  intros HR Hp Hs Hf. unfold sheet_ok, fits in *. bool_prop in *. pose proof (split_idx (len st)) as [Hidx Hoff].
  pose proof HR as [Hlen Hfl Hcl Hcov Hpg Hrow Hb].
  destruct (rep_page st fl _ HR Hp) as (p & Hpp & Hok).
  assert (Hr0 : length (page_rows (page_of (len st)) (rows fl)) = off_of (len st)) by (rewrite page_rows_length; lia).
  remember (page_rows (page_of (len st)) (rows fl)) as rs eqn:Ers. destruct Hok as [rs|????? Hl]; [|lia].
  exists (cols_of rs). split; [done|].
  assert (Ec : push_cols (cols_of rs) v.1.1 (Z.shiftl v.1.2 16) 0 0 = cols_of (rs ++ [fresh_row v])).
  { rewrite <- push_cols_of. unfold sheet_kind_of. simpl. by rewrite Z.lor_0_r. }
  rewrite Ec.
  split; cbn [rows cleared pages flag_bytes len dirty_cleared appended fmap list_fmap]; try done.
  - rewrite length_app. simpl. lia.
  - by rewrite fmap_app, Hfl.
  - rewrite length_insert. nia.
  - intros j q. destruct (decide (page_of (len st) = j)) as [<-|Hj].
    + rewrite list_lookup_insert_eq by done. intros [= <-]. rewrite page_rows_app, <- Ers by nia. constructor.
    + rewrite list_lookup_insert_ne by done. intros Hq. rewrite page_rows_app_ne by nia. by apply Hpg.
  - apply Forall_app. split; [done|]. by apply Forall_singleton.
  - rewrite <- Hlen. lia.
Qed.

Lemma push_row_ok st fl v : Rep st fl → sheet_ok v = true → fits fl 1 = true →
  ∃ st', @push_row E st v.1.1 v.1.2 v.2 = Ok st' ∧ Rep st' (appended fl [v]).
Proof.
  intros HR Hs Hf. pose proof (rep_cover _ _ HR) as Hcov. pose proof (split_idx (len st)) as [Hidx Hoff].
  unfold push_row. destruct (Nat.eqb_spec (page_of (len st)) (length (pages st))) as [Hp|Hp].
  - pose proof (rep_extend st fl HR (eq_sym Hp)) as HR1.
    destruct (push_page_ok _ fl v HR1) as (c & Hc & HR2); [cbn [pages len with_pages]; rewrite length_app; simpl; lia|done..|].
    cbn [pages len with_pages flag_bytes dirty_cleared] in Hc, HR2. unfold vec_get. rewrite Hc. cbn [expect mbind result_bind].
    rewrite vec_set_ok by (rewrite length_app; simpl; lia). cbn [mbind result_bind]. by eexists.
  - assert (page_of (len st) < length (pages st)) by nia.
    destruct (push_page_ok st fl v HR) as (c & Hc & HR2); [done..|]. unfold vec_get. rewrite Hc. cbn [expect mbind result_bind].
    rewrite vec_set_ok by done. cbn [mbind result_bind]. by eexists.
Qed.

Lemma appended_app fl vs ws : appended (appended fl vs) ws = appended fl (vs ++ ws).
Proof. unfold appended. simpl. by rewrite fmap_app, app_assoc. Qed.

Lemma appended_nil fl : appended fl [] = fl.
Proof. unfold appended. simpl. rewrite app_nil_r. by destruct fl. Qed.

Lemma fits_cons fl v vs : fits fl (length (v :: vs)) = true → fits fl 1 = true ∧ fits (appended fl [v]) (length vs) = true.
Proof. unfold fits. rewrite !bool_decide_eq_true. unfold appended. simpl. rewrite length_app. simpl. lia. Qed.

Lemma next_ids_cons fl v n : next_ids fl (S n) = (FIRST_NORMAL_VERTEX + Z.of_nat (length (rows fl)))%Z :: next_ids (appended fl [v]) n.
Proof.
  unfold next_ids. cbn [seq fmap list_fmap]. f_equal; [lia|]. rewrite <- (fmap_S_seq 0 n), <- list_fmap_compose.
  apply list_fmap_ext. intros i x _. unfold appended. simpl. rewrite length_app. simpl. lia.
Qed.

Lemma push_rows_ok st fl vs : Rep st fl → forallb sheet_ok vs = true → fits fl (length vs) = true →
  ∃ st', @push_rows E st vs = Ok st' ∧ Rep st' (appended fl vs).
Proof.
  revert st fl. induction vs as [|v vs IH]; intros st fl HR Hs Hf; simpl; [exists st; by rewrite appended_nil|].
  cbn [forallb] in Hs. bool_prop in Hs. destruct Hs as [Hv Hs]. destruct (fits_cons _ _ _ Hf) as [Hf1 Hf2].
  destruct (push_row_ok st fl v HR Hv Hf1) as (st1 & E1 & HR1). destruct v as [[a sheet] f]. simpl in E1. rewrite E1. simpl.
  destruct (IH _ _ HR1 Hs Hf2) as (st2 & E2 & HR2). exists st2. split; [done|]. by rewrite appended_app in HR2.
Qed.

Lemma allocate_ok st fl a sheet f : Rep st fl → sheet_ok (a, sheet, f) = true → fits fl 1 = true →
  ∃ st', @allocate E st a sheet f = Ok (st', FIRST_NORMAL_VERTEX + Z.of_nat (length (rows fl)))%Z ∧ Rep st' (appended fl [(a, sheet, f)]).
Proof.
  intros HR Hs Hf. destruct (push_row_ok st fl (a, sheet, f) HR Hs Hf) as (st1 & E1 & HR1).
  pose proof (rep_bound _ _ HR) as Hb. unfold fits in Hf. bool_prop in Hf.
  unfold allocate. rewrite (rep_len _ _ HR) in *. unfold MAX_VERTEX_ID, FIRST_NORMAL_VERTEX in *.
  rewrite as_u32_nat, add_u32_ok by (unfold u32_max; lia). cbn [mbind result_bind].
  rewrite (proj2 (Z.leb_le _ _)) by lia. simpl in E1. rewrite E1. simpl. exists st1. by rewrite Z.add_comm.
Qed.

Lemma allocate_all_ok st fl vs : Rep st fl → forallb sheet_ok vs = true → fits fl (length vs) = true →
  ∃ st', @allocate_all E st vs = Ok (st', next_ids fl (length vs)) ∧ Rep st' (appended fl vs).
Proof.
  revert st fl. induction vs as [|[[a sheet] f] vs IH]; intros st fl HR Hs Hf; simpl; [exists st; by rewrite appended_nil|].
  cbn [forallb] in Hs. bool_prop in Hs. destruct Hs as [Hv Hs]. destruct (fits_cons _ _ _ Hf) as [Hf1 Hf2].
  destruct (allocate_ok st fl a sheet f HR Hv Hf1) as (st1 & E1 & HR1). rewrite E1. cbn [mbind result_bind].
  destruct (IH _ _ HR1 Hs Hf2) as (st2 & E2 & HR2). rewrite E2. exists st2. split; [|by rewrite appended_app in HR2].
  simpl. by rewrite (next_ids_cons fl (a, sheet, f)).
Qed.

Lemma batch_ids_ok st fl (vs : list (VertexAddr * Z * Z)) : Rep st fl → fits fl (length vs) = true →
  (λ offset, (Z.of_nat (len st) + FIRST_NORMAL_VERTEX + Z.of_nat offset)%Z) <$> seq 0 (length vs) = next_ids fl (length vs).
Proof.
  intros HR Hf. unfold next_ids. rewrite (rep_len _ _ HR). apply list_fmap_ext. intros i x _. lia.
Qed.

End rep.

(** The checks of [try_allocate_batch] on the number of vertices. *)
Lemma batch_room fl n : (FIRST_NORMAL_VERTEX + Z.of_nat (length (rows fl)) ≤ MAX_VERTEX_ID + 1)%Z →
  (count ← u32_try_from n;
   _ ← (if (count =? 0)%Z then Ok ()
        else
          last ← ok_or (Z.of_nat (length (rows fl)) + FIRST_NORMAL_VERTEX +? (count - 1))%u32 IdExhausted;
          if (MAX_VERTEX_ID <? last)%Z then Err IdExhausted else Ok ());
   Ok count) = if fits fl n then Ok (Z.of_nat n) else Err IdExhausted.
Proof.
  intros Hb. unfold fits, u32_try_from. change MAX_VERTEX_ID with (2 ^ 31 - 1)%Z in *.
  change FIRST_NORMAL_VERTEX with 1024%Z in *. unfold u32_max.
  destruct (Z.leb_spec (Z.of_nat n) (2 ^ 32 - 1)); cbn [mbind result_bind];
    [|rewrite bool_decide_eq_false_2 by lia; done].
  destruct (Z.eqb_spec (Z.of_nat n) 0); cbn [mbind result_bind]; [by rewrite bool_decide_eq_true_2 by lia|].
  unfold checked_add, u32_max. case_decide; cbn [ok_or mbind result_bind]; [|rewrite bool_decide_eq_false_2 by lia; done].
  destruct (Z.ltb_spec (2 ^ 31 - 1) (Z.of_nat (length (rows fl)) + 1024 + (Z.of_nat n - 1)));
    [rewrite bool_decide_eq_false_2 by lia|rewrite bool_decide_eq_true_2 by lia]; done.
Qed.

(** A batch is placed as a whole, or refused before anything changes. *)
Lemma try_allocate_batch_ok st fl vs ids : Rep st fl → forallb sheet_ok vs = true →
  if negb (length vs =? length ids)%nat then try_allocate_batch st vs ids = Err ReservedIdsMismatch
  else if negb (fits fl (length vs)) then try_allocate_batch st vs ids = Err IdExhausted
  else if bool_decide (next_ids fl (length vs) = ids)
  then ∃ st', try_allocate_batch st vs ids = Ok (st', ids) ∧ Rep st' (appended fl vs)
  else try_allocate_batch st vs ids = Err ReservedIdsMismatch.
Proof.
  intros HR Hs. pose proof (rep_bound _ _ HR) as Hb. pose proof (rep_len _ _ HR) as Hl.
  pose proof (batch_room fl (length vs)) as Hroom. rewrite Hl in Hroom. specialize (Hroom Hb). unfold try_allocate_batch.
  destruct (length vs =? length ids)%nat; [|done]. cbn [negb].
  unfold MAX_VERTEX_ID, FIRST_NORMAL_VERTEX in Hb.
  assert (El : u32_try_from (len st) = Ok (Z.of_nat (len st)))
    by (unfold u32_try_from; by rewrite (proj2 (Z.leb_le _ u32_max)) by (unfold u32_max; lia)).
  rewrite El. cbn [mbind result_bind]. rewrite checked_add_small by (unfold u32_max, FIRST_NORMAL_VERTEX; lia). cbn [ok_or mbind result_bind].
  destruct (u32_try_from (length vs)) as [count|e|]; cbn [mbind result_bind] in Hroom |- *;
    [|destruct (fits fl (length vs)); by simplify_eq/=|by destruct (fits fl (length vs))].
  destruct (if (count =? 0)%Z then _ else _) as [[]|e|]; cbn [mbind result_bind] in Hroom |- *;
    [|destruct (fits fl (length vs)); by simplify_eq/=|by destruct (fits fl (length vs))].
  destruct (fits fl (length vs)) eqn:Hf; simplify_eq. cbn [negb]. rewrite Nat2Z.id, (batch_ids_ok st fl vs) by done.
  case_bool_decide as Hids; [|done].
  destruct (push_rows_ok (E := VertexBatchAllocationError) (reserve st (length vs)) fl vs) as (st1 & E1 & HR1);
    [by apply reserve_ok|done..|]. rewrite E1. cbn [mbind result_bind]. rewrite Hids. by exists st1.
Qed.

(** * Dropping the rows of a page *)

Lemma vec_get_some {E A} (l : list A) i x : l !! i = Some x → @vec_get E A l i = Ok x.
Proof. intros H. unfold vec_get. by rewrite H. Qed.

Section virtual.
Context {E : Type}.
Implicit Types (st : VertexStore) (fl : Flat).

Lemma formula_kind_inj r sheet : row_ok r → (0 ≤ sheet < 2 ^ 16)%Z → sheet_kind_of r = formula_kind sheet →
  r_sheet r = sheet ∧ r_kind r = FormulaScalar.
Proof.
  intros Hr Hs. rewrite sheet_kind_sum by done. unfold formula_kind.
  rewrite (Z.shiftl_mul_pow2 (to_tag _)), lor_shiftl_add by (simpl; lia). simpl (to_tag FormulaScalar). intros H.
  pose proof (to_tag_range (r_kind r)). assert (Ht : to_tag (r_kind r) = 2%Z) by lia. split; [lia|].
  by rewrite <- (from_to_tag (r_kind r)), Ht.
Qed.

Lemma exact_rows_ok rs sheet col row0 edges : Forall row_ok rs → length rs = COLD_PAGE → (0 ≤ sheet < 2 ^ 16)%Z →
  in_grid row0 col → (row0 + Z.of_nat COLD_PAGE ≤ ROW_MAX + 1)%Z → ∀ n k, k + n = COLD_PAGE →
  ∃ b, @exact_rows E (cols_of rs) (formula_kind sheet) row0 col edges (seq k n) = Ok b ∧
    (b = true → ∀ off r, k ≤ off → rs !! off = Some r → member sheet col row0 edges off r).
Proof.
  intros Hrs Hlen Hs Hg Hrow. rewrite Forall_lookup in Hrs. induction n as [|n IH]; intros k Hk; cbn [seq exact_rows].
  - exists true. split; [done|]. intros _ off r Hoff Hr%lookup_lt_Some. lia.
  - destruct (lookup_lt_is_Some_2 rs k) as [r Hr]; [lia|]. destruct (IH (S k)) as (b & Eb & Hb); [lia|].
    unfold vec_get, cols_of in *. cbn [coords sheet_kinds value_refs edge_offsets] in *. rewrite !list_lookup_fmap, Hr.
    cbn [fmap option_fmap option_map expect mbind result_bind].
    rewrite off_u32, add_u32_ok by (lia || unfold u32_max; grid_simpl; lia). cbn [mbind result_bind].
    rewrite coord_new_ok by (grid_simpl; lia). cbn [mbind result_bind]. fold (at_grid (row0 + Z.of_nat k) col).
    case_bool_decide as Ha; cbn [negb]; [|by exists false].
    destruct (Z.eqb_spec (sheet_kind_of r) (formula_kind sheet)) as [Hsk|]; cbn [negb]; [|by exists false].
    destruct (Z.eqb_spec (r_value r) 0) as [Hv|]; cbn [negb]; [|by exists false].
    destruct (Z.eqb_spec (r_edges r) edges) as [He|]; cbn [negb]; [|by exists false].
    exists b. split; [done|]. intros Hbt off r' Hoff Hr'. destruct (decide (off = k)) as [->|]; [|apply Hb; lia || done].
    assert (r' = r) as -> by congruence. destruct (formula_kind_inj r sheet) as [Hs1 Hk1]; [by eapply Hrs|done..|].
    by split_and!.
Qed.

Lemma virtualize_page_ok st fl a n sheet col row0 page : Rep st fl → page < length (pages st) →
  a ≤ COLD_PAGE * page → COLD_PAGE * S page ≤ a + Z.to_nat n → in_grid row0 col → (0 ≤ n)%Z → (row0 + n ≤ ROW_MAX + 1)%Z →
  (0 ≤ sheet < 2 ^ 16)%Z →
  ∃ st' k, @virtualize_page E st a sheet col row0 page = Ok (st', k) ∧ Rep st' fl ∧ length (pages st') = length (pages st).
Proof.
  intros HR Hp Ha Hn Hg Hn0 Hrow Hs. destruct (rep_page st fl page HR Hp) as (p & Hpp & Hok).
  unfold virtualize_page. rewrite (vec_get_some _ _ _ Hpp). cbn [mbind result_bind].
  remember (page_rows page (rows fl)) as rs eqn:Ers. destruct Hok as [rs|]; [|by exists st, 0].
  assert (Hlc : length (coords (cols_of rs)) = length rs) by apply length_fmap. rewrite Hlc.
  destruct (Nat.eqb_spec (length rs) COLD_PAGE) as [Hl|]; cbn [negb]; [|by exists st, 0].
  rewrite shift_page_start. set (base := COLD_PAGE * page) in *. pose proof COLD_PAGE_Z as HC.
  assert (Hbase : (Z.of_nat (base - a) + Z.of_nat COLD_PAGE ≤ n)%Z) by lia.
  rewrite as_u32_nat, add_u32_ok by (grid_simpl; unfold u32_max; lia). cbn [mbind result_bind].
  destruct (lookup_lt_is_Some_2 rs 0) as [r0 Hr0]; [lia|].
  rewrite (vec_get_some (edge_offsets (cols_of rs)) 0 (r_edges r0)) by (unfold cols_of; cbn [edge_offsets]; by rewrite list_lookup_fmap, Hr0).
  cbn [mbind result_bind].
  assert (Hrs : Forall row_ok rs) by (rewrite Ers; apply Forall_take, Forall_drop, (rep_rows _ _ HR)).
  destruct (exact_rows_ok rs sheet col (row0 + Z.of_nat (base - a)) (r_edges r0) Hrs Hl Hs) with COLD_PAGE 0 as (b & Eb & Hb);
    [grid_simpl; lia|lia|lia|]. rewrite Eb. cbn [mbind result_bind]. destruct b; [|by exists st, 0].
  rewrite vec_set_ok by done. cbn [mbind result_bind]. eexists _, _. split_and!; [done| |cbn [pages with_pages]; by rewrite length_insert].
  apply rep_same; [done|done|]. rewrite <- Ers. apply virtual_ok; [done|grid_simpl; lia|lia|].
  intros off r Hr. apply Hb; [done|lia|done].
Qed.

Lemma virtualize_pages_ok fl a n sheet col row0 todo : in_grid row0 col → (0 ≤ n)%Z → (row0 + n ≤ ROW_MAX + 1)%Z →
  (0 ≤ sheet < 2 ^ 16)%Z → ∀ st, Rep st fl →
  Forall (λ i, i < length (pages st) ∧ a ≤ COLD_PAGE * i ∧ COLD_PAGE * S i ≤ a + Z.to_nat n) todo →
  ∃ st' k, @virtualize_pages E st a sheet col row0 todo = Ok (st', k) ∧ Rep st' fl.
Proof.
  intros Hg Hn Hrow Hs. induction todo as [|i todo IH]; intros st HR Ht; simpl; [by exists st, 0|].
  apply Forall_cons in Ht as [(Hi & Ha & Hhi) Ht].
  destruct (virtualize_page_ok st fl a n sheet col row0 i) as (st1 & k & E1 & HR1 & Hl1); [done..|]. rewrite E1. simpl.
  destruct (IH st1 HR1) as (st2 & m & E2 & HR2); [by rewrite Hl1|]. rewrite E2. simpl. by exists st2, (k + m).
Qed.

Lemma virtualize_ok st fl first n sheet col row0 : Rep st fl → in_grid row0 col → (0 ≤ n)%Z → (row0 + n ≤ ROW_MAX + 1)%Z →
  (0 ≤ sheet < 2 ^ 16)%Z →
  ∃ st' k, @virtualize_member_span E st first n sheet col row0 = Ok (st', k) ∧ Rep st' fl.
Proof.
  intros HR Hg Hn Hrow Hs. unfold virtualize_member_span. rewrite (index_ok st fl) by done.
  destruct (flat_index fl first) as [a|] eqn:Ea; [|by exists st, 0].
  destruct (Nat.ltb_spec (len st) (a + Z.to_nat n)) as [|Hle]; [by exists st, 0|].
  apply virtualize_pages_ok with n; [done..|]. pose proof (rep_cover _ _ HR) as Hcov. pose proof COLD_PAGE_Z.
  pose proof (split_idx (a + Z.to_nat n)) as [Hsp Hoff].
  apply Forall_forall. intros i Hi%elem_of_seq.
  pose proof (Nat.div_mod (a + (COLD_PAGE - 1)) COLD_PAGE ltac:(lia)) as Hd.
  pose proof (Nat.mod_upper_bound (a + (COLD_PAGE - 1)) COLD_PAGE ltac:(lia)).
  generalize dependent ((a + (COLD_PAGE - 1)) / COLD_PAGE). intros q Hi Hd.
  assert (COLD_PAGE * S i ≤ COLD_PAGE * page_of (a + Z.to_nat n)) by (apply Nat.mul_le_mono_l; lia).
  assert (COLD_PAGE * q ≤ COLD_PAGE * i) by (apply Nat.mul_le_mono_l; lia). split_and!; [nia|lia|lia].
Qed.
End virtual.

(** * Moving members *)

Section shifts.
Context {E : Type} (dr dc : Z).
Implicit Types (st : VertexStore) (fl : Flat).

Definition range_moves (lo hi : nat) (rs : list Row) : Prop :=
  ∀ i r, lo ≤ i < hi → rs !! i = Some r → moves dr dc r = true.

Lemma moved_keeps : keeps (moved dr dc).
Proof. intros r. unfold moved. by destruct (as_grid (r_addr r)). Qed.

Lemma shift_ok g : in_grid (Coord.row g + dr) (Coord.col g + dc) →
  grid <$> @shift E dr dc g = Ok (at_grid (Coord.row g + dr) (Coord.col g + dc)).
Proof.
  intros H. unfold shift, add_i64. rewrite !decide_True by (grid_simpl; lia). cbn [mbind result_bind].
  rewrite !as_u32_small by (unfold in_u32, u32_max; grid_simpl; lia). by apply coord_new_at.
Qed.

Lemma shift_rows_ok n : ∀ rs lo, lo + n ≤ length rs → range_moves lo (lo + n) rs →
  @shift_rows E dr dc (cols_of rs) (seq lo n) = Ok (cols_of (map_range lo (lo + n) (moved dr dc) rs)).
Proof.
  induction n as [|n IH]; intros rs lo Hn Hm; cbn [seq shift_rows]; [by rewrite map_range_empty by lia|].
  destruct (lookup_lt_is_Some_2 rs lo) as [r Hr]; [lia|].
  rewrite (vec_get_some (coords (cols_of rs)) lo (r_addr r)) by (unfold cols_of; cbn [coords]; by rewrite list_lookup_fmap, Hr).
  cbn [mbind result_bind]. pose proof (Hm lo r ltac:(lia) Hr) as Hmr.
  assert (Hrest : shift_rows dr dc (cols_of (map_range lo (S lo) (moved dr dc) rs)) (seq (S lo) n)
                  = @Ok E _ (cols_of (map_range lo (lo + S n) (moved dr dc) rs))).
  { rewrite IH; [|by rewrite map_range_length; lia|].
    - rewrite map_range_comp by lia. by replace (S lo + n) with (lo + S n) by lia.
    - intros i r' Hi. rewrite map_range_lookup, decide_False by lia. apply Hm. lia. }
  unfold moves in Hmr. destruct (as_grid (r_addr r)) as [g|] eqn:Eg.
  - bool_prop in Hmr. pose proof (shift_ok g Hmr) as Hs. destruct (shift dr dc g) as [g'| |]; simplify_eq/=.
    assert (Ec : @set_coords E (cols_of rs) lo (grid g') = Ok (cols_of (map_range lo (S lo) (moved dr dc) rs))).
    { rewrite (set_coords_ok rs lo r) by done. do 2 f_equal. apply list_eq. intros i. rewrite !map_range_lookup.
      case_decide; [|done]. assert (i = lo) as -> by lia. rewrite Hr. simpl. unfold moved. rewrite Eg. do 2 f_equal.
      unfold grid, at_grid in *. by rewrite Hs. }
    rewrite Ec. exact Hrest.
  - replace (map_range lo (S lo) (moved dr dc) rs) with rs in Hrest; [exact Hrest|].
    apply list_eq. intros i. rewrite map_range_lookup. case_decide; [|done]. assert (i = lo) as -> by lia.
    rewrite Hr. simpl. unfold moved. by rewrite Eg.
Qed.

(** A whole virtual page moves with its span. *)
Lemma shift_span_ok sheet col row0 edges rs : page_ok (Virtual [whole_page sheet col row0 edges]) rs →
  range_moves 0 COLD_PAGE rs →
  @shift_spans E dr dc [whole_page sheet col row0 edges] = Ok [whole_page sheet (col + dc) (row0 + dr) edges] ∧
  page_ok (Virtual [whole_page sheet (col + dc) (row0 + dr) edges]) (map_range 0 COLD_PAGE (moved dr dc) rs).
Proof.
  intros Hok Hm. inversion Hok as [|????? Hlen Hg Hrow Hmem]; subst. pose proof COLD_PAGE_Z as HC.
  assert (Hg' : ∀ off r, rs !! off = Some r →
    as_grid (r_addr r) = Some (Coord.Mk (packed (row0 + Z.of_nat off) col 0)) ∧
    in_grid (row0 + dr + Z.of_nat off) (col + dc)).
  { intros off r Hr. pose proof (lookup_lt_Some _ _ _ Hr) as Ho. destruct (Hmem _ _ Hr) as (Ha & _).
    assert (Hin : in_grid (row0 + Z.of_nat off) col) by (grid_simpl; lia).
    pose proof (Hm off r ltac:(lia) Hr) as Hmr. unfold moves in Hmr. rewrite Ha, as_grid_at in * by done. bool_prop in Hmr.
    rewrite coord_row, coord_col in Hmr by done. split; [done|]. by replace (row0 + dr + Z.of_nat off)%Z with (row0 + Z.of_nat off + dr)%Z by lia. }
  destruct (lookup_lt_is_Some_2 rs 0) as [r0 Hr0]; [lia|]. destruct (lookup_lt_is_Some_2 rs (COLD_PAGE - 1)) as [r1 Hr1]; [lia|].
  destruct (Hg' _ _ Hr0) as [_ Hin0]. destruct (Hg' _ _ Hr1) as [_ Hin1].
  assert (Hb : in_grid (row0 + dr) (col + dc)) by (grid_simpl; lia). split.
  - unfold shift_spans, shift_span, whole_page. cbn [s_row0 s_col s_start s_len s_sheet s_edge_offset].
    rewrite coord_new_ok by done. cbn [mbind result_bind]. unfold shift, add_i64. rewrite coord_row, coord_col by done.
    rewrite !decide_True by (grid_simpl; lia). cbn [mbind result_bind].
    rewrite !as_u32_small, coord_new_ok by (done || unfold in_u32, u32_max; grid_simpl; lia). cbn [mbind result_bind].
    by rewrite coord_row, coord_col.
  - apply virtual_ok; [by rewrite map_range_length|done|grid_simpl; lia|]. intros off r. rewrite map_range_lookup.
    intros Hr. case_decide as Hd.
    2:{ apply lookup_lt_Some in Hr. lia. }
    apply fmap_Some in Hr as (r' & Hr & ->). destruct (Hg' _ _ Hr) as [Ea Hin]. destruct (Hmem _ _ Hr) as (Ha & Hs & Hk & Hv & He).
    unfold moved. rewrite Ea. unfold member, with_addr. cbn [r_addr r_sheet r_kind r_value r_edges].
    rewrite coord_row, coord_col by (pose proof (lookup_lt_Some _ _ _ Hr); grid_simpl; lia). split_and!; try done. f_equal. lia.
Qed.

Lemma shift_page_ok st fl idx hi : Rep st fl → idx < hi ≤ length (rows fl) → hi ≤ COLD_PAGE * S (page_of idx) →
  range_moves idx hi (rows fl) →
  ∃ st', @shift_page E st dr dc idx hi = Ok st' ∧ Rep st' (with_rows fl (map_range idx hi (moved dr dc) (rows fl))).
Proof.
  intros HR Hidx Hhi Hm. pose proof (split_idx idx) as [Hs Hoff]. set (i := page_of idx) in *.
  assert (Hi : i < length (pages st)) by (apply (page_exists st fl); [done|lia]).
  destruct (rep_page st fl i HR Hi) as (p & Hpp & Hok). pose proof moved_keeps as Hk.
  assert (Hmp : range_moves (idx - COLD_PAGE * i) (hi - COLD_PAGE * i) (page_rows i (rows fl))).
  { intros j r Hj Hr. rewrite page_rows_lookup in Hr by lia. apply (Hm (COLD_PAGE * i + j)); [lia|done]. }
  unfold shift_page. fold i. rewrite !shift_page_start. rewrite (vec_get_some _ _ _ Hpp). cbn [mbind result_bind].
  set (dense := densify_page st i ≫= _).
  assert (Hdense : ∃ st', dense = Ok st' ∧ Rep st' (with_rows fl (map_range idx hi (moved dr dc) (rows fl)))).
  { unfold dense. destruct (densify_page_ok (E := E) st fl i HR Hi) as (st1 & E1 & HR1 & Hl1 & Hp1). rewrite E1.
    cbn [mbind result_bind]. rewrite (vec_get_some _ _ _ Hp1). cbn [mbind result_bind].
    rewrite shift_rows_ok; [| |by replace (_ + _) with (hi - COLD_PAGE * i) by lia].
    2:{ rewrite page_rows_length. lia. }
    replace (idx - COLD_PAGE * i + (hi - COLD_PAGE * i - (idx - COLD_PAGE * i))) with (hi - COLD_PAGE * i) by lia.
    cbn [mbind result_bind]. rewrite vec_set_ok by lia. cbn [mbind result_bind]. eexists. split; [done|].
    apply rep_write; [done|lia|done|lia|lia|constructor]. }
  remember (page_rows i (rows fl)) as rs eqn:Ers. destruct Hok as [rs|sheet col row0 edges rs Hlen Hg Hrow Hmem]; [done|].
  destruct (Nat.eqb_spec idx (COLD_PAGE * i)) as [Hst|]; [|done].
  destruct (Nat.eqb_spec hi (COLD_PAGE * i + COLD_PAGE)) as [Hen|]; [|done]. cbn [andb].
  replace (idx - COLD_PAGE * i) with 0 in Hmp by lia. replace (hi - COLD_PAGE * i) with COLD_PAGE in Hmp by lia.
  destruct (shift_span_ok sheet col row0 edges rs) as [Esp Hsp]; [by apply virtual_ok|done|]. rewrite Esp. cbn [mbind result_bind].
  rewrite vec_set_ok by done. cbn [mbind result_bind]. eexists. split; [done|]. apply rep_write; [done|done|done|lia|lia|].
  replace (idx - COLD_PAGE * i) with 0 by lia. replace (hi - COLD_PAGE * i) with COLD_PAGE by lia. by rewrite <- Ers.
Qed.

Lemma shift_loop_ok fuel : ∀ st fl idx stop, Rep st fl → stop ≤ length (rows fl) → stop - idx < fuel →
  range_moves idx stop (rows fl) →
  ∃ st', @shift_loop E fuel st dr dc idx stop = Ok st' ∧ Rep st' (with_rows fl (map_range idx stop (moved dr dc) (rows fl))).
Proof.
  induction fuel as [|fuel IH]; intros st fl idx stop HR Hstop Hf Hm; [lia|]. cbn [shift_loop].
  destruct (Nat.ltb_spec idx stop) as [Hlt|Hge]; [|exists st; rewrite map_range_empty by lia; by destruct fl].
  pose proof (split_idx idx) as [Hs Hoff]. rewrite shift_page_start.
  set (hi := stop `min` (COLD_PAGE * page_of idx + COLD_PAGE)).
  destruct (shift_page_ok st fl idx hi) as (st1 & E1 & HR1); [done|lia|lia|intros j r ?; apply Hm; lia|].
  rewrite E1. cbn [mbind result_bind]. destruct (IH st1 _ hi stop HR1) as (st2 & E2 & HR2).
  - cbn [rows with_rows]. by rewrite map_range_length.
  - lia.
  - intros j r Hj. cbn [rows with_rows]. rewrite map_range_lookup, decide_False by lia. apply Hm. lia.
  - exists st2. split; [done|]. cbn [rows with_rows cleared] in HR2. rewrite map_range_comp in HR2 by lia. done.
Qed.

Lemma shift_member_addrs_ok st fl first n a : Rep st fl → flat_index fl first = Some a →
  range_moves a (a + Z.to_nat n) (rows fl) →
  ∃ st', @shift_member_addrs E st first n dr dc = Ok st' ∧
    Rep st' (with_rows fl (map_range a (a + Z.to_nat n) (moved dr dc) (rows fl))).
Proof.
  intros HR Ha Hm. unfold shift_member_addrs. rewrite (index_ok st fl), Ha by done.
  rewrite (map_range_beyond a (a + Z.to_nat n)), (rep_len _ _ HR).
  apply shift_loop_ok; [done|rewrite (rep_len _ _ HR); lia|lia|]. intros i r Hi. apply Hm. lia.
Qed.
End shifts.

(** * The refinement *)

(** What the store answers about [id]; an id that was not allocated reads as an empty row. *)
Definition no_row : Row := {| r_addr := INVALID; r_sheet := 0; r_kind := Empty; r_value := 0; r_edges := 0; r_flags := 0 |}.

Record answers (st : VertexStore) (id : VertexId) (r : Row) : Prop := {
  ans_addr : addr st id = @Ok Empty_set _ (r_addr r);
  ans_grid : grid_addr st id = @Ok Empty_set _ (as_grid (r_addr r));
  ans_sheet : sheet_id st id = @Ok Empty_set _ (r_sheet r);
  ans_kind : kind st id = @Ok Empty_set _ (r_kind r);
  ans_value : value_ref st id = @Ok Empty_set _ (r_value r);
  ans_edges : edge_offset st id = @Ok Empty_set _ (r_edges r);
  ans_flags : flags st id = @Ok Empty_set _ (r_flags r);
  ans_dirty : is_dirty st id = @Ok Empty_set _ (row_flag 0x01 r);
  ans_volatile : is_volatile st id = @Ok Empty_set _ (row_flag 0x02 r);
  ans_deleted : is_deleted st id = @Ok Empty_set _ (row_flag 0x04 r);
  ans_dynamic : is_dynamic st id = @Ok Empty_set _ (row_flag 0x08 r);
  ans_range : reads_range st id = @Ok Empty_set _ (row_flag 0x10 r);
  ans_virtual : is_virtual st id = @Ok Empty_set _ (row_flag VIRTUAL_FLAG r)
}.

Record observes (st : VertexStore) (fl : Flat) : Prop := {
  obs_len : len st = length (rows fl);
  obs_cleared : dirty_ever_cleared st = cleared fl;
  obs_all : all_vertices st = (λ i, FIRST_NORMAL_VERTEX + Z.of_nat i)%Z <$> seq 0 (length (rows fl));
  obs_exists id : vertex_exists st id = bool_decide (is_Some (flat_row fl id));
  obs_active id : vertex_exists_active st id
    = @Ok Empty_set _ (match flat_row fl id with Some r => negb (row_flag 0x04 r) | None => false end);
  obs_row id : answers st id (default no_row (flat_row fl id))
}.

Definition empty_flat : Flat := {| rows := []; cleared := false |}.

Lemma sheet_of r : row_ok r → (Z.shiftr (sheet_kind_of r) 16 mod 2 ^ 16)%Z = r_sheet r.
Proof.
  intros H. rewrite sheet_kind_sum by done. pose proof (to_tag_range (r_kind r)). unfold row_ok in H.
  rewrite Z.shiftr_div_pow2 by lia. Z.div_mod_to_equations. lia.
Qed.

Lemma kind_of r : row_ok r → from_tag (Z.land (Z.shiftr (sheet_kind_of r) 8) 0xFF) = r_kind r.
Proof.
  intros H. rewrite sheet_kind_sum by done. pose proof (to_tag_range (r_kind r)). unfold row_ok in H.
  change 0xFF%Z with (Z.ones 8). rewrite Z.land_ones, Z.shiftr_div_pow2 by lia.
  rewrite <- (from_to_tag (r_kind r)) at 2. f_equal. Z.div_mod_to_equations. lia.
Qed.

Lemma flat_row_none fl id : flat_index fl id = None → flat_row fl id = None.
Proof. intros H. unfold flat_row. by rewrite H. Qed.

Lemma rep_answers st fl id : Rep st fl → answers st id (default no_row (flat_row fl id)).
Proof.
  intros HR. assert (Hflag : ∀ bit, @has_flag Empty_set bit st id = Ok (row_flag bit (default no_row (flat_row fl id))))
    by (intros bit; rewrite (has_flag_ok st fl) by done; by destruct (flat_row fl id)).
  pose proof (flags_ok (E := Empty_set) st fl id HR) as Hfl.
  destruct (flat_index fl id) as [idx|] eqn:Ei.
  - destruct (read_page (E := Empty_set) st fl id idx HR Ei) as (p & r & Hp & Hrow & Hr & Ha & Hk & Hv & He).
    assert (Hok : row_ok r) by (eapply Forall_lookup_1; [by apply (rep_rows _ _ HR)|done]).
    rewrite Hrow in *. simpl in *.
    split; unfold grid_addr, addr, sheet_id, kind, value_ref, edge_offset; rewrite ?(index_ok st fl), ?Ei, ?Hp by done;
      cbn [mbind result_bind]; rewrite ?Ha, ?Hk; cbn [mbind result_bind]; rewrite ?sheet_of, ?kind_of by done; try done; apply Hflag.
  - rewrite (flat_row_none _ _ Ei) in *. simpl in *.
    split; unfold grid_addr, addr, sheet_id, kind, value_ref, edge_offset; rewrite ?(index_ok st fl), ?Ei by done; try done; apply Hflag.
Qed.

Lemma rep_observes st fl : Rep st fl → observes st fl.
Proof.
  intros HR. pose proof (rep_len _ _ HR) as Hl. pose proof (rep_bound _ _ HR) as Hb.
  assert (Hrow : ∀ id, match flat_index fl id with Some _ => is_Some (flat_row fl id) | None => flat_row fl id = None end).
  { intros id. unfold flat_row. destruct (flat_index fl id) as [i|] eqn:Ei; [|done]. apply lookup_lt_is_Some_2. by eapply flat_index_lt. }
  split; [done|by apply rep_cleared| | | |intros id; by apply rep_answers].
  - unfold all_vertices. rewrite Hl. apply list_fmap_ext. intros i x [-> Hi]%lookup_seq.
    unfold MAX_VERTEX_ID, FIRST_NORMAL_VERTEX in *. rewrite as_u32_nat by (unfold u32_max; lia). lia.
  - intros id. unfold vertex_exists. rewrite (index_ok st fl) by done. specialize (Hrow id).
    apply bool_decide_ext. destruct (flat_index fl id); rewrite ?Hrow; naive_solver.
  - intros id. unfold vertex_exists_active, is_deleted. rewrite (index_ok st fl), (has_flag_ok st fl) by done. specialize (Hrow id).
    destruct (flat_index fl id); [by destruct Hrow as [r ->]|by rewrite Hrow].
Qed.

Lemma store_step_ok st fl op fl' o : Rep st fl → flat_step fl op = Some (fl', o) → ∃ st', step st op = Ok (st', o) ∧ Rep st' fl'.
Proof.
  intros HR Hs.
  assert (Hdone : ∀ m g, (∃ st', m = Ok st' ∧ Rep st' g) → Some (g, Done) = Some (fl', o) →
    ∃ st', (λ st, (st, Done)) <$> (m : result Empty_set VertexStore) = Ok (st', o) ∧ Rep st' fl')
    by (intros m g (st' & -> & HR') [= <- <-]; by exists st').
  destruct op; cbn [flat_step] in Hs; unfold step.
  - destruct (sheet_ok _ && fits fl 1) eqn:E; [|done]. bool_prop in E. destruct E as [E1 E2]. injection Hs as <- <-.
    destruct (allocate_ok (E := Empty_set) st fl addr sheet flags HR E1 E2) as (st' & -> & HR'). exists st'. split; [|done].
    simpl. unfold next_ids. simpl. do 4 f_equal. lia.
  - destruct (forallb sheet_ok vs) eqn:Hv; [|done]. cbn [negb] in Hs.
    pose proof (try_allocate_batch_ok st fl vs expected_ids HR Hv) as H.
    destruct (negb (length vs =? _)%nat); [rewrite H; simplify_eq; by exists st|].
    destruct (negb (fits fl _)); [rewrite H; simplify_eq; by exists st|].
    destruct (bool_decide _); [|rewrite H; simplify_eq; by exists st].
    destruct H as (st' & -> & HR'). simplify_eq. by exists st'.
  - destruct (forallb sheet_ok vs && _) eqn:E; [|done]. bool_prop in E. destruct E as [E1 E2]. eapply Hdone; [|exact Hs].
    unfold allocate_prevalidated_batch.
    destruct (allocate_all_ok (E := Empty_set) (reserve st (length vs)) fl vs) as (st' & -> & HR'); [by apply reserve_ok|done..|].
    by exists st'.
  - destruct (_ && _) eqn:E; [|done]. bool_prop in E. destruct E as [E1 E2]. injection Hs as <- <-.
    unfold allocate_contiguous. destruct addrs as [|a addrs]; [exists st; by rewrite appended_nil|].
    destruct (allocate_all_ok (E := Empty_set) (reserve st (length (a :: addrs))) fl _ (reserve_ok st fl _ HR) E1 E2) as (st' & -> & HR').
    by exists st'.
  - simplify_eq. eexists. split; [done|]. by apply reserve_ok.
  - assert (Hs' : Some (fl, Done) = Some (fl', o)) by (destruct (flat_index fl first); [by destruct (_ =? _)%nat|done]).
    eapply Hdone; [|exact Hs']. apply ensure_dense_ok; [done|].
    intros a Ha E. rewrite Ha in Hs. by rewrite (proj2 (Nat.eqb_eq _ _) E) in Hs.
  - case_bool_decide as H; [|done]. destruct H as (Hg & Hn & Hr & Hsh). simplify_eq.
    destruct (virtualize_ok (E := Empty_set) st fl' first n sheet col row0 HR Hg Hn Hr Hsh) as (st' & k & -> & HR'). by exists st'.
  - destruct (flat_index fl first) as [a|] eqn:Ea.
    + destruct (forallb _ _) eqn:Em; [|done]. eapply Hdone; [|exact Hs]. apply shift_member_addrs_ok; [done..|].
      rewrite forallb_forall in Em. intros i r Hi Hr. apply Em, list_elem_of_In. apply (list_elem_of_lookup_2 _ (i - a)).
      rewrite lookup_take_lt, lookup_drop by lia. by replace (a + (i - a)) with i by lia.
    + eapply Hdone; [|exact Hs]. exists st. split; [|done]. unfold shift_member_addrs. by rewrite (index_ok st fl), Ea.
  - destruct (virtual_at fl id) eqn:Hv; [done|]. eapply Hdone; [|exact Hs]. by apply set_kind_ok.
  - eapply Hdone; [|exact Hs]. by apply set_value_ref_ok.
  - eapply Hdone; [|exact Hs]. by apply set_edge_offset_ok.
  - destruct (virtual_at fl id) eqn:Hv; [done|]. eapply Hdone; [|exact Hs]. by apply set_addr_ok.
  - eapply Hdone; [|exact Hs]. by apply set_dirty_ok.
  - eapply Hdone; [|exact Hs]. by apply guarded_flag_ok.
  - eapply Hdone; [|exact Hs]. by apply guarded_flag_ok.
  - eapply Hdone; [|exact Hs]. by apply guarded_flag_ok.
  - eapply Hdone; [|exact Hs]. by apply write_flag_ok.
  - destruct (virtual_at fl id) eqn:Hv; [done|]. eapply Hdone; [|exact Hs]. by apply mark_deleted_ok.
Qed.

Lemma store_run_ok ops : ∀ st fl fl' outs, Rep st fl → flat_run fl ops = Some (fl', outs) → ∃ st', run st ops = Ok (st', outs) ∧ Rep st' fl'.
Proof.
  induction ops as [|op ops IH]; intros st fl fl' outs HR Hs; simpl in *; [simplify_eq; by exists st|].
  destruct (flat_step fl op) as [[fl1 o1]|] eqn:E1; simplify_eq/=. destruct (store_step_ok st fl op fl1 o1 HR E1) as (st1 & -> & HR1). simpl.
  destruct (flat_run fl1 ops) as [[fl2 os]|] eqn:E2; simplify_eq/=. destruct (IH _ _ _ _ HR1 E2) as (st2 & -> & HR2). by exists st2.
Qed.

(** C13: the paged columns are a list of rows.  From an empty store, take any calls of its operations
    (allocation of one vertex or of a batch, writes of kind, value, edge count, address and flags,
    rows dropped for a run of virtual members, rows rebuilt, a run of members moved) of which no
    call runs out of ids, leaves the grid or writes a virtual member in place.  Then no call
    panics, each returns what the list of rows says (the ids given out, or why a batch is refused),
    and every getter reads the row the list has: which pages hold rows cannot be observed, an id
    that was not allocated reads as an empty row, and [all_vertices] counts the ids up. *)
Theorem vertex_store_refines ops fl outs : flat_run empty_flat ops = Some (fl, outs) →
  ∃ st, run new ops = Ok (st, outs) ∧ observes st fl.
Proof.
  intros H. destruct (store_run_ok ops new empty_flat fl outs rep_new H) as (st & Hst & HR).
  exists st. split; [done|by apply rep_observes].
Qed.

(** A column of 1030 formulas, of which the first 1024 become a page without rows; the page moves
    down by two rows, then a member is changed and its rows come back. *)
Definition column : list Op :=
  AllocateContiguous 3 ((λ r, at_grid (Z.of_nat r) 7) <$> seq 0 1030) 1 ::
  ((λ i, SetKind (FIRST_NORMAL_VERTEX + Z.of_nat i) FormulaScalar) <$> seq 0 1024) ++
  [SetVirtual 1030 true; Virtualize 1024 1024 3 7 0; Shift 1024 1024 2 0; Shift 2048 3 5 (-1)].

Definition store_of (m : result Empty_set VertexStore) : VertexStore := default new (ok m).
Definition column_state : VertexStore := store_of (fst <$> run new column).

Example column_page : virtual_pages column_state = 1 ∧ addr column_state 1030 = @Ok Empty_set _ (at_grid 8 7) ∧
  sheet_id column_state 1030 = @Ok Empty_set _ 3%Z ∧ is_virtual column_state 1030 = @Ok Empty_set _ true ∧
  virtual_pages (store_of (set_value_ref column_state 1040 9)) = 0.
Proof. vm_compute. by split_and!. Qed.

Definition column_rows : Flat * list Outcome := default (empty_flat, []) (flat_run empty_flat column).

Lemma vertex_store_refines_witness : flat_run empty_flat column = Some column_rows ∧
  ∃ st, run new column = Ok (st, column_rows.2) ∧ observes st column_rows.1.
Proof.
  assert (H : flat_run empty_flat column = Some (column_rows.1, column_rows.2)) by (vm_compute; reflexivity).
  split; [by rewrite <- surjective_pairing in H|]. apply (vertex_store_refines column _ _ H).
Defined.
