(* ===== verification/Csr.v ===== *)
(** The dependency edges in compressed rows ([engine/csr_edges.rs]): for every vertex id from the
    smallest on, the slice of its targets and the slice of its sources, each ordered by address. *)
From S2P Require Import Prelude Coords VertexAddr.

Abbreviation VertexId := Z (only parsing).

Record CsrEdges : Type := {
  offsets : list Z;
  edges : list VertexId;
  reverse_offsets : list Z;
  reverse_edges : list VertexId;
  min_vertex_id : Z
}.

Definition empty : CsrEdges :=
  {| offsets := [0%Z]; edges := []; reverse_offsets := [0%Z]; reverse_edges := []; min_vertex_id := 0 |}.

(** * The order inside a row *)

(** The key of [sort_by_key]; [t] is never below [min_id]. *)
Definition sort_key (min_id : Z) (coords : list VertexAddr) (t : Z) : Z * Z * Z :=
  match coords !! Z.to_nat (t - min_id) with
  | Some a => let '(major, minor) := order_key a in (major, minor, t)
  | None => (u32_max, u32_max, t)
  end.

Definition key_le (a b : Z * Z * Z) : Prop :=
  let '(a1, a2, a3) := a in
  let '(b1, b2, b3) := b in
  (a1 < b1 ∨ a1 = b1 ∧ (a2 < b2 ∨ a2 = b2 ∧ a3 ≤ b3))%Z.

Definition edge_le (min_id : Z) (coords : list VertexAddr) (s t : Z) : Prop :=
  key_le (sort_key min_id coords s) (sort_key min_id coords t).

#[export] Instance edge_le_dec min_id coords : RelDecision (edge_le min_id coords).
Proof. intros s t. unfold edge_le, key_le. destruct (sort_key _ _ s) as [[]], (sort_key _ _ t) as [[]]. apply _. Defined.
#[export] Instance edge_le_total min_id coords : Total (edge_le min_id coords).
Proof. intros s t. unfold edge_le, key_le. destruct (sort_key _ _ s) as [[]], (sort_key _ _ t) as [[]]. lia. Qed.
#[export] Instance edge_le_trans min_id coords : Transitive (edge_le min_id coords).
Proof. intros s t u. unfold edge_le, key_le. destruct (sort_key _ _ s) as [[]], (sort_key _ _ t) as [[]], (sort_key _ _ u) as [[]]. lia. Qed.

Definition sort_row (min_id : Z) (coords : list VertexAddr) : list Z → list Z := merge_sort (edge_le min_id coords).

(** * [from_adjacency] *)

Fixpoint scan_targets (targets : list Z) (lo hi : Z) : Z * Z :=
  match targets with [] => (lo, hi) | t :: targets => scan_targets targets (Z.min lo t) (Z.max hi t) end.

Fixpoint scan_ids (adj : list (Z * list Z)) (lo hi : Z) : Z * Z :=
  match adj with
  | [] => (lo, hi)
  | (vid, targets) :: adj =>
      let '(lo, hi) := scan_targets targets (Z.min lo vid) (Z.max hi vid) in scan_ids adj lo hi
  end.

(** [adj_by_offset[offset_idx] = targets]. *)
Fixpoint place {E} (min_id : Z) (adj : list (Z * list Z)) (rows : list (list Z)) : result E (list (list Z)) :=
  match adj with
  | [] => Ok rows
  | (vid, targets) :: adj => rows ← vec_set rows (Z.to_nat (vid - min_id)) targets; place min_id adj rows
  end.

(** The rows one behind the other, sorted, with the offset behind each. *)
Fixpoint fill {E} (sort : list Z → list Z) (rows : list (list Z)) (idx : nat) (edges offsets : list Z)
  : result E (list Z * list Z) :=
  match rows with
  | [] => Ok (offsets, edges)
  | row :: rows =>
      let edges := edges ++ sort row in
      offsets ← vec_set offsets (idx + 1) (as_u32 (Z.of_nat (length edges)));
      fill sort rows (idx + 1) edges offsets
  end.

Fixpoint collect_targets (min_id source : Z) (targets : list Z) (rev : list (list Z)) : list (list Z) :=
  match targets with
  | [] => rev
  | t :: targets =>
      let target_idx := Z.to_nat (t - min_id) in
      collect_targets min_id source targets
        (if (target_idx <? length rev)%nat then alter (λ l, l ++ [source]) target_idx rev else rev)
  end.

Fixpoint collect {E} (min_id : Z) (rows : list (list Z)) (idx : nat) (rev : list (list Z)) : result E (list (list Z)) :=
  match rows with
  | [] => Ok rev
  | targets :: rows =>
      source ← add_u32 min_id (as_u32 (Z.of_nat idx));
      collect min_id rows (idx + 1) (collect_targets min_id source targets rev)
  end.

Definition from_adjacency {E} (adj : list (Z * list Z)) (coords : list VertexAddr) : result E CsrEdges :=
  match adj with
  | [] => Ok empty
  | _ =>
      let '(min_id, max_id) := scan_ids adj u32_max 0 in
      if (min_id =? u32_max)%Z then Ok empty
      else
        num ← add_u32 (max_id - min_id) 1;
        let num_vertices := Z.to_nat num in
        rows ← place min_id adj (replicate num_vertices []);
        '(offsets, edges) ← fill (sort_row min_id coords) rows 0 [] (replicate (num_vertices + 1) 0%Z);
        rev ← collect min_id rows 0 (replicate num_vertices []);
        '(reverse_offsets, reverse_edges) ← fill (sort_row min_id coords) rev 0 [] (replicate (num_vertices + 1) 0%Z);
        Ok {| offsets := offsets; edges := edges; reverse_offsets := reverse_offsets;
              reverse_edges := reverse_edges; min_vertex_id := min_id |}
  end.

(** * Reading *)

(** The row of [v] in one of the two pairs of arrays. *)
Definition row_index (offsets : list Z) (min_id : Z) (v : VertexId) : option nat :=
  if (length offsets <=? 1)%nat then None
  else if (v <? min_id)%Z then None
  else
    let idx := Z.to_nat (v - min_id) in
    if (length offsets - 1 <=? idx)%nat then None else Some idx.

Definition read_row {E} (offsets edges : list Z) (min_id : Z) (v : VertexId) : result E (list VertexId) :=
  match row_index offsets min_id v with
  | None => Ok []
  | Some idx =>
      start ← vec_get offsets idx;
      stop ← vec_get offsets (idx + 1);
      vec_slice edges (Z.to_nat start) (Z.to_nat stop)
  end.

Definition out_edges {E} (c : CsrEdges) (v : VertexId) : result E (list VertexId) :=
  read_row (offsets c) (edges c) (min_vertex_id c) v.
Definition in_edges {E} (c : CsrEdges) (v : VertexId) : result E (list VertexId) :=
  read_row (reverse_offsets c) (reverse_edges c) (min_vertex_id c) v.

Definition out_degree {E} (c : CsrEdges) (v : VertexId) : result E Z :=
  match row_index (offsets c) (min_vertex_id c) v with
  | None => Ok 0%Z
  | Some idx =>
      start ← vec_get (offsets c) idx;
      stop ← vec_get (offsets c) (idx + 1);
      expect (stop -? start)%u32
  end.

Definition in_degree {E} (c : CsrEdges) (v : VertexId) : result E nat := length <$> in_edges c v.
Definition num_vertices (c : CsrEdges) : nat := length (offsets c) - 1.
Definition num_edges (c : CsrEdges) : nat := length (edges c).

Definition memory_usage (c : CsrEdges) : nat :=
  length (offsets c) * 4 + length (edges c) * 4 + length (reverse_offsets c) * 4 + length (reverse_edges c) * 4.

Definition has_edge {E} (c : CsrEdges) (from to : VertexId) : result E bool :=
  l ← out_edges c from; Ok (bool_decide (to ∈ l)).

(** [CsrIterator::next], and the items until it ends. *)
Definition next {E} (c : CsrEdges) (current_vertex : nat) : result E (option (VertexId * list VertexId) * nat) :=
  if (num_vertices c <=? current_vertex)%nat then Ok (None, current_vertex)
  else
    v ← add_u32 (as_u32 (Z.of_nat current_vertex)) (min_vertex_id c);
    l ← out_edges c v;
    Ok (Some (v, l), current_vertex + 1).

Fixpoint items {E} (fuel : nat) (c : CsrEdges) (current_vertex : nat) : result E (list (VertexId * list VertexId)) :=
  match fuel with
  | O => Panic
  | S fuel =>
      '(item, current_vertex) ← next c current_vertex;
      match item with
      | None => Ok []
      | Some x => xs ← items fuel c current_vertex; Ok (x :: xs)
      end
  end.

Definition iter {E} (c : CsrEdges) : result E (list (VertexId * list VertexId)) := items (num_vertices c + 1) c 0.

(** * [CsrBuilder] *)

Record CsrBuilder : Type := { adjacency : list (list nat); b_coords : list VertexAddr }.

Definition new_builder : CsrBuilder := {| adjacency := []; b_coords := [] |}.

Definition add_vertex (b : CsrBuilder) (addr : VertexAddr) : CsrBuilder * nat :=
  ({| adjacency := adjacency b ++ [[]]; b_coords := b_coords b ++ [addr] |}, length (adjacency b)).

Definition add_edge (b : CsrBuilder) (from to : nat) : CsrBuilder :=
  if (from <? length (adjacency b))%nat
  then {| adjacency := alter (λ l, l ++ [to]) from (adjacency b); b_coords := b_coords b |} else b.

Definition build {E} (b : CsrBuilder) : result E CsrEdges :=
  from_adjacency
    (imap (λ idx es, (as_u32 (Z.of_nat idx), (λ e, as_u32 (Z.of_nat e)) <$> es)) (adjacency b)) (b_coords b).

(** * Tests of the source *)

Definition diamond : list (Z * list Z) := [(0, [1; 2]); (1, [2; 3]); (2, [3]); (3, [])]%Z.
Definition square : list VertexAddr := [at_grid 0 0; at_grid 0 1; at_grid 1 0; at_grid 1 1].

Example csr_construction :
  (c ← from_adjacency (E := Empty_set) diamond square; a ← out_edges c 0; b ← out_edges c 1; r ← in_edges c 3; d ← out_degree c 1;
   Ok (a, b, r, d)) = Ok ([1; 2], [2; 3], [1; 2], 2)%Z.
Proof. reflexivity. Qed.
