(* ===== verification/CsrTheorems.v ===== *)
(** The compressed rows hold the edges they are built from, in both directions. *)
From S2P Require Import Prelude Coords VertexAddr Csr.

(** * Counting *)

(** How often [x] is in [l]. *)
Definition occ (x : Z) (l : list Z) : nat := length (filter (λ y, y = x) l).

Lemma occ_app x l k : occ x (l ++ k) = occ x l + occ x k.
Proof. unfold occ. by rewrite filter_app, length_app. Qed.

Lemma occ_cons x y l : occ x (y :: l) = (if decide (y = x) then 1 else 0) + occ x l.
Proof. unfold occ. rewrite filter_cons. by case_decide. Qed.

Lemma occ_elem x l : x ∈ l ↔ occ x l ≠ 0.
Proof.
  induction l as [|y l IH]; [by rewrite elem_of_nil|]. rewrite elem_of_cons, occ_cons, IH. case_decide; naive_solver lia.
Qed.

Lemma occ_nodup x l : NoDup l → occ x l ≤ 1.
Proof.
  induction 1 as [|y l Hy _ IH]; [by apply Nat.le_0_l|]. rewrite occ_cons. rewrite occ_elem in Hy.
  case_decide; [subst|]; lia.
Qed.

Lemma nodup_occ l : (∀ x, occ x l ≤ 1) → NoDup l.
Proof.
  induction l as [|y l IH]; intros H; constructor.
  - rewrite occ_elem. specialize (H y). rewrite occ_cons, decide_True in H by done. lia.
  - apply IH. intros x. specialize (H x). rewrite occ_cons in H. lia.
Qed.

Lemma occ_perm x l k : l ≡ₚ k → occ x l = occ x k.
Proof. unfold occ. by intros ->. Qed.

(** The sum of a function over a list without duplicates depends on its support only. *)
Lemma sum_filter {A} (f : A → nat) l : sum_list_with f l = sum_list_with f (filter (λ x, f x ≠ 0) l).
Proof. induction l as [|x l IH]; [done|]. rewrite filter_cons. case_decide; simpl; lia. Qed.

Lemma sum_perm {A} (f : A → nat) l k : l ≡ₚ k → sum_list_with f l = sum_list_with f k.
Proof. induction 1; simpl; lia. Qed.

Lemma sum_support {A} (f : A → nat) l k : NoDup l → NoDup k → (∀ x, f x ≠ 0 → x ∈ l) → (∀ x, f x ≠ 0 → x ∈ k) →
  sum_list_with f l = sum_list_with f k.
Proof.
  intros Hl Hk Sl Sk. rewrite (sum_filter f l), (sum_filter f k). apply sum_perm, NoDup_Permutation; [by apply NoDup_filter..|].
  intros x. rewrite !list_elem_of_filter. naive_solver.
Qed.

Definition total (rows : list (list Z)) : nat := sum_list_with length rows.

Lemma total_concat rows : length (concat rows) = total rows.
Proof. induction rows as [|r rows IH]; [done|]. simpl. rewrite length_app. unfold total in *. simpl. lia. Qed.

Lemma total_fmap (sort : list Z → list Z) rows : (∀ l, length (sort l) = length l) → total (sort <$> rows) = total rows.
Proof. intros H. induction rows as [|r rows IH]; [done|]. unfold total in *. csimpl. rewrite H. lia. Qed.

Lemma total_app rows rows' : total (rows ++ rows') = total rows + total rows'.
Proof. induction rows as [|r rows IH]; [done|]. unfold total in *. simpl. lia. Qed.

(** * Rows *)

Definition row_at (min_id : Z) (rows : list (list Z)) (v : Z) : list Z :=
  if decide (min_id ≤ v)%Z then default [] (rows !! Z.to_nat (v - min_id)) else [].

Lemma row_at_nat min_id rows i : row_at min_id rows (min_id + Z.of_nat i) = default [] (rows !! i).
Proof. unfold row_at. rewrite decide_True by lia. do 2 f_equal. lia. Qed.

Lemma row_at_empty min_id n v : row_at min_id (replicate n []) v = [].
Proof. unfold row_at. case_decide; [|done]. destruct (replicate n [] !! _) as [l|] eqn:El; [|done]. by apply lookup_replicate_1 in El as [-> _]. Qed.

Lemma sort_row_perm m coords l : sort_row m coords l ≡ₚ l.
Proof. apply merge_sort_Permutation. Qed.

Lemma sort_row_sorted m coords l : Sorted (edge_le m coords) (sort_row m coords l).
Proof. apply Sorted_merge_sort. apply _. Qed.

Lemma sort_row_length m coords l : length (sort_row m coords l) = length l.
Proof. by rewrite (sort_row_perm m coords l). Qed.

Section rows.
Context {E : Type} (sort : list Z → list Z) (sort_nil : sort [] = []) (sort_length : ∀ l, length (sort l) = length l).

(** The offset behind the first [j] rows. *)
Definition offset (rows : list (list Z)) (j : nat) : nat := total (take j rows).

Lemma offset_app rows rows' j : j ≤ length rows → offset (rows ++ rows') j = offset rows j.
Proof. intros H. unfold offset. by rewrite take_app_le. Qed.

Lemma offset_all rows : offset rows (length rows) = total rows.
Proof. unfold offset. by rewrite take_ge. Qed.

Lemma offset_S rows j row : rows !! j = Some row → offset rows (S j) = offset rows j + length row.
Proof. intros H. unfold offset. rewrite (take_S_r _ _ row) by done. rewrite total_app. unfold total at 2. simpl. lia. Qed.

Lemma offset_le rows j : offset rows j ≤ total rows.
Proof. rewrite <- (take_drop j rows) at 2. rewrite total_app. unfold offset. lia. Qed.

Lemma fill_ok todo : ∀ dn offs, length offs = length dn + length todo + 1 →
  (∀ j, j ≤ length dn → offs !! j = Some (as_u32 (Z.of_nat (offset dn j)))) →
  ∃ offs', @fill E sort todo (length dn) (concat (sort <$> dn)) offs = Ok (offs', concat (sort <$> (dn ++ todo))) ∧
    length offs' = length (dn ++ todo) + 1 ∧
    ∀ j, j ≤ length (dn ++ todo) → offs' !! j = Some (as_u32 (Z.of_nat (offset (dn ++ todo) j))).
Proof using sort_length.
  induction todo as [|row todo IH]; intros dn offs Hl Ho; cbn [fill].
  - exists offs. rewrite app_nil_r. split_and!; [done|simpl in Hl; lia|done].
  - rewrite vec_set_ok by (simpl in Hl; lia). cbn [mbind result_bind].
    assert (Hc : concat (sort <$> dn) ++ sort row = concat (sort <$> (dn ++ [row])))
      by (rewrite fmap_app, concat_app; csimpl; by rewrite app_nil_r).
    rewrite Hc, total_concat, total_fmap by done.
    specialize (IH (dn ++ [row]) (<[length dn + 1:=as_u32 (Z.of_nat (total (dn ++ [row])))]> offs)).
    rewrite length_app in IH. cbn [length] in IH. rewrite <- app_assoc in IH. apply IH.
    + rewrite length_insert. simpl in Hl. lia.
    + intros j Hj. destruct (decide (j = length dn + 1)) as [->|Hne].
      * rewrite list_lookup_insert_eq by (simpl in Hl; lia). do 3 f_equal. symmetry.
        replace (length dn + 1) with (length (dn ++ [row])) by (rewrite length_app; simpl; lia). apply offset_all.
      * rewrite list_lookup_insert_ne by lia. rewrite offset_app by lia. apply Ho. lia.
Qed.

(** [fill] from the start. *)
Lemma fill_rows_ok rows : (Z.of_nat (total rows) ≤ u32_max)%Z →
  ∃ offs, @fill E sort rows 0 [] (replicate (length rows + 1) 0%Z) = Ok (offs, concat (sort <$> rows)) ∧
    length offs = length rows + 1 ∧ ∀ j, j ≤ length rows → offs !! j = Some (Z.of_nat (offset rows j)).
Proof using sort_length.
  intros Ht. destruct (fill_ok rows [] (replicate (length rows + 1) 0%Z)) as (offs & E1 & Hl & Ho).
  - rewrite length_replicate. simpl. lia.
  - intros j Hj. simpl in Hj. assert (j = 0) as -> by lia. by rewrite Nat.add_1_r.
  - exists offs. split_and!; [done|done|]. intros j Hj. simpl in Ho. rewrite Ho by done. f_equal. apply as_u32_nat.
    pose proof (offset_le rows j). lia.
Qed.

Lemma drop_rows rows i row : rows !! i = Some row →
  take (length row) (drop (offset rows i) (concat (sort <$> rows))) = sort row.
Proof using sort_length.
  intros Hi. rewrite <- (take_drop_middle rows i row Hi). rewrite offset_app, fmap_app, concat_app by (rewrite length_take; apply lookup_lt_Some in Hi; lia).
  assert (Hlen : offset (take i rows) i = length (concat (sort <$> take i rows))).
  { rewrite total_concat, total_fmap by done. unfold offset. by rewrite take_take, Nat.min_id. }
  rewrite Hlen, drop_app_length. csimpl. rewrite <- (sort_length row). apply take_app_length.
Qed.

Context (rows : list (list Z)) (offs : list Z) (min_id : Z) (n : length rows ≠ 0)
  (Hl : length offs = length rows + 1) (Ho : ∀ j, j ≤ length rows → offs !! j = Some (Z.of_nat (offset rows j))).

Lemma row_index_ok v : row_index offs min_id v
  = if decide ((min_id ≤ v)%Z ∧ Z.to_nat (v - min_id) < length rows) then Some (Z.to_nat (v - min_id)) else None.
Proof using n Hl.
  unfold row_index. destruct (Nat.leb_spec (length offs) 1); [lia|].
  destruct (Z.ltb_spec v min_id); [rewrite decide_False by lia; done|].
  destruct (Nat.leb_spec (length offs - 1) (Z.to_nat (v - min_id))); case_decide; done || lia.
Qed.

Lemma read_row_ok v : @read_row E offs (concat (sort <$> rows)) min_id v = Ok (sort (row_at min_id rows v)).
Proof using All.
  unfold read_row, row_at. rewrite row_index_ok. case_decide as Hd.
  - destruct Hd as [Hv Hi]. rewrite decide_True by done. destruct (lookup_lt_is_Some_2 rows _ Hi) as [row Hr]. rewrite Hr. simpl.
    unfold vec_get. rewrite !Ho by lia. cbn [expect mbind result_bind]. rewrite Nat.add_1_r, (offset_S _ _ row) by done.
    rewrite !Nat2Z.id, vec_slice_ok.
    + f_equal. replace (_ + _ - _) with (length row) by lia. by apply drop_rows.
    + rewrite total_concat, total_fmap by done. rewrite <- (offset_S _ _ row) by done. pose proof (offset_le rows (S (Z.to_nat (v - min_id)))).
      rewrite (offset_S _ _ row) in * by done. lia.
  - case_decide; [|by rewrite sort_nil]. rewrite lookup_ge_None_2 by lia. simpl. by rewrite sort_nil.
Qed.
End rows.

(** * The adjacency list *)

(** The row of [v]: its last entry. *)
Fixpoint last_row (adj : list (Z * list Z)) (v : Z) : option (list Z) :=
  match adj with
  | [] => None
  | (u, row) :: adj => match last_row adj v with Some r => Some r | None => if decide (u = v) then Some row else None end
  end.

Definition rel (adj : list (Z * list Z)) (v : Z) : list Z := default [] (last_row adj v).

(** Every id of [adj] lies between [a] and [b]. *)
Definition ids_in (a b : Z) (adj : list (Z * list Z)) : Prop :=
  Forall (λ e, (a ≤ e.1 ≤ b)%Z ∧ Forall (λ t, (a ≤ t ≤ b)%Z) e.2) adj.

Lemma scan_targets_ok targets : ∀ lo hi, let '(lo', hi') := scan_targets targets lo hi in
  (lo' ≤ lo)%Z ∧ (hi ≤ hi')%Z ∧ Forall (λ t, (lo' ≤ t ≤ hi')%Z) targets ∧
  ∀ a b, Forall (λ t, (a ≤ t ≤ b)%Z) targets → (a ≤ lo)%Z → (hi ≤ b)%Z → (a ≤ lo')%Z ∧ (hi' ≤ b)%Z.
Proof.
  induction targets as [|t ts IH]; intros lo hi; simpl; [split_and!; done || lia|].
  specialize (IH (lo `min` t)%Z (hi `max` t)%Z). destruct (scan_targets ts _ _) as [lo' hi'].
  destruct IH as (H1 & H2 & H3 & H4). split_and!; [lia|lia|constructor; [lia|done]|].
  intros a b [Ht Hts]%Forall_cons Ha Hb. apply H4; [done|lia|lia].
Qed.

Lemma scan_ids_ok adj : ∀ lo hi, let '(lo', hi') := scan_ids adj lo hi in
  (lo' ≤ lo)%Z ∧ (hi ≤ hi')%Z ∧ ids_in lo' hi' adj ∧
  ∀ a b, ids_in a b adj → (a ≤ lo)%Z → (hi ≤ b)%Z → (a ≤ lo')%Z ∧ (hi' ≤ b)%Z.
Proof.
  induction adj as [|[u ts] adj IH]; intros lo hi; simpl; [split_and!; [lia|lia|constructor|done]|].
  pose proof (scan_targets_ok ts (lo `min` u)%Z (hi `max` u)%Z) as Ht. destruct (scan_targets ts _ _) as [lo1 hi1].
  destruct Ht as (T1 & T2 & T3 & T4). specialize (IH lo1 hi1). destruct (scan_ids adj lo1 hi1) as [lo' hi'].
  destruct IH as (H1 & H2 & H3 & H4). split_and!; [lia|lia| |].
  - constructor; [|done]. simpl. split; [lia|]. eapply Forall_impl; [exact T3|]. intros t. simpl. lia.
  - intros a b [[Hu Hts] Hadj]%Forall_cons Ha Hb. simpl in *. destruct (T4 a b Hts); [lia|lia|]. by apply H4.
Qed.

Lemma last_row_elem adj v row : last_row adj v = Some row → (v, row) ∈ adj.
Proof.
  induction adj as [|[u r] adj IH]; simpl; [done|]. destruct (last_row adj v) as [r'|].
  - intros [= ->]. right. by apply IH.
  - case_decide; intros [= ->]. subst. left.
Qed.

Lemma ids_in_row a b adj v row : ids_in a b adj → last_row adj v = Some row → (a ≤ v ≤ b)%Z ∧ Forall (λ t, (a ≤ t ≤ b)%Z) row.
Proof. intros H Hr%last_row_elem. unfold ids_in in H. rewrite Forall_forall in H. exact (H _ Hr). Qed.

Section place.
Context {E : Type} (lo hi : Z).

Lemma place_ok adj : ids_in lo hi adj → ∀ rows, length rows = Z.to_nat (hi - lo + 1) →
  ∃ rows', @place E lo adj rows = Ok rows' ∧ length rows' = length rows ∧
    (∀ v, row_at lo rows' v = default (row_at lo rows v) (last_row adj v)) ∧
    total rows' ≤ total rows + sum_list_with (λ e, length e.2) adj.
Proof.
  induction adj as [|[u ts] adj IH]; intros Ha rows Hl; simpl; [exists rows; split_and!; done || lia|].
  apply Forall_cons in Ha as [[Hu Hts] Ha]. simpl in Hu.
  assert (Hi : Z.to_nat (u - lo) < length rows) by lia. rewrite vec_set_ok by done. cbn [mbind result_bind].
  destruct (IH Ha (<[Z.to_nat (u - lo) := ts]> rows)) as (rows' & E1 & Hl' & Hr & Ht); [by rewrite length_insert|].
  exists rows'. rewrite length_insert in Hl'. split_and!; [done|done| |].
  - intros v. rewrite Hr. destruct (last_row adj v); [done|]. simpl. unfold row_at. case_decide as Hd; [|case_decide; [lia|done]].
    destruct (decide (u = v)) as [<-|Hne]; [by rewrite list_lookup_insert_eq|]. rewrite list_lookup_insert_ne; [done|lia].
  - destruct (lookup_lt_is_Some_2 rows _ Hi) as [r Hr0]. pose proof (sum_list_insert length rows _ r ts Hr0). unfold total in *. lia.
Qed.
End place.

(** * The reverse rows *)

Lemma alter_as_insert {A} (f : A → A) (i : nat) (l : list A) x : l !! i = Some x → alter f i l = <[i := f x]> l.
Proof.
  intros H. apply list_eq. intros j. destruct (decide (i = j)) as [->|Hj].
  - rewrite list_lookup_alter_eq, list_lookup_insert_eq, H; [done|]. by eapply lookup_lt_Some.
  - by rewrite list_lookup_alter_ne, list_lookup_insert_ne.
Qed.

Section collect.
Context {E : Type} (lo : Z).

Lemma collect_targets_ok source ts : ∀ rev, Forall (λ t, (lo ≤ t < lo + Z.of_nat (length rev))%Z) ts →
  let rev' := collect_targets lo source ts rev in
  length rev' = length rev ∧ total rev' = total rev + length ts ∧
  ∀ v s, occ s (row_at lo rev' v) = occ s (row_at lo rev v) + if decide (s = source) then occ v ts else 0.
Proof.
  induction ts as [|t ts IH]; intros rev Ht; cbn zeta.
  - cbn [collect_targets]. split_and!; [done|simpl; lia|]. intros v s. case_decide; [unfold occ; simpl|]; lia.
  - apply Forall_cons in Ht as [Ht Hts]. cbn [collect_targets]. assert (Hi : Z.to_nat (t - lo) < length rev) by lia.
    rewrite (proj2 (Nat.ltb_lt _ _) Hi).
    destruct (IH (alter (λ l, l ++ [source]) (Z.to_nat (t - lo)) rev)) as (H1 & H2 & H3); [by rewrite length_alter|].
    destruct (lookup_lt_is_Some_2 rev _ Hi) as [r Hr]. split_and!; [by rewrite H1, length_alter| |].
    + rewrite H2, (alter_as_insert _ _ _ r) by done. pose proof (sum_list_insert length rev _ r (r ++ [source]) Hr) as Hs.
      rewrite length_app in Hs. unfold total in *. simpl in *. lia.
    + intros v s. rewrite H3, occ_cons, (alter_as_insert _ _ _ r) by done. unfold row_at. case_decide as Hv.
      2:{ rewrite (decide_False (P := t = v)) by lia. done. }
      destruct (decide (t = v)) as [->|Hne].
      * rewrite list_lookup_insert_eq, Hr by done. simpl. rewrite occ_app, occ_cons. change (occ s []) with 0.
        repeat case_decide; subst; lia || done.
      * rewrite list_lookup_insert_ne by lia. by case_decide.
Qed.

Lemma collect_ok rows : ∀ idx rev, (0 ≤ lo)%Z → (lo + Z.of_nat (idx + length rows) ≤ u32_max)%Z →
  Forall (Forall (λ t, (lo ≤ t < lo + Z.of_nat (length rev))%Z)) rows →
  ∃ rev', @collect E lo rows idx rev = Ok rev' ∧ length rev' = length rev ∧ total rev' = total rev + total rows ∧
    ∀ v s, occ s (row_at lo rev' v) = occ s (row_at lo rev v) + occ v (row_at (lo + Z.of_nat idx) rows s).
Proof.
  induction rows as [|ts rows IH]; intros idx rev Hlo Hb Hf; cbn [collect].
  - exists rev. split_and!; [done|done|unfold total; simpl; lia|]. intros v s.
    unfold row_at at 3. rewrite lookup_nil. case_decide; unfold occ; simpl; lia.
  - apply Forall_cons in Hf as [Hts Hf]. simpl in Hb. rewrite as_u32_nat, add_u32_ok by lia. cbn [mbind result_bind].
    destruct (collect_targets_ok (lo + Z.of_nat idx) ts rev Hts) as (H1 & H2 & H3).
    destruct (IH (idx + 1) (collect_targets lo (lo + Z.of_nat idx) ts rev)) as (rev' & E1 & Hl & Ht & Hr); [lia|lia|by rewrite H1|].
    exists rev'. split_and!; [done|lia|unfold total in *; simpl; lia|]. intros v s. rewrite Hr, H3, <- Nat.add_assoc. f_equal.
    unfold row_at. case_decide as Hs; repeat case_decide; try lia.
    + subst. replace (Z.to_nat _) with 0 by lia. simpl. change (occ v []) with 0. lia.
    + replace (Z.to_nat (s - (lo + Z.of_nat idx))) with (S (Z.to_nat (s - (lo + Z.of_nat (idx + 1))))) by lia. done.
Qed.
End collect.

(** * The structure holds the relation *)

Section exact.
Context {E : Type}.

(** [c] holds the targets [out] of every id, rows in the order of the addresses [coords]. *)
Record csr_rep (c : CsrEdges) (coords : list VertexAddr) (out : Z → list Z) : Prop := {
  rep_out v : ∃ l, @out_edges E c v = Ok l ∧ l ≡ₚ out v ∧ Sorted (edge_le (min_vertex_id c) coords) l;
  rep_in v : ∃ l, @in_edges E c v = Ok l ∧ Sorted (edge_le (min_vertex_id c) coords) l ∧ ∀ s, occ s l = occ v (out s);
  rep_degree v : @out_degree E c v = Ok (Z.of_nat (length (out v)));
  rep_num vs : NoDup vs → (∀ v, out v ≠ [] → v ∈ vs) → num_edges c = sum_list_with (λ v, length (out v)) vs;
  rep_iter : ∃ its, @iter E c = Ok its ∧ its.*1 = seqZ (min_vertex_id c) (Z.of_nat (num_vertices c)) ∧
    (∀ v, out v ≠ [] → v ∈ its.*1) ∧ Forall (λ it, @out_edges E c it.1 = Ok it.2) its
}.

Lemma csr_rep_ext c coords out out' : (∀ v, out v = out' v) → csr_rep c coords out → csr_rep c coords out'.
Proof.
  intros Ho [H1 H2 H3 H4 (its & I1 & I2 & I3 & I4)]. split.
  - intros v. rewrite <- Ho. apply H1.
  - intros v. destruct (H2 v) as (l & ? & ? & Hl). exists l. split_and!; [done|done|]. intros s. by rewrite Hl, Ho.
  - intros v. by rewrite <- Ho.
  - intros vs Hn Hs. rewrite (H4 vs Hn); [|intros v; rewrite Ho; apply Hs]. clear Hn Hs.
    induction vs as [|v vs IH]; [done|]. simpl. by rewrite IH, Ho.
  - exists its. split_and!; [done|done| |done]. intros v. rewrite <- Ho. apply I3.
Qed.

Lemma empty_rep coords : csr_rep empty coords (λ _, []).
Proof.
  split; try done.
  - intros v. exists []. split_and!; [done|done|constructor].
  - intros v. exists []. split_and!; [done|constructor|done].
  - intros vs _ _. induction vs as [|v vs IH]; [done|exact IH].
  - exists []. split_and!; [done|done|done|constructor].
Qed.

Lemma items_ok c its : ∀ fuel k, k + length its = num_vertices c → length its < fuel →
  (min_vertex_id c + Z.of_nat (num_vertices c) ≤ u32_max)%Z → (0 ≤ min_vertex_id c)%Z →
  (∀ i it, its !! i = Some it → it.1 = (min_vertex_id c + Z.of_nat (k + i))%Z ∧ @out_edges E c it.1 = Ok it.2) →
  @items E fuel c k = Ok its.
Proof.
  induction its as [|it its IH]; intros [|fuel] k Hk Hf Hb Hm Hi; simpl in *; try lia; unfold next.
  - by rewrite (proj2 (Nat.leb_le _ _)) by lia.
  - destruct (Nat.leb_spec (num_vertices c) k); [lia|].
    destruct (Hi 0 it eq_refl) as [Hv Hl]. rewrite Nat.add_0_r in Hv.
    rewrite as_u32_nat, add_u32_ok by lia. cbn [mbind result_bind]. rewrite Z.add_comm, <- Hv, Hl. cbn [mbind result_bind].
    rewrite (IH fuel (k + 1)); [by destruct it|lia|lia|done|done|]. intros i it' Hit. destruct (Hi (S i) it' Hit) as [Hv' Hl'].
    split; [rewrite Hv'; f_equal; lia|done].
Qed.

Lemma rows_sum lo rows : total rows = sum_list_with (λ v, length (row_at lo rows v)) (seqZ lo (Z.of_nat (length rows))).
Proof.
  revert lo. induction rows as [|r rows IH]; intros lo; [done|]. cbn [length]. rewrite seqZ_cons by lia.
  unfold total in *. cbn [sum_list_with]. f_equal.
  - unfold row_at. rewrite decide_True by lia. by rewrite Z.sub_diag.
  - rewrite (IH (Z.succ lo)). replace (Z.pred _) with (Z.of_nat (length rows)) by lia.
    assert (Hle : ∀ v, v ∈ seqZ (Z.succ lo) (Z.of_nat (length rows)) → (lo < v)%Z) by (intros v Hv%elem_of_seqZ; lia).
    revert Hle. generalize (seqZ (Z.succ lo) (Z.of_nat (length rows))). intros vs Hle. induction vs as [|v vs IHv]; [done|].
    cbn [sum_list_with]. rewrite IHv by (intros w Hw; apply Hle; by right). f_equal. specialize (Hle v ltac:(by left)).
    unfold row_at. rewrite !decide_True by lia. by replace (Z.to_nat (v - lo)) with (S (Z.to_nat (v - Z.succ lo))) by lia.
Qed.

(** What the four arrays hold, made of the rows in both directions. *)
Lemma arrays_rep coords lo rows rev offs roffs : length rows ≠ 0 → length rev = length rows → (0 ≤ lo)%Z →
  (lo + Z.of_nat (length rows) ≤ u32_max)%Z →
  length offs = length rows + 1 → (∀ j, j ≤ length rows → offs !! j = Some (Z.of_nat (offset rows j))) →
  length roffs = length rev + 1 → (∀ j, j ≤ length rev → roffs !! j = Some (Z.of_nat (offset rev j))) →
  (∀ v s, occ s (row_at lo rev v) = occ v (row_at lo rows s)) →
  csr_rep {| offsets := offs; edges := concat (sort_row lo coords <$> rows); reverse_offsets := roffs;
             reverse_edges := concat (sort_row lo coords <$> rev); min_vertex_id := lo |} coords (row_at lo rows).
Proof.
  intros Hn Hrev Hlo Hb Hl Ho Hrl Hro Hocc. pose proof (sort_row_length lo coords) as Hsl.
  set (c := {| offsets := _ |}).
  assert (Hout : ∀ v, @out_edges E c v = Ok (sort_row lo coords (row_at lo rows v)))
    by (intros v; by apply (read_row_ok (sort_row lo coords))).
  assert (Hnv : num_vertices c = length rows) by (unfold num_vertices; simpl; lia).
  assert (Hdom : ∀ v, row_at lo rows v ≠ [] → v ∈ seqZ lo (Z.of_nat (length rows))).
  { intros v Hv. apply elem_of_seqZ. unfold row_at in Hv. case_decide; [|done].
    destruct (decide (Z.to_nat (v - lo) < length rows)); [lia|]. by rewrite lookup_ge_None_2 in Hv by lia. }
  split.
  - intros v. eexists. split_and!; [apply Hout|apply sort_row_perm|apply sort_row_sorted].
  - intros v. exists (sort_row lo coords (row_at lo rev v)). split_and!.
    + apply (read_row_ok (sort_row lo coords)); [done..|lia|done|done].
    + apply sort_row_sorted.
    + intros s. by rewrite (occ_perm s _ _ (sort_row_perm lo coords _)).
  - intros v. unfold out_degree. cbn [offsets min_vertex_id c]. rewrite (row_index_ok rows) by done. unfold row_at. case_decide as Hd.
    + destruct Hd as [Hv Hi]. rewrite decide_True by done. destruct (lookup_lt_is_Some_2 rows _ Hi) as [row Hr]. rewrite Hr. simpl.
      unfold vec_get. rewrite !Ho by lia. cbn [expect mbind result_bind]. rewrite Nat.add_1_r, (offset_S _ _ row) by done.
      unfold checked_sub. rewrite decide_True by lia. simpl. f_equal. lia.
    + case_decide; [|done]. by rewrite lookup_ge_None_2 by lia.
  - intros vs Hnd Hvs. unfold num_edges. simpl. rewrite total_concat, total_fmap, (rows_sum lo) by done.
    apply sum_support; [apply NoDup_seqZ|done|..]; intros v Hv; [apply Hdom|apply Hvs]; intros E0; by rewrite E0 in Hv.
  - exists ((λ v, (v, sort_row lo coords (row_at lo rows v))) <$> seqZ lo (Z.of_nat (length rows))). rewrite Hnv.
    assert (Hfst : ((λ v, (v, sort_row lo coords (row_at lo rows v))) <$> seqZ lo (Z.of_nat (length rows))).*1 = seqZ lo (Z.of_nat (length rows)))
      by (rewrite <- list_fmap_compose; apply list_fmap_id).
    split_and!; [|exact Hfst|by rewrite Hfst|].
    + unfold iter. apply items_ok; rewrite ?length_fmap, ?length_seqZ, ?Hnv; try (simpl; lia).
      intros i it. rewrite list_lookup_fmap. intros (v & Hv & ->)%fmap_Some. apply lookup_seqZ in Hv as [-> Hi]. simpl. split; [lia|apply Hout].
    + apply Forall_fmap, Forall_forall. intros v _. apply Hout.
Qed.

Lemma from_adjacency_ok adj coords : ids_in 0 (u32_max - 1) adj → (Z.of_nat (sum_list_with (λ e, length e.2) adj) ≤ u32_max)%Z →
  ∃ c, @from_adjacency E adj coords = Ok c ∧ csr_rep c coords (rel adj).
Proof.
  intros Hids Htot. unfold from_adjacency. destruct adj as [|e adj']; [exists empty; split; [done|]; apply empty_rep|].
  set (adj := e :: adj') in *. pose proof (scan_ids_ok adj u32_max 0) as Hscan. destruct (scan_ids adj u32_max 0) as [lo hi] eqn:Es.
  destruct Hscan as (H1 & H2 & H3 & H4). destruct (H4 0%Z (u32_max - 1)%Z Hids) as [Hlo Hhi]; [unfold u32_max; lia..|].
  assert (Hle : (lo ≤ hi)%Z) by (unfold adj in H3; apply Forall_cons in H3 as [[? _] _]; lia).
  destruct (Z.eqb_spec lo u32_max); [lia|]. rewrite add_u32_ok by lia. cbn [mbind result_bind].
  destruct (place_ok (E := E) lo hi adj H3 (replicate (Z.to_nat (hi - lo + 1)) [])) as (rows & Ep & Hlr & Hrow & Ht);
    [by rewrite length_replicate|]. rewrite Ep. cbn [mbind result_bind]. rewrite length_replicate in Hlr.
  assert (Ht0 : total (replicate (Z.to_nat (hi - lo + 1)) []) = 0) by (generalize (Z.to_nat (hi - lo + 1)); intros k; by induction k).
  rewrite Ht0 in Ht. rewrite <- Hlr. pose proof (sort_row_length lo coords) as Hsl.
  destruct (fill_rows_ok (E := E) (sort_row lo coords) Hsl rows) as (offs & Ef & Hlo1 & Ho); [lia|]. rewrite Ef. cbn [mbind result_bind].
  assert (Hrel : ∀ v, row_at lo rows v = rel adj v) by (intros v; rewrite Hrow, row_at_empty; done).
  assert (Hin : Forall (Forall (λ t, (lo ≤ t < lo + Z.of_nat (length (replicate (length rows) ([] : list Z))))%Z)) rows).
  { rewrite length_replicate, Hlr. apply Forall_lookup. intros i r Hr. pose proof (row_at_nat lo rows i) as Hi. rewrite Hr, Hrel in Hi.
    simpl in Hi. unfold rel in Hi. destruct (last_row adj (lo + Z.of_nat i)) as [r'|] eqn:El; simpl in Hi; subst r; [|constructor].
    destruct (ids_in_row _ _ _ _ _ H3 El) as [_ Hr']. eapply Forall_impl; [exact Hr'|]. simpl. lia. }
  destruct (collect_ok (E := E) lo rows 0 (replicate (length rows) []) Hlo) as (rev & Ec & Hlrev & Htrev & Hocc); [simpl; lia|done|].
  rewrite Ec. cbn [mbind result_bind]. rewrite length_replicate in Hlrev.
  assert (Ht1 : total (replicate (length rows) []) = 0) by (generalize (length rows); intros k; by induction k).
  destruct (fill_rows_ok (E := E) (sort_row lo coords) Hsl rev) as (roffs & Er & Hlo2 & Hro); [lia|].
  rewrite Hlrev in Er. rewrite Er. cbn [mbind result_bind]. eexists. split; [done|].
  apply (csr_rep_ext _ _ (row_at lo rows)); [done|]. apply arrays_rep; try done || lia.
  intros v s. rewrite Hocc, row_at_empty. simpl. unfold occ at 1. simpl. by rewrite Z.add_0_r.
Qed.
End exact.

(** The compressed rows are the relation they are built from.  For any adjacency list whose
    ids are below [u32::MAX] and whose targets fit 32-bit offsets, [from_adjacency] does not
    panic; [out_edges v] is the last row given for [v], in the order of the addresses (row, column,
    then symbols, then ids without an address), and nothing for other ids; [in_edges v] has each
    source as often as its row names [v], in the same order; degrees and [has_edge] agree, and
    the iterator counts the ids up from the smallest, with every row once. *)
Lemma csr_exact adj coords : ids_in 0 (u32_max - 1) adj → (Z.of_nat (sum_list_with (λ e, length e.2) adj) ≤ u32_max)%Z →
  ∃ c its, @from_adjacency Empty_set adj coords = Ok c ∧
    (∀ v, ∃ l, @out_edges Empty_set c v = Ok l ∧ l ≡ₚ rel adj v ∧ Sorted (edge_le (min_vertex_id c) coords) l ∧
      @out_degree Empty_set c v = Ok (Z.of_nat (length l)) ∧ ∀ w, @has_edge Empty_set c v w = Ok (bool_decide (w ∈ rel adj v))) ∧
    (∀ v, ∃ l, @in_edges Empty_set c v = Ok l ∧ Sorted (edge_le (min_vertex_id c) coords) l ∧
      @in_degree Empty_set c v = Ok (length l) ∧ ∀ s, occ s l = occ v (rel adj s)) ∧
    @iter Empty_set c = Ok its ∧ its.*1 = seqZ (min_vertex_id c) (Z.of_nat (num_vertices c)) ∧
    (∀ v, rel adj v ≠ [] → v ∈ its.*1) ∧ Forall (λ it, @out_edges Empty_set c it.1 = Ok it.2) its.
Proof.
  intros Hids Htot. destruct (from_adjacency_ok (E := Empty_set) adj coords Hids Htot) as (c & Ec & Hr).
  destruct (rep_iter _ _ _ Hr) as (its & I1 & I2 & I3 & I4). exists c, its. split_and!; [done| | |done..].
  - intros v. destruct (rep_out _ _ _ Hr v) as (l & El & Hp & Hs). exists l. split_and!; [done|done|done| |].
    + by rewrite (rep_degree _ _ _ Hr v), Hp.
    + intros w. unfold has_edge. rewrite El. simpl. f_equal. apply bool_decide_ext. by rewrite Hp.
  - intros v. destruct (rep_in _ _ _ Hr v) as (l & El & Hs & Hocc). exists l. split_and!; [done|done| |done].
    unfold in_degree. by rewrite El.
Qed.

(** A row out of order, one that is given twice, a loop and an id without an address. *)
Definition tangle : list (Z * list Z) := [(12, [10; 14; 11]); (10, [10]); (12, [11; 12; 10]); (14, [])]%Z.
Definition corners : list VertexAddr := [at_grid 5 0; at_grid 0 2; symbol 0].

Example tangle_rows : (c ← from_adjacency (E := Empty_set) tangle corners; a ← out_edges c 12; b ← in_edges c 10; Ok (a, b))
  = Ok ([11; 10; 12], [10; 12])%Z.
Proof. reflexivity. Qed.

Lemma csr_exact_witness : rel tangle 12 = [11; 12; 10]%Z ∧
  ∃ c its, @from_adjacency Empty_set tangle corners = Ok c ∧
    (∀ v, ∃ l, @out_edges Empty_set c v = Ok l ∧ l ≡ₚ rel tangle v ∧ Sorted (edge_le (min_vertex_id c) corners) l ∧
      @out_degree Empty_set c v = Ok (Z.of_nat (length l)) ∧ ∀ w, @has_edge Empty_set c v w = Ok (bool_decide (w ∈ rel tangle v))) ∧
    (∀ v, ∃ l, @in_edges Empty_set c v = Ok l ∧ Sorted (edge_le (min_vertex_id c) corners) l ∧
      @in_degree Empty_set c v = Ok (length l) ∧ ∀ s, occ s l = occ v (rel tangle s)) ∧
    @iter Empty_set c = Ok its ∧ its.*1 = seqZ (min_vertex_id c) (Z.of_nat (num_vertices c)) ∧
    (∀ v, rel tangle v ≠ [] → v ∈ its.*1) ∧ Forall (λ it, @out_edges Empty_set c it.1 = Ok it.2) its.
Proof.
  split; [reflexivity|]. apply (csr_exact tangle corners); [|by unfold u32_max].
  unfold ids_in, tangle, u32_max. repeat constructor; simpl; lia.
Defined.
