(* ===== verification/DeltaEdges.v ===== *)
(** The mutable edge store ([engine/delta_edges.rs]): compressed rows and, until the next rebuild, the
    edges added and removed since.  A hash map of hash sets is a [gmap] of [gset]s; the order of a
    hash set is unspecified in the source, here it is that of [elements]. *)
From S2P Require Import Prelude Coords VertexAddr Csr.

Abbreviation Sets := (gmap Z (gset Z)) (only parsing).

(** * [DeltaEdgeSlab] *)

Record DeltaEdgeSlab : Type := {
  additions : Sets;
  removals : Sets;
  additions_in : Sets;
  removals_in : Sets;
  op_count : nat;
  coord_changed : bool
}.

Definition new_slab : DeltaEdgeSlab :=
  {| additions := ∅; removals := ∅; additions_in := ∅; removals_in := ∅; op_count := 0; coord_changed := false |}.

(** [if let Some(set) = m.get_mut(&k) { set.remove(&x); }] and [m.entry(k).or_default().insert(x)]. *)
Definition discard (k x : Z) (m : Sets) : Sets := alter (λ s, s ∖ {[x]}) k m.
Definition put (k x : Z) (m : Sets) : Sets := <[k := {[x]} ∪ default ∅ (m !! k)]> m.

Definition slab_add_edge (d : DeltaEdgeSlab) (from to : VertexId) : DeltaEdgeSlab :=
  {| additions := put from to (additions d); removals := discard from to (removals d);
     additions_in := put to from (additions_in d); removals_in := discard to from (removals_in d);
     op_count := op_count d + 1; coord_changed := coord_changed d |}.

Definition slab_remove_edge (d : DeltaEdgeSlab) (from to : VertexId) : DeltaEdgeSlab :=
  {| additions := discard from to (additions d); removals := put from to (removals d);
     additions_in := discard to from (additions_in d); removals_in := put to from (removals_in d);
     op_count := op_count d + 1; coord_changed := coord_changed d |}.

(** [result.retain(|e| seen.insert(e))]. *)
Fixpoint dedup (seen : gset Z) (l : list Z) : list Z :=
  match l with
  | [] => []
  | x :: l => if decide (x ∈ seen) then dedup seen l else x :: dedup ({[x]} ∪ seen) l
  end.

(** The body that both views share. *)
Definition merge (base : list Z) (removes adds : option (gset Z)) : list Z :=
  let result := match removes with Some rs => filter (.∉ rs) base | None => base end in
  let result := match adds with Some xs => result ++ elements xs | None => result end in
  merge_sort Z.le (dedup ∅ result).

Definition merged_view {E} (d : DeltaEdgeSlab) (csr : CsrEdges) (v : VertexId) : result E (list VertexId) :=
  base ← out_edges csr v; Ok (merge base (removals d !! v) (additions d !! v)).
Definition merged_in_view {E} (d : DeltaEdgeSlab) (csr : CsrEdges) (v : VertexId) : result E (list VertexId) :=
  base ← in_edges csr v; Ok (merge base (removals_in d !! v) (additions_in d !! v)).

Definition needs_rebuild (d : DeltaEdgeSlab) : bool := (1000 <=? op_count d)%nat || coord_changed d.

Definition mark_dirty (d : DeltaEdgeSlab) : DeltaEdgeSlab :=
  {| additions := additions d; removals := removals d; additions_in := additions_in d; removals_in := removals_in d;
     op_count := op_count d; coord_changed := true |}.

Definition clear (d : DeltaEdgeSlab) : DeltaEdgeSlab := new_slab.

Definition removals_for (d : DeltaEdgeSlab) (from : VertexId) : list VertexId :=
  match removals d !! from with Some s => elements s | None => [] end.

Fixpoint merged_rows {E} (d : DeltaEdgeSlab) (base : CsrEdges) (vertex_ids : list Z) : result E (list (Z * list Z)) :=
  match vertex_ids with
  | [] => Ok []
  | vid :: vertex_ids =>
      targets ← merged_view d base vid;
      rows ← merged_rows d base vertex_ids;
      Ok ((vid, targets) :: rows)
  end.

Definition apply_to_csr {E} (d : DeltaEdgeSlab) (base : CsrEdges) (coords : list VertexAddr) (vertex_ids : list Z)
  : result E CsrEdges :=
  adjacency ← merged_rows d base vertex_ids; from_adjacency adjacency coords.

(** * [CsrMutableEdges] *)

Record CsrMutableEdges : Type := {
  base : CsrEdges;
  delta : DeltaEdgeSlab;
  coords : list VertexAddr;
  vertex_ids : list Z;
  vertex_pos : gmap Z nat;
  batch_depth : Z;
  rebuild_count : Z
}.

Definition new : CsrMutableEdges :=
  {| base := empty; delta := new_slab; coords := []; vertex_ids := []; vertex_pos := ∅; batch_depth := 0; rebuild_count := 0 |}.

(** [vertex_ids.iter().enumerate().map(|(idx, &id)| (id, idx)).collect()]. *)
Fixpoint positions (idx : nat) (ids : list Z) (m : gmap Z nat) : gmap Z nat :=
  match ids with [] => m | id :: ids => positions (idx + 1) ids (<[id := idx]> m) end.

Definition with_coords {E} (cs : list VertexAddr) : result E CsrMutableEdges :=
  let ids := seqZ 0 (as_u32 (Z.of_nat (length cs))) in
  b ← from_adjacency ((λ id, (id, [])) <$> ids) cs;
  Ok {| base := b; delta := new_slab; coords := cs; vertex_ids := ids; vertex_pos := positions 0 ids ∅;
        batch_depth := 0; rebuild_count := 0 |}.

Definition with_delta (st : CsrMutableEdges) (d : DeltaEdgeSlab) : CsrMutableEdges :=
  {| base := base st; delta := d; coords := coords st; vertex_ids := vertex_ids st; vertex_pos := vertex_pos st;
     batch_depth := batch_depth st; rebuild_count := rebuild_count st |}.
Definition with_depth (st : CsrMutableEdges) (n : Z) : CsrMutableEdges :=
  {| base := base st; delta := delta st; coords := coords st; vertex_ids := vertex_ids st; vertex_pos := vertex_pos st;
     batch_depth := n; rebuild_count := rebuild_count st |}.

Definition rebuild {E} (st : CsrMutableEdges) : result E CsrMutableEdges :=
  if (0 <? op_count (delta st))%nat || needs_rebuild (delta st)
  then
    b ← apply_to_csr (delta st) (base st) (coords st) (vertex_ids st);
    Ok {| base := b; delta := clear (delta st); coords := coords st; vertex_ids := vertex_ids st;
          vertex_pos := vertex_pos st; batch_depth := batch_depth st; rebuild_count := rebuild_count st + 1 |}
  else Ok st.

Definition maybe_rebuild {E} (st : CsrMutableEdges) : result E CsrMutableEdges :=
  if (batch_depth st =? 0)%Z && needs_rebuild (delta st) then rebuild st else Ok st.

Definition add_edge {E} (st : CsrMutableEdges) (from to : VertexId) : result E CsrMutableEdges :=
  maybe_rebuild (with_delta st (slab_add_edge (delta st) from to)).
Definition remove_edge {E} (st : CsrMutableEdges) (from to : VertexId) : result E CsrMutableEdges :=
  maybe_rebuild (with_delta st (slab_remove_edge (delta st) from to)).

Definition out_edges {E} (st : CsrMutableEdges) (v : VertexId) : result E (list VertexId) :=
  if (op_count (delta st) =? 0)%nat then Csr.out_edges (base st) v else merged_view (delta st) (base st) v.

Definition out_edges_ref {E} (st : CsrMutableEdges) (v : VertexId) : result E (option (list VertexId)) :=
  if (op_count (delta st) =? 0)%nat then Some <$> Csr.out_edges (base st) v else Ok None.

(** [in_edges]: the base alone. *)
Definition in_edges {E} (st : CsrMutableEdges) (v : VertexId) : result E (list VertexId) := Csr.in_edges (base st) v.

Definition in_edges_merged {E} (st : CsrMutableEdges) (v : VertexId) : result E (list VertexId) :=
  if (op_count (delta st) =? 0)%nat then Csr.in_edges (base st) v else merged_in_view (delta st) (base st) v.

Definition in_edges_ref {E} (st : CsrMutableEdges) (v : VertexId) : result E (option (list VertexId)) :=
  if (op_count (delta st) =? 0)%nat then Some <$> Csr.in_edges (base st) v else Ok None.

(** The two loops of [visit_in_edges_bounded], over a list of which the entries in [removed] are
    charged but not shown: whether the loop ran to its end, the work left, the visitor's state. *)
Fixpoint visit {S} (visitor : S → VertexId → S * bool) (removed : option (gset Z)) (l : list VertexId) (work : Z) (s : S)
  : bool * Z * S :=
  match l with
  | [] => (true, work, s)
  | source :: l =>
      if (work =? 0)%Z then (false, work, s)
      else
        let work := (work - 1)%Z in
        if match removed with Some set => bool_decide (source ∈ set) | None => false end then visit visitor removed l work s
        else
          let '(s, continue) := visitor s source in
          if continue then visit visitor removed l work s else (false, work, s)
  end.

Definition visit_in_edges_bounded {E S} (st : CsrMutableEdges) (v : VertexId) (remaining_work : Z)
  (visitor : S → VertexId → S * bool) (s : S) : result E (bool * Z * S) :=
  l ← Csr.in_edges (base st) v;
  let '(done, work, s) := visit visitor (removals_in (delta st) !! v) l remaining_work s in
  if done
  then
    match additions_in (delta st) !! v with
    | Some xs => Ok (visit visitor None (elements xs) work s)
    | None => Ok (true, work, s)
    end
  else Ok (false, work, s).

Definition delta_size (st : CsrMutableEdges) : nat := op_count (delta st).

Fixpoint sum_rows {E} (st : CsrMutableEdges) (ids : list Z) : result E nat :=
  match ids with
  | [] => Ok 0
  | id :: ids => l ← out_edges st id; n ← sum_rows st ids; Ok (length l + n)
  end.

Definition num_edges_exact {E} (st : CsrMutableEdges) : result E nat :=
  if (op_count (delta st) =? 0)%nat then Ok (num_edges (base st)) else sum_rows st (vertex_ids st).

(** [saturating_add] and [saturating_sub] on a [usize]. *)
Definition begin_batch (st : CsrMutableEdges) : CsrMutableEdges := with_depth st (Z.min u64_max (batch_depth st + 1)).

Definition end_batch_deferred (st : CsrMutableEdges) : CsrMutableEdges := with_depth st (Z.max 0 (batch_depth st - 1)).

Definition end_batch {E} (st : CsrMutableEdges) : result E CsrMutableEdges :=
  let st := with_depth st (Z.max 0 (batch_depth st - 1)) in
  if (batch_depth st =? 0)%Z && needs_rebuild (delta st) then rebuild st else Ok st.

Definition add_vertex (st : CsrMutableEdges) (addr : VertexAddr) (vertex_id : Z) : CsrMutableEdges * nat :=
  let idx := length (coords st) in
  ({| base := base st; delta := delta st; coords := coords st ++ [addr]; vertex_ids := vertex_ids st ++ [vertex_id];
      vertex_pos := <[vertex_id := idx]> (vertex_pos st); batch_depth := batch_depth st; rebuild_count := rebuild_count st |}, idx).

Definition add_vertices_batch {E} (st : CsrMutableEdges) (items : list (VertexAddr * Z)) : result E CsrMutableEdges :=
  match items with
  | [] => Ok st
  | _ => rebuild (fold_left (λ st '(addr, vid), (add_vertex st addr vid).1) items st)
  end.

Definition update_addr {E} (st : CsrMutableEdges) (vertex_id : VertexId) (new_addr : VertexAddr) : result E CsrMutableEdges :=
  match vertex_pos st !! vertex_id with
  | None => Ok st
  | Some pos =>
      id ← vec_get (vertex_ids st) pos;
      if (id =? vertex_id)%Z
      then
        cs ← vec_set (coords st) pos new_addr;
        Ok {| base := base st; delta := mark_dirty (delta st); coords := cs; vertex_ids := vertex_ids st;
              vertex_pos := vertex_pos st; batch_depth := batch_depth st; rebuild_count := rebuild_count st |}
      else Panic
  end.

(** ** Bulk ingest *)

Fixpoint carry_known {E} (st : CsrMutableEdges) (covered : gset Z) (ids : list Z) (adjacency : list (Z * list Z))
  : result E (list (Z * list Z)) :=
  match ids with
  | [] => Ok adjacency
  | vid :: ids =>
      if decide (vid ∈ covered) then carry_known st covered ids adjacency
      else
        merged ← out_edges st vid;
        carry_known st covered ids (match merged with [] => adjacency | _ => adjacency ++ [(vid, merged)] end)
  end.

Fixpoint carry_additions {E} (st : CsrMutableEdges) (covered : gset Z) (adds : list (Z * gset Z)) (adjacency : list (Z * list Z))
  : result E (list (Z * list Z)) :=
  match adds with
  | [] => Ok adjacency
  | (from, xs) :: adds =>
      if decide (from ∈ covered) then carry_additions st covered adds adjacency
      else if existsb (λ e, e.1 =? from)%Z adjacency then carry_additions st covered adds adjacency
      else
        let removals : gset Z := list_to_set (removals_for (delta st) from) in
        b ← Csr.out_edges (base st) from;
        let base_set : gset Z := (list_to_set b ∖ removals) ∪ xs in
        carry_additions st covered adds
          (if decide (base_set = ∅) then adjacency else adjacency ++ [(from, merge_sort Z.le (elements base_set))])
  end.

Definition adjacency_with_carried_forward_edges {E} (st : CsrMutableEdges) (adjacency : list (Z * list Z))
  : result E (list (Z * list Z)) :=
  let covered : gset Z := list_to_set adjacency.*1 in
  adjacency ← carry_known st covered (vertex_ids st) adjacency;
  carry_additions st covered (map_to_list (additions (delta st))) adjacency.

Definition build_from_adjacency {E} (st : CsrMutableEdges) (adjacency : list (Z * list Z)) (cs : list VertexAddr) (ids : list Z)
  : result E CsrMutableEdges :=
  b ← from_adjacency adjacency cs;
  Ok {| base := b; delta := clear (delta st); coords := cs; vertex_ids := ids; vertex_pos := positions 0 ids ∅;
        batch_depth := batch_depth st; rebuild_count := rebuild_count st |}.
