(* ===== verification/DeltaTheorems.v ===== *)
(** The mutable edge store implements a set of edges: additions and removals win over what was
    there, rebuilds and bulk ingests lose nothing, and every reading direction agrees. *)
From S2P Require Import Prelude Coords VertexAddr Csr CsrTheorems DeltaEdges.

(** * The specification: a set of edges, and the vertices *)

Record Spec : Type := { links : gset (Z * Z); known : list Z }.

Definition valid_id (x : Z) : Prop := (0 ≤ x ≤ u32_max - 1)%Z.
Definition fits (l : gset (Z * Z)) : Prop := (Z.of_nat (size l) ≤ u32_max)%Z.

#[export] Instance valid_id_dec x : Decision (valid_id x).
Proof. unfold valid_id. apply _. Defined.
#[export] Instance fits_dec l : Decision (fits l).
Proof. unfold fits. apply _. Defined.

(** The edges of an adjacency list. *)
Definition pairs (adj : list (Z * list Z)) : list (Z * Z) := adj ≫= λ e, (e.1,.) <$> e.2.

Inductive Op : Type :=
| AddEdge (u v : Z)
| RemoveEdge (u v : Z)
| Rebuild
| BeginBatch
| EndBatch
| EndBatchDeferred
| AddVertex (addr : VertexAddr) (id : Z)
| AddVertices (items : list (VertexAddr * Z))
| UpdateAddr (id : Z) (addr : VertexAddr)
| Ingest (adj : list (Z * list Z)) (cs : list VertexAddr) (ids : list Z).

(** A bulk ingest: the carried edges, then the build. *)
Definition ingest {E} (st : CsrMutableEdges) (adj : list (Z * list Z)) (cs : list VertexAddr) (ids : list Z)
  : result E CsrMutableEdges :=
  adj ← adjacency_with_carried_forward_edges st adj; build_from_adjacency st adj cs ids.

Definition step {E} (st : CsrMutableEdges) (op : Op) : result E CsrMutableEdges :=
  match op with
  | AddEdge u v => add_edge st u v
  | RemoveEdge u v => remove_edge st u v
  | Rebuild => rebuild st
  | BeginBatch => Ok (begin_batch st)
  | EndBatch => end_batch st
  | EndBatchDeferred => Ok (end_batch_deferred st)
  | AddVertex addr id => Ok (add_vertex st addr id).1
  | AddVertices items => add_vertices_batch st items
  | UpdateAddr id addr => update_addr st id addr
  | Ingest adj cs ids => ingest st adj cs ids
  end.

Definition ingest_ok (s : Spec) (adj : list (Z * list Z)) (cs : list VertexAddr) (ids : list Z) : Prop :=
  NoDup adj.*1 ∧ Forall (λ e, NoDup e.2 ∧ Forall valid_id e.2 ∧ e.1 ∈ ids) adj ∧ Forall (.∈ ids) (known s) ∧
  NoDup ids ∧ Forall valid_id ids ∧ length cs = length ids.

#[export] Instance ingest_ok_dec s adj cs ids : Decision (ingest_ok s adj cs ids).
Proof. unfold ingest_ok. apply _. Defined.

(** [None]: a source that is no vertex, a vertex twice, an id or a number of edges out of range. *)
Definition spec_step (s : Spec) (op : Op) : option Spec :=
  match op with
  | AddEdge u v =>
      let l := {[(u, v)]} ∪ links s in
      if decide (u ∈ known s ∧ valid_id v ∧ fits l) then Some {| links := l; known := known s |} else None
  | RemoveEdge u v => Some {| links := links s ∖ {[(u, v)]}; known := known s |}
  | AddVertex _ id =>
      if decide ((id ∉ known s) ∧ valid_id id) then Some {| links := links s; known := known s ++ [id] |} else None
  | AddVertices items =>
      if decide (NoDup (known s ++ items.*2) ∧ Forall valid_id items.*2)
      then Some {| links := links s; known := known s ++ items.*2 |} else None
  | Ingest adj cs ids =>
      let l := list_to_set (pairs adj) ∪ filter (λ p, p.1 ∉ adj.*1) (links s) in
      if decide (ingest_ok s adj cs ids ∧ fits l) then Some {| links := l; known := ids |} else None
  | Rebuild | BeginBatch | EndBatch | EndBatchDeferred | UpdateAddr _ _ => Some s
  end.

Fixpoint run {E} (st : CsrMutableEdges) (ops : list Op) : result E CsrMutableEdges :=
  match ops with [] => Ok st | op :: ops => st ← step st op; run st ops end.
Fixpoint spec_run (s : Spec) (ops : list Op) : option Spec :=
  match ops with [] => Some s | op :: ops => s ← spec_step s op; spec_run s ops end.

(** * Sets of the slab *)

Definition at_key (m : gmap Z (gset Z)) (k : Z) : gset Z := default ∅ (m !! k).

Lemma at_put k x m j : at_key (put k x m) j = if decide (j = k) then {[x]} ∪ at_key m j else at_key m j.
Proof.
  unfold at_key, put. case_decide as H; [subst; by rewrite lookup_insert_eq|]. by rewrite lookup_insert_ne by done.
Qed.

Lemma at_discard k x m j : at_key (discard k x m) j = if decide (j = k) then at_key m j ∖ {[x]} else at_key m j.
Proof.
  unfold at_key, discard. case_decide as H; [subst; rewrite lookup_alter_eq; destruct (m !! k); set_solver|].
  by rewrite lookup_alter_ne by done.
Qed.

Lemma dedup_ok l : ∀ seen, NoDup (dedup seen l) ∧ ∀ x, x ∈ dedup seen l ↔ x ∈ l ∧ x ∉ seen.
Proof.
  induction l as [|y l IH]; intros seen; simpl; [split; [constructor|set_solver]|]. case_decide as Hy.
  - destruct (IH seen) as [H1 H2]. split; [done|]. intros x. rewrite H2, elem_of_cons. naive_solver.
  - destruct (IH ({[y]} ∪ seen)) as [H1 H2]. split.
    + constructor; [rewrite H2; set_solver|done].
    + intros x. rewrite !elem_of_cons, H2. destruct (decide (x = y)); set_solver.
Qed.

Lemma merge_ok b m1 m2 v : let l := merge b (m1 !! v) (m2 !! v) in
  NoDup l ∧ Sorted Z.le l ∧ ∀ x, x ∈ l ↔ (x ∈ b ∧ x ∉ at_key m1 v) ∨ x ∈ at_key m2 v.
Proof.
  unfold merge, at_key. set (r := match m2 !! v with Some xs => _ | None => _ end).
  destruct (dedup_ok r ∅) as [H1 H2]. pose proof (merge_sort_Permutation Z.le (dedup ∅ r)) as Hp. cbn zeta.
  split_and!; [by rewrite Hp|apply Sorted_merge_sort; apply _|]. intros x. rewrite Hp, H2. unfold r.
  destruct (m1 !! v), (m2 !! v); simpl; rewrite ?elem_of_app, ?list_elem_of_filter, ?elem_of_elements; set_solver.
Qed.

(** * Adjacency lists without repeated vertices *)

Lemma rel_elem adj u row : NoDup adj.*1 → (u, row) ∈ adj → rel adj u = row.
Proof.
  unfold rel. induction adj as [|[w r] adj IH]; csimpl; [by intros _ ?%elem_of_nil|].
  intros [Hw Hn]%NoDup_cons [[= -> ->]|Hu]%elem_of_cons.
  - destruct (last_row adj w) as [r'|] eqn:El; [|by rewrite decide_True].
    apply last_row_elem in El. destruct Hw. by apply (list_elem_of_fmap_2 fst _ (w, r')).
  - specialize (IH Hn Hu). destruct (last_row adj u) as [r'|]; [done|]. simpl in *. subst row.
    destruct (decide (w = u)) as [->|]; [|done]. destruct Hw. by apply (list_elem_of_fmap_2 fst _ (u, [])).
Qed.

Lemma rel_not_elem adj u : u ∉ adj.*1 → rel adj u = [].
Proof.
  intros Hu. unfold rel. destruct (last_row adj u) as [r|] eqn:El; [|done]. apply last_row_elem in El.
  destruct Hu. by apply (list_elem_of_fmap_2 fst _ (u, r)).
Qed.

Lemma elem_pairs adj u v : (u, v) ∈ pairs adj ↔ ∃ row, (u, row) ∈ adj ∧ v ∈ row.
Proof.
  unfold pairs. rewrite list_elem_of_bind. split.
  - intros ([w row] & (v' & [= <- <-] & Hv)%list_elem_of_fmap & Hr). by exists row.
  - intros (row & Hr & Hv). exists (u, row). split; [|done]. by apply list_elem_of_fmap_2.
Qed.

Lemma elem_rel adj u v : NoDup adj.*1 → v ∈ rel adj u ↔ (u, v) ∈ pairs adj.
Proof.
  intros Hn. rewrite elem_pairs. split.
  - destruct (decide (u ∈ adj.*1)) as [([w row] & Hw & Hr)%list_elem_of_fmap|Hu].
    + simpl in Hw. subst w. rewrite (rel_elem adj u row) by done. by exists row.
    + rewrite rel_not_elem by done. by intros ?%elem_of_nil.
  - intros (row & Hr & Hv). by rewrite (rel_elem adj u row).
Qed.

Lemma NoDup_pairs adj : NoDup adj.*1 → Forall (λ e, NoDup e.2) adj → NoDup (pairs adj).
Proof.
  induction adj as [|[u row] adj IH]; csimpl; [constructor|]. intros [Hu Hn]%NoDup_cons [Hr Hf]%Forall_cons.
  unfold pairs. csimpl. apply NoDup_app. split_and!; [apply NoDup_fmap_2; [by intros ?? [=]|done]| |by apply IH].
  intros [a b] (v & [= -> ->] & _)%list_elem_of_fmap Hp. apply elem_pairs in Hp as (row' & Hr' & _).
  destruct Hu. by apply (list_elem_of_fmap_2 fst _ (u, row')).
Qed.

Lemma length_pairs adj : length (pairs adj) = sum_list_with (λ e, length e.2) adj.
Proof. induction adj as [|e adj IH]; [done|]. unfold pairs in *. csimpl. by rewrite length_app, length_fmap, IH. Qed.

(** The rows of a set of edges. *)
Record rows_of (adj : list (Z * list Z)) (l : gset (Z * Z)) : Prop := {
  rows_keys : NoDup adj.*1;
  rows_nodup : Forall (λ e, NoDup e.2) adj;
  rows_links u v : (u, v) ∈ pairs adj ↔ (u, v) ∈ l
}.

Lemma rows_size adj l : rows_of adj l → sum_list_with (λ e, length e.2) adj = size l.
Proof.
  intros [H1 H2 H3]. rewrite <- length_pairs. rewrite <- (size_list_to_set (C := gset (Z * Z)) (pairs adj)) by by apply NoDup_pairs.
  f_equal. apply set_eq. intros [u v]. by rewrite elem_of_list_to_set, H3.
Qed.

Lemma rows_build {E} adj l cs : rows_of adj l → Forall (λ e, valid_id e.1 ∧ Forall valid_id e.2) adj → fits l →
  ∃ c, @from_adjacency E adj cs = Ok c ∧ @csr_rep E c cs (rel adj) ∧
    (∀ u, NoDup (rel adj u)) ∧ ∀ u v, v ∈ rel adj u ↔ (u, v) ∈ l.
Proof.
  intros Hr Hv Hf. destruct (from_adjacency_ok (E := E) adj cs) as (c & Ec & Hc).
  - unfold ids_in. eapply Forall_impl; [exact Hv|]. done.
  - rewrite (rows_size adj l Hr). exact Hf.
  - destruct Hr as [H1 H2 H3]. exists c. split_and!; [done|done| |intros u v; by rewrite elem_rel, H3].
    intros u. destruct (decide (u ∈ adj.*1)) as [([w row] & Hw & Hin)%list_elem_of_fmap|Hu].
    + simpl in Hw. subst w. rewrite (rel_elem adj u row) by done. rewrite Forall_forall in H2. exact (H2 _ Hin).
    + rewrite rel_not_elem by done. constructor.
Qed.

(** * The invariant *)

Section inv.
Context {E : Type}.
Implicit Types (st : CsrMutableEdges) (s : Spec).

(** The base with the slab on top holds the edges; an idle slab is empty. *)
Record Inv st s : Prop := {
  inv_base : ∃ cs out, @csr_rep E (base st) cs out ∧ (∀ u, NoDup (out u)) ∧
    ∀ u v, (u, v) ∈ links s ↔ (v ∈ out u ∧ v ∉ at_key (removals (delta st)) u) ∨ v ∈ at_key (additions (delta st)) u;
  inv_add u v : v ∈ at_key (additions (delta st)) u ↔ u ∈ at_key (additions_in (delta st)) v;
  inv_rem u v : v ∈ at_key (removals (delta st)) u ↔ u ∈ at_key (removals_in (delta st)) v;
  inv_idle : op_count (delta st) = 0 → ∀ u, at_key (additions (delta st)) u = ∅ ∧ at_key (removals (delta st)) u = ∅;
  inv_links u v : (u, v) ∈ links s → u ∈ known s ∧ valid_id v;
  inv_ids : vertex_ids st = known s;
  inv_known : NoDup (known s);
  inv_valid : Forall valid_id (known s);
  inv_coords : length (coords st) = length (known s);
  inv_pos id pos : vertex_pos st !! id = Some pos → known s !! pos = Some id;
  inv_fits : fits (links s)
}.

Definition empty_spec : Spec := {| links := ∅; known := [] |}.

Lemma inv_new : Inv new empty_spec.
Proof.
  split; simpl; try done; [|constructor..].
  exists [], (λ _, []). split_and!; [apply empty_rep|intros; constructor|]. intros u v. unfold at_key. rewrite !lookup_empty. set_solver.
Qed.

(** The rows read back, both ways. *)
Lemma out_row st s u : Inv st s → ∃ l, @out_edges E st u = Ok l ∧ NoDup l ∧ ∀ v, v ∈ l ↔ (u, v) ∈ links s.
Proof.
  intros HI. destruct (inv_base _ _ HI) as (cs & out & Hc & Hn & Hl). destruct (rep_out _ _ _ Hc u) as (l & El & Hp & _).
  unfold out_edges. destruct (Nat.eqb_spec (op_count (delta st)) 0) as [H0|_].
  - exists l. destruct (inv_idle _ _ HI H0 u) as [Ha Hr]. split_and!; [done|by rewrite Hp|]. intros v. rewrite Hp, Hl, Ha, Hr. set_solver.
  - unfold merged_view. rewrite El. cbn [mbind result_bind]. eexists. split; [done|].
    destruct (merge_ok l (removals (delta st)) (additions (delta st)) u) as (H1 & _ & H3). split; [exact H1|]. intros v. by rewrite H3, Hl, Hp.
Qed.

Lemma in_row st s v : Inv st s → ∃ l, @in_edges_merged E st v = Ok l ∧ NoDup l ∧ ∀ u, u ∈ l ↔ (u, v) ∈ links s.
Proof.
  intros HI. destruct (inv_base _ _ HI) as (cs & out & Hc & Hn & Hl). destruct (rep_in _ _ _ Hc v) as (l & El & _ & Ho).
  assert (Hm : ∀ u, u ∈ l ↔ v ∈ out u) by (intros u; by rewrite !occ_elem, Ho).
  unfold in_edges_merged. destruct (Nat.eqb_spec (op_count (delta st)) 0) as [H0|_].
  - exists l. split_and!; [done|apply nodup_occ; intros u; rewrite Ho; by apply occ_nodup|].
    intros u. destruct (inv_idle _ _ HI H0 u) as [Ha Hr]. rewrite Hm, Hl, Ha, Hr. set_solver.
  - unfold merged_in_view. rewrite El. cbn [mbind result_bind]. eexists. split; [done|].
    destruct (merge_ok l (removals_in (delta st)) (additions_in (delta st)) v) as (H1 & _ & H3). split; [exact H1|].
    intros u. rewrite H3, Hl, Hm. by rewrite (inv_add _ _ HI), (inv_rem _ _ HI).
Qed.

(** ** Rebuilding *)

Lemma merged_view_row st s u : Inv st s → ∃ l, @merged_view E (delta st) (base st) u = Ok l ∧ NoDup l ∧ ∀ v, v ∈ l ↔ (u, v) ∈ links s.
Proof.
  intros HI. destruct (inv_base _ _ HI) as (cs & out & Hc & Hn & Hl). destruct (rep_out _ _ _ Hc u) as (l & El & Hp & _).
  unfold merged_view. rewrite El. cbn [mbind result_bind]. eexists. split; [done|].
  destruct (merge_ok l (removals (delta st)) (additions (delta st)) u) as (H1 & _ & H3). split; [exact H1|]. intros v. by rewrite H3, Hl, Hp.
Qed.

Definition row_ok s (e : Z * list Z) : Prop := NoDup e.2 ∧ ∀ v, v ∈ e.2 ↔ (e.1, v) ∈ links s.

Lemma merged_rows_ok st s ids : Inv st s → ∃ rows, @merged_rows E (delta st) (base st) ids = Ok rows ∧
  rows.*1 = ids ∧ Forall (row_ok s) rows.
Proof.
  intros HI. induction ids as [|u ids (rows & Er & Hk & Hf)]; simpl; [exists []; split_and!; [done|done|constructor]|].
  destruct (merged_view_row st s u HI) as (l & -> & Hn & Hl). rewrite Er. simpl. exists ((u, l) :: rows).
  split_and!; [done|csimpl; by rewrite Hk|constructor; [by split|done]].
Qed.

Lemma rows_of_known s rows : NoDup rows.*1 → Forall (row_ok s) rows → (∀ u v, (u, v) ∈ links s → u ∈ rows.*1) → rows_of rows (links s).
Proof.
  intros Hn Hf Hk. rewrite Forall_forall in Hf. split; [done|apply Forall_forall; intros e He; by apply Hf|].
  intros u v. rewrite elem_pairs. split.
  - intros (row & Hr & Hv). by apply (Hf _ Hr).
  - intros Hl. pose proof (Hk _ _ Hl) as ([w row] & Hw & Hr)%list_elem_of_fmap. simpl in Hw. subst w. exists row. split; [done|].
    by apply (Hf _ Hr).
Qed.

Lemma rows_valid s rows : (∀ u v, (u, v) ∈ links s → u ∈ known s ∧ valid_id v) → Forall (row_ok s) rows → Forall valid_id rows.*1 →
  Forall (λ e, valid_id e.1 ∧ Forall valid_id e.2) rows.
Proof.
  intros Hl Hf Hv. rewrite Forall_forall in Hf. pose proof (proj1 (Forall_forall _ _) Hv) as Hv'. clear Hv. apply Forall_forall. intros [u row] He. split; [apply Hv'; by apply (list_elem_of_fmap_2 fst _ (u, row))|].
  apply Forall_forall. intros v Hr. apply (Hf _ He) in Hr. by apply Hl in Hr as [_ ?].
Qed.

(** A state with a fresh base and an empty slab. *)
Lemma inv_fresh st s c cs out : @csr_rep E c cs out → (∀ u, NoDup (out u)) → (∀ u v, v ∈ out u ↔ (u, v) ∈ links s) →
  base st = c → delta st = new_slab → vertex_ids st = known s → (∀ u v, (u, v) ∈ links s → u ∈ known s ∧ valid_id v) →
  NoDup (known s) → Forall valid_id (known s) → length (coords st) = length (known s) →
  (∀ id pos, vertex_pos st !! id = Some pos → known s !! pos = Some id) → fits (links s) → Inv st s.
Proof.
  intros Hc Hn Hl Hb Hd Hi Hk Hnd Hv Hco Hp Hf. split; rewrite ?Hd; try done.
  exists cs, out. rewrite Hb. split_and!; [done|done|]. intros u v. rewrite <- Hl. unfold at_key. simpl. rewrite !lookup_empty. set_solver.
Qed.

Lemma apply_ok st s : Inv st s → ∃ c out, @apply_to_csr E (delta st) (base st) (coords st) (vertex_ids st) = Ok c ∧
  @csr_rep E c (coords st) out ∧ (∀ u, NoDup (out u)) ∧ ∀ u v, v ∈ out u ↔ (u, v) ∈ links s.
Proof.
  intros HI. destruct (merged_rows_ok st s (vertex_ids st) HI) as (rows & Er & Hk & Hf). rewrite (inv_ids _ _ HI) in Hk.
  unfold apply_to_csr. rewrite Er. cbn [mbind result_bind].
  destruct (rows_build (E := E) rows (links s) (coords st)) as (c & Ec & Hc & Hn & Hl).
  - apply rows_of_known; [rewrite Hk; apply (inv_known _ _ HI)|done|]. intros u v Hl. rewrite Hk. by apply (inv_links _ _ HI) in Hl as [? _].
  - apply (rows_valid s); [apply (inv_links _ _ HI)|done|]. rewrite Hk. apply (inv_valid _ _ HI).
  - apply (inv_fits _ _ HI).
  - exists c, (rel rows). done.
Qed.

Lemma rebuild_ok st s : Inv st s → ∃ st', @rebuild E st = Ok st' ∧ Inv st' s.
Proof.
  intros HI. unfold rebuild. destruct (_ || _); [|by exists st].
  destruct (apply_ok st s HI) as (c & out & -> & Hc & Hn & Hl). cbn [mbind result_bind]. eexists. split; [done|].
  destruct HI. by eapply inv_fresh.
Qed.

Lemma maybe_rebuild_ok st s : Inv st s → ∃ st', @maybe_rebuild E st = Ok st' ∧ Inv st' s.
Proof. intros HI. unfold maybe_rebuild. destruct (_ && _); [by apply rebuild_ok|by exists st]. Qed.

(** Nothing the invariant reads. *)
Lemma inv_same st st' s : Inv st s → base st' = base st → delta st' = delta st → vertex_ids st' = vertex_ids st →
  coords st' = coords st → vertex_pos st' = vertex_pos st → Inv st' s.
Proof. intros [] E1 E2 E3 E4 E5. split; rewrite ?E1, ?E2, ?E3, ?E4, ?E5; done. Qed.

(** ** Edits *)

Lemma add_edge_ok st s u v : Inv st s → u ∈ known s → valid_id v → fits ({[(u, v)]} ∪ links s) →
  ∃ st', @add_edge E st u v = Ok st' ∧ Inv st' {| links := {[(u, v)]} ∪ links s; known := known s |}.
Proof.
  intros [(cs & out & Hc & Hn & Hl) Ha Hr Hid Hli Hi Hk Hv Hco Hp Hf] Hu Hvv Hfit. apply maybe_rebuild_ok.
  split; cbn [with_delta base delta vertex_ids coords vertex_pos slab_add_edge additions removals additions_in removals_in op_count links known]; try done.
  - exists cs, out. split_and!; [done|done|]. intros a b. rewrite elem_of_union, elem_of_singleton, Hl, at_put, at_discard.
    destruct (decide (a = u)) as [->|Hne]; destruct (decide (b = v)) as [->|]; set_solver.
  - intros a b. rewrite !at_put. pose proof (Ha a b). repeat case_decide; set_solver.
  - intros a b. rewrite !at_discard. pose proof (Hr a b). repeat case_decide; set_solver.
  - lia.
  - intros a b [[= -> ->]%elem_of_singleton|Hab]%elem_of_union; [done|by apply Hli].
Qed.

Lemma remove_edge_ok st s u v : Inv st s →
  ∃ st', @remove_edge E st u v = Ok st' ∧ Inv st' {| links := links s ∖ {[(u, v)]}; known := known s |}.
Proof.
  intros [(cs & out & Hc & Hn & Hl) Ha Hr Hid Hli Hi Hk Hv Hco Hp Hf]. apply maybe_rebuild_ok.
  split; cbn [with_delta base delta vertex_ids coords vertex_pos slab_remove_edge additions removals additions_in removals_in op_count links known]; try done.
  - exists cs, out. split_and!; [done|done|]. intros a b. rewrite elem_of_difference, elem_of_singleton, Hl, at_put, at_discard.
    destruct (decide (a = u)) as [->|Hne]; destruct (decide (b = v)) as [->|]; set_solver.
  - intros a b. rewrite !at_discard. pose proof (Ha a b). repeat case_decide; set_solver.
  - intros a b. rewrite !at_put. pose proof (Hr a b). repeat case_decide; set_solver.
  - lia.
  - intros a b [Hab _]%elem_of_difference. by apply Hli.
  - unfold fits in *. pose proof (subseteq_size (links s ∖ {[(u, v)]}) (links s) ltac:(set_solver)). lia.
Qed.

Lemma add_vertex_ok st s a id : Inv st s → id ∉ known s → valid_id id →
  Inv (add_vertex st a id).1 {| links := links s; known := known s ++ [id] |}.
Proof.
  intros [Hb Ha Hr Hid Hli Hi Hk Hv Hco Hp Hf] Hn Hval. split; cbn; try done.
  - intros u v Huv. destruct (Hli u v Huv). split; [set_solver|done].
  - by rewrite Hi.
  - apply NoDup_app. split_and!; [done|set_solver|apply NoDup_singleton].
  - apply Forall_app. split; [done|by apply Forall_singleton].
  - rewrite !length_app, Hco. done.
  - intros i pos. rewrite lookup_insert_Some. intros [[-> <-]|[_ Hpos]].
    + rewrite Hco. by apply list_lookup_middle.
    + apply lookup_app_l_Some. by apply Hp.
Qed.

Lemma add_vertices_ok items : ∀ st s, Inv st s → NoDup (known s ++ items.*2) → Forall valid_id items.*2 →
  Inv (fold_left (λ st '(a, vid), (add_vertex st a vid).1) items st) {| links := links s; known := known s ++ items.*2 |}.
Proof.
  induction items as [|[a id] items IH]; intros st s HI Hn Hv; csimpl in *; [rewrite app_nil_r; by destruct s|].
  apply Forall_cons in Hv as [Hid Hv]. pose proof Hn as (_ & Hd & [_ _]%NoDup_cons)%NoDup_app.
  assert (Hni : id ∉ known s) by (intros Hin; apply (Hd _ Hin); by left).
  specialize (IH _ _ (add_vertex_ok st s a id HI Hni Hid)). simpl in IH. rewrite <- app_assoc in IH. by apply IH.
Qed.

Lemma update_addr_ok st s id a : Inv st s → ∃ st', @update_addr E st id a = Ok st' ∧ Inv st' s.
Proof.
  intros HI. unfold update_addr. destruct (vertex_pos st !! id) as [pos|] eqn:Ep; [|by exists st].
  pose proof (inv_pos _ _ HI _ _ Ep) as Hpos. unfold vec_get. rewrite (inv_ids _ _ HI), Hpos. cbn [expect mbind result_bind].
  rewrite Z.eqb_refl, vec_set_ok by (rewrite (inv_coords _ _ HI); by eapply lookup_lt_Some). cbn [mbind result_bind].
  eexists. split; [done|]. destruct HI as [Hb Ha Hr Hid Hli Hi Hk Hv Hco Hp Hf]. split; cbn; try done. by rewrite length_insert.
Qed.

(** ** Counting *)

Lemma rows_count s rows : rows.*1 = known s → Forall (row_ok s) rows → NoDup (known s) →
  (∀ u v, (u, v) ∈ links s → u ∈ known s ∧ valid_id v) → sum_list_with (λ e, length e.2) rows = size (links s).
Proof.
  intros Hk Hf Hn Hl. apply rows_size, rows_of_known; [by rewrite Hk|done|]. intros u v Huv. rewrite Hk. by apply Hl in Huv as [? _].
Qed.

Lemma sum_rows_ok st s ids : Inv st s → ∃ rows, @sum_rows E st ids = Ok (sum_list_with (λ e, length e.2) rows) ∧
  rows.*1 = ids ∧ Forall (row_ok s) rows.
Proof.
  intros HI. induction ids as [|u ids (rows & Er & Hk & Hf)]; simpl; [exists []; split_and!; [done|done|constructor]|].
  destruct (out_row st s u HI) as (l & -> & Hn & Hl). rewrite Er. simpl. exists ((u, l) :: rows).
  split_and!; [done|csimpl; by rewrite Hk|constructor; [by split|done]].
Qed.

Lemma num_edges_ok st s : Inv st s → @num_edges_exact E st = Ok (size (links s)).
Proof.
  intros HI. unfold num_edges_exact. destruct (Nat.eqb_spec (op_count (delta st)) 0) as [H0|_].
  - destruct (inv_base _ _ HI) as (cs & out & Hc & Hn & Hl). f_equal.
    assert (Hout : ∀ u v, v ∈ out u ↔ (u, v) ∈ links s)
      by (intros u v; destruct (inv_idle _ _ HI H0 u) as [Ha Hr]; rewrite Hl, Ha, Hr; set_solver).
    rewrite (rep_num _ _ _ Hc (known s)); [|apply (inv_known _ _ HI)|].
    + rewrite <- (rows_count s ((λ u, (u, out u)) <$> known s)); [| | |apply (inv_known _ _ HI)|apply (inv_links _ _ HI)].
      * induction (known s) as [|u us IH]; [done|]. csimpl. by rewrite IH.
      * rewrite <- list_fmap_compose. apply list_fmap_id.
      * apply Forall_fmap, Forall_forall. intros u _. split; [apply Hn|intros v; apply Hout].
    + intros u Hu. destruct (out u) as [|v vs] eqn:Eo; [done|]. apply (inv_links _ _ HI u v), Hout. rewrite Eo. by left.
  - destruct (sum_rows_ok st s (vertex_ids st) HI) as (rows & -> & Hk & Hf). f_equal. rewrite (inv_ids _ _ HI) in Hk.
    apply rows_count; [done|done|apply (inv_known _ _ HI)|apply (inv_links _ _ HI)].
Qed.

(** ** Ingest *)

Lemma carry_known_ok st s covered ids : Inv st s → ∀ adj, ∃ rows, @carry_known E st covered ids adj = Ok (adj ++ rows) ∧
  rows.*1 `sublist_of` ids ∧ (∀ u, u ∈ rows.*1 → u ∉ covered) ∧ Forall (row_ok s) rows ∧
  (∀ u v, u ∈ ids → u ∉ covered → (u, v) ∈ links s → u ∈ rows.*1).
Proof.
  intros HI. induction ids as [|u ids IH]; intros adj; simpl.
  - exists []. rewrite app_nil_r. split_and!; [done|constructor|set_solver|constructor|set_solver].
  - case_decide as Hu.
    + destruct (IH adj) as (rows & Er & Hs & Hc & Hf & Hl). exists rows. split_and!; [done|by constructor|done|done|].
      intros w v [->|Hw]%elem_of_cons; [done|]. by apply Hl.
    + destruct (out_row st s u HI) as (l & -> & Hn & Hlk). cbn [mbind result_bind]. destruct l as [|x l].
      * destruct (IH adj) as (rows & Er & Hs & Hc & Hf & Hl). exists rows. split_and!; [done|by constructor|done|done|].
        intros w v [->|Hw]%elem_of_cons; [|by apply Hl]. intros _ Hv%Hlk. by apply elem_of_nil in Hv.
      * destruct (IH (adj ++ [(u, x :: l)])) as (rows & Er & Hs & Hc & Hf & Hl). exists ((u, x :: l) :: rows).
        rewrite Er, <- app_assoc. csimpl. split_and!; [done|by constructor| |by constructor|].
        -- intros w [->|Hw]%elem_of_cons; [done|by apply Hc].
        -- intros w v [->|Hw]%elem_of_cons ? ?; [left|right; by eapply Hl].
Qed.

(** Under the invariant, no edge is in the slab alone. *)
Lemma carry_additions_ok st s covered adj : Inv st s → (∀ u v, (u, v) ∈ links s → u ∈ covered ∨ u ∈ adj.*1) →
  ∀ adds, (∀ u xs, (u, xs) ∈ adds → at_key (additions (delta st)) u = xs) → @carry_additions E st covered adds adj = Ok adj.
Proof.
  intros HI Hadj. induction adds as [|[u xs] adds IH]; intros Hx; simpl; [done|].
  assert (IH' : carry_additions st covered adds adj = Ok adj) by (apply IH; intros w ys Hw; apply Hx; by right).
  case_decide as Hu; [done|]. destruct (existsb _ adj) eqn:Ee; [done|].
  assert (Hn : u ∉ adj.*1).
  { intros ([w row] & -> & Hw)%list_elem_of_fmap. apply not_true_iff_false in Ee. apply Ee, existsb_exists.
    exists (w, row). split; [by apply list_elem_of_In|]. simpl. by rewrite Z.eqb_refl. }
  destruct (inv_base _ _ HI) as (cs & out & Hc & _ & Hl). destruct (rep_out _ _ _ Hc u) as (l & -> & Hp & _). cbn [mbind result_bind].
  rewrite decide_True; [done|]. apply elem_of_equiv_empty_L. intros v.
  rewrite elem_of_union, elem_of_difference, !elem_of_list_to_set, Hp. intros Hv.
  assert (Huv : (u, v) ∈ links s).
  { apply Hl. rewrite (Hx u xs) by by left. destruct Hv as [[Hv Hr]|Hv]; [left|by right]. split; [done|].
    unfold at_key, removals_for in *. destruct (removals (delta st) !! u); simpl; [|set_solver]. by rewrite elem_of_elements in Hr. }
  destruct (Hadj u v Huv); done.
Qed.

Lemma ids_positions_ok ids : ∀ k m id pos, positions k ids m !! id = Some pos →
  (∃ i, ids !! i = Some id ∧ pos = k + i) ∨ m !! id = Some pos.
Proof.
  induction ids as [|x ids IH]; intros k m id pos H; simpl in H; [by right|].
  destruct (IH _ _ _ _ H) as [(i & Hi & ->)|Hm]; [left; exists (S i); split; [done|lia]|].
  apply lookup_insert_Some in Hm as [[-> <-]|[_ Hm]]; [left; exists 0; split; [done|lia]|by right].
Qed.

Lemma carried_ok st s adj : Inv st s → NoDup adj.*1 → Forall (λ e, NoDup e.2) adj →
  ∃ rows, @adjacency_with_carried_forward_edges E st adj = Ok (adj ++ rows) ∧ Forall (row_ok s) rows ∧
    Forall (.∈ known s) rows.*1 ∧ rows_of (adj ++ rows) (list_to_set (pairs adj) ∪ filter (λ p, p.1 ∉ adj.*1) (links s)).
Proof.
  intros HI Hn Hnd. unfold adjacency_with_carried_forward_edges. set (covered := list_to_set adj.*1 : gset Z).
  destruct (carry_known_ok st s covered (vertex_ids st) HI adj) as (rows & Er & Hs & Hc & Hf & Hl).
  assert (Hcov : ∀ u, u ∈ covered ↔ u ∈ adj.*1) by (intros u; unfold covered; by rewrite elem_of_list_to_set).
  rewrite (inv_ids _ _ HI) in *. rewrite Er. cbn [mbind result_bind]. exists rows.
  assert (Hrk : NoDup rows.*1) by (eapply sublist_NoDup; [apply (inv_known _ _ HI)|done]).
  split_and!; [|done| |].
  - apply (carry_additions_ok st s); [done| |].
    + intros u v Huv. destruct (decide (u ∈ covered)); [by left|right]. rewrite fmap_app. apply elem_of_app. right.
      eapply Hl; [|done|done]. by apply (inv_links _ _ HI) in Huv as [? _].
    + intros u xs Hx%elem_of_map_to_list. unfold at_key. by rewrite Hx.
  - apply Forall_forall. intros u Hu. by eapply elem_of_sublist.
  - split.
    + rewrite fmap_app. apply NoDup_app. split_and!; [done| |done]. intros u Hu Hr. apply (Hc u Hr). by apply Hcov.
    + apply Forall_app. split; [done|]. eapply Forall_impl; [exact Hf|]. by intros e [? _].
    + intros u v. unfold pairs at 1. rewrite bind_app, elem_of_app. fold (pairs adj). fold (pairs rows).
      rewrite elem_of_union, elem_of_list_to_set, elem_of_filter. simpl. apply or_iff_compat_l. rewrite elem_pairs.
      rewrite Forall_forall in Hf. split.
      * intros (row & Hr & Hv). split; [|by apply (Hf _ Hr)]. rewrite <- Hcov. apply Hc. by apply (list_elem_of_fmap_2 fst _ (u, row)).
      * intros [Hu Huv]. rewrite <- Hcov in Hu. pose proof (inv_links _ _ HI _ _ Huv) as [Hk _].
        pose proof (Hl u v Hk Hu Huv) as ([w row] & Hw & Hr)%list_elem_of_fmap. simpl in Hw. subst w. exists row. split; [done|]. by apply (Hf _ Hr).
Qed.

Lemma ingest_step_ok st s adj cs ids : Inv st s → ingest_ok s adj cs ids →
  let l := list_to_set (pairs adj) ∪ filter (λ p, p.1 ∉ adj.*1) (links s) in fits l →
  ∃ st', @ingest E st adj cs ids = Ok st' ∧ Inv st' {| links := l; known := ids |}.
Proof.
  intros HI (Hn & Hf & Hk & Hnd & Hv & Hlen) l Hfit.
  assert (Hf1 : Forall (λ e, NoDup e.2) adj) by (eapply Forall_impl; [exact Hf|]; by intros e [? _]).
  destruct (carried_ok st s adj HI Hn Hf1) as (rows & Ec & Hrow & Hrk & Hro). fold l in Hro.
  rewrite Forall_forall in Hf. pose proof (proj1 (Forall_forall _ _) Hk) as Hk'. pose proof (proj1 (Forall_forall _ _) Hv) as Hv'. pose proof (proj1 (Forall_forall _ _) Hrk) as Hrk'.
  assert (Hval : Forall (λ e, valid_id e.1 ∧ Forall valid_id e.2) (adj ++ rows)).
  { apply Forall_app. split.
    - apply Forall_forall. intros e He. destruct (Hf _ He) as (_ & H2 & H3). split; [by apply Hv'|done].
    - apply (rows_valid s); [apply (inv_links _ _ HI)|done|]. apply Forall_forall. intros u Hu. by apply Hv', Hk', Hrk'. }
  destruct (rows_build (E := E) _ l cs Hro Hval Hfit) as (c & Eb & Hc & Hnn & Hl).
  unfold ingest. rewrite Ec. cbn [mbind result_bind]. unfold build_from_adjacency. rewrite Eb. cbn [mbind result_bind].
  eexists. split; [done|]. eapply inv_fresh; try done.
  - intros u v. unfold l. cbn [links]. rewrite elem_of_union, elem_of_list_to_set, elem_of_filter, elem_pairs. cbn [known].
    intros [(row & Hr & Hvr)|[_ Huv]].
    + destruct (Hf _ Hr) as (_ & H2 & H3). split; [done|]. rewrite Forall_forall in H2. by apply H2.
    + destruct (inv_links _ _ HI _ _ Huv) as [Hu Hvv]. split; [by apply Hk'|done].
  - intros id pos Hp. apply ids_positions_ok in Hp as [(i & Hi & ->)|Hp]; [done|]. by rewrite lookup_empty in Hp.
Qed.

(** ** Every operation *)

Lemma edge_step_ok st s op s' : Inv st s → spec_step s op = Some s' → ∃ st', @step E st op = Ok st' ∧ Inv st' s'.
Proof.
  intros HI Hs. destruct op; cbn [spec_step] in Hs; cbn [step].
  - case_decide as H; simplify_eq. destruct H as (H1 & H2 & H3). by apply add_edge_ok.
  - simplify_eq. by apply remove_edge_ok.
  - simplify_eq. by apply rebuild_ok.
  - simplify_eq. eexists. split; [done|]. by apply (inv_same st).
  - simplify_eq. assert (HI' : Inv (with_depth st (Z.max 0 (batch_depth st - 1))) s') by by apply (inv_same st).
    unfold end_batch. destruct (_ && _); [by apply rebuild_ok|by eexists].
  - simplify_eq. eexists. split; [done|]. by apply (inv_same st).
  - case_decide as H; simplify_eq. destruct H as [H1 H2]. eexists. split; [done|]. by apply add_vertex_ok.
  - case_decide as H; simplify_eq. destruct H as [H1 H2]. pose proof (add_vertices_ok items st s HI H1 H2) as HI'.
    unfold add_vertices_batch. destruct items as [|i items]; [exists st; split; [done|exact HI']|]. by apply rebuild_ok.
  - simplify_eq. by apply update_addr_ok.
  - case_decide as H; simplify_eq. destruct H as [H1 H2]. by apply ingest_step_ok.
Qed.

Lemma edge_run_ok ops : ∀ st s s', Inv st s → spec_run s ops = Some s' → ∃ st', @run E st ops = Ok st' ∧ Inv st' s'.
Proof.
  induction ops as [|op ops IH]; intros st s s' HI Hs; simpl in *; [simplify_eq; by exists st|].
  destruct (spec_step s op) as [s1|] eqn:E1; simplify_eq/=. destruct (edge_step_ok st s op s1 HI E1) as (st1 & -> & HI1).
  exact (IH _ _ _ HI1 Hs).
Qed.

(** ** Visiting sources within a budget *)

Definition collect (l : list Z) (x : Z) : list Z * bool := (l ++ [x], true).

Lemma visit_ok removed l : ∀ work acc, (0 ≤ work)%Z → let shown := filter (.∉ removed) (take (Z.to_nat work) l) in
  visit collect (Some removed) l work acc
  = (bool_decide (Z.of_nat (length l) ≤ work)%Z, Z.max 0 (work - Z.of_nat (length l))%Z, acc ++ shown).
Proof.
  induction l as [|x l IH]; intros work acc Hw; cbn zeta.
  - cbn [visit length]. rewrite take_nil, bool_decide_eq_true_2, filter_nil, app_nil_r by lia. do 2 f_equal. lia.
  - cbn [visit length]. destruct (Z.eqb_spec work 0) as [->|Hne].
    + rewrite bool_decide_eq_false_2 by lia. simpl. rewrite app_nil_r. done.
    + replace (Z.to_nat work) with (S (Z.to_nat (work - 1))) by lia. cbn [take]. rewrite filter_cons.
      assert (Hb : bool_decide (Z.of_nat (length l) ≤ work - 1)%Z = bool_decide (Z.of_nat (S (length l)) ≤ work)%Z)
        by (apply bool_decide_ext; lia).
      assert (Hm : Z.max 0 (work - 1 - Z.of_nat (length l)) = Z.max 0 (work - Z.of_nat (S (length l)))) by lia.
      unfold collect at 2. destruct (decide (x ∈ removed)) as [Hx|Hx].
      * rewrite (bool_decide_eq_true_2 (x ∈ removed)) by done. cbn zeta in IH. rewrite IH, Hb, Hm by lia. by rewrite decide_False by tauto.
      * rewrite (bool_decide_eq_false_2 (x ∈ removed)) by done. cbn zeta in IH. rewrite IH, Hb, Hm by lia.
        rewrite decide_True by done. by rewrite <- app_assoc.
Qed.

Lemma visit_all l work acc : visit collect None l work acc = visit collect (Some ∅) l work acc.
Proof.
  revert work acc. induction l as [|x l IH]; intros work acc; simpl; [done|]. destruct (work =? 0)%Z; [done|].
  rewrite bool_decide_eq_false_2 by set_solver. apply IH.
Qed.

Lemma visit_none m v l work acc : visit collect (m !! v) l work acc = visit collect (Some (at_key m v)) l work acc.
Proof. unfold at_key. destruct (m !! v); [done|apply visit_all]. Qed.

Lemma visit_plain l work acc : (0 ≤ work)%Z → visit collect None l work acc
  = (bool_decide (Z.of_nat (length l) ≤ work)%Z, Z.max 0 (work - Z.of_nat (length l))%Z, acc ++ take (Z.to_nat work) l).
Proof.
  intros Hw. rewrite visit_all, visit_ok by done. do 2 f_equal. generalize (take (Z.to_nat work) l). intros k.
  induction k as [|x k IH]; [done|]. rewrite filter_cons, decide_True by set_solver. by rewrite IH.
Qed.

(** The entries that a full visit of the sources of [v] is charged for. *)
Definition entries st (v : Z) : nat :=
  match @Csr.in_edges E (base st) v with Ok l => length l | _ => 0 end + size (at_key (additions_in (delta st)) v).

Lemma visit_run st v budget l : (0 ≤ budget)%Z → @Csr.in_edges E (base st) v = Ok l →
  @visit_in_edges_bounded E _ st v budget collect [] =
    Ok (bool_decide (Z.of_nat (entries st v) ≤ budget)%Z, Z.max 0 (budget - Z.of_nat (entries st v))%Z,
        filter (.∉ at_key (removals_in (delta st)) v) (take (Z.to_nat budget) l) ++
        take (Z.to_nat (budget - Z.of_nat (length l))) (elements (at_key (additions_in (delta st)) v))).
Proof.
  intros Hb El. unfold visit_in_edges_bounded, entries. rewrite El. cbn [mbind result_bind]. rewrite visit_none, visit_ok by done. cbn [app].
  assert (Ha : at_key (additions_in (delta st)) v = default ∅ (additions_in (delta st) !! v)) by done. rewrite Ha.
  case_bool_decide as Hd.
  - rewrite Z.max_r by lia. destruct (additions_in (delta st) !! v) as [xs|]; unfold default, id.
    + rewrite visit_plain by lia. change (length (elements xs)) with (size xs).
      assert (Hbd : bool_decide (Z.of_nat (size xs) ≤ budget - Z.of_nat (length l))%Z
                    = bool_decide (Z.of_nat (length l + size xs) ≤ budget)%Z) by (apply bool_decide_ext; lia).
      rewrite Hbd. do 3 f_equal. lia.
    + change (size (∅ : gset Z)) with 0. rewrite elements_empty, take_nil, app_nil_r, bool_decide_eq_true_2 by lia. do 3 f_equal. lia.
  - rewrite bool_decide_eq_false_2 by lia. do 2 f_equal; [f_equal; lia|].
    replace (Z.to_nat (budget - _)) with 0 by lia. by rewrite app_nil_r.
Qed.

Lemma visit_bounded_ok st s v budget : Inv st s → (0 ≤ budget)%Z → ∃ seen,
  @visit_in_edges_bounded E _ st v budget collect [] =
    Ok (bool_decide (Z.of_nat (entries st v) ≤ budget)%Z, Z.max 0 (budget - Z.of_nat (entries st v))%Z, seen) ∧
  (∀ u, u ∈ seen → (u, v) ∈ links s) ∧ ((Z.of_nat (entries st v) ≤ budget)%Z → ∀ u, (u, v) ∈ links s → u ∈ seen).
Proof.
  intros HI Hb. destruct (inv_base _ _ HI) as (cs & out & Hc & Hn & Hl). destruct (rep_in _ _ _ Hc v) as (l & El & _ & Ho).
  assert (Hm : ∀ u, u ∈ l ↔ v ∈ out u) by (intros u; by rewrite !occ_elem, Ho).
  assert (Hlk : ∀ u, (u, v) ∈ links s ↔ (u ∈ l ∧ u ∉ at_key (removals_in (delta st)) v) ∨ u ∈ at_key (additions_in (delta st)) v)
    by (intros u; by rewrite Hl, Hm, (inv_add _ _ HI), (inv_rem _ _ HI)).
  eexists. split; [by apply visit_run|]. split.
  - intros u. rewrite elem_of_app, list_elem_of_filter, Hlk. intros [[Hu Ht]|Ht]; apply elem_of_take in Ht as (i & Hi & _).
    + left. split; [|done]. by eapply list_elem_of_lookup_2.
    + right. apply elem_of_elements. by eapply list_elem_of_lookup_2.
  - intros Hd u. unfold entries in Hd. rewrite El in Hd. rewrite elem_of_app, list_elem_of_filter, Hlk.
    assert (Hsz : length (elements (at_key (additions_in (delta st)) v)) = size (at_key (additions_in (delta st)) v)) by done.
    rewrite (take_ge l), (take_ge (elements _)) by lia. rewrite elem_of_elements. tauto.
Qed.
End inv.

(** C12: the edge store is a set of edges. From an empty store, take any edits, rebuilds, batches
    (also deferred ones), new vertices, changed addresses and bulk ingests in which a source is a
    known vertex, ids are [u32]s other than the largest, no vertex is added twice and there are less
    than 2^32 edges, and in which an ingest names each source once and each of its targets once (the
    compressed rows keep a target that is given twice), with its sources and all known vertices
    among its ids, which are distinct and as many as its addresses. No call panics, and afterwards,
    whether changes are pending or not, [out_edges] and [in_edges_merged] list exactly the targets
    and the sources of a vertex in the set, once each; [num_edges_exact] is its size; an ingest
    keeps the edges of the vertices that its adjacency list does not name; and a visit with a work
    budget sees sources only, is charged for every entry, and ends before all were shown only when
    the budget is used up. *)
Theorem edge_store_refines ops s : spec_run empty_spec ops = Some s → ∃ st, run new ops = @Ok Empty_set _ st ∧
  (∀ u, ∃ l, out_edges st u = @Ok Empty_set _ l ∧ NoDup l ∧ ∀ v, v ∈ l ↔ (u, v) ∈ links s) ∧
  (∀ v, ∃ l, in_edges_merged st v = @Ok Empty_set _ l ∧ NoDup l ∧ ∀ u, u ∈ l ↔ (u, v) ∈ links s) ∧
  num_edges_exact st = @Ok Empty_set _ (size (links s)) ∧ vertex_ids st = known s ∧
  ∀ v, ∃ entries, ∀ budget, (0 ≤ budget)%Z → ∃ seen,
    visit_in_edges_bounded st v budget collect [] =
      @Ok Empty_set _ (bool_decide (Z.of_nat entries ≤ budget)%Z, Z.max 0 (budget - Z.of_nat entries)%Z, seen) ∧
    (∀ u, u ∈ seen → (u, v) ∈ links s) ∧ ((Z.of_nat entries ≤ budget)%Z → ∀ u, (u, v) ∈ links s → u ∈ seen).
Proof.
  intros H. destruct (edge_run_ok (E := Empty_set) ops new empty_spec s inv_new H) as (st & Er & HI). exists st. split_and!; [done|..].
  - intros u. by apply out_row.
  - intros v. by apply in_row.
  - by apply num_edges_ok.
  - apply (inv_ids _ _ HI).
  - intros v. exists (@entries Empty_set st v). intros budget Hb. by apply visit_bounded_ok.
Qed.

(** A batch with an edge taken back, an ingest that carries the edges of [1025], and an edit after it. *)
Definition edits : list Op :=
  [AddVertex (at_grid 0 0) 1024; AddVertices [(at_grid 0 1, 1025); (symbol 0, 1026)]; BeginBatch; AddEdge 1024 1025;
   AddEdge 1025 1026; AddEdge 1025 1024; RemoveEdge 1024 1025; EndBatch; UpdateAddr 1025 (at_grid 4 4); Rebuild;
   AddEdge 1025 1027; RemoveEdge 1025 1024;
   Ingest [(1026, [1024; 1025])] [at_grid 0 0; at_grid 4 4; symbol 0] [1024; 1025; 1026]; AddEdge 1024 1026]%Z.

Definition edited : Spec := default empty_spec (spec_run empty_spec edits).

Example edited_links : elements (links edited) ≡ₚ [(1024, 1026); (1025, 1026); (1025, 1027); (1026, 1024); (1026, 1025)]%Z.
Proof.
  apply NoDup_Permutation; [apply NoDup_elements|apply (bool_decide_unpack _); vm_compute; exact I|]. intros p.
  rewrite elem_of_elements, <- (elem_of_list_to_set (C := gset (Z * Z))).
  assert (He : links edited = list_to_set [(1024, 1026); (1025, 1026); (1025, 1027); (1026, 1024); (1026, 1025)]%Z)
    by (apply (bool_decide_unpack _); vm_compute; exact I).
  by rewrite He.
Qed.

Lemma edge_store_refines_witness : spec_run empty_spec edits = Some edited ∧ ∃ st, run new edits = @Ok Empty_set _ st ∧
  (∀ u, ∃ l, out_edges st u = @Ok Empty_set _ l ∧ NoDup l ∧ ∀ v, v ∈ l ↔ (u, v) ∈ links edited) ∧
  (∀ v, ∃ l, in_edges_merged st v = @Ok Empty_set _ l ∧ NoDup l ∧ ∀ u, u ∈ l ↔ (u, v) ∈ links edited) ∧
  num_edges_exact st = @Ok Empty_set _ (size (links edited)) ∧ vertex_ids st = known edited ∧
  ∀ v, ∃ entries, ∀ budget, (0 ≤ budget)%Z → ∃ seen,
    visit_in_edges_bounded st v budget collect [] =
      @Ok Empty_set _ (bool_decide (Z.of_nat entries ≤ budget)%Z, Z.max 0 (budget - Z.of_nat entries)%Z, seen) ∧
    (∀ u, u ∈ seen → (u, v) ∈ links edited) ∧ ((Z.of_nat entries ≤ budget)%Z → ∀ u, (u, v) ∈ links edited → u ∈ seen).
Proof.
  assert (H : spec_run empty_spec edits = Some edited) by (vm_compute; reflexivity).
  split; [exact H|]. apply (edge_store_refines edits edited H).
Defined.

(** * How often the rows are rebuilt *)

Fixpoint edit_count (ops : list Op) : nat :=
  match ops with
  | [] => 0
  | (AddEdge _ _ | RemoveEdge _ _) :: ops => 1 + edit_count ops
  | _ :: ops => edit_count ops
  end.

(** The operations that may rebuild whatever is pending. *)
Fixpoint forced_count (ops : list Op) : nat :=
  match ops with
  | [] => 0
  | (Rebuild | AddVertices _ | UpdateAddr _ _) :: ops => 1 + forced_count ops
  | _ :: ops => forced_count ops
  end.

Definition defers (op : Op) : bool := match op with EndBatchDeferred => true | _ => false end.

(** Rebuilds done, rebuilds due. *)
Definition spent (st : CsrMutableEdges) : Z :=
  1000 * rebuild_count st + Z.of_nat (op_count (delta st)) + if coord_changed (delta st) then 1000 else 0.

Definition bounded (st : CsrMutableEdges) : Prop := batch_depth st = 0%Z → op_count (delta st) < 1000.

Section amortized.
Context {E : Type}.

Lemma rebuild_spent st st' : @rebuild E st = Ok st' → op_count (delta st') = 0 ∧ (spent st' ≤ spent st + 1000)%Z ∧
  (needs_rebuild (delta st) = true → (spent st' ≤ spent st)%Z) ∧ batch_depth st' = batch_depth st.
Proof.
  intros H. unfold rebuild in H.
  assert (Hdue : needs_rebuild (delta st) = true → (1000 ≤ Z.of_nat (op_count (delta st)) + if coord_changed (delta st) then 1000 else 0)%Z).
  { unfold needs_rebuild. intros [Hn|Hn]%orb_true_iff; [apply Nat.leb_le in Hn; destruct (coord_changed _)|rewrite Hn]; lia. }
  destruct ((0 <? op_count (delta st))%nat || needs_rebuild (delta st)) eqn:Hn.
  - bind_inv. unfold spent. cbn. split_and!; [done|destruct (coord_changed _); lia|intros Hd; specialize (Hdue Hd); lia|done].
  - injection H as <-. apply orb_false_iff in Hn as [Hn _]. apply Nat.ltb_ge in Hn. split_and!; [lia|lia|done|done].
Qed.

(** Rebuilding when it is due costs nothing. *)
Lemma due_spent st st' : (if (batch_depth st =? 0)%Z && needs_rebuild (delta st) then @rebuild E st else Ok st) = Ok st' →
  (spent st' ≤ spent st)%Z ∧ bounded st' ∧ batch_depth st' = batch_depth st.
Proof.
  intros H. unfold bounded. destruct (needs_rebuild (delta st)) eqn:Hn; [destruct (Z.eqb_spec (batch_depth st) 0) as [H0|H0]|]; cbn [andb] in H.
  - destruct (rebuild_spent _ _ H) as (H1 & _ & H3 & H4). split_and!; [by apply H3|lia|done].
  - injection H as <-. split_and!; [lia|lia|done].
  - rewrite andb_false_r in H. injection H as <-. split_and!; [lia| |done]. intros _. unfold needs_rebuild in Hn. bool_prop in Hn.
    destruct Hn as [Hn _]. apply Nat.leb_gt in Hn. exact Hn.
Qed.

Lemma add_vertices_spent items : ∀ st, let st' := fold_left (λ st '(a, vid), (add_vertex st a vid).1) items st in
  delta st' = delta st ∧ rebuild_count st' = rebuild_count st ∧ batch_depth st' = batch_depth st.
Proof. induction items as [|[a id] items IH]; intros st; [done|]. apply (IH (add_vertex st a id).1). Qed.

Lemma step_spent st op st' : @step E st op = Ok st' →
  (spent st' ≤ spent st + Z.of_nat (edit_count [op]) + 1000 * Z.of_nat (forced_count [op]))%Z ∧
  ((0 ≤ batch_depth st)%Z → (0 ≤ batch_depth st')%Z ∧ (defers op = false → bounded st → bounded st')).
Proof.
  intros H. destruct op; cbn [step edit_count forced_count defers] in *.
  - unfold add_edge, maybe_rebuild in H. apply due_spent in H as (H1 & H2 & H3). cbn in H1, H3. unfold spent in *. cbn in H1. split; [lia|]. rewrite H3. done.
  - unfold remove_edge, maybe_rebuild in H. apply due_spent in H as (H1 & H2 & H3). cbn in H1, H3. unfold spent in *. cbn in H1. split; [lia|]. rewrite H3. done.
  - apply rebuild_spent in H as (H1 & H2 & _ & H4). split; [lia|]. rewrite H4. unfold bounded. intros ?. split; [done|lia].
  - injection H as <-. unfold spent, bounded, begin_batch, with_depth, u64_max. cbn. split; [lia|]. lia.
  - unfold end_batch in H. apply due_spent in H as (H1 & H2 & H3). cbn in H1, H3. unfold spent in *. cbn in H1. split; [lia|]. rewrite H3. split; [lia|done].
  - injection H as <-. unfold spent, end_batch_deferred, with_depth. cbn. split; [lia|]. split; [lia|done].
  - injection H as <-. unfold spent, bounded. cbn. split; [lia|done].
  - unfold add_vertices_batch in H. pose proof (add_vertices_spent items st) as Ha. cbn zeta in Ha. destruct items as [|i items].
    + injection H as <-. split; [lia|done].
    + apply rebuild_spent in H as (H1 & H2 & _ & H4). destruct Ha as (D1 & D2 & D3). unfold spent in H2. rewrite D1, D2 in H2.
      unfold spent, bounded. rewrite H4, D3. split; [lia|]. intros ?. split; [done|lia].
  - unfold update_addr in H. destruct (vertex_pos st !! id); [|injection H as <-; split; [lia|done]]. bind_inv.
    destruct (a =? id)%Z; [|done]. bind_inv. unfold spent, bounded. cbn. destruct (coord_changed (delta st)); split; lia || done.
  - unfold ingest, build_from_adjacency in H. bind_inv. unfold spent, bounded. cbn. split; [destruct (coord_changed _); lia|].
    intros ?. split; [done|lia].
Qed.

Lemma count_cons op ops : edit_count (op :: ops) = edit_count [op] + edit_count ops ∧
  forced_count (op :: ops) = forced_count [op] + forced_count ops.
Proof. destruct op; split; done. Qed.

Lemma run_spent ops : ∀ st st', @run E st ops = Ok st' →
  (spent st' ≤ spent st + Z.of_nat (edit_count ops) + 1000 * Z.of_nat (forced_count ops))%Z ∧
  ((0 ≤ batch_depth st)%Z → forallb (λ op, negb (defers op)) ops = true → bounded st → bounded st').
Proof.
  induction ops as [|op ops IH]; intros st st' H; cbn [run] in H; [injection H as <-; simpl; split; [lia|done]|].
  apply result_bind_ok in H as (st1 & E1 & H). destruct (step_spent _ _ _ E1) as [S1 S2]. destruct (IH _ _ H) as [I1 I2].
  destruct (count_cons op ops) as [-> ->]. split; [lia|]. intros Hd Hf Hb. cbn [forallb] in Hf. bool_prop in Hf. destruct Hf as [Hf1 Hf2].
  destruct (S2 Hd) as [S3 S4]. apply I2; [done|done|]. apply S4; [by destruct op|done].
Qed.
End amortized.

(** C31: edits are amortized.  However edits, batches, new vertices, changed addresses, ingests and
    explicit rebuilds are interleaved, the full rebuilds of the rows are at most one in a thousand edits plus one for each operation
    that asks for one (a rebuild, a batch of vertices, a changed address); and if no batch ended
    deferred, fewer than a thousand edits are pending outside a batch. *)
Theorem rebuilds_amortized ops st : run new ops = @Ok Empty_set _ st →
  (1000 * rebuild_count st + Z.of_nat (delta_size st) ≤ Z.of_nat (edit_count ops) + 1000 * Z.of_nat (forced_count ops))%Z ∧
  (forallb (λ op, negb (defers op)) ops = true → batch_depth st = 0%Z → delta_size st < 1000).
Proof.
  intros H. destruct (run_spent ops new st H) as [H1 H2]. split.
  - unfold spent in H1. unfold delta_size. cbn in H1. destruct (coord_changed (delta st)); lia.
  - intros Hf Hb. apply H2; [done|done|unfold bounded; cbn; lia|done].
Qed.

Definition steady : list Op := AddVertex (at_grid 0 0) 1024 :: ((λ v, AddEdge 1024 (1024 + Z.of_nat v)) <$> seq 0 1010) ++ [BeginBatch; EndBatch].
Definition steady_state : CsrMutableEdges := default new (ok (run (E := Empty_set) new steady)).

Lemma rebuilds_amortized_witness : run new steady = @Ok Empty_set _ steady_state ∧
  (rebuild_count steady_state = 1%Z ∧ delta_size steady_state = 10) ∧
  (1000 * rebuild_count steady_state + Z.of_nat (delta_size steady_state) ≤ Z.of_nat (edit_count steady) + 1000 * Z.of_nat (forced_count steady))%Z ∧
  (forallb (λ op, negb (defers op)) steady = true → batch_depth steady_state = 0%Z → delta_size steady_state < 1000).
Proof.
  assert (H : run new steady = @Ok Empty_set _ steady_state) by (vm_compute; reflexivity).
  split; [exact H|]. split; [vm_compute; split; reflexivity|]. exact (rebuilds_amortized steady steady_state H).
Defined.
