(* ===== verification/Relocate.v ===== *)
(** Relocation of formulas ([crates/formualizer-eval/src/engine/template/relocate.rs], and
    [member_ast] and [reference_count] of [engine/graph/structural_runs.rs]): a family of
    formulas down a column keeps one template, and a member's formula is the template with every
    relative axis moved by the member's offset.  A structural edit splits a run of members at its
    boundary and moves each part as a block.

    [i64] and [u32] sums are checked for overflow, as in a debug build: [Panic]. *)
From S2P Require Import Prelude Coords Address StructuredRef Reference Parser SheetRegistry Adjust.

Local Open Scope Z_scope.

Definition add_i64 {E} (a b : Z) : result E Z :=
  if decide (- 2 ^ 63 ≤ a + b < 2 ^ 63) then Ok (a + b) else Panic.

(** [iter().map().collect::<Result<_, _>>()]: the first error ends it. *)
Definition collect {E A B} (f : A → result E B) : list A → result E (list B) :=
  fix go l :=
    match l with
    | [] => Ok []
    | x :: l => y ← f x; l ← go l; Ok (y :: l)
    end.

(** [Option::map] and [Option::transpose]. *)
Definition transpose {E A B} (f : A → result E B) (o : option A) : result E (option B) :=
  match o with Some x => Some <$> f x | None => Ok None end.

(** [.ok()]. *)
Definition result_ok {E A} (m : result E A) : result Empty_set (option A) :=
  match m with Ok a => Ok (Some a) | Err _ => Ok None | Panic => Panic end.

(** * One axis *)

Definition unsupported_reference_relocation_error : ExcelError :=
  {| error_kind := ErrRef;
     error_message := Some (str "Unsupported reference relocation for FormulaPlane structural demotion") |}.

Definition shift_axis_for_offset (value delta : Z) (is_absolute : bool) : result ExcelError Z :=
  if is_absolute then Ok value
  else
    shifted ← add_i64 value delta;
    if (shifted <? 1) || (u32_max <? shifted) then Err unsupported_reference_relocation_error
    else Ok (as_u32 shifted).

Definition shift_optional_axis_for_offset (value : option Z) (delta : Z) (is_absolute : bool)
  : result ExcelError (option Z) := transpose (λ value, shift_axis_for_offset value delta is_absolute) value.

(** * References and formulas *)

Section relocate.
Context {F : FloatText}.

Definition relocate_reference_for_offset (reference : ReferenceType) (row_delta col_delta : Z)
  : result ExcelError ReferenceType :=
  match reference with
  | Cell sheet p =>
      row ← shift_axis_for_offset (row p) row_delta (row_abs p);
      col ← shift_axis_for_offset (col p) col_delta (col_abs p);
      Ok (Cell sheet {| row := row; col := col; row_abs := row_abs p; col_abs := col_abs p |})
  | Range sheet p =>
      sr ← shift_optional_axis_for_offset (start_row p) row_delta (start_row_abs p);
      sc ← shift_optional_axis_for_offset (start_col p) col_delta (start_col_abs p);
      er ← shift_optional_axis_for_offset (end_row p) row_delta (end_row_abs p);
      ec ← shift_optional_axis_for_offset (end_col p) col_delta (end_col_abs p);
      Ok (Range sheet
        {| start_row := sr; start_col := sc; end_row := er; end_col := ec;
           start_row_abs := start_row_abs p; start_col_abs := start_col_abs p;
           end_row_abs := end_row_abs p; end_col_abs := end_col_abs p |})
  | NamedRange name => Ok (NamedRange name)
  | Table _ | Cell3D _ _ _ | Range3D _ _ _ | External _ => Err unsupported_reference_relocation_error
  end.

Fixpoint relocate_ast_for_template_placement (ast : ASTNode) (row_delta col_delta : Z)
  : result ExcelError ASTNode :=
  let relocate ast := relocate_ast_for_template_placement ast row_delta col_delta in
  match ast with
  | Node ty source_token contains_volatile =>
      node_type ←
        match ty with
        | Lit value => Ok (Lit value)
        | Omitted => Ok Omitted
        | Parser.Reference original reference =>
            reference ← relocate_reference_for_offset reference row_delta col_delta;
            Ok (Parser.Reference original reference)
        | UnaryOp op expr => expr ← relocate expr; Ok (UnaryOp op expr)
        | BinaryOp op lhs rhs =>
            lhs ← relocate lhs;
            rhs ← relocate rhs;
            Ok (BinaryOp op lhs rhs)
        | Function name args => args ← collect relocate args; Ok (Function name args)
        | Call callee args =>
            callee ← relocate callee;
            args ← collect relocate args;
            Ok (Call callee args)
        | ArrayLit rows => rows ← collect (collect relocate) rows; Ok (ArrayLit rows)
        end;
      Ok (Node node_type source_token contains_volatile)
  end.

(** [iter().zip(iter_mut())]: the elements without a partner stay. *)
Definition zip_mut {A} (f : A → A → A) : list A → list A → list A :=
  fix go ts ms :=
    match ts, ms with
    | t :: ts, m :: ms => f t m :: go ts ms
    | _, ms => ms
    end.

Fixpoint rerender_originals (template member : ASTNode) : ASTNode :=
  match template, member with
  | Node tty _ _, Node mty source_token contains_volatile =>
      let node ty := Node ty source_token contains_volatile in
      match tty, mty with
      | Parser.Reference t_original t_reference, Parser.Reference original reference =>
          if eqb_bytes t_original (normalise t_reference)
          then node (Parser.Reference (normalise reference) reference)
          else member
      | UnaryOp _ t, UnaryOp op m => node (UnaryOp op (rerender_originals t m))
      | BinaryOp _ tl tr, BinaryOp op ml mr =>
          node (BinaryOp op (rerender_originals tl ml) (rerender_originals tr mr))
      | Function _ ta, Function name ma => node (Function name (zip_mut rerender_originals ta ma))
      | Call tc ta, Call mc ma =>
          node (Call (rerender_originals tc mc) (zip_mut rerender_originals ta ma))
      | ArrayLit tr, ArrayLit mr => node (ArrayLit (zip_mut (zip_mut rerender_originals) tr mr))
      | _, _ => member
      end
  end.

Definition instantiate_member_ast (ast : ASTNode) (row_delta col_delta : Z) : result ExcelError ASTNode :=
  out ← relocate_ast_for_template_placement ast row_delta col_delta;
  Ok (rerender_originals ast out).

(** * The members of a run *)

(** The formula of the member of a template valid at [anchor] that is at [(row, col)]. *)
Definition member_ast (template : ASTNode) (anchor : Z * Z) (row col : Z) : result Empty_set (option ASTNode) :=
  let dr := row - anchor.1 in
  let dc := col - anchor.2 in
  if (dr =? 0) && (dc =? 0) then Ok (Some template)
  else result_ok (instantiate_member_ast template dr dc).

(** The cell and range references of a formula; [None] when it has one of another kind, a defined
    name apart. *)
Definition sum_counts {A} (f : A → option nat) : list A → option nat :=
  fix go l :=
    match l with
    | [] => Some 0%nat
    | x :: l => n ← f x; m ← go l; Some (n + m)%nat
    end.

Fixpoint reference_count (ast : ASTNode) : option nat :=
  match node_type ast with
  | Parser.Reference _ (Cell _ _) | Parser.Reference _ (Range _ _) => Some 1%nat
  | Parser.Reference _ (NamedRange _) => Some 0%nat
  | Parser.Reference _ _ => None
  | Lit _ | Omitted => Some 0%nat
  | UnaryOp _ expr => reference_count expr
  | BinaryOp _ lhs rhs => n ← reference_count lhs; m ← reference_count rhs; Some (n + m)%nat
  | Function _ args => sum_counts reference_count args
  | Call callee args => n ← reference_count callee; m ← sum_counts reference_count args; Some (n + m)%nat
  | ArrayLit rows => sum_counts (sum_counts reference_count) rows
  end.

End relocate.
