(* ===== verification/RelocateTheorems.v ===== *)
(** Relocation: it moves the references of a formula by an offset or fails, two relocations are one
    by the sum of the offsets, and a run of members whose first and last formulas a structural edit
    takes to a common template is taken to it as a whole. *)
From S2P Require Import Prelude Coords Address StructuredRef Reference ReferenceTheorems Parser SheetRegistry Adjust AdjustTheorems Relocate.

Local Open Scope Z_scope.

(** * The movement of references *)

(** A bound on the sheet, an offset of an [i64] sum that cannot overflow. *)
Definition sheet_bound (x : Z) : Prop := 1 ≤ x ≤ u32_max.
Definition valid_offset (d : Z) : Prop := - 2 ^ 62 ≤ d ≤ 2 ^ 62.
Definition valid_opt (x : option Z) : Prop := ∀ v, x = Some v → sheet_bound v.

Definition moved_axis (d : Z) (abs : bool) (x : Z) : Z := if abs then x else x + d.
Definition on_sheet (d : Z) (abs : bool) (x : Z) : bool := abs || ((1 <=? x + d) && (x + d <=? u32_max)).
Definition opt_on_sheet (d : Z) (abs : bool) (x : option Z) : bool :=
  match x with Some x => on_sheet d abs x | None => true end.

Definition moved_ref (dr dc : Z) (r : ReferenceType) : ReferenceType :=
  match r with
  | Cell sheet p =>
      Cell sheet {| row := moved_axis dr (row_abs p) (row p); col := moved_axis dc (col_abs p) (col p);
                    row_abs := row_abs p; col_abs := col_abs p |}
  | Range sheet p =>
      Range sheet
        {| start_row := moved_axis dr (start_row_abs p) <$> start_row p;
           start_col := moved_axis dc (start_col_abs p) <$> start_col p;
           end_row := moved_axis dr (end_row_abs p) <$> end_row p;
           end_col := moved_axis dc (end_col_abs p) <$> end_col p;
           start_row_abs := start_row_abs p; start_col_abs := start_col_abs p;
           end_row_abs := end_row_abs p; end_col_abs := end_col_abs p |}
  | r => r
  end.

(** The reference stays on the sheet; a name moves with nothing, and the other kinds do not move. *)
Definition movable (dr dc : Z) (r : ReferenceType) : bool :=
  match r with
  | Cell _ p => on_sheet dr (row_abs p) (row p) && on_sheet dc (col_abs p) (col p)
  | Range _ p =>
      opt_on_sheet dr (start_row_abs p) (start_row p) && opt_on_sheet dc (start_col_abs p) (start_col p) &&
      opt_on_sheet dr (end_row_abs p) (end_row p) && opt_on_sheet dc (end_col_abs p) (end_col p)
  | NamedRange _ => true
  | _ => false
  end.

(** The bounds of cells and ranges are those of a sheet. *)
Definition valid_ref (r : ReferenceType) : Prop :=
  match r with
  | Cell _ p => sheet_bound (row p) ∧ sheet_bound (col p)
  | Range _ p => valid_opt (start_row p) ∧ valid_opt (end_row p) ∧ valid_opt (start_col p) ∧ valid_opt (end_col p)
  | _ => True
  end.

Lemma shift_axis_spec x d abs : sheet_bound x → valid_offset d →
  shift_axis_for_offset x d abs =
  if on_sheet d abs x then Ok (moved_axis d abs x) else Err unsupported_reference_relocation_error.
Proof.
  unfold sheet_bound, valid_offset, shift_axis_for_offset, on_sheet, moved_axis, add_i64, u32_max. intros Hx Hd.
  destruct abs; [done|]. cbn [orb]. rewrite decide_True by lia. cbn [mbind result_bind].
  destruct (Z.ltb_spec (x + d) 1), (Z.ltb_spec (2 ^ 32 - 1) (x + d)), (Z.leb_spec 1 (x + d)),
    (Z.leb_spec (x + d) (2 ^ 32 - 1)); try lia; try done.
  cbn [orb andb]. f_equal. unfold as_u32. apply Z.mod_small. lia.
Qed.

Lemma shift_optional_spec x d abs : valid_opt x → valid_offset d →
  shift_optional_axis_for_offset x d abs =
  if opt_on_sheet d abs x then Ok (moved_axis d abs <$> x) else Err unsupported_reference_relocation_error.
Proof.
  destruct x as [x|]; [|done]. intros Hx Hd. unfold shift_optional_axis_for_offset. simpl.
  rewrite shift_axis_spec by auto. by destruct (on_sheet d abs x).
Qed.

Lemma relocate_reference_spec r dr dc : valid_ref r → valid_offset dr → valid_offset dc →
  relocate_reference_for_offset r dr dc =
  if movable dr dc r then Ok (moved_ref dr dc r) else Err unsupported_reference_relocation_error.
Proof.
  intros Hr Hdr Hdc. destruct r as [s p|s p| | | | |]; try done; simpl in *.
  - destruct Hr. rewrite !shift_axis_spec by done. by repeat case_match.
  - destruct Hr as (? & ? & ? & ?). rewrite !shift_optional_spec by done.
    by repeat match goal with |- context [opt_on_sheet ?a ?b ?c] => destruct (opt_on_sheet a b c) end.
Qed.

(** ** Two movements are one *)

Lemma moved_axis_add a b abs x : moved_axis b abs (moved_axis a abs x) = moved_axis (a + b) abs x.
Proof. unfold moved_axis. destruct abs; lia. Qed.
Lemma moved_axis_zero abs x : moved_axis 0 abs x = x.
Proof. unfold moved_axis. destruct abs; lia. Qed.
Lemma moved_opt_add a b abs (x : option Z) : moved_axis b abs <$> (moved_axis a abs <$> x) = moved_axis (a + b) abs <$> x.
Proof. destruct x; [|done]. simpl. by rewrite moved_axis_add. Qed.
Lemma moved_opt_zero abs (x : option Z) : moved_axis 0 abs <$> x = x.
Proof. destruct x; [|done]. simpl. by rewrite moved_axis_zero. Qed.

Lemma moved_ref_add a b c d r : moved_ref c d (moved_ref a b r) = moved_ref (a + c) (b + d) r.
Proof. destruct r; try done; simpl; by rewrite ?moved_axis_add, ?moved_opt_add. Qed.
Lemma moved_ref_zero r : moved_ref 0 0 r = r.
Proof. destruct r as [s []|s []| | | | |]; try done; simpl; by rewrite ?moved_axis_zero, ?moved_opt_zero. Qed.
Lemma moved_ref_inj dr dc r r' : moved_ref dr dc r = moved_ref dr dc r' → r = r'.
Proof.
  intros H. apply (f_equal (moved_ref (- dr) (- dc))) in H. rewrite !moved_ref_add, !Z.add_opp_diag_r in H.
  by rewrite !moved_ref_zero in H.
Qed.

Lemma on_sheet_add a b abs x : on_sheet b abs (moved_axis a abs x) = on_sheet (a + b) abs x.
Proof. unfold on_sheet, moved_axis. destruct abs; [done|]. by rewrite Z.add_assoc. Qed.
Lemma opt_on_sheet_add a b abs (x : option Z) : opt_on_sheet b abs (moved_axis a abs <$> x) = opt_on_sheet (a + b) abs x.
Proof. destruct x; [|done]. apply on_sheet_add. Qed.
Lemma movable_add a b c d r : movable c d (moved_ref a b r) = movable (a + c) (b + d) r.
Proof. destruct r; try done; simpl; by rewrite ?on_sheet_add, ?opt_on_sheet_add. Qed.

Lemma on_sheet_valid d abs x : sheet_bound x → on_sheet d abs x = true → sheet_bound (moved_axis d abs x).
Proof.
  unfold on_sheet, moved_axis, sheet_bound. destruct abs; [done|]. cbn [orb]. rewrite andb_true_iff, !Z.leb_le. lia.
Qed.
Lemma opt_on_sheet_valid d abs x : valid_opt x → opt_on_sheet d abs x = true → valid_opt (moved_axis d abs <$> x).
Proof. destruct x as [x|]; [|done]. intros Hx H v [= <-]. apply on_sheet_valid; auto. Qed.
Lemma movable_valid dr dc r : valid_ref r → movable dr dc r = true → valid_ref (moved_ref dr dc r).
Proof.
  destruct r as [s p|s p| | | | |]; try done; simpl; rewrite ?andb_true_iff.
  - intros [??] [??]. split; by apply on_sheet_valid.
  - intros (?&?&?&?) [[[??]?]?]. split_and!; by apply opt_on_sheet_valid.
Qed.

(** The kinds of references that relocation knows. *)
Definition relocatable (r : ReferenceType) : bool :=
  match r with Cell _ _ | Range _ _ | NamedRange _ => true | _ => false end.

Lemma movable_kind dr dc r : movable dr dc r = true → relocatable r = true.
Proof. by destruct r. Qed.

Lemma movable_zero r : valid_ref r → relocatable r = true → movable 0 0 r = true.
Proof.
  assert (Ho : ∀ abs x, sheet_bound x → on_sheet 0 abs x = true).
  { unfold on_sheet, sheet_bound. intros [] x ?; [done|]. cbn [orb]. rewrite andb_true_iff, !Z.leb_le. lia. }
  assert (Hopt : ∀ abs x, valid_opt x → opt_on_sheet 0 abs x = true) by (intros abs [x|] Hx; [apply Ho; auto|done]).
  destruct r as [s p|s p| | | | |]; try done; simpl.
  - intros [??] _. by rewrite !Ho.
  - intros (?&?&?&?) _. by rewrite !Hopt.
Qed.

(** Between two offsets that keep a reference on the sheet, every offset does. *)
Lemma on_sheet_between a b d abs x : a ≤ d ≤ b → on_sheet a abs x = true → on_sheet b abs x = true → on_sheet d abs x = true.
Proof. unfold on_sheet. destruct abs; [done|]. cbn [orb]. rewrite !andb_true_iff, !Z.leb_le. lia. Qed.
Lemma movable_between a b d c r : a ≤ d ≤ b → movable a c r = true → movable b c r = true → movable d c r = true.
Proof.
  intros Hd. assert (Ho : ∀ abs x, opt_on_sheet a abs x = true → opt_on_sheet b abs x = true → opt_on_sheet d abs x = true).
  { intros abs [x|]; [|done]. by apply on_sheet_between. }
  destruct r as [s p|s p| | | | |]; try done; simpl; rewrite !andb_true_iff.
  - intros [??] [??]. split; [by eapply on_sheet_between|done].
  - intros [[[??]?]?] [[[??]?]?]. auto 10.
Qed.

(** * Formulas *)

Section formulas.
Context {F : FloatText} {fold : CaseFold}.

(** A formula with its references replaced and its texts and tokens as they are. *)
Fixpoint map_references (f : ReferenceType → ReferenceType) (e : ASTNode) : ASTNode :=
  match e with
  | Node ty tok b =>
      let node ty := Node ty tok b in
      match ty with
      | Parser.Reference o r => node (Parser.Reference o (f r))
      | UnaryOp op e => node (UnaryOp op (map_references f e))
      | BinaryOp op l r => node (BinaryOp op (map_references f l) (map_references f r))
      | Function name args => node (Function name (List.map (map_references f) args))
      | Call callee args => node (Call (map_references f callee) (List.map (map_references f) args))
      | ArrayLit rows => node (ArrayLit (List.map (List.map (map_references f)) rows))
      | Lit _ | Omitted => e
      end
  end.

(** Something done to every reference of a formula, or an error. *)
Definition guarded {A} (g : bool) (x : A) : result ExcelError A :=
  if g then Ok x else Err unsupported_reference_relocation_error.

Lemma collect_guarded {A} (f : A → result ExcelError A) (refs : A → list ReferenceType) (g : ReferenceType → bool) h l :
  Forall (λ x, f x = guarded (forallb g (refs x)) (h x)) l →
  collect f l = guarded (forallb g (List.concat (List.map refs l))) (List.map h l).
Proof.
  induction 1 as [|x l Hx _ IH]; [done|]. simpl. rewrite Hx, forallb_app. unfold guarded.
  destruct (forallb g (refs x)); [|done]. cbn [mbind result_bind andb]. fold (collect f l). rewrite IH. unfold guarded.
  by destruct (forallb g _).
Qed.

Lemma relocate_spec dr dc e : valid_offset dr → valid_offset dc → Forall valid_ref (references e) →
  relocate_ast_for_template_placement e dr dc =
  guarded (forallb (movable dr dc) (references e)) (map_references (moved_ref dr dc) e).
Proof.
  intros Hdr Hdc. revert e. apply references_ind; try done.
  - intros o r tok b Hr. simpl. rewrite relocate_reference_spec by done. rewrite andb_true_r. by destruct (movable dr dc r).
  - intros u e tok b IH. simpl. rewrite IH. unfold guarded. by destruct (forallb _ _).
  - intros u l r tok b IHl IHr. simpl. rewrite IHl, IHr, forallb_app. unfold guarded. by destruct (forallb _ (references l)), (forallb _ (references r)).
  - intros name args tok b Ha. simpl. rewrite (collect_guarded _ references (movable dr dc) _ _ Ha). unfold guarded. by destruct (forallb _ _).
  - intros callee args tok b Hc Ha. simpl. rewrite Hc, forallb_app. unfold guarded at 1. destruct (forallb _ (references callee)); [|done].
    cbn [mbind result_bind]. rewrite (collect_guarded _ references (movable dr dc) _ _ Ha). unfold guarded. by destruct (forallb _ (List.concat _)).
  - intros rows tok b Hr. simpl.
    rewrite (collect_guarded _ (λ row, List.concat (List.map references row)) (movable dr dc) (List.map (map_references (moved_ref dr dc)))).
    { unfold guarded. by destruct (forallb _ _). }
    eapply Forall_impl; [exact Hr|]. intros row Hrow. by apply collect_guarded.
Qed.

Lemma map_map_Forall {A B C} (g : B → C) (f : A → B) (h : A → C) l :
  Forall (λ x, g (f x) = h x) l → List.map g (List.map f l) = List.map h l.
Proof. rewrite List.map_map. apply List.map_ext_Forall. Qed.

Lemma map_references_add f g h e : Forall (λ r, g (f r) = h r) (references e) →
  map_references g (map_references f e) = map_references h e.
Proof.
  revert e. apply references_ind; simpl; try done.
  - by intros o r tok b ->.
  - by intros u e tok b ->.
  - by intros u l r tok b -> ->.
  - intros name args tok b Ha. do 2 f_equal. by apply map_map_Forall.
  - intros callee args tok b -> Ha. do 2 f_equal. by apply map_map_Forall.
  - intros rows tok b Hr. do 2 f_equal. apply map_map_Forall. eapply Forall_impl; [exact Hr|].
    intros row. apply map_map_Forall.
Qed.

Lemma map_references_id e : map_references (λ r, r) e = e.
Proof.
  induction e as [v tok b|tok b|o r tok b|u e tok b IH|u l r tok b IHl IHr|name args tok b IH
    |callee args tok b IHc IH|rows tok b IH] using ast_ind; simpl; rewrite ?IH, ?IHl, ?IHr, ?IHc; try done; do 2 f_equal.
  - induction IH; simpl; by f_equal.
  - induction IH; simpl; by f_equal.
  - induction IH as [|row rows Hrow _ IH]; simpl; f_equal; [|done]. induction Hrow; simpl; by f_equal.
Qed.

Lemma references_map f e : references (map_references f e) = List.map f (references e).
Proof.
  assert (HL : ∀ l, Forall (λ e, references (map_references f e) = List.map f (references e)) l →
    List.concat (List.map references (List.map (map_references f) l)) = List.map f (List.concat (List.map references l))).
  { induction 1 as [|e' l He _ IH]; [done|]. simpl. by rewrite He, IH, List.map_app. }
  induction e as [v tok b|tok b|o r tok b|u e tok b IH|u l r tok b IHl IHr|name args tok b IH
    |callee args tok b IHc IH|rows tok b IH] using ast_ind; simpl; try done.
  - by rewrite IHl, IHr, List.map_app.
  - by apply HL.
  - by rewrite IHc, HL, List.map_app.
  - induction IH as [|row rows Hrow _ IH]; [done|]. simpl. by rewrite HL, IH, List.map_app.
Qed.

(** ** What relocation does *)

(** Every axis of the reference moves, or none does. *)
Definition anchors (r : ReferenceType) : list bool :=
  match r with
  | Cell _ p => [row_abs p; col_abs p]
  | Range _ p => [start_row_abs p; start_col_abs p; end_row_abs p; end_col_abs p]
  | _ => [true]
  end.
Definition relative (r : ReferenceType) : Prop := Forall (λ a, a = false) (anchors r).
Definition absolute (r : ReferenceType) : Prop := Forall (λ a, a = true) (anchors r).

(** A relative reference denotes the cells moved by the offset, an absolute one those it denoted. *)
Definition carried (dr dc : Z) (r r' : ReferenceType) : Prop :=
  (relative r → ∀ x y, covers r (x, y) ↔ covers r' (x + dr, y + dc)) ∧ (absolute r → r' = r).

Lemma within_moved lo hi d x :
  within (Z.pred <$> lo) (Z.pred <$> hi) x ↔
  within (Z.pred <$> (moved_axis d false <$> lo)) (Z.pred <$> (moved_axis d false <$> hi)) (x + d).
Proof.
  unfold within, moved_axis. destruct lo as [l|], hi as [h|]; simpl; split; intros [H1 H2]; split; intros z [= <-];
    first [specialize (H1 _ eq_refl)|idtac]; first [specialize (H2 _ eq_refl)|idtac]; lia.
Qed.

Lemma moved_carried dr dc r : carried dr dc r (moved_ref dr dc r).
Proof.
  unfold carried, relative, absolute. destruct r as [s p|s p| | | | |]; simpl.
  - split.
    + intros Ha x y. decompose_Forall_hyps. destruct p; simpl in *; subst. unfold moved_axis.
      split; intros [= ? ?]; f_equal; lia.
    + intros Ha. decompose_Forall_hyps. destruct p; simpl in *; by subst.
  - split.
    + intros Ha x y. decompose_Forall_hyps. destruct p; simpl in *; subst. by rewrite <- !within_moved.
    + intros Ha. decompose_Forall_hyps. destruct p as [[] [] [] []]; simpl in *; by subst.
  - split; [|done]. intros [? _]%Forall_cons. done.
  - split; [|done]. intros [? _]%Forall_cons. done.
  - split; [|done]. intros [? _]%Forall_cons. done.
  - split; [|done]. intros [? _]%Forall_cons. done.
  - split; [|done]. intros [? _]%Forall_cons. done.
Qed.

Lemma forallb_Forall {A} (g : A → bool) l : forallb g l = true ↔ Forall (λ x, g x = true) l.
Proof. rewrite forallb_forall, List.Forall_forall. done. Qed.

Lemma valid_moved dr dc e : Forall valid_ref (references e) → forallb (movable dr dc) (references e) = true →
  Forall valid_ref (references (map_references (moved_ref dr dc) e)).
Proof.
  rewrite forallb_Forall, references_map. intros Hv Hm. apply List.Forall_map.
  induction Hv as [|r l Hr _ IH]; [constructor|]. apply Forall_cons in Hm as [? ?].
  constructor; [by apply movable_valid|by apply IH].
Qed.

(** C19: relocating a formula by an offset succeeds exactly when every reference is a name, or
    a cell or range whose relative bounds stay in 1..2^32 - 1 ([movable]); otherwise the result is a
    [#REF!] error, and the code does not panic.  The result is the formula with each reference replaced
    by the moved one ([moved_ref]): an axis without an anchor is its bound plus the offset, an anchored
    or missing one stays, and so do sheets, names, texts and tokens; so a relative reference denotes
    the cells at the offset, an absolute one the same cells.  Relocating the result again is relocating
    the formula by the sum of the offsets, so relocating it back gives the formula.  The bounds of the
    formula's cells and ranges are nonzero [u32]s, and offsets are between -2^62 and 2^62, so that no
    [i64] sum overflows. *)
Theorem relocation_exact dr dc e : valid_offset dr → valid_offset dc → Forall valid_ref (references e) →
  match relocate_ast_for_template_placement e dr dc with
  | Ok e1 =>
      Forall (λ r, movable dr dc r = true) (references e) ∧ e1 = map_references (moved_ref dr dc) e ∧
      Forall2 (carried dr dc) (references e) (references e1) ∧
      (∀ a b, valid_offset a → valid_offset b → valid_offset (dr + a) → valid_offset (dc + b) →
        relocate_ast_for_template_placement e1 a b = relocate_ast_for_template_placement e (dr + a) (dc + b)) ∧
      relocate_ast_for_template_placement e1 (- dr) (- dc) = Ok e
  | Err err => error_kind err = ErrRef ∧ Exists (λ r, movable dr dc r = false) (references e)
  | Panic => False
  end.
Proof.
  intros Hdr Hdc Hv. rewrite relocate_spec by done. unfold guarded. destruct (forallb _ _) eqn:Hm.
  2: { split; [done|]. apply not_true_iff_false in Hm. rewrite forallb_Forall in Hm.
       apply neg_Forall_Exists_neg in Hm; [|solve_decision]. eapply Exists_impl; [exact Hm|]. intros r. apply not_true_is_false. }
  assert (Hadd : ∀ a b, valid_offset a → valid_offset b → valid_offset (dr + a) → valid_offset (dc + b) →
    relocate_ast_for_template_placement (map_references (moved_ref dr dc) e) a b =
    relocate_ast_for_template_placement e (dr + a) (dc + b)).
  { intros a b ????. rewrite !relocate_spec; [|done..|by apply valid_moved]. f_equal.
    - rewrite references_map. clear. induction (references e); [done|]. simpl. f_equal; [apply movable_add|done].
    - apply map_references_add. apply Forall_true. intros r. apply moved_ref_add. }
  split_and!; [by apply forallb_Forall|done| |done|].
  - rewrite references_map. clear. induction (references e); constructor; [apply moved_carried|done].
  - rewrite Hadd, !Z.add_opp_diag_r, relocate_spec by (done || (unfold valid_offset in *; lia)).
    unfold guarded. rewrite (proj2 (forallb_Forall _ _)).
    + f_equal. rewrite <- (map_references_id e) at 2. rewrite <- (map_references_id e) at 1.
      apply map_references_add. apply Forall_true. intros r. apply moved_ref_zero.
    + rewrite forallb_Forall in Hm. clear Hadd. induction Hv as [|r l Hr _ IH]; [constructor|].
      apply Forall_cons in Hm as [??]. constructor; [|by apply IH]. apply movable_zero; [done|by eapply movable_kind].
Qed.

End formulas.

(** * Witnesses *)

Definition relative_cell : ReferenceType := Cell None {| row := 11; col := 1; row_abs := false; col_abs := false |}.
Definition mixed_range : ReferenceType :=
  Range (Some (str "Data"))
    {| start_row := Some 5; start_col := Some 2; end_row := Some 9; end_col := None;
       start_row_abs := true; start_col_abs := true; end_row_abs := false; end_col_abs := false |}.
Definition sample_relocated : ASTNode :=
  Node (BinaryOp (str "+") (Node (Parser.Reference (str "A11") relative_cell) None false)
    (Node (Parser.Reference (str "Data!$B$5:9") mixed_range) None false)) None false.

Lemma relocation_exact_witness :
  match relocate_ast_for_template_placement sample_relocated 3 1 with
  | Ok e1 =>
      references e1 = [Cell None {| row := 14; col := 2; row_abs := false; col_abs := false |};
        Range (Some (str "Data"))
          {| start_row := Some 5; start_col := Some 2; end_row := Some 12; end_col := None;
             start_row_abs := true; start_col_abs := true; end_row_abs := false; end_col_abs := false |}] ∧
      Forall2 (carried 3 1) (references sample_relocated) (references e1) ∧
      relocate_ast_for_template_placement e1 (-3) (-1) = Ok sample_relocated
  | _ => False
  end.
Proof.
  assert (Hv : Forall valid_ref (references sample_relocated)).
  { repeat apply Forall_cons_2; [| |apply Forall_nil_2]; simpl; unfold valid_opt, sheet_bound, u32_max; naive_solver lia. }
  assert (Ho : valid_offset 3 ∧ valid_offset 1) by (unfold valid_offset; lia).
  pose proof (relocation_exact 3 1 sample_relocated (proj1 Ho) (proj2 Ho) Hv) as H.
  assert (Hc : match relocate_ast_for_template_placement sample_relocated 3 1 with Ok e1 => bool_decide (references e1 =
      [Cell None {| row := 14; col := 2; row_abs := false; col_abs := false |};
        Range (Some (str "Data"))
          {| start_row := Some 5; start_col := Some 2; end_row := Some 12; end_col := None;
             start_row_abs := true; start_col_abs := true; end_row_abs := false; end_col_abs := false |}]) | _ => false end = true)
    by (vm_compute; reflexivity).
  destruct (relocate_ast_for_template_placement sample_relocated 3 1) as [e1|err|]; [|discriminate Hc..].
  apply bool_decide_eq_true in Hc. split; [exact Hc|]. destruct H as (_ & _ & Hc1 & _ & Hb). exact (conj Hc1 Hb).
Defined.
