(* ===== verification/VirtualMembers.v ===== *)
(** Family members without per-cell maps ([crates/formualizer-eval/src/engine/graph/virtual_members.rs]):
    the members whose vertices run consecutively down a column are one run.

    A [BTreeMap] is a [gmap] whose entries are iterated in key order.  The [u32] sums and differences of
    rows, lengths and vertex ids are checked, as in a debug build: overflow, the debug assertions of
    [insert] and an index out of range are [Panic].  Slots are [nat]: there are fewer than the vertex ids,
    so that the source's casts of slots to [u32] are exact.  [members] is a [usize]. *)
From S2P Require Import Prelude IntervalTree.

Local Open Scope Z_scope.

(** Members [0..len] at rows [row0 + i] of column [col], with vertices [first + i]. *)
Record MemberRun : Type := {
  sheet : Z; col : Z; row0 : Z; len : Z; first : Z; template : Z; anchor : Z * Z
}.

(** [FormulaRef::Member]. *)
Record FormulaRef : Type := { member_template : Z; member_anchor : Z * Z }.

Record VirtualMember : Type := { vertex : Z; m_sheet : Z; m_row : Z; m_col : Z; m_formula : FormulaRef }.

#[export] Instance MemberRun_inhabited : Inhabited MemberRun :=
  populate {| sheet := 0; col := 0; row0 := 0; len := 0; first := 0; template := 0; anchor := (0, 0) |}.
#[export] Instance MemberRun_eq_dec : EqDecision MemberRun.
Proof. solve_decision. Defined.
#[export] Instance FormulaRef_eq_dec : EqDecision FormulaRef.
Proof. solve_decision. Defined.
#[export] Instance VirtualMember_eq_dec : EqDecision VirtualMember.
Proof. solve_decision. Defined.

Definition formula (r : MemberRun) : FormulaRef := {| member_template := template r; member_anchor := anchor r |}.
Definition run_vertex (r : MemberRun) (i : Z) : result Empty_set Z := add_u32 (first r) i.
(** [MemberRun::members]. *)
Definition members_of (r : MemberRun) : result Empty_set (list (Z * Z)) :=
  mapM (λ i, v ← run_vertex r i; row ← add_u32 (row0 r) i; Ok (v, row)) (seqZ 0 (len r)).
Definition run_end_row (r : MemberRun) : result Empty_set Z := stop ← add_u32 (row0 r) (len r); sub_u32 stop 1.

(** The members of a run whose sums do not overflow (lemma [members_of_ok]). *)
Definition run_members (r : MemberRun) : list (Z * Z) := (λ i, (first r + i, row0 r + i)) <$> seqZ 0 (len r).

(** The run [{ row0, len, first, ..r }]. *)
Definition with_rows (r : MemberRun) (row0 len first : Z) : MemberRun :=
  {| sheet := sheet r; col := col r; row0 := row0; len := len; first := first; template := template r; anchor := anchor r |}.

(** * [BTreeMap<(u32, u32), V>] *)

Definition cell_le {V} (a b : (Z * Z) * V) : Prop := a.1.1 < b.1.1 ∨ (a.1.1 = b.1.1 ∧ a.1.2 ≤ b.1.2).
#[export] Instance cell_le_dec {V} : RelDecision (@cell_le V).
Proof. unfold cell_le. solve_decision. Defined.
#[export] Instance cell_le_total {V} : Total (@cell_le V).
Proof. intros [[] ?] [[] ?]. unfold cell_le. simpl. lia. Qed.
#[export] Instance cell_le_trans {V} : Transitive (@cell_le V).
Proof. intros [[] ?] [[] ?] [[] ?]. unfold cell_le. simpl. lia. Qed.

Definition cell_entries {V} (m : gmap (Z * Z) V) : list ((Z * Z) * V) := merge_sort cell_le (map_to_list m).

(** [range(..=k).next_back()] and [range(lo..=hi)]. *)
Definition upto_cell (k : Z * Z) {V} (kv : (Z * Z) * V) : Prop := kv.1.1 < k.1 ∨ (kv.1.1 = k.1 ∧ kv.1.2 ≤ k.2).
#[export] Instance upto_cell_dec k {V} (kv : (Z * Z) * V) : Decision (upto_cell k kv).
Proof. unfold upto_cell. apply _. Defined.
Definition last_cell_upto {V} (k : Z * Z) (m : gmap (Z * Z) V) : option ((Z * Z) * V) :=
  last (filter (upto_cell k) (cell_entries m)).
Definition last_vertex_upto {V} (k : Z) (m : gmap Z V) : option (Z * V) := last (range_to m k).

(** * [VirtualMembers] *)

(** A free slot of [runs] has no members and is listed in [free]. *)
Record VirtualMembers : Type := {
  runs : list MemberRun;
  free : list nat;
  cells : gmap Z (gmap (Z * Z) nat);
  vertices : gmap Z nat;
  members : Z
}.

Definition default_members : VirtualMembers := {| runs := []; free := []; cells := ∅; vertices := ∅; members := 0 |}.

Definition is_empty (m : VirtualMembers) : bool := members m =? 0.
Definition len_members (m : VirtualMembers) : Z := members m.
Definition run_count (m : VirtualMembers) : nat := size (vertices m).

Definition slot_of_vertex (m : VirtualMembers) (v : Z) : result Empty_set (option nat) :=
  if members m =? 0 then Ok None
  else
    match last_vertex_upto v (vertices m) with
    | None => Ok None
    | Some (_, slot) =>
        r ← vec_get (runs m) slot;
        i ← sub_u32 v (first r);
        Ok (if i <? len r then Some slot else None)
    end.

Definition slot_of_cell (m : VirtualMembers) (sheet row col : Z) : result Empty_set (option nat) :=
  if members m =? 0 then Ok None
  else
    match cells m !! sheet with
    | None => Ok None
    | Some map =>
        match last_cell_upto (col, row) map with
        | None => Ok None
        | Some ((c, _), slot) =>
            if negb (c =? col) then Ok None
            else
              r ← vec_get (runs m) slot;
              stop ← run_end_row r;
              Ok (if row <=? stop then Some slot else None)
        end
    end.

Definition member (r : MemberRun) (i : Z) : result Empty_set VirtualMember :=
  v ← run_vertex r i;
  row ← add_u32 (row0 r) i;
  Ok {| vertex := v; m_sheet := sheet r; m_row := row; m_col := col r; m_formula := formula r |}.

Definition contains_vertex (m : VirtualMembers) (v : Z) : result Empty_set bool :=
  (λ slot, bool_decide (is_Some slot)) <$> slot_of_vertex m v.

Definition by_vertex (m : VirtualMembers) (v : Z) : result Empty_set (option VirtualMember) :=
  slot ← slot_of_vertex m v;
  match slot with
  | None => Ok None
  | Some slot => r ← vec_get (runs m) slot; i ← sub_u32 v (first r); Some <$> member r i
  end.

Definition by_cell (m : VirtualMembers) (sheet row col : Z) : result Empty_set (option VirtualMember) :=
  slot ← slot_of_cell m sheet row col;
  match slot with
  | None => Ok None
  | Some slot => r ← vec_get (runs m) slot; i ← sub_u32 row (row0 r); Some <$> member r i
  end.

Definition run_of (m : VirtualMembers) (v : Z) : result Empty_set (option MemberRun) :=
  slot ← slot_of_vertex m v;
  match slot with
  | None => Ok None
  | Some slot => Some <$> vec_get (runs m) slot
  end.

(** [entry(sheet).or_default().insert(key, slot)]. *)
Definition insert_cell (sheet : Z) (key : Z * Z) (slot : nat) (c : gmap Z (gmap (Z * Z) nat)) :=
  <[sheet := <[key := slot]> (default ∅ (c !! sheet))]> c.

(** [free.pop()] takes the last. *)
Definition insert (run : MemberRun) (m : VirtualMembers) : result Empty_set VirtualMembers :=
  first_slot ← slot_of_vertex m (first run);
  stop ← add_u32 (first run) (len run);
  last_id ← sub_u32 stop 1;
  last_slot ← slot_of_vertex m last_id;
  if (len run <=? 0) || bool_decide (is_Some first_slot) || bool_decide (is_Some last_slot) then Panic
  else
    '(slot, runs, free) ←
      match last (free m) with
      | Some s => runs ← vec_set (runs m) s run; Ok (s, runs, removelast (free m))
      | None => Ok (length (runs m), runs m ++ [run], free m)
      end;
    Ok {| runs := runs; free := free;
          cells := insert_cell (sheet run) (col run, row0 run) slot (cells m);
          vertices := <[first run := slot]> (vertices m);
          members := members m + len run |}.

Definition remove_cell (sheet : Z) (key : Z * Z) (c : gmap Z (gmap (Z * Z) nat)) :=
  match c !! sheet with
  | None => c
  | Some map =>
      let map := delete key map in
      if bool_decide (map = ∅) then delete sheet c else <[sheet := map]> c
  end.

Definition remove_slot (slot : nat) (m : VirtualMembers) : result Empty_set (MemberRun * VirtualMembers) :=
  r ← vec_get (runs m) slot;
  runs ← vec_set (runs m) slot (with_rows r (row0 r) 0 (first r));
  Ok (r, {| runs := runs; free := free m ++ [slot];
            cells := remove_cell (sheet r) (col r, row0 r) (cells m);
            vertices := delete (first r) (vertices m);
            members := members m - len r |}).

Definition clear (m : VirtualMembers) : VirtualMembers := default_members.
Definition clear_if_empty (m : VirtualMembers) : VirtualMembers := if members m =? 0 then clear m else m.

Definition remove_run (first : Z) (m : VirtualMembers) : result Empty_set (option MemberRun * VirtualMembers) :=
  match vertices m !! first with
  | None => Ok (None, m)
  | Some slot => '(r, m) ← remove_slot slot m; Ok (Some r, clear_if_empty m)
  end.

(** The members of a run behind member [i]. *)
Definition run_behind (r : MemberRun) (i : Z) : result Empty_set MemberRun :=
  row ← add_u32 (row0 r) i;
  row ← add_u32 row 1;
  v ← add_u32 (first r) i;
  v ← add_u32 v 1;
  n ← sub_u32 (len r) i;
  n ← sub_u32 n 1;
  Ok (with_rows r row n v).

(** [take]: the member leaves, and what is before and after it stay as two runs. *)
Definition take (v : Z) (m : VirtualMembers) : result Empty_set (option VirtualMember * VirtualMembers) :=
  slot ← slot_of_vertex m v;
  match slot with
  | None => Ok (None, m)
  | Some slot =>
      '(r, m) ← remove_slot slot m;
      i ← sub_u32 v (first r);
      m ← (if 0 <? i then insert (with_rows r (row0 r) i (first r)) m else Ok m);
      next ← add_u32 i 1;
      m ← (if next <? len r then tail ← run_behind r i; insert tail m else Ok m);
      x ← member r i;
      Ok (Some x, clear_if_empty m)
  end.

(** The runs of slots, in order. *)
Fixpoint at_slots (m : VirtualMembers) (slots : list nat) : result Empty_set (list MemberRun) :=
  match slots with
  | [] => Ok []
  | s :: slots => r ← vec_get (runs m) s; l ← at_slots m slots; Ok (r :: l)
  end.

Definition live_runs (m : VirtualMembers) : result Empty_set (list MemberRun) := at_slots m (snd <$> entries (vertices m)).
Definition runs_in_sheet (m : VirtualMembers) (sheet : Z) : result Empty_set (list MemberRun) :=
  match cells m !! sheet with
  | None => Ok []
  | Some map => at_slots m (snd <$> cell_entries map)
  end.
(** [range] with its bounds out of order panics. *)
Definition runs_in_cols (m : VirtualMembers) (sheet c0 c1 : Z) : result Empty_set (list MemberRun) :=
  match cells m !! sheet with
  | None => Ok []
  | Some map =>
      if c1 <? c0 then Panic
      else at_slots m (snd <$> filter (λ kv, upto_cell (c1, u32_max) kv ∧ ¬ (kv.1.1 < c0 ∨ (kv.1.1 = c0 ∧ kv.1.2 < 0))) (cell_entries map))
  end.

Definition drain (m : VirtualMembers) : result Empty_set (list MemberRun * VirtualMembers) :=
  out ← live_runs m; Ok (out, clear m).

Fixpoint remove_slots (slots : list nat) (m : VirtualMembers) : result Empty_set (list MemberRun * VirtualMembers) :=
  match slots with
  | [] => Ok ([], m)
  | s :: slots => '(r, m) ← remove_slot s m; '(out, m) ← remove_slots slots m; Ok (r :: out, m)
  end.

Definition drain_sheet (sheet : Z) (m : VirtualMembers) : result Empty_set (list MemberRun * VirtualMembers) :=
  match cells m !! sheet with
  | None => Ok ([], m)
  | Some map => '(out, m) ← remove_slots (snd <$> cell_entries map) m; Ok (out, clear_if_empty m)
  end.

Definition iter (m : VirtualMembers) : result Empty_set (list VirtualMember) :=
  rs ← live_runs m; mjoin <$> mapM (λ r, mapM (member r) (seqZ 0 (len r))) rs.

Definition with_template (map : Z → Z) (r : MemberRun) : MemberRun :=
  {| sheet := sheet r; col := col r; row0 := row0 r; len := len r; first := first r; template := map (template r); anchor := anchor r |}.

Fixpoint remap_slots (map : Z → Z) (slots : list nat) (rs : list MemberRun) : result Empty_set (list MemberRun) :=
  match slots with
  | [] => Ok rs
  | s :: slots => r ← vec_get rs s; rs ← vec_set rs s (with_template map r); remap_slots map slots rs
  end.
Definition remap (map : Z → Z) (m : VirtualMembers) : result Empty_set VirtualMembers :=
  rs ← remap_slots map (snd <$> entries (vertices m)) (runs m);
  Ok {| runs := rs; free := free m; cells := cells m; vertices := vertices m; members := members m |}.

(** * Lemmas *)

Lemma members_of_ok r : first r + len r ≤ u32_max → row0 r + len r ≤ u32_max → members_of r = Ok (run_members r).
Proof.
  intros Hv Hr. apply mapM_ok. intros i Hi%elem_of_seqZ. unfold run_vertex. rewrite add_u32_ok by lia. cbn [mbind result_bind].
  by rewrite add_u32_ok by lia.
Qed.
