(* ===== verification/VirtualTheorems.v ===== *)
(** The runs of family members refine a finite map from vertices to members: whatever runs are added,
    split, removed and drained, a lookup by vertex or by cell finds exactly the members that are left. *)
From S2P Require Import Prelude IntervalTree VirtualMembers.

Local Open Scope Z_scope.

(** * The entry before a key *)

Lemma last_filter_sorted {A} (R : A → A → Prop) (P : A → Prop) `{∀ x, Decision (P x)} l :
  StronglySorted R l →
  match last (filter P l) with
  | Some x => x ∈ l ∧ P x ∧ ∀ y, y ∈ l → P y → y = x ∨ R y x
  | None => ∀ y, y ∈ l → ¬ P y
  end.
Proof.
  intros Hs. pose proof (sorted_filter R P l Hs) as Hf.
  assert (Hin : ∀ y, y ∈ filter P l ↔ P y ∧ y ∈ l) by (intros; apply list_elem_of_filter).
  destruct (last (filter P l)) as [x|] eqn:E.
  - apply last_Some in E as [l' E]. rewrite E in *. destruct (proj1 (Hin x)) as [Hx Hxl]; [set_solver|].
    split_and!; [done..|]. intros y Hy HP. assert (Hy' : y ∈ l' ++ [x]) by (by apply Hin).
    apply elem_of_app in Hy' as [Hy'|Hy']; [right|left; set_solver].
    clear -Hf Hy'. induction l' as [|z l' IH]; [by apply elem_of_nil in Hy'|]. inversion Hf; subst.
    apply elem_of_cons in Hy' as [->|Hy']; [|by apply IH]. rewrite Forall_forall in *. set_solver.
  - apply last_None in E. intros y Hy HP. assert (Hy' : y ∈ filter P l) by (by apply Hin). rewrite E in Hy'. set_solver.
Qed.

Lemma last_vertex_spec {V} (m : gmap Z V) v :
  match last_vertex_upto v m with
  | Some (f, x) => m !! f = Some x ∧ f ≤ v ∧ ∀ f' x', m !! f' = Some x' → f' ≤ v → f' ≤ f
  | None => ∀ f x, m !! f = Some x → v < f
  end.
Proof.
  unfold last_vertex_upto, range_to, entries.
  pose proof (last_filter_sorted key_le (λ kv : Z * V, kv.1 ≤ v) (merge_sort key_le (map_to_list m))) as H.
  assert (Hin : ∀ p, p ∈ merge_sort key_le (map_to_list m) ↔ m !! p.1 = Some p.2).
  { intros [k x]. by rewrite merge_sort_Permutation, elem_of_map_to_list. }
  specialize (H (StronglySorted_merge_sort _ _)). destruct (last _) as [[f x]|].
  - destruct H as (Hx & Hle & Hmax). apply Hin in Hx. split_and!; [done..|]. intros f' x' Hf' Hle'.
    destruct (Hmax (f', x')) as [[= -> ->]|H]; [by apply Hin|done|done|done].
  - intros f x Hf. destruct (decide (v < f)); [done|]. destruct (H (f, x)); [by apply Hin|simpl; lia].
Qed.

Lemma last_cell_spec {V} (m : gmap (Z * Z) V) c r :
  match last_cell_upto (c, r) m with
  | Some ((c', r'), x) => m !! (c', r') = Some x ∧ (c' < c ∨ c' = c ∧ r' ≤ r) ∧
      ∀ r'' x', m !! (c, r'') = Some x' → r'' ≤ r → c' = c ∧ r'' ≤ r'
  | None => ∀ r' x, m !! (c, r') = Some x → r < r'
  end.
Proof.
  unfold last_cell_upto, cell_entries.
  pose proof (last_filter_sorted cell_le (upto_cell (c, r)) (merge_sort cell_le (map_to_list m))) as H.
  assert (Hin : ∀ p, p ∈ merge_sort cell_le (map_to_list m) ↔ m !! p.1 = Some p.2).
  { intros [k x]. by rewrite merge_sort_Permutation, elem_of_map_to_list. }
  specialize (H (StronglySorted_merge_sort _ _)). destruct (last _) as [[[c' r'] x]|].
  - destruct H as (Hx & Hle & Hmax). apply Hin in Hx. split_and!; [done..|]. intros r'' x' Hf' Hle'.
    destruct (Hmax ((c, r''), x')) as [[= -> -> ->]|H]; [by apply Hin|right; simpl; lia|done|].
    unfold cell_le in H. unfold upto_cell in Hle. simpl in *. lia.
  - intros r' x Hf. destruct (decide (r < r')); [done|]. destruct (H ((c, r'), x)); [by apply Hin|right; simpl; lia].
Qed.

(** * The live runs *)

(** The vertex ids and rows of a run, and the ones behind them, are [u32]s. *)
Definition sums_fit (r : MemberRun) : Prop :=
  0 ≤ first r ∧ first r + len r ≤ u32_max ∧ 0 ≤ row0 r ∧ row0 r + len r ≤ u32_max.

(** Member [i] of a run, without the overflow checks. *)
Definition member_at (r : MemberRun) (i : Z) : VirtualMember :=
  {| vertex := first r + i; m_sheet := sheet r; m_row := row0 r + i; m_col := col r; m_formula := formula r |}.

Lemma member_at_ok r i : sums_fit r → i ≤ len r → member r i = Ok (member_at r i).
Proof. intros Hr Hi. unfold sums_fit, member, run_vertex in *. rewrite add_u32_ok by lia. cbn [mbind result_bind]. by rewrite add_u32_ok by lia. Qed.

Lemma run_end_row_ok r : sums_fit r → 0 < len r → run_end_row r = Ok (row0 r + len r - 1).
Proof.
  intros Hr Hl. unfold sums_fit, run_end_row in *. rewrite add_u32_ok by lia. cbn [mbind result_bind]. by rewrite sub_u32_ok by lia.
Qed.

Lemma run_behind_ok r i : sums_fit r → 0 ≤ i → i + 1 < len r →
  run_behind r i = Ok (with_rows r (row0 r + i + 1) (len r - i - 1) (first r + i + 1)).
Proof.
  intros Hr H0 Hi. unfold sums_fit, run_behind in *.
  repeat first [rewrite add_u32_ok by lia | rewrite sub_u32_ok by lia | progress cbn [mbind result_bind]]. done.
Qed.

(** Runs keyed by their first vertices, with no vertex and no cell in two of them. *)
Record wf (R : gmap Z MemberRun) : Prop := {
  wf_key f r : R !! f = Some r → first r = f ∧ 0 < len r;
  wf_sums f r : R !! f = Some r → sums_fit r;
  wf_vertices f r f' r' : R !! f = Some r → R !! f' = Some r' → f < f' → f + len r ≤ f';
  wf_cells f r f' r' : R !! f = Some r → R !! f' = Some r' → f ≠ f' → sheet r = sheet r' → col r = col r' →
    row0 r + len r ≤ row0 r' ∨ row0 r' + len r' ≤ row0 r
}.

Definition total (R : gmap Z MemberRun) : Z := map_fold (λ _ r n, len r + n) 0 R.

Lemma total_insert R f r : R !! f = None → total (<[f := r]> R) = len r + total R.
Proof. intros H. unfold total. rewrite map_fold_insert_L; [done|lia|done]. Qed.
Lemma total_delete R f r : R !! f = Some r → total R = len r + total (delete f R).
Proof. intros H. rewrite <- (total_insert (delete f R) f r) by apply lookup_delete_eq. by rewrite insert_delete_id. Qed.

Lemma wf_delete R f : wf R → wf (delete f R).
Proof.
  intros [H1 H0 H2 H3]. split.
  - intros g r [_ Hg]%lookup_delete_Some. by apply H1.
  - intros g r [_ Hg]%lookup_delete_Some. by eapply H0.
  - intros g r g' r' [_ Hg]%lookup_delete_Some [_ Hg']%lookup_delete_Some. by eapply H2.
  - intros g r g' r' [_ Hg]%lookup_delete_Some [_ Hg']%lookup_delete_Some. by eapply H3.
Qed.

Lemma total_pos R : wf R → 0 ≤ total R ∧ (total R = 0 → R = ∅).
Proof.
  induction R as [|f r R Hf IH] using map_ind; [done|]. intros Hw.
  assert (HR : wf R) by (rewrite <- (delete_insert_id R f r Hf); by apply wf_delete).
  destruct (IH HR) as [IH1 _]. rewrite total_insert by done. destruct (wf_key _ Hw f r (lookup_insert_eq _ _ _)). lia.
Qed.

(** [cells[sheet][key]]. *)
Definition cell_slot (c : gmap Z (gmap (Z * Z) nat)) (sheet : Z) (key : Z * Z) : option nat := map ← c !! sheet; map !! key.

(** The slab and its two indices hold the runs. *)
Record stored (m : VirtualMembers) (R : gmap Z MemberRun) : Prop := {
  st_vertices f : match vertices m !! f, R !! f with
    | Some s, Some r => runs m !! s = Some r
    | None, None => True
    | _, _ => False
    end;
  st_cells sh key s : cell_slot (cells m) sh key = Some s ↔
    ∃ f r, R !! f = Some r ∧ vertices m !! f = Some s ∧ sheet r = sh ∧ key = (col r, row0 r);
  st_sheets sh map : cells m !! sh = Some map → map ≠ ∅;
  st_free : NoDup (free m);
  st_unused s : s ∈ free m → (s < length (runs m))%nat ∧ ∀ f, vertices m !! f ≠ Some s;
  st_members : members m = total R
}.

Lemma stored_run m R f r : stored m R → R !! f = Some r → ∃ s, vertices m !! f = Some s ∧ runs m !! s = Some r.
Proof. intros H Hf. pose proof (st_vertices _ _ H f) as Hv. rewrite Hf in Hv. destruct (vertices m !! f) as [s|]; [by exists s|done]. Qed.
Lemma stored_slot m R f s : stored m R → vertices m !! f = Some s → ∃ r, R !! f = Some r ∧ runs m !! s = Some r.
Proof. intros H Hf. pose proof (st_vertices _ _ H f) as Hv. rewrite Hf in Hv. destruct (R !! f) as [r|]; [by exists r|done]. Qed.
Lemma stored_inj m R f f' s : wf R → stored m R → vertices m !! f = Some s → vertices m !! f' = Some s → f = f'.
Proof.
  intros Hw H Hf Hf'. destruct (stored_slot m R f s H Hf) as (r & Hr & Hs), (stored_slot m R f' s H Hf') as (r' & Hr' & Hs').
  rewrite Hs in Hs'. injection Hs' as <-. destruct (wf_key _ Hw _ _ Hr), (wf_key _ Hw _ _ Hr'). congruence.
Qed.

Lemma vm_vec_get_some {E A} (l : list A) i x : l !! i = Some x → @vec_get E A l i = Ok x.
Proof. unfold vec_get. by intros ->. Qed.

(** ** Lookups *)

Definition in_run (r : MemberRun) (v : Z) : Prop := first r ≤ v < first r + len r.
Definition in_cells (r : MemberRun) (sh row c : Z) : Prop := sheet r = sh ∧ col r = c ∧ row0 r ≤ row < row0 r + len r.

Lemma slot_of_vertex_spec m R v : wf R → stored m R →
  ∃ o, slot_of_vertex m v = Ok o ∧
  match o with
  | Some s => ∃ f r, R !! f = Some r ∧ vertices m !! f = Some s ∧ runs m !! s = Some r ∧ in_run r v
  | None => ∀ f r, R !! f = Some r → ¬ in_run r v
  end.
Proof.
  intros Hw Hst. unfold slot_of_vertex. rewrite (st_members _ _ Hst). destruct (Z.eqb_spec (total R) 0) as [E|_].
  { exists None. split; [done|]. apply total_pos in E as ->; [|done]. intros f r. by rewrite lookup_empty. }
  pose proof (last_vertex_spec (vertices m) v) as H. destruct (last_vertex_upto v (vertices m)) as [[f s]|].
  2: { exists None. split; [done|]. intros f r Hf Hin. destruct (stored_run _ _ _ _ Hst Hf) as (s & Hs & _).
       destruct (wf_key _ Hw _ _ Hf) as [<- _]. apply H in Hs. unfold in_run in Hin. lia. }
  destruct H as (Hf & Hle & Hmax). destruct (stored_slot _ _ _ _ Hst Hf) as (r & Hr & Hs).
  rewrite (vm_vec_get_some _ _ _ Hs). cbn [mbind result_bind]. destruct (wf_key _ Hw _ _ Hr) as [Hk Hlen].
  rewrite sub_u32_ok by lia. cbn [mbind result_bind].
  destruct (Z.ltb_spec (v - first r) (len r)); eexists; (split; [reflexivity|]).
  - exists f, r. unfold in_run. split_and!; done || lia.
  - intros f' r' Hf' Hin. destruct (wf_key _ Hw _ _ Hf') as [<- _]. destruct (stored_run _ _ _ _ Hst Hf') as (s' & Hs' & _).
    unfold in_run in Hin. pose proof (Hmax _ _ Hs' ltac:(lia)) as Hle'. destruct (decide (first r' = f)) as [E|E].
    + rewrite E in Hf'. rewrite Hr in Hf'. injection Hf' as <-. lia.
    + pose proof (wf_vertices _ Hw _ _ _ _ Hf' Hr ltac:(lia)). lia.
Qed.

Lemma slot_of_cell_spec m R sh row c : wf R → stored m R →
  ∃ o, slot_of_cell m sh row c = Ok o ∧
  match o with
  | Some s => ∃ f r, R !! f = Some r ∧ vertices m !! f = Some s ∧ runs m !! s = Some r ∧ in_cells r sh row c
  | None => ∀ f r, R !! f = Some r → ¬ in_cells r sh row c
  end.
Proof.
  intros Hw Hst. unfold slot_of_cell. rewrite (st_members _ _ Hst). destruct (Z.eqb_spec (total R) 0) as [E|_].
  { exists None. split; [done|]. apply total_pos in E as ->; [|done]. intros f r. by rewrite lookup_empty. }
  assert (Hcell : ∀ f r, R !! f = Some r → ∃ map s, cells m !! sheet r = Some map ∧ map !! (col r, row0 r) = Some s).
  { intros f r Hf. destruct (stored_run _ _ _ _ Hst Hf) as (s & Hs & _).
    assert (H : cell_slot (cells m) (sheet r) (col r, row0 r) = Some s) by (apply (st_cells _ _ Hst); eauto 10).
    apply bind_Some in H as (map & ? & ?). eauto. }
  destruct (cells m !! sh) as [map|] eqn:Em.
  2: { exists None. split; [done|]. intros f r Hf (<- & _). destruct (Hcell f r Hf) as (map & _ & Hm & _). congruence. }
  pose proof (last_cell_spec map c row) as H. destruct (last_cell_upto (c, row) map) as [[[c' r'] s]|].
  2: { exists None. split; [done|]. intros f r Hf (<- & <- & Hrow). destruct (Hcell f r Hf) as (map' & s & Hm & Hs).
       rewrite Em in Hm. injection Hm as <-. apply H in Hs. lia. }
  destruct H as (Hs & Hle & Hmax).
  assert (Hothers : ∀ f r, R !! f = Some r → in_cells r sh row c → c' = c ∧ row0 r ≤ r').
  { intros f r Hf (<- & <- & Hrow). destruct (Hcell f r Hf) as (map' & s' & Hm & Hs').
    rewrite Em in Hm. injection Hm as <-. apply (Hmax _ _ Hs'). lia. }
  destruct (Z.eqb_spec c' c) as [->|Hc]; cbn [negb].
  2: { exists None. split; [done|]. intros f r Hf Hin. by destruct (Hothers f r Hf Hin). }
  assert (Hslot : cell_slot (cells m) sh (c, r') = Some s) by (unfold cell_slot; by rewrite Em).
  apply (st_cells _ _ Hst) in Hslot as (f & r & Hf & Hv & Hsh & [= Hcol Hrow0]).
  destruct (stored_slot _ _ _ _ Hst Hv) as (r2 & Hr2 & Hr). rewrite Hf in Hr2. injection Hr2 as <-.
  rewrite (vm_vec_get_some _ _ _ Hr). cbn [mbind result_bind].
  rewrite run_end_row_ok by (by apply (wf_sums _ Hw f r) || by destruct (wf_key _ Hw _ _ Hf)). cbn [mbind result_bind].
  destruct (Z.leb_spec row (row0 r + len r - 1)); eexists; (split; [reflexivity|]).
  - exists f, r. unfold in_cells. split_and!; done || lia.
  - intros f' r0 Hf' Hin. destruct (Hothers _ _ Hf' Hin) as [_ Hle']. destruct Hin as (E1 & E2 & E3).
    destruct (decide (f = f')) as [<-|Hne]; [rewrite Hf in Hf'; injection Hf' as <-; lia|].
    destruct (wf_key _ Hw _ _ Hf) as [_ ?]. pose proof (wf_cells _ Hw _ _ _ _ Hf Hf' Hne ltac:(congruence) ltac:(congruence)). lia.
Qed.

(** ** Adding and removing a run *)

Lemma cell_slot_insert c sh key s sh' key' :
  cell_slot (insert_cell sh key s c) sh' key' = if decide (sh' = sh ∧ key' = key) then Some s else cell_slot c sh' key'.
Proof.
  unfold cell_slot, insert_cell. destruct (decide (sh' = sh)) as [->|Hs].
  - rewrite lookup_insert_eq. simpl. destruct (decide (key' = key)) as [->|Hk].
    + by rewrite lookup_insert_eq, decide_True.
    + rewrite lookup_insert_ne by done. rewrite decide_False by tauto. by destruct (c !! sh).
  - rewrite lookup_insert_ne by done. by rewrite decide_False by tauto.
Qed.

Lemma cell_slot_remove c sh key sh' key' :
  cell_slot (remove_cell sh key c) sh' key' = if decide (sh' = sh ∧ key' = key) then None else cell_slot c sh' key'.
Proof.
  unfold cell_slot, remove_cell. destruct (c !! sh) as [map|] eqn:Em.
  2: { case_decide as E; [|done]. destruct E as [-> ->]. by rewrite Em. }
  destruct (decide (sh' = sh)) as [->|Hs].
  - rewrite Em. simpl. assert (Hd : delete key map !! key' = if decide (sh = sh ∧ key' = key) then None else map !! key').
    { case_decide as E; [destruct E as [_ ->]; apply lookup_delete_eq|]. rewrite lookup_delete_ne; [done|]. intros ->. by destruct E. }
    rewrite <- Hd. case_bool_decide as E; [rewrite lookup_delete_eq; simpl; by rewrite E, lookup_empty|by rewrite lookup_insert_eq].
  - rewrite decide_False by tauto. case_bool_decide; [by rewrite lookup_delete_ne|by rewrite lookup_insert_ne].
Qed.

Lemma insert_cell_sheets c sh key s : (∀ sh' map, c !! sh' = Some map → map ≠ ∅) →
  ∀ sh' map, insert_cell sh key s c !! sh' = Some map → map ≠ ∅.
Proof.
  intros H sh' map. unfold insert_cell. destruct (decide (sh' = sh)) as [->|Hs].
  - rewrite lookup_insert_eq. intros [= <-]. apply insert_non_empty.
  - rewrite lookup_insert_ne by done. apply H.
Qed.
Lemma remove_cell_sheets c sh key : (∀ sh' map, c !! sh' = Some map → map ≠ ∅) →
  ∀ sh' map, remove_cell sh key c !! sh' = Some map → map ≠ ∅.
Proof.
  intros H sh' map. unfold remove_cell. destruct (c !! sh) as [old|] eqn:E; [|apply H].
  case_bool_decide as Ed.
  - intros [_ Hm]%lookup_delete_Some. by eapply H.
  - destruct (decide (sh' = sh)) as [->|Hs]; [rewrite lookup_insert_eq; by intros [= <-]|].
    rewrite lookup_insert_ne by done. apply H.
Qed.

Lemma slot_unused m R f s : stored m R → s ∈ free m → vertices m !! f = Some s → False.
Proof. intros H Hs Hf. destruct (st_unused _ _ H s Hs) as [_ Hn]. by apply (Hn f). Qed.

(** A slot that no run has: the last free one, or a new one. *)
Lemma insert_slot m R run : stored m R →
  ∃ slot runs' free',
    (match last (free m) with
     | Some s => runs ← vec_set (runs m) s run; Ok (s, runs, removelast (free m))
     | None => Ok (length (runs m), runs m ++ [run], free m)
     end) = Ok (E := Empty_set) (slot, runs', free') ∧
    runs' !! slot = Some run ∧ (∀ s, s ≠ slot → (s < length (runs m))%nat → runs' !! s = runs m !! s) ∧ (length (runs m) ≤ length runs')%nat ∧
    (∀ f, vertices m !! f ≠ Some slot) ∧ NoDup free' ∧ (slot ∉ free') ∧ (∀ s, s ∈ free' → s ∈ free m) ∧ (slot < length runs')%nat.
Proof.
  intros Hst. destruct (last (free m)) as [s|] eqn:E.
  - apply last_Some in E as [l E]. assert (Hs : s ∈ free m) by (rewrite E; set_solver).
    destruct (st_unused _ _ Hst s Hs) as [Hlt Hn]. rewrite vec_set_ok by done. rewrite E, removelast_last.
    pose proof (st_free _ _ Hst) as Hnd. rewrite E in Hnd. apply NoDup_app in Hnd as (Hnd & Hd & _).
    eexists _, _, _. split; [reflexivity|]. rewrite length_insert. split_and!; try done.
    + by apply list_lookup_insert_eq.
    + intros s' Hne _. by apply list_lookup_insert_ne.
    + intros Hin. apply (Hd s Hin). set_solver.
    + set_solver.
  - eexists _, _, _. split; [reflexivity|]. rewrite length_app. simpl. split_and!; try done; try lia.
    + by rewrite list_lookup_middle.
    + intros s Hne Hlt. by rewrite lookup_app_l.
    + intros f Hf. destruct (stored_slot _ _ _ _ Hst Hf) as (r & _ & Hr%lookup_lt_Some). lia.
    + apply (st_free _ _ Hst).
    + intros Hin. destruct (st_unused _ _ Hst _ Hin). lia.
Qed.

Lemma vm_insert_ok m R run : wf R → stored m R → R !! first run = None → wf (<[first run := run]> R) →
  ∃ m', insert run m = Ok m' ∧ stored m' (<[first run := run]> R).
Proof.
  intros Hw Hst Hnone Hw'. unfold insert. pose proof (lookup_insert_eq R (first run) run) as Hrun.
  destruct (wf_key _ Hw' _ _ Hrun) as [_ Hlen]. pose proof (wf_sums _ Hw' _ _ Hrun) as Hfit.
  assert (Hout : ∀ f r v, R !! f = Some r → in_run run v → ¬ in_run r v).
  { intros f r v Hf Hv Hr. assert (Hne : f ≠ first run) by congruence. assert (Hf' : <[first run := run]> R !! f = Some r) by (by rewrite lookup_insert_ne).
    destruct (wf_key _ Hw' _ _ Hf') as [E _]. unfold in_run in *.
    destruct (decide (f < first run)); [pose proof (wf_vertices _ Hw' _ _ _ _ Hf' Hrun ltac:(done))|pose proof (wf_vertices _ Hw' _ _ _ _ Hrun Hf' ltac:(lia))]; lia. }
  assert (Hslot : ∀ v, in_run run v → slot_of_vertex m v = Ok None).
  { intros v Hv. destruct (slot_of_vertex_spec m R v Hw Hst) as ([s|] & -> & Ho); [|done].
    destruct Ho as (f & r & Hf & _ & _ & Hr). by destruct (Hout f r v). }
  rewrite (Hslot (first run)) by (unfold in_run; lia). cbn [mbind result_bind]. unfold sums_fit in Hfit.
  rewrite add_u32_ok by lia. cbn [mbind result_bind]. rewrite sub_u32_ok by lia. cbn [mbind result_bind].
  rewrite Hslot by (unfold in_run; lia). cbn [mbind result_bind].
  rewrite (proj2 (Z.leb_gt _ _)) by done. cbn [orb]. rewrite bool_decide_eq_false_2 by (by intros []). cbn [orb].
  destruct (insert_slot m R run Hst) as (slot & runs' & free' & -> & Hnew & Hold & Hlen' & Hv & Hnd & Hfree & Hsub & Hlt).
  cbn [mbind result_bind]. eexists. split; [reflexivity|]. split; cbn [vertices runs cells free members].
  - intros f. destruct (decide (f = first run)) as [->|Hne]; [by rewrite !lookup_insert_eq|].
    rewrite !lookup_insert_ne by done. pose proof (st_vertices _ _ Hst f) as H.
    destruct (vertices m !! f) as [s|] eqn:Es, (R !! f); try done. rewrite Hold; [done| |by eapply lookup_lt_Some].
    intros ->. by apply (Hv f).
  - intros sh key s. rewrite cell_slot_insert. case_decide as E.
    + destruct E as [-> ->]. split.
      * intros [= <-]. exists (first run), run. by rewrite !lookup_insert_eq.
      * intros (f & r & Hf & Hs & Hsh & [= Hc Hr0]). destruct (decide (f = first run)) as [->|Hne].
        { rewrite lookup_insert_eq in Hs. congruence. }
        destruct (wf_key _ Hw' _ _ Hf) as [_ ?]. pose proof (wf_cells _ Hw' _ _ _ _ Hf Hrun Hne ltac:(congruence) ltac:(congruence)). lia.
    + rewrite (st_cells _ _ Hst). split.
      * intros (f & r & Hf & Hs & Hsh & Hk). assert (f ≠ first run) by congruence. exists f, r. by rewrite !lookup_insert_ne.
      * intros (f & r & Hf & Hs & Hsh & Hk). destruct (decide (f = first run)) as [->|Hne].
        { rewrite lookup_insert_eq in Hf. injection Hf as <-. by destruct E. }
        rewrite lookup_insert_ne in Hf by done; rewrite lookup_insert_ne in Hs by done. eauto 10.
  - apply insert_cell_sheets. apply (st_sheets _ _ Hst).
  - done.
  - intros s Hs. destruct (st_unused _ _ Hst s (Hsub s Hs)) as [? Hn]. split; [lia|]. intros f.
    destruct (decide (f = first run)) as [->|Hne]; [rewrite lookup_insert_eq; congruence|]. by rewrite lookup_insert_ne.
  - rewrite total_insert, (st_members _ _ Hst) by done. lia.
Qed.

Lemma remove_slot_ok m R f r s : wf R → stored m R → R !! f = Some r → vertices m !! f = Some s →
  ∃ m', remove_slot s m = Ok (r, m') ∧ stored m' (delete f R).
Proof.
  intros Hw Hst Hf Hs. destruct (wf_key _ Hw _ _ Hf) as [Hk Hlen].
  destruct (stored_slot _ _ _ _ Hst Hs) as (r2 & Hr2 & Hr). rewrite Hf in Hr2. injection Hr2 as <-.
  pose proof (lookup_lt_Some _ _ _ Hr) as Hlt. unfold remove_slot.
  rewrite (vm_vec_get_some _ _ _ Hr). cbn [mbind result_bind]. rewrite vec_set_ok by done. cbn [mbind result_bind].
  rewrite Hk. eexists. split; [reflexivity|].
  assert (Hother : ∀ g, g ≠ f → vertices m !! g ≠ Some s) by (intros g Hg Hgs; by destruct (Hg (stored_inj _ _ _ _ _ Hw Hst Hgs Hs))).
  split; cbn [vertices runs cells free members].
  - intros g. destruct (decide (g = f)) as [->|Hne]; [by rewrite !lookup_delete_eq|].
    rewrite !lookup_delete_ne by done. pose proof (st_vertices _ _ Hst g) as H. destruct (vertices m !! g) as [s'|] eqn:Es, (R !! g); try done.
    rewrite list_lookup_insert_ne; [done|]. intros <-. by apply (Hother g).
  - intros sh key s'. rewrite cell_slot_remove. case_decide as E.
    + destruct E as [-> ->]. split; [done|]. intros (g & r' & [Hne Hg]%lookup_delete_Some & Hgs & Hsh & [= Hc Hr0]).
      destruct (wf_key _ Hw _ _ Hg) as [_ ?]. pose proof (wf_cells _ Hw _ _ _ _ Hf Hg Hne ltac:(congruence) ltac:(congruence)). lia.
    + rewrite (st_cells _ _ Hst). split.
      * intros (g & r' & Hg & Hgs & Hsh & Hkey). exists g, r'. destruct (decide (g = f)) as [->|Hne].
        { rewrite Hf in Hg. injection Hg as <-. by destruct E. }
        by rewrite !lookup_delete_ne.
      * intros (g & r' & [Hne Hg]%lookup_delete_Some & Hgs & Hsh & Hkey). rewrite lookup_delete_ne in Hgs by done. eauto 10.
  - apply remove_cell_sheets. apply (st_sheets _ _ Hst).
  - apply NoDup_app. split_and!; [apply (st_free _ _ Hst)| |apply NoDup_singleton].
    intros s' Hs' ->%list_elem_of_singleton. by apply (slot_unused _ _ f _ Hst Hs').
  - intros s' [Hs'| ->%list_elem_of_singleton]%elem_of_app; rewrite length_insert.
    + destruct (st_unused _ _ Hst s' Hs') as [? Hn]. split; [done|]. intros g. rewrite lookup_delete_Some. intros [_ ?]. by apply (Hn g).
    + split; [done|]. intros g [Hne Hg]%lookup_delete_Some. by apply (Hother g).
  - rewrite (st_members _ _ Hst), (total_delete R f r Hf). lia.
Qed.

Lemma clear_ok m : stored (clear m) ∅.
Proof.
  split; cbn.
  - intros f. by rewrite !lookup_empty.
  - intros sh key s. unfold cell_slot; rewrite lookup_empty; split; [done|]. intros (f & r & Hf & _). by rewrite lookup_empty in Hf.
  - intros sh map. by rewrite lookup_empty.
  - constructor.
  - by intros s ?%elem_of_nil.
  - done.
Qed.

Lemma clear_if_empty_ok m R : wf R → stored m R → stored (clear_if_empty m) R.
Proof.
  intros Hw Hst. unfold clear_if_empty. destruct (Z.eqb_spec (members m) 0) as [E|]; [|done].
  rewrite (st_members _ _ Hst) in E. apply total_pos in E as ->; [|done]. apply clear_ok.
Qed.

(** * The members *)

Definition run_map (r : MemberRun) : gmap Z VirtualMember :=
  list_to_map ((λ i, (first r + i, member_at r i)) <$> seqZ 0 (len r)).
Definition runs_map (rs : list MemberRun) : gmap Z VirtualMember := foldr (λ r M, run_map r ∪ M) ∅ rs.
Definition members_map (R : gmap Z MemberRun) : gmap Z VirtualMember := runs_map (map_to_list R).*2.

Lemma run_keys r : NoDup ((λ i, (first r + i, member_at r i)) <$> seqZ 0 (len r)).*1.
Proof.
  rewrite <- list_fmap_compose. apply NoDup_fmap_2_strong; [|apply NoDup_seqZ]. simpl. lia.
Qed.

Lemma run_map_lookup r v x : run_map r !! v = Some x ↔ in_run r v ∧ x = member_at r (v - first r).
Proof.
  unfold run_map. rewrite <- elem_of_list_to_map by apply run_keys. rewrite list_elem_of_fmap. unfold in_run. split.
  - intros (i & [= -> ->] & Hi%elem_of_seqZ). rewrite Z.add_simpl_l. split; [lia|done].
  - intros [Hv ->]. exists (v - first r). split; [f_equal; lia|]. apply elem_of_seqZ. lia.
Qed.
Lemma run_map_none r v : run_map r !! v = None ↔ ¬ in_run r v.
Proof.
  rewrite eq_None_not_Some. split; intros H Hr; apply H; [by exists (member_at r (v - first r)); apply run_map_lookup|].
  destruct Hr as [x [Hx _]%run_map_lookup]. done.
Qed.
Lemma run_map_size r : 0 ≤ len r → Z.of_nat (size (run_map r)) = len r.
Proof.
  intros H. unfold run_map. rewrite map_size_list_to_map by apply run_keys.
  rewrite length_fmap, length_seqZ. lia.
Qed.

(** Of runs with no vertex in two of them. *)
Lemma runs_map_lookup rs v x : (∀ r r', r ∈ rs → r' ∈ rs → in_run r v → in_run r' v → r = r') →
  runs_map rs !! v = Some x ↔ ∃ r, r ∈ rs ∧ in_run r v ∧ x = member_at r (v - first r).
Proof.
  induction rs as [|r rs IH]; intros Hd; simpl.
  { rewrite lookup_empty. split; [done|]. by intros (r & ?%elem_of_nil & _). }
  rewrite lookup_union_Some_raw, run_map_lookup, run_map_none, IH by (intros; apply Hd; set_solver). split.
  - intros [[??]|[? (r' & ? & ? & ?)]]; [exists r; set_solver|exists r'; set_solver].
  - intros (r' & Hr' & Hin & ->). destruct (decide (first r ≤ v < first r + len r)) as [Hin'|Hn]; [|right; split; [done|]].
    + left. split; [done|]. by rewrite (Hd r r') by set_solver.
    + apply elem_of_cons in Hr' as [->|Hr']; [done|]. eauto.
Qed.

Lemma runs_unique R r r' v : wf R → r ∈ (map_to_list R).*2 → r' ∈ (map_to_list R).*2 → in_run r v → in_run r' v → r = r'.
Proof.
  intros Hw ([f ?] & -> & Hf%elem_of_map_to_list)%list_elem_of_fmap ([f' ?] & -> & Hf'%elem_of_map_to_list)%list_elem_of_fmap Hv Hv'.
  simpl in *. destruct (wf_key _ Hw _ _ Hf), (wf_key _ Hw _ _ Hf'). unfold in_run in *.
  destruct (Z.lt_trichotomy f f') as [Hl|[->|Hl]]; [|congruence|].
  - pose proof (wf_vertices _ Hw _ _ _ _ Hf Hf' Hl). lia.
  - pose proof (wf_vertices _ Hw _ _ _ _ Hf' Hf Hl). lia.
Qed.

Lemma members_lookup R v x : wf R → members_map R !! v = Some x ↔ ∃ f r, R !! f = Some r ∧ in_run r v ∧ x = member_at r (v - first r).
Proof.
  intros Hw. unfold members_map. rewrite runs_map_lookup by (intros; by eapply runs_unique). split.
  - intros (r & ([f ?] & -> & Hf%elem_of_map_to_list)%list_elem_of_fmap & ? & ?). eauto.
  - intros (f & r & Hf & ? & ?). exists r. split; [|done]. apply list_elem_of_fmap. exists (f, r). split; [done|]. by apply elem_of_map_to_list.
Qed.

Lemma members_insert R run : wf (<[first run := run]> R) → R !! first run = None →
  members_map (<[first run := run]> R) = run_map run ∪ members_map R.
Proof.
  intros Hw Hn. assert (HR : wf R) by (rewrite <- (delete_insert_id R (first run) run Hn); by apply wf_delete).
  apply map_eq. intros v. apply option_eq. intros x.
  rewrite members_lookup, lookup_union_Some_raw, run_map_lookup, run_map_none, members_lookup by done. split.
  - intros (f & r & Hf & Hin & ->). destruct (decide (f = first run)) as [->|Hne].
    + rewrite lookup_insert_eq in Hf. injection Hf as <-. by left.
    + right. split; [|rewrite lookup_insert_ne in Hf by done; eauto]. intros Hin'.
      destruct (runs_unique _ r run v Hw) as []; try done; try (apply list_elem_of_fmap; eexists (_, _); split; [done|]; by apply elem_of_map_to_list).
      * apply list_elem_of_fmap. exists (first run, run). split; [done|]. apply elem_of_map_to_list, lookup_insert_eq.
      * by destruct (wf_key _ Hw _ _ Hf).
  - intros [[Hin ->]|(Hnot & f & r & Hf & Hin & ->)].
    + exists (first run), run. by rewrite lookup_insert_eq.
    + exists f, r. split; [|done]. rewrite lookup_insert_ne; [done|]. intros <-. congruence.
Qed.

Lemma members_size R : wf R → Z.of_nat (size (members_map R)) = total R.
Proof.
  induction R as [|f r R Hf IH] using map_ind; [done|]. intros Hw.
  assert (HR : wf R) by (rewrite <- (delete_insert_id R f r Hf); by apply wf_delete).
  destruct (wf_key _ Hw f r (lookup_insert_eq _ _ _)) as [<- Hlen]. rewrite members_insert by done.
  assert (Hd : run_map r ##ₘ members_map R).
  { apply map_disjoint_spec. intros v x y [Hin _]%run_map_lookup (f' & r' & Hf' & Hin' & _)%members_lookup; [|done].
    assert (Hne : first r ≠ f') by congruence.
    assert (Hr : <[first r := r]> R !! first r = Some r) by apply lookup_insert_eq.
    assert (Hr' : <[first r := r]> R !! f' = Some r') by (by rewrite lookup_insert_ne).
    destruct (wf_key _ Hw _ _ Hr'). unfold in_run in *.
    destruct (decide (first r < f')); [pose proof (wf_vertices _ Hw _ _ _ _ Hr Hr' ltac:(done))|pose proof (wf_vertices _ Hw _ _ _ _ Hr' Hr ltac:(lia))]; lia. }
  rewrite map_size_disj_union by done. rewrite Nat2Z.inj_add, IH, run_map_size, total_insert by (done || lia). lia.
Qed.

(** ** Iterating over slots *)

(** Keys whose runs the slots hold. *)
Lemma at_slots_ok m R fs : stored m R → (∀ p, p ∈ fs → vertices m !! p.1 = Some p.2) →
  ∃ rs, at_slots m fs.*2 = Ok rs ∧ Forall2 (λ p r, R !! p.1 = Some r) fs rs.
Proof.
  intros Hst. induction fs as [|[f s] fs IH]; intros Hfs; [by exists []|].
  destruct IH as (rs & Ers & Hrs); [set_solver|]. destruct (stored_slot m R f s Hst) as (r & Hr & Hs); [apply (Hfs (f, s)); set_solver|].
  exists (r :: rs). cbn [fmap list_fmap at_slots snd]. rewrite (vm_vec_get_some _ _ _ Hs). cbn [mbind result_bind].
  change (list_fmap _ _ snd fs) with fs.*2. rewrite Ers. split; [done|by constructor].
Qed.

Definition by_first (r r' : MemberRun) : Prop := first r ≤ first r'.

Lemma live_runs_ok m R : wf R → stored m R →
  ∃ rs, live_runs m = Ok rs ∧ (∀ r, r ∈ rs ↔ ∃ f, R !! f = Some r) ∧ StronglySorted by_first rs ∧ NoDup rs.
Proof.
  intros Hw Hst. assert (Hin : ∀ p, p ∈ entries (vertices m) ↔ vertices m !! p.1 = Some p.2).
  { intros [k x]. unfold entries. by rewrite merge_sort_Permutation, elem_of_map_to_list. }
  destruct (at_slots_ok m R (entries (vertices m)) Hst) as (rs & Ers & Hrs); [by intros p ?%Hin|].
  exists rs. split; [exact Ers|].
  assert (Hs : StronglySorted key_le (entries (vertices m))) by (apply StronglySorted_merge_sort; apply _).
  assert (Hnd : NoDup (entries (vertices m)).*1).
  { unfold entries. rewrite merge_sort_Permutation. apply NoDup_fst_map_to_list. }
  split_and!.
  - intros r. split.
    + intros [i Hi]%list_elem_of_lookup. destruct (Forall2_lookup_r _ _ _ _ _ Hrs Hi) as ([f s] & _ & Hf). by exists f.
    + intros [f Hf]. destruct (stored_run _ _ _ _ Hst Hf) as (s & Hs' & _).
      assert (He : (f, s) ∈ entries (vertices m)) by (by apply Hin). apply list_elem_of_lookup in He as [i Hi].
      destruct (Forall2_lookup_l _ _ _ _ _ Hrs Hi) as (r' & Hr' & Hf'). simpl in Hf'. rewrite Hf in Hf'. injection Hf' as <-.
      by eapply list_elem_of_lookup_2.
  - clear -Hs Hrs Hw. induction Hrs as [|[f s] r fs rs Hf Hrs IH]; [constructor|]. inversion Hs as [|? ? Hs' Hall]; subst.
    constructor; [by apply IH|]. destruct (wf_key _ Hw _ _ Hf) as [Ef _]. clear -Hall Hrs Ef Hw.
    induction Hrs as [|[f' s'] r' fs rs Hf' _ IH]; [constructor|]. apply Forall_cons in Hall as [Hle Hall]. constructor; [|by apply IH].
    destruct (wf_key _ Hw _ _ Hf') as [Ef' _]. unfold by_first, key_le in *. simpl in *. lia.
  - clear -Hnd Hrs Hw. induction Hrs as [|[f s] r fs rs Hf Hrs IH]; [constructor|]. apply NoDup_cons in Hnd as [Hnf Hnd].
    constructor; [|by apply IH]. intros [i Hi]%list_elem_of_lookup. destruct (Forall2_lookup_r _ _ _ _ _ Hrs Hi) as ([f' s'] & Hf1 & Hf').
    apply Hnf. destruct (wf_key _ Hw _ _ Hf) as [Ef _], (wf_key _ Hw _ _ Hf') as [Ef' _]. simpl in *. subst.
    apply list_elem_of_fmap. exists (first r, s'). split; [done|by eapply list_elem_of_lookup_2].
Qed.

Lemma runs_map_all R rs : wf R → (∀ r, r ∈ rs ↔ ∃ f, R !! f = Some r) → runs_map rs = members_map R.
Proof.
  intros Hw Hrs. apply map_eq. intros v. apply option_eq. intros x.
  assert (Hin : ∀ r, r ∈ rs → r ∈ (map_to_list R).*2).
  { intros r [f Hf]%Hrs. apply list_elem_of_fmap. exists (f, r). split; [done|by apply elem_of_map_to_list]. }
  rewrite members_lookup, runs_map_lookup by (done || (intros; eapply runs_unique; eauto)). split.
  - intros (r & [f Hf]%Hrs & ? & ?). eauto.
  - intros (f & r & Hf & ? & ?). exists r. split; [apply Hrs; eauto|done].
Qed.

(** ** Removing several *)

Definition delete_all (fs : list Z) (R : gmap Z MemberRun) : gmap Z MemberRun := foldl (λ R f, delete f R) R fs.

Lemma delete_all_lookup fs R g : delete_all fs R !! g = if decide (g ∈ fs) then None else R !! g.
Proof.
  revert R. induction fs as [|f fs IH]; intros R; [done|]. simpl. rewrite IH. repeat case_decide; try set_solver.
  - assert (g = f) as -> by set_solver. apply lookup_delete_eq.
  - apply lookup_delete_ne. set_solver.
Qed.

Lemma remove_slots_ok fs : ∀ m R, wf R → stored m R → NoDup fs.*1 → (∀ p, p ∈ fs → vertices m !! p.1 = Some p.2) →
  ∃ rs m', remove_slots fs.*2 m = Ok (rs, m') ∧ stored m' (delete_all fs.*1 R) ∧ wf (delete_all fs.*1 R) ∧ Forall2 (λ p r, R !! p.1 = Some r) fs rs.
Proof.
  induction fs as [|[f s] fs IH]; intros m R Hw Hst Hnd Hfs; [by exists [], m|]. apply NoDup_cons in Hnd as [Hnf Hnd].
  destruct (stored_slot m R f s Hst) as (r & Hr & _); [apply (Hfs (f, s)); set_solver|].
  destruct (remove_slot_ok m R f r s Hw Hst Hr) as (m' & E & Hst'); [apply (Hfs (f, s)); set_solver|].
  assert (Hfs' : ∀ p, p ∈ fs → vertices m' !! p.1 = Some p.2).
  { intros [g t] Hp. unfold remove_slot in E. bind_inv. simpl. destruct (wf_key _ Hw _ _ Hr) as [-> _].
    rewrite lookup_delete_ne; [apply (Hfs (g, t)); set_solver|]. intros <-. apply Hnf. apply list_elem_of_fmap. by exists (f, t). }
  destruct (IH m' (delete f R)) as (rs & m'' & E' & Hst'' & Hw'' & Hrs); [by apply wf_delete|done..|].
  exists (r :: rs), m''. cbn [fmap list_fmap remove_slots snd]. rewrite E. cbn [mbind result_bind]. change (list_fmap _ _ snd fs) with fs.*2.
  rewrite E'. split_and!; [done..|]. constructor; [done|]. eapply Forall2_impl; [exact Hrs|]. by intros p r' [_ ?]%lookup_delete_Some.
Qed.

(** * The specification *)

Inductive op : Type :=
| OpInsert (run : MemberRun) | OpTake (v : Z) | OpRemoveRun (f : Z) | OpDrain | OpDrainSheet (sh : Z)
| OpRemap (map : Z → Z) | OpRunsInSheet (sh : Z) | OpRunsInCols (sh c0 c1 : Z) | OpByVertex (v : Z) | OpByCell (sh row c : Z) | OpRunOf (v : Z) | OpContains (v : Z) | OpIter | OpLen.

Inductive out : Type :=
| OutUnit | OutMember (x : option VirtualMember) | OutRun (r : option MemberRun) | OutRuns (rs : list MemberRun)
| OutMembers (xs : list VirtualMember) | OutBool (b : bool) | OutLen (n : Z).

Definition exec (o : op) (m : VirtualMembers) : result Empty_set (out * VirtualMembers) :=
  match o with
  | OpInsert run => m ← insert run m; Ok (OutUnit, m)
  | OpTake v => '(x, m) ← take v m; Ok (OutMember x, m)
  | OpRemoveRun f => '(r, m) ← remove_run f m; Ok (OutRun r, m)
  | OpDrain => '(rs, m) ← drain m; Ok (OutRuns rs, m)
  | OpDrainSheet sh => '(rs, m) ← drain_sheet sh m; Ok (OutRuns rs, m)
  | OpRemap map => m ← remap map m; Ok (OutUnit, m)
  | OpRunsInSheet sh => rs ← runs_in_sheet m sh; Ok (OutRuns rs, m)
  | OpRunsInCols sh c0 c1 => rs ← runs_in_cols m sh c0 c1; Ok (OutRuns rs, m)
  | OpByVertex v => x ← by_vertex m v; Ok (OutMember x, m)
  | OpByCell sh row c => x ← by_cell m sh row c; Ok (OutMember x, m)
  | OpRunOf v => r ← run_of m v; Ok (OutRun r, m)
  | OpContains v => b ← contains_vertex m v; Ok (OutBool b, m)
  | OpIter => xs ← iter m; Ok (OutMembers xs, m)
  | OpLen => Ok (OutLen (len_members m), m)
  end.

Abbreviation Members := (gmap Z VirtualMember).

Definition at_cell (x : VirtualMember) (sh row c : Z) : Prop := m_sheet x = sh ∧ m_row x = row ∧ m_col x = c.

(** A run is added with [u32] ends, where no member has its vertices or cells; the columns looked at are
    in order. *)
Definition allowed (o : op) (M : Members) : Prop :=
  match o with
  | OpInsert run => 0 < len run ∧ sums_fit run ∧ ∀ v x, M !! v = Some x → ¬ in_run run v ∧ ¬ in_cells run (m_sheet x) (m_row x) (m_col x)
  | OpRunsInCols _ c0 c1 => c0 ≤ c1
  | _ => True
  end.

Definition remap_member (map : Z → Z) (x : VirtualMember) : VirtualMember :=
  {| vertex := vertex x; m_sheet := m_sheet x; m_row := m_row x; m_col := m_col x;
     m_formula := {| member_template := map (member_template (m_formula x)); member_anchor := member_anchor (m_formula x) |} |}.

Definition on_sheet (sh : Z) (p : Z * VirtualMember) : Prop := m_sheet p.2 = sh.
#[export] Instance on_sheet_dec sh p : Decision (on_sheet sh p).
Proof. unfold on_sheet. apply _. Defined.

Definition in_cols (sh c0 c1 : Z) (p : Z * VirtualMember) : Prop := m_sheet p.2 = sh ∧ c0 ≤ m_col p.2 ≤ c1.
#[export] Instance in_cols_dec sh c0 c1 p : Decision (in_cols sh c0 c1 p).
Proof. unfold in_cols. apply _. Defined.

(** Runs in [(col, row)] order. *)
Definition by_place (r r' : MemberRun) : Prop := col r < col r' ∨ (col r = col r' ∧ row0 r ≤ row0 r').

(** What an operation returns, on the members of the set. *)
Definition spec_out (o : op) (M : Members) (res : out) : Prop :=
  match o, res with
  | OpInsert _, OutUnit | OpRemap _, OutUnit => True
  | OpTake v, OutMember x | OpByVertex v, OutMember x => x = M !! v
  | OpByCell sh row c, OutMember (Some x) => M !! vertex x = Some x ∧ at_cell x sh row c
  | OpByCell sh row c, OutMember None => ∀ v x, M !! v = Some x → ¬ at_cell x sh row c
  | OpRemoveRun f, OutRun (Some r) => first r = f ∧ run_map r ⊆ M
  | OpRemoveRun f, OutRun None => M !! f = None ∨ is_Some (M !! (f - 1))
  | OpRunOf v, OutRun (Some r) => in_run r v ∧ run_map r ⊆ M
  | OpRunOf v, OutRun None => M !! v = None
  | OpContains v, OutBool b => b = bool_decide (is_Some (M !! v))
  | OpDrain, OutRuns rs => runs_map rs = M
  | OpDrainSheet sh, OutRuns rs => runs_map rs = filter (on_sheet sh) M
  | OpRunsInSheet sh, OutRuns rs => runs_map rs = filter (on_sheet sh) M ∧ StronglySorted by_place rs
  | OpRunsInCols sh c0 c1, OutRuns rs => runs_map rs = filter (in_cols sh c0 c1) M ∧ StronglySorted by_place rs
  | OpIter, OutMembers xs => xs ≡ₚ (map_to_list M).*2 ∧ StronglySorted (λ x y, vertex x < vertex y) xs
  | OpLen, OutLen n => n = Z.of_nat (size M)
  | _, _ => False
  end.

Definition spec_next (o : op) (res : out) (M : Members) : Members :=
  match o, res with
  | OpInsert run, _ => run_map run ∪ M
  | OpTake v, _ => delete v M
  | OpRemoveRun _, OutRun (Some r) => M ∖ run_map r
  | OpDrain, _ => ∅
  | OpDrainSheet sh, _ => filter (λ p, ¬ on_sheet sh p) M
  | OpRemap map, _ => remap_member map <$> M
  | _, _ => M
  end.

Definition rel (m : VirtualMembers) (M : Members) : Prop := ∃ R, wf R ∧ stored m R ∧ M = members_map R.

(** ** Each operation *)

Lemma in_run_member r v : in_run r v → member_at r (v - first r) = {| vertex := v; m_sheet := sheet r; m_row := row0 r + (v - first r); m_col := col r; m_formula := formula r |}.
Proof. intros H. unfold member_at. f_equal. lia. Qed.

Lemma allowed_wf R run : wf R → allowed (OpInsert run) (members_map R) → R !! first run = None ∧ wf (<[first run := run]> R).
Proof.
  intros Hw (Hlen & Hfit & Hd).
  assert (Hv : ∀ f r, R !! f = Some r → f + len r ≤ first run ∨ first run + len run ≤ f).
  { intros f r Hf. destruct (wf_key _ Hw _ _ Hf) as [<- ?]. destruct (decide (first r + len r ≤ first run)); [by left|].
    destruct (decide (first run + len run ≤ first r)); [by right|]. exfalso.
    set (v := Z.max (first r) (first run)). destruct (Hd v (member_at r (v - first r))) as [Hn _]; [|apply Hn; unfold in_run; lia].
    apply members_lookup; [done|]. exists (first r), r. unfold in_run. split_and!; done || lia. }
  assert (Hc : ∀ f r, R !! f = Some r → sheet r = sheet run → col r = col run → row0 r + len r ≤ row0 run ∨ row0 run + len run ≤ row0 r).
  { intros f r Hf Hs Hcol. destruct (wf_key _ Hw _ _ Hf) as [<- ?]. destruct (decide (row0 r + len r ≤ row0 run)); [by left|].
    destruct (decide (row0 run + len run ≤ row0 r)); [by right|]. exfalso.
    set (v := first r + (Z.max (row0 r) (row0 run) - row0 r)).
    destruct (Hd v (member_at r (v - first r))) as [_ Hn]; [|apply Hn; unfold in_cells, member_at; simpl; split_and!; done || lia].
    apply members_lookup; [done|]. exists (first r), r. unfold in_run. split_and!; done || lia. }
  split.
  - destruct (R !! first run) as [r|] eqn:E; [|done]. destruct (wf_key _ Hw _ _ E). destruct (Hv _ _ E); lia.
  - split.
    + intros f r [[<- <-]|[_ Hf]]%lookup_insert_Some; [done|]. by apply (wf_key _ Hw).
    + intros f r [[<- <-]|[_ Hf]]%lookup_insert_Some; [done|]. by apply (wf_sums _ Hw f).
    + intros f r f' r' [[<- <-]|[Hn Hf]]%lookup_insert_Some [[<- <-]|[Hn' Hf']]%lookup_insert_Some Hlt; try lia.
      * destruct (wf_key _ Hw _ _ Hf'). destruct (Hv _ _ Hf'); lia.
      * destruct (Hv _ _ Hf); lia.
      * by apply (wf_vertices _ Hw _ _ _ _ Hf Hf').
    + intros f r f' r' [[<- <-]|[Hn Hf]]%lookup_insert_Some [[<- <-]|[Hn' Hf']]%lookup_insert_Some Hne Hs Hcol; try done.
      * destruct (Hc _ _ Hf'); auto.
      * destruct (Hc _ _ Hf); auto.
      * by apply (wf_cells _ Hw _ _ _ _ Hf Hf').
Qed.

Lemma insert_rel m M run : rel m M → allowed (OpInsert run) M → ∃ m', insert run m = Ok m' ∧ rel m' (run_map run ∪ M).
Proof.
  intros (R & Hw & Hst & ->) Ha. destruct (allowed_wf R run Hw Ha) as [Hn Hw'].
  destruct (vm_insert_ok m R run Hw Hst Hn Hw') as (m' & E & Hst'). exists m'. split; [done|].
  exists (<[first run := run]> R). split_and!; [done..|]. by rewrite members_insert.
Qed.

Lemma members_delete R f r : wf R → R !! f = Some r → members_map (delete f R) = members_map R ∖ run_map r.
Proof.
  intros Hw Hf. pose proof (wf_delete R f Hw) as Hw'. apply map_eq. intros v. apply option_eq. intros x.
  rewrite lookup_difference_Some, run_map_none, !members_lookup by done. split.
  - intros (g & r' & [Hne Hg]%lookup_delete_Some & Hin & ->). split; [eauto|]. intros Hin'.
    destruct (wf_key _ Hw _ _ Hf), (wf_key _ Hw _ _ Hg). unfold in_run in *.
    destruct (decide (f < g)); [pose proof (wf_vertices _ Hw _ _ _ _ Hf Hg ltac:(done))|pose proof (wf_vertices _ Hw _ _ _ _ Hg Hf ltac:(lia))]; lia.
  - intros [(g & r' & Hg & Hin & ->) Hn]. exists g, r'. split; [|done]. apply lookup_delete_Some. split; [|done].
    intros <-. rewrite Hf in Hg. by injection Hg as <-.
Qed.

Lemma remove_slot_rel m M R f r s : wf R → stored m R → M = members_map R → R !! f = Some r → vertices m !! f = Some s →
  ∃ m', remove_slot s m = Ok (r, m') ∧ rel m' (M ∖ run_map r) ∧ run_map r ⊆ M.
Proof.
  intros Hw Hst -> Hf Hs. destruct (remove_slot_ok m R f r s Hw Hst Hf Hs) as (m' & E & Hst'). exists m'. split_and!; [done| |].
  - exists (delete f R). split_and!; [by apply wf_delete|done|]. by rewrite (members_delete R f r).
  - apply map_subseteq_spec. intros v x [Hin ->]%run_map_lookup. apply members_lookup; eauto.
Qed.

Lemma clear_rel m M : rel m M → rel (clear_if_empty m) M.
Proof. intros (R & Hw & Hst & ->). exists R. split_and!; [done|by apply clear_if_empty_ok|done]. Qed.

Lemma cell_unique m M v v' x x' : rel m M → M !! v = Some x → M !! v' = Some x' →
  at_cell x (m_sheet x') (m_row x') (m_col x') → v = v'.
Proof.
  intros (R & Hw & _ & ->) (f & r & Hf & Hin & ->)%members_lookup (f' & r' & Hf' & Hin' & ->)%members_lookup (Hs & Hr & Hc); try done.
  unfold member_at in *. simpl in *. destruct (wf_key _ Hw _ _ Hf) as [Ef _], (wf_key _ Hw _ _ Hf') as [Ef' _]. unfold in_run in *.
  destruct (decide (f = f')) as [<-|Hne]; [rewrite Hf in Hf'; injection Hf' as <-; lia|].
  pose proof (wf_cells _ Hw _ _ _ _ Hf Hf' Hne Hs Hc). lia.
Qed.

(** Members [a..a + n] of a run. *)
Definition part (r : MemberRun) (a n : Z) : MemberRun := with_rows r (row0 r + a) n (first r + a).

Lemma part_lookup r a n v x : 0 ≤ a → a + n ≤ len r → run_map (part r a n) !! v = Some x ↔ first r + a ≤ v < first r + a + n ∧ run_map r !! v = Some x.
Proof.
  intros Ha Hn. rewrite !run_map_lookup. unfold in_run, part, member_at, with_rows, formula. simpl. split.
  - intros [? ->]. split_and!; try lia. f_equal; lia.
  - intros (? & ? & ->). split_and!; try lia. f_equal; lia.
Qed.

(** A part of a run goes back where the run was. *)
Lemma insert_part m0 M0 m M r a n : rel m0 M0 → run_map r ⊆ M0 → sums_fit r → 0 ≤ a → a + n ≤ len r → 0 < n →
  rel m M → (∀ v x, M !! v = Some x → M0 !! v = Some x ∧ ¬ in_run (part r a n) v) →
  ∃ m', insert (part r a n) m = Ok m' ∧ rel m' (run_map (part r a n) ∪ M).
Proof.
  intros Hrel0 Hsub Hfit Ha Hn Hn0 Hrel HM. apply insert_rel; [done|].
  split_and!; [done|unfold sums_fit, part, with_rows in *; simpl; lia|]. intros v x Hv.
  destruct (HM v x Hv) as [H0 Hout]. split; [done|]. intros (Hs & Hc & Hr). unfold part, with_rows in *. simpl in *.
  set (i := m_row x - row0 r). assert (Hi : in_run r (first r + i)) by (unfold in_run; lia).
  assert (Hm : M0 !! (first r + i) = Some (member_at r i)).
  { rewrite map_subseteq_spec in Hsub. apply Hsub, run_map_lookup. by rewrite Z.add_simpl_l. }
  assert (v = first r + i) as ->.
  { eapply (cell_unique m0 M0); [done..|]. unfold at_cell, member_at. simpl. unfold i. split_and!; [done|lia|done]. }
  apply Hout. unfold in_run. simpl. lia.
Qed.

Lemma insert_part_if m0 M0 m M r a n b : rel m0 M0 → run_map r ⊆ M0 → sums_fit r → 0 ≤ a → 0 ≤ n → a + n ≤ len r → b = (0 <? n) →
  rel m M → (∀ v x, M !! v = Some x → M0 !! v = Some x ∧ ¬ in_run (part r a n) v) →
  ∃ m', (if b then insert (part r a n) m else Ok m) = Ok m' ∧ rel m' (run_map (part r a n) ∪ M).
Proof.
  intros ????? Hn -> Hrel HM. destruct (Z.ltb_spec 0 n); [by apply (insert_part m0 M0)|]. exists m. split; [done|].
  assert (run_map (part r a n) = ∅) as ->; [|by rewrite (left_id_L ∅ (∪))].
  apply map_empty. intros v. apply run_map_none. unfold in_run, part. simpl. lia.
Qed.

Lemma by_vertex_rel m M v : rel m M → ∃ o, slot_of_vertex m v = Ok o ∧
  match o with
  | Some s => ∃ R f r, wf R ∧ stored m R ∧ M = members_map R ∧ R !! f = Some r ∧ vertices m !! f = Some s ∧ runs m !! s = Some r ∧ in_run r v ∧
      M !! v = Some (member_at r (v - first r))
  | None => M !! v = None
  end.
Proof.
  intros (R & Hw & Hst & ->). destruct (slot_of_vertex_spec m R v Hw Hst) as ([s|] & E & H); eexists; (split; [exact E|]).
  - destruct H as (f & r & Hf & Hs & Hr & Hin). exists R, f, r. split_and!; try done. apply members_lookup; eauto.
  - apply eq_None_not_Some. intros [x (f & r & Hf & Hin & _)%members_lookup]; [|done]. by destruct (H f r).
Qed.

Lemma take_rel m M v : rel m M → ∃ m', take v m = Ok (M !! v, m') ∧ rel m' (delete v M).
Proof.
  intros Hrel. destruct (by_vertex_rel m M v Hrel) as ([s|] & E & H); unfold take; rewrite E; cbn [mbind result_bind].
  2: { exists m. rewrite H, delete_id by done. done. }
  destruct H as (R & f & r & Hw & Hst & HM & Hf & Hs & Hr & Hin & Hv).
  destruct (remove_slot_rel m M R f r s Hw Hst HM Hf Hs) as (m1 & -> & Hrel1 & Hsub). cbn [mbind result_bind].
  pose proof (wf_sums _ Hw _ _ Hf) as Hfit. unfold in_run in Hin. rewrite sub_u32_ok by lia. cbn [mbind result_bind].
  set (i := v - first r) in *.
  assert (Hdiff : ∀ w x, (M ∖ run_map r) !! w = Some x → M !! w = Some x ∧ ¬ in_run r w)
    by (intros w x; by rewrite lookup_difference_Some, run_map_none).
  destruct (insert_part_if m M m1 (M ∖ run_map r) r 0 i (0 <? i) Hrel Hsub Hfit) as (m2 & E2 & Hrel2); [lia|lia|lia|done|done| |].
  { intros w x [H1 H2]%Hdiff. split; [done|]. unfold in_run, part in *. simpl. lia. }
  unfold part in E2. rewrite !Z.add_0_r in E2. rewrite E2. cbn [mbind result_bind].
  destruct (insert_part_if m M m2 (run_map (part r 0 i) ∪ (M ∖ run_map r)) r (i + 1) (len r - i - 1) (i + 1 <? len r) Hrel Hsub Hfit)
    as (m3 & E3 & Hrel3); [lia|lia|lia| |done| |].
  { destruct (Z.ltb_spec (i + 1) (len r)), (Z.ltb_spec 0 (len r - i - 1)); lia || done. }
  { intros w x. rewrite lookup_union_Some_raw, part_lookup by lia. intros [[H1 H2]|[_ [H1 H2]%Hdiff]].
    - rewrite map_subseteq_spec in Hsub. split; [by apply Hsub|]. unfold in_run, part. simpl. lia.
    - split; [done|]. unfold in_run, part in *. simpl. lia. }
  unfold part in E3 at 1. rewrite !Z.add_assoc in E3.
  unfold sums_fit in Hfit. rewrite add_u32_ok by lia. cbn [mbind result_bind].
  assert (Etail : (if i + 1 <? len r then tail ← run_behind r i; insert tail m2 else Ok m2) = Ok m3).
  { rewrite <- E3. destruct (Z.ltb_spec (i + 1) (len r)); [|done]. by rewrite run_behind_ok by (done || lia). }
  rewrite Etail. cbn [mbind result_bind]. rewrite member_at_ok by (done || lia). cbn [mbind result_bind].
  exists (clear_if_empty m3). rewrite Hv. split; [done|]. apply clear_rel.
  replace (delete v M) with (run_map (part r (i + 1) (len r - i - 1)) ∪ (run_map (part r 0 i) ∪ M ∖ run_map r)); [done|].
  apply map_eq. intros w. apply option_eq. intros x. rewrite lookup_delete_Some, !lookup_union_Some_raw, !part_lookup, !run_map_none, lookup_difference_Some, run_map_none by lia.
  rewrite map_subseteq_spec in Hsub. unfold in_run, part. simpl. split.
  - intros [[? Hx]|[? [[? Hx]|[? [Hx ?]]]]]; (split; [|by auto]); lia.
  - intros [Hne Hx]. destruct (decide (first r ≤ w < first r + len r)) as [Hw'|Hw'].
    + assert (Hx' : run_map r !! w = Some x).
      { assert (Hm : run_map r !! w = Some (member_at r (w - first r))) by (by apply run_map_lookup).
        apply Hsub in Hm as Hm'. rewrite Hx in Hm'. by injection Hm' as ->. }
      destruct (decide (w < v)); [right; split; [lia|left]|left]; (split; [lia|done]).
    + right. split; [lia|]. right. split; [lia|]. by split.
Qed.

Lemma remove_run_rel m M f : rel m M → ∃ o m', remove_run f m = Ok (o, m') ∧
  spec_out (OpRemoveRun f) M (OutRun o) ∧ rel m' (spec_next (OpRemoveRun f) (OutRun o) M).
Proof.
  intros Hrel. pose proof Hrel as (R & Hw & Hst & HM). unfold remove_run. destruct (vertices m !! f) as [s|] eqn:Hs.
  - destruct (stored_slot _ _ _ _ Hst Hs) as (r & Hr & _). destruct (remove_slot_rel m M R f r s Hw Hst HM Hr Hs) as (m' & -> & Hrel' & Hsub).
    cbn [mbind result_bind]. eexists _, _. split; [reflexivity|]. simpl. destruct (wf_key _ Hw _ _ Hr) as [-> _].
    split; [done|]. by apply clear_rel.
  - eexists _, _. split; [reflexivity|]. simpl. split; [|done]. destruct (M !! f) as [x|] eqn:Ex; [right|by left].
    rewrite HM in Ex. apply members_lookup in Ex as (g & r & Hg & Hin & _); [|done]. destruct (wf_key _ Hw _ _ Hg) as [Eg _].
    destruct (stored_run _ _ _ _ Hst Hg) as (s & Hgs & _). assert (f ≠ g) by congruence. rewrite HM.
    exists (member_at r (f - 1 - first r)). apply members_lookup; [done|]. exists g, r. unfold in_run in *. split_and!; done || lia.
Qed.

Lemma delete_all_members fs R v x : wf R → wf (delete_all fs R) →
  members_map (delete_all fs R) !! v = Some x ↔ ∃ f r, (f ∉ fs) ∧ R !! f = Some r ∧ in_run r v ∧ x = member_at r (v - first r).
Proof.
  intros Hw Hw'. rewrite members_lookup by done. setoid_rewrite delete_all_lookup. split.
  - intros (f & r & Hf & ? & ?). case_decide; [done|]. exists f, r. done.
  - intros (f & r & Hn & Hf & ? & ?). exists f, r. by rewrite decide_False.
Qed.

(** The slots of a sheet with the keys of their runs. *)
Lemma sheet_slots m R sh map : wf R → stored m R → cells m !! sh = Some map →
  ∃ fs, fs.*2 = (cell_entries map).*2 ∧ NoDup fs.*1 ∧ (∀ p, p ∈ fs → vertices m !! p.1 = Some p.2) ∧
    (∀ f, f ∈ fs.*1 ↔ ∃ r, R !! f = Some r ∧ sheet r = sh).
Proof.
  intros Hw Hst Hm. assert (Hin : ∀ p, p ∈ cell_entries map ↔ map !! p.1 = Some p.2).
  { intros [k x]. unfold cell_entries. by rewrite merge_sort_Permutation, elem_of_map_to_list. }
  assert (Hcell : ∀ key s, map !! key = Some s ↔ ∃ f r, R !! f = Some r ∧ vertices m !! f = Some s ∧ sheet r = sh ∧ key = (col r, row0 r)).
  { intros key s. rewrite <- (st_cells _ _ Hst). unfold cell_slot. by rewrite Hm. }
  set (key_of (p : (Z * Z) * nat) := (first (runs m !!! p.2), p.2)). exists (key_of <$> cell_entries map).
  assert (Hkey : ∀ key s f r, map !! key = Some s → R !! f = Some r → vertices m !! f = Some s → key_of (key, s) = (f, s)).
  { intros key s f r _ Hf Hs. unfold key_of. simpl. destruct (stored_slot _ _ _ _ Hst Hs) as (r' & Hr' & Hrun).
    rewrite (list_lookup_total_correct _ _ _ Hrun). rewrite Hf in Hr'. injection Hr' as <-. by destruct (wf_key _ Hw _ _ Hf) as [-> _]. }
  split_and!.
  - rewrite <- list_fmap_compose. done.
  - assert (Hnd : NoDup (cell_entries map)) by (unfold cell_entries; rewrite merge_sort_Permutation; apply NoDup_map_to_list).
    rewrite <- list_fmap_compose. apply NoDup_fmap_2_strong; [|done]. intros [k s] [k' s'] Hk%Hin Hk'%Hin E. simpl in *.
    apply Hcell in Hk as H1. destruct H1 as (f & r & Hf & Hs & _ & ->). apply Hcell in Hk' as H2. destruct H2 as (f' & r' & Hf' & Hs' & _ & ->).
    pose proof (Hkey _ _ _ _ Hk Hf Hs) as E1. pose proof (Hkey _ _ _ _ Hk' Hf' Hs') as E2. unfold key_of in *. simpl in *.
    injection E1 as E1. injection E2 as E2. assert (f = f') as <- by congruence. congruence.
  - intros p ([k s] & -> & Hk%Hin)%list_elem_of_fmap. simpl in Hk. apply Hcell in Hk as H1. destruct H1 as (f & r & Hf & Hs & _ & E).
    by rewrite (Hkey _ _ _ _ Hk Hf Hs).
  - intros f. rewrite <- list_fmap_compose, list_elem_of_fmap. split.
    + intros ([k s] & -> & Hk%Hin). simpl in Hk. apply Hcell in Hk as H1. destruct H1 as (f & r & Hf & Hs & Hsh & E).
      simpl in *. exists r. pose proof (Hkey _ _ _ _ Hk Hf Hs) as E1. unfold key_of in E1. simpl in E1. injection E1 as ->. done.
    + intros (r & Hf & Hsh). destruct (stored_run _ _ _ _ Hst Hf) as (s & Hs & _). exists ((col r, row0 r), s).
      assert (Hk : map !! (col r, row0 r) = Some s) by (apply Hcell; eauto 10). split; [|by apply Hin].
      simpl. pose proof (Hkey _ _ _ _ Hk Hf Hs) as E1. unfold key_of in E1. simpl in E1. by injection E1 as ->.
Qed.

Lemma no_sheet m R sh : wf R → stored m R → cells m !! sh = None → ∀ v x, members_map R !! v = Some x → m_sheet x ≠ sh.
Proof.
  intros Hw Hst Hm v x (f & r & Hf & Hin & ->)%members_lookup Hsh; [|done]. simpl in Hsh.
  destruct (stored_run _ _ _ _ Hst Hf) as (s & Hs & _).
  assert (H : cell_slot (cells m) (sheet r) (col r, row0 r) = Some s) by (apply (st_cells _ _ Hst); eauto 10).
  apply bind_Some in H as (map & H & _). congruence.
Qed.

Lemma runs_map_filter R rs (Q : MemberRun → Prop) (S : Z * VirtualMember → Prop) `{∀ p, Decision (S p)} : wf R →
  (∀ r, r ∈ rs ↔ ∃ f, R !! f = Some r ∧ Q r) → (∀ r v, S (v, member_at r (v - first r)) ↔ Q r) →
  runs_map rs = filter S (members_map R).
Proof.
  intros Hw Hrs HS. apply map_eq. intros v. apply option_eq. intros x.
  rewrite map_lookup_filter_Some, members_lookup, runs_map_lookup; [| |done].
  - split.
    + intros (r & (f & Hf & HQ)%Hrs & Hin & ->). split; [eauto|by apply HS].
    + intros [(f & r & Hf & Hin & ->) HQ%HS]. exists r. split; [apply Hrs; by exists f|done].
  - intros r r' (f & Hf & _)%Hrs (f' & Hf' & _)%Hrs. apply (runs_unique R); [done|..]; apply list_elem_of_fmap.
    + exists (f, r). split; [done|by apply elem_of_map_to_list].
    + exists (f', r'). split; [done|by apply elem_of_map_to_list].
Qed.

Lemma drain_sheet_rel m M sh : rel m M → ∃ rs m', drain_sheet sh m = Ok (rs, m') ∧
  runs_map rs = filter (on_sheet sh) M ∧ rel m' (filter (λ p, ¬ on_sheet sh p) M).
Proof.
  intros (R & Hw & Hst & ->). unfold drain_sheet. destruct (cells m !! sh) as [map|] eqn:Hm.
  2: { pose proof (no_sheet m R sh Hw Hst Hm) as Hno.
       eexists _, _. split; [reflexivity|]. split.
       - symmetry. apply map_empty. intros v. apply map_lookup_filter_None. right. intros x Hx. by apply (Hno v).
       - replace (filter _ (members_map R)) with (members_map R); [by exists R|]. symmetry. apply map_filter_id. intros v x Hx. by apply (Hno v). }
  destruct (sheet_slots m R sh map Hw Hst Hm) as (fs & <- & Hnd & Hfs & Hkeys).
  destruct (remove_slots_ok fs m R Hw Hst Hnd Hfs) as (rs & m' & -> & Hst' & Hw' & Hrs). cbn [mbind result_bind].
  eexists _, _. split; [reflexivity|].
  assert (Hrs' : ∀ r, r ∈ rs ↔ ∃ f, R !! f = Some r ∧ sheet r = sh).
  { intros r. split.
    - intros [i Hi]%list_elem_of_lookup. destruct (Forall2_lookup_r _ _ _ _ _ Hrs Hi) as ([f s] & Hp & Hf). exists f. split; [done|].
      destruct (proj1 (Hkeys f)) as (r' & Hr' & Hsh); [apply list_elem_of_fmap; exists (f, s); split; [done|by eapply list_elem_of_lookup_2]|].
      simpl in Hf. congruence.
    - intros (f & Hf & Hsh). assert (Hk : f ∈ fs.*1) by (apply Hkeys; by exists r). apply list_elem_of_lookup in Hk as [i Hi].
      rewrite list_lookup_fmap in Hi. apply fmap_Some in Hi as ([f' s] & Hp & ->). destruct (Forall2_lookup_l _ _ _ _ _ Hrs Hp) as (r' & Hr' & Hf').
      simpl in *. rewrite Hf in Hf'. injection Hf' as <-. by eapply list_elem_of_lookup_2. }
  split; [by apply (runs_map_filter R rs (λ r, sheet r = sh))|].
  apply clear_rel. exists (delete_all fs.*1 R). split_and!; [done..|].
    apply map_eq. intros v. apply option_eq. intros x. rewrite map_lookup_filter_Some, delete_all_members, members_lookup by done.
    unfold on_sheet. simpl. split.
    + intros [(f & r & Hf & Hin & ->) Hsh]. exists f, r. split; [|done]. rewrite Hkeys. intros (r' & Hr' & Hsh'). simpl in Hsh. congruence.
    + intros (f & r & Hn & Hf & Hin & ->). split; [eauto|]. simpl. intros Hsh. apply Hn. apply Hkeys. by exists r.
Qed.

(** ** The runs of a sheet *)

Lemma sheet_at_slots m R sh map l : stored m R → cells m !! sh = Some map → (∀ e, e ∈ l → map !! e.1 = Some e.2) →
  ∃ rs, at_slots m l.*2 = Ok rs ∧ Forall2 (λ e r, e.1 = (col r, row0 r) ∧ sheet r = sh ∧ ∃ f, R !! f = Some r) l rs.
Proof.
  intros Hst Hm. induction l as [|[k s] l IH]; intros Hl; [by exists []|].
  destruct IH as (rs & Ers & Hrs); [set_solver|]. assert (Hk : map !! k = Some s) by (apply (Hl (k, s)); set_solver).
  assert (Hc : cell_slot (cells m) sh k = Some s) by (unfold cell_slot; by rewrite Hm).
  apply (st_cells _ _ Hst) in Hc as (f & r & Hf & Hs & Hsh & ->). destruct (stored_slot _ _ _ _ Hst Hs) as (r' & Hr' & Hrun).
  assert (r' = r) as -> by congruence. exists (r :: rs). cbn [fmap list_fmap at_slots snd]. rewrite (vm_vec_get_some _ _ _ Hrun). cbn [mbind result_bind].
  change (list_fmap _ _ snd l) with l.*2. rewrite Ers. split; [done|]. constructor; [|done]. eauto.
Qed.

(** The runs of a sheet whose entries satisfy [P]. *)
Lemma sheet_runs m R sh map (P : (Z * Z) * nat → Prop) (Q : MemberRun → Prop) `{∀ e, Decision (P e)} :
  wf R → stored m R → cells m !! sh = Some map → (∀ f r s, R !! f = Some r → P ((col r, row0 r), s) ↔ Q r) →
  ∃ rs, at_slots m (filter P (cell_entries map)).*2 = Ok rs ∧
    (∀ r, r ∈ rs ↔ ∃ f, R !! f = Some r ∧ sheet r = sh ∧ Q r) ∧ StronglySorted by_place rs.
Proof.
  intros Hw Hst Hm HPQ.
  assert (Hin : ∀ e, e ∈ filter P (cell_entries map) ↔ P e ∧ map !! e.1 = Some e.2).
  { intros [k x]. unfold cell_entries. by rewrite list_elem_of_filter, merge_sort_Permutation, elem_of_map_to_list. }
  assert (Hs : StronglySorted cell_le (filter P (cell_entries map))) by (apply sorted_filter, StronglySorted_merge_sort; apply _).
  destruct (sheet_at_slots m R sh map (filter P (cell_entries map)) Hst Hm) as (rs & Ers & Hrs); [by intros e [_ ?]%Hin|].
  exists rs. split_and!; [done| |].
  - intros r. split.
    + intros [i Hi]%list_elem_of_lookup. destruct (Forall2_lookup_r _ _ _ _ _ Hrs Hi) as ([k s] & He & Ek & Hsh & f & Hf).
      exists f. split_and!; [done..|]. simpl in Ek. subst k. apply list_elem_of_lookup_2, Hin in He as [HP _]. by eapply HPQ.
    + intros (f & Hf & Hsh & HQ). destruct (stored_run _ _ _ _ Hst Hf) as (s & Hs' & _).
      assert (Hc : cell_slot (cells m) sh (col r, row0 r) = Some s) by (apply (st_cells _ _ Hst); eauto 10).
      unfold cell_slot in Hc. rewrite Hm in Hc. assert (He : ((col r, row0 r), s) ∈ filter P (cell_entries map)) by (apply Hin; split; [by eapply HPQ|done]).
      apply list_elem_of_lookup in He as [i Hi]. destruct (Forall2_lookup_l _ _ _ _ _ Hrs Hi) as (r' & Hr' & [= Ec Er] & Hsh' & f' & Hf').
      destruct (decide (f = f')) as [<-|Hne]; [rewrite Hf in Hf'; injection Hf' as <-; by eapply list_elem_of_lookup_2|].
      destruct (wf_key _ Hw _ _ Hf), (wf_key _ Hw _ _ Hf').
      pose proof (wf_cells _ Hw _ _ _ _ Hf Hf' Hne ltac:(congruence) ltac:(congruence)). lia.
  - clear -Hs Hrs. induction Hrs as [|[k s] r l rs [Ek _] Hrs IH]; [constructor|]. apply StronglySorted_inv in Hs as [Hs Hall].
    constructor; [by apply IH|]. clear -Hall Hrs Ek. simpl in Ek. subst k.
    induction Hrs as [|[k' s'] r' l rs [Ek' _] _ IH]; [constructor|]. apply Forall_cons in Hall as [Hle Hall].
    constructor; [|by apply IH]. simpl in Ek'. subst k'. exact Hle.
Qed.

Lemma filter_true {A} (l : list A) : filter (λ _, True) l = l.
Proof. induction l as [|x l IH]; [done|]. by rewrite filter_cons_True, IH. Qed.

Lemma runs_in_sheet_rel m M sh : rel m M →
  ∃ rs, runs_in_sheet m sh = Ok rs ∧ runs_map rs = filter (on_sheet sh) M ∧ StronglySorted by_place rs.
Proof.
  intros (R & Hw & Hst & ->). unfold runs_in_sheet. destruct (cells m !! sh) as [map|] eqn:Hm.
  - destruct (sheet_runs m R sh map (λ _, True) (λ _, True) Hw Hst Hm) as (rs & Ers & Hin & Hs); [done|].
    rewrite filter_true in Ers. exists rs. split_and!; [done| |done]. apply (runs_map_filter R rs (λ r, sheet r = sh ∧ True)); [done..|].
    intros r v. unfold on_sheet. simpl. tauto.
  - exists []. split_and!; [done| |constructor]. symmetry. apply map_empty. intros v. apply map_lookup_filter_None. right.
    intros x Hx. by apply (no_sheet m R sh Hw Hst Hm v).
Qed.

Lemma runs_in_cols_rel m M sh c0 c1 : rel m M → c0 ≤ c1 →
  ∃ rs, runs_in_cols m sh c0 c1 = Ok rs ∧ runs_map rs = filter (in_cols sh c0 c1) M ∧ StronglySorted by_place rs.
Proof.
  intros (R & Hw & Hst & ->) Hc. unfold runs_in_cols. destruct (cells m !! sh) as [map|] eqn:Hm.
  - rewrite (proj2 (Z.ltb_ge _ _)) by done. destruct (sheet_runs m R sh map (λ kv, upto_cell (c1, u32_max) kv ∧ ¬ (kv.1.1 < c0 ∨ (kv.1.1 = c0 ∧ kv.1.2 < 0))) (λ r, c0 ≤ col r ≤ c1) Hw Hst Hm)
      as (rs & Ers & Hin & Hs).
    { intros f r s Hf. destruct (wf_key _ Hw _ _ Hf) as [_ ?]. pose proof (wf_sums _ Hw _ _ Hf) as Hfit.
      unfold upto_cell, sums_fit in *. simpl. lia. }
    exists rs. split_and!; [done| |done]. apply (runs_map_filter R rs (λ r, sheet r = sh ∧ c0 ≤ col r ≤ c1)); [done..|].
    intros r v. unfold in_cols. simpl. tauto.
  - exists []. split_and!; [done| |constructor]. symmetry. apply map_empty. intros v. apply map_lookup_filter_None. right.
    intros x Hx [Hsh _]. by apply (no_sheet m R sh Hw Hst Hm v x).
Qed.

(** ** Templates *)

Lemma remap_slots_ok map ss : ∀ rs, NoDup ss → (∀ s, s ∈ ss → (s < length rs)%nat) →
  ∃ rs', remap_slots map ss rs = Ok rs' ∧ length rs' = length rs ∧
    ∀ s, rs' !! s = if decide (s ∈ ss) then with_template map <$> rs !! s else rs !! s.
Proof.
  induction ss as [|t ss IH]; intros rs Hnd Hlt; [by exists rs|]. apply NoDup_cons in Hnd as [Hnt Hnd].
  destruct (lookup_lt_is_Some_2 rs t) as [r Hr]; [apply Hlt; set_solver|]. simpl. rewrite (vm_vec_get_some _ _ _ Hr). cbn [mbind result_bind].
  rewrite vec_set_ok by (apply Hlt; set_solver). cbn [mbind result_bind].
  destruct (IH (<[t := with_template map r]> rs) Hnd) as (rs' & E & Hl & Hrs).
  { intros s Hs. rewrite length_insert. apply Hlt. set_solver. }
  rewrite length_insert in Hl. exists rs'. split_and!; [done..|]. intros s. rewrite Hrs. destruct (decide (s = t)) as [->|Hne].
  - rewrite decide_False by done. rewrite decide_True by set_solver. rewrite list_lookup_insert_eq by (by eapply lookup_lt_Some). by rewrite Hr.
  - rewrite list_lookup_insert_ne by done. repeat case_decide; set_solver.
Qed.

Lemma remap_rel m M map : rel m M → ∃ m', remap map m = Ok m' ∧ rel m' (remap_member map <$> M).
Proof.
  intros (R & Hw & Hst & ->). unfold remap.
  assert (Hin : ∀ p, p ∈ entries (vertices m) ↔ vertices m !! p.1 = Some p.2).
  { intros [k x]. unfold entries. by rewrite merge_sort_Permutation, elem_of_map_to_list. }
  assert (Hss : ∀ s, s ∈ (entries (vertices m)).*2 ↔ ∃ f, vertices m !! f = Some s).
  { intros s. rewrite list_elem_of_fmap. split; [intros ([f t] & -> & Hf%Hin); eauto|]. intros [f Hf]. exists (f, s). split; [done|by apply Hin]. }
  destruct (remap_slots_ok map (entries (vertices m)).*2 (runs m)) as (rs & -> & Hl & Hrs).
  { apply NoDup_fmap_2_strong; [|unfold entries; rewrite merge_sort_Permutation; apply NoDup_map_to_list].
    intros [f s] [f' s'] Hf%Hin Hf'%Hin E. simpl in *. subst. by rewrite (stored_inj _ _ _ _ _ Hw Hst Hf Hf'). }
  { intros s [f Hf]%Hss. destruct (stored_slot _ _ _ _ Hst Hf) as (r & _ & Hr%lookup_lt_Some). done. }
  cbn [mbind result_bind]. eexists. split; [reflexivity|]. exists (with_template map <$> R).
  assert (Hw' : wf (with_template map <$> R)).
  { split.
    - intros f r (r' & <- & Hf)%lookup_fmap_Some. by apply (wf_key _ Hw) in Hf.
    - intros f r (r' & <- & Hf)%lookup_fmap_Some. by apply (wf_sums _ Hw f r').
    - intros f r f' r' (r1 & <- & Hf)%lookup_fmap_Some (r2 & <- & Hf')%lookup_fmap_Some. by apply (wf_vertices _ Hw f r1 f' r2).
    - intros f r f' r' (r1 & <- & Hf)%lookup_fmap_Some (r2 & <- & Hf')%lookup_fmap_Some. by apply (wf_cells _ Hw f r1 f' r2). }
  split_and!; [done| |].
  - split; cbn [vertices runs cells free members].
    + intros f. rewrite lookup_fmap. pose proof (st_vertices _ _ Hst f) as H. destruct (vertices m !! f) as [s|] eqn:Es, (R !! f); try done.
      rewrite Hrs, decide_True by (apply Hss; by exists f). by rewrite H.
    + intros sh key s. rewrite (st_cells _ _ Hst). split.
      * intros (f & r & Hf & Hs & Hsh & Hk). exists f, (with_template map r). by rewrite lookup_fmap, Hf.
      * intros (f & r & (r' & <- & Hf)%lookup_fmap_Some & Hs & Hsh & Hk). exists f, r'. done.
    + apply (st_sheets _ _ Hst).
    + apply (st_free _ _ Hst).
    + intros s Hs. rewrite Hl. by apply (st_unused _ _ Hst).
    + rewrite (st_members _ _ Hst), <- !members_size by done. f_equal. symmetry.
      rewrite <- (map_size_fmap (remap_member map) (members_map R)). f_equal.
      apply map_eq. intros v. apply option_eq. intros x. rewrite lookup_fmap_Some, members_lookup by done. setoid_rewrite members_lookup; [|done].
      split.
      * intros (f & r & (r' & <- & Hf)%lookup_fmap_Some & Hin' & ->). exists (member_at r' (v - first r')). split; [done|eauto].
      * intros (y & <- & f & r & Hf & Hin' & ->). exists f, (with_template map r). by rewrite lookup_fmap, Hf.
  - apply map_eq. intros v. apply option_eq. intros x. rewrite lookup_fmap_Some, members_lookup by done. setoid_rewrite members_lookup; [|done].
    split.
    + intros (y & <- & f & r & Hf & Hin' & ->). exists f, (with_template map r). by rewrite lookup_fmap, Hf.
    + intros (f & r & (r' & <- & Hf)%lookup_fmap_Some & Hin' & ->). exists (member_at r' (v - first r')). split; [done|eauto].
Qed.

(** ** Iteration *)

Lemma seqZ_sorted a n : StronglySorted Z.lt (seqZ a n).
Proof.
  destruct (Z.le_gt_cases n 0); [rewrite seqZ_nil by done; constructor|].
  revert a. assert (Hn : ∃ k, n = Z.of_nat k) by (exists (Z.to_nat n); lia). destruct Hn as [k ->]. clear. induction k as [|k IH]; intros a; [constructor|].
  rewrite seqZ_cons by lia. constructor.
  - replace (Z.pred (Z.of_nat (S k))) with (Z.of_nat k) by lia. apply IH.
  - apply Forall_forall. intros x Hx%elem_of_seqZ. lia.
Qed.

Lemma sorted_concat (rs : list MemberRun) R : wf R → (∀ r, r ∈ rs → ∃ f, R !! f = Some r) → StronglySorted by_first rs → NoDup rs →
  StronglySorted (λ x y, vertex x < vertex y) (rs ≫= λ r, member_at r <$> seqZ 0 (len r)).
Proof.
  intros Hw Hin Hs. induction Hs as [|r rs _ IH Hall]; intros Hnd; [constructor|]. apply NoDup_cons in Hnd as [Hnr Hnd]. simpl.
  assert (Happ : ∀ l l' : list VirtualMember, StronglySorted (λ x y, vertex x < vertex y) l → StronglySorted (λ x y, vertex x < vertex y) l' →
    (∀ x y, x ∈ l → y ∈ l' → vertex x < vertex y) → StronglySorted (λ x y, vertex x < vertex y) (l ++ l')).
  { clear. intros l l' Hl Hl'. induction Hl as [|x l _ IH Hx]; intros H; [done|]. simpl. constructor.
    - apply IH. set_solver.
    - apply Forall_app. split; [done|]. apply Forall_forall. set_solver. }
  apply Happ; [|apply IH; [set_solver|done]|].
  - assert (Hf : ∀ l, StronglySorted Z.lt l → StronglySorted (λ x y, vertex x < vertex y) (member_at r <$> l)).
    { clear. induction 1 as [|i l _ IH Hi]; [constructor|]. simpl. constructor; [done|]. apply Forall_fmap. eapply Forall_impl; [exact Hi|].
      intros j Hj. simpl. lia. }
    apply Hf, seqZ_sorted.
  - intros x y (i & -> & Hi%elem_of_seqZ)%list_elem_of_fmap (r' & (j & -> & Hj%elem_of_seqZ)%list_elem_of_fmap & Hr')%list_elem_of_bind.
    rewrite Forall_forall in Hall. pose proof (Hall r' Hr') as Hle. destruct (Hin r) as [f Hf]; [set_solver|]. destruct (Hin r') as [f' Hf']; [set_solver|].
    destruct (wf_key _ Hw _ _ Hf) as [Ef _], (wf_key _ Hw _ _ Hf') as [Ef' _]. unfold by_first in Hle. simpl. unfold run_vertex.
    assert (f ≠ f') by (intros ->; congruence). pose proof (wf_vertices _ Hw _ _ _ _ Hf Hf' ltac:(lia)). lia.
Qed.

Lemma join_fmap {A B} (f : A → list B) (l : list A) : mjoin (f <$> l) = l ≫= f.
Proof. induction l as [|x l IH]; [done|]. cbn. by rewrite <- IH. Qed.

Lemma iter_rel m M : rel m M → ∃ xs, iter m = Ok xs ∧ xs ≡ₚ (map_to_list M).*2 ∧ StronglySorted (λ x y, vertex x < vertex y) xs.
Proof.
  intros (R & Hw & Hst & ->). unfold iter. destruct (live_runs_ok m R Hw Hst) as (rs & -> & Hin & Hs & Hnd). cbn [mbind result_bind].
  rewrite (mapM_ok _ (λ r, member_at r <$> seqZ 0 (len r))).
  2: { intros r [f Hf]%Hin. apply mapM_ok. intros i Hi%elem_of_seqZ. apply member_at_ok; [by apply (wf_sums _ Hw f)|lia]. }
  eexists. split; [cbn [fmap result_fmap]; by rewrite join_fmap|]. assert (Hsorted := sorted_concat rs R Hw (λ r, proj1 (Hin r)) Hs Hnd). split; [|done].
  assert (Hv : ∀ v x, members_map R !! v = Some x → vertex x = v).
  { intros v x (f & r & _ & _ & ->)%members_lookup; [|done]. simpl. lia. }
  apply NoDup_Permutation.
  - clear -Hsorted. induction Hsorted as [|x l _ IH Hx]; constructor; [|done]. intros Hin. rewrite Forall_forall in Hx. specialize (Hx x Hin). lia.
  - apply NoDup_fmap_2_strong; [|apply NoDup_map_to_list]. intros [v x] [v' x'] H1%elem_of_map_to_list H2%elem_of_map_to_list E. simpl in *. subst.
    apply Hv in H1, H2. congruence.
  - intros x. rewrite list_elem_of_bind, list_elem_of_fmap. split.
    + intros (r & (i & -> & Hi%elem_of_seqZ)%list_elem_of_fmap & [f Hf]%Hin). exists (first r + i, member_at r i). split; [done|].
      apply elem_of_map_to_list, members_lookup; [done|]. exists f, r. unfold in_run. split_and!; [done|lia|lia|f_equal; lia].
    + intros ([v y] & -> & Hy%elem_of_map_to_list). apply members_lookup in Hy as (f & r & Hf & Hv' & ->); [|done].
      exists r. unfold in_run in Hv'. split; [|apply Hin; eauto]. apply list_elem_of_fmap. eexists. split; [done|]. apply elem_of_seqZ. lia.
Qed.

(** * Refinement *)

Lemma lookup_cell_rel m M sh row c : rel m M → ∃ o, by_cell m sh row c = Ok o ∧ spec_out (OpByCell sh row c) M (OutMember o).
Proof.
  intros (R & Hw & Hst & ->). unfold by_cell. destruct (slot_of_cell_spec m R sh row c Hw Hst) as ([s|] & -> & H); cbn [mbind result_bind].
  - destruct H as (f & r & Hf & _ & Hr & Hsh & Hc & Hrow). rewrite (vm_vec_get_some _ _ _ Hr). cbn [mbind result_bind].
    rewrite sub_u32_ok by lia. cbn [mbind result_bind]. rewrite member_at_ok by (lia || by apply (wf_sums _ Hw f)).
    eexists. split; [reflexivity|]. simpl. unfold at_cell. simpl. split_and!; [|done|lia|done].
    apply members_lookup; [done|]. exists f, r. unfold in_run. split_and!; [done|lia|lia|f_equal; lia].
  - eexists. split; [reflexivity|]. intros v x (f & r & Hf & Hin & ->)%members_lookup (Hs & Hr & Hc); [|done]. simpl in *.
    apply (H f r Hf). unfold in_cells, in_run in *. split_and!; done || lia.
Qed.

Lemma exec_rel o m M : rel m M → allowed o M →
  ∃ res m', exec o m = Ok (res, m') ∧ spec_out o M res ∧ rel m' (spec_next o res M).
Proof.
  intros Hrel Ha. destruct o as [run|v|f| |sh|map|sh|sh c0 c1|v|sh row c|v|v| |]; simpl.
  - destruct (insert_rel m M run Hrel Ha) as (m' & -> & Hrel'). by eexists _, _.
  - destruct (take_rel m M v Hrel) as (m' & -> & Hrel'). by eexists _, _.
  - destruct (remove_run_rel m M f Hrel) as (r & m' & -> & Hout & Hrel'). eexists _, _. by split.
  - destruct Hrel as (R & Hw & Hst & ->). unfold drain. destruct (live_runs_ok m R Hw Hst) as (rs & -> & Hin & _).
    cbn [mbind result_bind]. eexists _, _. split; [reflexivity|]. split; [by apply runs_map_all|].
    exists ∅. split_and!; [split; intros *; by rewrite lookup_empty|apply (clear_ok default_members)|done].
  - destruct (drain_sheet_rel m M sh Hrel) as (rs & m' & -> & Hout & Hrel'). by eexists _, _.
  - destruct (remap_rel m M map Hrel) as (m' & -> & Hrel'). by eexists _, _.
  - destruct (runs_in_sheet_rel m M sh Hrel) as (rs & -> & Hout). by eexists _, _.
  - destruct (runs_in_cols_rel m M sh c0 c1 Hrel Ha) as (rs & -> & Hout). by eexists _, _.
  - destruct (by_vertex_rel m M v Hrel) as ([s|] & E & H); unfold by_vertex; rewrite E; cbn [mbind result_bind].
    + destruct H as (R & f & r & Hw & _ & _ & Hf & _ & Hr & Hin & Hv). rewrite (vm_vec_get_some _ _ _ Hr). cbn [mbind result_bind].
      unfold in_run in Hin. rewrite sub_u32_ok by lia. cbn [mbind result_bind].
      rewrite member_at_ok by (lia || by apply (wf_sums _ Hw f)). by eexists _, _.
    + by eexists _, _.
  - destruct (lookup_cell_rel m M sh row c Hrel) as (x & -> & Hout). eexists _, _. split; [reflexivity|]. split; [exact Hout|].
    by destruct x.
  - destruct (by_vertex_rel m M v Hrel) as ([s|] & E & H); unfold run_of; rewrite E; cbn [mbind result_bind].
    + destruct H as (R & f & r & Hw & _ & -> & Hf & _ & Hr & Hin & Hv). rewrite (vm_vec_get_some _ _ _ Hr).
      eexists _, _. split; [reflexivity|]. simpl. split; [|done]. split; [done|].
      apply map_subseteq_spec. intros w x [Hw' ->]%run_map_lookup. apply members_lookup; eauto.
    + by eexists _, _.
  - destruct (by_vertex_rel m M v Hrel) as ([s|] & E & H); unfold contains_vertex; rewrite E; cbn.
    + destruct H as (R & f & r & _ & _ & _ & _ & _ & _ & _ & Hv). eexists _, _. split; [reflexivity|]. by rewrite Hv.
    + eexists _, _. split; [reflexivity|]. by rewrite H.
  - destruct (iter_rel m M Hrel) as (xs & -> & Hout). eexists _, _. split; [reflexivity|]. by split.
  - eexists _, _. split; [reflexivity|]. split; [|done]. destruct Hrel as (R & Hw & Hst & ->). unfold len_members.
    by rewrite (st_members _ _ Hst), members_size.
Qed.

Fixpoint exec_all (os : list op) (m : VirtualMembers) : result Empty_set (list out * VirtualMembers) :=
  match os with
  | [] => Ok ([], m)
  | o :: os => '(res, m) ← exec o m; '(outs, m) ← exec_all os m; Ok (res :: outs, m)
  end.

(** Every run is added where no member is, whatever the operations before it return. *)
Fixpoint allowed_all (os : list op) (M : Members) : Prop :=
  match os with
  | [] => True
  | o :: os => allowed o M ∧ ∀ res, spec_out o M res → allowed_all os (spec_next o res M)
  end.

(** The outputs are those of the specification, which ends with [M']. *)
Fixpoint behaves (os : list op) (M : Members) (outs : list out) (M' : Members) : Prop :=
  match os, outs with
  | [], [] => M' = M
  | o :: os, res :: outs => spec_out o M res ∧ behaves os (spec_next o res M) outs M'
  | _, _ => False
  end.

Lemma exec_all_rel os : ∀ m M, rel m M → allowed_all os M →
  ∃ outs m' M', exec_all os m = Ok (outs, m') ∧ behaves os M outs M' ∧ rel m' M'.
Proof.
  induction os as [|o os IH]; intros m M Hrel Ha; [by exists [], m, M|]. destruct Ha as [Ha Has].
  destruct (exec_rel o m M Hrel Ha) as (res & m1 & E & Hout & Hrel1). destruct (IH m1 _ Hrel1 (Has res Hout)) as (outs & m' & M' & E' & Hb & Hrel').
  exists (res :: outs), m', M'. simpl. rewrite E. cbn [mbind result_bind]. rewrite E'. done.
Qed.

(** C16: the runs of family members are a finite map from vertices to members.  Through any sequence
    of runs added, members taken out (which splits their runs), runs removed, sheets and the whole
    drained and templates remapped, the code does not panic (no [u32] sum or difference overflows), a
    lookup by vertex or by cell finds exactly the member there, a removed or drained run holds exactly
    the members that leave, the runs of a sheet or of a range of its columns hold exactly its members in
    column and row order, and iteration lists every member once in vertex order.  A run is added with at
    least one member, where no member is, and with the vertex and the row behind its last member still
    [u32]s (for a run that ends at vertex or row 2^32 - 1 the sums overflow); the columns of a range are
    in order. *)
Theorem virtual_members_refine os : allowed_all os ∅ →
  ∃ outs m' M', exec_all os default_members = Ok (outs, m') ∧ behaves os ∅ outs M' ∧ rel m' M'.
Proof.
  intros Ha. apply (exec_all_rel os default_members ∅); [|done]. exists ∅. split_and!; [split; intros *; by rewrite lookup_empty|apply (clear_ok default_members)|done].
Qed.

(** * Witnesses *)

(** A run that ends at the last vertex id: the debug assertion of [insert] overflows. *)
Example last_vertex_overflows :
  insert {| sheet := 0; col := 2; row0 := 10; len := 1; first := u32_max; template := 7; anchor := (0, 2) |} default_members = Panic.
Proof. reflexivity. Qed.

Definition column_run (c f : Z) : MemberRun :=
  {| sheet := 0; col := c; row0 := 10; len := 5; first := f; template := 7; anchor := (0, c) |}.
Definition sample_ops : list op :=
  [OpInsert (column_run 2 100); OpInsert (column_run 3 105); OpTake 102; OpByCell 0 13 2; OpLen; OpDrainSheet 0; OpLen].

Lemma virtual_members_refine_witness :
  (∃ m', exec_all [OpInsert (column_run 2 100); OpTake 102; OpByVertex 102; OpByVertex 103] default_members =
    Ok ([OutUnit; OutMember (Some (member_at (column_run 2 100) 2)); OutMember None; OutMember (Some (member_at (column_run 2 100) 3))], m')) ∧
  ∃ outs m' M', exec_all sample_ops default_members = Ok (outs, m') ∧ behaves sample_ops ∅ outs M' ∧ rel m' M'.
Proof.
  split; [eexists; vm_compute; reflexivity|]. apply virtual_members_refine. unfold sample_ops. simpl. split.
  - split_and!; [lia|unfold sums_fit, u32_max; simpl; lia|]. intros v x Hx. by rewrite lookup_empty in Hx.
  - intros res _. rewrite (right_id_L ∅ (∪)). split; [|repeat (intros; split; [done|]); done]. split_and!; [lia|unfold sums_fit, u32_max; simpl; lia|].
    intros v x [Hin ->]%run_map_lookup. unfold in_run, in_cells in *. simpl in *. split; lia.
Defined.
