(* ===== verification/StructuralRuns.v ===== *)
(** Row and column edits of runs of members as blocks
    ([crates/formualizer-eval/src/engine/graph/structural_runs.rs]): a run is split at the edit, and a
    part moves as a block when the edit takes the formulas of its first and last members to one
    template.

    The arena of formulas is the parameter [store_ast], [retrieve_ast]; equality of formulas is that of
    their floats, and the floats of parsed formulas are neither [NaN] nor negative zero, so it is
    decidable equality.  [u32] sums are checked for overflow, as in a debug build: [Panic]. *)
From S2P Require Import Prelude Coords Address Token StructuredRef Reference Parser SheetRegistry Adjust IntervalTree VirtualMembers Relocate.

Local Open Scope Z_scope.

(** * Splitting a run *)

Definition touches_sheet (op : ShiftOperation) (run : MemberRun) : bool := op_sheet_id op =? sheet run.

Definition last_row {E} (row0 len : Z) : result E Z := stop ← add_u32 row0 len; sub_u32 stop 1.

(** The rows [row0..=row1] of a run. *)
Definition run_part (run : MemberRun) (from to : Z) : result Empty_set MemberRun :=
  d ← sub_u32 to from;
  len ← add_u32 d 1;
  off ← sub_u32 from (row0 run);
  first ← add_u32 (first run) off;
  Ok (with_rows run from len first).

(** The parts of a run and how far each moves; [None] sends a part back to the per-vertex path. *)
Definition split_for (op : ShiftOperation) (run : MemberRun) : result Empty_set (list (MemberRun * option (Z * Z))) :=
  if negb (touches_sheet op run) then Ok [(run, Some (0, 0))]
  else
    stop ← last_row (row0 run) (len run);
    match op with
    | InsertRows _ before count =>
        if stop <? before then Ok [(run, Some (0, 0))]
        else if before <=? row0 run then Ok [(run, Some (count, 0))]
        else
          upper_end ← sub_u32 before 1;
          upper ← run_part run (row0 run) upper_end;
          lower ← run_part run before stop;
          Ok [(upper, Some (0, 0)); (lower, Some (count, 0))]
    | DeleteRows _ start count =>
        if stop <? start then Ok [(run, Some (0, 0))]
        else
          limit ← add_u32 start count;
          if limit <=? row0 run then Ok [(run, Some (- count, 0))] else Ok [(run, None)]
    | InsertColumns _ before count =>
        if before <=? col run then Ok [(run, Some (0, count))] else Ok [(run, Some (0, 0))]
    | DeleteColumns _ start count =>
        if col run <? start then Ok [(run, Some (0, 0))]
        else
          limit ← add_u32 start count;
          if limit <=? col run then Ok [(run, Some (0, - count))] else Ok [(run, None)]
    end.

(** * Planning a part *)

Section plan.
Context {F : FloatText} {fold : CaseFold} `{EqDecision f64}.
Context (store_ast : ASTNode → Z) (retrieve_ast : Z → option ASTNode).
Context (registry : SheetRegistry) (range_expansion_limit : Z).

(** The formula of member [i] of a run, as [DependencyGraph::get_formula] renders it. *)
Definition member_formula (run : MemberRun) (i : Z) : result Empty_set (option ASTNode) :=
  match retrieve_ast (VirtualMembers.template run) with
  | None => Ok None
  | Some template => member_ast template (anchor run) (row0 run + i) (col run)
  end.

(** ** Equality of formulas *)

#[export] Instance ExcelErrorKind_eq_dec : EqDecision ExcelErrorKind.
Proof. solve_decision. Defined.
#[export] Instance ExcelError_eq_dec : EqDecision ExcelError.
Proof. solve_decision. Defined.
#[export] Instance LiteralValue_eq_dec : EqDecision LiteralValue.
Proof. solve_decision. Defined.

Definition list_eqb {A} (eqb : A → A → bool) : list A → list A → bool :=
  fix go l l' :=
    match l, l' with
    | [], [] => true
    | x :: l, y :: l' => eqb x y && go l l'
    | _, _ => false
    end.

Fixpoint ast_eqb (a b : ASTNode) : bool :=
  match a, b with
  | Node ta tok b, Node ta' tok' b' =>
      bool_decide (tok = tok') && Bool.eqb b b' &&
      match ta, ta' with
      | Lit v, Lit v' => bool_decide (v = v')
      | Omitted, Omitted => true
      | Parser.Reference o r, Parser.Reference o' r' => bool_decide (o = o') && bool_decide (r = r')
      | UnaryOp op e, UnaryOp op' e' => bool_decide (op = op') && ast_eqb e e'
      | BinaryOp op l r, BinaryOp op' l' r' => bool_decide (op = op') && ast_eqb l l' && ast_eqb r r'
      | Function name args, Function name' args' => bool_decide (name = name') && list_eqb ast_eqb args args'
      | Call callee args, Call callee' args' => ast_eqb callee callee' && list_eqb ast_eqb args args'
      | ArrayLit rows, ArrayLit rows' => list_eqb (list_eqb ast_eqb) rows rows'
      | _, _ => false
      end
  end.

(** [a.as_ref() == Some(b)]. *)
Definition is_some_ast (a : option ASTNode) (b : ASTNode) : bool := match a with Some a => ast_eqb a b | None => false end.

(** ** Dependencies *)

(** The references of two formulas of one shape, in order, behind those found; [None] when the shapes differ. *)
Definition pair_lists {A P} (f : A → A → list P → option (list P)) : list A → list A → list P → option (list P) :=
  fix go x y out :=
    match x, y with
    | [], [] => Some out
    | p :: x, q :: y => out ← f p q out; go x y out
    | _, _ => None
    end.

Fixpoint paired_references (a b : ASTNode) (out : list (ReferenceType * ReferenceType))
  : option (list (ReferenceType * ReferenceType)) :=
  match node_type a, node_type b with
  | Parser.Reference _ x, Parser.Reference _ y => Some (out ++ [(x, y)])
  | Lit _, Lit _ | Omitted, Omitted => Some out
  | UnaryOp _ x, UnaryOp _ y => paired_references x y out
  | BinaryOp _ xl xr, BinaryOp _ yl yr => out ← paired_references xl yl out; paired_references xr yr out
  | Function _ x, Function _ y => pair_lists paired_references x y out
  | Call xc x, Call yc y => out ← paired_references xc yc out; pair_lists paired_references x y out
  | ArrayLit x, ArrayLit y => pair_lists (pair_lists paired_references) x y out
  | _, _ => None
  end.

Definition sheet_of (part : MemberRun) (name : option bytes) : option Z :=
  match name with None => Some (sheet part) | Some name => get_id registry name end.

Definition span (a b : Z) : result Empty_set Z := add_u32 (Z.max a b - Z.min a b) 1.

(** An endpoint's row for member [i]. *)
Definition endpoint (row : Z) (abs : bool) (i : Z) : result Empty_set Z := if abs then Ok row else add_u32 row i.

(** The loop over the members [i..]. *)
Fixpoint same_areas (p q : RangePart) (sr er nsr ner width nwidth : Z) (ks : list Z) : result Empty_set bool :=
  match ks with
  | [] => Ok true
  | i :: ks =>
      a ← endpoint sr (start_row_abs p) i;
      b ← endpoint er (end_row_abs p) i;
      na ← endpoint nsr (start_row_abs q) i;
      nb ← endpoint ner (end_row_abs q) i;
      height ← span a b;
      nheight ← span na nb;
      let area := height * width in
      let narea := nheight * nwidth in
      if (range_expansion_limit <? area) && (range_expansion_limit <? narea) then same_areas p q sr er nsr ner width nwidth ks
      else if negb (area =? narea) then Ok false
      else same_areas p q sr er nsr ner width nwidth ks
  end.

Definition is_open (x : option Z) : bool := match x with Some _ => false | None => true end.

Definition pair_preserved (part : MemberRun) (x y : ReferenceType) : result Empty_set bool :=
  match x, y with
  | Cell name _, Cell _ _ => Ok (bool_decide (is_Some (sheet_of part name)))
  | Range name p, Range _ q =>
      match start_row p, start_col p, end_row p, end_col p, start_row q, start_col q, end_row q, end_col q with
      | Some sr, Some sc, Some er, Some ec, Some nsr, Some nsc, Some ner, Some nec =>
          if bool_decide (sheet_of part name = None) then Ok false
          else
            width ← span ec sc;
            nwidth ← span nec nsc;
            same_areas p q sr er nsr ner width nwidth (seqZ 0 (len part))
      | _, _, _, _, _, _, _, _ =>
          Ok (Bool.eqb (is_open (start_row p)) (is_open (start_row q)) && Bool.eqb (is_open (end_row p)) (is_open (end_row q)) &&
              Bool.eqb (is_open (start_col p)) (is_open (start_col q)) && Bool.eqb (is_open (end_col p)) (is_open (end_col q)))
      end
  | NamedRange _, NamedRange _ => Ok true
  | _, _ => Ok false
  end.

Fixpoint pairs_preserved (part : MemberRun) (pairs : list (ReferenceType * ReferenceType)) : result Empty_set bool :=
  match pairs with
  | [] => Ok true
  | (x, y) :: pairs =>
      same ← pair_preserved part x y;
      if (same : bool) then pairs_preserved part pairs else Ok false
  end.

Definition member_deps_preserved (old new : ASTNode) (part : MemberRun) : result Empty_set bool :=
  match paired_references old new [] with
  | None => Ok false
  | Some pairs => pairs_preserved part pairs
  end.

(** ** The plan *)

Inductive PartPlan : Type :=
| Unchanged (part : MemberRun)
| Shifted (run : MemberRun) (dr dc : Z) (adjusted : option (ASTNode * ASTNode))
| Materialize (part : MemberRun).

(** Whether a rewritten part keeps its references. *)
Definition rewrite_ok (part : MemberRun) (a_first : option ASTNode) (f_first new_first : ASTNode) : result Empty_set bool :=
  match a_first with
  | Some _ =>
      match reference_count f_first with
      | None => Ok false
      | Some _ as count =>
          if bool_decide (count ≠ reference_count new_first) then Ok false
          else member_deps_preserved f_first new_first part
      end
  | None => Ok (bool_decide (is_Some (reference_count f_first)))
  end.

(** The template and anchor of a shifted part: its own if it fits, and otherwise the first member's new formula. *)
Definition new_template (template : ASTNode) (part : MemberRun) (new_row0 new_col new_last : Z) (new_first_ast new_last_ast : ASTNode)
  : result Empty_set (option (Z * (Z * Z))) :=
  at_first ← member_ast template (anchor part) new_row0 new_col;
  fits ← (if is_some_ast at_first new_first_ast
          then at_last ← member_ast template (anchor part) new_last new_col; Ok (is_some_ast at_last new_last_ast)
          else Ok false);
  if (fits : bool) then Ok (Some (VirtualMembers.template part, anchor part))
  else
    let id := store_ast new_first_ast in
    match retrieve_ast id with
    | None => Ok None
    | Some stored =>
        if negb (ast_eqb stored new_first_ast) then Ok None
        else
          at_last ← member_ast stored (new_row0, new_col) new_last new_col;
          Ok (if is_some_ast at_last new_last_ast then Some (id, (new_row0, new_col)) else None)
    end.

Definition plan_members (op : ShiftOperation) (template : ASTNode) (part : MemberRun) (dr dc : Z) (f_first f_last : ASTNode)
  : result Empty_set PartPlan :=
  let ctx := {| formula_sheet_id := sheet part; sheet_registry := registry |} in
  a_first ← adjust_ast_if_changed_in_context f_first op ctx;
  a_last ← adjust_ast_if_changed_in_context f_last op ctx;
  if negb (Bool.eqb (is_changed a_first) (is_changed a_last)) then Ok (Materialize part)
  else if negb (is_changed a_first) && (dr =? 0) && (dc =? 0) then Ok (Unchanged part)
  else
    let new_row0 := row0 part + dr in
    let new_col := col part + dc in
    if negb (bool_decide (in_u32 new_row0) && bool_decide (in_u32 new_col)) then Ok (Materialize part)
    else
      new_last ← last_row new_row0 (len part);
      let new_first_ast := default f_first a_first in
      let new_last_ast := default f_last a_last in
      keeps ← rewrite_ok part a_first f_first new_first_ast;
      if negb keeps then Ok (Materialize part)
      else
        found ← new_template template part new_row0 new_col new_last new_first_ast new_last_ast;
        match found with
        | None => Ok (Materialize part)
        | Some (id, anchor) =>
            Ok (Shifted
                  {| sheet := sheet part; col := new_col; row0 := new_row0; len := len part; first := first part;
                     VirtualMembers.template := id; VirtualMembers.anchor := anchor |}
                  dr dc ((λ a, (f_first, a)) <$> a_first))
        end.

(** The plan as a release build makes it: a debug build also calls [debug_check_shifted_part] on a shifted
    part, which compares every member's formula with its own rewrite and changes no state. *)
Definition plan_part (op : ShiftOperation) (part : MemberRun) (dr dc : Z) : result Empty_set PartPlan :=
  match retrieve_ast (VirtualMembers.template part) with
  | None => Ok (Materialize part)
  | Some template =>
      last ← last_row (row0 part) (len part);
      f_first ← member_ast template (anchor part) (row0 part) (col part);
      f_last ← member_ast template (anchor part) last (col part);
      match f_first, f_last with
      | Some f_first, Some f_last => plan_members op template part dr dc f_first f_last
      | _, _ => Ok (Materialize part)
      end
  end.

End plan.
