(* ===== verification/BlockShift.v ===== *)
(** Structural edits of runs of members ([plan_part] of [engine/graph/structural_runs.rs]): when the
    edit takes the formulas of a run's first and last members to the first and last members of one
    template, it takes every member's formula to that template's member. *)
From S2P Require Import Prelude IntervalTree VirtualMembers Coords Address StructuredRef Reference ReferenceTheorems Parser SheetRegistry Adjust AdjustTheorems Relocate RelocateTheorems StructuralRuns.

Local Open Scope Z_scope.

(** * One axis, from 0 *)







(** * A run on one axis

    The bounds of a member are those of the first, the relative ones moved by its index. *)







(** * References *)

Section references.
Context {F : FloatText} {fold : CaseFold}.
Context (op : ShiftOperation) (ctx : option ReferenceContext).










(** ** Between two members *)










(** *** Cells *)










End references.

(** * Formulas *)

Section formulas.
Context {F : FloatText} {fold : CaseFold}.







(** ** The shape of a formula *)





Section paired.
Context (f : ReferenceType → ReferenceAdjustment) (g : ReferenceType → ReferenceType).





End paired.


(** ** What [reference_count] tells *)






Section run.
Context (op : ShiftOperation) (ctx : ReferenceContext).

#[local] Abbreviation adj := (adjustment op Track (Some ctx)).






(** ** The members of a template *)






(** ** Every member between the first and the last *)

Section between.
Context (T T' : ASTNode) (d c d' c' n : Z).
Hypothesis (Hop : op_ok op) (HT : Forall valid_ref (references T)).

#[local] Abbreviation at_ k := (λ r, moved_ref (d + k) c r).
#[local] Abbreviation at_' k := (λ r, moved_ref (d' + k) c' r).
#[local] Abbreviation adjusts_at k := (λ r, adjusts op Track (Some ctx) (at_ k r)).
#[local] Abbreviation exact k := (λ r r', adjust_reference (at_ k r) op Track (Some ctx) = Ok (Adjusted (at_' k r'))).






End between.



End run.




(** ** Equality of formulas *)

Section equality.
Context `{EqDecision f64}.



End equality.

Lemma last_row_ok {E} x n : 0 ≤ x → 0 < n → x + n ≤ u32_max → last_row (E := E) x n = Ok (x + n - 1).
Proof.
  intros Hx Hn Hm. unfold last_row. rewrite add_u32_ok by done. cbn [mbind result_bind]. unfold sub_u32, checked_sub.
  by rewrite decide_True by lia.
Qed.

(** ** The plan of a part *)

Section plan.
Context `{EqDecision f64}.
Context (store_ast : ASTNode → Z) (retrieve_ast : Z → option ASTNode) (registry : SheetRegistry) (limit : Z).
Context (op : ShiftOperation) (part : MemberRun).
Hypothesis (Hop : op_ok op).
(** The formulas of the arena have their references on the sheet. *)
Hypothesis (Hvalid : ∀ id T, retrieve_ast id = Some T → Forall valid_ref (references T)).


Definition run_ok (run : MemberRun) : Prop :=
  in_u32 (row0 run) ∧ in_u32 (VirtualMembers.col run) ∧ in_u32 (VirtualMembers.anchor run).1 ∧ in_u32 (VirtualMembers.anchor run).2 ∧
  0 < len run ∧ row0 run + len run ≤ u32_max.
Hypothesis (Hpart : run_ok part).









(** ** The plan exists *)

















End plan.
End formulas.

(** * Splitting *)

Section split.
Context (op : ShiftOperation) (run : MemberRun).

(** What the edit does to a cell of the run's sheet. *)
Definition cell_goes (cell : Z * Z) : option (Z * Z) :=
  if touches_sheet op run then cell_moved op cell else Some cell.

(** A part is moved by the edit as a whole, or the edit deletes rows or the column of it. *)
Definition part_moves (p : MemberRun * option (Z * Z)) : Prop :=
  let '(part, shift) := p in
  0 < len part ∧
  match shift with
  | Some (dr, dc) => ∀ i, 0 ≤ i < len part →
      cell_goes (row0 part + i, VirtualMembers.col part) = Some (row0 part + i + dr, VirtualMembers.col part + dc)
  | None => ∃ i, 0 ≤ i < len part ∧ cell_goes (row0 part + i, VirtualMembers.col part) = None
  end.

Lemma run_part_ok from to : 0 ≤ row0 run ≤ from → from ≤ to → to < u32_max → 0 ≤ first run → first run + (from - row0 run) ≤ u32_max →
  run_part run from to = Ok (with_rows run from (to - from + 1) (first run + (from - row0 run))).
Proof.
  intros Hf Ht Hm H0 H1. unfold run_part, sub_u32, checked_sub. rewrite decide_True by lia. cbn [expect mbind result_bind].
  rewrite add_u32_ok by lia. cbn [mbind result_bind]. rewrite decide_True by lia. cbn [expect mbind result_bind].
  by rewrite add_u32_ok by lia.
Qed.

Lemma seqZ_split a n : 0 ≤ a ≤ n → seqZ 0 n = seqZ 0 a ++ ((λ i, a + i) <$> seqZ 0 (n - a)).
Proof.
  intros Ha. rewrite fmap_add_seqZ, Z.add_0_r. replace n with (a + (n - a)) at 1 by lia.
  by rewrite seqZ_app, Z.add_0_l by lia.
Qed.

Definition op_count : Z :=
  match op with InsertRows _ _ n | DeleteRows _ _ n | InsertColumns _ _ n | DeleteColumns _ _ n => n end.

(** C20: an edit splits a run of members into parts that hold its members in order, each with at
    least one, and moves each part as the edit moves its cells; a part is sent back to the per-vertex
    path only when the edit deletes one of its cells.  Listing the members of a part does not overflow.
    The edit inserts or deletes at least one row or column and its own [u32] sum does not overflow; the
    run has at least one member, and the vertex and row behind its last member are [u32]s. *)
Theorem split_exact : op_ok op → 0 < op_count → run_ok run → 0 ≤ first run → first run + len run ≤ u32_max →
  ∃ parts, split_for op run = Ok parts ∧
    (parts ≫= λ p, run_members p.1) = run_members run ∧ Forall part_moves parts ∧
    Forall (λ p, members_of p.1 = Ok (run_members p.1)) parts.
Proof.
  intros [Hrow Hcol] Hcount (Hr & Hc & _ & _ & Hlen & Hmax) Hf1 Hf2. unfold in_u32, op_count in *. unfold split_for.
  assert (Hone : ∀ shift, part_moves (run, shift) →
    ∃ parts, Ok (E := Empty_set) [(run, shift)] = Ok parts ∧ (parts ≫= λ p, run_members p.1) = run_members run ∧ Forall part_moves parts ∧
      Forall (λ p, members_of p.1 = Ok (run_members p.1)) parts).
  { intros shift Hp. eexists. split; [reflexivity|]. split_and!; [simpl; by rewrite app_nil_r|by constructor|].
    constructor; [apply members_of_ok; simpl; lia|constructor]. }
  unfold part_moves, cell_goes in *. destruct (touches_sheet op run); cbn [negb].
  2: { apply Hone. split; [done|]. intros i Hi. by rewrite !Z.add_0_r. }
  rewrite last_row_ok by lia. cbn [mbind result_bind].
  destruct op as [s b n|s b n|s b n|s b n]; unfold cell_moved in *; simpl in Hrow, Hcol;
    cbn [rows_op cols_op index_moved fst snd mbind option_bind] in *.
  - destruct (Z.ltb_spec (row0 run + len run - 1) b); [|destruct (Z.leb_spec b (row0 run))].
    + apply Hone. split; [done|]. intros i Hi. rewrite (proj2 (Z.ltb_lt _ _)) by lia. by rewrite !Z.add_0_r.
    + apply Hone. split; [done|]. intros i Hi. rewrite (proj2 (Z.ltb_ge _ _)) by lia. by rewrite Z.add_0_r.
    + unfold sub_u32 at 1, checked_sub. rewrite decide_True by lia. cbn [expect mbind result_bind].
      rewrite !run_part_ok by lia. cbn [mbind result_bind]. eexists. split; [reflexivity|]. split_and!.
      * simpl. rewrite app_nil_r. unfold run_members, with_rows. cbn [first row0 len].
        rewrite (seqZ_split (b - row0 run) (len run)), fmap_app by lia. rewrite <- list_fmap_compose.
        replace (b - 1 - row0 run + 1) with (b - row0 run) by lia. replace (row0 run + len run - 1 - b + 1) with (len run - (b - row0 run)) by lia.
        f_equal; apply list_fmap_ext; intros k x Hx; simpl; f_equal; lia.
      * constructor; [|constructor; [|constructor]]; unfold with_rows; cbn; (split; [lia|]); intros i Hi.
        -- rewrite (proj2 (Z.ltb_lt _ _)) by lia. by rewrite !Z.add_0_r.
        -- rewrite (proj2 (Z.ltb_ge _ _)) by lia. by rewrite Z.add_0_r.
      * repeat constructor; apply members_of_ok; simpl; lia.
  - destruct (Z.ltb_spec (row0 run + len run - 1) b).
    { apply Hone. split; [done|]. intros i Hi. rewrite (proj2 (Z.ltb_lt _ _)) by lia. by rewrite !Z.add_0_r. }
    rewrite add_u32_ok by lia. cbn [mbind result_bind]. destruct (Z.leb_spec (b + n) (row0 run)); apply Hone; (split; [done|]).
    + intros i Hi. rewrite (proj2 (Z.ltb_ge (row0 run + i) b)), (proj2 (Z.ltb_ge (row0 run + i) (b + n))) by lia.
      cbn. do 2 f_equal; lia.
    + exists (Z.max 0 (b - row0 run)). split; [lia|].
      by rewrite (proj2 (Z.ltb_ge (row0 run + _) b)), (proj2 (Z.ltb_lt (row0 run + _) (b + n))) by lia.
  - destruct (Z.leb_spec b (VirtualMembers.col run)); apply Hone; (split; [done|]); intros i Hi.
    + rewrite (proj2 (Z.ltb_ge _ _)) by lia. by rewrite Z.add_0_r.
    + rewrite (proj2 (Z.ltb_lt _ _)) by lia. by rewrite !Z.add_0_r.
  - destruct (Z.ltb_spec (VirtualMembers.col run) b).
    { apply Hone. split; [done|]. intros i Hi. by rewrite !Z.add_0_r. }
    rewrite add_u32_ok by lia. cbn [mbind result_bind]. destruct (Z.leb_spec (b + n) (VirtualMembers.col run)); apply Hone; (split; [done|]).
    + intros i Hi. rewrite (proj2 (Z.ltb_ge _ (b + n))) by lia. cbn. do 2 f_equal; lia.
    + exists 0. split; [lia|]. by rewrite (proj2 (Z.ltb_lt _ (b + n))) by lia.
Qed.

End split.

(** * Witnesses *)


Definition sample_run : MemberRun :=
  {| VirtualMembers.sheet := 0; VirtualMembers.col := 1; row0 := 10; len := 4; first := 100; template := 1; VirtualMembers.anchor := (10, 1) |}.

#[local] Instance text_eq_dec : EqDecision (f64 (FloatText := text_floats)) := list_eq_dec.






Lemma split_exact_witness :
  split_for (InsertRows 0 12 2) sample_run =
    Ok [(with_rows sample_run 10 2 100, Some (0, 0)); (with_rows sample_run 12 2 102, Some (2, 0))] ∧
  ∃ parts, split_for (InsertRows 0 12 2) sample_run = Ok parts ∧
    (parts ≫= λ p, run_members p.1) = run_members sample_run ∧ Forall (part_moves (InsertRows 0 12 2) sample_run) parts ∧
    Forall (λ p, members_of p.1 = Ok (run_members p.1)) parts.
Proof.
  split; [vm_compute; reflexivity|].
  apply split_exact; unfold op_ok, run_ok, in_u32; simpl; unfold u32_max; lia.
Defined.
