(* ===== verification/ChangeLog.v ===== *)
(** The change log ([crates/formualizer-eval/src/engine/graph/editor/change_log.rs]): the audit trail
    of the graph's edits, whose records of whole runs of rewritten formulas stay unexpanded until the log
    is read, and the capture of one operation's edits.

    Cell values, named definitions and vertex kinds are types of the model, for the log only stores
    them.  [Vec]s are lists and [usize]s [nat]s; sequence numbers and group ids are counters of [Z] (2^64
    events are out of reach); an index out of range, an [expect] that fails and a [u32] sum that
    overflows are [Panic].  A shared read that expands the log in place returns the log with its result;
    [Arc] and the work counter of the tests are left out. *)
From S2P Require Import Prelude Coords Address StructuredRef Reference Parser SheetRegistry Adjust Relocate.

Local Open Scope Z_scope.

Record ChangeEventMeta : Type := { actor_id : option bytes; correlation_id : option bytes; reason : option bytes }.
Definition default_meta : ChangeEventMeta := {| actor_id := None; correlation_id := None; reason := None |}.

Inductive NameScope : Type := Workbook | Sheet (sheet : Z).
Inductive RowVisibilitySource : Type := Manual | Filter.

Section change_log.
Context {F : FloatText} {Value NamedDefinition VertexKind : Type}.

Record SpillSnapshot : Type := { target_cells : list CellRef; values : list (list Value) }.

(** Vertices and sheets are their numbers, and a grid address is its packed coordinate. *)
Inductive ChangeEvent : Type :=
| SetValue (addr : CellRef) (old_value : option Value) (old_formula : option ASTNode) (new : Value)
| SetFormula (addr : CellRef) (old_value : option Value) (old_formula : option ASTNode) (new : ASTNode)
| SetRowVisibility (sheet row0 : Z) (source : RowVisibilitySource) (old_hidden new_hidden : bool)
| AddVertex (id : Z) (coord : Coord.t) (sheet : Z) (value : option Value) (formula : option ASTNode)
    (kind : option VertexKind) (vflags : option Z)
| RemoveVertex (id : Z) (old_value : option Value) (old_formula : option ASTNode)
    (old_dependencies old_dependents : list Z) (coord : option Coord.t) (sheet : option Z)
    (kind : option VertexKind) (vflags : option Z)
| CompoundStart (description : bytes) (depth : nat)
| CompoundEnd (depth : nat)
| VertexMoved (id sheet : Z) (old_coord new_coord : Coord.t)
| FormulaAdjusted (id : Z) (addr : option CellRef) (old_ast new_ast : ASTNode)
| NamedRangeAdjusted (name : bytes) (scope : NameScope) (old_definition new_definition : NamedDefinition)
| EdgeAdded (from to : Z)
| EdgeRemoved (from to : Z)
| DefineName (name : bytes) (scope : NameScope) (definition : NamedDefinition)
| UpdateName (name : bytes) (scope : NameScope) (old_definition new_definition : NamedDefinition)
| DeleteName (name : bytes) (scope : NameScope) (old_definition : option NamedDefinition)
| SpillCommitted (anchor : Z) (old : option SpillSnapshot) (new : SpillSnapshot)
| SpillCleared (anchor : Z) (old : SpillSnapshot)
| StagedFormulaCellChanged (sheet : bytes) (row col : Z) (old new : option bytes).

(** * Runs of rewritten formulas *)

Record FormulaRunAdjusted : Type := {
  run_first : Z; run_length : Z; run_sheet : Z; run_col : Z; run_row0 : Z; old_first : ASTNode; new_first : ASTNode
}.
Definition run_len (run : FormulaRunAdjusted) : nat := Z.to_nat (run_length run).

(** [Result::expect]. *)
Definition expect_ok {A} (m : result ExcelError A) : result Empty_set A := match m with Ok a => Ok a | _ => Panic end.

Definition member_relocate (i : Z) (ast : ASTNode) : result Empty_set ASTNode :=
  if i =? 0 then Ok ast else expect_ok (instantiate_member_ast ast i 0).

(** Member [i]'s event. *)
Definition event (run : FormulaRunAdjusted) (i : Z) : result Empty_set ChangeEvent :=
  id ← add_u32 (run_first run) i;
  row ← add_u32 (run_row0 run) i;
  coord ← RelativeCoord.new row (run_col run) true true;
  old_ast ← member_relocate i (old_first run);
  new_ast ← member_relocate i (new_first run);
  Ok (FormulaAdjusted id (Some {| sheet_id := run_sheet run; cell_coord := coord |}) old_ast new_ast).

Definition run_events (run : FormulaRunAdjusted) : result Empty_set (list ChangeEvent) :=
  collect (event run) (seqZ 0 (run_length run)).

(** * The retained events *)

Record LazyEntry : Type := {
  e_pos : nat; e_seq0 : Z; e_group : option Z; e_meta : ChangeEventMeta; e_run : FormulaRunAdjusted
}.

(** Four parallel vectors, and the records not yet expanded into them. *)
Record Retained : Type := {
  events : list ChangeEvent; metas : list ChangeEventMeta; seqs : list Z; groups : list (option Z); lazy : list LazyEntry
}.
Definition default_retained : Retained := {| events := []; metas := []; seqs := []; groups := []; lazy := [] |}.

Definition push_row (event : ChangeEvent) (meta : ChangeEventMeta) (seq : Z) (group : option Z) (r : Retained) : Retained :=
  {| events := events r ++ [event]; metas := metas r ++ [meta]; seqs := seqs r ++ [seq]; groups := groups r ++ [group]; lazy := lazy r |}.

(** [Vec::split_off]: the elements from [at_] on leave. *)
Definition split_off {A} (at_ : nat) (l : list A) : result Empty_set (list A * list A) :=
  if (length l <? at_)%nat then Panic else Ok (take at_ l, drop at_ l).

Definition tail_row : Type := (ChangeEvent * ChangeEventMeta) * (Z * option Z).
Definition push_tail (row : tail_row) (r : Retained) : Retained :=
  let '((event, meta), (seq, group)) := row in push_row event meta seq group r.

(** [while p < entry.pos]: the next [n] rows of the tail. *)
Fixpoint move_rows (n : nat) (tail : list tail_row) (r : Retained) : result Empty_set (Retained * list tail_row) :=
  match n with
  | O => Ok (r, tail)
  | S n => match tail with [] => Panic | row :: tail => move_rows n tail (push_tail row r) end
  end.

(** The events of a record, with consecutive sequence numbers. *)
Fixpoint push_members (evs : list ChangeEvent) (i : Z) (entry : LazyEntry) (r : Retained) : Retained :=
  match evs with
  | [] => r
  | ev :: evs => push_members evs (i + 1) entry (push_row ev (e_meta entry) (e_seq0 entry + i) (e_group entry) r)
  end.

Fixpoint expand_entries (p : nat) (entries : list LazyEntry) (tail : list tail_row) (r : Retained)
  : result Empty_set (Retained * list tail_row) :=
  match entries with
  | [] => Ok (r, tail)
  | entry :: entries =>
      '(r, tail) ← move_rows (e_pos entry - p) tail r;
      evs ← run_events (e_run entry);
      expand_entries (Nat.max p (e_pos entry)) entries tail (push_members evs 0 entry r)
  end.

(** Expands every pending record in place; the number counts the events written. *)
Definition expand (r : Retained) : result Empty_set (Retained * nat) :=
  match lazy r with
  | [] => Ok (r, 0%nat)
  | entry :: _ =>
      let start := e_pos entry in
      '(head_events, tail_events) ← split_off start (events r);
      '(head_metas, tail_metas) ← split_off start (metas r);
      '(head_seqs, tail_seqs) ← split_off start (seqs r);
      '(head_groups, tail_groups) ← split_off start (groups r);
      let added := sum_list_with (λ e, run_len (e_run e)) (lazy r) in
      let head := {| events := head_events; metas := head_metas; seqs := head_seqs; groups := head_groups; lazy := [] |} in
      '(r, tail) ← expand_entries start (lazy r) (zip (zip tail_events tail_metas) (zip tail_seqs tail_groups)) head;
      Ok (foldl (λ r row, push_tail row r) r tail, (length tail_events + added)%nat)
  end.

(** [expanded] is the [OnceLock]; [len] counts the pending records' events too. *)
Record RetainedCell : Type := { inner : Retained; expanded : bool; r_len : nat; pending_records : nat }.
Definition default_cell : RetainedCell := {| inner := default_retained; expanded := true; r_len := 0; pending_records := 0 |}.

(** A shared read. *)
Definition get (c : RetainedCell) : result Empty_set RetainedCell :=
  if expanded c then Ok c
  else
    '(r, _) ← expand (inner c);
    Ok {| inner := r; expanded := true; r_len := r_len c; pending_records := pending_records c |}.

Definition settle (c : RetainedCell) : result Empty_set RetainedCell :=
  if expanded c then Ok c
  else
    '(r, _) ← expand (inner c);
    Ok {| inner := r; expanded := true; r_len := r_len c; pending_records := 0 |}.

Definition plain_len (c : RetainedCell) : nat := length (events (inner c)).

Definition push (event : ChangeEvent) (meta : ChangeEventMeta) (seq : Z) (group : option Z) (c : RetainedCell) : RetainedCell :=
  {| inner := push_row event meta seq group (inner c); expanded := expanded c; r_len := S (r_len c);
     pending_records := pending_records c |}.

Definition push_run (entry : LazyEntry) (c : RetainedCell) : RetainedCell :=
  let r := inner c in
  {| inner := {| events := events r; metas := metas r; seqs := seqs r; groups := groups r; lazy := lazy r ++ [entry] |};
     expanded := false; r_len := r_len c + run_len (e_run entry); pending_records := S (pending_records c) |}.

(** The settled cell with its vectors changed alike. *)
Definition with_vectors (f : ∀ A, list A → list A) (c : RetainedCell) : RetainedCell :=
  let r := inner c in
  let r := {| events := f _ (events r); metas := f _ (metas r); seqs := f _ (seqs r); groups := f _ (groups r); lazy := lazy r |} in
  {| inner := r; expanded := expanded c; r_len := length (events r); pending_records := pending_records c |}.

Definition drain_front (n : nat) (c : RetainedCell) : result Empty_set RetainedCell :=
  c ← settle c;
  let r := inner c in
  if (length (events r) <? n)%nat || (length (metas r) <? n)%nat || (length (seqs r) <? n)%nat || (length (groups r) <? n)%nat
  then Panic
  else Ok (with_vectors (λ _, drop n) c).

Definition truncate_cell (n : nat) (c : RetainedCell) : result Empty_set RetainedCell :=
  c ← settle c; Ok (with_vectors (λ _, take n) c).

Definition split_cell (index : nat) (c : RetainedCell) : result Empty_set (list ChangeEvent * RetainedCell) :=
  c ← settle c;
  let r := inner c in
  if (length (events r) <? index)%nat || (length (metas r) <? index)%nat || (length (seqs r) <? index)%nat || (length (groups r) <? index)%nat
  then Panic
  else Ok (drop index (events r), with_vectors (λ _, take index) c).

Definition clear_cell (c : RetainedCell) : RetainedCell := default_cell.

(** * The capture of one operation's edits *)

(** A run record [(pos, run)] stands for the run's events before event [pos]. *)
Record MutationCapture : Type := {
  c_events : list ChangeEvent; c_lazy : list (nat * FormulaRunAdjusted); c_depth : nat; c_meta : ChangeEventMeta
}.

Definition new_capture (current_meta : ChangeEventMeta) : MutationCapture :=
  {| c_events := []; c_lazy := []; c_depth := 0; c_meta := current_meta |}.
Definition capture_len (c : MutationCapture) : nat := length (c_events c).
Definition lazy_len (c : MutationCapture) : nat := length (c_lazy c).

Definition push_event (event : ChangeEvent) (c : MutationCapture) : MutationCapture :=
  {| c_events := c_events c ++ [event]; c_lazy := c_lazy c; c_depth := c_depth c; c_meta := c_meta c |}.
Definition with_c_depth (depth : nat) (c : MutationCapture) : MutationCapture :=
  {| c_events := c_events c; c_lazy := c_lazy c; c_depth := depth; c_meta := c_meta c |}.

Definition record_lazy (run : FormulaRunAdjusted) (c : MutationCapture) : MutationCapture :=
  if run_length run =? 0 then c
  else
    {| c_events := c_events c; c_lazy := c_lazy c ++ [(length (c_events c), run)]; c_depth := c_depth c; c_meta := c_meta c |}.

(** [while k < lazy.len() && lazy[k].0 <= p]: the events of the records up to [p], and the other records. *)
Fixpoint runs_upto (p : nat) (lazy : list (nat * FormulaRunAdjusted))
  : result Empty_set (list ChangeEvent * list (nat * FormulaRunAdjusted)) :=
  match lazy with
  | [] => Ok ([], [])
  | (pos, run) :: rest =>
      if (pos <=? p)%nat then
        evs ← run_events run;
        '(more, others) ← runs_upto p rest;
        Ok (evs ++ more, others)
      else Ok ([], lazy)
  end.

(** [for p in start..=events.len()]: [n] more positions from [p] on. *)
Fixpoint expanded_from (n p : nat) (events : list ChangeEvent) (lazy : list (nat * FormulaRunAdjusted))
  : result Empty_set (list ChangeEvent) :=
  match n with
  | O => Ok []
  | S n =>
      '(evs, lazy) ← runs_upto p lazy;
      more ← expanded_from n (S p) events lazy;
      Ok (evs ++ option_list (events !! p) ++ more)
  end.

Definition expanded_events_from (start lazy_start : nat) (c : MutationCapture) : result Empty_set (list ChangeEvent) :=
  expanded_from (S (length (c_events c)) - start) start (c_events c) (drop (Nat.min lazy_start (length (c_lazy c))) (c_lazy c)).

Definition capture_record (event : ChangeEvent) (c : MutationCapture) : MutationCapture := push_event event c.
Definition capture_begin_compound (description : bytes) (c : MutationCapture) : MutationCapture :=
  push_event (CompoundStart description (S (c_depth c))) (with_c_depth (S (c_depth c)) c).
Definition capture_end_compound (c : MutationCapture) : MutationCapture :=
  match c_depth c with
  | O => c
  | S depth => with_c_depth depth (push_event (CompoundEnd (S depth)) c)
  end.

Fixpoint close_loop (n : nat) (c : MutationCapture) : MutationCapture :=
  match n with O => c | S n => close_loop n (capture_end_compound c) end.
Definition close_compounds (c : MutationCapture) : MutationCapture := close_loop (c_depth c) c.

(** ** The description of a compound *)

(** Backwards from an end marker, [open] compounds being open. *)
Fixpoint start_description (open : nat) (before : list ChangeEvent) : option bytes :=
  match before with
  | [] => None
  | CompoundEnd _ :: before => start_description (S open) before
  | CompoundStart description _ :: before =>
      if (open =? 1)%nat then Some description else start_description (open - 1) before
  | _ :: before => start_description open before
  end.

Definition compound_start_description (stop : nat) (events : list ChangeEvent) : result Empty_set (option bytes) :=
  event ← vec_get events stop;
  match event with
  | CompoundEnd _ => Ok (start_description 1 (rev (take stop events)))
  | _ => Ok None
  end.

(** * The log *)

(** The innermost group is at the head of [group_stack]. *)
Record ChangeLog : Type := {
  enabled : bool; max_changelog_events : option nat; compound_depth : nat; next_seq : Z; group_stack : list Z;
  next_group_id : Z; current_meta : ChangeEventMeta; retained : RetainedCell
}.

Definition new : ChangeLog :=
  {| enabled := true; max_changelog_events := None; compound_depth := 0; next_seq := 0; group_stack := [];
     next_group_id := 1; current_meta := default_meta; retained := default_cell |}.
Definition with_max_changelog_events (max : nat) : ChangeLog :=
  {| enabled := true; max_changelog_events := Some max; compound_depth := 0; next_seq := 0; group_stack := [];
     next_group_id := 1; current_meta := default_meta; retained := default_cell |}.

Definition with_retained (c : RetainedCell) (l : ChangeLog) : ChangeLog :=
  {| enabled := enabled l; max_changelog_events := max_changelog_events l; compound_depth := compound_depth l;
     next_seq := next_seq l; group_stack := group_stack l; next_group_id := next_group_id l;
     current_meta := current_meta l; retained := c |}.
Definition with_seq (seq : Z) (l : ChangeLog) : ChangeLog :=
  {| enabled := enabled l; max_changelog_events := max_changelog_events l; compound_depth := compound_depth l;
     next_seq := seq; group_stack := group_stack l; next_group_id := next_group_id l;
     current_meta := current_meta l; retained := retained l |}.
Definition with_groups (depth : nat) (stack : list Z) (next : Z) (l : ChangeLog) : ChangeLog :=
  {| enabled := enabled l; max_changelog_events := max_changelog_events l; compound_depth := depth;
     next_seq := next_seq l; group_stack := stack; next_group_id := next;
     current_meta := current_meta l; retained := retained l |}.
Definition with_current_meta (meta : ChangeEventMeta) (l : ChangeLog) : ChangeLog :=
  {| enabled := enabled l; max_changelog_events := max_changelog_events l; compound_depth := compound_depth l;
     next_seq := next_seq l; group_stack := group_stack l; next_group_id := next_group_id l;
     current_meta := meta; retained := retained l |}.
Definition with_max (max : option nat) (l : ChangeLog) : ChangeLog :=
  {| enabled := enabled l; max_changelog_events := max; compound_depth := compound_depth l;
     next_seq := next_seq l; group_stack := group_stack l; next_group_id := next_group_id l;
     current_meta := current_meta l; retained := retained l |}.
Definition set_enabled (b : bool) (l : ChangeLog) : ChangeLog :=
  {| enabled := b; max_changelog_events := max_changelog_events l; compound_depth := compound_depth l;
     next_seq := next_seq l; group_stack := group_stack l; next_group_id := next_group_id l;
     current_meta := current_meta l; retained := retained l |}.

Definition log_len (l : ChangeLog) : nat := r_len (retained l).
Definition log_is_empty (l : ChangeLog) : bool := (log_len l =? 0)%nat.

Definition enforce_cap (l : ChangeLog) : result Empty_set ChangeLog :=
  match max_changelog_events l with
  | None => Ok l
  | Some max =>
      if (max =? 0)%nat then Ok (with_retained (clear_cell (retained l)) l)
      else if (log_len l <=? max)%nat then Ok l
      else c ← drain_front (log_len l - max) (retained l); Ok (with_retained c l)
  end.
Definition set_max_changelog_events (max : option nat) (l : ChangeLog) : result Empty_set ChangeLog :=
  enforce_cap (with_max max l).

(** ** Replaying a capture *)

Definition replay_lazy (run : FormulaRunAdjusted) (meta : ChangeEventMeta) (retain : bool) (l : ChangeLog) : ChangeLog :=
  if negb (enabled l) then l
  else
    let seq0 := next_seq l in
    let l := with_seq (next_seq l + run_length run) l in
    if retain then
      with_retained
        (push_run {| e_pos := plain_len (retained l); e_seq0 := seq0; e_group := head (group_stack l); e_meta := meta; e_run := run |}
           (retained l)) l
    else l.

Definition replay_record (event : ChangeEvent) (meta : ChangeEventMeta) (retain : bool) (l : ChangeLog) : ChangeLog :=
  if negb (enabled l) then l
  else
    let seq := next_seq l in
    let l := with_seq (next_seq l + 1) l in
    if retain then with_retained (push event meta seq (head (group_stack l)) (retained l)) l else l.

(** The new depth, and the group of the compound that begins. *)
Definition open_group (l : ChangeLog) : ChangeLog :=
  let depth := S (compound_depth l) in
  if (depth =? 1)%nat then with_groups depth (next_group_id l :: group_stack l) (next_group_id l + 1) l
  else
    match group_stack l with
    | [] => with_groups depth [] (next_group_id l) l
    | gid :: _ => with_groups depth (gid :: group_stack l) (next_group_id l) l
    end.
Definition close_group (depth : nat) (l : ChangeLog) : ChangeLog :=
  with_groups depth (tail (group_stack l)) (next_group_id l) l.

Definition replay_begin_compound (description : bytes) (meta : ChangeEventMeta) (retain : bool) (l : ChangeLog) : ChangeLog :=
  let l := open_group l in
  replay_record (CompoundStart description (compound_depth l)) meta retain l.

Definition replay_end_compound (meta : ChangeEventMeta) (retain : bool) (l : ChangeLog) : ChangeLog :=
  match compound_depth l with
  | O => l
  | S depth => close_group depth (replay_record (CompoundEnd (S depth)) meta retain l)
  end.

Definition replay_event (event : ChangeEvent) (meta : ChangeEventMeta) (retain : bool) (l : ChangeLog) : ChangeLog :=
  match event with
  | CompoundStart description _ => replay_begin_compound description meta retain l
  | CompoundEnd _ => replay_end_compound meta retain l
  | event => replay_record event meta retain l
  end.

(** [lazy.next_if(|(pos, _)| *pos <= p)]: the records up to [p] are replayed; the others. *)
Fixpoint replay_upto (p : nat) (lazy : list (nat * FormulaRunAdjusted)) (meta : ChangeEventMeta) (retain : bool) (l : ChangeLog)
  : ChangeLog * list (nat * FormulaRunAdjusted) :=
  match lazy with
  | [] => (l, [])
  | (pos, run) :: rest => if (pos <=? p)%nat then replay_upto p rest meta retain (replay_lazy run meta retain l) else (l, lazy)
  end.

Fixpoint replay_events (p : nat) (events : list ChangeEvent) (lazy : list (nat * FormulaRunAdjusted)) (meta : ChangeEventMeta)
    (retain : bool) (l : ChangeLog) : ChangeLog * list (nat * FormulaRunAdjusted) :=
  match events with
  | [] => (l, lazy)
  | event :: events =>
      let '(l, lazy) := replay_upto p lazy meta retain l in
      replay_events (S p) events lazy meta retain (replay_event event meta retain l)
  end.

Definition replay_capture (capture : MutationCapture) (retain : bool) (l : ChangeLog) : result Empty_set ChangeLog :=
  let '(l, lazy) := replay_events 0 (c_events capture) (c_lazy capture) (c_meta capture) retain l in
  let l := foldl (λ l '(_, run), replay_lazy run (c_meta capture) retain l) l lazy in
  if retain then enforce_cap l else Ok l.

Definition publish_capture (capture : MutationCapture) (l : ChangeLog) : result Empty_set ChangeLog := replay_capture capture true l.
Definition discard_capture (capture : MutationCapture) (l : ChangeLog) : result Empty_set ChangeLog := replay_capture capture false l.

(** ** Recording *)

Definition record_with_meta (event : ChangeEvent) (meta : ChangeEventMeta) (l : ChangeLog) : result Empty_set ChangeLog :=
  if enabled l then
    let seq := next_seq l in
    let l := with_seq (next_seq l + 1) l in
    enforce_cap (with_retained (push event meta seq (head (group_stack l)) (retained l)) l)
  else Ok l.
Definition record (event : ChangeEvent) (l : ChangeLog) : result Empty_set ChangeLog := record_with_meta event (current_meta l) l.

Definition begin_compound (description : bytes) (l : ChangeLog) : result Empty_set ChangeLog :=
  let l := open_group l in
  if enabled l then record (CompoundStart description (compound_depth l)) l else Ok l.

Definition end_compound (l : ChangeLog) : result Empty_set ChangeLog :=
  match compound_depth l with
  | O => Ok l
  | S depth =>
      l ← (if enabled l then record (CompoundEnd (S depth)) l else Ok l);
      Ok (close_group depth l)
  end.

Definition set_actor_id (id : option bytes) (l : ChangeLog) : ChangeLog :=
  let m := current_meta l in with_current_meta {| actor_id := id; correlation_id := correlation_id m; reason := reason m |} l.
Definition set_correlation_id (id : option bytes) (l : ChangeLog) : ChangeLog :=
  let m := current_meta l in with_current_meta {| actor_id := actor_id m; correlation_id := id; reason := reason m |} l.
Definition set_reason (r : option bytes) (l : ChangeLog) : ChangeLog :=
  let m := current_meta l in with_current_meta {| actor_id := actor_id m; correlation_id := correlation_id m; reason := r |} l.

Definition truncate (len : nat) (l : ChangeLog) : result Empty_set ChangeLog :=
  c ← truncate_cell len (retained l); Ok (with_retained c l).
Definition clear (l : ChangeLog) : ChangeLog := with_groups 0 [] (next_group_id l) (with_retained (clear_cell (retained l)) l).
Definition take_from (index : nat) (l : ChangeLog) : result Empty_set (list ChangeEvent * ChangeLog) :=
  '(evs, c) ← split_cell index (retained l); Ok (evs, with_retained c l).

(** ** Reading *)

Definition read {A} (f : Retained → A) (l : ChangeLog) : result Empty_set (A * ChangeLog) :=
  c ← get (retained l); Ok (f (inner c), with_retained c l).

Definition log_events (l : ChangeLog) : result Empty_set (list ChangeEvent * ChangeLog) := read events l.
Definition event_meta (index : nat) (l : ChangeLog) : result Empty_set (option ChangeEventMeta * ChangeLog) :=
  read (λ r, metas r !! index) l.
Definition meta (index : nat) (l : ChangeLog) : result Empty_set (option (Z * option Z) * ChangeLog) :=
  read (λ r, seq ← seqs r !! index; group ← groups r !! index; Some (seq, group)) l.

(** The indices, from [i] on, of the elements that hold. *)
Fixpoint positions_of {A} (f : A → bool) (i : nat) (l : list A) : list nat :=
  match l with
  | [] => []
  | x :: l => if f x then i :: positions_of f (S i) l else positions_of f (S i) l
  end.

(** [iter().rev().flatten().next()]. *)
Definition last_group (groups : list (option Z)) : option Z := last (omap id groups).

Definition last_group_indices (l : ChangeLog) : result Empty_set (list nat * ChangeLog) :=
  read
    (λ r,
      let fallback := if (log_len l =? 0)%nat then [] else [(log_len l - 1)%nat] in
      match last_group (groups r) with
      | None => fallback
      | Some gid =>
          match positions_of (λ g, bool_decide (g = Some gid)) 0 (groups r) with
          | [] => fallback
          | idxs => idxs
          end
      end) l.

End change_log.
