(* ===== verification/ChangeLogTheorems.v ===== *)
(** The change log refines a plain list of rows (an event, its metadata, its sequence number and its
    group): records of runs, expanded in place when the log is read, are their members' events. *)
From S2P Require Import Prelude Coords Address StructuredRef Reference Parser SheetRegistry Adjust Relocate ChangeLog.

Local Open Scope Z_scope.

(** * Weaving records into a list

    A record of [es] stands for its members before element [pos e - p] of [l], the first being number [p]. *)
Section weave.
Context {R A : Type} (pos : R → nat) (mem : R → list A).

Fixpoint weave (p : nat) (es : list R) (l : list A) : list A :=
  match es with
  | [] => l
  | e :: es => take (pos e - p) l ++ mem e ++ weave (pos e) es (drop (pos e - p) l)
  end.

(** The positions do not decrease, from [p] up to [q]. *)
Fixpoint placed (p : nat) (es : list R) (q : nat) : Prop :=
  match es with [] => p ≤ q | e :: es => p ≤ pos e ∧ placed (pos e) es q end%nat.

Lemma placed_le p es q : placed p es q → (p ≤ q)%nat.
Proof. revert p. induction es as [|e es IH]; intros p; simpl; [done|]. intros [? ?%IH]. lia. Qed.
Lemma placed_mono p es q q' : (q ≤ q')%nat → placed p es q → placed p es q'.
Proof. intros Hq. revert p. induction es as [|e es IH]; intros p; simpl; [lia|]. intros [??]. auto. Qed.
Lemma placed_snoc p es e q : placed p es q → (q ≤ pos e)%nat → placed p (es ++ [e]) (pos e).
Proof. revert p. induction es as [|x es IH]; intros p; simpl; [lia|]. intros [??] ?. auto. Qed.

Lemma weave_snoc p es l x : placed p es (p + length l) → weave p es (l ++ [x]) = weave p es l ++ [x].
Proof.
  revert p l. induction es as [|e es IH]; intros p l H; [done|]. cbn [weave placed] in *. destruct H as [Hp He].
  pose proof (placed_le _ _ _ He). rewrite take_app_le, drop_app_le by lia. rewrite IH; [by rewrite <- !app_assoc|].
  rewrite length_drop. by replace (pos e + (length l - (pos e - p)))%nat with (p + length l)%nat by lia.
Qed.

Lemma weave_record p es l e : placed p es (p + length l) → pos e = (p + length l)%nat →
  weave p (es ++ [e]) l = weave p es l ++ mem e.
Proof.
  revert p l. induction es as [|x es IH]; intros p l H He; cbn [weave placed app] in *.
  - rewrite take_ge, drop_ge by lia. by rewrite app_nil_r.
  - destruct H as [Hp Hx]. pose proof (placed_le _ _ _ Hx). rewrite IH; [by rewrite <- !app_assoc| |rewrite length_drop; lia].
    rewrite length_drop. by replace (pos x + (length l - (pos x - p)))%nat with (p + length l)%nat by lia.
Qed.

Lemma weave_here p e es l : pos e = p → weave p (e :: es) l = mem e ++ weave p es l.
Proof. intros <-. cbn [weave]. by rewrite Nat.sub_diag. Qed.
Lemma weave_step p e es x l : (p < pos e)%nat → weave p (e :: es) (x :: l) = x :: weave (S p) (e :: es) l.
Proof. intros H. cbn [weave]. replace (pos e - p)%nat with (S (pos e - S p)) by lia. done. Qed.

Lemma weave_length p es l : placed p es (p + length l) →
  length (weave p es l) = (length l + sum_list_with (λ e, length (mem e)) es)%nat.
Proof.
  revert p l. induction es as [|e es IH]; intros p l H; cbn [weave placed sum_list_with] in *; [lia|].
  destruct H as [Hp He]. pose proof (placed_le _ _ _ He). rewrite !length_app, length_take, IH; rewrite length_drop; [lia|].
  by replace (pos e + (length l - (pos e - p)))%nat with (p + length l)%nat by lia.
Qed.
End weave.

Lemma weave_fmap {R A B} (pos : R → nat) (mem : R → list A) (f : A → B) p es l :
  f <$> weave pos mem p es l = weave pos (λ e, f <$> mem e) p es (f <$> l).
Proof. revert p l. induction es as [|e es IH]; intros p l; [done|]. simpl. by rewrite !fmap_app, IH, fmap_take, fmap_drop. Qed.

(** * Four parallel vectors *)

Section log.
Context {F : FloatText} {Value NamedDefinition VertexKind : Type}.
#[local] Abbreviation Event := (ChangeEvent (Value := Value) (NamedDefinition := NamedDefinition) (VertexKind := VertexKind)).
#[local] Abbreviation Row := (tail_row (Value := Value) (NamedDefinition := NamedDefinition) (VertexKind := VertexKind)).
#[local] Abbreviation Retained := (Retained (Value := Value) (NamedDefinition := NamedDefinition) (VertexKind := VertexKind)).

Definition row_event (r : Row) : Event := r.1.1.
Definition row_meta (r : Row) : ChangeEventMeta := r.1.2.
Definition row_seq (r : Row) : Z := r.2.1.
Definition row_group (r : Row) : option Z := r.2.2.

Definition unzipped (rows : list Row) (lz : list LazyEntry) : Retained :=
  {| events := row_event <$> rows; metas := row_meta <$> rows; seqs := row_seq <$> rows; groups := row_group <$> rows; lazy := lz |}.

Lemma push_row_unzipped ev m s g rows lz : push_row ev m s g (unzipped rows lz) = unzipped (rows ++ [((ev, m), (s, g))]) lz.
Proof. unfold push_row, unzipped. cbn. by rewrite !fmap_app. Qed.
Lemma push_tail_unzipped row rows lz : push_tail row (unzipped rows lz) = unzipped (rows ++ [row]) lz.
Proof. destruct row as [[ev m] [s g]]. apply push_row_unzipped. Qed.
Lemma push_rows_unzipped rows' rows lz : foldl (λ r row, push_tail row r) (unzipped rows lz) rows' = unzipped (rows ++ rows') lz.
Proof.
  revert rows. induction rows' as [|row rows' IH]; intros rows; simpl; [by rewrite app_nil_r|].
  rewrite push_tail_unzipped, IH. by rewrite <- app_assoc.
Qed.

Lemma zip_unzipped (rows : list Row) :
  zip (zip (row_event <$> rows) (row_meta <$> rows)) (zip (row_seq <$> rows) (row_group <$> rows)) = rows.
Proof. induction rows as [|[[ev m] [s g]] rows IH]; [done|]. cbn. f_equal. exact IH. Qed.

(** ** Expansion *)

(** The run is one of a [u32] length whose members relocate. *)
Definition run_valid (run : FormulaRunAdjusted) : Prop :=
  0 ≤ run_length run ∧ ∃ evs, run_events (Value := Value) (NamedDefinition := NamedDefinition) (VertexKind := VertexKind) run = Ok evs.
Definition run_rows (run : FormulaRunAdjusted) : list Event := default [] (ok (run_events run)).

Fixpoint numbered (evs : list Event) (m : ChangeEventMeta) (s : Z) (g : option Z) : list Row :=
  match evs with [] => [] | ev :: evs => ((ev, m), (s, g)) :: numbered evs m (s + 1) g end.
Definition entry_rows (e : LazyEntry) : list Row := numbered (run_rows (e_run e)) (e_meta e) (e_seq0 e) (e_group e).

Lemma numbered_app evs evs' m s g :
  numbered (evs ++ evs') m s g = numbered evs m s g ++ numbered evs' m (s + Z.of_nat (length evs)) g.
Proof.
  revert s. induction evs as [|ev evs IH]; intros s; [by rewrite Z.add_0_r|]. simpl. rewrite IH. do 3 f_equal. lia.
Qed.
Lemma numbered_length evs m s g : length (numbered evs m s g) = length evs.
Proof. revert s. induction evs; intros; simpl; auto. Qed.

Lemma run_rows_ok run : run_valid run → run_events run = Ok (run_rows run).
Proof. intros [_ [evs E]]. unfold run_rows. by rewrite E. Qed.

Lemma collect_length {E A B} (f : A → result E B) l k : collect f l = Ok k → length k = length l.
Proof.
  revert k. induction l as [|x l IH]; intros k; simpl; [by intros [= <-]|].
  intros (y & _ & (z & Hz & [= <-])%result_bind_ok)%result_bind_ok. simpl. by rewrite (IH z).
Qed.

Lemma run_rows_length run : run_valid run → length (run_rows run) = run_len run.
Proof.
  intros Hr. pose proof (run_rows_ok _ Hr) as E. unfold run_events in E. apply collect_length in E. by rewrite E, length_seqZ.
Qed.

Lemma push_members_unzipped evs i e rows : push_members evs i e (unzipped rows []) =
  unzipped (rows ++ numbered evs (e_meta e) (e_seq0 e + i) (e_group e)) [].
Proof.
  revert i rows. induction evs as [|ev evs IH]; intros i rows; simpl; [by rewrite app_nil_r|].
  rewrite push_row_unzipped, IH, <- app_assoc. simpl. by rewrite Z.add_assoc.
Qed.

Lemma move_rows_ok n tail rows : (n ≤ length tail)%nat →
  move_rows n tail (unzipped rows []) = Ok (unzipped (rows ++ take n tail) [], drop n tail).
Proof.
  revert tail rows. induction n as [|n IH]; intros tail rows H; [by rewrite take_0, app_nil_r|].
  destruct tail as [|row tail]; simpl in *; [lia|]. rewrite push_tail_unzipped, IH by lia. by rewrite <- app_assoc.
Qed.

Lemma expand_entries_ok p es tail rows : placed e_pos p es (p + length tail) → Forall (λ e, run_valid (e_run e)) es →
  ∃ pre rest, expand_entries p es tail (unzipped rows []) = Ok (unzipped (rows ++ pre) [], rest) ∧
    weave e_pos entry_rows p es tail = pre ++ rest.
Proof.
  revert p tail rows. induction es as [|e es IH]; intros p tail rows Hp Hr; simpl.
  { exists [], tail. by rewrite app_nil_r. }
  cbn [placed] in Hp. destruct Hp as [Hpe Hp]. apply Forall_cons in Hr as [He Hr]. pose proof (placed_le _ _ _ _ Hp) as Hle.
  rewrite move_rows_ok by lia. cbn [mbind result_bind]. rewrite run_rows_ok by done. cbn [mbind result_bind].
  rewrite Nat.max_r, push_members_unzipped, Z.add_0_r by done.
  destruct (IH (e_pos e) (drop (e_pos e - p) tail) ((rows ++ take (e_pos e - p) tail) ++ entry_rows e)) as (pre & rest & E & Ew); [|done|].
  { rewrite length_drop. by replace (e_pos e + (length tail - (e_pos e - p)))%nat with (p + length tail)%nat by lia. }
  fold (entry_rows e). rewrite E, Ew. exists (take (e_pos e - p) tail ++ entry_rows e ++ pre), rest.
  split; [by rewrite <- !app_assoc|by rewrite <- !app_assoc].
Qed.

Lemma split_off_ok {A} n (l : list A) : (n ≤ length l)%nat → split_off n l = Ok (take n l, drop n l).
Proof. intros H. unfold split_off. by rewrite (proj2 (Nat.ltb_ge _ _) H). Qed.

Lemma records_expand_ok rows es : placed e_pos 0 es (length rows) → Forall (λ e, run_valid (e_run e)) es →
  ∃ n, expand (unzipped rows es) = Ok (unzipped (weave e_pos entry_rows 0 es rows) [], n).
Proof.
  intros Hp Hr. unfold expand. cbn [lazy unzipped events metas seqs groups].
  destruct es as [|e es]; [by eexists|]. pose proof Hp as [_ Hp']. pose proof (placed_le _ _ _ _ Hp') as Hle.
  rewrite !split_off_ok by (by rewrite length_fmap). cbn [mbind result_bind].
  rewrite <- !fmap_take, <- !fmap_drop, zip_unzipped. fold (unzipped (take (e_pos e) rows) []).
  destruct (expand_entries_ok (e_pos e) (e :: es) (drop (e_pos e) rows) (take (e_pos e) rows)) as (pre & rest & E & Ew); [|done|].
  { rewrite length_drop. split; [done|]. by replace (e_pos e + (length rows - e_pos e))%nat with (length rows) by lia. }
  rewrite E. cbn [mbind result_bind]. rewrite push_rows_unzipped. rewrite weave_here in Ew by done.
  eexists. cbn [weave]. rewrite Nat.sub_0_r, Ew, <- app_assoc. reflexivity.
Qed.

(** ** The cell of the retained events *)

#[local] Abbreviation Cell := (RetainedCell (Value := Value) (NamedDefinition := NamedDefinition) (VertexKind := VertexKind)).

(** The cell holds [rows], some of them in records. *)
Definition holds (c : Cell) (rows : list Row) : Prop := ∃ base es,
  inner c = unzipped base es ∧ placed e_pos 0 es (length base) ∧ Forall (λ e, run_valid (e_run e)) es ∧
  rows = weave e_pos entry_rows 0 es base ∧ r_len c = length rows ∧ (expanded c = true ↔ es = []).
(** The cell holds [rows] without records. *)
Definition settled (c : Cell) (rows : list Row) : Prop :=
  inner c = unzipped rows [] ∧ r_len c = length rows ∧ expanded c = true.

Lemma settled_holds c rows : settled c rows → holds c rows.
Proof. intros (? & ? & ?). exists rows, []. split_and!; try done. simpl. lia. Qed.

Lemma get_holds c rows : holds c rows → ∃ c', get c = Ok c' ∧ settled c' rows.
Proof.
  intros (base & es & Hi & Hp & Hr & -> & Hl & He). unfold get. destruct (expanded c) eqn:Ex.
  - rewrite (proj1 He eq_refl) in *. by exists c.
  - rewrite Hi. destruct (records_expand_ok base es Hp Hr) as [n ->]. by eexists.
Qed.

Lemma settle_holds c rows : holds c rows → ∃ c', settle c = Ok c' ∧ settled c' rows.
Proof.
  intros (base & es & Hi & Hp & Hr & -> & Hl & He). unfold settle. destruct (expanded c) eqn:Ex.
  - rewrite (proj1 He eq_refl) in *. by exists c.
  - rewrite Hi. destruct (records_expand_ok base es Hp Hr) as [n ->]. by eexists.
Qed.

Lemma push_holds ev m s g c rows : holds c rows → holds (push ev m s g c) (rows ++ [((ev, m), (s, g))]).
Proof.
  intros (base & es & Hi & Hp & Hr & -> & Hl & He). exists (base ++ [((ev, m), (s, g))]), es. cbn.
  rewrite Hi, push_row_unzipped, Hl, weave_snoc, !length_app by done. simpl.
  split_and!; [done|eapply placed_mono; [|exact Hp]; lia|done|done|lia|done].
Qed.

Lemma push_run_holds run m s g c rows : run_valid run → holds c rows →
  holds (push_run {| e_pos := plain_len c; e_seq0 := s; e_group := g; e_meta := m; e_run := run |} c)
    (rows ++ numbered (run_rows run) m s g).
Proof.
  intros Hrun (base & es & Hi & Hp & Hr & -> & Hl & He).
  set (e := {| e_pos := _; e_seq0 := _; e_group := _; e_meta := _; e_run := _ |}).
  assert (Hpos : e_pos e = length base) by (unfold e, plain_len; cbn; by rewrite Hi; cbn; rewrite length_fmap).
  exists base, (es ++ [e]). unfold push_run. cbn [inner r_len expanded]. rewrite Hi, (weave_record e_pos entry_rows 0 es base e), length_app by done.
  split_and!; try done.
  - rewrite <- Hpos at 1. apply (placed_snoc e_pos 0 es e (length base)); [done|]. by rewrite Hpos.
  - apply Forall_app. split; [done|]. by constructor.
  - rewrite Hl. unfold entry_rows. rewrite numbered_length, run_rows_length by done. done.
  - split; [done|]. intros H. by destruct es.
Qed.

(** The settled cell cut by [f]. *)
Lemma vectors_settled (f : ∀ A, list A → list A) c rows :
  (∀ A B (g : A → B) (l : list A), f B (g <$> l) = g <$> f A l) → settled c rows → settled (with_vectors f c) (f _ rows).
Proof.
  intros Hf (Hi & _ & He). unfold with_vectors, settled. cbn. rewrite Hi. unfold unzipped. cbn. by rewrite !Hf, length_fmap.
Qed.

Lemma drain_holds n c rows : holds c rows → (n ≤ length rows)%nat → ∃ c', drain_front n c = Ok c' ∧ holds c' (drop n rows).
Proof.
  intros Hc Hn. destruct (settle_holds c rows Hc) as (c' & E & Hs). unfold drain_front. rewrite E. cbn [mbind result_bind].
  pose proof Hs as (Hi & _ & _). rewrite Hi. cbn [events metas seqs groups unzipped]. rewrite !length_fmap, (proj2 (Nat.ltb_ge _ _) Hn). cbn [orb].
  eexists. split; [done|]. apply settled_holds. apply (vectors_settled (λ _, drop n)); [|done]. intros *. by rewrite fmap_drop.
Qed.

Lemma truncate_holds n c rows : holds c rows → ∃ c', truncate_cell n c = Ok c' ∧ holds c' (take n rows).
Proof.
  intros Hc. destruct (settle_holds c rows Hc) as (c' & E & Hs). unfold truncate_cell. rewrite E. cbn [mbind result_bind].
  eexists. split; [done|]. apply settled_holds. apply (vectors_settled (λ _, take n)); [|done]. intros *. by rewrite fmap_take.
Qed.

Lemma split_holds n c rows : holds c rows → (n ≤ length rows)%nat →
  ∃ c', split_cell n c = Ok (row_event <$> drop n rows, c') ∧ holds c' (take n rows).
Proof.
  intros Hc Hn. destruct (settle_holds c rows Hc) as (c' & E & Hs). unfold split_cell. rewrite E. cbn [mbind result_bind].
  pose proof Hs as (Hi & _ & _). rewrite Hi. cbn [events metas seqs groups unzipped]. rewrite !length_fmap, (proj2 (Nat.ltb_ge _ _) Hn). cbn [orb].
  eexists. rewrite fmap_drop. split; [done|]. apply settled_holds. apply (vectors_settled (λ _, take n)); [|done]. intros *. by rewrite fmap_take.
Qed.

Lemma empty_holds : holds default_cell [].
Proof. exists [], []. split_and!; try done. simpl. lia. Qed.

(** * The abstract log *)

Record Log : Type := {
  on : bool; cap : option nat; depth : nat; seq : Z; stack : list Z; gid : Z; cur : ChangeEventMeta; rows : list Row
}.
Definition new_log (max : option nat) : Log :=
  {| on := true; cap := max; depth := 0; seq := 0; stack := []; gid := 1; cur := default_meta; rows := [] |}.

Definition set_rows (rs : list Row) (L : Log) : Log :=
  {| on := on L; cap := cap L; depth := depth L; seq := seq L; stack := stack L; gid := gid L; cur := cur L; rows := rs |}.
Definition set_cap (max : option nat) (L : Log) : Log :=
  {| on := on L; cap := max; depth := depth L; seq := seq L; stack := stack L; gid := gid L; cur := cur L; rows := rows L |}.
Definition set_on (b : bool) (L : Log) : Log :=
  {| on := b; cap := cap L; depth := depth L; seq := seq L; stack := stack L; gid := gid L; cur := cur L; rows := rows L |}.
Definition set_cur (m : ChangeEventMeta) (L : Log) : Log :=
  {| on := on L; cap := cap L; depth := depth L; seq := seq L; stack := stack L; gid := gid L; cur := m; rows := rows L |}.
Definition set_groups (d : nat) (st : list Z) (g : Z) (L : Log) : Log :=
  {| on := on L; cap := cap L; depth := d; seq := seq L; stack := st; gid := g; cur := cur L; rows := rows L |}.

(** Only the last [max] rows are kept. *)
Definition kept (max : option nat) (rs : list Row) : list Row :=
  match max with Some n => drop (length rs - n) rs | None => rs end.
Definition capped (L : Log) : Log := set_rows (kept (cap L) (rows L)) L.

(** One event: it takes a sequence number even where it is not retained. *)
Definition append (keep : bool) (m : ChangeEventMeta) (ev : Event) (L : Log) : Log :=
  if on L then
    {| on := true; cap := cap L; depth := depth L; seq := seq L + 1; stack := stack L; gid := gid L; cur := cur L;
       rows := if keep then rows L ++ [((ev, m), (seq L, head (stack L)))] else rows L |}
  else L.

(** A compound: the outermost has a new group, which the inner ones share. *)
Definition opened (L : Log) : Log :=
  match depth L with
  | O => set_groups 1 (gid L :: stack L) (gid L + 1) L
  | S d => set_groups (S (S d)) (match stack L with [] => [] | g :: st => g :: g :: st end) (gid L) L
  end.
Definition begin_log (keep : bool) (m : ChangeEventMeta) (d : bytes) (L : Log) : Log :=
  let L := opened L in append keep m (CompoundStart d (depth L)) L.
Definition end_log (keep : bool) (m : ChangeEventMeta) (L : Log) : Log :=
  match depth L with
  | O => L
  | S d => let L := append keep m (CompoundEnd (S d)) L in set_groups d (tail (stack L)) (gid L) L
  end.

(** An event of a capture. *)
Definition replay (keep : bool) (m : ChangeEventMeta) (L : Log) (ev : Event) : Log :=
  match ev with
  | CompoundStart d _ => begin_log keep m d L
  | CompoundEnd _ => end_log keep m L
  | ev => append keep m ev L
  end.

(** ** Captures *)

Inductive capture_op : Type :=
| CRecord (ev : Event)
| CRun (run : FormulaRunAdjusted)
| CBegin (description : bytes)
| CEnd
| CClose.

#[local] Abbreviation Capture := (MutationCapture (Value := Value) (NamedDefinition := NamedDefinition) (VertexKind := VertexKind)).

Definition exec_capture (c : Capture) (o : capture_op) : Capture :=
  match o with
  | CRecord ev => capture_record ev c
  | CRun run => record_lazy run c
  | CBegin d => capture_begin_compound d c
  | CEnd => capture_end_compound c
  | CClose => close_compounds c
  end.
Definition capture_of (m : ChangeEventMeta) (os : list capture_op) : Capture := foldl exec_capture (new_capture m) os.

(** The events of the operations, every run written out, and the depth. *)
Definition captured_op (st : list Event * nat) (o : capture_op) : list Event * nat :=
  let '(evs, d) := st in
  match o with
  | CRecord ev => (evs ++ [ev], d)
  | CRun run => (evs ++ run_rows run, d)
  | CBegin desc => (evs ++ [CompoundStart desc (S d)], S d)
  | CEnd => match d with O => (evs, d) | S d => (evs ++ [CompoundEnd (S d)], d) end
  | CClose => (evs ++ (CompoundEnd <$> rev (List.seq 1 d)), 0%nat)
  end.
Definition captured (os : list capture_op) : list Event := (foldl captured_op ([], 0%nat) os).1.

Definition capture_valid (o : capture_op) : Prop := match o with CRun run => run_valid run | _ => True end.

(** The events of a capture, its runs written out in place. *)
Definition capture_rows (p : nat) (lz : list (nat * FormulaRunAdjusted)) (evs : list Event) : list Event :=
  weave fst (λ e, run_rows e.2) p lz evs.

Definition captures (c : Capture) (evs : list Event) (d : nat) : Prop :=
  placed fst 0 (c_lazy c) (length (c_events c)) ∧ Forall (λ e, run_valid e.2) (c_lazy c) ∧
  evs = capture_rows 0 (c_lazy c) (c_events c) ∧ c_depth c = d.

Lemma push_captures ev c evs d : captures c evs d → captures (push_event ev c) (evs ++ [ev]) d.
Proof.
  intros (Hp & Hr & -> & Hd). split_and!; try done; cbn.
  - eapply placed_mono; [|exact Hp]. rewrite length_app. lia.
  - unfold capture_rows. by rewrite weave_snoc.
Qed.

Lemma depth_captures d' c evs d : captures c evs d → captures (with_c_depth d' c) evs d'.
Proof. by intros (? & ? & ? & ?). Qed.

Lemma end_captures c evs d : captures c evs (S d) → captures (capture_end_compound c) (evs ++ [CompoundEnd (S d)]) d.
Proof.
  intros Hc. pose proof Hc as (_ & _ & _ & Hd). unfold capture_end_compound. rewrite Hd.
  by eapply depth_captures, push_captures.
Qed.

Lemma close_captures n c evs : captures c evs n → captures (close_loop n c) (evs ++ (CompoundEnd <$> rev (List.seq 1 n))) 0.
Proof.
  revert c evs. induction n as [|n IH]; intros c evs Hc; [simpl; by rewrite app_nil_r|].
  apply end_captures, IH in Hc. rewrite <- app_assoc in Hc. by rewrite seq_S, rev_app_distr.
Qed.

Lemma capture_step c st o : captures c st.1 st.2 → capture_valid o →
  captures (exec_capture c o) (captured_op st o).1 (captured_op st o).2.
Proof.
  destruct st as [evs d]. cbn [fst snd]. intros Hc Ho. destruct o as [ev|run|desc| |]; simpl.
  - by apply push_captures.
  - unfold record_lazy. destruct (Z.eqb_spec (run_length run) 0) as [E|E].
    + assert (El : run_rows run = []) by (apply length_zero_iff_nil; rewrite run_rows_length by done; unfold run_len; by rewrite E).
      by rewrite El, app_nil_r.
    + destruct Hc as (Hp & Hr & -> & Hd). split_and!; [|apply Forall_app; split; [done|by constructor]|cbn|done].
      * exact (placed_snoc fst 0 (c_lazy c) (length (c_events c), run) _ Hp (le_n _)).
      * unfold capture_rows. by rewrite (weave_record fst (λ e, run_rows e.2) 0 (c_lazy c) (c_events c) (length (c_events c), run)).
  - unfold capture_begin_compound. pose proof Hc as (_ & _ & _ & ->). by apply push_captures, (depth_captures (S d)) with (d := d).
  - destruct d as [|d]; [|by apply end_captures]. unfold capture_end_compound. by pose proof Hc as (_ & _ & _ & ->).
  - unfold close_compounds. pose proof Hc as (_ & _ & _ & Hd). rewrite Hd. by apply close_captures.
Qed.

Lemma capture_exact m os : Forall capture_valid os → captures (capture_of m os) (captured os) (foldl captured_op ([], 0%nat) os).2.
Proof.
  intros Hv. unfold capture_of, captured.
  assert (H : ∀ c st, captures c st.1 st.2 → captures (foldl exec_capture c os) (foldl captured_op st os).1 (foldl captured_op st os).2).
  { induction Hv as [|o os Ho _ IH]; intros c st Hc; [done|]. simpl. by apply IH, capture_step. }
  apply (H (new_capture m) ([], 0%nat)). split_and!; try done. simpl. lia.
Qed.

Lemma capture_meta m os : c_meta (capture_of m os) = m.
Proof.
  unfold capture_of. assert (H : ∀ c : Capture, c_meta (foldl exec_capture c os) = c_meta c); [|by rewrite H].
  induction os as [|o os IH]; intros c; [done|]. simpl. rewrite IH.
  assert (Hend : ∀ c : Capture, c_meta (capture_end_compound c) = c_meta c) by (intros c'; unfold capture_end_compound; by destruct (c_depth c')).
  destruct o; simpl; try done.
  - unfold record_lazy. by destruct (_ =? _).
  - unfold close_compounds. generalize (c_depth c). clear -Hend. intros n. revert c.
    induction n as [|n IH]; intros c; [done|]. cbn [close_loop]. by rewrite IH.
Qed.

(** * The code's log *)

#[local] Abbreviation CodeLog := (ChangeLog (Value := Value) (NamedDefinition := NamedDefinition) (VertexKind := VertexKind)).

Definition code (L : Log) (c : Cell) : CodeLog :=
  {| enabled := on L; max_changelog_events := cap L; compound_depth := depth L; next_seq := seq L; group_stack := stack L;
     next_group_id := gid L; current_meta := cur L; retained := c |}.
Definition rel (l : CodeLog) (L : Log) : Prop := ∃ c, l = code L c ∧ holds c (rows L).

Lemma record_rel keep ev m l L : rel l L → rel (replay_record ev m keep l) (append keep m ev L).
Proof.
  intros (c & -> & Hc). unfold replay_record, append, code. cbn. destruct (on L) eqn:Eon; cbn; [|exists c; unfold code; by rewrite Eon].
  destruct keep; eexists; (split; [reflexivity|]); [|done]. by apply push_holds.
Qed.

Lemma append_all keep m evs L : foldl (λ L ev, append keep m ev L) L evs =
  if on L then
    {| on := true; cap := cap L; depth := depth L; seq := seq L + Z.of_nat (length evs); stack := stack L; gid := gid L; cur := cur L;
       rows := if keep then rows L ++ numbered evs m (seq L) (head (stack L)) else rows L |}
  else L.
Proof.
  revert L. induction evs as [|ev evs IH]; intros L; simpl.
  - destruct L as [[] ? ? ? ? ? ? ?]; simpl; [|done]. rewrite Z.add_0_r, app_nil_r. by destruct keep.
  - rewrite IH. destruct L as [[] cap d sq st g cur rs]; simpl; [|done]. f_equal; [lia|]. destruct keep; [|done]. by rewrite <- app_assoc.
Qed.

Definition is_adjusted (ev : Event) : Prop := match ev with FormulaAdjusted _ _ _ _ => True | _ => False end.

Lemma run_rows_adjusted run : Forall is_adjusted (run_rows run).
Proof.
  unfold run_rows. destruct (run_events run) as [evs|[]|] eqn:E; simpl; [|constructor]. unfold run_events in E.
  revert evs E. induction (seqZ 0 (run_length run)) as [|i ks IH]; intros evs; simpl; [intros [= <-]; constructor|].
  intros (ev & Hev & (evs' & Hevs & [= <-])%result_bind_ok)%result_bind_ok. constructor; [|by apply IH].
  unfold event in Hev. bind_inv. done.
Qed.

Lemma replay_adjusted keep m evs L : Forall is_adjusted evs → foldl (replay keep m) L evs = foldl (λ L ev, append keep m ev L) L evs.
Proof.
  intros H. revert L. induction H as [|ev evs Hev _ IH]; intros L; [done|]. simpl. rewrite IH. by destruct ev.
Qed.

Lemma lazy_rel keep run m l L : run_valid run → rel l L → rel (replay_lazy run m keep l) (foldl (replay keep m) L (run_rows run)).
Proof.
  intros Hrun (c & -> & Hc). rewrite replay_adjusted, append_all, run_rows_length by (done || apply run_rows_adjusted).
  unfold replay_lazy, code. cbn. destruct (on L) eqn:Eon; cbn; [|exists c; unfold code; by rewrite Eon].
  unfold run_len. rewrite Z2Nat.id by apply Hrun.
  destruct keep; eexists; (split; [reflexivity|]); [|done]. by apply push_run_holds.
Qed.

Lemma open_rel l L : rel l L → rel (open_group l) (opened L).
Proof.
  intros (c & -> & Hc). exists c. unfold open_group, opened, code, with_groups, set_groups. cbn.
  destruct (depth L) as [|d]; [done|]. cbn. by destruct (stack L).
Qed.

Lemma open_code l L : rel l L → compound_depth (open_group l) = depth (opened L) ∧ enabled l = on L ∧ current_meta l = cur L ∧ compound_depth l = depth L.
Proof. intros H. pose proof (open_rel l L H) as (c & -> & _). by destruct H as (c' & -> & _). Qed.

Lemma close_rel d l L : rel l L → rel (close_group d l) (set_groups d (tail (stack L)) (gid L) L).
Proof. intros (c & -> & Hc). by exists c. Qed.

Lemma event_rel keep ev m l L : rel l L → rel (replay_event ev m keep l) (replay keep m L ev).
Proof.
  intros H. destruct ev; simpl; try by apply record_rel.
  - unfold replay_begin_compound, begin_log. destruct (open_code l L H) as (-> & _). by apply record_rel, open_rel.
  - unfold replay_end_compound, end_log. destruct (open_code l L H) as (_ & _ & _ & ->). destruct (depth L) as [|d]; [done|].
    by apply close_rel, record_rel.
Qed.

#[local] Abbreviation mem := (λ e : nat * FormulaRunAdjusted, run_rows e.2).

(** The records up to event [p] of a capture, then the events behind it. *)
Lemma upto_rel keep m p lz q l L : placed fst p lz q → (p < q)%nat → Forall (λ e, run_valid e.2) lz → rel l L →
  ∃ l' lz' evs, replay_upto p lz m keep l = (l', lz') ∧ rel l' (foldl (replay keep m) L evs) ∧
    placed fst (S p) lz' q ∧ Forall (λ e, run_valid e.2) lz' ∧
    ∀ ev ls, weave fst mem p lz (ev :: ls) = evs ++ ev :: weave fst mem (S p) lz' ls.
Proof.
  intros Hp Hq Hr. revert l L. induction Hr as [|[pos run] lz Hrun Hr IH]; intros l L Hl; simpl.
  { by exists l, [], []. }
  simpl in Hp. destruct Hp as [Hpos Hp]. destruct (Nat.leb_spec pos p) as [Hle|Hgt].
  - assert (pos = p) as -> by lia. destruct (IH Hp (replay_lazy run m keep l) _ (lazy_rel keep run m l L Hrun Hl)) as (l' & lz' & evs & E & Hl' & ? & ? & Hw).
    exists l', lz', (run_rows run ++ evs). rewrite foldl_app. split_and!; try done. intros ev ls. rewrite Nat.sub_diag, <- app_assoc.
    simpl. by rewrite Hw.
  - exists l, ((pos, run) :: lz), []. split_and!; [done|done|split; [simpl; lia|done]|by constructor|].
    intros ev ls. exact (weave_step fst mem p (pos, run) lz ev ls Hgt).
Qed.

Lemma rest_rel keep m p lz l L : Forall (λ e, run_valid e.2) lz → rel l L →
  rel (foldl (λ l '(_, run), replay_lazy run m keep l) l lz) (foldl (replay keep m) L (weave fst mem p lz [])).
Proof.
  intros Hr. revert p l L. induction Hr as [|[pos run] lz Hrun Hr IH]; intros p l L Hl; [done|]. simpl.
  rewrite take_nil, drop_nil. simpl. rewrite foldl_app. by apply IH, lazy_rel.
Qed.

Lemma events_rel keep m evs : ∀ p lz l L, placed fst p lz (p + length evs) → Forall (λ e, run_valid e.2) lz → rel l L →
  let '(l', lz') := replay_events p evs lz m keep l in
  rel (foldl (λ l '(_, run), replay_lazy run m keep l) l' lz') (foldl (replay keep m) L (weave fst mem p lz evs)).
Proof.
  induction evs as [|ev evs IH]; intros p lz l L Hp Hr Hl; [by apply rest_rel|]. cbn [replay_events].
  destruct (upto_rel keep m p lz (p + length (ev :: evs)) l L) as (l' & lz' & pre & -> & Hl' & Hp' & Hr' & ->); try done; [simpl; lia|].
  rewrite foldl_app. cbn [foldl]. apply IH; [|done|by apply event_rel]. simpl in Hp'. by replace (S p + length evs)%nat with (p + S (length evs))%nat by lia.
Qed.

(** ** The cap *)

Definition within_cap (L : Log) : Prop := match cap L with Some n => (length (rows L) ≤ n)%nat | None => True end.

Lemma cap_within L : within_cap L → capped L = L.
Proof.
  unfold within_cap, capped, kept. destruct L as [o [n|] d s st g c rs]; cbn; [|done]. intros H. by replace (length rs - n)%nat with 0%nat by lia.
Qed.
Lemma capped_within L : within_cap (capped L).
Proof. unfold within_cap, capped, kept, set_rows. cbn. destruct (cap L) as [n|]; [|done]. rewrite length_drop. lia. Qed.

Lemma len_rel l L : rel l L → log_len l = length (rows L).
Proof. by intros (c & -> & (base & es & _ & _ & _ & _ & Hl & _)). Qed.

Lemma cap_rel l L : rel l L → ∃ l', enforce_cap l = Ok l' ∧ rel l' (capped L).
Proof.
  intros H. pose proof (len_rel l L H) as Hlen. destruct H as (c & -> & Hc). unfold enforce_cap, capped, kept. rewrite Hlen. cbn [code max_changelog_events].
  destruct (cap L) as [n|] eqn:Ecap.
  2: { eexists. split; [done|]. exists c. destruct L; simpl in *; by subst. }
  destruct (Nat.eqb_spec n 0) as [->|Hn].
  { eexists. split; [done|]. exists (clear_cell c). rewrite drop_ge by lia. split; [unfold code; cbn; by rewrite Ecap|apply empty_holds]. }
  destruct (Nat.leb_spec (length (rows L)) n).
  - eexists. split; [done|]. exists c. replace (length (rows L) - n)%nat with 0%nat by lia. unfold code. cbn. by rewrite Ecap.
  - destruct (drain_holds (length (rows L) - n) c (rows L) Hc) as (c' & E & Hc'); [lia|]. cbn [code retained]. rewrite E. cbn [mbind result_bind].
    eexists. split; [done|]. exists c'. split; [unfold code, with_retained; cbn; by rewrite Ecap|done].
Qed.

Lemma publish_rel keep m os l L : Forall capture_valid os → rel l L →
  ∃ l', replay_capture (capture_of m os) keep l = Ok l' ∧
    rel l' ((if keep then capped else id) (foldl (replay keep m) L (captured os))).
Proof.
  intros Hv Hl. destruct (capture_exact m os Hv) as (Hp & Hr & E & _). unfold replay_capture. rewrite capture_meta, E.
  pose proof (events_rel keep m (c_events (capture_of m os)) 0 (c_lazy (capture_of m os)) l L Hp Hr Hl) as H.
  destruct (replay_events _ _ _ _ _ _) as [l' lz']. unfold capture_rows. destruct keep; [by apply cap_rel|by eexists].
Qed.

Lemma record_meta_rel ev m l L : rel l L → within_cap L → ∃ l', record_with_meta ev m l = Ok l' ∧ rel l' (capped (append true m ev L)).
Proof.
  intros Hl Hw. pose proof (record_rel true ev m l L Hl) as H. unfold record_with_meta. unfold replay_record in H.
  pose proof Hl as (c & El & _). assert (Eon : enabled l = on L) by (by rewrite El). rewrite Eon in *.
  destruct (on L) eqn:E; cbn [negb] in H; [by apply cap_rel|]. unfold append. rewrite E, cap_within by done. by exists l.
Qed.

(** * The operations *)

Inductive op : Type :=
| ORecord (ev : Event)
| ORecordMeta (ev : Event) (m : ChangeEventMeta)
| OBegin (description : bytes)
| OEnd
| OPublish (m : ChangeEventMeta) (os : list capture_op)
| ODiscard (m : ChangeEventMeta) (os : list capture_op)
| OSetMax (max : option nat)
| OSetEnabled (b : bool)
| OSetActor (a : option bytes)
| OSetCorrelation (a : option bytes)
| OSetReason (a : option bytes)
| OTruncate (n : nat)
| OClear
| OTakeFrom (n : nat)
| OEvents
| OEventMeta (i : nat)
| OMeta (i : nat)
| OLen
| OLastGroup.

Inductive out : Type :=
| OutUnit
| OutEvents (evs : list Event)
| OutEventMeta (m : option ChangeEventMeta)
| OutMeta (m : option (Z * option Z))
| OutLen (n : nat)
| OutIndices (idxs : list nat).

#[local] Abbreviation unit_of m := (l ← m; Ok (OutUnit, l)).
Definition returned {A} (f : A → out) (m : result Empty_set (A * CodeLog)) : result Empty_set (out * CodeLog) :=
  '(a, l) ← m; Ok (f a, l).

Definition exec (o : op) (l : CodeLog) : result Empty_set (out * CodeLog) :=
  match o with
  | ORecord ev => unit_of (record ev l)
  | ORecordMeta ev m => unit_of (record_with_meta ev m l)
  | OBegin d => unit_of (begin_compound d l)
  | OEnd => unit_of (end_compound l)
  | OPublish m os => unit_of (publish_capture (capture_of m os) l)
  | ODiscard m os => unit_of (discard_capture (capture_of m os) l)
  | OSetMax max => unit_of (set_max_changelog_events max l)
  | OSetEnabled b => Ok (OutUnit, set_enabled b l)
  | OSetActor a => Ok (OutUnit, set_actor_id a l)
  | OSetCorrelation a => Ok (OutUnit, set_correlation_id a l)
  | OSetReason a => Ok (OutUnit, set_reason a l)
  | OTruncate n => unit_of (truncate n l)
  | OClear => Ok (OutUnit, clear l)
  | OTakeFrom n => returned OutEvents (take_from n l)
  | OEvents => returned OutEvents (log_events l)
  | OEventMeta i => returned OutEventMeta (event_meta i l)
  | OMeta i => returned OutMeta (meta i l)
  | OLen => Ok (OutLen (log_len l), l)
  | OLastGroup => returned OutIndices (last_group_indices l)
  end.

(** The operations on rows. *)
Definition next (o : op) (L : Log) : Log :=
  match o with
  | ORecord ev => capped (append true (cur L) ev L)
  | ORecordMeta ev m => capped (append true m ev L)
  | OBegin d => capped (begin_log true (cur L) d L)
  | OEnd => capped (end_log true (cur L) L)
  | OPublish m os => capped (foldl (replay true m) L (captured os))
  | ODiscard m os => foldl (replay false m) L (captured os)
  | OSetMax max => capped (set_cap max L)
  | OSetEnabled b => set_on b L
  | OSetActor a => set_cur {| actor_id := a; correlation_id := correlation_id (cur L); reason := reason (cur L) |} L
  | OSetCorrelation a => set_cur {| actor_id := actor_id (cur L); correlation_id := a; reason := reason (cur L) |} L
  | OSetReason a => set_cur {| actor_id := actor_id (cur L); correlation_id := correlation_id (cur L); reason := a |} L
  | OTruncate n | OTakeFrom n => set_rows (take n (rows L)) L
  | OClear => set_groups 0 [] (gid L) (set_rows [] L)
  | _ => L
  end.

(** The last group that a row has, or the last row where there is none. *)
Definition last_indices (gs : list (option Z)) : list nat :=
  match last (omap id gs) with
  | Some g => positions_of (λ x, bool_decide (x = Some g)) 0 gs
  | None => if (length gs =? 0)%nat then [] else [(length gs - 1)%nat]
  end.

Definition answer (o : op) (L : Log) : out :=
  match o with
  | OTakeFrom n => OutEvents (row_event <$> drop n (rows L))
  | OEvents => OutEvents (row_event <$> rows L)
  | OEventMeta i => OutEventMeta (row_meta <$> rows L !! i)
  | OMeta i => OutMeta ((λ r, (row_seq r, row_group r)) <$> rows L !! i)
  | OLen => OutLen (length (rows L))
  | OLastGroup => OutIndices (last_indices (row_group <$> rows L))
  | _ => OutUnit
  end.

(** Runs relocate, and a log is split where it has rows. *)
Definition allowed (o : op) (L : Log) : Prop :=
  match o with
  | OPublish _ os | ODiscard _ os => Forall capture_valid os
  | OTakeFrom n => (n ≤ length (rows L))%nat
  | _ => True
  end.

(** A shared read leaves the log settled. *)
Lemma read_rel {A} (f : Retained → A) l L : rel l L → ∃ l', read f l = Ok (f (unzipped (rows L) []), l') ∧ rel l' L.
Proof.
  intros (c & -> & Hc). destruct (get_holds c _ Hc) as (c' & E & Hs). unfold read. cbn [code retained]. rewrite E. cbn [mbind result_bind].
  pose proof Hs as (-> & _ & _). eexists. split; [done|]. exists c'. split; [done|by apply settled_holds].
Qed.

Lemma append_cap keep m ev L : cap (append keep m ev L) = cap L.
Proof. unfold append. by destruct (on L). Qed.

Lemma begin_rel d l L : rel l L → within_cap L → ∃ l', begin_compound d l = Ok l' ∧ rel l' (capped (begin_log true (cur L) d L)).
Proof.
  intros Hl Hw. pose proof (open_rel l L Hl) as Ho. destruct (open_code l L Hl) as (Ed & _).
  assert (Eon : enabled (open_group l) = on L) by (destruct Ho as (c & -> & _); unfold opened; by destruct (depth L)).
  assert (Hwo : within_cap (opened L)) by (unfold opened; destruct (depth L); done).
  destruct (record_meta_rel (CompoundStart d (depth (opened L))) (cur L) _ _ Ho Hwo) as (l' & E & Hl').
  assert (Ecur : cur (opened L) = cur L) by (unfold opened; by destruct (depth L)).
  unfold begin_compound, begin_log. rewrite Eon. destruct (on L) eqn:E1.
  - exists l'. split; [|done]. unfold record. rewrite Ed.
    assert (current_meta (open_group l) = cur L) as -> by (destruct Ho as (c & -> & _); exact Ecur). done.
  - exists (open_group l). split; [done|]. unfold append. assert (on (opened L) = false) as -> by (unfold opened; by destruct (depth L)).
    by rewrite cap_within.
Qed.

Lemma end_rel l L : rel l L → within_cap L → ∃ l', end_compound l = Ok l' ∧ rel l' (capped (end_log true (cur L) L)).
Proof.
  intros Hl Hw. destruct (open_code l L Hl) as (_ & Eon & Ecur & Ed). unfold end_compound, end_log. rewrite Ed.
  destruct (depth L) as [|d]; [exists l; by rewrite cap_within|].
  destruct (record_meta_rel (CompoundEnd (S d)) (cur L) l L Hl Hw) as (l' & E & Hl').
  apply (close_rel d) in Hl'. unfold record. rewrite Eon, Ecur. destruct (on L) eqn:E1.
  - rewrite E. cbn [mbind result_bind]. eexists. split; [done|]. exact Hl'.
  - cbn [mbind result_bind]. eexists. split; [done|]. unfold append. rewrite E1. apply (close_rel d) in Hl.
    assert (Hc : within_cap (set_groups d (tail (stack L)) (gid L) L)) by done. by rewrite (cap_within _ Hc).
Qed.

Lemma positions_nil {A} (f : A → bool) k l x : x ∈ l → f x = true → positions_of f k l ≠ [].
Proof. intros Hx Hf. revert k. induction Hx as [x l|x y l Hx IH]; intros k; simpl; [by rewrite Hf|]. destruct (f y); [done|by apply IH]. Qed.

Lemma last_rel l L : rel l L → ∃ l', last_group_indices l = Ok (last_indices (row_group <$> rows L), l') ∧ rel l' L.
Proof.
  intros Hl. unfold last_group_indices. pose proof (len_rel l L Hl) as Hlen. rewrite Hlen.
  match goal with |- context [read ?f _] => destruct (read_rel f l L Hl) as (l' & E & Hl') end.
  exists l'. split; [|done]. rewrite E. do 2 f_equal. unfold last_indices, last_group. cbn [groups unzipped]. rewrite length_fmap.
  destruct (last (omap id (row_group <$> rows L))) as [g|] eqn:Eg; [|done]. apply last_Some_elem_of, list_elem_of_omap in Eg as (x & Hx & Ex).
  destruct (positions_of _ 0 _) eqn:Ep; [|done]. exfalso. revert Ep. apply (positions_nil _ _ _ x Hx). by apply bool_decide_eq_true_2.
Qed.

Lemma log_step_rel o l L : rel l L → within_cap L → allowed o L → ∃ l', exec o l = Ok (answer o L, l') ∧ rel l' (next o L).
Proof.
  intros Hl Hw Ha. pose proof (open_code l L Hl) as (_ & _ & Ecur & _).
  assert (Hunit : ∀ (m : result Empty_set CodeLog) L', (∃ l', m = Ok l' ∧ rel l' L') → ∃ l', unit_of m = Ok (OutUnit, l') ∧ rel l' L').
  { intros m L' (l' & -> & ?). by exists l'. }
  assert (Hret : ∀ A (f : A → out) (m : result Empty_set (A * CodeLog)) a L', (∃ l', m = Ok (a, l') ∧ rel l' L') → ∃ l', returned f m = Ok (f a, l') ∧ rel l' L').
  { intros A f m a L' (l' & -> & ?). by exists l'. }
  destruct o; cbn [exec answer next allowed] in *.
  - apply Hunit. unfold record. rewrite Ecur. by apply record_meta_rel.
  - by apply Hunit, record_meta_rel.
  - by apply Hunit, begin_rel.
  - by apply Hunit, end_rel.
  - apply Hunit. by apply (publish_rel true).
  - apply Hunit. by apply (publish_rel false).
  - apply Hunit. apply cap_rel. destruct Hl as (c & -> & Hc). by exists c.
  - eexists. split; [done|]. destruct Hl as (c & -> & Hc). by exists c.
  - eexists. split; [done|]. destruct Hl as (c & -> & Hc). by exists c.
  - eexists. split; [done|]. destruct Hl as (c & -> & Hc). by exists c.
  - eexists. split; [done|]. destruct Hl as (c & -> & Hc). by exists c.
  - apply Hunit. destruct Hl as (c & -> & Hc). destruct (truncate_holds n c _ Hc) as (c' & E & Hc'). unfold truncate. cbn [code retained].
    rewrite E. eexists. split; [done|]. by exists c'.
  - eexists. split; [done|]. destruct Hl as (c & -> & Hc). exists default_cell. split; [done|apply empty_holds].
  - apply Hret. destruct Hl as (c & -> & Hc). destruct (split_holds n c _ Hc Ha) as (c' & E & Hc'). unfold take_from. cbn [code retained].
    rewrite E. eexists. split; [done|]. by exists c'.
  - apply Hret. by apply (read_rel events).
  - apply Hret. rewrite <- list_lookup_fmap. by apply (read_rel (λ r, metas r !! i)).
  - apply Hret. destruct (read_rel (λ r, seq ← seqs r !! i; group ← groups r !! i; Some (seq, group)) l L Hl) as (l' & E & Hl').
    exists l'. split; [|done]. unfold meta. rewrite E. do 2 f_equal. cbn. rewrite !list_lookup_fmap. by destruct (rows L !! i).
  - eexists. split; [|done]. by rewrite (len_rel l L).
  - apply Hret. by apply last_rel.
Qed.

Lemma replay_false m evs L : rows (foldl (replay false m) L evs) = rows L ∧ cap (foldl (replay false m) L evs) = cap L.
Proof.
  revert L. induction evs as [|ev evs IH]; intros L; [done|]. simpl. destruct (IH (replay false m L ev)) as [-> ->].
  assert (Ha : ∀ e L', rows (append false m e L') = rows L' ∧ cap (append false m e L') = cap L').
  { intros e L'. unfold append. by destruct (on L'). }
  assert (Hb : ∀ d, rows (begin_log false m d L) = rows L ∧ cap (begin_log false m d L) = cap L).
  { intros d. unfold begin_log. destruct (Ha (CompoundStart d (depth (opened L))) (opened L)) as [-> ->]. unfold opened. by destruct (depth L). }
  assert (He : rows (end_log false m L) = rows L ∧ cap (end_log false m L) = cap L).
  { unfold end_log. destruct (depth L); [done|]. cbn. apply Ha. }
  destruct ev; simpl; try apply Ha; auto.
Qed.

Lemma within_next o L : within_cap L → within_cap (next o L).
Proof.
  intros Hw. destruct o; simpl; try apply capped_within; try done.
  - unfold within_cap in *. by destruct (replay_false m (captured os) L) as [-> ->].
  - unfold within_cap in *. cbn. destruct (cap L); [|done]. rewrite length_take. lia.
  - unfold within_cap. cbn. destruct (cap L); [lia|done].
  - unfold within_cap in *. cbn. destruct (cap L); [|done]. rewrite length_take. lia.
Qed.

Fixpoint exec_log (os : list op) (l : CodeLog) : result Empty_set (list out * CodeLog) :=
  match os with
  | [] => Ok ([], l)
  | o :: os => '(x, l) ← exec o l; '(xs, l) ← exec_log os l; Ok (x :: xs, l)
  end.
Fixpoint next_log (os : list op) (L : Log) : Log := match os with [] => L | o :: os => next_log os (next o L) end.
Fixpoint answers (os : list op) (L : Log) : list out := match os with [] => [] | o :: os => answer o L :: answers os (next o L) end.
Fixpoint allowed_log (os : list op) (L : Log) : Prop := match os with [] => True | o :: os => allowed o L ∧ allowed_log os (next o L) end.

Lemma exec_log_rel os l L : rel l L → within_cap L → allowed_log os L →
  ∃ l', exec_log os l = Ok (answers os L, l') ∧ rel l' (next_log os L) ∧ within_cap (next_log os L).
Proof.
  revert l L. induction os as [|o os IH]; intros l L Hl Hw Ha; [by exists l|]. destruct Ha as [Ho Ha].
  destruct (log_step_rel o l L Hl Hw Ho) as (l1 & E1 & H1). destruct (IH l1 (next o L) H1 (within_next o L Hw) Ha) as (l' & E & H & Hw').
  exists l'. simpl. rewrite E1. cbn [mbind result_bind]. rewrite E. done.
Qed.

Lemma new_rel max : rel (match max with Some n => with_max_changelog_events n | None => new end) (new_log max) ∧ within_cap (new_log max).
Proof. split; [exists default_cell; split; [by destruct max|apply empty_holds]|unfold within_cap; destruct max; simpl; [lia|done]]. Qed.

(** ** Reading a capture *)

Lemma runs_upto_ok p lz q : placed fst p lz q → Forall (λ e, run_valid e.2) lz →
  ∃ evs lz', runs_upto p lz = Ok (evs, lz') ∧ Forall (λ e, run_valid e.2) lz' ∧
    ((p < q)%nat → placed fst (S p) lz' q) ∧ ((q ≤ p)%nat → lz' = []) ∧
    (∀ ev ls, weave fst mem p lz (ev :: ls) = evs ++ ev :: weave fst mem (S p) lz' ls) ∧
    (lz' = [] → weave fst mem p lz [] = evs).
Proof.
  intros Hp Hr. induction Hr as [|[pos run] lz Hrun Hr IH]; simpl in *.
  { exists [], []. by split_and!. }
  destruct Hp as [Hpos Hp]. pose proof (placed_le _ _ _ _ Hp) as Hle. destruct (Nat.leb_spec pos p) as [Hc|Hc].
  - assert (pos = p) as -> by lia. destruct (IH Hp) as (evs & lz' & E & ? & ? & ? & Hw & Hn).
    rewrite run_rows_ok by done. cbn [mbind result_bind]. rewrite E. cbn [mbind result_bind].
    exists (run_rows run ++ evs), lz'. split_and!; try done.
    + intros ev ls. rewrite Nat.sub_diag, <- app_assoc. simpl. by rewrite Hw.
    + intros Hlz. rewrite take_nil, drop_nil, (Hn Hlz). done.
  - exists [], ((pos, run) :: lz). split_and!; [done|by constructor|intros _; split; [simpl; lia|done]|lia| |done].
    intros ev ls. exact (weave_step fst mem p (pos, run) lz ev ls Hc).
Qed.

Lemma expanded_ok evs : ∀ n p lz, (p + n = S (length evs))%nat → placed fst p lz (length evs) → Forall (λ e, run_valid e.2) lz →
  expanded_from n p evs lz = Ok (weave fst mem p lz (drop p evs)).
Proof.
  induction n as [|n IH]; intros p lz Hn Hp Hr.
  { pose proof (placed_le _ _ _ _ Hp). lia. }
  destruct (runs_upto_ok p lz _ Hp Hr) as (pre & lz' & E & Hr' & Hlt & Hge & Hw & Hnil). cbn [expanded_from]. rewrite E. cbn [mbind result_bind].
  destruct (evs !! p) as [ev|] eqn:Ev.
  - pose proof (lookup_lt_Some _ _ _ Ev). rewrite (IH (S p)) by (done || lia || auto). cbn [mbind result_bind].
    by rewrite (drop_S evs ev p Ev), Hw.
  - apply lookup_ge_None in Ev. assert (n = 0)%nat as -> by lia. rewrite Hge in * by done.
    cbn [expanded_from mbind result_bind]. rewrite drop_ge, Hnil by done. by rewrite app_nil_r.
Qed.

Lemma capture_read m os : Forall capture_valid os → expanded_events_from 0 0 (capture_of m os) = Ok (captured os).
Proof.
  intros Hv. destruct (capture_exact m os Hv) as (Hp & Hr & -> & _). unfold expanded_events_from.
  rewrite Nat.min_0_l, drop_0, Nat.sub_0_r. by apply expanded_ok.
Qed.

(** C15: the change log is a list of rows.  Through any sequence of events recorded, compounds begun and
    ended, captures published and discarded (with runs of rewritten formulas kept as records), caps set,
    suffixes cut and reads, which expand the records in place, the code does not panic and every read
    returns what a list gives that holds each event of each run from the start, with its metadata, its
    sequence number and the group of the outermost open compound, and that keeps its last rows within
    the cap.  A capture's events, read with their runs expanded, are those of its operations. *)
Theorem change_log_refines max os : allowed_log os (new_log max) →
  (∀ m cs, Forall capture_valid cs → expanded_events_from 0 0 (capture_of m cs) = Ok (captured cs)) ∧
  ∃ l', exec_log os (match max with Some n => with_max_changelog_events n | None => new end) = Ok (answers os (new_log max), l') ∧
    rel l' (next_log os (new_log max)) ∧ within_cap (next_log os (new_log max)).
Proof.
  intros Ha. split; [apply capture_read|]. destruct (new_rel max) as [Hr Hw]. by apply exec_log_rel.
Qed.

End log.
