(* ===== verification/ChangeLogGroups.v ===== *)
(** Groups and sequence numbers of the change log: an invariant of its rows, and what the last group
    is. *)
From S2P Require Import Prelude Coords Address StructuredRef Reference Parser SheetRegistry Adjust Relocate ChangeLog ChangeLogTheorems.

Local Open Scope Z_scope.

(** * Groups in a list *)

(** The elements with a group are consecutive, and those with the open group are at the end. *)
Definition chunks (o : option Z) (gs : list (option Z)) : Prop :=
  (∀ i j k g, (i ≤ k ≤ j)%nat → gs !! i = Some (Some g) → gs !! j = Some (Some g) → gs !! k = Some (Some g)) ∧
  (∀ i k g, o = Some g → (i ≤ k < length gs)%nat → gs !! i = Some (Some g) → gs !! k = Some (Some g)).

Lemma chunks_snoc o gs : chunks o gs → chunks o (gs ++ [o]).
Proof.
  intros [Hc Ho].
  assert (Hat : ∀ i x, (gs ++ [o]) !! i = Some x → gs !! i = Some x ∨ i = length gs ∧ o = x).
  { intros i x [?|[Hi Hx]]%lookup_app_Some; [by left|]. apply list_lookup_singleton_Some in Hx as [? ->]. right. split; [lia|done]. }
  assert (Hlast : (gs ++ [o]) !! length gs = Some o) by (by rewrite lookup_app_r, Nat.sub_diag by lia).
  assert (Htail : ∀ i k g, o = Some g → (i ≤ k < S (length gs))%nat → (gs ++ [o]) !! i = Some (Some g) → (gs ++ [o]) !! k = Some (Some g)).
  { intros i k g Hg Hk Hi. destruct (decide (k = length gs)) as [->|Hn]; [by rewrite Hlast, Hg|].
    apply Hat in Hi as [Hi|[-> _]]; [|lia]. rewrite lookup_app_l by lia. apply (Ho i); [done|lia|done]. }
  split.
  - intros i j k g Hk Hi Hj. destruct (Hat _ _ Hj) as [Hj'|[-> Hg]].
    + pose proof (lookup_lt_Some _ _ _ Hj'). rewrite lookup_app_l by lia. apply Hat in Hi as [Hi|[-> _]]; [|lia].
      by apply (Hc i j k).
    + apply (Htail i k g Hg); [lia|done].
  - intros i k g Hg. rewrite length_app. simpl. intros Hk. apply Htail; [done|lia].
Qed.

Lemma chunks_drop n o gs : chunks o gs → chunks o (drop n gs).
Proof.
  intros [Hc Ho]. split.
  - intros i j k g Hk. rewrite !lookup_drop. apply Hc. lia.
  - intros i k g Hg. rewrite length_drop, !lookup_drop. intros Hk. apply Ho; [done|lia].
Qed.
Lemma chunks_take n o gs : chunks o gs → chunks o (take n gs).
Proof.
  intros [Hc Ho]. split.
  - intros i j k g Hk [Hi _]%lookup_take_Some [Hj Hj']%lookup_take_Some. apply lookup_take_Some. split; [by apply (Hc i j)|lia].
  - intros i k g Hg. rewrite length_take. intros Hk [Hi _]%lookup_take_Some. apply lookup_take_Some. split; [apply (Ho i); [done|lia|done]|lia].
Qed.
Lemma chunks_close gs o : chunks o gs → chunks None gs.
Proof. intros [Hc _]. by split. Qed.
Lemma chunks_open g gs o : Forall (λ x, ∀ h, x = Some h → h < g) gs → chunks o gs → chunks (Some g) gs.
Proof.
  intros Hg [Hc _]. split; [done|]. intros i k h [= <-] _ Hi. rewrite Forall_lookup in Hg. specialize (Hg _ _ Hi g eq_refl). lia.
Qed.

(** ** The last group *)

Lemma positions_app {A} (f : A → bool) i l k : positions_of f i (l ++ k) = positions_of f i l ++ positions_of f (i + length l) k.
Proof.
  revert i. induction l as [|x l IH]; intros i; simpl; [by rewrite Nat.add_0_r|].
  rewrite IH. replace (S i + length l)%nat with (i + S (length l))%nat by lia. by destruct (f x).
Qed.
Lemma positions_all {A} (f : A → bool) i l : Forall (λ x, f x = true) l → positions_of f i l = List.seq i (length l).
Proof. intros H. revert i. induction H as [|x l Hx _ IH]; intros i; simpl; [done|]. by rewrite Hx, IH. Qed.
Lemma positions_none {A} (f : A → bool) i l : Forall (λ x, f x = false) l → positions_of f i l = [].
Proof. intros H. revert i. induction H as [|x l Hx _ IH]; intros i; simpl; [done|]. by rewrite Hx, IH. Qed.
Lemma positions_spec {A} (f : A → bool) k l i : i ∈ positions_of f k l → (k ≤ i)%nat ∧ ∃ x, l !! (i - k)%nat = Some x ∧ f x = true.
Proof.
  revert k. induction l as [|x l IH]; intros k; simpl; [by intros ?%elem_of_nil|].
  assert (Hr : i ∈ positions_of f (S k) l → (k ≤ i)%nat ∧ ∃ y, (x :: l) !! (i - k)%nat = Some y ∧ f y = true).
  { intros [Hk (y & Hy & Hf)]%IH. split; [lia|]. exists y. replace (i - k)%nat with (S (i - S k)) by lia. done. }
  destruct (f x) eqn:Ef; [|done]. intros [->|?]%elem_of_cons; [|by apply Hr]. split; [lia|]. rewrite Nat.sub_diag. by exists x.
Qed.

(** The longest end of a list with group [g]. *)
Lemma tail_of g (gs : list (option Z)) : ∃ gs1 gs2, gs = gs1 ++ gs2 ∧ Forall (λ x, x = Some g) gs2 ∧ last gs1 ≠ Some (Some g).
Proof.
  induction gs as [|x gs IH] using rev_ind; [by exists [], []|].
  destruct (decide (x = Some g)) as [->|Hx].
  - destruct IH as (gs1 & gs2 & -> & H & Hl). exists gs1, (gs2 ++ [Some g]). rewrite app_assoc. split_and!; [done| |done].
    apply Forall_app. split; [done|by constructor].
  - exists (gs ++ [x]), []. rewrite app_nil_r, last_snoc. split_and!; [done|constructor|congruence].
Qed.

Lemma omap_last_snoc (gs : list (option Z)) x : last (omap id (gs ++ [x])) = match x with Some g => Some g | None => last (omap id gs) end.
Proof. rewrite omap_app. destruct x as [g|]; simpl; [by rewrite last_snoc|by rewrite app_nil_r]. Qed.

(** Behind a row with a group, the group is the end of the log. *)
Lemma last_grouped o gs g : chunks o gs → last gs = Some (Some g) →
  ∃ k, (k < length gs)%nat ∧ last_indices gs = List.seq k (length gs - k) ∧ ∀ i x, gs !! i = Some x → x = Some g ↔ (k ≤ i)%nat.
Proof.
  intros [Hc _] Hl. destruct (tail_of g gs) as (gs1 & gs2 & -> & Hall & Hl1).
  assert (Hn : Forall (λ x, x ≠ Some g) gs1).
  { apply Forall_lookup. intros i x Hi ->. destruct gs1 as [|y gs1 _] using rev_ind; [done|]. rewrite last_snoc in Hl1.
    apply Hl1. f_equal. pose proof (lookup_lt_Some _ _ _ Hi) as Hlt. rewrite length_app in Hlt. simpl in Hlt.
    destruct gs2 as [|z gs2 _] using rev_ind; [by rewrite app_nil_r, last_snoc in Hl|].
    assert (Hz : ((gs1 ++ [y]) ++ gs2 ++ [z]) !! (length gs1 + 1 + length gs2)%nat = Some (Some g)).
    { rewrite lookup_app_r by (rewrite length_app; simpl; lia). rewrite length_app. simpl.
      rewrite lookup_app_r by lia. replace (length gs1 + 1 + length gs2 - (length gs1 + 1) - length gs2)%nat with 0%nat by lia.
      apply Forall_app in Hall as [_ Hz]. apply Forall_cons in Hz as [Hz _]. by rewrite Hz. }
    assert (Hy : ((gs1 ++ [y]) ++ gs2 ++ [z]) !! length gs1 = Some (Some g)).
    { apply (Hc i (length gs1 + 1 + length gs2)%nat); [lia| |done]. rewrite lookup_app_l; [done|]. rewrite length_app. simpl. lia. }
    rewrite lookup_app_l in Hy by (rewrite length_app; simpl; lia). rewrite lookup_app_r, Nat.sub_diag in Hy by lia. by injection Hy. }
  destruct gs2 as [|z gs2 _] using rev_ind.
  { rewrite app_nil_r in Hl. apply last_Some_elem_of in Hl. rewrite Forall_forall in Hn. by destruct (Hn _ Hl). }
  pose proof Hall as [_ Hz]%Forall_app. apply Forall_cons in Hz as [Hz _]. subst z.
  exists (length gs1). rewrite !length_app. simpl. split_and!; [lia| |].
  - unfold last_indices. rewrite app_assoc, omap_last_snoc, <- app_assoc, positions_app.
    rewrite positions_none by (eapply Forall_impl; [exact Hn|]; intros x Hx; by apply bool_decide_eq_false_2).
    rewrite positions_all by (eapply Forall_impl; [exact Hall|]; intros x Hx; by apply bool_decide_eq_true_2).
    rewrite length_app. simpl. f_equal; lia.
  - intros i x [Hi|[Hi Hx]]%lookup_app_Some.
    + rewrite Forall_lookup in Hn. specialize (Hn _ _ Hi). apply lookup_lt_Some in Hi. split; [done|lia].
    + rewrite Forall_lookup in Hall. rewrite (Hall _ _ Hx). split; [done|done].
Qed.

Lemma last_ungrouped gs : last gs = Some None →
  (Forall (λ x, x = None) gs → last_indices gs = [(length gs - 1)%nat]) ∧
  (¬ Forall (λ x, x = None) gs → last_indices gs ≠ [] ∧ (length gs - 1)%nat ∉ last_indices gs).
Proof.
  intros Hl. unfold last_indices. split.
  - intros Hn. assert (omap id gs = []) as ->.
    { clear Hl. induction Hn as [|x gs -> _ IH]; [done|]. done. }
    destruct gs; [done|done].
  - intros Hn. destruct (last (omap id gs)) as [g|] eqn:Eg.
    + apply last_Some_elem_of, list_elem_of_omap in Eg as (x & Hx & Ex). simpl in Ex. subst x. split.
      * apply (positions_nil _ _ _ (Some g)); [done|]. by apply bool_decide_eq_true_2.
      * intros (_ & x & Hi & Hg%bool_decide_eq_true)%positions_spec. rewrite Nat.sub_0_r in Hi.
        rewrite last_lookup in Hl. replace (Nat.pred (length gs)) with (length gs - 1)%nat in Hl by lia. congruence.
    + destruct Hn. apply last_None in Eg. clear Hl. induction gs as [|x gs IH]; [constructor|].
      destruct x; [done|]. constructor; [done|by apply IH].
Qed.

(** * The invariant of a log *)

Section log.
Context {F : FloatText} {Value NamedDefinition VertexKind : Type}.
#[local] Abbreviation Log := (Log (Value := Value) (NamedDefinition := NamedDefinition) (VertexKind := VertexKind)).
#[local] Abbreviation Row := (tail_row (Value := Value) (NamedDefinition := NamedDefinition) (VertexKind := VertexKind)).

#[local] Abbreviation Op := (op (Value := Value) (NamedDefinition := NamedDefinition) (VertexKind := VertexKind)).

(** Sequence numbers increase. *)
Definition increasing (s : Z) (rs : list Row) : Prop :=
  StronglySorted Z.lt (row_seq <$> rs) ∧ Forall (λ r, row_seq r < s) rs.
(** Groups are consecutive and were handed out before [g]. *)
Definition grouped (o : option Z) (g : Z) (rs : list Row) : Prop :=
  chunks o (row_group <$> rs) ∧ Forall (λ x, ∀ h, x = Some h → h < g) (row_group <$> rs).

Definition inv (L : Log) : Prop :=
  increasing (seq L) (rows L) ∧ grouped (head (stack L)) (gid L) (rows L) ∧
  depth L = length (stack L) ∧ Forall (λ h, h = gid L - 1) (stack L).

Lemma increasing_snoc s rs ev m g : increasing s rs → increasing (s + 1) (rs ++ [((ev, m), (s, g))]).
Proof.
  intros [Hs Hf]. split.
  - rewrite fmap_app. apply StronglySorted_app. split_and!; [|done|by repeat constructor].
    intros x1 x2 (r & -> & Hr)%list_elem_of_fmap ->%list_elem_of_singleton. rewrite Forall_forall in Hf. by apply Hf.
  - apply Forall_app. split; [eapply Forall_impl; [exact Hf|]; intros r Hr; simpl in *; lia|].
    constructor; [unfold row_seq; simpl; lia|constructor].
Qed.

Lemma increasing_drop n s rs : increasing s rs → increasing s (drop n rs).
Proof.
  intros [Hs Hf]. split; [|by apply Forall_drop]. rewrite <- (take_drop n rs), fmap_app in Hs. by apply StronglySorted_app_1_r in Hs.
Qed.
Lemma increasing_take n s rs : increasing s rs → increasing s (take n rs).
Proof.
  intros [Hs Hf]. split; [|by apply Forall_take]. rewrite <- (take_drop n rs), fmap_app in Hs. by apply StronglySorted_app_1_l in Hs.
Qed.

Lemma grouped_drop n o g rs : grouped o g rs → grouped o g (drop n rs).
Proof. intros [Hc Hf]. split; rewrite fmap_drop; [by apply chunks_drop|by apply Forall_drop]. Qed.
Lemma grouped_take n o g rs : grouped o g rs → grouped o g (take n rs).
Proof. intros [Hc Hf]. split; rewrite fmap_take; [by apply chunks_take|by apply Forall_take]. Qed.

Lemma inv_rows (f : list Row → list Row) L : (∀ s, increasing s (rows L) → increasing s (f (rows L))) →
  (∀ o g, grouped o g (rows L) → grouped o g (f (rows L))) → inv L → inv (set_rows (f (rows L)) L).
Proof. intros H1 H2 (Hs & Hg & Hd & Hst). split_and!; [by apply H1|by apply H2|done|done]. Qed.

Lemma inv_capped L : inv L → inv (capped L).
Proof.
  intros H. unfold capped. apply inv_rows; [..|done]; unfold kept; destruct (cap L); auto using increasing_drop, grouped_drop.
Qed.

Lemma stack_head L h : inv L → head (stack L) = Some h → h < gid L.
Proof. intros (_ & _ & _ & Hst) Hh. destruct (stack L); [done|]. apply Forall_cons in Hst as [-> _]. injection Hh as <-. lia. Qed.

Lemma inv_append keep m ev L : inv L → inv (append keep m ev L).
Proof.
  intros Hi. pose proof Hi as (Hs & [Hc Hf] & Hd & Hst). unfold append. destruct (on L); [|done].
  unfold inv. cbn. split_and!; [| |done|done].
  - destruct keep; [by apply increasing_snoc|]. destruct Hs as [? Hs]. split; [done|]. eapply Forall_impl; [exact Hs|]. simpl. lia.
  - destruct keep; [|done]. split; rewrite fmap_app; [by apply chunks_snoc|]. apply Forall_app. split; [done|].
    constructor; [|constructor]. intros h. by apply stack_head.
Qed.

Lemma inv_opened L : inv L → inv (opened L).
Proof.
  intros (Hs & [Hc Hf] & Hd & Hst). unfold opened. destruct (depth L) as [|d].
  - destruct (stack L); [|done]. split_and!; [done| |done|].
    + split; [by eapply chunks_open|]. eapply Forall_impl; [exact Hf|]. intros x Hx h Hh. specialize (Hx h Hh). cbn. lia.
    + constructor; [cbn; lia|constructor].
  - destruct (stack L) as [|g st] eqn:Est; [done|]. split_and!; [done|done|cbn in *; lia|]. cbn.
    apply Forall_cons in Hst as [? ?]. by repeat constructor.
Qed.

Lemma inv_closed d L : inv L → depth L = S d → inv (set_groups d (tail (stack L)) (gid L) L).
Proof.
  intros (Hs & [Hc Hf] & Hd & Hst) E. destruct (stack L) as [|g st] eqn:Est; [by rewrite Hd in E|].
  apply Forall_cons in Hst as [Hg Hst]. split_and!; [done| |cbn in *; lia|done]. split; [|done]. cbn.
  destruct st as [|h st]; [by eapply chunks_close|]. apply Forall_cons in Hst as [-> _]. cbn in Hc. by rewrite Hg in Hc.
Qed.

Lemma append_depth keep m ev (L : Log) : depth (append keep m ev L) = depth L.
Proof. unfold append. by destruct (on L). Qed.

Lemma inv_begin keep m d L : inv L → inv (begin_log keep m d L).
Proof. intros H. by apply inv_append, inv_opened. Qed.
Lemma inv_end keep m L : inv L → inv (end_log keep m L).
Proof.
  intros H. unfold end_log. destruct (depth L) as [|d] eqn:E; [done|]. apply inv_closed; [by apply inv_append|by rewrite append_depth].
Qed.
Lemma inv_replay keep m evs L : inv L → inv (foldl (replay keep m) L evs).
Proof.
  revert L. induction evs as [|ev evs IH]; intros L H; [done|]. simpl. apply IH.
  destruct ev; simpl; try (by apply inv_append); [by apply inv_begin|by apply inv_end].
Qed.

Lemma inv_next o L : inv L → inv (next o L).
Proof.
  intros H. destruct o; simpl; try done; try apply inv_capped.
  - by apply inv_append.
  - by apply inv_append.
  - by apply inv_begin.
  - by apply inv_end.
  - by apply inv_replay.
  - by apply inv_replay.
  - done.
  - apply (inv_rows (take n)); auto using increasing_take, grouped_take.
  - destruct H as (Hs & _ & _ & _). split_and!; [by repeat constructor| |done|done]. split; [|constructor]. by split.
  - apply (inv_rows (take n)); auto using increasing_take, grouped_take.
Qed.

Lemma inv_log os L : inv L → inv (next_log os L).
Proof. revert L. induction os as [|o os IH]; intros L H; [done|]. simpl. by apply IH, inv_next. Qed.

Lemma log_inv_new max : inv (new_log max : Log).
Proof. split_and!; [by repeat constructor| |done|constructor]. split; [by split|constructor]. Qed.

(** What the indices of the last group say of the rows. *)
Definition last_group_of (rs : list Row) (idxs : list nat) : Prop :=
  match last rs with
  | None => idxs = []
  | Some r =>
      match row_group r with
      | Some g =>
          ∃ k, (k < length rs)%nat ∧ idxs = List.seq k (length rs - k) ∧
            ∀ i x, rs !! i = Some x → row_group x = Some g ↔ (k ≤ i)%nat
      | None =>
          (Forall (λ x, row_group x = None) rs → idxs = [(length rs - 1)%nat]) ∧
          (¬ Forall (λ x, row_group x = None) rs → idxs ≠ [] ∧ (length rs - 1)%nat ∉ idxs)
      end
  end.

Lemma last_indices_exact o g rs : grouped o g rs → last_group_of rs (last_indices (row_group <$> rs)).
Proof.
  intros [Hc _]. unfold last_group_of. destruct (last rs) as [r|] eqn:El.
  2: { apply last_None in El as ->. done. }
  assert (El' : last (row_group <$> rs) = Some (row_group r)) by (by rewrite fmap_last, El).
  destruct (row_group r) as [h|] eqn:Eg.
  - destruct (last_grouped o _ h Hc El') as (k & Hk & Hi & Hx). rewrite length_fmap in *. exists k. split_and!; [done|done|].
    intros i x Hix. apply (Hx i). by rewrite list_lookup_fmap, Hix.
  - destruct (last_ungrouped _ El') as [H1 H2]. rewrite length_fmap, !Forall_fmap in *. by split.
Qed.

(** C21: in the log after any sequence of operations the retained events have increasing sequence
    numbers and are no more than the cap, and the events of a group are consecutive, so that when the
    last event has a group, the indices of the last group are those of the group's events and they end
    the log.  When the last event has no group but an earlier one has, the indices do not reach the end
    of the log. *)
Theorem log_groups_exact max (os : list Op) : allowed_log os (new_log max) →
  ∃ outs l rs, exec_log os (match max with Some n => with_max_changelog_events n | None => new end) = Ok (outs, l) ∧
    holds (retained l) rs ∧ increasing (next_seq l) rs ∧
    (∀ n, max_changelog_events l = Some n → (length rs ≤ n)%nat) ∧
    ∃ idxs l', last_group_indices l = Ok (idxs, l') ∧ last_group_of rs idxs.
Proof.
  intros Ha. destruct (new_rel (Value := Value) (NamedDefinition := NamedDefinition) (VertexKind := VertexKind) max) as [Hr Hw]. destruct (exec_log_rel os _ _ Hr Hw Ha) as (l & E & Hl & Hwl).
  destruct (inv_log os _ (log_inv_new max)) as (Hs & Hg & _). destruct (last_rel _ _ Hl) as (l' & Ei & _).
  destruct Hl as (c & -> & Hc). eexists _, _, (rows (next_log os (new_log max))). split_and!; [exact E|done|done| |].
  - intros n Hn. unfold within_cap in Hwl. cbn in Hn. by rewrite Hn in Hwl.
  - eexists _, _. split; [exact Ei|]. by eapply last_indices_exact.
Qed.

(** ** The description of a compound *)

Inductive balanced : list (ChangeEvent (Value := Value) (NamedDefinition := NamedDefinition) (VertexKind := VertexKind)) → Prop :=
| balanced_nil : balanced []
| balanced_plain ev evs : match ev with CompoundStart _ _ | CompoundEnd _ => False | _ => True end → balanced evs → balanced (ev :: evs)
| balanced_compound d n k inner evs : balanced inner → balanced evs → balanced (CompoundStart d n :: inner ++ CompoundEnd k :: evs).

Lemma start_skips evs : balanced evs → ∀ o before, (0 < o)%nat →
  start_description o (rev evs ++ before) = start_description o before.
Proof.
  induction 1 as [|ev evs Hev _ IH|d n k inner evs _ IHi _ IH]; intros o before Ho; [done| |].
  - simpl. rewrite <- app_assoc. simpl. rewrite IH by done. by destruct ev.
  - simpl. rewrite rev_app_distr. simpl. rewrite <- !app_assoc. simpl. rewrite IH by done. simpl. rewrite IHi by lia. simpl.
    destruct o; [lia|done].
Qed.

(** The description found for an end marker is that of the compound it ends. *)
Lemma compound_description pre d n inner k rest : balanced inner →
  compound_start_description (length pre + S (length inner)) (pre ++ CompoundStart d n :: inner ++ CompoundEnd k :: rest) = Ok (Some d).
Proof.
  intros Hb. unfold compound_start_description, vec_get.
  assert (E : pre ++ CompoundStart d n :: inner ++ CompoundEnd k :: rest = (pre ++ CompoundStart d n :: inner) ++ CompoundEnd k :: rest)
    by (by rewrite <- app_assoc).
  assert (El : (length pre + S (length inner))%nat = length (pre ++ CompoundStart d n :: inner)) by (by rewrite length_app).
  rewrite E, El, lookup_app_r, Nat.sub_diag by lia. cbn [expect lookup list_lookup mbind result_bind].
  rewrite take_app_length. rewrite rev_app_distr. simpl. rewrite <- app_assoc. simpl. by rewrite start_skips by (done || lia).
Qed.

End log.

(** * Witnesses *)

#[local] Abbreviation SampleEvent := (ChangeEvent (F := text_floats) (Value := Z) (NamedDefinition := unit) (VertexKind := unit)).
#[local] Abbreviation SampleOp := (op (F := text_floats) (Value := Z) (NamedDefinition := unit) (VertexKind := unit)).

Definition sample_cell (r : Z) : ASTNode :=
  let ref := Cell None {| row := r; col := 1; row_abs := false; col_abs := false |} in
  Node (Parser.Reference (show_reference ref) ref) None false.
(** Three members whose formulas moved with an insertion of two rows. *)
Definition sample_adjusted : FormulaRunAdjusted :=
  {| run_first := 100; run_length := 3; run_sheet := 0; run_col := 1; run_row0 := 12; old_first := sample_cell 11; new_first := sample_cell 13 |}.
Definition sample_visibility : SampleEvent := SetRowVisibility 0 4 Manual false true.
Definition sample_log : list SampleOp :=
  [OPublish default_meta [CBegin (str "InsertRows"); CRecord sample_visibility; CRun sample_adjusted; CEnd]; OLen; OMeta 5;
   OSetMax (Some 4%nat); OLen; OLastGroup; ORecord sample_visibility; OMeta 3; OLastGroup].

(** An answer in numbers. *)
Definition numbers (x : out (F := text_floats) (Value := Z) (NamedDefinition := unit) (VertexKind := unit)) : list Z :=
  match x with
  | OutMeta (Some (s, g)) => [s; default 0 g]
  | OutLen n => [Z.of_nat n]
  | OutIndices idxs => Z.of_nat <$> idxs
  | _ => []
  end.

Lemma is_ok_some {E A} (m : result E A) : (match m with Ok _ => true | _ => false end) = true → ∃ a, m = Ok a.
Proof. destruct m as [a|e|]; try done. by exists a. Qed.

Lemma sample_allowed : allowed_log sample_log (new_log None).
Proof.
  assert (Hrun : run_valid (Value := Z) (NamedDefinition := unit) (VertexKind := unit) sample_adjusted).
  { split; [done|]. apply is_ok_some. vm_compute. reflexivity. }
  unfold sample_log. cbn [allowed_log allowed]. split_and!; try exact I.
  do 4 (apply Forall_cons_2; [first [exact I|exact Hrun]|]). apply Forall_nil_2.
Qed.

Lemma change_log_refines_witness :
  (match exec_log sample_log new with
   | Ok (outs, _) => numbers <$> outs = [[]; [6]; [5; 1]; []; [4]; [0; 1; 2; 3]; []; [6; 0]; [0; 1; 2]]
   | _ => False
   end) ∧
  ∃ l', exec_log sample_log new = Ok (answers sample_log (new_log None), l') ∧
    rel l' (next_log sample_log (new_log None)) ∧ within_cap (next_log sample_log (new_log None)).
Proof. split; [vm_compute; reflexivity|]. exact (proj2 (change_log_refines None sample_log sample_allowed)). Defined.

Lemma log_groups_exact_witness :
  ∃ outs l rs, exec_log sample_log new = Ok (outs, l) ∧ holds (retained l) rs ∧ increasing (next_seq l) rs ∧
    (∀ n, max_changelog_events l = Some n → (length rs ≤ n)%nat) ∧
    ∃ idxs l', last_group_indices l = Ok (idxs, l') ∧ last_group_of rs idxs.
Proof. exact (log_groups_exact None sample_log sample_allowed). Defined.
